(* ===== verification/_CoqProject ===== *)
-Q . S2P
Prelude.v
CppString.v
Lines.v
Utils.v
Mutex.v
FifoQueue.v
Timer.v
TimerUnits.v
ClockTimer.v
Rule.v
Policy.v
Certificate.v
Credential.v
OpenSSL.v
SecurityService.v
Query.v
AstWalker.v
HashTable.v
Vector.v
VectorFactory.v
ConvertUTF.v
RtString.v
StringUTF8.v
CharStreams.v
IntTrie.v
Bitset.v
Topo.v
CyclicDFA.v
LexerTables.v
InputStream.v
InputRefine.v
Lexer.v
LexerSpec.v
LexerProps.v
LexerTypes.v
TokenStream.v
TokenStore.v
TokenRefine.v
TokenBuffer.v
BufferRefine.v
Tree.v
TreeStore.v
TreeRefine.v
TreePrograms.v
TreeCopy.v
NodeStream.v
NodeRefine.v
TreeDot.v
Debugger.v
DebugProtocol.v
TreeDebug.v
RewriteStore.v
RewriteRefine.v
Recognizer.v
Backtrack.v
BacktrackProps.v
ParserTables.v
Parser.v
Grammar.v
ParserSpec.v
ParserTotal.v
ParserProps.v
Message.v
TransportService.v
