(* ===== verification/Prelude.v ===== *)
(** A model of the repository manager, a server that grants access to resources
    on the evidence of signed credentials.

    THE PROGRAM. A client connects and sends a credential: a public key and
    certificates, each with clauses of a logic program, two times, the public key
    of its issuer and a signature. The server reads the message with a generated
    lexer and parser (src/parser, on the C run time of ANTLR in
    src/antlr/libantlr3c-3.4), walks the tree into objects
    (src/manager/AstWalker.h, src/utils/Certificate.h, Credential.h), checks the
    signatures and turns each clause into a statement of its issuer
    (src/utils/SecurityService.h), challenges the client to sign a random text,
    writes the policy (src/utils/Policy.h, Rule.h) and the statements to a file
    for XSB Prolog, and then answers requests by asking XSB whether the policy
    allows them. src/manager/TransportService.h is the server with its processes,
    src/manager/RepositoryManager.cpp the entry point.

    THE FILES, in the order of their dependencies. Definitions carry the names
    of the functions and members they model.
    - Prelude: outcomes (a value, an exception, undefined behaviour), machine
      integers, lists. CppString: the strings of C++ as lists of characters, with
      find, substr and the other members the code calls. Lines: texts of lines and
      fields, for what is written to be read by other programs.
    - Utils (RepositoryManagerUtils.h): the string constants, trim, and
      getUTCTimeSec with the calendar functions of C.
    - Mutex (Mutex.h, FifoQueue.h): the class over a mutex, and threads that run code
      between lock and unlock. FifoQueue (FifoQueue.h): a queue of nodes on a heap and
      the threads that share it, statement by statement. Timer, TimerUnits, ClockTimer
      (Timer.h): the timer, with the rounding of its readings, its units and output,
      and the one for systems without clock_gettime.
    - Rule, Policy, Certificate, Credential: the classes of the same names, a
      record each and a definition for each method.
    - OpenSSL: the class of the operations of OpenSSL that the code calls, the
      laws it relies on, and an instance for the witnesses.
    - SecurityService (SecurityService.h): digests, signatures, challenges,
      verification of credentials and transformation of clauses. Query: queries,
      the two threads of executeQuery as a step relation, the binder file.
    - AstWalker (AstWalker.h): the walk from the tree to a credential.
    - HashTable, Vector, VectorFactory, IntTrie, Topo (antlr3collections.c): the
      collections of the run time, with chains, arrays and nodes as the code has
      them. Bitset (antlr3bitset.c): its sets of numbers. RtString, StringUTF8
      (antlr3string.c): its strings of 8 and of 16 bits, the factory that owns them
      and their conversion to UTF-8.
    - ConvertUTF (antlr3convertutf.c): the conversions between UTF-8, UTF-16 and
      UTF-32. CharStreams (antlr3inputstream.c, antlr3filestream.c): the streams of
      characters over the bytes of a text, for every encoding and both byte orders.
    - CyclicDFA (antlr3cyclicdfa.c): the automata that choose alternatives, over
      a class of streams; InputStream (antlr3inputstream.c) and TokenStream
      (antlr3tokenstream.c) are its two instances. InputRefine: the first is what
      CharStreams does on a text of 8 bits. TokenBuffer (antlr3tokenstream.c): the
      stream of tokens as it is kept, with the buffer that is filled from a source, and
      every operation. BufferRefine: what its reader sees, over any source and over the
      lexer, and that the second is what TokenStream does.
    - LexerTables, Lexer (RepositoryManagerLexer.c, antlr3lexer.c): the tables
      and the rules of the lexer. LexerSpec: what each rule reads. LexerProps,
      LexerTypes: the theorems. TokenStore (antlr3commontoken.c, antlr3lexer.c): tokens
      in memory with the pools of their factory, and the whole lexer with its stack of
      streams. TokenRefine: the factory, and that tokens in memory are those of Lexer.
    - Tree (antlr3basetree.c, antlr3commontree.c, the two adaptors and
      antlr3rewritestreams.c): syntax trees as values, with which the parser is
      modelled. TreeStore: the nodes, the vectors of their children and the factory in
      memory, with every operation. TreeRefine: which trees the memory holds, and what
      each operation makes of them. TreePrograms: a program of calls builds the trees
      that the definitions of Tree compute. TreeCopy: copying and printing trees.
      RewriteStore, RewriteRefine (antlr3rewritestreams.c): the rewrite streams with the
      pool of their structures, and what they are as lists.
      NodeStream, NodeRefine (antlr3commontreenodestream.c): the streams that write a tree
      down as a list of nodes, and what their readers see of it. TreeDot
      (antlr3basetreeadaptor.c): the pictures of trees for Graphviz, and their reader.
    - Debugger (antlr3debughandlers.c): the listener that reports a parse to a debugger
      over a socket. DebugProtocol: what the debugger reads. TreeDebug
      (antlr3basetreeadaptor.c, antlr3commontreeadaptor.c): the tree adaptor that tells
      that listener what it does.
    - Recognizer (antlr3baserecognizer.c): matching and error recovery, as the parser
      uses them. Backtrack: the rest of the recognizer, with exceptions, syntactic
      predicates and the memory of rules, a trie of tries. BacktrackProps: predicates
      are parsing expressions, and the memory changes no result. ParserTables, Parser
      (RepositoryManagerParser.c): the follow sets and the 18 rules. Grammar: the
      language, RepositoryManager.g, as relations. ParserSpec: phrases are
      parsed. ParserTotal: every rule returns on every input. ParserProps: the
      theorem about the whole parser.
    - Message: from the text of a credential to its object (the first half of
      processMsg). TransportService: connections, requests, the listener, main.

    THE THEOREMS. Each is introduced by a comment with its number. They show
    that replies are sent only to clients whose response passed the check of its signature,
    and that what is granted was answered by XSB (C1, C7); what the check amounts to is
    stated with it (SecurityService: an unreadable key accepts every signature); that the parser accepts exactly the language of
    the grammar (C2) and that every message is parsed to an end (C4), that the
    lexer inverts printing and always advances (LexerProps) and emits only tokens whose
    text fits their type (LexerTypes), and that a printed
    credential is read back as the object it describes (C3); what a signature check, the
    verification of a credential and the transformation of its clauses do
    (SecurityService); that no byte is read outside the message buffer and
    that a connection is served to its end (TransportService); that the
    collections implement finite maps, lists, sets and a topological sort, with the
    inputs for which they do not (HashTable, Vector, VectorFactory, IntTrie, Bitset,
    Topo); that its strings hold the text their operations say and are freed exactly
    once (RtString, StringUTF8); that the conversions keep exactly the characters of a
    text and stop where it is illegal (ConvertUTF), and that a stream over the encoding
    of a text reads as that text without leaving the memory (CharStreams, InputRefine); that a
    reader of the buffer of tokens sees those of its channel in order, whatever it
    marks and rewinds, and that over the lexer these are the tokens the parser model
    reads (BufferRefine); that the trees in memory, with
    nodes that are given back and used again, are the trees as values, and that a copy of
    a tree shares no node with it (TreePrograms, TreeCopy), and that rewrite streams in
    memory do not know of each other (RewriteRefine); that the stream of a tree is the tree
    written down, from which a reader builds it again (NodeRefine), and that a picture shows
    the tree (TreeDot); that the listener and a debugger keep in step and events are
    read as they were sent (DebugProtocol), and that telling them changes no tree
    (TreeDebug); that a syntactic predicate
    decides whether its expression matches and where it leaves a trace in the recognizer, and
    that the memory of rules changes no result (BacktrackProps); that the code
    between lock and unlock is one step for other threads (Mutex), and that threads see
    the queue first in, first out (FifoQueue); that a token keeps the text it was
    emitted with (TokenRefine); and, for
    each component, what its operations return on every branch. Several theorems
    state defects: a text or an interleaving on which the code hangs, reads out
    of bounds, is killed, or accepts what it should refuse. The theorems without a
    number support the others or state further defects.

    BOUNDS AND FUEL. A loop of the code that is not structural is a fixpoint
    over fuel and returns [Undef NoFuel] without it; the theorems that such a
    loop returns state how much is enough (above the number of children for the
    walk, twice the number of tokens and two for the parser, the number of
    pieces of the input for the requests, one above the capacity of the buffer
    for the read loop, the entries of a table for its enumeration, the nodes of a
    graph and two for its sort), and the divergences are stated for every fuel.
    size_t, the words of bit sets and the buffers have their widths; signed
    overflow of int is undefined behaviour. The types ANTLR3_MARKER and ANTLR3_INTKEY have
    32 bits, as the build leaves ANTLR3_USE_64BIT undefined: stop indices and keys are
    cut to that width (Backtrack, TokenBuffer, NodeStream), and so are the pointers that
    are kept as markers (TokenStore, for texts) or pass through ANTLR3_FUNC_PTR (Backtrack,
    for tries); the theorems say where memory must lie for this to be harmless. The streams
    of characters (CharStreams, InputStream, Lexer) have offsets into a text below 2 GB in
    the place of pointers, and the remaining casts through ANTLR3_FUNC_PTR, of pointers to
    structures of the run time, are modelled for structures below 4 GB.

    PARAMETERS. OpenSSL, XSB (the answer to a query), sockets (the pieces that
    read delivers), fork and accept (the events of the listener), time and rand
    are arguments, as are the socket of the debugger, which takes some of each text that is
    sent, and the answers of the debugger.

    NOT MODELLED. OpenSSL, a library of the system, and XSB (src/XSB), a Prolog system
    that the server runs as another process and knows by its output only; output to
    the console; a failing malloc, but for the one of a mutex; the sharing of the file
    rlf_tmp.P between processes, each of which has its own in the model; the effect of
    pthread_kill on a detached thread that has ended, which is undefined and is refused in
    Query; the parts of the run time no generated code calls
    (tree parsers over the streams of nodes); ctime, which depends on the
    zone of the machine. The parser is modelled with tokens, trees and rewrite streams
    as values, with texts as lists of characters: by TokenRefine, TreePrograms and
    RewriteRefine they are those the memory holds. *)
(** The prelude: outcomes, machine integers, tactics and lemmas on lists. *)
From Stdlib Require Export Ascii ZArith Lia.
From stdpp Require Export base tactics list strings gmap.
#[global] Open Scope Z_scope.

(** ** C++ outcomes

    Every operation of the program that can leave the normal path is a
    computation of type [outcome]: it returns a value, throws a standard
    library exception, or reaches a state to which C++ gives no meaning. *)

(** The exceptions of the C++ standard library that the code can raise. *)
Inductive exn : Type :=
| OutOfRange  (** [std::out_of_range], thrown by [std::string::substr] *).

(** The undefined behaviours and divergences the code can run into. *)
Inductive fault : Type :=
| BadIndex    (** [operator[]] of [std::string] past the terminator *)
| NullDeref   (** a member access through a null pointer *)
| IntOverflow (** signed overflow of an [int] *)
| DivByZero   (** a remainder by zero *)
| WrongMember (** a read of the member of a union that was not written *)
| Uninit      (** a read of a member that was never set *)
| UseAfterFree (** an access to memory that was released *)
| NotHeld     (** an unlock of a mutex that the thread does not hold *)
| Killed      (** the process is killed by a signal *)
| NoFuel      (** the step budget of a loop is exhausted *).

Inductive outcome (A : Type) : Type :=
| Ok (a : A)
| Throw (e : exn)
| Undef (f : fault).
Arguments Ok {A} _.
Arguments Throw {A} _.
Arguments Undef {A} _.

#[export] Instance exn_eq_dec : EqDecision exn.
Proof. solve_decision. Defined.
#[export] Instance fault_eq_dec : EqDecision fault.
Proof. solve_decision. Defined.
#[export] Instance outcome_eq_dec {A} `{!EqDecision A} : EqDecision (outcome A).
Proof. solve_decision. Defined.

#[export] Instance outcome_ret : MRet outcome := λ A a, Ok a.
#[export] Instance outcome_bind : MBind outcome := λ A B f m,
  match m with
  | Ok a => f a
  | Throw e => Throw e
  | Undef u => Undef u
  end.
#[export] Instance outcome_fmap : FMap outcome := λ A B f m,
  match m with
  | Ok a => Ok (f a)
  | Throw e => Throw e
  | Undef u => Undef u
  end.

(** A member access through a pointer, and a read of a member that may not
    have been set. *)
Definition deref {A} (o : option A) : outcome A :=
  match o with Some a => Ok a | None => Undef NullDeref end.
Definition init {A} (o : option A) : outcome A :=
  match o with Some a => Ok a | None => Undef Uninit end.

(** Reading an array: there is nothing outside it. *)
Definition index {A} (l : list A) (i : Z) : outcome A :=
  if i <? 0 then Undef BadIndex
  else match l !! Z.to_nat i with Some x => Ok x | None => Undef BadIndex end.

(** [oc_map f l] runs [f] on the elements of [l] from left to right. *)
Fixpoint oc_map {A B} (f : A → outcome B) (l : list A) : outcome (list B) :=
  match l with
  | [] => Ok []
  | a :: l => b ← f a; bs ← oc_map f l; Ok (b :: bs)
  end.

(** ** Machine integers: [size_t] is 64 bits wide on the target. *)
Definition u64 (z : Z) : Z := z mod 2 ^ 64.
Definition u32 (z : Z) : Z := z mod 2 ^ 32.
(** Two's complement reading of the low [w] bits. *)
Definition sint (w z : Z) : Z := (z + 2 ^ (w - 1)) mod 2 ^ w - 2 ^ (w - 1).
(** The range of [int], and its arithmetic: signed overflow has no meaning. *)
Definition INT_MIN : Z := - 2 ^ 31.
Definition INT_MAX : Z := 2 ^ 31 - 1.
Definition int_ok (z : Z) : bool := (INT_MIN <=? z) && (z <=? INT_MAX).
Definition int_op (z : Z) : outcome Z :=
  if int_ok z then Ok z else Undef IntOverflow.
Definition npos : Z := 2 ^ 64 - 1.

Lemma u64_small z : 0 ≤ z < 2 ^ 64 → u64 z = z.
Proof. apply Z.mod_small. Qed.
Lemma u64_range z : 0 ≤ u64 z < 2 ^ 64.
Proof. apply Z.mod_pos_bound; lia. Qed.
Lemma u64_npos_S : u64 (npos + 1) = 0.
Proof. reflexivity. Qed.
Lemma u32_small z : 0 ≤ z < 2 ^ 32 → u32 z = z.
Proof. apply Z.mod_small. Qed.
Lemma int_op_ok z : INT_MIN ≤ z ≤ INT_MAX → int_op z = Ok z.
Proof.
  intros [H1 H2]. unfold int_op, int_ok.
  apply Z.leb_le in H1, H2. by rewrite H1, H2.
Qed.
Lemma sint_small w z : 0 < w → - 2 ^ (w - 1) ≤ z < 2 ^ (w - 1) → sint w z = z.
Proof.
  intros Hw Hz. unfold sint. rewrite Z.mod_small; [lia|].
  assert (2 ^ w = 2 * 2 ^ (w - 1)) as ->; [|lia].
  rewrite <-Z.pow_succ_r by lia. f_equal. lia.
Qed.

(** A mask with one bit tests that bit. *)
Lemma land_pow2_testbit w b : 0 ≤ b → negb (Z.land w (2 ^ b) =? 0) = Z.testbit w b.
Proof.
  intros Hb. destruct (Z.eqb_spec (Z.land w (2 ^ b)) 0) as [E|E]; cbn [negb].
  - destruct (Z.testbit w b) eqn:Et; [|done].
    assert (H : Z.testbit (Z.land w (2 ^ b)) b = true)
      by by rewrite Z.land_spec, Z.pow2_bits_true, Et by lia.
    by rewrite E, Z.bits_0 in H.
  - destruct (Z.testbit w b) eqn:Et; [done|]. destruct E. apply Z.bits_inj'. intros c Hc.
    rewrite Z.land_spec, Z.bits_0, Z.pow2_bits_eqb by lia.
    destruct (Z.eqb_spec b c) as [->|]; by rewrite ?Et, ?andb_false_r.
Qed.

(** ** Tactics *)

(** Equations for the lengths of strings. *)
Create Rewrite HintDb len.

(** Case analysis on every comparison of the goal; what [lia] refutes is closed. *)
Ltac zb := repeat match goal with
  | |- context [Z.ltb ?a ?b] => destruct (Z.ltb_spec a b); cbn [negb andb orb]; try (exfalso; lia)
  | |- context [Z.leb ?a ?b] => destruct (Z.leb_spec a b); cbn [negb andb orb]; try (exfalso; lia)
  | |- context [Z.eqb ?a ?b] => destruct (Z.eqb_spec a b); cbn [negb andb orb]; try (exfalso; lia)
  end.

(** Split conjunctions and existentials of the context. *)
Ltac dex :=
  repeat match goal with
  | H : ∃ x, _ |- _ => let y := fresh x in destruct H as [y H]
  | H : _ ∧ _ |- _ => let H' := fresh H in destruct H as [H H']
  end.

(** Case analysis on the boolean and decidable tests of the goal. *)
Ltac case_tests :=
  repeat match goal with
  | |- context [if decide ?P then _ else _] => destruct (decide P)
  | |- context [if bool_decide ?P then _ else _] => case_bool_decide
  | |- context [if ?b then _ else _] => let E := fresh "E" in destruct b eqn:E
  end.

(** ** Lists *)

Lemma index_lookup {A} (l : list A) i x : 0 ≤ i → l !! Z.to_nat i = Some x → index l i = Ok x.
Proof. intros Hi Hx. unfold index. destruct (Z.ltb_spec i 0); [lia|]. by rewrite Hx. Qed.

(** Updating an array in place. *)
Lemma insert_split {A} (l : list A) i x y :
  l !! i = Some x → ∃ l1 l2, l = l1 ++ x :: l2 ∧ length l1 = i ∧ <[i := y]> l = l1 ++ y :: l2.
Proof.
  intros H. exists (take i l), (drop (S i) l).
  assert (i < length l)%nat by by eapply lookup_lt_Some.
  rewrite length_take, take_drop_middle by done. split_and!; [done|lia|].
  by rewrite insert_take_drop.
Qed.

Lemma take_length_app {A} (l k : list A) n :
  length l = n → take n (l ++ k) = l.
Proof. intros <-. apply take_app_length. Qed.
Lemma drop_length_app {A} (l k : list A) n :
  length l = n → drop n (l ++ k) = k.
Proof. intros <-. apply drop_app_length. Qed.

(** The cut at the first occurrence of an element is unique. *)
Lemma split_first_inj {A} (x : A) a a' r r' :
  a ++ x :: r = a' ++ x :: r' → x ∉ a → x ∉ a' → a = a' ∧ r = r'.
Proof.
  revert a'. induction a as [|y a IH]; intros [|y' a'] H Ha Ha'; simplify_eq/=; try done.
  - by rewrite not_elem_of_cons in Ha'; destruct Ha'.
  - by rewrite not_elem_of_cons in Ha; destruct Ha.
  - rewrite not_elem_of_cons in Ha, Ha'. destruct (IH a') as [-> ->]; tauto.
Qed.

(** Counting after a renaming. *)
Lemma length_filter_map {A B} (f : B → bool) (g : A → bool) (h : A → B) (l : list A) :
  (∀ x, x ∈ l → f (h x) = g x) →
  length (filter (λ y, f y = true) (h <$> l)) = length (filter (λ x, g x = true) l).
Proof.
  induction l as [|x l IH]; intros Hf; [done|]. rewrite fmap_cons, !filter_cons, Hf by left.
  specialize (IH (λ y Hy, Hf y (list_elem_of_further _ _ _ Hy))). destruct (decide (g x = true)); cbn; lia.
Qed.

(** Distinct numbers below a bound are at most as many as the bound. *)
Lemma nodup_bound l n : NoDup l → Forall (λ z, 0 ≤ z < Z.of_nat n) l → (length l ≤ n)%nat.
Proof.
  intros Hd Hl. rewrite <-(Nat2Z.id n), <-(length_seqZ 0 (Z.of_nat n)).
  apply submseteq_length, NoDup_submseteq; [done|]. intros z Hz.
  apply elem_of_seqZ. rewrite Forall_forall in Hl. specialize (Hl _ Hz). lia.
Qed.

(** [join sep l]: the elements of [l] separated by [sep]. *)
Fixpoint join {A} (sep : list A) (l : list (list A)) : list A :=
  match l with
  | [] => []
  | [x] => x
  | x :: l => x ++ sep ++ join sep l
  end.

Lemma join_cons {A} (sep x : list A) l :
  l ≠ [] → join sep (x :: l) = x ++ sep ++ join sep l.
Proof. by destruct l. Qed.

Lemma length_join_le {A} (sep : list A) l :
  sep ≠ [] → (length l ≤ S (length (join sep l)))%nat.
Proof.
  intros Hs. induction l as [|x l IH]; [simpl; lia|].
  destruct l as [|y l]; [simpl; lia|].
  rewrite join_cons, !length_app by done. destruct sep; [done|]. simpl in *. lia.
Qed.

(** [forall_range f n z]: [f] holds of [z], ..., [z + n - 1]; decides a
    property of a bounded integer by evaluation. *)
Fixpoint forall_range (f : Z → bool) (n : nat) (z : Z) : bool :=
  match n with
  | O => true
  | S n => f z && forall_range f n (z + 1)
  end.

Lemma forall_range_spec f n z :
  forall_range f n z = true → ∀ x, z ≤ x < z + Z.of_nat n → f x = true.
Proof.
  revert z. induction n as [|n IH]; intros z H x Hx; simpl in *; [lia|].
  apply andb_true_iff in H as [Hz H].
  destruct (decide (x = z)) as [->|]; [done|]. apply (IH (z + 1)); [done|lia].
Qed.

(** ** Maps *)

Lemma size_delete_Some {K A} `{Countable K} (m : gmap K A) k x :
  m !! k = Some x → size m = S (size (delete k m)).
Proof.
  intros Hk. rewrite <-(insert_delete_id m k x Hk) at 1. rewrite map_size_insert_None; [done|].
  apply lookup_delete_eq.
Qed.
