(* ===== verification/CppString.v ===== *)
(** The [std::string] operations the program uses, over lists of characters. *)
From S2P Require Import Prelude.

(** A C++ string is its sequence of characters; a NUL may occur in it. *)
Abbreviation str := (list ascii).
(** String literals of the source. *)
Definition lit (s : string) : str := String.list_ascii_of_string s.
Arguments lit _%_string.
Definition nul : ascii := Ascii.zero.
Definition nl : ascii := ascii_of_nat 10.

(** [s.length()] *)
Definition len (s : str) : Z := Z.of_nat (length s).
(** libstdc++ strings are shorter than [npos]; the target has 2^63-1 as its
    largest object size. *)
Definition str_ok (s : str) : Prop := len s < 2 ^ 63.
#[export] Instance str_ok_dec s : Decision (str_ok s).
Proof. unfold str_ok. apply _. Defined.

(** [p] is a prefix of [s]. *)
Fixpoint prefixb (p s : str) : bool :=
  match p, s with
  | [], _ => true
  | a :: p, b :: s => bool_decide (a = b) && prefixb p s
  | _ :: _, [] => false
  end.

(** Index of the first occurrence of [p] in [s]. *)
Fixpoint search (p s : str) : option nat :=
  if prefixb p s then Some 0%nat
  else match s with [] => None | _ :: s' => S <$> search p s' end.

Definition of_index (base : Z) (o : option nat) : Z :=
  match o with Some i => base + Z.of_nat i | None => npos end.

(** [s.find(p, pos)] *)
Definition find_from (s p : str) (pos : Z) : Z :=
  if len s <? pos then npos
  else of_index pos (search p (drop (Z.to_nat pos) s)).
(** [s.find(p)] *)
Definition find (s p : str) : Z := find_from s p 0.

(** Index of the first character that satisfies [f]. *)
Fixpoint index_where (f : ascii → bool) (s : str) : option nat :=
  match s with
  | [] => None
  | c :: s => if f c then Some 0%nat else S <$> index_where f s
  end.

(** [s.find_first_of(set)]: the first character that is one of [set]. *)
Definition find_first_of (s set : str) : Z :=
  of_index 0 (index_where (λ c, bool_decide (c ∈ set)) s).

(** [s.find_last_of(set)] *)
Definition find_last_of (s set : str) : Z :=
  match index_where (λ c, bool_decide (c ∈ set)) (reverse s) with
  | Some i => len s - 1 - Z.of_nat i
  | None => npos
  end.

(** [s.substr(pos, n)]; [pos] and [n] are values of [size_t]. *)
Definition substr (s : str) (pos n : Z) : outcome str :=
  if len s <? pos then Throw OutOfRange
  else Ok (take (Z.to_nat (Z.min n (len s - pos))) (drop (Z.to_nat pos) s)).

(** [s[pos]] on a constant string: the terminator at [size()], no meaning
    past it. *)
Definition char_at (s : str) (pos : Z) : outcome ascii :=
  if (pos <? 0) || (len s <? pos) then Undef BadIndex
  else Ok (default nul (s !! Z.to_nat pos)).

(** The conversion of a [char*] buffer to a string stops at the first NUL. *)
Fixpoint c_str (s : str) : str :=
  match s with
  | [] => []
  | c :: s => if bool_decide (c = nul) then [] else c :: c_str s
  end.

(** [isspace] in the C locale. *)
Definition isspace (c : ascii) : bool :=
  let n := nat_of_ascii c in ((9 <=? n) && (n <=? 13) || (n =? 32))%nat.

(** ** Occurrences *)

Definition occurs (p s : str) : Prop := ∃ a b, s = a ++ p ++ b.

Lemma c_str_id s : nul ∉ s → c_str s = s.
Proof.
  induction s as [|c s IH]; [done|]. intros [Hc Hs]%not_elem_of_cons. cbn.
  rewrite bool_decide_eq_false_2 by done. by rewrite IH.
Qed.
Lemma prefixb_spec p s : prefixb p s = true ↔ ∃ b, s = p ++ b.
Proof.
  revert s. induction p as [|a p IH]; intros s; simpl.
  { split; [by exists s|done]. }
  destruct s as [|c s]; [split; [done|by intros [b ?]]|].
  rewrite andb_true_iff, bool_decide_eq_true, IH. split.
  - intros [-> [b ->]]. by exists b.
  - intros [b [= -> ->]]. split; [done|by exists b].
Qed.

Lemma prefixb_app p s : prefixb p (p ++ s) = true.
Proof. apply prefixb_spec. by exists s. Qed.

Lemma search_Some p s i :
  search p s = Some i →
  s = take i s ++ p ++ drop (i + length p) s ∧ (i + length p ≤ length s)%nat.
Proof.
  revert i. induction s as [|c s IH]; intros i; simpl.
  - destruct (prefixb p []) eqn:E; [|done]. intros [= <-].
    apply prefixb_spec in E as [b Hb]. by destruct p; simplify_eq.
  - destruct (prefixb p (c :: s)) eqn:E.
    + intros [= <-]. apply prefixb_spec in E as [b Hb]. rewrite Hb. simpl.
      rewrite drop_app_length. split; [done|].
      apply (f_equal length) in Hb. rewrite length_app in Hb. simpl in Hb. lia.
    + destruct (search p s) as [j|] eqn:Ej; [|done]. intros [= <-].
      destruct (IH j eq_refl) as [Hs Hl]. simpl. split; [by f_equal|lia].
Qed.

Lemma search_split p s i :
  search p s = Some i → ∃ a b, s = a ++ p ++ b ∧ length a = i.
Proof.
  intros [Hs Hl]%search_Some. exists (take i s), (drop (i + length p) s).
  split; [done|]. rewrite length_take. lia.
Qed.

Lemma search_None p s : search p s = None ↔ ¬ occurs p s.
Proof.
  induction s as [|c s IH]; simpl.
  - destruct (prefixb p []) eqn:E; split; try done.
    + intros H. destruct H. apply prefixb_spec in E as [b ?]. by exists [], b.
    + intros _ (a & b & Hab). destruct a, p; simplify_eq/=.
  - destruct (prefixb p (c :: s)) eqn:E.
    { split; [done|]. intros []. apply prefixb_spec in E as [b ?]. by exists [], b. }
    rewrite fmap_None, IH. split.
    + intros Hn ([|x a] & b & Hab); simpl in *.
      * assert (prefixb p (c :: s) = true) by (apply prefixb_spec; eauto). congruence.
      * injection Hab as -> ->. apply Hn. by exists a, b.
    + intros Hn (a & b & ->). apply Hn. by exists (c :: a), b.
Qed.

#[export] Instance occurs_dec p s : Decision (occurs p s).
Proof.
  refine (match search p s as o return search p s = o → _ with
          | Some i => λ E, left _ | None => λ E, right _ end eq_refl).
  - destruct (search_split _ _ _ E) as (a & b & H & _). by exists a, b.
  - by apply search_None.
Defined.

(** The first occurrence of a two character pattern with different
    characters: a pattern cannot overlap itself. *)
Lemma search_two x y h b :
  x ≠ y → ¬ occurs [x; y] h → search [x; y] (h ++ x :: y :: b) = Some (length h).
Proof.
  intros Hxy. induction h as [|c h IH]; intros Hn; simpl.
  { by rewrite !bool_decide_eq_true_2 by done; done. }
  assert (search [x; y] (h ++ x :: y :: b) = Some (length h)) as ->.
  { apply IH. intros (a & b' & ->). apply Hn. by exists (c :: a), b'. }
  simpl. case_bool_decide as Hc; simpl; [|done]. subst c.
  destruct h as [|d h]; simpl.
  - by rewrite bool_decide_eq_false_2.
  - case_bool_decide; simpl; [|done]. subst. destruct Hn. by exists [], h.
Qed.

Lemma search_one x h b :
  x ∉ h → search [x] (h ++ x :: b) = Some (length h).
Proof.
  induction h as [|c h IH]; simpl; intros Hn.
  { by rewrite bool_decide_eq_true_2. }
  apply not_elem_of_cons in Hn as [Hc Hn].
  rewrite bool_decide_eq_false_2 by done. simpl. by rewrite IH.
Qed.

Lemma occurs_two_inv x y a l :
  occurs [x; y] (a :: l) → (a = x ∧ head l = Some y) ∨ occurs [x; y] l.
Proof.
  intros ([|c p] & q & H); simplify_eq/=; [by left|right; by exists p, q].
Qed.

(** ** Positions *)

Lemma len_nonneg s : 0 ≤ len s.
Proof. unfold len. lia. Qed.
Lemma len_app s t : len (s ++ t) = len s + len t.
Proof. unfold len. rewrite length_app. lia. Qed.
Lemma len_cons c s : len (c :: s) = 1 + len s.
Proof. unfold len. simpl. lia. Qed.
Lemma len_nil : len [] = 0.
Proof. done. Qed.

Lemma find_search s p : find s p = of_index 0 (search p s).
Proof.
  unfold find, find_from. pose proof (len_nonneg s).
  destruct (Z.ltb_spec (len s) 0); [lia|]. done.
Qed.

Lemma find_Some s p i : search p s = Some i → find s p = Z.of_nat i.
Proof. intros H. rewrite find_search, H. simpl. lia. Qed.

Lemma find_npos s p : str_ok s → find s p = npos ↔ ¬ occurs p s.
Proof.
  intros Hok. rewrite find_search, <-search_None. unfold str_ok, len, npos in *.
  destruct (search p s) as [i|] eqn:E; simpl; [|done].
  apply search_Some in E as [_ ?]. split; [lia|done].
Qed.

Lemma substr_app_l s t n :
  n = len s → substr (s ++ t) 0 n = Ok s.
Proof.
  intros ->. unfold substr. rewrite len_app.
  pose proof (len_nonneg s). pose proof (len_nonneg t).
  destruct (Z.ltb_spec (len s + len t) 0); [lia|]. simpl.
  rewrite Z.min_l by lia. unfold len. rewrite Nat2Z.id. change (Z.to_nat 0) with 0%nat.
  by rewrite drop_0, take_app_length.
Qed.

Lemma substr_app_r s t pos n :
  pos = len s → len t ≤ n → substr (s ++ t) pos n = Ok t.
Proof.
  intros -> Hn. unfold substr. rewrite len_app. pose proof (len_nonneg t).
  destruct (Z.ltb_spec (len s + len t) (len s)); [lia|].
  rewrite Z.min_r by lia. unfold len in *. rewrite Nat2Z.id, drop_app_length.
  rewrite take_ge; [done|]. lia.
Qed.

Lemma len_lit_nil : len (lit "") = 0.
Proof. done. Qed.
Lemma len_lit_cons c s : len (lit (String c s)) = 1 + len (lit s).
Proof. apply len_cons. Qed.

Lemma substr_app_mid a b c pos n :
  pos = len a → n = len b → substr (a ++ b ++ c) pos n = Ok b.
Proof.
  intros -> ->. unfold substr. rewrite !len_app.
  pose proof (len_nonneg b). pose proof (len_nonneg c).
  destruct (Z.ltb_spec (len a + (len b + len c)) (len a)); [lia|].
  rewrite Z.min_l by lia. unfold len.
  by rewrite !Nat2Z.id, drop_app_length, take_app_length.
Qed.

Lemma char_at_app a c b : char_at (a ++ c :: b) (len a) = Ok c.
Proof.
  unfold char_at. rewrite len_app, len_cons.
  pose proof (len_nonneg a). pose proof (len_nonneg b).
  destruct (Z.ltb_spec (len a) 0); [lia|].
  destruct (Z.ltb_spec (len a + (1 + len b)) (len a)); [lia|]. cbn [orb].
  rewrite list_lookup_middle; [done|]. unfold len. by rewrite Nat2Z.id.
Qed.

(** The first character of a one-element set. *)
Lemma index_where_char x s :
  match index_where (λ c, bool_decide (c ∈ [x])) s with
  | Some i => ∃ a b, s = a ++ x :: b ∧ length a = i ∧ x ∉ a
  | None => x ∉ s
  end.
Proof.
  induction s as [|c s IH]; cbn [index_where]; [by apply not_elem_of_nil|].
  destruct (decide (c = x)) as [->|Hc].
  - rewrite bool_decide_eq_true_2 by set_solver.
    exists [], s. split_and!; [done..|apply not_elem_of_nil].
  - rewrite bool_decide_eq_false_2 by set_solver.
    destruct (index_where _ s) as [i|]; cbn.
    + destruct IH as (a & b & -> & <- & Ha). exists (c :: a), b.
      split_and!; [done..|]. by apply not_elem_of_cons.
    + by apply not_elem_of_cons.
Qed.

Lemma index_where_app x a b :
  x ∉ a → index_where (λ c, bool_decide (c ∈ [x])) (a ++ x :: b) = Some (length a).
Proof.
  induction a as [|c a IH]; intros H; cbn [app index_where length].
  - by rewrite bool_decide_eq_true_2 by set_solver.
  - apply not_elem_of_cons in H as [Hc H].
    rewrite bool_decide_eq_false_2 by set_solver. by rewrite IH.
Qed.

Lemma find_first_of_char x a b :
  x ∉ a → find_first_of (a ++ x :: b) [x] = len a.
Proof. intros H. unfold find_first_of. by rewrite index_where_app. Qed.

Lemma find_first_of_none x s : x ∉ s → find_first_of s [x] = npos.
Proof.
  intros H. unfold find_first_of. pose proof (index_where_char x s) as Hi.
  destruct (index_where _ s); [|done]. destruct Hi as (a & b & -> & _ & _).
  set_solver.
Qed.

Lemma index_where_bound f s i :
  index_where f s = Some i → (i < length s)%nat.
Proof.
  revert i. induction s as [|c s IH]; intros i; cbn; [done|].
  destruct (f c); [intros [= <-]; lia|].
  destruct (index_where f s) as [j|]; cbn; [|done]. intros [= <-].
  specialize (IH j eq_refl). lia.
Qed.

Lemma index_where_le f a c b :
  f c = true → ∃ i, index_where f (a ++ c :: b) = Some i ∧ (i ≤ length a)%nat.
Proof.
  intros Hc. induction a as [|d a IH]; cbn.
  - rewrite Hc. by exists 0%nat.
  - destruct (f d); [exists 0%nat; split; [done|lia]|].
    destruct IH as (i & -> & Hi). exists (S i). cbn. split; [done|lia].
Qed.

(** [find_first_of] finds a position not after a given member of the set. *)
Lemma find_first_of_le set a c b :
  c ∈ set → ∃ p q, a = p ++ q ∧ find_first_of (a ++ c :: b) set = len p.
Proof.
  intros Hc. unfold find_first_of.
  destruct (index_where_le (λ c, bool_decide (c ∈ set)) a c b) as (i & -> & Hi).
  { by apply bool_decide_eq_true_2. }
  exists (take i a), (drop i a). rewrite take_drop. split; [done|].
  cbn. unfold len. rewrite length_take. lia.
Qed.

#[export] Hint Rewrite len_lit_nil len_lit_cons len_app len_cons len_nil : len.

(** Lengths by linear arithmetic. *)
Ltac len_nonneg s :=
  lazymatch goal with
  | _ : 0 ≤ len s |- _ => fail
  | _ => pose proof (len_nonneg s)
  end.

Ltac len_lia :=
  unfold str_ok in *; autorewrite with len in *;
  repeat match goal with
  | |- context [len ?s] => len_nonneg s
  | _ : context [len ?s] |- _ => len_nonneg s
  | s : str |- _ => len_nonneg s
  end; lia.
