(* ===== verification/Lines.v ===== *)
(** Texts of lines and of fields, as the listener of [Debugger] and the pictures of
    [TreeDot] write them and their readers take them apart. *)
From S2P Require Import Prelude.
From S2P Require Import CppString.

(** [sprintf] into an array of [n] characters. *)
Definition sprintf (n : Z) (s : str) : outcome str :=
  if len s <? n then Ok s else Undef BadIndex.

Definition tab_char : ascii := ascii_of_nat 9.
Definition tab : str := [tab_char].
Definition quote : ascii := ascii_of_nat 34.
Definition backslash : ascii := ascii_of_nat 92.
Fixpoint split_at (c : ascii) (s : str) : list str :=
  match s with
  | [] => [[]]
  | x :: s =>
      if bool_decide (x = c) then [] :: split_at c s
      else match split_at c s with w :: ws => (x :: w) :: ws | [] => [[x]] end
  end.
(** What comes before a character, and after it. *)
Fixpoint until (c : ascii) (s : str) : option (str * str) :=
  match s with
  | [] => None
  | x :: s =>
      if bool_decide (x = c) then Some ([], s)
      else '(w, rest) ← until c s; Some (x :: w, rest)
  end.
(** What comes after a text. *)
Definition after (p s : str) : option str := if prefixb p s then Some (drop (length p) s) else None.

Lemma sprintf_ok n s : len s < n → sprintf n s = Ok s.
Proof. intros H. unfold sprintf. by destruct (Z.ltb_spec (len s) n); [|lia]. Qed.
Lemma until_word c w s : c ∉ w → until c (w ++ c :: s) = Some (w, s).
Proof.
  induction w as [|x w IH]; cbn; intros Hc; [by rewrite bool_decide_eq_true_2|].
  apply not_elem_of_cons in Hc as [Hx Hc]. rewrite bool_decide_eq_false_2 by congruence. by rewrite IH.
Qed.
Lemma after_app p s : after p (p ++ s) = Some s.
Proof.
  unfold after. assert (prefixb p (p ++ s) = true) as -> by (apply prefixb_spec; by exists s). by rewrite drop_app_length.
Qed.
Lemma split_at_nonempty c s : ∃ w ws, split_at c s = w :: ws.
Proof.
  induction s as [|x s (w & ws & E)]; cbn; [by eexists _, _|].
  destruct (bool_decide (x = c)); [by eexists _, _|]. rewrite E. by eexists _, _.
Qed.
Lemma split_at_word c w s : c ∉ w → split_at c (w ++ c :: s) = w :: split_at c s.
Proof.
  induction w as [|x w IH]; cbn; intros Hc; [by rewrite bool_decide_eq_true_2|].
  apply not_elem_of_cons in Hc as [Hx Hc]. rewrite bool_decide_eq_false_2 by congruence. by rewrite IH.
Qed.
Lemma split_at_last c w : c ∉ w → split_at c w = [w].
Proof.
  induction w as [|x w IH]; cbn; intros Hc; [done|].
  apply not_elem_of_cons in Hc as [Hx Hc]. rewrite bool_decide_eq_false_2 by congruence. by rewrite IH.
Qed.
Lemma split_at_join c ws : ws ≠ [] → Forall (λ w, c ∉ w) ws → split_at c (join [c] ws) = ws.
Proof.
  induction ws as [|w ws IH]; [done|]. intros _ [Hw Hws]%Forall_cons. destruct ws as [|w' ws]; [by apply split_at_last|].
  rewrite join_cons by done. change (w ++ [c] ++ join [c] (w' :: ws)) with (w ++ c :: join [c] (w' :: ws)).
  by rewrite split_at_word, IH by done.
Qed.
Definition unlines (ls : list str) : str := mjoin ((λ l, l ++ [nl]) <$> ls).
Lemma unlines_app a b : unlines (a ++ b) = unlines a ++ unlines b.
Proof.
  induction a as [|l a IH]; [done|].
  change (unlines ((l :: a) ++ b)) with ((l ++ [nl]) ++ unlines (a ++ b)). by rewrite IH, app_assoc.
Qed.
Lemma split_at_lines_last ls w : Forall (λ l, nl ∉ l) ls → nl ∉ w → split_at nl (unlines ls ++ w) = ls ++ [w].
Proof.
  intros Hls Hw. induction Hls as [|l ls Hl Hls IH]; [by apply split_at_last|].
  change (unlines (l :: ls)) with ((l ++ [nl]) ++ unlines ls).
  rewrite <-!app_assoc. cbn [app]. by rewrite split_at_word, IH by done.
Qed.
Lemma split_at_lines ls : Forall (λ l, nl ∉ l) ls → split_at nl (unlines ls) = ls ++ [[]].
Proof. intros H. rewrite <-(app_nil_r (unlines ls)). apply split_at_lines_last; [done|apply not_elem_of_nil]. Qed.
Lemma not_in_join c sep (ws : list str) : c ∉ sep → Forall (λ w, c ∉ w) ws → c ∉ join sep ws.
Proof.
  intros Hs. induction ws as [|w ws IH]; [intros _; apply not_elem_of_nil|]. intros [Hw Hws]%Forall_cons.
  destruct ws as [|w' ws]; [done|]. rewrite join_cons, !not_elem_of_app by done. auto.
Qed.

(** For membership in texts that are given. *)
Ltac concrete := apply (bool_decide_unpack _); vm_compute; exact I.
