(* ===== verification/Utils.v ===== *)
(** src/utils/RepositoryManagerUtils.h: the constants of the protocol, [trim]
    and the conversion of a [datime] predicate to seconds. *)
From S2P Require Import Prelude CppString.

(** ** Constants *)
Definition MAX_CHALLENGE_BUF : Z := 32.
Definition MAX_READ : Z := 128.
Definition MAX_LINE : Z := 128.
Definition MAX_CONNECT : Z := 64.
Definition MAX_BUFF : Z := 51200.

Definition PK_HEADER_S : str := lit "-----BEGIN PUBLIC KEY-----".
Definition PK_END_S : str := lit "-----END PUBLIC KEY-----".
Definition SIG_S : str := lit "-----BEGIN SIGNATURE-----".
Definition END_SIG_S : str := lit "-----END SIGNATURE-----".
Definition CLAUSE_S : str := lit "CLAUSE".
Definition START_TIME_S : str := lit "START_TIME".
Definition STOP_TIME_S : str := lit "STOP_TIME".
Definition CERT_S : str := lit "CERT".
Definition END_CERT_S : str := lit "END_CERT".
Definition CREDENTIAL_S : str := lit "CREDENTIAL".
Definition END_S : str := lit "END".
Definition BEGIN_CHALLENGE_S : str := lit "-----BEGIN MPKI CHALLENGE-----".
Definition END_CHALLENGE_S : str := lit "-----END MPKI CHALLENGE-----".
Definition BEGIN_RESPONSE_S : str := lit "-----BEGIN MPKI CHALLENGE RESPONSE-----".
Definition END_RESPONSE_S : str := lit "-----END MPKI CHALLENGE RESPONSE-----".
Definition BEGIN_CLIENT_REQUEST_S : str :=
  lit "-----BEGIN REPOSITORY CLIENT REQUEST-----".
Definition END_CLIENT_REQUEST_S : str :=
  lit "-----END REPOSITORY CLIENT REQUEST-----".
Definition BEGIN_SERVER_RESPONSE_S : str :=
  lit "-----BEGIN REPOSITORY SERVER REPLY-----".
Definition END_SERVER_RESPONSE_S : str :=
  lit "-----END REPOSITORY SERVER REPLY-----".
Definition GRANT_S : str := lit "granted".
Definition DENY_S : str := lit "denied".
Definition TMP_FILE_S : str := lit "rlf_tmp".
Definition FIN_S : str := lit "exit".

(** ** trim *)

(** The characters [trim] drops. *)
Definition trim_char (c : ascii) : bool :=
  bool_decide (c = " "%char ∨ c = nl ∨ c = ascii_of_nat 9 ∨ c = ascii_of_nat 13).

Definition squeeze (s : str) : str := base.filter (λ c, trim_char c = false) s.

(** [trim]: drop white space, then everything up to the end of the first
    comment when there is one. *)
Definition trim (pStr : str) : outcome str :=
  let retVal := squeeze pStr in
  let pos := find retVal (lit "/*") in
  if bool_decide (pos ≠ npos) then
    let idx := find retVal (lit "*/") in
    substr retVal (u64 (idx + 2)) (u64 (len retVal - 1))
  else Ok retVal.

(** ** Broken-down time *)

Record tm : Type := mkTm {
  tm_sec : Z; tm_min : Z; tm_hour : Z; tm_mday : Z; tm_mon : Z; tm_year : Z
}.

#[export] Instance tm_eq_dec : EqDecision tm.
Proof. solve_decision. Defined.

(** Days from 1970-01-01 to the given day of the proleptic Gregorian
    calendar; [m] counts from March = 0, in a year that starts in March. *)
Definition days_of_march_year (y m d : Z) : Z :=
  365 * y + y / 4 - y / 100 + y / 400 + (153 * m + 2) / 5 + (d - 1) - 719468.

(** [tm_mon] counts from January = 0 and need not be below 12. *)
Definition days_from_civil (year mon mday : Z) : Z :=
  let y := year + mon / 12 in
  let m := mon mod 12 in
  days_of_march_year (if m <=? 1 then y - 1 else y) ((m + 10) mod 12) 1
  + (mday - 1).

(** Year, month (January = 0) and day of the month of a day number. *)
Definition civil_from_days (z : Z) : Z * Z * Z :=
  let z := z + 719468 in
  let era := z / 146097 in
  let doe := z mod 146097 in
  let yoe := (doe - doe / 1460 + doe / 36524 - doe / 146096) / 365 in
  let doy := doe - (365 * yoe + yoe / 4 - yoe / 100) in
  let mp := (5 * doy + 2) / 153 in
  let d := doy - (153 * mp + 2) / 5 + 1 in
  let m := (mp + 2) mod 12 in
  (yoe + era * 400 + (if m <=? 1 then 1 else 0), m, d).

(** [gmtime] *)
Definition gmtime (t : Z) : tm :=
  let '(y, m, d) := civil_from_days (t / 86400) in
  let s := t mod 86400 in
  mkTm (s mod 60) (s / 60 mod 60) (s / 3600) d m (y - 1900).

(** Seconds of a broken-down time read as UTC; the fields need not be in their
    normal ranges. *)
Definition timegm (t : tm) : Z :=
  days_from_civil (1900 + tm_year t) (tm_mon t) (tm_mday t) * 86400
  + tm_hour t * 3600 + tm_min t * 60 + tm_sec t.

(** [mktime] in a zone [gmtoff] seconds east of UTC with no summer time in
    force ([gmtime] has cleared [tm_isdst]); it fails with -1 when the year
    of the result does not fit an [int]. *)
Definition mktime (gmtoff : Z) (t : tm) : Z :=
  let s := timegm t - gmtoff in
  if int_ok (tm_year (gmtime (s + gmtoff))) then s else -1.

(** ** Number extraction *)

Definition is_digit (c : ascii) : bool :=
  let n := nat_of_ascii c in ((48 <=? n) && (n <=? 57))%nat.
Definition digit_value (c : ascii) : Z := Z.of_nat (nat_of_ascii c) - 48.

Fixpoint skip_ws (s : str) : str :=
  match s with
  | c :: s' => if isspace c then skip_ws s' else s
  | [] => []
  end.

(** The value of the longest digit prefix; no value when there is no digit. *)
Fixpoint digits_value (s : str) (acc : Z) : Z :=
  match s with
  | c :: s => if is_digit c then digits_value s (10 * acc + digit_value c) else acc
  | [] => acc
  end.

Definition clamp_int (z : Z) : Z := Z.max INT_MIN (Z.min INT_MAX z).

(** [ss >> n] for an [int n] on a stream that holds [s] and is in a good state:
    at end of input the extraction does not start and [n] keeps its value;
    with no digit [n] becomes 0; out of range it is clamped. *)
Definition extract_int (s : str) (n : Z) : Z :=
  match skip_ws s with
  | [] => n
  | c :: r =>
      if bool_decide (c = "-"%char) then clamp_int (- digits_value r 0)
      else if bool_decide (c = "+"%char) then clamp_int (digits_value r 0)
      else clamp_int (digits_value (c :: r) 0)
  end.

(** ** getUTCTimeSec *)

(** One field: [pos] and [idx] delimit its text, [old] is the current value. *)
Definition read_field (s : str) (pos idx old : Z) : outcome Z :=
  t ← substr s pos (u64 (idx - pos)); Ok (extract_int t old).

(** [gmtoff] is the offset of the local time zone of the server, [curTime] the
    result of [time(NULL)]. *)
Definition getUTCTimeSec (gmtoff curTime : Z) (pTimeStr : str) : outcome Z :=
  let now := gmtime curTime in
  let pos := u64 (find pTimeStr (lit "(") + 1) in
  let idx := find pTimeStr (lit ",") in
  year ← read_field pTimeStr pos idx (tm_year now);
  year ← int_op (year - 1900);
  let pos := u64 (idx + 1) in
  let idx := find_from pTimeStr (lit ",") pos in
  mon ← read_field pTimeStr pos idx (tm_mon now);
  mon ← int_op (mon - 1);
  let pos := u64 (idx + 1) in
  let idx := find_from pTimeStr (lit ",") pos in
  mday ← read_field pTimeStr pos idx (tm_mday now);
  let pos := u64 (idx + 1) in
  let idx := find_from pTimeStr (lit ",") pos in
  hour ← read_field pTimeStr pos idx (tm_hour now);
  let pos := u64 (idx + 1) in
  let idx := find_from pTimeStr (lit ",") pos in
  min ← read_field pTimeStr pos idx (tm_min now);
  let pos := u64 (idx + 1) in
  let idx := find_from pTimeStr (lit ")") pos in
  sec ← read_field pTimeStr pos idx (tm_sec now);
  Ok (mktime gmtoff (mkTm sec min hour mday mon year)).

Example getUTC_ex1 :
  getUTCTimeSec 0 1453305876 (lit "datime(2010,10,12,0,0,0).") = Ok 1286841600.
Proof. vm_compute. reflexivity. Qed.
Example gmtime_ex : gmtime 1453305876 = mkTm 36 4 16 20 0 116.
Proof. vm_compute. reflexivity. Qed.

(** ** Lemmas on the calendar *)

Lemma div_shift a k c : 0 < c → (a + k * c) / c = a / c + k.
Proof. intros. by rewrite Z.div_add by lia. Qed.

Lemma days_of_march_year_era y e m d :
  days_of_march_year (y + e * 400) m d = days_of_march_year y m d + e * 146097.
Proof.
  unfold days_of_march_year.
  replace ((y + e * 400) / 4) with (y / 4 + e * 100)
    by (rewrite <-div_shift by lia; f_equal; lia).
  replace ((y + e * 400) / 100) with (y / 100 + e * 4)
    by (rewrite <-div_shift by lia; f_equal; lia).
  rewrite div_shift by lia. lia.
Qed.

(** The year of a day of an era of 400 years, and the day of that year. *)
Lemma era_year doe :
  0 ≤ doe < 146097 →
  let yoe := (doe - doe / 1460 + doe / 36524 - doe / 146096) / 365 in
  0 ≤ yoe < 400 ∧ 0 ≤ doe - (365 * yoe + yoe / 4 - yoe / 100) ≤ 365.
Proof.
  intros H yoe. assert (Hy : 0 ≤ yoe < 400) by (unfold yoe; Z.to_euclidean_division_equations; lia).
  split; [done|].
  assert (Hq : yoe / 100 = 0 ∨ yoe / 100 = 1 ∨ yoe / 100 = 2 ∨ yoe / 100 = 3)
    by (Z.to_euclidean_division_equations; lia).
  assert (Hr : doe / 36524 = 0 ∨ doe / 36524 = 1 ∨ doe / 36524 = 2 ∨ doe / 36524 = 3
               ∨ doe / 36524 = 4)
    by (clear Hy Hq; clearbody yoe; Z.to_euclidean_division_equations; lia).
  unfold yoe in *. clear yoe.
  destruct Hr as [Hr|[Hr|[Hr|[Hr|Hr]]]]; rewrite Hr in *;
    destruct Hq as [Hq|[Hq|[Hq|Hq]]]; rewrite ?Hq in *; Z.to_euclidean_division_equations; lia.
Qed.

Lemma civil_era doe :
  0 ≤ doe < 146097 →
  let '(y, m, d) := civil_from_days (doe - 719468) in
  days_from_civil y m d = doe - 719468 ∧ 0 ≤ m < 12 ∧ 1 ≤ d ≤ 31.
Proof.
  intros H. destruct (era_year doe H) as [Hy Hd]. unfold civil_from_days.
  replace (doe - 719468 + 719468) with doe by lia. rewrite (Z.div_small doe), (Z.mod_small doe) by lia.
  set (yoe := (doe - doe / 1460 + doe / 36524 - doe / 146096) / 365) in *.
  set (doy := doe - (365 * yoe + yoe / 4 - yoe / 100)) in *.
  assert (Hdoe : doe = doy + (365 * yoe + yoe / 4 - yoe / 100)) by (unfold doy; lia).
  set (mp := (5 * doy + 2) / 153).
  assert (Hmp : 0 ≤ mp < 12 ∧ 0 ≤ doy - (153 * mp + 2) / 5 ≤ 30)
    by (clear - Hd; clearbody doy; unfold mp; Z.to_euclidean_division_equations; lia).
  assert (Hm : ((mp + 2) mod 12 + 10) mod 12 = mp ∧ 0 ≤ (mp + 2) mod 12 < 12)
    by (clear - Hmp; clearbody mp; Z.to_euclidean_division_equations; lia).
  destruct Hm as [Hm Hm12]. split_and!; try lia.
  unfold days_from_civil, days_of_march_year.
  rewrite (Z.div_small ((mp + 2) mod 12)), (Z.mod_small ((mp + 2) mod 12)), Hm by lia.
  assert (Hyear : (if (mp + 2) mod 12 <=? 1
    then yoe + 0 * 400 + (if (mp + 2) mod 12 <=? 1 then 1 else 0) + 0 - 1
    else yoe + 0 * 400 + (if (mp + 2) mod 12 <=? 1 then 1 else 0) + 0) = yoe)
    by (destruct ((mp + 2) mod 12 <=? 1); lia).
  rewrite Hyear, (Z.div_small yoe 400) by lia. lia.
Qed.

Lemma civil_from_days_era doe e :
  0 ≤ doe < 146097 →
  civil_from_days (doe + e * 146097 - 719468)
  = (let '(y, m, d) := civil_from_days (doe - 719468) in (y + e * 400, m, d)).
Proof.
  intros H. unfold civil_from_days.
  replace (doe + e * 146097 - 719468 + 719468) with (doe + e * 146097) by lia.
  replace (doe - 719468 + 719468) with doe by lia.
  rewrite (Z.div_add doe e 146097), (Z_mod_plus_full doe e 146097) by lia.
  rewrite (Z.div_small doe), (Z.mod_small doe) by lia. f_equal. f_equal. lia.
Qed.

Lemma days_from_civil_from_days z :
  let '(y, m, d) := civil_from_days z in
  days_from_civil y m d = z ∧ 0 ≤ m < 12 ∧ 1 ≤ d ≤ 31.
Proof.
  assert (∃ doe e, 0 ≤ doe < 146097 ∧ z = doe + e * 146097 - 719468)
    as (doe & e & Hd & ->).
  { exists ((z + 719468) mod 146097), ((z + 719468) / 146097).
    split; [apply Z.mod_pos_bound; lia|].
    pose proof (Z.div_mod (z + 719468) 146097). lia. }
  rewrite civil_from_days_era by done.
  pose proof (civil_era doe Hd) as Hc.
  destruct (civil_from_days (doe - 719468)) as [[y m] d]. destruct Hc as (Hc & ? & ?).
  split; [|lia]. unfold days_from_civil in *.
  rewrite (Z.div_small m), (Z.mod_small m) in * by lia.
  destruct (Z.leb_spec m 1).
  - replace (y + e * 400 + 0 - 1) with (y + 0 - 1 + e * 400) by lia.
    rewrite days_of_march_year_era. lia.
  - replace (y + e * 400 + 0) with (y + 0 + e * 400) by lia.
    rewrite days_of_march_year_era. lia.
Qed.

Lemma timegm_gmtime t : timegm (gmtime t) = t.
Proof.
  unfold timegm, gmtime. pose proof (days_from_civil_from_days (t / 86400)) as H.
  destruct (civil_from_days (t / 86400)) as [[y m] d]. destruct H as [H _].
  cbn. replace (1900 + (y - 1900)) with y by lia. rewrite H.
  pose proof (Z.div_mod t 86400). pose proof (Z.div_mod (t mod 86400) 60).
  pose proof (Z.div_mod (t mod 86400 / 60) 60).
  rewrite Z.div_div in * by lia. change (60 * 60) with 3600 in *. lia.
Qed.

(** ** Lemmas on field extraction *)

Definition digits (s : str) : Prop := s ≠ [] ∧ Forall (λ c, is_digit c = true) s.
#[export] Instance digits_dec s : Decision (digits s).
Proof. unfold digits. apply _. Defined.
Definition value (s : str) : Z := digits_value s 0.

Lemma find_from_app a b p :
  find_from (a ++ b) p (len a) = of_index (len a) (search p b).
Proof.
  unfold find_from. destruct (Z.ltb_spec (len (a ++ b)) (len a)); [len_lia|].
  unfold len at 2. by rewrite Nat2Z.id, drop_app_length.
Qed.

Lemma find_from_char a f c rest :
  c ∉ f → find_from (a ++ f ++ c :: rest) [c] (len a) = len (a ++ f).
Proof. intros H. rewrite find_from_app, search_one by done.
  cbn [of_index]. change (Z.of_nat (length f)) with (len f). len_lia.
Qed.

Lemma digit_not_space c : is_digit c = true → isspace c = false.
Proof.
  unfold is_digit, isspace. rewrite andb_true_iff, !Nat.leb_le. intros [].
  apply orb_false_iff. rewrite andb_false_iff, !Nat.leb_gt, Nat.eqb_neq. lia.
Qed.

Lemma not_digit_not_in c f :
  is_digit c = false → Forall (λ c, is_digit c = true) f → c ∉ f.
Proof.
  intros Hc Hf Hin. rewrite Forall_forall in Hf. apply Hf in Hin. congruence.
Qed.

Lemma digits_value_nonneg s acc : 0 ≤ acc → 0 ≤ digits_value s acc.
Proof.
  revert acc. induction s as [|c s IH]; intros acc H; simpl; [done|].
  destruct (is_digit c) eqn:E; [|done]. apply IH.
  unfold is_digit, digit_value in *. apply andb_true_iff in E as [E _].
  apply Nat.leb_le in E. lia.
Qed.

Lemma extract_int_digits f old :
  digits f → extract_int f old = Z.min INT_MAX (value f).
Proof.
  intros [Hne Hf]. destruct f as [|c f]; [done|].
  apply Forall_cons in Hf as Hc. destruct Hc as [Hc _].
  unfold extract_int. simpl skip_ws. rewrite digit_not_space by done.
  rewrite !bool_decide_eq_false_2 by (intros ->; done).
  unfold clamp_int, value. pose proof (digits_value_nonneg (c :: f) 0).
  unfold INT_MIN, INT_MAX. lia.
Qed.

Lemma read_field_app a f rest old :
  len (a ++ f ++ rest) < 2 ^ 64 → digits f →
  read_field (a ++ f ++ rest) (len a) (len (a ++ f)) old
  = Ok (Z.min INT_MAX (value f)).
Proof.
  intros Hl Hf. unfold read_field, substr.
  destruct (Z.ltb_spec (len (a ++ f ++ rest)) (len a)); [len_lia|].
  rewrite u64_small by len_lia. cbn [mbind outcome_bind].
  rewrite (Z.min_l (len (a ++ f) - len a)) by len_lia.
  replace (len (a ++ f) - len a) with (len f) by len_lia. unfold len.
  rewrite !Nat2Z.id, drop_app_length, take_app_length.
  by rewrite extract_int_digits.
Qed.

(** ** Properties *)

(** [trim] never fails and never lengthens. *)
Lemma trim_total s : str_ok s → ∃ t, trim s = Ok t ∧ len t ≤ len s.
Proof.
  intros Hok. assert (len (squeeze s) ≤ len s) as Hsq.
  { unfold len, squeeze. pose proof (length_filter (λ c, trim_char c = false) s). lia. }
  unfold trim. case_bool_decide as Hp; [|by eauto].
  assert (2 ≤ len (squeeze s)) as H2.
  { destruct (search (lit "/*") (squeeze s)) as [i|] eqn:E.
    - apply search_Some in E as [_ E]. cbn in E. unfold len. lia.
    - apply search_None, find_npos in E; [done|len_lia]. }
  unfold substr.
  assert (0 ≤ u64 (find (squeeze s) (lit "*/") + 2) ≤ len (squeeze s)) as Hi.
  { rewrite find_search. destruct (search (lit "*/") (squeeze s)) as [i|] eqn:E.
    - apply search_Some in E as [_ E]. cbn in E. cbn [of_index].
      rewrite u64_small; unfold str_ok, len in *; lia.
    - change (u64 (of_index 0 None + 2)) with 1. lia. }
  destruct (Z.ltb_spec (len (squeeze s)) (u64 (find (squeeze s) (lit "*/") + 2))); [lia|].
  eexists. split; [done|]. unfold len. rewrite length_take, length_drop.
  unfold len in *. lia.
Qed.

Lemma mktime_utc gmtoff t :
  int_ok (tm_year (gmtime (timegm t))) = true → mktime gmtoff t = timegm t - gmtoff.
Proof.
  intros H. unfold mktime.
  by replace (timegm t - gmtoff + gmtoff) with (timegm t) by lia; rewrite H.
Qed.

(** [mktime] undoes [gmtime] up to the zone: the time the server computes
    for "now" in a zone [gmtoff] seconds east of UTC is the clock shifted by
    [gmtoff], for every clock value whose year fits an [int]. *)
Theorem mktime_gmtime gmtoff t :
  int_ok (tm_year (gmtime t)) = true → mktime gmtoff (gmtime t) = t - gmtoff.
Proof. intros H. by rewrite mktime_utc, timegm_gmtime by (by rewrite timegm_gmtime). Qed.

Lemma mktime_gmtime_witness :
  mktime (-18000) (gmtime 1453305876) = 1453305876 + 18000.
Proof. apply (mktime_gmtime (-18000)). vm_compute. reflexivity. Defined.

(** The text of a [datime] predicate with the given fields. *)
Definition datime_text (y mo d h mi s : str) : str :=
  lit "datime(" ++ y ++ lit "," ++ mo ++ lit "," ++ d ++ lit "," ++ h ++ lit ","
  ++ mi ++ lit "," ++ s ++ lit ").".

(** The number [getUTCTimeSec] reads from a field of digits. *)
Definition field (f : str) : Z := Z.min INT_MAX (value f).

Lemma field_range f : 0 ≤ field f ≤ INT_MAX.
Proof.
  unfold field, value. pose proof (digits_value_nonneg f 0). unfold INT_MAX. lia.
Qed.

(** One step of the scan: the field [f] lies between the position reached and
    the next separator [c]. *)
Lemma scan_field s a f c rest :
  s = a ++ f ++ c :: rest → str_ok s → digits f → is_digit c = false →
  find_from s [c] (len a) = len (a ++ f) ∧
  (∀ old, read_field s (len a) (len (a ++ f)) old = Ok (field f)) ∧
  u64 (len (a ++ f) + 1) = len (a ++ f ++ [c]).
Proof.
  intros -> Hok Hf Hc. split_and!.
  - apply find_from_char. by apply not_digit_not_in, Hf.
  - intros old. apply read_field_app; [len_lia|done].
  - rewrite u64_small by len_lia. len_lia.
Qed.

Lemma find_char t a c rest : t = a ++ c :: rest → c ∉ a → find t [c] = len a.
Proof. intros -> H. by rewrite (find_Some _ _ _ (search_one c a rest H)). Qed.

(** Scan the field [f] of the [datime] text [t] after the prefix [a]. *)
Local Ltac scan t a f c :=
  let E := fresh "E" in let r := fresh "r" in
  let F := fresh "F" in let R := fresh "R" in let P := fresh "P" in
  assert (E : ∃ r, t = a ++ f ++ c :: r) by
    (eexists; repeat match goal with x := _ : str |- _ => progress unfold x end;
     unfold datime_text; rewrite <-?app_assoc; reflexivity);
  destruct E as [r E];
  destruct (scan_field t a f c r E ltac:(done) ltac:(done) eq_refl) as (F & R & P);
  change [c] with (lit (String c "")) in F;
  rewrite ?F, ?P, ?R; clear F R P E r.

(** The conversion of a predicate of numeric fields. *)
Lemma getUTCTimeSec_fields gmtoff cur y mo d h mi s :
  str_ok (datime_text y mo d h mi s) →
  digits y → digits mo → digits d → digits h → digits mi → digits s →
  getUTCTimeSec gmtoff cur (datime_text y mo d h mi s)
  = Ok (mktime gmtoff (mkTm (field s) (field mi) (field h) (field d)
                         (field mo - 1) (field y - 1900))).
Proof.
  intros Hok Hy Hmo Hd Hh Hmi Hs.
  set (t := datime_text y mo d h mi s) in *.
  set (a1 := lit "datime("). set (a2 := a1 ++ y ++ lit ",").
  set (a3 := a2 ++ mo ++ lit ","). set (a4 := a3 ++ d ++ lit ",").
  set (a5 := a4 ++ h ++ lit ","). set (a6 := a5 ++ mi ++ lit ",").
  assert (Hpos : u64 (find t (lit "(") + 1) = len a1) by reflexivity.
  assert (Hidx : find t (lit ",") = len (a1 ++ y)).
  { eapply find_char; [unfold t, datime_text; rewrite <-?app_assoc; reflexivity|].
    apply not_elem_of_app. split; [apply (bool_decide_unpack _); by vm_compute|].
    by apply not_digit_not_in, Hy. }
  unfold getUTCTimeSec. rewrite Hpos, Hidx.
  scan t a1 y ","%char. change (a1 ++ y ++ [","%char]) with a2.
  scan t a2 mo ","%char. change (a2 ++ mo ++ [","%char]) with a3.
  scan t a3 d ","%char. change (a3 ++ d ++ [","%char]) with a4.
  scan t a4 h ","%char. change (a4 ++ h ++ [","%char]) with a5.
  scan t a5 mi ","%char. change (a5 ++ mi ++ [","%char]) with a6.
  scan t a6 s ")"%char.
  pose proof (field_range y). pose proof (field_range mo).
  unfold INT_MAX in *. cbn [mbind outcome_bind].
  rewrite int_op_ok by (unfold INT_MIN, INT_MAX; lia). cbn [mbind outcome_bind].
  rewrite int_op_ok by (unfold INT_MIN, INT_MAX; lia). done.
Qed.

(** A [datime] predicate with six numeric fields, of any length, is
    converted without an exception or an overflow to the [mktime] of exactly
    those fields (each clamped to the largest [int]), the year counted from
    1900 and the month from 0; the clock does not influence the result. *)
Theorem getUTCTimeSec_datime gmtoff cur y mo d h mi s :
  str_ok (datime_text y mo d h mi s) →
  digits y → digits mo → digits d → digits h → digits mi → digits s →
  getUTCTimeSec gmtoff cur (datime_text y mo d h mi s)
  = Ok (mktime gmtoff (mkTm (field s) (field mi) (field h) (field d)
                         (field mo - 1) (field y - 1900))).
Proof. apply getUTCTimeSec_fields. Qed.

Lemma getUTCTimeSec_datime_witness :
  getUTCTimeSec 3600 0 (lit "datime(2011,12,19,6,0,99999999999).")
  = Ok (mktime 3600 (mkTm 2147483647 0 6 19 11 111)).
Proof.
  apply (getUTCTimeSec_datime 3600 0 (lit "2011") (lit "12") (lit "19") (lit "6")
           (lit "0") (lit "99999999999")); (done || (split; [done|by repeat constructor])).
Defined.

(** [trim] drops white space and one leading comment. Let [q] be the text
    without white space. With no comment opener in [q] the result is [q]; with
    one, and [q] of the form [a */ b] with no closer in [a], the result is [b];
    with an opener and no closer at all, the wrapped position makes it drop
    exactly the first character of [q]. *)
Theorem trim_spec s :
  str_ok (squeeze s) →
  (¬ occurs (lit "/*") (squeeze s) → trim s = Ok (squeeze s)) ∧
  (∀ a b, occurs (lit "/*") (squeeze s) → ¬ occurs (lit "*/") a →
     squeeze s = a ++ lit "*/" ++ b → trim s = Ok b) ∧
  (occurs (lit "/*") (squeeze s) → ¬ occurs (lit "*/") (squeeze s) →
     trim s = Ok (drop 1 (squeeze s))).
Proof.
  intros Hok. unfold trim. split_and!.
  - intros Hn. apply find_npos in Hn; [|done]. by rewrite bool_decide_eq_false_2 by auto.
  - intros a b Ho Ha Hs. rewrite bool_decide_eq_true_2.
    2: { intros Hn. by apply find_npos in Hn. }
    rewrite Hs in *. rewrite (find_Some _ _ (length a)) by (by apply search_two).
    change (Z.of_nat (length a)) with (len a).
    rewrite (app_assoc a), !u64_small by len_lia. apply substr_app_r; len_lia.
  - intros Ho Hn. rewrite bool_decide_eq_true_2.
    2: { intros He. by apply find_npos in He. }
    apply find_npos in Hn as ->; [|done]. change (u64 (npos + 2)) with 1.
    destruct (squeeze s) as [|c q]; [by destruct Ho as ([]&?&?)|].
    rewrite u64_small by len_lia. change (c :: q) with ([c] ++ q).
    apply (substr_app_r [c] q); [done|]. len_lia.
Qed.

Lemma trim_spec_witness :
  trim (lit " /* Local policy */ allow(X) :- p(X). ") = Ok (lit "allow(X):-p(X).").
Proof.
  apply (proj1 (proj2 (trim_spec (lit " /* Local policy */ allow(X) :- p(X). ") ltac:(done)))
           (lit "/*Localpolicy") (lit "allow(X):-p(X).")).
  - exists [], (lit "Localpolicy*/allow(X):-p(X)."). reflexivity.
  - apply search_None. reflexivity.
  - reflexivity.
Defined.
