(* ===== verification/Mutex.v ===== *)
(** The mutexes of src/utils/Mutex.h and src/utils/FifoQueue.h, and what they promise to
    the classes that use them: the code between [lock] and [unlock] is one step for
    every thread that looks at the shared state under the lock, or outside of it at a
    part that the code writes at most once. *)
From stdpp Require Import relations.
From S2P Require Import Prelude.

(** ** The class

    A mutex of pthread is free or held by a thread. Those that are allocated are in
    memory; a second [lock] by the holder waits forever, a thread that unlocks what it
    does not hold and one that destroys what is held have no meaning. *)
Inductive pthread_mutex : Type := Free | Held (t : nat).
#[export] Instance pthread_mutex_eq_dec : EqDecision pthread_mutex.
Proof. solve_decision. Defined.

Abbreviation memory := (gmap nat pthread_mutex).
(** The member [mutex], a pointer. *)
Definition Mutex : Type := option nat.

Definition pthread_mutex_at (m : Mutex) (h : memory) : outcome (nat * pthread_mutex) :=
  p ← deref m;
  match h !! p with Some x => Ok (p, x) | None => Undef UseAfterFree end.
(** [None]: the thread waits. *)
Definition pthread_mutex_lock (t : nat) (x : pthread_mutex) : option pthread_mutex :=
  match x with Free => Some (Held t) | Held _ => None end.
Definition pthread_mutex_unlock (t : nat) (x : pthread_mutex) : outcome pthread_mutex :=
  if decide (x = Held t) then Ok Free else Undef NotHeld.

(** The constructor; [malloced] is the success of [malloc]. *)
Definition Mutex_new (malloced : bool) (h : memory) : Mutex * memory :=
  if malloced then let p := fresh (dom h) in (Some p, <[p := Free]> h) else (None, h).
(** [lock], for the thread [t] *)
Definition lock (t : nat) (m : Mutex) (h : memory) : outcome (option memory) :=
  '(p, x) ← pthread_mutex_at m h;
  Ok ((λ x, <[p := x]> h) <$> pthread_mutex_lock t x).
Definition trylock (t : nat) (m : Mutex) (h : memory) : outcome (bool * memory) :=
  h' ← lock t m h;
  Ok match h' with Some h' => (true, h') | None => (false, h) end.
Definition unlock (t : nat) (m : Mutex) (h : memory) : outcome memory :=
  '(p, x) ← pthread_mutex_at m h;
  x ← pthread_mutex_unlock t x;
  Ok (<[p := x]> h).
(** The destructor. *)
Definition Mutex_destroy (t : nat) (m : Mutex) (h : memory) : outcome (Mutex * memory) :=
  match m with
  | None => Ok (None, h)
  | Some p => h ← unlock t m h; Ok (None, delete p h)
  end.

(** The class of the same name in FifoQueue.h: it initialises also what [malloc] did not
    give it, and does not free the memory. *)
Definition Queue_Mutex_new (malloced : bool) (h : memory) : outcome (Mutex * memory) :=
  if malloced then Ok (Mutex_new true h) else Undef NullDeref.
Definition Queue_Mutex_destroy (t : nat) (m : Mutex) (h : memory) : outcome (Mutex * memory) :=
  match m with
  | None => Ok (None, h)
  | Some p => h ← unlock t m h; Ok (None, h)
  end.

(** The destructor is for a mutex that the thread holds; one that is free, as after
    every balanced use of the class, it unlocks nevertheless. The class of FifoQueue.h
    keeps the memory. *)
Theorem Mutex_destroy_cases t p x h :
  h !! p = Some x →
  Mutex_destroy t (Some p) h = (if decide (x = Held t) then Ok (None, delete p h) else Undef NotHeld) ∧
  Queue_Mutex_destroy t (Some p) h
    = (if decide (x = Held t) then Ok (None, <[p := Free]> h) else Undef NotHeld).
Proof.
  intros Hp. unfold Mutex_destroy, Queue_Mutex_destroy, unlock, pthread_mutex_at, pthread_mutex_unlock.
  cbn [deref mbind outcome_bind]. rewrite Hp. cbn [mbind outcome_bind].
  destruct (decide (x = Held t)); [|done]. cbn [mbind outcome_bind]. by rewrite delete_insert_eq.
Qed.
Lemma Mutex_destroy_cases_witness :
  let '(m, h) := Mutex_new true ∅ in Mutex_destroy 1 m h = Undef NotHeld.
Proof.
  destruct (Mutex_destroy_cases 1 0 Free {[0%nat := Free]}) as [H _]; [by vm_compute|].
  vm_compute in H. vm_compute. exact H.
Defined.

(** ** Critical sections *)
Section sections.
Context {A V R : Type}.

(** Code between [lock] and [unlock], step by step, on the shared state, with what it
    returns. *)
Inductive prog : Type :=
| Return (r : R)
| Step (f : A → outcome (A * prog)).
Fixpoint run (p : prog) (a : A) : outcome (A * R) :=
  match p with
  | Return r => Ok (a, r)
  | Step f => match f a with Ok (a, p) => run p a | Throw e => Throw e | Undef u => Undef u end
  end.

Lemma prog_induction (P : prog → Prop) :
  (∀ r, P (Return r)) → (∀ f, (∀ a a' p, f a = Ok (a', p) → P p) → P (Step f)) → ∀ p, P p.
Proof.
  intros Hr Hs. fix IH 1. intros [r|f]; [apply Hr|].
  assert (H : ∀ a, match f a with Ok (_, p) => P p | _ => True end).
  { intros a. destruct (f a) as [[a' p]| |]; [apply IH|done..]. }
  apply Hs. intros a a' p E. specialize (H a). by rewrite E in H.
Qed.

(** An operation looks at a part of the state without the lock, and goes on to its
    section when its test holds of it. *)
Record operation : Type := mkOperation {
  test : V → bool;
  section : prog
}.

Context (obs : A → V) (calls : nat → operation → Prop).

(** What is visible outside changes at most once, when the code runs from a state,
    and no exception leaves the section. *)
Fixpoint quiet (p : prog) (a : A) : Prop :=
  match p with
  | Return _ => True
  | Step f => match f a with Ok (a', p) => obs a' = obs a ∧ quiet p a' | Throw _ => False | Undef _ => True end
  end.
Fixpoint once (p : prog) (a : A) : Prop :=
  match p with
  | Return _ => True
  | Step f => match f a with
      | Ok (a', p) => obs a' = obs a ∧ once p a' ∨ quiet p a'
      | Throw _ => False
      | Undef _ => True
      end
  end.

(** *** Threads, step by step

    A thread is outside of its operations, between the test and the lock, or between
    the lock and what is left of its section. *)
Inductive phase : Type :=
| Ready (o : operation)
| Inside (o : operation) (p : prog).
Record state : Type := mkState {
  shared : A;
  mutex : pthread_mutex;
  threads : gmap nat phase;
  log : list (nat * operation * R)
}.
Inductive config : Type := Running (s : state) | Crashed (f : fault).
Definition start (a : A) : config := Running (mkState a Free ∅ []).

Inductive step : config → config → Prop :=
| step_skip a m th l t o :
    th !! t = None → calls t o → test o (obs a) = false →
    step (Running (mkState a m th l)) (Running (mkState a m th l))
| step_call a m th l t o :
    th !! t = None → calls t o → test o (obs a) = true →
    step (Running (mkState a m th l)) (Running (mkState a m (<[t := Ready o]> th) l))
| step_lock a m m' th l t o :
    th !! t = Some (Ready o) → pthread_mutex_lock t m = Some m' →
    step (Running (mkState a m th l)) (Running (mkState a m' (<[t := Inside o (section o)]> th) l))
| step_do a m th l t o f a' p :
    th !! t = Some (Inside o (Step f)) → f a = Ok (a', p) →
    step (Running (mkState a m th l)) (Running (mkState a' m (<[t := Inside o p]> th) l))
| step_crash a m th l t o f u :
    th !! t = Some (Inside o (Step f)) → f a = Undef u →
    step (Running (mkState a m th l)) (Crashed u)
| step_unlock a m m' th l t o r :
    th !! t = Some (Inside o (Return r)) → pthread_mutex_unlock t m = Ok m' →
    step (Running (mkState a m th l)) (Running (mkState a m' (delete t th) (l ++ [(t, o, r)])))
| step_misuse a m th l t o r u :
    th !! t = Some (Inside o (Return r)) → pthread_mutex_unlock t m = Undef u →
    step (Running (mkState a m th l)) (Crashed u).

(** *** Threads whose sections are one step *)
Inductive atomic : config → config → Prop :=
| atomic_skip a m th l t o :
    th !! t = None → calls t o → test o (obs a) = false →
    atomic (Running (mkState a m th l)) (Running (mkState a m th l))
| atomic_call a m th l t o :
    th !! t = None → calls t o → test o (obs a) = true →
    atomic (Running (mkState a m th l)) (Running (mkState a m (<[t := Ready o]> th) l))
| atomic_section a m th l t o a' r :
    th !! t = Some (Ready o) → run (section o) a = Ok (a', r) →
    atomic (Running (mkState a m th l)) (Running (mkState a' m (delete t th) (l ++ [(t, o, r)])))
| atomic_crash a m th l t o u :
    th !! t = Some (Ready o) → run (section o) a = Undef u →
    atomic (Running (mkState a m th l)) (Crashed u).

(** *** The simulation

    A section counts where it changes what is visible outside: before that the atomic
    threads are still in front of it, after it they are behind it. *)
Definition outside (th : gmap nat phase) (t : nat) : Prop :=
  ∀ u o p, th !! u = Some (Inside o p) → u = t.

Inductive sim : config → config → Prop :=
| sim_free a th l :
    (∀ u o p, th !! u ≠ Some (Inside o p)) →
    sim (Running (mkState a Free th l)) (Running (mkState a Free th l))
| sim_before a b th l t o p :
    th !! t = Some (Inside o p) → outside th t → run p a = run (section o) b → once p a → obs a = obs b →
    sim (Running (mkState a (Held t) th l)) (Running (mkState b Free (<[t := Ready o]> th) l))
| sim_after a b th l t o p r :
    th !! t = Some (Inside o p) → outside th t → run p a = Ok (b, r) → quiet p a → obs a = obs b →
    sim (Running (mkState a (Held t) th l)) (Running (mkState b Free (delete t th) (l ++ [(t, o, r)])))
| sim_doomed a th l t o p u :
    th !! t = Some (Inside o p) → outside th t → run p a = Undef u →
    sim (Running (mkState a (Held t) th l)) (Crashed u)
| sim_crashed u : sim (Crashed u) (Crashed u).

Context (sections_once : ∀ t o a, calls t o → once (section o) a).

(** Who is in front of a section runs it well. *)
Definition ready_once (c : config) : Prop :=
  match c with
  | Running s => ∀ t o a, threads s !! t = Some (Ready o) → once (section o) a
  | Crashed _ => True
  end.
Lemma ready_once_step c c' : ready_once c → step c c' → ready_once c'.
Proof.
  intros H Hs. destruct Hs; cbn in *; try done; intros u x b Hu.
  - apply lookup_insert_Some in Hu as [[<- [= <-]]|[_ Hu]]; eauto.
  - apply lookup_insert_Some in Hu as [[_ [=]]|[_ Hu]]; eauto.
  - apply lookup_insert_Some in Hu as [[_ [=]]|[_ Hu]]; eauto.
  - apply lookup_delete_Some in Hu as [_ Hu]; eauto.
Qed.

Lemma outside_insert th t u x :
  outside th t → (∀ o p, x = Inside o p → u = t) → outside (<[u := x]> th) t.
Proof. intros H Hx v o p [[<- ->]|[_ Hv]]%lookup_insert_Some; eauto. Qed.

Lemma outside_delete th t : outside th t → ∀ u o p, delete t th !! u ≠ Some (Inside o p).
Proof. intros H u o p [Hne Hu]%lookup_delete_Some. by apply Hne, eq_sym, (H u o p). Qed.

(** A quiet rest returns, or has no meaning; when it returns nothing has changed. *)
Lemma quiet_run p a :
  quiet p a → (∃ b r, run p a = Ok (b, r) ∧ obs b = obs a) ∨ ∃ u, run p a = Undef u.
Proof.
  revert a. induction p as [r|f IH] using prog_induction; intros a Hq; cbn in *; [left; eauto|].
  destruct (f a) as [[a' p]|e|u] eqn:Ef; [|done|right; eauto].
  destruct Hq as [Ho Hq]. destruct (IH a a' p Ef a' Hq) as [(b & r & E & Hb)|[u E]]; [left|right; eauto].
  exists b, r. split; [done|congruence].
Qed.

Lemma sim_call a m th l t o d :
  sim (Running (mkState a m th l)) d → th !! t = None → calls t o → test o (obs a) = true →
  ∃ d', rtc atomic d d' ∧ sim (Running (mkState a m (<[t := Ready o]> th) l)) d'.
Proof.
  intros Hsim Ht Hc Hf. inversion Hsim as [? ? ? Hno|? b ? ? v x p Hv Hout Hrun Honce Hobs
    |? b ? ? v x p r Hv Hout Hrun Hq Hobs|? ? ? v x p u Hv Hout Hrun|]; subst;
    try (assert (t ≠ v) by congruence).
  - eexists. split; [apply rtc_once; by apply atomic_call|]. constructor.
    intros u y q [[_ [=]]|[_ Hu]]%lookup_insert_Some. by eapply Hno.
  - eexists. split.
    + apply rtc_once. apply (atomic_call _ _ _ _ t o); [by rewrite lookup_insert_ne|done|by rewrite <-Hobs].
    + rewrite insert_insert_ne by done. eapply sim_before; try done.
      * by rewrite lookup_insert_ne.
      * by apply outside_insert.
  - eexists. split.
    + apply rtc_once. apply (atomic_call _ _ _ _ t o); [by rewrite lookup_delete_ne|done|by rewrite <-Hobs].
    + rewrite <-delete_insert_ne by done. eapply sim_after; try done.
      * by rewrite lookup_insert_ne.
      * by apply outside_insert.
  - exists (Crashed u). split; [done|]. eapply sim_doomed; [by rewrite lookup_insert_ne|by apply outside_insert|done].
Qed.

Lemma sim_do a m th l t o f a' p d :
  sim (Running (mkState a m th l)) d → th !! t = Some (Inside o (Step f)) → f a = Ok (a', p) →
  ∃ d', rtc atomic d d' ∧ sim (Running (mkState a' m (<[t := Inside o p]> th) l)) d'.
Proof.
  intros Hsim Ht Hf. inversion Hsim as [? ? ? Hno|? b ? ? v x q Hv Hout Hrun Honce Hobs
    |? b ? ? v x q r Hv Hout Hrun Hq Hobs|? ? ? v x q u Hv Hout Hrun|]; subst;
    try (assert (t = v) as -> by (by eapply Hout); rewrite Ht in Hv; injection Hv as <- <-;
         cbn in Hrun; rewrite Hf in Hrun; assert (Hin : <[v := Inside o p]> th !! v = Some (Inside o p))
           by apply lookup_insert_eq; assert (Hout' : outside (<[v := Inside o p]> th) v)
           by (by apply outside_insert)).
  - by destruct (Hno t o (Step f)).
  - cbn in Honce. rewrite Hf in Honce. rewrite <-(insert_insert_eq th v (Ready o) (Inside o p)).
    destruct Honce as [[Ho Honce]|Hq].
    + exists (Running (mkState b Free (<[v := Ready o]> (<[v := Inside o p]> th)) l)). split; [done|].
      eapply sim_before; try done. congruence.
    + destruct (quiet_run p a' Hq) as [(c & r & E & Hc)|[u E]]; rewrite E in Hrun.
      * eexists. split; [apply rtc_once; eapply atomic_section; [apply lookup_insert_eq|done]|].
        rewrite delete_insert_eq. by eapply sim_after.
      * eexists. split; [apply rtc_once; eapply atomic_crash; [apply lookup_insert_eq|done]|].
        by eapply sim_doomed.
  - cbn in Hq. rewrite Hf in Hq. destruct Hq as [Ho Hq].
    exists (Running (mkState b Free (delete v (<[v := Inside o p]> th)) (l ++ [(v, o, r)]))).
    split; [by rewrite delete_insert_eq|]. eapply sim_after; try done. congruence.
  - exists (Crashed u). split; [done|]. by eapply sim_doomed.
Qed.

Lemma sim_step c d c' :
  sim c d → ready_once c → step c c' → ∃ d', rtc atomic d d' ∧ sim c' d'.
Proof.
  intros Hsim Hok Hs. destruct Hs as [a m th l t o Ht Hc Hf|a m th l t o Ht Hc Hf|a m m' th l t o Ht Hl
    |a m th l t o f a' p Ht Hf|a m th l t o f u Ht Hf|a m m' th l t o r Ht Hl|a m th l t o r u Ht Hl].
  - by exists d.
  - by eapply sim_call.
  - destruct m; [|done]. injection Hl as <-. inversion Hsim as [? ? ? Hno| | | |]; subst.
    set (th' := <[t := Inside o (section o)]> th).
    exists (Running (mkState a Free (<[t := Ready o]> th') l)).
    split; [unfold th'; by rewrite insert_insert_eq, insert_id|].
    apply (sim_before a a th' l t o (section o)); try done.
    + apply lookup_insert_eq.
    + intros u x p [[<- _]|[_ Hu]]%lookup_insert_Some; [done|]. by destruct (Hno u x p).
    + by eapply (Hok t o).
  - by eapply sim_do.
  - inversion Hsim as [? ? ? Hno|? b ? ? v x q Hv Hout Hrun Honce Hobs
      |? b ? ? v x q r Hv Hout Hrun Hq Hobs|? ? ? v x q w Hv Hout Hrun|]; subst;
      try (assert (t = v) as -> by (by eapply Hout); rewrite Ht in Hv; injection Hv as <- <-;
           cbn in Hrun; rewrite Hf in Hrun).
    + by destruct (Hno t o (Step f)).
    + exists (Crashed u). split; [|constructor]. apply rtc_once. eapply atomic_crash; [apply lookup_insert_eq|done].
    + done.
    + injection Hrun as <-. exists (Crashed u). by split; [|constructor].
  - inversion Hsim as [? ? ? Hno|? b ? ? v x q Hv Hout Hrun Honce Hobs
      |? b ? ? v x q r' Hv Hout Hrun Hq Hobs|? ? ? v x q w Hv Hout Hrun|]; subst;
      try (assert (t = v) as -> by (by eapply Hout); rewrite Ht in Hv; injection Hv as <- <-;
           cbn in Hrun; unfold pthread_mutex_unlock in Hl; rewrite decide_True in Hl by done;
           injection Hl as <-).
    + by destruct (Hno t o (Return r)).
    + eexists. split; [apply rtc_once; eapply atomic_section; [apply lookup_insert_eq|done]|].
      rewrite delete_insert_eq. apply sim_free. by apply outside_delete.
    + injection Hrun as <- <-. eexists. split; [done|]. apply sim_free. by apply outside_delete.
    + done.
  - inversion Hsim as [? ? ? Hno|? b ? ? v x q Hv Hout Hrun Honce Hobs
      |? b ? ? v x q r' Hv Hout Hrun Hq Hobs|? ? ? v x q w Hv Hout Hrun|]; subst;
      try (assert (t = v) as -> by (by eapply Hout);
           unfold pthread_mutex_unlock in Hl; by rewrite decide_True in Hl).
    by destruct (Hno t o (Return r)).
Qed.

Lemma sim_reachable a c :
  rtc step (start a) c → ready_once c ∧ ∃ d, rtc atomic (start a) d ∧ sim c d.
Proof.
  revert c. apply rtc_ind_r.
  - split; [by intros t o b|]. exists (start a). split; [done|]. apply sim_free. by intros u o p.
  - intros c c1 Hr Hs [Hok (d & Hd & Hsim)].
    split; [by eapply ready_once_step|]. destruct (sim_step _ _ _ Hsim Hok Hs) as (d' & Hd' & Hsim').
    exists d'. split; [by etrans|done].
Qed.

(** *** Running a section to its end *)
Lemma once_run p a : once p a → (∃ b r, run p a = Ok (b, r)) ∨ ∃ u, run p a = Undef u.
Proof.
  revert a. induction p as [r|f IH] using prog_induction; intros a Hq; cbn in *; [left; eauto|].
  destruct (f a) as [[a' p]|e|u] eqn:Ef; [|done|right; eauto].
  destruct Hq as [[Ho Hq]|Hq]; [by apply (IH a a' p Ef)|].
  destruct (quiet_run p a' Hq) as [(b & r & E & _)|?]; eauto.
Qed.
Lemma section_steps p a th l t o :
  th !! t = Some (Inside o p) →
  match run p a with
  | Ok (b, r) => rtc step (Running (mkState a (Held t) th l)) (Running (mkState b Free (delete t th) (l ++ [(t, o, r)])))
  | Undef u => rtc step (Running (mkState a (Held t) th l)) (Crashed u)
  | Throw _ => True
  end.
Proof.
  revert a th. induction p as [r|f IH] using prog_induction; intros a th Ht; cbn [run].
  - apply rtc_once. apply (step_unlock a (Held t) Free th l t o r Ht). unfold pthread_mutex_unlock. by rewrite decide_True.
  - destruct (f a) as [[a' p]|e|u] eqn:Ef; [|done|].
    + specialize (IH a a' p Ef a' (<[t := Inside o p]> th)). rewrite lookup_insert_eq, delete_insert_eq in IH.
      specialize (IH eq_refl). pose proof (step_do _ (Held t) _ l _ _ _ _ _ Ht Ef).
      destruct (run p a') as [[b r]| |]; [|done|]; by eapply rtc_l.
    + apply rtc_once. by eapply step_crash.
Qed.

Definition settled (c : config) : Prop :=
  match c with Running s => mutex s = Free | Crashed _ => True end.
Lemma atomic_steps c c' : atomic c c' → settled c → rtc step c c' ∧ settled c'.
Proof.
  intros Hs. destruct Hs as [a m th l t o|a m th l t o|a m th l t o a' r Ht E|a m th l t o u Ht E];
    cbn; intros ->; (split; [|done]).
  1,2: apply rtc_once; by econstructor.
  all: eapply rtc_l; [by apply (step_lock _ _ (Held t) _ _ t o)|].
  all: pose proof (section_steps (section o) a (<[t := Inside o (section o)]> th) l t o) as H.
  all: rewrite lookup_insert_eq, delete_insert_eq, E in H; by apply H.
Qed.

Lemma atomic_reachable a c : rtc atomic (start a) c → rtc step (start a) c ∧ settled c.
Proof.
  revert c. apply rtc_ind_r; [done|]. intros c c' _ Hs [IH Hset].
  destruct (atomic_steps c c' Hs Hset) as [H ?]. split; [by etrans|done].
Qed.

Lemma holder_leaves a s : rtc step (start a) (Running s) → ∃ c, rtc step (Running s) c ∧ settled c.
Proof.
  intros H. destruct (sim_reachable a _ H) as (_ & d & _ & Hsim).
  inversion Hsim as [? ? ? Hno|? b ? ? v x q Hv Hout Hrun Honce
    |? b ? ? v x q r' Hv Hout Hrun|? ? ? v x q w Hv Hout Hrun|]; subst; [by eexists|..];
    pose proof (section_steps q a0 th l v x Hv) as Hs.
  - destruct (once_run q a0 Honce) as [(c & r & E)|[u E]]; rewrite E in Hs; eexists; (split; [exact Hs|done]).
  - rewrite Hrun in Hs. eexists; (split; [exact Hs|done]).
  - rewrite Hrun in Hs. eexists; (split; [exact Hs|done]).
Qed.

(** Code between [lock] and [unlock] that changes at most once what the others look
    at without the lock is one step for them: threads that run it step by step reach,
    with the mutex free, exactly the states, and run into exactly the faults, that
    threads do whose sections are one step. At most one thread is in a section, and it
    can always leave it. *)
Theorem sections_atomic a :
  (∀ c, settled c → rtc step (start a) c ↔ rtc atomic (start a) c) ∧
  (∀ s t u o p x q, rtc step (start a) (Running s) →
    threads s !! t = Some (Inside o p) → threads s !! u = Some (Inside x q) → t = u) ∧
  (∀ s, rtc step (start a) (Running s) → ∃ c, rtc step (Running s) c ∧ settled c).
Proof.
  split_and!.
  - intros c Hc. split; [|by intros H; apply atomic_reachable in H as [? _]].
    intros H. destruct (sim_reachable a c H) as (_ & d & Hd & Hsim). by inversion Hsim; subst.
  - intros s t u o p x q H Ht Hu. destruct (sim_reachable a _ H) as (_ & d & _ & Hsim).
    inversion Hsim as [? ? ? Hno|? ? ? ? v ? ? ? Hout|? ? ? ? v ? ? ? ? Hout|? ? ? v ? ? ? ? Hout|]; subst; cbn in *.
    1: by destruct (Hno t o p).
    all: by rewrite (Hout _ _ _ Ht), (Hout _ _ _ Hu).
  - intros s. apply holder_leaves.
Qed.
End sections.

(** A counter: a section reads it into a variable, and then writes it. *)
Definition increment : prog (A := Z) (R := unit) :=
  Step (λ n, Ok (n, Step (λ _, Ok (n + 1, Return ())))).
Definition increment_op : operation (V := unit) := mkOperation (λ _, true) increment.
Lemma sections_atomic_witness :
  let incremented : config := Running (mkState 2 Free ∅ [(7%nat, increment_op, ()); (8%nat, increment_op, ())]) in
  rtc (step (λ _, ()) (λ _ o, o = increment_op)) (start 0) incremented.
Proof.
  intros c. apply (sections_atomic (λ _ : Z, ()) (λ _ o, o = increment_op)); [|done|].
  { intros t o a ->. left. split; [done|]. left. by split. }
  eapply rtc_l; [by apply (atomic_call _ _ _ _ _ _ 7 increment_op)|].
  eapply rtc_l; [by eapply (atomic_section _ _ _ _ _ _ 7 increment_op)|].
  eapply rtc_l; [by apply (atomic_call _ _ _ _ _ _ 8 increment_op)|].
  eapply rtc_l; [by eapply (atomic_section _ _ _ _ _ _ 8 increment_op)|].
  done.
Defined.
