(* ===== verification/FifoQueue.v ===== *)
(** The queue of src/utils/FifoQueue.h, its nodes on a heap, and the threads that
    share it. *)
From stdpp Require Import relations fin_sets.
From S2P Require Import Prelude.
From S2P Require Import Mutex.

Section queue.
Context {V : Type}.

(** The template is used with pointers: a null object is [None]. *)
Abbreviation Object := (option V).
Record qnode : Type := mkNode {
  data : Object;
  next : option nat
}.
(** The members of a queue, and the nodes that are allocated; the mutex is in the
    steps of the threads below. *)
Record queue : Type := mkQueue {
  qsize : Z;
  head : option nat;
  tail : option nat;
  current : option nat;
  heap : gmap nat qnode
}.
Definition queue_new : queue := mkQueue 0 None None None ∅.

Definition set_qsize x (q : queue) : queue := mkQueue x (head q) (tail q) (current q) (heap q).
Definition set_head x (q : queue) : queue := mkQueue (qsize q) x (tail q) (current q) (heap q).
Definition set_tail x (q : queue) : queue := mkQueue (qsize q) (head q) x (current q) (heap q).
Definition set_current x (q : queue) : queue := mkQueue (qsize q) (head q) (tail q) x (heap q).
Definition set_heap x (q : queue) : queue := mkQueue (qsize q) (head q) (tail q) (current q) x.

(** Simplify what the members of a changed queue are. *)
Local Ltac members :=
  cbn [mbind outcome_bind qsize head tail current heap set_qsize set_head set_tail set_current
       set_heap data next deref].

(** A node behind a pointer, and a write of its [next]. *)
Definition load (q : queue) (p : option nat) : outcome (nat * qnode) :=
  p ← deref p;
  match heap q !! p with Some n => Ok (p, n) | None => Undef UseAfterFree end.
Definition write_next (q : queue) (p x : option nat) : outcome queue :=
  '(p, n) ← load q p;
  Ok (set_heap (<[p := mkNode (data n) x]> (heap q)) q).

(** [enqueue], between [lock] and [unlock]. *)
Definition enqueue (o : Object) (q : queue) : outcome queue :=
  let p := fresh (dom (heap q)) in
  let q := set_current (Some p) (set_heap (<[p := mkNode o None]> (heap q)) q) in
  n ← int_op (qsize q + 1);
  let q := set_qsize n q in
  match head q with
  | None =>
      let q := set_tail (current q) (set_head (current q) q) in
      write_next q (head q) None
  | Some _ =>
      q ← (if decide (head q = tail q) then write_next q (head q) (tail q) else Ok q);
      q ← write_next q (tail q) (current q);
      q ← write_next q (current q) None;
      Ok (set_tail (current q) q)
  end.

(** [dequeue]: the test of [head] is made before the lock is taken. *)
Definition dequeue_locked (q : queue) : outcome (Object * queue) :=
  n ← int_op (qsize q - 1);
  let q := set_qsize n q in
  '(h, x) ← load q (head q);
  let q := set_current (next x) q in
  let q := set_heap (delete h (heap q)) q in
  let q := match current q with
           | None => set_head None (set_tail None (set_current None q))
           | Some _ => set_head (current q) q
           end in
  Ok (data x, q).
Definition dequeue (q : queue) : outcome (Object * queue) :=
  match head q with
  | None => Ok (None, q)
  | Some _ => dequeue_locked q
  end.

Definition size (q : queue) : Z := qsize q.
Definition empty (q : queue) : bool := qsize q =? 0.

(** The destructor. *)
Fixpoint destroy (fuel : nat) (q : queue) : outcome queue :=
  match fuel with
  | O => Undef NoFuel
  | S fuel =>
      match head q with
      | None => Ok q
      | Some h =>
          '(h, x) ← load q (head q);
          let q := set_head (next x) (set_current (Some h) q) in
          let q := set_current None (set_heap (delete h (heap q)) q) in
          destroy fuel q
      end
  end.

(** ** A queue holds a list

    [ps] are the addresses of the nodes, from the head to the tail; nothing else is
    allocated. *)
Record holds (q : queue) (l : list Object) (ps : list nat) : Prop := {
  q_length : length ps = length l;
  q_nodup : NoDup ps;
  q_head : head q = ps !! 0%nat;
  q_tail : tail q = last ps;
  q_size : qsize q = Z.of_nat (length l);
  q_nodes : ∀ i p o, ps !! i = Some p → l !! i = Some o → heap q !! p = Some (mkNode o (ps !! S i));
  q_heap : dom (heap q) = list_to_set ps
}.

Lemma queue_new_holds : holds queue_new [] [].
Proof. split; cbn; try done. apply NoDup_nil_2. Qed.

Lemma holds_node q l ps i p :
  holds q l ps → ps !! i = Some p →
  ∃ o, l !! i = Some o ∧ heap q !! p = Some (mkNode o (ps !! S i)).
Proof.
  intros H Hp. destruct (lookup_lt_is_Some_2 l i) as [o Ho].
  { rewrite <-(q_length _ _ _ H). by eapply lookup_lt_Some. }
  exists o. split; [done|]. by eapply H.
Qed.

Lemma write_next_ok q p n x :
  heap q !! p = Some n →
  write_next q (Some p) x = Ok (set_heap (<[p := mkNode (data n) x]> (heap q)) q).
Proof. intros Hp. unfold write_next, load. cbn. by rewrite Hp. Qed.

Lemma holds_fresh q l ps : holds q l ps → fresh (dom (heap q)) ∉ ps.
Proof.
  intros H Hp. assert (Hd : ∀ x, x ∈ ps → x ∈ dom (heap q)).
  { intros x Hx. rewrite (q_heap _ _ _ H). by apply elem_of_list_to_set. }
  by apply (is_fresh (dom (heap q))), Hd.
Qed.

(** The state after a node was linked behind the tail. *)
Lemma linked_holds q q' l ps t ot o p :
  holds q l (ps ++ [t]) → p ∉ ps ++ [t] → last l = Some ot →
  head q' = head q → tail q' = Some p → qsize q' = qsize q + 1 →
  heap q' = <[p := mkNode o None]> (<[t := mkNode ot (Some p)]> (heap q)) →
  holds q' (l ++ [o]) ((ps ++ [t]) ++ [p]).
Proof.
  intros H Hp Hot Hh Ht Hs Hheap. pose proof (q_length _ _ _ H) as Hlen. rewrite length_app in Hlen. cbn in Hlen.
  pose proof (q_nodup _ _ _ H) as Hd. split.
  - rewrite !length_app. cbn. lia.
  - apply NoDup_app. split_and!; [done| |apply NoDup_singleton]. by intros x Hx ->%list_elem_of_singleton.
  - rewrite Hh, (q_head _ _ _ H). by destruct ps.
  - by rewrite Ht, last_snoc.
  - rewrite Hs, (q_size _ _ _ H), length_app. cbn. lia.
  - intros i x y Hx Hy. rewrite Hheap. destruct (decide (x = p)) as [->|Hne].
    + rewrite lookup_insert_eq. destruct (decide (i < length (ps ++ [t]))%nat).
      { rewrite lookup_app_l in Hx by done. destruct Hp. by eapply list_elem_of_lookup_2. }
      pose proof (lookup_lt_Some _ _ _ Hx) as Hl. rewrite !length_app in *. cbn in *.
      assert (i = length l) as -> by lia. rewrite list_lookup_middle in Hy by done. injection Hy as ->.
      by rewrite lookup_ge_None_2 by (rewrite !length_app; cbn; lia).
    + rewrite lookup_insert_ne by done.
      apply lookup_app_Some in Hx as [Hx|[_ Hx]].
      2:{ apply list_lookup_singleton_Some in Hx as [_ ->]. done. }
      pose proof (lookup_lt_Some _ _ _ Hx) as Hl. rewrite length_app in Hl. cbn in Hl.
      rewrite lookup_app_l in Hy by lia. destruct (decide (i = length ps)) as [->|Hi].
      * rewrite list_lookup_middle in Hx by done. injection Hx as <-. rewrite lookup_insert_eq.
        assert (y = ot) as ->.
        { rewrite last_lookup in Hot. replace (pred (length l)) with (length ps) in Hot by lia. congruence. }
        do 2 f_equal. rewrite lookup_app_r by (rewrite length_app; cbn; lia).
        rewrite length_app. cbn. by replace (S (length ps) - (length ps + 1))%nat with 0%nat by lia.
      * assert (x ≠ t).
        { intros ->. apply Hi. eapply NoDup_lookup; [exact Hd|exact Hx|by apply list_lookup_middle]. }
        rewrite lookup_insert_ne by done. rewrite (q_nodes _ _ _ H i x y) by done.
        do 2 f_equal. symmetry. apply lookup_app_l. rewrite length_app. cbn. lia.
  - rewrite Hheap, !dom_insert_L, (q_heap _ _ _ H), !list_to_set_app_L. cbn. set_solver.
Qed.

(** Adding behind the tail. *)
Lemma enqueue_ok q l ps o :
  holds q l ps → Z.of_nat (length l) < INT_MAX →
  ∃ q' p, enqueue o q = Ok q' ∧ holds q' (l ++ [o]) (ps ++ [p]).
Proof.
  intros H Hl. unfold enqueue. set (p := fresh (dom (heap q))). members.
  pose proof (holds_fresh _ _ _ H) as Hp. fold p in Hp.
  rewrite int_op_ok by (rewrite (q_size _ _ _ H); unfold INT_MIN, INT_MAX in *; lia).
  members.
  destruct ps as [|t ps _] using rev_ind.
  - rewrite (q_head _ _ _ H). cbn [lookup list_lookup]. pose proof (q_length _ _ _ H) as Hlen.
    destruct l; [|done]. members.
    erewrite write_next_ok by apply lookup_insert_eq. members.
    eexists _, p. split; [done|]. rewrite insert_insert_eq. split; cbn; try done.
    + apply NoDup_singleton.
    + rewrite (q_size _ _ _ H). done.
    + intros [|i] x y Hx Hy; [|done]. injection Hx as <-. injection Hy as <-. apply lookup_insert_eq.
    + rewrite dom_insert_L, (q_heap _ _ _ H). done.
  - assert (Ht : (ps ++ [t]) !! length ps = Some t) by by apply list_lookup_middle.
    destruct (holds_node _ _ _ _ _ H Ht) as (ot & Hot & Hnode).
    assert (Hpt : p ≠ t) by (intros ->; apply Hp, elem_of_app; right; by apply list_elem_of_singleton).
    rewrite lookup_ge_None_2 in Hnode by (rewrite length_app; cbn; lia).
    assert (Hlast : last l = Some ot).
    { rewrite last_lookup. pose proof (q_length _ _ _ H) as Hlen. rewrite length_app in Hlen. cbn in Hlen.
      by replace (pred (length l)) with (length ps) by lia. }
    destruct (head q) as [h|] eqn:Hh.
    2:{ rewrite (q_head _ _ _ H) in Hh. by destruct ps. }
    rewrite (q_tail _ _ _ H), last_snoc. members.
    set (H0 := <[p := mkNode o None]> (heap q)).
    assert (HH0 : H0 !! t = Some (mkNode ot None)) by by unfold H0; rewrite lookup_insert_ne.
    set (q1 := set_qsize _ _).
    assert (∃ x, (if decide (Some h = Some t) then write_next q1 (Some h) (Some t) else Ok q1)
      = Ok (set_heap (<[t := mkNode ot x]> H0) q1)) as [x ->].
    { destruct (decide (Some h = Some t)) as [[= ->]|].
      - exists (Some t). exact (write_next_ok q1 t (mkNode ot None) (Some t) HH0).
      - exists None. by rewrite insert_id. }
    unfold q1. members. rewrite (q_tail _ _ _ H), last_snoc.
    erewrite write_next_ok by apply lookup_insert_eq. members.
    rewrite insert_insert_eq.
    erewrite write_next_ok by (cbn; rewrite lookup_insert_ne by done; apply lookup_insert_eq).
    members.
    eexists _, p. split; [done|]. eapply linked_holds; try done. cbn.
    unfold H0. rewrite (insert_insert_ne (heap q) t p) by done. by rewrite insert_insert_eq.
Qed.

(** Taking the head. *)
Lemma dequeue_ok q o l p ps :
  holds q (o :: l) (p :: ps) → Z.of_nat (length l) < INT_MAX →
  ∃ q', dequeue_locked q = Ok (o, q') ∧ dequeue q = Ok (o, q') ∧ holds q' l ps.
Proof.
  intros H Hl. pose proof (q_nodes _ _ _ H 0 p o eq_refl eq_refl) as Hn. cbn in Hn.
  pose proof (q_nodup _ _ _ H) as Hd. apply NoDup_cons in Hd as [Hp Hd].
  pose proof (q_size _ _ _ H) as Hs. cbn in Hs. pose proof (q_length _ _ _ H) as Hlen. cbn in Hlen.
  assert (E : ∃ q', dequeue_locked q = Ok (o, q') ∧ holds q' l ps).
  2:{ destruct E as (q' & E & Hq'). exists q'. split_and!; [done| |done].
      unfold dequeue. by rewrite (q_head _ _ _ H). }
  unfold dequeue_locked. rewrite int_op_ok by (rewrite Hs; unfold INT_MIN, INT_MAX in *; lia).
  members. rewrite (q_head _ _ _ H). unfold load. cbn. rewrite Hn. cbn.
  eexists. split; [done|].
  assert (Hnodes : ∀ i x y, ps !! i = Some x → l !! i = Some y →
    delete p (heap q) !! x = Some (mkNode y (ps !! S i))).
  { intros i x y Hx Hy. rewrite lookup_delete_ne; [by apply (q_nodes _ _ _ H (S i))|].
    intros ->. apply Hp. by eapply list_elem_of_lookup_2. }
  assert (Hdom : dom (delete p (heap q)) = list_to_set ps).
  { rewrite dom_delete_L, (q_heap _ _ _ H). cbn.
    assert (p ∉ (list_to_set ps : gset nat)) by by rewrite elem_of_list_to_set. set_solver. }
  destruct ps as [|p2 ps]; cbn; split; cbn; try done; try lia.
  1,2: cbn in Hlen; lia.
  by rewrite (q_tail _ _ _ H).
Qed.
Lemma dequeue_empty q : holds q [] [] → dequeue_locked q = Undef NullDeref.
Proof.
  intros H. unfold dequeue_locked. rewrite (q_size _ _ _ H). cbn [length].
  rewrite int_op_ok by (unfold INT_MIN, INT_MAX; lia). members. by rewrite (q_head _ _ _ H).
Qed.
Lemma enqueue_full q l ps o : holds q l ps → Z.of_nat (length l) = INT_MAX → enqueue o q = Undef IntOverflow.
Proof. intros H Hl. unfold enqueue. members. by rewrite (q_size _ _ _ H), Hl. Qed.

(** The destructor frees every node. *)
Lemma destroy_ok q l ps fuel :
  holds q l ps → (length l < fuel)%nat → ∃ q', destroy fuel q = Ok q' ∧ heap q' = ∅.
Proof.
  intros H Hfuel.
  assert (Hf : ∃ q', destroy fuel q = Ok q' ∧ heap q' = ∅); [|done].
  pose proof (q_length _ _ _ H) as Hlen. rewrite <-Hlen in Hfuel.
  assert (Hnodes : ∀ i p, ps !! i = Some p → ∃ o, heap q !! p = Some (mkNode o (ps !! S i))).
  { intros i p Hp. destruct (holds_node _ _ _ _ _ H Hp) as (o & _ & ?). eauto. }
  pose proof (q_nodup _ _ _ H) as Hd. pose proof (q_head _ _ _ H) as Hh. pose proof (q_heap _ _ _ H) as Hdom.
  clear H Hlen l. revert q fuel Hfuel Hnodes Hh Hdom.
  induction ps as [|p ps IH]; intros q fuel Hfuel Hnodes Hh Hdom; (destruct fuel as [|fuel]; [lia|]); cbn in Hh.
  { exists q. cbn. rewrite Hh. split; [done|]. by apply dom_empty_inv_L. }
  cbn [destroy]. rewrite Hh. apply NoDup_cons in Hd as [Hp Hd].
  destruct (Hnodes 0%nat p eq_refl) as [o Ho]. unfold load. members. rewrite Ho. members.
  apply IH; [done|cbn in Hfuel; lia| |done|].
  - intros i x Hx. destruct (Hnodes (S i) x Hx) as [y Hy]. exists y. cbn.
    rewrite lookup_delete_ne; [done|]. intros ->. apply Hp. by eapply list_elem_of_lookup_2.
  - cbn. rewrite dom_delete_L, Hdom. cbn.
    assert (p ∉ (list_to_set ps : gset nat)) by by rewrite elem_of_list_to_set. set_solver.
Qed.
End queue.
Arguments queue : clear implicits.

(** ** The operations, statement by statement

    What an operation did: it added an object, or took one. *)
Section statements.
Context {V : Type}.
Inductive event : Type := Put (o : option V) | Got (o : option V).
Abbreviation code := (prog (A := queue V) (R := event)).
Definition stmt (f : queue V → outcome (queue V)) (p : code) : code :=
  Step (λ q, q ← f q; Ok (q, p)).
Definition assign (f : queue V → queue V) (p : code) : code := stmt (λ q, Ok (f q)) p.
Definition branch (b : queue V → bool) (p1 p2 : code) : code :=
  Step (λ q, Ok (q, if b q then p1 else p2)).
Definition is_null (p : option nat) : bool := match p with None => true | Some _ => false end.

(** [enqueue], from [lock] to [unlock] *)
Definition enqueue_section (o : option V) : code :=
  assign (λ q, let p := fresh (dom (heap q)) in
               set_current (Some p) (set_heap (<[p := mkNode o None]> (heap q)) q))
  $ stmt (λ q, n ← int_op (qsize q + 1); Ok (set_qsize n q))
  $ branch (λ q, is_null (head q))
      (assign (λ q, set_head (current q) q)
       $ assign (λ q, set_tail (head q) q)
       $ stmt (λ q, write_next q (head q) None)
       $ Return (Put o))
      (stmt (λ q, if decide (head q = tail q) then write_next q (head q) (tail q) else Ok q)
       $ stmt (λ q, write_next q (tail q) (current q))
       $ stmt (λ q, write_next q (current q) None)
       $ assign (λ q, set_tail (current q) q)
       $ Return (Put o)).

(** [dequeue], from [lock] to [unlock]; the object is in a variable of the thread. *)
Definition unlink (o : option V) : code :=
  stmt (λ q, '(_, x) ← load q (head q); Ok (set_current (next x) q))
  $ stmt (λ q, '(h, _) ← load q (head q); Ok (set_heap (delete h (heap q)) q))
  $ branch (λ q, is_null (current q))
      (assign (set_current None) $ assign (set_tail None) $ assign (set_head None) $ Return (Got o))
      (assign (λ q, set_head (current q) q) $ Return (Got o)).
Definition dequeue_section : code :=
  stmt (λ q, n ← int_op (qsize q - 1); Ok (set_qsize n q))
  $ Step (λ q, '(_, x) ← load q (head q); Ok (q, unlink (data x))).

(** [dequeue] tests [head] before it takes the lock. *)
Definition enqueue_op (o : option V) : operation (V := option nat) := mkOperation (λ _, true) (enqueue_section o).
Definition dequeue_op : operation (V := option nat) := mkOperation (λ h, negb (is_null h)) dequeue_section.

Lemma run_stmt f p q : run (stmt f p) q = (q ← f q; run p q).
Proof. unfold stmt. cbn [run]. by destruct (f q). Qed.
Lemma run_assign f p q : run (assign f p) q = run p (f q).
Proof. done. Qed.
Lemma run_branch b p1 p2 q : run (branch b p1 p2) q = if b q then run p1 q else run p2 q.
Proof. unfold branch. cbn. by destruct (b q). Qed.
Lemma outcome_bind_assoc {X Y Z'} (m : outcome X) (f : X → outcome Y) (g : Y → outcome Z') :
  ((m ≫= f) ≫= g) = (m ≫= λ x, f x ≫= g).
Proof. by destruct m. Qed.

(** The statements of an operation, in a row, are the operation. *)
Lemma run_enqueue o q : run (enqueue_section o) q = (q ← enqueue o q; Ok (q, Put o)).
Proof.
  unfold enqueue_section, enqueue. rewrite run_assign, run_stmt, !outcome_bind_assoc.
  destruct (int_op _) as [n| |]; [|done..]. cbn [mbind outcome_bind]. rewrite run_branch. unfold is_null.
  set (q1 := set_qsize n _). destruct (head q1) as [h|] eqn:Hh.
  - rewrite run_stmt, outcome_bind_assoc, Hh. destruct (if decide _ then _ else _) as [q2| |]; [|done..].
    cbn [mbind outcome_bind]. rewrite run_stmt, outcome_bind_assoc.
    destruct (write_next q2 _ _) as [q3| |]; [|done..]. cbn [mbind outcome_bind].
    rewrite run_stmt, outcome_bind_assoc. by destruct (write_next q3 _ _).
  - rewrite !run_assign, run_stmt. change (head (set_head (current q1) q1)) with (current q1).
    set (q2 := set_tail _ _). by destruct (write_next q2 _ _).
Qed.
Lemma run_dequeue q : run dequeue_section q = ('(o, q) ← dequeue_locked q; Ok (q, Got o)).
Proof.
  unfold dequeue_section, dequeue_locked. rewrite run_stmt, !outcome_bind_assoc.
  destruct (int_op _) as [n| |]; [|done..]. cbn [mbind outcome_bind run].
  destruct (load (set_qsize n q) _) as [[h x]| |] eqn:E; [|done..]. cbn [mbind outcome_bind].
  unfold unlink. rewrite run_stmt, E. cbn [mbind outcome_bind]. rewrite run_stmt.
  assert (E' : ∀ c, load (set_current c (set_qsize n q)) (head (set_current c (set_qsize n q))) = Ok (h, x)) by done.
  rewrite E'. cbn [mbind outcome_bind]. rewrite run_branch. unfold is_null. cbn [current set_current set_heap].
  by destruct (next x).
Qed.

(** Each writes [head] once. *)
Lemma quiet_stmt (f : queue V → outcome (queue V)) p q :
  match f q with Ok q' => head q' = head q ∧ quiet (head (V := V)) p q' | Throw _ => False | Undef _ => True end →
  quiet (head (V := V)) (stmt f p) q.
Proof. unfold stmt. cbn. by destruct (f q). Qed.
Lemma once_stmt (f : queue V → outcome (queue V)) p q :
  match f q with
  | Ok q' => head q' = head q ∧ once (head (V := V)) p q' ∨ quiet (head (V := V)) p q'
  | Throw _ => False
  | Undef _ => True
  end → once (head (V := V)) (stmt f p) q.
Proof. unfold stmt. cbn. by destruct (f q). Qed.
Lemma once_branch (b : queue V → bool) (p1 p2 : code) q :
  once (head (V := V)) (if b q then p1 else p2) q → once (head (V := V)) (branch b p1 p2) q.
Proof. intros H. left. done. Qed.
Lemma load_not_thrown (q : queue V) p : match load q p with Throw _ => False | _ => True end.
Proof. unfold load. destruct p as [p|]; [|done]. cbn. by destruct (heap q !! p). Qed.
Lemma write_next_cases (q : queue V) p x (P : queue V → Prop) :
  (∀ q', head q' = head q → P q') →
  match write_next q p x with Ok q' => P q' | Throw _ => False | Undef _ => True end.
Proof.
  intros HP. unfold write_next. pose proof (load_not_thrown q p).
  destruct (load q p) as [[h n]| |]; [|done..]. cbn. by apply HP.
Qed.
Lemma enqueue_once o q : once (head (V := V)) (enqueue_section o) q.
Proof.
  apply once_stmt. left. split; [done|]. apply once_stmt. unfold int_op. destruct (int_ok _); [|done].
  cbn [mbind outcome_bind]. left. split; [done|]. set (q1 := set_qsize _ _). apply once_branch.
  destruct (is_null (head q1)).
  - apply once_stmt. right. apply quiet_stmt. split; [done|]. apply quiet_stmt.
    apply write_next_cases. intros q' ->. by split.
  - apply once_stmt. assert (H : ∀ q, once (head (V := V)) (stmt (λ q, write_next q (tail q) (current q))
      $ stmt (λ q, write_next q (current q) None) $ assign (λ q, set_tail (current q) q) $ Return (Put o)) q).
    { intros q2. apply once_stmt, write_next_cases. intros q3 E3. left. split; [done|].
      apply once_stmt, write_next_cases. intros q4 E4. left. split; [done|]. apply once_stmt. by left. }
    destruct (decide _); [|left; by split]. apply write_next_cases. intros q2 E2. left. by split.
Qed.
Lemma dequeue_once q : once (head (V := V)) dequeue_section q.
Proof.
  apply once_stmt. unfold int_op. destruct (int_ok _); [|done]. cbn [mbind outcome_bind]. left. split; [done|].
  set (q1 := set_qsize _ _). cbn [once]. pose proof (load_not_thrown q1 (head q1)) as Hl.
  destruct (load q1 (head q1)) as [[h x]| |]; [|done..]. cbn [mbind outcome_bind]. left. split; [done|].
  apply once_stmt. clear Hl. pose proof (load_not_thrown q1 (head q1)) as Hl.
  destruct (load q1 (head q1)) as [[h' x']| |]; [|done..]. cbn [mbind outcome_bind]. left. split; [done|].
  set (q2 := set_current _ _). apply once_stmt. clear Hl. pose proof (load_not_thrown q2 (head q2)) as Hl.
  destruct (load q2 (head q2)) as [[h'' x'']| |]; [|done..]. cbn [mbind outcome_bind]. left. split; [done|].
  apply once_branch. destruct (is_null _).
  - apply once_stmt. left. split; [done|]. apply once_stmt. left. split; [done|]. apply once_stmt. by right.
  - apply once_stmt. by right.
Qed.
End statements.
Arguments event : clear implicits.

(** ** Threads that share a queue

    [consumer] are the threads that take objects. What was added and what was taken are
    in the log of the critical sections. *)
Section threads.
Context {V : Type} (consumer : nat → Prop).
Abbreviation qoperation := (operation (A := queue V) (V := option nat) (R := event V)).

Definition calls (t : nat) (o : qoperation) : Prop :=
  (∃ x, o = enqueue_op x) ∨ (consumer t ∧ o = dequeue_op).
Abbreviation qconfig := (config (A := queue V) (V := option nat) (R := event V)).
Definition thread_step : qconfig → qconfig → Prop := step head calls.
Definition thread_start : qconfig := start queue_new.

Definition put (l : list (nat * qoperation * event V)) : list (option V) :=
  omap (λ e, match e.2 with Put o => Some o | Got _ => None end) l.
Definition got (l : list (nat * qoperation * event V)) : list (option V) :=
  omap (λ e, match e.2 with Put _ => None | Got o => Some o end) l.

Lemma calls_once t o q : calls t o → once (head (V := V)) (section o) q.
Proof. intros [[x ->]|[_ ->]]; [apply enqueue_once|apply dequeue_once]. Qed.

(** Who has tested [head] and is in front of the lock. *)
Definition passed (o : qoperation) : Prop := test o None = false.

(** What is true of every state that the threads can reach when a section is one
    step. *)
Definition one_consumer : Prop := ∀ t u, consumer t → consumer u → t = u.
Definition config_ok (c : qconfig) : Prop :=
  match c with
  | Running s => ∃ l ps, holds (shared s) l ps ∧ Z.of_nat (length l) ≤ INT_MAX ∧
      put (log s) = got (log s) ++ l ∧
      (∀ t o, threads s !! t = Some (Ready o) → calls t o) ∧
      (one_consumer → ∀ t o, threads s !! t = Some (Ready o) → passed o → l ≠ [])
  | Crashed f => f = IntOverflow ∨ (f = NullDeref ∧ ¬ one_consumer)
  end.

Lemma atomic_ok c c' : config_ok c → atomic head calls c c' → config_ok c'.
Proof.
  intros Hc Hs. destruct Hs as [a m th l t o Ht Hcall Hf|a m th l t o Ht Hcall Hf|a m th l t o a' r Ht E|a m th l t o u Ht E];
    destruct Hc as (xs & ps & H & Hl & Hput & Hcalls & Hone); cbn in *.
  - by exists xs, ps.
  - exists xs, ps. split_and!; [done..| |].
    + intros u x [[<- [= <-]]|[_ Hu]]%lookup_insert_Some; eauto.
    + intros H1 u x [[<- [= <-]]|[_ Hu]]%lookup_insert_Some Hx; [|by eapply Hone]. intros ->.
      destruct ps; [|by apply q_length in H]. rewrite (q_head _ _ _ H) in Hf. unfold passed in Hx. cbn in Hf. congruence.
  - destruct (Hcalls t o Ht) as [[x ->]|[Hcon ->]]; cbn [section enqueue_op dequeue_op] in E.
    + rewrite run_enqueue in E.
      assert (Hlt : Z.of_nat (length xs) < INT_MAX).
      { destruct (Z.eq_dec (Z.of_nat (length xs)) INT_MAX); [|lia]. by rewrite (enqueue_full _ _ _ _ H) in E. }
      destruct (enqueue_ok _ _ _ x H Hlt) as (q' & p & E' & Hq'). rewrite E' in E. injection E as <- <-.
      exists (xs ++ [x]), (ps ++ [p]). split_and!; [done|rewrite length_app; cbn; lia| | |].
      * unfold put, got in *. rewrite !omap_app. cbn. by rewrite Hput, app_nil_r, app_assoc.
      * intros u y [_ Hu]%lookup_delete_Some. eauto.
      * intros _ u y _ _ Hnil. by destruct xs.
    + rewrite run_dequeue in E. destruct xs as [|x xs], ps as [|p ps]; try by apply q_length in H.
      { by rewrite (dequeue_empty _ H) in E. }
      destruct (dequeue_ok _ _ _ _ _ H) as (q' & E' & _ & Hq'); [cbn in Hl; lia|]. rewrite E' in E. injection E as <- <-.
      exists xs, ps. split_and!; [done|cbn in Hl; lia| | |].
      * unfold put, got in *. rewrite !omap_app. cbn. by rewrite Hput, app_nil_r, <-app_assoc.
      * intros u y [_ Hu]%lookup_delete_Some. eauto.
      * intros H1 u y [Hne Hu]%lookup_delete_Some Hy. destruct Hne.
        destruct (Hcalls u y Hu) as [[z ->]|[Hcon' ->]]; [done|]. by apply H1.
  - destruct (Hcalls t o Ht) as [[x ->]|[Hcon ->]]; cbn [section enqueue_op dequeue_op] in E.
    + rewrite run_enqueue in E. left. destruct (Z.eq_dec (Z.of_nat (length xs)) INT_MAX) as [Heq|Hne].
      * rewrite (enqueue_full _ _ _ _ H Heq) in E. by injection E.
      * destruct (enqueue_ok _ _ _ x H) as (q' & p & E' & _); [lia|]. by rewrite E' in E.
    + rewrite run_dequeue in E. destruct xs as [|x xs], ps as [|p ps]; try by apply q_length in H.
      * rewrite (dequeue_empty _ H) in E. right. injection E as <-. split; [done|]. intros H1. by apply (Hone H1 t _ Ht).
      * destruct (dequeue_ok _ _ _ _ _ H) as (q' & E' & _); [cbn in Hl; lia|]. by rewrite E' in E.
Qed.
Lemma atomic_reachable_ok c : rtc (atomic head calls) thread_start c → config_ok c.
Proof.
  revert c. apply rtc_ind_r; [|intros c c' _ Hs IH; by eapply atomic_ok].
  exists [], []. split_and!; [apply queue_new_holds|done|done|by intros t o|by intros _ t o].
Qed.

(** C15: threads that share a queue see it first in, first out, and with at most one
    consumer nothing goes wrong.  The threads run the statements of [enqueue] and
    [dequeue] one by one, in any order that the mutex allows, and [dequeue] tests [head]
    without it.  Whenever the mutex is free, what was taken is a prefix of what was
    added, the rest is in the queue, in order, [size] is its length and [empty] tells
    whether there is any, and the destructor frees all nodes; and it always becomes free
    again.  If only one thread takes objects, the only fault is an overflow of the size,
    after 2^31 - 1 objects. *)
Theorem queue_fifo c :
  rtc thread_step thread_start c →
  match c with
  | Running s =>
      (mutex s = Free →
       ∃ l ps, holds (shared s) l ps ∧ put (log s) = got (log s) ++ l ∧
         size (shared s) = Z.of_nat (length l) ∧ empty (shared s) = bool_decide (l = []) ∧
         ∃ q, destroy (S (length l)) (shared s) = Ok q ∧ heap q = ∅) ∧
      (∃ c', rtc thread_step c c' ∧ settled c')
  | Crashed f => one_consumer → f = IntOverflow
  end.
Proof.
  intros Hr. destruct (sim_reachable _ _ calls_once _ _ Hr) as (_ & d & Hd & Hsim).
  apply atomic_reachable_ok in Hd as Hok. destruct c as [s|f].
  - split; [|exact (holder_leaves _ _ calls_once _ _ Hr)]. intros Hm. inversion Hsim; subst; try done.
    destruct Hok as (xs & ps & H & _ & Hput & _). exists xs, ps. split_and!; [done|done|apply H| |].
    + pose proof (q_size _ _ _ H) as E. unfold empty. cbn in E |- *. rewrite E. by destruct xs.
    + apply (destroy_ok _ _ _ _ H). lia.
  - inversion Hsim; subst. cbn in Hok. tauto.
Qed.

(** Two consumers can crash the server: when two threads test [head] before
    either takes the only object of a queue, the second follows a null pointer. *)
Theorem queue_two_consumers t u (o : option V) :
  consumer t → consumer u → t ≠ u → rtc thread_step thread_start (Crashed NullDeref).
Proof.
  intros Ht Hu Hne. apply (atomic_reachable head calls queue_new).
  destruct (enqueue_ok queue_new [] [] o) as (q & p & Eq & Hq);
    [apply queue_new_holds|cbn; unfold INT_MAX; lia|]. cbn in Hq.
  destruct (dequeue_ok _ _ _ _ _ Hq) as (q' & Eq' & _ & Hq'); [cbn; unfold INT_MAX; lia|].
  assert (Hh : test (dequeue_op (V := V)) (head q) = true) by by rewrite (q_head _ _ _ Hq).
  unfold start. eapply rtc_l; [apply (atomic_call _ _ _ _ _ _ t (enqueue_op o)); [done|left; eauto|done]|].
  eapply rtc_l.
  { eapply atomic_section; [apply lookup_insert_eq|]. cbn [section enqueue_op]. rewrite run_enqueue, Eq. done. }
  eapply rtc_l; [apply (atomic_call _ _ _ _ _ _ t dequeue_op); [apply lookup_delete_eq|by right|done]|].
  eapply rtc_l.
  { apply (atomic_call _ _ _ _ _ _ u dequeue_op); [|by right|done].
    by rewrite lookup_insert_ne, delete_insert_eq, lookup_delete_ne by done. }
  eapply rtc_l.
  { apply (atomic_section _ _ _ _ _ _ t dequeue_op); [by rewrite lookup_insert_ne, lookup_insert_eq by done|].
    cbn [section dequeue_op]. rewrite run_dequeue, Eq'. done. }
  apply rtc_once. apply (atomic_crash _ _ _ _ _ _ u dequeue_op).
  - by rewrite lookup_delete_ne, lookup_insert_eq by done.
  - cbn [section dequeue_op]. rewrite run_dequeue, (dequeue_empty _ Hq'). done.
Qed.
End threads.

(** Thread 0 adds two objects. *)
Definition sample_queue : outcome (queue nat) :=
  q ← enqueue (Some 5%nat) queue_new; q ← enqueue (Some 7%nat) q; Ok q.
Lemma queue_fifo_witness :
  ∃ s, rtc (thread_step (λ t, t = 1%nat)) thread_start (Running s) ∧
    put (log s) = [Some 5%nat; Some 7%nat] ∧ mutex s = Free ∧
    ∃ l ps, holds (shared s) l ps ∧ put (log s) = got (log s) ++ l.
Proof.
  destruct sample_queue as [q| |] eqn:E; [|by vm_compute in E..]. unfold sample_queue in E.
  destruct (enqueue (Some 5%nat) queue_new) as [q1| |] eqn:E1; [|done..]. cbn [mbind outcome_bind] in E.
  destruct (enqueue (Some 7%nat) q1) as [q2| |] eqn:E2; [|done..]. cbn in E. injection E as ->.
  assert (Hr : rtc (atomic head (calls (λ t, t = 1%nat))) (start queue_new)
    (Running (mkState q Free (delete 0%nat (<[0%nat := Ready (enqueue_op (Some 7%nat))]>
       (delete 0%nat (<[0%nat := Ready (enqueue_op (Some 5%nat))]> ∅))))
       (([] ++ [(0%nat, enqueue_op (Some 5%nat), Put (Some 5%nat))]) ++ [(0%nat, enqueue_op (Some 7%nat), Put (Some 7%nat))])))).
  { eapply rtc_l; [apply (atomic_call _ _ _ _ _ _ 0 (enqueue_op (Some 5%nat))); [done|left; eauto|done]|].
    eapply rtc_l.
    { eapply atomic_section; [apply lookup_insert_eq|]. cbn [section enqueue_op]. rewrite run_enqueue, E1. done. }
    eapply rtc_l; [apply (atomic_call _ _ _ _ _ _ 0 (enqueue_op (Some 7%nat))); [done|left; eauto|done]|].
    apply rtc_once.
    { eapply atomic_section; [apply lookup_insert_eq|]. cbn [section enqueue_op]. rewrite run_enqueue, E2. done. } }
  apply atomic_reachable in Hr as [Hr _]. eexists. split; [exact Hr|].
  destruct (queue_fifo _ _ Hr) as [H _]. destruct (H eq_refl) as (l & ps & Hl & Hp & _).
  split_and!; [done..|]. by exists l, ps.
Defined.
Lemma queue_two_consumers_witness :
  rtc (thread_step (V := nat) (λ t, (t < 2)%nat)) thread_start (Crashed NullDeref).
Proof. apply (queue_two_consumers _ 0 1 (Some 3%nat)); lia. Defined.
