(* ===== verification/Timer.v ===== *)
(** The timer of src/utils/Timer.h, for systems with [clock_gettime]. *)
From stdpp Require Import pretty.
From S2P Require Import Prelude.
From S2P Require Import CppString.
From S2P Require Import Utils.

(** ** Nanoseconds, as a double computes them *)

(** The double that is nearest to a natural number: 53 significant bits, a tie goes
    to the even one. *)
Definition to_double (z : Z) : Z :=
  let e := Z.log2 z - 52 in
  if e <=? 0 then z
  else
    let q := z / 2 ^ e in
    let r := z mod 2 ^ e in
    (if (2 * r <? 2 ^ e) || ((2 * r =? 2 ^ e) && Z.even q) then q else q + 1) * 2 ^ e.

Record timespec : Type := mkTimespec {
  tv_sec : Z;
  tv_nsec : Z
}.

(** [getTimeNSecs (ts)]: the sum is one of doubles, and a double that does not fit
    has no conversion to [tulong]. *)
Definition getTimeNSecs (ts : timespec) : outcome Z :=
  let d := to_double (to_double (tv_sec ts * 10 ^ 9) + tv_nsec ts) in
  if d <? 2 ^ 64 then Ok d else Undef IntOverflow.

(** ** The timer *)

Inductive eSuffix := eSec | eDsec | eCsec | eMsec | eUsec | eNsec.
Definition getSuffix (s : eSuffix) : str :=
  lit match s with
      | eSec => "s" | eDsec => "ds" | eCsec => "cs" | eMsec => "ms" | eUsec => "us" | eNsec => "ns"
      end.

(** A time that was never set holds nothing. *)
Record Timer : Type := mkTimer {
  startTime : option timespec;
  endTime : option timespec;
  curTime : option timespec;
  offset : Z;
  stopped : bool;
  started : bool;
  sfx : eSuffix;
  ssfx : str
}.
Definition set_startTime x (t : Timer) : Timer :=
  mkTimer x (endTime t) (curTime t) (offset t) (stopped t) (started t) (sfx t) (ssfx t).
Definition set_endTime x (t : Timer) : Timer :=
  mkTimer (startTime t) x (curTime t) (offset t) (stopped t) (started t) (sfx t) (ssfx t).
Definition set_curTime x (t : Timer) : Timer :=
  mkTimer (startTime t) (endTime t) x (offset t) (stopped t) (started t) (sfx t) (ssfx t).
Definition set_offset x (t : Timer) : Timer :=
  mkTimer (startTime t) (endTime t) (curTime t) x (stopped t) (started t) (sfx t) (ssfx t).
Definition set_stopped x (t : Timer) : Timer :=
  mkTimer (startTime t) (endTime t) (curTime t) (offset t) x (started t) (sfx t) (ssfx t).
Definition set_started x (t : Timer) : Timer :=
  mkTimer (startTime t) (endTime t) (curTime t) (offset t) (stopped t) x (sfx t) (ssfx t).

(** [getTime], when [clock_gettime] gives [now]. *)
Definition getTime (now : timespec) : outcome (Z * option timespec) :=
  n ← getTimeNSecs now; Ok (n, Some now).

(** [start] *)
Definition start (now : timespec) (t : Timer) : outcome (Z * Timer) :=
  if stopped t then
    let t := set_stopped false t in
    '(st, s) ← getTime now;
    let t := set_startTime s t in
    let t := set_curTime (startTime t) t in
    Ok (st, if started t then t else set_started true t)
  else Ok (0, t).

(** The constructors; the second one does not use the suffix it is given. *)
Definition Timer_new (now : timespec) : outcome Timer :=
  '(_, c) ← getTime now;
  Ok (mkTimer None None c 0 true false eNsec (getSuffix eNsec)).
Definition Timer_start (startTimer : bool) (pSuffix : eSuffix) (now now2 : timespec) : outcome Timer :=
  '(_, c) ← getTime now;
  let t := mkTimer None None c 0 true false pSuffix (getSuffix eNsec) in
  if startTimer then '(_, t) ← start now2 t; Ok t else Ok t.

(** [stop] *)
Definition stop (now : timespec) (t : Timer) : outcome (Z * Timer) :=
  if stopped t then Ok (0, t)
  else
    let t := set_stopped true t in
    '(d, e) ← getTime now;
    let t := set_endTime e t in
    Ok (d, set_curTime (endTime t) t).

(** [resume] *)
Definition resume (now : timespec) (t : Timer) : outcome (Z * Timer) :=
  if stopped t then
    '(c, s) ← getTime now;
    let t := set_curTime s t in
    e ← init (endTime t);
    e ← getTimeNSecs e;
    let t := set_offset (u64 (offset t + u64 (c - e))) t in
    let t := set_stopped false t in
    Ok (offset t, t)
  else Ok (offset t, t).

(** [getElapsedNSecs]: since it was last asked. *)
Definition getElapsedNSecs (now : timespec) (t : Timer) : outcome (Z * Timer) :=
  if started t then
    '(n, s) ← getTime now;
    c ← init (curTime t);
    c ← getTimeNSecs c;
    Ok (u64 (n - c), set_curTime s t)
  else Ok (0, t).

(** [operator -]: the difference of what two timers show. *)
Definition timer_minus (now1 now2 : timespec) (t1 t2 : Timer) : outcome (Z * Timer * Timer) :=
  '(e1, t1) ← getElapsedNSecs now1 t1;
  '(e2, t2) ← getElapsedNSecs now2 t2;
  Ok (if e2 <? e1 then u64 (e1 - e2) else u64 (e2 - e1), t1, t2).

(** [getDurationNSecs]: it stops the timer, and resumes it. *)
Definition getDurationNSecs (now1 now2 : timespec) (t : Timer) : outcome (Z * Timer) :=
  t ← (if stopped t then Ok t else '(_, t) ← stop now1 t; Ok t);
  e ← init (endTime t);
  e ← getTimeNSecs e;
  s ← init (startTime t);
  s ← getTimeNSecs s;
  let ret := u64 (u64 (e - s) - offset t) in
  '(_, t) ← resume now2 t;
  Ok (ret, t).

(** [reset] *)
Definition reset (now : timespec) (t : Timer) : outcome Timer :=
  let t := set_started false (set_stopped true (set_offset 0 t)) in
  '(_, s) ← getTime now;
  Ok (set_startTime s t).

Definition running (t : Timer) : bool := started t.

(** [getTimeStr]: the time of day, at the time the clock shows. *)
Definition two_digits (n : Z) : str := (if n <? 10 then lit "0" else []) ++ lit (pretty n).
Definition getTimeStr (cur : Z) : str :=
  let now := gmtime cur in
  two_digits (tm_hour now) ++ lit ":" ++ two_digits (tm_min now) ++ lit ":" ++ two_digits (tm_sec now).

(** ** What the clock readings become *)

(** Clocks until the year 2043. *)
Definition clock_ok (ts : timespec) : Prop := 0 ≤ tv_sec ts ≤ 2305843008 ∧ 0 ≤ tv_nsec ts < 10 ^ 9.
Definition exact (ts : timespec) : Z := tv_sec ts * 10 ^ 9 + tv_nsec ts.

Lemma to_double_error z : 0 ≤ z < 2 ^ 61 → Z.abs (to_double z - z) ≤ 128 ∧ 0 ≤ to_double z.
Proof.
  intros Hz. unfold to_double. destruct (Z.leb_spec (Z.log2 z - 52) 0) as [He|He]; [lia|].
  assert (Hlog : Z.log2 z < 61).
  { destruct (Z.eq_dec z 0) as [->|]; [cbn; lia|]. apply Z.log2_lt_pow2; lia. }
  assert (Hpow : 0 < 2 ^ (Z.log2 z - 52) ≤ 256).
  { split; [apply Z.pow_pos_nonneg; lia|]. change 256 with (2 ^ 8). apply Z.pow_le_mono_r; lia. }
  set (m := 2 ^ (Z.log2 z - 52)) in *. pose proof (Z.div_mod z m ltac:(lia)) as Hdm.
  pose proof (Z.mod_pos_bound z m ltac:(lia)). pose proof (Z.div_pos z m ltac:(lia) ltac:(lia)).
  destruct (Z.ltb_spec (2 * (z mod m)) m); cbn [orb]; [nia|].
  destruct (Z.eqb_spec (2 * (z mod m)) m); cbn [andb]; [destruct (Z.even _)|]; nia.
Qed.

Lemma getTimeNSecs_ok ts :
  clock_ok ts → ∃ n, getTimeNSecs ts = Ok n ∧ Z.abs (n - exact ts) ≤ 256 ∧ 0 ≤ n < 2 ^ 62.
Proof.
  intros [Hs Hn]. unfold getTimeNSecs, exact.
  destruct (to_double_error (tv_sec ts * 10 ^ 9)) as [H1 H2]; [lia|].
  destruct (to_double_error (to_double (tv_sec ts * 10 ^ 9) + tv_nsec ts)) as [H3 H4]; [lia|].
  set (d := to_double (_ + _)) in *. destruct (Z.ltb_spec d (2 ^ 64)); [|lia].
  exists d. split_and!; [done|lia|lia|lia].
Qed.

Lemma u64_add a b : u64 (u64 a + u64 b) = u64 (a + b).
Proof. unfold u64. by rewrite <-Zplus_mod. Qed.
Lemma u64_sub a b : u64 (u64 a - u64 b) = u64 (a - b).
Proof. unfold u64. by rewrite <-Zminus_mod. Qed.

(** ** Durations *)

(** Stopping and resuming, in turn. *)
Fixpoint run_pauses (ps : list (timespec * timespec)) (t : Timer) : outcome Timer :=
  match ps with
  | [] => Ok t
  | (e, r) :: ps => '(_, t) ← stop e t; '(_, t) ← resume r t; run_pauses ps t
  end.

(** How long it ran, and what the rounded readings make of this. *)
Fixpoint running_time (f : timespec → Z) (s : timespec) (ps : list (timespec * timespec)) (e : timespec) : Z :=
  match ps with
  | [] => f e - f s
  | (e1, r1) :: ps => f e1 - f s + running_time f r1 ps e
  end.

Definition nsecs (ts : timespec) : Z := match getTimeNSecs ts with Ok n => n | _ => 0 end.
Lemma getTimeNSecs_nsecs ts : clock_ok ts → getTimeNSecs ts = Ok (nsecs ts).
Proof. intros H. unfold nsecs. by destruct (getTimeNSecs_ok ts H) as (n & -> & _). Qed.
Lemma nsecs_error ts : clock_ok ts → Z.abs (nsecs ts - exact ts) ≤ 256.
Proof. intros H. unfold nsecs. by destruct (getTimeNSecs_ok ts H) as (n & -> & ? & _). Qed.

Definition pauses_ok (ps : list (timespec * timespec)) : Prop :=
  Forall (λ p, clock_ok p.1 ∧ clock_ok p.2) ps.

Lemma running_time_error s ps e :
  clock_ok s → pauses_ok ps → clock_ok e →
  Z.abs (running_time nsecs s ps e - running_time exact s ps e) ≤ 512 * (1 + Z.of_nat (length ps)).
Proof.
  intros Hs Hps He. revert s Hs. induction Hps as [|[e1 r1] ps [H1 H2] Hps IH]; intros s Hs; cbn [running_time length].
  - pose proof (nsecs_error s Hs). pose proof (nsecs_error e He). lia.
  - specialize (IH r1 H2). cbn in H1. pose proof (nsecs_error s Hs). pose proof (nsecs_error e1 H1). lia.
Qed.

(** A timer that runs since [s], with the pauses [o] taken off. *)
Definition runs (t : Timer) (s : timespec) (o : Z) : Prop :=
  startTime t = Some s ∧ stopped t = false ∧ started t = true ∧ offset t = u64 o.

Lemma stop_ok t s o e :
  runs t s o → clock_ok e →
  stop e t = Ok (nsecs e, set_curTime (Some e) (set_endTime (Some e) (set_stopped true t))).
Proof.
  intros (_ & Hs & _) He. unfold stop, getTime. rewrite Hs, (getTimeNSecs_nsecs e He). done.
Qed.

Lemma pause_ok t s o e r :
  runs t s o → clock_ok e → clock_ok r →
  ∃ t', ('(_, t) ← stop e t; '(_, t) ← resume r t; Ok t) = Ok t' ∧ runs t' s (o + (nsecs r - nsecs e)).
Proof.
  intros H He Hr. rewrite (stop_ok _ _ _ _ H He). cbn. unfold resume, getTime. cbn.
  rewrite (getTimeNSecs_nsecs r Hr). cbn. rewrite (getTimeNSecs_nsecs e He). cbn.
  eexists. split; [done|]. destruct H as (? & ? & ? & Ho). split_and!; [done..|]. cbn.
  by rewrite Ho, u64_add.
Qed.

(** [r] is when the timer was started or resumed last. *)
Lemma run_pauses_ok t s o r ps :
  runs t s o → pauses_ok ps →
  ∃ t' o', run_pauses ps t = Ok t' ∧ runs t' s o' ∧
    ∀ e, nsecs e - nsecs s - o' = nsecs r - nsecs s - o + running_time nsecs r ps e.
Proof.
  intros Ht Hps. revert t o r Ht. induction Hps as [|[e1 r1] ps [He Hr] Hps IH]; intros t o r Ht.
  { exists t, o. split_and!; [done|done|]. intros e. cbn. lia. }
  cbn in He, Hr. destruct (pause_ok t s o e1 r1 Ht He Hr) as (t1 & E1 & Ht1).
  destruct (IH t1 _ r1 Ht1) as (t' & o' & E' & Ht' & Hsum). exists t', o'. split_and!; [|done|].
  - cbn [run_pauses]. rewrite (stop_ok _ _ _ _ Ht He) in E1 |- *. cbn [mbind outcome_bind] in E1 |- *.
    destruct (resume r1 _) as [[n t2]| |]; [|done..]. cbn in E1 |- *. by injection E1 as ->.
  - intros e. rewrite Hsum. cbn [running_time]. lia.
Qed.

Lemma start_ok c0 s :
  clock_ok c0 → clock_ok s →
  ∃ t, (t ← Timer_new c0; '(_, t) ← start s t; Ok t) = Ok t ∧ runs t s 0.
Proof.
  intros Hc Hs. unfold Timer_new, getTime. rewrite (getTimeNSecs_nsecs c0 Hc). cbn.
  unfold start, getTime. cbn. rewrite (getTimeNSecs_nsecs s Hs). cbn.
  eexists. split; [done|]. done.
Qed.

Lemma getDuration_ok t s o e r :
  runs t s o → clock_ok s → clock_ok e → clock_ok r →
  ∃ t', getDurationNSecs e r t = Ok (u64 (nsecs e - nsecs s - o), t') ∧
    runs t' s (o + (nsecs r - nsecs e)).
Proof.
  intros H Hs He Hr. pose proof H as (Hst & Hsp & Hsd & Ho). unfold getDurationNSecs.
  rewrite Hsp, (stop_ok _ _ _ _ H He). cbn -[getTimeNSecs]. rewrite (getTimeNSecs_nsecs e He). cbn -[getTimeNSecs].
  rewrite Hst. cbn -[getTimeNSecs]. rewrite (getTimeNSecs_nsecs s Hs). cbn -[getTimeNSecs].
  unfold resume, getTime. cbn -[getTimeNSecs]. rewrite (getTimeNSecs_nsecs r Hr). cbn -[getTimeNSecs].
  rewrite ?(getTimeNSecs_nsecs e He). cbn -[getTimeNSecs]. rewrite Ho, u64_sub. eexists. split; [done|].
  split_and!; [done..|]. cbn -[getTimeNSecs]. by rewrite u64_add.
Qed.

(** A timer measures how long it ran.  For a timer that is started and then
    stopped and resumed any number of times, [getDurationNSecs] is the time from the
    start to now without the pauses; each running period is off by at most 512 ns,
    since the readings of the clock go through a double.  Afterwards the timer is
    running, also when it was stopped before. *)
Theorem duration_running c0 s ps e r :
  clock_ok c0 → clock_ok s → pauses_ok ps → clock_ok e → clock_ok r →
  let T := running_time exact s ps e in
  let k := 512 * (1 + Z.of_nat (length ps)) in
  k ≤ T → T + k < 2 ^ 64 →
  ∃ d t', (t ← Timer_new c0; '(_, t) ← start s t; t ← run_pauses ps t; getDurationNSecs e r t) = Ok (d, t')
    ∧ Z.abs (d - T) ≤ k ∧ stopped t' = false.
Proof.
  intros Hc Hs Hps He Hr T k Hlo Hhi. destruct (start_ok c0 s Hc Hs) as (t0 & E0 & H0).
  destruct (run_pauses_ok t0 s 0 s ps H0 Hps) as (t1 & o1 & E1 & H1 & Hsum).
  destruct (getDuration_ok t1 s o1 e r H1 Hs He Hr) as (t2 & E2 & H2).
  pose proof (running_time_error s ps e Hs Hps He) as Herr. fold T k in Herr.
  exists (u64 (nsecs e - nsecs s - o1)), t2. split_and!.
  - destruct (Timer_new c0) as [t| |]; [|done..]. cbn in E0 |- *.
    destruct (start s t) as [[n t']| |]; [|done..]. cbn in E0 |- *. injection E0 as ->.
    by rewrite E1.
  - rewrite Hsum. rewrite u64_small; lia.
  - apply H2.
Qed.
Lemma duration_running_witness :
  let at_ s n := mkTimespec (1700000000 + s) n in
  ∃ d t', (t ← Timer_new (at_ 0 0); '(_, t) ← start (at_ 1 0) t;
           t ← run_pauses [(at_ 3 0, at_ 8 0)] t; getDurationNSecs (at_ 9 500) (at_ 9 600) t) = Ok (d, t')
    ∧ Z.abs (d - 3000000500) ≤ 1024 ∧ stopped t' = false.
Proof.
  assert (Hok : ∀ s n, 0 ≤ s < 10 → 0 ≤ n < 1000 → clock_ok (mkTimespec (1700000000 + s) n)).
  { intros s n Hs Hn. split; cbn; lia. }
  apply (duration_running (mkTimespec 1700000000 0) (mkTimespec 1700000001 0)
    [(mkTimespec 1700000003 0, mkTimespec 1700000008 0)] (mkTimespec 1700000009 500)
    (mkTimespec 1700000009 600)).
  - by apply (Hok 0 0).
  - by apply (Hok 1 0).
  - apply Forall_singleton. split; [by apply (Hok 3 0)|by apply (Hok 8 0)].
  - by apply (Hok 9 500).
  - by apply (Hok 9 600).
  - vm_compute. congruence.
  - vm_compute. congruence.
Defined.

(** Defects of the timer: two readings of the clock that are 100 ns apart are the same;
    the duration of a stopped timer grows, because asking for it resumes the timer;
    a new timer that is resumed reads a time that was never set; the suffix that a
    timer is made with is not the one it prints. *)
Theorem Timer_defects :
  (let a := mkTimespec 1700000000 0 in let b := mkTimespec 1700000000 100 in
   getTimeNSecs a = getTimeNSecs b) ∧
  (let at_ s := mkTimespec s 0 in
   ('(_, t) ← (t ← Timer_new (at_ 0); start (at_ 1) t);
    '(_, t) ← stop (at_ 2) t;
    '(d1, t) ← getDurationNSecs (at_ 4) (at_ 4) t;
    '(d2, t) ← getDurationNSecs (at_ 7) (at_ 7) t;
    Ok (d1, d2)) = Ok (1 * 10 ^ 9, 4 * 10 ^ 9)) ∧
  (∀ now, clock_ok now → (t ← Timer_new now; resume now t) = Undef Uninit) ∧
  (∀ now, clock_ok now → (ssfx <$> Timer_start false eMsec now now) = Ok (lit "ns")).
Proof.
  split_and!; [by vm_compute|by vm_compute|..]; intros now H.
  - unfold Timer_new, resume, getTime. rewrite (getTimeNSecs_nsecs now H). cbn.
    done.
  - unfold Timer_start, getTime. by rewrite (getTimeNSecs_nsecs now H).
Qed.
