(* ===== verification/TimerUnits.v ===== *)
(** The units of the timer of src/utils/Timer.h, which are doubles, and its output. *)
From stdpp Require Import pretty.
From Stdlib Require Import SpecFloat.
From S2P Require Import Prelude.
From S2P Require Import CppString.
From S2P Require Import Utils.
From S2P Require Import Timer.

(** ** Doubles

    The format binary64, with rounding to the nearest; a constant like 0.0010 is the
    quotient that is nearest. *)
Definition double : Type := spec_float.
Definition double_of (z : Z) : double := binary_normalize 53 1024 z 0 false.
Definition dmul : double → double → double := SFmul 53 1024.
Definition dsub : double → double → double := SFsub 53 1024.
Definition ddiv : double → double → double := SFdiv 53 1024.
Definition c0_0010 : double := ddiv (double_of 1) (double_of 1000).
Definition c0_1000 : double := ddiv (double_of 1) (double_of 10).

(** ** Units *)
Definition USecs (n : Z) : double := dmul (double_of n) c0_0010.
Definition MSecs (n : Z) : double := dmul (USecs n) c0_0010.
Definition CSecs (n : Z) : double := dmul (MSecs n) c0_1000.
Definition DSecs (n : Z) : double := dmul (CSecs n) c0_1000.
Definition Secs (n : Z) : double := dmul (DSecs n) c0_1000.

(** [getTimeUSecs (ts)] and the others, down to seconds *)
Definition getTimeUSecs (ts : timespec) : outcome double := USecs <$> getTimeNSecs ts.
Definition getTimeMSecs (ts : timespec) : outcome double := MSecs <$> getTimeNSecs ts.
Definition getTimeCSecs (ts : timespec) : outcome double := CSecs <$> getTimeNSecs ts.
Definition getTimeDSecs (ts : timespec) : outcome double := DSecs <$> getTimeNSecs ts.
Definition getTimeSecs (ts : timespec) : outcome double := Secs <$> getTimeNSecs ts.

Definition getOffsetNSecs (t : Timer) : Z := offset t.
Definition getOffsetUSecs (t : Timer) : double := USecs (offset t).
Definition getOffsetMSecs (t : Timer) : double := MSecs (offset t).
Definition getOffsetCSecs (t : Timer) : double := CSecs (offset t).
Definition getOffsetDSecs (t : Timer) : double := DSecs (offset t).
Definition getOffsetSecs (t : Timer) : double := Secs (offset t).

Definition in_unit (unit_ : Z → double) (r : outcome (Z * Timer)) : outcome (double * Timer) :=
  '(n, t) ← r; Ok (unit_ n, t).
Definition getElapsedUSecs (now : timespec) (t : Timer) := in_unit USecs (getElapsedNSecs now t).
Definition getElapsedMSecs (now : timespec) (t : Timer) := in_unit MSecs (getElapsedNSecs now t).
Definition getElapsedCSecs (now : timespec) (t : Timer) := in_unit CSecs (getElapsedNSecs now t).
Definition getElapsedDSecs (now : timespec) (t : Timer) := in_unit DSecs (getElapsedNSecs now t).
Definition getElapsedSecs (now : timespec) (t : Timer) := in_unit Secs (getElapsedNSecs now t).

Definition getDurationUSecs (now1 now2 : timespec) (t : Timer) := in_unit USecs (getDurationNSecs now1 now2 t).
Definition getDurationMSecs (now1 now2 : timespec) (t : Timer) := in_unit MSecs (getDurationNSecs now1 now2 t).
Definition getDurationCSecs (now1 now2 : timespec) (t : Timer) := in_unit CSecs (getDurationNSecs now1 now2 t).
Definition getDurationDSecs (now1 now2 : timespec) (t : Timer) := in_unit DSecs (getDurationNSecs now1 now2 t).
Definition getDurationSecs (now1 now2 : timespec) (t : Timer) := in_unit Secs (getDurationNSecs now1 now2 t).

(** [getTimeNSecs ()]: of the current time. *)
Definition getCurNSecs (t : Timer) : outcome Z := c ← init (curTime t); getTimeNSecs c.

(** ** Output

    A double on a stream: six significant digits, without the zeros at the end. *)

(** [m * 2^e] times [10^k], rounded to an integer; a tie goes to the even one. *)
Definition scaled (m e k : Z) : Z :=
  let num := m * 2 ^ Z.max e 0 * 10 ^ Z.max k 0 in
  let den := 2 ^ Z.max (- e) 0 * 10 ^ Z.max (- k) 0 in
  let q := num / den in
  let r := num mod den in
  if (2 * r <? den) || ((2 * r =? den) && Z.even q) then q else q + 1.
(** The exponent of the first of six digits, and the digits. *)
Fixpoint six_digits (fuel : nat) (m e x : Z) : Z * Z :=
  match fuel with
  | O => (x, 0)
  | S fuel =>
      let d := scaled m e (5 - x) in
      if 10 ^ 6 <=? d then six_digits fuel m e (x + 1)
      else if d <? 10 ^ 5 then six_digits fuel m e (x - 1)
      else (x, d)
  end.
Fixpoint strip_zeros (fuel : nat) (d n : Z) : Z * Z :=
  match fuel with
  | O => (d, n)
  | S fuel => if (d mod 10 =? 0) && (1 <? n) then strip_zeros fuel (d / 10) (n - 1) else (d, n)
  end.
Definition zeros (n : Z) : str := replicate (Z.to_nat n) "0"%char.
(** The digits [d], of which there are [n], with a point behind the first [k]. *)
Definition with_point (d n k : Z) : str :=
  let ds := lit (pretty d) in
  if n <=? k then ds ++ zeros (k - n)
  else if k <=? 0 then lit "0." ++ zeros (- k) ++ ds
  else take (Z.to_nat k) ds ++ lit "." ++ drop (Z.to_nat k) ds.
Definition show_double (x : double) : str :=
  match x with
  | S754_nan => lit "nan"
  | S754_infinity s => (if s then lit "-" else []) ++ lit "inf"
  | S754_zero s => (if s then lit "-" else []) ++ lit "0"
  | S754_finite s m e =>
      let '(x, d) := six_digits 700 (Z.pos m) e ((Z.log2 (Z.pos m) + e) * 30103 / 100000) in
      let '(d, n) := strip_zeros 6 d 6 in
      (if s then lit "-" else []) ++
      (if (-4 <=? x) && (x <? 6) then with_point d n (x + 1)
       else with_point d n 1 ++ (if x <? 0 then lit "e-" else lit "e+") ++ two_digits (Z.abs x))
  end.

(** [operator <<]: the elapsed time is asked for on the way, which sets the current one;
    the operands are evaluated from left to right. *)
Definition timer_output (now : timespec) (t : Timer) : outcome (str * Timer) :=
  s ← init (startTime t); s' ← getTimeNSecs s;
  e ← init (endTime t); e' ← getTimeNSecs e;
  c ← getCurNSecs t;
  '(d, t) ← getElapsedNSecs now t;
  es ← getTimeSecs e; ss ← getTimeSecs s;
  let num n := lit (pretty (n : Z)) in
  Ok (lit "Rendering Timer..." ++ [nl]
      ++ lit "Start Time: " ++ num s' ++ ssfx t ++ [nl]
      ++ lit "End Time: " ++ num e' ++ ssfx t ++ [nl]
      ++ lit "Cur Time: " ++ num c ++ ssfx t ++ [nl]
      ++ lit "Offset: " ++ num (getOffsetNSecs t) ++ ssfx t ++ [nl]
      ++ lit "Elapsed: " ++ num d ++ ssfx t ++ [nl]
      ++ lit "Duration: " ++ num (u64 (u64 (e' - s') - getOffsetNSecs t)) ++ ssfx t ++ lit " : "
      ++ show_double (dsub (dsub es ss) (getOffsetSecs t)) ++ lit "s" ++ [nl], t).

(** The destructor prints a timer that runs. *)
Definition Timer_destroy (now1 now2 : timespec) (t : Timer) : outcome str :=
  if stopped t then Ok []
  else '(_, t) ← stop now1 t; '(out, _) ← timer_output now2 t; Ok out.

(** ** Theorems *)

(** A timer that goes out of scope while it runs is stopped and prints what it
    measured; one that is stopped prints nothing. *)
Theorem Timer_destroy_ok t s o e now :
  clock_ok s → clock_ok e → clock_ok now →
  (stopped t = true → Timer_destroy e now t = Ok []) ∧
  (runs t s o →
   ∃ out rest, Timer_destroy e now t = Ok out ∧
     out = lit "Rendering Timer..." ++ [nl] ++ lit "Start Time: " ++ lit (pretty (nsecs s)) ++ ssfx t ++ rest).
Proof.
  intros Hs He Hnow. unfold Timer_destroy. split; [by intros ->|]. intros H.
  pose proof H as (Hst & Hsp & Hsd & Ho). rewrite Hsp, (stop_ok _ _ _ _ H He). cbn [mbind outcome_bind].
  unfold timer_output, getCurNSecs, getElapsedNSecs, getTime, getTimeSecs.
  cbn -[getTimeNSecs]. rewrite Hst. cbn -[getTimeNSecs]. rewrite (getTimeNSecs_nsecs s Hs). cbn -[getTimeNSecs].
  rewrite (getTimeNSecs_nsecs e He). cbn -[getTimeNSecs]. rewrite Hsd. cbn -[getTimeNSecs].
  rewrite (getTimeNSecs_nsecs now Hnow). cbn -[getTimeNSecs]. rewrite ?(getTimeNSecs_nsecs e He). cbn -[getTimeNSecs].
  eexists _, _. split; [done|]. unfold lit. cbn [ssfx set_curTime set_endTime set_stopped]. reflexivity.
Qed.

(** Whole and half seconds are printed as such, from a nanosecond to a day. *)
Theorem seconds_printed :
  (λ n, show_double (Secs n)) <$> [1; 999999999; 1000000000; 1500000000; 60000000000; 86400000000000]
  = lit <$> ["1e-09"; "1"; "1"; "1.5"; "60"; "86400"]%string.
Proof. by vm_compute. Qed.
