(* ===== verification/ClockTimer.v ===== *)
(** The timer of src/utils/Timer.h for systems without [clock_gettime]. It counts the
    ticks of [clock], of which a second has a million; [offset] is unsigned. *)
From S2P Require Import Prelude.
From S2P Require Import Timer.
From S2P Require Import TimerUnits.

Definition CLOCKS_PER_SEC : Z := 1000000.
Record Timer : Type := mkTimer {
  startTime : Z;
  endTime : option Z;
  curTime : option Z;
  offset : Z;
  stopped : bool;
  started : bool
}.
Definition Timer_new (clock : Z) : Timer := mkTimer clock None None 0 true false.
Definition start (clock : Z) (t : Timer) : Timer :=
  mkTimer clock (endTime t) (Some clock) (offset t) false true.
Definition stop (clock : Z) (t : Timer) : Timer :=
  mkTimer (startTime t) (Some clock) (Some clock) (offset t) true (started t).
Definition reset (t : Timer) : Timer :=
  mkTimer (startTime t) (endTime t) (curTime t) 0 true false.
Definition resume (clock : Z) (t : Timer) : outcome (Z * Timer) :=
  e ← init (endTime t);
  let o := u64 (e - clock) in
  Ok (o, mkTimer (startTime t) (endTime t) (curTime t) o false (started t)).
Definition elapsed (clock : Z) (t : Timer) : double :=
  ddiv (double_of (clock - startTime t)) (double_of CLOCKS_PER_SEC).
Definition ticks (t : Timer) : outcome Z :=
  e ← init (endTime t);
  Ok (u64 (u64 (e - startTime t) - offset t)).
(** The ticks are divided before they become a double. *)
Definition duration (t : Timer) : outcome double :=
  n ← ticks t; Ok (double_of (n / CLOCKS_PER_SEC)).
Definition Timer_destroy (clock : Z) (t : Timer) : Timer := if stopped t then t else stop clock t.

(** Starting at [s], and stopping and resuming in turn. *)
Fixpoint run_pauses (ps : list (Z * Z)) (t : Timer) : outcome Timer :=
  match ps with
  | [] => Ok t
  | (e, r) :: ps => '(_, t) ← resume r (stop e t); run_pauses ps t
  end.
Definition last_pause (ps : list (Z * Z)) : Z :=
  match last ps with Some (e, r) => r - e | None => 0 end.

Lemma clock_pauses_ok ps t :
  ∃ t', run_pauses ps t = Ok t' ∧ startTime t' = startTime t ∧
    offset t' = (if decide (ps = []) then offset t else u64 (- last_pause ps)).
Proof.
  revert t. induction ps as [|[e r] ps IH]; intros t; [by exists t|]. cbn [run_pauses resume stop init endTime mbind outcome_bind].
  destruct (IH (mkTimer (startTime t) (Some e) (Some e) (u64 (e - r)) false (started t))) as (t' & E & Hs & Ho).
  exists t'. split_and!; [exact E|done|]. rewrite Ho. cbn [decide list_eq_nil_dec]. destruct ps as [|p ps].
  - unfold last_pause. cbn. f_equal. lia.
  - by rewrite !decide_False.
Qed.

(** The timer does not measure how long it ran: of the pauses, only the last one counts,
    and it is added, not taken off. *)
Theorem ticks_of_pauses s ps e :
  s ≤ e → 0 ≤ last_pause ps → e - s + last_pause ps < 2 ^ 64 →
  (t ← run_pauses ps (start s (Timer_new s)); ticks (stop e t)) = Ok (e - s + last_pause ps).
Proof.
  intros Hse Hp Hlt. destruct (clock_pauses_ok ps (start s (Timer_new s))) as (t & -> & Hs & Ho). cbn in Hs.
  cbn [mbind outcome_bind]. unfold ticks. cbn [stop endTime init mbind outcome_bind startTime offset].
  rewrite Ho, Hs. f_equal. destruct (decide (ps = [])) as [->|].
  - unfold last_pause. cbn. rewrite (u64_small (e - s)) by (unfold last_pause in *; cbn in *; lia).
    rewrite Z.sub_0_r, u64_small by (unfold last_pause in *; cbn in *; lia). lia.
  - rewrite u64_sub. rewrite u64_small by lia. lia.
Qed.
Lemma ticks_of_pauses_witness :
  (t ← run_pauses [(2000000, 5000000)] (start 0 (Timer_new 0)); ticks (stop 6000000 t)) = Ok 9000000.
Proof. apply (ticks_of_pauses 0 [(2000000, 5000000)] 6000000); cbn; lia. Defined.

(** A timer that was not stopped cannot be resumed, and its ticks cannot be asked for; a
    duration of less than a second is none. *)
Theorem ClockTimer_defects :
  (∀ c r, resume r (start c (Timer_new c)) = Undef Uninit) ∧
  (∀ c, ticks (start c (Timer_new c)) = Undef Uninit) ∧
  duration (stop 999999 (start 0 (Timer_new 0))) = Ok (double_of 0).
Proof. split_and!; [done|done|by vm_compute]. Qed.
