(* ===== verification/Rule.v ===== *)
(** Prolog rule expressions: [class Rule] of src/utils/Rule.h. *)
From S2P Require Import Prelude CppString.

(** The separator of two body literals and the rule arrow. *)
Definition clause_sep : str := lit "),".
Definition arrow : str := lit ":-".

Lemma len_arrow : len arrow = 2.
Proof. done. Qed.
#[export] Hint Rewrite len_arrow : len.

Record Rule : Type := mkRule {
  head : str;
  body : str;
  atom : str;
  clauses : list str
}.

#[export] Instance Rule_eq_dec : EqDecision Rule.
Proof. solve_decision. Defined.

Definition Rule_default : Rule := mkRule [] [] [] [].

Definition setAtom (a : str) (r : Rule) : Rule :=
  mkRule (head r) (body r) a (clauses r).
Definition setHead (h : str) (r : Rule) : Rule :=
  mkRule h (body r) (atom r) (clauses r).
Definition setBody (b : str) (r : Rule) : Rule :=
  mkRule (head r) b (atom r) (clauses r).

(** The loop of [getClauses] on the text [tmp] that is left to split. *)
Fixpoint split_clauses (fuel : nat) (tmp : str) (acc : list str)
    : outcome (list str) :=
  match fuel with
  | O => Undef NoFuel
  | S fuel =>
      let pos := find tmp clause_sep in
      if bool_decide (pos ≠ npos) then
        c ← substr tmp 0 (u64 (pos + 1));
        tmp' ← substr tmp (u64 (pos + 2)) (u64 (len tmp - pos - 2));
        split_clauses fuel tmp' (acc ++ [c])
      else
        c ← substr tmp 0 (u64 (len tmp - 1));
        Ok (acc ++ [c])
  end.

(** [getClauses] fills the cache of clauses when it is empty and returns it. *)
Definition getClauses (r : Rule) : outcome (list str * Rule) :=
  if bool_decide (Z.of_nat (length (clauses r)) < 1) then
    cs ← split_clauses (S (length (body r))) (body r) (clauses r);
    Ok (cs, mkRule (head r) (body r) (atom r) cs)
  else Ok (clauses r, r).

(** The constructor [Rule(const string & r)]. *)
Definition Rule_of (r : str) : outcome Rule :=
  let imp := find r arrow in
  h ← substr r 0 imp;
  b ← substr r (u64 (imp + 2)) (u64 (len r - 1));
  p ← getClauses (mkRule h b r []);
  Ok p.2.

Definition toString (r : Rule) : str :=
  lit "Rendering Rule For Atom:" ++ [nl] ++ atom r
  ++ [nl] ++ lit "Head: " ++ head r ++ [nl] ++ lit "Body: " ++ body r ++ [nl]
  ++ concat (map (λ c, c ++ [nl]) (clauses r)).

(** ** Body literals

    A literal as the splitter sees it: it ends with a closing parenthesis
    and has no inner separator. *)
Definition literal_ok (c : str) : Prop :=
  ∃ q, c = q ++ lit ")" ∧ ¬ occurs clause_sep c.

Lemma literal_ok_search q rest :
  ¬ occurs clause_sep (q ++ lit ")") →
  search clause_sep ((q ++ lit ")") ++ lit "," ++ rest) = Some (length q).
Proof.
  intros Hn. rewrite <-app_assoc. apply search_two; [done|].
  intros (a & b & ->). apply Hn. exists a, (b ++ lit ")"). by rewrite <-!app_assoc.
Qed.

Lemma literal_sep_tail c d :
  ¬ occurs clause_sep c → d ≠ ","%char → ¬ occurs clause_sep (c ++ [d]).
Proof.
  intros Hn Hd (a & b & H).
  destruct b as [|e b _] using rev_ind.
  - rewrite app_nil_r in H. change clause_sep with ([")"%char] ++ [","%char]) in H.
    rewrite app_assoc in H. apply app_inj_tail in H as [_ ->]. done.
  - rewrite 2!app_assoc in H. apply app_inj_tail in H as [-> _].
    apply Hn. exists a, b. by rewrite <-app_assoc.
Qed.

(** One step of the loop at a separator. *)
Lemma split_clauses_sep fuel q rest acc :
  str_ok ((q ++ lit ")") ++ lit "," ++ rest) →
  search clause_sep ((q ++ lit ")") ++ lit "," ++ rest) = Some (length q) →
  split_clauses (S fuel) ((q ++ lit ")") ++ lit "," ++ rest) acc
  = split_clauses fuel rest (acc ++ [q ++ lit ")"]).
Proof.
  intros Hok Hs.
  assert (Hl : len ((q ++ lit ")") ++ lit "," ++ rest) = len q + 2 + len rest)
    by len_lia.
  unfold str_ok in Hok. rewrite Hl in Hok.
  pose proof (len_nonneg q). pose proof (len_nonneg rest).
  cbn [split_clauses]. rewrite (find_Some _ _ _ Hs), Hl.
  change (Z.of_nat (length q)) with (len q).
  rewrite bool_decide_eq_true_2 by (unfold npos; lia).
  rewrite !u64_small by lia.
  rewrite substr_app_l by len_lia. cbn [mbind outcome_bind].
  by rewrite (app_assoc _ (lit ",") rest), substr_app_r by len_lia.
Qed.

(** The step that ends the loop: no separator is left. *)
Lemma split_clauses_end fuel tmp c acc :
  str_ok (tmp ++ [c]) → ¬ occurs clause_sep (tmp ++ [c]) →
  split_clauses (S fuel) (tmp ++ [c]) acc = Ok (acc ++ [tmp]).
Proof.
  intros Hok Hn. cbn [split_clauses].
  apply find_npos in Hn as ->; [|done].
  rewrite bool_decide_eq_false_2 by auto.
  rewrite u64_small by len_lia. by rewrite substr_app_l by len_lia.
Qed.

Lemma split_clauses_join fuel preds acc c :
  (length preds ≤ fuel)%nat → preds ≠ [] → c ≠ ","%char →
  str_ok (join (lit ",") preds ++ [c]) → Forall literal_ok preds →
  split_clauses fuel (join (lit ",") preds ++ [c]) acc = Ok (acc ++ preds).
Proof.
  intros Hf Hne Hc Hok Hp. revert fuel acc Hf Hok.
  induction preds as [|p preds IH]; [done|]. intros fuel acc Hf Hok.
  apply Forall_cons in Hp as [(q & -> & Hn) Hp].
  destruct fuel as [|fuel]; [cbn in Hf; lia|].
  destruct preds as [|p' preds].
  - cbn [join] in *. rewrite split_clauses_end; [done..|].
    by apply literal_sep_tail.
  - rewrite join_cons in * by done. rewrite <-!app_assoc in *.
    rewrite (app_assoc q) in *.
    rewrite split_clauses_sep by auto using literal_ok_search.
    rewrite IH; [by rewrite <-app_assoc|done|done| |].
    + cbn in *. lia.
    + len_lia.
Qed.

(** A text with a separator, cut at the first one. *)
Lemma clause_sep_split tmp i :
  search clause_sep tmp = Some i →
  ∃ q rest, tmp = (q ++ lit ")") ++ lit "," ++ rest ∧ length q = i.
Proof.
  intros (q & rest & -> & <-)%search_split. exists q, rest.
  by rewrite <-app_assoc.
Qed.

(** Splitting terminates and loses nothing. *)
Lemma split_clauses_lossless fuel tmp acc :
  (length tmp < fuel)%nat → str_ok tmp → last tmp ≠ Some ","%char →
  ∃ cs, split_clauses fuel tmp acc = Ok (acc ++ cs) ∧ cs ≠ [] ∧
        join (lit ",") cs = take (length tmp - 1) tmp.
Proof.
  revert tmp acc. induction fuel as [|fuel IH]; intros tmp acc Hf Hok Hlast; [lia|].
  destruct (search clause_sep tmp) as [i|] eqn:Es.
  - destruct (clause_sep_split _ _ Es) as (q & rest & -> & <-).
    rewrite split_clauses_sep by done.
    rewrite last_app in Hlast. destruct rest as [|r rest]; [done|].
    destruct (IH (r :: rest) (acc ++ [q ++ lit ")"])) as (cs & -> & Hne & Hj).
    + rewrite !length_app in Hf. cbn in Hf |- *. lia.
    + len_lia.
    + intros Hr. apply Hlast. change (lit "," ++ r :: rest) with (","%char :: r :: rest).
      rewrite last_cons, Hr. done.
    + exists ((q ++ lit ")") :: cs). rewrite <-app_assoc, join_cons, Hj by done.
      split_and!; [done..|]. rewrite (app_assoc _ (lit ",")), (app_assoc _ (lit ",")).
      rewrite (take_app_ge (_ ++ lit ",")); rewrite !length_app; [|cbn; lia].
      do 2 f_equal. cbn. lia.
  - apply search_None in Es. destruct tmp as [|c tmp _] using rev_ind.
    + exists [[]]. done.
    + rewrite split_clauses_end by done. exists [tmp]. split_and!; [done..|].
      rewrite length_app, take_app_le by (cbn; lia). cbn [join length].
      by rewrite take_ge by lia.
Qed.

Lemma split_clauses_total fuel tmp acc :
  (length tmp < fuel)%nat → str_ok tmp →
  ∃ cs, split_clauses fuel tmp acc = Ok cs.
Proof.
  revert tmp acc. induction fuel as [|fuel IH]; intros tmp acc Hf Hok; [lia|].
  destruct (search clause_sep tmp) as [i|] eqn:Es.
  - destruct (clause_sep_split _ _ Es) as (q & rest & -> & <-).
    rewrite split_clauses_sep by done. apply IH; [|len_lia].
    rewrite !length_app in Hf. cbn in Hf. lia.
  - apply search_None in Es. destruct tmp as [|c tmp _] using rev_ind.
    + by eexists.
    + rewrite split_clauses_end by done. by eexists.
Qed.

(** The constructor never fails on a text with an arrow. *)
Lemma Rule_of_total r :
  str_ok r → occurs arrow r → ∃ rule, Rule_of r = Ok rule ∧ atom rule = r.
Proof.
  intros Hok Ho. destruct (search arrow r) as [i|] eqn:E; [|by apply search_None in E].
  destruct (search_split _ _ _ E) as (h & b & -> & <-).
  unfold Rule_of. rewrite (find_Some _ _ _ E).
  change (Z.of_nat (length h)) with (len h).
  rewrite substr_app_l by done. cbn [mbind outcome_bind].
  rewrite (app_assoc h), !u64_small by len_lia.
  rewrite substr_app_r by len_lia. cbn [mbind outcome_bind].
  unfold getClauses. cbn [clauses body head atom].
  rewrite bool_decide_eq_true_2 by (cbn; lia).
  destruct (split_clauses_total (S (length b)) b []) as [cs ->]; [lia|len_lia|].
  cbn. by eexists.
Qed.

(** The constructor on a rule given by its parts. *)
Lemma Rule_of_parts_spec h preds :
  str_ok (h ++ arrow ++ join (lit ",") preds ++ lit ".") →
  ¬ occurs arrow h → preds ≠ [] → Forall literal_ok preds →
  Rule_of (h ++ arrow ++ join (lit ",") preds ++ lit ".")
  = Ok (mkRule h (join (lit ",") preds ++ lit ".")
          (h ++ arrow ++ join (lit ",") preds ++ lit ".") preds).
Proof.
  intros Hok Hh Hne Hp. unfold Rule_of.
  rewrite (find_Some _ _ (length h)) by (by apply search_two).
  change (Z.of_nat (length h)) with (len h).
  set (b := join (lit ",") preds ++ lit ".") in *.
  rewrite substr_app_l by done. cbn [mbind outcome_bind].
  rewrite (app_assoc h), !u64_small by len_lia.
  rewrite substr_app_r by len_lia. cbn [mbind outcome_bind].
  unfold getClauses. cbn [clauses body head atom length Z.of_nat].
  rewrite bool_decide_eq_true_2 by lia.
  assert (split_clauses (S (length b)) b [] = Ok preds) as Hsc.
  { apply (split_clauses_join _ _ []); [|done|done|unfold b in Hok; len_lia|done].
    pose proof (length_join_le (lit ",") preds). unfold b. rewrite length_app.
    specialize (H ltac:(done)). change (length (lit ".")) with 1%nat. lia. }
  rewrite Hsc. by rewrite <-app_assoc.
Qed.

(** ** Properties *)

(** The constructor cuts a rule at its first arrow. For a head that
    contains no arrow, a body whose literals each end with a closing
    parenthesis and hide no separator, and a final full stop, [Rule_of]
    returns the rule with that head, that body and exactly those literals as
    its clauses. *)
Theorem Rule_of_parts h preds :
  str_ok (h ++ arrow ++ join (lit ",") preds ++ lit ".") →
  ¬ occurs arrow h → preds ≠ [] → Forall literal_ok preds →
  Rule_of (h ++ arrow ++ join (lit ",") preds ++ lit ".")
  = Ok (mkRule h (join (lit ",") preds ++ lit ".")
          (h ++ arrow ++ join (lit ",") preds ++ lit ".") preds).
Proof. apply Rule_of_parts_spec. Qed.

Lemma Rule_of_parts_witness :
  Rule_of (lit "allow(P,read):-says(K,allow(P,read)),pk(P,K).")
  = Ok (mkRule (lit "allow(P,read)") (lit "says(K,allow(P,read)),pk(P,K).")
          (lit "allow(P,read):-says(K,allow(P,read)),pk(P,K).")
          [lit "says(K,allow(P,read))"; lit "pk(P,K)"]).
Proof.
  apply (Rule_of_parts (lit "allow(P,read)")
           [lit "says(K,allow(P,read))"; lit "pk(P,K)"]).
  - done.
  - apply search_None. reflexivity.
  - done.
  - repeat constructor; [exists (lit "says(K,allow(P,read)")|exists (lit "pk(P,K")];
      (split; [reflexivity|apply search_None; reflexivity]).
Defined.

(** Splitting a rule body always terminates normally and loses nothing:
    for any body that does not end with a comma, [getClauses] on a rule with an
    empty cache returns a non-empty list of clauses whose texts, joined by
    commas, are the body without its last character; the cache holds the
    same list. *)
Theorem getClauses_lossless h b a :
  str_ok b → last b ≠ Some ","%char →
  ∃ cs, getClauses (mkRule h b a []) = Ok (cs, mkRule h b a cs) ∧ cs ≠ [] ∧
        join (lit ",") cs = take (length b - 1) b.
Proof.
  intros Hok Hl. unfold getClauses. cbn [clauses body head atom].
  rewrite bool_decide_eq_true_2 by done.
  destruct (split_clauses_lossless (S (length b)) b []) as (cs & -> & Hne & Hj);
    [lia|done..|]. by exists cs.
Qed.

Lemma getClauses_lossless_witness :
  ∃ cs, getClauses (mkRule [] (lit "p(X),q(Y,Z).") [] [])
        = Ok (cs, mkRule [] (lit "p(X),q(Y,Z).") [] cs) ∧ cs ≠ [] ∧
        join (lit ",") cs = take 11 (lit "p(X),q(Y,Z).").
Proof. apply (getClauses_lossless [] (lit "p(X),q(Y,Z).") []); done. Defined.

(** [getClauses] caches: a second call returns the same clauses and leaves
    the rule unchanged, whatever happened to the body in between. *)
Theorem getClauses_cached r cs r' b :
  getClauses r = Ok (cs, r') → cs ≠ [] →
  getClauses (setBody b r') = Ok (cs, setBody b r').
Proof.
  intros H Hne. unfold getClauses in H. case_bool_decide as Hb.
  - destruct (split_clauses _ _ _) as [l|?|?]; simplify_eq/=.
    unfold getClauses. cbn. rewrite bool_decide_eq_false_2; [done|].
    destruct cs; [done|cbn; lia].
  - simplify_eq/=. unfold getClauses. cbn. by rewrite bool_decide_eq_false_2.
Qed.

Lemma getClauses_cached_witness :
  getClauses (setBody (lit "r(W).") (mkRule [] (lit "p(X).") [] [lit "p(X)"]))
  = Ok ([lit "p(X)"], setBody (lit "r(W).") (mkRule [] (lit "p(X).") [] [lit "p(X)"])).
Proof.
  apply (getClauses_cached (mkRule [] (lit "p(X).") [] [])); [reflexivity|done].
Defined.
