(* ===== verification/Policy.v ===== *)
(** Binder policies: [class Policy] of src/utils/Policy.h. *)
From S2P Require Import Prelude CppString Utils Rule.

(** [keyDigest] is the principal the clauses are attributed to; [pubKey] of the
    source is never read or written. *)
Record Policy : Type := mkPolicy {
  policyStr : str;
  keyDigest : str;
  facts : list str;
  rules : list Rule
}.

#[export] Instance Policy_eq_dec : EqDecision Policy.
Proof. solve_decision. Defined.

(** [addRule] converts its text to a [Rule] implicitly. *)
Definition addRule (r : str) (p : Policy) : outcome Policy :=
  r ← Rule_of r;
  Ok (mkPolicy (policyStr p) (keyDigest p) (facts p) (rules p ++ [r])).

Definition setKeyDigest (kd : str) (p : Policy) : Policy :=
  mkPolicy (policyStr p) kd (facts p) (rules p).

Definition addFact (f : str) (p : Policy) : Policy :=
  mkPolicy (policyStr p) (keyDigest p) (facts p ++ [f]) (rules p).

Definition toString (p : Policy) : str :=
  lit "Rendering Policy" ++ [nl] ++ lit "Rules" ++ [nl]
  ++ concat (map (λ r, atom r ++ [nl]) (rules p))
  ++ [nl] ++ lit "Facts" ++ [nl] ++ concat (map (λ f, f ++ [nl]) (facts p)).

(** The text after the first [delim]. *)
Definition getsub (source delim : str) : outcome str :=
  if bool_decide (source ≠ [] ∧ delim ≠ []) then
    let pos := find source delim in
    let dif := u64 (len source - len delim) in
    if bool_decide (pos ≠ npos) then substr source (u64 (pos + len delim)) dif
    else Ok []
  else Ok [].

(** [while(!isspace(policyStr[pos])) pos--;] *)
Fixpoint seek_space (fuel : nat) (s : str) (pos : Z) : outcome Z :=
  match fuel with
  | O => Undef NoFuel
  | S fuel =>
      c ← char_at s pos;
      if isspace c then Ok pos else seek_space fuel s (u64 (pos - 1))
  end.

(** The loop over the atoms of the text [tmp]. *)
Fixpoint scan_atoms (fuel : nat) (tmp : str) (p : Policy) : outcome Policy :=
  match fuel with
  | O => Undef NoFuel
  | S fuel =>
      let idx := find_first_of tmp (lit ".") in
      if bool_decide (idx = npos) then Ok p
      else
        a ← substr tmp 0 (u64 (idx + 1));
        atom ← trim a;
        p ← (if bool_decide (find atom (lit ":-") ≠ npos) then addRule atom p
             else Ok (addFact atom p));
        tmp ← getsub tmp (lit ".");
        scan_atoms fuel tmp p
  end.

Definition getAtoms (p : Policy) : outcome Policy :=
  let s := policyStr p in
  let pos := find_first_of s (lit "(") in
  pos ← seek_space (S (S (length s))) s pos;
  tmp ← substr s pos (u64 (len s - pos - 1));
  scan_atoms (S (length tmp)) tmp p.

(** The constructor [Policy(const string & pPolicyStr)]. *)
Definition Policy_of (pPolicyStr : str) : outcome Policy :=
  if bool_decide (pPolicyStr ≠ []) then
    getAtoms (mkPolicy pPolicyStr [] [] [])
  else Ok (mkPolicy [] [] [] []).

(** ** The reference reading of a policy text *)

(** The texts before each full stop. *)
Fixpoint stops (s : str) (cur : str) : list str :=
  match s with
  | [] => []
  | c :: s => if bool_decide (c = "."%char) then cur :: stops s []
              else stops s (cur ++ [c])
  end.

(** One atom: trimmed, it is a rule when it has an arrow and a fact
    otherwise. *)
Definition load_atom (a : str) (p : Policy) : outcome Policy :=
  atom ← trim (a ++ lit ".");
  if decide (occurs arrow atom) then addRule atom p
  else Ok (addFact atom p).

Fixpoint load_atoms (l : list str) (p : Policy) : outcome Policy :=
  match l with
  | [] => Ok p
  | a :: l => p ← load_atom a p; load_atoms l p
  end.

(** ** Lemmas *)

Lemma stops_app_none s rest cur :
  "."%char ∉ s → stops (s ++ rest) cur = stops rest (cur ++ s).
Proof.
  revert cur. induction s as [|c s IH]; intros cur H; cbn [stops app].
  { by rewrite app_nil_r. }
  apply not_elem_of_cons in H as [Hc H].
  rewrite bool_decide_eq_false_2, IH by done. by rewrite <-app_assoc.
Qed.

Lemma getsub_dot a b :
  "."%char ∉ a → str_ok (a ++ lit "." ++ b) → getsub (a ++ lit "." ++ b) (lit ".") = Ok b.
Proof.
  intros Ha Hok. unfold getsub.
  rewrite bool_decide_eq_true_2 by (split; [by destruct a|done]).
  rewrite (find_char _ a "."%char b) by done.
  rewrite bool_decide_eq_true_2 by (unfold npos; len_lia).
  rewrite (app_assoc a), !u64_small by len_lia. apply substr_app_r; len_lia.
Qed.

(** Adding one atom never fails. *)
Lemma load_atom_total a p :
  str_ok (a ++ lit ".") → ∃ p', load_atom a p = Ok p' ∧ policyStr p' = policyStr p.
Proof.
  intros Hok. unfold load_atom. destruct (trim_total _ Hok) as (t & -> & Ht).
  cbn [mbind outcome_bind]. destruct (decide (occurs arrow t)) as [Ho|].
  - unfold addRule. destruct (Rule_of_total t) as (r & -> & _); [len_lia|done|].
    by eexists.
  - by eexists.
Qed.

Lemma scan_atoms_stops fuel tmp p :
  (length tmp < fuel)%nat → str_ok tmp →
  scan_atoms fuel tmp p = load_atoms (stops tmp []) p.
Proof.
  revert tmp p. induction fuel as [|fuel IH]; intros tmp p Hf Hok; [lia|].
  cbn [scan_atoms]. destruct (decide ("."%char ∈ tmp)) as [Hd|Hd].
  - destruct (list_elem_of_split_l _ _ Hd) as (a & b & -> & Ha).
    assert (find_first_of (a ++ "."%char :: b) (lit ".") = len a) as ->
      by by apply find_first_of_char.
    change ("."%char :: b) with (lit "." ++ b) in *.
    rewrite bool_decide_eq_false_2 by (unfold npos; len_lia).
    rewrite u64_small by len_lia.
    rewrite (app_assoc a), substr_app_l by len_lia. cbn [mbind outcome_bind].
    rewrite <-app_assoc, stops_app_none by done. cbn [app stops].
    rewrite getsub_dot by done.
    change (stops (lit "." ++ b) a) with (a :: stops b []). cbn [load_atoms].
    unfold load_atom.
    destruct (trim_total (a ++ lit ".")) as (t & -> & Ht); [len_lia|].
    cbn [mbind outcome_bind].
    assert (str_ok t) as Htok by len_lia.
    pose proof (find_npos t arrow Htok) as Hn.
    destruct (decide (occurs arrow t)) as [Ho|Ho].
    + rewrite bool_decide_eq_true_2 by naive_solver.
      destruct (addRule t p); [|done..]. cbn [mbind outcome_bind].
      apply IH; [|len_lia]. rewrite !length_app in Hf. cbn in Hf. lia.
    + rewrite bool_decide_eq_false_2 by naive_solver. cbn [mbind outcome_bind].
      apply IH; [|len_lia]. rewrite !length_app in Hf. cbn in Hf. lia.
  - assert (find_first_of tmp (lit ".") = npos) as -> by by apply find_first_of_none.
    rewrite bool_decide_eq_true_2 by done.
    rewrite <-(app_nil_r tmp), stops_app_none by done. done.
Qed.

Lemma load_atoms_total l p :
  Forall (λ a, str_ok (a ++ lit ".")) l →
  ∃ p', load_atoms l p = Ok p' ∧ policyStr p' = policyStr p.
Proof.
  intros H. revert p. induction H as [|a l Ha H IH]; intros p; [by eexists|].
  cbn [load_atoms]. destruct (load_atom_total a p Ha) as (p' & -> & <-). apply IH.
Qed.

Lemma stops_length s cur :
  Forall (λ a, (length a < length cur + length s)%nat) (stops s cur).
Proof.
  revert cur. induction s as [|c s IH]; intros cur; cbn [stops]; [done|].
  case_bool_decide.
  - constructor; [cbn; lia|]. eapply Forall_impl; [apply IH|]. cbn. intros. lia.
  - eapply Forall_impl; [apply IH|]. cbn. intros a. rewrite length_app. cbn. lia.
Qed.

Lemma seek_space_back a w m rest fuel :
  isspace w = true → Forall (λ c, isspace c = false) m →
  str_ok (a ++ w :: m ++ rest) → (length m < fuel)%nat →
  seek_space fuel (a ++ w :: m ++ rest) (len (a ++ w :: m) - 1) = Ok (len a).
Proof.
  intros Hw Hm Hok. revert rest fuel Hok.
  induction m as [|c m IH] using rev_ind; intros rest fuel Hok Hf;
    (destruct fuel as [|fuel]; [lia|]); cbn [seek_space app].
  - replace (len (a ++ [w]) - 1) with (len a) by len_lia.
    rewrite char_at_app. cbn [mbind outcome_bind]. by rewrite Hw.
  - apply Forall_app in Hm as [Hm Hc]. apply Forall_cons in Hc as [Hc _].
    replace (a ++ w :: (m ++ [c]) ++ rest) with ((a ++ w :: m) ++ c :: rest)
      by by rewrite <-!app_assoc.
    replace (len (a ++ w :: m ++ [c]) - 1) with (len (a ++ w :: m)) by len_lia.
    rewrite char_at_app. cbn [mbind outcome_bind]. rewrite Hc, u64_small by len_lia.
    rewrite <-app_assoc. cbn [app]. apply IH; [done|len_lia|].
    rewrite length_app in Hf. cbn in Hf. lia.
Qed.

Lemma char_at_npos s : str_ok s → char_at s npos = Undef BadIndex.
Proof.
  intros Hok. unfold char_at, npos.
  destruct (Z.ltb_spec (len s) (2 ^ 64 - 1)); [done|len_lia].
Qed.

Lemma seek_space_under a c rest fuel :
  Forall (λ c, isspace c = false) (a ++ [c]) → str_ok (a ++ c :: rest) →
  (S (length a) < fuel)%nat →
  seek_space fuel (a ++ c :: rest) (len a) = Undef BadIndex.
Proof.
  revert c rest fuel.
  induction a as [|d a IH] using rev_ind; intros c rest fuel Ha Hok Hf;
    apply Forall_app in Ha as [Ha [Hc _]%Forall_cons];
    (destruct fuel as [|fuel]; [lia|]); cbn [seek_space];
    rewrite char_at_app; cbn [mbind outcome_bind]; rewrite Hc.
  - change (u64 (len [] - 1)) with npos. destruct fuel; [cbn in Hf; lia|].
    cbn [seek_space]. by rewrite char_at_npos.
  - rewrite u64_small by len_lia. replace (len (a ++ [d]) - 1) with (len a) by len_lia.
    rewrite <-app_assoc. apply IH; [done|len_lia|].
    rewrite length_app in Hf. cbn in Hf. lia.
Qed.

(** ** Properties *)

(** Reading a policy. When the first opening parenthesis of the text is in
    a word [m] preceded by white space [w], the constructor succeeds, whatever
    the rest of the text is: it skips the text before [w], drops the last
    character, and loads the texts between full stops in order, each trimmed
    and stored as a rule when it has an arrow, as a fact otherwise. *)
Theorem Policy_of_atoms a w m rest c :
  let s := a ++ w :: m ++ lit "(" ++ rest ++ [c] in
  str_ok s → "("%char ∉ a → isspace w = true →
  Forall (λ c, isspace c = false) m → "("%char ∉ m →
  ∃ p, Policy_of s = Ok p ∧ policyStr p = s ∧
       load_atoms (stops (w :: m ++ lit "(" ++ rest) []) (mkPolicy s [] [] []) = Ok p.
Proof.
  intros s Hok Ha Hw Hm Hmp. unfold Policy_of.
  rewrite bool_decide_eq_true_2 by (unfold s; by destruct a). unfold getAtoms.
  cbn [policyStr].
  assert (Hs : s = (a ++ w :: m) ++ "("%char :: rest ++ [c])
    by (unfold s; by rewrite <-app_assoc).
  assert (Hpos : find_first_of s (lit "(") = len (a ++ w :: m)).
  { rewrite Hs. apply find_first_of_char. intros Hin. apply elem_of_app in Hin as [?|Hin]; [done|].
    apply elem_of_cons in Hin as [He|?]; [|done]. by rewrite <-He in Hw. }
  assert (Hb : seek_space (S (S (length s))) s (len (a ++ w :: m)) = Ok (len a)).
  { replace (len (a ++ w :: m)) with (len (a ++ w :: m ++ lit "(") - 1) by len_lia.
    replace s with (a ++ w :: (m ++ lit "(") ++ rest ++ [c])
      by (unfold s; by rewrite <-!app_assoc).
    apply seek_space_back; [done| | |].
    - apply Forall_app. by split; [|repeat constructor].
    - by rewrite <-app_assoc.
    - rewrite !length_app. cbn [length]. rewrite !length_app. cbn. lia. }
  rewrite Hpos, Hb. cbn [mbind outcome_bind].
  assert (Ht : substr s (len a) (u64 (len s - len a - 1)) = Ok (w :: m ++ lit "(" ++ rest)).
  { assert (len s = len a + (len (w :: m ++ lit "(" ++ rest) + 1)) as Hl
      by (unfold s; len_lia).
    pose proof (len_nonneg (w :: m ++ lit "(" ++ rest)). pose proof (len_nonneg a).
    rewrite u64_small by (unfold str_ok in Hok; rewrite Hl in Hok |- *; lia).
    assert (s = a ++ (w :: m ++ lit "(" ++ rest) ++ [c]) as Hs'
      by (unfold s; rewrite <-?app_assoc; cbn [app]; by rewrite <-?app_assoc).
    rewrite Hs' at 1. apply substr_app_mid; [done|]. rewrite Hl. lia. }
  rewrite Ht. cbn [mbind outcome_bind].
  rewrite scan_atoms_stops; [|lia|unfold s in Hok; len_lia].
  destruct (load_atoms_total (stops (w :: m ++ lit "(" ++ rest) []) (mkPolicy s [] [] []))
    as (p & Hp & Hpp).
  { eapply Forall_impl; [apply stops_length|]. intros x Hx. cbn beta in Hx.
    assert (len x < len (w :: m ++ lit "(" ++ rest)) by (change (@length ascii []) with 0%nat in Hx; unfold len; lia).
    unfold s in Hok. len_lia. }
  by exists p.
Qed.

Lemma Policy_of_atoms_witness :
  let s := [nl] ++ lit "says" ++ lit "(" ++ lit "P,S) :- says(K,S), pk(K,P). pk(k1,bob)."
           ++ [nl] in
  ∃ p, Policy_of s = Ok p ∧ policyStr p = s ∧
       load_atoms [[nl] ++ lit "says(P,S) :- says(K,S), pk(K,P)"; lit " pk(k1,bob)"]
         (mkPolicy s [] [] []) = Ok p.
Proof.
  apply (Policy_of_atoms [] nl (lit "says")
           (lit "P,S) :- says(K,S), pk(K,P). pk(k1,bob).") nl);
    [done|apply not_elem_of_nil|done|by repeat constructor|].
  apply (bool_decide_unpack _). by vm_compute.
Defined.

(** The backward search for white space has no lower bound. When no white
    space precedes the first opening parenthesis of a non-empty policy text, or
    there is no opening parenthesis, constructing the policy indexes the text
    out of its bounds. *)
Theorem Policy_of_no_space s :
  str_ok s → s ≠ [] →
  (∀ a b, s = a ++ lit "(" ++ b → "("%char ∉ a →
     Forall (λ c, isspace c = false) a) →
  Policy_of s = Undef BadIndex.
Proof.
  intros Hok Hne Hs. unfold Policy_of. rewrite bool_decide_eq_true_2 by done.
  unfold getAtoms. cbn [policyStr].
  destruct (decide ("("%char ∈ s)) as [Hp|Hp].
  - destruct (list_elem_of_split_l _ _ Hp) as (a & b & Hab & Ha).
    assert (find_first_of s (lit "(") = len a) as ->
      by (rewrite Hab; by apply find_first_of_char).
    specialize (Hs a b Hab Ha). rewrite Hab in *. rewrite seek_space_under; [done| |done|].
    + apply Forall_app. by split; [|repeat constructor].
    + rewrite length_app. cbn. lia.
  - assert (find_first_of s (lit "(") = npos) as -> by by apply find_first_of_none.
    cbn [seek_space]. by rewrite char_at_npos.
Qed.

Lemma Policy_of_no_space_witness :
  Policy_of (lit "allow(P, read).") = Undef BadIndex.
Proof.
  apply Policy_of_no_space; [done|done|].
  intros a b Hab Ha. do 5 (destruct a as [|? a]; [by repeat constructor|]; simplify_eq/=).
  destruct a as [|? a]; [by repeat constructor|]; simplify_eq/=. set_solver.
Defined.
