(* ===== verification/Certificate.v ===== *)
(** Certificates: [class Certificate] of src/utils/Certificate.h. *)
From S2P Require Import Prelude CppString Utils.

(** The members of the class. The two times are not initialised by the
    constructor; [None] is their indeterminate value. *)
Record Certificate : Type := mkCertificate {
  clauses : list str;
  transformedCls : list str;
  startTimeSec : option Z;
  stopTimeSec : option Z;
  startTime : str;
  stopTime : str;
  signature : str;
  pubKey : str;
  keyDigest : str;
  certStr : str
}.

#[export] Instance Certificate_eq_dec : EqDecision Certificate.
Proof. solve_decision. Defined.

(** The constructor. *)
Definition Certificate_new : Certificate :=
  mkCertificate [] [] None None [] [] [] [] [] [].

Definition addClause (s : str) (c : Certificate) : Certificate :=
  mkCertificate (clauses c ++ [s]) (transformedCls c) (startTimeSec c)
    (stopTimeSec c) (startTime c) (stopTime c) (signature c) (pubKey c)
    (keyDigest c) (certStr c).

(** An index past the end gives the empty string. *)
Definition getTransformedCls (i : nat) (c : Certificate) : str :=
  if (length (transformedCls c) <=? i)%nat then []
  else default [] (transformedCls c !! i).

Definition numTransformedCls (c : Certificate) : nat := length (transformedCls c).

Definition addTransformedCls (tc : str) (c : Certificate) : Certificate :=
  mkCertificate (clauses c) (transformedCls c ++ [tc]) (startTimeSec c)
    (stopTimeSec c) (startTime c) (stopTime c) (signature c) (pubKey c)
    (keyDigest c) (certStr c).

Definition appendToPubKey (s : str) (c : Certificate) : Certificate :=
  mkCertificate (clauses c) (transformedCls c) (startTimeSec c) (stopTimeSec c)
    (startTime c) (stopTime c) (signature c) (pubKey c ++ s) (keyDigest c)
    (certStr c).

Definition appendToSignature (s : str) (c : Certificate) : Certificate :=
  mkCertificate (clauses c) (transformedCls c) (startTimeSec c) (stopTimeSec c)
    (startTime c) (stopTime c) (signature c ++ s) (pubKey c) (keyDigest c)
    (certStr c).

Definition appendToStartTime (s : str) (c : Certificate) : Certificate :=
  mkCertificate (clauses c) (transformedCls c) (startTimeSec c) (stopTimeSec c)
    (startTime c ++ s) (stopTime c) (signature c) (pubKey c) (keyDigest c)
    (certStr c).

Definition appendToStopTime (s : str) (c : Certificate) : Certificate :=
  mkCertificate (clauses c) (transformedCls c) (startTimeSec c) (stopTimeSec c)
    (startTime c) (stopTime c ++ s) (signature c) (pubKey c) (keyDigest c)
    (certStr c).

Definition setStartTime (s : str) (c : Certificate) : Certificate :=
  mkCertificate (clauses c) (transformedCls c) (startTimeSec c) (stopTimeSec c)
    s (stopTime c) (signature c) (pubKey c) (keyDigest c) (certStr c).

Definition setStopTime (s : str) (c : Certificate) : Certificate :=
  mkCertificate (clauses c) (transformedCls c) (startTimeSec c) (stopTimeSec c)
    (startTime c) s (signature c) (pubKey c) (keyDigest c) (certStr c).

Definition setKeyDigest (kd : str) (c : Certificate) : Certificate :=
  mkCertificate (clauses c) (transformedCls c) (startTimeSec c) (stopTimeSec c)
    (startTime c) (stopTime c) (signature c) (pubKey c) kd (certStr c).

(** A time that was not given is 0. *)
Definition time_sec (gmtoff cur : Z) (t : str) : outcome Z :=
  if bool_decide (t ≠ []) then getUTCTimeSec gmtoff cur t else Ok 0.

(** [setCertificateStr]; [cur1] and [cur2] are the values of [time(NULL)] at the
    two conversions. *)
Definition setCertificateStr (gmtoff cur1 cur2 : Z) (c : Certificate)
    : outcome Certificate :=
  let cs := if bool_decide (certStr c = []) then
              concat (clauses c) ++ (startTime c ++ stopTime c)
            else certStr c in
  start ← time_sec gmtoff cur1 (startTime c);
  stop ← time_sec gmtoff cur2 (stopTime c);
  Ok (mkCertificate (clauses c) (transformedCls c) (Some start) (Some stop)
        (startTime c) (stopTime c) (signature c) (pubKey c) (keyDigest c) cs).

(** [toString] finalises a certificate whose text is still empty. *)
Definition toString (gmtoff cur1 cur2 : Z) (c : Certificate)
    : outcome (str * Certificate) :=
  c ← (if bool_decide (certStr c = []) then setCertificateStr gmtoff cur1 cur2 c
       else Ok c);
  Ok (lit "Certificate String: " ++ [nl] ++ certStr c ++ [nl]
      ++ lit "From: " ++ [nl] ++ startTime c ++ [nl] ++ lit "To: " ++ [nl]
      ++ stopTime c ++ [nl] ++ lit "Public Key: " ++ [nl] ++ pubKey c ++ [nl]
      ++ lit "Signature: " ++ [nl] ++ signature c ++ [nl], c).

(** The text a certificate signs: its clauses, then its two times. *)
Definition signed_text (c : Certificate) : str :=
  concat (clauses c) ++ startTime c ++ stopTime c.

(** The broken-down time of a [datime] predicate, and its text. *)
Record fields : Type := mkFields {
  f_year : str; f_mon : str; f_day : str; f_hour : str; f_min : str; f_sec : str
}.
Definition datime (f : fields) : str :=
  datime_text (f_year f) (f_mon f) (f_day f) (f_hour f) (f_min f) (f_sec f).
Definition fields_ok (f : fields) : Prop :=
  str_ok (datime f) ∧
  Forall digits [f_year f; f_mon f; f_day f; f_hour f; f_min f; f_sec f].
#[export] Instance fields_ok_dec f : Decision (fields_ok f).
Proof. unfold fields_ok. apply _. Defined.
Definition fields_tm (f : fields) : tm :=
  mkTm (field (f_sec f)) (field (f_min f)) (field (f_hour f)) (field (f_day f))
    (field (f_mon f) - 1) (field (f_year f) - 1900).

Lemma time_sec_datime gmtoff cur f :
  fields_ok f → time_sec gmtoff cur (datime f) = Ok (mktime gmtoff (fields_tm f)).
Proof.
  intros [Hok Hd]. rewrite !Forall_cons in Hd. destruct_and! Hd.
  unfold time_sec. rewrite bool_decide_eq_true_2 by done.
  by apply getUTCTimeSec_fields.
Qed.

Lemma setCertificateStr_datime gmtoff cur1 cur2 c f1 f2 :
  startTime c = datime f1 → stopTime c = datime f2 → fields_ok f1 → fields_ok f2 →
  setCertificateStr gmtoff cur1 cur2 c =
    Ok (mkCertificate (clauses c) (transformedCls c)
          (Some (mktime gmtoff (fields_tm f1))) (Some (mktime gmtoff (fields_tm f2)))
          (startTime c) (stopTime c) (signature c) (pubKey c) (keyDigest c)
          (if bool_decide (certStr c = []) then signed_text c else certStr c)).
Proof.
  intros H1 H2 Hf1 Hf2. unfold setCertificateStr. rewrite H1, H2, !time_sec_datime by done.
  unfold signed_text. by rewrite H1, H2.
Qed.

(** ** Properties *)

(** Finalising a fresh certificate. With both times given as [datime]
    predicates of numeric fields, [setCertificateStr] succeeds, sets the text
    to the clauses followed by the two times, sets the two second counts to
    the [mktime] of the fields, and changes nothing else; running it again at
    any later time changes nothing. *)
Theorem setCertificateStr_spec gmtoff cur1 cur2 cur1' cur2' c f1 f2 :
  certStr c = [] → signed_text c ≠ [] →
  startTime c = datime f1 → stopTime c = datime f2 → fields_ok f1 → fields_ok f2 →
  ∃ c', setCertificateStr gmtoff cur1 cur2 c = Ok c' ∧
    c' = mkCertificate (clauses c) (transformedCls c)
          (Some (mktime gmtoff (fields_tm f1))) (Some (mktime gmtoff (fields_tm f2)))
          (startTime c) (stopTime c) (signature c) (pubKey c) (keyDigest c)
          (signed_text c) ∧
    setCertificateStr gmtoff cur1' cur2' c' = Ok c'.
Proof.
  intros Hc Hne H1 H2 Hf1 Hf2.
  rewrite (setCertificateStr_datime _ _ _ _ f1 f2), Hc by done.
  rewrite bool_decide_eq_true_2 by done. eexists.
  split_and!; [done..|]. rewrite (setCertificateStr_datime _ _ _ _ f1 f2) by done.
  cbn [certStr clauses startTime stopTime]. by rewrite bool_decide_eq_false_2.
Qed.

Lemma setCertificateStr_spec_witness :
  ∃ c', setCertificateStr 0 1 2
    (mkCertificate [lit "employee(bob)."] [] None None (lit "datime(2011,12,19,6,0,0).")
      (lit "datime(2012,12,19,6,0,0).") [] [] [] []) = Ok c' ∧
    certStr c' = lit "employee(bob).datime(2011,12,19,6,0,0).datime(2012,12,19,6,0,0).".
Proof.
  destruct (setCertificateStr_spec 0 1 2 3 4
    (mkCertificate [lit "employee(bob)."] [] None None (lit "datime(2011,12,19,6,0,0).")
      (lit "datime(2012,12,19,6,0,0).") [] [] [] [])
    (mkFields (lit "2011") (lit "12") (lit "19") (lit "6") (lit "0") (lit "0"))
    (mkFields (lit "2012") (lit "12") (lit "19") (lit "6") (lit "0") (lit "0")))
    as (c' & H & -> & _);
    [reflexivity|discriminate|reflexivity|reflexivity
    |apply (bool_decide_unpack _); by vm_compute
    |apply (bool_decide_unpack _); by vm_compute|].
  eexists. split; [exact H|reflexivity].
Defined.
