(* ===== verification/Credential.v ===== *)
(** Credentials: [class Credential] of src/utils/Credential.h. The certificates
    a credential points to belong to it alone, so it holds them by value. *)
From stdpp Require Import pretty.
From S2P Require Import Prelude CppString Utils Certificate.

Record Credential : Type := mkCredential {
  pubKey : str;
  keyDigest : str;
  certificates : list Certificate
}.

#[export] Instance Credential_eq_dec : EqDecision Credential.
Proof. solve_decision. Defined.

Definition Credential_new : Credential := mkCredential [] [] [].

Definition setKeyDigest (k : str) (c : Credential) : Credential :=
  mkCredential (pubKey c) k (certificates c).
Definition appendToPubKey (s : str) (c : Credential) : Credential :=
  mkCredential (pubKey c ++ s) (keyDigest c) (certificates c).
Definition setPubKey (pk : str) (c : Credential) : Credential :=
  mkCredential pk (keyDigest c) (certificates c).

(** A null pointer is not added. *)
Definition addCertificate (x : option Certificate) (c : Credential) : Credential :=
  match x with
  | Some x => mkCredential (pubKey c) (keyDigest c) (certificates c ++ [x])
  | None => c
  end.

(** A null pointer past the end. *)
Definition getCertificate (i : nat) (c : Credential) : option Certificate :=
  if (length (certificates c) <=? i)%nat then None else certificates c !! i.

Definition numCertificates (c : Credential) : nat := length (certificates c).

(** [finalize]; [cur] gives the values of [time(NULL)] at each conversion. *)
Fixpoint finalize_certs (gmtoff : Z) (cur : nat → Z) (l : list Certificate)
    : outcome (list Certificate) :=
  match l with
  | [] => Ok []
  | x :: l =>
      x ← setCertificateStr gmtoff (cur 0%nat) (cur 1%nat) x;
      l ← finalize_certs gmtoff (λ n, cur (2 + n)%nat) l;
      Ok (x :: l)
  end.

Definition finalize (gmtoff : Z) (cur : nat → Z) (c : Credential)
    : outcome Credential :=
  l ← finalize_certs gmtoff cur (certificates c);
  Ok (mkCredential (pubKey c) (keyDigest c) l).

(** The decimal text of an unsigned number. *)
Definition print_N (n : N) : str := lit (pretty n).

Fixpoint render_certs (gmtoff : Z) (cur : nat → Z) (i : nat) (l : list Certificate)
    : outcome (str * list Certificate) :=
  match l with
  | [] => Ok ([], [])
  | x :: l =>
      r ← Certificate.toString gmtoff (cur 0%nat) (cur 1%nat) x;
      rs ← render_certs gmtoff (λ n, cur (2 + n)%nat) (S i) l;
      Ok (lit "Rendering Certificate " ++ print_N (N.of_nat (i + 1)) ++ [nl]
          ++ r.1 ++ [nl] ++ rs.1, r.2 :: rs.2)
  end.

Definition toString (gmtoff : Z) (cur : nat → Z) (c : Credential)
    : outcome (str * Credential) :=
  r ← render_certs gmtoff cur 0 (certificates c);
  Ok (lit "Redering Credential" ++ [nl] ++ lit "Public Key" ++ [nl] ++ pubKey c
      ++ [nl] ++ lit "Num Certificates: "
      ++ print_N (N.of_nat (length (certificates c))) ++ [nl] ++ r.1,
      mkCredential (pubKey c) (keyDigest c) r.2).
