(* ===== verification/OpenSSL.v ===== *)
(** The operations of the OpenSSL library that the program calls. They are not
    part of the repository: the development is parametric in them. *)
From S2P Require Import Prelude CppString.

Definition MD5_DIGEST_LENGTH : Z := 16.

(** The functions of the library, as the program uses them. *)
Class OpenSSL : Type := {
  RSA : Type;
  (** A write of bytes to a base 64 BIO over a memory BIO: the return value of
      [BIO_write], and the bytes of the memory BIO when [BIO_flush] succeeds. *)
  b64_write : str → Z * option str;
  (** [BIO_read] of at most [n] bytes from a base 64 BIO over a memory BIO with
      the given contents: its return value and the bytes it stores. *)
  b64_read : str → Z → Z * str;
  MD5 : str → str;
  (** [BIO_new_mem_buf]: the bytes the BIO delivers, or a null pointer. *)
  mem_bio : str → option str;
  (** [PEM_read_bio_RSA_PUBKEY] *)
  pem_rsa_pubkey : str → option RSA;
  RSA_size : RSA → Z;
  (** [RSA_verify(NID_md5, digest, 16, sig, RSA_size(key), key)] *)
  RSA_verify : str → str → RSA → bool
}.

(** What the manual pages of the library say about them. *)
Class OpenSSLLaws (O : OpenSSL) : Prop := {
  MD5_length m : len (MD5 m) = MD5_DIGEST_LENGTH;
  b64_read_stored s n : 0 ≤ n → len (b64_read s n).2 ≤ n;
  b64_read_ret s n :
    (b64_read s n).1 = len (b64_read s n).2 ∨
    ((b64_read s n).1 ≤ 0 ∧ (b64_read s n).2 = [])
}.

(** ** A concrete library

    A small instance used to evaluate the definitions: base 64 is the
    identity on text without question marks and unreadable otherwise, the digest
    is the text padded to its length, every text but the empty one and ["bad"]
    is a key, and a signature is valid when it is the digest or starts with the
    dash of a header. *)
Definition pad16 (m : str) : str := take 16 (m ++ replicate 16 "0"%char).

#[export] Instance sample_openssl : OpenSSL := {|
  RSA := str;
  b64_write m := (len m, Some m);
  b64_read s n :=
    if existsb (λ c, bool_decide (c = "?"%char)) s then (-1, []) else (len (take (Z.to_nat n) s), take (Z.to_nat n) s);
  MD5 := pad16;
  mem_bio s := Some s;
  pem_rsa_pubkey s :=
    if bool_decide (s = [] ∨ s = lit "bad") then None else Some s;
  RSA_size _ := 16;
  RSA_verify d s _ := bool_decide (s = d ∨ hd_error s = Some "-"%char)
|}.

#[export] Instance sample_openssl_laws : OpenSSLLaws sample_openssl.
Proof.
  split.
  - intros m. cbn. unfold pad16, len, MD5_DIGEST_LENGTH.
    rewrite length_take, length_app, length_replicate. lia.
  - intros s n Hn. cbn. destruct (existsb _ _); cbn; [done|].
    unfold len. rewrite length_take. lia.
  - intros s n. cbn. destruct (existsb _ _); cbn; [right|left]; done.
Qed.
