(* ===== verification/SecurityService.v ===== *)
(** Verification of credentials and signatures, the translation of clauses to
    binder form: the first half of [class SecurityService] of
    src/utils/SecurityService.h. *)
From S2P Require Import Prelude CppString Utils Rule Policy Certificate Credential.
From S2P Require Import OpenSSL.

(** The members of the service. [credPtr] points to the credential that was
    verified last; the service and its caller see the same object. *)
Record SecurityService : Type := mkSecurityService {
  policyStr : str;
  policy : option Policy;
  credPtr : option Credential
}.

(** The constructor. *)
Definition SecurityService_new : SecurityService := mkSecurityService [] None None.

Definition setPolicy (pPolicyStr : str) (s : SecurityService)
    : outcome SecurityService :=
  p ← Policy_of pPolicyStr;
  Ok (mkSecurityService pPolicyStr (Some p) (credPtr s)).

Section crypto.
Context {O : OpenSSL}.

(** ** Base 64 and digests *)

(** [encodeB64]: a null pointer when the BIO cannot be flushed, and otherwise a
    copy of its bytes followed by a NUL. *)
Definition encodeB64 (input : str) : option str :=
  match (b64_write input).2 with
  | Some data => Some (data ++ [nul])
  | None => None
  end.

(** [decodeB64]: the buffer, three times as long as the text and filled with
    NULs, and the new value of [length]. *)
Definition decodeB64 (input : str) (length : Z) : outcome (str * Z) :=
  size ← int_op (3 * length);
  let '(n, data) := b64_read input length in
  Ok (data ++ replicate (Z.to_nat (size - len data)) nul, n).

(** [n] bytes of a buffer; there is nothing after its end. *)
Definition read_buf (buf : str) (n : Z) : outcome str :=
  if (n <? 0) || (len buf <? n) then Undef BadIndex
  else Ok (take (Z.to_nat n) buf).

(** [getMsgDigest(const unsigned char*, size_t)]: the digest and a NUL. *)
Definition getMsgDigest_buf (msg : str) (n : Z) : outcome str :=
  m ← read_buf msg n;
  Ok (MD5 m ++ [nul]).

(** [getMsgDigest(const string &)] reads up to the first NUL. *)
Definition getMsgDigest (pMsg : str) : outcome str :=
  getMsgDigest_buf (c_str pMsg) (len (c_str pMsg)).

(** [sprintf("%02x", b)] *)
Definition hex_digit (n : nat) : ascii :=
  if (n <? 10)%nat then ascii_of_nat (48 + n) else ascii_of_nat (87 + n).
Definition hex_byte (b : ascii) : str :=
  [hex_digit (nat_of_ascii b / 16); hex_digit (nat_of_ascii b mod 16)].
(** The loop that prints the digest. *)
Definition hex (m : str) : str := concat (map hex_byte m).

Definition getKeyDigest (pKey : str) : outcome str :=
  let keyLen := sint 32 (len pKey) in
  d ← decodeB64 pKey keyLen;
  md5Digest ← getMsgDigest_buf d.1 (u64 d.2);
  bytes ← read_buf md5Digest MD5_DIGEST_LENGTH;
  Ok (lit "rsa_" ++ c_str (hex bytes)).

(** ** Signatures *)

Definition verifySig (pKey pB64DgstSigned pMsg : str) : outcome bool :=
  if bool_decide (pKey = []) then Ok false
  else if bool_decide (pB64DgstSigned = []) then Ok false
  else if bool_decide (pMsg = []) then Ok false
  else
    md5Digest ← getMsgDigest pMsg;
    match mem_bio pKey with
    | None => Ok true
    | Some bio =>
        match pem_rsa_pubkey bio with
        | None => Ok true
        | Some pubKey =>
            let sigLen := sint 32 (len pB64DgstSigned) in
            d ← decodeB64 pB64DgstSigned sigLen;
            md ← read_buf md5Digest MD5_DIGEST_LENGTH;
            decSig ← read_buf d.1 (RSA_size pubKey);
            Ok (RSA_verify md decSig pubKey)
        end
    end.

End crypto.

(** ** Challenges *)

(** [generateChallenge]: one character for each of the values [rand] gives. *)
Definition challenge_char (nextRand : Z) : ascii :=
  if Z.rem nextRand 5 =? 0 then "@"%char
  else if Z.rem nextRand 3 =? 0 then "!"%char
  else if Z.rem nextRand 2 =? 0 then "?"%char
  else "*"%char.

Definition generateChallenge (rand : nat → Z) : str :=
  map (λ i, challenge_char (rand i)) (seq 0 (Z.to_nat MAX_CHALLENGE_BUF)).

(** ** Binder statements (appendix B of the Binder paper) *)

(** The loop over the clauses of a rule body. *)
Fixpoint transform_body (prefix : str) (cs : list str) : str :=
  match cs with
  | [] => []
  | c :: cs =>
      prefix ++ lit "," ++ c ++ lit ")"
      ++ (match cs with [] => lit "." | _ => lit "," end)
      ++ transform_body prefix cs
  end.

(** [transformClause]; [p] is the policy of the service. *)
Definition transformClause (pClause : str) (p : Policy) : outcome (str * Policy) :=
  let prefix := lit "says(" ++ Policy.keyDigest p in
  let pos := find pClause (lit ":-") in
  if bool_decide (pos ≠ npos) then
    r ← Rule_of pClause;
    let quoted := bool_decide (find (body r) (head r) ≠ npos) in
    retVal ←
      (if quoted then Ok (prefix ++ lit "," ++ head r ++ lit "):-" ++ body r)
       else
         '(cs, _) ← getClauses r;
         Ok (prefix ++ lit "," ++ head r ++ lit "):-" ++ transform_body prefix cs));
    anotherRule ← Rule_of retVal;
    p ← addRule retVal p;
    Ok (retVal, p)
  else
    f ← substr pClause 0 (u64 (len pClause - 1));
    let retVal := prefix ++ lit "," ++ f ++ lit ")." in
    Ok (retVal, addFact retVal p).

(** ** Verification of a credential *)

Section verify.
Context {O : OpenSSL}.

(** The loop over the clauses of a certificate. *)
Fixpoint transform_clauses (clauses : list str) (c : Certificate) (p : Policy)
    : outcome (Certificate * Policy) :=
  match clauses with
  | [] => Ok (c, p)
  | clause :: clauses =>
      '(binderClause, p) ← transformClause clause p;
      transform_clauses clauses (addTransformedCls binderClause c) p
  end.

(** Validity of the times of a certificate when [time(NULL)] is [now]. *)
Definition valid_time (gmtoff now : Z) (c : Certificate) : outcome bool :=
  let tmp := mktime gmtoff (gmtime now) in
  start ← init (startTimeSec c);
  if start <=? tmp then
    stop ← init (stopTimeSec c);
    Ok (tmp <? stop)
  else Ok false.

(** The body of the loop of [verifyCredential] for one certificate: whether it
    is accepted, the certificate and the policy afterwards. *)
Definition verify_cert (VALIDATE_CERT_TIME : bool) (gmtoff now : Z)
    (c : Certificate) (p : option Policy)
    : outcome (bool * Certificate * option Policy) :=
  vTime ← (if VALIDATE_CERT_TIME then valid_time gmtoff now c else Ok true);
  if VALIDATE_CERT_TIME && negb vTime then Ok (false, c, p)
  else
    b ← verifySig (Certificate.pubKey c) (signature c) (certStr c);
    if (b : bool) then
      kd ← getKeyDigest (Certificate.pubKey c);
      let c := Certificate.setKeyDigest kd c in
      p ← deref p;
      let p := Policy.setKeyDigest (Certificate.keyDigest c) p in
      '(c, p) ← transform_clauses (Certificate.clauses c) c p;
      Ok (true, c, Some p)
    else Ok (false, c, p).

(** The loop; [cur i] is [time(NULL)] at the [i]-th certificate. *)
Fixpoint verify_certs (VALIDATE_CERT_TIME : bool) (gmtoff : Z) (cur : nat → Z)
    (l : list Certificate) (retVal : bool) (p : option Policy)
    : outcome (bool * list Certificate * option Policy) :=
  match l with
  | [] => Ok (retVal, [], p)
  | c :: l =>
      '(b, c, p) ← verify_cert VALIDATE_CERT_TIME gmtoff (cur 0%nat) c p;
      '(retVal, l, p) ←
        verify_certs VALIDATE_CERT_TIME gmtoff (λ i, cur (S i)) l (retVal && b) p;
      Ok (retVal, c :: l, p)
  end.

(** [verifyCredential]; the credential is left in [credPtr], which is the
    caller's own. *)
Definition verifyCredential (VALIDATE_CERT_TIME : bool) (gmtoff : Z)
    (cur : nat → Z) (pCred : option Credential) (s : SecurityService)
    : outcome (bool * SecurityService) :=
  match pCred with
  | None => Ok (true, s)
  | Some c =>
      kd ← getKeyDigest (Credential.pubKey c);
      let c := Credential.setKeyDigest kd c in
      '(retVal, l, p) ←
        verify_certs VALIDATE_CERT_TIME gmtoff cur (certificates c) true (policy s);
      Ok (retVal,
          mkSecurityService (policyStr s) p
            (Some (mkCredential (Credential.pubKey c) (Credential.keyDigest c) l)))
  end.

End verify.

(** ** Lemmas: binder statements *)

(** The statement [says(K,c)]. *)
Definition says (kd c : str) : str := lit "says(" ++ kd ++ lit "," ++ c ++ lit ")".

Lemma transform_body_join kd cs :
  cs ≠ [] →
  transform_body (lit "says(" ++ kd) cs = join (lit ",") (map (says kd) cs) ++ lit ".".
Proof.
  induction cs as [|c cs IH]; [done|]. intros _. destruct cs as [|d cs].
  - cbn [transform_body map join]. unfold says. by rewrite app_nil_r, <-!app_assoc.
  - rewrite map_cons, join_cons by done. rewrite <-!app_assoc, <-(IH ltac:(done)).
    cbn [transform_body]. unfold says. by rewrite <-!app_assoc.
Qed.

(** A text without a pattern, followed by one without its first character. *)
Lemma occurs_app_l x y a b : ¬ occurs [x; y] (a ++ b) → ¬ occurs [x; y] a.
Proof. intros H (p & q & ->). apply H. exists p, (q ++ b). by rewrite <-!app_assoc. Qed.

Lemma occurs_app_two x y a b :
  occurs [x; y] (a ++ b) →
  occurs [x; y] a ∨ occurs [x; y] b ∨ (last a = Some x ∧ hd_error b = Some y).
Proof.
  induction a as [|c a IH]; intros H; [by right; left|].
  apply occurs_two_inv in H as [[-> H]|H].
  - destruct a as [|d a]; cbn in H.
    + right; right. destruct b; naive_solver.
    + injection H as ->. left. by exists [], a.
  - destruct (IH H) as [(p & q & ->)|[?|[Hl ?]]].
    + left. by exists (c :: p), q.
    + by right; left.
    + right; right. split; [|done]. by rewrite last_cons, Hl.
Qed.

Lemma occurs_two_absent x y a : x ∉ a → ¬ occurs [x; y] a.
Proof. intros H (p & q & ->). set_solver. Qed.

Lemma says_literal_ok kd c :
  ")"%char ∉ kd → ¬ occurs clause_sep c → literal_ok (says kd c).
Proof.
  intros Hk Hc. exists (lit "says(" ++ kd ++ lit "," ++ c).
  split; [unfold says; by rewrite <-!app_assoc|].
  unfold says. change (lit "says(" ++ kd ++ lit "," ++ c ++ lit ")")
    with (lit "says(" ++ (kd ++ (lit "," ++ (c ++ lit ")")))).
  intros [H|[H|[H ?]]]%occurs_app_two; [| |done].
  { revert H. apply search_None. reflexivity. }
  apply occurs_app_two in H as [H|[H|[H ?]]].
  - revert H. by apply occurs_two_absent.
  - apply occurs_two_inv in H as [[? ?]|H]; [done|].
    apply occurs_app_two in H as [H|[H|[? ?]]]; [done| |done].
    revert H. apply search_None. reflexivity.
  - apply Hk. apply last_Some in H as [l ->]. set_solver.
Qed.

(** The head of a statement hides no arrow. *)
Lemma says_head_no_arrow kd h :
  ":"%char ∉ kd → ¬ occurs arrow h → ¬ occurs arrow (says kd h).
Proof.
  intros Hk Hh. unfold says.
  intros [H|[H|[H ?]]]%occurs_app_two; [| |done].
  { revert H. apply search_None. reflexivity. }
  apply occurs_app_two in H as [H|[H|[? ?]]]; [by apply occurs_two_absent in H| |done].
  apply occurs_two_inv in H as [[? ?]|H]; [done|].
  apply occurs_app_two in H as [H|[H|[? ?]]]; [done| |done].
  revert H. apply search_None. reflexivity.
Qed.

Lemma find_arrow h b :
  ¬ occurs arrow h → find (h ++ arrow ++ b) (lit ":-") = len h.
Proof. intros H. apply find_Some. by apply search_two. Qed.

(** ** Properties: binder statements *)

(** A fact [f.] becomes the statement [says(K,f).] of the principal [K] of the
    policy, and is added to the facts of the policy and nowhere else. *)
Theorem transformClause_fact f p :
  str_ok (f ++ lit ".") → ¬ occurs arrow (f ++ lit ".") →
  transformClause (f ++ lit ".") p
  = Ok (says (Policy.keyDigest p) f ++ lit ".",
        mkPolicy (Policy.policyStr p) (Policy.keyDigest p)
          (facts p ++ [says (Policy.keyDigest p) f ++ lit "."]) (rules p)).
Proof.
  intros Hok Hn. unfold transformClause.
  apply find_npos in Hn as Hf; [|done]. change (lit ":-") with arrow. rewrite Hf.
  rewrite bool_decide_eq_false_2 by auto.
  rewrite u64_small by len_lia. rewrite substr_app_l by len_lia.
  cbn [mbind outcome_bind]. unfold addFact, says.
  by rewrite <-!app_assoc.
Qed.

Lemma transformClause_fact_witness :
  transformClause (lit "employee(bob)" ++ lit ".") (mkPolicy [] (lit "rsa_1f") [] [])
  = Ok (lit "says(rsa_1f,employee(bob)).",
        mkPolicy [] (lit "rsa_1f") [lit "says(rsa_1f,employee(bob))."] []).
Proof.
  apply (transformClause_fact (lit "employee(bob)") (mkPolicy [] (lit "rsa_1f") [] [])).
  - done.
  - apply search_None. reflexivity.
Defined.

(** A rule whose body does not contain its head is translated literal by
    literal: its head and each of its body literals become statements of the
    principal [K], and the policy gains exactly the rule with those parts. *)
Theorem transformClause_rule h preds p :
  let K := Policy.keyDigest p in
  let t := says K h ++ arrow ++ join (lit ",") (map (says K) preds) ++ lit "." in
  str_ok (h ++ arrow ++ join (lit ",") preds ++ lit ".") → str_ok t →
  ¬ occurs arrow h → preds ≠ [] → Forall literal_ok preds →
  ":"%char ∉ K → ")"%char ∉ K →
  ¬ occurs h (join (lit ",") preds ++ lit ".") →
  transformClause (h ++ arrow ++ join (lit ",") preds ++ lit ".") p
  = Ok (t, mkPolicy (Policy.policyStr p) K (facts p)
             (rules p ++ [mkRule (says K h) (join (lit ",") (map (says K) preds) ++ lit ".")
                            t (map (says K) preds)])).
Proof.
  intros K t Hok Hokt Hh Hne Hp Hk1 Hk2 Hq.
  assert (Hr : Rule_of t = Ok (mkRule (says K h)
    (join (lit ",") (map (says K) preds) ++ lit ".") t (map (says K) preds))).
  { apply Rule_of_parts_spec; auto using says_head_no_arrow; [by destruct preds|].
    apply Forall_map. eapply Forall_impl; [done|]. intros c (q & -> & Hc).
    by apply says_literal_ok. }
  unfold transformClause. rewrite find_arrow by done.
  rewrite bool_decide_eq_true_2 by (unfold npos; len_lia).
  rewrite Rule_of_parts_spec by done. cbn [mbind outcome_bind body head].
  apply find_npos in Hq as ->; [|len_lia]. rewrite bool_decide_eq_false_2 by auto.
  unfold getClauses. cbn [Rule.clauses]. rewrite bool_decide_eq_false_2
    by (destruct preds; [done|cbn; lia]).
  cbn [mbind outcome_bind]. rewrite transform_body_join by done.
  assert ((lit "says(" ++ Policy.keyDigest p) ++ lit "," ++ h ++ lit "):-" ++
    join (lit ",") (map (says (Policy.keyDigest p)) preds) ++ lit "." = t) as ->.
  { unfold t, K, says. change (lit "):-") with (lit ")" ++ arrow). by rewrite <-!app_assoc. }
  rewrite Hr. cbn [mbind outcome_bind]. unfold addRule. rewrite Hr. done.
Qed.

Lemma transformClause_rule_witness :
  transformClause (lit "allow(X,read):-employee(X),ok(X).") (mkPolicy [] (lit "rsa_1f") [] [])
  = Ok (lit "says(rsa_1f,allow(X,read)):-says(rsa_1f,employee(X)),says(rsa_1f,ok(X)).",
        mkPolicy [] (lit "rsa_1f") []
          [mkRule (lit "says(rsa_1f,allow(X,read))")
             (lit "says(rsa_1f,employee(X)),says(rsa_1f,ok(X)).")
             (lit "says(rsa_1f,allow(X,read)):-says(rsa_1f,employee(X)),says(rsa_1f,ok(X)).")
             [lit "says(rsa_1f,employee(X))"; lit "says(rsa_1f,ok(X))"]]).
Proof.
  apply (transformClause_rule (lit "allow(X,read)") [lit "employee(X)"; lit "ok(X)"]
           (mkPolicy [] (lit "rsa_1f") [] [])); try done;
    try (apply search_None; reflexivity);
    try (apply (bool_decide_unpack _); by vm_compute).
  repeat constructor; [exists (lit "employee(X")|exists (lit "ok(X")];
    (split; [reflexivity|apply search_None; reflexivity]).
Defined.

(** A rule whose body contains its head is taken to quote other principals
    already: only its head becomes a statement of the principal [K], and its
    body literals are left as they are. *)
Theorem transformClause_quoted h preds p :
  let K := Policy.keyDigest p in
  let b := join (lit ",") preds ++ lit "." in
  let t := says K h ++ arrow ++ b in
  str_ok (h ++ arrow ++ b) → str_ok t → ¬ occurs arrow h → preds ≠ [] →
  Forall literal_ok preds → ":"%char ∉ K → occurs h b →
  transformClause (h ++ arrow ++ b) p
  = Ok (t, mkPolicy (Policy.policyStr p) K (facts p)
             (rules p ++ [mkRule (says K h) b t preds])).
Proof.
  intros K b t Hok Hokt Hh Hne Hp Hk Hq.
  unfold transformClause. rewrite find_arrow by done.
  rewrite bool_decide_eq_true_2 by (unfold npos; len_lia). unfold b at 1.
  rewrite Rule_of_parts_spec by done. cbn [mbind outcome_bind body head].
  rewrite bool_decide_eq_true_2 by (intros H; apply find_npos in H; [done|unfold b in *; len_lia]).
  assert ((lit "says(" ++ Policy.keyDigest p) ++ lit "," ++ h ++ lit "):-" ++
    join (lit ",") preds ++ lit "." = t) as ->.
  { unfold t, K, says, b. change (lit "):-") with (lit ")" ++ arrow). by rewrite <-!app_assoc. }
  assert (Rule_of t = Ok (mkRule (says K h) b t preds)) as Hr.
  { apply Rule_of_parts_spec; auto using says_head_no_arrow. }
  cbn [mbind outcome_bind]. rewrite Hr. cbn [mbind outcome_bind].
  unfold addRule. rewrite Hr. done.
Qed.

Lemma transformClause_quoted_witness :
  transformClause (lit "employee(X):-says(rsa_2e,employee(X)).")
    (mkPolicy [] (lit "rsa_1f") [] [])
  = Ok (lit "says(rsa_1f,employee(X)):-says(rsa_2e,employee(X)).",
        mkPolicy [] (lit "rsa_1f") []
          [mkRule (lit "says(rsa_1f,employee(X))") (lit "says(rsa_2e,employee(X)).")
             (lit "says(rsa_1f,employee(X)):-says(rsa_2e,employee(X)).")
             [lit "says(rsa_2e,employee(X))"]]).
Proof.
  apply (transformClause_quoted (lit "employee(X)") [lit "says(rsa_2e,employee(X))"]
           (mkPolicy [] (lit "rsa_1f") [] [])); try done;
    try (apply search_None; reflexivity);
    try (apply (bool_decide_unpack _); by vm_compute).
  repeat constructor. exists (lit "says(rsa_2e,employee(X)").
  split; [reflexivity|apply search_None; reflexivity].
Defined.

(** ** Lemmas: digests *)

Definition hex_char (c : ascii) : Prop :=
  c ∈ lit "0123456789abcdef".
#[export] Instance hex_char_dec c : Decision (hex_char c).
Proof. unfold hex_char. apply _. Defined.

Lemma hex_digit_char n : (n < 16)%nat → hex_char (hex_digit n).
Proof.
  intros H. do 16 (destruct n as [|n]; [apply (bool_decide_unpack _); by vm_compute|]). lia.
Qed.

Lemma hex_char_ne c d : hex_char c → bool_decide (hex_char d) = false → c ≠ d.
Proof. intros Hc Hd ->. by apply bool_decide_eq_false in Hd. Qed.

Lemma hex_chars m : Forall hex_char (hex m).
Proof.
  induction m as [|b m IH]; [constructor|].
  change (hex (b :: m)) with (hex_byte b ++ hex m). unfold hex_byte.
  pose proof (nat_ascii_bounded b). apply Forall_app. split; [|done].
  rewrite !Forall_cons. split_and!; [apply hex_digit_char..|constructor].
  - apply Nat.Div0.div_lt_upper_bound. lia.
  - apply Nat.mod_upper_bound. lia.
Qed.

Lemma length_hex m : length (hex m) = (2 * length m)%nat.
Proof.
  induction m as [|b m IH]; [done|].
  change (hex (b :: m)) with (hex_byte b ++ hex m). rewrite length_app, IH. cbn. lia.
Qed.

Lemma hex_digit_inj a b :
  (a < 16)%nat → (b < 16)%nat → hex_digit a = hex_digit b → a = b.
Proof.
  intros Ha Hb. do 16 (destruct a as [|a]; [do 16 (destruct b as [|b]; [done|]); lia|]). lia.
Qed.

Lemma hex_byte_inj a b : hex_byte a = hex_byte b → a = b.
Proof.
  unfold hex_byte. intros H.
  assert (hex_digit (nat_of_ascii a / 16) = hex_digit (nat_of_ascii b / 16)) as H1 by congruence.
  assert (hex_digit (nat_of_ascii a mod 16) = hex_digit (nat_of_ascii b mod 16)) as H2
    by congruence.
  clear H. pose proof (nat_ascii_bounded a). pose proof (nat_ascii_bounded b).
  apply hex_digit_inj in H1; [|apply Nat.Div0.div_lt_upper_bound; lia..].
  apply hex_digit_inj in H2; [|apply Nat.mod_upper_bound; lia..].
  rewrite <-(ascii_nat_embedding a), <-(ascii_nat_embedding b). f_equal.
  rewrite (Nat.div_mod_eq (nat_of_ascii a) 16), (Nat.div_mod_eq (nat_of_ascii b) 16). lia.
Qed.

Lemma hex_inj m n : hex m = hex n → m = n.
Proof.
  revert n. induction m as [|a m IH]; intros [|b n] H; try done.
  change (hex_byte a ++ hex m = hex_byte b ++ hex n) in H.
  apply app_inj_1 in H as [H1 H2]; [|done]. apply hex_byte_inj in H1 as ->.
  by rewrite (IH _ H2).
Qed.


Lemma c_str_hex m : c_str (hex m) = hex m.
Proof.
  apply c_str_id. intros H. pose proof (hex_chars m) as Hm. rewrite Forall_forall in Hm.
  by apply (hex_char_ne nul nul (Hm _ H)).
Qed.

Section digests.
Context {O : OpenSSL} {L : OpenSSLLaws O}.

Lemma read_buf_all buf n :
  0 ≤ n ≤ len buf → read_buf buf n = Ok (take (Z.to_nat n) buf).
Proof.
  intros [H1 H2]. unfold read_buf.
  destruct (Z.ltb_spec n 0), (Z.ltb_spec (len buf) n); [lia..|done].
Qed.

Lemma decodeB64_ok s :
  3 * len s ≤ INT_MAX →
  ∃ buf, decodeB64 s (sint 32 (len s)) = Ok (buf, (b64_read s (len s)).1) ∧
         len buf = 3 * len s ∧
         take (length (b64_read s (len s)).2) buf = (b64_read s (len s)).2.
Proof.
  intros H. pose proof (len_nonneg s).
  rewrite sint_small by (unfold INT_MAX in H; lia).
  unfold decodeB64. rewrite int_op_ok by (unfold INT_MIN; lia). cbn [mbind outcome_bind].
  pose proof (b64_read_stored s (len s) ltac:(lia)) as Hs.
  destruct (b64_read s (len s)) as [n data]. cbn [fst snd] in *. eexists.
  split_and!; [done| |by rewrite take_app_length].
  rewrite len_app. unfold len in *. rewrite length_replicate. lia.
Qed.

Lemma digest_bytes m : read_buf (MD5 m ++ [nul]) MD5_DIGEST_LENGTH = Ok (MD5 m).
Proof.
  pose proof (MD5_length m). rewrite read_buf_all by (len_lia || (unfold MD5_DIGEST_LENGTH in *; len_lia)).
  rewrite take_app_le by (unfold MD5_DIGEST_LENGTH, len in *; lia).
  by rewrite take_ge by (unfold MD5_DIGEST_LENGTH, len in *; lia).
Qed.

Lemma getKeyDigest_ok pKey :
  3 * len pKey ≤ INT_MAX → 0 ≤ (b64_read pKey (len pKey)).1 →
  getKeyDigest pKey = Ok (lit "rsa_" ++ hex (MD5 (b64_read pKey (len pKey)).2)).
Proof.
  intros Hok Hr. unfold getKeyDigest.
  destruct (decodeB64_ok pKey Hok) as (buf & -> & Hb & Ht). cbn [mbind outcome_bind fst snd].
  pose proof (b64_read_stored pKey (len pKey) (len_nonneg _)) as Hs.
  assert ((b64_read pKey (len pKey)).1 = len (b64_read pKey (len pKey)).2) as Hn.
  { destruct (b64_read_ret pKey (len pKey)) as [H|[H H']]; [done|].
    rewrite H'. rewrite len_nil. lia. }
  pose proof (len_nonneg pKey) as Hp. unfold INT_MAX in Hok.
  unfold getMsgDigest_buf. rewrite u64_small, read_buf_all by lia.
  cbn [mbind outcome_bind]. rewrite Hn.
  replace (Z.to_nat (len (b64_read pKey (len pKey)).2))
    with (length (b64_read pKey (len pKey)).2) by (unfold len; lia).
  rewrite Ht, digest_bytes.
  cbn [mbind outcome_bind]. by rewrite c_str_hex.
Qed.

(** The principal of a public key. When the text of the key decodes to [d],
    [getKeyDigest] returns ["rsa_"] followed by the 32 lower case hexadecimal
    digits of the MD5 digest of [d]; the text has none of the characters that
    delimit binder statements, and two keys have the same principal only if
    their digests are equal. *)
Theorem getKeyDigest_spec pKey :
  3 * len pKey ≤ INT_MAX → 0 ≤ (b64_read pKey (len pKey)).1 →
  let d := (b64_read pKey (len pKey)).2 in
  getKeyDigest pKey = Ok (lit "rsa_" ++ hex (MD5 d)) ∧
  length (hex (MD5 d)) = 32%nat ∧ Forall hex_char (hex (MD5 d)) ∧
  Forall (λ c, c ∉ lit "rsa_" ++ hex (MD5 d)) (lit "(),.:") ∧
  ∀ pKey', 3 * len pKey' ≤ INT_MAX → 0 ≤ (b64_read pKey' (len pKey')).1 →
    getKeyDigest pKey' = getKeyDigest pKey → MD5 (b64_read pKey' (len pKey')).2 = MD5 d.
Proof.
  intros Hok Hr d. pose proof (hex_chars (MD5 d)) as Hh. rewrite Forall_forall in Hh.
  split_and!.
  - by apply getKeyDigest_ok.
  - rewrite length_hex. pose proof (MD5_length d). unfold len, MD5_DIGEST_LENGTH in *. lia.
  - apply hex_chars.
  - repeat constructor; rewrite elem_of_app; intros [H|H%Hh];
      revert H; apply (bool_decide_unpack _); by vm_compute.
  - intros pKey' Hok' Hr'. rewrite !getKeyDigest_ok by done.
    intros [= H]. apply hex_inj in H. done.
Qed.

(** A key text that [BIO_read] fails to decode has no principal: its
    return value -1 becomes the length of the text to digest, and the
    digest reads past the end of the buffer. *)
Theorem getKeyDigest_bad_key pKey :
  3 * len pKey ≤ INT_MAX → (b64_read pKey (len pKey)).1 = -1 →
  getKeyDigest pKey = Undef BadIndex.
Proof.
  intros Hok Hr. unfold getKeyDigest.
  destruct (decodeB64_ok pKey Hok) as (buf & -> & Hb & _). cbn [mbind outcome_bind fst snd].
  rewrite Hr. unfold getMsgDigest_buf, read_buf. unfold INT_MAX in Hok.
  change (u64 (-1)) with (2 ^ 64 - 1).
  destruct (Z.ltb_spec (len buf) (2 ^ 64 - 1)); [|lia]. by rewrite orb_true_r.
Qed.

End digests.

Lemma getKeyDigest_spec_witness :
  getKeyDigest (lit "AQAB") =
    Ok (lit "rsa_41514142303030303030303030303030").
Proof.
  destruct (getKeyDigest_spec (lit "AQAB")) as [H _]; [vm_compute; done..|].
  rewrite H. vm_compute. reflexivity.
Defined.

Lemma getKeyDigest_bad_key_witness : getKeyDigest (lit "no key?") = Undef BadIndex.
Proof. apply (getKeyDigest_bad_key (lit "no key?")); vm_compute; done. Defined.

(** ** Signatures *)

Section signatures.
Context {O : OpenSSL} {L : OpenSSLLaws O}.

(** The first [n] bytes of a decoded text, padded with NULs. *)
Definition padded (n : Z) (data : str) : str :=
  take (Z.to_nat n) (data ++ replicate (Z.to_nat n) nul).

Lemma take_padded n k data :
  (n ≤ length data + k)%nat →
  take n (data ++ replicate k nul) = take n (data ++ replicate n nul).
Proof.
  intros H. rewrite !take_app, !take_replicate. do 2 f_equal. lia.
Qed.

Lemma len_c_str s : len (c_str s) ≤ len s.
Proof. induction s as [|c s IH]; [done|]. cbn. case_bool_decide; len_lia. Qed.

Lemma getMsgDigest_spec m : getMsgDigest m = Ok (MD5 (c_str m) ++ [nul]).
Proof.
  unfold getMsgDigest, getMsgDigest_buf. rewrite read_buf_all by len_lia.
  cbn [mbind outcome_bind]. rewrite take_ge by (unfold len; lia). done.
Qed.

(** The key that a text holds, and a signature of a message under it: RSA verifies the
    digest of the message against the decoded bytes. *)
Definition key_of (pKey : str) : option RSA := mem_bio pKey ≫= pem_rsa_pubkey.
Definition signed_by (k : RSA) (sig msg : str) : Prop :=
  ∃ d md s, decodeB64 sig (sint 32 (len sig)) = Ok d ∧
    read_buf (MD5 (c_str msg) ++ [nul]) MD5_DIGEST_LENGTH = Ok md ∧
    read_buf d.1 (RSA_size k) = Ok s ∧ RSA_verify md s k = true.
(** What it takes to be accepted: none of the texts is empty, and the signature is one
    under the key, if the text of the key holds one. *)
Definition accepted_sig (pKey sig msg : str) : Prop :=
  pKey ≠ [] ∧ sig ≠ [] ∧ msg ≠ [] ∧
  match key_of pKey with Some k => signed_by k sig msg | None => True end.
Lemma verifySig_accepted pKey sig msg : verifySig pKey sig msg = Ok true ↔ accepted_sig pKey sig msg.
Proof.
  unfold verifySig, accepted_sig, key_of. rewrite getMsgDigest_spec.
  case_bool_decide; [split; [done|by intros []]|]. case_bool_decide; [split; [done|by intros (_ & [] & _)]|].
  case_bool_decide; [split; [done|by intros (_ & _ & [] & _)]|]. cbn [mbind outcome_bind].
  destruct (mem_bio pKey) as [bio|]; [|done]. cbn [mbind option_bind].
  destruct (pem_rsa_pubkey bio) as [k|]; [|done]. unfold signed_by. split.
  - intros Hv. destruct (decodeB64 _ _) as [d|?|?]; [|done..]. cbn [mbind outcome_bind] in Hv.
    destruct (read_buf _ MD5_DIGEST_LENGTH) as [md|?|?]; [|done..]. cbn [mbind outcome_bind] in Hv.
    destruct (read_buf d.1 _) as [x|?|?] eqn:Ex; [|done..]. injection Hv as Hv. split_and!; [done..|].
    by exists d, md, x.
  - intros (_ & _ & _ & d & md & x & -> & -> & Ex & Hv). cbn [mbind outcome_bind]. rewrite Ex.
    cbn [mbind outcome_bind]. by rewrite Hv.
Qed.

(** C6: the signature check with a readable public key. [verifySig] accepts
    exactly when RSA verifies, under that key, the MD5 digest of the message
    against the decoded signature; no byte is read outside a buffer as long as
    the modulus is not longer than the buffer of the decoded signature. *)
Theorem verifySig_spec pKey sig msg bio k :
  pKey ≠ [] → sig ≠ [] → msg ≠ [] → 3 * len sig ≤ INT_MAX →
  mem_bio pKey = Some bio → pem_rsa_pubkey bio = Some k →
  0 ≤ RSA_size k ≤ 3 * len sig →
  verifySig pKey sig msg =
    Ok (RSA_verify (MD5 (c_str msg)) (padded (RSA_size k) (b64_read sig (len sig)).2) k).
Proof.
  intros Hk Hs Hm Hok Hb Hp Hz. unfold verifySig.
  rewrite !bool_decide_eq_false_2 by done. rewrite getMsgDigest_spec.
  cbn [mbind outcome_bind]. rewrite Hb, Hp.
  pose proof (len_nonneg sig). rewrite sint_small by (unfold INT_MAX in Hok; lia).
  unfold decodeB64. rewrite int_op_ok by (unfold INT_MIN; lia). cbn [mbind outcome_bind].
  pose proof (b64_read_stored sig (len sig) ltac:(lia)) as Hl.
  destruct (b64_read sig (len sig)) as [n data]. cbn [fst snd mbind outcome_bind] in *.
  rewrite digest_bytes. cbn [mbind outcome_bind].
  rewrite read_buf_all.
  - cbn [mbind outcome_bind]. unfold padded. rewrite take_padded; [done|].
    unfold len in *. lia.
  - rewrite len_app. unfold len in *. rewrite length_replicate. lia.
Qed.

(** An empty key, signature or message is refused, and, against what the
    error message it prints says, a key that OpenSSL cannot parse is accepted:
    [verifySig] then reports any signature of any message as verified. *)
Theorem verifySig_no_key pKey sig msg bio :
  mem_bio pKey = Some bio → pem_rsa_pubkey bio = None →
  verifySig pKey sig msg = Ok (bool_decide (pKey ≠ [] ∧ sig ≠ [] ∧ msg ≠ [])).
Proof.
  intros Hb Hp. unfold verifySig. rewrite getMsgDigest_spec.
  cbn [mbind outcome_bind]. rewrite Hb, Hp.
  destruct pKey, sig, msg; done.
Qed.

End signatures.

Lemma verifySig_spec_witness :
  verifySig (lit "key") (lit "hello00000000000") (lit "hello") = Ok true.
Proof.
  rewrite (verifySig_spec (O:=sample_openssl) (lit "key") (lit "hello00000000000") (lit "hello") (lit "key") (lit "key"));
    vm_compute; done.
Defined.

Lemma verifySig_no_key_witness :
  verifySig (lit "bad") (lit "any signature") (lit "any message") = Ok true.
Proof.
  rewrite (verifySig_no_key (lit "bad") _ _ (lit "bad")); vm_compute; done.
Defined.

(** ** Credentials *)

Section credentials.
Context {O : OpenSSL}.

Lemma transformClause_prefix cl p t p' :
  transformClause cl p = Ok (t, p') →
  (∃ rest, t = lit "says(" ++ Policy.keyDigest p ++ lit "," ++ rest) ∧
  Policy.keyDigest p' = Policy.keyDigest p ∧
  Policy.policyStr p' = Policy.policyStr p.
Proof.
  unfold transformClause, addRule, addFact. intros H.
  case_bool_decide.
  - destruct (Rule_of cl) as [r|?|?]; [|done..]. cbn [mbind outcome_bind] in H.
    case_bool_decide; [|destruct (getClauses r) as [[cs ?]|?|?]; [|done..]];
      cbn [mbind outcome_bind] in H; destruct (Rule_of (_ ++ _)) as [?|?|?];
      try done; cbn [mbind outcome_bind] in H; injection H as <- <-;
      (split; [eexists; symmetry; apply (app_assoc (lit "says("))|done]).
  - destruct (substr _ _ _) as [f|?|?]; [|done..]. cbn [mbind outcome_bind] in H.
    injection H as <- <-. split; [eexists; symmetry; apply (app_assoc (lit "says("))|done].
Qed.

(** A statement of the principal [kd]. *)
Definition stated_by (kd t : str) : Prop :=
  ∃ rest, t = lit "says(" ++ kd ++ lit "," ++ rest.

(** [c'] is [c] with one more statement of its own principal per clause. *)
Definition transformed (c c' : Certificate) : Prop :=
  ∃ kd ts, getKeyDigest (Certificate.pubKey c) = Ok kd ∧
    length ts = length (Certificate.clauses c) ∧ Forall (stated_by kd) ts ∧
    c' = mkCertificate (Certificate.clauses c) (transformedCls c ++ ts)
           (startTimeSec c) (stopTimeSec c) (startTime c) (stopTime c) (signature c)
           (Certificate.pubKey c) kd (certStr c).

Lemma transform_clauses_spec cls c p c' p' :
  transform_clauses cls c p = Ok (c', p') →
  Policy.policyStr p' = Policy.policyStr p ∧
  ∃ ts, length ts = length cls ∧ Forall (stated_by (Policy.keyDigest p)) ts ∧
    c' = mkCertificate (Certificate.clauses c) (transformedCls c ++ ts)
           (startTimeSec c) (stopTimeSec c) (startTime c) (stopTime c) (signature c)
           (Certificate.pubKey c) (Certificate.keyDigest c) (certStr c).
Proof.
  revert c p. induction cls as [|cl cls IH]; intros c p H; cbn in H.
  - injection H as <- <-. split; [done|]. exists []. rewrite app_nil_r. by destruct c.
  - destruct (transformClause cl p) as [[t q]|?|?] eqn:E; [|done..].
    cbn [mbind outcome_bind] in H.
    apply transformClause_prefix in E as (Ht & Hk & Hs).
    apply IH in H as (Hs' & ts & Hl & Hf & ->). split; [congruence|].
    exists (t :: ts). cbn. rewrite Hl, <-app_assoc. split_and!; [done| |done].
    constructor; [done|]. by rewrite <-Hk.
Qed.

(** The conditions under which one certificate is accepted. *)
Definition cert_ok (V : bool) (gmtoff now : Z) (c : Certificate) : Prop :=
  (V = true → valid_time gmtoff now c = Ok true) ∧
  accepted_sig (Certificate.pubKey c) (signature c) (certStr c).

Lemma verify_cert_spec V gmtoff now c p b c' p' :
  verify_cert V gmtoff now c p = Ok (b, c', p') →
  (b = true ↔ cert_ok V gmtoff now c) ∧
  (if b then transformed c c' else c' = c) ∧
  (Policy.policyStr <$> p') = (Policy.policyStr <$> p).
Proof.
  unfold verify_cert, cert_ok. rewrite <-verifySig_accepted. intros H.
  destruct (if V then valid_time gmtoff now c else Ok true) as [v|?|?] eqn:Ev; [|done..].
  cbn [mbind outcome_bind] in H.
  destruct (V && negb v) eqn:Evv.
  { injection H as <- <- <-. split_and!; [|done..].
    apply andb_true_iff in Evv as [-> ->%negb_true_iff].
    split; [done|]. intros [Hv _]. rewrite Hv in Ev by done. done. }
  destruct (verifySig _ _ _) as [[]|?|?] eqn:Es; [| |done..]; cbn [mbind outcome_bind] in H.
  - destruct (getKeyDigest _) as [kd|?|?] eqn:Ek; [|done..].
    destruct p as [p|]; [|done]. cbn [deref mbind outcome_bind] in H.
    destruct (transform_clauses _ _ _) as [[c1 p1]|?|?] eqn:Et; [|done..].
    cbn [mbind outcome_bind] in H. injection H as <- <- <-.
    apply transform_clauses_spec in Et as (Hp & ts & Hl & Hf & ->).
    split_and!; [|by exists kd, ts|by cbn; f_equal].
    split; [|done]. intros _. split; [|done]. intros ->. by destruct v.
  - injection H as <- <- <-. split_and!; [|done..]. naive_solver.
Qed.

Lemma verify_certs_spec V gmtoff cur l r p b l' p' :
  verify_certs V gmtoff cur l r p = Ok (b, l', p') →
  (b = true ↔ r = true ∧ ∀ i c, l !! i = Some c → cert_ok V gmtoff (cur i) c) ∧
  (∀ i c, l !! i = Some c → ∃ c', l' !! i = Some c' ∧
     (cert_ok V gmtoff (cur i) c ∧ transformed c c' ∨
      ¬ cert_ok V gmtoff (cur i) c ∧ c' = c)) ∧
  length l' = length l ∧ (Policy.policyStr <$> p') = (Policy.policyStr <$> p).
Proof.
  revert cur r p b l' p'. induction l as [|c l IH]; intros cur r p b l' p' H; cbn in H.
  { injection H as <- <- <-. naive_solver. }
  destruct (verify_cert _ _ _ _ _) as [[[b1 c1] p1]|?|?] eqn:E1; [|done..].
  cbn [mbind outcome_bind] in H.
  destruct (verify_certs _ _ _ _ _ _) as [[[b2 l2] p2]|?|?] eqn:E2; [|done..].
  cbn [mbind outcome_bind] in H. injection H as <- <- <-.
  apply verify_cert_spec in E1 as (Hb1 & Hc1 & Hp1).
  apply IH in E2 as (Hb2 & Hc2 & Hl2 & Hp2). split_and!; [| |cbn; congruence|congruence].
  - rewrite Hb2, andb_true_iff, Hb1. split.
    + intros [[Hr H0] H]. split; [done|].
      intros [|i] x Hx; [by injection Hx as <-|by apply H].
    + intros [Hr H]. split_and!; [done|by apply (H 0%nat)|].
      intros i x Hx. by apply (H (S i)).
  - intros [|i] x Hx; [|by apply Hc2]. injection Hx as <-. exists c1. split; [done|].
    destruct b1; [left; naive_solver|right]. split; [|done]. rewrite <-Hb1. done.
Qed.

(** C5: [verifyCredential] answers true exactly when every certificate of the
    credential is accepted: its times include the present, when the server
    validates times; its public key, signature and text are not empty; and, if its
    public key can be read, RSA verifies its signature of its text under that key.
    A certificate whose public key cannot be read is accepted with any signature, and
    a null credential, or one without certificates, is accepted. *)
Theorem verifyCredential_accepts V gmtoff cur pCred s b s' :
  verifyCredential V gmtoff cur pCred s = Ok (b, s') →
  (b = true ↔ ∀ c i x, pCred = Some c → certificates c !! i = Some x →
     cert_ok V gmtoff (cur i) x).
Proof.
  destruct pCred as [c|]; intros H; [|injection H as <- <-; naive_solver].
  unfold verifyCredential in H. destruct (getKeyDigest _) as [kd|?|?]; [|done..].
  cbn [mbind outcome_bind] in H.
  destruct (verify_certs _ _ _ _ _ _) as [[[b1 l1] p1]|?|?] eqn:E; [|done..].
  cbn [mbind outcome_bind] in H. injection H as <- <-.
  apply verify_certs_spec in E as (-> & _). cbn [certificates Credential.setKeyDigest].
  naive_solver.
Qed.

(** C9: the effect of [verifyCredential] on the service. It keeps the policy text,
    binds the credential to the principal of its own public key, and leaves
    the certificates in place, in order; an accepted certificate gains one
    statement per clause, each said by the principal of the certificate's own
    public key, and a refused certificate contributes no statement at all. *)
Theorem verifyCredential_statements V gmtoff cur c s b s' :
  verifyCredential V gmtoff cur (Some c) s = Ok (b, s') →
  (Policy.policyStr <$> policy s') = (Policy.policyStr <$> policy s) ∧
  ∃ kd l, getKeyDigest (Credential.pubKey c) = Ok kd ∧
    credPtr s' = Some (mkCredential (Credential.pubKey c) kd l) ∧
    length l = length (certificates c) ∧
    ∀ i x, certificates c !! i = Some x → ∃ x', l !! i = Some x' ∧
      (cert_ok V gmtoff (cur i) x ∧ transformed x x' ∨
       ¬ cert_ok V gmtoff (cur i) x ∧ x' = x).
Proof.
  unfold verifyCredential. intros H. destruct (getKeyDigest _) as [kd|?|?] eqn:Ek; [|done..].
  cbn [mbind outcome_bind] in H.
  destruct (verify_certs _ _ _ _ _ _) as [[[b1 l1] p1]|?|?] eqn:E; [|done..].
  cbn [mbind outcome_bind] in H. injection H as <- <-.
  apply verify_certs_spec in E as (_ & Hc & Hl & Hp). split; [done|].
  exists kd, l1. done.
Qed.

End credentials.

(** A credential with one certificate the sample library accepts. *)
Definition sample_cert : Certificate :=
  mkCertificate [lit "employee(bob)."] [] (Some 100) (Some 200) [] []
    (lit "employee(bob).00") (lit "alice") [] (lit "employee(bob).").
Definition sample_cred : Credential := mkCredential (lit "bob") [] [sample_cert].
Definition sample_service : SecurityService :=
  mkSecurityService [] (Some (mkPolicy [] [] [] [])) None.
Definition sample_verified : SecurityService :=
  mkSecurityService [] (Some (mkPolicy [] (lit "rsa_616c6963653030303030303030303030")
      [lit "says(rsa_616c6963653030303030303030303030,employee(bob))."] []))
    (Some (mkCredential (lit "bob") (lit "rsa_626f6230303030303030303030303030")
      [mkCertificate [lit "employee(bob)."]
         [lit "says(rsa_616c6963653030303030303030303030,employee(bob))."]
         (Some 100) (Some 200) [] [] (lit "employee(bob).00") (lit "alice")
         (lit "rsa_616c6963653030303030303030303030") (lit "employee(bob).")])).

Lemma sample_verifies :
  verifyCredential true 0 (λ _, 150) (Some sample_cred) sample_service
  = Ok (true, sample_verified).
Proof. vm_compute. reflexivity. Qed.

Lemma verifyCredential_accepts_witness :
  true = true ↔ ∀ c i x, Some sample_cred = Some c → certificates c !! i = Some x →
    cert_ok true 0 150 x.
Proof.
  apply (verifyCredential_accepts true 0 (λ _, 150) _ _ _ _ sample_verifies).
Defined.

Lemma verifyCredential_statements_witness :
  ∃ kd l, getKeyDigest (lit "bob") = Ok kd ∧
    credPtr sample_verified = Some (mkCredential (lit "bob") kd l).
Proof.
  destruct (verifyCredential_statements true 0 (λ _, 150) _ _ _ _ sample_verifies)
    as (_ & kd & l & H1 & H2 & _).
  exists kd, l. split; [exact H1|exact H2].
Defined.

(** The check of the times does not depend on the zone of the server. A
    certificate that [setCertificateStr] has finalised, with both times given
    as [datime] predicates, is valid exactly from its start time up to, and
    not including, its stop time, both read as UTC, on the clock of the
    server. *)
Theorem valid_time_zone gmtoff now c c' cur1 cur2 f1 f2 :
  setCertificateStr gmtoff cur1 cur2 c = Ok c' →
  startTime c = datime f1 → stopTime c = datime f2 → fields_ok f1 → fields_ok f2 →
  Forall (λ t, int_ok (tm_year (gmtime t)) = true)
    [now; timegm (fields_tm f1); timegm (fields_tm f2)] →
  valid_time gmtoff now c'
  = Ok (bool_decide (timegm (fields_tm f1) ≤ now < timegm (fields_tm f2))).
Proof.
  intros Hc H1 H2 Hf1 Hf2 H. rewrite !Forall_cons in H. destruct_and! H.
  rewrite (setCertificateStr_datime _ _ _ _ f1 f2) in Hc by done. injection Hc as <-.
  unfold valid_time. cbn [startTimeSec stopTimeSec init mbind outcome_bind].
  rewrite !mktime_utc, timegm_gmtime by (by rewrite ?timegm_gmtime).
  case_bool_decide as Ht; destruct (Z.leb_spec (timegm (fields_tm f1) - gmtoff) (now - gmtoff));
    [|lia|..]; cbn [init mbind outcome_bind];
    [destruct (Z.ltb_spec (now - gmtoff) (timegm (fields_tm f2) - gmtoff)); [done|lia]|
     destruct (Z.ltb_spec (now - gmtoff) (timegm (fields_tm f2) - gmtoff)); [lia|done]|done].
Qed.

Lemma valid_time_zone_witness :
  valid_time 7200 1330000000
    (mkCertificate [] [] (Some (1324274400 - 7200)) (Some (1355896800 - 7200))
      (lit "datime(2011,12,19,6,0,0).") (lit "datime(2012,12,19,6,0,0).") [] [] []
      (lit "datime(2011,12,19,6,0,0).datime(2012,12,19,6,0,0).")) = Ok true.
Proof.
  rewrite (valid_time_zone 7200 1330000000
    (mkCertificate [] [] None None (lit "datime(2011,12,19,6,0,0).")
      (lit "datime(2012,12,19,6,0,0).") [] [] [] []) _ 1 2
    (mkFields (lit "2011") (lit "12") (lit "19") (lit "6") (lit "0") (lit "0"))
    (mkFields (lit "2012") (lit "12") (lit "19") (lit "6") (lit "0") (lit "0")));
    [vm_compute; reflexivity|vm_compute; reflexivity|reflexivity|reflexivity
    |apply (bool_decide_unpack _); by vm_compute
    |apply (bool_decide_unpack _); by vm_compute
    |apply (bool_decide_unpack _); by vm_compute].
Defined.
