(* ===== verification/Query.v ===== *)
(** Queries and the binder file: the second half of [class SecurityService] of
    src/utils/SecurityService.h, and its thread procedure. *)
From S2P Require Import Prelude CppString Utils Policy Certificate Credential.
From S2P Require Import SecurityService.

(** ** Queries *)

(** The loop of [generateQuery] over the characters of the request. *)
Fixpoint scan_args (fuel : nat) (msg : str) (pos : Z) (tmp : str)
    (args : list str) : outcome (list str) :=
  match fuel with
  | O => Undef NoFuel
  | S fuel =>
      let more := bool_decide (pos ≠ len msg) in
      let pos := u64 (pos + 1) in
      if more && bool_decide (pos ≠ npos) then
        c ← char_at msg pos;
        if bool_decide ((c = ","%char ∧ tmp ≠ []) ∨ c = ")"%char) then
          scan_args fuel msg pos [] (args ++ [tmp])
        else if bool_decide (c ≠ "("%char ∧ c ≠ ")"%char) then
          scan_args fuel msg pos (tmp ++ [c]) args
        else scan_args fuel msg pos tmp args
      else Ok args
  end.

(** The loop that renders the arguments. *)
Fixpoint render_args (args : list str) : str :=
  match args with
  | [] => []
  | [a] => a
  | a :: args => a ++ lit "," ++ render_args args
  end.

(** [generateQuery]: the query, and the request that is passed by reference. *)
Definition generateQuery (msg : str) (s : SecurityService) : outcome (str * str) :=
  if bool_decide (msg ≠ []) then
    let idx := find msg (c_str END_CLIENT_REQUEST_S) in
    let pos := find_first_of msg (lit "request") in
    if bool_decide (idx ≠ npos ∧ pos ≠ npos) then
      msg ← substr msg pos (u64 (idx - pos));
      let pos := find_first_of msg (lit "(") in
      args ← scan_args (S (S (length msg))) msg pos [] [];
      c ← deref (credPtr s);
      Ok (lit "allow(" ++ Credential.keyDigest c ++ lit "," ++ render_args args
          ++ lit ").", msg)
    else Ok ([], msg)
  else Ok ([], msg).

(** The texts [fgets(line, MAX_LINE, f)] delivers, appended to a stream: each
    is read up to a new line or to [MAX_LINE - 1] characters, and shown up to
    its first NUL. *)
Fixpoint fgets (n : nat) (f : str) : str * str :=
  match n, f with
  | O, _ => ([], f)
  | _, [] => ([], [])
  | S n, c :: f =>
      if bool_decide (c = nl) then ([c], f)
      else let r := fgets n f in (c :: r.1, r.2)
  end.

Fixpoint read_lines (fuel : nat) (f ss : str) : outcome str :=
  match fuel with
  | O => Undef NoFuel
  | S fuel =>
      let '(line, f) := fgets (Z.to_nat (MAX_LINE - 1)) f in
      if bool_decide (line = []) then Ok ss else read_lines fuel f (ss ++ c_str line)
  end.

(** [executeQueryProc]: the new value of [qStats], from the output of the XSB
    process when [popen] succeeds. *)
Definition executeQueryProc (out : option str) (qStats : bool) : outcome bool :=
  match out with
  | Some f =>
      res ← read_lines (S (length f)) f [];
      let pos := find_last_of res (lit (String nl "")) in
      res ← (if bool_decide (pos ≠ npos) then substr res (u64 (pos - 3)) 3 else Ok res);
      Ok (if bool_decide (res = lit "yes") then true else qStats)
  | None => Ok qStats
  end.

(** The command line of a query. *)
Definition query_command (pQuery : str) : str :=
  c_str (lit "xsb --quietload --nobanner --noprompt -e " ++ ["034"%char] ++ lit "["
         ++ TMP_FILE_S ++ lit "]. " ++ pQuery ++ lit " halt." ++ ["034"%char]).

(** *** executeQuery

    The thread of the query and the thread that waits for it share [qStats].
    The query thread runs the query, sets [qStats] and exits. The caller polls
    [qStats] for at most a second, detaches the thread and sends it SIGKILL:
    a signal that ends the whole process when the thread still exists, and is
    refused when it is gone. *)
Inductive query_thread := Querying | Answered | Gone.
Inductive caller := Polling | Killing | Returning | Returned (retVal : bool) | Dead.

Record qstate : Type := mkQstate {
  qStats : bool;
  thread : query_thread;
  phase : caller
}.

Section query.
(** The output of the command, when it can be run. *)
Variable out : option str.

Inductive qstep : qstate → qstate → Prop :=
| qs_answer q ph q' :
    executeQueryProc out q = Ok q' → ph ≠ Dead →
    qstep (mkQstate q Querying ph) (mkQstate q' Answered ph)
| qs_terminate q ph e :
    executeQueryProc out q = Throw e → ph ≠ Dead →
    qstep (mkQstate q Querying ph) (mkQstate q Gone Dead)
| qs_exit q ph : ph ≠ Dead →
    qstep (mkQstate q Answered ph) (mkQstate q Gone ph)
| qs_poll th : qstep (mkQstate false th Polling) (mkQstate false th Polling)
| qs_leave q th : qstep (mkQstate q th Polling) (mkQstate q th Killing)
| qs_kill q th : th ≠ Gone →
    qstep (mkQstate q th Killing) (mkQstate q th Dead)
| qs_refused q : qstep (mkQstate q Gone Killing) (mkQstate q Gone Returning)
| qs_return q th : qstep (mkQstate q th Returning) (mkQstate q th (Returned q)).

(** The results of [executeQuery] on a query text; [created] is the success of
    [pthread_create]. *)
Inductive executeQuery (pQuery : str) (created : bool) : caller → Prop :=
| eq_empty : pQuery = [] → executeQuery pQuery created (Returned false)
| eq_not_created :
    pQuery ≠ [] → created = false → executeQuery pQuery created (Returned false)
| eq_run st : pQuery ≠ [] → created = true →
    rtc qstep (mkQstate false Querying Polling) st →
    executeQuery pQuery created (phase st).

End query.

(** ** The binder file *)

Definition binder_clauses (c : Certificate) : str :=
  concat (map (λ j, getTransformedCls j c ++ [nl]) (seq 0 (numTransformedCls c))).

(** The text the loops over certificates and their clauses write. *)
Fixpoint binder_certs (fuel i : nat) (c : Credential) : outcome str :=
  match fuel with
  | O => Ok []
  | S fuel =>
      x ← deref (getCertificate i c);
      rest ← binder_certs fuel (S i) c;
      Ok (binder_clauses x ++ rest)
  end.

(** [writeBinderFile]; [opened] is the success of [open], which truncates the
    file. The result has the contents of the file when it was opened. *)
Definition writeBinderFile (opened : bool) (s : SecurityService)
    : outcome (bool * option str) :=
  if opened then
    match credPtr s with
    | Some c =>
        p ← deref (policy s);
        certs ← binder_certs (numCertificates c) 0 c;
        Ok (true, Some (Policy.policyStr p ++ [nl]
                        ++ lit "/* Begin Transformed Rules */" ++ [nl] ++ certs))
    | None => Ok (false, Some [])
    end
  else Ok (false, None).

(** ** Lemmas: arguments of a request *)

(** The arguments in the text that follows the opening parenthesis. *)
Fixpoint split_args (rest tmp : str) (args : list str) : list str :=
  match rest with
  | [] => args
  | c :: rest =>
      if bool_decide ((c = ","%char ∧ tmp ≠ []) ∨ c = ")"%char) then
        split_args rest [] (args ++ [tmp])
      else if bool_decide (c ≠ "("%char ∧ c ≠ ")"%char) then
        split_args rest (tmp ++ [c]) args
      else split_args rest tmp args
  end.

Lemma char_at_end s : char_at s (len s) = Ok nul.
Proof.
  unfold char_at. pose proof (len_nonneg s).
  destruct (Z.ltb_spec (len s) 0); [lia|]. rewrite Z.ltb_irrefl. cbn [orb].
  unfold len. by rewrite Nat2Z.id, lookup_ge_None_2.
Qed.

Lemma scan_args_end fuel msg tmp args :
  str_ok msg → scan_args (S fuel) msg (len msg) tmp args = Ok args.
Proof.
  intros Hok. cbn [scan_args]. by rewrite bool_decide_eq_false_2 by auto.
Qed.

(** The loop, from the position before the text [rest]. *)
Lemma scan_args_split fuel msg pos a rest tmp args :
  str_ok msg → msg = a ++ rest → u64 (pos + 1) = len a → pos ≠ len msg →
  (length rest + 1 < fuel)%nat →
  scan_args fuel msg pos tmp args = Ok (split_args rest tmp args).
Proof.
  intros Hok. revert fuel pos a tmp args.
  induction rest as [|c rest IH]; intros fuel pos a tmp args -> Hpos Hne Hf;
    (destruct fuel as [|fuel]; [lia|]); cbn [scan_args]; rewrite Hpos;
    rewrite (bool_decide_eq_true_2 (pos ≠ _)) by done; cbn [andb];
    rewrite bool_decide_eq_true_2 by (unfold npos; len_lia).
  - rewrite app_nil_r in *. rewrite char_at_end. cbn [mbind outcome_bind length] in *.
    destruct fuel as [|fuel]; [lia|].
    rewrite (bool_decide_eq_false_2 (_ ∨ _)) by (intros [[]|]; done).
    rewrite bool_decide_eq_true_2 by done. by rewrite scan_args_end.
  - rewrite char_at_app. cbn [mbind outcome_bind length split_args] in *.
    assert (∀ tmp args, scan_args fuel (a ++ c :: rest) (len a) tmp args
      = Ok (split_args rest tmp args)) as Hs.
    { intros. apply (IH fuel _ (a ++ [c])); [by rewrite <-app_assoc| |len_lia|lia].
      rewrite u64_small by len_lia. len_lia. }
    case_tests; by rewrite Hs.
Qed.

Lemma split_args_word x rest tmp args :
  "("%char ∉ x → ","%char ∉ x → ")"%char ∉ x →
  split_args (x ++ rest) tmp args = split_args rest (tmp ++ x) args.
Proof.
  revert tmp. induction x as [|c x IH]; intros tmp H1 H2 H3; [by rewrite app_nil_r|].
  apply not_elem_of_cons in H1 as [? ?], H2 as [? ?], H3 as [? ?]. cbn [app split_args].
  rewrite bool_decide_eq_false_2 by (intros [[]|]; congruence).
  rewrite bool_decide_eq_true_2 by (split; congruence).
  rewrite IH by done. by rewrite <-app_assoc.
Qed.

Lemma split_args_tail rest tmp args :
  ","%char ∉ rest → ")"%char ∉ rest → split_args rest tmp args = args.
Proof.
  revert tmp. induction rest as [|c rest IH]; intros tmp H1 H2; [done|].
  apply not_elem_of_cons in H1 as [? ?], H2 as [? ?]. cbn [split_args].
  rewrite bool_decide_eq_false_2 by (intros [[]|]; congruence).
  case_tests; by apply IH.
Qed.

(** A request argument. *)
Definition arg_ok (x : str) : Prop :=
  x ≠ [] ∧ ("("%char ∉ x) ∧ (","%char ∉ x) ∧ (")"%char ∉ x).
#[export] Instance arg_ok_dec x : Decision (arg_ok x).
Proof. unfold arg_ok. apply _. Defined.

Lemma split_args_join xs post args :
  xs ≠ [] → Forall arg_ok xs → ","%char ∉ post → ")"%char ∉ post →
  split_args (join (lit ",") xs ++ lit ")" ++ post) [] args = args ++ xs.
Proof.
  intros Hne Hxs Hp1 Hp2. revert args. induction xs as [|x xs IH]; [done|]. intros args.
  apply Forall_cons in Hxs as [(Hx & H1 & H2 & H3) Hxs]. destruct xs as [|y xs].
  - cbn [join]. rewrite split_args_word by done. cbn [split_args lit app].
    change (lit ")" ++ post) with (")"%char :: post). cbn [split_args].
    rewrite bool_decide_eq_true_2 by (by right). by rewrite split_args_tail.
  - rewrite join_cons by done. rewrite <-!app_assoc, split_args_word by done.
    change (lit "," ++ ?r) with (","%char :: r). cbn [split_args app].
    rewrite bool_decide_eq_true_2 by (by left). rewrite IH by done.
    by rewrite <-app_assoc.
Qed.

Lemma render_args_join args : render_args args = join (lit ",") args.
Proof. by induction args as [|a [|b args] IH]; cbn in *; rewrite ?IH. Qed.

(** The loop on a whole text, from its first opening parenthesis or, when it
    has none, from its start. *)
Lemma scan_args_total msg :
  str_ok msg →
  ∃ args, scan_args (S (S (length msg))) msg (find_first_of msg (lit "(")) [] [] = Ok args ∧
    ∀ a rest, msg = a ++ lit "(" ++ rest → "("%char ∉ a → args = split_args rest [] [].
Proof.
  intros Hok. destruct (decide ("("%char ∈ msg)) as [H|H].
  - destruct (list_elem_of_split_l _ _ H) as (a & rest & -> & Ha).
    change (lit "(") with ["("%char]. rewrite find_first_of_char by done.
    exists (split_args rest [] []). split.
    + apply (scan_args_split _ _ _ (a ++ lit "(")); [done|by rewrite <-app_assoc| |len_lia|].
      * rewrite u64_small by len_lia. len_lia.
      * rewrite length_app. cbn. lia.
    + intros a' rest' He Ha'. change (["("%char] ++ rest') with ("("%char :: rest') in He.
      by destruct (split_first_inj _ _ _ _ _ He) as [-> ->].
  - change (lit "(") with ["("%char]. rewrite find_first_of_none by done.
    exists (split_args msg [] []). split.
    + apply (scan_args_split _ _ _ []); [done..| |lia]. unfold npos. len_lia.
    + intros a rest -> _. set_solver.
Qed.

(** ** Properties: queries *)

(** C37: a well formed request becomes the query that asks whether the policy
    allows the authenticated principal what it asks for. For a request
    [pre ( a1 , ... , an ) post END rest], with no parenthesis or comma in the
    arguments, no opening parenthesis before them and no comma or closing
    parenthesis between them and the terminator, [generateQuery] returns
    [allow(K,a1,...,an).] with the digest [K] of the verified credential. *)
Theorem generateQuery_request pre args post rest c s :
  let msg := pre ++ lit "request(" ++ join (lit ",") args ++ lit ")" ++ post
             ++ END_CLIENT_REQUEST_S ++ rest in
  str_ok msg →
  find msg END_CLIENT_REQUEST_S
    = len (pre ++ lit "request(" ++ join (lit ",") args ++ lit ")" ++ post) →
  "("%char ∉ pre → args ≠ [] → Forall arg_ok args →
  ","%char ∉ post → ")"%char ∉ post → credPtr s = Some c →
  ∃ msg', generateQuery msg s =
    Ok (lit "allow(" ++ Credential.keyDigest c ++ lit "," ++ join (lit ",") args ++ lit ").",
        msg').
Proof.
  intros msg Hok Hend Hpre Hne Hargs Hp1 Hp2 Hc.
  unfold generateQuery. rewrite bool_decide_eq_true_2 by (unfold msg; by destruct pre).
  change (c_str END_CLIENT_REQUEST_S) with END_CLIENT_REQUEST_S. rewrite Hend.
  destruct (find_first_of_le (lit "request") pre "r"%char
    (lit "equest(" ++ join (lit ",") args ++ lit ")" ++ post ++ END_CLIENT_REQUEST_S ++ rest))
    as (a & b & Hab & Hpos); [apply (bool_decide_unpack _); by vm_compute|].
  change (find_first_of msg (lit "request") = len a) in Hpos. rewrite Hpos.
  rewrite bool_decide_eq_true_2
    by (unfold msg, npos in *; subst pre; split; len_lia).
  set (q := join (lit ",") args ++ lit ")" ++ post) in *.
  assert (msg = a ++ (b ++ lit "request(" ++ q) ++ END_CLIENT_REQUEST_S ++ rest) as Hmsg.
  { unfold msg, q. rewrite Hab. by rewrite <-!app_assoc. }
  rewrite Hmsg in Hok |- *. clear Hend Hpos Hmsg.
  rewrite substr_app_mid; [|done|subst pre; rewrite u64_small; len_lia].
  cbn [mbind outcome_bind].
  destruct (scan_args_total (b ++ lit "request(" ++ q)) as (xs & -> & Hxs).
  { len_lia. }
  cbn [mbind outcome_bind]. rewrite Hc. cbn [deref mbind outcome_bind].
  rewrite render_args_join, (Hxs (b ++ lit "request") q).
  - unfold q. rewrite split_args_join by done. by eexists.
  - by rewrite <-app_assoc.
  - rewrite not_elem_of_app. split; [set_solver|apply (bool_decide_unpack _); by vm_compute].
Qed.

Lemma generateQuery_request_witness :
  ∃ msg', generateQuery
    (lit "-----BEGIN REPOSITORY CLIENT REQUEST-----" ++ [nl] ++ lit "request(read,file1)."
     ++ [nl] ++ lit "-----END REPOSITORY CLIENT REQUEST-----" ++ [nl]) sample_verified
  = Ok (lit "allow(rsa_626f6230303030303030303030303030,read,file1).", msg').
Proof.
  apply (generateQuery_request (lit "-----BEGIN REPOSITORY CLIENT REQUEST-----" ++ [nl])
           [lit "read"; lit "file1"] (lit "." ++ [nl]) [nl]
           (mkCredential (lit "bob") (lit "rsa_626f6230303030303030303030303030")
              [mkCertificate [lit "employee(bob)."]
                 [lit "says(rsa_616c6963653030303030303030303030,employee(bob))."]
                 (Some 100) (Some 200) [] [] (lit "employee(bob).00") (lit "alice")
                 (lit "rsa_616c6963653030303030303030303030") (lit "employee(bob).")]));
    [apply (bool_decide_unpack _); by vm_compute|vm_compute; reflexivity
    |apply (bool_decide_unpack _); by vm_compute|discriminate
    |apply (bool_decide_unpack _); by vm_compute..|reflexivity].
Defined.

(** [generateQuery] returns on every message. *)
Lemma generateQuery_ok msg s :
  str_ok msg → is_Some (credPtr s) →
  ∃ q msg', generateQuery msg s = Ok (q, msg') ∧
    (q = [] ↔ msg = [] ∨ ¬ occurs END_CLIENT_REQUEST_S msg
              ∨ find_first_of msg (lit "request") = npos).
Proof.
  intros Hok [c Hc]. unfold generateQuery. case_bool_decide as Hm.
  2:{ do 2 eexists. split; [done|]. destruct (decide (msg = [])); naive_solver. }
  change (c_str END_CLIENT_REQUEST_S) with END_CLIENT_REQUEST_S.
  pose proof (find_npos _ END_CLIENT_REQUEST_S Hok) as Hn. case_bool_decide as Hf.
  2:{ do 2 eexists. split; [done|]. split; [|done]. intros _.
      destruct (decide (find msg END_CLIENT_REQUEST_S = npos)); [naive_solver|].
      destruct (decide (find_first_of msg (lit "request") = npos)); naive_solver. }
  destruct Hf as [Hi Hp].
  assert (find_first_of msg (lit "request") ≤ len msg) as Hle.
  { unfold find_first_of in *. destruct (index_where _ msg) eqn:E; [|done].
    apply index_where_bound in E. cbn. unfold len. lia. }
  unfold substr. destruct (Z.ltb_spec (len msg) (find_first_of msg (lit "request"))); [lia|].
  cbn [mbind outcome_bind].
  match goal with |- context [scan_args _ ?m _ _ _] =>
    destruct (scan_args_total m) as (xs & -> & _) end.
  { unfold str_ok, len in *. rewrite length_take, length_drop. lia. }
  cbn [mbind outcome_bind]. rewrite Hc. cbn [deref mbind outcome_bind].
  do 2 eexists. split; [done|]. naive_solver.
Qed.

(** C38: once a credential has been verified, [generateQuery] never fails, whatever
    the client sends; it returns the empty text, which the server answers by
    denying, exactly when the request is empty, lacks the terminator, or has
    none of the letters of the word "request". *)
Theorem generateQuery_total msg s :
  str_ok msg → is_Some (credPtr s) →
  ∃ q msg', generateQuery msg s = Ok (q, msg') ∧
    (q = [] ↔ msg = [] ∨ ¬ occurs END_CLIENT_REQUEST_S msg
              ∨ find_first_of msg (lit "request") = npos).
Proof. apply generateQuery_ok. Qed.

Lemma generateQuery_total_witness :
  ∃ q msg', generateQuery (lit "anything at all") sample_verified = Ok (q, msg').
Proof.
  destruct (generateQuery_total (lit "anything at all") sample_verified)
    as (q & msg' & H & _);
    [apply (bool_decide_unpack _); by vm_compute|by eexists|by exists q, msg'].
Defined.

(** ** Lemmas: the output of XSB *)

Lemma fgets_spec n f : f = (fgets n f).1 ++ (fgets n f).2.
Proof.
  revert f. induction n as [|n IH]; intros [|c f]; cbn; [done..|].
  case_bool_decide; cbn; [done|]. by rewrite <-IH.
Qed.

Lemma fgets_nonempty n c f : (fgets (S n) (c :: f)).1 ≠ [].
Proof. cbn. by case_bool_decide. Qed.

(** The stream gets the output, when it has no NUL. *)
Lemma read_lines_id fuel f ss :
  (length f < fuel)%nat → nul ∉ f → read_lines fuel f ss = Ok (ss ++ f).
Proof.
  revert f ss. induction fuel as [|fuel IH]; intros f ss Hf Hn; [lia|].
  cbn [read_lines]. change (Z.to_nat (MAX_LINE - 1)) with 127%nat.
  pose proof (fgets_spec 127 f) as Hs.
  destruct f as [|c f]; [by rewrite app_nil_r|].
  pose proof (fgets_nonempty 126 c f) as Hne.
  destruct (fgets 127 (c :: f)) as [line rest]. cbn [fst snd] in *.
  rewrite bool_decide_eq_false_2 by done. rewrite Hs in Hn |- *.
  rewrite Hs in Hf. rewrite length_app in Hf.
  rewrite c_str_id by set_solver. rewrite IH; [by rewrite <-app_assoc| |set_solver].
  destruct line; [done|]. cbn in Hf. lia.
Qed.

Lemma find_last_of_char x a b :
  x ∉ b → find_last_of (a ++ x :: b) [x] = len a.
Proof.
  intros H. unfold find_last_of.
  rewrite reverse_app, reverse_cons, <-app_assoc. cbn [app].
  rewrite index_where_app by (by rewrite elem_of_reverse).
  unfold len. rewrite length_app, length_reverse. cbn. lia.
Qed.

(** The answer read from XSB. When the output has no NUL and its last new
    line is preceded by three characters, these decide: the flag is raised when
    they are "yes" and kept otherwise; when fewer than three characters precede
    the last new line, the thread ends with an uncaught [std::out_of_range]. *)
Theorem executeQueryProc_answer a b qStats :
  str_ok (a ++ [nl] ++ b) → nul ∉ a ++ [nl] ++ b → nl ∉ b →
  executeQueryProc (Some (a ++ [nl] ++ b)) qStats =
    if decide (3 ≤ length a)%nat
    then Ok (bool_decide (drop (length a - 3) a = lit "yes") || qStats)
    else Throw OutOfRange.
Proof.
  intros Hok Hn Hb. unfold executeQueryProc. rewrite read_lines_id by (done || lia).
  cbn [app mbind outcome_bind]. change (lit (String nl "")) with [nl].
  rewrite find_last_of_char by done.
  rewrite bool_decide_eq_true_2 by (unfold npos; len_lia).
  destruct (decide _) as [H|H].
  - rewrite u64_small by (unfold str_ok, len in *; rewrite length_app in *; cbn in *; lia).
    rewrite <-(take_drop (length a - 3) a) at 1. rewrite <-app_assoc.
    rewrite substr_app_mid.
    + cbn [mbind outcome_bind]. by repeat case_bool_decide.
    + unfold len. rewrite length_take. lia.
    + unfold len. rewrite length_drop. lia.
  - replace (u64 (len a - 3)) with (2 ^ 64 + len a - 3).
    + unfold substr. destruct (Z.ltb_spec (len (a ++ nl :: b)) (2 ^ 64 + len a - 3)); [done|].
      exfalso. unfold str_ok, len in *. rewrite !length_app in *. cbn in *. lia.
    + unfold u64, len. apply (Z.mod_unique_pos _ _ (-1)); lia.
Qed.

Lemma executeQueryProc_answer_witness :
  executeQueryProc (Some (lit "XSB says: yes" ++ [nl] ++ [])) false = Ok true ∧
  executeQueryProc (Some (lit "no" ++ [nl] ++ [])) false = Throw OutOfRange.
Proof.
  split; rewrite executeQueryProc_answer;
    first [apply (bool_decide_unpack _); by vm_compute | vm_compute; reflexivity].
Defined.

(** ** The protocol between the query thread and its caller *)

Section query_props.
Variable out : option str.

(** What the flag and the phases say about each other in every reachable
    state. *)
Definition qinv (st : qstate) : Prop :=
  match phase st with
  | Dead => True
  | Returning | Returned _ =>
      thread st = Gone ∧ executeQueryProc out false = Ok (qStats st) ∧
      match phase st with Returned b => b = qStats st | _ => True end
  | Polling | Killing =>
      match thread st with
      | Querying => qStats st = false
      | Answered | Gone => executeQueryProc out false = Ok (qStats st)
      end
  end.

Lemma qinv_step st st' : qinv st → qstep out st st' → qinv st'.
Proof.
  intros Hi Hs. destruct Hs; unfold qinv in *; cbn in *; try done;
    try (destruct ph; naive_solver); naive_solver.
Qed.

Lemma qinv_reachable st :
  rtc (qstep out) (mkQstate false Querying Polling) st → qinv st.
Proof.
  intros H. assert (qinv (mkQstate false Querying Polling)) as Hi by done.
  induction H as [|x y z Hs _ IH]; [done|]. apply IH. by eapply qinv_step.
Qed.

(** C7: [executeQuery] grants only what XSB answered. In every interleaving of
    the two threads, a value returned for a query is false for an empty query
    or a thread that was not created, and otherwise the answer of the query
    thread, which has run to its end. *)
Theorem executeQuery_sound pQuery created b :
  executeQuery out pQuery created (Returned b) →
  if decide (pQuery ≠ [] ∧ created = true)
  then executeQueryProc out false = Ok b else b = false.
Proof.
  intros H. inversion H as [| |st Hq Hc Hr Hp]; subst.
  - rewrite decide_False; naive_solver.
  - rewrite decide_False; naive_solver.
  - rewrite decide_True by done. apply qinv_reachable in Hr. unfold qinv in Hr.
    rewrite Hp in Hr. naive_solver.
Qed.

(** C39: the race at the end of a query. Whatever XSB answers, there is an
    interleaving in which the process is killed instead of returning; this
    includes the one in which the flag is already set and the thread is about
    to exit. *)
Theorem executeQuery_killed pQuery q :
  pQuery ≠ [] → executeQueryProc out false = Ok q →
  rtc (qstep out) (mkQstate false Querying Polling) (mkQstate q Answered Dead) ∧
  executeQuery out pQuery true Dead ∧ executeQuery out pQuery true (Returned q).
Proof.
  intros Hq Ho.
  assert (rtc (qstep out) (mkQstate false Querying Polling) (mkQstate q Answered Killing)) as Hk.
  { eapply rtc_l; [by apply qs_answer|]. apply rtc_once, qs_leave. }
  assert (rtc (qstep out) (mkQstate false Querying Polling) (mkQstate q Answered Dead)) as Hd.
  { eapply rtc_r; [done|]. by apply qs_kill. }
  split_and!; [done|by apply (eq_run out _ _ _ Hq eq_refl) in Hd|].
  apply (eq_run out _ _ (mkQstate q Gone (Returned q)) Hq eq_refl).
  etrans; [exact Hk|].
  eapply rtc_l; [by apply qs_exit|]. eapply rtc_l; [by apply qs_refused|].
  apply rtc_once, qs_return.
Qed.

End query_props.

Lemma executeQuery_sound_witness :
  executeQueryProc (Some (lit "yes" ++ [nl])) false = Ok true.
Proof.
  apply (executeQuery_sound (Some (lit "yes" ++ [nl])) (lit "allow(k,read,f).") true true).
  apply (eq_run _ _ _ (mkQstate true Gone (Returned true))); [done|done|].
  eapply rtc_l; [apply qs_answer; vm_compute; done|].
  eapply rtc_l; [by apply qs_exit|]. eapply rtc_l; [by apply qs_leave|].
  eapply rtc_l; [by apply qs_refused|]. apply rtc_once, qs_return.
Defined.

Lemma executeQuery_killed_witness :
  executeQuery (Some (lit "yes" ++ [nl])) (lit "allow(k,read,f).") true Dead.
Proof.
  apply (executeQuery_killed (Some (lit "yes" ++ [nl])) (lit "allow(k,read,f).") true);
    [done|vm_compute; reflexivity].
Defined.

(** ** The binder file *)

Lemma binder_clauses_spec c :
  binder_clauses c = concat (map (λ t, t ++ [nl]) (transformedCls c)).
Proof.
  unfold binder_clauses, numTransformedCls, getTransformedCls. f_equal.
  apply list_eq. intros i. rewrite !list_lookup_fmap.
  destruct (decide (i < length (transformedCls c))%nat) as [H|H].
  - rewrite lookup_seq_lt by done. cbn.
    destruct (Nat.leb_spec (length (transformedCls c)) i); [lia|].
    apply lookup_lt_is_Some_2 in H as [t ->]. done.
  - rewrite lookup_seq_ge by lia. by rewrite lookup_ge_None_2 by lia.
Qed.

Lemma binder_certs_spec c fuel i :
  (i + fuel = length (certificates c))%nat →
  binder_certs fuel i c = Ok (concat (map binder_clauses (drop i (certificates c)))).
Proof.
  revert i. induction fuel as [|fuel IH]; intros i Hi; cbn [binder_certs].
  - rewrite drop_ge by lia. done.
  - unfold getCertificate. destruct (Nat.leb_spec (length (certificates c)) i); [lia|].
    destruct (lookup_lt_is_Some_2 (certificates c) i) as [x Hx]; [lia|].
    rewrite Hx. cbn [deref mbind outcome_bind]. rewrite IH by lia.
    cbn [mbind outcome_bind]. by rewrite (drop_S _ _ _ Hx).
Qed.

Lemma binder_clauses_concat l :
  concat (map binder_clauses l)
  = concat (map (λ t, t ++ [nl]) (concat (map transformedCls l))).
Proof.
  induction l as [|x l IH]; [done|].
  cbn [map concat]. by rewrite map_app, concat_app, IH, binder_clauses_spec.
Qed.

(** The binder file. With a policy and a credential in place and the file
    opened, [writeBinderFile] succeeds and the file holds the policy text, a
    comment line, and then every statement of every certificate, one per line,
    in order; without a credential the file is left empty and the call fails. *)
Theorem writeBinderFile_contents s p c :
  policy s = Some p → credPtr s = Some c →
  writeBinderFile true s =
    Ok (true, Some (Policy.policyStr p ++ [nl] ++ lit "/* Begin Transformed Rules */" ++ [nl]
         ++ concat (map (λ t, t ++ [nl]) (concat (map transformedCls (certificates c)))))) ∧
  writeBinderFile true (mkSecurityService (policyStr s) (policy s) None) = Ok (false, Some []) ∧
  writeBinderFile false s = Ok (false, None).
Proof.
  intros Hp Hc. split_and!; [|done..].
  unfold writeBinderFile, numCertificates. rewrite Hc, Hp. cbn [deref mbind outcome_bind].
  rewrite binder_certs_spec by done. cbn [mbind outcome_bind]. rewrite drop_0.
  by rewrite binder_clauses_concat.
Qed.

Lemma writeBinderFile_contents_witness :
  writeBinderFile true sample_verified =
    Ok (true, Some ([nl] ++ lit "/* Begin Transformed Rules */" ++ [nl]
      ++ lit "says(rsa_616c6963653030303030303030303030,employee(bob))." ++ [nl])).
Proof.
  destruct (writeBinderFile_contents sample_verified
    (mkPolicy [] (lit "rsa_616c6963653030303030303030303030")
      [lit "says(rsa_616c6963653030303030303030303030,employee(bob))."] []) _
    eq_refl eq_refl) as [H _].
  exact H.
Defined.
