(* ===== verification/AstWalker.v ===== *)
(** The construction of credentials from the syntax tree: [class AstWalker] of
    src/manager/AstWalker.h. *)
From S2P Require Import Prelude CppString Utils Certificate Credential.

(** The tree as the walker sees it: the text of the root and of its
    children; a child has no children of its own. *)
Record ast : Type := mkAst {
  root : str;
  children : list str
}.

(** The members that change: the string stream and the label. *)
Record walker : Type := mkWalker {
  sstr : str;
  label : str
}.

Section walk.
(** The tree, and a bound on the steps of each loop. *)
Variable tree : ast.
Variable fuel : nat.

(** The constructor counts the children. *)
Definition numChildren : Z := Z.of_nat (length (children tree)).

(** [getChildStr]: the text of a child, which is left in the stream; a null child
    has the empty text. *)
Definition child_str (pIdx : Z) : str :=
  default [] (children tree !! Z.to_nat (u32 pIdx)).
Definition getChildStr (pIdx : Z) (w : walker) : str * walker :=
  let s := child_str pIdx in (s, mkWalker s (label w)).

Definition set_label (l : str) (w : walker) : walker := mkWalker (sstr w) l.

(** [getClauseStr]: the texts up to and including the next full stop, and the
    index after it. *)
Fixpoint getClauseStr_loop (fuel : nat) (pIdx : Z) (retVal : str) (w : walker)
    : outcome (str * Z * walker) :=
  match fuel with
  | O => Undef NoFuel
  | S fuel =>
      let '(s, w) := getChildStr pIdx w in
      let retVal := retVal ++ s in
      let '(s, w) := getChildStr pIdx w in
      pIdx ← int_op (pIdx + 1);
      if bool_decide (s ≠ lit ".") then getClauseStr_loop fuel pIdx retVal w
      else Ok (retVal, pIdx, w)
  end.
Definition getClauseStr (pIdx : Z) (w : walker) : outcome (str * Z * walker) :=
  getClauseStr_loop fuel pIdx [] w.

(** The loop over the clauses of a certificate. *)
Fixpoint clauses_loop (n : nat) (c : Certificate) (pIdx : Z) (w : walker)
    : outcome (Certificate * Z * walker) :=
  match n with
  | O => Undef NoFuel
  | S n =>
      let '(s, w) := getChildStr pIdx w in
      if bool_decide (s ≠ START_TIME_S) then
        '(cl, pIdx, w) ← getClauseStr pIdx w;
        clauses_loop n (addClause cl c) pIdx w
      else Ok (c, pIdx, w)
  end.

(** The two loops that read up to a marker, consuming it, and append every text
    before it on a line of its own. *)
Fixpoint lines_loop (n : nat) (stop : str) (acc : str) (pIdx : Z) (w : walker)
    : outcome (str * Z * walker) :=
  match n with
  | O => Undef NoFuel
  | S n =>
      let '(s, w) := getChildStr pIdx w in
      pIdx ← int_op (pIdx + 1);
      if bool_decide (s ≠ stop) then lines_loop n stop (acc ++ [nl] ++ sstr w) pIdx w
      else Ok (acc, pIdx, w)
  end.

(** The body of the loop of [makeCertificate] for the label just read. *)
Definition certificate_step (c : Certificate) (pIdx : Z) (w : walker)
    : outcome (Certificate * Z * walker) :=
  let w := set_label (sstr w) w in
  if bool_decide (label w = CLAUSE_S) then clauses_loop fuel c pIdx w
  else if bool_decide (label w = START_TIME_S) then
    '(s, pIdx, w) ← getClauseStr pIdx w; Ok (appendToStartTime s c, pIdx, w)
  else if bool_decide (label w = STOP_TIME_S) then
    '(s, pIdx, w) ← getClauseStr pIdx w; Ok (appendToStopTime s c, pIdx, w)
  else if bool_decide (label w = PK_HEADER_S) then
    '(s, pIdx, w) ← lines_loop fuel SIG_S (label w) pIdx w;
    Ok (Certificate.appendToPubKey s c, pIdx - 1, w)
  else if bool_decide (label w = SIG_S) then
    '(s, pIdx, w) ← lines_loop fuel END_SIG_S (label w) pIdx w;
    Ok (appendToSignature (s ++ [nl] ++ END_SIG_S) c, pIdx, w)
  else
    pIdx ← int_op (pIdx + 1); Ok (c, pIdx, w).

Fixpoint makeCertificate_loop (n : nat) (c : Certificate) (pIdx : Z) (w : walker)
    : outcome (Certificate * Z * walker) :=
  match n with
  | O => Undef NoFuel
  | S n =>
      if pIdx <? numChildren then
        let '(s, w) := getChildStr pIdx w in
        pIdx ← int_op (pIdx + 1);
        if bool_decide (s ≠ END_CERT_S) then
          '(c, pIdx, w) ← certificate_step c pIdx w;
          makeCertificate_loop n c pIdx w
        else Ok (c, pIdx, w)
      else Ok (c, pIdx, w)
  end.

(** [makeCertificate]: null for a null credential. *)
Definition makeCertificate (pCredential : option Credential) (pIdx : Z) (w : walker)
    : outcome (option Certificate * Z * walker) :=
  match pCredential with
  | None => Ok (None, pIdx, w)
  | Some _ =>
      '(c, pIdx, w) ← makeCertificate_loop fuel Certificate_new pIdx w;
      Ok (Some c, pIdx, w)
  end.

(** The loop that reads the public key of the credential, up to the first
    certificate. *)
Fixpoint pubkey_loop (n : nat) (c : Credential) (pIdx : Z) (w : walker)
    : outcome (Credential * Z * walker) :=
  match n with
  | O => Undef NoFuel
  | S n =>
      let '(s, w) := getChildStr pIdx w in
      if bool_decide (s ≠ CERT_S) then
        let '(s, w) := getChildStr pIdx w in
        pIdx ← int_op (pIdx + 1);
        pubkey_loop n (Credential.appendToPubKey ([nl] ++ s) c) pIdx w
      else Ok (c, pIdx, w)
  end.

Fixpoint makeCredential_loop (n : nat) (c : Credential) (pIdx : Z) (w : walker)
    : outcome (Credential * Z * walker) :=
  match n with
  | O => Undef NoFuel
  | S n =>
      if (pIdx <? numChildren) && bool_decide (label w ≠ END_S) then
        let '(_, w) := getChildStr pIdx w in
        pIdx ← int_op (pIdx + 1);
        let w := set_label (sstr w) w in
        if bool_decide (label w = PK_HEADER_S) then
          let c := Credential.appendToPubKey (label w) c in
          '(c, pIdx, w) ← pubkey_loop fuel c pIdx w;
          makeCredential_loop n c pIdx w
        else if bool_decide (label w = CERT_S) then
          '(cert, pIdx, w) ← makeCertificate (Some c) pIdx w;
          let c := addCertificate cert c in
          let '(_, w) := getChildStr (pIdx - 1) w in
          makeCredential_loop n c (pIdx - 1) (set_label (sstr w) w)
        else makeCredential_loop n c pIdx w
      else Ok (c, pIdx, w)
  end.

Definition makeCredential (pIdx : Z) (w : walker)
    : outcome (Credential * Z * walker) :=
  makeCredential_loop fuel Credential_new pIdx w.

(** [getCredential]: null unless the root is a credential. *)
Definition getCredential (gmtoff : Z) (cur : nat → Z) : outcome (option Credential) :=
  let w := mkWalker (root tree) [] in
  if bool_decide (sstr w = CREDENTIAL_S) then
    '(c, _, _) ← makeCredential 0 w;
    c ← finalize gmtoff cur c;
    Ok (Some c)
  else Ok None.

End walk.

(** ** The tree of a credential *)

(** The texts of the children for one certificate and for a credential, as the
    rewrite rules of the grammar lay them out. *)
Record cert_src : Type := mkCertSrc {
  s_clauses : list (list str);   (** the texts of each clause but its full stop *)
  s_start : list str;
  s_stop : list str;
  s_pk : list str;               (** the lines of the key *)
  s_sig : list str
}.

Definition stopped (l : list str) : list str := l ++ [lit "."].

Lemma length_concat_stopped l : (length l ≤ length (concat (map stopped l)))%nat.
Proof.
  induction l as [|x l IH]; [done|]. cbn. unfold stopped at 1. rewrite !length_app. cbn. lia.
Qed.

Definition cert_children (c : cert_src) : list str :=
  [CERT_S; CLAUSE_S] ++ concat (map stopped (s_clauses c))
  ++ [START_TIME_S] ++ stopped (s_start c) ++ [STOP_TIME_S] ++ stopped (s_stop c)
  ++ [PK_HEADER_S] ++ s_pk c ++ [PK_END_S]
  ++ [SIG_S] ++ s_sig c ++ [END_SIG_S] ++ [END_CERT_S].

Definition cred_children (pk : list str) (certs : list cert_src) : list str :=
  [PK_HEADER_S] ++ pk ++ [PK_END_S] ++ concat (map cert_children certs) ++ [END_S].

(** The text of a block of lines, with the markers that delimit it. *)
Definition block (header : str) (lines : list str) (footer : str) : str :=
  header ++ concat (map (λ l, ([nl] ++ l)) (lines ++ [footer])).

Definition cert_of (c : cert_src) : Certificate :=
  mkCertificate (map (λ cl, concat cl ++ lit ".") (s_clauses c)) [] None None
    (concat (s_start c) ++ lit ".") (concat (s_stop c) ++ lit ".")
    (block SIG_S (s_sig c) END_SIG_S) (block PK_HEADER_S (s_pk c) PK_END_S) [] [].

(** No text is one of the markers its loop looks for. *)
Definition cert_src_ok (c : cert_src) : Prop :=
  Forall (λ cl, (lit "." ∉ cl) ∧ hd_error cl ≠ Some START_TIME_S) (s_clauses c) ∧
  (lit "." ∉ s_start c) ∧ (lit "." ∉ s_stop c) ∧ (SIG_S ∉ s_pk c) ∧ (END_SIG_S ∉ s_sig c).

#[export] Instance cert_src_ok_dec c : Decision (cert_src_ok c).
Proof. unfold cert_src_ok. apply _. Defined.

(** ** Lemmas: reading the children in order *)

Section reading.
Context (tree : ast) (fuel : nat).
Hypothesis small : Z.of_nat (length (children tree)) < INT_MAX.
Hypothesis enough : (length (children tree) < fuel)%nat.

(** The children from index [i] on are [rest]. *)
Definition at_index (i : Z) (rest : list str) : Prop :=
  0 ≤ i ∧ ∃ done, children tree = done ++ rest ∧ i = Z.of_nat (length done).

Lemma at_child i x rest :
  at_index i (x :: rest) →
  child_str tree i = x ∧ int_op (i + 1) = Ok (i + 1) ∧ at_index (i + 1) rest ∧
  i < numChildren tree.
Proof.
  intros (Hi & l & Hl & ->). unfold INT_MAX in small. unfold numChildren.
  rewrite Hl in *. rewrite length_app in *. cbn [length] in *. split_and!.
  - unfold child_str. rewrite u32_small, Nat2Z.id, Hl, list_lookup_middle by lia. done.
  - apply int_op_ok. unfold INT_MIN, INT_MAX. lia.
  - split; [lia|]. exists (l ++ [x]). rewrite Hl, <-app_assoc. split; [done|].
    rewrite length_app. cbn. lia.
  - lia.
Qed.

Lemma at_length i rest : at_index i rest → (length rest < fuel)%nat.
Proof. intros (_ & l & Hl & _). rewrite Hl, length_app in enough. lia. Qed.

(** Read one child. *)
Ltac read H :=
  let Hc := fresh "Hc" in let Ho := fresh "Ho" in let Hn := fresh "Hn" in
  destruct (at_child _ _ _ H) as (Hc & Ho & Hn & ?);
  unfold getChildStr; cbv zeta beta iota; rewrite ?Hc, ?Ho;
  cbn [mbind outcome_bind label sstr];
  clear Hc Ho.

Lemma getClauseStr_at n toks rest i acc w :
  (length toks < n)%nat → at_index i (toks ++ lit "." :: rest) → lit "." ∉ toks →
  ∃ j, getClauseStr_loop tree n i acc w
       = Ok (acc ++ concat toks ++ lit ".", j, mkWalker (lit ".") (label w)) ∧
       at_index j rest.
Proof.
  revert n i acc w. induction toks as [|t toks IH]; intros n i acc w Hn Hi Hd;
    (destruct n as [|n]; [cbn in Hn; lia|]); cbn [getClauseStr_loop app] in *; read Hi.
  - rewrite bool_decide_eq_false_2 by auto. eexists. split; [reflexivity|done].
  - apply not_elem_of_cons in Hd as [Ht Hd].
    rewrite bool_decide_eq_true_2 by auto.
    destruct (IH n (i + 1) (acc ++ t) (mkWalker t (label w))) as (j & -> & Hj);
      [cbn in Hn; lia|done..|].
    exists j. split; [|done]. cbn [concat label]. by rewrite <-!app_assoc.
Qed.

Lemma lines_loop_at n stop ls rest i acc w :
  (length ls < n)%nat → at_index i (ls ++ stop :: rest) → stop ∉ ls →
  ∃ j, lines_loop tree n stop acc i w
       = Ok (acc ++ concat (map (λ l, [nl] ++ l) ls), j, mkWalker stop (label w)) ∧
       at_index j rest ∧ at_index (j - 1) (stop :: rest).
Proof.
  revert n i acc w. induction ls as [|t ls IH]; intros n i acc w Hn Hi Hd;
    (destruct n as [|n]; [cbn in Hn; lia|]); cbn [lines_loop app] in *; read Hi.
  - rewrite bool_decide_eq_false_2 by auto. rewrite app_nil_r.
    eexists. split_and!; [reflexivity|done|]. by replace (i + 1 - 1) with i by lia.
  - apply not_elem_of_cons in Hd as [Ht Hd].
    rewrite bool_decide_eq_true_2 by auto. cbn [sstr].
    destruct (IH n (i + 1) (acc ++ nl :: t) (mkWalker t (label w))) as (j & -> & Hj);
      [cbn in Hn; lia|done..|].
    exists j. split; [|done]. cbn [concat label map app]. by rewrite <-!app_assoc.
Qed.

Definition add_clauses (cls : list (list str)) (c : Certificate) : Certificate :=
  foldl (λ c cl, addClause (concat cl ++ lit ".") c) c cls.

Lemma clauses_loop_at n cls rest i c w :
  (length cls < n)%nat → at_index i (concat (map stopped cls) ++ START_TIME_S :: rest) →
  Forall (λ cl, (lit "." ∉ cl) ∧ hd_error cl ≠ Some START_TIME_S) cls →
  ∃ j, clauses_loop tree fuel n c i w
       = Ok (add_clauses cls c, j, mkWalker START_TIME_S (label w)) ∧
       at_index j (START_TIME_S :: rest).
Proof.
  revert n i c w. induction cls as [|cl cls IH]; intros n i c w Hn Hi Hd;
    (destruct n as [|n]; [cbn in Hn; lia|]); cbn [clauses_loop].
  - pose proof Hi as Hi'. cbn [map concat app] in Hi. read Hi.
    rewrite bool_decide_eq_false_2 by auto. by exists i.
  - apply Forall_cons in Hd as [[Hdot Hhd] Hd].
    cbn [map concat] in Hi. rewrite <-app_assoc in Hi. unfold stopped in Hi at 1.
    rewrite <-app_assoc in Hi. cbn [app] in Hi.
    assert (∃ x l, cl ++ lit "." :: concat (map stopped cls) ++ START_TIME_S :: rest = x :: l
      ∧ x ≠ START_TIME_S) as (x & l & Hx & Hne).
    { destruct cl as [|x cl]; cbn; do 2 eexists; (split; [done|]); [done|].
      intros ->. by apply Hhd. }
    pose proof Hi as Hi'. rewrite Hx in Hi. read Hi. clear Hn0.
    rewrite bool_decide_eq_true_2 by done.
    pose proof (at_length _ _ Hi') as Hlen. rewrite length_app in Hlen.
    destruct (getClauseStr_at fuel cl _ i [] (mkWalker x (label w)) ltac:(lia) Hi' Hdot)
      as (j & Hj & Hat).
    unfold getClauseStr. rewrite Hj. cbn [mbind outcome_bind label app].
    destruct (IH n j (addClause (concat cl ++ lit ".") c) (mkWalker (lit ".") (label w)))
      as (k & -> & Hk); [cbn in Hn; lia|done..|]. by exists k.
Qed.

Lemma add_clauses_spec cls c :
  add_clauses cls c =
  mkCertificate (Certificate.clauses c ++ map (λ cl, concat cl ++ lit ".") cls)
    (transformedCls c) (startTimeSec c) (stopTimeSec c) (startTime c) (stopTime c)
    (signature c) (Certificate.pubKey c) (Certificate.keyDigest c) (certStr c).
Proof.
  revert c. induction cls as [|cl cls IH]; intros c; cbn.
  - rewrite app_nil_r. by destruct c.
  - unfold add_clauses in IH. rewrite IH. cbn. by rewrite <-app_assoc.
Qed.

Lemma makeCertificate_loop_step n c i x rest w :
  at_index i (x :: rest) → x ≠ END_CERT_S →
  makeCertificate_loop tree fuel (S n) c i w =
  ('(c, pIdx, w) ← certificate_step tree fuel c (i + 1) (mkWalker x (label w));
   makeCertificate_loop tree fuel n c pIdx w).
Proof.
  intros Hi Hx. cbn [makeCertificate_loop]. read Hi.
  rewrite (proj2 (Z.ltb_lt _ _)) by done. by rewrite bool_decide_eq_true_2.
Qed.

(** A stopped text that starts at [i]. *)
Lemma getClauseStr_stopped toks rest i w :
  at_index i (stopped toks ++ rest) → lit "." ∉ toks →
  ∃ j, getClauseStr tree fuel i w
       = Ok (concat toks ++ lit ".", j, mkWalker (lit ".") (label w)) ∧ at_index j rest.
Proof.
  unfold stopped. rewrite <-app_assoc. intros Hi Hd.
  pose proof (at_length _ _ Hi) as Hl. rewrite length_app in Hl.
  apply (getClauseStr_at fuel toks rest i [] w); [lia|done..].
Qed.

(** [round f rest rest']: one round of the loop of [makeCertificate], where the
    children are [rest], changes the certificate by [f] and goes on where the
    children are [rest']. *)
Definition round (f : Certificate → Certificate) (rest rest' : list str) : Prop :=
  ∀ c n i w, at_index i rest → ∃ j w',
    makeCertificate_loop tree fuel (S n) c i w = makeCertificate_loop tree fuel n (f c) j w' ∧
    at_index j rest'.

(** Open a round at the label [x] and select its branch. *)
Ltac open_round Hi :=
  rewrite (makeCertificate_loop_step _ _ _ _ _ _ Hi) by done; read Hi;
  unfold certificate_step; cbn [set_label label sstr];
  rewrite ?(bool_decide_eq_false_2 (_ = _)) by done;
  rewrite bool_decide_eq_true_2 by done.

Lemma round_clauses cls rest :
  Forall (λ cl, (lit "." ∉ cl) ∧ hd_error cl ≠ Some START_TIME_S) cls →
  round (add_clauses cls) (CLAUSE_S :: concat (map stopped cls) ++ START_TIME_S :: rest)
    (START_TIME_S :: rest).
Proof.
  intros Hcls c n i w Hi. open_round Hi.
  pose proof (at_length _ _ Hn) as Hl. rewrite length_app in Hl.
  pose proof (length_concat_stopped cls).
  edestruct (clauses_loop_at fuel cls) as (j & -> & Hj); [|done..|]; [lia|].
  cbn [mbind outcome_bind]. by do 2 eexists.
Qed.

Lemma round_start toks rest :
  lit "." ∉ toks →
  round (appendToStartTime (concat toks ++ lit ".")) (START_TIME_S :: stopped toks ++ rest) rest.
Proof.
  intros Hd c n i w Hi. open_round Hi.
  edestruct getClauseStr_stopped as (j & -> & Hj); [done..|].
  cbn [mbind outcome_bind]. by do 2 eexists.
Qed.

Lemma round_stop toks rest :
  lit "." ∉ toks →
  round (appendToStopTime (concat toks ++ lit ".")) (STOP_TIME_S :: stopped toks ++ rest) rest.
Proof.
  intros Hd c n i w Hi. open_round Hi.
  edestruct getClauseStr_stopped as (j & -> & Hj); [done..|].
  cbn [mbind outcome_bind]. by do 2 eexists.
Qed.

Lemma round_pk ls rest :
  SIG_S ∉ ls →
  round (Certificate.appendToPubKey (PK_HEADER_S ++ concat (map (λ l, [nl] ++ l) ls)))
    (PK_HEADER_S :: ls ++ SIG_S :: rest) (SIG_S :: rest).
Proof.
  intros Hd c n i w Hi. open_round Hi.
  pose proof (at_length _ _ Hn) as Hl. rewrite length_app in Hl.
  edestruct (lines_loop_at fuel SIG_S ls) as (j & -> & _ & Hj); [|done..|]; [lia|].
  cbn [mbind outcome_bind]. by do 2 eexists.
Qed.

Lemma round_sig ls rest :
  END_SIG_S ∉ ls →
  round (appendToSignature ((SIG_S ++ concat (map (λ l, [nl] ++ l) ls)) ++ [nl] ++ END_SIG_S))
    (SIG_S :: ls ++ END_SIG_S :: rest) rest.
Proof.
  intros Hd c n i w Hi. open_round Hi.
  pose proof (at_length _ _ Hn) as Hl. rewrite length_app in Hl.
  edestruct (lines_loop_at fuel END_SIG_S ls) as (j & -> & Hj & _); [|done..|]; [lia|].
  cbn [mbind outcome_bind]. by do 2 eexists.
Qed.

Lemma block_app header ls footer :
  block header ls footer
  = (header ++ concat (map (λ l, [nl] ++ l) ls)) ++ [nl] ++ footer.
Proof.
  unfold block. rewrite map_app, concat_app. cbn. by rewrite app_nil_r, app_assoc.
Qed.

(** The children of one certificate after its marker. *)
Lemma makeCertificate_loop_at n c rest i w :
  (6 ≤ n)%nat → cert_src_ok c → at_index i (drop 1 (cert_children c) ++ rest) →
  ∃ j w', makeCertificate_loop tree fuel n Certificate_new i w = Ok (cert_of c, j, w') ∧
         at_index (j - 1) (END_CERT_S :: rest).
Proof.
  intros Hn (Hcls & Hstart & Hstop & Hpk & Hsig) Hi.
  do 6 (destruct n as [|n]; [lia|]). unfold cert_children in Hi.
  cbn [drop app] in Hi. repeat (rewrite <-app_assoc in Hi; cbn [app] in Hi).
  edestruct (round_clauses (s_clauses c)) as (i1 & w1 & -> & H1); [done|exact Hi|].
  edestruct (round_start (s_start c)) as (i2 & w2 & -> & H2); [done|exact H1|].
  edestruct (round_stop (s_stop c)) as (i3 & w3 & -> & H3); [done|exact H2|].
  edestruct (round_pk (s_pk c ++ [PK_END_S])) as (i4 & w4 & -> & H4);
    [rewrite not_elem_of_app; split; [done|apply (bool_decide_unpack _); by vm_compute]|rewrite <-app_assoc; exact H3|].
  edestruct (round_sig (s_sig c)) as (i5 & w5 & -> & H5); [done|exact H4|].
  pose proof H5 as H5'. cbn [makeCertificate_loop]. read H5.
  rewrite (proj2 (Z.ltb_lt _ _)) by done. rewrite bool_decide_eq_false_2 by auto.
  exists (i5 + 1). eexists. split; [|by replace (i5 + 1 - 1) with i5 by lia].
  rewrite add_clauses_spec. unfold cert_of. by rewrite (block_app SIG_S).
Qed.

Lemma appendToPubKey_nil c : Credential.appendToPubKey [] c = c.
Proof. destruct c. unfold Credential.appendToPubKey. cbn. by rewrite app_nil_r. Qed.

Lemma pubkey_loop_at n c ls rest i w :
  (length ls < n)%nat → at_index i (ls ++ CERT_S :: rest) → CERT_S ∉ ls →
  ∃ j w', pubkey_loop tree n c i w
       = Ok (Credential.appendToPubKey (concat (map (λ l, [nl] ++ l) ls)) c, j, w') ∧
       label w' = label w ∧ at_index j (CERT_S :: rest).
Proof.
  revert n i c w. induction ls as [|t ls IH]; intros n i c w Hn Hi Hd;
    (destruct n as [|n]; [cbn in Hn; lia|]); cbn [pubkey_loop app] in *; pose proof Hi as Hi';
    read Hi.
  - rewrite bool_decide_eq_false_2 by auto.
    cbn [concat map]. rewrite appendToPubKey_nil. by do 2 eexists.
  - apply not_elem_of_cons in Hd as [Ht Hd].
    rewrite bool_decide_eq_true_2 by auto.
    edestruct IH as (j & w' & -> & Hl & Hj); [|exact Hn0|done|]; [cbn in Hn; lia|].
    exists j, w'. split_and!; [|by rewrite Hl|done].
    unfold Credential.appendToPubKey. cbn. by rewrite <-app_assoc.
Qed.

Lemma makeCredential_loop_step n c i x rest w :
  at_index i (x :: rest) → label w ≠ END_S →
  x ≠ PK_HEADER_S → x ≠ CERT_S →
  makeCredential_loop tree fuel (S n) c i w
  = makeCredential_loop tree fuel n c (i + 1) (mkWalker x x).
Proof.
  intros Hi Hw Hx1 Hx2. cbn [makeCredential_loop]. read Hi.
  rewrite (proj2 (Z.ltb_lt _ _)), bool_decide_eq_true_2 by done. cbn [andb set_label label].
  by rewrite !bool_decide_eq_false_2.
Qed.

Definition add_certs (l : list cert_src) (c : Credential) : Credential :=
  mkCredential (Credential.pubKey c) (Credential.keyDigest c)
    (certificates c ++ map cert_of l).

Lemma add_certs_nil c : add_certs [] c = c.
Proof. destruct c. unfold add_certs. cbn. by rewrite app_nil_r. Qed.

Lemma makeCredential_loop_at n c certs i w :
  (2 * length certs + 2 ≤ n)%nat → Forall cert_src_ok certs →
  at_index i (concat (map cert_children certs) ++ [END_S]) → label w ≠ END_S →
  ∃ j w', makeCredential_loop tree fuel n c i w = Ok (add_certs certs c, j, w').
Proof.
  revert n c i w. induction certs as [|x certs IH]; intros n c i w Hn Hok Hi Hw.
  - do 2 (destruct n as [|n]; [cbn in Hn; lia|]).
    cbn [map concat app] in Hi. rewrite (makeCredential_loop_step _ _ _ _ _ _ Hi) by done.
    cbn [makeCredential_loop label]. rewrite andb_false_r, add_certs_nil. by do 2 eexists.
  - do 2 (destruct n as [|n]; [cbn in Hn; lia|]).
    apply Forall_cons in Hok as [Hx Hok].
    change (map cert_children (x :: certs)) with (cert_children x :: map cert_children certs) in Hi.
    cbn [concat] in Hi. rewrite <-app_assoc in Hi.
    change (cert_children x) with (CERT_S :: drop 1 (cert_children x)) in Hi.
    cbn [app] in Hi. set (m := S n). cbn [makeCredential_loop]. read Hi.
    rewrite (proj2 (Z.ltb_lt _ _)), bool_decide_eq_true_2 by done. cbn [andb set_label label].
    rewrite bool_decide_eq_false_2, bool_decide_eq_true_2 by done.
    pose proof (at_length _ _ Hn0) as Hlen. unfold makeCertificate.
    edestruct (makeCertificate_loop_at fuel x) as (j & w' & -> & Hj); [|done|exact Hn0|].
    { rewrite length_app in Hlen. unfold cert_children in Hlen.
      cbn [app drop] in Hlen. repeat (rewrite ?length_app in Hlen; cbn [length] in Hlen). lia. }
    cbn [mbind outcome_bind].
    destruct (at_child _ _ _ Hj) as (Hc & Ho & Hj' & Hlt). unfold getChildStr.
    rewrite Hc. cbn [set_label label sstr].
    unfold m. rewrite (makeCredential_loop_step _ _ _ _ _ _ Hj) by done.
    edestruct (IH n (addCertificate (Some (cert_of x)) c)) as (k & w'' & ->);
      [cbn in Hn; lia|done|exact Hj'|done|].
    do 2 eexists. unfold add_certs. cbn. by rewrite <-app_assoc.
Qed.

(** With a public key that is followed by a certificate, the walk returns. *)
Lemma makeCredential_loop_children n pk certs w :
  (2 * length certs + 2 < n)%nat → certs ≠ [] → CERT_S ∉ pk → Forall cert_src_ok certs →
  at_index 0 (cred_children pk certs) → label w ≠ END_S →
  ∃ j w', makeCredential_loop tree fuel n Credential_new 0 w
    = Ok (mkCredential (block PK_HEADER_S pk PK_END_S) [] (map cert_of certs), j, w').
Proof.
  intros Hn Hne Hpk Hok Hi Hw. destruct n as [|n]; [lia|].
  destruct certs as [|x certs]; [done|].
  assert (cred_children pk (x :: certs) = PK_HEADER_S :: (pk ++ [PK_END_S]) ++ CERT_S ::
    drop 1 (cert_children x) ++ concat (map cert_children certs) ++ [END_S]) as He.
  { unfold cred_children. cbn [map concat app]. rewrite <-!app_assoc. done. }
  rewrite He in Hi. cbn [makeCredential_loop]. read Hi.
  rewrite (proj2 (Z.ltb_lt _ _)), bool_decide_eq_true_2 by done. cbn [andb set_label label].
  rewrite bool_decide_eq_true_2 by done.
  pose proof (at_length _ _ Hn0) as Hl. rewrite length_app in Hl.
  edestruct (pubkey_loop_at fuel) as (j & w' & -> & Hlab & Hj); [|exact Hn0|..]; [lia| |].
  { rewrite not_elem_of_app. split; [done|]. apply (bool_decide_unpack _). by vm_compute. }
  cbn [mbind outcome_bind].
  edestruct (makeCredential_loop_at n) as (k & w'' & ->);
    [|exact Hok|cbn [map concat]; rewrite <-app_assoc; exact Hj|by rewrite Hlab|]; [lia|].
  by do 2 eexists.
Qed.

End reading.

Lemma cred_children_length pk certs :
  (11 * length certs + 3 ≤ length (cred_children pk certs))%nat.
Proof.
  unfold cred_children. rewrite !length_app. cbn.
  assert (11 * length certs ≤ length (concat (map cert_children certs)))%nat; [|lia].
  induction certs as [|x l IH]; [done|]. cbn [map concat]. rewrite length_app.
  unfold cert_children at 1, stopped. repeat (rewrite ?length_app; cbn [length]). lia.
Qed.

(** Without a marker of a certificate the loop over the lines of the public key
    of the credential does not end. *)
Lemma pubkey_loop_diverges tree n c i w :
  CERT_S ∉ children tree → ∃ f, pubkey_loop tree n c i w = Undef f.
Proof.
  intros Hc. revert c i w. induction n as [|n IH]; intros c i w; [by eexists|].
  cbn [pubkey_loop getChildStr]. rewrite bool_decide_eq_true_2.
  - cbn. unfold int_op. destruct (int_ok (i + 1)); [apply IH|by eexists].
  - intros He. unfold child_str in He.
    destruct (children tree !! _) as [x|] eqn:E; cbn in He; [|done].
    rewrite He in E. apply Hc. by apply list_elem_of_lookup_2 in E.
Qed.

(** The walk over the tree of a public key and certificates. *)
Lemma getCredential_walk pk certs fuel gmtoff cur :
  certs ≠ [] → CERT_S ∉ pk → Forall cert_src_ok certs →
  Z.of_nat (length (cred_children pk certs)) < INT_MAX →
  (length (cred_children pk certs) < fuel)%nat →
  getCredential (mkAst CREDENTIAL_S (cred_children pk certs)) fuel gmtoff cur =
    (c ← finalize gmtoff cur
           (mkCredential (block PK_HEADER_S pk PK_END_S) [] (map cert_of certs));
     Ok (Some c)).
Proof.
  set (tree := mkAst CREDENTIAL_S (cred_children pk certs)).
  intros Hne Hpk Hok Hs Hf. unfold getCredential.
  cbn [sstr root tree]. rewrite bool_decide_eq_true_2 by done. unfold makeCredential.
  pose proof (cred_children_length pk certs) as Hl.
  edestruct (makeCredential_loop_children tree fuel) as (j & w' & ->);
    [done|done| |done|done|done|by split; [done|exists []]|done|done].
  lia.
Qed.

(** ** Properties *)

(** C36: the walk inverts the layout of the tree. For the tree the grammar builds
    for a public key and one or more certificates, none of whose texts is a
    marker, [getCredential] returns, with any fuel above the number of
    children, the finalised credential with that public key and exactly those
    certificates, in order: each with its clauses, times, public key and
    signature put together from the texts of the tree. *)
Theorem getCredential_children pk certs fuel gmtoff cur :
  let tree := mkAst CREDENTIAL_S (cred_children pk certs) in
  certs ≠ [] → CERT_S ∉ pk → Forall cert_src_ok certs →
  Z.of_nat (length (children tree)) < INT_MAX → (length (children tree) < fuel)%nat →
  getCredential tree fuel gmtoff cur =
    (c ← finalize gmtoff cur
           (mkCredential (block PK_HEADER_S pk PK_END_S) [] (map cert_of certs));
     Ok (Some c)).
Proof. intros tree. apply getCredential_walk. Qed.

Lemma getCredential_children_witness :
  ∃ c, getCredential
    (mkAst CREDENTIAL_S (cred_children [lit "MIGfMA0G"]
      [mkCertSrc [[lit "employee"; lit "("; lit "bob"; lit ")"]]
         [lit "datime"; lit "("; lit "2011"; lit ","; lit "1"; lit ","; lit "2"; lit ",";
          lit "3"; lit ","; lit "4"; lit ","; lit "5"; lit ")"]
         [lit "datime"; lit "("; lit "2012"; lit ","; lit "1"; lit ","; lit "2"; lit ",";
          lit "3"; lit ","; lit "4"; lit ","; lit "5"; lit ")"]
         [lit "MIGfMA0G"] [lit "c2ln"]])) 100 0 (λ _, 0) = Ok (Some c) ∧
    map certStr (certificates c) =
      [lit "employee(bob).datime(2011,1,2,3,4,5).datime(2012,1,2,3,4,5)."].
Proof.
  rewrite getCredential_children.
  - eexists. split; vm_compute; reflexivity.
  - discriminate.
  - apply (bool_decide_unpack _). by vm_compute.
  - apply (bool_decide_unpack _). by vm_compute.
  - vm_compute. reflexivity.
  - apply Nat.ltb_lt. vm_compute. reflexivity.
Defined.

(** A credential without certificates, which the grammar allows, hangs the
    server: on a tree that has a public key and no certificate [getCredential]
    returns for no amount of fuel. *)
Theorem getCredential_no_certificate pk fuel gmtoff cur :
  CERT_S ∉ pk →
  ∃ f, getCredential (mkAst CREDENTIAL_S (cred_children pk [])) fuel gmtoff cur = Undef f.
Proof.
  intros Hpk. unfold getCredential. cbn [sstr root]. rewrite bool_decide_eq_true_2 by done.
  unfold makeCredential. destruct fuel as [|fuel]; [by eexists|].
  set (tree := mkAst CREDENTIAL_S (cred_children pk [])).
  assert (CERT_S ∉ children tree) as Hc.
  { change (CERT_S ∉ [PK_HEADER_S] ++ pk ++ [PK_END_S] ++ [] ++ [END_S]).
    rewrite !not_elem_of_app. split_and!; try exact Hpk;
      apply (bool_decide_unpack _); by vm_compute. }
  assert (child_str tree 0 = PK_HEADER_S) as H0 by reflexivity.
  cbn [makeCredential_loop getChildStr]. rewrite H0.
  rewrite (proj2 (Z.ltb_lt _ _)) by (unfold numChildren, tree, cred_children; cbn; lia). rewrite bool_decide_eq_true_2 by done.
  cbn [andb set_label label sstr]. rewrite int_op_ok by done. cbn [mbind outcome_bind].
  rewrite bool_decide_eq_true_2 by done.
  edestruct (pubkey_loop_diverges tree) as [f ->]; [done|]. by exists f.
Qed.

Lemma getCredential_no_certificate_witness :
  ∃ f, getCredential (mkAst CREDENTIAL_S (cred_children [lit "MIGfMA0G"] [])) 1000 0 (λ _, 0)
       = Undef f.
Proof.
  apply getCredential_no_certificate. apply (bool_decide_unpack _). by vm_compute.
Defined.
