(* ===== verification/HashTable.v ===== *)
(** The hash tables of the run time, the enumeration of a table and the sparse
    lists built on one: the first part of
    src/antlr/libantlr3c-3.4/src/antlr3collections.c. *)
From S2P Require Import Prelude CppString.

(** ** Keys

    A key is a union with a tag. The comparisons of the string functions read
    the pointer member, those of the integer functions the number. A string
    stands for its characters up to the terminator. *)
Inductive HASH_KEY : Type :=
| IntKey (iKey : Z)
| StrKey (sKey : option str).

#[export] Instance HASH_KEY_eq_dec : EqDecision HASH_KEY.
Proof. solve_decision. Defined.

(** [strcmp (key, entry->keybase.key.sKey) == 0] *)
Definition same_str (key : str) (k : HASH_KEY) : outcome bool :=
  match k with
  | StrKey (Some s) => Ok (bool_decide (key = s))
  | StrKey None => Undef NullDeref
  | IntKey _ => Undef WrongMember
  end.
(** [entry->keybase.key.iKey == key] *)
Definition same_int (key : Z) (k : HASH_KEY) : outcome bool :=
  match k with
  | IntKey i => Ok (bool_decide (i = key))
  | StrKey _ => Undef WrongMember
  end.

(** [antlr3Hash], one character and the key. *)
Definition hash_char (hash : Z) (c : ascii) : Z :=
  let hash := u32 (Z.shiftl hash 4 + Z.of_nat (nat_of_ascii c)) in
  let i1 := Z.land hash 0xf0000000 in
  if i1 =? 0 then hash else Z.lxor (Z.lxor hash (Z.shiftr i1 24)) i1.
Definition antlr3Hash (key : str) (keylen : Z) : Z :=
  foldl hash_char 0 (take (Z.to_nat keylen) key).

Definition ANTLR3_SUCCESS : Z := 0.
Definition ANTLR3_FAIL : Z := 1.
Definition ANTLR3_ERR_HASHDUP : Z := 3.

Section table.
Context {V : Type}.

(** ** Tables

    [data] is a pointer, absent when null; [free] tells whether the entry came
    with a function that releases its data. A chain of entries is a list, and a
    bucket is the chain it points to. *)
Record HASH_ENTRY : Type := mkEntry {
  keybase : HASH_KEY;
  data : option V;
  free : bool
}.

Record HASH_TABLE : Type := mkTable {
  buckets : list (list HASH_ENTRY);
  modulo : Z;
  count : Z;
  allowDups : bool;
  doStrdup : bool
}.

Definition set_buckets (bs : list (list HASH_ENTRY)) (n : Z) (table : HASH_TABLE) : HASH_TABLE :=
  mkTable bs (modulo table) n (allowDups table) (doStrdup table).

(** [antlr3HashTableNew] *)
Definition HashTableNew (sizeHint : Z) : HASH_TABLE :=
  mkTable (replicate (Z.to_nat sizeHint) []) sizeHint 0 false true.

(** [antlr3HashSize] *)
Definition HashSize (table : HASH_TABLE) : Z := count table.

(** The bucket of a hash: [table->buckets + (hash % table->modulo)]. *)
Definition bucket_of (table : HASH_TABLE) (hash : Z) : outcome (nat * list HASH_ENTRY) :=
  if modulo table =? 0 then Undef DivByZero
  else
    entries ← index (buckets table) (hash mod modulo table);
    Ok (Z.to_nat (hash mod modulo table), entries).

(** The loops over the entries of a chain: to find one, to take one out, and to
    add one at its end. *)
Fixpoint chain_get (same : HASH_KEY → outcome bool) (entry : list HASH_ENTRY)
    : outcome (option V) :=
  match entry with
  | [] => Ok None
  | e :: nextEntry =>
      b ← same (keybase e);
      if b : bool then Ok (data e) else chain_get same nextEntry
  end.
Fixpoint chain_remove (same : HASH_KEY → outcome bool) (entry : list HASH_ENTRY)
    : outcome (option (HASH_ENTRY * list HASH_ENTRY)) :=
  match entry with
  | [] => Ok None
  | e :: nextEntry =>
      b ← same (keybase e);
      if b : bool then Ok (Some (e, nextEntry))
      else
        r ← chain_remove same nextEntry;
        Ok (match r with Some (x, rest) => Some (x, e :: rest) | None => None end)
  end.
Fixpoint chain_put (dups : bool) (same : HASH_KEY → outcome bool) (new : HASH_ENTRY)
    (entry : list HASH_ENTRY) : outcome (option (list HASH_ENTRY)) :=
  match entry with
  | [] => Ok (Some [new])
  | e :: nextEntry =>
      b ← (if dups then Ok false else same (keybase e));
      if b : bool then Ok None
      else
        r ← chain_put dups same new nextEntry;
        Ok (match r with Some rest => Some (e :: rest) | None => None end)
  end.

(** *** String keys *)

(** [antlr3Hash (key, (ANTLR3_UINT32)strlen (key))] *)
Definition str_hash (key : str) : Z := antlr3Hash key (u32 (len key)).

(** [antlr3HashRemove]; the key of the entry that is handed back was released. *)
Definition HashRemove (table : HASH_TABLE) (key : str)
    : outcome (option HASH_ENTRY * HASH_TABLE) :=
  '(i, entries) ← bucket_of table (str_hash key);
  r ← chain_remove (same_str key) entries;
  match r with
  | Some (e, rest) =>
      Ok (Some (mkEntry (StrKey None) (data e) (free e)),
          set_buckets (<[i := rest]> (buckets table)) (u32 (count table - 1)) table)
  | None => Ok (None, table)
  end.

(** [antlr3HashDelete]: what the free function of the entry was called on. *)
Definition HashDelete (table : HASH_TABLE) (key : str)
    : outcome (option (option V) * HASH_TABLE) :=
  '(entry, table) ← HashRemove table key;
  match entry with
  | Some e => if free e then Ok (Some (data e), table) else Ok (None, table)
  | None => Ok (None, table)
  end.

(** [antlr3HashGet] *)
Definition HashGet (table : HASH_TABLE) (key : str) : outcome (option V) :=
  '(_, entries) ← bucket_of table (str_hash key);
  chain_get (same_str key) entries.

(** [antlr3HashPut] *)
Definition HashPut (table : HASH_TABLE) (key : str) (element : option V) (freeptr : bool)
    : outcome (Z * HASH_TABLE) :=
  '(i, entries) ← bucket_of table (str_hash key);
  r ← chain_put (allowDups table) (same_str key)
        (mkEntry (StrKey (Some key)) element freeptr) entries;
  match r with
  | None => Ok (ANTLR3_ERR_HASHDUP, table)
  | Some entries =>
      Ok (ANTLR3_SUCCESS,
          set_buckets (<[i := entries]> (buckets table)) (u32 (count table + 1)) table)
  end.

(** *** Integer keys *)

(** [antlr3HashRemoveI] *)
Definition HashRemoveI (table : HASH_TABLE) (key : Z)
    : outcome (option HASH_ENTRY * HASH_TABLE) :=
  '(i, entries) ← bucket_of table key;
  r ← chain_remove (same_int key) entries;
  match r with
  | Some (e, rest) =>
      Ok (Some e, set_buckets (<[i := rest]> (buckets table)) (u32 (count table - 1)) table)
  | None => Ok (None, table)
  end.

(** [antlr3HashDeleteI] *)
Definition HashDeleteI (table : HASH_TABLE) (key : Z)
    : outcome (option (option V) * HASH_TABLE) :=
  '(entry, table) ← HashRemoveI table key;
  match entry with
  | Some e => if free e then Ok (Some (data e), table) else Ok (None, table)
  | None => Ok (None, table)
  end.

(** [antlr3HashGetI] *)
Definition HashGetI (table : HASH_TABLE) (key : Z) : outcome (option V) :=
  '(_, entries) ← bucket_of table key;
  chain_get (same_int key) entries.

(** [antlr3HashPutI] *)
Definition HashPutI (table : HASH_TABLE) (key : Z) (element : option V) (freeptr : bool)
    : outcome (Z * HASH_TABLE) :=
  '(i, entries) ← bucket_of table key;
  r ← chain_put (allowDups table) (same_int key) (mkEntry (IntKey key) element freeptr) entries;
  match r with
  | None => Ok (ANTLR3_ERR_HASHDUP, table)
  | Some entries =>
      Ok (ANTLR3_SUCCESS,
          set_buckets (<[i := entries]> (buckets table)) (u32 (count table + 1)) table)
  end.

(** [antlr3HashFree]: the data that the free functions are called on. *)
Definition chain_free (entry : list HASH_ENTRY) : list (option V) :=
  data <$> filter (λ e, free e = true) entry.
Definition HashFree (table : HASH_TABLE) : list (option V) :=
  concat (chain_free <$> buckets table).

(** ** Enumerations

    The entry to return next, with those that follow it in its chain; the
    pointer is null when there are none. The table must not change meanwhile. *)
Record HASH_ENUM : Type := mkEnum {
  en_table : HASH_TABLE;
  en_bucket : Z;
  en_entry : list HASH_ENTRY
}.

(** The loop of [antlr3EnumNextEntry] over the buckets [bs] that are left: the
    entry keeps its value when all of them are empty. *)
Fixpoint seek_bucket (bs : list (list HASH_ENTRY)) (bucket : Z) (entry : list HASH_ENTRY)
    : Z * list HASH_ENTRY :=
  match bs with
  | [] => (bucket, entry)
  | [] :: bs => seek_bucket bs (bucket + 1) entry
  | entries :: _ => (bucket, entries)
  end.

(** [antlr3EnumNextEntry] *)
Definition EnumNextEntry (en : HASH_ENUM) : HASH_ENUM :=
  match en_entry en with
  | _ :: (_ :: _) as nextEntry => mkEnum (en_table en) (en_bucket en) nextEntry
  | _ =>
      let bucket := en_bucket en + 1 in
      let '(bucket, entry) :=
        seek_bucket (drop (Z.to_nat bucket) (buckets (en_table en))) bucket (en_entry en) in
      mkEnum (en_table en) bucket entry
  end.

(** [antlr3EnumNew] *)
Definition EnumNew (table : HASH_TABLE) : outcome HASH_ENUM :=
  entry ← index (buckets table) 0;
  let en := mkEnum table 0 entry in
  Ok (match entry with [] => EnumNextEntry en | _ => en end).

(** [antlr3EnumNext]: the key and the data of an entry, or [ANTLR3_FAIL]. *)
Definition EnumNext (en : HASH_ENUM) : outcome (option (HASH_KEY * option V) * HASH_ENUM) :=
  if modulo (en_table en) <=? en_bucket en then Ok (None, en)
  else match en_entry en with
  | [] => Undef NullDeref
  | e :: _ => Ok (Some (keybase e, data e), EnumNextEntry en)
  end.

(** A client that asks until it is refused. *)
Fixpoint enum_all (fuel : nat) (en : HASH_ENUM) : outcome (list (HASH_KEY * option V)) :=
  match fuel with
  | O => Undef NoFuel
  | S fuel =>
      '(r, en) ← EnumNext en;
      match r with
      | None => Ok []
      | Some x => l ← enum_all fuel en; Ok (x :: l)
      end
  end.

(** ** Lists: tables with integer keys *)

(** [antlr3ListNew], [antlr3ListSize], [antlr3ListDelete], [antlr3ListGet],
    [antlr3ListPut] *)
Definition ListNew (sizeHint : Z) : HASH_TABLE := HashTableNew sizeHint.
Definition ListSize (list : HASH_TABLE) : Z := HashSize list.
Definition ListDelete (list : HASH_TABLE) (key : Z) : outcome (option (option V) * HASH_TABLE) :=
  HashDeleteI list key.
Definition ListGet (list : HASH_TABLE) (key : Z) : outcome (option V) := HashGetI list key.
Definition ListPut (list : HASH_TABLE) (key : Z) (element : option V) (freeptr : bool)
    : outcome (Z * HASH_TABLE) := HashPutI list key element freeptr.

(** [antlr3ListAdd]: the next available key is one more than the size. *)
Definition ListAdd (list : HASH_TABLE) (element : option V) (freeptr : bool)
    : outcome (Z * HASH_TABLE) :=
  let key := u32 (ListSize list + 1) in
  ListPut list key element freeptr.

(** [antlr3ListRemove] *)
Definition ListRemove (list : HASH_TABLE) (key : Z) : outcome (option V * HASH_TABLE) :=
  '(entry, list) ← HashRemoveI list key;
  Ok (match entry with Some e => data e | None => None end, list).
End table.
Arguments HASH_ENTRY : clear implicits.
Arguments HASH_TABLE : clear implicits.
Arguments HASH_ENUM : clear implicits.

(** ** The interface

    The pointers to functions that a table carries, for one kind of keys, and
    the requests a client makes through them. *)
Record HASH_API (K V : Type) : Type := mkApi {
  put : HASH_TABLE V → K → option V → bool → outcome (Z * HASH_TABLE V);
  get : HASH_TABLE V → K → outcome (option V);
  remove : HASH_TABLE V → K → outcome (option (HASH_ENTRY V) * HASH_TABLE V);
  del : HASH_TABLE V → K → outcome (option (option V) * HASH_TABLE V)
}.
Arguments mkApi {K V} _ _ _ _.
Arguments put {K V} _ _ _ _ _.
Arguments get {K V} _ _ _.
Arguments remove {K V} _ _ _.
Arguments del {K V} _ _ _.

(** As [antlr3HashTableNew] installs them. *)
Definition strApi (V : Type) : HASH_API str V := mkApi HashPut HashGet HashRemove HashDelete.
Definition intApi (V : Type) : HASH_API Z V := mkApi HashPutI HashGetI HashRemoveI HashDeleteI.

Inductive request (K V : Type) : Type :=
| Put (key : K) (element : option V) (freeptr : bool)
| Get (key : K)
| Remove (key : K)
| Delete (key : K)
| Size.
Arguments Put {K V} _ _ _.
Arguments Get {K V} _.
Arguments Remove {K V} _.
Arguments Delete {K V} _.
Arguments Size {K V}.

Inductive reply (V : Type) : Type :=
| Code (c : Z)
| Data (d : option V)
| Taken (e : option (option V * bool))
| Freed (d : option (option V))
| Entries (n : Z).
Arguments Code {V} _.
Arguments Data {V} _.
Arguments Taken {V} _.
Arguments Freed {V} _.
Arguments Entries {V} _.

Definition serve {K V} (api : HASH_API K V) (q : request K V) (t : HASH_TABLE V)
    : outcome (reply V * HASH_TABLE V) :=
  match q with
  | Put k d f => '(c, t) ← put api t k d f; Ok (Code c, t)
  | Get k => d ← get api t k; Ok (Data d, t)
  | Remove k =>
      '(e, t) ← remove api t k;
      Ok (Taken ((λ e, (data e, free e)) <$> e), t)
  | Delete k => '(d, t) ← del api t k; Ok (Freed d, t)
  | Size => Ok (Entries (HashSize t), t)
  end.

Fixpoint serve_all {K V} (api : HASH_API K V) (qs : list (request K V)) (t : HASH_TABLE V)
    : outcome (list (reply V) * HASH_TABLE V) :=
  match qs with
  | [] => Ok ([], t)
  | q :: qs =>
      '(r, t) ← serve api q t;
      '(rs, t) ← serve_all api qs t;
      Ok (r :: rs, t)
  end.

(** The specification: a finite map from keys to data and free functions. *)
Section spec.
Context {K V : Type} `{Countable K}.

Definition answer (q : request K V) (m : gmap K (option V * bool))
    : reply V * gmap K (option V * bool) :=
  match q with
  | Put k d f =>
      match m !! k with
      | Some _ => (Code ANTLR3_ERR_HASHDUP, m)
      | None => (Code ANTLR3_SUCCESS, <[k := (d, f)]> m)
      end
  | Get k => (Data (m !! k ≫= fst), m)
  | Remove k => (Taken (m !! k), delete k m)
  | Delete k =>
      (Freed (match m !! k with Some (d, true) => Some d | _ => None end), delete k m)
  | Size => (Entries (u32 (Z.of_nat (size m))), m)
  end.

Fixpoint answers (qs : list (request K V)) (m : gmap K (option V * bool))
    : list (reply V) * gmap K (option V * bool) :=
  match qs with
  | [] => ([], m)
  | q :: qs =>
      let '(r, m) := answer q m in
      let '(rs, m) := answers qs m in
      (r :: rs, m)
  end.

(** What is released when the map is discarded. *)
Definition releases (m : gmap K (option V * bool)) : list (option V) :=
  (λ b : K * (option V * bool), b.2.1) <$>
    filter (λ b : K * (option V * bool), b.2.2 = true) (map_to_list m).
End spec.

(** ** The tables implement the specification

    The operations for a kind of keys: how a key is stored, compared and
    hashed, and what is left of an entry that is handed back. *)
Section refinement.
Context {K V : Type} `{Countable K}.
Context (base : K → HASH_KEY) (same : K → HASH_KEY → outcome bool) (hash : K → Z)
  (release : HASH_ENTRY V → HASH_ENTRY V).
Context (base_inj : Inj (=) (=) base).
Context (same_base : ∀ k k', same k (base k') = Ok (bool_decide (k = k'))).
Context (release_ok : ∀ e, data (release e) = data e ∧ free (release e) = free e).

Definition key_remove (t : HASH_TABLE V) (k : K) : outcome (option (HASH_ENTRY V) * HASH_TABLE V) :=
  '(i, entries) ← bucket_of t (hash k);
  r ← chain_remove (same k) entries;
  match r with
  | Some (e, rest) =>
      Ok (Some (release e), set_buckets (<[i := rest]> (buckets t)) (u32 (count t - 1)) t)
  | None => Ok (None, t)
  end.
Definition key_delete (t : HASH_TABLE V) (k : K) : outcome (option (option V) * HASH_TABLE V) :=
  '(entry, t) ← key_remove t k;
  match entry with
  | Some e => if free e then Ok (Some (data e), t) else Ok (None, t)
  | None => Ok (None, t)
  end.
Definition key_get (t : HASH_TABLE V) (k : K) : outcome (option V) :=
  '(_, entries) ← bucket_of t (hash k);
  chain_get (same k) entries.
Definition key_put (t : HASH_TABLE V) (k : K) (d : option V) (f : bool)
    : outcome (Z * HASH_TABLE V) :=
  '(i, entries) ← bucket_of t (hash k);
  r ← chain_put (allowDups t) (same k) (mkEntry (base k) d f) entries;
  match r with
  | None => Ok (ANTLR3_ERR_HASHDUP, t)
  | Some entries =>
      Ok (ANTLR3_SUCCESS, set_buckets (<[i := entries]> (buckets t)) (u32 (count t + 1)) t)
  end.
Definition keyApi : HASH_API K V := mkApi key_put key_get key_remove key_delete.

(** The entry of a binding, and the bucket of a key. *)
Definition entry_of (b : K * (option V * bool)) : HASH_ENTRY V :=
  mkEntry (base b.1) b.2.1 b.2.2.
Definition slot (t : HASH_TABLE V) (k : K) : nat := Z.to_nat (hash k mod modulo t).

(** A table stands for a map: each binding has one entry, which is in the
    bucket of its key, and the count is the number of bindings, modulo 2^32. *)
Record stands_for (t : HASH_TABLE V) (m : gmap K (option V * bool)) : Prop := {
  sf_modulo : 0 < modulo t;
  sf_length : length (buckets t) = Z.to_nat (modulo t);
  sf_dups : allowDups t = false;
  sf_count : count t = u32 (Z.of_nat (size m));
  sf_slot : ∀ i c e, buckets t !! i = Some c → e ∈ c → ∃ b, e = entry_of b ∧ slot t b.1 = i;
  sf_entries : concat (buckets t) ≡ₚ entry_of <$> map_to_list m
}.

Lemma stands_for_new n : 0 < n → stands_for (HashTableNew n) ∅.
Proof.
  intros Hn. split; cbn; [done|by rewrite length_replicate|done|by rewrite map_size_empty| |].
  - intros i c e [-> _]%lookup_replicate_1 He. by apply not_elem_of_nil in He.
  - rewrite map_to_list_empty. induction (Z.to_nat n); [done|]. cbn. done.
Qed.

Lemma sf_binding t m e :
  stands_for t m → e ∈ concat (buckets t) ↔ ∃ k x, e = entry_of (k, x) ∧ m !! k = Some x.
Proof.
  intros Hs. rewrite (sf_entries _ _ Hs), list_elem_of_fmap. split.
  - intros ([k x] & -> & Hx%elem_of_map_to_list). eauto.
  - intros (k & x & -> & Hx). exists (k, x). by rewrite elem_of_map_to_list.
Qed.

(** *** Chains *)

Definition absent (k : K) (c : list (HASH_ENTRY V)) : Prop :=
  Forall (λ e, ∃ b, e = entry_of b ∧ b.1 ≠ k) c.

Lemma same_absent k e b : e = entry_of b → b.1 ≠ k → same k (keybase e) = Ok false.
Proof. intros -> Hb. cbn. rewrite same_base. by rewrite bool_decide_false. Qed.

Lemma chain_get_absent k c rest :
  absent k c → chain_get (same k) (c ++ rest) = chain_get (same k) rest.
Proof.
  induction 1 as [|e c (b & He & Hb) _ IH]; [done|]. cbn.
  by rewrite (same_absent _ _ _ He Hb).
Qed.
Lemma chain_remove_absent k c rest :
  absent k c → chain_remove (same k) (c ++ rest)
  = (r ← chain_remove (same k) rest;
     Ok (match r with Some (x, l) => Some (x, c ++ l) | None => None end)).
Proof.
  induction 1 as [|e c (b & He & Hb) _ IH]; cbn.
  - by destruct (chain_remove (same k) rest) as [[[]|]| |].
  - rewrite (same_absent _ _ _ He Hb). cbn. rewrite IH.
    by destruct (chain_remove (same k) rest) as [[[]|]| |].
Qed.
Lemma chain_put_absent k new c rest :
  absent k c → chain_put false (same k) new (c ++ rest)
  = (r ← chain_put false (same k) new rest;
     Ok (match r with Some l => Some (c ++ l) | None => None end)).
Proof.
  induction 1 as [|e c (b & He & Hb) _ IH]; cbn.
  - by destruct (chain_put false (same k) new rest) as [[]| |].
  - rewrite (same_absent _ _ _ He Hb). cbn. rewrite IH.
    by destruct (chain_put false (same k) new rest) as [[]| |].
Qed.

(** The bucket of a key: it has no entry for the key, or one. *)
Lemma bucket_cases t m k :
  stands_for t m → ∃ c,
    bucket_of t (hash k) = Ok (slot t k, c) ∧ buckets t !! slot t k = Some c ∧
    match m !! k with
    | None => absent k c
    | Some x => ∃ l1 l2, c = l1 ++ entry_of (k, x) :: l2 ∧ absent k l1
    end.
Proof.
  intros Hs. pose proof (sf_modulo _ _ Hs) as Hm.
  pose proof (Z.mod_pos_bound (hash k) (modulo t) Hm).
  destruct (lookup_lt_is_Some_2 (buckets t) (slot t k)) as [c Hc].
  { rewrite (sf_length _ _ Hs). unfold slot. lia. }
  exists c. split_and!; [|done|].
  { unfold bucket_of. destruct (Z.eqb_spec (modulo t) 0); [lia|].
    rewrite (index_lookup _ _ c) by (done || lia). done. }
  assert (Hin : ∀ e, e ∈ c → ∃ b, e = entry_of b ∧ m !! b.1 = Some b.2).
  { intros e He. assert (Hcat : e ∈ concat (buckets t)).
    { apply list_elem_of_In, in_concat. exists c. rewrite <-!list_elem_of_In.
      split; [by eapply list_elem_of_lookup_2|done]. }
    apply (sf_binding _ _ _ Hs) in Hcat as (k' & x & -> & Hx). by exists (k', x). }
  destruct (m !! k) as [x|] eqn:Ek.
  - assert (He : entry_of (k, x) ∈ c).
    { assert (entry_of (k, x) ∈ concat (buckets t)) as Hcat by (apply (sf_binding _ m); eauto).
      apply list_elem_of_In, in_concat in Hcat as (c' & Hc' & He).
      apply list_elem_of_In in He. apply list_elem_of_In, list_elem_of_lookup in Hc' as [i Hi].
      destruct (sf_slot _ _ Hs i c' _ Hi He) as (b & Hb & Hslot).
      injection Hb as Hb _ _. apply base_inj in Hb. rewrite <-Hb in Hslot. simplify_eq. done. }
    clear Hc. induction c as [|e c IH]; [by apply not_elem_of_nil in He|].
    destruct (Hin e) as ([k' y] & -> & Hy); [left|]. cbn in Hy.
    destruct (decide (k' = k)) as [->|Hne].
    + exists [], c. split; [by simplify_eq|constructor].
    + destruct IH as (l1 & l2 & -> & Hl1).
      * intros e He'. apply Hin. by right.
      * apply elem_of_cons in He as [He|He]; [|done]. injection He as He _ _.
        apply base_inj in He. congruence.
      * exists (entry_of (k', y) :: l1), l2. split; [done|]. constructor; [|done].
        by exists (k', y).
  - apply Forall_forall. intros e He. destruct (Hin e He) as (b & -> & Hb).
    exists b. split; [done|]. congruence.
Qed.

(** *** Updating a bucket *)

Lemma stands_for_put t m k d f c :
  stands_for t m → m !! k = None →
  buckets t !! slot t k = Some c →
  stands_for (set_buckets (<[slot t k := c ++ [mkEntry (base k) d f]]> (buckets t))
                (u32 (count t + 1)) t) (<[k := (d, f)]> m).
Proof.
  intros Hs Hk Hc. destruct (insert_split _ _ _ (c ++ [mkEntry (base k) d f]) Hc)
    as (l1 & l2 & Hb & _ & Hb').
  split; cbn.
  - apply (sf_modulo _ _ Hs).
  - rewrite length_insert. apply (sf_length _ _ Hs).
  - apply (sf_dups _ _ Hs).
  - rewrite (sf_count _ _ Hs), map_size_insert_None by done.
    unfold u32. rewrite Zplus_mod_idemp_l. f_equal. lia.
  - intros i c' e Hi He. apply list_lookup_insert_Some in Hi as [(<- & <- & _)|[_ Hi]].
    + apply elem_of_app in He as [He|He%list_elem_of_singleton].
      * by apply (sf_slot _ _ Hs _ _ _ Hc).
      * by exists (k, (d, f)).
    + by apply (sf_slot _ _ Hs _ _ _ Hi).
  - rewrite Hb', map_to_list_insert by done. cbn. rewrite <-(sf_entries _ _ Hs), Hb.
    rewrite !concat_app. cbn. solve_Permutation.
Qed.

Lemma stands_for_delete t m k x l1 l2 :
  stands_for t m → m !! k = Some x →
  buckets t !! slot t k = Some (l1 ++ entry_of (k, x) :: l2) →
  stands_for (set_buckets (<[slot t k := l1 ++ l2]> (buckets t)) (u32 (count t - 1)) t)
    (delete k m).
Proof.
  intros Hs Hk Hc. destruct (insert_split _ _ _ (l1 ++ l2) Hc) as (b1 & b2 & Hb & _ & Hb').
  pose proof (size_delete_Some _ _ _ Hk) as Hsz.
  split; cbn.
  - apply (sf_modulo _ _ Hs).
  - rewrite length_insert. apply (sf_length _ _ Hs).
  - apply (sf_dups _ _ Hs).
  - rewrite (sf_count _ _ Hs), Hsz. unfold u32. rewrite Zminus_mod_idemp_l. f_equal. lia.
  - intros i c' e Hi He. apply list_lookup_insert_Some in Hi as [(<- & <- & _)|[_ Hi]].
    + apply (sf_slot _ _ Hs _ _ _ Hc).
      rewrite elem_of_app, elem_of_cons. apply elem_of_app in He. tauto.
    + by apply (sf_slot _ _ Hs _ _ _ Hi).
  - rewrite Hb'. apply (Permutation_cons_inv (a := entry_of (k, x))).
    transitivity (concat (buckets t)).
    + rewrite Hb, !concat_app. cbn. rewrite <-!app_assoc. cbn. solve_Permutation.
    + rewrite (sf_entries _ _ Hs), <-(map_to_list_delete m k x Hk). done.
Qed.

Lemma key_remove_ok t m k :
  stands_for t m →
  ∃ e t', key_remove t k = Ok (e, t') ∧ (λ e, (data e, free e)) <$> e = m !! k ∧
    stands_for t' (delete k m).
Proof.
  intros Hs. destruct (bucket_cases t m k Hs) as (c & Hb & Hc & Hcase).
  unfold key_remove. rewrite Hb. cbn. destruct (m !! k) as [x|] eqn:Ek; cbn.
  - destruct Hcase as (l1 & l2 & -> & Hl1). rewrite chain_remove_absent by done. cbn.
    rewrite same_base, bool_decide_true by done. cbn. do 2 eexists. split; [done|]. split.
    + cbn. destruct (release_ok (entry_of (k, x))) as [-> ->]. by destruct x.
    + by eapply stands_for_delete.
  - rewrite <-(app_nil_r c), chain_remove_absent by done. cbn. exists None, t.
    by rewrite delete_id.
Qed.

(** Freeing a table releases the data of the bindings that are left. *)
Lemma HashFree_ok t m : stands_for t m → HashFree t ≡ₚ releases m.
Proof.
  intros Hs. unfold HashFree, releases.
  assert (Hc : ∀ bs : list (list (HASH_ENTRY V)),
    concat (chain_free <$> bs) = chain_free (concat bs)).
  { induction bs as [|c bs IH]; [done|]. cbn. rewrite IH. unfold chain_free.
    by rewrite filter_app, fmap_app. }
  rewrite Hc. unfold chain_free. rewrite (sf_entries _ _ Hs). clear. induction (map_to_list m) as [|[k [d f]] l IH]; [done|].
  rewrite fmap_cons, !filter_cons. destruct f.
  - rewrite !decide_True, !fmap_cons, IH by done. done.
  - by rewrite !decide_False, IH by done.
Qed.

(** Every request is answered as the map answers it. *)
Lemma serve_ok q t m :
  stands_for t m →
  ∃ t', serve keyApi q t = Ok ((answer q m).1, t') ∧ stands_for t' (answer q m).2.
Proof.
  intros Hs. destruct q as [k d f|k|k|k|].
  all: try (destruct (bucket_cases t m k Hs) as (c & Hb & Hc & Hcase)).
  - cbn. unfold key_put. rewrite Hb. cbn. rewrite (sf_dups _ _ Hs).
    destruct (m !! k) as [x|] eqn:Ek; cbn.
    + destruct Hcase as (l1 & l2 & -> & Hl1). rewrite chain_put_absent by done. cbn.
      rewrite same_base, bool_decide_true by done. cbn. eauto.
    + rewrite <-(app_nil_r c), chain_put_absent by done. cbn.
      eexists. split; [done|]. by apply stands_for_put.
  - cbn. unfold key_get. rewrite Hb. cbn. destruct (m !! k) as [x|] eqn:Ek; cbn.
    + destruct Hcase as (l1 & l2 & -> & Hl1). rewrite chain_get_absent by done. cbn.
      rewrite same_base, bool_decide_true by done. cbn. eauto.
    + rewrite <-(app_nil_r c), chain_get_absent by done. cbn. eauto.
  - cbn. destruct (key_remove_ok t m k Hs) as (e & t' & -> & <- & Ht'). cbn. eauto.
  - cbn. unfold key_delete. destruct (key_remove_ok t m k Hs) as (e & t' & -> & <- & Ht').
    cbn. destruct e as [[kb d []]|]; cbn; eauto.
  - cbn. unfold HashSize. rewrite (sf_count _ _ Hs). eauto.
Qed.

Lemma serve_all_ok qs t m :
  stands_for t m →
  ∃ t', serve_all keyApi qs t = Ok ((answers qs m).1, t') ∧ stands_for t' (answers qs m).2.
Proof.
  revert t m. induction qs as [|q qs IH]; intros t m Hs; [by exists t|]. cbn.
  destruct (serve_ok q t m Hs) as (t1 & -> & H1). cbn. destruct (answer q m) as [r m1].
  destruct (IH t1 m1 H1) as (t2 & -> & H2). cbn. destruct (answers qs m1). eauto.
Qed.
End refinement.

(** *** The two kinds of keys *)

Lemma same_str_base (k k' : str) : same_str k (StrKey (Some k')) = Ok (bool_decide (k = k')).
Proof. done. Qed.
Lemma same_int_base (k k' : Z) : same_int k (IntKey k') = Ok (bool_decide (k = k')).
Proof. cbn. f_equal. by apply bool_decide_ext. Qed.

Abbreviation str_table := (stands_for (λ k : str, StrKey (Some k)) str_hash).
Abbreviation int_table := (stands_for IntKey (λ k : Z, k)).

Lemma str_serve_all {V} (qs : list (request str V)) t m :
  str_table t m →
  ∃ t', serve_all (strApi V) qs t = Ok ((answers qs m).1, t') ∧ str_table t' (answers qs m).2.
Proof.
  apply (serve_all_ok _ same_str str_hash (λ e, mkEntry (StrKey None) (data e) (free e)));
    [by intros ?? [=]|apply same_str_base|done].
Qed.
Lemma int_serve_all {V} (qs : list (request Z V)) t m :
  int_table t m →
  ∃ t', serve_all (intApi V) qs t = Ok ((answers qs m).1, t') ∧ int_table t' (answers qs m).2.
Proof.
  apply (serve_all_ok _ same_int (λ k, k) (λ e, e)); [by intros ?? [=]|apply same_int_base|done].
Qed.

Lemma int_put {V} (t : HASH_TABLE V) m k d f :
  int_table t m →
  ∃ t', HashPutI t k d f
      = Ok (match m !! k with Some _ => ANTLR3_ERR_HASHDUP | None => ANTLR3_SUCCESS end, t') ∧
    int_table t' (match m !! k with Some _ => m | None => <[k := (d, f)]> m end).
Proof.
  intros Hs. destruct (int_serve_all [Put k d f] t m Hs) as (t' & E & Ht'). cbn in E, Ht'.
  destruct (HashPutI t k d f) as [[c t1]| |]; [|done..]. exists t1. cbn in E.
  destruct (m !! k); cbn in *; by simplify_eq.
Qed.
Lemma int_remove {V} (t : HASH_TABLE V) m k :
  int_table t m →
  ∃ t', ListRemove t k = Ok (m !! k ≫= fst, t') ∧ int_table t' (delete k m).
Proof.
  intros Hs. destruct (int_serve_all [Remove k] t m Hs) as (t' & E & Ht'). cbn in E, Ht'.
  unfold ListRemove. destruct (HashRemoveI t k) as [[e t1]| |]; [|done..]. exists t1. cbn in *.
  destruct e, (m !! k); simplify_eq/=; by split.
Qed.

(** *** Enumerations *)
Section enumeration.
Context {V : Type}.

Lemma seek_bucket_spec (bs : list (list (HASH_ENTRY V))) b entry :
  (concat bs = [] ∧ seek_bucket bs b entry = (b + Z.of_nat (length bs), entry)) ∨
  ∃ i e c, bs !! i = Some (e :: c) ∧ seek_bucket bs b entry = (b + Z.of_nat i, e :: c) ∧
    concat bs = (e :: c) ++ concat (drop (S i) bs).
Proof.
  revert b. induction bs as [|[|e c] bs IH]; intros b; cbn.
  - left. split; [done|]. f_equal. lia.
  - destruct (IH (b + 1)) as [[-> ->]|(i & e & c & Hi & -> & ->)].
    + left. split; [done|]. f_equal. lia.
    + right. exists (S i), e, c. split_and!; [done| |done]. f_equal. lia.
  - right. exists 0%nat, e, c. split_and!; [done| |done]. f_equal. lia.
Qed.

(** The entries an enumeration has still to return, and its invariant. *)
Definition remaining (en : HASH_ENUM V) : list (HASH_ENTRY V) :=
  if modulo (en_table en) <=? en_bucket en then []
  else en_entry en ++ concat (drop (Z.to_nat (en_bucket en + 1)) (buckets (en_table en))).
Definition enum_ok (en : HASH_ENUM V) : Prop :=
  length (buckets (en_table en)) = Z.to_nat (modulo (en_table en)) ∧ 0 ≤ en_bucket en ∧
  (en_bucket en < modulo (en_table en) → en_entry en ≠ []).

Lemma EnumNextEntry_spec en :
  length (buckets (en_table en)) = Z.to_nat (modulo (en_table en)) →
  0 ≤ en_bucket en < modulo (en_table en) →
  enum_ok (EnumNextEntry en) ∧
  remaining (EnumNextEntry en)
  = tail (en_entry en) ++ concat (drop (Z.to_nat (en_bucket en + 1)) (buckets (en_table en))).
Proof.
  intros Hl Hb. unfold EnumNextEntry.
  assert (Hseek : ∀ bu en', en_entry en = en' → tail en' = [] →
    (let '(bucket, entry) := seek_bucket (drop (Z.to_nat (en_bucket en + 1))
        (buckets (en_table en))) (en_bucket en + 1) bu in
     enum_ok (mkEnum (en_table en) bucket entry) ∧
     remaining (mkEnum (en_table en) bucket entry)
     = tail en' ++ concat (drop (Z.to_nat (en_bucket en + 1)) (buckets (en_table en))))).
  { intros bu en' _ ->. cbn [app]. set (bs := drop _ _).
    assert (Hlen : Z.of_nat (length bs) = modulo (en_table en) - (en_bucket en + 1)).
    { subst bs. rewrite length_drop. lia. }
    destruct (seek_bucket_spec bs (en_bucket en + 1) bu) as [[-> ->]|(i & e & c & Hi & -> & ->)].
    - unfold enum_ok, remaining. cbn. destruct (Z.leb_spec (modulo (en_table en))
        (en_bucket en + 1 + Z.of_nat (length bs))); [|lia]. split; [|done].
      split_and!; [done|lia|lia].
    - apply lookup_lt_Some in Hi. unfold enum_ok, remaining. cbn.
      destruct (Z.leb_spec (modulo (en_table en)) (en_bucket en + 1 + Z.of_nat i)); [lia|].
      split; [split_and!; [done|lia|done]|]. do 3 f_equal. unfold bs. rewrite drop_drop.
      f_equal. lia. }
  destruct (en_entry en) as [|e [|e' c]] eqn:Ee.
  - specialize (Hseek [] [] eq_refl eq_refl). destruct (seek_bucket _ _ _). exact Hseek.
  - specialize (Hseek [e] [e] eq_refl eq_refl). destruct (seek_bucket _ _ _). exact Hseek.
  - clear Hseek. unfold enum_ok, remaining. cbn.
    destruct (Z.leb_spec (modulo (en_table en)) (en_bucket en)); [lia|].
    split; [split_and!; done || lia|done].
Qed.

Lemma enum_all_spec fuel en :
  enum_ok en → (length (remaining en) < fuel)%nat →
  enum_all fuel en = Ok ((λ e, (keybase e, data e)) <$> remaining en).
Proof.
  revert en. induction fuel as [|fuel IH]; intros en Hok Hf; [lia|].
  destruct Hok as (Hl & H0 & Hne). cbn. unfold EnumNext.
  destruct (Z.leb_spec (modulo (en_table en)) (en_bucket en)) as [Hd|Hd].
  { unfold remaining. by rewrite (proj2 (Z.leb_le _ _) Hd). }
  destruct (EnumNextEntry_spec en Hl) as [Hok' Hr]; [lia|].
  unfold remaining in Hf. unfold remaining at 1.
  destruct (Z.leb_spec (modulo (en_table en)) (en_bucket en)); [lia|].
  destruct (en_entry en) as [|e c]; [by destruct Hne|]. cbn in *.
  rewrite IH; [cbn; by rewrite Hr|done|rewrite Hr; cbn; lia].
Qed.

Lemma EnumNew_spec (t : HASH_TABLE V) :
  length (buckets t) = Z.to_nat (modulo t) → 0 < modulo t →
  ∃ en, EnumNew t = Ok en ∧ enum_ok en ∧ remaining en = concat (buckets t).
Proof.
  intros Hl Hm. unfold EnumNew. destruct (buckets t) as [|c bs] eqn:Eb; [cbn in Hl; lia|].
  cbn. eexists. split; [done|]. destruct c as [|e c].
  - destruct (EnumNextEntry_spec (mkEnum t 0 [])) as [Hok Hr]; cbn; [by rewrite Eb|lia|].
    split; [exact Hok|]. etransitivity; [exact Hr|]. cbn. by rewrite Eb.
  - unfold enum_ok, remaining. cbn. rewrite Eb. destruct (Z.leb_spec (modulo t) 0); [lia|].
    split; [done|done].
Qed.
End enumeration.

(** ** Adding to a list *)
Fixpoint add_all {V} (ds : list (option V)) (l : HASH_TABLE V) : outcome (list Z * HASH_TABLE V) :=
  match ds with
  | [] => Ok ([], l)
  | d :: ds =>
      '(c, l) ← ListAdd l d false;
      '(cs, l) ← add_all ds l;
      Ok (c :: cs, l)
  end.

(** The list holds the keys from 1 to [n]. *)
Definition list_upto {V} (n : nat) (l : HASH_TABLE V) (m : gmap Z (option V * bool)) : Prop :=
  int_table l m ∧ size m = n ∧ ∀ k, is_Some (m !! k) ↔ 1 ≤ k ≤ Z.of_nat n.

Lemma add_all_upto {V} (ds : list (option V)) n l m :
  list_upto n l m → Z.of_nat n + Z.of_nat (length ds) < 2 ^ 32 →
  ∃ l' m', add_all ds l = Ok (replicate (length ds) ANTLR3_SUCCESS, l') ∧
    list_upto (n + length ds) l' m' ∧ (∀ k, k ≤ Z.of_nat n → m' !! k = m !! k) ∧
    ∀ i d, ds !! i = Some d → m' !! (Z.of_nat (n + S i)) = Some (d, false).
Proof.
  revert n l m. induction ds as [|d ds IH]; intros n l m (Ht & Hsz & Hk) Hn.
  { exists l, m. split_and!; [done| |done|done]. by rewrite Nat.add_0_r. }
  cbn in *. unfold ListAdd, ListSize, HashSize. rewrite (sf_count _ _ _ _ Ht), Hsz.
  rewrite (u32_small (Z.of_nat n)), u32_small by lia.
  assert (Hnew : m !! (Z.of_nat n + 1) = None).
  { apply eq_None_not_Some. rewrite Hk. lia. }
  destruct (int_put l m (Z.of_nat n + 1) d false Ht) as (l1 & E & H1). rewrite Hnew in *.
  unfold ListPut. rewrite E. cbn.
  destruct (IH (S n) l1 (<[Z.of_nat n + 1 := (d, false)]> m)) as (l' & m' & -> & Hup & Hold & Hget).
  { split_and!; [done|by rewrite map_size_insert_None, Hsz|].
    intros k. rewrite lookup_insert_is_Some', Hk. lia. }
  { lia. }
  exists l', m'. split_and!; [done|by rewrite <-Nat.add_succ_comm| |].
  - intros k Hk'. rewrite Hold by lia. apply lookup_insert_ne. lia.
  - intros [|i] d' Hi; cbn in *.
    + injection Hi as <-. rewrite Hold by lia. replace (Z.of_nat (n + 1)) with (Z.of_nat n + 1) by lia.
      apply lookup_insert_eq.
    + rewrite <-(Hget i d' Hi). f_equal. lia.
Qed.

(** ** What the tables guarantee *)

(** C16: hash tables implement finite maps. Whatever requests a client makes on a
    new table through the functions for strings, or on another through those for
    integers, each is answered as a finite map answers it: putting a key that is
    there is refused, getting finds the data last put, removing and deleting take
    a binding out and hand back its data or release it, the size is the number of
    bindings. No request reads outside the buckets, and freeing the table calls the
    free functions of the bindings that are left, once each. *)
Theorem HashTable_map V n (qs : list (request str V)) (qs' : list (request Z V)) :
  0 < n →
  (∃ t, serve_all (strApi V) qs (HashTableNew n) = Ok ((answers qs ∅).1, t) ∧
     HashFree t ≡ₚ releases (answers qs ∅).2) ∧
  (∃ t, serve_all (intApi V) qs' (HashTableNew n) = Ok ((answers qs' ∅).1, t) ∧
     HashFree t ≡ₚ releases (answers qs' ∅).2).
Proof.
  intros Hn. split.
  - destruct (str_serve_all qs (HashTableNew n) ∅) as (t & E & Ht); [by apply stands_for_new|].
    exists t. split; [done|by eapply HashFree_ok].
  - destruct (int_serve_all qs' (HashTableNew n) ∅) as (t & E & Ht); [by apply stands_for_new|].
    exists t. split; [done|by eapply HashFree_ok].
Qed.

Definition sample_requests : list (request str nat) :=
  [Put (lit "a") (Some 1%nat) true; Put (lit "q") (Some 2%nat) true; Put (lit "a") None false;
   Get (lit "a"); Size; Delete (lit "a"); Get (lit "a"); Remove (lit "q"); Size].

Lemma HashTable_map_witness :
  ∃ t, serve_all (strApi nat) sample_requests (HashTableNew 2)
    = Ok ([Code 0; Code 0; Code 3; Data (Some 1%nat); Entries 2; Freed (Some (Some 1%nat));
           Data None; Taken (Some (Some 2%nat, true)); Entries 0], t).
Proof.
  destruct (HashTable_map nat 2 sample_requests []) as [(t & E & _) _]; [lia|].
  exists t. rewrite E. vm_compute. reflexivity.
Defined.

(** An enumeration visits every binding once. After any requests on a new
    table, a client that asks for the next entry until it is refused receives the
    keys and the data of the bindings of the map, each exactly once and nothing
    else. *)
Theorem enumeration_complete V n (qs : list (request str V)) fuel :
  0 < n → (size (answers qs ∅).2 < fuel)%nat →
  ∃ t en l, serve_all (strApi V) qs (HashTableNew n) = Ok ((answers qs ∅).1, t) ∧
    EnumNew t = Ok en ∧ enum_all fuel en = Ok l ∧
    l ≡ₚ (λ b, (StrKey (Some b.1), b.2.1)) <$> map_to_list (answers qs ∅).2.
Proof.
  intros Hn Hf.
  destruct (str_serve_all qs (HashTableNew n) ∅) as (t & E & Ht); [by apply stands_for_new|].
  destruct (EnumNew_spec t) as (en & Hen & Hok & Hr); [apply Ht|apply Ht|].
  pose proof (sf_entries _ _ _ _ Ht) as Hp. exists t, en. eexists. split_and!; [done|done| |].
  - apply enum_all_spec; [done|]. rewrite Hr, Hp, length_fmap. by rewrite length_map_to_list.
  - by rewrite Hr, Hp, <-list_fmap_compose.
Qed.

Lemma enumeration_complete_witness :
  ∃ t en l, serve_all (strApi nat) (take 2 sample_requests) (HashTableNew 2)
      = Ok ([Code 0; Code 0], t) ∧
    EnumNew t = Ok en ∧ enum_all 3 en = Ok l ∧
    l ≡ₚ [(StrKey (Some (lit "q")), Some 2%nat); (StrKey (Some (lit "a")), Some 1%nat)].
Proof.
  destruct (enumeration_complete nat 2 (take 2 sample_requests) 3) as (t & en & l & E & H1 & H2 & H3);
    [lia|vm_compute; lia|].
  exists t, en, l. split_and!; [exact E|exact H1|exact H2|]. rewrite H3. vm_compute. reflexivity.
Defined.

(** A list refuses new elements after one was removed. Elements that are added
    to a new list get the keys from 1 on, and all additions succeed; once an
    element other than the last is taken out, the next available key that
    [antlr3ListAdd] computes from the size is the key of the last element, and the
    addition fails with the code for a duplicate. *)
Theorem ListAdd_after_remove V n (ds : list (option V)) i d x f :
  0 < n → Z.of_nat (length ds) < 2 ^ 32 → ds !! i = Some d → (S i < length ds)%nat →
  ∃ l l' l'', add_all ds (ListNew n) = Ok (replicate (length ds) ANTLR3_SUCCESS, l) ∧
    ListRemove l (Z.of_nat (S i)) = Ok (d, l') ∧
    ListAdd l' x f = Ok (ANTLR3_ERR_HASHDUP, l'').
Proof.
  intros Hn Hlen Hi Hlast.
  destruct (add_all_upto ds 0 (ListNew n) ∅) as (l & m & E & (Ht & Hsz & Hk) & _ & Hget).
  { split_and!; [by apply stands_for_new|by rewrite map_size_empty|].
    intros k. rewrite lookup_empty. split; [by intros []|lia]. }
  { lia. }
  destruct (int_remove l m (Z.of_nat (S i)) Ht) as (l' & E' & Ht').
  assert (Hi' : m !! Z.of_nat (S i) = Some (d, false)) by exact (Hget i d Hi).
  rewrite Hi' in E'. rewrite Nat.add_0_l in Hsz, Hk.
  assert (Hsz' : S (size (delete (Z.of_nat (S i)) m)) = length ds).
  { by rewrite <-Hsz, (size_delete_Some _ _ _ Hi'). }
  destruct (int_put l' _ (Z.of_nat (size (delete (Z.of_nat (S i)) m)) + 1) x f Ht')
    as (l'' & E'' & _).
  exists l, l', l''. split_and!; [done|done|].
  unfold ListAdd, ListSize, HashSize, ListPut. rewrite (sf_count _ _ _ _ Ht').
  rewrite (u32_small (Z.of_nat (size _))), u32_small, E'' by lia.
  rewrite lookup_delete_ne by lia.
  assert (is_Some (m !! (Z.of_nat (size (delete (Z.of_nat (S i)) m)) + 1))) as [y ->]
    by (apply Hk; lia).
  done.
Qed.

Lemma ListAdd_after_remove_witness :
  ∃ l l' l'', add_all [Some 7%nat; Some 8%nat] (ListNew 10) = Ok ([0; 0], l) ∧
    ListRemove l 1 = Ok (Some 7%nat, l') ∧ ListAdd l' (Some 9%nat) true = Ok (3, l'').
Proof.
  apply (ListAdd_after_remove nat 10 [Some 7%nat; Some 8%nat] 0 (Some 7%nat) (Some 9%nat) true);
    [lia|cbn; lia|reflexivity|cbn; lia].
Defined.
