(* ===== verification/Vector.v ===== *)
(** The vectors, the stacks and the vector factory of the run time: the middle
    part of src/antlr/libantlr3c-3.4/src/antlr3collections.c. *)
From S2P Require Import Prelude.

(** ** Vectors *)

Definition ANTLR3_VECTOR_INTERNAL_SIZE : Z := 16.

Section vector.
Context {V : Type}.

(** An element is a pointer, absent when null; [freeptr] tells whether a function
    that releases it came with it. A slot of an array that was allocated and
    never written holds nothing. *)
Record VECTOR_ELEMENT : Type := mkElement {
  element : option V;
  freeptr : bool
}.
Definition NULL_ELEMENT : VECTOR_ELEMENT := mkElement None false.

(** [elements] points to the array inside the structure, or to one of the heap. *)
Record VECTOR : Type := mkVector {
  internal : list (option VECTOR_ELEMENT);
  external : option (list (option VECTOR_ELEMENT));
  count : Z;
  elementsSize : Z;
  factoryMade : bool
}.
Definition elements (v : VECTOR) : list (option VECTOR_ELEMENT) := default (internal v) (external v).
Definition set_elements (s : list (option VECTOR_ELEMENT)) (v : VECTOR) : VECTOR :=
  match external v with
  | Some _ => mkVector (internal v) (Some s) (count v) (elementsSize v) (factoryMade v)
  | None => mkVector s None (count v) (elementsSize v) (factoryMade v)
  end.
Definition set_count (n : Z) (v : VECTOR) : VECTOR :=
  mkVector (internal v) (external v) n (elementsSize v) (factoryMade v).
Definition set_factoryMade (b : bool) (v : VECTOR) : VECTOR :=
  mkVector (internal v) (external v) (count v) (elementsSize v) b.

(** Reading and writing [vector->elements[entry]]. *)
Definition read_slot (v : VECTOR) (entry : Z) : outcome VECTOR_ELEMENT :=
  match elements v !! Z.to_nat entry with
  | Some o => init o
  | None => Undef BadIndex
  end.
Definition write_slot (v : VECTOR) (entry : Z) (e : VECTOR_ELEMENT) : outcome VECTOR :=
  if decide (Z.to_nat entry < length (elements v))%nat
  then Ok (set_elements (<[Z.to_nat entry := Some e]> (elements v)) v)
  else Undef BadIndex.

(** [malloc] of an array of slots. *)
Definition fresh (n : Z) : list (option VECTOR_ELEMENT) := replicate (Z.to_nat n) None.

(** [antlr3SetVectorApi] *)
Definition SetVectorApi (v : VECTOR) (sizeHint : Z) : VECTOR :=
  let initialSize := if ANTLR3_VECTOR_INTERNAL_SIZE <? sizeHint then sizeHint
                     else ANTLR3_VECTOR_INTERNAL_SIZE in
  mkVector (internal v)
    (if ANTLR3_VECTOR_INTERNAL_SIZE <? sizeHint then Some (fresh initialSize) else None)
    0 initialSize false.

(** The memory of a vector before it is set up. *)
Definition raw_vector : VECTOR :=
  mkVector (fresh ANTLR3_VECTOR_INTERNAL_SIZE) None 0 0 false.

(** [antlr3VectorNew] *)
Definition VectorNew (sizeHint : Z) : VECTOR := SetVectorApi raw_vector sizeHint.

(** The loop of [antlr3VectorClear] and [antlr3VectorFree] over the entries: the
    elements that were released, and the slots. *)
Fixpoint clear_slots (n : nat) (s : list (option VECTOR_ELEMENT)) : outcome (list (option V) * list (option VECTOR_ELEMENT)) :=
  match n, s with
  | O, _ => Ok ([], s)
  | S _, [] => Undef BadIndex
  | S n, o :: s =>
      e ← init o;
      '(freed, s) ← clear_slots n s;
      Ok (if freeptr e then element e :: freed else freed, Some NULL_ELEMENT :: s)
  end.

(** [antlr3VectorClear] *)
Definition VectorClear (v : VECTOR) : outcome (list (option V) * VECTOR) :=
  '(freed, s) ← clear_slots (Z.to_nat (count v)) (elements v);
  Ok (freed, set_count 0 (set_elements s v)).

(** [antlr3VectorFree]; a vector of a factory stays allocated. *)
Definition VectorFree (v : VECTOR) : outcome (list (option V) * VECTOR) :=
  '(freed, s) ← clear_slots (Z.to_nat (count v)) (elements v);
  Ok (freed, set_elements s v).

(** [ANTLR3_MEMMOVE] of the entries after [entry] one place down. *)
Definition shuffle_down (v : VECTOR) (entry : Z) : VECTOR :=
  let s := elements v in
  let n := Z.to_nat (u32 (u32 (count v - entry) - 1)) in
  set_elements
    (take (Z.to_nat entry) s ++ take n (drop (Z.to_nat (entry + 1)) s)
      ++ drop (Z.to_nat entry + n) s) v.

(** [antlr3VectorDel]: what the free function of the entry was called on. *)
Definition VectorDel (v : VECTOR) (entry : Z) : outcome (list (option V) * VECTOR) :=
  if count v <=? entry then Ok ([], v)
  else
    e ← read_slot v entry;
    let freed := if freeptr e then [element e] else [] in
    v ← (if freeptr e then write_slot v entry (mkElement (element e) false) else Ok v);
    v ← (if entry =? u32 (count v - 1) then write_slot v entry (mkElement None false)
         else Ok (shuffle_down v entry));
    Ok (freed, set_count (u32 (count v - 1)) v).

(** [antlr3VectorGet] *)
Definition VectorGet (v : VECTOR) (entry : Z) : outcome (option V) :=
  if entry <? count v then
    e ← read_slot v entry;
    Ok (element e)
  else Ok None.

(** [antrl3VectorRemove] *)
Definition VectorRemove (v : VECTOR) (entry : Z) : outcome (option V * VECTOR) :=
  if count v <=? entry then Ok (None, v)
  else
    e ← read_slot v entry;
    v ← (if entry =? u32 (count v - 1) then write_slot v entry (mkElement None false)
         else Ok (shuffle_down v entry));
    Ok (element e, set_count (u32 (count v - 1)) v).

(** [antlr3VectorResize]; the internal entries are copied without regard to the
    size of the new array. *)
Definition VectorResize (v : VECTOR) (hint : Z) : outcome VECTOR :=
  let newSize := if (hint =? 0) || (hint <? elementsSize v)
                 then u32 (elementsSize v * 2) else u32 (hint * 2) in
  s ← (if ANTLR3_VECTOR_INTERNAL_SIZE <? elementsSize v
       then Ok (resize (Z.to_nat newSize) None (elements v))
       else if newSize <? ANTLR3_VECTOR_INTERNAL_SIZE then Undef BadIndex
       else Ok (internal v ++ fresh (newSize - ANTLR3_VECTOR_INTERNAL_SIZE)));
  Ok (mkVector (internal v) (Some s) (count v) newSize (factoryMade v)).

(** [antlr3VectorAdd] *)
Definition VectorAdd (v : VECTOR) (x : option V) (f : bool) : outcome (Z * VECTOR) :=
  v ← (if count v =? elementsSize v then VectorResize v 0 else Ok v);
  v ← write_slot v (count v) (mkElement x f);
  let v := set_count (u32 (count v + 1)) v in
  Ok (count v, v).

(** [antlr3VectorSet]: what was released, and the entry. *)
Definition VectorSet (v : VECTOR) (entry : Z) (x : option V) (f freeExisting : bool)
    : outcome (list (option V) * Z * VECTOR) :=
  v ← (if elementsSize v <=? entry then VectorResize v entry else Ok v);
  freed ← (if (entry <? count v) && freeExisting then
             e ← read_slot v entry;
             Ok (if freeptr e then [element e] else [])
           else Ok []);
  v ← write_slot v entry (mkElement x f);
  let v := if count v <=? entry then set_count (u32 (entry + 1)) v else v in
  Ok (freed, entry, v).

(** [antlr3VectorSwap] *)
Definition VectorSwap (v : VECTOR) (entry1 entry2 : Z) : outcome (bool * VECTOR) :=
  if (elementsSize v <=? entry1) || (elementsSize v <=? entry2) then Ok (false, v)
  else
    e1 ← read_slot v entry1;
    e2 ← read_slot v entry2;
    v ← write_slot v entry1 e2;
    v ← write_slot v entry2 e1;
    Ok (true, v).

(** [antlr3VectorSize] *)
Definition VectorSize (v : VECTOR) : Z := count v.

(** ** Stacks *)

Record STACK : Type := mkStack {
  vector : VECTOR;
  top : option V
}.

(** [antlr3StackNew] *)
Definition StackNew (sizeHint : Z) : STACK := mkStack (VectorNew sizeHint) None.

(** [antlr3StackSize] *)
Definition StackSize (s : STACK) : Z := count (vector s).

(** [antlr3StackFree] *)
Definition StackFree (s : STACK) : outcome (list (option V)) :=
  fst <$> VectorFree (vector s).

(** [antlr3StackPop]: the element that is on top afterwards. *)
Definition StackPop (s : STACK) : outcome (list (option V) * option V * STACK) :=
  '(freed, v) ← VectorDel (vector s) (u32 (count (vector s) - 1));
  t ← VectorGet v (u32 (count v - 1));
  Ok (freed, t, mkStack v t).

(** [antlr3StackGet] *)
Definition StackGet (s : STACK) (key : Z) : outcome (option V) :=
  VectorGet (vector s) (u32 key).

(** [antlr3StackPeek] *)
Definition StackPeek (s : STACK) : option V := top s.

(** [antlr3StackPush] *)
Definition StackPush (s : STACK) (x : option V) (f : bool) : outcome (Z * STACK) :=
  '(n, v) ← VectorAdd (vector s) x f;
  Ok (n, mkStack v x).
End vector.
Arguments VECTOR_ELEMENT : clear implicits.
Arguments VECTOR : clear implicits.
Arguments STACK : clear implicits.

(** ** Vectors implement lists *)
Section list_spec.
Context {V : Type}.

(** The first slots of a vector hold the elements of the list; the array is as
    long as the vector says, and it is the internal one until it grows. *)
Record holds (v : VECTOR V) (l : list (VECTOR_ELEMENT V)) : Prop := {
  h_elements : ∃ rest, elements v = (Some <$> l) ++ rest;
  h_count : count v = Z.of_nat (length l);
  h_length : Z.of_nat (length (elements v)) = elementsSize v;
  h_size : 16 ≤ elementsSize v < 2 ^ 32;
  h_internal : length (internal v) = 16%nat;
  h_external : elementsSize v = 16 → external v = None
}.

Lemma elements_set (s : list (option (VECTOR_ELEMENT V))) (v : VECTOR V) : elements (set_elements s v) = s.
Proof. unfold set_elements, elements. by destruct (external v). Qed.
Lemma elements_count n (v : VECTOR V) : elements (set_count n v) = elements v.
Proof. done. Qed.

Lemma holds_length v l : holds v l → (length l ≤ length (elements v))%nat.
Proof.
  intros H. destruct (h_elements _ _ H) as [rest ->]. rewrite length_app, length_fmap. lia.
Qed.

(** A vector after its slots and its count were written. *)
Lemma holds_update v l (s : list (option (VECTOR_ELEMENT V))) l' rest n :
  holds v l → length s = length (elements v) → s = (Some <$> l') ++ rest →
  n = Z.of_nat (length l') → holds (set_count n (set_elements s v)) l'.
Proof.
  intros H Hs E ->. pose proof (h_length _ _ H). pose proof (h_size _ _ H).
  split; unfold set_elements; destruct (external v) eqn:Ee; cbn; try done; try lia.
  - by exists rest.
  - by exists rest.
  - apply H.
  - rewrite Hs. unfold elements. rewrite Ee. apply H.
  - intros. by rewrite (h_external _ _ H) in Ee.
Qed.
Lemma holds_set v l (s : list (option (VECTOR_ELEMENT V))) l' rest :
  holds v l → length s = length (elements v) → s = (Some <$> l') ++ rest →
  length l' = length l → holds (set_elements s v) l'.
Proof.
  intros H Hs E Hl. pose proof (holds_update v l s l' rest (count v) H Hs E) as H'.
  rewrite (h_count _ _ H), Hl in H'. specialize (H' eq_refl).
  assert (set_count (Z.of_nat (length l)) (set_elements s v) = set_elements s v) as <-; [|done].
  unfold set_count, set_elements. rewrite <-(h_count _ _ H). by destruct (external v).
Qed.

Lemma holds_lookup v l i e : holds v l → l !! i = Some e → elements v !! i = Some (Some e).
Proof.
  intros H Hi. destruct (h_elements _ _ H) as [rest ->].
  rewrite lookup_app_l by (rewrite length_fmap; by eapply lookup_lt_Some).
  by rewrite list_lookup_fmap, Hi.
Qed.
Lemma read_slot_ok v l i e : holds v l → l !! i = Some e → read_slot v (Z.of_nat i) = Ok e.
Proof.
  intros H Hi. unfold read_slot. by rewrite Nat2Z.id, (holds_lookup v l i e H Hi).
Qed.
Lemma write_slot_ok v l i e :
  holds v l → (i < length (elements v))%nat →
  write_slot v (Z.of_nat i) e = Ok (set_elements (<[i := Some e]> (elements v)) v).
Proof. intros H Hi. unfold write_slot. rewrite Nat2Z.id, decide_True by done. done. Qed.

(** Writing over an element. *)
Lemma write_slot_holds v l i e :
  holds v l → (i < length l)%nat →
  ∃ v', write_slot v (Z.of_nat i) e = Ok v' ∧ holds v' (<[i := e]> l).
Proof.
  intros H Hi. pose proof (holds_length v l H). destruct (h_elements _ _ H) as [rest E].
  eexists. split; [apply (write_slot_ok v l); [done|lia]|].
  eapply (holds_set v l _ _ rest); [done|by rewrite length_insert| |by rewrite length_insert].
  rewrite E, insert_app_l by (by rewrite length_fmap). by rewrite list_fmap_insert.
Qed.

Lemma VectorNew_holds hint : 0 ≤ hint < 2 ^ 32 → holds (VectorNew hint) [].
Proof.
  intros Hh. unfold VectorNew, SetVectorApi, ANTLR3_VECTOR_INTERNAL_SIZE.
  destruct (Z.ltb_spec 16 hint); split; cbn; try done; try lia.
  - eexists. reflexivity.
  - unfold elements, fresh. cbn. rewrite length_replicate. lia.
  - eexists. reflexivity.
Qed.

(** *** Growing *)

Lemma VectorResize_ok v l :
  holds v l → elementsSize v < 2 ^ 31 →
  ∃ v', VectorResize v (elementsSize v) = Ok v' ∧ VectorResize v 0 = Ok v' ∧
    holds v' l ∧ elementsSize v' = 2 * elementsSize v.
Proof.
  intros H Hs. pose proof (h_size _ _ H) as Hz. pose proof (h_length _ _ H) as Hlen.
  destruct (h_elements _ _ H) as [rest E]. unfold VectorResize, ANTLR3_VECTOR_INTERNAL_SIZE.
  destruct (Z.eqb_spec (elementsSize v) 0); [lia|].
  destruct (Z.ltb_spec (elementsSize v) (elementsSize v)); [lia|]. cbn [orb Z.eqb].
  rewrite (u32_small (elementsSize v * 2)) by lia.
  destruct (Z.ltb_spec 16 (elementsSize v)) as [Hb|Hb].
  - eexists. split_and!; [reflexivity|reflexivity| |cbn; lia].
    split; unfold elements at 1; cbn; try done; try lia.
    + rewrite resize_ge, E, <-app_assoc by lia. by eexists.
    + apply H.
    + rewrite length_resize. lia.
    + apply H.
  - assert (Hi : external v = None) by (apply (h_external _ _ H); lia).
    destruct (Z.ltb_spec (elementsSize v * 2) 16); [lia|]. cbn.
    assert (E' : internal v = (Some <$> l) ++ rest).
    { rewrite <-E. unfold elements. by rewrite Hi. }
    eexists. split_and!; [reflexivity|reflexivity| |cbn; lia].
    split; unfold elements; cbn; try done; try lia.
    + rewrite E', <-app_assoc. by eexists.
    + apply H.
    + unfold fresh. rewrite length_app, length_replicate, (h_internal _ _ H). lia.
    + apply H.
Qed.

(** Writing the first free slot. *)
Lemma write_end v l e :
  holds v l → (length l < length (elements v))%nat → Z.of_nat (length l) + 1 < 2 ^ 32 →
  ∃ v', write_slot v (Z.of_nat (length l)) e = Ok v' ∧
    count v' = Z.of_nat (length l) ∧
    holds (set_count (u32 (count v' + 1)) v') (l ++ [e]).
Proof.
  intros H Hl Hb. destruct (h_elements _ _ H) as [rest E].
  assert (Hc : ∀ s, count (set_elements s v) = Z.of_nat (length l)).
  { intros s. rewrite <-(h_count _ _ H). unfold set_elements. by destruct (external v). }
  eexists. split; [by eapply write_slot_ok|]. split; [apply Hc|]. rewrite Hc. destruct rest as [|o rest].
  { rewrite E, app_nil_r, length_fmap in Hl. lia. }
  eapply (holds_update v l _ _ rest); [done|by rewrite length_insert| |].
  - rewrite E, insert_app_r_alt by (by rewrite length_fmap).
    rewrite length_fmap, Nat.sub_diag, fmap_app. cbn. by rewrite <-app_assoc.
  - rewrite u32_small, length_app by lia. cbn. lia.
Qed.

Lemma VectorAdd_ok v l x f :
  holds v l → Z.of_nat (length l) < 2 ^ 31 →
  ∃ v', VectorAdd v x f = Ok (Z.of_nat (length l) + 1, v') ∧ holds v' (l ++ [mkElement x f]).
Proof.
  intros H Hl. unfold VectorAdd.
  assert (∃ v1, (if count v =? elementsSize v then VectorResize v 0 else Ok v) = Ok v1 ∧
    holds v1 l ∧ (length l < length (elements v1))%nat) as (v1 & -> & Hv1 & Hl1).
  { pose proof (h_length _ _ H). pose proof (h_size _ _ H). pose proof (holds_length _ _ H). rewrite (h_count _ _ H).
    destruct (Z.eqb_spec (Z.of_nat (length l)) (elementsSize v)) as [He|He].
    - destruct (VectorResize_ok v l H) as (v1 & _ & E & H1' & Hs); [lia|].
      exists v1. split_and!; [done|done|]. pose proof (h_length _ _ H1'). lia.
    - exists v. split_and!; [done|done|]. lia. }
  cbn. rewrite (h_count _ _ Hv1).
  destruct (write_end v1 l (mkElement x f) Hv1 Hl1) as (v2 & -> & Hc & H2); [lia|]. cbn.
  eexists. split; [|exact H2]. by rewrite Hc, u32_small by lia.
Qed.

Lemma VectorSet_ok v l i x f fe :
  holds v l → (i ≤ length l)%nat → Z.of_nat (length l) < 2 ^ 31 →
  ∃ v', VectorSet v (Z.of_nat i) x f fe
      = Ok (match l !! i with
            | Some e => if fe && freeptr e then [element e] else []
            | None => []
            end, Z.of_nat i, v') ∧
    holds v' (take i l ++ mkElement x f :: drop (S i) l).
Proof.
  intros H Hi Hl. unfold VectorSet.
  assert (∃ v1, (if elementsSize v <=? Z.of_nat i then VectorResize v (Z.of_nat i) else Ok v) = Ok v1
    ∧ holds v1 l ∧ (i < length (elements v1))%nat) as (v1 & -> & Hv1 & Hl1).
  { pose proof (h_length _ _ H). pose proof (h_size _ _ H). pose proof (holds_length _ _ H).
    destruct (Z.leb_spec (elementsSize v) (Z.of_nat i)) as [He|He].
    - destruct (VectorResize_ok v l H) as (v1 & E & _ & H1' & Hs); [lia|].
      replace (Z.of_nat i) with (elementsSize v) by lia.
      exists v1. split_and!; [done|done|]. pose proof (h_length _ _ H1'). lia.
    - exists v. split_and!; [done|done|]. lia. }
  cbn. rewrite (h_count _ _ Hv1). destruct (l !! i) as [e|] eqn:Ei.
  - pose proof (lookup_lt_Some _ _ _ Ei).
    destruct (Z.ltb_spec (Z.of_nat i) (Z.of_nat (length l))); [|lia].
    destruct (write_slot_holds v1 l i (mkElement x f) Hv1) as (v2 & -> & Hv2); [lia|].
    rewrite insert_take_drop in Hv2 by done. exists v2. split; [|done].
    rewrite (read_slot_ok v1 l i e Hv1 Ei). pose proof (h_count _ _ Hv2) as Hc.
    rewrite <-insert_take_drop, length_insert in Hc by done.
    destruct fe; cbn; rewrite Hc; destruct (Z.leb_spec (Z.of_nat (length l)) (Z.of_nat i)); try lia;
      by destruct (freeptr e).
  - apply lookup_ge_None in Ei. assert (i = length l) as -> by lia.
    destruct (Z.ltb_spec (Z.of_nat (length l)) (Z.of_nat (length l))); [lia|]. cbn.
    destruct (write_end v1 l (mkElement x f) Hv1 Hl1) as (v2 & -> & Hc & H2); [lia|]. cbn.
    rewrite Hc in *. destruct (Z.leb_spec (Z.of_nat (length l)) (Z.of_nat (length l))); [|lia].
    eexists. split; [done|]. by rewrite take_ge, drop_ge by lia.
Qed.

Lemma VectorSwap_ok v l i j a b :
  holds v l → l !! i = Some a → l !! j = Some b →
  ∃ v', VectorSwap v (Z.of_nat i) (Z.of_nat j) = Ok (true, v') ∧ holds v' (<[j := a]> (<[i := b]> l)).
Proof.
  intros H Hi Hj. unfold VectorSwap. pose proof (h_length _ _ H). pose proof (holds_length _ _ H).
  pose proof (lookup_lt_Some _ _ _ Hi). pose proof (lookup_lt_Some _ _ _ Hj).
  destruct (Z.leb_spec (elementsSize v) (Z.of_nat i)); [lia|].
  destruct (Z.leb_spec (elementsSize v) (Z.of_nat j)); [lia|]. cbn [orb].
  rewrite (read_slot_ok v l i a), (read_slot_ok v l j b) by done. cbn.
  destruct (write_slot_holds v l i b H) as (v1 & -> & Hv1); [lia|]. cbn.
  destruct (write_slot_holds v1 _ j a Hv1) as (v2 & -> & Hv2); [rewrite length_insert; lia|]. cbn.
  eauto.
Qed.

Lemma VectorGet_ok v l i :
  holds v l → VectorGet v (Z.of_nat i) = Ok (l !! i ≫= element).
Proof.
  intros H. unfold VectorGet. rewrite (h_count _ _ H). destruct (l !! i) as [e|] eqn:Ei.
  - pose proof (lookup_lt_Some _ _ _ Ei).
    destruct (Z.ltb_spec (Z.of_nat i) (Z.of_nat (length l))); [|lia].
    by rewrite (read_slot_ok v l i e).
  - apply lookup_ge_None in Ei. by destruct (Z.ltb_spec (Z.of_nat i) (Z.of_nat (length l))); [lia|].
Qed.

(** Taking an element out: the last one is overwritten, the others are shuffled. *)
Lemma count_set_elements s (v : VECTOR V) : count (set_elements s v) = count v.
Proof. unfold set_elements. by destruct (external v). Qed.

Lemma take_out v l i e :
  holds v l → l !! i = Some e →
  ∃ v', (if Z.of_nat i =? u32 (count v - 1) then write_slot v (Z.of_nat i) (mkElement None false)
         else Ok (shuffle_down v (Z.of_nat i))) = Ok v' ∧
    holds (set_count (u32 (count v' - 1)) v') (delete i l).
Proof.
  intros H Hi. pose proof (lookup_lt_Some _ _ _ Hi) as Hlt. pose proof (holds_length v l H).
  pose proof (h_size _ _ H). pose proof (h_length _ _ H).
  destruct (h_elements _ _ H) as [rest E]. rewrite (h_count _ _ H).
  assert (Hdel : Z.of_nat (length (delete i l)) = Z.of_nat (length l) - 1).
  { rewrite length_delete by done. lia. }
  rewrite u32_small by lia. destruct (Z.eqb_spec (Z.of_nat i) (Z.of_nat (length l) - 1)) as [Hl|Hl].
  - eexists. split; [apply (write_slot_ok v l); [done|lia]|].
    rewrite count_set_elements, (h_count _ _ H).
    eapply (holds_update v l _ _ (Some NULL_ELEMENT :: rest)); [done|by rewrite length_insert| |].
    + rewrite delete_take_drop, drop_ge, app_nil_r by lia.
      rewrite E, <-(take_drop_middle l i e Hi), fmap_app at 1. cbn.
      rewrite (drop_ge l) by lia. cbn. rewrite <-app_assoc.
      rewrite insert_app_r_alt by (rewrite length_fmap, length_take; lia).
      rewrite length_fmap, length_take, Nat.min_l, Nat.sub_diag by lia. done.
    + rewrite u32_small; lia.
  - eexists. split; [done|]. unfold shuffle_down. rewrite count_set_elements, (h_count _ _ H).
    replace (Z.to_nat (u32 (u32 (Z.of_nat (length l) - Z.of_nat i) - 1))) with (length l - S i)%nat
      by (rewrite (u32_small (Z.of_nat (length l) - Z.of_nat i)), u32_small; lia).
    replace (Z.to_nat (Z.of_nat i + 1)) with (S i) by lia. rewrite Nat2Z.id.
    eapply (holds_update v l); [done| | |rewrite u32_small; lia].
    + rewrite !length_app, !length_take, !length_drop. lia.
    + rewrite E, delete_take_drop, fmap_app, fmap_take, fmap_drop, <-app_assoc. f_equal.
      { rewrite take_app_le by (rewrite length_fmap; lia). done. }
      f_equal. rewrite drop_app_le, take_app_le, take_ge
        by (rewrite ?length_drop, ?length_fmap; lia). done.
Qed.

Lemma VectorRemove_ok v l i e :
  holds v l → l !! i = Some e →
  ∃ v', VectorRemove v (Z.of_nat i) = Ok (element e, v') ∧ holds v' (delete i l).
Proof.
  intros H Hi. pose proof (lookup_lt_Some _ _ _ Hi). unfold VectorRemove.
  destruct (take_out v l i e H Hi) as (v' & E & Hv'). rewrite (h_count _ _ H) in *.
  destruct (Z.leb_spec (Z.of_nat (length l)) (Z.of_nat i)); [lia|].
  rewrite (read_slot_ok v l i e H Hi). cbn. rewrite E. cbn. eauto.
Qed.

Lemma VectorDel_ok v l i e :
  holds v l → l !! i = Some e →
  ∃ v', VectorDel v (Z.of_nat i) = Ok (if freeptr e then [element e] else [], v') ∧
    holds v' (delete i l).
Proof.
  intros H Hi. pose proof (lookup_lt_Some _ _ _ Hi). unfold VectorDel.
  rewrite (h_count _ _ H). destruct (Z.leb_spec (Z.of_nat (length l)) (Z.of_nat i)); [lia|].
  rewrite (read_slot_ok v l i e H Hi). cbn. destruct (freeptr e); cbn.
  - destruct (write_slot_holds v l i (mkElement (element e) false) H) as (v1 & -> & H1'); [lia|].
    cbn. destruct (take_out v1 _ i (mkElement (element e) false) H1') as (v' & E & Hv').
    { by rewrite list_lookup_insert_eq. }
    rewrite E. cbn. eexists. split; [done|].
    rewrite !delete_take_drop, take_insert_ge, drop_insert_lt in Hv' by lia.
    by rewrite delete_take_drop.
  - destruct (take_out v l i e H Hi) as (v' & E & Hv'). rewrite E. cbn. eauto.
Qed.

(** *** Clearing *)

Lemma clear_slots_ok (l : list (VECTOR_ELEMENT V)) rest :
  clear_slots (length l) ((Some <$> l) ++ rest)
  = Ok (element <$> filter (λ e, freeptr e = true) l,
        (Some <$> replicate (length l) NULL_ELEMENT) ++ rest).
Proof.
  induction l as [|e l IH]; [done|]. cbn -[filter]. rewrite IH. cbn -[filter].
  rewrite filter_cons. by destruct (freeptr e).
Qed.

Lemma VectorFree_ok v l :
  holds v l →
  ∃ v', VectorFree v = Ok (element <$> filter (λ e, freeptr e = true) l, v') ∧
    holds v' (replicate (length l) NULL_ELEMENT).
Proof.
  intros H. destruct (h_elements _ _ H) as [rest E]. unfold VectorFree.
  rewrite (h_count _ _ H), Nat2Z.id, E, clear_slots_ok. cbn. eexists. split; [done|].
  eapply holds_set; [done| |done|by rewrite length_replicate].
  by rewrite E, !length_app, !length_fmap, length_replicate.
Qed.

Lemma VectorClear_ok v l :
  holds v l →
  ∃ v', VectorClear v = Ok (element <$> filter (λ e, freeptr e = true) l, v') ∧ holds v' [].
Proof.
  intros H. destruct (h_elements _ _ H) as [rest E]. unfold VectorClear.
  rewrite (h_count _ _ H), Nat2Z.id, E, clear_slots_ok. cbn. eexists. split; [done|].
  eapply (holds_update v l _ []); [done| |done|done].
  by rewrite E, !length_app, !length_fmap, length_replicate.
Qed.

(** ** Requests to a vector

    A reply has what was released, the pointer and the number that the function
    returned. *)
Inductive vrequest : Type :=
| VAdd (x : option V) (f : bool)
| VDel (i : nat)
| VGet (i : nat)
| VRemove (i : nat)
| VSet (i : nat) (x : option V) (f freeExisting : bool)
| VSwap (i j : nat)
| VClear
| VSize.
Definition vreply : Type := list (option V) * option V * Z.

Definition vserve (q : vrequest) (v : VECTOR V) : outcome (vreply * VECTOR V) :=
  match q with
  | VAdd x f => '(n, v) ← VectorAdd v x f; Ok (([], None, n), v)
  | VDel i => '(freed, v) ← VectorDel v (Z.of_nat i); Ok ((freed, None, 0), v)
  | VGet i => p ← VectorGet v (Z.of_nat i); Ok (([], p, 0), v)
  | VRemove i => '(p, v) ← VectorRemove v (Z.of_nat i); Ok (([], p, 0), v)
  | VSet i x f fe => '(freed, n, v) ← VectorSet v (Z.of_nat i) x f fe; Ok ((freed, None, n), v)
  | VSwap i j =>
      '(b, v) ← VectorSwap v (Z.of_nat i) (Z.of_nat j);
      Ok (([], None, if b : bool then 1 else 0), v)
  | VClear => '(freed, v) ← VectorClear v; Ok ((freed, None, 0), v)
  | VSize => Ok (([], None, VectorSize v), v)
  end.
Fixpoint vserve_all (qs : list vrequest) (v : VECTOR V) : outcome (list vreply * VECTOR V) :=
  match qs with
  | [] => Ok ([], v)
  | q :: qs => '(r, v) ← vserve q v; '(rs, v) ← vserve_all qs v; Ok (r :: rs, v)
  end.

(** The specification: a list of elements. Setting an element past the end and
    swapping elements that do not exist is not allowed, and a list that grows has
    fewer than 2^31 elements. *)
Definition released (es : list (VECTOR_ELEMENT V)) : list (option V) :=
  element <$> filter (λ e, freeptr e = true) es.
Definition vanswer (q : vrequest) (l : list (VECTOR_ELEMENT V))
    : option (vreply * list (VECTOR_ELEMENT V)) :=
  match q with
  | VAdd x f =>
      if Z.of_nat (length l) <? 2 ^ 31
      then Some (([], None, Z.of_nat (length l) + 1), l ++ [mkElement x f]) else None
  | VDel i => Some ((released (option_list (l !! i)), None, 0), delete i l)
  | VGet i => Some (([], l !! i ≫= element, 0), l)
  | VRemove i => Some (([], l !! i ≫= element, 0), delete i l)
  | VSet i x f fe =>
      if (i <=? length l)%nat && (Z.of_nat (length l) <? 2 ^ 31)
      then Some ((if fe then released (option_list (l !! i)) else [], None, Z.of_nat i),
                 take i l ++ mkElement x f :: drop (S i) l)
      else None
  | VSwap i j =>
      match l !! i, l !! j with
      | Some a, Some b => Some (([], None, 1), <[j := a]> (<[i := b]> l))
      | _, _ => None
      end
  | VClear => Some ((released l, None, 0), [])
  | VSize => Some (([], None, Z.of_nat (length l)), l)
  end.
Fixpoint vanswers (qs : list vrequest) (l : list (VECTOR_ELEMENT V))
    : option (list vreply * list (VECTOR_ELEMENT V)) :=
  match qs with
  | [] => Some ([], l)
  | q :: qs => '(r, l) ← vanswer q l; '(rs, l) ← vanswers qs l; Some (r :: rs, l)
  end.

(** Indices past the end are refused without a change. *)
Lemma released_option (o : option (VECTOR_ELEMENT V)) :
  released (option_list o)
  = match o with Some e => if freeptr e then [element e] else [] | None => [] end.
Proof. destruct o as [[x []]|]; done. Qed.
Lemma delete_past (l : list (VECTOR_ELEMENT V)) i : l !! i = None → delete i l = l.
Proof. intros Hi%lookup_ge_None. rewrite delete_take_drop, take_ge, drop_ge by lia. apply app_nil_r. Qed.

Lemma vserve_ok q v l r l' :
  holds v l → vanswer q l = Some (r, l') → ∃ v', vserve q v = Ok (r, v') ∧ holds v' l'.
Proof.
  intros H Ha. assert (Hpast : ∀ i, l !! i = None → (count v <=? Z.of_nat i) = true).
  { intros i Hi%lookup_ge_None. rewrite (h_count _ _ H). apply Z.leb_le. lia. }
  destruct q as [x f|i|i|i|i x f fe|i j| |]; cbn [vserve vanswer] in *.
  - destruct (Z.ltb_spec (Z.of_nat (length l)) (2 ^ 31)); [|done]. simplify_eq.
    destruct (VectorAdd_ok v l x f H) as (v' & -> & Hv'); [done|]. cbn. eauto.
  - simplify_eq. rewrite released_option. destruct (l !! i) as [e|] eqn:Ei.
    + destruct (VectorDel_ok v l i e H Ei) as (v' & -> & Hv'). cbn. eauto.
    + unfold VectorDel. rewrite Hpast, delete_past by done. cbn. eauto.
  - simplify_eq. rewrite (VectorGet_ok v l' i H). cbn. eauto.
  - simplify_eq. destruct (l !! i) as [e|] eqn:Ei.
    + destruct (VectorRemove_ok v l i e H Ei) as (v' & -> & Hv'). cbn. eauto.
    + unfold VectorRemove. rewrite Hpast, delete_past by done. cbn. eauto.
  - destruct (Nat.leb_spec i (length l)), (Z.ltb_spec (Z.of_nat (length l)) (2 ^ 31)); try done.
    simplify_eq/=. destruct (VectorSet_ok v l i x f fe H) as (v' & -> & Hv'); [done|done|]. cbn.
    eexists. split; [|done]. rewrite released_option. by destruct fe, (l !! i).
  - destruct (l !! i) as [a|] eqn:Ei, (l !! j) as [b|] eqn:Ej; try done. simplify_eq.
    destruct (VectorSwap_ok v l i j a b H Ei Ej) as (v' & -> & Hv'). cbn. eauto.
  - simplify_eq. destruct (VectorClear_ok v l H) as (v' & -> & Hv'). cbn. eauto.
  - simplify_eq. unfold VectorSize. rewrite (h_count _ _ H). eauto.
Qed.

Lemma vserve_all_ok qs v l rs l' :
  holds v l → vanswers qs l = Some (rs, l') → ∃ v', vserve_all qs v = Ok (rs, v') ∧ holds v' l'.
Proof.
  revert v l rs. induction qs as [|q qs IH]; intros v l rs H Ha; cbn in Ha; [simplify_eq; eauto|].
  destruct (vanswer q l) as [[r l1]|] eqn:Eq; [|done]. cbn in Ha.
  destruct (vanswers qs l1) as [[rs1 l2]|] eqn:Eqs; [|done]. cbn in Ha. simplify_eq.
  destruct (vserve_ok q v l r l1 H Eq) as (v1 & E1 & H1).
  destruct (IH v1 l1 rs1 H1 Eqs) as (v2 & E2 & H2). cbn. rewrite E1. cbn. rewrite E2. cbn. eauto.
Qed.
End list_spec.
Arguments vrequest : clear implicits.

(** ** Stacks implement lists with the top first *)
Section stack_spec.
Context {V : Type}.

Record stacked (s : STACK V) (l : list (VECTOR_ELEMENT V)) : Prop := {
  st_vector : holds (vector s) (reverse l);
  st_top : top s = head l ≫= element
}.

Lemma StackNew_stacked hint : 0 ≤ hint < 2 ^ 32 → stacked (StackNew hint) [].
Proof. intros Hh. split; [by apply VectorNew_holds|done]. Qed.

Lemma StackPush_ok s l x f :
  stacked s l → Z.of_nat (length l) < 2 ^ 31 →
  ∃ s', StackPush s x f = Ok (Z.of_nat (length l) + 1, s') ∧ stacked s' (mkElement x f :: l).
Proof.
  intros [Hv _] Hl. unfold StackPush. rewrite <-(length_reverse l) in *.
  destruct (VectorAdd_ok (vector s) _ x f Hv Hl) as (v' & -> & Hv'). cbn.
  eexists. split; [done|]. split; [|done]. cbn [vector]. by rewrite reverse_cons.
Qed.

Lemma last_entry v (l : list (VECTOR_ELEMENT V)) :
  holds v (reverse l) → VectorGet v (u32 (count v - 1)) = Ok (head l ≫= element).
Proof.
  intros H. rewrite (h_count _ _ H), length_reverse. destruct l as [|e l]; cbn [length head].
  - unfold VectorGet. by rewrite (h_count _ _ H).
  - pose proof (h_size _ _ H). pose proof (h_length _ _ H) as Hl. pose proof (holds_length _ _ H) as Hr.
    rewrite length_reverse in Hr. cbn in Hr.
    replace (u32 (Z.of_nat (S (length l)) - 1)) with (Z.of_nat (length l)) by (rewrite u32_small; lia).
    rewrite (VectorGet_ok _ _ _ H), reverse_cons, lookup_app_r by (by rewrite length_reverse).
    by rewrite length_reverse, Nat.sub_diag.
Qed.

Lemma StackPop_ok s l :
  stacked s l →
  ∃ s', StackPop s = Ok (released (option_list (head l)), head (tail l) ≫= element, s') ∧
    stacked s' (tail l).
Proof.
  intros [Hv Ht]. unfold StackPop.
  assert (∃ v', VectorDel (vector s) (u32 (count (vector s) - 1))
    = Ok (released (option_list (head l)), v') ∧ holds v' (reverse (tail l))) as (v' & -> & Hv').
  { rewrite (h_count _ _ Hv), length_reverse. destruct l as [|e l]; cbn [length head tail option_list].
    - exists (vector s). unfold VectorDel. by rewrite (h_count _ _ Hv).
    - pose proof (h_size _ _ Hv). pose proof (h_length _ _ Hv). pose proof (holds_length _ _ Hv) as Hr.
      rewrite length_reverse in Hr. cbn in Hr.
      replace (u32 (Z.of_nat (S (length l)) - 1)) with (Z.of_nat (length l)) by (rewrite u32_small; lia).
      destruct (VectorDel_ok _ _ (length l) e Hv) as (v' & E & Hv').
      { rewrite reverse_cons, lookup_app_r by (by rewrite length_reverse).
        by rewrite length_reverse, Nat.sub_diag. }
      exists v'. rewrite E. split; [by destruct e as [x []]|].
      rewrite reverse_cons, delete_take_drop, take_app_length', drop_ge, app_nil_r in Hv'; [done| |].
      + rewrite length_app, length_reverse. cbn. lia.
      + by rewrite length_reverse. }
  cbn. rewrite (last_entry v' (tail l)) by done. cbn. eexists. split; [done|]. by split.
Qed.

(** Requests to a stack, and the list that answers them. *)
Inductive srequest : Type :=
| SPush (x : option V) (f : bool)
| SPop
| SPeek
| SGet (key : nat)
| SSize.

Definition sserve (q : srequest) (s : STACK V) : outcome (vreply * STACK V) :=
  match q with
  | SPush x f => '(n, s) ← StackPush s x f; Ok (([], None, n), s)
  | SPop => '(freed, p, s) ← StackPop s; Ok ((freed, p, 0), s)
  | SPeek => Ok (([], StackPeek s, 0), s)
  | SGet key => p ← StackGet s (Z.of_nat key); Ok (([], p, 0), s)
  | SSize => Ok (([], None, StackSize s), s)
  end.
Fixpoint sserve_all (qs : list srequest) (s : STACK V) : outcome (list vreply * STACK V) :=
  match qs with
  | [] => Ok ([], s)
  | q :: qs => '(r, s) ← sserve q s; '(rs, s) ← sserve_all qs s; Ok (r :: rs, s)
  end.

Definition sanswer (q : srequest) (l : list (VECTOR_ELEMENT V))
    : option (vreply * list (VECTOR_ELEMENT V)) :=
  match q with
  | SPush x f =>
      if Z.of_nat (length l) <? 2 ^ 31
      then Some (([], None, Z.of_nat (length l) + 1), mkElement x f :: l) else None
  | SPop => Some ((released (option_list (head l)), head (tail l) ≫= element, 0), tail l)
  | SPeek => Some (([], head l ≫= element, 0), l)
  | SGet key =>
      if Z.of_nat key <? 2 ^ 32 then Some (([], reverse l !! key ≫= element, 0), l) else None
  | SSize => Some (([], None, Z.of_nat (length l)), l)
  end.
Fixpoint sanswers (qs : list srequest) (l : list (VECTOR_ELEMENT V))
    : option (list vreply * list (VECTOR_ELEMENT V)) :=
  match qs with
  | [] => Some ([], l)
  | q :: qs => '(r, l) ← sanswer q l; '(rs, l) ← sanswers qs l; Some (r :: rs, l)
  end.

Lemma sserve_ok q s l r l' :
  stacked s l → sanswer q l = Some (r, l') → ∃ s', sserve q s = Ok (r, s') ∧ stacked s' l'.
Proof.
  intros H Ha. destruct q as [x f| | |key|]; cbn [sserve sanswer] in *.
  - destruct (Z.ltb_spec (Z.of_nat (length l)) (2 ^ 31)); [|done]. simplify_eq.
    destruct (StackPush_ok s l x f H) as (s' & -> & Hs'); [done|]. cbn. eauto.
  - simplify_eq. destruct (StackPop_ok s l H) as (s' & -> & Hs'). cbn. eauto.
  - simplify_eq. unfold StackPeek. rewrite (st_top _ _ H). eauto.
  - destruct (Z.ltb_spec (Z.of_nat key) (2 ^ 32)); [|done]. simplify_eq. unfold StackGet.
    rewrite u32_small, (VectorGet_ok _ _ _ (st_vector _ _ H)) by lia. cbn. eauto.
  - simplify_eq. unfold StackSize. rewrite (h_count _ _ (st_vector _ _ H)), length_reverse. eauto.
Qed.

Lemma sserve_all_ok qs s l rs l' :
  stacked s l → sanswers qs l = Some (rs, l') → ∃ s', sserve_all qs s = Ok (rs, s') ∧ stacked s' l'.
Proof.
  revert s l rs. induction qs as [|q qs IH]; intros s l rs H Ha; cbn in Ha; [simplify_eq; eauto|].
  destruct (sanswer q l) as [[r l1]|] eqn:Eq; [|done]. cbn in Ha.
  destruct (sanswers qs l1) as [[rs1 l2]|] eqn:Eqs; [|done]. cbn in Ha. simplify_eq.
  destruct (sserve_ok q s l r l1 H Eq) as (s1 & E1 & H1).
  destruct (IH s1 l1 rs1 H1 Eqs) as (s2 & E2 & H2). cbn. rewrite E1. cbn. rewrite E2. cbn. eauto.
Qed.
End stack_spec.
Arguments srequest : clear implicits.

(** Vectors implement lists. On a new vector, of whatever size it was asked
    for, a client that sets no element past the end, swaps only elements that
    exist and adds none beyond 2^31 gets for every request the answer of a list of
    elements: across the move of the internal entries to the heap and every
    doubling the elements stay where they are, removals shuffle the rest, and no
    slot is read that was not written or lies outside the array. Freeing the vector
    in the end releases the elements that are left. *)
Theorem Vector_list V hint (qs : list (vrequest V)) rs l :
  0 ≤ hint < 2 ^ 32 → vanswers qs [] = Some (rs, l) →
  ∃ v v', vserve_all qs (VectorNew hint) = Ok (rs, v) ∧ VectorFree v = Ok (released l, v').
Proof.
  intros Hh Ha. destruct (vserve_all_ok qs (VectorNew hint) [] rs l) as (v & E & Hv);
    [by apply VectorNew_holds|done|].
  destruct (VectorFree_ok v l Hv) as (v' & E' & _). eauto.
Qed.

Definition sample_vrequests : list (vrequest nat) :=
  (λ i, VAdd (Some i) (Nat.odd i)) <$> seq 0 20.

Lemma Vector_list_witness :
  ∃ rs v v', vserve_all (sample_vrequests ++ [VDel 17; VGet 17; VSwap 0 2; VRemove 0; VSize])
      (VectorNew 0) = Ok (rs, v) ∧
    drop 20 rs = [([Some 17%nat], None, 0); ([], Some 18%nat, 0); ([], None, 1);
                  ([], Some 2%nat, 0); ([], None, 18)] ∧
    VectorFree v = Ok ([Some 1; Some 3; Some 5; Some 7; Some 9; Some 11; Some 13; Some 15; Some 19]%nat, v').
Proof.
  destruct (vanswers (sample_vrequests ++ [VDel 17; VGet 17; VSwap 0 2; VRemove 0; VSize]) [])
    as [[rs l]|] eqn:E; [|by vm_compute in E].
  destruct (Vector_list nat 0 _ rs l ltac:(lia) E) as (v & v' & E1 & E2).
  exists rs, v, v'. split; [exact E1|]. vm_compute in E. injection E as <- <-.
  split; [reflexivity|].
  rewrite E2. vm_compute. reflexivity.
Defined.

(** Stacks implement lists with their top first, as the recognizer uses them
    for its follow sets. For every sequence of requests on a new stack that keeps
    it below 2^31 elements: pushing puts an element on top, popping takes the top
    element off and returns the one below it (null for the last, and an empty
    stack stays empty), peeking shows the top, and a key counts from the bottom. *)
Theorem Stack_list V hint (qs : list (srequest V)) rs l :
  0 ≤ hint < 2 ^ 32 → sanswers qs [] = Some (rs, l) →
  ∃ s, sserve_all qs (StackNew hint) = Ok (rs, s) ∧ StackPeek s = head l ≫= element ∧
    StackFree s = Ok (released (reverse l)).
Proof.
  intros Hh Ha. destruct (sserve_all_ok qs (StackNew hint) [] rs l) as (s & E & Hs);
    [by apply StackNew_stacked|done|].
  exists s. split_and!; [done|apply Hs|]. unfold StackFree.
  by destruct (VectorFree_ok _ _ (st_vector _ _ Hs)) as (v' & -> & _).
Qed.

Lemma Stack_list_witness :
  ∃ s, sserve_all [SPush (Some 1%nat) false; SPush (Some 2%nat) true; SPeek; SPop; SGet 0; SPop; SPop;
      SPush (Some 3%nat) true] (StackNew 8)
    = Ok ([([], None, 1); ([], None, 2); ([], Some 2%nat, 0); ([Some 2%nat], Some 1%nat, 0);
           ([], Some 1%nat, 0); ([], None, 0); ([], None, 0); ([], None, 1)], s) ∧
    StackPeek s = Some 3%nat ∧ StackFree s = Ok [Some 3%nat].
Proof.
  apply (Stack_list nat 8 _ _ [mkElement (Some 3%nat) true]); [lia|vm_compute; reflexivity].
Defined.
