(* ===== verification/VectorFactory.v ===== *)
(** The vector factory of src/antlr/libantlr3c-3.4/src/antlr3collections.c: pools
    of vectors and a stack of those that were given back. *)
From S2P Require Import Prelude Vector.

Definition ANTLR3_FACTORY_VPOOL_SIZE : Z := 256.

Section factory.
Context {V : Type}.

(** A pointer to a vector of the factory: its pool and its place there. *)
Definition ptr : Type := nat * nat.

Record VECTOR_FACTORY : Type := mkFactory {
  pools : list (list (VECTOR V));
  thisPool : Z;
  nextVector : Z;
  freeStack : STACK ptr
}.
Definition set_pools x (f : VECTOR_FACTORY) : VECTOR_FACTORY :=
  mkFactory x (thisPool f) (nextVector f) (freeStack f).
Definition set_nextVector x (f : VECTOR_FACTORY) : VECTOR_FACTORY :=
  mkFactory (pools f) (thisPool f) x (freeStack f).
Definition set_freeStack x (f : VECTOR_FACTORY) : VECTOR_FACTORY :=
  mkFactory (pools f) (thisPool f) (nextVector f) x.

(** The vector behind a pointer. *)
Definition load (f : VECTOR_FACTORY) (p : ptr) : outcome (VECTOR V) :=
  match pools f !! p.1 ≫= lookup p.2 with Some v => Ok v | None => Undef BadIndex end.
Definition store (f : VECTOR_FACTORY) (p : ptr) (v : VECTOR V) : VECTOR_FACTORY :=
  set_pools (alter (insert p.2 v) p.1 (pools f)) f.

(** [newPool]: the size of the array of pools is computed in 32 bits. *)
Definition newPool (f : VECTOR_FACTORY) : outcome VECTOR_FACTORY :=
  thisPool ← int_op (thisPool f + 1);
  if u32 ((thisPool + 1) * 8) <? (thisPool + 1) * 8 then Undef BadIndex
  else Ok (mkFactory
             (pools f ++ [replicate (Z.to_nat ANTLR3_FACTORY_VPOOL_SIZE) raw_vector])
             thisPool 0 (freeStack f)).

(** [antlr3VectorFactoryNew] *)
Definition VectorFactoryNew : outcome VECTOR_FACTORY :=
  f ← newPool (mkFactory [] (-1) 0 (StackNew 0));
  Ok (set_freeStack (StackNew 16) f).

(** [returnVector]: what was released. *)
Definition returnVector (f : VECTOR_FACTORY) (p : ptr)
    : outcome (list (option V) * VECTOR_FACTORY) :=
  v ← load f p;
  '(freed, v) ← VectorClear v;
  '(_, s) ← StackPush (freeStack f) (Some p) false;
  Ok (freed, set_freeStack s (store f p v)).

(** [newVector] *)
Definition newVector (f : VECTOR_FACTORY) : outcome (ptr * VECTOR_FACTORY) :=
  match StackPeek (freeStack f) with
  | Some p =>
      '(_, _, s) ← StackPop (freeStack f);
      Ok (p, set_freeStack s f)
  | None =>
      f ← (if ANTLR3_FACTORY_VPOOL_SIZE <=? nextVector f then newPool f else Ok f);
      let p := (Z.to_nat (thisPool f), Z.to_nat (nextVector f)) in
      let f := set_nextVector (u32 (nextVector f + 1)) f in
      v ← load f p;
      Ok (p, store f p (set_factoryMade true (SetVectorApi v ANTLR3_VECTOR_INTERNAL_SIZE)))
  end.

(** The first pass of [closeVectorFactory] frees the entries of every vector that
    was ever handed out, pool by pool: what is released. *)
Fixpoint free_vectors (vs : list (VECTOR V)) : outcome (list (option V)) :=
  match vs with
  | [] => Ok []
  | v :: vs =>
      '(freed, _) ← VectorFree v;
      rest ← free_vectors vs;
      Ok (freed ++ rest)
  end.
Fixpoint free_pools (ps : list (list (VECTOR V))) (poolCount thisPool nextVector : Z)
    : outcome (list (option V)) :=
  match ps with
  | [] => Ok []
  | pool :: ps =>
      let limit := if poolCount =? thisPool then nextVector else ANTLR3_FACTORY_VPOOL_SIZE in
      freed ← free_vectors (take (Z.to_nat limit) pool);
      rest ← free_pools ps (poolCount + 1) thisPool nextVector;
      Ok (freed ++ rest)
  end.
Definition closeVectorFactory (f : VECTOR_FACTORY) : outcome (list (option V)) :=
  _ ← StackFree (freeStack f);
  free_pools (pools f) 0 (thisPool f) (nextVector f).

(** ** Clients

    A client asks for a vector, gives back one that it has, or changes one that
    it has; [us] are the vectors it has. *)
Inductive client : VECTOR_FACTORY * list ptr → VECTOR_FACTORY * list ptr → Prop :=
| client_new f us p f' :
    newVector f = Ok (p, f') → client (f, us) (f', p :: us)
| client_return f us us' p freed f' :
    us ≡ₚ p :: us' → returnVector f p = Ok (freed, f') → client (f, us) (f', us')
| client_use f us p v l :
    p ∈ us → holds v l → client (f, us) (store f p v, us).

(** A pointer into the part of the pools that was handed out. *)
Definition allocated (f : VECTOR_FACTORY) (p : ptr) : Prop :=
  (Z.of_nat p.1 < thisPool f ∧ Z.of_nat p.2 < 256) ∨
  (Z.of_nat p.1 = thisPool f ∧ Z.of_nat p.2 < nextVector f).

Definition free_entry (p : ptr) : VECTOR_ELEMENT ptr := mkElement (Some p) false.

(** The vectors in use and those given back are different, and they are all that
    were handed out; those given back are empty. *)
Record factory_ok (n : Z) (f : VECTOR_FACTORY) (us fs : list ptr) : Prop := {
  fo_pools : Z.of_nat (length (pools f)) = thisPool f + 1;
  fo_pool : ∀ i pool, pools f !! i = Some pool → length pool = 256%nat;
  fo_next : 0 ≤ thisPool f ∧ 0 ≤ nextVector f ≤ 256;
  fo_stack : stacked (freeStack f) (free_entry <$> fs);
  fo_nodup : NoDup (us ++ fs);
  fo_alloc : ∀ p, p ∈ us ++ fs ↔ allocated f p;
  fo_used : ∀ p, p ∈ us → ∃ v l, load f p = Ok v ∧ holds v l;
  fo_free : ∀ p, p ∈ fs → ∃ v, load f p = Ok v ∧ holds v [];
  fo_raw : ∀ p v, load f p = Ok v → length (internal v) = 16%nat;
  fo_bound : 256 * thisPool f + nextVector f ≤ n ∧ Z.of_nat (length us + length fs) ≤ n
}.

(** ** Memory *)

Lemma load_lookup f p v : load f p = Ok v ↔ ∃ pool, pools f !! p.1 = Some pool ∧ pool !! p.2 = Some v.
Proof.
  unfold load. destruct (pools f !! p.1) as [pool|]; cbn; [|naive_solver].
  destruct (pool !! p.2) eqn:E; [|naive_solver]. split; [|naive_solver].
  intros [= <-]. eauto.
Qed.
Lemma load_store f p v v0 : load f p = Ok v0 → load (store f p v) p = Ok v.
Proof.
  intros (pool & Hp1 & Hp2)%load_lookup. apply load_lookup. exists (<[p.2 := v]> pool). cbn.
  rewrite list_lookup_alter_eq, Hp1. split; [done|].
  apply list_lookup_insert_eq. by eapply lookup_lt_Some.
Qed.
Lemma load_store_ne f p q v : p ≠ q → load (store f p v) q = load f q.
Proof.
  intros Hne. unfold load, store. cbn. destruct (decide (p.1 = q.1)) as [E|E].
  - rewrite <-E, list_lookup_alter_eq. destruct (pools f !! p.1); [|done]. cbn.
    rewrite list_lookup_insert_ne; [done|]. intros E'. apply Hne. destruct p, q; cbn in *; congruence.
  - by rewrite list_lookup_alter_ne.
Qed.
Lemma store_pool f p v i pool :
  pools (store f p v) !! i = Some pool → ∃ pool0, pools f !! i = Some pool0 ∧
    length pool = length pool0.
Proof.
  cbn. rewrite list_lookup_alter. destruct (decide (p.1 = i)) as [->|]; [|eauto].
  intros (pool0 & E & ->)%fmap_Some. exists pool0. by rewrite length_insert.
Qed.
Lemma length_store f p v : length (pools (store f p v)) = length (pools f).
Proof. apply length_alter. Qed.

(** A client writes a vector it has. *)
Lemma store_ok n f us fs p v l :
  factory_ok n f us fs → p ∈ us → holds v l → factory_ok n (store f p v) us fs.
Proof.
  intros H Hp Hv. destruct (fo_used _ _ _ _ H p Hp) as (v0 & _ & Hl0 & _).
  split.
  - rewrite length_store. apply H.
  - intros i pool (pool0 & Hi & ->)%store_pool. by apply (fo_pool _ _ _ _ H i).
  - apply H.
  - apply H.
  - apply H.
  - apply H.
  - intros q Hq. destruct (decide (p = q)) as [->|Hne].
    + exists v, l. by rewrite (load_store _ _ _ _ Hl0).
    + rewrite load_store_ne by done. by apply (fo_used _ _ _ _ H).
  - intros q Hq. assert (p ≠ q).
    { intros ->. pose proof (fo_nodup _ _ _ _ H) as Hnd.
      apply NoDup_app in Hnd as (_ & Hd & _). by apply (Hd q). }
    rewrite load_store_ne by done. by apply (fo_free _ _ _ _ H).
  - intros q w. destruct (decide (p = q)) as [->|Hne].
    + rewrite (load_store _ _ _ _ Hl0). intros [= <-]. apply Hv.
    + rewrite load_store_ne by done. apply (fo_raw _ _ _ _ H).
  - apply H.
Qed.

(** ** Giving a vector back *)

Lemma factory_perm n f us us' fs : us ≡ₚ us' → factory_ok n f us fs → factory_ok n f us' fs.
Proof.
  intros Hp []. split; try done.
  - by rewrite <-Hp.
  - intros p. rewrite <-Hp. auto.
  - intros p. rewrite <-Hp. auto.
  - by rewrite <-Hp.
Qed.

Lemma returnVector_ok n f us fs p :
  factory_ok n f (p :: us) fs → n < 2 ^ 31 →
  ∃ freed f', returnVector f p = Ok (freed, f') ∧ factory_ok n f' us (p :: fs).
Proof.
  intros H Hn. destruct (fo_used _ _ _ _ H p) as (v & l & Hl & Hv); [left|].
  destruct (VectorClear_ok v l Hv) as (v' & Ec & Hv').
  pose proof (store_ok n f (p :: us) fs p v' [] H ltac:(left) Hv') as Hs.
  destruct (StackPush_ok (freeStack f) (free_entry <$> fs) (Some p) false) as (s & Es & Hst).
  { apply H. }
  { pose proof (fo_bound _ _ _ _ H) as [_ Hb]. rewrite length_fmap. cbn in Hb. lia. }
  unfold returnVector. rewrite Hl. cbn. rewrite Ec. cbn. rewrite Es. cbn.
  do 2 eexists. split; [done|]. destruct Hs as [? ? ? ? Hnd Ha Hu Hf ? Hb].
  assert (Hperm : us ++ p :: fs ≡ₚ (p :: us) ++ fs) by (cbn; by rewrite Permutation_middle).
  split; try done.
  - by rewrite Hperm.
  - intros q. rewrite Hperm. apply Ha.
  - intros q Hq. apply Hu. by right.
  - intros q [->|Hq]%elem_of_cons; [|by apply Hf]. exists v'.
    split; [by apply (load_store _ _ _ v)|done].
  - cbn in *. lia.
Qed.

(** ** Asking for one *)

Lemma newPool_ok n f us fs :
  factory_ok n f us fs → nextVector f = 256 → n < 2 ^ 31 →
  ∃ f', newPool f = Ok f' ∧ factory_ok n f' us fs ∧ nextVector f' = 0 ∧
    load f' (Z.to_nat (thisPool f'), 0%nat) = Ok raw_vector.
Proof.
  intros H Hnext Hn. pose proof (fo_bound _ _ _ _ H). pose proof (fo_next _ _ _ _ H).
  pose proof (fo_pools _ _ _ _ H) as Hp. unfold newPool.
  assert (int_op (thisPool f + 1) = Ok (thisPool f + 1)) as ->.
  { unfold int_op, int_ok, INT_MIN, INT_MAX.
    destruct (Z.leb_spec (- 2 ^ 31) (thisPool f + 1)), (Z.leb_spec (thisPool f + 1) (2 ^ 31 - 1));
      cbn; done || lia. }
  cbn [mbind outcome_bind]. rewrite u32_small by lia.
  destruct (Z.ltb_spec ((thisPool f + 1 + 1) * 8) ((thisPool f + 1 + 1) * 8)); [lia|].
  eexists. split; [done|].
  assert (Hload : ∀ q w, load f q = Ok w → load (mkFactory (pools f ++ [replicate
    (Z.to_nat ANTLR3_FACTORY_VPOOL_SIZE) raw_vector]) (thisPool f + 1) 0 (freeStack f)) q = Ok w).
  { intros q w (pool & Hp1 & Hp2)%load_lookup. apply load_lookup. exists pool. cbn.
    split; [by apply lookup_app_l_Some|done]. }
  split; [|split; [done|]].
  - split; cbn; try done; try lia.
    + rewrite length_app. cbn. lia.
    + intros i pool Hi. apply lookup_app_Some in Hi as [Hi|[_ Hi]]; [by apply (fo_pool _ _ _ _ H i)|].
      apply list_lookup_singleton_Some in Hi as [_ <-]. done.
    + apply H.
    + apply H.
    + intros q. rewrite (fo_alloc _ _ _ _ H). unfold allocated in *. cbn. lia.
    + intros q Hq. destruct (fo_used _ _ _ _ H q Hq) as (v & l & Hv & Hl). eauto.
    + intros q Hq. destruct (fo_free _ _ _ _ H q Hq) as (v & Hv & Hl). eauto.
    + intros q w (pool & Hp1 & Hp2)%load_lookup. cbn in Hp1.
      apply lookup_app_Some in Hp1 as [Hp1|[_ Hp1]].
      * apply (fo_raw _ _ _ _ H q). apply load_lookup. eauto.
      * apply list_lookup_singleton_Some in Hp1 as [_ <-].
        by apply lookup_replicate_1 in Hp2 as [-> _].
  - apply load_lookup. cbn. exists (replicate 256 raw_vector). split; [|reflexivity].
    rewrite lookup_app_r by lia. by replace (Z.to_nat (thisPool f + 1) - length (pools f))%nat
      with 0%nat by lia.
Qed.

(** A vector that was never handed out is set up. *)
Lemma SetVectorApi_holds (v : VECTOR V) :
  length (internal v) = 16%nat →
  holds (set_factoryMade true (SetVectorApi v ANTLR3_VECTOR_INTERNAL_SIZE)) [].
Proof.
  intros Hi. split; cbn; try done; try lia.
  - by eexists.
  - unfold elements. cbn. by rewrite Hi.
Qed.

Lemma fresh_ok n f us fs v :
  factory_ok n f us fs → fs = [] → nextVector f < 256 →
  let p := (Z.to_nat (thisPool f), Z.to_nat (nextVector f)) in
  load f p = Ok v →
  factory_ok (n + 1)
    (store (set_nextVector (u32 (nextVector f + 1)) f) p
       (set_factoryMade true (SetVectorApi v ANTLR3_VECTOR_INTERNAL_SIZE))) (p :: us) [].
Proof.
  intros H -> Hlt p Hl. pose proof (fo_next _ _ _ _ H) as Hn.
  assert (Hraw : length (internal v) = 16%nat) by by apply (fo_raw _ _ _ _ H p).
  assert (Hnew : ∀ q, q ∈ us → q ≠ p).
  { intros q Hq ->. destruct (proj1 (fo_alloc _ _ _ _ H p)) as [[]|[]];
      [rewrite app_nil_r; done|unfold p in *; cbn in *; lia..]. }
  set (g := set_nextVector (u32 (nextVector f + 1)) f).
  assert (Hg : load g p = Ok v) by done.
  split.
  - rewrite length_store. apply H.
  - intros i pool (pool0 & Hi & ->)%store_pool. by apply (fo_pool _ _ _ _ H i).
  - cbn. rewrite u32_small by lia. lia.
  - apply H.
  - rewrite app_nil_r. pose proof (fo_nodup _ _ _ _ H) as Hnd. rewrite app_nil_r in Hnd.
    constructor; [|done]. intros Hp. by apply (Hnew p).
  - intros q. pose proof (fo_alloc _ _ _ _ H q) as Ha. rewrite app_nil_r in *.
    rewrite elem_of_cons, Ha. unfold allocated. cbn. rewrite u32_small by lia.
    destruct q as [i j]. unfold p. cbn. split.
    + intros [[= -> ->]|?]; lia.
    + intros Hq. destruct (decide (Z.of_nat i = thisPool f ∧ Z.of_nat j = nextVector f)) as [[]|];
        [left; f_equal; lia|right; lia].
  - intros q [->|Hq]%elem_of_cons.
    + do 2 eexists. split; [by apply (load_store _ _ _ v)|by apply SetVectorApi_holds].
    + rewrite load_store_ne by (by apply not_eq_sym, Hnew). by apply (fo_used _ _ _ _ H).
  - intros q Hq. by apply not_elem_of_nil in Hq.
  - intros q w. destruct (decide (p = q)) as [<-|Hne].
    + rewrite (load_store _ _ _ v) by done. by intros [= <-].
    + rewrite load_store_ne by done. apply (fo_raw _ _ _ _ H).
  - pose proof (fo_bound _ _ _ _ H). cbn in *. rewrite u32_small by lia. lia.
Qed.

Lemma newVector_ok n f us fs :
  factory_ok n f us fs → n < 2 ^ 31 →
  ∃ p f' fs', newVector f = Ok (p, f') ∧ (p ∉ us) ∧ factory_ok (n + 1) f' (p :: us) fs' ∧
    ∃ v, load f' p = Ok v ∧ holds v [].
Proof.
  intros H Hn. unfold newVector, StackPeek. rewrite (st_top _ _ (fo_stack _ _ _ _ H)).
  destruct fs as [|p fs]; cbn.
  - assert (∃ f1, (if ANTLR3_FACTORY_VPOOL_SIZE <=? nextVector f then newPool f else Ok f) = Ok f1 ∧
      factory_ok n f1 us [] ∧ nextVector f1 < 256) as (f1 & -> & Hok & Hlt).
    { pose proof (fo_next _ _ _ _ H). unfold ANTLR3_FACTORY_VPOOL_SIZE.
      destruct (Z.leb_spec 256 (nextVector f)).
      - destruct (newPool_ok n f us [] H) as (f1 & -> & Hok & Hz & _); [lia|done|].
        exists f1. split_and!; [done|done|lia].
      - eauto. }
    cbn. set (p := (Z.to_nat (thisPool f1), Z.to_nat (nextVector f1))).
    assert (∃ v, load f1 p = Ok v) as [v Hl].
    { pose proof (fo_next _ _ _ _ Hok). pose proof (fo_pools _ _ _ _ Hok).
      destruct (lookup_lt_is_Some_2 (pools f1) (p.1)) as [pool Hp]; [unfold p; cbn; lia|].
      pose proof (fo_pool _ _ _ _ Hok _ _ Hp).
      destruct (lookup_lt_is_Some_2 pool (p.2)) as [v Hv]; [unfold p; cbn; lia|].
      exists v. apply load_lookup. eauto. }
    change (load (set_nextVector (u32 (nextVector f1 + 1)) f1) p) with (load f1 p).
    rewrite Hl. cbn [mbind outcome_bind].
    pose proof (fresh_ok n f1 us [] v Hok eq_refl Hlt Hl) as Hok'. fold p in Hok'.
    do 3 eexists. split; [done|]. split_and!; [|exact Hok'|].
    + pose proof (fo_nodup _ _ _ _ Hok') as Hnd. rewrite app_nil_r in Hnd.
      by apply NoDup_cons in Hnd as [].
    + eexists. split; [by apply (load_store _ _ _ v)|]. apply SetVectorApi_holds.
      by apply (fo_raw _ _ _ _ Hok p).
  - destruct (StackPop_ok (freeStack f) (free_entry <$> p :: fs)) as (s & -> & Hs); [apply H|].
    cbn. destruct (fo_free _ _ _ _ H p) as (v & Hl & Hv); [left|].
    exists p. eexists. exists fs. split; [done|]. destruct H as [? ? ? ? Hnd Ha Hu Hf ? Hb].
    assert (Hperm : (p :: us) ++ fs ≡ₚ us ++ p :: fs) by (cbn; by rewrite Permutation_middle).
    split_and!; [| |exists v; done].
    + intros Hp. apply NoDup_app in Hnd as (_ & Hd & _). apply (Hd p Hp). left.
    + split; try done.
      * by rewrite Hperm.
      * intros q. rewrite Hperm. apply Ha.
      * intros q [->|Hq]%elem_of_cons; [by exists v, []|by apply Hu].
      * intros q Hq. apply Hf. by right.
      * cbn in *. lia.
Qed.

(** Handing out a vector changes no other one. *)
Lemma newVector_frame f p f' q v :
  newVector f = Ok (p, f') → load f q = Ok v → q ≠ p → load f' q = Ok v.
Proof.
  unfold newVector. intros E Hq Hne. destruct (StackPeek (freeStack f)).
  { destruct (StackPop (freeStack f)) as [[[? ?] ?]| |]; cbn in E; simplify_eq. done. }
  assert (∃ f1, (if ANTLR3_FACTORY_VPOOL_SIZE <=? nextVector f then newPool f else Ok f) = Ok f1 ∧
    load f1 q = Ok v) as (f1 & E1 & H1).
  { destruct (ANTLR3_FACTORY_VPOOL_SIZE <=? nextVector f); [|eauto]. unfold newPool in *.
    destruct (int_op (thisPool f + 1)) as [z| |]; cbn [mbind outcome_bind] in *; [|done..].
    destruct (u32 ((z + 1) * 8) <? (z + 1) * 8); [done|]. eexists. split; [done|].
    apply load_lookup in Hq as (pool & Hp & Hv). apply load_lookup. exists pool. cbn.
    split; [by apply lookup_app_l_Some|done]. }
  rewrite E1 in E. cbn in E.
  destruct (load (set_nextVector _ f1) _) as [w| |] eqn:Ew; cbn in E; simplify_eq.
  rewrite load_store_ne by congruence. exact H1.
Qed.

(** ** All clients *)

Lemma VectorFactoryNew_ok : ∃ f, VectorFactoryNew = Ok f ∧ factory_ok 0 f [] [].
Proof.
  eexists. split; [reflexivity|]. split; cbn; try done; try lia.
  - intros i pool Hi. apply list_lookup_singleton_Some in Hi as [_ <-]. done.
  - by apply StackNew_stacked.
  - constructor.
  - intros p. rewrite elem_of_nil. unfold allocated. cbn. lia.
  - intros p Hp. by apply not_elem_of_nil in Hp.
  - intros p Hp. by apply not_elem_of_nil in Hp.
  - intros p w (pool & Hp1 & Hp2)%load_lookup. cbn in Hp1.
    apply list_lookup_singleton_Some in Hp1 as [_ <-]. by apply lookup_replicate_1 in Hp2 as [-> _].
Qed.

Lemma client_ok n f us fs f' us' :
  client (f, us) (f', us') → factory_ok n f us fs → n < 2 ^ 31 →
  ∃ fs', factory_ok (n + 1) f' us' fs'.
Proof.
  intros Hc H Hn.
  inversion Hc as [? ? p ? Hnew|? ? ? p freed ? Hperm Hret|? ? p v l Hp Hv]; subst.
  - destruct (newVector_ok n f us fs H Hn) as (p' & f1 & fs' & E & _ & Hok & _).
    assert (Ok (p', f1) = Ok (p, f')) as [= -> ->] by congruence. eauto.
  - apply (factory_perm _ _ _ _ _ Hperm) in H.
    destruct (returnVector_ok n f us' fs p H Hn) as (freed' & f1 & E & Hok).
    assert (Ok (freed', f1) = Ok (freed, f')) as [= -> ->] by congruence.
    exists (p :: fs). destruct Hok. split; try done. lia.
  - exists fs. destruct (store_ok n f us' fs p v l H Hp Hv). split; try done. lia.
Qed.

Lemma clients_ok k f us fs n f' us' :
  nsteps client k (f, us) (f', us') → factory_ok n f us fs → n + Z.of_nat k < 2 ^ 31 →
  ∃ fs', factory_ok (n + Z.of_nat k) f' us' fs'.
Proof.
  revert f us fs n. induction k as [|k IH]; intros f us fs n Hst H Hn.
  - inversion Hst; subst. rewrite Z.add_0_r. eauto.
  - inversion Hst as [|? ? [f1 us1]]; subst.
    destruct (client_ok n f us fs f1 us1) as (fs1 & Hok); [done|done|lia|].
    destruct (IH f1 us1 fs1 (n + 1)) as (fs' & Hok'); [done|done|lia|].
    exists fs'. by replace (n + Z.of_nat (S k)) with (n + 1 + Z.of_nat k) by lia.
Qed.

(** ** Closing *)

Lemma holds_inj (v : VECTOR V) l l' : holds v l → holds v l' → l = l'.
Proof.
  intros H H'. destruct (h_elements _ _ H) as [r E], (h_elements _ _ H') as [r' E'].
  assert (length l = length l') by (apply Nat2Z.inj; by rewrite <-(h_count _ _ H), (h_count _ _ H')).
  rewrite E in E'. apply app_inj_1 in E' as [E' _]; [|by rewrite !length_fmap].
  by apply (inj (fmap Some)) in E'.
Qed.

Lemma free_vectors_ok (vs : list (VECTOR V)) :
  (∀ v, v ∈ vs → ∃ l, holds v l) →
  ∃ freed, free_vectors vs = Ok freed ∧
    ∀ x, x ∈ freed ↔ ∃ v l, v ∈ vs ∧ holds v l ∧ x ∈ released l.
Proof.
  induction vs as [|v vs IH]; intros Hvs; cbn.
  { exists []. split; [done|]. set_solver. }
  destruct (Hvs v) as [l Hl]; [left|]. destruct (VectorFree_ok v l Hl) as (v' & -> & _). cbn.
  destruct IH as (freed & -> & Hf); [intros w Hw; apply Hvs; by right|]. cbn.
  eexists. split; [done|]. intros x. rewrite elem_of_app, Hf. split.
  - intros [Hx|(w & l' & Hw & Hl' & Hx)].
    + exists v, l. split_and!; [left|done|done].
    + exists w, l'. split_and!; [by right|done|done].
  - intros (w & l' & [->|Hw]%elem_of_cons & Hl' & Hx); [|right; eauto].
    rewrite (holds_inj v l' l) in Hx by done. by left.
Qed.

Lemma free_pools_ok ps k tp nv :
  0 ≤ nv ≤ 256 → k + Z.of_nat (length ps) = tp + 1 →
  (∀ i pool, ps !! i = Some pool → length pool = 256%nat) →
  let live (v : VECTOR V) :=
    ∃ i j pool, ps !! i = Some pool ∧ pool !! j = Some v ∧
      (k + Z.of_nat i < tp ∧ Z.of_nat j < 256 ∨ k + Z.of_nat i = tp ∧ Z.of_nat j < nv) in
  (∀ v, live v → ∃ l, holds v l) →
  ∃ freed, free_pools ps k tp nv = Ok freed ∧
    ∀ x, x ∈ freed ↔ ∃ v l, live v ∧ holds v l ∧ x ∈ released l.
Proof.
  intros Hnv. revert k. induction ps as [|pool ps IH]; intros k Hk Hlen live Hlive; cbn.
  { exists []. split; [done|]. subst live. intros x. split; [by intros ?%not_elem_of_nil|].
    by intros (v & l & (i & j & pool & Hi & _) & _). }
  set (limit := if k =? tp then nv else ANTLR3_FACTORY_VPOOL_SIZE).
  assert (Hhead : ∀ v, v ∈ take (Z.to_nat limit) pool → live v).
  { intros v (j & Hj)%list_elem_of_lookup. apply lookup_take_Some in Hj as [Hj Hlt].
    exists 0%nat, j, pool. split_and!; [done|done|]. unfold limit, ANTLR3_FACTORY_VPOOL_SIZE in *.
    cbn in Hk. destruct (Z.eqb_spec k tp); lia. }
  destruct (free_vectors_ok (take (Z.to_nat limit) pool)) as (fr & -> & Hfr);
    [intros v Hv; by apply Hlive, Hhead|]. cbn.
  destruct (IH (k + 1)) as (fr' & -> & Hfr').
  { cbn in Hk. lia. }
  { intros i p Hi. by apply (Hlen (S i)). }
  { intros v (i & j & p & Hi & Hj & Hb). apply Hlive. exists (S i), j, p.
    split_and!; [done|done|lia]. }
  cbn. eexists. split; [done|]. intros x. rewrite elem_of_app, Hfr, Hfr'. split.
  - intros [(v & l & Hv & Hl & Hx)|(v & l & (i & j & p & Hi & Hj & Hb) & Hl & Hx)];
      exists v, l; (split_and!; [|done|done]); [by apply Hhead|].
    exists (S i), j, p. split_and!; [done|done|lia].
  - intros (v & l & (i & j & p & Hi & Hj & Hb) & Hl & Hx). destruct i as [|i]; cbn in Hi.
    + simplify_eq. left. exists v, l. split_and!; [|done|done].
      apply list_elem_of_lookup. exists j. apply lookup_take_Some. split; [done|].
      unfold limit, ANTLR3_FACTORY_VPOOL_SIZE. destruct (Z.eqb_spec k tp); lia.
    + right. exists v, l. split_and!; [|done|done]. exists i, j, p. split_and!; [done|done|lia].
Qed.

(** Closing a factory releases what its vectors in use hold, and nothing else. *)
Lemma closeVectorFactory_ok n f us fs :
  factory_ok n f us fs →
  ∃ freed, closeVectorFactory f = Ok freed ∧
    ∀ x, x ∈ freed ↔ ∃ p v l, p ∈ us ∧ load f p = Ok v ∧ holds v l ∧ x ∈ released l.
Proof.
  intros H. unfold closeVectorFactory, StackFree.
  destruct (VectorFree_ok _ _ (st_vector _ _ (fo_stack _ _ _ _ H))) as (w & -> & _). cbn.
  assert (Hptr : ∀ i j pool v, pools f !! i = Some pool → pool !! j = Some v → allocated f (i, j) →
    ∃ l, holds v l ∧ load f (i, j) = Ok v ∧ ((i, j) ∈ us ∨ l = [])).
  { intros i j pool v Hi Hj Ha%(fo_alloc _ _ _ _ H).
    assert (Hl : load f (i, j) = Ok v) by (apply load_lookup; eauto).
    apply elem_of_app in Ha as [Ha|Ha].
    - destruct (fo_used _ _ _ _ H _ Ha) as (v' & l & Hv' & Hvl).
      assert (v' = v) as -> by congruence.
      exists l. split_and!; [done|done|by left].
    - destruct (fo_free _ _ _ _ H _ Ha) as (v' & Hv' & Hvl).
      assert (v' = v) as -> by congruence.
      exists []. split_and!; [done|done|by right]. }
  destruct (free_pools_ok (pools f) 0 (thisPool f) (nextVector f)) as (freed & -> & Hf).
  { apply (fo_next _ _ _ _ H). }
  { rewrite (fo_pools _ _ _ _ H). lia. }
  { apply (fo_pool _ _ _ _ H). }
  { intros v (i & j & pool & Hi & Hj & Hb).
    destruct (Hptr i j pool v Hi Hj) as (l & Hl & _); [|by exists l].
    unfold allocated. cbn. lia. }
  exists freed. split; [done|]. intros x. rewrite Hf. split.
  - intros (v & l & (i & j & pool & Hi & Hj & Hb) & Hl & Hx).
    destruct (Hptr i j pool v Hi Hj) as (l' & Hl' & Hld & Hu); [unfold allocated; cbn; lia|].
    rewrite (holds_inj v l' l) in Hu by done. exists (i, j), v, l.
    destruct Hu as [Hu| ->]; [done|by apply not_elem_of_nil in Hx].
  - intros (p & v & l & Hp & Hld & Hl & Hx). exists v, l. split_and!; [|done|done].
    assert (Ha : allocated f p) by (apply (fo_alloc _ _ _ _ H), elem_of_app; by left).
    apply load_lookup in Hld as (pool & Hi & Hj). exists (p.1), (p.2), pool.
    split_and!; [done|done|]. unfold allocated in Ha. lia.
Qed.
End factory.
Arguments VECTOR_FACTORY : clear implicits.

(** A vector factory never hands out a vector that is in use. After any number
    of steps below 2^31 of clients that ask for vectors, change those they have and
    give them back, asking for one more succeeds; the vector is none of those in
    use and it is empty, whether it is new or was given back. Closing the factory
    at that point releases what the vectors in use hold and nothing else. *)
Theorem newVector_fresh V (f0 f : VECTOR_FACTORY V) us k :
  VectorFactoryNew = Ok f0 → nsteps client k (f0, []) (f, us) → Z.of_nat k < 2 ^ 31 →
  (∃ p f' v, newVector f = Ok (p, f') ∧ (p ∉ us) ∧ load f' p = Ok v ∧ holds v []) ∧
  (∃ freed, closeVectorFactory f = Ok freed ∧
     ∀ x, x ∈ freed ↔ ∃ p v l, p ∈ us ∧ load f p = Ok v ∧ holds v l ∧ x ∈ released l).
Proof.
  intros E0 Hst Hk. destruct (@VectorFactoryNew_ok V) as (f1 & E1 & Hok).
  assert (f1 = f0) as -> by congruence.
  destruct (clients_ok k f0 [] [] 0 f us Hst Hok) as (fs & Hok'); [lia|]. split.
  - destruct (newVector_ok _ f us fs Hok') as (p & f' & fs' & E & Hp & _ & v & Hv); [lia|].
    exists p, f', v. tauto.
  - by apply (closeVectorFactory_ok _ _ _ _ Hok').
Qed.

Lemma newVector_fresh_witness :
  ∃ f0 f us, VectorFactoryNew (V := nat) = Ok f0 ∧ nsteps client 3 (f0, []) (f, us) ∧
    us = [(0, 0)%nat] ∧ ∃ p f' v, newVector f = Ok (p, f') ∧ (p ∉ us) ∧ load f' p = Ok v ∧ holds v [].
Proof.
  destruct (@VectorFactoryNew_ok nat) as (f0 & E0 & H0).
  destruct (newVector_ok _ _ _ _ H0) as (p1 & f1 & fs1 & E1 & _ & H1 & _); [lia|].
  destruct (newVector_ok _ _ _ _ H1) as (p2 & f2 & fs2 & E2 & _ & H2 & _); [lia|].
  apply (factory_perm _ _ _ _ _ (Permutation_swap _ _ _)) in H2 as H2'.
  destruct (returnVector_ok _ _ _ _ _ H2) as (fr & f3 & E3 & H3); [lia|].
  assert (p1 = (0, 0)%nat) as ->.
  { assert (E : newVector f0 = Ok (p1, f1)) by done.
    vm_compute in E0. injection E0 as <-. vm_compute in E. by injection E. }
  assert (Hst : nsteps client 3 (f0, []) (f3, [(0, 0)%nat])).
  { econstructor; [by apply client_new|]. econstructor; [by apply client_new|].
    econstructor; [by eapply client_return|]. constructor. }
  exists f0, f3, [(0, 0)%nat]. split_and!; [done|done|done|].
  by destruct (newVector_fresh nat f0 f3 [(0, 0)%nat] 3 E0 Hst ltac:(lia)) as [Hnew _].
Defined.
