(* ===== verification/ConvertUTF.v ===== *)
(** The conversions between the encodings of Unicode,
    src/antlr/libantlr3c-3.4/src/antlr3convertutf.c. *)
From S2P Require Import Prelude.

(** ** Constants *)
Inductive ConversionResult : Type :=
| conversionOK | sourceExhausted | targetExhausted | sourceIllegal.
Inductive ConversionFlags : Type := strictConversion | lenientConversion.
#[export] Instance ConversionResult_eq_dec : EqDecision ConversionResult.
Proof. solve_decision. Defined.
#[export] Instance ConversionFlags_eq_dec : EqDecision ConversionFlags.
Proof. solve_decision. Defined.
Definition strict (flags : ConversionFlags) : bool := bool_decide (flags = strictConversion).

Definition UNI_REPLACEMENT_CHAR : Z := 0xFFFD.
Definition UNI_MAX_BMP : Z := 0xFFFF.
Definition UNI_MAX_UTF16 : Z := 0x10FFFF.
Definition UNI_MAX_LEGAL_UTF32 : Z := 0x10FFFF.
Definition UNI_SUR_HIGH_START : Z := 0xD800.
Definition UNI_SUR_HIGH_END : Z := 0xDBFF.
Definition UNI_SUR_LOW_START : Z := 0xDC00.
Definition UNI_SUR_LOW_END : Z := 0xDFFF.
Definition halfShift : Z := 10.
Definition halfBase : Z := 0x10000.
Definition halfMask : Z := 0x3FF.

Definition high_surrogate (ch : Z) : bool := (UNI_SUR_HIGH_START <=? ch) && (ch <=? UNI_SUR_HIGH_END).
Definition low_surrogate (ch : Z) : bool := (UNI_SUR_LOW_START <=? ch) && (ch <=? UNI_SUR_LOW_END).
Definition surrogate (ch : Z) : bool := (UNI_SUR_HIGH_START <=? ch) && (ch <=? UNI_SUR_LOW_END).
(** The character of a pair of surrogates. *)
Definition join_surrogates (ch ch2 : Z) : Z :=
  u32 (u32 (Z.shiftl (u32 (ch - UNI_SUR_HIGH_START)) halfShift) + u32 (ch2 - UNI_SUR_LOW_START) + halfBase).

(** ** The loops

    A conversion reads units from [source], of which it is given what is left, and
    writes units to a target with room for [room]. One turn of its loop either stops
    at the character it looks at, or goes on behind it, having written something and
    perhaps changed the result. *)
Inductive turn : Type :=
| Break (result : ConversionResult)
| Next (result : option ConversionResult) (source out : list Z).

Fixpoint convert (fuel : nat) (step : list Z → Z → turn) (source : list Z) (room : Z)
    (result : ConversionResult) : outcome (ConversionResult * list Z * list Z) :=
  match fuel with
  | O => Undef NoFuel
  | S fuel =>
      match source with
      | [] => Ok (result, [], [])
      | _ =>
          match step source room with
          | Break r => Ok (r, source, [])
          | Next r source' out =>
              '(r', rest, out') ← convert fuel step source' (room - Z.of_nat (length out)) (default result r);
              Ok (r', rest, out ++ out')
          end
      end
  end.
Definition run_loop (step : list Z → Z → turn) (source : list Z) (room : Z) :=
  convert (S (length source)) step source room conversionOK.

(** ** Writing one character *)

(** The two units of a character beyond the first plane. *)
Definition split_surrogates (ch : Z) : list Z :=
  let ch := u32 (ch - halfBase) in
  [u32 (Z.shiftr ch halfShift + UNI_SUR_HIGH_START) mod 2 ^ 16;
   u32 (Z.land ch halfMask + UNI_SUR_LOW_START) mod 2 ^ 16].

Definition firstByteMark : list Z := [0; 0; 0xC0; 0xE0; 0xF0; 0xF8; 0xFC].
(** The switch that falls through, from the last byte to the first. *)
Fixpoint put_bytes (bytesToWrite n : nat) (ch : Z) (out : list Z) : list Z :=
  match n with
  | O => out
  | S O => Z.lor ch (default 0 (firstByteMark !! bytesToWrite)) mod 2 ^ 8 :: out
  | S n => put_bytes bytesToWrite n (Z.shiftr ch 6) (Z.land (Z.lor ch 0x80) 0xBF mod 2 ^ 8 :: out)
  end.
Definition write_UTF8 (bytesToWrite : nat) (ch : Z) : list Z := put_bytes bytesToWrite bytesToWrite ch [].

(** ** Reading one character *)

(** A character of UTF-16, or why there is none. *)
Definition read_UTF16 (flags : ConversionFlags) (source : list Z) : ConversionResult + Z * list Z :=
  match source with
  | [] => inl sourceExhausted
  | ch :: source =>
      if high_surrogate ch then
        match source with
        | ch2 :: source' =>
            if low_surrogate ch2 then inr (join_surrogates ch ch2, source')
            else if strict flags then inl sourceIllegal
            else inr (ch, source)
        | [] => inl sourceExhausted
        end
      else if strict flags && low_surrogate ch then inl sourceIllegal
      else inr (ch, source)
  end.

(** The number of bytes that follow a first byte, and what they add up to on top of
    the character. *)
Definition trailing_table : list nat :=
  replicate 192 0%nat ++ replicate 32 1%nat ++ replicate 16 2%nat ++ replicate 8 3%nat ++
  replicate 4 4%nat ++ replicate 4 5%nat.
Definition trailingBytesForUTF8 (b : Z) : nat := default 0%nat (trailing_table !! Z.to_nat b).
Definition offsetsFromUTF8 : list Z :=
  [0x00000000; 0x00003080; 0x000E2080; 0x03C82080; 0xFA082080; 0x82082080].

(** [isLegalUTF8]; the caller has checked that there are [length] bytes. *)
Definition trail_ok (a : Z) : bool := negb ((a <? 0x80) || (0xBF <? a)).
Definition second_ok (first a : Z) : bool :=
  negb (0xBF <? a) &&
  (if first =? 0xE0 then negb (a <? 0xA0)
   else if first =? 0xED then negb (0x9F <? a)
   else if first =? 0xF0 then negb (a <? 0x90)
   else if first =? 0xF4 then negb (0x8F <? a)
   else negb (a <? 0x80)).
Definition isLegalUTF8 (source : list Z) (length : nat) : bool :=
  let at_ i := default 0 (source !! i) in
  if bool_decide (1 ≤ length ≤ 4)%nat then
    (if bool_decide (length = 4)%nat then trail_ok (at_ 3%nat) else true) &&
    (if bool_decide (3 ≤ length)%nat then trail_ok (at_ 2%nat) else true) &&
    (if bool_decide (2 ≤ length)%nat then second_ok (at_ 0%nat) (at_ 1%nat) else true) &&
    negb ((0x80 <=? at_ 0%nat) && (at_ 0%nat <? 0xC2)) && negb (0xF4 <? at_ 0%nat)
  else false.
Definition isLegalUTF8Sequence (source : list Z) : bool :=
  let n := S (trailingBytesForUTF8 (default 0 (source !! 0%nat))) in
  if bool_decide (length source < n)%nat then false else isLegalUTF8 source n.

(** The switch that adds up the bytes, in 32 bits. *)
Fixpoint gather (extra : nat) (source : list Z) (ch : Z) : Z * list Z :=
  match source with
  | [] => (ch, [])
  | b :: source =>
      let ch := u32 (ch + b) in
      match extra with
      | O => (ch, source)
      | S extra => gather extra source (u32 (Z.shiftl ch 6))
      end
  end.
Definition decode_bytes (extra : nat) (source : list Z) : Z * list Z :=
  let '(ch, rest) := gather extra source 0 in
  (u32 (ch - default 0 (offsetsFromUTF8 !! extra)), rest).

Definition read_UTF8 (source : list Z) : ConversionResult + Z * list Z :=
  match source with
  | [] => inl sourceExhausted
  | b :: _ =>
      let extraBytesToRead := trailingBytesForUTF8 b in
      if bool_decide (length source ≤ extraBytesToRead)%nat then inl sourceExhausted
      else if negb (isLegalUTF8 source (S extraBytesToRead)) then inl sourceIllegal
      else inr (decode_bytes extraBytesToRead source)
  end.

(** ** The conversions *)
Section conversions.
Context (flags : ConversionFlags).

Definition step_UTF32toUTF16 (source : list Z) (room : Z) : turn :=
  if room <=? 0 then Break targetExhausted
  else
    match source with
    | [] => Break conversionOK
    | ch :: source =>
        if ch <=? UNI_MAX_BMP then
          if surrogate ch then
            if strict flags then Break sourceIllegal
            else Next None source [UNI_REPLACEMENT_CHAR]
          else Next None source [ch]
        else if UNI_MAX_LEGAL_UTF32 <? ch then
          if strict flags then Next (Some sourceIllegal) source []
          else Next None source [UNI_REPLACEMENT_CHAR]
        else if room <=? 1 then Break targetExhausted
        else Next None source (split_surrogates ch)
    end.
Definition ConvertUTF32toUTF16 := run_loop step_UTF32toUTF16.

Definition step_UTF16toUTF32 (source : list Z) (room : Z) : turn :=
  match read_UTF16 flags source with
  | inl r => Break r
  | inr (ch, source') => if room <=? 0 then Break targetExhausted else Next None source' [ch]
  end.
Definition ConvertUTF16toUTF32 := run_loop step_UTF16toUTF32.

(** The bytes a character needs, and the character that is written. *)
Definition bytes_needed (ch max : Z) : nat * Z :=
  if ch <? 0x80 then (1%nat, ch) else if ch <? 0x800 then (2%nat, ch)
  else if ch <? 0x10000 then (3%nat, ch) else if ch <=? max then (4%nat, ch)
  else (3%nat, UNI_REPLACEMENT_CHAR).

Definition step_UTF16toUTF8 (source : list Z) (room : Z) : turn :=
  match read_UTF16 flags source with
  | inl r => Break r
  | inr (ch, source') =>
      let '(bytesToWrite, ch) := bytes_needed ch 0x10FFFF in
      if room <? Z.of_nat bytesToWrite then Break targetExhausted
      else Next None source' (write_UTF8 bytesToWrite ch)
  end.
Definition ConvertUTF16toUTF8 := run_loop step_UTF16toUTF8.

Definition step_UTF8toUTF16 (source : list Z) (room : Z) : turn :=
  match read_UTF8 source with
  | inl r => Break r
  | inr (ch, source') =>
      if room <=? 0 then Break targetExhausted
      else if ch <=? UNI_MAX_BMP then
        if surrogate ch then
          if strict flags then Break sourceIllegal else Next None source' [UNI_REPLACEMENT_CHAR]
        else Next None source' [ch]
      else if UNI_MAX_UTF16 <? ch then
        if strict flags then Break sourceIllegal else Next None source' [UNI_REPLACEMENT_CHAR]
      else if room <=? 1 then Break targetExhausted
      else Next None source' (split_surrogates ch)
  end.
Definition ConvertUTF8toUTF16 := run_loop step_UTF8toUTF16.

Definition step_UTF32toUTF8 (source : list Z) (room : Z) : turn :=
  match source with
  | [] => Break conversionOK
  | ch :: source' =>
      if strict flags && surrogate ch then Break sourceIllegal
      else
        let '(bytesToWrite, ch') := bytes_needed ch UNI_MAX_LEGAL_UTF32 in
        let result := if UNI_MAX_LEGAL_UTF32 <? ch then Some sourceIllegal else None in
        if room <? Z.of_nat bytesToWrite then Break targetExhausted
        else Next result source' (write_UTF8 bytesToWrite ch')
  end.
Definition ConvertUTF32toUTF8 := run_loop step_UTF32toUTF8.

Definition step_UTF8toUTF32 (source : list Z) (room : Z) : turn :=
  match read_UTF8 source with
  | inl r => Break r
  | inr (ch, source') =>
      if room <=? 0 then Break targetExhausted
      else if ch <=? UNI_MAX_LEGAL_UTF32 then
        if surrogate ch then
          if strict flags then Break sourceIllegal else Next None source' [UNI_REPLACEMENT_CHAR]
        else Next None source' [ch]
      else Next (Some sourceIllegal) source' [UNI_REPLACEMENT_CHAR]
  end.
Definition ConvertUTF8toUTF32 := run_loop step_UTF8toUTF32.
End conversions.

(** ** The encodings

    What Unicode defines: the scalar values, and the units that encode one. *)
Definition scalar (c : Z) : Prop := 0 ≤ c < 0xD800 ∨ 0xE000 ≤ c ≤ 0x10FFFF.
#[export] Instance scalar_dec c : Decision (scalar c).
Proof. unfold scalar. apply _. Defined.

Inductive encoding : Type := UTF8 | UTF16 | UTF32.
#[export] Instance encoding_eq_dec : EqDecision encoding.
Proof. solve_decision. Defined.
Definition encode (e : encoding) (c : Z) : list Z :=
  match e with
  | UTF8 =>
      if c <? 0x80 then [c]
      else if c <? 0x800 then [0xC0 + c / 64; 0x80 + c mod 64]
      else if c <? 0x10000 then [0xE0 + c / 4096; 0x80 + c / 64 mod 64; 0x80 + c mod 64]
      else [0xF0 + c / 262144; 0x80 + c / 4096 mod 64; 0x80 + c / 64 mod 64; 0x80 + c mod 64]
  | UTF16 =>
      if c <? 0x10000 then [c]
      else [0xD800 + (c - 0x10000) / 1024; 0xDC00 + (c - 0x10000) mod 1024]
  | UTF32 => [c]
  end.
Definition text_of (e : encoding) (cs : list Z) : list Z := mjoin (encode e <$> cs).
(** The units a source may hold. Those of UTF-32 are bounded: see [Convert_defects]. *)
Definition unit_ok (e : encoding) (u : Z) : Prop :=
  match e with
  | UTF8 => 0 ≤ u < 2 ^ 8
  | UTF16 => 0 ≤ u < 2 ^ 16
  | UTF32 => 0 ≤ u ≤ UNI_MAX_LEGAL_UTF32
  end.

(** The six conversions. *)
Definition step_of (flags : ConversionFlags) (from to : encoding) : list Z → Z → turn :=
  match from, to with
  | UTF32, UTF16 => step_UTF32toUTF16 flags
  | UTF16, UTF32 => step_UTF16toUTF32 flags
  | UTF16, UTF8 => step_UTF16toUTF8 flags
  | UTF8, UTF16 => step_UTF8toUTF16 flags
  | UTF32, UTF8 => step_UTF32toUTF8 flags
  | UTF8, UTF32 => step_UTF8toUTF32 flags
  | _, _ => λ source room, Break conversionOK
  end.
Definition Convert (flags : ConversionFlags) (from to : encoding) (source : list Z) (room : Z) :=
  run_loop (step_of flags from to) source room.

(** ** Lemmas on the bytes *)

(** The low six bits with the mark of a following byte. *)
Lemma byte_mark ch : 0 ≤ ch → Z.land (Z.lor ch 0x80) 0xBF mod 2 ^ 8 = 0x80 + ch mod 64.
Proof.
  intros Hc.
  assert (Hb : ∀ x, 0 ≤ x < 256 → Z.land (Z.lor x 0x80) 0xBF mod 2 ^ 8 = 0x80 + x mod 64).
  { intros x Hx. apply Z.eqb_eq.
    by apply (forall_range_spec (λ x, Z.land (Z.lor x 0x80) 0xBF mod 2 ^ 8 =? 0x80 + x mod 64) 256 0);
      [vm_compute|lia]. }
  assert (Hx : 0 ≤ ch mod 256 < 256) by (apply Z.mod_pos_bound; lia).
  assert (E : Z.land (Z.lor ch 0x80) 0xBF = Z.land (Z.lor (ch mod 256) 0x80) 0xBF).
  { change 256 with (2 ^ 8). rewrite <-Z.land_ones by lia.
    change 0xBF with (Z.land (Z.ones 8) 0xBF) at 1. change 0x80 with (Z.land 0x80 (Z.ones 8)) at 2.
    by rewrite Z.land_assoc, Z.land_lor_distr_l. }
  rewrite E, Hb by done. f_equal. change 256 with (64 * 4).
  rewrite Z.rem_mul_r by lia. rewrite Z.mul_comm, Z.mod_add, Z.mod_mod by lia. done.
Qed.

(** The first byte. *)
Lemma first_mark n m ch :
  (n, m) ∈ [(2%nat, 32); (3%nat, 16); (4%nat, 8)] → 0 ≤ ch < m →
  Z.lor ch (default 0 (firstByteMark !! n)) mod 2 ^ 8 = default 0 (firstByteMark !! n) + ch.
Proof.
  intros Hn Hc. apply Z.eqb_eq.
  repeat (rewrite elem_of_cons in Hn). destruct Hn as [[= -> ->]|[[= -> ->]|[[= -> ->]|Hn]]];
    [..|by apply not_elem_of_nil in Hn].
  - by apply (forall_range_spec (λ ch, Z.lor ch 0xC0 mod 2 ^ 8 =? 0xC0 + ch) 32 0); [vm_compute|lia].
  - by apply (forall_range_spec (λ ch, Z.lor ch 0xE0 mod 2 ^ 8 =? 0xE0 + ch) 16 0); [vm_compute|lia].
  - by apply (forall_range_spec (λ ch, Z.lor ch 0xF0 mod 2 ^ 8 =? 0xF0 + ch) 8 0); [vm_compute|lia].
Qed.

(** [write_UTF8] writes the encoding, also of a surrogate. *)
Lemma write_UTF8_ok c max : 0 ≤ c ≤ max → max ≤ 0x10FFFF →
  bytes_needed c max = (length (encode UTF8 c), c) ∧
  write_UTF8 (length (encode UTF8 c)) c = encode UTF8 c.
Proof.
  intros Hc Hm. unfold bytes_needed, encode.
  assert (Hs : ∀ x, Z.shiftr x 6 = x / 64) by (intros; by rewrite Z.shiftr_div_pow2).
  destruct (Z.ltb_spec c 0x80); [|destruct (Z.ltb_spec c 0x800); [|destruct (Z.ltb_spec c 0x10000);
    [|destruct (Z.leb_spec c max); [|lia]]]]; (split; [done|]);
    unfold write_UTF8; cbn -[Z.div Z.modulo Z.lor Z.land Z.shiftr Z.add].
  - rewrite Z.lor_0_r, Z.mod_small; [done|lia].
  - rewrite byte_mark, Hs by lia. change 0xC0 with (default 0 (firstByteMark !! 2%nat)).
    rewrite (first_mark 2 32); [done|by apply (bool_decide_unpack _)|].
    Z.to_euclidean_division_equations; lia.
  - rewrite !byte_mark, !Hs, Z.div_div by (rewrite ?Hs; Z.to_euclidean_division_equations; lia).
    change 0xE0 with (default 0 (firstByteMark !! 3%nat)).
    rewrite (first_mark 3 16); [done|by apply (bool_decide_unpack _)|].
    Z.to_euclidean_division_equations; lia.
  - rewrite !byte_mark, !Hs, !Z.div_div by (rewrite ?Hs; Z.to_euclidean_division_equations; lia).
    change 0xF0 with (default 0 (firstByteMark !! 4%nat)).
    rewrite (first_mark 4 8); [done|by apply (bool_decide_unpack _)|].
    Z.to_euclidean_division_equations; lia.
Qed.

(** The table of following bytes. *)
Lemma trailing_spec b : 0 ≤ b < 256 →
  trailingBytesForUTF8 b =
    if b <? 192 then 0%nat else if b <? 224 then 1%nat else if b <? 240 then 2%nat
    else if b <? 248 then 3%nat else if b <? 252 then 4%nat else 5%nat.
Proof.
  intros Hb. apply Nat.eqb_eq.
  by apply (forall_range_spec (λ b, Nat.eqb (trailingBytesForUTF8 b)
    (if b <? 192 then 0%nat else if b <? 224 then 1%nat else if b <? 240 then 2%nat
     else if b <? 248 then 3%nat else if b <? 252 then 4%nat else 5%nat)) 256 0); [vm_compute|lia].
Qed.

(** Decoding adds up the bytes without overflow. *)
Ltac small_u32 := repeat match goal with
  | |- context [u32 ?x] => lazymatch x with context [u32 _] => fail | _ => rewrite (u32_small x) by lia end
  end.
Ltac decoding := intros; unfold decode_bytes; cbn -[u32 Z.shiftl Z.add Z.sub];
  rewrite ?Z.shiftl_mul_pow2 by lia; small_u32; f_equal; try (f_equal; lia).
Lemma decode_1 b rest : 0 ≤ b < 256 → decode_bytes 0 (b :: rest) = (b, rest).
Proof. decoding. Qed.
Lemma decode_2 b b1 rest : 0 ≤ b < 256 → 0 ≤ b1 < 256 →
  decode_bytes 1 (b :: b1 :: rest) = (u32 (b * 64 + b1 - 0x3080), rest).
Proof. decoding. Qed.
Lemma decode_3 b b1 b2 rest : 0 ≤ b < 256 → 0 ≤ b1 < 256 → 0 ≤ b2 < 256 →
  decode_bytes 2 (b :: b1 :: b2 :: rest) = (u32 ((b * 64 + b1) * 64 + b2 - 0xE2080), rest).
Proof. decoding. Qed.
Lemma decode_4 b b1 b2 b3 rest :
  0 ≤ b < 256 → 0 ≤ b1 < 256 → 0 ≤ b2 < 256 → 0 ≤ b3 < 256 →
  decode_bytes 3 (b :: b1 :: b2 :: b3 :: rest)
  = (u32 (((b * 64 + b1) * 64 + b2) * 64 + b3 - 0x3C82080), rest).
Proof. decoding. Qed.

(** What [read_UTF8] does with a first byte that [n] bytes follow. *)
Lemma legal_cases b b1 b2 b3 rest :
  isLegalUTF8 (b :: rest) 1 = negb ((0x80 <=? b) && (b <? 0xC2)) && negb (0xF4 <? b) ∧
  isLegalUTF8 (b :: b1 :: rest) 2 =
    second_ok b b1 && negb ((0x80 <=? b) && (b <? 0xC2)) && negb (0xF4 <? b) ∧
  isLegalUTF8 (b :: b1 :: b2 :: rest) 3 =
    trail_ok b2 && second_ok b b1 && negb ((0x80 <=? b) && (b <? 0xC2)) && negb (0xF4 <? b) ∧
  isLegalUTF8 (b :: b1 :: b2 :: b3 :: rest) 4 =
    trail_ok b3 && trail_ok b2 && second_ok b b1 && negb ((0x80 <=? b) && (b <? 0xC2)) && negb (0xF4 <? b).
Proof. done. Qed.
Lemma read_trailing b source n :
  trailingBytesForUTF8 b = n →
  read_UTF8 (b :: source) =
    if bool_decide (length source < n)%nat then inl sourceExhausted
    else if negb (isLegalUTF8 (b :: source) (S n)) then inl sourceIllegal
    else inr (decode_bytes n (b :: source)).
Proof.
  intros <-. unfold read_UTF8. do 2 case_bool_decide; cbn in *; try done; lia.
Qed.

(** An encoding is legal and is decoded. *)
Lemma read_encoded c rest : scalar c → read_UTF8 (encode UTF8 c ++ rest) = inr (c, rest).
Proof.
  intros Hc. assert (Hr : 0 ≤ c ≤ 0x10FFFF) by (unfold scalar in Hc; lia). unfold encode.
  destruct (Z.ltb_spec c 0x80); [|destruct (Z.ltb_spec c 0x800); [|destruct (Z.ltb_spec c 0x10000)]];
    cbn [app].
  - rewrite (read_trailing _ _ 0) by (rewrite trailing_spec by lia; zb; done || lia).
    case_bool_decide as Hl; [cbn in Hl; lia|clear Hl]. destruct (legal_cases c 0 0 0 rest) as (-> & _).
    rewrite decode_1 by lia. zb; done || lia.
  - assert (2 ≤ c / 64 < 32) by (Z.to_euclidean_division_equations; lia).
    assert (0 ≤ c mod 64 < 64) by (apply Z.mod_pos_bound; lia).
    rewrite (read_trailing _ _ 1) by (rewrite trailing_spec by lia; zb; done || lia).
    case_bool_decide as Hl; [cbn in Hl; lia|clear Hl].
    destruct (legal_cases (0xC0 + c / 64) (0x80 + c mod 64) 0 0 rest) as (_ & -> & _).
    assert (Hd : c = c / 64 * 64 + c mod 64) by (Z.to_euclidean_division_equations; lia).
    rewrite decode_2 by lia. unfold second_ok. clear Hc.
    generalize dependent (c / 64). generalize dependent (c mod 64). intros x Hx y Hy ->.
    replace (u32 _) with (y * 64 + x) by (unfold u32; rewrite Z.mod_small; lia).
    zb; try done; lia.
  - assert (0 ≤ c / 4096 < 16) by (Z.to_euclidean_division_equations; lia).
    assert (0 ≤ c / 64 mod 64 < 64) by (apply Z.mod_pos_bound; lia).
    assert (0 ≤ c mod 64 < 64) by (apply Z.mod_pos_bound; lia).
    assert (Hd : c = c / 4096 * 4096 + c / 64 mod 64 * 64 + c mod 64)
      by (Z.to_euclidean_division_equations; lia).
    rewrite (read_trailing _ _ 2) by (rewrite trailing_spec by lia; zb; done || lia).
    case_bool_decide as Hl; [cbn in Hl; lia|clear Hl].
    destruct (legal_cases (0xE0 + c / 4096) (0x80 + c / 64 mod 64) (0x80 + c mod 64) 0 rest) as (_ & _ & -> & _).
    rewrite decode_3 by lia. unfold second_ok, trail_ok. unfold scalar in Hc.
    generalize dependent (c / 4096). generalize dependent (c / 64 mod 64).
    generalize dependent (c mod 64). intros x Hx y Hy z Hz ->.
    replace (u32 _) with (z * 4096 + y * 64 + x) by (unfold u32; rewrite Z.mod_small; lia).
    zb; try done; lia.
  - assert (0 ≤ c / 262144 < 5) by (Z.to_euclidean_division_equations; lia).
    assert (0 ≤ c / 4096 mod 64 < 64) by (apply Z.mod_pos_bound; lia).
    assert (0 ≤ c / 64 mod 64 < 64) by (apply Z.mod_pos_bound; lia).
    assert (0 ≤ c mod 64 < 64) by (apply Z.mod_pos_bound; lia).
    assert (Hd : c = c / 262144 * 262144 + c / 4096 mod 64 * 4096 + c / 64 mod 64 * 64 + c mod 64)
      by (Z.to_euclidean_division_equations; lia).
    rewrite (read_trailing _ _ 3) by (rewrite trailing_spec by lia; zb; done || lia).
    case_bool_decide as Hl; [cbn in Hl; lia|clear Hl].
    destruct (legal_cases (0xF0 + c / 262144) (0x80 + c / 4096 mod 64) (0x80 + c / 64 mod 64)
      (0x80 + c mod 64) rest) as (_ & _ & _ & ->).
    rewrite decode_4 by lia. unfold second_ok, trail_ok. clear Hc.
    generalize dependent (c / 262144). generalize dependent (c / 4096 mod 64).
    generalize dependent (c / 64 mod 64). generalize dependent (c mod 64).
    intros x Hx y Hy z Hz w Hw ->.
    replace (u32 _) with (w * 262144 + z * 4096 + y * 64 + x) by (unfold u32; rewrite Z.mod_small; lia).
    zb; try done; lia.
Qed.

(** The bytes that [isLegalUTF8] accepts although they encode nothing: the cases of its
    inner switch for these two first bytes do not test that the second one is at least
    0x80. *)
Definition lax (source : list Z) : Prop :=
  match source with
  | b :: b1 :: _ => (b = 0xED ∨ b = 0xF4) ∧ b1 < 0x80
  | _ => False
  end.

(** What is read is the encoding of a character. *)
Lemma read_decoded source c rest :
  Forall (unit_ok UTF8) source → read_UTF8 source = inr (c, rest) →
  (scalar c ∧ source = encode UTF8 c ++ rest) ∨ lax source.
Proof.
  intros Hs. destruct source as [|b source]; [done|]. cbn [unit_ok] in Hs.
  apply Forall_cons in Hs as [Hb Hs]. cbn in Hb.
  assert (Hn := trailing_spec b Hb).
  rewrite (read_trailing _ _ _ eq_refl). case_bool_decide as Hl; [done|].
  revert Hn Hl. generalize (trailingBytesForUTF8 b). intros n Hn Hl.
  assert (Hn4 : (4 ≤ n)%nat → isLegalUTF8 (b :: source) (S n) = false).
  { intros. unfold isLegalUTF8. case_bool_decide; [lia|done]. }
  destruct n as [|[|[|[|n]]]]; [| | | |by rewrite Hn4 by lia]; clear Hn4.
  - destruct (legal_cases b 0 0 0 source) as (-> & _). rewrite decode_1 by done.
    revert Hn. zb; try done. intros _ [= <- <-]. left. unfold scalar, encode. zb. split; [lia|done].
  - destruct source as [|b1 source]; [cbn in Hl; lia|]. clear Hl.
    apply Forall_cons in Hs as [H1 _]. cbn in H1.
    destruct (legal_cases b b1 0 0 source) as (_ & -> & _). rewrite decode_2 by done.
    unfold second_ok. revert Hn. zb; try done; intros _ [= <- <-];
    left; (replace (u32 _) with ((b - 0xC0) * 64 + (b1 - 0x80)) by (unfold u32; rewrite Z.mod_small; lia));
    unfold scalar, encode; zb; (split; [lia|]); cbn [app];
    repeat f_equal; Z.to_euclidean_division_equations; lia.
  - destruct source as [|b1 [|b2 source]]; [cbn in Hl; lia..|]. clear Hl.
    apply Forall_cons in Hs as [H1 [H2 _]%Forall_cons]. cbn in H1, H2.
    destruct (legal_cases b b1 b2 0 source) as (_ & _ & -> & _). rewrite decode_3 by done.
    destruct (trail_ok b2 && second_ok b b1 && _ && _) eqn:E; [|done]. revert E.
    unfold second_ok, trail_ok. revert Hn. zb; try done; intros _ _ [= <- <-];
    (destruct (decide (b1 < 0x80)); [right; cbn; lia|left]);
    (replace (u32 _) with ((b - 0xE0) * 4096 + (b1 - 0x80) * 64 + (b2 - 0x80)) by (unfold u32; rewrite Z.mod_small; lia));
    unfold scalar, encode; zb; (split; [lia|]); cbn [app];
    repeat f_equal; Z.to_euclidean_division_equations; lia.
  - destruct source as [|b1 [|b2 [|b3 source]]]; [cbn in Hl; lia..|]. clear Hl.
    apply Forall_cons in Hs as [H1 [H2 [H3 _]%Forall_cons]%Forall_cons]. cbn in H1, H2, H3.
    destruct (legal_cases b b1 b2 b3 source) as (_ & _ & _ & ->). rewrite decode_4 by done.
    destruct (trail_ok b3 && _ && _ && _ && _) eqn:E; [|done]. revert E.
    unfold second_ok, trail_ok. revert Hn. zb; try done; intros _ _ [= <- <-];
    (destruct (decide (b1 < 0x80)); [right; cbn; lia|left]);
    (replace (u32 _) with ((b - 0xF0) * 262144 + (b1 - 0x80) * 4096 + (b2 - 0x80) * 64 + (b3 - 0x80))
      by (unfold u32; rewrite Z.mod_small; lia));
    unfold scalar, encode; zb; (split; [lia|]); cbn [app];
    repeat f_equal; Z.to_euclidean_division_equations; lia.
Qed.

(** ** One turn of each conversion

    With strict checks a conversion that is handed the units of characters does one
    character per turn. *)
Lemma scalar_range c : scalar c → 0 ≤ c ≤ 0x10FFFF ∧ surrogate c = false.
Proof. unfold scalar, surrogate, UNI_SUR_HIGH_START, UNI_SUR_LOW_END. intros H. split; [lia|]. zb; done. Qed.

Lemma join_surrogates_ok h l : 0 ≤ h < 1024 → 0 ≤ l < 1024 →
  join_surrogates (0xD800 + h) (0xDC00 + l) = 0x10000 + h * 1024 + l.
Proof.
  intros. unfold join_surrogates, UNI_SUR_HIGH_START, UNI_SUR_LOW_START, halfShift, halfBase.
  rewrite Z.shiftl_mul_pow2 by lia. small_u32. lia.
Qed.
Lemma split_surrogates_ok c : 0x10000 ≤ c ≤ 0x10FFFF → split_surrogates c = encode UTF16 c.
Proof.
  intros H. unfold split_surrogates, halfBase, halfShift, halfMask, UNI_SUR_HIGH_START, UNI_SUR_LOW_START, encode.
  assert (0 ≤ (c - 0x10000) / 1024 < 1024) by (Z.to_euclidean_division_equations; lia).
  assert (0 ≤ (c - 0x10000) mod 1024 < 1024) by (apply Z.mod_pos_bound; lia).
  rewrite (u32_small (c - 0x10000)) by lia. change 0x3FF with (Z.ones 10).
  rewrite Z.land_ones, Z.shiftr_div_pow2 by lia. change (2 ^ 10) with 1024. small_u32.
  rewrite !Z.mod_small by lia. zb. f_equal; [lia|f_equal; lia].
Qed.

Lemma read_UTF16_encoded flags c rest : scalar c → read_UTF16 flags (encode UTF16 c ++ rest) = inr (c, rest).
Proof.
  intros Hc. unfold scalar in Hc. unfold encode, read_UTF16, high_surrogate, low_surrogate,
    UNI_SUR_HIGH_START, UNI_SUR_HIGH_END, UNI_SUR_LOW_START, UNI_SUR_LOW_END.
  destruct (Z.ltb_spec c 0x10000); cbn [app].
  - zb; by rewrite ?andb_false_r.
  - assert (0 ≤ (c - 0x10000) / 1024 < 1024) by (Z.to_euclidean_division_equations; lia).
    assert (0 ≤ (c - 0x10000) mod 1024 < 1024) by (apply Z.mod_pos_bound; lia).
    rewrite join_surrogates_ok by done. zb. do 2 f_equal.
    Z.to_euclidean_division_equations; lia.
Qed.
Lemma read_UTF16_decoded source c rest :
  Forall (unit_ok UTF16) source → read_UTF16 strictConversion source = inr (c, rest) →
  scalar c ∧ source = encode UTF16 c ++ rest.
Proof.
  intros Hs. destruct source as [|a source]; [done|]. apply Forall_cons in Hs as [Ha Hs]. cbn in Ha.
  unfold read_UTF16, high_surrogate, low_surrogate,
    UNI_SUR_HIGH_START, UNI_SUR_HIGH_END, UNI_SUR_LOW_START, UNI_SUR_LOW_END.
  destruct ((0xD800 <=? a) && (a <=? 0xDBFF)) eqn:E.
  - destruct source as [|b source]; [done|]. apply Forall_cons in Hs as [Hb _]. cbn in Hb.
    destruct ((0xDC00 <=? b) && (b <=? 0xDFFF)) eqn:E2; [|done]. intros [= <- <-].
    replace a with (0xD800 + (a - 0xD800)) by lia. replace b with (0xDC00 + (b - 0xDC00)) by lia.
    rewrite join_surrogates_ok by lia. unfold scalar, encode. split; [lia|]. zb. cbn [app].
    repeat f_equal; Z.to_euclidean_division_equations; lia.
  - cbn [strict]. destruct ((0xDC00 <=? a) && (a <=? 0xDFFF)) eqn:E2; [done|]. cbn. intros [= <- <-].
    unfold scalar, encode. split; [lia|]. zb. done.
Qed.

(** A character that is there is converted, when it has room. *)
Lemma encode_UTF16_cases c : scalar c →
  if c <=? UNI_MAX_BMP then encode UTF16 c = [c]
  else encode UTF16 c = split_surrogates c ∧ length (encode UTF16 c) = 2%nat.
Proof.
  intros Hc. destruct (scalar_range c Hc) as [Hr _]. unfold UNI_MAX_BMP.
  destruct (Z.leb_spec c 0xFFFF).
  - unfold encode. zb. done.
  - rewrite split_surrogates_ok by lia. split; [done|]. unfold encode. zb. done.
Qed.
Lemma step_char flags from to c rest room :
  from ≠ to → scalar c →
  step_of flags from to (encode from c ++ rest) room =
    if room <? Z.of_nat (length (encode to c)) then Break targetExhausted
    else Next None rest (encode to c).
Proof.
  intros Hft Hc. destruct (scalar_range c Hc) as [Hr Hs]. pose proof (encode_UTF16_cases c Hc) as H16.
  destruct (write_UTF8_ok c 0x10FFFF) as [Hb Hw]; [done|lia|].
  destruct from, to; try done; cbn [step_of];
    unfold step_UTF32toUTF16, step_UTF16toUTF32, step_UTF16toUTF8, step_UTF8toUTF16, step_UTF32toUTF8,
      step_UTF8toUTF32; rewrite ?read_encoded, ?read_UTF16_encoded by done.
  - rewrite Hs. unfold UNI_MAX_BMP, UNI_MAX_UTF16 in *.
    revert H16. destruct (Z.leb_spec c 0xFFFF); [intros ->|intros [<- ->]]; cbn [length]; zb; done.
  - rewrite Hs. unfold UNI_MAX_LEGAL_UTF32. cbn. zb; done.
  - rewrite Hb, Hw. done.
  - cbn. zb; done.
  - change (encode UTF32 c ++ rest) with (c :: rest). cbv beta iota. rewrite Hs, andb_false_r. unfold UNI_MAX_LEGAL_UTF32. rewrite Hb. cbn beta iota zeta. rewrite Hw. zb; done.
  - change (encode UTF32 c ++ rest) with (c :: rest). cbv beta iota. rewrite Hs. unfold UNI_MAX_BMP, UNI_MAX_LEGAL_UTF32 in *.
    revert H16. destruct (Z.leb_spec c 0xFFFF); [intros ->|intros [<- ->]]; cbn [length]; zb; done.
Qed.

(** Sources: units in range, without the bytes that are wrongly accepted. *)
Definition readable (e : encoding) (source : list Z) : Prop :=
  Forall (unit_ok e) source ∧ (e = UTF8 → ∀ l r, source = l ++ r → ¬ lax r).
Lemma readable_app e l r : readable e (l ++ r) → readable e r.
Proof.
  intros [H1 H2]. split; [by apply Forall_app in H1 as [_ ?]|]. intros He l' r' ->.
  apply (H2 He (l ++ l')). by rewrite app_assoc.
Qed.

(** With strict checks nothing but characters is converted. *)
Lemma step_strict from to source room :
  from ≠ to → readable from source → source ≠ [] →
  match step_of strictConversion from to source room with
  | Break r => r ≠ conversionOK
  | Next r rest out => r = None ∧ ∃ c, scalar c ∧ source = encode from c ++ rest
  end.
Proof.
  intros Hft [Hu Hl] Hne.
  assert (H8 : from = UTF8 → match read_UTF8 source with
    | inl r => r ≠ conversionOK | inr (c, rest) => scalar c ∧ source = encode UTF8 c ++ rest end).
  { intros ->. destruct (read_UTF8 source) as [r|[c rest]] eqn:E.
    - revert E. unfold read_UTF8. destruct source as [|b source]; [done|]. case_tests; try done; by intros [= <-].
    - destruct (read_decoded source c rest) as [?|Hx]; [done..|]. by destruct (Hl eq_refl [] source). }
  assert (H16 : from = UTF16 → match read_UTF16 strictConversion source with
    | inl r => r ≠ conversionOK | inr (c, rest) => scalar c ∧ source = encode UTF16 c ++ rest end).
  { intros ->. destruct (read_UTF16 _ source) as [r|[c rest]] eqn:E; [|by apply read_UTF16_decoded].
    revert E. unfold read_UTF16. destruct source as [|b source]; [done|].
    destruct (high_surrogate b); [destruct source as [|b' source]; [by intros [= <-]|]|];
      case_tests; try done; by intros [= <-]. }
  destruct from, to; try done; cbn [step_of];
    unfold step_UTF32toUTF16, step_UTF16toUTF32, step_UTF16toUTF8, step_UTF8toUTF16, step_UTF32toUTF8,
      step_UTF8toUTF32;
    try (specialize (H8 eq_refl); destruct (read_UTF8 source) as [r|[c rest]]; [done|]);
    try (specialize (H16 eq_refl); destruct (read_UTF16 _ source) as [r|[c rest]]; [done|]).
  - destruct H8 as [Hc E]. destruct (scalar_range c Hc) as [Hr Hs]. rewrite Hs. unfold UNI_MAX_UTF16.
    case_tests; try done; try lia; (split; [done|by exists c]).
  - destruct H8 as [Hc E]. destruct (scalar_range c Hc) as [Hr Hs]. rewrite Hs. unfold UNI_MAX_LEGAL_UTF32.
    case_tests; try done; try lia; (split; [done|by exists c]).
  - destruct H16 as [Hc E]. destruct (bytes_needed _ _). case_tests; [done|]. split; [done|by exists c].
  - destruct H16 as [Hc E]. case_tests; [done|]. split; [done|by exists c].
  - destruct source as [|c rest]; [done|]. apply Forall_cons in Hu as [Hc Hu]. cbn in Hc.
    destruct (surrogate c) eqn:Hs; [done|]. rewrite andb_false_r.
    destruct (bytes_needed _ _). unfold UNI_MAX_LEGAL_UTF32 in *.
    destruct (Z.ltb_spec 0x10FFFF c); [lia|]. case_tests; [done|]. split; [done|]. exists c. split; [|done].
    revert Hs. unfold scalar, surrogate, UNI_SUR_HIGH_START, UNI_SUR_LOW_END. zb; lia.
  - destruct source as [|c rest]; [by case_tests|]. apply Forall_cons in Hu as [Hc Hu]. cbn in Hc.
    unfold UNI_MAX_LEGAL_UTF32 in *. destruct (room <=? 0); [done|].
    assert (Hsc : surrogate c = false → scalar c).
    { unfold scalar, surrogate, UNI_SUR_HIGH_START, UNI_SUR_LOW_END. zb; lia. }
    assert (Hsb : surrogate c = true → c ≤ UNI_MAX_BMP).
    { unfold surrogate, UNI_SUR_HIGH_START, UNI_SUR_LOW_END, UNI_MAX_BMP. zb; lia. }
    destruct (surrogate c) eqn:Hs; destruct (Z.ltb_spec 0x10FFFF c); try lia; case_tests; try done;
      try (specialize (Hsb eq_refl); lia); (split; [done|]); exists c; (split; [by apply Hsc|done]).
Qed.

(** ** Whole texts *)
Lemma encode_ne e c : encode e c ≠ [].
Proof. destruct e; cbn; zb; done. Qed.
Lemma text_of_cons e c cs : text_of e (c :: cs) = encode e c ++ text_of e cs.
Proof. done. Qed.
Lemma text_of_app e cs ds : text_of e (cs ++ ds) = text_of e cs ++ text_of e ds.
Proof. unfold text_of. by rewrite fmap_app, join_app. Qed.
Lemma text_of_length e cs : (length cs ≤ length (text_of e cs))%nat.
Proof.
  induction cs as [|c cs IH]; [done|]. rewrite text_of_cons, length_app.
  pose proof (encode_ne e c). destruct (encode e c); [done|]. cbn. lia.
Qed.
Lemma convert_step fuel step source room result : source ≠ [] →
  convert (S fuel) step source room result =
    match step source room with
    | Break r => Ok (r, source, [])
    | Next r source' out =>
        '(r', rest, out') ← convert fuel step source' (room - Z.of_nat (length out)) (default result r);
        Ok (r', rest, out ++ out')
    end.
Proof. by destruct source. Qed.

(** The units of characters become the units of the same characters, whatever the
    flags. *)
Lemma convert_text flags from to cs rest room fuel result :
  from ≠ to → Forall scalar cs → Z.of_nat (length (text_of to cs)) ≤ room →
  convert (length cs + fuel) (step_of flags from to) (text_of from cs ++ rest) room result =
    ('(r', rest', out') ← convert fuel (step_of flags from to) rest
                           (room - Z.of_nat (length (text_of to cs))) result;
     Ok (r', rest', text_of to cs ++ out')).
Proof.
  intros Hft Hcs. revert room. induction Hcs as [|c cs Hc Hcs IH]; intros room Hr; cbn [length Nat.add].
  - cbn. rewrite Z.sub_0_r. by destruct (convert _ _ _ _ _) as [[[? ?] ?]| |].
  - rewrite text_of_cons in Hr. rewrite !text_of_cons, <-app_assoc.
    rewrite convert_step by (pose proof (encode_ne from c); by destruct (encode from c)).
    rewrite length_app in Hr. rewrite step_char by done. destruct (Z.ltb_spec room (Z.of_nat (length (encode to c)))); [lia|].
    cbn [default]. rewrite IH by lia. rewrite length_app.
    replace (room - Z.of_nat (length (encode to c) + length (text_of to cs)))
      with (room - Z.of_nat (length (encode to c)) - Z.of_nat (length (text_of to cs))) by lia.
    destruct (convert fuel _ rest _ _) as [[[? ?] ?]| |]; cbn; by rewrite ?app_assoc.
Qed.
Lemma convert_nil fuel step room result : convert (S fuel) step [] room result = Ok (result, [], []).
Proof. done. Qed.
Lemma Convert_text flags from to cs room :
  from ≠ to → Forall scalar cs → Z.of_nat (length (text_of to cs)) ≤ room →
  Convert flags from to (text_of from cs) room = Ok (conversionOK, [], text_of to cs).
Proof.
  intros Hft Hcs Hr. unfold Convert, run_loop. pose proof (text_of_length from cs).
  replace (S (length (text_of from cs))) with (length cs + S (length (text_of from cs) - length cs))%nat by lia.
  rewrite <-(app_nil_r (text_of from cs)) at 2. rewrite convert_text, convert_nil by done. cbn.
  by rewrite app_nil_r.
Qed.

(** Without enough room the first characters are converted. *)
Lemma Convert_prefix flags from to cs room :
  from ≠ to → Forall scalar cs → 0 ≤ room →
  ∃ r ds es, cs = ds ++ es ∧
    Convert flags from to (text_of from cs) room = Ok (r, text_of from es, text_of to ds) ∧
    Z.of_nat (length (text_of to ds)) ≤ room ∧
    (es = [] ∨ room < Z.of_nat (length (text_of to cs))).
Proof.
  intros Hft Hcs. unfold Convert, run_loop.
  assert (H : ∀ fuel result, (length cs < fuel)%nat → 0 ≤ room →
    ∃ r ds es, cs = ds ++ es ∧
      convert fuel (step_of flags from to) (text_of from cs) room result
        = Ok (r, text_of from es, text_of to ds) ∧
      Z.of_nat (length (text_of to ds)) ≤ room ∧
      (es = [] ∨ room < Z.of_nat (length (text_of to cs)))).
  { revert room. induction Hcs as [|c cs Hc Hcs IH]; intros room fuel result Hf Hr;
      (destruct fuel as [|fuel]; [cbn in Hf; lia|]).
    { exists result, [], []. split_and!; [done|done|done|by left]. }
    rewrite !text_of_cons, convert_step by (pose proof (encode_ne from c); by destruct (encode from c)).
    rewrite step_char by done. destruct (Z.ltb_spec room (Z.of_nat (length (encode to c)))).
    - exists targetExhausted, [], (c :: cs). rewrite text_of_cons, length_app.
      split_and!; [done|done|done|]. right. lia.
    - destruct (IH (room - Z.of_nat (length (encode to c))) fuel (default result None))
        as (r & ds & es & -> & E & Hl & He); [cbn in Hf; lia|lia|].
      exists r, (c :: ds), es. rewrite E, text_of_cons, !length_app. split_and!; [done|done|lia|].
      destruct He as [?|He]; [by left|right; lia]. }
  intros Hr. apply H; [|done]. pose proof (text_of_length from cs). lia.
Qed.

(** A conversion that is strict converts characters up to the first place where there
    is none, or no room. *)
Definition converts (from to : encoding) (source : list Z) (room : Z)
    (x : ConversionResult * list Z * list Z) : Prop :=
  let '(r, rest, out) := x in
  ∃ cs, Forall scalar cs ∧ source = text_of from cs ++ rest ∧ out = text_of to cs ∧
    Z.of_nat (length out) ≤ room ∧ (r = conversionOK ↔ rest = []) ∧
    ∀ c k, scalar c → rest = encode from c ++ k →
      r = targetExhausted ∧ room < Z.of_nat (length out + length (encode to c)).

Lemma convert_strict from to fuel source room :
  from ≠ to → readable from source → (length source < fuel)%nat → 0 ≤ room →
  ∃ x, convert fuel (step_of strictConversion from to) source room conversionOK = Ok x ∧
    converts from to source room x.
Proof.
  intros Hft. revert source room. induction fuel as [|fuel IH]; intros source room Hs Hf Hr; [lia|].
  destruct (decide (source = [])) as [->|Hne].
  { eexists. split; [done|]. exists []. split_and!; try apply Forall_nil_2; [done..|].
    intros c k _ H. pose proof (encode_ne from c). by destruct (encode from c). }
  rewrite convert_step by done. pose proof (step_strict from to source room Hft Hs Hne) as Hst.
  destruct (step_of _ _ _ _ _) as [r|r rest out] eqn:E.
  - eexists. split; [done|]. exists []. split_and!; try apply Forall_nil_2; try done.
    intros c k Hc ->. rewrite step_char in E by done.
    destruct (Z.ltb_spec room (Z.of_nat (length (encode to c)))); [|done]. injection E as <-. split; [done|]. cbn. lia.
  - destruct Hst as (-> & c & Hc & ->). rewrite step_char in E by done.
    destruct (Z.ltb_spec room (Z.of_nat (length (encode to c)))); [done|]. injection E as <-.
    pose proof (encode_ne from c). rewrite length_app in Hf.
    destruct (IH rest (room - Z.of_nat (length (encode to c)))) as ([[r rest'] out'] & E & Hx);
      [by eapply readable_app|destruct (encode from c); [done|cbn in *; lia]|lia|].
    cbn [default]. rewrite E. eexists. split; [done|].
    destruct Hx as (cs & Hcs & -> & -> & Hl & Hok & Hn). exists (c :: cs).
    rewrite !text_of_cons, length_app, <-app_assoc. split_and!; try done; [by constructor|lia|].
    intros c' k Hc' Hk. destruct (Hn c' k Hc' Hk). split; [done|lia].
Qed.

(** ** Theorems *)

(** The sequences that [isLegalUTF8] accepts although they encode nothing. *)
Definition lax_sequence (source : list Z) : Prop :=
  match source with
  | b :: b1 :: b2 :: rest =>
      b1 < 0x80 ∧ trail_ok b2 = true ∧
      (b = 0xED ∨ b = 0xF4 ∧ ∃ b3 rest', rest = b3 :: rest' ∧ trail_ok b3 = true)
  | _ => False
  end.

(** [isLegalUTF8Sequence] accepts exactly the bytes that start with the encoding of
    a character, and those where 0xED or 0xF4 is followed by a byte below 0x80, which
    its test of the second byte lets through. *)
Theorem isLegalUTF8Sequence_exact source :
  source ≠ [] → Forall (unit_ok UTF8) source →
  isLegalUTF8Sequence source = true ↔
    (∃ c rest, scalar c ∧ source = encode UTF8 c ++ rest) ∨ lax_sequence source.
Proof.
  intros Hne Hu. destruct source as [|b source]; [done|].
  assert (Hread : isLegalUTF8Sequence (b :: source) = true ↔ ∃ c rest, read_UTF8 (b :: source) = inr (c, rest)).
  { unfold isLegalUTF8Sequence. change (default 0 ((b :: source) !! 0%nat)) with b.
    rewrite (read_trailing b source _ eq_refl). do 2 case_bool_decide; cbn [length] in *; try lia.
    - split; [done|]. by intros (? & ? & ?).
    - destruct (isLegalUTF8 (b :: source) (S (trailingBytesForUTF8 b))); cbn [negb]; split; try done; [|by intros (? & ? & ?)].
      intros _. destruct (decode_bytes (trailingBytesForUTF8 b) (b :: source)) as [c r]. by exists c, r. }
  rewrite Hread. split.
  - intros (c & rest & E). destruct (read_decoded _ _ _ Hu E) as [[Hc ->]|Hx]; [left; by exists c, rest|].
    right. apply Forall_cons in Hu as [Hb Hu]. cbn in Hb. revert E.
    rewrite (read_trailing b source _ eq_refl), trailing_spec by done.
    destruct source as [|b1 source]; [done|]. destruct Hx as [Hb12 H1].
    destruct Hb12 as [-> | ->]; cbn -[isLegalUTF8 decode_bytes].
    + case_bool_decide as Hl; [done|]. destruct source as [|b2 source]; [cbn in Hl; lia|].
      destruct (legal_cases 0xED b1 b2 0 source) as (_ & _ & -> & _).
      destruct (trail_ok b2) eqn:E2; [|done]. intros _. split_and!; [done|done|by left].
    + case_bool_decide as Hl; [done|]. destruct source as [|b2 [|b3 source]]; [cbn in Hl; lia..|].
      destruct (legal_cases 0xF4 b1 b2 b3 source) as (_ & _ & _ & ->).
      destruct (trail_ok b3) eqn:E3; [|done]. destruct (trail_ok b2) eqn:E2; [|done].
      intros _. split_and!; [done|done|]. right. split; [done|]. by exists b3, source.
  - intros [(c & rest & Hc & ->)|Hx]; [exists c, rest; by apply read_encoded|].
    destruct source as [|b1 [|b2 source]]; [done..|]. destruct Hx as (H1 & H2 & Hb).
    destruct Hb as [->|(-> & b3 & rest & -> & H3)].
    + rewrite (read_trailing 0xED _ 2) by done. case_bool_decide as Hl; [cbn in Hl; lia|].
      destruct (legal_cases 0xED b1 b2 0 source) as (_ & _ & -> & _). rewrite H2. unfold second_ok. zb.
      destruct (decode_bytes _ _) as [c r]. by exists c, r.
    + rewrite (read_trailing 0xF4 _ 3) by done. case_bool_decide as Hl; [cbn in Hl; lia|].
      destruct (legal_cases 0xF4 b1 b2 b3 rest) as (_ & _ & _ & ->). rewrite H2, H3. unfold second_ok. zb.
      destruct (decode_bytes _ _) as [c r]. by exists c, r.
Qed.
Lemma isLegalUTF8Sequence_exact_witness :
  isLegalUTF8Sequence [0xE2; 0x82; 0xAC; 0x20] = true ∧ isLegalUTF8Sequence [0xED; 0x41; 0x80] = true ∧
  isLegalUTF8Sequence [0xED; 0xA0; 0x80] = false.
Proof.
  assert (Hu : ∀ l, forallb (λ b, (0 <=? b) && (b <? 256)) l = true → Forall (unit_ok UTF8) l).
  { intros l H. apply Forall_forall. intros x Hx. rewrite forallb_forall in H.
    specialize (H x (proj1 (list_elem_of_In _ _) Hx)). cbn. lia. }
  split; [|split; [|done]].
  - apply isLegalUTF8Sequence_exact; [done|by apply Hu|]. left. exists 0x20AC, [0x20]. split; [by left|done].
  - apply isLegalUTF8Sequence_exact; [done|by apply Hu|]. right. split_and!; [lia|done|by left].
Defined.

(** C23: on a source that is [readable], which has units of the size of its encoding, in
    UTF-8 no byte 0xED or 0xF4 in front of one below 0x80, and in UTF-32 no number beyond
    Unicode (without these conditions it is false: [Convert_defects]), a strict conversion
    from one encoding to another stops, and it converts exactly the characters at the
    start of its source: what it writes are the same characters in the other encoding,
    within the room it has, what is left starts with no character for which there is
    room, and the result is [conversionOK] just when nothing is left. *)
Theorem Convert_exact from to source room :
  from ≠ to → readable from source → 0 ≤ room →
  ∃ x, Convert strictConversion from to source room = Ok x ∧ converts from to source room x.
Proof. intros Hft Hs Hr. apply convert_strict; [done|done|lia|done]. Qed.
Lemma Convert_exact_witness :
  Convert strictConversion UTF16 UTF8 [0x48; 0xD83D; 0xDE00; 0xDC00; 0x49] 20
    = Ok (sourceIllegal, [0xDC00; 0x49], [0x48; 0xF0; 0x9F; 0x98; 0x80]) ∧
  converts UTF16 UTF8 [0x48; 0xD83D; 0xDE00; 0xDC00; 0x49] 20
    (sourceIllegal, [0xDC00; 0x49], [0x48; 0xF0; 0x9F; 0x98; 0x80]).
Proof.
  assert (E : Convert strictConversion UTF16 UTF8 [0x48; 0xD83D; 0xDE00; 0xDC00; 0x49] 20
    = Ok (sourceIllegal, [0xDC00; 0x49], [0x48; 0xF0; 0x9F; 0x98; 0x80])) by by vm_compute.
  split; [exact E|].
  destruct (Convert_exact UTF16 UTF8 [0x48; 0xD83D; 0xDE00; 0xDC00; 0x49] 20) as (x & Ex & Hx).
  - done.
  - split; [|done]. repeat (apply Forall_cons; split; [cbn; lia|]). constructor.
  - lia.
  - rewrite E in Ex. injection Ex as <-. exact Hx.
Defined.

(** The conversions lose nothing: a text of characters, with or without strict
    checks, is converted completely, and converting it back gives the same units. *)
Theorem Convert_roundtrip flags flags' from to cs room room' :
  from ≠ to → Forall scalar cs →
  Z.of_nat (length (text_of to cs)) ≤ room → Z.of_nat (length (text_of from cs)) ≤ room' →
  ∃ units, Convert flags from to (text_of from cs) room = Ok (conversionOK, [], units) ∧
    Convert flags' to from units room' = Ok (conversionOK, [], text_of from cs).
Proof.
  intros Hft Hcs H1 H2. exists (text_of to cs). split; by apply Convert_text.
Qed.
Lemma Convert_roundtrip_witness :
  ∃ units, Convert lenientConversion UTF16 UTF8 (text_of UTF16 [0x48; 0xE9; 0x20AC; 0x1F600]) 12
      = Ok (conversionOK, [], units) ∧
    Convert strictConversion UTF8 UTF16 units 5 = Ok (conversionOK, [], [0x48; 0xE9; 0x20AC; 0xD83D; 0xDE00]).
Proof.
  apply (Convert_roundtrip lenientConversion strictConversion UTF16 UTF8 [0x48; 0xE9; 0x20AC; 0x1F600] 12 5).
  - done.
  - repeat (apply Forall_cons; split; [unfold scalar; lia|]). constructor.
  - vm_compute. discriminate.
  - vm_compute. discriminate.
Defined.

(** Defects of the conversions: strict checks let an ASCII letter be swallowed as the
    second byte of a character; a number beyond Unicode does not stop
    [ConvertUTF32toUTF16] or [ConvertUTF32toUTF8], and the second one writes a
    replacement for it; and the result of the second one can be lost. *)
Theorem Convert_defects :
  ConvertUTF8toUTF32 strictConversion [0xED; 0x41; 0x80] 5 = Ok (conversionOK, [], [0xC040]) ∧
  ConvertUTF32toUTF16 strictConversion [0x110000; 0x41] 5 = Ok (sourceIllegal, [], [0x41]) ∧
  ConvertUTF32toUTF8 strictConversion [0x110000; 0x41] 5 = Ok (sourceIllegal, [], [0xEF; 0xBF; 0xBD; 0x41]) ∧
  ConvertUTF32toUTF8 strictConversion [0x110000; 0x41] 3 = Ok (targetExhausted, [0x41], [0xEF; 0xBF; 0xBD]).
Proof. split_and!; by vm_compute. Qed.
