(* ===== verification/RtString.v ===== *)
(** The strings of the run time, src/antlr/libantlr3c-3.4/src/antlr3string.c, with
    characters of 8 and of 16 bits, and the factory that owns them. *)
From stdpp Require Import relations.
From S2P Require Import Prelude.
From S2P Require Import Vector.

(** ** Memory

    A buffer is an array of characters; one that was never written holds nothing.
    A C string that is passed in is the list of its characters before the
    terminator. *)
Definition buffer : Type := list (option Z).

Definition write_chars (b : buffer) (off : Z) (l : buffer) : outcome buffer :=
  if off + Z.of_nat (length l) <=? Z.of_nat (length b)
  then Ok (take (Z.to_nat off) b ++ l ++ drop (Z.to_nat off + length l) b)
  else Undef BadIndex.
Definition read_chars (b : buffer) (off n : Z) : outcome buffer :=
  if off + n <=? Z.of_nat (length b) then Ok (take (Z.to_nat n) (drop (Z.to_nat off) b))
  else Undef BadIndex.
(** The C string in a buffer. *)
Fixpoint c_string (b : buffer) : outcome (list Z) :=
  match b with
  | [] => Undef BadIndex
  | o :: b => c ← init o; if c =? 0 then Ok [] else l ← c_string b; Ok (c :: l)
  end.
(** A C string as the code copies it, with its terminator. *)
Definition terminated (l : list Z) : buffer := (Some <$> l) ++ [Some 0].
Definition strlen (l : list Z) : Z := u32 (Z.of_nat (length l)).

(** A [char], which is signed, that is assigned to 16 bits; an unsigned one is
    itself. *)
Definition char_to_16 (c : Z) : Z := sint 8 c mod 2 ^ 16.

(** [ANTLR3_STRING]; [width] is 1 for the functions of [stringInit8] and 2 for those
    of [stringInitUTF16]. *)
Record STRING : Type := mkString {
  chars : option buffer;
  len : Z;
  size : Z;
  index : Z;
  width : Z
}.
Definition set_chars b (s : STRING) : STRING := mkString (Some b) (len s) (size s) (index s) (width s).
Definition set_len n (s : STRING) : STRING := mkString (chars s) n (size s) (index s) (width s).
Definition set_size n (s : STRING) : STRING := mkString (chars s) (len s) n (index s) (width s).
Definition set_index n (s : STRING) : STRING := mkString (chars s) (len s) (size s) n (width s).

(** [stringInit8], [stringInitUTF16] *)
Definition stringInit (w i : Z) : STRING := mkString None 0 0 i w.
Definition stringInit8 (i : Z) : STRING := stringInit 1 i.
Definition stringInitUTF16 (i : Z) : STRING := stringInit 2 i.

(** [ANTLR3_REALLOC] for [n] characters, when there is less room; the number of bytes
    is one of 32 bits. *)
Definition room (n : Z) (s : STRING) : STRING :=
  if size s <? n
  then set_size n (set_chars (resize (Z.to_nat (u32 (width s * n) / width s)) None
                                (default [] (chars s))) s)
  else s.
Definition write (off : Z) (l : buffer) (s : STRING) : outcome STRING :=
  b ← deref (chars s);
  b ← write_chars b off l;
  Ok (set_chars b s).

(** ** Operations on one string *)

(** [append8], [appendUTF16_UTF16] *)
Definition append (s : STRING) (newbit : list Z) : outcome STRING :=
  let n := strlen newbit in
  let s := room (u32 (len s + n + 1)) s in
  s ← write (len s) (terminated newbit) s;
  Ok (set_len (u32 (len s + n)) s).
(** [appendUTF16_8]; for a string of 8 bits it is [append8]. *)
Definition append8 (s : STRING) (newbit : list Z) : outcome STRING :=
  if width s =? 1 then append s newbit else append s (char_to_16 <$> newbit).

(** [set8], [setUTF16_UTF16] *)
Definition set (s : STRING) (l : list Z) : outcome STRING :=
  let n := strlen l in
  let s := room (u32 (n + 1)) s in
  s ← write 0 (terminated l) s;
  Ok (set_len n s).
(** [setUTF16_8] *)
Definition set8 (s : STRING) (l : list Z) : outcome STRING :=
  if width s =? 1 then set s l else set s (char_to_16 <$> l).

(** [addc8], [addcUTF16] *)
Definition addc (s : STRING) (c : Z) : outcome STRING :=
  let s := room (u32 (len s + 2)) s in
  s ← write (len s) [Some (c mod 2 ^ (8 * width s)); Some 0] s;
  Ok (set_len (u32 (len s + 1)) s).

(** [insert8], [insertUTF16_UTF16] *)
Definition insert (s : STRING) (point : Z) (newbit : list Z) : outcome STRING :=
  if len s <=? point then append s newbit
  else
    let n := strlen newbit in
    if n =? 0 then Ok s
    else
      let s := room (u32 (len s + n + 1)) s in
      b ← deref (chars s);
      rest ← read_chars b point (u32 (len s - point + 1));
      s ← write (point + n) rest s;
      s ← write point (Some <$> newbit) s;
      Ok (set_len (u32 (len s + n)) s).
(** [insertUTF16_8] *)
Definition insert8 (s : STRING) (point : Z) (newbit : list Z) : outcome STRING :=
  if width s =? 1 then insert s point newbit else insert s point (char_to_16 <$> newbit).

(** [sprintf] with "%d" *)
Fixpoint decimal (fuel : nat) (n : Z) (acc : list Z) : list Z :=
  match fuel with
  | O => acc
  | S fuel =>
      let acc := (48 + n mod 10) :: acc in
      if n <? 10 then acc else decimal fuel (n / 10) acc
  end.
Definition sprintf_d (i : Z) : list Z :=
  if i <? 0 then 45 :: decimal 10 (- i) [] else decimal 10 i [].

(** [addi8], [addiUTF16], [inserti8], [insertiUTF16] *)
Definition addi (s : STRING) (i : Z) : outcome STRING := append8 s (sprintf_d i).
Definition inserti (s : STRING) (point i : Z) : outcome STRING := insert8 s point (sprintf_d i).

(** [charAt8], [charAtUTF16] *)
Definition charAt (s : STRING) (offset : Z) : outcome Z :=
  if len s <? offset then Ok 0
  else
    b ← deref (chars s);
    o ← Prelude.index b offset;
    init o.

(** [strcmp] tells by its sign; the characters are compared without theirs. *)
Fixpoint strcmp (a b : list Z) : Z :=
  match a, b with
  | [], [] => 0
  | [], _ => -1
  | _, [] => 1
  | x :: a, y :: b => if x =? y then strcmp a b else Z.sgn (x - y)
  end.
(** [compare8] of a string of 8 bits *)
Definition compare8 (s : STRING) (l : list Z) : outcome Z :=
  b ← deref (chars s);
  a ← c_string b;
  Ok (u32 (strcmp a l)).
(** [compareUTF16_UTF16] *)
Fixpoint compare_units (b : buffer) (l : list Z) : outcome Z :=
  match b with
  | [] => Undef BadIndex
  | o :: b =>
      x ← init o;
      match l with
      | [] => Ok (u32 x)
      | y :: l =>
          if x =? 0 then Ok (u32 (x - y))
          else if x =? y then compare_units b l
          else Ok (u32 (x - y))
      end
  end.
Definition compareUTF16_UTF16 (s : STRING) (l : list Z) : outcome Z :=
  b ← deref (chars s); compare_units b l.
(** [compareUTF16_8]; the characters of the other string are signed. *)
Definition compareUTF16_8 (s : STRING) (l : list Z) : outcome Z :=
  b ← deref (chars s); compare_units b (sint 8 <$> l).

(** The members [compare] and [compare8] of a string, with the functions that
    [stringInit8] and [stringInitUTF16] install. *)
Definition compare_fn (s : STRING) (l : list Z) : outcome Z :=
  if width s =? 1 then compare8 s l else compareUTF16_UTF16 s l.
Definition compare8_fn (s : STRING) (l : list Z) : outcome Z :=
  if width s =? 1 then compare8 s l else compareUTF16_8 s l.

(** [atoi] of the standard library, in the C locale: white space, a sign, digits. *)
Definition atoi_space (c : Z) : bool := (c =? 32) || ((9 <=? c) && (c <=? 13)).
Fixpoint skip_space (l : list Z) : list Z :=
  match l with
  | c :: l' => if atoi_space c then skip_space l' else l
  | [] => []
  end.
Fixpoint atoi_digits (l : list Z) (n : Z) : Z :=
  match l with
  | c :: l => if (48 <=? c) && (c <=? 57) then atoi_digits l (n * 10 + (c - 48)) else n
  | [] => n
  end.
Definition atoi (l : list Z) : outcome Z :=
  match skip_space l with
  | [] => Ok 0
  | c :: l' =>
      if c =? 45 then int_op (- atoi_digits l' 0)
      else if c =? 43 then int_op (atoi_digits l' 0)
      else int_op (atoi_digits (c :: l') 0)
  end.
(** [toInt32_8] *)
Definition toInt32_8 (s : STRING) : outcome Z :=
  b ← deref (chars s);
  l ← c_string b;
  atoi l.

(** [toInt32_UTF16] *)
Definition isdigit (c : Z) : outcome bool :=
  if (0 <=? c) && (c <=? 255) then Ok ((48 <=? c) && (c <=? 57)) else Undef BadIndex.
Fixpoint read_digits (b : buffer) (value : Z) : outcome Z :=
  match b with
  | [] => Undef BadIndex
  | o :: b =>
      c ← init o;
      if c =? 0 then Ok value
      else
        d ← isdigit c;
        if d : bool then
          value ← int_op (value * 10);
          read_digits b (sint 32 (value + (c - 48)))
        else Ok value
  end.
Definition toInt32_UTF16 (s : STRING) : outcome Z :=
  b ← deref (chars s);
  match b with
  | [] => Undef BadIndex
  | o :: b' =>
      c ← init o;
      let negate := c =? 45 in
      value ← read_digits (if (c =? 45) || (c =? 43) then b' else b) 0;
      if negate then int_op (- value) else Ok value
  end.
(** The member [toInt32] of a string. *)
Definition toInt32_fn (s : STRING) : outcome Z :=
  if width s =? 1 then toInt32_8 s else toInt32_UTF16 s.

(** The characters that [printable8] and [printableUTF16] write for one. *)
Definition isprint (c : Z) : bool := (32 <=? c) && (c <=? 126).
Definition printable_char (c : Z) : outcome (list Z) :=
  if c =? 10 then Ok [92; 110]
  else if c =? 13 then Ok [92; 114]
  else if (c <? 0) || (255 <? c) then Undef BadIndex
  else if negb (isprint c) then Ok [63] else Ok [c].

(** ** The factory

    The strings that are allocated are in [store]; [strings] has a pointer to each,
    with the function that frees it. *)
Record STRING_FACTORY : Type := mkFactory {
  strings : VECTOR nat;
  next_index : Z;
  store : gmap nat STRING;
  api : Z
}.
Definition set_store x (f : STRING_FACTORY) : STRING_FACTORY :=
  mkFactory (strings f) (next_index f) x (api f).
Definition StringFactoryNew (encoding16 : bool) : STRING_FACTORY :=
  mkFactory (VectorNew 0) 0 ∅ (if encoding16 then 2 else 1).

(** The string behind a pointer, and a change of it. *)
Definition load (f : STRING_FACTORY) (p : nat) : outcome STRING :=
  match store f !! p with Some s => Ok s | None => Undef UseAfterFree end.
Definition update (f : STRING_FACTORY) (p : nat) (s : STRING) : STRING_FACTORY :=
  set_store (<[p := s]> (store f)) f.

(** [stringFree], on what a vector releases. *)
Fixpoint free_strings (l : list (option nat)) (st : gmap nat STRING) : outcome (gmap nat STRING) :=
  match l with
  | [] => Ok st
  | o :: l =>
      p ← deref o;
      match st !! p with
      | Some _ => free_strings l (delete p st)
      | None => Undef UseAfterFree
      end
  end.

(** [newRaw8], [newRawUTF16] *)
Definition newRaw_ (w : Z) (f : STRING_FACTORY) : outcome (nat * STRING_FACTORY) :=
  let p := base.fresh (dom (store f)) in
  let s := stringInit w (next_index f) in
  '(freed, _, v) ← VectorSet (strings f) (next_index f) (Some p) true true;
  st ← free_strings freed (<[p := s]> (store f));
  Ok (p, mkFactory v (u32 (next_index f + 1)) st (api f)).
Definition newRaw (f : STRING_FACTORY) : outcome (nat * STRING_FACTORY) := newRaw_ (api f) f.

(** [newSize8], [newSizeUTF16]; the second one writes one byte of its terminator. *)
Definition newSize (f : STRING_FACTORY) (n : Z) : outcome (nat * STRING_FACTORY) :=
  '(p, f) ← newRaw f;
  s ← load f p;
  let b := replicate (Z.to_nat (u32 (n + 1))) None in
  b ← write_chars b 0 [if width s =? 1 then Some 0 else None];
  Ok (p, update f p (set_size (u32 (n + 1)) (set_chars b s))).

(** [newPtr8], [newPtrUTF16_UTF16]; also [newPtrUTF16_8], which widens characters
    without a sign. *)
Definition newPtr (f : STRING_FACTORY) (ptr : option buffer) (n : Z) : outcome (nat * STRING_FACTORY) :=
  '(p, f) ← newSize f n;
  if n =? 0 then Ok (p, f)
  else
    match ptr with
    | None => Ok (p, f)
    | Some b =>
        s ← load f p;
        l ← read_chars b 0 n;
        s ← write 0 l s;
        s ← write n [Some 0] s;
        Ok (p, update f p (set_len n s))
    end.

(** [newStr8], [newStrUTF16_8], [newStrUTF16_UTF16] *)
Definition newStr (f : STRING_FACTORY) (l : list Z) : outcome (nat * STRING_FACTORY) :=
  newPtr f (Some (terminated l)) (strlen l).

(** [destroy]: the strings behind the one that goes are numbered again. *)
Fixpoint reindex (n : nat) (i : Z) (f : STRING_FACTORY) : outcome STRING_FACTORY :=
  match n with
  | O => Ok f
  | S n =>
      e ← read_slot (strings f) i;
      q ← deref (element e);
      s ← load f q;
      reindex n (i + 1) (update f q (set_index i s))
  end.
Definition destroy (f : STRING_FACTORY) (p : nat) : outcome STRING_FACTORY :=
  s ← load f p;
  let strIndex := index s in
  '(freed, v) ← VectorDel (strings f) strIndex;
  st ← free_strings freed (store f);
  let f := mkFactory v (u32 (next_index f - 1)) st (api f) in
  if strIndex <? next_index f then reindex (Z.to_nat (next_index f - strIndex)) strIndex f
  else Ok f.

(** [closeFactory] *)
Definition closeFactory (f : STRING_FACTORY) : outcome (gmap nat STRING) :=
  '(freed, _) ← VectorFree (strings f);
  free_strings freed (store f).

(** [printable8], [printableUTF16] *)
Fixpoint printable_text (n : nat) (b : buffer) : outcome (list Z) :=
  match n with
  | O => Ok []
  | S n =>
      match b with
      | [] => Undef BadIndex
      | o :: b => c ← init o; x ← printable_char c; l ← printable_text n b; Ok (x ++ l)
      end
  end.
Definition printable (f : STRING_FACTORY) (instr : nat) : outcome (nat * STRING_FACTORY) :=
  i ← load f instr;
  '(p, f) ← newSize f (u32 (u32 (len i * 2) + 1));
  l ← (if len i =? 0 then Ok [] else b ← deref (chars i); printable_text (Z.to_nat (len i)) b);
  s ← load f p;
  s ← write 0 (terminated l) s;
  Ok (p, update f p (set_len (u32 (Z.of_nat (length l))) s)).

(** [subString8], [subStringUTF16] *)
Definition subString (f : STRING_FACTORY) (p : nat) (startIndex endIndex : Z) : outcome (nat * STRING_FACTORY) :=
  s ← load f p;
  let endIndex := if len s <? endIndex then u32 (len s + 1) else endIndex in
  let n := u32 (endIndex - startIndex) in
  match chars s with
  | None => if startIndex =? 0 then newPtr f None n else Undef NullDeref
  | Some b =>
      if Z.of_nat (length b) <? startIndex then Undef BadIndex
      else newPtr f (Some (drop (Z.to_nat startIndex) b)) n
  end.

(** [to8_UTF16]; [to8_8] is the string itself. *)
Definition to8_UTF16 (f : STRING_FACTORY) (p : nat) : outcome (nat * STRING_FACTORY) :=
  s ← load f p;
  '(q, f) ← newRaw_ 1 f;
  l ← (if len s =? 0 then Ok []
       else b ← deref (chars s); b ← read_chars b 0 (len s); oc_map init b);
  n ← load f q;
  let b := replicate (Z.to_nat (u32 (len s + 1))) None in
  let n := set_len (len s) (set_size (u32 (len s + 1)) (set_chars b n)) in
  n ← write 0 (terminated ((λ c, if 255 <? c then 95 else c) <$> l)) n;
  Ok (q, update f q n).

(** [setS], [appendS] and [insertS] pass the characters of one string to an operation
    on another.  When both are the same and the operation has to allocate, it reads
    from memory that was released.  Both strings are of the same width, as the code
    assumes. *)
Definition with_text (f : STRING_FACTORY) (p q : nat) (need : STRING → Z → Z)
    (op : STRING → list Z → outcome STRING) : outcome STRING_FACTORY :=
  s ← load f p;
  t ← load f q;
  b ← deref (chars t);
  l ← c_string b;
  if bool_decide (p = q) && (size s <? need s (strlen l)) then Undef UseAfterFree
  else s ← op s l; Ok (update f p s).
Definition setS (f : STRING_FACTORY) (p q : nat) : outcome STRING_FACTORY :=
  with_text f p q (λ _ n, u32 (n + 1)) set.
Definition appendS (f : STRING_FACTORY) (p q : nat) : outcome STRING_FACTORY :=
  t ← load f q;
  if (len t =? 0) || (size t =? 0) || bool_decide (chars t = None) then Ok f
  else with_text f p q (λ s n, u32 (len s + n + 1)) append.
Definition insertS (f : STRING_FACTORY) (p : nat) (point : Z) (q : nat) : outcome STRING_FACTORY :=
  with_text f p q (λ s n, if (point <? len s) && (n =? 0) then 0 else u32 (len s + n + 1))
    (λ s l, insert s point l).
Definition compareS (f : STRING_FACTORY) (p q : nat) : outcome Z :=
  s ← load f p;
  t ← load f q;
  b ← deref (chars t);
  l ← c_string b;
  compare_fn s l.

(** ** A string holds a list of characters

    The text is followed by its terminator; a string that was just made holds nothing
    at all, which counts as the empty text. *)
Definition char_ok (w c : Z) : Prop := 0 < c < 2 ^ (8 * w).
Record text (s : STRING) (l : list Z) : Prop := {
  t_chars : match chars s with
            | None => l = [] ∧ size s = 0
            | Some b => (∃ rest, b = terminated l ++ rest) ∧ size s = Z.of_nat (length b)
            end;
  t_len : len s = Z.of_nat (length l);
  t_width : width s = 1 ∨ width s = 2;
  t_size : size s < 2 ^ 30;
  t_ok : Forall (char_ok (width s)) l
}.

Lemma length_terminated l : length (terminated l) = S (length l).
Proof. unfold terminated. rewrite length_app, length_fmap. cbn. lia. Qed.
Lemma terminated_app l m : terminated (l ++ m) = (Some <$> l) ++ terminated m.
Proof. unfold terminated. by rewrite fmap_app, <-app_assoc. Qed.

Lemma text_size s l : text s l → 0 ≤ size s.
Proof. intros H. pose proof (t_chars _ _ H) as Hc. destruct (chars s); [|lia]. destruct Hc as [_ ->]. lia. Qed.

(** Making room keeps the text and gives a buffer. *)
Lemma room_ok n s l :
  text s l → Z.of_nat (length l) < n < 2 ^ 30 →
  ∃ b, chars (room n s) = Some b ∧ n ≤ Z.of_nat (length b) ∧
    size (room n s) = Z.of_nat (length b) ∧ Z.of_nat (length b) < 2 ^ 30 ∧
    len (room n s) = len s ∧ width (room n s) = width s ∧ index (room n s) = index s ∧
    (∃ rest, b = (Some <$> l) ++ rest) ∧ (l ≠ [] → ∃ rest, b = terminated l ++ rest).
Proof.
  intros H Hn. unfold room. pose proof (t_chars _ _ H) as Hc. pose proof (t_size _ _ H) as Hs.
  destruct (Z.ltb_spec (size s) n) as [Hlt|Hge].
  - cbn. assert (Hb : u32 (width s * n) / width s = n).
    { destruct (t_width _ _ H) as [-> | ->].
      - rewrite u32_small by lia. by rewrite Z.div_1_r, Z.mul_1_l.
      - rewrite u32_small by lia. rewrite Z.mul_comm. by rewrite Z.div_mul by lia. }
    rewrite Hb. eexists. split; [done|]. rewrite length_resize.
    destruct (chars s) as [b|]; cbn.
    + destruct Hc as [(rest & ->) Hsize].
      rewrite resize_app_ge by (rewrite length_terminated; lia).
      split_and!; [lia|lia|lia|done|done|done| |by eexists].
      unfold terminated. rewrite <-app_assoc. by eexists.
    + destruct Hc as [-> _]. split_and!; [lia|lia|lia|done|done|done|by eexists|done].
  - destruct (chars s) as [b|].
    + destruct Hc as [(rest & ->) Hsize]. exists (terminated l ++ rest). split_and!; try done; try lia.
      * unfold terminated. rewrite <-app_assoc. by eexists.
      * by eexists.
    + destruct Hc as [-> Hz]. lia.
Qed.

(** Writing characters and a terminator behind the first ones. *)
Lemma write_text b l m rest :
  b = (Some <$> l) ++ rest → (length l + S (length m) ≤ length b)%nat →
  ∃ b', write_chars b (Z.of_nat (length l)) (terminated m) = Ok b' ∧ length b' = length b ∧
    ∃ rest', b' = terminated (l ++ m) ++ rest'.
Proof.
  intros -> Hl. unfold write_chars. rewrite length_terminated.
  rewrite length_app, length_fmap in *. destruct (Z.leb_spec (Z.of_nat (length l) + Z.of_nat (S (length m))) (Z.of_nat (length l + length rest))); [|lia].
  eexists. split; [done|]. rewrite Nat2Z.id. split.
  - rewrite !length_app, length_take, length_drop, length_app, length_fmap, length_terminated. lia.
  - rewrite terminated_app. rewrite take_app_le by (rewrite length_fmap; lia).
    rewrite take_ge by (rewrite length_fmap; lia). rewrite app_assoc. by eexists.
Qed.

Lemma text_intro s b l :
  chars s = Some b → (∃ rest, b = terminated l ++ rest) → size s = Z.of_nat (length b) →
  len s = Z.of_nat (length l) → (width s = 1 ∨ width s = 2) → Z.of_nat (length b) < 2 ^ 30 →
  Forall (char_ok (width s)) l → text s l.
Proof. intros Hc Hr Hs Hl Hw Hb Hok. split; [by rewrite Hc|done|done|lia|done]. Qed.

Lemma strlen_small l : Z.of_nat (length l) < 2 ^ 30 → strlen l = Z.of_nat (length l).
Proof. intros H. unfold strlen. apply u32_small. lia. Qed.

Lemma append_ok s l m :
  text s l → Forall (char_ok (width s)) m → Z.of_nat (length l + length m) + 1 < 2 ^ 30 →
  ∃ s', append s m = Ok s' ∧ text s' (l ++ m) ∧ index s' = index s ∧ width s' = width s.
Proof.
  intros H Hm Hb. unfold append. rewrite strlen_small, (t_len _ _ H) by lia.
  rewrite (u32_small (_ + 1)) by lia.
  destruct (room_ok (Z.of_nat (length l) + Z.of_nat (length m) + 1) s l H) as
    (b & Eb & Hlen & Hsize & Hmax & Hl & Hw & Hi & (rest & Erest) & _); [lia|].
  rewrite Hl, (t_len _ _ H). unfold write. rewrite Eb. cbn [deref mbind outcome_bind].
  destruct (write_text b l m rest Erest) as (b' & -> & Hlb & Hrest'); [lia|]. cbn [mbind outcome_bind].
  eexists. split; [done|]. split; [|by cbn].
  apply (text_intro _ b'); cbn; [done|done|lia| |rewrite Hw; apply H|lia|].
  { rewrite Hl, (t_len _ _ H), u32_small, length_app; lia. }
  rewrite Hw. apply Forall_app. split; [apply H|done].
Qed.

Lemma set_ok s l m :
  text s l → Forall (char_ok (width s)) m → Z.of_nat (length m) + 1 < 2 ^ 30 →
  ∃ s', set s m = Ok s' ∧ text s' m ∧ index s' = index s ∧ width s' = width s.
Proof.
  intros H Hm Hb. unfold set. rewrite strlen_small by lia. rewrite (u32_small (_ + 1)) by lia.
  assert (∃ b, chars (room (Z.of_nat (length m) + 1) s) = Some b ∧ Z.of_nat (length m) + 1 ≤ Z.of_nat (length b) ∧
    size (room (Z.of_nat (length m) + 1) s) = Z.of_nat (length b) ∧ Z.of_nat (length b) < 2 ^ 30 ∧
    width (room (Z.of_nat (length m) + 1) s) = width s ∧ index (room (Z.of_nat (length m) + 1) s) = index s)
    as (b & Eb & Hlen & Hsize & Hmax & Hw & Hi).
  { destruct (decide (length l < length m + 1)%nat) as [Hlt|Hge].
    - destruct (room_ok (Z.of_nat (length m) + 1) s l H) as (b & ? & ? & ? & ? & _ & ? & ? & _); [lia|].
      by exists b.
    - pose proof (t_chars _ _ H) as Hc. pose proof (t_size _ _ H). unfold room.
      destruct (chars s) as [b|] eqn:Eb; [|destruct Hc as [-> _]; cbn in Hge; lia].
      destruct Hc as [(rest & Er) Hsize]. assert (Hlb : (length l < length b)%nat).
      { rewrite Er, length_app, length_terminated. lia. }
      destruct (Z.ltb_spec (size s) (Z.of_nat (length m) + 1)); [lia|]. exists b. split_and!; done || lia. }
  unfold write. rewrite Eb. cbn [deref mbind outcome_bind].
  destruct (write_text b [] m b eq_refl) as (b' & Ew & Hlb & Hrest'); [cbn; lia|].
  change (Z.of_nat (length [])) with 0 in Ew. rewrite Ew. cbn [mbind outcome_bind]. eexists. split; [done|]. split; [|by cbn].
  apply (text_intro _ b'); cbn; [done|done|lia|done|rewrite Hw; apply H|lia|by rewrite Hw].
Qed.

Lemma insert_ok s l p m :
  text s l → Forall (char_ok (width s)) m → Z.of_nat (length l + length m) + 1 < 2 ^ 30 →
  ∃ s', insert s (Z.of_nat p) m = Ok s' ∧ text s' (take p l ++ m ++ drop p l) ∧
    index s' = index s ∧ width s' = width s.
Proof.
  intros H Hm Hb. unfold insert. rewrite (t_len _ _ H).
  destruct (Z.leb_spec (Z.of_nat (length l)) (Z.of_nat p)) as [Hle|Hlt].
  { destruct (append_ok s l m H Hm Hb) as (s' & E & H' & ?). exists s'.
    rewrite take_ge, drop_ge, app_nil_r by lia. done. }
  rewrite strlen_small by lia. destruct (Z.eqb_spec (Z.of_nat (length m)) 0) as [H0|H0].
  { destruct m; [|cbn in H0; lia]. exists s. by rewrite app_nil_l, take_drop. }
  rewrite (u32_small (_ + 1)) by lia.
  destruct (room_ok (Z.of_nat (length l) + Z.of_nat (length m) + 1) s l H) as
    (b & Eb & Hlen & Hsize & Hmax & Hl & Hw & Hi & _ & Hterm); [lia|].
  destruct Hterm as [rest Er]; [intros ->; cbn in Hlt; lia|].
  rewrite Eb, Hl, (t_len _ _ H), (u32_small (_ + 1)) by lia. cbn [deref mbind outcome_bind].
  assert (Hread : read_chars b (Z.of_nat p) (Z.of_nat (length l) - Z.of_nat p + 1) = Ok (terminated (drop p l))).
  { unfold read_chars. destruct (Z.leb_spec (Z.of_nat p + (Z.of_nat (length l) - Z.of_nat p + 1)) (Z.of_nat (length b))); [|lia].
    f_equal. rewrite Er, Nat2Z.id. rewrite drop_app_le by (rewrite length_terminated; lia).
    assert (E : drop p (terminated l) = terminated (drop p l)).
    { unfold terminated. rewrite drop_app_le by (rewrite length_fmap; lia). by rewrite fmap_drop. }
    rewrite E. apply take_app_length'. rewrite length_terminated, length_drop. lia. }
  rewrite Hread. cbn [mbind outcome_bind]. unfold write. rewrite Eb. cbn [deref mbind outcome_bind].
  unfold write_chars. rewrite length_terminated, length_drop.
  destruct (Z.leb_spec (Z.of_nat p + Z.of_nat (length m) + Z.of_nat (S (length l - p))) (Z.of_nat (length b))); [|lia].
  cbn [mbind outcome_bind]. replace (Z.to_nat (Z.of_nat p + Z.of_nat (length m))) with (p + length m)%nat by lia.
  set (b1 := take (p + length m) b ++ _).
  assert (Hlb1 : length b1 = length b).
  { unfold b1. rewrite !length_app, length_take, length_drop, length_terminated, length_drop. lia. }
  cbn [chars set_chars deref mbind outcome_bind]. rewrite length_fmap, Hlb1.
  destruct (Z.leb_spec (Z.of_nat p + Z.of_nat (length m)) (Z.of_nat (length b))); [|lia].
  cbn [mbind outcome_bind]. rewrite Nat2Z.id.
  set (b2 := take p b1 ++ _).
  assert (Hb2 : b2 = terminated (take p l ++ m ++ drop p l) ++ drop (p + length m + S (length l - p)) b).
  { unfold b2. assert (E1 : take p b1 = Some <$> take p l).
    { unfold b1. rewrite take_app_le by (rewrite length_take; lia). rewrite take_take, Nat.min_l by lia.
      rewrite Er. unfold terminated. rewrite <-app_assoc, take_app_le by (rewrite length_fmap; lia).
      by rewrite fmap_take. }
    assert (E2 : drop (p + length m) b1 = terminated (drop p l) ++ drop (p + length m + S (length l - p)) b).
    { unfold b1. rewrite drop_app_length' by (rewrite length_take; lia). done. }
    rewrite E1, E2. rewrite !terminated_app. by rewrite <-!app_assoc. }
  eexists. split; [done|]. split; [|by cbn].
  apply (text_intro _ b2); cbn; [done|by rewrite Hb2; eexists| | | | |].
  - rewrite Hsize. f_equal. unfold b2. rewrite !length_app, length_take, length_drop, length_fmap. lia.
  - rewrite Hl, (t_len _ _ H), u32_small by lia. rewrite !length_app, length_take, length_drop. lia.
  - rewrite Hw. apply H.
  - unfold b2. rewrite !length_app, length_take, length_drop, length_fmap. lia.
  - rewrite Hw. pose proof (t_ok _ _ H) as Hok.
    repeat (apply Forall_app; split); [by apply Forall_take|done|by apply Forall_drop].
Qed.

Lemma room_width n s : width (room n s) = width s.
Proof. unfold room. by destruct (size s <? n). Qed.
Lemma addc_ok s l c :
  text s l → char_ok (width s) c → Z.of_nat (length l) + 2 < 2 ^ 30 →
  ∃ s', addc s c = Ok s' ∧ text s' (l ++ [c]) ∧ index s' = index s ∧ width s' = width s.
Proof.
  intros H Hc Hb. assert (E : addc s c = append s [c]).
  { unfold addc, append, strlen. cbn [length]. change (u32 (Z.of_nat 1)) with 1.
    replace (len s + 1 + 1) with (len s + 2) by lia. rewrite room_width.
    rewrite (Z.mod_small c) by (destruct Hc; split; [lia|done]). done. }
  rewrite E. apply append_ok; [done|by apply Forall_singleton|cbn [length]; lia].
Qed.

Lemma char_to_16_ascii l : Forall (λ c, 0 < c < 128) l → char_to_16 <$> l = l.
Proof.
  intros H. induction H as [|c l Hc Hl IH]; [done|]. cbn. rewrite IH. f_equal.
  unfold char_to_16. rewrite (sint_small 8 c); [apply Z.mod_small; lia|lia|].
  change (2 ^ (8 - 1)) with 128. lia.
Qed.
Lemma ascii_ok w l : w = 1 ∨ w = 2 → Forall (λ c, 0 < c < 128) l → Forall (char_ok w) l.
Proof.
  intros Hw H. eapply Forall_impl; [exact H|]. intros c Hc. cbn in Hc. unfold char_ok.
  destruct Hw as [-> | ->]; [change (2 ^ (8 * 1)) with 256|change (2 ^ (8 * 2)) with 65536]; lia.
Qed.
Lemma append8_ok s l m :
  text s l → Forall (λ c, 0 < c < 128) m → Z.of_nat (length l + length m) + 1 < 2 ^ 30 →
  ∃ s', append8 s m = Ok s' ∧ text s' (l ++ m) ∧ index s' = index s ∧ width s' = width s.
Proof.
  intros H Hm Hb. assert (E : append8 s m = append s m).
  { unfold append8. rewrite char_to_16_ascii by done. by destruct (width s =? 1). }
  rewrite E. apply append_ok; [done| |done]. apply ascii_ok; [apply H|done].
Qed.
Lemma insert8_ok s l p m :
  text s l → Forall (λ c, 0 < c < 128) m → Z.of_nat (length l + length m) + 1 < 2 ^ 30 →
  ∃ s', insert8 s (Z.of_nat p) m = Ok s' ∧ text s' (take p l ++ m ++ drop p l) ∧
    index s' = index s ∧ width s' = width s.
Proof.
  intros H Hm Hb. assert (E : insert8 s (Z.of_nat p) m = insert s (Z.of_nat p) m).
  { unfold insert8. rewrite char_to_16_ascii by done. by destruct (width s =? 1). }
  rewrite E. apply insert_ok; [done| |done]. apply ascii_ok; [apply H|done].
Qed.

(** *** Numbers *)

Lemma decimal_chars fuel n ds :
  0 ≤ n → Forall (λ c, 48 ≤ c ≤ 57) ds → Forall (λ c, 48 ≤ c ≤ 57) (decimal fuel n ds).
Proof.
  revert n ds. induction fuel as [|fuel IH]; intros n ds Hn Hds; [done|]. cbn [decimal].
  pose proof (Z.mod_pos_bound n 10 ltac:(lia)).
  destruct (n <? 10); [by apply Forall_cons; split; [lia|]|].
  apply IH; [apply Z.div_pos; lia|]. by apply Forall_cons; split; [lia|].
Qed.
Lemma decimal_length fuel n ds : (length (decimal fuel n ds) ≤ fuel + length ds)%nat.
Proof.
  revert n ds. induction fuel as [|fuel IH]; intros n ds; [done|]. cbn [decimal].
  destruct (n <? 10); [cbn; lia|]. etrans; [apply IH|]. cbn. lia.
Qed.
Lemma decimal_cons fuel n ds : ∃ c l, decimal (S fuel) n ds = c :: l.
Proof.
  revert n ds. induction fuel as [|fuel IH]; intros n ds; cbn [decimal].
  - destruct (n <? 10); by eexists _, _.
  - destruct (n <? 10); [by eexists _, _|]. apply IH.
Qed.
Lemma sprintf_d_ascii i : Forall (λ c, 0 < c < 128) (sprintf_d i).
Proof.
  assert (H : ∀ n, 0 ≤ n → Forall (λ c, 0 < c < 128) (decimal 10 n [])).
  { intros n Hn. eapply Forall_impl; [apply decimal_chars; [done|constructor]|]. cbn. lia. }
  unfold sprintf_d. destruct (Z.ltb_spec i 0); [|by apply H]. apply Forall_cons. split; [lia|]. apply H. lia.
Qed.
Lemma sprintf_d_length i : (length (sprintf_d i) ≤ 11)%nat.
Proof.
  unfold sprintf_d. destruct (i <? 0); cbn [length].
  - pose proof (decimal_length 10 (- i) []). cbn [length] in *. lia.
  - pose proof (decimal_length 10 i []). cbn [length] in *. lia.
Qed.

Lemma read_digit c b v :
  48 ≤ c ≤ 57 → 0 ≤ v → v * 10 + (c - 48) ≤ INT_MAX →
  read_digits (Some c :: b) v = read_digits b (v * 10 + (c - 48)).
Proof.
  intros Hc Hv Hm. cbn [read_digits init mbind outcome_bind].
  destruct (Z.eqb_spec c 0); [lia|]. unfold isdigit.
  destruct (Z.leb_spec 0 c); [|lia]. destruct (Z.leb_spec c 255); [|lia].
  destruct (Z.leb_spec 48 c); [|lia]. destruct (Z.leb_spec c 57); [|lia].
  cbn [andb mbind outcome_bind]. unfold INT_MAX in Hm.
  rewrite int_op_ok by (unfold INT_MIN, INT_MAX; lia). cbn [mbind outcome_bind].
  rewrite (sint_small 32); [done|lia|]. change (2 ^ (32 - 1)) with 2147483648. lia.
Qed.
Lemma read_decimal fuel n ds T :
  0 ≤ n ≤ INT_MAX → n < 10 ^ Z.of_nat fuel →
  read_digits ((Some <$> decimal fuel n ds) ++ T) 0 = read_digits ((Some <$> ds) ++ T) n.
Proof.
  revert n ds. induction fuel as [|fuel IH]; intros n ds Hn Hf.
  { cbn in Hf. assert (n = 0) as -> by lia. done. }
  cbn [decimal]. pose proof (Z.div_mod n 10 ltac:(lia)) as Hdm.
  pose proof (Z.mod_pos_bound n 10 ltac:(lia)). destruct (Z.ltb_spec n 10) as [Hlt|Hge].
  - cbn [fmap list_fmap app]. rewrite Z.mod_small by lia. rewrite read_digit by lia. f_equal. lia.
  - rewrite IH; [|split; [apply Z.div_pos; lia|]|].
    + cbn [fmap list_fmap app]. rewrite read_digit by lia. f_equal. lia.
    + pose proof (Z.div_pos n 10). lia.
    + rewrite Nat2Z.inj_succ, Z.pow_succ_r in Hf by lia. apply Z.div_lt_upper_bound; lia.
Qed.

(** The number that was added is read back; what follows it must not be a digit. *)
Lemma toInt32_ok s i :
  text s (sprintf_d i) → - INT_MAX ≤ i ≤ INT_MAX → toInt32_UTF16 s = Ok i.
Proof.
  intros H Hi. pose proof (t_chars _ _ H) as Hc. unfold toInt32_UTF16.
  assert (Hread : ∀ n rest, 0 ≤ n ≤ INT_MAX →
    read_digits (terminated (decimal 10 n []) ++ rest) 0 = Ok n).
  { intros n rest Hn. unfold terminated. rewrite <-app_assoc, read_decimal; [done|done|].
    unfold INT_MAX in *. cbn. lia. }
  unfold sprintf_d in *. destruct (Z.ltb_spec i 0) as [Hneg|Hpos].
  - destruct (chars s) as [b|]; [|by destruct Hc]. destruct Hc as [[rest ->] _]. cbn [deref mbind outcome_bind].
    change (terminated (45 :: decimal 10 (- i) []) ++ rest)
      with (Some 45 :: (terminated (decimal 10 (- i) []) ++ rest)).
    cbn [init mbind outcome_bind Z.eqb orb Pos.eqb]. rewrite Hread by lia. cbn [mbind outcome_bind].
    rewrite int_op_ok by (unfold INT_MIN, INT_MAX in *; lia). f_equal. lia.
  - destruct (decimal_cons 9 i []) as (c & l & Hcl). pose proof (decimal_chars 10 i [] Hpos) as Hds.
    rewrite Hcl in *. specialize (Hds ltac:(constructor)). apply Forall_cons in Hds as [Hcr _].
    destruct (chars s) as [b|]; [|by destruct Hc]. destruct Hc as [[rest ->] _]. cbn [deref mbind outcome_bind].
    assert (E : terminated (c :: l) ++ rest = Some c :: (terminated l ++ rest)) by done. rewrite E.
    cbn [init mbind outcome_bind]. destruct (Z.eqb_spec c 45); [lia|]. destruct (Z.eqb_spec c 43); [lia|].
    cbn [orb]. specialize (Hread i rest ltac:(lia)). rewrite Hcl, E in Hread. by rewrite Hread.
Qed.

Lemma c_string_text w l rest : Forall (char_ok w) l → c_string (terminated l ++ rest) = Ok l.
Proof.
  induction 1 as [|c l Hc Hl IH]; [done|].
  assert (E : terminated (c :: l) ++ rest = Some c :: (terminated l ++ rest)) by done. rewrite E.
  cbn [c_string init mbind outcome_bind]. unfold char_ok in Hc. destruct (Z.eqb_spec c 0); [lia|]. by rewrite IH.
Qed.
Lemma atoi_digits_decimal fuel n ds T :
  0 ≤ n → n < 10 ^ Z.of_nat fuel →
  atoi_digits (decimal fuel n ds ++ T) 0 = atoi_digits (ds ++ T) n.
Proof.
  revert n ds. induction fuel as [|fuel IH]; intros n ds Hn Hf.
  { cbn in Hf. assert (n = 0) as -> by lia. done. }
  cbn [decimal]. pose proof (Z.div_mod n 10 ltac:(lia)) as Hdm.
  pose proof (Z.mod_pos_bound n 10 ltac:(lia)) as Hm.
  assert (Hd : ∀ v, atoi_digits ((48 + n mod 10) :: ds ++ T) v = atoi_digits (ds ++ T) (v * 10 + n mod 10)).
  { intros v. cbn [atoi_digits]. zb. f_equal; lia. }
  destruct (Z.ltb_spec n 10) as [Hlt|Hge].
  - cbn [app]. rewrite Hd, Z.mod_small by lia. f_equal; lia.
  - rewrite IH; [|apply Z.div_pos; lia|].
    + cbn [app]. rewrite Hd. f_equal; lia.
    + rewrite Nat2Z.inj_succ, Z.pow_succ_r in Hf by lia. apply Z.div_lt_upper_bound; lia.
Qed.

(** A number is read back whatever its sign and size. *)
Lemma atoi_sprintf i : INT_MIN ≤ i ≤ INT_MAX → atoi (sprintf_d i) = Ok i.
Proof.
  intros Hi. assert (H : ∀ n, 0 ≤ n ≤ 2 ^ 31 → atoi_digits (decimal 10 n []) 0 = n).
  { intros n Hn. rewrite <-(app_nil_r (decimal 10 n [])), atoi_digits_decimal; [done|lia|]. cbn. lia. }
  unfold sprintf_d, INT_MIN, INT_MAX in *. destruct (Z.ltb_spec i 0).
  - unfold atoi. cbn [skip_space]. change (atoi_space 45) with false. cbn [Z.eqb Pos.eqb].
    rewrite H by lia. rewrite Z.opp_involutive. by apply int_op_ok.
  - pose proof (decimal_chars 10 i []) as Hds. destruct (decimal_cons 9 i []) as (c & l & E).
    specialize (H i ltac:(lia)). rewrite E in *. specialize (Hds ltac:(lia) ltac:(constructor)).
    apply Forall_cons in Hds as [Hc _]. unfold atoi. cbn [skip_space].
    assert (atoi_space c = false) as -> by (unfold atoi_space; zb; done).
    destruct (Z.eqb_spec c 45); [lia|]. destruct (Z.eqb_spec c 43); [lia|]. rewrite H. by apply int_op_ok.
Qed.


Lemma toInt32_8_ok s i : text s (sprintf_d i) → INT_MIN ≤ i ≤ INT_MAX → toInt32_8 s = Ok i.
Proof.
  intros Ht Hi. unfold toInt32_8. pose proof (t_chars _ _ Ht) as Hc. destruct (chars s) as [b|].
  - destruct Hc as [[rest ->] _]. cbn [deref mbind outcome_bind].
    rewrite (c_string_text (width s)) by apply Ht. cbn [mbind outcome_bind]. by apply atoi_sprintf.
  - destruct Hc as [Hc _]. pose proof (decimal_cons 9 i []) as (c & l & E1).
    pose proof (decimal_cons 9 (- i) []) as (c' & l' & E2). unfold sprintf_d in Hc.
    rewrite E1, E2 in Hc. by destruct (i <? 0).
Qed.
Lemma toInt32_fn_ok s i : text s (sprintf_d i) → - INT_MAX ≤ i ≤ INT_MAX → toInt32_fn s = Ok i.
Proof.
  intros Ht Hi. unfold toInt32_fn. destruct (width s =? 1); [|by apply toInt32_ok].
  apply toInt32_8_ok; [done|]. unfold INT_MIN, INT_MAX in *. lia.
Qed.

(** *** Reading *)

Lemma charAt_ok s l off :
  text s l → chars s ≠ None → charAt s (Z.of_nat off) = Ok (default 0 (l !! off)).
Proof.
  intros H Hne. unfold charAt. rewrite (t_len _ _ H). pose proof (t_chars _ _ H) as Hc.
  destruct (chars s) as [b|]; [|done]. destruct Hc as [[rest ->] _].
  destruct (Z.ltb_spec (Z.of_nat (length l)) (Z.of_nat off)).
  { by rewrite lookup_ge_None_2 by lia. }
  cbn [deref mbind outcome_bind]. rewrite (index_lookup _ _ (Some (default 0 (l !! off)))); [done|lia|].
  rewrite Nat2Z.id, lookup_app_l by (rewrite length_terminated; lia). unfold terminated.
  destruct (decide (off = length l)) as [->|].
  - rewrite lookup_app_r by (rewrite length_fmap; lia). rewrite length_fmap, Nat.sub_diag.
    by rewrite (lookup_ge_None_2 l) by lia.
  - destruct (lookup_lt_is_Some_2 l off) as [c Ec]; [lia|]. rewrite lookup_app_l by (rewrite length_fmap; lia).
    by rewrite list_lookup_fmap, Ec.
Qed.
Lemma strcmp_eq a b : strcmp a b = 0 ↔ a = b.
Proof.
  revert b. induction a as [|x a IH]; intros [|y b]; cbn; [done..|].
  destruct (Z.eqb_spec x y) as [->|Hne].
  - rewrite IH. split; [by intros ->|by intros [= ->]].
  - split; [intros H; apply Z.sgn_null_iff in H; lia|by intros [= -> ->]].
Qed.
Lemma compare8_ok s l m :
  text s l → chars s ≠ None → ∃ r, compare8 s m = Ok r ∧ (r = 0 ↔ l = m).
Proof.
  intros H Hne. unfold compare8. pose proof (t_chars _ _ H) as Hc. destruct (chars s) as [b|]; [|done].
  destruct Hc as [[rest ->] _]. cbn [deref mbind outcome_bind].
  rewrite (c_string_text (width s)) by apply H. cbn [mbind outcome_bind].
  eexists. split; [done|]. rewrite <-strcmp_eq.
  assert (Hr : -1 ≤ strcmp l m ≤ 1).
  { clear. revert m. induction l as [|x l IH]; intros [|y m]; cbn; [lia..|].
    destruct (x =? y); [apply IH|]. destruct (Z.sgn_spec (x - y)) as [[_ ->]|[[_ ->]|[_ ->]]]; lia. }
  assert (strcmp l m = -1 ∨ strcmp l m = 0 ∨ strcmp l m = 1) as [-> | [-> | ->]] by lia; done.
Qed.

Lemma compare_units_ok l k rest :
  Forall (λ x, 0 < x < 65536) l → Forall (λ y, y ≠ 0 ∧ - 128 ≤ y < 65536) k →
  ∃ r, compare_units (terminated l ++ rest) k = Ok r ∧ (r = 0 ↔ l = k).
Proof.
  intros Hl. revert k. induction Hl as [|x l Hx Hl IH]; intros k Hk.
  - destruct k as [|y k]; cbn; [by exists 0|]. apply Forall_cons in Hk as [Hy _].
    eexists. split; [done|]. split; [|done]. unfold u32. intros E. apply Z.mod_divide in E as [z E]; lia.
  - change (terminated (x :: l) ++ rest) with (Some x :: (terminated l ++ rest)). cbn [compare_units init mbind outcome_bind].
    destruct k as [|y k].
    + eexists. split; [done|]. rewrite u32_small by lia. split; [lia|done].
    + apply Forall_cons in Hk as [Hy Hk]. destruct (Z.eqb_spec x 0); [lia|].
      destruct (Z.eqb_spec x y) as [->|Hne].
      * destruct (IH k Hk) as (r & -> & Hr). exists r. split; [done|]. rewrite Hr. split; [by intros ->|by intros [= ->]].
      * eexists. split; [done|]. split; [|by intros [= -> ->]]. unfold u32. intros E. apply Z.mod_divide in E as [z E]; lia.
Qed.
Lemma chars_range s l : (width s = 1 ∨ width s = 2) → Forall (char_ok (width s)) l → Forall (λ x, 0 < x < 65536) l.
Proof.
  intros Hw Hl. eapply Forall_impl; [exact Hl|]. intros x. unfold char_ok. destruct Hw as [-> | ->]; cbn; lia.
Qed.

(** The member [compare] compares with a text of the width of the string, [compare8]
    with one of bytes; the latter extends the sign of the bytes when the string has 16
    bits per character. *)
Lemma compare_fn_ok s l m :
  text s l → chars s ≠ None → Forall (char_ok (width s)) m → ∃ r, compare_fn s m = Ok r ∧ (r = 0 ↔ l = m).
Proof.
  intros H Hne Hm. unfold compare_fn. destruct (width s =? 1); [by apply compare8_ok|].
  unfold compareUTF16_UTF16. pose proof (t_chars _ _ H) as Hc. destruct (chars s) as [b|]; [|done].
  destruct Hc as [[rest ->] _]. cbn [deref mbind outcome_bind]. apply compare_units_ok.
  - eapply chars_range; apply H.
  - eapply Forall_impl; [eapply chars_range; [apply H|exact Hm]|]. cbn. lia.
Qed.
Lemma sint8_byte y : 0 < y < 256 → sint 8 y ≠ 0 ∧ - 128 ≤ sint 8 y < 128 ∧ (y < 128 → sint 8 y = y) ∧ (128 ≤ y → sint 8 y < 0).
Proof.
  intros Hy. unfold sint. change (2 ^ (8 - 1)) with 128. change (2 ^ 8) with 256.
  Z.to_euclidean_division_equations. lia.
Qed.
Lemma compare8_fn_ok s l m :
  text s l → chars s ≠ None → Forall (char_ok 1) m →
  ∃ r, compare8_fn s m = Ok r ∧ (r = 0 ↔ l = m ∧ (width s = 1 ∨ Forall (λ c, c < 128) m)).
Proof.
  intros H Hne Hm. unfold compare8_fn. destruct (Z.eqb_spec (width s) 1) as [Hw|Hw].
  { destruct (compare8_ok s l m H Hne) as (r & -> & Hr). exists r. split; [done|]. rewrite Hr. naive_solver. }
  unfold compareUTF16_8. pose proof (t_chars _ _ H) as Hc. destruct (chars s) as [b|]; [|done].
  destruct Hc as [[rest ->] _]. cbn [deref mbind outcome_bind].
  destruct (compare_units_ok l (sint 8 <$> m) rest) as (r & -> & Hr).
  - eapply chars_range; apply H.
  - apply Forall_fmap. eapply Forall_impl; [exact Hm|]. intros y Hy. unfold char_ok in Hy. cbn in Hy |- *.
    pose proof (sint8_byte y ltac:(lia)). lia.
  - exists r. split; [done|]. rewrite Hr. assert (Hl : Forall (λ x, 0 < x) l).
    { eapply Forall_impl; [apply H|]. intros x Hx. unfold char_ok in Hx. lia. }
    clear Hr H Hne. revert m Hm. induction Hl as [|x l Hx Hl IH]; intros [|y m] Hm; cbn; [naive_solver..|].
    apply Forall_cons in Hm as [Hy Hm]. unfold char_ok in Hy. pose proof (sint8_byte y ltac:(lia)) as (? & ? & Hs1 & Hs2).
    specialize (IH m Hm). rewrite Forall_cons. split.
    + intros [= -> E]. assert (y < 128) by (destruct (Z.ltb_spec y 128); [done|lia]). rewrite Hs1 by done.
      destruct (proj1 IH E) as [-> [?|?]]; [done|]. by split; [|right].
    + intros [[= -> ->] [?|[Hy' ?]]]; [done|]. rewrite Hs1 by done. f_equal. apply IH. by split; [|right].
Qed.


(** ** The factory owns its strings

    [ps] are the strings that were made and not destroyed, in the order in which the
    vector of the factory has them. *)
Definition owned (p : nat) : VECTOR_ELEMENT nat := mkElement (Some p) true.
Record factory_ok (f : STRING_FACTORY) (ps : list nat) : Prop := {
  fo_vector : holds (strings f) (owned <$> ps);
  fo_next : next_index f = Z.of_nat (length ps);
  fo_nodup : NoDup ps;
  fo_index : ∀ i p, ps !! i = Some p → ∃ s, store f !! p = Some s ∧ index s = Z.of_nat i;
  fo_store : dom (store f) = list_to_set ps
}.

Lemma factory_live f ps p s : factory_ok f ps → store f !! p = Some s → p ∈ ps.
Proof.
  intros H Hs. apply elem_of_dom_2 in Hs. rewrite (fo_store _ _ H) in Hs. by apply elem_of_list_to_set in Hs.
Qed.
Lemma update_ok f ps p s s' :
  factory_ok f ps → store f !! p = Some s → index s' = index s → factory_ok (update f p s') ps.
Proof.
  intros H Hs Hi. split; cbn; try apply H.
  - intros i q Hq. destruct (fo_index _ _ H i q Hq) as (t & Ht & Hti). destruct (decide (q = p)) as [->|].
    + exists s'. rewrite lookup_insert_eq. split; [done|]. congruence.
    + exists t. by rewrite lookup_insert_ne.
  - rewrite dom_insert_lookup_L by done. apply H.
Qed.

Lemma StringFactoryNew_ok b : factory_ok (StringFactoryNew b) [].
Proof. split; cbn; try done; [by apply VectorNew_holds|constructor]. Qed.

Lemma newRaw_ok w f ps :
  factory_ok f ps → Z.of_nat (length ps) < 2 ^ 30 →
  ∃ p f', newRaw_ w f = Ok (p, f') ∧ factory_ok f' (ps ++ [p]) ∧ (p ∉ ps) ∧ api f' = api f ∧
    store f' = <[p := mkString None 0 0 (Z.of_nat (length ps)) w]> (store f).
Proof.
  intros H Hl. unfold newRaw_. set (p := base.fresh _).
  assert (Hp : p ∉ ps).
  { intros Hp. apply (is_fresh (dom (store f))). fold p. assert (Hd : ∀ x, x ∈ ps → x ∈ dom (store f)).
    { intros x Hx. rewrite (fo_store _ _ H). by apply elem_of_list_to_set. }
    by apply Hd. }
  rewrite (fo_next _ _ H).
  destruct (VectorSet_ok (strings f) (owned <$> ps) (length ps) (Some p) true true)
    as (v & E & Hv); [apply H|by rewrite length_fmap|rewrite length_fmap; lia|].
  rewrite lookup_ge_None_2 in E by (rewrite length_fmap; lia).
  rewrite E. cbn [mbind outcome_bind free_strings]. eexists p, _. split; [done|].
  rewrite take_ge, drop_ge in Hv by (rewrite length_fmap; lia).
  split_and!; [|done|done|done]. split; cbn.
  - by rewrite fmap_app.
  - rewrite u32_small, length_app by lia. cbn. lia.
  - apply NoDup_app. split_and!; [apply H| |apply NoDup_singleton]. by intros x Hx ->%list_elem_of_singleton.
  - intros i q [Hq|[Hge Hq]]%lookup_app_Some.
    + assert (q ≠ p) by (intros ->; apply Hp; by eapply list_elem_of_lookup_2).
      rewrite lookup_insert_ne by done. by apply (fo_index _ _ H).
    + apply list_lookup_singleton_Some in Hq as [Hi <-]. rewrite lookup_insert_eq.
      eexists. split; [done|]. cbn. f_equal. lia.
  - rewrite dom_insert_L, (fo_store _ _ H), list_to_set_app_L. cbn. set_solver.
Qed.

(** A string made from a C string; an empty one of 16 bits has no terminator. *)
Lemma newStr_ok f ps l :
  factory_ok f ps → Z.of_nat (length ps) < 2 ^ 30 → (api f = 1 ∨ api f = 2) →
  Forall (char_ok (api f)) l → Z.of_nat (length l) + 1 < 2 ^ 30 →
  ∃ p f' s, newStr f l = Ok (p, f') ∧ factory_ok f' (ps ++ [p]) ∧ (p ∉ ps) ∧ api f' = api f ∧
    store f' = <[p := s]> (store f) ∧ (l ≠ [] ∨ api f = 1 → text s l).
Proof.
  intros H Hl Hapi Hok Hn. unfold newStr, newPtr, newSize, newRaw. rewrite strlen_small by lia.
  destruct (newRaw_ok (api f) f ps H Hl) as (p & f1 & E1 & H1 & Hp & Ha1 & Hs1). rewrite E1.
  cbn [mbind outcome_bind]. unfold load. rewrite Hs1, lookup_insert_eq. cbn [mbind outcome_bind width].
  rewrite u32_small by lia. set (x := if api f =? 1 then Some 0 else None).
  assert (Eb : write_chars (replicate (Z.to_nat (Z.of_nat (length l) + 1)) None) 0 [x]
    = Ok (x :: replicate (length l) None)).
  { unfold write_chars. rewrite length_replicate. cbn [length].
    destruct (Z.leb_spec (0 + Z.of_nat 1) (Z.of_nat (Z.to_nat (Z.of_nat (length l) + 1)))); [|lia].
    f_equal. replace (Z.to_nat (Z.of_nat (length l) + 1)) with (S (length l)) by lia. done. }
  rewrite Eb. cbn [mbind outcome_bind].
  set (s0 := set_size _ _). assert (H2 : factory_ok (update f1 p s0) (ps ++ [p])).
  { eapply update_ok; [done|by rewrite Hs1, lookup_insert_eq|done]. }
  assert (Hst : store (update f1 p s0) = <[p := s0]> (store f)).
  { cbn. by rewrite Hs1, insert_insert_eq. }
  destruct (Z.eqb_spec (Z.of_nat (length l)) 0) as [H0|H0].
  { destruct l; [|cbn in H0; lia]. eexists p, _, s0. split_and!; [done..|].
    intros [Hl0|Hw]; [done|]. apply (text_intro _ [Some 0]); cbn; try done.
    - unfold x. by rewrite Hw.
    - by exists []. }
  rewrite Hst, lookup_insert_eq. cbn [mbind outcome_bind].
  assert (Er : read_chars (terminated l) 0 (Z.of_nat (length l)) = Ok (Some <$> l)).
  { unfold read_chars. rewrite length_terminated.
    destruct (Z.leb_spec (0 + Z.of_nat (length l)) (Z.of_nat (S (length l)))); [|lia].
    f_equal. rewrite Nat2Z.id. cbn [Z.to_nat drop]. unfold terminated. apply take_app_length'. by rewrite length_fmap. }
  rewrite Er. cbn [mbind outcome_bind].
  assert (Ew : ∃ s1, (s ← write 0 (Some <$> l) s0; write (Z.of_nat (length l)) [Some 0] s) = Ok s1 ∧
    chars s1 = Some (terminated l) ∧ size s1 = size s0 ∧ width s1 = width s0 ∧ index s1 = index s0).
  { unfold write. cbn [chars s0 set_size set_chars deref mbind outcome_bind]. unfold write_chars.
    rewrite length_fmap. cbn [length]. rewrite length_replicate.
    destruct (Z.leb_spec (0 + Z.of_nat (length l)) (Z.of_nat (S (length l)))); [|lia].
    change (Z.to_nat 0) with 0%nat. cbn [chars set_chars deref mbind outcome_bind take app Nat.add].
    rewrite length_app, length_fmap, length_drop. cbn [length Nat.add]. rewrite length_replicate.
    destruct (Z.leb_spec (Z.of_nat (length l) + Z.of_nat 1) (Z.of_nat (length l + (S (length l) - length l)))); [|lia].
    eexists. split; [done|]. cbn. split_and!; [|done..]. f_equal. rewrite Nat2Z.id.
    rewrite take_app_length' by (by rewrite length_fmap). rewrite drop_ge; [done|].
    rewrite length_app, length_fmap, length_drop. cbn. rewrite length_replicate. lia. }
  destruct Ew as (s1 & Ew & Hc & Hz & Hw & Hi).
  destruct (write 0 (Some <$> l) s0) as [s2| |] eqn:E2; [|done..]. cbn [mbind outcome_bind] in Ew |- *.
  rewrite Ew. cbn [mbind outcome_bind]. eexists p, _, (set_len (Z.of_nat (length l)) s1).
  split_and!; [done| |done|done| |].
  - eapply update_ok; [done|by rewrite Hst, lookup_insert_eq|done].
  - cbn. by rewrite Hs1, !insert_insert_eq.
  - intros _. apply (text_intro _ (terminated l)); cbn.
    + done.
    + exists []. by rewrite app_nil_r.
    + rewrite Hz, length_terminated. cbn. lia.
    + done.
    + by rewrite Hw.
    + rewrite length_terminated. lia.
    + by rewrite Hw.
Qed.

(** Only the first [k] strings have their numbers. *)
Record numbered (f : STRING_FACTORY) (ps : list nat) (k : nat) : Prop := {
  n_vector : holds (strings f) (owned <$> ps);
  n_next : next_index f = Z.of_nat (length ps);
  n_nodup : NoDup ps;
  n_index : ∀ i p, ps !! i = Some p →
    ∃ s, store f !! p = Some s ∧ ((i < k)%nat → index s = Z.of_nat i);
  n_store : dom (store f) = list_to_set ps
}.
Lemma numbered_all f ps : numbered f ps (length ps) → factory_ok f ps.
Proof.
  intros H. split; try apply H. intros i p Hi. destruct (n_index _ _ _ H i p Hi) as (s & Hs & Hx).
  exists s. split; [done|]. apply Hx. by eapply lookup_lt_Some.
Qed.

(** The strings are the same but for their numbers. *)
Definition renumbered (f f' : STRING_FACTORY) : Prop :=
  ∀ q s, store f !! q = Some s → ∃ k, store f' !! q = Some (set_index k s).
Lemma renumbered_refl f : renumbered f f.
Proof. intros q s Hs. exists (index s). by rewrite Hs; destruct s. Qed.

Lemma reindex_ok n f ps k :
  numbered f ps k → n = (length ps - k)%nat → (k ≤ length ps)%nat →
  ∃ f', reindex n (Z.of_nat k) f = Ok f' ∧ factory_ok f' ps ∧ renumbered f f'.
Proof.
  revert f k. induction n as [|n IH]; intros f k H Hn Hk.
  { exists f. assert (k = length ps) as -> by lia. split_and!; [done|by apply numbered_all|apply renumbered_refl]. }
  destruct (lookup_lt_is_Some_2 ps k) as [q Hq]; [lia|].
  destruct (n_index _ _ _ H k q Hq) as (s & Hs & _). cbn [reindex].
  rewrite (read_slot_ok _ _ _ (owned q) (n_vector _ _ _ H)) by by rewrite list_lookup_fmap, Hq.
  cbn [mbind outcome_bind owned element deref]. unfold load. rewrite Hs. cbn [mbind outcome_bind].
  destruct (IH (update f q (set_index (Z.of_nat k) s)) (S k)) as (f' & E & Hf' & Hr); [|lia|lia|].
  { split; cbn; try apply H.
    - intros i p Hp. destruct (decide (p = q)) as [->|Hne].
      + assert (i = k) as -> by (eapply NoDup_lookup; [apply H|done|done]).
        exists (set_index (Z.of_nat k) s). by rewrite lookup_insert_eq.
      + destruct (n_index _ _ _ H i p Hp) as (t & Ht & Hti). exists t. rewrite lookup_insert_ne by done.
        split; [done|]. intros Hi. apply Hti. assert (i ≠ k) by congruence. lia.
    - rewrite dom_insert_lookup_L by done. apply H. }
  exists f'. replace (Z.of_nat (S k)) with (Z.of_nat k + 1) in E by lia. split_and!; [done|done|].
  intros p t Ht. destruct (decide (p = q)) as [->|Hne].
  - destruct (Hr q (set_index (Z.of_nat k) s)) as [j Hj]; [by cbn; rewrite lookup_insert_eq|].
    exists j. rewrite Hj. f_equal. assert (t = s) as -> by congruence. done.
  - apply Hr. cbn. by rewrite lookup_insert_ne.
Qed.

Lemma string_destroy_ok f ps i p :
  factory_ok f ps → ps !! i = Some p → Z.of_nat (length ps) < 2 ^ 31 →
  ∃ f', destroy f p = Ok f' ∧ factory_ok f' (delete i ps) ∧ store f' !! p = None ∧
    ∀ q s, q ≠ p → store f !! q = Some s → ∃ k, store f' !! q = Some (set_index k s).
Proof.
  intros H Hp Hl. pose proof (lookup_lt_Some _ _ _ Hp) as Hi.
  destruct (fo_index _ _ H i p Hp) as (s & Hs & Hsi). unfold destroy, load. rewrite Hs. cbn [mbind outcome_bind].
  rewrite Hsi. destruct (VectorDel_ok (strings f) (owned <$> ps) i (owned p)) as (v & E & Hv);
    [apply H|by rewrite list_lookup_fmap, Hp|].
  rewrite E. cbn [owned element freeptr mbind outcome_bind free_strings deref]. rewrite Hs. cbn [mbind outcome_bind].
  rewrite (fo_next _ _ H), u32_small by lia. set (f1 := mkFactory v _ _ _).
  assert (Hlen : length (delete i ps) = (length ps - 1)%nat) by (apply length_delete; eauto).
  assert (Hpnot : p ∉ delete i ps).
  { intros (j & Hj)%list_elem_of_lookup. destruct (decide (j < i)%nat) as [Hlt|Hge].
    - rewrite list_lookup_delete_lt in Hj by done. assert (j = i) by (eapply NoDup_lookup; [apply H|done|done]). lia.
    - rewrite list_lookup_delete_ge in Hj by lia. assert (S j = i) by (eapply NoDup_lookup; [apply H|done|done]). lia. }
  assert (Hnum : numbered f1 (delete i ps) i).
  { split; cbn.
    - by rewrite list_fmap_delete.
    - rewrite Hlen. lia.
    - eapply sublist_NoDup; [apply H|apply sublist_delete].
    - intros j q Hq. assert (q ≠ p) by (intros ->; apply Hpnot; by eapply list_elem_of_lookup_2).
      rewrite lookup_delete_ne by done. destruct (decide (j < i)%nat) as [Hlt|Hge].
      + rewrite list_lookup_delete_lt in Hq by done. destruct (fo_index _ _ H j q Hq) as (t & Ht & Htj). eauto.
      + rewrite list_lookup_delete_ge in Hq by lia. destruct (fo_index _ _ H (S j) q Hq) as (t & Ht & Htj).
        exists t. split; [done|]. lia.
    - rewrite dom_delete_L, (fo_store _ _ H). apply set_eq. intros q.
      rewrite elem_of_difference, !elem_of_list_to_set, elem_of_singleton.
      assert (Hq : q ∈ ps ↔ q = p ∨ q ∈ delete i ps).
      { rewrite (delete_Permutation ps i p Hp) at 1. apply elem_of_cons. }
      rewrite Hq. split; [tauto|]. intros Hin. split; [by right|]. by intros ->. }
  assert (Hfinish : ∃ f', (if Z.of_nat i <? next_index f1
      then reindex (Z.to_nat (next_index f1 - Z.of_nat i)) (Z.of_nat i) f1 else Ok f1) = Ok f' ∧
      factory_ok f' (delete i ps) ∧ renumbered f1 f').
  { destruct (Z.ltb_spec (Z.of_nat i) (next_index f1)) as [Hlt|Hge]; cbn [next_index f1] in *.
    - apply reindex_ok; [done|lia|lia].
    - exists f1. split_and!; [done| |apply renumbered_refl]. apply numbered_all.
      by replace (length (delete i ps)) with i by lia. }
  destruct Hfinish as (f' & E' & Hf' & Hr). exists f'. split_and!; [done|done| |].
  - apply not_elem_of_dom. rewrite (fo_store _ _ Hf'). by rewrite elem_of_list_to_set.
  - intros q t Hq Ht. apply Hr. cbn. by rewrite lookup_delete_ne.
Qed.

Lemma free_strings_all ps st :
  NoDup ps → dom st = list_to_set ps → free_strings (Some <$> ps) st = Ok ∅.
Proof.
  revert st. induction ps as [|p ps IH]; intros st Hd Hst.
  { cbn in Hst |- *. f_equal. by apply dom_empty_inv_L. }
  apply NoDup_cons in Hd as [Hp Hd]. cbn [fmap list_fmap free_strings deref mbind outcome_bind].
  destruct (st !! p) as [s|] eqn:Es.
  - apply IH; [done|]. rewrite dom_delete_L, Hst. cbn.
    assert (p ∉ (list_to_set ps : gset nat)) by by rewrite elem_of_list_to_set. set_solver.
  - apply not_elem_of_dom in Es. rewrite Hst in Es. cbn in Es. set_solver.
Qed.
Lemma closeFactory_ok f ps : factory_ok f ps → closeFactory f = Ok ∅.
Proof.
  intros H. unfold closeFactory. destruct (VectorFree_ok _ _ (fo_vector _ _ H)) as (v & E & _).
  rewrite E. cbn [mbind outcome_bind].
  assert (Ef : element <$> filter (λ e, freeptr e = true) (owned <$> ps) = Some <$> ps).
  { clear. induction ps as [|p ps IH]; [done|]. cbn [fmap list_fmap]. rewrite filter_cons.
    rewrite decide_True by done. cbn [fmap list_fmap]. by rewrite IH. }
  rewrite Ef. apply free_strings_all; apply H.
Qed.

(** Clients make strings from C strings, destroy them and change them. *)
Inductive client : STRING_FACTORY * list nat → STRING_FACTORY * list nat → Prop :=
| client_new f ps l p f' :
    Z.of_nat (length ps) < 2 ^ 30 → Forall (char_ok (api f)) l → Z.of_nat (length l) + 1 < 2 ^ 30 →
    newStr f l = Ok (p, f') → client (f, ps) (f', ps ++ [p])
| client_destroy f ps i p f' :
    ps !! i = Some p → destroy f p = Ok f' → client (f, ps) (f', delete i ps)
| client_change f ps p s s' :
    store f !! p = Some s → index s' = index s → client (f, ps) (update f p s', ps).

(** The invariant, and how many strings there are. *)
Definition client_inv (w : Z) (x : STRING_FACTORY * list nat) : Prop :=
  factory_ok x.1 x.2 ∧ api x.1 = w ∧ Z.of_nat (length x.2) ≤ 2 ^ 30.
Lemma string_client_ok w x y : (w = 1 ∨ w = 2) → client_inv w x → client x y → client_inv w y.
Proof.
  intros Hw [H [Ha Hl]] Hc. destruct Hc as [f ps l p f' Hps Hok Hn E|f ps i p f' Hp E|f ps p s s' Hs Hi]; cbn in *.
  - destruct (newStr_ok f ps l) as (q & f1 & s & E1 & H1 & _ & Ha1 & _); [done|done|by rewrite Ha|done|done|].
    assert (q = p ∧ f1 = f') as [-> ->] by (split; congruence).
    split; [done|]. split; cbn; [by rewrite Ha1|]. rewrite length_app. cbn. lia.
  - destruct (string_destroy_ok f ps i p H Hp) as (f1 & E1 & H1 & _); [lia|].
    assert (f1 = f') as -> by congruence. split; [done|]. split; cbn.
    + rewrite <-Ha. unfold destroy in E. destruct (load f p) as [s| |]; [|done..]. cbn [mbind outcome_bind] in E.
      destruct (VectorDel _ _) as [[fr v]| |]; [|done..]. cbn [mbind outcome_bind] in E.
      destruct (free_strings fr _) as [st| |]; [|done..]. cbn [mbind outcome_bind next_index] in E.
      assert (Hre : ∀ n k g g', reindex n k g = Ok g' → api g' = api g).
      { intros n. induction n as [|n IH]; intros k g g' Hg; cbn in Hg; [congruence|].
        destruct (read_slot _ _) as [e| |]; [|done..]. cbn in Hg.
        destruct (deref _) as [q| |]; [|done..]. cbn in Hg.
        destruct (load g q) as [t| |]; [|done..]. cbn in Hg. by rewrite (IH _ _ _ Hg). }
      destruct (_ <? _); [by apply Hre in E|by injection E as <-].
    + rewrite length_delete by eauto. lia.
  - split; [by eapply update_ok|]. done.
Qed.

(** The exception that the doc of the next theorem names: nothing is written into a new
    empty string of 16 bits but one byte of its terminator. *)
Lemma newStr_empty16 f ps :
  factory_ok f ps → Z.of_nat (length ps) < 2 ^ 30 → api f = 2 →
  ∃ p f' s, newStr f [] = Ok (p, f') ∧ store f' = <[p := s]> (store f) ∧
    chars s = Some [None] ∧ len s = 0 ∧ size s = 1 ∧ width s = 2.
Proof.
  intros H Hl Ha. unfold newStr, newPtr, newSize, newRaw. rewrite Ha.
  destruct (newRaw_ok 2 f ps H Hl) as (p & f1 & E1 & _ & _ & _ & Hs1). rewrite E1.
  cbn [mbind outcome_bind]. unfold load. rewrite Hs1, lookup_insert_eq. cbn [mbind outcome_bind].
  change (strlen []) with 0. cbn [width mbind outcome_bind Z.eqb Pos.eqb].
  eexists p, _, _. split; [reflexivity|]. split; [cbn; by rewrite Hs1, insert_insert_eq|done].
Qed.

(** C22: the factory owns its strings.  Whatever strings clients made, destroyed and
    changed, every string that is left is allocated and has the number of its place
    in the vector of the factory; a new string (of fewer than 2^30 strings and
    characters) is one that nobody has, holds the text it was made from, its terminator included, and leaves the others alone, except that
    the buffer of a new empty string of 16 bits has one unit, which is not initialised,
    and so no terminator; destroying a string frees that string only, and the others
    keep their text; and closing the factory frees every string exactly once. *)
Theorem StringFactory_owns encoding16 f ps :
  rtc client (StringFactoryNew encoding16, []) (f, ps) →
  (∀ i p, ps !! i = Some p → ∃ s, store f !! p = Some s ∧ index s = Z.of_nat i) ∧
  (∀ l, Z.of_nat (length ps) < 2 ^ 30 → Forall (char_ok (api f)) l → Z.of_nat (length l) + 1 < 2 ^ 30 →
     ∃ p f' s, newStr f l = Ok (p, f') ∧ (p ∉ ps) ∧ store f' = <[p := s]> (store f) ∧
       if bool_decide (l = []) && encoding16 then chars s = Some [None] ∧ len s = 0 else text s l) ∧
  (∀ i p, ps !! i = Some p →
     ∃ f', destroy f p = Ok f' ∧ store f' !! p = None ∧
       ∀ q s, q ≠ p → store f !! q = Some s → ∃ k, store f' !! q = Some (set_index k s)) ∧
  closeFactory f = Ok ∅.
Proof.
  intros Hr. set (w := if encoding16 then 2 else 1). assert (Hw : w = 1 ∨ w = 2) by (destruct encoding16; auto).
  assert (Hinv : client_inv w (f, ps)).
  { assert (H0 : client_inv w (StringFactoryNew encoding16, [])).
    { split; [apply StringFactoryNew_ok|]. done. }
    revert H0. induction Hr as [x|x y z Hs Hr IH]; [done|]. intros H0. apply IH. by eapply string_client_ok. }
  destruct Hinv as (H & Ha & Hl). cbn in H, Ha, Hl. split_and!.
  - apply H.
  - intros l Hps Hok Hn. destruct (newStr_ok f ps l H) as (p & f' & s & E & _ & Hp & _ & Hst & Ht);
      [done|by rewrite Ha|done|done|]. exists p, f', s. split_and!; [done..|].
    destruct (bool_decide_reflect (l = [])) as [->|Hne]; [|by apply Ht; left].
    destruct encoding16; [|by apply Ht; right]. cbn [andb].
    destruct (newStr_empty16 f ps H Hps Ha) as (p' & f'' & s' & E' & Hst' & Hc & Hlen & _).
    rewrite E in E'. injection E' as <- <-. rewrite Hst in Hst'.
    assert (s = s') as -> by (apply (f_equal (λ m, m !! p)) in Hst'; rewrite !lookup_insert_eq in Hst'; congruence). done.
  - intros i p Hp. destruct (string_destroy_ok f ps i p H Hp) as (f' & E & _ & Hn & Hq); [lia|]. by exists f'.
  - by apply (closeFactory_ok f ps).
Qed.
Lemma StringFactory_owns_witness :
  ∃ f, (x ← newStr (StringFactoryNew false) [97; 98]; y ← newStr x.2 [99]; Ok (x.1, y.1, y.2)) = Ok (0%nat, 1%nat, f) ∧
    closeFactory f = Ok ∅ ∧ ∃ f', destroy f 0 = Ok f' ∧ store f' !! 0%nat = None.
Proof.
  assert (Hok : ∀ w l, w = 1 → Forall (λ c, 0 < c < 128) l → Forall (char_ok w) l).
  { intros w l -> H. apply ascii_ok; [by left|done]. }
  destruct (newStr (StringFactoryNew false) [97; 98]) as [[p1 f1]| |] eqn:E1; [|by vm_compute in E1..].
  assert (p1 = 0%nat) as -> by (vm_compute in E1; congruence).
  destruct (newStr f1 [99]) as [[p2 f2]| |] eqn:E2;
    [|by (vm_compute in E1; injection E1 as <-; vm_compute in E2)..].
  assert (p2 = 1%nat ∧ api f1 = 1) as [-> Ha].
  { vm_compute in E1. injection E1 as <-. vm_compute in E2. split; [congruence|done]. }
  exists f2. cbn [mbind outcome_bind fst snd]. rewrite E2. split; [done|].
  assert (Hr : rtc client (StringFactoryNew false, []) (f2, [0%nat; 1%nat])).
  { eapply rtc_l; [apply (client_new _ [] [97; 98] 0 f1)|].
    - cbn. lia.
    - apply Hok; [done|]. repeat (apply Forall_cons; split; [lia|]). constructor.
    - cbn [length]. lia.
    - done.
    - apply rtc_once. apply (client_new f1 [0%nat] [99] 1 f2).
      + cbn [length]. lia.
      + apply Hok; [done|]. repeat (apply Forall_cons; split; [lia|]). constructor.
      + cbn [length]. lia.
      + done. }
  destruct (StringFactory_owns _ _ _ Hr) as (_ & _ & Hd & Hcl). split; [done|].
  destruct (Hd 0%nat 0%nat eq_refl) as (f' & E & Hn & _). by exists f'.
Defined.

(** Defects of the strings: a character above 127 of a C string is sign extended when
    it is appended to a string of 16 bits; [subString] with an end past the text takes
    the terminator too; a string that is appended to itself is read after its buffer
    was reallocated; the smallest int overflows in [toInt32_UTF16]; a new empty string
    of 16 bits has no terminator; and such a string that was set to a C string with a
    character above 127 differs from that C string. *)
Theorem String_defects :
  (chars <$> append8 (stringInitUTF16 0) [233]) = Ok (Some [Some 65513; Some 0]) ∧
  ('(p, f) ← newStr (StringFactoryNew false) [97; 98; 99];
   '(q, f) ← subString f p 1 10;
   s ← load f q; Ok (len s, chars s)) = Ok (3, Some [Some 98; Some 99; Some 0; Some 0]) ∧
  ('(p, f) ← newStr (StringFactoryNew false) [97; 98]; appendS f p p) = Undef UseAfterFree ∧
  (s ← addi (stringInitUTF16 0) INT_MIN; toInt32_UTF16 s) = Undef IntOverflow ∧
  ('(p, f) ← newStr (StringFactoryNew true) []; s ← load f p; charAt s 0) = Undef Uninit ∧
  (s ← set8 (stringInitUTF16 0) [104; 233]; compare8_fn s [104; 233]) = Ok 65536.
Proof. split_and!; by vm_compute. Qed.
