(* ===== verification/StringUTF8.v ===== *)
(** The conversions of a string of the run time to UTF-8, the last part of
    src/antlr/libantlr3c-3.4/src/antlr3string.c, and the numbers that are read back. *)
From S2P Require Import Prelude.
From S2P Require Import Vector.
From S2P Require Import ConvertUTF.
From S2P Require Import RtString.

(** [toUTF8_8]: a copy. *)
Definition toUTF8_8 (f : STRING_FACTORY) (p : nat) : outcome (nat * STRING_FACTORY) :=
  s ← load f p;
  newPtr f (chars s) (len s).

(** [toUTF8_UTF16]. The new string has the functions of its factory, and in its buffer
    bytes; the target of the conversion is one byte shorter than the recorded size. *)
Definition toUTF8_UTF16 (f : STRING_FACTORY) (p : nat) : outcome (nat * STRING_FACTORY) :=
  s ← load f p;
  '(q, f) ← newStr f [];
  utf8String ← load f q;
  let size := u32 (len s * 3) in
  let buf := replicate (Z.to_nat (u32 (size + 1))) None in
  source ← (if len s =? 0 then Ok []
            else b ← deref (chars s); b ← read_chars b 0 (len s); oc_map init b);
  '(_, _, out) ← ConvertUTF16toUTF8 lenientConversion source (size - 1);
  buf ← write_chars buf 0 (Some <$> out);
  buf ← write_chars buf (Z.of_nat (length out) + 1) [Some 0];
  Ok (q, update f q (set_len (u32 (Z.of_nat (length out))) (set_size size (set_chars buf utf8String)))).

(** ** Lemmas *)
Lemma read_text b l rest : b = (Some <$> l) ++ rest →
  read_chars b 0 (Z.of_nat (length l)) = Ok (Some <$> l).
Proof.
  intros ->. unfold read_chars. rewrite length_app, length_fmap.
  destruct (Z.leb_spec (0 + Z.of_nat (length l)) (Z.of_nat (length l + length rest))); [|lia].
  f_equal. rewrite Nat2Z.id. change (Z.to_nat 0) with 0%nat. cbn [drop]. apply take_app_length'. by rewrite length_fmap.
Qed.
Lemma oc_map_init l : oc_map init (Some <$> l : buffer) = Ok l.
Proof. induction l as [|c l IH]; [done|]. cbn in *. by rewrite IH. Qed.

(** ** Theorems *)

(** What [addi] appends to an empty string of 8 bits is read back by [toInt32_8], the
    smallest int included. *)
Lemma toInt32_8_addi s i :
  text s [] → width s = 1 → INT_MIN ≤ i ≤ INT_MAX →
  ∃ s', addi s i = Ok s' ∧ toInt32_8 s' = Ok i.
Proof.
  intros Hs Hw Hi. pose proof (sprintf_d_length i).
  destruct (append8_ok s [] (sprintf_d i)) as (s' & E & Ht & _); [done|apply sprintf_d_ascii|cbn; lia|].
  exists s'. split; [done|]. by apply toInt32_8_ok.
Qed.

(** [toUTF8] of a string of 16 bits that holds characters: a new string, whose
    first bytes, as many as its length says, are the UTF-8 encoding of the characters;
    of all of them, unless they need all the three bytes per unit that were allocated,
    and otherwise of those at the start that fit in one byte less; the string itself
    and every other one are left alone. The terminator is written one byte too far. *)
Theorem toUTF8_UTF16_text f ps p s cs :
  factory_ok f ps → api f = 2 → Z.of_nat (length ps) < 2 ^ 30 →
  store f !! p = Some s → text s (text_of UTF16 cs) → Forall scalar cs → cs ≠ [] →
  ∃ q f' t b ds es,
    toUTF8_UTF16 f p = Ok (q, f') ∧ (q ∉ ps) ∧ store f' = <[q := t]> (store f) ∧ chars t = Some b ∧
    cs = ds ++ es ∧ len t = Z.of_nat (length (text_of UTF8 ds)) ∧
    take (length (text_of UTF8 ds)) b = Some <$> text_of UTF8 ds ∧
    (es = [] ∨ 3 * len s ≤ Z.of_nat (length (text_of UTF8 cs))) ∧
    b !! S (length (text_of UTF8 ds)) = Some (Some 0).
Proof.
  intros Hf Ha Hps Hp Ht Hcs Hne. set (us := text_of UTF16 cs) in *.
  assert (Hus : (0 < length us)%nat).
  { pose proof (text_of_length UTF16 cs). subst us. destruct cs; [done|]. cbn [length] in *. lia. }
  pose proof (t_len _ _ Ht) as Hl. pose proof (t_chars _ _ Ht) as Hc. pose proof (t_size _ _ Ht).
  destruct (chars s) as [b0|] eqn:Eb; [|destruct Hc as [E _]; rewrite E in Hus; cbn in Hus; lia].
  destruct Hc as [[rest Hb0] Hsz]. rewrite Hb0, length_app, length_terminated in Hsz.
  destruct (newStr_ok f ps []) as (q & f1 & s1 & E1 & Hf1 & Hq & _ & Hst & _);
    [done|done|by right|constructor|cbn; lia|].
  destruct (Convert_prefix lenientConversion UTF16 UTF8 cs (3 * len s - 1)) as (r & ds & es & Hde & Ec & Hr & He);
    [done|done|lia|].
  unfold toUTF8_UTF16, load. rewrite Hp. cbn [mbind outcome_bind]. rewrite E1. cbn [mbind outcome_bind].
  rewrite Hst, lookup_insert_eq. cbn [mbind outcome_bind]. destruct (Z.eqb_spec (len s) 0); [lia|].
  rewrite Eb, Hl. cbn [deref mbind outcome_bind].
  rewrite (read_text b0 us (Some 0 :: rest)) by (rewrite Hb0; unfold terminated; by rewrite <-app_assoc).
  cbn [mbind outcome_bind]. rewrite oc_map_init. cbn [mbind outcome_bind].
  set (size := u32 _). assert (Hsize : size = 3 * len s) by (unfold size; rewrite u32_small; lia).
  unfold Convert in Ec. cbn [step_of] in Ec. fold us in Ec. unfold ConvertUTF16toUTF8. rewrite Hsize, Ec. cbn [mbind outcome_bind].
  set (nb := length (text_of UTF8 ds)) in *. rewrite (u32_small (3 * len s + 1)) by lia.
  assert (W1 : ∃ b1, write_chars (replicate (Z.to_nat (3 * len s + 1)) None) 0 (Some <$> text_of UTF8 ds) = Ok b1 ∧
    b1 = (Some <$> text_of UTF8 ds) ++ replicate (Z.to_nat (3 * len s + 1) - nb) None).
  { unfold write_chars. rewrite length_fmap, length_replicate. fold nb.
    destruct (Z.leb_spec (0 + Z.of_nat nb) (Z.of_nat (Z.to_nat (3 * len s + 1)))); [|lia].
    eexists. split; [done|]. change (Z.to_nat 0) with 0%nat. cbn [take app Nat.add]. rewrite drop_replicate. done. }
  destruct W1 as (b1 & -> & Hb1). cbn [mbind outcome_bind].
  assert (Hlb : length b1 = Z.to_nat (3 * len s + 1)).
  { rewrite Hb1, length_app, length_fmap, length_replicate. fold nb. lia. }
  unfold write_chars. cbn [length]. rewrite Hlb.
  destruct (Z.leb_spec (Z.of_nat nb + 1 + Z.of_nat 1) (Z.of_nat (Z.to_nat (3 * len s + 1)))); [|lia].
  cbn [mbind outcome_bind]. eexists q, _, _, _, ds, es. split_and!.
  - done.
  - done.
  - cbn. by rewrite Hst, insert_insert_eq.
  - done.
  - done.
  - cbn. apply u32_small. lia.
  - replace (Z.to_nat (Z.of_nat nb + 1)) with (S nb) by lia. rewrite take_app_le by (rewrite length_take; lia).
    rewrite take_take, Nat.min_l by lia. rewrite Hb1. apply take_app_length'. by rewrite length_fmap.
  - destruct He as [?|?]; [by left|right; lia].
  - replace (Z.to_nat (Z.of_nat nb + 1)) with (S nb) by lia. apply list_lookup_middle.
    rewrite length_take. fold nb. lia.
Qed.
Lemma toUTF8_UTF16_text_witness :
  ∃ f p q f' t b, newStr (StringFactoryNew true) [0x48; 0xE9; 0xD83D; 0xDE00] = Ok (p, f) ∧
    toUTF8_UTF16 f p = Ok (q, f') ∧ store f' !! q = Some t ∧ chars t = Some b ∧ len t = 7 ∧
    take 7 b = Some <$> [0x48; 0xC3; 0xA9; 0xF0; 0x9F; 0x98; 0x80].
Proof.
  assert (Hcs : Forall scalar [0x48; 0xE9; 0x1F600]).
  { repeat (apply Forall_cons; split; [unfold scalar; lia|]). constructor. }
  destruct (newStr_ok (StringFactoryNew true) [] [0x48; 0xE9; 0xD83D; 0xDE00])
    as (p & f & s & E & Hf & _ & Ha & Hst & Ht); [apply StringFactoryNew_ok|cbn; lia|by right| |cbn; lia|].
  { repeat (apply Forall_cons; split; [unfold char_ok; cbn; lia|]). constructor. }
  specialize (Ht ltac:(by left)). change [0x48; 0xE9; 0xD83D; 0xDE00] with (text_of UTF16 [0x48; 0xE9; 0x1F600]) in Ht.
  destruct (toUTF8_UTF16_text f [p] p s [0x48; 0xE9; 0x1F600])
    as (q & f' & t & b & ds & es & E' & _ & Hs' & Hb & Hde & Hl & Hbytes & He & _).
  - exact Hf.
  - by rewrite Ha.
  - cbn. lia.
  - by rewrite Hst, lookup_insert_eq.
  - exact Ht.
  - exact Hcs.
  - done.
  - assert (es = []) as ->.
    { destruct He as [?|He]; [done|]. rewrite (t_len _ _ Ht) in He. vm_compute in He. by destruct He. }
    rewrite app_nil_r in Hde. subst ds. exists f, p, q, f', t, b.
    split_and!; [done|done|by rewrite Hs', lookup_insert_eq|done|exact Hl|exact Hbytes].
Defined.

(** Defects of [toUTF8_UTF16]: a text all of whose characters need three bytes loses
    the last one; the terminator is not behind the text, but one byte further, behind a
    byte that was never written; and for an empty string it is written outside the
    buffer. *)
Theorem toUTF8_defects :
  ('(p, f) ← newStr (StringFactoryNew true) [0x20AC];
   '(q, f) ← toUTF8_UTF16 f p; t ← load f q; Ok (len t)) = Ok 0 ∧
  ('(p, f) ← newStr (StringFactoryNew true) [0x48; 0x49];
   '(q, f) ← toUTF8_UTF16 f p; t ← load f q; Ok (len t, chars t))
    = Ok (2, Some [Some 0x48; Some 0x49; None; Some 0; None; None; None]) ∧
  ('(p, f) ← newStr (StringFactoryNew true) []; toUTF8_UTF16 f p) = Undef BadIndex.
Proof. split_and!; by vm_compute. Qed.
