(* ===== verification/CharStreams.v ===== *)
(** The character streams of the run time in every encoding,
    src/antlr/libantlr3c-3.4/src/antlr3inputstream.c, and their choice by
    antlr3filestream.c. [InputStream] is the part of it that the lexer of the server
    uses, on the characters that are left; here a stream is bytes in memory with a
    pointer into them. The markers are offsets of 32 bits in a text below 2 GB; what is lost
    when they are pointers is in [TokenStore]. *)
From S2P Require Import Prelude.
From S2P Require Import ConvertUTF.
From S2P Require Import Vector.
From S2P Require Import RtString.

(** ** Streams *)

(** The functions behind [istream->_LA], [istream->consume] and [istream->seek]. *)
Inductive la_api : Type :=
| antlr38BitLA | antlr38BitLA_ucase | antlr3UTF16LA | antlr3UTF16LALE | antlr3UTF16LABE
| antlr3UTF32LA | antlr3UTF32LALE | antlr3UTF32LABE | antlr3UTF8LA | antlr3EBCDICLA.
Inductive consume_api : Type :=
| antlr38BitConsume | antlr3UTF16Consume | antlr3UTF16ConsumeLE | antlr3UTF16ConsumeBE
| antlr3UTF32Consume | antlr3UTF8Consume.
Inductive seek_api : Type := antlr38BitSeek | antlr3UTF16Seek | antlr3UTF32Seek.

(** A pointer into the input is its distance from [data]; [data] are the bytes that can
    be read there, at least [sizeBuf] when the caller keeps its part. *)
Record LEX_STATE : Type := mkLexState {
  st_nextChar : Z;
  st_line : Z;
  st_currentLine : Z;
  st_charPositionInLine : Z
}.
Record INPUT_STREAM : Type := mkInput {
  data : list Z;
  sizeBuf : Z;
  nextChar : Z;
  line : Z;
  currentLine : Z;
  charPositionInLine : Z;
  newlineChar : Z;
  markers : list LEX_STATE;
  markDepth : Z;
  lastMarker : Z;
  LA_fn : la_api;
  consume_fn : consume_api;
  seek_fn : seek_api;
  charByteSize : Z
}.
Definition at_place (nc ln cl cp : Z) (s : INPUT_STREAM) : INPUT_STREAM :=
  mkInput (data s) (sizeBuf s) nc ln cl cp (newlineChar s) (markers s) (markDepth s) (lastMarker s)
    (LA_fn s) (consume_fn s) (seek_fn s) (charByteSize s).
Definition set_nextChar (nc : Z) (s : INPUT_STREAM) : INPUT_STREAM :=
  at_place nc (line s) (currentLine s) (charPositionInLine s) s.
Definition set_marks (m : list LEX_STATE) (depth last : Z) (s : INPUT_STREAM) : INPUT_STREAM :=
  mkInput (data s) (sizeBuf s) (nextChar s) (line s) (currentLine s) (charPositionInLine s)
    (newlineChar s) m depth last (LA_fn s) (consume_fn s) (seek_fn s) (charByteSize s).
Definition set_api (la : la_api) (c : consume_api) (k : seek_api) (n : Z) (s : INPUT_STREAM) : INPUT_STREAM :=
  mkInput (data s) (sizeBuf s) (nextChar s) (line s) (currentLine s) (charPositionInLine s)
    (newlineChar s) (markers s) (markDepth s) (lastMarker s) la c k n.

Definition CHARSTREAM_EOF : Z := 0xFFFFFFFF.

(** [antlr38BitSetUcaseLA], [antlr38BitSetLine], [antlr38BitSetCharPosition],
    [antlr38BitSetNewLineChar] *)
Definition antlr38BitSetUcaseLA (flag : bool) (s : INPUT_STREAM) : INPUT_STREAM :=
  set_api (if flag then antlr38BitLA_ucase else antlr38BitLA) (consume_fn s) (seek_fn s) (charByteSize s) s.
Definition antlr38BitSetLine (ln : Z) (s : INPUT_STREAM) : INPUT_STREAM :=
  at_place (nextChar s) ln (currentLine s) (charPositionInLine s) s.
Definition antlr38BitSetCharPosition (position : Z) (s : INPUT_STREAM) : INPUT_STREAM :=
  at_place (nextChar s) (line s) (currentLine s) (sint 32 position) s.
Definition antlr38BitSetNewLineChar (c : Z) (s : INPUT_STREAM) : INPUT_STREAM :=
  mkInput (data s) (sizeBuf s) (nextChar s) (line s) (currentLine s) (charPositionInLine s) c
    (markers s) (markDepth s) (lastMarker s) (LA_fn s) (consume_fn s) (seek_fn s) (charByteSize s).

(** [antlr3InputReset], and [antlr38BitReuse] without the name of the stream. *)
Definition antlr3InputReset (s : INPUT_STREAM) : INPUT_STREAM :=
  set_marks [] 0 (lastMarker s) (at_place 0 1 0 (-1) s).
Definition antlr38BitReuse (inString : list Z) (n : Z) (s : INPUT_STREAM) : INPUT_STREAM :=
  antlr3InputReset
    (mkInput inString n (nextChar s) (line s) (currentLine s) (charPositionInLine s) (newlineChar s)
       (markers s) (markDepth s) (lastMarker s) (LA_fn s) (consume_fn s) (seek_fn s) (charByteSize s)).

(** [antlr3GenericSetupStream] on a stream that was just allocated. *)
Definition antlr3GenericSetupStream (bytes : list Z) (n : Z) : INPUT_STREAM :=
  antlr38BitSetNewLineChar 10
    (antlr3InputReset (mkInput bytes n 0 0 0 0 0 [] 0 0 antlr38BitLA antlr38BitConsume antlr38BitSeek 1)).

(** ** Reading memory *)
Definition byte_at (s : INPUT_STREAM) (p : Z) : outcome Z := Prelude.index (data s) p.

Section machine.
(** The byte order of the machine. *)
Context (machineBigEndian : bool).

Definition unit16 (big : bool) (s : INPUT_STREAM) (p : Z) : outcome Z :=
  a ← byte_at s p;
  b ← byte_at s (p + 1);
  Ok (if big : bool then a * 2 ^ 8 + b else a + b * 2 ^ 8).
Definition unit32 (s : INPUT_STREAM) (p : Z) : outcome Z :=
  a ← byte_at s p;
  b ← byte_at s (p + 1);
  c ← byte_at s (p + 2);
  d ← byte_at s (p + 3);
  Ok (if machineBigEndian then ((a * 2 ^ 8 + b) * 2 ^ 8 + c) * 2 ^ 8 + d
      else a + (b + (c + d * 2 ^ 8) * 2 ^ 8) * 2 ^ 8).
Definition native16 := unit16 machineBigEndian.

(** *** Looking ahead *)

(** [antlr38BitLA], [antlr3EBCDICLA], [antlr38BitLA_ucase] *)
Definition look8 (f : Z → outcome Z) (s : INPUT_STREAM) (la : Z) : outcome Z :=
  if sizeBuf s <=? nextChar s + la - 1 then Ok CHARSTREAM_EOF
  else c ← byte_at s (nextChar s + la - 1); f c.
Definition toupper (c : Z) : Z := if (97 <=? c) && (c <=? 122) then c - 32 else c.

(** The streams of UTF-16 walk over units: [unit_] reads the one at a pointer,
    [before] the one in front of it, and [w] is how far a pointer moves. *)
Section utf16.
Context (unit_ before : INPUT_STREAM → Z → outcome Z) (w : Z).

(** Behind the character at [p]. *)
Definition skip16 (s : INPUT_STREAM) (p : Z) : outcome Z :=
  ch ← unit_ s p;
  let p := p + w in
  if high_surrogate ch then
    if p <? sizeBuf s then
      ch2 ← unit_ s p;
      if low_surrogate ch2 then Ok (p + w) else Ok p
    else Ok p
  else Ok p.
Fixpoint forward16 (n : nat) (s : INPUT_STREAM) (p : Z) : outcome Z :=
  match n with
  | O => Ok p
  | S n => if p <? sizeBuf s then p ← skip16 s p; forward16 n s p else Ok p
  end.
Fixpoint back16 (n : nat) (s : INPUT_STREAM) (p : Z) : outcome Z :=
  match n with
  | O => Ok p
  | S n =>
      if 0 <? p then
        ch ← before s p;
        let p := p - w in
        p ← (if low_surrogate ch then
               ch2 ← before s p;
               if high_surrogate ch2 then Ok (p - w) else Ok p
             else Ok p);
        back16 n s p
      else Ok p
  end.
Definition look16 (s : INPUT_STREAM) (la : Z) : outcome Z :=
  p ← (if 0 <=? la then forward16 (Z.to_nat (la - 1)) s (nextChar s)
       else back16 (Z.to_nat (- la)) s (nextChar s));
  if sizeBuf s <=? p then Ok CHARSTREAM_EOF
  else
    ch ← unit_ s p;
    let p := p + w in
    if high_surrogate ch then
      if p <? sizeBuf s then
        ch2 ← unit_ s p;
        if low_surrogate ch2 then Ok (join_surrogates ch ch2) else Ok ch
      else Ok ch
    else Ok ch.
End utf16.

(** In [antlr3UTF16LALE] and [antlr3UTF16LABE] the pointer is declared as one to
    [ANTLR3_UCHAR], so that a unit is combined from two words of 32 bits, two steps
    are eight bytes, and what is read backwards is computed from the word at the
    pointer. *)
Definition wordLE (s : INPUT_STREAM) (p : Z) : outcome Z :=
  a ← unit32 s p; b ← unit32 s (p + 4); Ok (u32 (a + u32 (Z.shiftl b 8))).
Definition wordBE (s : INPUT_STREAM) (p : Z) : outcome Z :=
  a ← unit32 s p; b ← unit32 s (p + 4); Ok (u32 (u32 (Z.shiftl a 8) + b)).
Definition beforeLE (s : INPUT_STREAM) (p : Z) : outcome Z :=
  a ← unit32 s p; Ok (u32 (u32 (a - 2) + u32 (Z.shiftl (u32 (a - 1)) 8))).
Definition beforeBE (s : INPUT_STREAM) (p : Z) : outcome Z :=
  a ← unit32 s p; Ok (u32 (u32 (Z.shiftl (u32 (a - 2)) 8) + u32 (a - 1))).

(** [antlr3UTF32LA], [antlr3UTF32LALE], [antlr3UTF32LABE] *)
Definition swap_endian (c : Z) : Z :=
  Z.lor (Z.lor (Z.lor (Z.shiftr c 24) (Z.land (u32 (Z.shiftl c 8)) 0x00FF0000))
           (Z.land (Z.shiftr c 8) 0x0000FF00)) (u32 (Z.shiftl c 24)).
Definition look32 (swap : bool) (s : INPUT_STREAM) (la : Z) : outcome Z :=
  if sizeBuf s <=? nextChar s + la - 1 then Ok CHARSTREAM_EOF
  else c ← unit32 s (nextChar s + 4 * (la - 1)); Ok (if swap : bool then swap_endian c else c).

(** [antlr3UTF8LA] *)
Fixpoint forwardUTF8 (n : nat) (s : INPUT_STREAM) (p : Z) : outcome (option Z) :=
  match n with
  | O => Ok (Some p)
  | S n =>
      b ← byte_at s p;
      let p := p + Z.of_nat (trailingBytesForUTF8 b) + 1 in
      if sizeBuf s <=? p then Ok None else forwardUTF8 n s p
  end.
(** While the byte is one that follows another; [fuel] is the distance to the start
    of the memory and one. *)
Fixpoint lead_byte (fuel : nat) (s : INPUT_STREAM) (p : Z) : outcome Z :=
  match fuel with
  | O => Undef NoFuel
  | S fuel =>
      b ← byte_at s p;
      if Z.land b 0xC0 =? 0x80 then lead_byte fuel s (p - 1) else Ok p
  end.
Fixpoint backUTF8 (n : nat) (s : INPUT_STREAM) (p : Z) : outcome Z :=
  match n with
  | O => Ok p
  | S n => if 0 <? p then p ← lead_byte (S (Z.to_nat p)) s (p - 1); backUTF8 n s p else Ok p
  end.
Definition lookUTF8 (s : INPUT_STREAM) (la : Z) : outcome Z :=
  p ← (if 1 <? la then
         if nextChar s <? sizeBuf s then forwardUTF8 (Z.to_nat (la - 1)) s (nextChar s) else Ok None
       else p ← backUTF8 (Z.to_nat (- la)) s (nextChar s); Ok (Some p));
  match p with
  | None => Ok CHARSTREAM_EOF
  | Some p =>
      b ← byte_at s p;
      let extraBytesToRead := trailingBytesForUTF8 b in
      if sizeBuf s <=? p + Z.of_nat extraBytesToRead then Ok CHARSTREAM_EOF
      else Ok (decode_bytes extraBytesToRead (drop (Z.to_nat p) (data s))).1
  end.

(** The translation of EBCDIC. *)
Definition e2a : list Z :=
  [0x00; 0x01; 0x02; 0x03; 0x85; 0x09; 0x86; 0x7f;
   0x87; 0x8d; 0x8e; 0x0b; 0x0c; 0x0d; 0x0e; 0x0f;
   0x10; 0x11; 0x12; 0x13; 0x8f; 0x0a; 0x08; 0x97;
   0x18; 0x19; 0x9c; 0x9d; 0x1c; 0x1d; 0x1e; 0x1f;
   0x80; 0x81; 0x82; 0x83; 0x84; 0x92; 0x17; 0x1b;
   0x88; 0x89; 0x8a; 0x8b; 0x8c; 0x05; 0x06; 0x07;
   0x90; 0x91; 0x16; 0x93; 0x94; 0x95; 0x96; 0x04;
   0x98; 0x99; 0x9a; 0x9b; 0x14; 0x15; 0x9e; 0x1a;
   0x20; 0xa0; 0xe2; 0xe4; 0xe0; 0xe1; 0xe3; 0xe5;
   0xe7; 0xf1; 0x60; 0x2e; 0x3c; 0x28; 0x2b; 0x7c;
   0x26; 0xe9; 0xea; 0xeb; 0xe8; 0xed; 0xee; 0xef;
   0xec; 0xdf; 0x21; 0x24; 0x2a; 0x29; 0x3b; 0x9f;
   0x2d; 0x2f; 0xc2; 0xc4; 0xc0; 0xc1; 0xc3; 0xc5;
   0xc7; 0xd1; 0x5e; 0x2c; 0x25; 0x5f; 0x3e; 0x3f;
   0xf8; 0xc9; 0xca; 0xcb; 0xc8; 0xcd; 0xce; 0xcf;
   0xcc; 0xa8; 0x3a; 0x23; 0x40; 0x27; 0x3d; 0x22;
   0xd8; 0x61; 0x62; 0x63; 0x64; 0x65; 0x66; 0x67;
   0x68; 0x69; 0xab; 0xbb; 0xf0; 0xfd; 0xfe; 0xb1;
   0xb0; 0x6a; 0x6b; 0x6c; 0x6d; 0x6e; 0x6f; 0x70;
   0x71; 0x72; 0xaa; 0xba; 0xe6; 0xb8; 0xc6; 0xa4;
   0xb5; 0xaf; 0x73; 0x74; 0x75; 0x76; 0x77; 0x78;
   0x79; 0x7a; 0xa1; 0xbf; 0xd0; 0xdd; 0xde; 0xae;
   0xa2; 0xa3; 0xa5; 0xb7; 0xa9; 0xa7; 0xb6; 0xbc;
   0xbd; 0xbe; 0xac; 0x5b; 0x5c; 0x5d; 0xb4; 0xd7;
   0xf9; 0x41; 0x42; 0x43; 0x44; 0x45; 0x46; 0x47;
   0x48; 0x49; 0xad; 0xf4; 0xf6; 0xf2; 0xf3; 0xf5;
   0xa6; 0x4a; 0x4b; 0x4c; 0x4d; 0x4e; 0x4f; 0x50;
   0x51; 0x52; 0xb9; 0xfb; 0xfc; 0xdb; 0xfa; 0xff;
   0xd9; 0xf7; 0x53; 0x54; 0x55; 0x56; 0x57; 0x58;
   0x59; 0x5a; 0xb2; 0xd4; 0xd6; 0xd2; 0xd3; 0xd5;
   0x30; 0x31; 0x32; 0x33; 0x34; 0x35; 0x36; 0x37;
   0x38; 0x39; 0xb3; 0x7b; 0xdc; 0x7d; 0xda; 0x7e].

(** [istream->_LA] *)
Definition LA (s : INPUT_STREAM) (la : Z) : outcome Z :=
  match LA_fn s with
  | antlr38BitLA => look8 Ok s la
  | antlr38BitLA_ucase => look8 (λ c, Ok (toupper c)) s la
  | antlr3EBCDICLA => look8 (Prelude.index e2a) s la
  | antlr3UTF16LA => look16 native16 (λ s p, native16 s (p - 2)) 2 s la
  | antlr3UTF16LALE => look16 wordLE beforeLE 8 s la
  | antlr3UTF16LABE => look16 wordBE beforeBE 8 s la
  | antlr3UTF32LA => look32 false s la
  | antlr3UTF32LALE => look32 true s la
  | antlr3UTF32LABE => look32 true s la
  | antlr3UTF8LA => lookUTF8 s la
  end.

(** *** Consuming *)

(** Go on to [next], behind the character [c], which may end a line that [after]
    follows. *)
Definition pass (c next after : Z) (s : INPUT_STREAM) : outcome INPUT_STREAM :=
  position ← int_op (charPositionInLine s + 1);
  Ok (if c =? newlineChar s then at_place next (u32 (line s + 1)) after 0 s
      else at_place next (line s) (currentLine s) position s).

(** [antlr3UTF16Consume], [antlr3UTF16ConsumeLE], [antlr3UTF16ConsumeBE]: the test for
    the end of a line reads in the order of the machine. *)
Definition consume16 (big : bool) (s : INPUT_STREAM) : outcome INPUT_STREAM :=
  if nextChar s <? sizeBuf s then
    c ← native16 s (nextChar s);
    next ← skip16 (unit16 big) 2 s (nextChar s);
    pass c next (nextChar s + 2) s
  else Ok s.

(** [antlr3UTF8Consume] *)
Definition consumeUTF8 (s : INPUT_STREAM) : outcome INPUT_STREAM :=
  if nextChar s <? sizeBuf s then
    position ← int_op (charPositionInLine s + 1);
    b ← byte_at s (nextChar s);
    let extraBytesToRead := trailingBytesForUTF8 b in
    if sizeBuf s <=? nextChar s + Z.of_nat extraBytesToRead then
      Ok (at_place (sizeBuf s) (line s) (currentLine s) position s)
    else
      let ch := (decode_bytes extraBytesToRead (drop (Z.to_nat (nextChar s)) (data s))).1 in
      let next := nextChar s + Z.of_nat extraBytesToRead + 1 in
      pass ch next next s
  else Ok s.

(** [istream->consume] *)
Definition consume (s : INPUT_STREAM) : outcome INPUT_STREAM :=
  match consume_fn s with
  | antlr38BitConsume =>
      if nextChar s <? sizeBuf s then
        c ← byte_at s (nextChar s); pass c (nextChar s + 1) (nextChar s + 1) s
      else Ok s
  | antlr3UTF16Consume => consume16 machineBigEndian s
  | antlr3UTF16ConsumeLE => consume16 false s
  | antlr3UTF16ConsumeBE => consume16 true s
  | antlr3UTF32Consume =>
      if nextChar s <? sizeBuf s then
        c ← unit32 s (nextChar s); pass c (nextChar s + 4) (nextChar s + 4) s
      else Ok s
  | antlr3UTF8Consume => consumeUTF8 s
  end.

(** *** Seeking and marking *)
Fixpoint consume_times (n : nat) (s : INPUT_STREAM) : outcome INPUT_STREAM :=
  match n with O => Ok s | S n => s ← consume s; consume_times n s end.

(** [antlr38BitSeek] *)
Definition seek8 (s : INPUT_STREAM) (seekPoint : Z) : outcome INPUT_STREAM :=
  if seekPoint <=? nextChar s then Ok (set_nextChar seekPoint s)
  else
    let count := sint 32 (seekPoint - nextChar s) in
    if count <? 0 then Undef NoFuel else consume_times (Z.to_nat count) s.
(** [antlr3UTF16Seek], [antlr3UTF32Seek]: the loop goes on while the seek point is
    behind the next character, and so not at all. *)
Fixpoint seek_loop (fuel : nat) (s : INPUT_STREAM) (seekPoint : Z) : outcome INPUT_STREAM :=
  match fuel with
  | O => Undef NoFuel
  | S fuel =>
      c ← LA s 1;
      if negb (c =? CHARSTREAM_EOF) && (seekPoint <? nextChar s) then
        s ← consume s; seek_loop fuel s seekPoint
      else Ok s
  end.
Definition seek16 (s : INPUT_STREAM) (seekPoint : Z) : outcome INPUT_STREAM :=
  if seekPoint <=? nextChar s then Ok (set_nextChar seekPoint s) else seek_loop 1 s seekPoint.
Definition seek (s : INPUT_STREAM) (seekPoint : Z) : outcome INPUT_STREAM :=
  match seek_fn s with
  | antlr38BitSeek => seek8 s seekPoint
  | antlr3UTF16Seek | antlr3UTF32Seek => seek16 s seekPoint
  end.

(** [antlr38BitMark]; the entries of the table are reused. *)
Definition mark (s : INPUT_STREAM) : Z * INPUT_STREAM :=
  let depth := u32 (markDepth s + 1) in
  let st := mkLexState (nextChar s) (line s) (currentLine s) (charPositionInLine s) in
  let table :=
    if Z.of_nat (length (markers s)) <? depth then markers s ++ [st]
    else <[Z.to_nat (depth - 1) := st]> (markers s) in
  (depth, set_marks table depth depth s).
(** [antlr38BitRelease], [antlr38BitRewind], [antlr38BitRewindLast] *)
Definition release (s : INPUT_STREAM) (m : Z) : INPUT_STREAM :=
  set_marks (markers s) (u32 (m - 1)) (lastMarker s) s.
Definition rewind (s : INPUT_STREAM) (m : Z) : outcome INPUT_STREAM :=
  let s := release s m in
  st ← deref (markers s !! Z.to_nat (u32 (m - 1)));
  s ← seek8 s (st_nextChar st);
  Ok (at_place (st_nextChar st) (st_line st) (st_currentLine st) (st_charPositionInLine st) s).
Definition rewindLast (s : INPUT_STREAM) : outcome INPUT_STREAM := rewind s (lastMarker s).

(** *** Choosing the functions *)

(** [antlr3UTF16SetupStream], [antlr3UTF32SetupStream], [antlr3UTF8SetupStream],
    [antlr3EBCDICSetupStream]; a new stream of 8 bits is set up already. *)
Definition antlr3UTF16SetupStream (inputBigEndian : bool) (s : INPUT_STREAM) : INPUT_STREAM :=
  let '(c, la) :=
    if machineBigEndian then
      if inputBigEndian then (antlr3UTF16Consume, antlr3UTF16LA)
      else (antlr3UTF16ConsumeLE, antlr3UTF16LALE)
    else
      if inputBigEndian then (antlr3UTF16ConsumeBE, antlr3UTF16LABE)
      else (antlr3UTF16Consume, antlr3UTF16LA) in
  set_api la c antlr3UTF16Seek 2 s.
Definition antlr3UTF32SetupStream (inputBigEndian : bool) (s : INPUT_STREAM) : INPUT_STREAM :=
  let la :=
    if machineBigEndian then if inputBigEndian then antlr3UTF32LA else antlr3UTF32LALE
    else if inputBigEndian then antlr3UTF32LABE else antlr3UTF32LA in
  set_api la antlr3UTF32Consume antlr3UTF32Seek 4 s.
Definition antlr3UTF8SetupStream (s : INPUT_STREAM) : INPUT_STREAM :=
  set_api antlr3UTF8LA antlr3UTF8Consume (seek_fn s) 0 s.
Definition antlr3EBCDICSetupStream (s : INPUT_STREAM) : INPUT_STREAM :=
  set_api antlr3EBCDICLA (consume_fn s) (seek_fn s) 1 s.

Inductive ENCODING : Type :=
| ENC_8BIT | ENC_UTF8 | ENC_UTF16 | ENC_UTF16BE | ENC_UTF16LE
| ENC_UTF32 | ENC_UTF32BE | ENC_UTF32LE | ENC_EBCDIC.

(** Do the bytes at the next character have these values?  They are compared from
    left to right. *)
Fixpoint bytes_are (s : INPUT_STREAM) (l : list (Z * Z)) : outcome bool :=
  match l with
  | [] => Ok true
  | (i, v) :: l =>
      b ← byte_at s (nextChar s + i);
      if b =? v then bytes_are s l else Ok false
  end.
(** [setupInputStream] *)
Definition setupInputStream (encoding : ENCODING) (s : INPUT_STREAM) : outcome INPUT_STREAM :=
  match encoding with
  | ENC_UTF8 =>
      bom ← bytes_are s [(0, 0xEF); (1, 0xBB); (2, 0xBF)];
      Ok (antlr3UTF8SetupStream (if bom : bool then set_nextChar (nextChar s + 3) s else s))
  | ENC_UTF16 =>
      be ← bytes_are s [(0, 0xFE); (1, 0xFF)];
      if be : bool then Ok (antlr3UTF16SetupStream true (set_nextChar (nextChar s + 2) s))
      else
        le ← bytes_are s [(0, 0xFF); (1, 0xFE)];
        if le : bool then Ok (antlr3UTF16SetupStream false (set_nextChar (nextChar s + 2) s))
        else Ok (antlr3UTF16SetupStream machineBigEndian s)
  | ENC_UTF32 =>
      be ← bytes_are s [(0, 0x00); (1, 0x00); (2, 0xFE); (3, 0xFF)];
      if be : bool then Ok (antlr3UTF32SetupStream true (set_nextChar (nextChar s + 4) s))
      else
        le ← bytes_are s [(0, 0xFF); (1, 0xFE); (1, 0x00); (1, 0x00)];
        if le : bool then Ok (antlr3UTF32SetupStream false (set_nextChar (nextChar s + 4) s))
        else Ok (antlr3UTF32SetupStream machineBigEndian s)
  | ENC_UTF16BE => Ok (antlr3UTF16SetupStream true s)
  | ENC_UTF16LE => Ok (antlr3UTF16SetupStream false s)
  | ENC_UTF32BE => Ok (antlr3UTF32SetupStream true s)
  | ENC_UTF32LE => Ok (antlr3UTF32SetupStream false s)
  | ENC_EBCDIC => Ok (antlr3EBCDICSetupStream s)
  | ENC_8BIT => Ok s
  end.

(** The factory of the strings of a stream: for UTF-32 it has no functions. *)
Definition factory_of (encoding : ENCODING) : option STRING_FACTORY :=
  match encoding with
  | ENC_UTF32 | ENC_UTF32BE | ENC_UTF32LE => None
  | ENC_UTF16 | ENC_UTF16BE | ENC_UTF16LE => Some (StringFactoryNew true)
  | ENC_8BIT | ENC_UTF8 | ENC_EBCDIC => Some (StringFactoryNew false)
  end.

(** [antlr3StringStreamNew], with the strings of the stream and the one that has its
    name. *)
Definition antlr3StringStreamNew (bytes : list Z) (encoding : ENCODING) (n : Z) (name : list Z)
    : outcome (INPUT_STREAM * STRING_FACTORY * nat) :=
  s ← setupInputStream encoding (antlr3GenericSetupStream bytes n);
  f ← deref (factory_of encoding);
  '(p, f) ← newStr f name;
  Ok (s, f, p).

(** [antlr38BitSubstr], [antlr3UTF16Substr]: a string of what lies between two
    pointers, the second one included. *)
Definition antlr38BitSubstr (f : STRING_FACTORY) (s : INPUT_STREAM) (start stop : Z)
    : outcome (nat * STRING_FACTORY) :=
  newPtr f (Some (Some <$> drop (Z.to_nat start) (data s))) (u32 (stop - start + 1)).
Definition antlr3UTF16Substr (f : STRING_FACTORY) (s : INPUT_STREAM) (start stop : Z)
    : outcome (nat * STRING_FACTORY) :=
  let n := u32 (u32 (stop - start) / 2 + 1) in
  l ← oc_map (native16 s) ((λ i, start + 2 * Z.of_nat i) <$> seq 0 (Z.to_nat n));
  newPtr f (Some (Some <$> l)) n.
(** [antlr3UTF32Substr]: its factory is the one without functions. *)
Definition antlr3UTF32Substr (f : option STRING_FACTORY) (s : INPUT_STREAM) (start stop : Z)
    : outcome (nat * STRING_FACTORY) :=
  f ← deref f;
  newPtr f (Some (Some <$> drop (Z.to_nat start) (data s))) (u32 (u32 (stop - start) / 4 + 1)).
End machine.

(** ** What the streams of text read

    Three kinds of stream: of bytes, of UTF-8, and of UTF-16 in the order of the
    machine. *)
Inductive kind : Type := K8 | KUTF8 | KUTF16.
#[export] Instance kind_eq_dec : EqDecision kind.
Proof. solve_decision. Defined.

Section reading.
Context (big : bool).

Definition unit_bytes (u : Z) : list Z := if big then [u / 2 ^ 8; u mod 2 ^ 8] else [u mod 2 ^ 8; u / 2 ^ 8].
Definition bytes_of (k : kind) (c : Z) : list Z :=
  match k with
  | K8 => [c]
  | KUTF8 => encode UTF8 c
  | KUTF16 => mjoin (unit_bytes <$> encode UTF16 c)
  end.
Definition bytes (k : kind) (cs : list Z) : list Z := mjoin (bytes_of k <$> cs).
Definition char_of (k : kind) (c : Z) : Prop :=
  match k with K8 => 0 ≤ c < 256 | _ => scalar c end.
Definition la_of (k : kind) : la_api :=
  match k with K8 => antlr38BitLA | KUTF8 => antlr3UTF8LA | KUTF16 => antlr3UTF16LA end.
Definition consume_of (k : kind) : consume_api :=
  match k with K8 => antlr38BitConsume | KUTF8 => antlr3UTF8Consume | KUTF16 => antlr3UTF16Consume end.

(** The line, the start of the line and the position in it, behind some characters. *)
Fixpoint place (k : kind) (nl base ln cl cp : Z) (cs : list Z) : Z * Z * Z :=
  match cs with
  | [] => (ln, cl, cp)
  | c :: cs =>
      let base := base + Z.of_nat (length (bytes_of k c)) in
      if c =? nl then place k nl base (ln + 1) base 0 cs else place k nl base ln cl (cp + 1) cs
  end.

(** The stream holds the characters [cs] and is in front of the one numbered [n]. A
    stream of UTF-8 needs a byte behind its text, which is looked at. *)
Record at_char (k : kind) (s : INPUT_STREAM) (pre cs tail : list Z) (n : nat) : Prop := {
  ac_chars : Forall (char_of k) cs;
  ac_data : data s = pre ++ bytes k cs ++ tail;
  ac_size : sizeBuf s = Z.of_nat (length pre + length (bytes k cs));
  ac_small : sizeBuf s < 2 ^ 31 - 1;
  ac_next : nextChar s = Z.of_nat (length pre + length (bytes k (take n cs)));
  ac_le : (n ≤ length cs)%nat;
  ac_la : LA_fn s = la_of k;
  ac_consume : consume_fn s = consume_of k;
  ac_tail : k = KUTF8 → tail ≠ [];
  ac_newline : k = KUTF16 → newlineChar s < 0x10000 ∧ surrogate (newlineChar s) = false;
  ac_place : (line s, currentLine s, charPositionInLine s)
    = place k (newlineChar s) (Z.of_nat (length pre)) 1 0 (-1) (take n cs)
}.

Lemma bytes_cons k c cs : bytes k (c :: cs) = bytes_of k c ++ bytes k cs.
Proof. done. Qed.
Lemma text_bytes_app k cs ds : bytes k (cs ++ ds) = bytes k cs ++ bytes k ds.
Proof. unfold bytes. by rewrite fmap_app, join_app. Qed.
Lemma bytes_of_ne k c : (0 < length (bytes_of k c))%nat.
Proof.
  destruct k; cbn; [lia| |]; zb; cbn; try lia; unfold unit_bytes; destruct big; cbn; lia.
Qed.
Lemma bytes_length k cs : (length cs ≤ length (bytes k cs))%nat.
Proof.
  induction cs as [|c cs IH]; [done|]. rewrite bytes_cons, length_app. pose proof (bytes_of_ne k c). cbn. lia.
Qed.

(** The place stays in range. *)
Lemma place_bound k nl cs base ln cl cp :
  let '(ln', _, cp') := place k nl base ln cl cp cs in
  ln ≤ ln' ≤ ln + Z.of_nat (length cs) ∧ (-1 ≤ cp → -1 ≤ cp' ≤ Z.max cp 0 + Z.of_nat (length cs)).
Proof.
  revert base ln cl cp. induction cs as [|c cs IH]; intros base ln cl cp; cbn [place]; [lia|].
  destruct (c =? nl).
  - specialize (IH (base + Z.of_nat (length (bytes_of k c))) (ln + 1) (base + Z.of_nat (length (bytes_of k c))) 0).
    destruct (place _ _ _ _ _ _ _) as [[? ?] ?]. cbn [length]. lia.
  - specialize (IH (base + Z.of_nat (length (bytes_of k c))) ln cl (cp + 1)).
    destruct (place _ _ _ _ _ _ _) as [[? ?] ?]. cbn [length]. lia.
Qed.
Lemma place_snoc k nl cs c base ln cl cp :
  place k nl base ln cl cp (cs ++ [c]) =
    let '(ln', cl', cp') := place k nl base ln cl cp cs in
    let base' := base + Z.of_nat (length (bytes k (cs ++ [c]))) in
    if c =? nl then (ln' + 1, base', 0) else (ln', cl', cp' + 1).
Proof.
  revert base ln cl cp. induction cs as [|d cs IH]; intros base ln cl cp.
  - cbn -[bytes]. rewrite bytes_cons, length_app. cbn [bytes length mjoin list_join fmap list_fmap]. 
    rewrite Nat.add_0_r. by destruct (c =? nl).
  - cbn [app place]. rewrite !IH. rewrite bytes_cons, length_app, Nat2Z.inj_add.
    destruct (d =? nl); destruct (place _ _ _ _ _ _ _) as [[? ?] ?]; destruct (c =? nl); by rewrite ?Z.add_assoc.
Qed.

(** *** Memory *)
Lemma byte_at_app s l b r : data s = l ++ b :: r → byte_at s (Z.of_nat (length l)) = Ok b.
Proof.
  intros H. unfold byte_at. apply index_lookup; [lia|]. rewrite H, Nat2Z.id. by apply list_lookup_middle.
Qed.
Lemma unit_at_app s l u r :
  data s = l ++ unit_bytes u ++ r → 0 ≤ u < 2 ^ 16 → native16 big s (Z.of_nat (length l)) = Ok u.
Proof.
  intros H Hu. unfold native16, unit16, unit_bytes in *.
  assert (Hd : u = u / 2 ^ 8 * 2 ^ 8 + u mod 2 ^ 8) by (Z.to_euclidean_division_equations; lia).
  destruct big; cbn [app] in H; rewrite (byte_at_app _ _ _ _ H); cbn [mbind outcome_bind];
    rewrite cons_middle, app_assoc in H; apply byte_at_app in H; rewrite length_app in H; cbn [length] in H;
    rewrite Nat2Z.inj_add in H; change (Z.of_nat 1) with 1 in H; rewrite H; cbn [mbind outcome_bind]; f_equal; lia.
Qed.
Lemma length_unit_bytes u : length (unit_bytes u) = 2%nat.
Proof. unfold unit_bytes. by destruct big. Qed.

(** The first byte of a character tells how many follow. *)
Lemma utf8_first c : scalar c →
  ∃ b l, encode UTF8 c = b :: l ∧ trailingBytesForUTF8 b = length l ∧ Z.land b 0xC0 ≠ 0x80 ∧
    Forall (λ x, Z.land x 0xC0 = 0x80) l.
Proof.
  intros Hc. assert (Hr : 0 ≤ c ≤ 0x10FFFF) by (unfold scalar in Hc; lia).
  assert (Hf : ∀ x, 0 ≤ x < 64 → Z.land (0x80 + x) 0xC0 = 0x80).
  { intros x Hx. apply Z.eqb_eq. by apply (forall_range_spec (λ x, Z.land (0x80 + x) 0xC0 =? 0x80) 64 0); [vm_compute|lia]. }
  assert (Hl : ∀ x, 0xC0 ≤ x < 256 → Z.land x 0xC0 ≠ 0x80).
  { intros x Hx. apply Z.eqb_neq, negb_true_iff.
    by apply (forall_range_spec (λ x, negb (Z.land x 0xC0 =? 0x80)) 64 0xC0); [vm_compute|lia]. }
  assert (Ha : ∀ x, 0 ≤ x < 0x80 → Z.land x 0xC0 ≠ 0x80).
  { intros x Hx. apply Z.eqb_neq, negb_true_iff.
    by apply (forall_range_spec (λ x, negb (Z.land x 0xC0 =? 0x80)) 128 0); [vm_compute|lia]. }
  assert (Hm : ∀ x, 0 ≤ x mod 64 < 64) by (intros; apply Z.mod_pos_bound; lia).
  unfold encode. zb; eexists _, _; (split; [done|]); cbn [length].
  - rewrite trailing_spec by lia. zb. split_and!; [done|apply Ha; lia|constructor].
  - assert (2 ≤ c / 64 < 32) by (Z.to_euclidean_division_equations; lia).
    rewrite trailing_spec by lia. zb. split_and!; [done|apply Hl; lia|].
    repeat (apply Forall_cons; split; [by apply Hf|]); constructor.
  - assert (0 ≤ c / 4096 < 16) by (Z.to_euclidean_division_equations; lia).
    rewrite trailing_spec by lia. zb. split_and!; [done|apply Hl; lia|].
    repeat (apply Forall_cons; split; [by apply Hf|]); constructor.
  - assert (0 ≤ c / 262144 < 5) by (Z.to_euclidean_division_equations; lia).
    rewrite trailing_spec by lia. zb. split_and!; [done|apply Hl; lia|].
    repeat (apply Forall_cons; split; [by apply Hf|]); constructor.
Qed.
Lemma utf8_decode c b l rest :
  scalar c → encode UTF8 c = b :: l → trailingBytesForUTF8 b = length l →
  decode_bytes (length l) (b :: l ++ rest) = (c, rest).
Proof.
  intros Hc E Ht. pose proof (read_encoded c rest Hc) as H. rewrite E in H. cbn [app] in H.
  rewrite (read_trailing _ _ _ Ht) in H. case_bool_decide; [done|].
  destruct (isLegalUTF8 _ _); cbn [negb] in H; [by injection H|done].
Qed.

(** One unit that is no surrogate, or two. *)
Lemma utf16_units c : scalar c →
  (encode UTF16 c = [c] ∧ 0 ≤ c < 2 ^ 16 ∧ high_surrogate c = false ∧ low_surrogate c = false) ∨
  (∃ h l, encode UTF16 c = [h; l] ∧ 0 ≤ h < 2 ^ 16 ∧ 0 ≤ l < 2 ^ 16 ∧
    high_surrogate h = true ∧ low_surrogate l = true ∧ join_surrogates h l = c).
Proof.
  intros Hc. assert (Hr : 0 ≤ c ≤ 0x10FFFF) by (unfold scalar in Hc; lia).
  unfold encode, high_surrogate, low_surrogate, UNI_SUR_HIGH_START, UNI_SUR_HIGH_END, UNI_SUR_LOW_START,
    UNI_SUR_LOW_END. destruct (Z.ltb_spec c 0x10000).
  - left. unfold scalar in Hc. split_and!; [done|lia|lia|zb; done|zb; done].
  - right. assert (0 ≤ (c - 0x10000) / 1024 < 1024) by (Z.to_euclidean_division_equations; lia).
    assert (0 ≤ (c - 0x10000) mod 1024 < 1024) by (apply Z.mod_pos_bound; lia).
    eexists _, _. split; [done|]. rewrite join_surrogates_ok by done.
    split_and!; try lia; try (zb; done). Z.to_euclidean_division_equations; lia.
Qed.

(** *** Places between characters *)
Definition pos (k : kind) (pre cs : list Z) (j : nat) : Z :=
  Z.of_nat (length pre + length (bytes k (take j cs))).
Lemma pos_S k pre cs j c : cs !! j = Some c → pos k pre cs (S j) = pos k pre cs j + Z.of_nat (length (bytes_of k c)).
Proof.
  intros Hj. unfold pos. rewrite (take_S_r _ _ _ Hj), text_bytes_app, length_app, bytes_cons, length_app. cbn. lia.
Qed.
Lemma pos_lt k pre cs i j : (i < j)%nat → (j ≤ length cs)%nat → pos k pre cs i < pos k pre cs j.
Proof.
  intros Hij Hj. induction j as [|j IH]; [lia|]. destruct (lookup_lt_is_Some_2 cs j) as [c Hc]; [lia|].
  rewrite (pos_S _ _ _ _ _ Hc). pose proof (bytes_of_ne k c). destruct (decide (i = j)) as [->|]; [lia|].
  specialize (IH ltac:(lia) ltac:(lia)). lia.
Qed.

Section at_char.
Context (k : kind) (s : INPUT_STREAM) (pre cs tail : list Z) (n : nat).
Context (H : at_char k s pre cs tail n).
Local Notation P := (pos k pre cs).

Lemma size_pos : sizeBuf s = P (length cs).
Proof. unfold pos. rewrite firstn_all. apply H. Qed.
Lemma next_pos : nextChar s = P n.
Proof. apply H. Qed.
Lemma char_bytes j c : cs !! j = Some c →
  char_of k c ∧
  data s = (pre ++ bytes k (take j cs)) ++ bytes_of k c ++ (bytes k (drop (S j) cs) ++ tail) ∧
  P j = Z.of_nat (length (pre ++ bytes k (take j cs))).
Proof.
  intros Hj. split_and!.
  - pose proof (ac_chars _ _ _ _ _ _ H) as Hc. rewrite Forall_lookup in Hc. by eapply Hc.
  - rewrite (ac_data _ _ _ _ _ _ H). rewrite <-(take_drop_middle cs j c Hj) at 1.
    rewrite text_bytes_app, bytes_cons, <-!app_assoc. done.
  - unfold pos. by rewrite length_app.
Qed.
Lemma size_cases j : (j < length cs)%nat → (sizeBuf s <=? P j) = false ∧ (P j <? sizeBuf s) = true.
Proof. intros Hj. rewrite size_pos. pose proof (pos_lt k pre cs j (length cs) Hj ltac:(lia)). lia. Qed.
Lemma size_end : (sizeBuf s <=? P (length cs)) = true ∧ (P (length cs) <? sizeBuf s) = false.
Proof. rewrite size_pos. lia. Qed.
End at_char.

(** *** Bytes *)
Lemma look8_ok s pre cs tail n i :
  at_char K8 s pre cs tail n → (0 < i)%nat →
  look8 Ok s (Z.of_nat i) = Ok (default CHARSTREAM_EOF (cs !! (n + i - 1)%nat)).
Proof.
  intros H Hi. assert (Hl : ∀ l, length (bytes K8 l) = length l).
  { induction l as [|c l IH]; [done|]. rewrite bytes_cons, length_app, IH. done. }
  unfold look8. rewrite (next_pos _ _ _ _ _ _ H).
  assert (Hp : ∀ j, (j ≤ length cs)%nat → pos K8 pre cs j = Z.of_nat (length pre + j)).
  { intros j Hj. unfold pos. rewrite Hl, length_take. lia. }
  pose proof (ac_le _ _ _ _ _ _ H). rewrite (size_pos _ _ _ _ _ _ H), !Hp by lia.
  destruct (Z.leb_spec (Z.of_nat (length pre + length cs)) (Z.of_nat (length pre + n) + Z.of_nat i - 1)).
  - by rewrite lookup_ge_None_2 by lia.
  - destruct (lookup_lt_is_Some_2 cs (n + i - 1)) as [c Hc]; [lia|]. rewrite Hc.
    destruct (char_bytes _ _ _ _ _ _ H _ _ Hc) as (_ & Hd & Hq). rewrite Hp in Hq by lia.
    replace (Z.of_nat (length pre + n) + Z.of_nat i - 1) with (Z.of_nat (length pre + (n + i - 1))) by lia.
    rewrite Hq. cbn [bytes_of app] in Hd. by rewrite (byte_at_app _ _ _ _ Hd).
Qed.

(** *** UTF-8 *)
Section utf8.
Context (s : INPUT_STREAM) (pre cs tail : list Z) (n : nat).
Context (H : at_char KUTF8 s pre cs tail n).
Local Notation P := (pos KUTF8 pre cs).

Lemma utf8_at j c : cs !! j = Some c →
  ∃ b, byte_at s (P j) = Ok b ∧ P j + Z.of_nat (trailingBytesForUTF8 b) + 1 = P (S j) ∧
    (decode_bytes (trailingBytesForUTF8 b) (drop (Z.to_nat (P j)) (data s))).1 = c.
Proof.
  intros Hj. destruct (char_bytes _ _ _ _ _ _ H _ _ Hj) as (Hc & Hd & Hq).
  destruct (utf8_first c Hc) as (b & l & E & Ht & _). cbn [bytes_of] in Hd. rewrite E in Hd.
  exists b. rewrite (pos_S _ _ _ _ _ Hj). cbn [bytes_of]. rewrite E, Ht, Hq. split_and!.
  - by apply (byte_at_app _ _ _ _ Hd).
  - cbn [length]. lia.
  - rewrite Nat2Z.id, Hd, drop_app_length. cbn [app]. by rewrite (utf8_decode _ _ _ _ Hc E Ht).
Qed.

Lemma forwardUTF8_ok m j : (j < length cs)%nat →
  forwardUTF8 m s (P j) = Ok (if bool_decide (j + m < length cs)%nat then Some (P (j + m)) else None).
Proof.
  revert j. induction m as [|m IH]; intros j Hj; cbn [forwardUTF8].
  - rewrite Nat.add_0_r. by rewrite bool_decide_true.
  - destruct (lookup_lt_is_Some_2 cs j Hj) as [c Hc]. destruct (utf8_at j c Hc) as (b & -> & Hp & _).
    cbn [mbind outcome_bind]. rewrite Hp. destruct (decide (S j = length cs)) as [E|E].
    + rewrite E. destruct (size_end _ _ _ _ _ _ H) as [-> _]. by rewrite bool_decide_false by lia.
    + destruct (size_cases _ _ _ _ _ _ H (S j) ltac:(lia)) as [-> _]. rewrite IH by lia.
      by replace (S j + m)%nat with (j + S m)%nat by lia.
Qed.

Lemma lead_byte_ok l b r x m fuel :
  data s = l ++ (b :: x) ++ r → Z.land b 0xC0 ≠ 0x80 → Forall (λ x, Z.land x 0xC0 = 0x80) x →
  (m ≤ length x)%nat → (m < fuel)%nat →
  lead_byte fuel s (Z.of_nat (length l + m)) = Ok (Z.of_nat (length l)).
Proof.
  intros Hd Hb Hx. revert fuel. induction m as [|m IH]; intros fuel Hm Hf; (destruct fuel as [|fuel]; [lia|]);
    cbn [lead_byte].
  - rewrite Nat.add_0_r. cbn [app] in Hd. rewrite (byte_at_app _ _ _ _ Hd). cbn [mbind outcome_bind].
    by destruct (Z.eqb_spec (Z.land b 0xC0) 0x80).
  - destruct (lookup_lt_is_Some_2 x m) as [y Hy]; [lia|].
    assert (E : byte_at s (Z.of_nat (length l + S m)) = Ok y).
    { rewrite <-(take_drop_middle x m y Hy) in Hd.
      replace (length l + S m)%nat with (length (l ++ b :: take m x))
        by (rewrite length_app; cbn; rewrite length_take; lia).
      apply (byte_at_app _ _ _ (drop (S m) x ++ r)). rewrite Hd, <-!app_assoc. cbn. by rewrite <-app_assoc. }
    rewrite E. cbn [mbind outcome_bind]. rewrite Forall_lookup in Hx. rewrite (Hx m y Hy).
    cbn [Z.eqb Pos.eqb]. replace (Z.of_nat (length l + S m) - 1) with (Z.of_nat (length l + m)) by lia.
    apply IH; lia.
Qed.

Lemma backUTF8_ok m j : (m ≤ j)%nat → (j ≤ length cs)%nat → backUTF8 m s (P j) = Ok (P (j - m)).
Proof.
  revert j. induction m as [|m IH]; intros j Hm Hj; cbn [backUTF8]; [by rewrite Nat.sub_0_r|].
  destruct j as [|j]; [lia|]. destruct (lookup_lt_is_Some_2 cs j) as [c Hc]; [lia|].
  destruct (char_bytes _ _ _ _ _ _ H _ _ Hc) as (Hsc & Hd & Hq).
  destruct (utf8_first c Hsc) as (b & x & E & Ht & Hb & Hx). cbn [bytes_of] in Hd. rewrite E in Hd.
  rewrite (pos_S _ _ _ _ _ Hc). cbn [bytes_of]. rewrite E. cbn [length].
  destruct (Z.ltb_spec 0 (P j + Z.of_nat (S (length x)))); [|unfold pos in *; lia].
  rewrite Hq. replace (_ - 1) with (Z.of_nat (length (pre ++ bytes KUTF8 (take j cs)) + length x)) by lia.
  rewrite (lead_byte_ok _ b _ x _ _ Hd) by (done || lia). cbn [mbind outcome_bind]. rewrite <-Hq, IH by lia.
  by replace (S j - S m)%nat with (j - m)%nat by lia.
Qed.

Lemma lookUTF8_ok i : (0 < i)%nat →
  lookUTF8 s (Z.of_nat i) = Ok (default CHARSTREAM_EOF (cs !! (n + i - 1)%nat)) ∧
  ((i ≤ n)%nat → lookUTF8 s (- Z.of_nat i) = Ok (default CHARSTREAM_EOF (cs !! (n - i)%nat))).
Proof.
  intros Hi. pose proof (ac_le _ _ _ _ _ _ H) as Hn. unfold lookUTF8. rewrite (next_pos _ _ _ _ _ _ H).
  assert (Hread : ∀ j, (j ≤ length cs)%nat →
    (b ← byte_at s (P j);
     if sizeBuf s <=? P j + Z.of_nat (trailingBytesForUTF8 b) then Ok CHARSTREAM_EOF
     else Ok (decode_bytes (trailingBytesForUTF8 b) (drop (Z.to_nat (P j)) (data s))).1)
    = Ok (default CHARSTREAM_EOF (cs !! j))).
  { intros j Hj. destruct (decide (j = length cs)) as [->|].
    - rewrite lookup_ge_None_2 by lia. destruct tail as [|b t] eqn:Et; [by destruct (ac_tail _ _ _ _ _ _ H)|].
      pose proof (ac_data _ _ _ _ _ _ H) as Hd. rewrite app_assoc in Hd. apply byte_at_app in Hd.
      rewrite <-(size_pos _ _ _ _ _ _ H), (ac_size _ _ _ _ _ _ H), <-length_app, Hd. cbn [mbind outcome_bind].
      destruct (Z.leb_spec (Z.of_nat (length (pre ++ bytes KUTF8 cs)))
        (Z.of_nat (length (pre ++ bytes KUTF8 cs)) + Z.of_nat (trailingBytesForUTF8 b))); [done|lia].
    - destruct (lookup_lt_is_Some_2 cs j) as [c Hc]; [lia|]. destruct (utf8_at j c Hc) as (b & -> & Hp & Hdec).
      cbn [mbind outcome_bind]. rewrite Hdec, Hc. rewrite (size_pos _ _ _ _ _ _ H).
      destruct (Z.leb_spec (P (length cs)) (P j + Z.of_nat (trailingBytesForUTF8 b))); [|done].
      destruct (decide (S j = length cs)) as [E|]; [rewrite E in Hp; lia|].
      pose proof (pos_lt KUTF8 pre cs (S j) (length cs)). lia. }
  split.
  - destruct (Z.ltb_spec 1 (Z.of_nat i)).
    + destruct (decide (n = length cs)) as [->|].
      * destruct (size_end _ _ _ _ _ _ H) as [_ ->]. cbn [mbind outcome_bind].
        by rewrite lookup_ge_None_2 by lia.
      * destruct (size_cases _ _ _ _ _ _ H n ltac:(lia)) as [_ ->]. rewrite forwardUTF8_ok by lia.
        cbn [mbind outcome_bind]. replace (n + Z.to_nat (Z.of_nat i - 1))%nat with (n + i - 1)%nat by lia.
        case_bool_decide; [by apply Hread; lia|by rewrite lookup_ge_None_2 by lia].
    + replace (Z.to_nat (- Z.of_nat i)) with 0%nat by lia. cbn [backUTF8 mbind outcome_bind].
      rewrite Hread by lia. by replace (n + i - 1)%nat with n by lia.
  - intros Hin. destruct (Z.ltb_spec 1 (- Z.of_nat i)); [lia|]. rewrite Z.opp_involutive, Nat2Z.id.
    rewrite backUTF8_ok by lia. cbn [mbind outcome_bind]. apply Hread. lia.
Qed.
End utf8.

(** *** UTF-16 *)
Section utf16_reading.
Context (s : INPUT_STREAM) (pre cs tail : list Z) (n : nat).
Context (H : at_char KUTF16 s pre cs tail n).
Local Notation P := (pos KUTF16 pre cs).
Local Notation rd := (native16 big s).

(** A character is one unit that is no surrogate, or a pair. *)
Lemma utf16_at j c : cs !! j = Some c →
  (rd (P j) = Ok c ∧ high_surrogate c = false ∧ low_surrogate c = false ∧ P (S j) = P j + 2) ∨
  (∃ h l, rd (P j) = Ok h ∧ rd (P j + 2) = Ok l ∧ high_surrogate h = true ∧ low_surrogate l = true ∧
    join_surrogates h l = c ∧ P (S j) = P j + 4).
Proof.
  intros Hj. destruct (char_bytes _ _ _ _ _ _ H _ _ Hj) as (Hc & Hd & Hq).
  rewrite (pos_S _ _ _ _ _ Hj). cbn [bytes_of] in *.
  destruct (utf16_units c Hc) as [(E & Hr & Hh & Hl)|(h & l & E & Hrh & Hrl & Hh & Hl & Hjn)];
    rewrite E in *; cbn [fmap list_fmap mjoin list_join] in *; rewrite app_nil_r in *.
  - left. rewrite length_unit_bytes. split_and!; [|done|done|lia]. rewrite Hq. by apply (unit_at_app _ _ _ _ Hd).
  - right. exists h, l. rewrite length_app, !length_unit_bytes. rewrite <-(app_assoc (unit_bytes h)) in Hd.
    split_and!; [| |done|done|done|lia].
    + rewrite Hq. by apply (unit_at_app _ _ _ _ Hd).
    + rewrite (app_assoc _ (unit_bytes h)) in Hd. apply unit_at_app in Hd; [|done].
      rewrite length_app, length_unit_bytes, Nat2Z.inj_add, <-Hq in Hd. done.
Qed.
Lemma inside j : (j < length cs)%nat → P j + 2 < P (S j) → (P j + 2 <? sizeBuf s) = true.
Proof.
  intros Hj Hp. destruct (decide (S j = length cs)) as [E|].
  - rewrite (size_pos _ _ _ _ _ _ H), <-E. lia.
  - destruct (size_cases _ _ _ _ _ _ H (S j) ltac:(lia)). lia.
Qed.
(** Behind a single unit that is no high surrogate nothing is looked at. *)
Lemma skip16_ok j : (j < length cs)%nat → skip16 (native16 big) 2 s (P j) = Ok (P (S j)).
Proof.
  intros Hj. destruct (lookup_lt_is_Some_2 cs j Hj) as [c Hc]. unfold skip16.
  destruct (utf16_at j c Hc) as [(-> & Hh & _ & E)|(h & l & -> & E2 & Hh & Hl & _ & E)]; cbn [mbind outcome_bind];
    rewrite Hh.
  - by rewrite E.
  - rewrite inside by (done || lia). rewrite E2. cbn [mbind outcome_bind]. rewrite Hl. f_equal. lia.
Qed.
Lemma forward16_ok m j : (j ≤ length cs)%nat →
  forward16 (native16 big) 2 m s (P j) = Ok (P (Nat.min (j + m) (length cs))).
Proof.
  revert j. induction m as [|m IH]; intros j Hj; cbn [forward16].
  - by rewrite Nat.add_0_r, Nat.min_l by done.
  - destruct (decide (j = length cs)) as [->|].
    + destruct (size_end _ _ _ _ _ _ H) as [_ ->]. by rewrite Nat.min_r by lia.
    + destruct (size_cases _ _ _ _ _ _ H j ltac:(lia)) as [_ ->]. rewrite skip16_ok by lia.
      cbn [mbind outcome_bind]. rewrite IH by lia. do 3 f_equal. lia.
Qed.
Lemma back16_ok m j : (m ≤ j)%nat → (j ≤ length cs)%nat →
  back16 (λ s p, native16 big s (p - 2)) 2 m s (P j) = Ok (P (j - m)).
Proof.
  revert j. induction m as [|m IH]; intros j Hm Hj; cbn [back16]; [by rewrite Nat.sub_0_r|].
  destruct j as [|j]; [lia|]. destruct (lookup_lt_is_Some_2 cs j) as [c Hc]; [lia|].
  destruct (Z.ltb_spec 0 (P (S j))) as [_|]; [|pose proof (pos_lt KUTF16 pre cs j (S j)); unfold pos in *; lia].
  destruct (utf16_at j c Hc) as [(E1 & _ & Hl & E)|(h & l & E1 & E2 & Hh & Hl & _ & E)]; rewrite E.
  - replace (P j + 2 - 2) with (P j) by lia. rewrite E1. cbn [mbind outcome_bind]. rewrite Hl.
    cbn [mbind outcome_bind]. rewrite IH by lia. done.
  - replace (P j + 4 - 2) with (P j + 2) by lia. rewrite E2. cbn [mbind outcome_bind]. rewrite Hl.
    replace (P j + 2 - 2) with (P j) by lia. rewrite E1. cbn [mbind outcome_bind]. rewrite Hh.
    cbn [mbind outcome_bind]. rewrite IH by lia. done.
Qed.

Lemma look16_ok i : (0 < i)%nat →
  look16 (native16 big) (λ s p, native16 big s (p - 2)) 2 s (Z.of_nat i)
    = Ok (default CHARSTREAM_EOF (cs !! (n + i - 1)%nat)) ∧
  ((i ≤ n)%nat → look16 (native16 big) (λ s p, native16 big s (p - 2)) 2 s (- Z.of_nat i)
    = Ok (default CHARSTREAM_EOF (cs !! (n - i)%nat))).
Proof.
  intros Hi. pose proof (ac_le _ _ _ _ _ _ H) as Hn. unfold look16. rewrite (next_pos _ _ _ _ _ _ H).
  assert (Hread : ∀ j, (j ≤ length cs)%nat →
    (if sizeBuf s <=? P j then Ok CHARSTREAM_EOF
     else ch ← rd (P j);
          if high_surrogate ch then
            if P j + 2 <? sizeBuf s then
              ch2 ← rd (P j + 2);
              if low_surrogate ch2 then Ok (join_surrogates ch ch2) else Ok ch
            else Ok ch
          else Ok ch) = Ok (default CHARSTREAM_EOF (cs !! j))).
  { intros j Hj. destruct (decide (j = length cs)) as [->|].
    - destruct (size_end _ _ _ _ _ _ H) as [-> _]. by rewrite lookup_ge_None_2 by lia.
    - destruct (size_cases _ _ _ _ _ _ H j ltac:(lia)) as [-> _].
      destruct (lookup_lt_is_Some_2 cs j) as [c Hc]; [lia|]. rewrite Hc.
      destruct (utf16_at j c Hc) as [(-> & Hh & _ & _)|(h & l & -> & E2 & Hh & Hl & Hjn & E)];
        cbn [mbind outcome_bind]; rewrite Hh; [done|].
      rewrite inside by lia. rewrite E2. cbn [mbind outcome_bind]. by rewrite Hl, Hjn. }
  split.
  - destruct (Z.leb_spec 0 (Z.of_nat i)); [|lia]. rewrite forward16_ok by lia. cbn [mbind outcome_bind].
    destruct (decide (n + i - 1 < length cs)%nat).
    + replace (Nat.min _ _) with (n + i - 1)%nat by lia. apply Hread. lia.
    + replace (Nat.min _ _) with (length cs) by lia. rewrite Hread by lia.
      by rewrite !lookup_ge_None_2 by lia.
  - intros Hin. destruct (Z.leb_spec 0 (- Z.of_nat i)); [lia|]. rewrite Z.opp_involutive, Nat2Z.id.
    rewrite back16_ok by lia. cbn [mbind outcome_bind]. apply Hread. lia.
Qed.
End utf16_reading.

(** *** Consuming *)
Lemma pass_ok k s pre cs tail n c next :
  at_char k s pre cs tail n → cs !! n = Some c → next = pos k pre cs (S n) →
  ∃ s', pass c next next s = Ok s' ∧ at_char k s' pre cs tail (S n).
Proof.
  intros H Hc ->. pose proof (ac_place _ _ _ _ _ _ H) as Hp. pose proof (ac_small _ _ _ _ _ _ H) as Hs.
  pose proof (lookup_lt_Some _ _ _ Hc) as Hn. pose proof (bytes_length k cs) as Hb.
  rewrite (ac_size _ _ _ _ _ _ H) in Hs.
  pose proof (place_bound k (newlineChar s) (take n cs) (Z.of_nat (length pre)) 1 0 (-1)) as Hbd.
  rewrite <-Hp in Hbd. destruct Hbd as [Hbd1 Hbd2]. specialize (Hbd2 ltac:(lia)).
  rewrite length_take in Hbd1, Hbd2. unfold pass.
  rewrite int_op_ok by (unfold INT_MIN, INT_MAX; lia). cbn [mbind outcome_bind].
  eexists. split; [done|]. assert (Hsn : take (S n) cs = take n cs ++ [c]) by by apply take_S_r.
  destruct (c =? newlineChar s) eqn:Enl; split; cbn; try apply H; try done.
  - rewrite Hsn, place_snoc, <-Hp, Enl. cbn. rewrite u32_small by lia. unfold pos. rewrite Hsn, Nat2Z.inj_add. done.
  - rewrite Hsn, place_snoc, <-Hp, Enl. done.
Qed.

Lemma at_char_end k s pre cs tail n :
  at_char k s pre cs tail n → n = length cs → (nextChar s <? sizeBuf s) = false.
Proof. intros H ->. rewrite (next_pos _ _ _ _ _ _ H). apply (size_end _ _ _ _ _ _ H). Qed.

Lemma consume_ok k s pre cs tail n :
  at_char k s pre cs tail n →
  ∃ s', consume big s = Ok s' ∧ at_char k s' pre cs tail (Nat.min (S n) (length cs)).
Proof.
  intros H. pose proof (ac_le _ _ _ _ _ _ H) as Hn. unfold consume. rewrite (ac_consume _ _ _ _ _ _ H).
  destruct (decide (n = length cs)) as [E|].
  { pose proof (at_char_end _ _ _ _ _ _ H E) as He. exists s. rewrite Nat.min_r by lia. rewrite <-E.
    split; [|done]. destruct k; cbn [consume_of]; unfold consume16, consumeUTF8; by rewrite He. }
  rewrite Nat.min_l by lia. destruct (lookup_lt_is_Some_2 cs n) as [c Hc]; [lia|].
  assert (Hlt : (nextChar s <? sizeBuf s) = true).
  { rewrite (next_pos _ _ _ _ _ _ H). apply (size_cases _ _ _ _ _ _ H). lia. }
  destruct k; cbn [consume_of]; unfold consume16, consumeUTF8; rewrite Hlt, (next_pos _ _ _ _ _ _ H).
  - destruct (char_bytes _ _ _ _ _ _ H _ _ Hc) as (_ & Hd & Hq). cbn [bytes_of app] in Hd.
    assert (Hb : byte_at s (pos K8 pre cs n) = Ok c) by (rewrite Hq; by apply (byte_at_app _ _ _ _ Hd)).
    rewrite Hb. cbn [mbind outcome_bind].
    apply (pass_ok K8 _ _ _ _ _ _ _ H Hc). by rewrite (pos_S _ _ _ _ _ Hc).
  - destruct (utf8_at _ _ _ _ _ H _ _ Hc) as (b & Hb & Hp & Hdec).
    destruct (pass_ok KUTF8 _ _ _ _ _ c (pos KUTF8 pre cs (S n)) H Hc eq_refl) as (s' & E & H').
    assert (Hsz : (sizeBuf s <=? pos KUTF8 pre cs n + Z.of_nat (trailingBytesForUTF8 b)) = false).
    { pose proof (size_pos _ _ _ _ _ _ H) as Hs. destruct (decide (S n = length cs)) as [El|].
      - rewrite <-El in Hs. lia.
      - pose proof (pos_lt KUTF8 pre cs (S n) (length cs)). lia. }
    unfold pass in *. destruct (int_op (charPositionInLine s + 1)) as [q| |] eqn:Eq; [|done..].
    cbn [mbind outcome_bind] in *. rewrite Hb. cbn [mbind outcome_bind]. rewrite Hsz, Hdec, Hp.
    cbn [mbind outcome_bind]. by exists s'.
  - change (unit16 big) with (native16 big). rewrite (skip16_ok _ _ _ _ _ H) by lia.
    destruct (ac_newline _ _ _ _ _ _ H eq_refl) as [Hnl Hsur].
    destruct (utf16_at _ _ _ _ _ H _ _ Hc) as [(-> & Hh & _ & E)|(h & l & -> & _ & Hh & _ & Hjn & E)];
      cbn [mbind outcome_bind].
    + rewrite <-E. by apply pass_ok.
    + destruct (pass_ok KUTF16 _ _ _ _ _ c (pos KUTF16 pre cs (S n)) H Hc eq_refl) as (s' & Ep & H').
      assert (h ≠ newlineChar s).
      { intros ->. revert Hsur Hh. unfold surrogate, high_surrogate, UNI_SUR_HIGH_START, UNI_SUR_HIGH_END, UNI_SUR_LOW_END.
        zb; done. }
      assert (c ≠ newlineChar s).
      { assert (0x10000 ≤ c); [|lia]. rewrite (pos_S _ _ _ _ _ Hc) in E. cbn [bytes_of] in E.
        unfold encode in E. destruct (Z.ltb_spec c 0x10000); [|done]. cbn in E.
        rewrite app_nil_r, length_unit_bytes in E. lia. }
      unfold pass in *. destruct (Z.eqb_spec h (newlineChar s)); [done|].
      destruct (Z.eqb_spec c (newlineChar s)); [done|]. by exists s'.
Qed.
End reading.

(** ** Looking ahead and consuming *)
Lemma LA_ok big k s pre cs tail n i :
  at_char big k s pre cs tail n → (0 < i)%nat →
  LA big s (Z.of_nat i) = Ok (default CHARSTREAM_EOF (cs !! (n + i - 1)%nat)) ∧
  ((i ≤ n)%nat → k ≠ K8 → LA big s (- Z.of_nat i) = Ok (default CHARSTREAM_EOF (cs !! (n - i)%nat))).
Proof.
  intros H Hi. unfold LA. rewrite (ac_la _ _ _ _ _ _ _ H). destruct k; cbn [la_of].
  - split; [by eapply look8_ok|done].
  - destruct (lookUTF8_ok big s pre cs tail n H i Hi) as [H1 H2]. split; [done|auto].
  - destruct (look16_ok big s pre cs tail n H i Hi) as [H1 H2]. split; [done|auto].
Qed.

(** Consuming changes nothing but the place. *)
Lemma consume_place (R : INPUT_STREAM → INPUT_STREAM → Prop) big s s' :
  (∀ s, R s s) → (∀ s nc ln cl cp, R s (at_place nc ln cl cp s)) → consume big s = Ok s' → R s s'.
Proof.
  intros Hr Hp.
  assert (Hpass : ∀ c next after, pass c next after s = Ok s' → R s s').
  { intros c next after. unfold pass. destruct (int_op _); [|done..]. cbn. intros [= <-].
    destruct (c =? newlineChar s); apply Hp. }
  assert (H16 : ∀ b, consume16 big b s = Ok s' → R s s').
  { intros b. unfold consume16. destruct (_ <? _); [|by intros [= <-]].
    destruct (native16 _ _ _); [|done..]. cbn. destruct (skip16 _ _ _ _); [|done..]. apply Hpass. }
  unfold consume. destruct (consume_fn s); try apply H16.
  - destruct (_ <? _); [|by intros [= <-]]. destruct (byte_at _ _); [|done..]. apply Hpass.
  - destruct (_ <? _); [|by intros [= <-]]. destruct (unit32 _ _ _); [|done..]. apply Hpass.
  - unfold consumeUTF8. destruct (_ <? _); [|by intros [= <-]]. destruct (int_op _); [|done..].
    cbn [mbind outcome_bind]. destruct (byte_at _ _); [|done..]. cbn [mbind outcome_bind].
    destruct (_ <=? _); [intros [= <-]; apply Hp|]. apply Hpass.
Qed.
Definition same_marks (s s' : INPUT_STREAM) : Prop :=
  markers s' = markers s ∧ markDepth s' = markDepth s ∧ newlineChar s' = newlineChar s.
Lemma consume_marks big s s' : consume big s = Ok s' → same_marks s s'.
Proof. by apply consume_place. Qed.
Definition same_setup (s s' : INPUT_STREAM) : Prop :=
  data s' = data s ∧ sizeBuf s' = sizeBuf s ∧ LA_fn s' = LA_fn s ∧ consume_fn s' = consume_fn s.
Lemma consume_setup big s s' : consume big s = Ok s' → same_setup s s'.
Proof. by apply consume_place. Qed.
Lemma consume_times_same big n s s' :
  consume_times big n s = Ok s' → same_marks s s' ∧ same_setup s s'.
Proof.
  revert s. induction n as [|n IH]; intros s; cbn [consume_times]; [by intros [= <-]|].
  destruct (consume big s) as [s1| |] eqn:E; [|done..]. cbn [mbind outcome_bind]. intros H.
  destruct (IH _ H) as [(? & ? & ?) (? & ? & ? & ?)].
  destruct (consume_marks _ _ _ E) as (? & ? & ?), (consume_setup _ _ _ E) as (? & ? & ? & ?).
  unfold same_marks, same_setup. split_and!; congruence.
Qed.
Lemma consume_times_ok big k s pre cs tail n m :
  at_char big k s pre cs tail n →
  ∃ s', consume_times big m s = Ok s' ∧ at_char big k s' pre cs tail (Nat.min (n + m) (length cs)) ∧ same_marks s s'.
Proof.
  revert s n. induction m as [|m IH]; intros s n H.
  - exists s. pose proof (ac_le _ _ _ _ _ _ _ H). rewrite Nat.add_0_r, Nat.min_l by done. done.
  - destruct (consume_ok _ _ _ _ _ _ _ H) as (s1 & E & H1). pose proof (consume_marks _ _ _ E) as Hm.
    destruct (IH s1 _ H1) as (s2 & E2 & H2 & Hm2). exists s2. cbn [consume_times]. rewrite E. cbn [mbind outcome_bind].
    split_and!; [done| |unfold same_marks in *; intuition congruence].
    replace (Nat.min (n + S m) (length cs)) with (Nat.min (Nat.min (S n) (length cs) + m) (length cs)) by lia. done.
Qed.
Lemma at_char_mono big k s pre cs tail n m : at_char big k s pre cs tail n → (m ≤ n)%nat →
  pos big k pre cs m ≤ pos big k pre cs n.
Proof.
  intros H Hm. pose proof (ac_le _ _ _ _ _ _ _ H). destruct (decide (m = n)) as [->|]; [lia|].
  pose proof (pos_lt big k pre cs m n). lia.
Qed.

(** C24: a stream of bytes, of UTF-8, or of UTF-16 in the order of the machine, over the
    encoding of a text, is the text: [LA] gives the characters ahead, of which -1 is
    the last that was consumed except on a stream of bytes, and the end of the stream
    behind them; [consume] goes on by one character, keeping the line, its start and the
    position in it; and rewinding to a mark undoes any number of calls of it. Nothing
    is read outside the memory, provided that a text of UTF-8 has a byte behind it. *)
Theorem stream_text big k s pre cs tail n i m :
  at_char big k s pre cs tail n → (0 < i)%nat → 0 ≤ markDepth s ≤ Z.of_nat (length (markers s)) →
  markDepth s + 1 < 2 ^ 32 →
  LA big s (Z.of_nat i) = Ok (default CHARSTREAM_EOF (cs !! (n + i - 1)%nat)) ∧
  ((i ≤ n)%nat → k ≠ K8 → LA big s (- Z.of_nat i) = Ok (default CHARSTREAM_EOF (cs !! (n - i)%nat))) ∧
  (∃ s', consume big s = Ok s' ∧ at_char big k s' pre cs tail (Nat.min (S n) (length cs))) ∧
  (∃ s' s'', consume_times big m (mark s).2 = Ok s' ∧ rewind big s' (mark s).1 = Ok s'' ∧
     at_char big k s'' pre cs tail n ∧ markDepth s'' = markDepth s).
Proof.
  intros H Hi Hd Hd2. destruct (LA_ok _ _ _ _ _ _ _ i H Hi) as [H1 H2].
  split; [done|]. split; [done|]. split; [by eapply consume_ok|].
  assert (Hmark : at_char big k (mark s).2 pre cs tail n) by (split; cbn; apply H).
  destruct (consume_times_ok _ _ _ _ _ _ _ m Hmark) as (s' & E & H' & Hm & Hdep & Hnl). exists s'.
  unfold rewind. cbn [mark fst]. rewrite u32_small by lia. rewrite u32_small by lia.
  assert (Ht : markers (release s' (markDepth s + 1)) !! Z.to_nat (markDepth s + 1 - 1)
    = Some (mkLexState (nextChar s) (line s) (currentLine s) (charPositionInLine s))).
  { cbn [release set_marks markers]. rewrite Hm. cbn. rewrite u32_small by lia.
    replace (markDepth s + 1 - 1) with (markDepth s) by lia.
    destruct (Z.ltb_spec (Z.of_nat (length (markers s))) (markDepth s + 1)).
    - replace (Z.to_nat (markDepth s)) with (length (markers s)) by lia. by apply list_lookup_middle.
    - apply list_lookup_insert_eq. lia. }
  rewrite Ht. cbn [deref mbind outcome_bind st_nextChar].
  pose proof (at_char_mono _ _ _ _ _ _ _ n H' ltac:(pose proof (ac_le _ _ _ _ _ _ _ H); lia)) as Hpos.
  rewrite <-(next_pos _ _ _ _ _ _ _ H), <-(next_pos _ _ _ _ _ _ _ H') in Hpos.
  unfold seek8. cbn [nextChar release set_marks]. destruct (Z.leb_spec (nextChar s) (nextChar s')); [|lia].
  cbn [mbind outcome_bind]. eexists. split; [done|]. split; [done|]. split.
  - split; cbn; try apply H'; [apply H|apply H|]. rewrite Hnl. apply H.
  - cbn. rewrite u32_small; lia.
Qed.

(** ** A whole stream *)

(** What a client reads that looks at the next character and consumes it, until the end
    of the stream. *)
Fixpoint read_all (big : bool) (fuel : nat) (s : INPUT_STREAM) : outcome (list Z * INPUT_STREAM) :=
  match fuel with
  | O => Undef NoFuel
  | S fuel =>
      c ← LA big s 1;
      if c =? CHARSTREAM_EOF then Ok ([], s)
      else s ← consume big s; '(l, s') ← read_all big fuel s; Ok (c :: l, s')
  end.
Lemma char_not_EOF k c : char_of k c → (c =? CHARSTREAM_EOF) = false.
Proof. unfold CHARSTREAM_EOF. destruct k; cbn; unfold scalar; lia. Qed.
Lemma read_all_ok big k s pre cs tail n fuel :
  at_char big k s pre cs tail n → (length cs - n < fuel)%nat →
  ∃ s', read_all big fuel s = Ok (drop n cs, s') ∧ at_char big k s' pre cs tail (length cs) ∧
    newlineChar s' = newlineChar s.
Proof.
  revert s n. induction fuel as [|fuel IH]; intros s n H Hf; [lia|]. cbn [read_all].
  destruct (LA_ok _ _ _ _ _ _ _ 1 H ltac:(lia)) as [E _]. change (Z.of_nat 1) with 1 in E. rewrite E.
  cbn [mbind outcome_bind]. replace (n + 1 - 1)%nat with n by lia.
  pose proof (ac_le _ _ _ _ _ _ _ H) as Hn. destruct (cs !! n) as [c|] eqn:Hc; cbn [default].
  - pose proof (ac_chars _ _ _ _ _ _ _ H) as Hch. rewrite Forall_lookup in Hch.
    unfold id. rewrite (char_not_EOF k) by by eapply Hch.
    pose proof (lookup_lt_Some _ _ _ Hc).
    destruct (consume_ok _ _ _ _ _ _ _ H) as (s1 & E1 & H1). rewrite Nat.min_l in H1 by lia.
    rewrite E1. cbn [mbind outcome_bind]. destruct (IH s1 (S n) H1) as (s' & E2 & H2 & Hnl); [lia|].
    rewrite E2. cbn [mbind outcome_bind]. exists s'. destruct (consume_marks _ _ _ E1) as (_ & _ & Hnl1).
    split_and!; [by rewrite (drop_S cs c n Hc)|done|congruence].
  - apply lookup_ge_None_1 in Hc. assert (n = length cs) as -> by lia. exists s. cbn.
    rewrite drop_all. done.
Qed.
Definition encoding_of (k : kind) : ENCODING :=
  match k with K8 => ENC_8BIT | KUTF8 => ENC_UTF8 | KUTF16 => ENC_UTF16 end.
(** The mark that may come first. *)
Definition bom (big : bool) (k : kind) : list Z :=
  match k with K8 => [] | KUTF8 => [0xEF; 0xBB; 0xBF] | KUTF16 => unit_bytes big 0xFEFF end.
(** Without a mark the text must not look as if it had one. *)
Definition no_bom (k : kind) (cs : list Z) : Prop :=
  match k with K8 => True | _ => ∃ c cs', cs = c :: cs' ∧ c ≠ 0xFEFF ∧ c ≠ 0xFFFE end.

Definition stream_at (big : bool) (k : kind) (s : INPUT_STREAM) (nc : Z) : INPUT_STREAM :=
  match k with
  | K8 => s
  | KUTF8 => set_api antlr3UTF8LA antlr3UTF8Consume antlr38BitSeek 0 (set_nextChar nc s)
  | KUTF16 => set_api antlr3UTF16LA antlr3UTF16Consume antlr3UTF16Seek 2 (set_nextChar nc s)
  end.

Lemma setup_bom big k rest n :
  setupInputStream big (encoding_of k) (antlr3GenericSetupStream (bom big k ++ rest) n)
  = Ok (stream_at big k (antlr3GenericSetupStream (bom big k ++ rest) n) (Z.of_nat (length (bom big k)))).
Proof. by destruct k, big. Qed.

(** The test for a mark fails on the bytes of a text. *)
Lemma bytes_are_step s x l r i v w :
  data s = l ++ x :: r → nextChar s = 0 → i = Z.of_nat (length l) →
  bytes_are s ((i, v) :: w) = if x =? v then bytes_are s w else Ok false.
Proof.
  intros Hd Hn ->. cbn [bytes_are]. rewrite Hn, Z.add_0_l, (byte_at_app _ _ _ _ Hd). done.
Qed.
Lemma bytes_are_utf8 s c rest :
  data s = encode UTF8 c ++ rest → nextChar s = 0 → scalar c → c ≠ 0xFEFF →
  bytes_are s [(0, 0xEF); (1, 0xBB); (2, 0xBF)] = Ok false.
Proof.
  intros Hd Hn Hc Hne. assert (Hr : 0 ≤ c ≤ 0x10FFFF) by (unfold scalar in Hc; lia). unfold encode in Hd.
  destruct (Z.ltb_spec c 0x80); [|destruct (Z.ltb_spec c 0x800); [|destruct (Z.ltb_spec c 0x10000)]];
    rewrite (bytes_are_step _ _ [] _ _ _ _ Hd) by done.
  - zb. done.
  - assert (c / 64 < 32) by (Z.to_euclidean_division_equations; lia). zb. done.
  - destruct (Z.eqb_spec (0xE0 + c / 4096) 0xEF); [|done].
    rewrite (bytes_are_step _ _ [_] _ _ _ _ Hd) by done. destruct (Z.eqb_spec (0x80 + c / 64 mod 64) 0xBB); [|done].
    rewrite (bytes_are_step _ _ [_; _] _ _ _ _ Hd) by done. destruct (Z.eqb_spec (0x80 + c mod 64) 0xBF); [|done].
    exfalso. apply Hne. Z.to_euclidean_division_equations; lia.
  - assert (0 ≤ c / 262144) by (apply Z.div_pos; lia). zb. done.
Qed.
Lemma bytes_are_utf16 big s u rest :
  data s = unit_bytes big u ++ rest → nextChar s = 0 → 0 ≤ u < 2 ^ 16 → u ≠ 0xFEFF → u ≠ 0xFFFE →
  bytes_are s [(0, 0xFE); (1, 0xFF)] = Ok false ∧ bytes_are s [(0, 0xFF); (1, 0xFE)] = Ok false.
Proof.
  intros Hd Hn Hu H1 H2. unfold unit_bytes in Hd.
  assert (u = u / 2 ^ 8 * 2 ^ 8 + u mod 2 ^ 8) by (Z.to_euclidean_division_equations; lia).
  destruct big; cbn [app] in Hd; split; rewrite (bytes_are_step _ _ [] _ _ _ _ Hd) by done;
    (case_match eqn:E1; [|done]); rewrite (bytes_are_step _ _ [_] _ _ _ _ Hd) by done;
    (case_match eqn:E2; [|done]); exfalso; lia.
Qed.
Lemma setup_no_bom big k cs rest n :
  Forall (char_of k) cs → no_bom k cs →
  setupInputStream big (encoding_of k) (antlr3GenericSetupStream (bytes big k cs ++ rest) n)
  = Ok (stream_at big k (antlr3GenericSetupStream (bytes big k cs ++ rest) n) 0).
Proof.
  intros Hch Hb. destruct k; [done| |]; destruct Hb as (c & cs' & -> & H1 & H2);
    apply Forall_cons in Hch as [Hc _]; rewrite bytes_cons, <-app_assoc.
  - cbn [encoding_of setupInputStream]. rewrite (bytes_are_utf8 _ c (bytes big KUTF8 cs' ++ rest)); done.
  - cbn [encoding_of setupInputStream bytes_of].
    destruct (utf16_units c Hc) as [(E & Hr & _)|(h & l & E & Hh & _ & Hs & _)]; rewrite E;
      cbn [fmap list_fmap mjoin list_join]; rewrite <-?app_assoc.
    + edestruct (bytes_are_utf16 big) as [E1 E2]; [| | |exact H1|exact H2|]; [..|rewrite E1, E2]; [done|done|done|].
      by destruct big.
    + edestruct (bytes_are_utf16 big) as [E1 E2]; [| |exact Hh| | |]; [..|rewrite E1, E2]; [done|done| | |by destruct big];
        revert Hs; unfold high_surrogate, UNI_SUR_HIGH_START, UNI_SUR_HIGH_END; zb; lia.
Qed.
Lemma place_line big k nl cs base ln cl cp :
  (place big k nl base ln cl cp cs).1.1 = ln + Z.of_nat (length (filter (λ c, c = nl) cs)).
Proof.
  revert base ln cl cp. induction cs as [|c cs IH]; intros base ln cl cp; cbn [place]; [cbn; lia|].
  rewrite filter_cons. destruct (Z.eqb_spec c nl); rewrite IH; (case_decide; [|done || lia]); cbn; lia || done.
Qed.

(** A stream that is made over the encoding of a text, with or without a mark for
    the byte order, reads as that text, ends behind it, and counts its lines; its
    strings are those of its factory, in which its name was made. *)
Theorem StringStreamNew_reads big k (marked : bool) cs tail name :
  Forall (char_of k) cs → (k = KUTF8 → tail ≠ []) → (marked = false → no_bom k cs) →
  let pre := if marked then bom big k else [] in
  let n := Z.of_nat (length pre + length (bytes big k cs)) in
  n < 2 ^ 31 - 1 → Forall (λ c, 0 < c < 256) name → Z.of_nat (length name) + 1 < 2 ^ 30 →
  ∃ s f p s', antlr3StringStreamNew big (pre ++ bytes big k cs ++ tail) (encoding_of k) n name = Ok (s, f, p) ∧
    read_all big (S (length cs)) s = Ok (cs, s') ∧ LA big s' 1 = Ok CHARSTREAM_EOF ∧
    line s' = 1 + Z.of_nat (length (filter (λ c, c = 10) cs)) ∧
    (name ≠ [] → ∃ str, store f !! p = Some str ∧ text str name).
Proof.
  intros Hch Ht Hb pre n Hn Hname Hln.
  set (s0 := antlr3GenericSetupStream (pre ++ bytes big k cs ++ tail) n).
  assert (Es : setupInputStream big (encoding_of k) s0 = Ok (stream_at big k s0 (Z.of_nat (length pre)))).
  { unfold s0, pre. destruct marked; [apply setup_bom|]. cbn [app length]. by apply setup_no_bom; [|apply Hb]. }
  assert (Hf : ∃ f p str, newStr (StringFactoryNew (bool_decide (k = KUTF16))) name = Ok (p, f) ∧
    factory_of (encoding_of k) = Some (StringFactoryNew (bool_decide (k = KUTF16))) ∧
    (name ≠ [] → store f !! p = Some str ∧ text str name)).
  { destruct (newStr_ok (StringFactoryNew (bool_decide (k = KUTF16))) [] name)
      as (p & f & str & E & _ & _ & _ & Hst & Htx); [apply StringFactoryNew_ok|cbn; lia| | |done|].
    - destruct k; cbn; auto.
    - eapply Forall_impl; [exact Hname|]. intros c Hc. cbn beta in Hc. unfold char_ok. case_bool_decide; cbn [api StringFactoryNew Z.mul Pos.mul]; lia.
    - exists f, p, str. rewrite E. split; [done|]. split; [by destruct k|]. intros Hne.
      rewrite Hst, lookup_insert_eq. split; [done|]. apply Htx. by left. }
  destruct Hf as (f & p & str & Ef & Efac & Hstr).
  assert (Hac : at_char big k (stream_at big k s0 (Z.of_nat (length pre))) pre cs tail 0).
  { split; try done; try (by destruct k); try (destruct k; cbn; lia).
    - destruct k; cbn; [|by rewrite Nat.add_0_r..]. unfold pre. by destruct marked. }
  destruct (read_all_ok _ _ _ _ _ _ _ (S (length cs)) Hac ltac:(lia)) as (s' & Er & Hend & Hnl).
  exists (stream_at big k s0 (Z.of_nat (length pre))), f, p, s'. split_and!.
  - unfold antlr3StringStreamNew. fold s0. rewrite Es, Efac. cbn [deref mbind outcome_bind].
    by rewrite Ef.
  - by rewrite drop_0 in Er.
  - destruct (LA_ok _ _ _ _ _ _ _ 1 Hend ltac:(lia)) as [E _]. change (Z.of_nat 1) with 1 in E. rewrite E.
    by rewrite lookup_ge_None_2 by lia.
  - pose proof (ac_place _ _ _ _ _ _ _ Hend) as Hp. rewrite firstn_all, Hnl in Hp.
    replace (newlineChar _) with 10 in Hp by by destruct k.
    pose proof (place_line big k 10 cs (Z.of_nat (length pre)) 1 0 (-1)) as Hl. by rewrite <-Hp in Hl.
  - intros Hne. exists str. by apply Hstr.
Qed.
Lemma StringStreamNew_reads_witness :
  ∃ s f p s', antlr3StringStreamNew false [0xEF; 0xBB; 0xBF; 0x48; 0x0A; 0xE2; 0x82; 0xAC; 0] ENC_UTF8 8 [109] = Ok (s, f, p) ∧
    read_all false 4 s = Ok ([0x48; 0x0A; 0x20AC], s') ∧ line s' = 2.
Proof.
  destruct (StringStreamNew_reads false KUTF8 true [0x48; 0x0A; 0x20AC] [0] [109])
    as (s & f & p & s' & E & Er & _ & Hl & _).
  - repeat (apply Forall_cons; split; [cbn; unfold scalar; lia|]). constructor.
  - done.
  - done.
  - cbn. lia.
  - repeat (apply Forall_cons; split; [lia|]). constructor.
  - cbn. lia.
  - exists s, f, p, s'. split; [exact E|]. split; [exact Er|exact Hl].
Defined.
Lemma stream_text_witness :
  let s := set_api antlr3UTF16LA antlr3UTF16Consume antlr3UTF16Seek 2
    (antlr3GenericSetupStream [0x3D; 0xD8; 0x00; 0xDE; 0x41; 0x00] 6) in
  ∃ s', consume false s = Ok s' ∧ LA false s' 1 = Ok 0x41 ∧ LA false s' (-1) = Ok 0x1F600.
Proof.
  intros s.
  assert (H : at_char false KUTF16 s [] [0x1F600; 0x41] [] 0).
  { split; try done; try (cbn; lia). repeat (apply Forall_cons; split; [cbn; unfold scalar; lia|]). constructor. }
  destruct (stream_text false KUTF16 s [] [0x1F600; 0x41] [] 0 1 0 H) as (_ & _ & (s' & E & H') & _).
  - lia.
  - cbn. lia.
  - cbn. lia.
  - exists s'. split; [exact E|].
    assert (Hd : 0 ≤ markDepth s' ≤ Z.of_nat (length (markers s'))).
    { destruct (consume_marks _ _ _ E) as (-> & -> & _). cbn. lia. }
    destruct (stream_text false KUTF16 s' [] [0x1F600; 0x41] [] 1 1 0 H') as (H1 & H2 & _).
    + lia.
    + exact Hd.
    + destruct (consume_marks _ _ _ E) as (_ & -> & _). cbn. lia.
    + split; [exact H1|]. apply H2; [lia|done].
Defined.

(** Defects of the streams, on a machine that is little endian: [LA] on UTF-16 in the
    other byte order combines the wrong bytes, and reads outside its memory; at the end
    of a stream of UTF-8 a byte behind it is read; so are bytes behind a stream of
    UTF-32, whose test for the end counts bytes, and bytes in front of one of UTF-16
    that starts with the second half of a pair; a stream of UTF-32 cannot be made from a
    string, and its little endian mark is not recognised; seeking forward does nothing
    on UTF-16 and goes too far on UTF-8; on bytes [LA] with -1 is the character before
    the last one; the mark comes back after a reset; and upper case looks at bytes in
    every encoding. *)
Theorem stream_defects :
  let G := antlr3GenericSetupStream in
  let U8 s := antlr3UTF8SetupStream s in
  LA false (antlr3UTF16SetupStream false true (G [0; 0x41; 0; 0x42; 0; 0x43; 0; 0x44] 8)) 1 = Ok 0x44414300 ∧
  LA false (antlr3UTF16SetupStream false true (G [0; 0x41; 0; 0x42] 4)) 1 = Undef BadIndex ∧
  LA false (set_nextChar 1 (U8 (G [0x41] 1))) 1 = Undef BadIndex ∧
  LA false (antlr3UTF32SetupStream false false (G [0x41; 0; 0; 0] 4)) 2 = Undef BadIndex ∧
  LA false (set_nextChar 2 (antlr3UTF16SetupStream false false (G [0x00; 0xDC; 0x41; 0x00] 4))) (-1) = Undef BadIndex ∧
  antlr3StringStreamNew false [0x41; 0; 0; 0] ENC_UTF32 4 [109] = Undef NullDeref ∧
  (nextChar <$> setupInputStream false ENC_UTF32 (G [0xFF; 0xFE; 0; 0; 0x41; 0; 0; 0] 8)) = Ok 0 ∧
  (nextChar <$> seek false (antlr3UTF16SetupStream false false (G [0x41; 0; 0x42; 0] 4)) 2) = Ok 0 ∧
  (nextChar <$> seek false (U8 (G [0xC3; 0xA9; 0x41; 0x42; 0] 4)) 2) = Ok 3 ∧
  LA false (set_nextChar 2 (G [0x61; 0x62; 0x63] 3)) (-1) = Ok 0x61 ∧
  (s ← setupInputStream false ENC_UTF8 (G [0xEF; 0xBB; 0xBF; 0x41; 0] 4); LA false (antlr3InputReset s) 1) = Ok 0xFEFF ∧
  LA false (antlr38BitSetUcaseLA true (antlr3UTF16SetupStream false false (G [0x61; 0x01] 2))) 2 = Ok 1.
Proof. split_and!; by vm_compute. Qed.
