(* ===== verification/IntTrie.v ===== *)
(** The tries with integer keys of src/antlr/libantlr3c-3.4/src/antlr3collections.c,
    that the run time keeps its memoized rules in. *)
From S2P Require Import Prelude.

(** ** Bits *)

(** [bitMask] has the powers of two; [bitIndex] the highest bit of a byte. *)
Definition bitMask : list Z := (λ i, Z.shiftl 1 (Z.of_nat i)) <$> seq 0 64.
Definition bitIndex : list Z :=
  [0; 0] ++ replicate 2 1 ++ replicate 4 2 ++ replicate 8 3 ++ replicate 16 4
  ++ replicate 32 5 ++ replicate 64 6 ++ replicate 128 7.
Definition bit_index (byte : Z) : outcome Z := index bitIndex byte.

(** [key & bitMask[bit]] *)
Definition bit_test (key bit : Z) : outcome bool :=
  mask ← index bitMask bit;
  Ok (negb (Z.land key mask =? 0)).

(** The leftmost bit in which a key differs, of its exclusive or with another;
    keys have 32 bits on the target. *)
Definition leftmost (xorKey : Z) : outcome Z :=
  if negb (Z.land xorKey 0xFFFF0000 =? 0) then
    if negb (Z.land xorKey 0xFF000000 =? 0)
    then Z.add 24 <$> bit_index (Z.shiftr (Z.land xorKey 0xFF000000) 24)
    else Z.add 16 <$> bit_index (Z.shiftr (Z.land xorKey 0x00FF0000) 16)
  else
    if negb (Z.land xorKey 0x0000FF00 =? 0)
    then Z.add 8 <$> bit_index (Z.shiftr (Z.land xorKey 0x0000FF00) 8)
    else bit_index (Z.land xorKey 0x000000FF).

(** ** Tries *)
Section trie.
Context {V : Type}.

(** The payload is a number, or a pointer with perhaps a function that releases
    it. *)
Inductive TRIE_ENTRY : Type :=
| IntEntry (intVal : Z) (freeptr : bool)
| PtrEntry (ptr : option V) (freeptr : bool).

(** A pointer to a node is its place in the memory of the trie, where the root is
    first. *)
Record INT_TRIE_NODE : Type := mkNode {
  bitNum : Z;
  key : Z;
  buckets : list TRIE_ENTRY;
  leftN : nat;
  rightN : nat
}.
Definition set_buckets (b : list TRIE_ENTRY) (n : INT_TRIE_NODE) : INT_TRIE_NODE :=
  mkNode (bitNum n) (key n) b (leftN n) (rightN n).
Definition set_leftN (l : nat) (n : INT_TRIE_NODE) : INT_TRIE_NODE :=
  mkNode (bitNum n) (key n) (buckets n) l (rightN n).
Definition set_rightN (r : nat) (n : INT_TRIE_NODE) : INT_TRIE_NODE :=
  mkNode (bitNum n) (key n) (buckets n) (leftN n) r.

Record INT_TRIE : Type := mkTrie {
  nodes : list INT_TRIE_NODE;
  count : Z;
  allowDups : bool
}.
Definition root : nat := 0%nat.

Definition node (trie : INT_TRIE) (p : nat) : outcome INT_TRIE_NODE :=
  match nodes trie !! p with Some n => Ok n | None => Undef BadIndex end.

(** [antlr3IntTrieNew] *)
Definition IntTrieNew (depth : Z) : INT_TRIE := mkTrie [mkNode depth 0 [] root root] 0 false.

(** The loops that descend: to the pointer that leads back up, or to the first
    node whose bit is not above [floor]. Each round has a lower bit, so that the
    bit of the node bounds their number. *)
Fixpoint descend (fuel : nat) (trie : INT_TRIE) (k floor : Z) (this next : nat)
    : outcome (nat * nat) :=
  match fuel with
  | O => Undef NoFuel
  | S fuel =>
      t ← node trie this;
      n ← node trie next;
      if (bitNum n <? bitNum t) && (floor <? bitNum n)
      then
        b ← bit_test k (bitNum n);
        descend fuel trie k floor next (if b : bool then rightN n else leftN n)
      else Ok (this, next)
  end.
Definition descend_root (trie : INT_TRIE) (k floor : Z) : outcome (nat * nat) :=
  r ← node trie root;
  descend (S (Z.to_nat (bitNum r))) trie k floor root (leftN r).

(** [intTrieGet]: the entries of the key. *)
Definition intTrieGet (trie : INT_TRIE) (k : Z) : outcome (list TRIE_ENTRY) :=
  if count trie =? 0 then Ok []
  else
    '(_, next) ← descend_root trie k (-1);
    n ← node trie next;
    Ok (if key n =? k then buckets n else []).

(** [intTrieDel] does nothing. *)
Definition intTrieDel (trie : INT_TRIE) (k : Z) : bool := false.

(** [intTrieAdd] *)
Definition intTrieAdd (trie : INT_TRIE) (k : Z) (newEnt : TRIE_ENTRY)
    : outcome (bool * INT_TRIE) :=
  '(_, next) ← descend_root trie k (-1);
  n ← node trie next;
  if key n =? k then
    if allowDups trie then
      match buckets n with
      | [] => Undef NullDeref
      | _ =>
          Ok (true, mkTrie (<[next := set_buckets (buckets n ++ [newEnt]) n]> (nodes trie))
                      (u32 (count trie + 1)) (allowDups trie))
      end
    else Ok (false, trie)
  else
    depth ← leftmost (Z.lxor k (key n));
    '(this, ent) ← descend_root trie k depth;
    let new := length (nodes trie) in
    b ← bit_test k depth;
    let nextNode := if b : bool then mkNode depth k [newEnt] ent new
                    else mkNode depth k [newEnt] new ent in
    t ← node trie this;
    b ← bit_test k (bitNum t);
    let t := if b : bool then set_rightN new t else set_leftN new t in
    Ok (true, mkTrie (<[this := t]> (nodes trie) ++ [nextNode]) (u32 (count trie + 1))
                (allowDups trie)).

(** [freeIntNode]: the nodes released so far and the pointers that were passed to
    their free functions. *)
Definition entry_freed (e : TRIE_ENTRY) : list (option V) :=
  match e with PtrEntry p true => [p] | _ => [] end.
Definition live_node (trie : INT_TRIE) (gone : list nat) (p : nat) : outcome INT_TRIE_NODE :=
  if decide (p ∈ gone) then Undef UseAfterFree else node trie p.
Fixpoint freeIntNode (fuel : nat) (trie : INT_TRIE) (p : nat) (st : list nat * list (option V))
    : outcome (list nat * list (option V)) :=
  match fuel with
  | O => Undef NoFuel
  | S fuel =>
      n ← live_node trie st.1 p;
      l ← live_node trie st.1 (leftN n);
      st ← (if bitNum l <? bitNum n then freeIntNode fuel trie (leftN n) st else Ok st);
      n ← live_node trie st.1 p;
      r ← live_node trie st.1 (rightN n);
      st ← (if bitNum r <? bitNum n then freeIntNode fuel trie (rightN n) st else Ok st);
      n ← live_node trie st.1 p;
      Ok (st.1 ++ [p], st.2 ++ (buckets n ≫= entry_freed))
  end.
(** [intTrieFree] *)
Definition intTrieFree (trie : INT_TRIE) : outcome (list nat * list (option V)) :=
  r ← node trie root;
  freeIntNode (S (Z.to_nat (bitNum r))) trie root ([], []).
End trie.
Arguments TRIE_ENTRY : clear implicits.
Arguments INT_TRIE_NODE : clear implicits.
Arguments INT_TRIE : clear implicits.

(** ** Facts about bits *)

Lemma bit_test_testbit k b : 0 ≤ b < 64 → bit_test k b = Ok (Z.testbit k b).
Proof.
  intros Hb. unfold bit_test. rewrite (index_lookup _ _ (2 ^ b)); [|lia|].
  2: { unfold bitMask. rewrite list_lookup_fmap, lookup_seq_lt by lia. cbn [fmap option_fmap option_map].
       rewrite Nat.add_0_l, Z2Nat.id, Z.shiftl_mul_pow2, Z.mul_1_l by lia. done. }
  cbn [mbind outcome_bind]. f_equal. apply land_pow2_testbit. lia.
Qed.

Lemma bit_index_log2 b : 0 < b < 256 → bit_index b = Ok (Z.log2 b).
Proof.
  intros Hb. assert (H : forall_range (λ b, bool_decide (bit_index b = Ok (Z.log2 b))) 255 1 = true)
    by (vm_compute; reflexivity).
  apply (bool_decide_unpack _). rewrite (forall_range_spec _ _ _ H); [done|lia].
Qed.

(** The bits of a word from [i] on, up to a bound on the word. *)
Lemma land_field x i w :
  0 ≤ x → 0 ≤ i → 0 ≤ w → x < 2 ^ (i + w) →
  Z.land x (Z.shiftl (Z.ones w) i) = Z.shiftl (Z.shiftr x i) i.
Proof.
  intros Hx Hi Hw Hlt. apply Z.bits_inj'. intros c Hc. rewrite Z.land_spec.
  destruct (Z.ltb_spec c i).
  - rewrite !Z.shiftl_spec_low by done. by rewrite andb_false_r.
  - rewrite !Z.shiftl_spec by lia. rewrite Z.shiftr_spec by lia.
    replace (c - i + i) with c by lia. destruct (Z.ltb_spec (c - i) w).
    + rewrite Z.ones_spec_low by lia. apply andb_true_r.
    + rewrite Z.ones_spec_high, andb_false_r by lia. symmetry.
      destruct (Z.eq_dec x 0) as [->|]; [apply Z.bits_0|].
      apply Z.bits_above_log2; [done|]. apply Z.log2_lt_pow2; [lia|].
      apply Z.lt_le_trans with (2 ^ (i + w)); [done|]. apply Z.pow_le_mono_r; lia.
Qed.

Lemma leftmost_field x i :
  0 ≤ i → 2 ^ i ≤ x < 2 ^ (i + 8) →
  Z.add i <$> bit_index (Z.shiftr (Z.land x (Z.shiftl (Z.ones 8) i)) i) = Ok (Z.log2 x).
Proof.
  intros Hi Hx. assert (0 < 2 ^ i) by (apply Z.pow_pos_nonneg; lia).
  rewrite land_field, Z.shiftr_shiftl_l, Z.sub_diag, Z.shiftl_0_r by lia.
  assert (Hq : 0 < Z.shiftr x i < 256).
  { rewrite Z.shiftr_div_pow2 by done. split; [apply Z.div_str_pos; lia|].
    apply Z.div_lt_upper_bound; [done|]. rewrite Z.pow_add_r in Hx by lia. lia. }
  rewrite bit_index_log2 by done. cbn. f_equal. rewrite Z.log2_shiftr by lia.
  assert (i ≤ Z.log2 x) by (apply Z.log2_le_pow2; lia). lia.
Qed.

Lemma high_zero x i w :
  0 ≤ x → 0 ≤ i → 0 ≤ w → x < 2 ^ (i + w) →
  (Z.land x (Z.shiftl (Z.ones w) i) =? 0) = (x <? 2 ^ i).
Proof.
  intros Hx Hi Hw Hlt. rewrite land_field by done. assert (0 < 2 ^ i) by (apply Z.pow_pos_nonneg; lia).
  rewrite Z.shiftl_mul_pow2, Z.shiftr_div_pow2 by done. apply eq_bool_prop_intro.
  rewrite !Is_true_true, Z.eqb_eq, Z.ltb_lt. split.
  - intros E. apply Z.mul_eq_0_l in E; [|lia].
    pose proof (Z.div_mod x (2 ^ i)). pose proof (Z.mod_pos_bound x (2 ^ i)). lia.
  - intros E. rewrite Z.div_small; lia.
Qed.

Lemma leftmost_log2 x : 0 < x < 2 ^ 32 → leftmost x = Ok (Z.log2 x).
Proof.
  intros Hx. unfold leftmost.
  change 0xFFFF0000 with (Z.shiftl (Z.ones 16) 16). change 0xFF000000 with (Z.shiftl (Z.ones 8) 24).
  change 0x00FF0000 with (Z.shiftl (Z.ones 8) 16). change 0x0000FF00 with (Z.shiftl (Z.ones 8) 8).
  rewrite high_zero by lia. destruct (Z.ltb_spec x (2 ^ 16)); cbn [negb].
  - rewrite high_zero by lia. destruct (Z.ltb_spec x (2 ^ 8)); cbn [negb].
    + change 0x000000FF with (Z.ones 8). rewrite Z.land_ones_low by (lia || apply Z.log2_lt_pow2; lia).
      apply bit_index_log2. lia.
    + apply leftmost_field; lia.
  - rewrite high_zero by lia. destruct (Z.ltb_spec x (2 ^ 24)); cbn [negb]; apply leftmost_field; lia.
Qed.

(** The leftmost bit in which two keys differ. *)
Lemma differ_leftmost k k' :
  0 ≤ k < 2 ^ 32 → 0 ≤ k' < 2 ^ 32 → k ≠ k' →
  ∃ d, leftmost (Z.lxor k k') = Ok d ∧ 0 ≤ d < 32 ∧ Z.testbit k' d = negb (Z.testbit k d) ∧
    ∀ c, d < c → Z.testbit k' c = Z.testbit k c.
Proof.
  intros Hk Hk' Hne. assert (Hx0 : 0 ≤ Z.lxor k k') by (apply Z.lxor_nonneg; lia).
  assert (Hx : Z.lxor k k' ≠ 0) by by rewrite Z.lxor_eq_0_iff.
  assert (Hl : Z.log2 (Z.lxor k k') < 32).
  { pose proof (Z.log2_lxor k k' ltac:(lia) ltac:(lia)).
    assert (∀ z, 0 ≤ z < 2 ^ 32 → Z.log2 z < 32) as Hlog.
    { intros z Hz. destruct (Z.eq_dec z 0) as [->|]; [done|]. apply Z.log2_lt_pow2; lia. }
    pose proof (Hlog k Hk). pose proof (Hlog k' Hk'). lia. }
  exists (Z.log2 (Z.lxor k k')). split_and!.
  - apply leftmost_log2. split; [lia|]. by apply Z.log2_lt_pow2; [lia|].
  - apply Z.log2_nonneg.
  - done.
  - pose proof (Z.bit_log2 (Z.lxor k k') ltac:(lia)) as Hb. rewrite Z.lxor_spec in Hb.
    by destruct (Z.testbit k _), (Z.testbit k' _).
  - intros c Hc. pose proof (Z.bits_above_log2 (Z.lxor k k') c Hx0 Hc) as Hb.
    rewrite Z.lxor_spec in Hb. by destruct (Z.testbit k _), (Z.testbit k' _).
Qed.

(** ** The tree that the pointers make

    Seen from its parent, a node with a lower bit is a branch and any other
    pointer leads back up to a node, whose key is the leaf there. *)
Inductive ptree : Type :=
| Back (i : nat)
| Branch (i : nat) (l r : ptree).

Fixpoint leaves (t : ptree) : list nat :=
  match t with Back i => [i] | Branch _ l r => leaves l ++ leaves r end.
Fixpoint branches (t : ptree) : list nat :=
  match t with Back _ => [] | Branch i l r => i :: branches l ++ branches r end.

(** Pointers lead back to the branches above them. *)
Fixpoint above (up : list nat) (t : ptree) : Prop :=
  match t with
  | Back i => i ∈ up
  | Branch i l r => above (i :: up) l ∧ above (i :: up) r
  end.

(** With the keys [kf] and the bits [bf] of the nodes: the bit of a branch
    separates its leaves, which agree on all higher bits. *)
Fixpoint separated (kf bf : nat → Z) (t : ptree) : Prop :=
  match t with
  | Back _ => True
  | Branch i l r =>
      (∀ j, j ∈ leaves l → Z.testbit (kf j) (bf i) = false) ∧
      (∀ j, j ∈ leaves r → Z.testbit (kf j) (bf i) = true) ∧
      (∀ j j' c, j ∈ leaves l ++ leaves r → j' ∈ leaves l ++ leaves r → bf i < c →
         Z.testbit (kf j) c = Z.testbit (kf j') c) ∧
      separated kf bf l ∧ separated kf bf r
  end.

(** The leaf that the bits of a key lead to, and the insertion of a new leaf at
    bit [d]. *)
Fixpoint reach (bf : nat → Z) (k : Z) (t : ptree) : nat :=
  match t with
  | Back i => i
  | Branch i l r => if Z.testbit k (bf i) then reach bf k r else reach bf k l
  end.
Definition grow (k d : Z) (new : nat) (t : ptree) : ptree :=
  if Z.testbit k d then Branch new t (Back new) else Branch new (Back new) t.
Fixpoint ins (bf : nat → Z) (k d : Z) (new : nat) (t : ptree) : ptree :=
  match t with
  | Back _ => grow k d new t
  | Branch i l r =>
      if d <? bf i then
        if Z.testbit k (bf i) then Branch i l (ins bf k d new r)
        else Branch i (ins bf k d new l) r
      else grow k d new t
  end.

Section ptree.
Context (bf : nat → Z).

Lemma reach_leaf k t : reach bf k t ∈ leaves t.
Proof.
  induction t as [i|i l IHl r IHr]; cbn; [left|]. rewrite elem_of_app.
  destruct (Z.testbit k (bf i)); tauto.
Qed.

Lemma leaves_grow k d new t : leaves (grow k d new t) ≡ₚ new :: leaves t.
Proof. unfold grow. destruct (Z.testbit k d); cbn; [by rewrite Permutation_app_comm|done]. Qed.
Lemma leaves_ins k d new t : leaves (ins bf k d new t) ≡ₚ new :: leaves t.
Proof.
  induction t as [i|i l IHl r IHr]; cbn [ins]; [apply leaves_grow|].
  destruct (d <? bf i); [|apply leaves_grow]. destruct (Z.testbit k (bf i)); cbn.
  - rewrite IHr. by rewrite Permutation_middle.
  - by rewrite IHl.
Qed.
Lemma branches_ins k d new t : branches (ins bf k d new t) ≡ₚ new :: branches t.
Proof.
  assert (Hg : ∀ t, branches (grow k d new t) ≡ₚ new :: branches t).
  { intros t'. unfold grow. destruct (Z.testbit k d); cbn; by rewrite ?app_nil_r. }
  induction t as [i|i l IHl r IHr]; cbn [ins]; [apply Hg|].
  destruct (d <? bf i); [|apply Hg]. destruct (Z.testbit k (bf i)); cbn.
  - rewrite IHr. rewrite <-Permutation_middle. by rewrite perm_swap.
  - rewrite IHl. cbn. by rewrite perm_swap.
Qed.

Lemma above_mono up up' t : (∀ i, i ∈ up → i ∈ up') → above up t → above up' t.
Proof.
  revert up up'. induction t as [i|i l IHl r IHr]; intros up up' Hi; cbn; [apply Hi|].
  intros [Hl Hr]. split; [apply (IHl (i :: up))|apply (IHr (i :: up))]; try done; set_solver.
Qed.
Lemma above_ins up k d new t : above up t → above up (ins bf k d new t).
Proof.
  assert (Hg : ∀ up t, above up t → above up (grow k d new t)).
  { intros up' t' Ht. unfold grow. destruct (Z.testbit k d); cbn.
    - split; [by apply (above_mono up'); [set_solver|]|left].
    - split; [left|by apply (above_mono up'); [set_solver|]]. }
  revert up. induction t as [i|i l IHl r IHr]; intros up; cbn [ins]; [apply Hg|].
  destruct (d <? bf i); [|apply Hg]. destruct (Z.testbit k (bf i)); cbn; naive_solver.
Qed.

Lemma reach_ext bf' k t : (∀ i, i ∈ branches t → bf' i = bf i) → reach bf' k t = reach bf k t.
Proof.
  induction t as [i|i l IHl r IHr]; [done|]. cbn. intros Hb. rewrite Hb by left.
  destruct (Z.testbit k (bf i)); [apply IHr|apply IHl]; intros j ?; apply Hb; set_solver.
Qed.
Lemma ins_ext bf' k d new t :
  (∀ i, i ∈ branches t → bf' i = bf i) → ins bf' k d new t = ins bf k d new t.
Proof.
  induction t as [i|i l IHl r IHr]; [done|]. cbn. intros Hb. rewrite Hb by left.
  rewrite IHl, IHr; [done|intros j ?; apply Hb; set_solver..].
Qed.

Context (kf : nat → Z).

Lemma reach_key j t : separated kf bf t → j ∈ leaves t → reach bf (kf j) t = j.
Proof.
  induction t as [i|i l IHl r IHr]; cbn; [by intros _ ->%list_elem_of_singleton|].
  intros (Hl & Hr & _ & Hsl & Hsr) [Hj|Hj]%elem_of_app.
  - rewrite Hl by done. by apply IHl.
  - rewrite Hr by done. by apply IHr.
Qed.

Lemma separated_ext kf' bf' t :
  (∀ i, i ∈ leaves t → kf' i = kf i) → (∀ i, i ∈ branches t → bf' i = bf i) →
  separated kf bf t → separated kf' bf' t.
Proof.
  induction t as [i|i l IHl r IHr]; [done|]. cbn. intros Hk Hb (Hl & Hr & Ha & Hsl & Hsr).
  assert (bf' i = bf i) as Ei by (apply Hb; left). rewrite Ei.
  assert (Hkl : ∀ j, j ∈ leaves l → kf' j = kf j) by (intros j ?; apply Hk; set_solver).
  assert (Hkr : ∀ j, j ∈ leaves r → kf' j = kf j) by (intros j ?; apply Hk; set_solver).
  split_and!.
  - intros j Hj. rewrite Hkl by done. by apply Hl.
  - intros j Hj. rewrite Hkr by done. by apply Hr.
  - intros j j' c Hj Hj' Hc. rewrite !Hk by done. by apply Ha.
  - apply IHl; [done| |done]. intros j ?. apply Hb. set_solver.
  - apply IHr; [done| |done]. intros j ?. apply Hb. set_solver.
Qed.
(** The keys stay separated: the new key agrees above bit [d] with the leaf that
    its bits lead to, and differs from it there. *)
Lemma separated_ins k d new t :
  separated kf bf t → new ∉ leaves t → new ∉ branches t → kf new = k → bf new = d →
  Z.testbit (kf (reach bf k t)) d = negb (Z.testbit k d) →
  (∀ c, d < c → Z.testbit (kf (reach bf k t)) c = Z.testbit k c) →
  separated kf bf (ins bf k d new t).
Proof.
  intros Hs Hnl Hnb Hk Hd Hdiff Hagree.
  assert (Hgrow : ∀ t', separated kf bf t' → reach bf k t' = reach bf k t →
    (∀ j c, j ∈ leaves t' → d ≤ c → Z.testbit (kf j) c = Z.testbit (kf (reach bf k t)) c) →
    separated kf bf (grow k d new t')).
  { intros t' Ht' Hreach Hall.
    assert (Hc : ∀ j c, j = new ∨ j ∈ leaves t' → d < c → Z.testbit (kf j) c = Z.testbit k c).
    { intros j c [->|Hj] Hlt; [by rewrite Hk|]. rewrite (Hall j c Hj) by lia. by apply Hagree. }
    assert (Hb : ∀ j, j ∈ leaves t' → Z.testbit (kf j) d = negb (Z.testbit k d)).
    { intros j Hj. by rewrite (Hall j d Hj) by lia. }
    unfold grow. destruct (Z.testbit k d) eqn:Eb; cbn; rewrite Hd; split_and!; try done.
    - intros j ->%list_elem_of_singleton. by rewrite Hk.
    - intros j j' c Hj Hj' Hlt. rewrite (Hc j), (Hc j'); [done|set_solver..].
    - intros j ->%list_elem_of_singleton. by rewrite Hk.
    - intros j j' c Hj Hj' Hlt. rewrite (Hc j), (Hc j'); [done|set_solver..]. }
  revert Hs Hnl Hnb Hdiff Hagree Hgrow.
  induction t as [i|i l IHl r IHr]; intros Hs Hnl Hnb Hdiff Hagree Hgrow.
  { cbn [ins]. apply Hgrow; [done|done|]. by intros j c ->%list_elem_of_singleton _. }
  cbn [ins]. cbn [leaves branches] in Hnl, Hnb. destruct Hs as (Hl & Hr & Ha & Hsl & Hsr).
  pose proof (reach_leaf k (Branch i l r)) as Hin. cbn [leaves] in Hin.
  destruct (Z.ltb_spec d (bf i)) as [Hlt|Hge].
  - assert (Hk' : ∀ j c, j = new ∨ j ∈ leaves l ++ leaves r → bf i < c →
      Z.testbit (kf j) c = Z.testbit k c).
    { intros j c [->|Hj] Hc; [by rewrite Hk|]. rewrite (Ha j _ c Hj Hin Hc). apply Hagree. lia. }
    cbn [reach] in *.
    destruct (Z.testbit k (bf i)) eqn:Eb; cbn; split_and!; try done.
    + intros j. rewrite leaves_ins. intros [->|Hj]%elem_of_cons; [by rewrite Hk|by apply Hr].
    + intros j j' c. rewrite leaves_ins. intros Hj Hj' Hc.
      rewrite (Hk' j), (Hk' j'); [done|set_solver..].
    + apply IHr; set_solver.
    + intros j. rewrite leaves_ins. intros [->|Hj]%elem_of_cons; [by rewrite Hk|by apply Hl].
    + intros j j' c. rewrite leaves_ins. intros Hj Hj' Hc.
      rewrite (Hk' j), (Hk' j'); [done|set_solver..].
    + apply IHl; set_solver.
  - apply Hgrow; [done|done|]. intros j c Hj Hc. apply Ha; [done|done|].
    assert (bf i ≠ d); [|lia]. intros Hbd. cbn [reach] in Hdiff. rewrite Hbd in *.
    destruct (Z.testbit k d) eqn:Eb.
    + by rewrite Hr in Hdiff by apply reach_leaf.
    + by rewrite Hl in Hdiff by apply reach_leaf.
Qed.
End ptree.

(** ** The memory of a trie holds a tree *)
Section memory.
Context {V : Type}.
Implicit Types ns : list (INT_TRIE_NODE V).

Definition keyof ns (i : nat) : Z := from_option key 0 (ns !! i).
Definition bitof ns (i : nat) : Z := from_option bitNum 0 (ns !! i).

(** What the pointer [p] of a node with bit [b] leads to. *)
Fixpoint shape ns (b : Z) (p : nat) (t : ptree) : Prop :=
  match t with
  | Back i => p = i ∧ ∃ n, ns !! i = Some n ∧ b ≤ bitNum n
  | Branch i l r =>
      p = i ∧ ∃ n, ns !! i = Some n ∧ 0 ≤ bitNum n < b ∧
        shape ns (bitNum n) (leftN n) l ∧ shape ns (bitNum n) (rightN n) r
  end.

Lemma bitof_lookup ns i n : ns !! i = Some n → bitof ns i = bitNum n.
Proof. unfold bitof. by intros ->. Qed.
Lemma keyof_lookup ns i n : ns !! i = Some n → keyof ns i = key n.
Proof. unfold keyof. by intros ->. Qed.

Lemma shape_frame ns ns' b p t :
  (∀ i n, i ∈ branches t → ns !! i = Some n → ∃ n', ns' !! i = Some n' ∧
     bitNum n' = bitNum n ∧ leftN n' = leftN n ∧ rightN n' = rightN n) →
  (∀ i n, ns !! i = Some n → ∃ n', ns' !! i = Some n' ∧ bitNum n' = bitNum n) →
  shape ns b p t → shape ns' b p t.
Proof.
  intros Hb Hl. revert b p. induction t as [i|i l IHl r IHr]; intros b p; cbn in *.
  - intros (-> & n & Hn & Hle). split; [done|]. destruct (Hl i n Hn) as (n' & Hn' & E).
    exists n'. split; [done|lia].
  - intros (-> & n & Hn & Hlt & Hsl & Hsr). split; [done|].
    destruct (Hb i n) as (n' & Hn' & Eb & El & Er); [left|done|]. exists n'. rewrite Eb, El, Er.
    split_and!; [done|lia|lia| |].
    + apply IHl; [|done]. intros j m Hj. apply Hb. set_solver.
    + apply IHr; [|done]. intros j m Hj. apply Hb. set_solver.
Qed.

Lemma shape_bits ns b p t i n :
  shape ns b p t → i ∈ branches t → ns !! i = Some n → 0 ≤ bitNum n < b.
Proof.
  revert b p. induction t as [j|j l IHl r IHr]; intros b p; cbn; [by intros _ ?%not_elem_of_nil|].
  intros (-> & m & Hm & Hlt & Hsl & Hsr) [->|[Hi|Hi]%elem_of_app]%elem_of_cons Hn.
  - by assert (n = m) as -> by congruence.
  - specialize (IHl _ _ Hsl Hi Hn). lia.
  - specialize (IHr _ _ Hsr Hi Hn). lia.
Qed.

Lemma node_lookup ns c d p n : ns !! p = Some n → node (mkTrie ns c d) p = Ok n.
Proof. unfold node. cbn. by intros ->. Qed.

(** The first descent reaches the leaf of the key. *)
Lemma descend_reach ns c dup k t fuel b p this tn :
  shape ns b p t → ns !! this = Some tn → bitNum tn = b → b < 64 → (Z.to_nat b < fuel)%nat →
  ∃ this', descend fuel (mkTrie ns c dup) k (-1) this p = Ok (this', reach (bitof ns) k t).
Proof.
  revert fuel b p this tn. induction t as [i|i l IHl r IHr]; intros fuel b p this tn Hs Ht Hb Hb64 Hf;
    (destruct fuel as [|fuel]; [lia|]); cbn [descend]; rewrite (node_lookup _ _ _ _ _ Ht); cbn.
  - destruct Hs as (-> & n & Hn & Hle). rewrite (node_lookup _ _ _ _ _ Hn). cbn.
    destruct (Z.ltb_spec (bitNum n) (bitNum tn)); [lia|]. cbn. eauto.
  - destruct Hs as (-> & n & Hn & Hlt & Hsl & Hsr). rewrite (node_lookup _ _ _ _ _ Hn). cbn.
    destruct (Z.ltb_spec (bitNum n) (bitNum tn)), (Z.ltb_spec (-1) (bitNum n)); try lia. cbn.
    rewrite bit_test_testbit, (bitof_lookup _ _ _ Hn) by lia. cbn [mbind outcome_bind].
    destruct (Z.testbit k (bitNum n)).
    + apply (IHr fuel (bitNum n) (rightN n) i n); [done|done|done|lia|lia].
    + apply (IHl fuel (bitNum n) (leftN n) i n); [done|done|done|lia|lia].
Qed.

(** The memory after an insertion below the node [this]. *)
Definition side (k : Z) (n : INT_TRIE_NODE V) : nat :=
  if Z.testbit k (bitNum n) then rightN n else leftN n.
Definition link (k : Z) (new : nat) (n : INT_TRIE_NODE V) : INT_TRIE_NODE V :=
  if Z.testbit k (bitNum n) then set_rightN new n else set_leftN new n.
Definition leaf_node (k d : Z) (es : list (TRIE_ENTRY V)) (ent new : nat) : INT_TRIE_NODE V :=
  if Z.testbit k d then mkNode d k es ent new else mkNode d k es new ent.
Definition grown ns (k d : Z) es (this : nat) (tn : INT_TRIE_NODE V) (ent : nat) :=
  <[this := link k (length ns) tn]> ns ++ [leaf_node k d es ent (length ns)].

Lemma grown_old ns k d es this tn ent i n :
  ns !! i = Some n → i ≠ this → grown ns k d es this tn ent !! i = Some n.
Proof.
  intros Hn Hne. unfold grown. apply lookup_app_l_Some. by rewrite list_lookup_insert_ne.
Qed.
Lemma grown_this ns k d es this tn ent :
  ns !! this = Some tn → grown ns k d es this tn ent !! this = Some (link k (length ns) tn).
Proof.
  intros Hn. unfold grown. apply lookup_app_l_Some.
  apply list_lookup_insert_eq. by eapply lookup_lt_Some.
Qed.
Lemma grown_new ns k d es this tn ent :
  grown ns k d es this tn ent !! length ns = Some (leaf_node k d es ent (length ns)).
Proof.
  unfold grown. rewrite lookup_app_r by by rewrite length_insert.
  by rewrite length_insert, Nat.sub_diag.
Qed.
Lemma link_bit k new (n : INT_TRIE_NODE V) : bitNum (link k new n) = bitNum n.
Proof. unfold link. by destruct (Z.testbit k (bitNum n)). Qed.
Lemma link_key k new (n : INT_TRIE_NODE V) : key (link k new n) = key n.
Proof. unfold link. by destruct (Z.testbit k (bitNum n)). Qed.
Lemma link_right k new (n : INT_TRIE_NODE V) :
  0 ≤ bitNum n → Z.testbit k (bitNum n) = true →
  leftN (link k new n) = leftN n ∧ rightN (link k new n) = new.
Proof. intros Hb E. unfold link. by rewrite E. Qed.
Lemma link_left k new (n : INT_TRIE_NODE V) :
  0 ≤ bitNum n → Z.testbit k (bitNum n) = false →
  leftN (link k new n) = new ∧ rightN (link k new n) = rightN n.
Proof. intros Hb E. unfold link. by rewrite E. Qed.
Lemma grown_bit ns k d es this tn ent i n :
  ns !! this = Some tn → ns !! i = Some n →
  ∃ n', grown ns k d es this tn ent !! i = Some n' ∧ bitNum n' = bitNum n ∧ key n' = key n.
Proof.
  intros Ht Hn. destruct (decide (i = this)) as [->|Hne].
  - assert (n = tn) as -> by congruence. exists (link k (length ns) tn). by rewrite grown_this, link_bit, link_key.
  - exists n. by rewrite (grown_old _ _ _ _ _ _ _ i n).
Qed.

Lemma shape_grown ns k d es this tn ent b p t :
  ns !! this = Some tn → this ∉ branches t → shape ns b p t →
  shape (grown ns k d es this tn ent) b p t.
Proof.
  intros Ht Hnt. apply (shape_frame ns).
  - intros i n Hi Hn. exists n. split; [|done]. apply grown_old; [done|]. by intros ->.
  - intros i n Hn. destruct (grown_bit ns k d es this tn ent i n Ht Hn) as (n' & ? & ? & _). eauto.
Qed.

(** A new node above the tree at [p]. *)
Lemma shape_grow ns k d es t b p this tn :
  shape ns b p t → ns !! this = Some tn → 0 ≤ d < b → this ∉ branches t →
  (∀ i n, i = p → ns !! i = Some n → d < bitNum n → b ≤ bitNum n) →
  (∀ i l r, t = Branch i l r → bitof ns i ≠ d) →
  shape (grown ns k d es this tn p) b (length ns) (grow k d (length ns) t).
Proof.
  intros Hs Ht Hd Hnt Hp Hne.
  assert (Hs' : shape (grown ns k d es this tn p) d p t).
  { apply (shape_grown ns); [done|done|]. destruct t as [i|i l r]; cbn in *.
    - destruct Hs as (-> & n & Hn & Hle). split; [done|]. exists n. split; [done|lia].
    - destruct Hs as (-> & n & Hn & Hlt & Hsl & Hsr). split; [done|]. exists n.
      specialize (Hne i l r eq_refl). rewrite (bitof_lookup _ _ _ Hn) in Hne.
      specialize (Hp i n eq_refl Hn). split_and!; try done; lia. }
  unfold grow. pose proof (grown_new ns k d es this tn p) as Hnew.
  unfold leaf_node in *.
  assert (Hback : ∀ n, bitNum n = d → grown ns k d es this tn p !! length ns = Some n →
    shape (grown ns k d es this tn p) d (length ns) (Back (length ns))).
  { intros n Hn Hn'. split; [done|]. exists n. split; [done|lia]. }
  destruct (Z.testbit k d); (split; [done|]); eexists; (split; [exact Hnew|]); cbn [bitNum leftN rightN];
    (split; [lia|]); split; try exact Hs'; by eapply Hback; [|exact Hnew].
Qed.

(** The second descent finds where the new leaf goes. *)
Lemma descend_ins ns c dup k d es t : ∀ fuel b p this tn,
  shape ns b p t → ns !! this = Some tn → bitNum tn = b → (Z.to_nat b < fuel)%nat → 0 ≤ d < b → b < 64 →
  NoDup (branches t) → this ∉ branches t → p = side k tn →
  Z.testbit (keyof ns (reach (bitof ns) k t)) d = negb (Z.testbit k d) →
  separated (keyof ns) (bitof ns) t →
  ∃ this' tn' ent', descend fuel (mkTrie ns c dup) k d this p = Ok (this', ent') ∧
    ns !! this' = Some tn' ∧ (this' = this ∨ this' ∈ branches t) ∧
    shape (grown ns k d es this' tn' ent') b
      (if decide (this' = this) then length ns else p) (ins (bitof ns) k d (length ns) t).
Proof.
  induction t as [i|i l IHl r IHr]; intros fuel b p this tn Hs Ht Hb Hf Hd Hb64 Hnd Hnt Hp Hdiff Hsep;
    (destruct fuel as [|fuel]; [lia|]); cbn [descend]; rewrite (node_lookup _ _ _ _ _ Ht); cbn [mbind outcome_bind].
  - pose proof Hs as (-> & n & Hn & Hle). rewrite (node_lookup _ _ _ _ _ Hn). cbn [mbind outcome_bind].
    destruct (Z.ltb_spec (bitNum n) (bitNum tn)); [lia|]. cbn [andb].
    exists this, tn, i. split_and!; [done|done|by left|]. rewrite decide_True by done.
    cbn [ins]. apply (shape_grow ns k d es (Back i)); try done. intros j n' -> Hn' Hlt. simplify_eq. lia.
  - pose proof Hs as (-> & n & Hn & Hlt & Hsl & Hsr). rewrite (node_lookup _ _ _ _ _ Hn).
    cbn [mbind outcome_bind ins]. rewrite (bitof_lookup _ _ _ Hn).
    destruct (Z.ltb_spec (bitNum n) (bitNum tn)); [|lia]. cbn [andb].
    destruct (Z.ltb_spec d (bitNum n)) as [Hdn|Hdn]; cycle 1.
    { exists this, tn, i. split_and!; [done|done|by left|]. rewrite decide_True by done.
      apply (shape_grow ns k d es (Branch i l r)); try done.
      - intros j n' -> Hn' Hlt'. simplify_eq. lia.
      - intros j l' r' [= <- <- <-]. destruct Hsep as (Hl & Hr & _).
        rewrite (bitof_lookup _ _ _ Hn) in *. intros Hbd. cbn [reach] in Hdiff.
        rewrite (bitof_lookup _ _ _ Hn), Hbd in Hdiff. rewrite Hbd in Hl, Hr. revert Hdiff.
        destruct (Z.testbit k d); intros Hdiff.
        + rewrite Hr in Hdiff by apply reach_leaf. discriminate.
        + rewrite Hl in Hdiff by apply reach_leaf. discriminate. }
    destruct Hsep as (_ & _ & _ & Hsepl & Hsepr). cbn [reach branches] in *.
    rewrite (bitof_lookup _ _ _ Hn) in Hdiff. apply NoDup_cons in Hnd as [Hni Hnd].
    apply NoDup_app in Hnd as (Hndl & Hdis & Hndr). rewrite bit_test_testbit by lia.
    cbn [mbind outcome_bind].
    destruct (Z.testbit k (bitNum n)) eqn:Eb.
    + destruct (IHr fuel (bitNum n) (rightN n) i n) as (this' & tn' & ent' & -> & Ht' & Hin & Hs');
        try done; try lia; [set_solver|by unfold side; rewrite Eb|].
      exists this', tn', ent'. split_and!; [done|done|right; set_solver|].
      rewrite decide_False by set_solver. split; [done|].
      assert (Hsl' : shape (grown ns k d es this' tn' ent') (bitNum n) (leftN n) l).
      { apply (shape_grown ns); [done| |done]. set_solver. }
      destruct (decide (this' = i)) as [->|Hne].
      * assert (tn' = n) as -> by congruence. exists (link k (length ns) n).
        rewrite grown_this, link_bit by done.
        destruct (link_right k (length ns) n) as [-> ->]; [lia|done|]. done.
      * exists n. by rewrite (grown_old _ _ _ _ _ _ _ i n).
    + destruct (IHl fuel (bitNum n) (leftN n) i n) as (this' & tn' & ent' & -> & Ht' & Hin & Hs');
        try done; try lia; [set_solver|by unfold side; rewrite Eb|].
      exists this', tn', ent'. split_and!; [done|done|right; set_solver|].
      rewrite decide_False by set_solver. split; [done|].
      assert (Hsr' : shape (grown ns k d es this' tn' ent') (bitNum n) (rightN n) r).
      { apply (shape_grown ns); [done| |done]. set_solver. }
      destruct (decide (this' = i)) as [->|Hne].
      * assert (tn' = n) as -> by congruence. exists (link k (length ns) n).
        rewrite grown_this, link_bit by done.
        destruct (link_left k (length ns) n) as [-> ->]; [lia|done|]. done.
      * exists n. by rewrite (grown_old _ _ _ _ _ _ _ i n).
Qed.

(** ** Tries implement maps *)

(** The keys of a trie fit below its depth; the root has the key 0 and nothing
    else; every other node has one key of the map with its entries. *)
Record represents (depth n : Z) (trie : INT_TRIE V) (t : ptree)
    (m : gmap Z (list (TRIE_ENTRY V))) : Prop := {
  r_root : ∃ rn, nodes trie !! root = Some rn ∧ bitNum rn = depth ∧ key rn = 0 ∧
    buckets rn = [] ∧ rightN rn = root ∧ shape (nodes trie) depth (leftN rn) t;
  r_depth : 0 ≤ depth < 64;
  r_sep : separated (keyof (nodes trie)) (bitof (nodes trie)) t;
  r_leaves : leaves t ≡ₚ seq 0 (length (nodes trie));
  r_branches : branches t ≡ₚ seq 1 (length (nodes trie) - 1);
  r_above : above [root] t;
  r_keys : ∀ i x, nodes trie !! i = Some x → 0 ≤ key x < 2 ^ depth ∧ key x < 2 ^ 32;
  r_map : (λ x, (key x, buckets x)) <$> tail (nodes trie) ≡ₚ map_to_list m;
  r_entries : ∀ k es, m !! k = Some es → es ≠ [] ∧ 0 < k;
  r_count : 0 ≤ count trie ≤ n ∧ (count trie = 0 → m = ∅)
}.

Lemma represents_new depth : 0 ≤ depth < 64 → represents depth 0 (IntTrieNew depth) (Back root) ∅.
Proof.
  intros Hd. split; cbn; try done.
  - eexists. split; [done|]. split_and!; try done. eexists. split; [done|]. cbn. lia.
  - apply list_elem_of_singleton. done.
  - intros [|i] x Hx; [|done]. cbn in Hx. simplify_eq. cbn.
    pose proof (Z.pow_pos_nonneg 2 depth). lia.
Qed.

Lemma map_node depth n trie t m k es :
  represents depth n trie t m →
  m !! k = Some es ↔ ∃ i x, nodes trie !! S i = Some x ∧ key x = k ∧ buckets x = es.
Proof.
  intros H. rewrite <-elem_of_map_to_list, <-(r_map _ _ _ _ _ H), list_elem_of_fmap. split.
  - intros (x & [= -> ->] & (i & Hi)%list_elem_of_lookup). exists i, x.
    rewrite lookup_tail in Hi. done.
  - intros (i & x & Hi & <- & <-). exists x. split; [done|]. apply list_elem_of_lookup. exists i.
    by rewrite lookup_tail.
Qed.

Lemma leaf_node_exists depth n trie t m i :
  represents depth n trie t m → i ∈ leaves t ↔ is_Some (nodes trie !! i).
Proof.
  intros H. rewrite (r_leaves _ _ _ _ _ H), elem_of_seq, lookup_lt_is_Some. lia.
Qed.

(** Searching a key finds its node, or one with another key when the map does not
    have it. *)
Lemma search_ok depth n trie t m k :
  represents depth n trie t m →
  ∃ this x, descend_root trie k (-1) = Ok (this, reach (bitof (nodes trie)) k t) ∧
    nodes trie !! reach (bitof (nodes trie)) k t = Some x ∧
    (if decide (key x = k) then (k = 0 ∧ buckets x = [] ∧ reach (bitof (nodes trie)) k t = root)
                                ∨ m !! k = Some (buckets x)
     else m !! k = None).
Proof.
  intros H. destruct (r_root _ _ _ _ _ H) as (rn & Hr & Hb & Hk0 & Hbk & _ & Hs).
  unfold descend_root. destruct trie as [ns c dup]. cbn [nodes] in *.
  rewrite (node_lookup _ _ _ _ _ Hr). cbn [mbind outcome_bind].
  destruct (descend_reach ns c dup k t (S (Z.to_nat (bitNum rn))) depth (leftN rn) root rn) as [this E];
    [done|done|done|apply (r_depth _ _ _ _ _ H)|lia|].
  set (j := reach (bitof ns) k t) in *.
  assert (is_Some (ns !! j)) as [x Hx] by (apply (leaf_node_exists _ _ _ _ _ _ H), reach_leaf).
  exists this, x. split_and!; [done|done|]. destruct (decide (key x = k)) as [Hk|Hk].
  - destruct (decide (j = root)) as [Hj|Hj].
    + left. assert (x = rn) as -> by congruence. rewrite <-Hk. done.
    + right. apply (map_node _ _ _ _ _ k (buckets x) H). exists (pred j), x.
      unfold root in Hj. replace (S (pred j)) with j by lia. done.
  - destruct (m !! k) as [es|] eqn:Em; [|done].
    apply (map_node _ _ _ _ _ k es H) in Em as (i & y & Hy & Hky & _). cbn [nodes] in Hy.
    assert (Hr' : reach (bitof ns) (keyof ns (S i)) t = S i).
    { apply reach_key; [apply (r_sep _ _ _ _ _ H)|].
      apply (leaf_node_exists _ _ _ _ _ _ H). by exists y. }
    rewrite (keyof_lookup _ _ _ Hy), Hky in Hr'. fold j in Hr'. simplify_eq. congruence.
Qed.

Lemma intTrieGet_ok depth n trie t m k :
  represents depth n trie t m → intTrieGet trie k = Ok (default [] (m !! k)).
Proof.
  intros H. unfold intTrieGet. destruct (Z.eqb_spec (count trie) 0) as [Hc|Hc].
  { apply (r_count _ _ _ _ _ H) in Hc as ->. done. }
  destruct (search_ok depth n trie t m k H) as (this & x & -> & Hx & Hm). cbn.
  unfold node. rewrite Hx. cbn. destruct (Z.eqb_spec (key x) k) as [Hk|Hk].
  - rewrite decide_True in Hm by done. destruct Hm as [(-> & -> & _)| ->]; [|done].
    destruct (m !! 0) eqn:E; [|done]. apply (r_entries _ _ _ _ _ H) in E as []. lia.
  - rewrite decide_False in Hm by done. by rewrite Hm.
Qed.

(** *** Adding *)

(** An entry for a key that is there is chained to its others. *)
Lemma represents_chain depth n ns c dup t m i x e :
  represents depth n (mkTrie ns c dup) t m → n + 1 < 2 ^ 32 →
  ns !! S i = Some x →
  represents depth (n + 1)
    (mkTrie (<[S i := set_buckets (buckets x ++ [e]) x]> ns) (u32 (c + 1)) dup) t
    (<[key x := buckets x ++ [e]]> m).
Proof.
  intros H Hn Hx. pose proof (r_count _ _ _ _ _ H) as Hc. cbn [count nodes] in *.
  set (ns' := <[S i := _]> ns).
  assert (Hkey : m !! key x = Some (buckets x)) by (apply (map_node _ _ _ _ _ _ _ H); eauto).
  assert (Hold : ∀ j y, ns !! j = Some y → ∃ y', ns' !! j = Some y' ∧ bitNum y' = bitNum y ∧
    key y' = key y ∧ leftN y' = leftN y ∧ rightN y' = rightN y).
  { intros j y Hy. destruct (decide (j = S i)) as [->|Hne].
    - assert (y = x) as -> by congruence. eexists. unfold ns'.
      rewrite list_lookup_insert_eq by by eapply lookup_lt_Some. done.
    - exists y. unfold ns'. by rewrite list_lookup_insert_ne. }
  assert (Hkf : ∀ j, keyof ns' j = keyof ns j ∧ bitof ns' j = bitof ns j).
  { intros j. unfold keyof, bitof. destruct (ns !! j) as [y|] eqn:Ey.
    - destruct (Hold j y Ey) as (y' & -> & Hb & Hk & _). cbn. by rewrite Hb, Hk.
    - unfold ns'. apply lookup_ge_None in Ey. rewrite lookup_ge_None_2; [done|].
      by rewrite length_insert. }
  split; cbn [nodes count].
  - destruct (r_root _ _ _ _ _ H) as (rn & Hr & Hb & Hk & Hbk & Hrr & Hs). exists rn.
    unfold ns', root. rewrite list_lookup_insert_ne by done. split_and!; try done.
    apply (shape_frame ns); [| |done]; intros j y; [intros _|]; intros Hy;
      destruct (Hold j y Hy) as (y' & ? & ? & ? & ? & ?); eauto.
  - apply (r_depth _ _ _ _ _ H).
  - apply (separated_ext (bitof ns) (keyof ns)); [by intros; apply Hkf..|apply (r_sep _ _ _ _ _ H)].
  - unfold ns'. rewrite length_insert. apply (r_leaves _ _ _ _ _ H).
  - unfold ns'. rewrite length_insert. apply (r_branches _ _ _ _ _ H).
  - apply (r_above _ _ _ _ _ H).
  - intros j y Hy. unfold ns' in Hy. apply list_lookup_insert_Some in Hy as [(<- & <- & _)|[_ Hy]].
    + apply (r_keys _ _ _ _ _ H (S i) x Hx).
    + apply (r_keys _ _ _ _ _ H j y Hy).
  - destruct ns as [|rn rest]; [done|]. change (tail ns') with (<[i := set_buckets (buckets x ++ [e]) x]> rest).
    destruct (insert_split rest i x (set_buckets (buckets x ++ [e]) x) Hx) as (l1 & l2 & El & _ & ->).
    rewrite <-(insert_delete_eq m), map_to_list_insert by apply lookup_delete_eq.
    pose proof (r_map _ _ _ _ _ H) as Hm. cbn in Hm. rewrite El in Hm.
    rewrite <-(map_to_list_delete m _ _ Hkey) in Hm. rewrite fmap_app in *. cbn in *.
    rewrite <-Permutation_middle in Hm |- *. apply Permutation_cons_inv in Hm. by rewrite Hm.
  - intros k es [[<- <-]|[_ Hes]]%lookup_insert_Some; [|by apply (r_entries _ _ _ _ _ H)].
    split; [by destruct (buckets x)|]. by apply (r_entries _ _ _ _ _ H) in Hkey as [].
  - rewrite u32_small by lia. split; [lia|]. lia.
Qed.

(** A new key gets a new node. *)
Lemma grown_map ns k d es this tn ent :
  ns !! this = Some tn → ns ≠ [] →
  (λ x, (key x, buckets x)) <$> tail (grown ns k d es this tn ent)
  ≡ₚ (k, es) :: ((λ x, (key x, buckets x)) <$> tail ns).
Proof.
  intros Ht Hne. unfold grown.
  assert (E : (λ x, (key x, buckets x)) <$> <[this := link k (length ns) tn]> ns
    = (λ x, (key x, buckets x)) <$> ns).
  { rewrite list_fmap_insert. apply list_insert_id. rewrite list_lookup_fmap, Ht. cbn. f_equal.
    unfold link. by destruct (Z.testbit k (bitNum tn)). }
  destruct (<[this := link k (length ns) tn]> ns) as [|r1 rest1] eqn:E1.
  { apply (f_equal length) in E1. rewrite length_insert in E1. by destruct ns. }
  destruct ns as [|r rest]; [done|]. cbn in E |- *. injection E as _ _ E.
  rewrite fmap_app, E. cbn. unfold leaf_node.
  rewrite Permutation_app_comm. by destruct (Z.testbit k d).
Qed.

Lemma grown_length ns k d es this tn ent :
  length (grown ns k d es this tn ent) = S (length ns).
Proof. unfold grown. rewrite length_app, length_insert. cbn. lia. Qed.

Lemma represents_grow depth n ns c dup t m k d e this tn ent rn :
  represents depth n (mkTrie ns c dup) t m → n + 1 < 2 ^ 32 →
  0 < k < 2 ^ depth → k < 2 ^ 32 → 0 ≤ d → m !! k = None →
  ns !! root = Some rn → ns !! this = Some tn → this = root ∨ this ∈ branches t →
  shape (grown ns k d [e] this tn ent) depth (if decide (this = root) then length ns else leftN rn)
    (ins (bitof ns) k d (length ns) t) →
  Z.testbit (keyof ns (reach (bitof ns) k t)) d = negb (Z.testbit k d) →
  (∀ c, d < c → Z.testbit (keyof ns (reach (bitof ns) k t)) c = Z.testbit k c) →
  represents depth (n + 1) (mkTrie (grown ns k d [e] this tn ent) (u32 (c + 1)) dup)
    (ins (bitof ns) k d (length ns) t) (<[k := [e]]> m).
Proof.
  intros H Hn Hk Hk32 Hd Hm Hr Ht Hthis Hs Hdiff Hagree.
  set (ns' := grown ns k d [e] this tn ent) in *.
  pose proof (r_count _ _ _ _ _ H) as Hc. cbn [count nodes] in *.
  destruct (r_root _ _ _ _ _ H) as (rn' & Hr' & Hb & Hk0 & Hbk & Hrr & _). cbn [nodes] in *.
  assert (rn' = rn) as -> by congruence.
  assert (Hold : ∀ i, is_Some (ns !! i) → keyof ns' i = keyof ns i ∧ bitof ns' i = bitof ns i).
  { intros i [x Hx]. destruct (grown_bit ns k d [e] this tn ent i x Ht Hx) as (x' & Hx' & Eb & Ek).
    unfold keyof, bitof. fold ns' in Hx'. by rewrite Hx, Hx'; cbn; rewrite Eb, Ek. }
  pose proof (r_leaves _ _ _ _ _ H) as Hlv. pose proof (r_branches _ _ _ _ _ H) as Hbr.
  cbn [nodes] in *.
  assert (Hleaf : ∀ i, i ∈ leaves t → is_Some (ns !! i)).
  { intros i. by rewrite (leaf_node_exists _ _ _ _ _ i H). }
  assert (Hbranch : ∀ i, i ∈ branches t → is_Some (ns !! i)).
  { intros i. rewrite Hbr, elem_of_seq, lookup_lt_is_Some. lia. }
  assert (Hnew : ns' !! length ns = Some (leaf_node k d [e] ent (length ns))) by apply grown_new.
  assert (Hnb : length ns ∉ branches t).
  { intros Hi%Hbranch. apply lookup_lt_is_Some in Hi. lia. }
  assert (Hnl : length ns ∉ leaves t).
  { intros Hi%Hleaf. apply lookup_lt_is_Some in Hi. lia. }
  assert (Hbf : ∀ i, i ∈ branches t → bitof ns' i = bitof ns i) by (intros i Hi; by apply Hold, Hbranch).
  split; cbn [nodes count].
  - destruct (decide (this = root)) as [->|Hne].
    + assert (tn = rn) as -> by congruence. exists (link k (length ns) rn). unfold ns'.
      rewrite grown_this, link_bit, link_key by done.
      assert (E : Z.testbit k (bitNum rn) = false).
      { rewrite Hb. apply Z.bits_above_log2; [lia|]. apply Z.log2_lt_pow2; lia. }
      destruct (Z.le_gt_cases 0 (bitNum rn)) as [Hpos|Hneg].
      * destruct (link_left k (length ns) rn Hpos E) as [-> ->]. unfold link.
        rewrite E. done.
      * rewrite <-Hb, Z.pow_neg_r in Hk by done. lia.
    + exists rn. unfold ns'. by rewrite (grown_old _ _ _ _ _ _ _ root rn).
  - apply (r_depth _ _ _ _ _ H).
  - rewrite <-(ins_ext (bitof ns) (bitof ns')) by done.
    apply separated_ins; try done.
    + apply (separated_ext (bitof ns) (keyof ns)); [|done|apply (r_sep _ _ _ _ _ H)].
      intros i Hi. by apply Hold, Hleaf.
    + rewrite (keyof_lookup _ _ _ Hnew). unfold leaf_node. by destruct (Z.testbit k d).
    + rewrite (bitof_lookup _ _ _ Hnew). unfold leaf_node. by destruct (Z.testbit k d).
    + rewrite (reach_ext (bitof ns)) by done.
      by rewrite (proj1 (Hold _ (Hleaf _ (reach_leaf (bitof ns) k t)))).
    + rewrite (reach_ext (bitof ns)) by done.
      by rewrite (proj1 (Hold _ (Hleaf _ (reach_leaf (bitof ns) k t)))).
  - unfold ns'. rewrite leaves_ins, grown_length, Hlv, seq_S. cbn. by rewrite Permutation_cons_append.
  - unfold ns'. rewrite branches_ins, grown_length, Hbr. cbn [Nat.sub]. rewrite Nat.sub_0_r.
    apply lookup_lt_Some in Hr. destruct (length ns) as [|len]; [cbn in Hr; lia|].
    rewrite (seq_S len). cbn. by rewrite Nat.sub_0_r, Permutation_cons_append.
  - apply above_ins, (r_above _ _ _ _ _ H).
  - intros i x Hx. destruct (ns !! i) as [y|] eqn:Ey.
    + destruct (grown_bit ns k d [e] this tn ent i y Ht Ey) as (x' & Hx' & _ & Ek).
      fold ns' in Hx'. assert (x' = x) as -> by congruence. rewrite Ek.
      apply (r_keys _ _ _ _ _ H i y Ey).
    + apply lookup_ge_None in Ey. apply lookup_lt_Some in Hx as Hi. unfold ns' in Hi.
      rewrite grown_length in Hi. assert (i = length ns) as -> by lia.
      assert (x = leaf_node k d [e] ent (length ns)) as -> by congruence.
      unfold leaf_node. destruct (Z.testbit k d); cbn; lia.
  - unfold ns'. rewrite grown_map, map_to_list_insert by (done || by intros ->).
    by rewrite (r_map _ _ _ _ _ H).
  - intros k' es [[<- <-]|[_ Hes]]%lookup_insert_Some; [split; [done|lia]|].
    by apply (r_entries _ _ _ _ _ H).
  - rewrite u32_small by lia. split; [lia|]. lia.
Qed.

Lemma represents_le depth n n' trie t m :
  represents depth n trie t m → n ≤ n' → represents depth n' trie t m.
Proof.
  intros H Hn. destruct H as [? ? ? ? ? ? ? ? ? [Hc Hz]]. split; try done. split; [lia|done].
Qed.

Lemma testbit_above x b : 0 ≤ x < 2 ^ b → Z.testbit x b = false.
Proof.
  intros Hx. destruct (Z.eq_dec x 0) as [->|]; [apply Z.bits_0|].
  assert (0 ≤ b) by (destruct (Z.le_gt_cases 0 b); [done|]; rewrite Z.pow_neg_r in Hx; lia).
  apply Z.bits_above_log2; [lia|]. apply Z.log2_lt_pow2; lia.
Qed.

Lemma intTrieAdd_ok depth n trie t m k e :
  represents depth n trie t m → n + 1 < 2 ^ 32 → 0 < k < 2 ^ depth → k < 2 ^ 32 →
  ∃ trie' t', intTrieAdd trie k e
      = Ok (match m !! k with Some _ => allowDups trie | None => true end, trie') ∧
    allowDups trie' = allowDups trie ∧
    represents depth (n + 1) trie' t'
      (match m !! k with
       | Some es => if allowDups trie then <[k := es ++ [e]]> m else m
       | None => <[k := [e]]> m
       end).
Proof.
  intros H Hn Hk Hk32. pose proof (r_depth _ _ _ _ _ H) as Hdepth.
  destruct (search_ok depth n trie t m k H) as (this0 & x & E & Hx & Hm).
  destruct trie as [ns c dup]. cbn [nodes allowDups] in *. unfold intTrieAdd. rewrite E.
  cbn [mbind outcome_bind]. rewrite (node_lookup _ _ _ _ _ Hx). cbn [mbind outcome_bind].
  set (j := reach (bitof ns) k t) in *.
  destruct (Z.eqb_spec (key x) k) as [Hkx|Hkx].
  - rewrite decide_True in Hm by done. destruct Hm as [(-> & _)|Hm]; [lia|]. rewrite Hm.
    destruct (r_root _ _ _ _ _ H) as (rn & Hr & _ & Hk0 & _).
    destruct j as [|j']; [unfold root in Hr; cbn [nodes] in Hr; simplify_eq; lia|].
    cbn [allowDups]. destruct dup.
    + apply (r_entries _ _ _ _ _ H) in Hm as [Hne _].
      destruct (buckets x) as [|e0 es] eqn:Ebk; [done|].
      do 2 eexists. split; [done|]. split; [done|]. rewrite <-Hkx, <-Ebk.
      by apply (represents_chain depth n).
    + do 2 eexists. split; [done|]. split; [done|]. by apply (represents_le _ n); [|lia].
  - rewrite decide_False in Hm by done. rewrite Hm.
    pose proof (r_keys _ _ _ _ _ H _ _ Hx) as Hkey.
    destruct (differ_leftmost k (key x)) as (d & -> & Hd & Hdiff & Hagree); [lia|lia|done|].
    cbn [mbind outcome_bind].
    destruct (r_root _ _ _ _ _ H) as (rn & Hr & Hb & Hk0 & Hbk & Hrr & Hs). cbn [nodes] in *.
    assert (Hdd : d < depth).
    { destruct (Z.lt_ge_cases d depth) as [|Hge]; [done|]. 
      assert (2 ^ depth ≤ 2 ^ d) by (apply Z.pow_le_mono_r; lia).
      rewrite !testbit_above in Hdiff by lia. done. }
    assert (Hkr : keyof ns j = key x) by by apply keyof_lookup.
    unfold descend_root. rewrite (node_lookup _ _ _ _ _ Hr). cbn [mbind outcome_bind].
    destruct (descend_ins ns c dup k d [e] t (S (Z.to_nat (bitNum rn))) depth (leftN rn) root rn)
      as (this & tn & ent & -> & Htn & Hthis & Hshape); try done.
    { lia. }
    { lia. }
    { lia. }
    { rewrite (r_branches _ _ _ _ _ H). apply NoDup_seq. }
    { rewrite (r_branches _ _ _ _ _ H), elem_of_seq. unfold root. lia. }
    { unfold side. by rewrite Hb, testbit_above by lia. }
    { fold j. by rewrite Hkr. }
    { apply (r_sep _ _ _ _ _ H). }
    cbn [mbind outcome_bind nodes]. rewrite bit_test_testbit by lia. cbn [mbind outcome_bind].
    rewrite (node_lookup _ _ _ _ _ Htn). cbn [mbind outcome_bind].
    assert (Hbt : 0 ≤ bitNum tn < 64).
    { destruct Hthis as [->|Hin]; [assert (tn = rn) as -> by congruence; lia|].
      pose proof (shape_bits _ _ _ _ _ _ Hs Hin Htn). lia. }
    rewrite bit_test_testbit by done. cbn [mbind outcome_bind].
    exists (mkTrie (grown ns k d [e] this tn ent) (u32 (c + 1)) dup),
      (ins (bitof ns) k d (length ns) t). split; [done|].
    split; [done|]. apply (represents_grow depth n ns c dup t m k d e this tn ent rn); try done; try lia.
    + fold j. by rewrite Hkr.
    + fold j. by rewrite Hkr.
Qed.

(** ** Freeing *)

Fixpoint post (t : ptree) : list nat :=
  match t with Back _ => [] | Branch i l r => post l ++ post r ++ [i] end.
Lemma post_branches t : post t ≡ₚ branches t.
Proof.
  induction t as [i|i l IHl r IHr]; [done|]. cbn. rewrite IHl, IHr.
  rewrite app_assoc, Permutation_app_comm. done.
Qed.

Definition freed_at ns (i : nat) : list (option V) :=
  from_option (λ n, buckets n ≫= entry_freed) [] (ns !! i).

(** Visiting a pointer releases the nodes of its tree, children first; everything
    above them is still there. *)
Lemma free_visit ns c dup t : ∀ fuel b p gone fr up,
  shape ns b p t → NoDup (branches t) → above up t →
  (∀ i, i ∈ up → (i ∉ gone) ∧ (i ∉ branches t)) → (∀ i, i ∈ branches t → i ∉ gone) →
  (Z.to_nat b ≤ fuel)%nat →
  ∃ n, live_node (mkTrie ns c dup) gone p = Ok n ∧
    (if bitNum n <? b then freeIntNode fuel (mkTrie ns c dup) p (gone, fr) else Ok (gone, fr))
    = Ok (gone ++ post t, fr ++ (post t ≫= freed_at ns)).
Proof.
  induction t as [i|i l IHl r IHr]; intros fuel b p gone fr up Hs Hnd Hup Hfree Hbr Hf.
  - destruct Hs as (-> & n & Hn & Hle). exists n. unfold live_node.
    rewrite decide_False by by apply Hfree.
    rewrite (node_lookup _ _ _ _ _ Hn). split; [done|].
    destruct (Z.ltb_spec (bitNum n) b); [lia|]. cbn. by rewrite !app_nil_r.
  - destruct Hs as (-> & n & Hn & Hlt & Hsl & Hsr). destruct Hup as [Hul Hur].
    cbn [branches] in *. apply NoDup_cons in Hnd as [Hni Hnd].
    apply NoDup_app in Hnd as (Hndl & Hdis & Hndr).
    assert (Hlive : ∀ g, i ∉ g → live_node (mkTrie ns c dup) g i = Ok n).
    { intros g Hg. unfold live_node. by rewrite decide_False, (node_lookup _ _ _ _ _ Hn). }
    exists n. split; [apply Hlive, Hbr; left|].
    destruct (Z.ltb_spec (bitNum n) b); [|lia]. destruct fuel as [|fuel]; [lia|].
    cbn [freeIntNode fst snd]. rewrite Hlive by (apply Hbr; left). cbn [mbind outcome_bind].
    destruct (IHl fuel (bitNum n) (leftN n) gone fr (i :: up)) as (nl & -> & El);
      [done|done|done| |set_solver|lia|].
    { intros j [->|Hj]%elem_of_cons; [set_solver|]. destruct (Hfree j Hj). set_solver. }
    cbn [mbind outcome_bind]. rewrite El. cbn [mbind outcome_bind fst snd].
    assert (Hi : i ∉ gone ++ post l).
    { rewrite elem_of_app, post_branches. set_solver. }
    rewrite Hlive by done. cbn [mbind outcome_bind].
    destruct (IHr fuel (bitNum n) (rightN n) (gone ++ post l) (fr ++ (post l ≫= freed_at ns)) (i :: up))
      as (nr & -> & Er); [done|done|done| | |lia|].
    { intros j. rewrite elem_of_app, post_branches.
      intros [->|Hj]%elem_of_cons; [set_solver|]. destruct (Hfree j Hj). set_solver. }
    { intros j Hj. rewrite elem_of_app, post_branches. set_solver. }
    cbn [mbind outcome_bind]. rewrite Er. cbn [mbind outcome_bind fst snd].
    rewrite Hlive by (rewrite !elem_of_app, !post_branches; set_solver).
    cbn [mbind outcome_bind post]. do 2 f_equal.
    + by rewrite !app_assoc.
    + rewrite !bind_app, !app_assoc. f_equal. cbn. unfold freed_at. by rewrite Hn, app_nil_r.
Qed.

(** What the entries of a map release. *)
Definition releases (m : gmap Z (list (TRIE_ENTRY V))) : list (option V) :=
  map_to_list m ≫= (λ b, b.2 ≫= entry_freed).

Lemma bind_lookup_seq {A B} (f : A → list B) (l : list A) :
  (seq 0 (length l) ≫= λ i, from_option f [] (l !! i)) = l ≫= f.
Proof.
  induction l as [|x l IH]; [done|]. cbn [length seq]. cbn. f_equal. rewrite <-IH, <-fmap_S_seq.
  by rewrite list_fmap_bind.
Qed.

Lemma intTrieFree_ok depth n trie t m :
  represents depth n trie t m →
  ∃ gone freed, intTrieFree trie = Ok (gone, freed) ∧
    gone ≡ₚ seq 0 (length (nodes trie)) ∧ freed ≡ₚ releases m.
Proof.
  intros H. destruct trie as [ns c dup].
  destruct (r_root _ _ _ _ _ H) as (rn & Hr & Hb & _ & Hbk & Hrr & Hs). cbn [nodes] in *.
  pose proof (r_branches _ _ _ _ _ H) as Hbr. cbn [nodes] in Hbr.
  destruct ns as [|r0 rest]; [done|]. cbn in Hr. simplify_eq. cbn [length] in Hbr.
  rewrite Nat.sub_succ, Nat.sub_0_r in Hbr.
  assert (Hroot : ∀ g, root ∉ g → live_node (mkTrie (rn :: rest) c dup) g root = Ok rn).
  { intros g Hg. unfold live_node. by rewrite decide_False. }
  assert (Hn0 : root ∉ post t).
  { rewrite post_branches, Hbr, elem_of_seq. unfold root. lia. }
  unfold intTrieFree. rewrite (node_lookup (rn :: rest) _ _ _ rn) by done.
  cbn [mbind outcome_bind freeIntNode fst snd].
  rewrite Hroot by by intros ?%not_elem_of_nil. cbn [mbind outcome_bind].
  destruct (free_visit (rn :: rest) c dup t (Z.to_nat (bitNum rn)) (bitNum rn) (leftN rn) [] [] [root])
    as (nl & -> & El).
  { done. }
  { rewrite Hbr. apply NoDup_seq. }
  { apply (r_above _ _ _ _ _ H). }
  { intros i ->%list_elem_of_singleton. rewrite <-post_branches. split; [apply not_elem_of_nil|done]. }
  { intros i _. apply not_elem_of_nil. }
  { lia. }
  cbn [mbind outcome_bind]. rewrite El. cbn [mbind outcome_bind fst snd app].
  rewrite Hroot by done. cbn [mbind outcome_bind]. rewrite Hrr, Hroot by done.
  cbn [mbind outcome_bind]. rewrite Z.ltb_irrefl. cbn [mbind outcome_bind fst snd].
  rewrite Hroot by done. cbn [mbind outcome_bind]. rewrite Hbk.
  do 2 eexists. split; [done|]. split.
  - rewrite post_branches, Hbr, Permutation_app_comm. done.
  - cbn. rewrite app_nil_r, post_branches, Hbr. unfold releases.
    rewrite <-(r_map _ _ _ _ _ H), list_fmap_bind. cbn [nodes tail].
    rewrite <-(bind_lookup_seq _ rest), <-fmap_S_seq, list_fmap_bind. done.
Qed.
End memory.

(** ** Requests to a trie, and the map that answers them *)
Section requests.
Context {V : Type}.

Inductive trequest : Type :=
| TAdd (k : Z) (e : TRIE_ENTRY V)
| TGet (k : Z)
| TDel (k : Z).
Inductive treply : Type :=
| Added (b : bool)
| Entries (es : list (TRIE_ENTRY V))
| Deleted (b : bool).

Definition tserve (q : trequest) (trie : INT_TRIE V) : outcome (treply * INT_TRIE V) :=
  match q with
  | TAdd k e => '(b, trie) ← intTrieAdd trie k e; Ok (Added b, trie)
  | TGet k => es ← intTrieGet trie k; Ok (Entries es, trie)
  | TDel k => Ok (Deleted (intTrieDel trie k), trie)
  end.
Fixpoint tserve_all (qs : list trequest) (trie : INT_TRIE V)
    : outcome (list treply * INT_TRIE V) :=
  match qs with
  | [] => Ok ([], trie)
  | q :: qs => '(r, trie) ← tserve q trie; '(rs, trie) ← tserve_all qs trie; Ok (r :: rs, trie)
  end.

Definition tanswer (dups : bool) (q : trequest) (m : gmap Z (list (TRIE_ENTRY V)))
    : treply * gmap Z (list (TRIE_ENTRY V)) :=
  match q with
  | TAdd k e =>
      match m !! k with
      | Some es => if dups then (Added true, <[k := es ++ [e]]> m) else (Added false, m)
      | None => (Added true, <[k := [e]]> m)
      end
  | TGet k => (Entries (default [] (m !! k)), m)
  | TDel k => (Deleted false, m)
  end.
Fixpoint tanswers (dups : bool) (qs : list trequest) (m : gmap Z (list (TRIE_ENTRY V)))
    : list treply * gmap Z (list (TRIE_ENTRY V)) :=
  match qs with
  | [] => ([], m)
  | q :: qs =>
      let '(r, m) := tanswer dups q m in
      let '(rs, m) := tanswers dups qs m in
      (r :: rs, m)
  end.

(** Keys that may be added: above zero and below the depth of the trie. *)
Definition key_fits (depth : Z) (q : trequest) : Prop :=
  match q with TAdd k _ => 0 < k < 2 ^ depth ∧ k < 2 ^ 32 | _ => True end.

(** A trie whose owner has set [allowDups]. *)
Definition with_dups (dups : bool) (trie : INT_TRIE V) : INT_TRIE V :=
  mkTrie (nodes trie) (count trie) dups.

Lemma tserve_ok depth n trie t m q :
  represents depth n trie t m → n + 1 < 2 ^ 32 → key_fits depth q →
  ∃ trie' t', tserve q trie = Ok ((tanswer (allowDups trie) q m).1, trie') ∧
    allowDups trie' = allowDups trie ∧
    represents depth (n + 1) trie' t' (tanswer (allowDups trie) q m).2.
Proof.
  intros H Hn Hk. assert (H1 : represents depth (n + 1) trie t m)
    by (apply (represents_le _ n); [done|lia]).
  destruct q as [k e|k|k]; cbn [tserve tanswer].
  - destruct Hk as [Hk Hk32].
    destruct (intTrieAdd_ok depth n trie t m k e H Hn Hk Hk32) as (trie' & t' & -> & Hd & Hr).
    exists trie', t'. by destruct (m !! k), (allowDups trie).
  - rewrite (intTrieGet_ok _ _ _ _ _ k H). by exists trie, t.
  - by exists trie, t.
Qed.

Lemma tserve_all_ok depth qs : ∀ n trie t m,
  represents depth n trie t m → Forall (key_fits depth) qs → n + Z.of_nat (length qs) < 2 ^ 32 →
  ∃ trie' t', tserve_all qs trie = Ok ((tanswers (allowDups trie) qs m).1, trie') ∧
    represents depth (n + Z.of_nat (length qs)) trie' t' (tanswers (allowDups trie) qs m).2.
Proof.
  induction qs as [|q qs IH]; intros n trie t m H Hk Hn; cbn [length] in *.
  { exists trie, t. by rewrite Z.add_0_r. }
  apply Forall_cons in Hk as [Hq Hqs].
  destruct (tserve_ok depth n trie t m q H) as (t1 & p1 & E1 & Hd1 & H1); [lia|done|].
  destruct (IH (n + 1) t1 p1 _ H1 Hqs) as (t2 & p2 & E2 & H2); [lia|].
  exists t2, p2. cbn [tserve_all tanswers]. rewrite E1. cbn [mbind outcome_bind]. rewrite E2.
  rewrite Hd1 in *. destruct (tanswer (allowDups trie) q m) as [r m1]. cbn [fst snd] in *.
  destruct (tanswers (allowDups trie) qs m1) as [rs m2]. cbn [mbind outcome_bind fst snd] in *.
  split; [done|]. by replace (n + Z.of_nat (S (length qs))) with (n + 1 + Z.of_nat (length qs)) by lia.
Qed.
End requests.
Arguments trequest : clear implicits.

(** C18: tries implement maps. On a new trie of up to 63 bits, with or without
    duplicate keys, every sequence of requests whose added keys are not zero and
    fit the depth is answered by a finite map: adding a new key succeeds, adding
    one that is there is refused or puts the entry behind the others, getting finds
    the entries of the key in the order in which they were added, deleting does
    nothing. Freeing the trie afterwards never touches a node that was already
    released, releases every node exactly once, and calls the free functions on
    the data of all the entries. *)
Theorem IntTrie_map V depth dups (qs : list (trequest V)) :
  0 ≤ depth < 64 → Forall (key_fits depth) qs → Z.of_nat (length qs) < 2 ^ 32 →
  ∃ trie gone freed,
    tserve_all qs (with_dups dups (IntTrieNew depth)) = Ok ((tanswers dups qs ∅).1, trie) ∧
    intTrieFree trie = Ok (gone, freed) ∧ gone ≡ₚ seq 0 (length (nodes trie)) ∧
    freed ≡ₚ releases (tanswers dups qs ∅).2.
Proof.
  intros Hd Hk Hn. pose proof (@represents_new V depth Hd) as H0.
  assert (H : represents depth 0 (with_dups dups (IntTrieNew depth)) (Back root) (∅ : gmap Z (list (TRIE_ENTRY V))))
    by by destruct H0.
  destruct (tserve_all_ok depth qs 0 _ _ _ H Hk) as (trie & t & E & Hr); [lia|].
  destruct (intTrieFree_ok _ _ _ _ _ Hr) as (gone & freed & Ef & Hg & Hf).
  exists trie, gone, freed. done.
Qed.

Definition sample_trequests : list (trequest nat) :=
  [TAdd 12 (IntEntry 1 false); TAdd 9 (PtrEntry (Some 7%nat) true); TAdd 12 (IntEntry 2 false);
   TGet 12; TGet 8; TDel 9; TGet 9].

Lemma IntTrie_map_witness :
  ∃ trie gone freed,
    tserve_all sample_trequests (with_dups true (IntTrieNew 15))
      = Ok ([Added true; Added true; Added true; Entries [IntEntry 1 false; IntEntry 2 false];
             Entries []; Deleted false; Entries [PtrEntry (Some 7%nat) true]], trie) ∧
    intTrieFree trie = Ok (gone, freed) ∧ gone ≡ₚ seq 0 (length (nodes trie)) ∧
    freed ≡ₚ [Some 7%nat].
Proof.
  destruct (IntTrie_map nat 15 true sample_trequests) as (trie & gone & freed & E & Ef & Hg & Hf);
    [lia| |vm_compute; reflexivity|].
  - repeat (apply Forall_cons; split); try apply Forall_nil; cbn; lia || done.
  - exists trie, gone, freed. split_and!; [|done|done|].
    + rewrite E. vm_compute. reflexivity.
    + rewrite Hf. vm_compute. reflexivity.
Defined.

(** The key zero does not work in a trie. The root already has it, without
    entries: on a new trie of any depth, adding an entry for zero is refused, and
    when duplicate keys are allowed it dereferences a null pointer. *)
Theorem intTrieAdd_zero V depth (e : TRIE_ENTRY V) :
  intTrieAdd (with_dups false (IntTrieNew depth)) 0 e
    = Ok (false, with_dups false (IntTrieNew depth)) ∧
  intTrieAdd (with_dups true (IntTrieNew depth)) 0 e = Undef NullDeref.
Proof.
  split; unfold intTrieAdd, descend_root; cbn; by rewrite Z.ltb_irrefl.
Qed.
