(* ===== verification/Bitset.v ===== *)
(** The bit sets of src/antlr/libantlr3c-3.4/src/antlr3bitset.c. *)
From Stdlib Require Import Sorted.
From S2P Require Import Prelude HashTable.

(** A set is its words of 64 bits; the length of the array is their number. *)
Abbreviation BITSET := (list Z).

Definition ANTLR3_BITSET_BITS : Z := 64.
Definition wordNumber (bit : Z) : Z := Z.shiftr (u32 bit) 6.
Definition bitMask (bit : Z) : Z := Z.shiftl 1 (Z.land (u32 bit) 63).
Definition numWordsToHold (bit : Z) : Z := Z.shiftr (u32 bit) 6 + 1.

(** [antlr3BitsetNew]; there is room for eight words at least. *)
Definition BitsetNewBits (numBits : Z) : BITSET :=
  let numBits := if numBits <? 8 * ANTLR3_BITSET_BITS then 8 * ANTLR3_BITSET_BITS else numBits in
  replicate (Z.to_nat (Z.shiftr (numBits - 1) 6 + 1)) 0.
Definition BitsetNew : BITSET := BitsetNewBits 0.

(** [grow] *)
Definition grow (bits : BITSET) (newSize : nat) : BITSET :=
  bits ++ replicate (newSize - length bits) 0.

(** [growToInclude] *)
Definition growToInclude (bits : BITSET) (bit : Z) : BITSET :=
  let bl := u32 (Z.shiftl (Z.of_nat (length bits)) 1) in
  let nw := numWordsToHold bit in
  if nw <? bl then grow bits (Z.to_nat bl) else grow bits (Z.to_nat nw).

(** [antlr3BitsetLoad] copies the words of a set of the generated code. *)
Definition BitsetLoad (inBits : list Z) : BITSET :=
  let b := if (length BitsetNew <? length inBits)%nat
           then grow BitsetNew (length inBits) else BitsetNew in
  inBits ++ drop (length inBits) b.

(** [antlr3BitsetCopy] copies eight words at least, also from a shorter set. *)
Definition BitsetCopy (blist : list Z) : outcome BITSET :=
  let numElements := if (length blist <? 8)%nat then 8%nat else length blist in
  if (length blist <? numElements)%nat then Undef BadIndex else Ok (take numElements blist).

(** [antlr3BitsetClone] *)
Definition BitsetClone (inSet : BITSET) : BITSET :=
  let b := BitsetNewBits (ANTLR3_BITSET_BITS * Z.of_nat (length inSet)) in
  inSet ++ drop (length inSet) b.

(** [antlr3BitsetAdd] *)
Definition BitsetAdd (bits : BITSET) (bit : Z) : outcome BITSET :=
  let word := wordNumber bit in
  let bits := if Z.of_nat (length bits) <=? word then growToInclude bits bit else bits in
  w ← index bits word;
  Ok (<[Z.to_nat word := Z.lor w (bitMask bit)]> bits).

(** [antlr3BitsetOf], without the -1 that ends its arguments. *)
Fixpoint bitset_add_all (bits : BITSET) (l : list Z) : outcome BITSET :=
  match l with
  | [] => Ok bits
  | bit :: l => bits ← BitsetAdd bits bit; bitset_add_all bits l
  end.
Definition BitsetOf (l : list Z) : outcome BITSET := bitset_add_all BitsetNew l.

(** [antlr3BitsetList] adds what it enumerates to a set and returns null. *)
Definition BitsetList (fuel : nat) (list : HASH_TABLE Z) : outcome (option BITSET) :=
  en ← EnumNew list;
  l ← enum_all fuel en;
  _ ← bitset_add_all BitsetNew ((λ e, u32 (default 0 e.2)) <$> l);
  Ok None.

(** [antlr3BitsetORInPlace] *)
Fixpoint or_words (a b : BITSET) : BITSET :=
  match a, b with
  | x :: a, y :: b => Z.lor x y :: or_words a b
  | a, _ => a
  end.
Definition BitsetORInPlace (a b : BITSET) : BITSET :=
  let a := if (length a <? length b)%nat
           then growToInclude a (Z.of_nat (length b) * 8) else a in
  or_words a b.

(** [antlr3BitsetOR]; either set may be null. *)
Definition BitsetOR (a b : option BITSET) : outcome BITSET :=
  match a, b with
  | None, b => BitsetClone <$> deref b
  | Some a, None => Ok (BitsetClone a)
  | Some a, Some b => Ok (BitsetORInPlace (BitsetClone a) b)
  end.

(** [antlr3BitsetMember] *)
Definition BitsetMember (bits : BITSET) (bit : Z) : bool :=
  match bits !! Z.to_nat (wordNumber bit) with
  | None => false
  | Some w => negb (Z.land w (bitMask bit) =? 0)
  end.

(** [antlr3BitsetRemove] *)
Definition BitsetRemove (bits : BITSET) (bit : Z) : BITSET :=
  match bits !! Z.to_nat (wordNumber bit) with
  | None => bits
  | Some w => <[Z.to_nat (wordNumber bit) := Z.land w (Z.lnot (bitMask bit))]> bits
  end.

(** [antlr3BitsetNumBits] *)
Definition BitsetNumBits (bits : BITSET) : Z := u32 (Z.shiftl (Z.of_nat (length bits)) 6).

(** [antlr3BitsetSize]: the bits of a word from the highest down, and the words. *)
Fixpoint word_size (n : nat) (w : Z) : Z :=
  match n with
  | O => 0
  | S n => (if Z.land w (Z.shiftl 1 (Z.of_nat n)) =? 0 then 0 else 1) + word_size n w
  end.
Fixpoint words_size (bits : BITSET) : Z :=
  match bits with
  | [] => 0
  | w :: bits => words_size bits + (if w =? 0 then 0 else word_size 64 w)
  end.
Definition BitsetSize (bits : BITSET) : Z := u32 (words_size bits).

(** [antlr3BitsetIsNil] *)
Definition BitsetIsNil (bits : BITSET) : bool := forallb (λ w, w =? 0) bits.

(** [antlr3BitsetEquals]: the words both have, then those of the longer set. *)
Fixpoint BitsetEquals (a b : BITSET) : bool :=
  match a, b with
  | x :: a, y :: b => (x =? y) && BitsetEquals a b
  | a, [] => BitsetIsNil a
  | [], b => BitsetIsNil b
  end.

(** [antlr3BitsetToIntList]; the first entry counts itself too. *)
Definition BitsetToIntList (bits : BITSET) : list Z :=
  (BitsetSize bits + 1)
  :: filter (λ i, BitsetMember bits i = true) (seqZ 0 (BitsetNumBits bits)).

(** ** Sets of numbers *)

(** Words have 64 bits, and the number of bits fits in 32. *)
Definition words_ok (bits : BITSET) : Prop :=
  Forall (λ w, 0 ≤ w < 2 ^ 64) bits ∧ (0 < length bits)%nat ∧ Z.of_nat (length bits) < 2 ^ 26.

Lemma wordNumber_div n : 0 ≤ n < 2 ^ 32 → wordNumber n = n / 64.
Proof. intros Hn. unfold wordNumber. by rewrite u32_small, Z.shiftr_div_pow2 by lia. Qed.
Lemma bitMask_pow2 n : 0 ≤ n < 2 ^ 32 → bitMask n = 2 ^ (n mod 64).
Proof.
  intros Hn. unfold bitMask. rewrite u32_small by lia. change 63 with (Z.ones 6).
  rewrite Z.land_ones by lia. change (2 ^ 6) with 64. pose proof (Z.mod_pos_bound n 64).
  by rewrite Z.shiftl_mul_pow2, Z.mul_1_l by lia.
Qed.

Lemma member_testbit bits n :
  0 ≤ n < 2 ^ 32 →
  BitsetMember bits n
  = from_option (λ w, Z.testbit w (n mod 64)) false (bits !! Z.to_nat (n / 64)).
Proof.
  intros Hn. unfold BitsetMember. rewrite wordNumber_div, bitMask_pow2 by done.
  destruct (bits !! Z.to_nat (n / 64)) as [w|]; [|done]. cbn. apply land_pow2_testbit.
  apply Z.mod_pos_bound. lia.
Qed.

(** Two numbers are in the same word and at the same bit only if they are equal. *)
Lemma same_place n z :
  0 ≤ n → 0 ≤ z → Z.to_nat (n / 64) = Z.to_nat (z / 64) → n mod 64 = z mod 64 → n = z.
Proof.
  intros Hn Hz Hd Hm. assert (n / 64 = z / 64).
  { apply Z2Nat.inj; [apply Z.div_pos; lia..|done]. }
  rewrite (Z.div_mod n 64), (Z.div_mod z 64) by lia. lia.
Qed.

Lemma member_grow bits k n : 0 ≤ n < 2 ^ 32 → BitsetMember (grow bits k) n = BitsetMember bits n.
Proof.
  intros Hn. rewrite !member_testbit by done. unfold grow.
  destruct (bits !! Z.to_nat (n / 64)) as [w|] eqn:E.
  - by rewrite (lookup_app_l_Some _ _ _ _ E).
  - apply lookup_ge_None in E. rewrite lookup_app_r by done. cbn.
    destruct (replicate _ 0 !! _) as [w|] eqn:Er; [|done].
    apply lookup_replicate_1 in Er as [-> _]. apply Z.testbit_0_l.
Qed.
Lemma length_grow bits k : length (grow bits k) = Nat.max (length bits) k.
Proof. unfold grow. rewrite length_app, length_replicate. lia. Qed.
Lemma words_grow bits k : Forall (λ w, 0 ≤ w < 2 ^ 64) bits → Forall (λ w, 0 ≤ w < 2 ^ 64) (grow bits k).
Proof. intros H. apply Forall_app_2; [done|]. apply Forall_replicate. lia. Qed.

(** The size of a set that grows to have room for a number: twice its size, or
    just enough for the number. *)
Lemma growToInclude_spec bits n :
  (0 < length bits)%nat → Z.of_nat (length bits) < 2 ^ 31 → 0 ≤ n < 2 ^ 32 →
  growToInclude bits n = grow bits (Nat.max (2 * length bits) (S (Z.to_nat (n / 64)))).
Proof.
  intros H0 Hl Hn. unfold growToInclude, numWordsToHold.
  rewrite (u32_small n), Z.shiftr_div_pow2, Z.shiftl_mul_pow2, u32_small by lia.
  change (2 ^ 6) with 64. pose proof (Z.div_pos n 64).
  destruct (Z.ltb_spec (n / 64 + 1) (Z.of_nat (length bits) * 2 ^ 1)); f_equal; lia.
Qed.

Lemma lor_word w n : 0 ≤ w < 2 ^ 64 → 0 ≤ Z.lor w (2 ^ (n mod 64)) < 2 ^ 64.
Proof.
  intros Hw. pose proof (Z.mod_pos_bound n 64 ltac:(lia)).
  assert (0 < 2 ^ (n mod 64)) by (apply Z.pow_pos_nonneg; lia).
  split; [apply Z.lor_nonneg; lia|].
  assert (Z.log2 (Z.lor w (2 ^ (n mod 64))) < 64).
  { rewrite Z.log2_lor, Z.log2_pow2 by lia. apply Z.max_lub_lt; [|lia].
    destruct (Z.eq_dec w 0) as [->|]; [cbn; lia|]. apply Z.log2_lt_pow2; lia. }
  destruct (Z.eq_dec (Z.lor w (2 ^ (n mod 64))) 0) as [->|]; [lia|].
  apply Z.log2_lt_pow2; [|done]. assert (0 ≤ Z.lor w (2 ^ (n mod 64))) by (apply Z.lor_nonneg; lia). lia.
Qed.

(** Adding a number. *)
Lemma BitsetAdd_ok bits n :
  words_ok bits → 0 ≤ n < 2 ^ 31 →
  ∃ bits', BitsetAdd bits n = Ok bits' ∧ words_ok bits' ∧
    ∀ z, 0 ≤ z < 2 ^ 32 → BitsetMember bits' z = (z =? n) || BitsetMember bits z.
Proof.
  intros (Hw & H0 & Hl) Hn. unfold BitsetAdd. rewrite wordNumber_div, bitMask_pow2 by lia.
  assert (Hd : 0 ≤ n / 64 < 2 ^ 25).
  { split; [apply Z.div_pos; lia|]. apply Z.div_lt_upper_bound; lia. }
  set (b := if Z.of_nat (length bits) <=? n / 64 then growToInclude bits n else bits).
  assert (Hb : Forall (λ w, 0 ≤ w < 2 ^ 64) b ∧ (Z.to_nat (n / 64) < length b)%nat ∧
    Z.of_nat (length b) < 2 ^ 26 ∧ (∀ z, 0 ≤ z < 2 ^ 32 → BitsetMember b z = BitsetMember bits z)).
  { unfold b. destruct (Z.leb_spec (Z.of_nat (length bits)) (n / 64)).
    - rewrite growToInclude_spec by lia. rewrite length_grow. split_and!; [by apply words_grow|lia|lia|].
      intros z Hz. by apply member_grow.
    - split_and!; [done|lia|lia|done]. }
  destruct Hb as (Hwb & Hlt & Hlb & Hmem).
  destruct (lookup_lt_is_Some_2 b _ Hlt) as [w Ew].
  rewrite (index_lookup b _ w) by (done || lia). cbn [mbind outcome_bind].
  eexists. split; [done|]. split.
  - split; [|rewrite length_insert; lia]. apply Forall_insert; [done|]. apply lor_word.
    by apply (Forall_lookup_1 _ _ _ _ Hwb Ew).
  - intros z Hz. rewrite <-Hmem by done. rewrite !member_testbit by done.
    pose proof (Z.mod_pos_bound n 64 ltac:(lia)). pose proof (Z.mod_pos_bound z 64 ltac:(lia)).
    destruct (decide (Z.to_nat (n / 64) = Z.to_nat (z / 64))) as [E|E].
    + rewrite <-E, list_lookup_insert_eq, Ew by done. cbn.
      rewrite Z.lor_spec, Z.pow2_bits_eqb by lia. rewrite orb_comm. f_equal.
      destruct (Z.eqb_spec z n) as [->|Hne]; [apply Z.eqb_refl|]. apply Z.eqb_neq. intros Hm.
      destruct Hne. symmetry. apply same_place; lia || done.
    + rewrite list_lookup_insert_ne by done. destruct (Z.eqb_spec z n) as [->|]; done.
Qed.

Lemma BitsetRemove_ok bits n z :
  0 ≤ n < 2 ^ 32 → 0 ≤ z < 2 ^ 32 →
  BitsetMember (BitsetRemove bits n) z = negb (z =? n) && BitsetMember bits z.
Proof.
  intros Hn Hz. unfold BitsetRemove. rewrite wordNumber_div, bitMask_pow2 by done.
  rewrite !member_testbit by done.
  pose proof (Z.mod_pos_bound n 64 ltac:(lia)). pose proof (Z.mod_pos_bound z 64 ltac:(lia)).
  destruct (bits !! Z.to_nat (n / 64)) as [w|] eqn:Ew.
  - destruct (decide (Z.to_nat (n / 64) = Z.to_nat (z / 64))) as [E|E].
    + rewrite <-E, list_lookup_insert_eq, Ew by by eapply lookup_lt_Some. cbn.
      rewrite Z.land_spec, Z.lnot_spec, Z.pow2_bits_eqb, andb_comm by lia. do 2 f_equal.
      destruct (Z.eqb_spec z n) as [->|Hne]; [apply Z.eqb_refl|]. apply Z.eqb_neq. intros Hm.
      destruct Hne. symmetry. apply same_place; lia || done.
    + rewrite list_lookup_insert_ne by done. by destruct (Z.eqb_spec z n) as [->|].
  - destruct (Z.eqb_spec z n) as [->|]; [by rewrite Ew|done].
Qed.

(** *** Union *)

Lemma lookup_or_words a b i :
  or_words a b !! i = match a !! i with
                      | Some x => Some (Z.lor x (default 0 (b !! i)))
                      | None => None
                      end.
Proof.
  revert b i. induction a as [|x a IH]; intros b i; [by destruct b|].
  destruct b as [|y b]; [|by destruct i; [|exact (IH b i)]].
  rewrite lookup_nil. cbn [default or_words from_option]. destruct ((x :: a) !! i); [by rewrite Z.lor_0_r|done].
Qed.

(** The number of words that a set has after another was or-ed into it, which may
    be fewer than the other has. *)
Definition or_length (a b : BITSET) : nat :=
  if (length a <? length b)%nat then Nat.max (2 * length a) (S (length b / 8)) else length a.

Lemma BitsetORInPlace_member a b z :
  words_ok a → words_ok b → 0 ≤ z < 2 ^ 32 →
  BitsetMember (BitsetORInPlace a b) z
  = BitsetMember a z || (BitsetMember b z && bool_decide (Z.to_nat (z / 64) < or_length a b)%nat).
Proof.
  intros (Ha & Ha0 & Hal) (Hb & Hb0 & Hbl) Hz. unfold BitsetORInPlace.
  set (a' := if (length a <? length b)%nat then _ else a).
  assert (Ha' : length a' = or_length a b ∧ BitsetMember a' z = BitsetMember a z).
  { unfold a', or_length. destruct (Nat.ltb_spec (length a) (length b)); [|done].
    rewrite growToInclude_spec, length_grow, member_grow by lia. split; [|done].
    replace (Z.of_nat (length b) * 8 / 64) with (Z.of_nat (length b / 8)); [lia|].
    rewrite Nat2Z.inj_div. change 64 with (8 * 8). by rewrite Z.div_mul_cancel_r. }
  destruct Ha' as [Hlen <-]. rewrite !member_testbit, lookup_or_words by done.
  destruct (a' !! Z.to_nat (z / 64)) as [x|] eqn:Ex; cbn.
  - rewrite bool_decide_true, andb_true_r by (rewrite <-Hlen; by eapply lookup_lt_Some).
    rewrite Z.lor_spec. f_equal. destruct (b !! Z.to_nat (z / 64)); [done|apply Z.testbit_0_l].
  - apply lookup_ge_None in Ex. rewrite bool_decide_false by (rewrite <-Hlen; lia).
    by rewrite andb_false_r.
Qed.

(** *** Counting *)

Definition members (bits : BITSET) (l : list Z) : list Z :=
  filter (λ i, BitsetMember bits i = true) l.

Lemma word_size_filter n w :
  word_size n w = Z.of_nat (length (filter (λ i, Z.testbit w i = true) (seqZ 0 (Z.of_nat n)))).
Proof.
  induction n as [|n IH]; [done|]. cbn [word_size]. rewrite IH.
  rewrite Nat2Z.inj_succ, <-Z.add_1_r, seqZ_app, filter_app, length_app by lia.
  rewrite Z.shiftl_mul_pow2, Z.mul_1_l by lia. cbn [seqZ]. change (seqZ (0 + Z.of_nat n) 1) with [0 + Z.of_nat n].
  rewrite Z.add_0_l, filter_cons. pose proof (land_pow2_testbit w (Z.of_nat n) ltac:(lia)) as Ht.
  destruct (Z.land w (2 ^ Z.of_nat n) =? 0); cbn [negb] in Ht.
  - rewrite decide_False by congruence. cbn. lia.
  - rewrite decide_True by done. cbn. lia.
Qed.

Lemma members_cons w bits :
  Z.of_nat (S (length bits)) < 2 ^ 26 →
  length (members (w :: bits) (seqZ 0 (64 * Z.of_nat (S (length bits)))))
  = (length (filter (λ i, Z.testbit w i = true) (seqZ 0 64))
     + length (members bits (seqZ 0 (64 * Z.of_nat (length bits)))))%nat.
Proof.
  intros Hl. replace (64 * Z.of_nat (S (length bits))) with (64 + 64 * Z.of_nat (length bits)) by lia.
  unfold members. rewrite seqZ_app, filter_app, length_app by lia. f_equal.
  - rewrite <-(list_fmap_id (seqZ 0 64)) at 1. apply length_filter_map.
    intros z (Hz1 & Hz2)%elem_of_seqZ. cbn [id]. rewrite member_testbit by lia.
    by rewrite Z.div_small, Z.mod_small by lia.
  - rewrite Z.add_comm, <-fmap_add_seqZ. apply length_filter_map.
    intros z (Hz1 & Hz2)%elem_of_seqZ. rewrite !member_testbit by lia.
    replace (64 + z) with (z + 1 * 64) by lia.
    rewrite Z.div_add, Z.mod_add by lia. pose proof (Z.div_pos z 64 ltac:(lia) ltac:(lia)).
    by replace (Z.to_nat (z / 64 + 1)) with (S (Z.to_nat (z / 64))) by lia.
Qed.

Lemma words_size_members bits :
  Z.of_nat (length bits) < 2 ^ 26 →
  words_size bits = Z.of_nat (length (members bits (seqZ 0 (64 * Z.of_nat (length bits))))).
Proof.
  induction bits as [|w bits IH]; intros Hl; [done|]. cbn [length] in Hl.
  cbn [length]. rewrite members_cons by done. cbn [words_size]. rewrite IH by lia.
  assert (E : (if w =? 0 then 0 else word_size 64 w) = word_size 64 w).
  { by destruct (Z.eqb_spec w 0) as [->|]. }
  rewrite E, word_size_filter. change (Z.of_nat 64) with 64. lia.
Qed.

Lemma BitsetNumBits_ok bits : words_ok bits → BitsetNumBits bits = 64 * Z.of_nat (length bits).
Proof.
  intros (_ & _ & Hl). unfold BitsetNumBits. rewrite Z.shiftl_mul_pow2 by lia. rewrite u32_small; lia.
Qed.

(** The size is the number of members, all of which are below the number of bits. *)
Lemma BitsetSize_ok bits :
  words_ok bits →
  BitsetSize bits = Z.of_nat (length (members bits (seqZ 0 (BitsetNumBits bits)))).
Proof.
  intros H. rewrite BitsetNumBits_ok by done. destruct H as (_ & _ & Hl). unfold BitsetSize.
  rewrite words_size_members by done. rewrite u32_small; [done|].
  split; [lia|]. apply Z.le_lt_trans with (Z.of_nat (length (seqZ 0 (64 * Z.of_nat (length bits))))).
  - apply inj_le, length_filter.
  - rewrite length_seqZ. lia.
Qed.
Lemma member_below bits z :
  words_ok bits → 0 ≤ z < 2 ^ 32 → BitsetMember bits z = true → z < BitsetNumBits bits.
Proof.
  intros H Hz Hm. rewrite BitsetNumBits_ok by done. rewrite member_testbit in Hm by done.
  destruct (bits !! Z.to_nat (z / 64)) as [w|] eqn:E; [|done]. apply lookup_lt_Some in E.
  pose proof (Z.div_mod z 64 ltac:(lia)). pose proof (Z.mod_pos_bound z 64 ltac:(lia)). lia.
Qed.

(** *** Comparing *)

Lemma word_eq x y :
  0 ≤ x < 2 ^ 64 → 0 ≤ y < 2 ^ 64 → (∀ i, 0 ≤ i < 64 → Z.testbit x i = Z.testbit y i) → x = y.
Proof.
  intros Hx Hy Hb. rewrite <-(Z.mod_small x (2 ^ 64)), <-(Z.mod_small y (2 ^ 64)) by done.
  apply Z.bits_inj'. intros i Hi. rewrite !Z.testbit_mod_pow2 by lia.
  destruct (Z.ltb_spec i 64); [|done]. by rewrite Hb.
Qed.

(** Bit [i] of word [k]. *)
Lemma member_at bits k i :
  Z.of_nat k < 2 ^ 26 → 0 ≤ i < 64 →
  BitsetMember bits (64 * Z.of_nat k + i) = from_option (λ w, Z.testbit w i) false (bits !! k).
Proof.
  intros Hk Hi. rewrite member_testbit by lia.
  replace (64 * Z.of_nat k + i) with (i + Z.of_nat k * 64) by lia.
  rewrite Z.div_add, Z.mod_add, Z.div_small, Z.mod_small, Z.add_0_l, Nat2Z.id by lia. done.
Qed.

Lemma BitsetEquals_words a b :
  BitsetEquals a b = true ↔ ∀ k, default 0 (a !! k) = default 0 (b !! k).
Proof.
  assert (Hnil : ∀ l, BitsetIsNil l = true ↔ ∀ k, default 0 (l !! k) = 0).
  { induction l as [|x l IH]; cbn; [done|]. rewrite andb_true_iff, Z.eqb_eq, IH. split.
    - intros [-> H] [|k]; [done|apply H].
    - intros H. split; [apply (H 0%nat)|]. intros k. apply (H (S k)). }
  revert b. induction a as [|x a IH]; intros [|y b]; cbn [BitsetEquals].
  - done.
  - rewrite Hnil. split; intros H k; [by rewrite H|by rewrite <-H].
  - rewrite Hnil. split; intros H k; [by rewrite H|by rewrite H].
  - rewrite andb_true_iff, Z.eqb_eq, IH. split.
    + intros [-> H] [|k]; [done|apply H].
    + intros H. split; [apply (H 0%nat)|]. intros k. apply (H (S k)).
Qed.

Lemma BitsetEquals_ok a b :
  words_ok a → words_ok b →
  BitsetEquals a b = true ↔ ∀ z, 0 ≤ z < 2 ^ 32 → BitsetMember a z = BitsetMember b z.
Proof.
  intros (Ha & _ & Hal) (Hb & _ & Hbl). rewrite BitsetEquals_words.
  assert (Hword : ∀ (l : BITSET) (k : nat) i, from_option (λ w, Z.testbit w i) false (l !! k) = Z.testbit (default 0 (l !! k)) i).
  { intros l k i. destruct (l !! k); [done|]. cbn. by rewrite Z.testbit_0_l. }
  assert (Hbound : ∀ (l : BITSET) (k : nat), Forall (λ w, 0 ≤ w < 2 ^ 64) l → 0 ≤ default 0 (l !! k) < 2 ^ 64).
  { intros l k Hl. destruct (l !! k) eqn:E; cbn; [|lia]. apply (Forall_lookup_1 _ _ _ _ Hl E). }
  split.
  - intros H z Hz. rewrite !member_testbit, !Hword by done. by rewrite H.
  - intros H k. destruct (Z.lt_ge_cases (Z.of_nat k) (2 ^ 26)) as [Hk|Hk].
    + apply word_eq; [by apply Hbound..|]. intros i Hi.
      rewrite <-!Hword, <-!member_at by lia. apply H. lia.
    + by rewrite !lookup_ge_None_2 by lia.
Qed.

(** *** The set of numbers that the words stand for *)

Definition as_set (bits : BITSET) : gset Z :=
  list_to_set (members bits (seqZ 0 (BitsetNumBits bits))).

Lemma elem_of_as_set bits z :
  words_ok bits → z ∈ as_set bits ↔ 0 ≤ z < 2 ^ 32 ∧ BitsetMember bits z = true.
Proof.
  intros H. unfold as_set, members. rewrite elem_of_list_to_set, list_elem_of_filter, elem_of_seqZ.
  pose proof (member_below bits z H) as Hb. rewrite BitsetNumBits_ok in * by done.
  pose proof H as (_ & _ & Hl). split; intros [? ?]; split; try done; [lia|].
  specialize (Hb ltac:(done) ltac:(done)). lia.
Qed.
Lemma as_set_ext a b :
  words_ok a → words_ok b →
  as_set a = as_set b ↔ ∀ z, 0 ≤ z < 2 ^ 32 → BitsetMember a z = BitsetMember b z.
Proof.
  intros Ha Hb. rewrite set_eq. setoid_rewrite elem_of_as_set; [|done..]. split.
  - intros H z Hz. apply eq_true_iff_eq. specialize (H z). tauto.
  - intros H z. split; intros [Hz Hm]; (split; [done|]); [rewrite <-H|rewrite H]; done.
Qed.

Lemma ldiff_word w m : 0 ≤ w < 2 ^ 64 → 0 ≤ Z.land w (Z.lnot m) < 2 ^ 64.
Proof.
  intros Hw. assert (H0 : 0 ≤ Z.land w (Z.lnot m)) by (apply Z.land_nonneg; lia).
  apply Z.bounded_iff_bits_nonneg'; [lia..|]. intros l Hl. rewrite Z.land_spec.
  apply Z.bounded_iff_bits_nonneg' with (l := l) in Hw; [|lia..]. by rewrite Hw.
Qed.
Lemma BitsetRemove_words bits n : words_ok bits → words_ok (BitsetRemove bits n).
Proof.
  intros (Hw & Hl). unfold BitsetRemove. destruct (_ !! _) as [w|] eqn:E; [|done].
  split; [|by rewrite length_insert]. apply Forall_insert; [done|].
  apply ldiff_word, (Forall_lookup_1 _ _ _ _ Hw E).
Qed.
Lemma lor_words x y : 0 ≤ x < 2 ^ 64 → 0 ≤ y < 2 ^ 64 → 0 ≤ Z.lor x y < 2 ^ 64.
Proof.
  intros Hx Hy. assert (H0 : 0 ≤ Z.lor x y) by (apply Z.lor_nonneg; lia).
  apply Z.bounded_iff_bits_nonneg'; [lia..|]. intros l Hl. rewrite Z.lor_spec.
  apply Z.bounded_iff_bits_nonneg' with (l := l) in Hx, Hy; [|lia..]. by rewrite Hx, Hy.
Qed.
Lemma words_ok_grow bits k :
  words_ok bits → Z.of_nat k < 2 ^ 26 → words_ok (grow bits k).
Proof. intros (? & ? & ?) Hk. split; [by apply words_grow|]. rewrite length_grow. lia. Qed.
Lemma as_set_grow bits k : words_ok bits → Z.of_nat k < 2 ^ 26 → as_set (grow bits k) = as_set bits.
Proof.
  intros H Hk. apply as_set_ext; [by apply words_ok_grow|done|]. intros z Hz. by apply member_grow.
Qed.

(** A clone, and a set loaded from the words of the generated code, have room for
    eight words at least. *)
Lemma drop_replicate_grow (bits : BITSET) k :
  bits ++ drop (length bits) (replicate k 0) = grow bits k.
Proof. unfold grow. by rewrite drop_replicate. Qed.
Lemma BitsetClone_grow bits : words_ok bits → BitsetClone bits = grow bits 8.
Proof.
  intros (_ & ? & Hl). unfold BitsetClone, BitsetNewBits, ANTLR3_BITSET_BITS.
  rewrite drop_replicate_grow. unfold grow. do 2 f_equal. rewrite Z.shiftr_div_pow2 by lia.
  change (2 ^ 6) with 64. destruct (Z.ltb_spec (64 * Z.of_nat (length bits)) (8 * 64)).
  - change (Z.to_nat ((8 * 64 - 1) / 64 + 1)) with 8%nat. lia.
  - replace (64 * Z.of_nat (length bits) - 1) with (63 + (Z.of_nat (length bits) - 1) * 64) by lia.
    rewrite Z.div_add by lia. change (63 / 64) with 0. lia.
Qed.
Lemma BitsetLoad_grow bits : BitsetLoad bits = grow bits 8.
Proof.
  unfold BitsetLoad. change BitsetNew with (replicate 8 0). rewrite length_replicate.
  destruct (Nat.ltb_spec 8 (length bits)); [|apply drop_replicate_grow].
  unfold grow. rewrite drop_ge; [|rewrite length_app, !length_replicate; lia].
  by replace (8 - length bits)%nat with 0%nat by lia.
Qed.

Lemma words_ok_replicate k : (0 < k)%nat → Z.of_nat k < 2 ^ 26 → words_ok (replicate k 0).
Proof. intros. split; [apply Forall_replicate; lia|]. rewrite length_replicate. lia. Qed.
Lemma member_replicate k z : 0 ≤ z < 2 ^ 32 → BitsetMember (replicate k 0) z = false.
Proof.
  intros Hz. rewrite member_testbit by done. destruct (_ !! _) as [w|] eqn:E; [|done].
  apply lookup_replicate_1 in E as [-> _]. apply Z.testbit_0_l.
Qed.

(** Only a set without members has no bit in its words. *)
Lemma BitsetIsNil_ok bits : words_ok bits → BitsetIsNil bits = true ↔ as_set bits = ∅.
Proof.
  intros H. assert (E : BitsetIsNil bits = BitsetEquals bits (replicate 1 0)).
  { destruct bits as [|x [|y l]]; [done|cbn; done|]. cbn. done. }
  rewrite E, BitsetEquals_ok by (done || (apply words_ok_replicate; lia)).
  assert (E0 : as_set (replicate 1 0) = ∅) by (apply (bool_decide_unpack _); by vm_compute).
  rewrite <-E0, as_set_ext by (done || (apply words_ok_replicate; lia)). done.
Qed.

Lemma seqZ_sorted m n : StronglySorted Z.lt (seqZ m n).
Proof.
  destruct (Z.le_gt_cases n 0) as [Hn|Hn]; [rewrite seqZ_nil by lia; constructor|].
  rewrite <-(Z2Nat.id n) by lia. generalize (Z.to_nat n) as k. clear. intros k. revert m.
  induction k as [|k IH]; intros m; [constructor|].
  rewrite seqZ_cons by lia. rewrite Nat2Z.inj_succ, Z.pred_succ. constructor; [apply IH|].
  apply Forall_forall. intros z Hz%elem_of_seqZ. lia.
Qed.
Lemma filter_sorted (P : Z → Prop) `{!∀ z, Decision (P z)} l :
  StronglySorted Z.lt l → StronglySorted Z.lt (filter P l).
Proof.
  induction 1 as [|z l Hl IH Hz]; [constructor|]. rewrite filter_cons.
  destruct (decide (P z)); [|done]. constructor; [done|]. rewrite Forall_forall in *.
  intros y [_ Hy]%list_elem_of_filter. by apply Hz.
Qed.

Lemma bitset_add_all_ok bits l :
  words_ok bits → Forall (λ n, 0 ≤ n < 2 ^ 31) l →
  ∃ bits', bitset_add_all bits l = Ok bits' ∧ words_ok bits' ∧
    as_set bits' = as_set bits ∪ list_to_set l.
Proof.
  intros Hb Hl. revert bits Hb. induction Hl as [|n l Hn Hl IH]; intros bits Hb.
  { exists bits. split_and!; [done..|]. cbn. symmetry. apply (right_id_L ∅ (∪)). }
  destruct (BitsetAdd_ok bits n Hb Hn) as (b1 & E1 & Hb1 & Hm1).
  destruct (IH b1 Hb1) as (b2 & E2 & Hb2 & Hs2). exists b2. cbn [bitset_add_all]. rewrite E1.
  split_and!; [done..|]. rewrite Hs2. apply set_eq. intros z.
  rewrite !elem_of_union, !elem_of_as_set by done. cbn [list_to_set]. rewrite elem_of_union, elem_of_singleton.
  split; [intros [[Hz Hm]|]; [|by auto]|].
  - rewrite Hm1, orb_true_iff, Z.eqb_eq in Hm by done. tauto.
  - intros [[Hz Hm]|[->|]]; [| |by auto]; left; (split; [lia|]); rewrite Hm1 by lia.
    + by rewrite Hm, orb_true_r.
    + by rewrite Z.eqb_refl.
Qed.

(** C19: a bit set implements a finite set of numbers.  For sets whose words have 64
    bits and numbers below 2^31, [antlr3BitsetAdd] adds a number, growing the array
    when it has no word for it, [antlr3BitsetRemove] removes one,
    [antlr3BitsetMember] decides membership, [antlr3BitsetSize] counts the members,
    [antlr3BitsetEquals] and [antlr3BitsetIsNil] compare sets of different lengths by
    their members, [antlr3BitsetClone] and [antlr3BitsetLoad] keep the members,
    [antlr3BitsetOf] has exactly the numbers given, and [antlr3BitsetToIntList] lists
    the members in increasing order behind an entry that is their number plus one, the
    number of all the entries.  (The comment of that function says that its first entry
    is the number of the elements that follow; it is one more.) *)
Theorem Bitset_set a b n l :
  words_ok a → words_ok b → 0 ≤ n < 2 ^ 31 → Forall (λ n, 0 ≤ n < 2 ^ 31) l →
  (∃ a', BitsetAdd a n = Ok a' ∧ words_ok a' ∧ as_set a' = {[n]} ∪ as_set a) ∧
  (words_ok (BitsetRemove a n) ∧ as_set (BitsetRemove a n) = as_set a ∖ {[n]}) ∧
  BitsetMember a n = bool_decide (n ∈ as_set a) ∧
  BitsetSize a = Z.of_nat (size (as_set a)) ∧
  BitsetEquals a b = bool_decide (as_set a = as_set b) ∧
  BitsetIsNil a = bool_decide (as_set a = ∅) ∧
  as_set (BitsetClone a) = as_set a ∧ as_set (BitsetLoad a) = as_set a ∧
  (∃ c, BitsetOf l = Ok c ∧ words_ok c ∧ as_set c = list_to_set l) ∧
  (∃ m, BitsetToIntList a = BitsetSize a + 1 :: m ∧ StronglySorted Z.lt m ∧
        ∀ z, z ∈ m ↔ z ∈ as_set a).
Proof.
  intros Ha Hb Hn Hl. split_and!.
  - destruct (BitsetAdd_ok a n Ha Hn) as (a' & E & Ha' & Hm). exists a'. split_and!; [done..|].
    apply set_eq. intros z. rewrite elem_of_union, elem_of_singleton, !elem_of_as_set by done.
    split; [intros [Hz Hz']|intros [->|[Hz Hz']]; (split; [lia|]); rewrite Hm by lia].
    + rewrite Hm, orb_true_iff, Z.eqb_eq in Hz' by done. tauto.
    + by rewrite Z.eqb_refl.
    + by rewrite Hz', orb_true_r.
  - by apply BitsetRemove_words.
  - apply set_eq. intros z. rewrite elem_of_difference, elem_of_singleton.
    rewrite !elem_of_as_set by (done || by apply BitsetRemove_words).
    split; [intros [Hz Hz']|intros [[Hz Hz'] Hne]; split; [done|]].
    + rewrite BitsetRemove_ok, andb_true_iff, negb_true_iff, Z.eqb_neq in Hz' by lia. tauto.
    + rewrite BitsetRemove_ok, Hz', andb_true_r by lia. by apply negb_true_iff, Z.eqb_neq.
  - apply eq_true_iff_eq. rewrite bool_decide_eq_true, elem_of_as_set by done. intuition lia.
  - rewrite BitsetSize_ok by done. unfold as_set. rewrite size_list_to_set; [done|].
    apply NoDup_filter, NoDup_seqZ.
  - apply eq_true_iff_eq. rewrite bool_decide_eq_true, BitsetEquals_ok, as_set_ext by done. done.
  - apply eq_true_iff_eq. rewrite bool_decide_eq_true. by apply BitsetIsNil_ok.
  - rewrite BitsetClone_grow by done. by apply as_set_grow.
  - rewrite BitsetLoad_grow by done. by apply as_set_grow.
  - destruct (bitset_add_all_ok BitsetNew l) as (c & E & Hc & Hs); [apply (words_ok_replicate 8); lia|done|].
    exists c. split_and!; [done..|]. rewrite Hs.
    assert (E0 : as_set BitsetNew = ∅) by (apply (bool_decide_unpack _); by vm_compute).
    rewrite E0. apply (left_id_L ∅ (∪)).
  - eexists. split; [done|]. split; [apply filter_sorted, seqZ_sorted|].
    intros z. unfold as_set. by rewrite elem_of_list_to_set.
Qed.
Lemma Bitset_set_witness :
  BitsetToIntList [5; 1] = [4; 0; 2; 64] ∧ BitsetSize [5; 1] = Z.of_nat (size (as_set [5; 1])).
Proof.
  split; [by vm_compute|].
  assert (Hw : ∀ x y, 0 ≤ x < 2 ^ 64 → 0 ≤ y < 2 ^ 64 → words_ok [x; y]).
  { intros x y Hx Hy. split; [apply Forall_cons; split; [done|by apply Forall_singleton]|cbn [length]; lia]. }
  assert (Hl : Forall (λ n, 0 ≤ n < 2 ^ 31) [3; 700]) by (repeat constructor; lia).
  destruct (Bitset_set [5; 1] [5; 0] 700 [3; 700]) as (_ & _ & _ & H & _);
    [apply Hw; lia|apply Hw; lia|lia|done|].
  exact H.
Defined.

Lemma BitsetORInPlace_words a b :
  words_ok a → words_ok b → Z.of_nat (length b) < 2 ^ 25 → words_ok (BitsetORInPlace a b).
Proof.
  intros (Ha & Ha0 & Hal) (Hb & Hb0 & Hbl) Hl. unfold BitsetORInPlace.
  set (a' := if (length a <? length b)%nat then _ else a).
  assert (Ha' : words_ok a').
  { unfold a'. destruct (Nat.ltb_spec (length a) (length b)); [|done].
    rewrite growToInclude_spec by lia. apply words_ok_grow; [done|].
    pose proof (Z.div_le_upper_bound (Z.of_nat (length b) * 8) 64 (Z.of_nat (length b))). lia. }
  destruct Ha' as (Ha' & Ha0' & Hal').
  assert (Hlen : length (or_words a' b) = length a').
  { clearbody a'. clear. revert b. induction a' as [|x a IH]; intros [|y b]; [done..|].
    cbn. by rewrite IH. }
  split; [|by rewrite Hlen]. apply Forall_lookup_2. intros i w Ew. rewrite lookup_or_words in Ew.
  destruct (a' !! i) as [x|] eqn:Ex; [|done]. injection Ew as <-. apply lor_words.
  - apply (Forall_lookup_1 _ _ _ _ Ha' Ex).
  - destruct (b !! i) as [y|] eqn:Ey; [apply (Forall_lookup_1 _ _ _ _ Hb Ey)|cbn; lia].
Qed.

(** [antlr3BitsetORInPlace] gives the union only when the left array has at least
    half as many words as the right one.  In general a member of the right set is
    kept only when its word is among those the left array has after growing, because
    [growToInclude] is asked for room for eight bits per word of the right set and
    not for 64.  A set of its own is always kept. *)
Theorem BitsetORInPlace_union a b :
  words_ok a → words_ok b → Z.of_nat (length b) < 2 ^ 25 →
  words_ok (BitsetORInPlace a b) ∧
  as_set (BitsetORInPlace a b)
  = as_set a ∪ filter (λ z, z < 64 * Z.of_nat (or_length a b)) (as_set b) ∧
  ((length b ≤ 2 * length a)%nat → as_set (BitsetORInPlace a b) = as_set a ∪ as_set b).
Proof.
  intros Ha Hb Hl. pose proof (BitsetORInPlace_words a b Ha Hb Hl) as Ho.
  assert (Hz64 : ∀ z, 0 ≤ z → (Z.to_nat (z / 64) < or_length a b)%nat ↔ z < 64 * Z.of_nat (or_length a b)).
  { intros z Hz. pose proof (Z.div_mod z 64). pose proof (Z.mod_pos_bound z 64).
    pose proof (Z.div_pos z 64). lia. }
  assert (Hu : as_set (BitsetORInPlace a b)
    = as_set a ∪ filter (λ z, z < 64 * Z.of_nat (or_length a b)) (as_set b)).
  { apply set_eq. intros z. rewrite elem_of_union, elem_of_filter, !elem_of_as_set by done.
    split; [intros [Hz Hm]|intros [[Hz Hm]|(Hw & Hz & Hm)]; (split; [done|])].
    - rewrite BitsetORInPlace_member, orb_true_iff, andb_true_iff, bool_decide_eq_true, Hz64 in Hm
        by (done || lia). tauto.
    - by rewrite BitsetORInPlace_member, Hm by done.
    - rewrite BitsetORInPlace_member, Hm, bool_decide_true by (done || by apply Hz64; [lia|]).
      apply orb_true_r. }
  split_and!; [done..|]. intros Hlen. rewrite Hu. f_equal. apply set_eq. intros z.
  rewrite elem_of_filter. split; [by intros [_ ?]|]. intros Hz. split; [|done].
  rewrite elem_of_as_set in Hz by done. destruct Hz as [Hz Hm].
  apply member_below in Hm; [|done..]. rewrite BitsetNumBits_ok in Hm by done.
  unfold or_length. destruct (Nat.ltb_spec (length a) (length b)); lia.
Qed.
Lemma BitsetORInPlace_union_witness :
  BitsetOf [1] = Ok (2 :: replicate 7 0) ∧
  match BitsetOf [1100] with
  | Ok b => BitsetMember b 1100 = true ∧
            BitsetMember (BitsetORInPlace (2 :: replicate 7 0) b) 1100 = false
  | _ => False
  end ∧
  as_set (BitsetORInPlace [2] [1; 4]) = as_set [2] ∪ as_set [1; 4].
Proof.
  split_and!; [by vm_compute|by vm_compute|].
  assert (Ha : words_ok [2]) by (split; [apply Forall_singleton; lia|cbn [length]; lia]).
  assert (Hb : words_ok [1; 4]) by (split; [apply Forall_cons; split; [lia|apply Forall_singleton; lia]|cbn [length]; lia]).
  destruct (BitsetORInPlace_union [2] [1; 4] Ha Hb) as (_ & _ & H); [cbn [length]; lia|].
  apply H. cbn [length]. lia.
Defined.
