(* ===== verification/Topo.v ===== *)
(** The topological sorter of the run time: the end of
    src/antlr/libantlr3c-3.4/src/antlr3collections.c. *)
From S2P Require Import Prelude.
From S2P Require Import HashTable.
From S2P Require Import Vector.
From S2P Require Import Bitset.

(** [edges] has the set of the nodes that each node depends on, absent when null.
    The arrays [sorted] and [cycle] are allocated by the sort; an entry that was
    never written holds nothing. *)
Record TOPO : Type := mkTopo {
  edges : option (list (option BITSET));
  sorted : option (list (option Z));
  cycle : option (list (option Z));
  hasCycle : bool;
  cycleMark : Z;
  limit : Z;
  visited : option BITSET
}.
Definition set_edges (es : list (option BITSET)) (t : TOPO) : TOPO :=
  mkTopo (Some es) (sorted t) (cycle t) (hasCycle t) (cycleMark t) (limit t) (visited t).
Definition set_limit (n : Z) (t : TOPO) : TOPO :=
  mkTopo (edges t) (sorted t) (cycle t) (hasCycle t) (cycleMark t) n (visited t).
Definition set_sorted (s : list (option Z)) (t : TOPO) : TOPO :=
  mkTopo (edges t) (Some s) (cycle t) (hasCycle t) (cycleMark t) (limit t) (visited t).
Definition set_cycle (c : list (option Z)) (mark : Z) (t : TOPO) : TOPO :=
  mkTopo (edges t) (sorted t) (Some c) (hasCycle t) mark (limit t) (visited t).
Definition set_hasCycle (b : bool) (t : TOPO) : TOPO :=
  mkTopo (edges t) (sorted t) (cycle t) b (cycleMark t) (limit t) (visited t).
Definition set_cycleMark (mark : Z) (t : TOPO) : TOPO :=
  mkTopo (edges t) (sorted t) (cycle t) (hasCycle t) mark (limit t) (visited t).
Definition set_visited (b : BITSET) (t : TOPO) : TOPO :=
  mkTopo (edges t) (sorted t) (cycle t) (hasCycle t) (cycleMark t) (limit t) (Some b).

(** Writing an entry of an array. *)
Definition store {A} (l : list A) (i : Z) (x : A) : outcome (list A) :=
  if (0 <=? i) && (i <? Z.of_nat (length l)) then Ok (<[Z.to_nat i := x]> l)
  else Undef BadIndex.

(** [antlr3TopoNew] *)
Definition TopoNew : TOPO := mkTopo None None None false 0 1 None.

(** [addEdge]: the array grows to hold both nodes; an edge from a node to itself
    only makes room for the node. *)
Definition room_for (t : TOPO) (maxEdge : Z) : outcome TOPO :=
  match edges t with
  | None =>
      Ok (set_limit (u32 (maxEdge + 1))
            (set_edges (replicate (Z.to_nat (u32 (maxEdge + 1))) None) t))
  | Some es =>
      if limit t <=? maxEdge then
        if u32 (maxEdge + 1) =? 0 then Undef BadIndex
        else Ok (set_limit (u32 (maxEdge + 1))
                   (set_edges (take (Z.to_nat (limit t)) es
                               ++ replicate (Z.to_nat (maxEdge + 1 - limit t)) None) t))
      else Ok t
  end.
Definition addEdge (t : TOPO) (edge dependency : Z) : outcome TOPO :=
  let maxEdge := if dependency <? edge then edge else dependency in
  t ← room_for t maxEdge;
  if edge =? dependency then Ok t
  else
    es ← deref (edges t);
    edgeDeps ← index es edge;
    edgeDeps ← BitsetAdd (default BitsetNew edgeDeps) dependency;
    es ← store es edge (Some edgeDeps);
    Ok (set_edges es t).

(** The loop of [DFS] that moves the entries [l] and above down by [i] places. *)
Fixpoint move_cycle (n : nat) (i l : Z) (c : list (option Z)) : outcome (list (option Z)) :=
  match n with
  | O => Ok c
  | S n =>
      x ← index c l;
      c ← store c (l - i) x;
      move_cycle n i (l + 1) c
  end.

(** The loop of [DFS] that looks for a node on the cycle stack; the mark is read
    again in every round. *)
Fixpoint find_cycle (n : nat) (i node : Z) (t : TOPO) : outcome TOPO :=
  match n with
  | O => Ok t
  | S n =>
      if i <? cycleMark t then
        c ← deref (cycle t);
        x ← index c i;
        x ← init x;
        t ← (if x =? node then
               c ← move_cycle (Z.to_nat (cycleMark t - i)) i i c;
               Ok (set_hasCycle true (set_cycle c (u32 (cycleMark t - i)) t))
             else Ok t);
        find_cycle n (i + 1) node t
      else Ok t
  end.

(** [DFS] descends from a node.  The loop over the dependencies goes over at most
    [numBits + 1] bits and stops when it saw as many members as there are. *)
Section loop.
Context (DFS : TOPO → Z → outcome TOPO) (es : BITSET).
Fixpoint visit_edges (n : nat) (i range : Z) (t : TOPO) : outcome TOPO :=
  match n with
  | O => Ok t
  | S n =>
      if 0 <? range then
        if BitsetMember es i then
          t ← DFS t i;
          visit_edges n (i + 1) (range - 1) t
        else visit_edges n (i + 1) range t
      else Ok t
  end.
End loop.
Fixpoint DFS (fuel : nat) (t : TOPO) (node : Z) : outcome TOPO :=
  match fuel with
  | O => Undef NoFuel
  | S fuel =>
      if hasCycle t then Ok t
      else
        v ← deref (visited t);
        if BitsetMember v node then find_cycle (Z.to_nat (cycleMark t)) 0 node t
        else
          c ← deref (cycle t);
          c ← store c (cycleMark t) (Some node);
          v ← BitsetAdd v node;
          let t := set_visited v (set_cycle c (u32 (cycleMark t + 1)) t) in
          l ← deref (edges t);
          e ← index l node;
          t ← match e with
              | None => Ok t
              | Some es =>
                  visit_edges (DFS fuel) es (Z.to_nat (BitsetNumBits es + 1)) 0 (BitsetSize es) t
              end;
          s ← deref (sorted t);
          s ← store s (limit t) (Some node);
          let t := set_limit (u32 (limit t + 1)) (set_sorted s t) in
          Ok (if hasCycle t then t else set_cycleMark (u32 (cycleMark t - 1)) t)
  end.

(** [sortToArray] visits the nodes in turn, until a cycle is found. *)
Fixpoint visit_nodes (fuel n : nat) (v : Z) (t : TOPO) : outcome TOPO :=
  match n with
  | O => Ok t
  | S n =>
      vs ← deref (visited t);
      t ← (if BitsetMember vs v then Ok t else DFS fuel t v);
      if hasCycle t then Ok t else visit_nodes fuel n (v + 1) t
  end.
Definition sortToArray (fuel : nat) (t : TOPO) : outcome (option (list (option Z)) * TOPO) :=
  match edges t with
  | None => Ok (None, t)
  | Some _ =>
      let oldLimit := limit t in
      let arr := replicate (Z.to_nat oldLimit) None in
      let t := mkTopo (edges t) (Some arr) (Some arr) (hasCycle t) (cycleMark t) 0 (Some BitsetNew) in
      t ← visit_nodes fuel (Z.to_nat oldLimit) 0 t;
      let t := set_limit oldLimit t in
      Ok (sorted t, t)
  end.

(** [sortVector]: [vIndex] is meant to tell where the element that was at a place
    is now. *)
Fixpoint move_entries {V} (n : nat) (i : Z) (s : list (option Z)) (vIndex : list Z)
    (v : VECTOR V) : outcome (VECTOR V) :=
  match n with
  | O => Ok v
  | S n =>
      x ← index s i;
      x ← init x;
      ind ← index vIndex x;
      if ind =? i then move_entries n (i + 1) s vIndex v
      else
        '(_, v) ← VectorSwap v i ind;
        vIndex ← store vIndex x i;
        vIndex ← store vIndex i ind;
        move_entries n (i + 1) s vIndex v
  end.
Definition sortVector {V} (fuel : nat) (t : TOPO) (v : VECTOR V) : outcome (TOPO * VECTOR V) :=
  '(a, t) ← sortToArray fuel t;
  match a with
  | None => Ok (t, v)
  | Some s =>
      if hasCycle t then Ok (t, v)
      else
        let t := if count v <? limit t then set_limit (count v) t else t in
        v ← move_entries (Z.to_nat (limit t)) 0 s (seqZ 0 (limit t)) v;
        Ok (t, v)
  end.

Definition non_null {A} (l : list (option A)) : list A := omap id l.

(** [freeTopo]: the edge sets that are freed, up to the limit. *)
Definition freeTopo (t : TOPO) : outcome (list BITSET) :=
  match edges t with
  | None => Ok []
  | Some es =>
      l ← oc_map (index es) (seqZ 0 (limit t));
      Ok (non_null l)
  end.

(** ** Arrays *)

Lemma index_middle {A} (l1 l2 : list A) x i :
  i = Z.of_nat (length l1) → index (l1 ++ x :: l2) i = Ok x.
Proof. intros ->. apply index_lookup; [lia|]. rewrite Nat2Z.id. by apply list_lookup_middle. Qed.
Lemma store_middle {A} (l1 l2 : list A) x y i :
  i = Z.of_nat (length l1) → store (l1 ++ y :: l2) i x = Ok (l1 ++ x :: l2).
Proof.
  intros ->. unfold store. rewrite length_app. cbn [length].
  destruct (Z.leb_spec 0 (Z.of_nat (length l1))); [|lia].
  destruct (Z.ltb_spec (Z.of_nat (length l1)) (Z.of_nat (length l1 + S (length l2)))); [|lia].
  cbn. rewrite Nat2Z.id. f_equal. rewrite <-(Nat.add_0_r (length l1)). by rewrite insert_app_r.
Qed.
Lemma store_lookup {A} (l : list A) i x y :
  0 ≤ i → l !! Z.to_nat i = Some y → store l i x = Ok (<[Z.to_nat i := x]> l).
Proof.
  intros Hi Hy%lookup_lt_Some. unfold store.
  destruct (Z.leb_spec 0 i); [|lia]. by destruct (Z.ltb_spec i (Z.of_nat (length l))); [|lia].
Qed.

(** ** Graphs *)
Section graph.
Context (E : list (option BITSET)).

(** Node [v] depends on node [w]. *)
Definition depends (v w : Z) : Prop :=
  0 ≤ v ∧ ∃ b, E !! Z.to_nat v = Some (Some b) ∧ w ∈ as_set b.

(** The sets have words of 64 bits, and dependencies are nodes. *)
Definition graph_ok : Prop :=
  Z.of_nat (length E) ≤ 2 ^ 31 ∧
  (∀ i b, E !! i = Some (Some b) → words_ok b) ∧
  (∀ v w, depends v w → 0 ≤ w < Z.of_nat (length E)).

(** Every node depends on the next one. *)
Definition path (K : list Z) : Prop :=
  ∀ i v w, K !! i = Some v → K !! S i = Some w → depends v w.
(** ... and the last one on the first. *)
Definition is_cycle (C : list Z) : Prop :=
  match C with
  | [] => False
  | c :: _ => path (C ++ [c])
  end.
(** What a node depends on comes before it. *)
Definition ordered (S : list Z) : Prop :=
  ∀ S1 v S2, S = S1 ++ v :: S2 → ∀ w, depends v w → w ∈ S1.

Lemma path_prefix K1 K2 : path (K1 ++ K2) → path K1.
Proof. intros H i v w Hv Hw. apply (H i); by apply lookup_app_l_Some. Qed.
Lemma path_suffix K1 K2 : path (K1 ++ K2) → path K2.
Proof.
  intros H i v w Hv Hw. apply (H (length K1 + i)%nat).
  - rewrite lookup_app_r by lia. by replace (length K1 + i - length K1)%nat with i by lia.
  - rewrite lookup_app_r by lia. by replace (S (length K1 + i) - length K1)%nat with (S i) by lia.
Qed.
Lemma path_snoc K v w : path (K ++ [v]) → depends v w → path ((K ++ [v]) ++ [w]).
Proof.
  intros H Hd i x y Hx Hy. destruct (decide (S i < length (K ++ [v]))%nat) as [Hl|Hl].
  - rewrite lookup_app_l in Hx, Hy by lia. by apply (H i).
  - pose proof (lookup_lt_Some _ _ _ Hy) as Hb. rewrite !length_app in *. cbn in *.
    assert (i = length K) as -> by lia. rewrite <-app_assoc in Hx. cbn in Hx.
    rewrite list_lookup_middle in Hx by done.
    rewrite lookup_app_r in Hy by (rewrite length_app; cbn; lia).
    rewrite length_app in Hy. cbn in Hy. replace (S (length K) - (length K + 1))%nat with 0%nat in Hy by lia.
    cbn in Hy. congruence.
Qed.
Lemma ordered_snoc S v : ordered S → (∀ w, depends v w → w ∈ S) → ordered (S ++ [v]).
Proof.
  intros Ho Hv S1 x S2 Heq w Hd. destruct S2 as [|y S2 _] using rev_ind.
  - apply app_inj_tail in Heq as [<- <-]. by apply Hv.
  - rewrite app_comm_cons, app_assoc in Heq. apply app_inj_tail in Heq as [Heq <-].
    by apply (Ho S1 x S2).
Qed.

(** *** The state of a search: [S] is sorted, [K] is the stack. *)
Record searching (t : TOPO) (S K : list Z) : Prop := {
  s_edges : edges t = Some E;
  s_sorted : ∃ rest, sorted t = Some ((Some <$> S) ++ rest) ∧ (length S + length rest = length E)%nat;
  s_cycle : ∃ rest, cycle t = Some ((Some <$> K) ++ rest) ∧ (length K + length rest = length E)%nat;
  s_hasCycle : hasCycle t = false;
  s_mark : cycleMark t = Z.of_nat (length K);
  s_limit : limit t = Z.of_nat (length S);
  s_visited : ∃ b, visited t = Some b ∧ words_ok b ∧
    ∀ z, 0 ≤ z < 2 ^ 31 → BitsetMember b z = bool_decide (z ∈ S ++ K);
  s_nodup : NoDup (S ++ K);
  s_nodes : Forall (λ z, 0 ≤ z < Z.of_nat (length E)) (S ++ K);
  s_path : path K;
  s_ordered : ordered S
}.

(** A cycle was found, and [n] calls are still to return. *)
Record found (t : TOPO) (n : nat) : Prop := {
  f_edges : edges t = Some E;
  f_sorted : ∃ s, sorted t = Some s ∧ length s = length E;
  f_hasCycle : hasCycle t = true;
  f_limit : 0 ≤ limit t ∧ limit t + Z.of_nat n ≤ Z.of_nat (length E);
  f_cycle : ∃ C rest, cycle t = Some ((Some <$> C) ++ rest) ∧
    cycleMark t = Z.of_nat (length C) ∧ is_cycle C
}.

(** *** The cycle stack *)

Lemma move_cycle_ok (P G X rest : list (option Z)) i l n :
  i = Z.of_nat (length G) → l = Z.of_nat (length P + length G) → n = length X →
  ∃ G', length G' = length G ∧
    move_cycle n i l (P ++ G ++ X ++ rest) = Ok ((P ++ X) ++ G' ++ rest).
Proof.
  intros -> -> ->. revert P G. induction X as [|x X IH]; intros P G; cbn.
  { exists G. by rewrite app_nil_r. }
  rewrite (app_assoc P G). rewrite index_middle by (by rewrite length_app). cbn.
  destruct G as [|g G].
  - rewrite app_nil_r, store_middle by (cbn; lia). cbn.
    destruct (IH (P ++ [x]) []) as (G' & HG' & Heq). exists G'. split; [done|].
    rewrite length_app in Heq. cbn in Heq. rewrite <-!app_assoc in *. cbn in Heq.
    by replace (Z.of_nat (length P + 0) + 1) with (Z.of_nat (length P + 1 + 0)) by lia.
  - rewrite <-app_assoc. cbn [app]. rewrite store_middle by (cbn [length]; lia). cbn.
    destruct (IH (P ++ [x]) (G ++ [x])) as (G' & HG' & Heq). exists G'.
    rewrite !length_app in *. cbn in *. split; [lia|]. rewrite <-!app_assoc in *. cbn in *.
    replace (Z.of_nat (length G + 1)) with (Z.of_nat (S (length G))) in Heq by lia.
    by replace (Z.of_nat (length P + S (length G)) + 1)
      with (Z.of_nat (length P + 1 + (length G + 1))) by lia.
Qed.

Lemma find_cycle_skip C rest n i node t :
  cycle t = Some ((Some <$> C) ++ rest) → cycleMark t = Z.of_nat (length C) → 0 ≤ i →
  (∀ j, i ≤ Z.of_nat j → C !! j ≠ Some node) → find_cycle n i node t = Ok t.
Proof.
  intros Hc Hm. revert i. induction n as [|n IH]; intros i Hi Hne; [done|]. cbn.
  destruct (Z.ltb_spec i (cycleMark t)) as [Hlt|]; [|done]. rewrite Hc. cbn.
  destruct (lookup_lt_is_Some_2 C (Z.to_nat i)) as [x Hx]; [lia|].
  rewrite (index_lookup _ _ (Some x)); [|done|].
  2:{ apply lookup_app_l_Some. by rewrite list_lookup_fmap, Hx. }
  cbn. destruct (Z.eqb_spec x node) as [->|]; [by destruct (Hne (Z.to_nat i)); [lia|]|].
  cbn. apply IH; [lia|]. intros j Hj. apply Hne. lia.
Qed.

Lemma find_cycle_hit K1 node K2 rest n i t :
  cycle t = Some ((Some <$> K1 ++ node :: K2) ++ rest) →
  cycleMark t = Z.of_nat (length (K1 ++ node :: K2)) → NoDup (K1 ++ node :: K2) →
  Z.of_nat (length (K1 ++ node :: K2)) < 2 ^ 32 →
  0 ≤ i ≤ Z.of_nat (length K1) → Z.of_nat n + i > Z.of_nat (length K1) →
  ∃ rest', find_cycle n i node t
    = Ok (set_hasCycle true (set_cycle ((Some <$> node :: K2) ++ rest') (Z.of_nat (length (node :: K2))) t)).
Proof.
  intros Hc Hm Hd Hb. revert i. induction n as [|n IH]; intros i Hi Hn; [lia|]. cbn [find_cycle].
  rewrite !length_app in Hm, Hb. cbn [length] in Hm, Hb.
  destruct (Z.ltb_spec i (cycleMark t)); [|lia]. rewrite Hc. cbn [deref mbind outcome_bind].
  apply NoDup_app in Hd as (Hd1 & Hd & Hd2). apply NoDup_cons in Hd2 as [Hd2 _].
  destruct (decide (i = Z.of_nat (length K1))) as [->|Hne].
  - rewrite fmap_app, <-app_assoc. cbn [fmap list_fmap app].
    rewrite index_middle by by rewrite length_fmap. cbn [init mbind outcome_bind].
    rewrite Z.eqb_refl.
    destruct (move_cycle_ok [] (Some <$> K1) (Some <$> node :: K2) rest
      (Z.of_nat (length K1)) (Z.of_nat (length K1)) (Z.to_nat (cycleMark t - Z.of_nat (length K1))))
      as (G' & HG' & Heq); [by rewrite length_fmap|by rewrite length_fmap|rewrite length_fmap; cbn; lia|].
    cbn [app fmap list_fmap] in Heq. cbn. rewrite Heq. cbn [mbind outcome_bind].
    exists (G' ++ rest). rewrite u32_small by lia.
    rewrite (find_cycle_skip (node :: K2) (G' ++ rest)).
    + do 4 f_equal. cbn. lia.
    + done.
    + cbn. lia.
    + lia.
    + intros [|j] Hj; [lia|]. cbn. intros Hj'. apply Hd2. by eapply list_elem_of_lookup_2.
  - destruct (lookup_lt_is_Some_2 K1 (Z.to_nat i)) as [x Hx]; [lia|].
    rewrite (index_lookup _ _ (Some x)); [|lia|].
    2:{ rewrite fmap_app, <-app_assoc. apply lookup_app_l_Some. by rewrite list_lookup_fmap, Hx. }
    cbn [init mbind outcome_bind]. destruct (Z.eqb_spec x node) as [->|].
    { destruct (Hd node); [by eapply list_elem_of_lookup_2|apply list_elem_of_here]. }
    cbn [mbind outcome_bind]. apply IH; lia.
Qed.
(** *** The search *)

(** What a call of [DFS] with the stack [K] does: it sorts the node, or it finds a
    cycle. *)
Definition dfs_post (S K : list Z) (node : Z) (r : outcome TOPO) : Prop :=
  ∃ t', r = Ok t' ∧
    ((∃ S', searching t' (S ++ S') K ∧ node ∈ S ++ S') ∨ found t' (length K)).

Lemma searching_room t S K : searching t S K → (length S + length K ≤ length E)%nat.
Proof. intros H. rewrite <-length_app. apply nodup_bound; apply H. Qed.

Lemma on_stack_found t S K node :
  graph_ok → searching t S K → path (K ++ [node]) → node ∈ K →
  ∃ t', find_cycle (Z.to_nat (cycleMark t)) 0 node t = Ok t' ∧ found t' (length K).
Proof.
  intros [Hg _] H Hp (K1 & K2 & ->)%list_elem_of_split.
  destruct (s_cycle _ _ _ H) as (rest & Hc & Hl). pose proof (searching_room _ _ _ H) as Hr.
  pose proof (s_mark _ _ _ H) as Hm.
  destruct (find_cycle_hit K1 node K2 rest (Z.to_nat (cycleMark t)) 0 t) as [rest' Heq]; try done.
  - by pose proof (s_nodup _ _ _ H) as (_ & _ & ?)%NoDup_app.
  - lia.
  - lia.
  - rewrite Hm, length_app. cbn [length]. lia.
  - eexists. split; [exact Heq|]. split; try done.
    + apply H.
    + cbn. destruct (s_sorted _ _ _ H) as (rs & -> & Hrs). eexists. split; [done|].
      by rewrite length_app, length_fmap.
    + cbn. rewrite (s_limit _ _ _ H). lia.
    + exists (node :: K2), rest'. split_and!; [done..|]. cbn.
      rewrite <-app_assoc in Hp. by apply path_suffix in Hp.
Qed.

Section visit.
Context (f : TOPO → Z → outcome TOPO) (S0 K : list Z) (node : Z) (es : BITSET).
Context (Hf : ∀ t S w, searching t (S0 ++ S) K → depends node w → dfs_post (S0 ++ S) K w (f t w)).
Context (Hf' : ∀ t w, hasCycle t = true → f t w = Ok t).
Context (Hes : words_ok es) (Hnode : 0 ≤ node) (HE : E !! Z.to_nat node = Some (Some es)).

Lemma visit_edges_found n i range t : hasCycle t = true → visit_edges f es n i range t = Ok t.
Proof.
  intros Ht. revert i range. induction n as [|n IH]; intros i range; [done|]. cbn.
  destruct (0 <? range); [|done]. destruct (BitsetMember es i); [|done].
  rewrite Hf' by done. apply IH.
Qed.

Lemma visit_edges_ok n i range t S :
  searching t (S0 ++ S) K → 0 ≤ i → n = Z.to_nat (BitsetNumBits es + 1 - i) →
  range = Z.of_nat (length (members es (seqZ i (BitsetNumBits es - i)))) →
  (∀ w, w ∈ as_set es → w < i → w ∈ S0 ++ S) →
  ∃ t', visit_edges f es n i range t = Ok t' ∧
    ((∃ S', searching t' (S0 ++ S') K ∧ ∀ w, w ∈ as_set es → w ∈ S0 ++ S') ∨ found t' (length K)).
Proof.
  assert (Hlt : ∀ w, w ∈ as_set es → 0 ≤ w < BitsetNumBits es).
  { intros w [Hw Hm]%elem_of_as_set; [|done]. split; [lia|]. by apply member_below. }
  assert (HN : BitsetNumBits es < 2 ^ 32).
  { rewrite BitsetNumBits_ok by done. destruct Hes as (_ & _ & ?). lia. }
  revert i range t S. induction n as [|n IH]; intros i range t S Ht Hi Hn Hr Hs.
  { exists t. split; [done|]. left. exists S. split; [done|]. intros w Hw.
    apply Hs; [done|]. specialize (Hlt w Hw). lia. }
  cbn. destruct (Z.ltb_spec 0 range) as [H0|H0].
  - destruct (Z.lt_ge_cases i (BitsetNumBits es)) as [Hib|Hib].
    2:{ rewrite seqZ_nil in Hr by lia. cbn in Hr. lia. }
    rewrite seqZ_cons in Hr by lia. unfold members in Hr. rewrite filter_cons in Hr.
    replace (Z.succ i) with (i + 1) in Hr by lia.
    replace (Z.pred (BitsetNumBits es - i)) with (BitsetNumBits es - (i + 1)) in Hr by lia.
    destruct (BitsetMember es i) eqn:Em.
    + rewrite decide_True in Hr by done. cbn [length] in Hr.
      assert (Hin : i ∈ as_set es) by (apply elem_of_as_set; [done|]; split; [lia|done]).
      destruct (Hf t S i Ht) as (t1 & -> & [(S1 & Ht1 & Hi1)|Hfound]); [split; [done|by eauto]| |].
      * cbn. rewrite <-app_assoc in *. apply (IH _ _ _ (S ++ S1)); [done|lia|lia|unfold members; lia|].
        intros w Hw Hwi. destruct (decide (w = i)) as [->|]; [done|].
        rewrite app_assoc. apply elem_of_app. left. apply Hs; [done|lia].
      * cbn. exists t1. split; [apply visit_edges_found, Hfound|by right].
    + rewrite decide_False in Hr by done. apply (IH _ _ _ S); [done|lia|lia|done|].
      intros w Hw Hwi. destruct (decide (w = i)) as [->|]; [|apply Hs; [done|lia]].
      apply elem_of_as_set in Hw as [_ Hw]; [congruence|done].
  - exists t. split; [done|]. left. exists S. split; [done|]. intros w Hw.
    apply Hs; [done|]. destruct (Z.lt_ge_cases w i); [done|].
    assert (Hwm : w ∈ members es (seqZ i (BitsetNumBits es - i))).
    { unfold members. apply list_elem_of_filter. specialize (Hlt w Hw). split; [|apply elem_of_seqZ; lia].
      by apply elem_of_as_set in Hw as [_ ?]. }
    destruct (members es _); [by apply not_elem_of_nil in Hwm|cbn in Hr; lia].
Qed.
End visit.

(** Pushing a node on the stack and marking it as visited. *)
Lemma push_node t S K node b :
  graph_ok → searching t S K → path (K ++ [node]) → 0 ≤ node < Z.of_nat (length E) →
  visited t = Some b → BitsetMember b node = false →
  ∃ c c' b', cycle t = Some c ∧ store c (cycleMark t) (Some node) = Ok c' ∧
    BitsetAdd b node = Ok b' ∧
    searching (set_visited b' (set_cycle c' (u32 (cycleMark t + 1)) t)) S (K ++ [node]).
Proof.
  intros [Hg _] H Hp Hn Hb Hm. destruct (s_visited _ _ _ H) as (b0 & Eb & Hw & Hv).
  assert (b0 = b) as -> by congruence.
  assert (Hnew : node ∉ S ++ K).
  { rewrite Hv in Hm by lia. by apply bool_decide_eq_false in Hm. }
  assert (Hd : NoDup ((S ++ K) ++ [node])).
  { apply NoDup_app. split_and!; [apply H| |apply NoDup_singleton].
    intros x Hx ->%list_elem_of_singleton. done. }
  assert (Hl : Forall (λ z, 0 ≤ z < Z.of_nat (length E)) ((S ++ K) ++ [node])).
  { apply Forall_app. split; [apply H|by apply Forall_singleton]. }
  pose proof (nodup_bound _ _ Hd Hl) as Hr. rewrite !length_app in Hr. cbn in Hr.
  destruct (s_cycle _ _ _ H) as (rest & Hc & Hlen). destruct rest as [|o rest]; [cbn in Hlen; lia|].
  destruct (BitsetAdd_ok b node Hw) as (b' & Eb' & Hw' & Hv'); [lia|].
  exists ((Some <$> K) ++ o :: rest), ((Some <$> K) ++ Some node :: rest), b'. split_and!; [done| |done|].
  - apply store_middle. rewrite length_fmap. apply H.
  - pose proof (s_mark _ _ _ H) as Hmark. split; cbn; try apply H.
    + exists rest. rewrite fmap_app, <-app_assoc, length_app. split; [done|]. cbn in *. lia.
    + rewrite Hmark, u32_small, length_app by lia. cbn. lia.
    + exists b'. split_and!; [done..|]. intros z Hz. rewrite Hv', Hv by lia. rewrite app_assoc.
      apply eq_true_iff_eq. rewrite orb_true_iff, Z.eqb_eq, !bool_decide_eq_true.
      rewrite (elem_of_app (S ++ K)), list_elem_of_singleton. tauto.
    + by rewrite app_assoc.
    + by rewrite app_assoc.
    + done.
Qed.

(** Taking the node off the stack and putting it behind the sorted ones. *)
Lemma pop_node t S K node :
  graph_ok → searching t S (K ++ [node]) → (∀ w, depends node w → w ∈ S) →
  ∃ s s', sorted t = Some s ∧ store s (limit t) (Some node) = Ok s' ∧
    searching (set_cycleMark (u32 (cycleMark t - 1))
                (set_limit (u32 (limit t + 1)) (set_sorted s' t))) (S ++ [node]) K.
Proof.
  intros [Hg _] H Hdep. pose proof (searching_room _ _ _ H) as Hr.
  pose proof (s_limit _ _ _ H) as Hlim. pose proof (s_mark _ _ _ H) as Hmark.
  rewrite length_app in Hr, Hmark. cbn in Hr, Hmark.
  destruct (s_sorted _ _ _ H) as (rest & Hs & Hlen). destruct rest as [|o rest]; [cbn in Hlen; lia|].
  assert (Hperm : (S ++ [node]) ++ K ≡ₚ S ++ K ++ [node]).
  { rewrite <-app_assoc. apply Permutation_app_head, Permutation_app_comm. }
  exists ((Some <$> S) ++ o :: rest), ((Some <$> S) ++ Some node :: rest). split_and!; [done| |].
  - apply store_middle. by rewrite length_fmap.
  - split; cbn; try apply H.
    + exists rest. rewrite fmap_app, <-app_assoc, length_app. split; [done|]. cbn in *. lia.
    + destruct (s_cycle _ _ _ H) as (rc & Hc & Hlc). exists (Some node :: rc).
      rewrite fmap_app, <-app_assoc in Hc. rewrite length_app in Hlc. cbn in *. split; [done|lia].
    + rewrite Hmark, u32_small by lia. lia.
    + rewrite Hlim, u32_small, length_app by lia. cbn. lia.
    + destruct (s_visited _ _ _ H) as (b & Hb & Hw & Hv). exists b. split_and!; [done..|].
      intros z Hz. rewrite Hv by done. apply bool_decide_ext. by rewrite Hperm.
    + rewrite Hperm. apply H.
    + rewrite Hperm. apply H.
    + eapply path_prefix, H.
    + apply ordered_snoc; [apply H|done].
Qed.

(** The same when a cycle was found below the node. *)
Lemma unwind t n node :
  graph_ok → found t (S n) →
  ∃ s s', sorted t = Some s ∧ store s (limit t) (Some node) = Ok s' ∧
    found (set_limit (u32 (limit t + 1)) (set_sorted s' t)) n.
Proof.
  intros [Hg _] H. destruct (f_sorted _ _ H) as (s & Hs & Hl). pose proof (f_limit _ _ H) as [H0 Hlim].
  destruct (lookup_lt_is_Some_2 s (Z.to_nat (limit t))) as [o Ho]; [lia|].
  exists s, (<[Z.to_nat (limit t) := Some node]> s). split_and!; [done|by eapply store_lookup|].
  split; cbn; try apply H.
  - eexists. split; [done|]. by rewrite length_insert.
  - rewrite u32_small; lia.
Qed.

Lemma DFS_found fuel t w : hasCycle t = true → DFS (S fuel) t w = Ok t.
Proof. intros Ht. cbn. by rewrite Ht. Qed.

(** The dependencies of a node that is on the stack. *)
Lemma visit_ok fuel t S K node e :
  graph_ok → searching t S (K ++ [node]) → 0 ≤ node → E !! Z.to_nat node = Some e →
  (∀ t S' w, searching t (S ++ S') (K ++ [node]) → depends node w →
     dfs_post (S ++ S') (K ++ [node]) w (DFS fuel t w)) →
  (1 < fuel)%nat →
  ∃ t', match e with
        | None => Ok t
        | Some es =>
            visit_edges (DFS fuel) es (Z.to_nat (BitsetNumBits es + 1)) 0 (BitsetSize es) t
        end = Ok t' ∧
    ((∃ S', searching t' (S ++ S') (K ++ [node]) ∧ ∀ w, depends node w → w ∈ S ++ S')
     ∨ found t' (length (K ++ [node]))).
Proof.
  intros (_ & Hwords & _) H Hn He Hrec Hfuel. destruct e as [es|].
  - destruct fuel as [|fuel]; [lia|]. pose proof (Hwords _ _ He) as Hes.
    destruct (visit_edges_ok (DFS (Datatypes.S fuel)) S (K ++ [node]) node es) with
      (n := Z.to_nat (BitsetNumBits es + 1)) (i := 0) (range := BitsetSize es) (t := t) (S := @nil Z)
      as (t' & Heq & Hpost); try done.
    + intros t2 w. apply DFS_found.
    + by rewrite app_nil_r.
    + f_equal. lia.
    + rewrite BitsetSize_ok by done. by rewrite Z.sub_0_r.
    + intros w [Hw _]%elem_of_as_set; [lia|done].
    + exists t'. split; [done|]. destruct Hpost as [(S' & Ht & Hall)|]; [left|by right].
      exists S'. split; [done|]. intros w (_ & b & Hb & Hw). apply Hall. congruence.
  - exists t. split; [done|]. left. exists []. rewrite app_nil_r. split; [done|].
    intros w (_ & b & Hb & _). congruence.
Qed.

Lemma DFS_ok fuel t S K node :
  graph_ok → searching t S K → path (K ++ [node]) → 0 ≤ node < Z.of_nat (length E) →
  (length E + 1 < fuel + length S + length K)%nat → dfs_post S K node (DFS fuel t node).
Proof.
  intros Hg. revert t S K node. induction fuel as [|fuel IH]; intros t S K node H Hp Hn Hfuel.
  { pose proof (searching_room _ _ _ H). lia. }
  cbn [DFS]. rewrite (s_hasCycle _ _ _ H).
  destruct (s_visited _ _ _ H) as (b & Hb & Hw & Hv). rewrite Hb. cbn [deref mbind outcome_bind].
  pose proof Hg as [HE [Hwords Hdeps]].
  destruct (BitsetMember b node) eqn:Em.
  - rewrite Hv in Em by lia. apply bool_decide_eq_true in Em.
    destruct (decide (node ∈ K)) as [HK|HK].
    + destruct (on_stack_found t S K node Hg H Hp HK) as (t' & -> & Hf). exists t'. auto.
    + apply elem_of_app in Em as [Em|]; [|done]. exists t. split.
      * destruct (s_cycle _ _ _ H) as (rest & Hc & _). apply (find_cycle_skip K rest); [done|apply H|lia|].
        intros j _ Hj. by apply HK, list_elem_of_lookup_2 with j.
      * left. exists []. by rewrite app_nil_r.
  - destruct (push_node t S K node b Hg H Hp Hn Hb Em) as (c & c' & b' & -> & Hst & -> & H').
    cbn [deref mbind outcome_bind]. rewrite Hst. cbn [mbind outcome_bind].
    set (t1 := set_visited b' _) in *. rewrite (s_edges _ _ _ H'). cbn [deref mbind outcome_bind].
    destruct (lookup_lt_is_Some_2 E (Z.to_nat node)) as [e He]; [lia|].
    rewrite (index_lookup _ _ e) by (done || lia). cbn [mbind outcome_bind].
    destruct (visit_ok fuel t1 S K node e Hg) as (t2 & Hv2 & Hpost); try done.
    { lia. }
    { intros t2 S' w Ht2 Hd. apply IH; [done|..].
      - apply path_snoc; [apply Ht2|done].
      - by apply (Hdeps node).
      - rewrite !length_app. cbn. lia. }
    { pose proof (searching_room _ _ _ H') as Hr. rewrite length_app in Hr. cbn in Hr. lia. }
    rewrite Hv2. cbn [mbind outcome_bind]. destruct Hpost as [(S' & Ht2 & Hall)|Hf].
    + destruct (pop_node t2 (S ++ S') K node Hg Ht2 Hall) as (s & s' & -> & Hs' & Hpop).
      cbn [deref mbind outcome_bind]. rewrite Hs'. cbn. rewrite (s_hasCycle _ _ _ Ht2).
      eexists. split; [done|]. left. exists (S' ++ [node]). rewrite app_assoc. split; [done|].
      apply elem_of_app. right. by apply list_elem_of_singleton.
    + replace (length (K ++ [node])) with (Datatypes.S (length K)) in Hf by (rewrite length_app; cbn; lia).
      destruct (unwind t2 (length K) node Hg Hf) as (s & s' & -> & Hs' & Hun).
      cbn [deref mbind outcome_bind]. rewrite Hs'. cbn. rewrite (f_hasCycle _ _ Hf).
      eexists. split; [done|]. by right.
Qed.

(** *** The sort *)

Lemma visit_nodes_ok fuel n v t S :
  graph_ok → (length E + 1 < fuel)%nat → searching t S [] → 0 ≤ v →
  n = Z.to_nat (Z.of_nat (length E) - v) → (∀ w, 0 ≤ w < v → w < Z.of_nat (length E) → w ∈ S) →
  ∃ t', visit_nodes fuel n v t = Ok t' ∧
    ((∃ S', searching t' S' [] ∧ ∀ w, 0 ≤ w < Z.of_nat (length E) → w ∈ S') ∨ found t' 0).
Proof.
  intros Hg Hfuel. revert v t S. induction n as [|n IH]; intros v t S H Hv Hn Hall.
  { exists t. split; [done|]. left. exists S. split; [done|]. intros w Hw. apply Hall; lia. }
  cbn [visit_nodes]. destruct (s_visited _ _ _ H) as (b & Hb & Hw & Hm). rewrite Hb.
  cbn [deref mbind outcome_bind]. pose proof Hg as [HE _].
  assert (Hone : dfs_post S [] v (if BitsetMember b v then Ok t else DFS fuel t v)).
  { destruct (BitsetMember b v) eqn:Em.
    - exists t. split; [done|]. left. exists []. rewrite app_nil_r. split; [done|].
      rewrite Hm, app_nil_r in Em by lia. by apply bool_decide_eq_true in Em.
    - apply DFS_ok; [done|done| |lia|cbn; lia]. intros i x y Hx Hy. by destruct i. }
  destruct Hone as (t1 & -> & [(S1 & H1 & Hin)|Hf]); cbn [mbind outcome_bind].
  - rewrite (s_hasCycle _ _ _ H1). apply (IH _ _ (S ++ S1)); [done|lia|lia|].
    intros w Hwv Hwl. destruct (decide (w = v)) as [->|]; [done|].
    apply elem_of_app. left. apply Hall; lia.
  - rewrite (f_hasCycle _ _ Hf). eauto.
Qed.

(** The state in which [sortToArray] starts to visit the nodes. *)
Lemma start_searching n :
  graph_ok → n = length E →
  searching (mkTopo (Some E) (Some (replicate n None)) (Some (replicate n None)) false 0 0
               (Some BitsetNew)) [] [].
Proof.
  intros Hg ->. split; cbn; try done.
  - exists (replicate (length E) None). by rewrite length_replicate.
  - exists (replicate (length E) None). by rewrite length_replicate.
  - exists BitsetNew. split_and!; [done|by apply (words_ok_replicate 8); lia|].
    intros z Hz. rewrite (member_replicate 8) by lia. symmetry. apply bool_decide_eq_false, not_elem_of_nil.
  - constructor.
  - intros [|? ?] ? ? ?; done.
Qed.
End graph.

(** ** Building the graph *)

(** The sorter knows exactly the edges of the list, those from a node to itself
    apart, and its limit is one more than the largest node. *)
Record represents (t : TOPO) (l : list (Z * Z)) : Prop := {
  r_hasCycle : hasCycle t = false;
  r_mark : cycleMark t = 0;
  r_edges : match edges t with
            | None => l = [] ∧ limit t = 1
            | Some E => limit t = Z.of_nat (length E) ∧ 0 < limit t ∧ graph_ok E ∧
                ∀ v w, depends E v w ↔ (v, w) ∈ l ∧ v ≠ w
            end
}.
Definition above (m : Z) (e : Z * Z) : Z := Z.max m (Z.max e.1 e.2 + 1).

Lemma TopoNew_represents : represents TopoNew [].
Proof. by split. Qed.

Lemma depends_replicate E k v w : depends (E ++ replicate k None) v w ↔ depends E v w.
Proof.
  unfold depends. split; intros (H0 & b & Hb & Hw); (split; [done|]); exists b; (split; [|done]).
  - apply lookup_app_Some in Hb as [Hb|[_ Hb]]; [done|]. by apply lookup_replicate_1 in Hb as [? _].
  - by apply lookup_app_l_Some.
Qed.
Lemma graph_replicate E k :
  graph_ok E → Z.of_nat (length E + k) ≤ 2 ^ 31 → graph_ok (E ++ replicate k None).
Proof.
  intros (Hl & Hw & Hd) Hk. split; [by rewrite length_app, length_replicate|]. split.
  - intros i b [Hb|[_ Hb]]%lookup_app_Some; [by eapply Hw|]. by apply lookup_replicate_1 in Hb as [? _].
  - intros v w H. rewrite depends_replicate in H. specialize (Hd _ _ H). rewrite length_app. lia.
Qed.

Lemma room_for_ok t l m :
  represents t l → 0 ≤ m < 2 ^ 31 →
  ∃ t' E, room_for t m = Ok t' ∧ edges t' = Some E ∧ represents t' l ∧ limit t' = Z.max (limit t) (m + 1).
Proof.
  intros [Hc Hm He] H. unfold room_for. rewrite u32_small by lia.
  destruct (edges t) as [E|] eqn:Eq.
  - destruct He as (Hlim & Hpos & Hg & Hd). destruct (Z.leb_spec (limit t) m) as [Hle|Hle].
    + destruct (Z.eqb_spec (m + 1) 0); [lia|]. rewrite take_ge by lia.
      eexists _, _. split_and!; [done|done| |cbn; lia]. split; cbn; [done|done|].
      rewrite length_app, length_replicate. split_and!; [lia|lia|apply graph_replicate; [done|lia]|].
      intros v w. by rewrite depends_replicate.
    + exists t, E. split_and!; [done|done| |lia]. split; [done|done|]. by rewrite Eq.
  - destruct He as [-> Hlim]. eexists _, _. split_and!; [done|done| |cbn; lia]. split; cbn; [done|done|].
    rewrite length_replicate. split_and!; [lia|lia| |].
    + apply (graph_replicate []); [|cbn; lia].
      split_and!; [cbn; lia|by intros ? ? ?|]. by intros v w (_ & b & ? & _).
    + intros v w. rewrite <-(app_nil_l (replicate _ _)), depends_replicate. split.
      * by intros (_ & b & ? & _).
      * intros [Hn _]. by apply not_elem_of_nil in Hn.
Qed.

Lemma as_set_add a a' n :
  words_ok a → words_ok a' → 0 ≤ n < 2 ^ 31 →
  (∀ z, 0 ≤ z < 2 ^ 32 → BitsetMember a' z = (z =? n) || BitsetMember a z) →
  ∀ z, z ∈ as_set a' ↔ z = n ∨ z ∈ as_set a.
Proof.
  intros Ha Ha' Hn Hm z. rewrite !elem_of_as_set by done. split.
  - intros [Hz Hz']. rewrite Hm, orb_true_iff, Z.eqb_eq in Hz' by done. tauto.
  - intros [->|[Hz Hz']]; (split; [lia|]); rewrite Hm by lia; [by rewrite Z.eqb_refl|].
    by rewrite Hz', orb_true_r.
Qed.

Lemma addEdge_ok t l e d :
  represents t l → 0 ≤ e < 2 ^ 31 → 0 ≤ d < 2 ^ 31 →
  ∃ t', addEdge t e d = Ok t' ∧ represents t' (l ++ [(e, d)]) ∧ edges t' ≠ None ∧
    limit t' = above (limit t) (e, d).
Proof.
  intros H He Hd. unfold addEdge, above. cbn [fst snd].
  assert (Em : (if d <? e then e else d) = Z.max e d) by (destruct (Z.ltb_spec d e); lia).
  rewrite Em. destruct (room_for_ok t l (Z.max e d) H) as (t1 & E & -> & HE & [Hc1 Hm1 He1] & Hlim); [lia|].
  rewrite HE in He1. destruct He1 as (Hlen & Hpos & Hg & Hdep). cbn [mbind outcome_bind].
  destruct (Z.eqb_spec e d) as [<-|Hne].
  - exists t1. split_and!; [done| |by rewrite HE|done]. split; [done|done|]. rewrite HE.
    split_and!; [done..|]. intros v w. rewrite Hdep, elem_of_app, list_elem_of_singleton.
    split; [tauto|]. intros [[?|[= -> ->]] ?]; [by auto|done].
  - rewrite HE. cbn [deref mbind outcome_bind].
    destruct (lookup_lt_is_Some_2 E (Z.to_nat e)) as [o Ho]; [lia|].
    rewrite (index_lookup _ _ o) by (done || lia). cbn [mbind outcome_bind].
    assert (Hold : words_ok (default BitsetNew o) ∧
      ∀ w, w ∈ as_set (default BitsetNew o) ↔ depends E e w).
    { destruct o as [b|]; cbn.
      - split; [by eapply Hg|]. intros w. split; [by intros ?; split; [lia|eauto]|].
        intros (_ & b' & ? & ?). congruence.
      - split; [apply (words_ok_replicate 8); lia|]. intros w. split.
        + intros [Hw Hm]%elem_of_as_set; [|apply (words_ok_replicate 8); lia].
          by rewrite (member_replicate 8) in Hm.
        + intros (_ & b' & ? & ?). congruence. }
    destruct Hold as [Hw Hmem]. destruct (BitsetAdd_ok _ d Hw Hd) as (b' & -> & Hw' & Hadd).
    pose proof (as_set_add _ _ d Hw Hw' Hd Hadd) as Hset.
    cbn [mbind outcome_bind]. erewrite store_lookup by (done || lia). cbn [mbind outcome_bind].
    assert (Hdep' : ∀ v w, depends (<[Z.to_nat e := Some b']> E) v w
      ↔ depends E v w ∨ (v = e ∧ w = d)).
    { intros v w. unfold depends at 1. destruct (decide (v = e)) as [->|Hv].
      - rewrite list_lookup_insert_eq by by eapply lookup_lt_Some. split.
        + intros (_ & b & [= <-] & Hb%Hset). rewrite Hmem in Hb. tauto.
        + intros Hor. split; [lia|]. exists b'. split; [done|]. apply Hset. rewrite Hmem. tauto.
      - split.
        + intros (H0 & b & Hb & Hbw). rewrite list_lookup_insert_ne in Hb by lia. left. split; eauto.
        + intros [(H0 & b & Hb & Hbw)|[-> _]]; [|done]. split; [done|].
          exists b. by rewrite list_lookup_insert_ne by lia. }
    eexists. split_and!; [done| |done|done]. split; cbn; [done|done|]. rewrite length_insert.
    split_and!; [done|done| |].
    + destruct Hg as (Hl & Hws & Hds). split_and!; [by rewrite length_insert| |].
      * intros i b Hb. destruct (decide (i = Z.to_nat e)) as [->|].
        -- rewrite list_lookup_insert_eq in Hb by by eapply lookup_lt_Some. by injection Hb as <-.
        -- rewrite list_lookup_insert_ne in Hb by done. by eapply Hws.
      * intros v w [Hv|[-> ->]]%Hdep'; rewrite length_insert; [by eapply Hds|lia].
    + intros v w. rewrite Hdep', Hdep, elem_of_app, list_elem_of_singleton. split.
      * intros [[? ?]|[-> ->]]; [by auto|]. split; [by right|done].
      * intros [[?|[= -> ->]] ?]; auto.
Qed.

(** Adding the edges of a list in turn. *)
Fixpoint add_edges (t : TOPO) (l : list (Z * Z)) : outcome TOPO :=
  match l with
  | [] => Ok t
  | (e, d) :: l => t ← addEdge t e d; add_edges t l
  end.
(** One more than the largest node of the edges. *)
Definition node_count (l : list (Z * Z)) : Z := foldl above 1 l.
Definition node_ok (e : Z * Z) : Prop := 0 ≤ e.1 < 2 ^ 31 ∧ 0 ≤ e.2 < 2 ^ 31.

Lemma add_edges_ok t l0 l :
  represents t l0 → Forall node_ok l →
  ∃ t', add_edges t l = Ok t' ∧ represents t' (l0 ++ l) ∧ (l ≠ [] → edges t' ≠ None) ∧
    limit t' = foldl above (limit t) l.
Proof.
  intros Ht Hl. revert t l0 Ht. induction Hl as [|[e d] l [He Hd] Hl IH]; intros t l0 Ht.
  { exists t. rewrite app_nil_r. done. }
  destruct (addEdge_ok t l0 e d Ht He Hd) as (t1 & E1 & H1 & Hne & Hlim).
  destruct (IH t1 _ H1) as (t2 & E2 & H2 & Hne2 & Hlim2). exists t2. cbn. rewrite E1. cbn.
  split_and!; [done|by rewrite <-app_assoc in H2| |by rewrite <-Hlim].
  intros _. destruct l as [|x l]; [|by apply Hne2]. cbn in E2. by injection E2 as <-.
Qed.

(** [sortToArray] with the edges of a list. *)
Lemma sortToArray_ok t l fuel :
  represents t l → edges t ≠ None → (Z.to_nat (limit t) + 1 < fuel)%nat →
  ∃ E t', edges t = Some E ∧ sortToArray fuel t = Ok (sorted t', t') ∧ limit t' = limit t ∧
    ((∃ S, sorted t' = Some (Some <$> S) ∧ S ≡ₚ seqZ 0 (limit t) ∧ ordered E S ∧
       hasCycle t' = false ∧ cycleMark t' = 0)
     ∨ (hasCycle t' = true ∧ ∃ C rest, cycle t' = Some ((Some <$> C) ++ rest) ∧
          cycleMark t' = Z.of_nat (length C) ∧ is_cycle E C)).
Proof.
  intros [Hc Hm He] Hne Hfuel. destruct (edges t) as [E|] eqn:Eq; [|done].
  destruct He as (Hlen & Hpos & Hg & Hdep). exists E. unfold sortToArray. rewrite Eq, Hc, Hm.
  destruct (visit_nodes_ok E fuel (Z.to_nat (limit t)) 0
    (mkTopo (Some E) (Some (replicate (Z.to_nat (limit t)) None))
       (Some (replicate (Z.to_nat (limit t)) None)) false 0 0 (Some BitsetNew)) [])
    as (t1 & E1 & Hpost); [done|lia|apply start_searching; [done|lia]|done|lia|lia|].
  rewrite E1. cbn [mbind outcome_bind]. exists (set_limit (limit t) t1). split_and!; [done..|].
  destruct Hpost as [(S & Hs & Hall)|Hf]; [left|right].
  - exists S. cbn. pose proof (searching_room _ _ _ _ Hs) as Hr.
    pose proof (s_nodup _ _ _ _ Hs) as Hd. pose proof (s_nodes _ _ _ _ Hs) as Hn.
    rewrite app_nil_r in Hd, Hn.
    assert (Hperm : S ≡ₚ seqZ 0 (limit t)).
    { apply NoDup_Permutation; [done|apply NoDup_seqZ|]. intros z. rewrite elem_of_seqZ.
      rewrite Forall_forall in Hn. split; [intros Hz; specialize (Hn _ Hz); lia|].
      intros Hz. apply Hall. lia. }
    split_and!; [|done|apply Hs..].
    destruct (s_sorted _ _ _ _ Hs) as (rest & -> & Hrest).
    assert (length S = length E).
    { rewrite Hperm, length_seqZ. lia. }
    destruct rest; [by rewrite app_nil_r|cbn in Hrest; lia].
  - split; [apply Hf|]. apply Hf.
Qed.

(** ** Sorting a vector *)

Lemma insert_perm {A} (l : list A) i x y : l !! i = Some x → y :: l ≡ₚ x :: <[i:=y]> l.
Proof.
  intros Hi. destruct (insert_split l i x y Hi) as (l1 & l2 & -> & _ & ->).
  rewrite <-!Permutation_middle. apply Permutation_swap.
Qed.
Lemma swap_perm {A} (l : list A) i j a b :
  l !! i = Some a → l !! j = Some b → <[j:=a]> (<[i:=b]> l) ≡ₚ l.
Proof.
  intros Hi Hj. apply (Permutation_cons_inv (a := b)). rewrite (insert_perm l i a b Hi). symmetry.
  apply insert_perm. destruct (decide (i = j)) as [->|].
  - apply list_lookup_insert_eq. by eapply lookup_lt_Some.
  - by rewrite list_lookup_insert_ne.
Qed.

Definition places (m : Z) (l : list Z) : Prop := Forall (λ z, 0 ≤ z < m) l.

Lemma move_entries_ok {V} n i m S vIndex (v : VECTOR V) els :
  holds v els → m ≤ Z.of_nat (length els) → m = Z.of_nat (length S) → m = Z.of_nat (length vIndex) →
  places m S → places m vIndex → 0 ≤ i → Z.of_nat n + i = m →
  ∃ v' els', move_entries n i (Some <$> S) vIndex v = Ok v' ∧ holds v' els' ∧ els' ≡ₚ els.
Proof.
  intros Hv Hm HS. revert i vIndex v els Hv Hm. induction n as [|n IH];
    intros i vIndex v els Hv Hm Hi HpS HpI H0 Hn; [by exists v, els|]. cbn [move_entries].
  destruct (lookup_lt_is_Some_2 S (Z.to_nat i)) as [x Hx]; [lia|].
  pose proof (Forall_lookup_1 _ _ _ _ HpS Hx) as Hxm. cbn in Hxm.
  rewrite (index_lookup _ _ (Some x)) by (done || by rewrite list_lookup_fmap, Hx).
  cbn [init mbind outcome_bind]. destruct (lookup_lt_is_Some_2 vIndex (Z.to_nat x)) as [d Hd]; [lia|].
  pose proof (Forall_lookup_1 _ _ _ _ HpI Hd) as Hdm. cbn in Hdm.
  rewrite (index_lookup _ _ d) by (done || lia). cbn [mbind outcome_bind].
  destruct (Z.eqb_spec d i); [apply IH; done || lia|].
  destruct (lookup_lt_is_Some_2 els (Z.to_nat i)) as [a Ha]; [lia|].
  destruct (lookup_lt_is_Some_2 els (Z.to_nat d)) as [b Hb]; [lia|].
  destruct (VectorSwap_ok v els _ _ a b Hv Ha Hb) as (v1 & E1 & Hv1). rewrite !Z2Nat.id in E1 by lia.
  rewrite E1. cbn [mbind outcome_bind]. rewrite (store_lookup _ _ _ d) by (done || lia).
  cbn [mbind outcome_bind].
  destruct (lookup_lt_is_Some_2 (<[Z.to_nat x:=i]> vIndex) (Z.to_nat i)) as [y Hy];
    [rewrite length_insert; lia|].
  rewrite (store_lookup _ _ _ y) by (done || lia). cbn [mbind outcome_bind].
  set (vI := <[Z.to_nat i:=d]> _).
  assert (HvI : m = Z.of_nat (length vI) ∧ places m vI).
  { split; [unfold vI; rewrite !length_insert; lia|].
    apply Forall_insert; [apply Forall_insert; [done|lia]|lia]. }
  clearbody vI. set (els1 := <[Z.to_nat d:=a]> _) in *.
  assert (Hels : els1 ≡ₚ els) by by apply swap_perm.
  destruct (IH (i + 1) vI v1 els1 Hv1) as (v' & els' & E' & Hv' & Hp'); try tauto || lia.
  { rewrite Hels. done. }
  rewrite E'. exists v', els'. split_and!; [done..|]. by rewrite Hp'.
Qed.

(** C17: [sortToArray] finds a topological order or a cycle.  For a sorter to which
    any edges between nodes below 2^31 were added, the search ends (within as many
    nested calls as there are nodes, and two), without an access outside its arrays.
    Either the result has every node up to the largest one exactly once, and every
    node behind all those it depends on, and no cycle is reported; or [hasCycle] is
    set and the first [cycleMark] entries of [cycle] are a cycle of edges that were
    added. *)
Theorem sortToArray_topological l fuel :
  l ≠ [] → Forall node_ok l → (Z.to_nat (node_count l) + 1 < fuel)%nat →
  ∃ t t', add_edges TopoNew l = Ok t ∧ sortToArray fuel t = Ok (sorted t', t') ∧
    ((∃ S, sorted t' = Some (Some <$> S) ∧ S ≡ₚ seqZ 0 (node_count l) ∧
       hasCycle t' = false ∧ cycleMark t' = 0 ∧
       ∀ v w, (v, w) ∈ l → v ≠ w → ∃ S1 S2, S = S1 ++ v :: S2 ∧ w ∈ S1)
     ∨ (hasCycle t' = true ∧ ∃ c C rest, cycle t' = Some ((Some <$> c :: C) ++ rest) ∧
          cycleMark t' = Z.of_nat (length (c :: C)) ∧
          ∀ i v w, (c :: C ++ [c]) !! i = Some v → (c :: C ++ [c]) !! S i = Some w →
            (v, w) ∈ l ∧ v ≠ w)).
Proof.
  intros Hne Hl Hfuel. destruct (add_edges_ok TopoNew [] l TopoNew_represents Hl)
    as (t & Et & Ht & Hedges & Hlim). specialize (Hedges Hne). cbn in Ht, Hlim.
  fold (node_count l) in Hlim. rewrite <-Hlim in *.
  destruct (sortToArray_ok t l fuel Ht Hedges Hfuel) as (E & t' & HE & Es & _ & Hcase).
  pose proof (r_edges _ _ Ht) as He. rewrite HE in He. destruct He as (Hlen & _ & Hg & Hdep).
  exists t, t'. split_and!; [done..|]. destruct Hcase as [(S & HS & Hp & Ho & Hc & Hm)|(Hc & C & rest & HC & Hm & Hcyc)].
  - left. exists S. split_and!; [done..|]. intros v w Hvw Hn.
    assert (Hd : depends E v w) by by apply Hdep.
    assert (Hv : v ∈ S).
    { rewrite Hp, elem_of_seqZ. destruct Hd as (H0 & b & Hb%lookup_lt_Some & _). lia. }
    apply list_elem_of_split in Hv as (S1 & S2 & HS12). exists S1, S2. split; [done|]. by eapply Ho.
  - right. split; [done|]. destruct C as [|c C]; [done|]. exists c, C, rest. split_and!; [done..|].
    intros i v w Hv Hw. apply Hdep. by apply (Hcyc i).
Qed.
Lemma sortToArray_topological_witness :
  match add_edges TopoNew [(3, 0); (0, 1); (2, 2)] with
  | Ok t => fst <$> sortToArray 6 t = Ok (Some (Some <$> [1; 0; 2; 3]))
  | _ => False
  end ∧
  ∃ t t', add_edges TopoNew [(0, 2); (2, 3); (3, 0)] = Ok t ∧ sortToArray 6 t = Ok (sorted t', t') ∧
    hasCycle t' = true.
Proof.
  split; [by vm_compute|].
  destruct (sortToArray_topological [(0, 2); (2, 3); (3, 0)] 6) as (t & t' & Et & Es & Hcase).
  - done.
  - repeat (apply Forall_cons; split; [split; cbn; lia|]). constructor.
  - vm_compute. lia.
  - exists t, t'. split_and!; [done..|].
    assert (H : (t ← add_edges TopoNew [(0, 2); (2, 3); (3, 0)];
                 '(_, t') ← sortToArray 6 t; Ok (hasCycle t')) = Ok true) by (vm_compute; reflexivity).
    rewrite Et in H. cbn [mbind outcome_bind] in H. rewrite Es in H. by injection H.
Defined.

(** [sortVector] never loses or duplicates an element: whatever edges were
    added, if the vector has an entry for every node, then the sorted vector has the
    same elements in some order, and the vector is left alone when the edges have a
    cycle. *)
Theorem sortVector_permutes {V} l fuel (v : VECTOR V) els :
  l ≠ [] → Forall node_ok l → (Z.to_nat (node_count l) + 1 < fuel)%nat →
  holds v els → node_count l ≤ Z.of_nat (length els) →
  ∃ t t' v' els', add_edges TopoNew l = Ok t ∧ sortVector fuel t v = Ok (t', v') ∧
    holds v' els' ∧ els' ≡ₚ els ∧ (hasCycle t' = true → v' = v).
Proof.
  intros Hne Hl Hfuel Hv Hlen. destruct (add_edges_ok TopoNew [] l TopoNew_represents Hl)
    as (t & Et & Ht & Hedges & Hlim). specialize (Hedges Hne). cbn in Ht, Hlim.
  fold (node_count l) in Hlim. rewrite <-Hlim in *.
  destruct (sortToArray_ok t l fuel Ht Hedges Hfuel) as (E & t' & HE & Es & Hlim' & Hcase).
  pose proof (r_edges _ _ Ht) as He. rewrite HE in He. destruct He as (_ & Hpos & _).
  exists t. unfold sortVector. rewrite Es. cbn [mbind outcome_bind].
  destruct Hcase as [(S & HS & Hp & _ & Hc & _)|(Hc & C & rest & HC & _)].
  - rewrite HS, Hc, (h_count _ _ Hv), Hlim'.
    destruct (Z.ltb_spec (Z.of_nat (length els)) (limit t)); [lia|]. rewrite Hlim'.
    destruct (move_entries_ok (Z.to_nat (limit t)) 0 (limit t) S (seqZ 0 (limit t)) v els)
      as (v' & els' & Ev & Hv' & Hperm); [done|lia| | | | |lia|lia|].
    + rewrite Hp, length_seqZ. lia.
    + rewrite length_seqZ. lia.
    + unfold places. rewrite Hp. apply Forall_forall. intros z Hz%elem_of_seqZ. lia.
    + apply Forall_forall. intros z Hz%elem_of_seqZ. lia.
    + rewrite Ev. exists t', v', els'. split_and!; [done..|]. congruence.
  - destruct (sorted t') as [s|]; [rewrite Hc|]; by exists t', v, els.
Qed.

(** The vector with the elements [a], [b] and [c]. *)
Definition vector_of {V} (l : list V) : outcome (VECTOR V) :=
  foldl (λ v x, v ← v; '(_, v) ← VectorAdd v (Some x) false; Ok v) (Ok (VectorNew 0)) l.
Lemma sortVector_permutes_witness :
  ∃ t t' v v' els',
    vector_of [10; 11; 12] = Ok v ∧ add_edges TopoNew [(0, 1); (0, 2)] = Ok t ∧
    sortVector 5 t v = Ok (t', v') ∧ holds v' els' ∧
    els' ≡ₚ (λ x, mkElement (Some x) false) <$> [10; 11; 12].
Proof.
  assert (∃ v, vector_of [10; 11; 12] = Ok v ∧
    holds v ((λ x, mkElement (Some x) false) <$> [10; 11; 12])) as (v & Ev & Hv).
  { eexists. split; [vm_compute; reflexivity|]. split; try done.
    eexists. reflexivity. }
  destruct (sortVector_permutes [(0, 1); (0, 2)] 5 v
    ((λ x, mkElement (Some x) false) <$> [10; 11; 12])) as (t & t' & v' & els' & Et & Es & Hv' & Hp & _);
    [done| | |exact Hv|vm_compute; congruence|].
  - repeat (apply Forall_cons; split; [split; cbn; lia|]). constructor.
  - vm_compute. lia.
  - exists t, t', v, v', els'. done.
Defined.

(** [sortVector] does not always put the elements in the order that
    [sortToArray] computed.  When node 0 depends on nodes 1 and 2 the order is 1, 2,
    0, but the vector [a; b; c] becomes [b; a; c]: the index table is updated at the
    place that was filled and not at the node that was moved away.  With a vector
    that is shorter than the sorted nodes it reads outside the index table. *)
Theorem sortVector_misplaces {V} (a b c : V) :
  ∃ t, add_edges TopoNew [(0, 1); (0, 2)] = Ok t ∧
    fst <$> sortToArray 5 t = Ok (Some (Some <$> [1; 2; 0])) ∧
    (v ← vector_of [a; b; c]; '(_, v) ← sortVector 5 t v; oc_map (VectorGet v) [0; 1; 2])
    = Ok [Some b; Some a; Some c] ∧
    (v ← vector_of [a; b]; sortVector 5 t v) = Undef BadIndex.
Proof.
  eexists. split; [vm_compute; reflexivity|]. split_and!; vm_compute; reflexivity.
Qed.
