(* ===== verification/CyclicDFA.v ===== *)
(** The cyclic automata that ANTLR recognizers predict with:
    src/antlr/libantlr3c-3.4/src/antlr3cyclicdfa.c, over the interface of input
    streams of antlr3intstream.h. *)
From S2P Require Import Prelude CppString.

(** ** Streams of integers

    What a recognizer asks of its input: the element ahead as a signed 32 bit
    number (-1 at the end), consuming it, and going back to a mark. *)
Class IntStream (A : Type) : Type := {
  LA1 : A → Z;
  consume : A → A;
  mark : A → Z * A;
  rewind : A → Z → A
}.

(** [remaining] counts the elements that are left; [same_place] holds of two
    states of a stream at the same element; [stream_ok] is the invariant of the
    stream. *)
Class IntStreamLaws (A : Type) `{!IntStream A} : Type := {
  remaining : A → nat;
  stream_ok : A → Prop;
  same_place : A → A → Prop;
  same_place_ok s s' : stream_ok s → same_place s s' → stream_ok s';
  same_place_remaining s s' : same_place s s' → remaining s' = remaining s;
  LA1_end s : remaining s = 0%nat → LA1 s = -1;
  remaining_consume s : remaining (consume s) = pred (remaining s);
  remaining_mark s : remaining (mark s).2 = remaining s;
  rewind_mark s n : stream_ok s →
    same_place s (rewind (Nat.iter n consume (mark s).2) (mark s).1)
}.

(** ** Automata *)

(** The tables, one entry per state. *)
Record CYCLIC_DFA : Type := mkCyclicDFA {
  decisionNumber : Z;
  eot : list Z;
  eof : list Z;
  min : list Z;
  max : list Z;
  accept : list Z;
  special : list Z;
  transition : list (option (list Z))
}.

(** [antlr3dfaspecialStateTransition], the default that every table uses. *)
Definition specialStateTransition (s : Z) : Z := -1.

Section predict.
Context {A : Type} `{!IntStream A}.
Variable cdfa : CYCLIC_DFA.

(** The loop of [antlr3dfapredict] from state [s]; the result is [None] when it
    raises a no viable alternative exception, in which case the code returns 0. *)
Fixpoint predict_loop (fuel : nat) (mark : Z) (s : Z) (istr : A)
    : outcome (option Z * A) :=
  match fuel with
  | O => Undef NoFuel
  | S fuel =>
      specialState ← index (special cdfa) s;
      if 0 <=? specialState then
        let s := specialStateTransition specialState in
        if s <? 0 then Ok (None, rewind istr mark)
        else predict_loop fuel mark s (consume istr)
      else
        acc ← index (accept cdfa) s;
        if 1 <=? acc then Ok (Some acc, rewind istr mark)
        else
          let c := LA1 istr in
          lo ← index (min cdfa) s;
          hi ← index (max cdfa) s;
          e ← index (eot cdfa) s;
          if (lo <=? c) && (c <=? hi) then
            t ← index (transition cdfa) s;
            t ← deref t;
            snext ← index t (c - lo);
            if snext <? 0 then
              if 0 <=? e then predict_loop fuel mark e (consume istr)
              else Ok (None, rewind istr mark)
            else predict_loop fuel mark snext (consume istr)
          else if 0 <=? e then predict_loop fuel mark e (consume istr)
          else
            f ← index (eof cdfa) s;
            if (c =? -1) && (0 <=? f) then
              acc ← index (accept cdfa) f; Ok (Some acc, rewind istr mark)
            else Ok (None, rewind istr mark)
  end.

(** [antlr3dfapredict] *)
Definition predict (fuel : nat) (istr : A) : outcome (option Z * A) :=
  let '(mark, istr) := mark istr in predict_loop fuel mark 0 istr.

End predict.

(** ** Well formed tables *)

(** A jump leads to a state. *)
Definition state_ok (cdfa : CYCLIC_DFA) (s : Z) : bool :=
  (0 <=? s) && (s <? Z.of_nat (length (accept cdfa))).
Definition jump_ok (cdfa : CYCLIC_DFA) (s : Z) : bool := (s <? 0) || state_ok cdfa s.

Definition accepting (cdfa : CYCLIC_DFA) (s : Z) : bool :=
  match index (accept cdfa) s with Ok a => 1 <=? a | _ => false end.

(** What a state that does not accept needs: no special transition, a range of
    non-negative elements covered by its table, whose entries lead to states,
    and jumps to accepting states at the end of a token and of the input. *)
Definition row_ok (cdfa : CYCLIC_DFA) (s : Z) : bool :=
  match index (special cdfa) s, index (min cdfa) s, index (max cdfa) s, index (eot cdfa) s,
        index (eof cdfa) s, index (transition cdfa) s with
  | Ok sp, Ok lo, Ok hi, Ok e, Ok f, Ok t =>
      (sp <? 0) &&
      (accepting cdfa s ||
       (0 <=? lo) && ((e <? 0) || accepting cdfa e) && ((f <? 0) || accepting cdfa f) &&
       match t with
       | Some t => (Z.of_nat (length t) =? hi - lo + 1) && forallb (jump_ok cdfa) t
       | None => hi <? lo
       end)
  | _, _, _, _, _, _ => false
  end.

Definition dfa_ok (cdfa : CYCLIC_DFA) : bool :=
  (0 <? length (accept cdfa))%nat &&
  forallb (λ s, row_ok cdfa (Z.of_nat s)) (seq 0 (length (accept cdfa))).

(** ** Lemmas *)

Lemma index_ok {A} (l : list A) i :
  0 ≤ i < Z.of_nat (length l) → ∃ x, index l i = Ok x ∧ l !! Z.to_nat i = Some x.
Proof.
  intros H. unfold index. destruct (Z.ltb_spec i 0); [lia|].
  destruct (lookup_lt_is_Some_2 l (Z.to_nat i)) as [x Hx]; [lia|].
  rewrite Hx. by exists x.
Qed.

Lemma state_ok_spec cdfa s :
  state_ok cdfa s = true → 0 ≤ s < Z.of_nat (length (accept cdfa)).
Proof. unfold state_ok. rewrite andb_true_iff, Z.leb_le, Z.ltb_lt. done. Qed.

Lemma dfa_ok_row cdfa s : dfa_ok cdfa = true → state_ok cdfa s = true → row_ok cdfa s = true.
Proof.
  unfold dfa_ok. rewrite andb_true_iff, forallb_forall. intros [_ H] Hs%state_ok_spec.
  specialize (H (Z.to_nat s)). rewrite Z2Nat.id in H by lia. apply H, in_seq. lia.
Qed.

Lemma accepting_state cdfa s : accepting cdfa s = true → state_ok cdfa s = true.
Proof.
  unfold accepting, index, state_ok. intros H. destruct (Z.ltb_spec s 0); [done|].
  destruct (accept cdfa !! Z.to_nat s) eqn:E; [|done].
  apply lookup_lt_Some in E. apply andb_true_iff. rewrite Z.leb_le, Z.ltb_lt. lia.
Qed.

Section predict_total.
Context {A : Type} `{IntStreamLaws A}.
Variable cdfa : CYCLIC_DFA.
Hypothesis tables : dfa_ok cdfa = true.

(** An alternative of the tables, or an exception. *)
Definition outcome_ok (r : option Z) : Prop :=
  match r with Some a => a ∈ accept cdfa ∧ 1 ≤ a | None => True end.

Lemma index_elem {B} (l : list B) i x : index l i = Ok x → x ∈ l.
Proof.
  unfold index. destruct (i <? 0); [done|].
  destruct (l !! Z.to_nat i) eqn:E; [|done]. intros [= <-]. by eapply list_elem_of_lookup_2.
Qed.

(** An accepting state answers at once. *)
Lemma predict_loop_accept fuel m s i :
  accepting cdfa s = true →
  ∃ a, predict_loop cdfa (S fuel) m s i = Ok (Some a, rewind i m) ∧
       a ∈ accept cdfa ∧ 1 ≤ a.
Proof.
  intros Ha. pose proof (dfa_ok_row _ _ tables (accepting_state _ _ Ha)) as Hr.
  unfold row_ok in Hr. destruct (index (special cdfa) s) as [sp|?|?] eqn:Es; [|done..].
  destruct (index (min cdfa) s), (index (max cdfa) s), (index (eot cdfa) s),
    (index (eof cdfa) s), (index (transition cdfa) s); try done.
  apply andb_true_iff in Hr as [Hsp%Z.ltb_lt _].
  cbn [predict_loop]. rewrite Es. cbn [mbind outcome_bind].
  destruct (Z.leb_spec 0 sp); [lia|]. unfold accepting in Ha.
  destruct (index (accept cdfa) s) as [v|?|?] eqn:Ea; [|done..].
  cbn [mbind outcome_bind]. rewrite Ha. eexists.
  split; [done|]. split; [by apply index_elem in Ea|by apply Z.leb_le].
Qed.

Lemma predict_loop_total fuel m s i :
  state_ok cdfa s = true → (remaining i + 2 ≤ fuel)%nat →
  ∃ r n, predict_loop cdfa fuel m s i = Ok (r, rewind (Nat.iter n consume i) m) ∧ outcome_ok r.
Proof.
  revert s i. induction fuel as [|fuel IH]; intros s i Hs Hf; [lia|].
  destruct (accepting cdfa s) eqn:Ha.
  { destruct (predict_loop_accept fuel m s i Ha) as (a & -> & ?). by exists (Some a), 0%nat. }
  pose proof (dfa_ok_row _ _ tables Hs) as Hr. unfold row_ok in Hr.
  rewrite Ha in Hr. unfold accepting in Ha. cbn [predict_loop].
  destruct (index (special cdfa) s) as [sp|?|?]; [|done..].
  destruct (index (min cdfa) s) as [lo|?|?]; [|done..].
  destruct (index (max cdfa) s) as [hi|?|?]; [|done..].
  destruct (index (eot cdfa) s) as [e|?|?]; [|done..].
  destruct (index (eof cdfa) s) as [f|?|?]; [|done..].
  destruct (index (transition cdfa) s) as [t|?|?]; [|done..].
  cbn [orb] in Hr. rewrite !andb_true_iff in Hr. destruct Hr as (Hsp%Z.ltb_lt & ((Hlo%Z.leb_le & He) & Hff) & Ht).
  cbn [mbind outcome_bind orb] in *. destruct (Z.leb_spec 0 sp); [lia|].
  destruct (index_ok (accept cdfa) s (state_ok_spec _ _ Hs)) as (acc & Hia & _).
  rewrite Hia in Ha |- *. cbn [mbind outcome_bind]. rewrite Ha.
  assert (∃ r n, (if 0 <=? e then predict_loop cdfa fuel m e (consume i) else Ok (None, rewind i m))
    = Ok (r, rewind (Nat.iter n consume i) m) ∧ outcome_ok r) as Heot.
  { destruct (Z.leb_spec 0 e); [|by exists None, 0%nat].
    destruct fuel as [|fuel]; [lia|]. destruct (Z.ltb_spec e 0); [lia|].
    destruct (predict_loop_accept fuel m e (consume i) He) as (a' & -> & ?).
    by exists (Some a'), 1%nat. }
  destruct ((lo <=? LA1 i) && (LA1 i <=? hi)) eqn:Ec.
  - apply andb_true_iff in Ec as [Ec1%Z.leb_le Ec2%Z.leb_le].
    destruct t as [t|]; [|lia]. apply andb_true_iff in Ht as [Hl%Z.eqb_eq Hj].
    cbn [deref mbind outcome_bind].
    destruct (index_ok t (LA1 i - lo)) as (x & -> & Hx); [lia|]. cbn [mbind outcome_bind].
    destruct (Z.ltb_spec x 0); [done|].
    assert (state_ok cdfa x = true) as Hx'.
    { rewrite forallb_forall in Hj. specialize (Hj x). unfold jump_ok in Hj.
      destruct (Z.ltb_spec x 0); [lia|]. apply Hj.
      apply list_elem_of_In. by eapply list_elem_of_lookup_2. }
    assert (remaining i ≠ 0)%nat as Hrem. { intros He0%LA1_end. lia. }
    destruct (IH x (consume i) Hx') as (r & n & -> & ?).
    { rewrite remaining_consume. lia. }
    exists r, (S n). by rewrite Nat.iter_succ_r.
  - destruct (0 <=? e); [done|]. destruct ((LA1 i =? -1) && (0 <=? f)) eqn:Ef;
      [|by exists None, 0%nat].
    apply andb_true_iff in Ef as [_ Hf0%Z.leb_le].
    destruct (Z.ltb_spec f 0); [lia|]. cbn [orb] in Hff. unfold accepting in Hff.
    destruct (index (accept cdfa) f) as [y|?|?] eqn:Hy; [|done..].
    exists (Some y), 0%nat. split; [done|].
    split; [by apply index_elem in Hy|by apply Z.leb_le].
Qed.

(** Prediction on well formed tables returns, and comes back to where it was. *)
Lemma predict_total fuel i :
  stream_ok i → (remaining i + 2 ≤ fuel)%nat →
  ∃ r i', predict cdfa fuel i = Ok (r, i') ∧ same_place i i' ∧ outcome_ok r.
Proof.
  intros Hok Hf. unfold predict. pose proof (remaining_mark i) as Hm.
  pose proof (λ n, rewind_mark i n Hok) as Hw. destruct (mark i) as [m i0] eqn:E. cbn [fst snd] in *.
  destruct (predict_loop_total fuel m 0 i0) as (r & n & -> & Hr).
  - pose proof tables as Ht. unfold dfa_ok in Ht. apply andb_true_iff in Ht as [Ht%Nat.ltb_lt _].
    unfold state_ok. apply andb_true_iff. rewrite Z.leb_le, Z.ltb_lt. lia.
  - lia.
  - by exists r, (rewind (Nat.iter n consume i0) m).
Qed.

End predict_total.
