(* ===== verification/LexerTables.v ===== *)
(** The tables of src/parser/RepositoryManagerLexer.c: the literals of the
    tokens and the transition tables of the automaton that chooses the token
    rule, transcribed entry by entry. *)
From S2P Require Import Prelude CyclicDFA.

(** ** Literals *)

Definition lit_1 : list Z :=
  [58; 45].
Definition lit_2 : list Z :=
  [100; 97; 116; 105; 109; 101].
Definition lit_3 : list Z :=
  [114; 101; 113; 117; 101; 115; 116].
Definition lit_4 : list Z :=
  [115; 97; 121; 115].
Definition lit_5 : list Z :=
  [45; 45; 45; 45; 45; 66; 69; 71; 73; 78; 32; 77; 80; 75; 73; 32; 67; 82; 69; 68; 69;
    78; 84; 73; 65; 76; 45; 45; 45; 45; 45].
Definition lit_6 : list Z :=
  [45; 45; 45; 45; 45; 69; 78; 68; 32; 77; 80; 75; 73; 32; 67; 82; 69; 68; 69; 78; 84;
    73; 65; 76; 45; 45; 45; 45; 45].
Definition lit_7 : list Z :=
  [45; 45; 45; 45; 45; 66; 69; 71; 73; 78; 32; 80; 85; 66; 76; 73; 67; 32; 75; 69; 89;
    45; 45; 45; 45; 45].
Definition lit_8 : list Z :=
  [45; 45; 45; 45; 45; 69; 78; 68; 32; 80; 85; 66; 76; 73; 67; 32; 75; 69; 89; 45; 45;
    45; 45; 45].
Definition lit_9 : list Z :=
  [45; 45; 45; 45; 45; 66; 69; 71; 73; 78; 32; 83; 73; 71; 78; 65; 84; 85; 82; 69; 45;
    45; 45; 45; 45].
Definition lit_10 : list Z :=
  [45; 45; 45; 45; 45; 69; 78; 68; 32; 83; 73; 71; 78; 65; 84; 85; 82; 69; 45; 45; 45;
    45; 45].
Definition lit_11 : list Z :=
  [45; 45; 45; 45; 45; 66; 69; 71; 73; 78; 32; 86; 65; 76; 73; 68; 73; 84; 89; 45; 45;
    45; 45; 45].
Definition lit_12 : list Z :=
  [45; 45; 45; 45; 45; 69; 78; 68; 32; 86; 65; 76; 73; 68; 73; 84; 89; 45; 45; 45; 45;
    45].
Definition lit_13 : list Z :=
  [45; 45; 45; 45; 45; 66; 69; 71; 73; 78; 32; 77; 80; 75; 73; 32; 67; 69; 82; 84; 73;
    70; 73; 67; 65; 84; 69; 45; 45; 45; 45; 45].
Definition lit_14 : list Z :=
  [45; 45; 45; 45; 45; 69; 78; 68; 32; 77; 80; 75; 73; 32; 67; 69; 82; 84; 73; 70; 73;
    67; 65; 84; 69; 45; 45; 45; 45; 45].
Definition lit_15 : list Z :=
  [45; 45; 45; 45; 45; 66; 69; 71; 73; 78; 32; 77; 80; 75; 73; 32; 67; 72; 65; 76; 76;
    69; 78; 71; 69; 45; 45; 45; 45; 45].
Definition lit_16 : list Z :=
  [45; 45; 45; 45; 45; 69; 78; 68; 32; 77; 80; 75; 73; 32; 67; 72; 65; 76; 76; 69; 78;
    71; 69; 45; 45; 45; 45; 45].
Definition lit_17 : list Z :=
  [45; 45; 45; 45; 45; 66; 69; 71; 73; 78; 32; 77; 80; 75; 73; 32; 67; 72; 65; 76; 76;
    69; 78; 71; 69; 32; 82; 69; 83; 80; 79; 78; 83; 69; 45; 45; 45; 45; 45].
Definition lit_18 : list Z :=
  [45; 45; 45; 45; 45; 69; 78; 68; 32; 77; 80; 75; 73; 32; 67; 72; 65; 76; 76; 69; 78;
    71; 69; 32; 82; 69; 83; 80; 79; 78; 83; 69; 45; 45; 45; 45; 45].
Definition lit_19 : list Z :=
  [45; 45; 45; 45; 45; 66; 69; 71; 73; 78; 32; 82; 69; 80; 79; 83; 73; 84; 79; 82; 89;
    32; 67; 76; 73; 69; 78; 84; 32; 82; 69; 81; 85; 69; 83; 84; 45; 45; 45; 45; 45].
Definition lit_20 : list Z :=
  [45; 45; 45; 45; 45; 69; 78; 68; 32; 82; 69; 80; 79; 83; 73; 84; 79; 82; 89; 32; 67;
    76; 73; 69; 78; 84; 32; 82; 69; 81; 85; 69; 83; 84; 45; 45; 45; 45; 45].
Definition lit_21 : list Z :=
  [45; 45; 45; 45; 45; 66; 69; 71; 73; 78; 32; 82; 69; 80; 79; 83; 73; 84; 79; 82; 89;
    32; 83; 69; 82; 86; 69; 82; 32; 82; 69; 80; 76; 89; 45; 45; 45; 45; 45].
Definition lit_22 : list Z :=
  [45; 45; 45; 45; 45; 69; 78; 68; 32; 82; 69; 80; 79; 83; 73; 84; 79; 82; 89; 32; 83;
    69; 82; 86; 69; 82; 32; 82; 69; 80; 76; 89; 45; 45; 45; 45; 45].
Definition lit_23 : list Z :=
  [78; 111; 116; 32; 98; 101; 102; 111; 114; 101; 58].
Definition lit_24 : list Z :=
  [78; 111; 116; 32; 97; 102; 116; 101; 114; 58].

(** ** The automaton *)

Definition dfa4_eot : list Z :=
  [11; (-1); (-1); (-1); (-1); 14; 14; 14; 14; (-1); 11; (-1); 14; 14; (-1); 21; 14;
    14; 14; 14; 14; (-1); 14; 14; 14; 14; 14; 14; 14; 34; 14; (-1); 14; 14; (-1); 14;
    (-1); (-1); 42; 14; 14; 14; (-1); 46; 14; 14; (-1); 14; 14; 14; (-1); 14; (-1);
    (-1); (-1); (-1); (-1); (-1); (-1); (-1); (-1); (-1); (-1); (-1); (-1); (-1); (-1);
    (-1); (-1); (-1); (-1); (-1); (-1); (-1); (-1); (-1); (-1); (-1); (-1); (-1); (-1);
    (-1); (-1); (-1); (-1); (-1); (-1); (-1); (-1); (-1); (-1); (-1); (-1); (-1); (-1);
    (-1); (-1); (-1); (-1); (-1); (-1); (-1); (-1); (-1); (-1); (-1); (-1); (-1); (-1);
    (-1); (-1); (-1); (-1); (-1); (-1); (-1); (-1); (-1); (-1); (-1); (-1)].
Definition dfa4_eof : list Z :=
  [(-1); (-1); (-1); (-1); (-1); (-1); (-1); (-1); (-1); (-1); (-1); (-1); (-1); (-1);
    (-1); (-1); (-1); (-1); (-1); (-1); (-1); (-1); (-1); (-1); (-1); (-1); (-1); (-1);
    (-1); (-1); (-1); (-1); (-1); (-1); (-1); (-1); (-1); (-1); (-1); (-1); (-1); (-1);
    (-1); (-1); (-1); (-1); (-1); (-1); (-1); (-1); (-1); (-1); (-1); (-1); (-1); (-1);
    (-1); (-1); (-1); (-1); (-1); (-1); (-1); (-1); (-1); (-1); (-1); (-1); (-1); (-1);
    (-1); (-1); (-1); (-1); (-1); (-1); (-1); (-1); (-1); (-1); (-1); (-1); (-1); (-1);
    (-1); (-1); (-1); (-1); (-1); (-1); (-1); (-1); (-1); (-1); (-1); (-1); (-1); (-1);
    (-1); (-1); (-1); (-1); (-1); (-1); (-1); (-1); (-1); (-1); (-1); (-1); (-1); (-1);
    (-1); (-1); (-1); (-1); (-1); (-1); (-1); (-1); (-1)].
Definition dfa4_min : list Z :=
  [9; (-1); (-1); (-1); (-1); 45; 97; 101; 97; (-1); 43; (-1); 45; 111; (-1); 43; 116;
    113; 121; 45; 116; (-1); 105; 117; 115; 45; 32; 109; 101; 43; 45; 97; 101; 115;
    (-1); 66; (-1); (-1); 43; 116; 69; 78; (-1); 43; 71; 68; (-1); 73; 32; 78; 77; 32;
    80; (-1); (-1); (-1); 69; 77; 75; 80; 80; (-1); (-1); (-1); 69; 73; 79; 75; 80; 32;
    83; 73; 79; 67; 73; 32; 83; 69; 84; 67; 73; (-1); (-1); 65; 79; 69; 84; 76; 82;
    (-1); (-1); 65; 79; 76; 89; 76; 82; 69; 32; 76; 89; 78; 67; 69; 32; 71; (-1); (-1);
    78; 67; 69; 71; (-1); (-1); 32; 69; (-1); (-1); 32; (-1); (-1)].
Definition dfa4_max : list Z :=
  [122; (-1); (-1); (-1); (-1); 45; 97; 101; 97; (-1); 122; (-1); 45; 111; (-1); 122;
    116; 113; 121; 45; 116; (-1); 105; 117; 115; 45; 32; 109; 101; 122; 45; 98; 101;
    115; (-1); 69; (-1); (-1); 122; 116; 69; 78; (-1); 122; 71; 68; (-1); 73; 32; 78;
    86; 32; 80; (-1); (-1); (-1); 69; 86; 75; 80; 80; (-1); (-1); (-1); 69; 73; 79; 75;
    80; 32; 83; 73; 79; 67; 73; 32; 83; 82; 84; 67; 73; (-1); (-1); 65; 79; 82; 84; 76;
    82; (-1); (-1); 65; 79; 76; 89; 76; 82; 69; 32; 76; 89; 78; 83; 69; 32; 71; (-1);
    (-1); 78; 83; 69; 71; (-1); (-1); 45; 69; (-1); (-1); 45; (-1); (-1)].
Definition dfa4_accept : list Z :=
  [(-1); 1; 2; 3; 4; (-1); (-1); (-1); (-1); 9; (-1); 10; (-1); (-1); 11; (-1); (-1);
    (-1); (-1); (-1); (-1); 5; (-1); (-1); (-1); (-1); (-1); (-1); (-1); (-1); (-1);
    (-1); (-1); (-1); 8; (-1); 30; 31; (-1); (-1); (-1); (-1); 6; (-1); (-1); (-1); 7;
    (-1); (-1); (-1); (-1); (-1); (-1); 15; 17; 19; (-1); (-1); (-1); (-1); (-1); 14;
    16; 18; (-1); (-1); (-1); (-1); (-1); (-1); (-1); (-1); (-1); (-1); (-1); (-1);
    (-1); (-1); (-1); (-1); (-1); 13; 21; (-1); (-1); (-1); (-1); (-1); (-1); 12; 20;
    (-1); (-1); (-1); (-1); (-1); (-1); (-1); (-1); (-1); (-1); (-1); (-1); (-1); (-1);
    (-1); 27; 29; (-1); (-1); (-1); (-1); 26; 28; (-1); (-1); 23; 25; (-1); 22; 24].
Definition dfa4_special : list Z :=
  [(-1); (-1); (-1); (-1); (-1); (-1); (-1); (-1); (-1); (-1); (-1); (-1); (-1); (-1);
    (-1); (-1); (-1); (-1); (-1); (-1); (-1); (-1); (-1); (-1); (-1); (-1); (-1); (-1);
    (-1); (-1); (-1); (-1); (-1); (-1); (-1); (-1); (-1); (-1); (-1); (-1); (-1); (-1);
    (-1); (-1); (-1); (-1); (-1); (-1); (-1); (-1); (-1); (-1); (-1); (-1); (-1); (-1);
    (-1); (-1); (-1); (-1); (-1); (-1); (-1); (-1); (-1); (-1); (-1); (-1); (-1); (-1);
    (-1); (-1); (-1); (-1); (-1); (-1); (-1); (-1); (-1); (-1); (-1); (-1); (-1); (-1);
    (-1); (-1); (-1); (-1); (-1); (-1); (-1); (-1); (-1); (-1); (-1); (-1); (-1); (-1);
    (-1); (-1); (-1); (-1); (-1); (-1); (-1); (-1); (-1); (-1); (-1); (-1); (-1); (-1);
    (-1); (-1); (-1); (-1); (-1); (-1); (-1); (-1); (-1)].
Definition dfa4_T0 : list Z :=
  [26].
Definition dfa4_T1 : list Z :=
  [59].
Definition dfa4_T2 : list Z :=
  [20].
Definition dfa4_T3 : list Z :=
  [31].
Definition dfa4_T4 : list Z :=
  [14; (-1); 14; (-1); 14; 14; 14; 14; 14; 14; 14; 14; 14; 14; 14; 14; (-1); (-1); 14;
    (-1); (-1); (-1); 14; 14; 14; 14; 14; 14; 14; 14; 14; 14; 14; 14; 14; 14; 14; 14;
    14; 14; 14; 14; 14; 14; 14; 14; 14; 14; (-1); (-1); (-1); (-1); 14; (-1); 14; 14;
    14; 14; 14; 14; 14; 14; 14; 14; 14; 14; 14; 14; 14; 14; 14; 14; 14; 14; 14; 14; 14;
    14; 14; 14].
Definition dfa4_T5 : list Z :=
  [30].
Definition dfa4_T6 : list Z :=
  [19].
Definition dfa4_T7 : list Z :=
  [102].
Definition dfa4_T8 : list Z :=
  [106; (-1); (-1); (-1); (-1); (-1); (-1); (-1); (-1); (-1); (-1); (-1); (-1); (-1);
    (-1); (-1); 107].
Definition dfa4_T9 : list Z :=
  [25].
Definition dfa4_T10 : list Z :=
  [94].
Definition dfa4_T11 : list Z :=
  [98].
Definition dfa4_T12 : list Z :=
  [84].
Definition dfa4_T13 : list Z :=
  [88].
Definition dfa4_T14 : list Z :=
  [74].
Definition dfa4_T15 : list Z :=
  [78].
Definition dfa4_T16 : list Z :=
  [66].
Definition dfa4_T17 : list Z :=
  [70].
Definition dfa4_T18 : list Z :=
  [100].
Definition dfa4_T19 : list Z :=
  [96].
Definition dfa4_T20 : list Z :=
  [109].
Definition dfa4_T21 : list Z :=
  [104].
Definition dfa4_T22 : list Z :=
  [47].
Definition dfa4_T23 : list Z :=
  [80].
Definition dfa4_T24 : list Z :=
  [76].
Definition dfa4_T25 : list Z :=
  [92].
Definition dfa4_T26 : list Z :=
  [44].
Definition dfa4_T27 : list Z :=
  [86].
Definition dfa4_T28 : list Z :=
  [72].
Definition dfa4_T29 : list Z :=
  [68].
Definition dfa4_T30 : list Z :=
  [90; (-1); (-1); 91; (-1); (-1); (-1); (-1); (-1); (-1); (-1); (-1); (-1); 89].
Definition dfa4_T31 : list Z :=
  [101].
Definition dfa4_T32 : list Z :=
  [97].
Definition dfa4_T33 : list Z :=
  [85].
Definition dfa4_T34 : list Z :=
  [110].
Definition dfa4_T35 : list Z :=
  [105].
Definition dfa4_T36 : list Z :=
  [37; 36].
Definition dfa4_T37 : list Z :=
  [57].
Definition dfa4_T38 : list Z :=
  [79].
Definition dfa4_T39 : list Z :=
  [35].
Definition dfa4_T40 : list Z :=
  [75].
Definition dfa4_T41 : list Z :=
  [93].
Definition dfa4_T42 : list Z :=
  [87].
Definition dfa4_T43 : list Z :=
  [51].
Definition dfa4_T44 : list Z :=
  [117; (-1); (-1); (-1); (-1); (-1); (-1); (-1); (-1); (-1); (-1); (-1); (-1); 116].
Definition dfa4_T45 : list Z :=
  [112; (-1); (-1); (-1); (-1); (-1); (-1); (-1); (-1); (-1); (-1); (-1); (-1); (-1);
    (-1); (-1); 113].
Definition dfa4_T46 : list Z :=
  [114].
Definition dfa4_T47 : list Z :=
  [40; (-1); (-1); 41].
Definition dfa4_T48 : list Z :=
  [49].
Definition dfa4_T49 : list Z :=
  [14; (-1); 14; (-1); 14; 10; 10; 10; 10; 10; 10; 10; 10; 10; 10; 14; (-1); (-1); 14;
    (-1); (-1); (-1); 14; 14; 14; 14; 14; 14; 14; 14; 14; 14; 14; 14; 14; 14; 14; 14;
    14; 14; 14; 14; 14; 14; 14; 14; 14; 14; (-1); (-1); (-1); (-1); 14; (-1); 14; 14;
    14; 14; 14; 14; 14; 14; 14; 14; 14; 14; 14; 14; 14; 14; 14; 14; 14; 14; 14; 14; 14;
    14; 14; 14].
Definition dfa4_T50 : list Z :=
  [52; (-1); (-1); 53; (-1); 56; 54; (-1); (-1); 55].
Definition dfa4_T51 : list Z :=
  [71].
Definition dfa4_T52 : list Z :=
  [67].
Definition dfa4_T53 : list Z :=
  [60; (-1); (-1); 61; (-1); 64; 62; (-1); (-1); 63].
Definition dfa4_T54 : list Z :=
  [15].
Definition dfa4_T55 : list Z :=
  [38].
Definition dfa4_T56 : list Z :=
  [27].
Definition dfa4_T57 : list Z :=
  [32].
Definition dfa4_T58 : list Z :=
  [16].
Definition dfa4_T59 : list Z :=
  [22].
Definition dfa4_T60 : list Z :=
  [39].
Definition dfa4_T61 : list Z :=
  [115].
Definition dfa4_T62 : list Z :=
  [33].
Definition dfa4_T63 : list Z :=
  [28].
Definition dfa4_T64 : list Z :=
  [118].
Definition dfa4_T65 : list Z :=
  [23].
Definition dfa4_T66 : list Z :=
  [17].
Definition dfa4_T67 : list Z :=
  [120; (-1); (-1); (-1); (-1); (-1); (-1); (-1); (-1); (-1); (-1); (-1); (-1); 119].
Definition dfa4_T68 : list Z :=
  [29].
Definition dfa4_T69 : list Z :=
  [24].
Definition dfa4_T70 : list Z :=
  [99].
Definition dfa4_T71 : list Z :=
  [18].
Definition dfa4_T72 : list Z :=
  [103].
Definition dfa4_T73 : list Z :=
  [108].
Definition dfa4_T74 : list Z :=
  [111].
Definition dfa4_T75 : list Z :=
  [43].
Definition dfa4_T76 : list Z :=
  [9; 9; (-1); (-1); 9; (-1); (-1); (-1); (-1); (-1); (-1); (-1); (-1); (-1); (-1);
    (-1); (-1); (-1); (-1); (-1); (-1); (-1); (-1); 9; (-1); (-1); (-1); (-1); (-1);
    (-1); (-1); 1; 2; (-1); 14; 3; 12; 4; 14; 10; 10; 10; 10; 10; 10; 10; 10; 10; 10; 5;
    (-1); (-1); 14; (-1); (-1); (-1); 14; 14; 14; 14; 14; 14; 14; 14; 14; 14; 14; 14;
    14; 13; 14; 14; 14; 14; 14; 14; 14; 14; 14; 14; 14; 14; (-1); (-1); (-1); (-1); 14;
    (-1); 14; 14; 14; 6; 14; 14; 14; 14; 14; 14; 14; 14; 14; 14; 14; 14; 14; 7; 8; 14;
    14; 14; 14; 14; 14; 14].
Definition dfa4_T77 : list Z :=
  [65].
Definition dfa4_T78 : list Z :=
  [95].
Definition dfa4_T79 : list Z :=
  [58].
Definition dfa4_T80 : list Z :=
  [48].
Definition dfa4_T81 : list Z :=
  [50].
Definition dfa4_T82 : list Z :=
  [73].
Definition dfa4_T83 : list Z :=
  [69].
Definition dfa4_T84 : list Z :=
  [82; (-1); (-1); 83; (-1); (-1); (-1); (-1); (-1); (-1); (-1); (-1); (-1); 81].
Definition dfa4_T85 : list Z :=
  [77].
Definition dfa4_T86 : list Z :=
  [45].
Definition dfa4_transitions : list (option (list Z)) :=
  [Some dfa4_T76; None; None; None; None; Some dfa4_T54; Some dfa4_T58; Some dfa4_T66;
    Some dfa4_T71; None; Some dfa4_T49; None; Some dfa4_T6; Some dfa4_T2; None;
    Some dfa4_T4; Some dfa4_T59; Some dfa4_T65; Some dfa4_T69; Some dfa4_T9;
    Some dfa4_T0; None; Some dfa4_T56; Some dfa4_T63; Some dfa4_T68; Some dfa4_T5;
    Some dfa4_T3; Some dfa4_T57; Some dfa4_T62; Some dfa4_T4; Some dfa4_T39;
    Some dfa4_T36; Some dfa4_T55; Some dfa4_T60; None; Some dfa4_T47; None; None;
    Some dfa4_T4; Some dfa4_T75; Some dfa4_T26; Some dfa4_T86; None; Some dfa4_T4;
    Some dfa4_T22; Some dfa4_T80; None; Some dfa4_T48; Some dfa4_T81; Some dfa4_T43;
    Some dfa4_T50; Some dfa4_T37; Some dfa4_T79; None; None; None; Some dfa4_T1;
    Some dfa4_T53; Some dfa4_T77; Some dfa4_T16; Some dfa4_T52; None; None; None;
    Some dfa4_T29; Some dfa4_T83; Some dfa4_T17; Some dfa4_T51; Some dfa4_T28;
    Some dfa4_T82; Some dfa4_T14; Some dfa4_T40; Some dfa4_T24; Some dfa4_T85;
    Some dfa4_T15; Some dfa4_T38; Some dfa4_T23; Some dfa4_T84; Some dfa4_T12;
    Some dfa4_T33; Some dfa4_T27; None; None; Some dfa4_T42; Some dfa4_T13;
    Some dfa4_T30; Some dfa4_T25; Some dfa4_T41; Some dfa4_T10; None; None;
    Some dfa4_T78; Some dfa4_T19; Some dfa4_T32; Some dfa4_T11; Some dfa4_T70;
    Some dfa4_T18; Some dfa4_T31; Some dfa4_T7; Some dfa4_T72; Some dfa4_T21;
    Some dfa4_T35; Some dfa4_T8; Some dfa4_T73; Some dfa4_T20; Some dfa4_T34; None;
    None; Some dfa4_T74; Some dfa4_T45; Some dfa4_T46; Some dfa4_T61; None; None;
    Some dfa4_T44; Some dfa4_T64; None; None; Some dfa4_T67; None; None].

Definition cdfa4 : CYCLIC_DFA :=
  mkCyclicDFA 4 dfa4_eot dfa4_eof dfa4_min dfa4_max dfa4_accept dfa4_special
    dfa4_transitions.
