(* ===== verification/InputStream.v ===== *)
(** The character stream of the lexer: the 8 bit part of
    src/antlr/libantlr3c-3.4/src/antlr3inputstream.c. *)
From S2P Require Import Prelude CppString CyclicDFA.

(** A mark saves the position and the counters of the line. A pointer into the
    data stands for the characters from it to the end of the buffer. *)
Record LEX_STATE : Type := mkLexState {
  st_nextChar : str;
  st_line : Z;
  st_charPositionInLine : Z;
  st_currentLine : str
}.

Record INPUT_STREAM : Type := mkInputStream {
  data : str;
  nextChar : str;
  line : Z;
  charPositionInLine : Z;
  currentLine : str;
  markers : list LEX_STATE;
  markDepth : Z
}.

(** [antlr3InputReset] on the data of [antlr3StringStreamNew]. *)
Definition StringStreamNew (inString : str) : INPUT_STREAM :=
  mkInputStream inString inString 1 (-1) inString [] 0.

(** The character ahead as [ANTLR3_UCHAR]; [ANTLR3_CHARSTREAM_EOF], read as a
    signed number, is -1. *)
Definition LA (la : Z) (input : INPUT_STREAM) : Z :=
  match nextChar input !! Z.to_nat (la - 1) with
  | Some c => Z.of_nat (nat_of_ascii c)
  | None => -1
  end.

(** [antlr38BitConsume] *)
Definition consume8 (input : INPUT_STREAM) : INPUT_STREAM :=
  match nextChar input with
  | [] => input
  | c :: rest =>
      let newline := bool_decide (c = nl) in
      mkInputStream (data input) rest
        (if newline then line input + 1 else line input)
        (if newline then 0 else charPositionInLine input + 1)
        (if newline then rest else currentLine input)
        (markers input) (markDepth input)
  end.

(** [antlr38BitMark] saves the state in a new entry of the table, or in the one
    that an earlier mark of the same depth left behind. *)
Definition mark8 (input : INPUT_STREAM) : Z * INPUT_STREAM :=
  let depth := markDepth input + 1 in
  let st := mkLexState (nextChar input) (line input) (charPositionInLine input)
              (currentLine input) in
  let table :=
    if Z.of_nat (length (markers input)) <? depth then markers input ++ [st]
    else <[Z.to_nat (depth - 1) := st]> (markers input) in
  (depth, mkInputStream (data input) (nextChar input) (line input)
            (charPositionInLine input) (currentLine input) table depth).

(** [antlr38BitRewind]: release the mark, seek, restore the rest. *)
Definition rewind8 (input : INPUT_STREAM) (mark : Z) : INPUT_STREAM :=
  match markers input !! Z.to_nat (mark - 1) with
  | Some st =>
      mkInputStream (data input) (st_nextChar st) (st_line st)
        (st_charPositionInLine st) (st_currentLine st) (markers input) (mark - 1)
  | None => input
  end.

#[export] Instance input_stream_ops : IntStream INPUT_STREAM := {|
  LA1 := LA 1;
  consume := consume8;
  CyclicDFA.mark := mark8;
  CyclicDFA.rewind := rewind8
|}.

(** ** Laws *)

(** The depth does not exceed the table of marks. *)
Definition input_stream_ok (i : INPUT_STREAM) : Prop :=
  0 ≤ markDepth i ≤ Z.of_nat (length (markers i)).

(** Nothing but the table of marks differs, and it has not lost an entry. *)
Definition same_input (a b : INPUT_STREAM) : Prop :=
  data b = data a ∧ nextChar b = nextChar a ∧ line b = line a ∧
  charPositionInLine b = charPositionInLine a ∧ currentLine b = currentLine a ∧
  markDepth b = markDepth a ∧ (length (markers a) ≤ length (markers b))%nat.

Lemma nextChar_consume i : nextChar (consume8 i) = drop 1 (nextChar i).
Proof. unfold consume8. destruct (nextChar i) eqn:E; [by rewrite E|done]. Qed.
Lemma markers_consume n i : markers (Nat.iter n consume8 i) = markers i.
Proof.
  induction n as [|n IH]; [done|]. cbn. rewrite <-IH. unfold consume8.
  by destruct (nextChar _).
Qed.
Lemma data_consume n i : data (Nat.iter n consume8 i) = data i.
Proof.
  induction n as [|n IH]; [done|]. cbn. rewrite <-IH. unfold consume8.
  by destruct (nextChar _).
Qed.

Lemma mark8_table i :
  input_stream_ok i →
  markers (mark8 i).2 !! Z.to_nat ((mark8 i).1 - 1)
  = Some (mkLexState (nextChar i) (line i) (charPositionInLine i) (currentLine i)) ∧
  (length (markers i) ≤ length (markers (mark8 i).2))%nat.
Proof.
  intros [H1 H2]. cbn. replace (markDepth i + 1 - 1) with (markDepth i) by lia.
  destruct (Z.ltb_spec (Z.of_nat (length (markers i))) (markDepth i + 1)).
  - replace (Z.to_nat (markDepth i)) with (length (markers i)) by lia.
    rewrite lookup_app_r, Nat.sub_diag, length_app by lia. cbn. split; [done|lia].
  - rewrite list_lookup_insert_eq by lia. rewrite length_insert. done.
Qed.

#[export] Instance input_stream_laws : IntStreamLaws INPUT_STREAM.
Proof.
  refine {| remaining i := length (nextChar i); stream_ok := input_stream_ok;
            same_place := same_input |}.
  - unfold input_stream_ok, same_input. intros s s' H1 H2. destruct_and! H2. lia.
  - intros s s' H. unfold same_input in H. destruct_and! H. congruence.
  - intros s H. cbn. unfold LA. by destruct (nextChar s).
  - intros s. cbn. rewrite nextChar_consume, length_drop. lia.
  - done.
  - intros s n Hok. destruct (mark8_table s Hok) as [Ht Hl].
    change (same_input s (rewind8 (Nat.iter n consume8 (mark8 s).2) (mark8 s).1)).
    unfold rewind8. rewrite markers_consume, data_consume, Ht.
    unfold same_input. cbn. split_and!; try done. lia.
Defined.
