(* ===== verification/InputRefine.v ===== *)
(** The character stream of the lexer, [InputStream], is the stream of bytes of
    [CharStreams] seen as the list of characters that are left. *)
From S2P Require Import Prelude.
From S2P Require Import CppString.
From S2P Require Import CyclicDFA.
From S2P Require Import InputStream.
From S2P Require Import ConvertUTF.
From S2P Require Import RtString.
From S2P Require Import CharStreams.

Definition codes (l : str) : list Z := (λ c, Z.of_nat (nat_of_ascii c)) <$> l.

(** The pointer [p] into [d] stands for the characters [l] that are left there. *)
Definition points (d l : str) (p : Z) : Prop := ∃ pre, d = pre ++ l ∧ p = Z.of_nat (length pre).

(** A place in the input: the characters left, the line, its start, the position. *)
Record same_place (d : str) (l cl : str) (ln cp p pcl pln pcp : Z) : Prop := {
  sp_next : points d l p;
  sp_line : pln = ln;
  sp_current : points d cl pcl;
  sp_position : pcp = cp;
  sp_line_bound : 1 ≤ ln ≤ 1 + p;
  sp_position_bound : -1 ≤ cp ≤ p
}.
Definition same_state (d : str) (a : InputStream.LEX_STATE) (b : CharStreams.LEX_STATE) : Prop :=
  same_place d (InputStream.st_nextChar a) (InputStream.st_currentLine a) (InputStream.st_line a)
    (InputStream.st_charPositionInLine a) (CharStreams.st_nextChar b) (CharStreams.st_currentLine b)
    (CharStreams.st_line b) (CharStreams.st_charPositionInLine b).

Record refines (a : InputStream.INPUT_STREAM) (b : CharStreams.INPUT_STREAM) : Prop := {
  rf_data : ∃ tail, CharStreams.data b = codes (InputStream.data a) ++ tail;
  rf_size : sizeBuf b = Z.of_nat (length (InputStream.data a));
  rf_small : sizeBuf b < 2 ^ 31 - 1;
  rf_place : same_place (InputStream.data a) (InputStream.nextChar a) (InputStream.currentLine a)
    (InputStream.line a) (InputStream.charPositionInLine a) (CharStreams.nextChar b) (CharStreams.currentLine b)
    (CharStreams.line b) (CharStreams.charPositionInLine b);
  rf_newline : newlineChar b = 10;
  rf_markers : Forall2 (same_state (InputStream.data a)) (InputStream.markers a) (CharStreams.markers b);
  rf_depth : CharStreams.markDepth b = InputStream.markDepth a;
  rf_depth_bound : 0 ≤ InputStream.markDepth a ≤ Z.of_nat (length (InputStream.markers a));
  rf_la : LA_fn b = antlr38BitLA;
  rf_consume : consume_fn b = antlr38BitConsume
}.

Lemma points_bound d l p : points d l p → 0 ≤ p ∧ p + Z.of_nat (length l) = Z.of_nat (length d).
Proof. intros (pre & -> & ->). rewrite length_app. lia. Qed.
Lemma points_byte a b tail l p i c :
  CharStreams.data b = codes (InputStream.data a) ++ tail → points (InputStream.data a) l p → l !! i = Some c →
  byte_at b (p + Z.of_nat i) = Ok (Z.of_nat (nat_of_ascii c)).
Proof.
  intros Hd (pre & Hp & ->) Hi. unfold byte_at. apply index_lookup; [lia|].
  replace (Z.to_nat _) with (length pre + i)%nat by lia. rewrite Hd, Hp. unfold codes.
  rewrite fmap_app, <-app_assoc, lookup_app_r by (rewrite length_fmap; lia). rewrite length_fmap.
  replace (length pre + i - length pre)%nat with i by lia. apply lookup_app_l_Some.
  by rewrite list_lookup_fmap, Hi.
Qed.
Lemma same_place_cons d c l cl ln cp p pcl pln pcp :
  same_place d (c :: l) cl ln cp p pcl pln pcp →
  points d l (p + 1) ∧ same_place d l l (ln + 1) 0 (p + 1) (p + 1) (ln + 1) 0 ∧
  same_place d l cl ln (cp + 1) (p + 1) pcl ln (cp + 1).
Proof.
  intros [(pre & Hd & ->) -> Hc -> Hl Hp]. assert (Hn : points d l (Z.of_nat (length pre) + 1)).
  { exists (pre ++ [c]). rewrite <-app_assoc, length_app. split; [done|]. cbn. lia. }
  split; [done|]. split; split; try done; lia.
Qed.

(** [istream->_LA]: the end of the stream is -1 as a signed number. *)
Lemma LA_refines big a b i :
  refines a b → (0 < i)%nat → CharStreams.LA big b (Z.of_nat i) = Ok (u32 (InputStream.LA (Z.of_nat i) a)).
Proof.
  intros H Hi. destruct (rf_data _ _ H) as [tail Hd]. unfold CharStreams.LA, InputStream.LA.
  rewrite (rf_la _ _ H). unfold look8. rewrite (rf_size _ _ H).
  pose proof (sp_next _ _ _ _ _ _ _ _ _ (rf_place _ _ H)) as Hp. destruct (points_bound _ _ _ Hp) as [Hp1 Hp2].
  destruct (InputStream.nextChar a !! Z.to_nat (Z.of_nat i - 1)) as [c|] eqn:Hc.
  - apply lookup_lt_Some in Hc as Hlt. rewrite <-Hp2.
    destruct (Z.leb_spec (CharStreams.nextChar b + Z.of_nat (length (InputStream.nextChar a)))
      (CharStreams.nextChar b + Z.of_nat i - 1)); [lia|].
    replace (CharStreams.nextChar b + Z.of_nat i - 1)
      with (CharStreams.nextChar b + Z.of_nat (Z.to_nat (Z.of_nat i - 1))) by lia.
    rewrite (points_byte _ _ _ _ _ _ _ Hd Hp Hc). cbn [mbind outcome_bind].
    pose proof (nat_ascii_bounded c). rewrite u32_small by lia. done.
  - apply lookup_ge_None_1 in Hc. rewrite <-Hp2.
    destruct (Z.leb_spec (CharStreams.nextChar b + Z.of_nat (length (InputStream.nextChar a)))
      (CharStreams.nextChar b + Z.of_nat i - 1)); [done|lia].
Qed.

Lemma newline_code c : (Z.of_nat (nat_of_ascii c) =? 10) = bool_decide (c = nl).
Proof.
  case_bool_decide as E; [by subst|]. apply Z.eqb_neq. intros Hc. apply E.
  rewrite <-(ascii_nat_embedding c). by replace (nat_of_ascii c) with 10%nat by lia.
Qed.

(** [istream->consume] *)
Lemma consume_refines big a b :
  refines a b → ∃ b', CharStreams.consume big b = Ok b' ∧ refines (consume8 a) b'.
Proof.
  intros H. destruct (rf_data _ _ H) as [tail Hd]. pose proof (rf_place _ _ H) as Hpl.
  pose proof (rf_small _ _ H) as Hs. unfold CharStreams.consume. rewrite (rf_consume _ _ H).
  pose proof (sp_next _ _ _ _ _ _ _ _ _ Hpl) as Hp. destruct (points_bound _ _ _ Hp) as [Hp1 Hp2].
  rewrite (rf_size _ _ H) in *. unfold consume8.
  destruct (InputStream.nextChar a) as [|c rest] eqn:En; cbn [length] in Hp2.
  - exists b. destruct (Z.ltb_spec (CharStreams.nextChar b) (Z.of_nat (length (InputStream.data a)))); [lia|done].
  - destruct (Z.ltb_spec (CharStreams.nextChar b) (Z.of_nat (length (InputStream.data a)))); [|lia].
    pose proof (points_byte _ _ _ _ _ 0 c Hd Hp eq_refl) as Hb. rewrite Z.add_0_r in Hb. rewrite Hb.
    cbn [mbind outcome_bind]. unfold pass. destruct (same_place_cons _ _ _ _ _ _ _ _ _ _ Hpl) as (_ & Hn & Ho).
    pose proof (sp_position _ _ _ _ _ _ _ _ _ Hpl) as Ecp. pose proof (sp_position_bound _ _ _ _ _ _ _ _ _ Hpl).
    pose proof (sp_line _ _ _ _ _ _ _ _ _ Hpl) as Eln. pose proof (sp_line_bound _ _ _ _ _ _ _ _ _ Hpl).
    rewrite int_op_ok by (unfold INT_MIN, INT_MAX; lia). cbn [mbind outcome_bind].
    eexists. split; [done|]. rewrite (rf_newline _ _ H), newline_code.
    destruct (bool_decide (c = nl)); split; cbn; try apply H; try (by exists tail); try (by rewrite ?(rf_size _ _ H)).
    + rewrite Eln, u32_small by lia. done.
    + by rewrite Eln, Ecp.
Qed.
Lemma consume_times_refines big a b n :
  refines a b → ∃ b', consume_times big n b = Ok b' ∧ refines (Nat.iter n consume8 a) b'.
Proof.
  revert a b. induction n as [|n IH]; intros a b H; [by exists b|].
  destruct (consume_refines big a b H) as (b1 & E & H1). destruct (IH _ _ H1) as (b' & E' & H').
  exists b'. cbn [consume_times]. rewrite E. split; [done|]. by rewrite Nat.iter_succ_r.
Qed.

(** [istream->mark] *)
Lemma mark_refines a b :
  refines a b → InputStream.markDepth a + 1 < 2 ^ 32 →
  (CharStreams.mark b).1 = (mark8 a).1 ∧ refines (mark8 a).2 (CharStreams.mark b).2.
Proof.
  intros H Hs. pose proof (rf_depth_bound _ _ H) as Hd. pose proof (Forall2_length _ _ _ (rf_markers _ _ H)) as Hlen.
  unfold CharStreams.mark, mark8. cbn [fst snd]. rewrite (rf_depth _ _ H), u32_small by lia. split; [done|].
  set (sa := InputStream.mkLexState _ _ _ _). set (sb := mkLexState _ _ _ _).
  assert (Hst : same_state (InputStream.data a) sa sb) by apply H.
  split; cbn; try apply H; try done.
  - rewrite <-Hlen. destruct (_ <? _).
    + apply Forall2_app; [apply H|]. by constructor; [|constructor].
    + apply Forall2_insert; [apply H|done].
  - destruct (Z.ltb_spec (Z.of_nat (length (InputStream.markers a))) (InputStream.markDepth a + 1)).
    + rewrite length_app. cbn. lia.
    + rewrite length_insert. lia.
Qed.

(** [istream->rewind], to a mark of the table *)
Lemma rewind_refines big a b m :
  refines a b → 1 ≤ m ≤ Z.of_nat (length (InputStream.markers a)) → m < 2 ^ 32 →
  ∃ b', CharStreams.rewind big b m = Ok b' ∧ refines (rewind8 a m) b'.
Proof.
  intros H Hm Hs. unfold CharStreams.rewind, rewind8. rewrite u32_small by lia.
  destruct (lookup_lt_is_Some_2 (InputStream.markers a) (Z.to_nat (m - 1))) as [sa Ha]; [lia|]. rewrite Ha.
  destruct (Forall2_lookup_l _ _ _ _ _ (rf_markers _ _ H) Ha) as (sb & Hb & Hst).
  cbn [release CharStreams.markers set_marks]. rewrite Hb. cbn [deref mbind outcome_bind].
  pose proof (sp_next _ _ _ _ _ _ _ _ _ Hst) as Hp. destruct (points_bound _ _ _ Hp).
  pose proof (sp_next _ _ _ _ _ _ _ _ _ (rf_place _ _ H)) as Hq. destruct (points_bound _ _ _ Hq).
  pose proof (rf_small _ _ H) as Hsz. rewrite (rf_size _ _ H) in Hsz.
  assert (Hseek : ∃ b1, seek8 big (release b m) (CharStreams.st_nextChar sb) = Ok b1 ∧
    CharStreams.data b1 = CharStreams.data b ∧ sizeBuf b1 = sizeBuf b ∧ newlineChar b1 = newlineChar b ∧
    CharStreams.markers b1 = CharStreams.markers b ∧ CharStreams.markDepth b1 = m - 1 ∧
    LA_fn b1 = LA_fn b ∧ consume_fn b1 = consume_fn b).
  { unfold seek8. cbn [CharStreams.nextChar release set_marks]. destruct (Z.leb_spec (CharStreams.st_nextChar sb) (CharStreams.nextChar b)).
    - eexists. split; [done|]. cbn. rewrite u32_small by lia. done.
    - rewrite sint_small by lia. destruct (Z.ltb_spec (CharStreams.st_nextChar sb - CharStreams.nextChar b) 0); [lia|].
      destruct (consume_times_refines big (mkInputStream (InputStream.data a) (InputStream.nextChar a)
        (InputStream.line a) (InputStream.charPositionInLine a) (InputStream.currentLine a) (InputStream.markers a) (m - 1))
        (release b m) (Z.to_nat (CharStreams.st_nextChar sb - CharStreams.nextChar b))) as (b1 & E & _).
      { split; cbn; try apply H; [|lia]. apply u32_small. lia. }
      rewrite E. exists b1. split; [done|]. destruct (consume_times_same _ _ _ _ E) as [(? & Ed & ?) (? & ? & ? & ?)].
      split_and!; try done. rewrite Ed. cbn. apply u32_small. lia. }
  destruct Hseek as (b1 & -> & E1 & E2 & E3 & E4 & E5 & E6 & E7). cbn [mbind outcome_bind].
  eexists. split; [done|]. split; cbn; rewrite ?E1, ?E2, ?E3, ?E4, ?E5, ?E6, ?E7; try apply H; try done. lia.
Qed.

(** ** The operations that a lexer uses *)
Inductive input_op : Type := OpLA (i : nat) | OpConsume | OpMark | OpRewind (m : Z).

(** What a sequence of operations gives on each side; a rewind must be to a mark of the
    table. *)
Definition abs_op (o : input_op) (a : InputStream.INPUT_STREAM) : list Z * InputStream.INPUT_STREAM :=
  match o with
  | OpLA i => ([u32 (InputStream.LA (Z.of_nat (S i)) a)], a)
  | OpConsume => ([], consume8 a)
  | OpMark => ([(mark8 a).1], (mark8 a).2)
  | OpRewind m => ([], rewind8 a m)
  end.
Definition op_ok (o : input_op) (a : InputStream.INPUT_STREAM) : Prop :=
  match o with OpRewind m => 1 ≤ m ≤ Z.of_nat (length (InputStream.markers a)) | _ => True end.
Fixpoint abs_ops (l : list input_op) (a : InputStream.INPUT_STREAM) : list Z * InputStream.INPUT_STREAM :=
  match l with
  | [] => ([], a)
  | o :: l => let '(x, a) := abs_op o a in let '(y, a) := abs_ops l a in (x ++ y, a)
  end.
Fixpoint ops_ok (l : list input_op) (a : InputStream.INPUT_STREAM) : Prop :=
  match l with [] => True | o :: l => op_ok o a ∧ ops_ok l (abs_op o a).2 end.
Definition mem_op (big : bool) (o : input_op) (b : CharStreams.INPUT_STREAM)
    : outcome (list Z * CharStreams.INPUT_STREAM) :=
  match o with
  | OpLA i => c ← CharStreams.LA big b (Z.of_nat (S i)); Ok ([c], b)
  | OpConsume => b ← CharStreams.consume big b; Ok ([], b)
  | OpMark => Ok ([(CharStreams.mark b).1], (CharStreams.mark b).2)
  | OpRewind m => b ← CharStreams.rewind big b m; Ok ([], b)
  end.
Fixpoint mem_ops (big : bool) (l : list input_op) (b : CharStreams.INPUT_STREAM)
    : outcome (list Z * CharStreams.INPUT_STREAM) :=
  match l with
  | [] => Ok ([], b)
  | o :: l => '(x, b) ← mem_op big o b; '(y, b) ← mem_ops big l b; Ok (x ++ y, b)
  end.

Lemma op_refines big o a b :
  refines a b → op_ok o a → Z.of_nat (length (InputStream.markers a)) + 1 < 2 ^ 32 →
  ∃ b', mem_op big o b = Ok ((abs_op o a).1, b') ∧ refines (abs_op o a).2 b' ∧
    (length (InputStream.markers (abs_op o a).2) ≤ S (length (InputStream.markers a)))%nat.
Proof.
  intros H Ho Hm. pose proof (rf_depth_bound _ _ H) as Hd. destruct o as [i| | |m]; cbn [mem_op abs_op fst snd].
  - rewrite (LA_refines big a) by (done || lia). exists b. split_and!; [done|done|lia].
  - destruct (consume_refines big a b H) as (b' & -> & H'). exists b'. split_and!; [done|done|].
    unfold consume8. destruct (InputStream.nextChar a); cbn; lia.
  - destruct (mark_refines a b H) as [-> H']; [lia|]. eexists. split_and!; [done|done|]. cbn.
    destruct (_ <? _); [rewrite length_app; cbn; lia|rewrite length_insert; lia].
  - cbn in Ho. destruct (rewind_refines big a b m H) as (b' & -> & H'); [done|lia|]. exists b'. split_and!; [done|done|].
    unfold rewind8. destruct (_ !! _); cbn; lia.
Qed.
Lemma ops_refine big l a b :
  refines a b → ops_ok l a → Z.of_nat (length (InputStream.markers a) + length l) < 2 ^ 32 →
  ∃ b', mem_ops big l b = Ok ((abs_ops l a).1, b') ∧ refines (abs_ops l a).2 b'.
Proof.
  revert a b. induction l as [|o l IH]; intros a b H Ho Hm; [by exists b|]. destruct Ho as [Ho Hl]. cbn [length] in Hm.
  destruct (op_refines big o a b H Ho) as (b1 & E & H1 & Hn); [lia|]. cbn [mem_ops abs_ops].
  destruct (abs_op o a) as [x a1] eqn:Ea. cbn [fst snd] in *. rewrite E. cbn [mbind outcome_bind].
  destruct (IH a1 b1 H1 Hl) as (b' & E' & H'); [lia|]. rewrite E'. cbn [mbind outcome_bind].
  destruct (abs_ops l a1) as [y a2]. by exists b'.
Qed.

(** A new stream over the bytes of a text. *)
Lemma new_refines big text tail :
  Z.of_nat (length text) < 2 ^ 31 - 1 →
  ∃ b, setupInputStream big ENC_8BIT (antlr3GenericSetupStream (codes text ++ tail) (Z.of_nat (length text))) = Ok b ∧
    refines (StringStreamNew text) b.
Proof.
  intros Hl. eexists. split; [done|]. assert (Hp : points text text 0) by by exists [].
  split; cbn; try done; try constructor; try done; try lia. by exists tail.
Qed.

(** C25: the stream of characters that the lexer is modelled on is a refinement of the
    stream of bytes in memory: on a stream made from the same text, every sequence of
    looking ahead, consuming, marking and rewinding to marks that were made gives the
    same results, with pointers into memory that never leave it, as with the list of
    the characters that are left. *)
Theorem InputStream_refinement big text tail name l :
  Z.of_nat (length text) < 2 ^ 31 - 1 → Z.of_nat (length l) < 2 ^ 32 →
  Forall (λ c, 0 < c < 256) name → Z.of_nat (length name) + 1 < 2 ^ 30 →
  ops_ok l (StringStreamNew text) →
  ∃ b f p b', antlr3StringStreamNew big (codes text ++ tail) ENC_8BIT (Z.of_nat (length text)) name = Ok (b, f, p) ∧
    mem_ops big l b = Ok ((abs_ops l (StringStreamNew text)).1, b') ∧
    refines (abs_ops l (StringStreamNew text)).2 b'.
Proof.
  intros Ht Hl Hname Hn Hok. destruct (new_refines big text tail Ht) as (b & E & H).
  destruct (newStr_ok (StringFactoryNew false) [] name) as (p & f & s & Ef & _);
    [apply StringFactoryNew_ok|cbn; lia|by left|exact Hname|done|].
  destruct (ops_refine big l _ _ H Hok) as (b' & E' & H'); [cbn; lia|]. exists b, f, p, b'. split_and!; try done.
  unfold antlr3StringStreamNew. rewrite E. cbn [deref factory_of mbind outcome_bind]. by rewrite Ef.
Qed.
Lemma InputStream_refinement_witness :
  let l := [OpLA 0; OpMark; OpConsume; OpLA 0; OpConsume; OpLA 0; OpRewind 1; OpLA 1] in
  ∃ b f p b', antlr3StringStreamNew false (codes (lit "ab") ++ [0]) ENC_8BIT 2 [109] = Ok (b, f, p) ∧
    mem_ops false l b = Ok ([97; 1; 98; 0xFFFFFFFF; 98], b').
Proof.
  intros l. destruct (InputStream_refinement false (lit "ab") [0] [109] l) as (b & f & p & b' & E & E' & _).
  - cbn. lia.
  - cbn. lia.
  - repeat (apply Forall_cons; split; [lia|]). constructor.
  - cbn. lia.
  - cbn. split_and!; try done; lia.
  - exists b, f, p, b'. split; [exact E|exact E'].
Defined.
