(* ===== verification/Lexer.v ===== *)
(** The lexer: src/parser/RepositoryManagerLexer.c on the run time of
    src/antlr/libantlr3c-3.4/src/antlr3lexer.c, up to the token buffer of
    antlr3tokenstream.c. *)
From S2P Require Import Prelude CppString CyclicDFA InputStream LexerTables.

(** ** Token types *)

Definition CERT : Z := 4.
Definition CERT_END : Z := 5.
Definition CERT_HEADER : Z := 6.
Definition CHALLENGE_END : Z := 7.
Definition CHALLENGE_HEADER : Z := 8.
Definition CLAUSE : Z := 9.
Definition CREDENTIAL : Z := 10.
Definition CREDENTIAL_END : Z := 11.
Definition CREDENTIAL_HEADER : Z := 12.
Definition END : Z := 13.
Definition END_CERT : Z := 14.
Definition END_SIG : Z := 15.
Definition NOT_AFTER : Z := 16.
Definition NOT_BEFORE : Z := 17.
Definition NUM : Z := 18.
Definition PK : Z := 19.
Definition PUBLIC_KEY_END : Z := 20.
Definition PUBLIC_KEY_HEADER : Z := 21.
Definition REPLY_END : Z := 22.
Definition REPLY_HEADER : Z := 23.
Definition REQUEST_END : Z := 24.
Definition REQUEST_HEADER : Z := 25.
Definition RESPONSE_END : Z := 26.
Definition RESPONSE_HEADER : Z := 27.
Definition SIG : Z := 28.
Definition SIGNATURE_END : Z := 29.
Definition SIGNATURE_HEADER : Z := 30.
Definition START_TIME : Z := 31.
Definition STOP_TIME : Z := 32.
Definition TEXT : Z := 33.
Definition VALIDITY : Z := 34.
Definition VALIDITY_END : Z := 35.
Definition VALIDITY_HEADER : Z := 36.
Definition VALUE : Z := 37.
Definition WS : Z := 38.
Definition T__39 : Z := 39.
Definition T__40 : Z := 40.
Definition T__41 : Z := 41.
Definition T__42 : Z := 42.
Definition T__43 : Z := 43.
Definition T__44 : Z := 44.
Definition T__45 : Z := 45.
Definition T__46 : Z := 46.

(** ** The run time *)

Definition TOKEN_DEFAULT_CHANNEL : Z := 0.

(** The state a lexer shares with its recognizer, as far as a lexer without
    backtracking uses it. *)
Record LEXER : Type := mkLexer {
  input : INPUT_STREAM;
  type : Z;
  channel : Z;
  error : bool;
  failed : bool
}.

Definition set_input (i : INPUT_STREAM) (l : LEXER) : LEXER :=
  mkLexer i (type l) (channel l) (error l) (failed l).
Definition set_type (t : Z) (l : LEXER) : LEXER :=
  mkLexer (input l) t (channel l) (error l) (failed l).
Definition set_channel (c : Z) (l : LEXER) : LEXER :=
  mkLexer (input l) (type l) c (error l) (failed l).
Definition set_error (b : bool) (l : LEXER) : LEXER :=
  mkLexer (input l) (type l) (channel l) b (failed l).
Definition set_failed (b : bool) (l : LEXER) : LEXER :=
  mkLexer (input l) (type l) (channel l) (error l) b.

Definition HASEXCEPTION (l : LEXER) : bool := error l.
(** Building an exception marks the error. *)
Definition exConstruct (l : LEXER) : LEXER := set_error true l.
Definition CONSUME (l : LEXER) : LEXER := set_input (consume8 (input l)) l.
(** [recover] skips a character. *)
Definition recover (l : LEXER) : LEXER := CONSUME l.

(** [matchc] *)
Definition MATCHC (c : Z) (l : LEXER) : LEXER :=
  if LA 1 (input l) =? c then set_failed false (CONSUME l)
  else recover (exConstruct l).

(** [matchs]; the array ends before its terminator. *)
Fixpoint MATCHS (string : list Z) (l : LEXER) : LEXER :=
  match string with
  | [] => l
  | c :: string =>
      if negb (LA 1 (input l) =? c) then recover (set_failed true (exConstruct l))
      else MATCHS string (set_failed false (CONSUME l))
  end.

(** ** The rules *)

Definition mT__39 (l : LEXER) : LEXER :=
  let l := MATCHC 40 l in if HASEXCEPTION l then l else set_type T__39 l.
Definition mT__40 (l : LEXER) : LEXER :=
  let l := MATCHC 41 l in if HASEXCEPTION l then l else set_type T__40 l.
Definition mT__41 (l : LEXER) : LEXER :=
  let l := MATCHC 44 l in if HASEXCEPTION l then l else set_type T__41 l.
Definition mT__42 (l : LEXER) : LEXER :=
  let l := MATCHC 46 l in if HASEXCEPTION l then l else set_type T__42 l.
Definition mT__43 (l : LEXER) : LEXER :=
  let l := MATCHS lit_1 l in if HASEXCEPTION l then l else set_type T__43 l.
Definition mT__44 (l : LEXER) : LEXER :=
  let l := MATCHS lit_2 l in if HASEXCEPTION l then l else set_type T__44 l.
Definition mT__45 (l : LEXER) : LEXER :=
  let l := MATCHS lit_3 l in if HASEXCEPTION l then l else set_type T__45 l.
Definition mT__46 (l : LEXER) : LEXER :=
  let l := MATCHS lit_4 l in if HASEXCEPTION l then l else set_type T__46 l.
(** The loop of [mWS], which has matched [cnt1] items; true when it leaves by an
    exception. *)
Fixpoint mWS_loop (fuel : nat) (cnt1 : Z) (l : LEXER) : outcome (bool * LEXER) :=
  match fuel with
  | O => Undef NoFuel
  | S fuel =>
      let c := LA 1 (input l) in
      if (c =? 32) || (c =? 9) || (c =? 10) then
        let l := MATCHC c l in
        if HASEXCEPTION l then Ok (true, l) else mWS_loop fuel (cnt1 + 1) l
      else if c =? 13 then
        let l := MATCHC 13 l in
        if HASEXCEPTION l then Ok (true, l)
        else
          let l := MATCHC 12 l in
          if HASEXCEPTION l then Ok (true, l) else mWS_loop fuel (cnt1 + 1) l
      else if 1 <=? cnt1 then Ok (false, l)
      else Ok (true, exConstruct l)
  end.

Definition mWS (l : LEXER) : outcome LEXER :=
  '(ex, l) ← mWS_loop (S (length (nextChar (input l)))) 0 l;
  Ok (if (ex : bool) then l else set_type WS (set_channel 99 l)).

(** The characters of a number, as the code tests them. *)
Definition num_char (c : Z) : bool := (48 <=? c) && (c <=? 57).

Fixpoint mNUM_loop (fuel : nat) (l : LEXER) : outcome (bool * LEXER) :=
  match fuel with
  | O => Undef NoFuel
  | S fuel =>
      if num_char (LA 1 (input l)) then
        if num_char (LA 1 (input l)) then mNUM_loop fuel (CONSUME l)
        else Ok (true, recover (exConstruct l))
      else Ok (false, l)
  end.

Definition mNUM (l : LEXER) : outcome LEXER :=
  '(ex, l) ← mNUM_loop (S (length (nextChar (input l)))) l;
  Ok (if (ex : bool) then l else set_type NUM l).

(** The cases of the switch of [mTEXT], and the test of its alternative. *)
Definition text_case (c : Z) : bool :=
  bool_decide (c ∈ [43; 45; 47]) || (48 <=? c) && (c <=? 58) || (c =? 61)
  || (65 <=? c) && (c <=? 90) || (c =? 95) || (97 <=? c) && (c <=? 122).
Definition text_char (c : Z) : bool :=
  (c =? 43) || (c =? 45) || (47 <=? c) && (c <=? 58) || (c =? 61)
  || (65 <=? c) && (c <=? 90) || (c =? 95) || (97 <=? c) && (c <=? 122).

Fixpoint mTEXT_loop (fuel : nat) (l : LEXER) : outcome (bool * LEXER) :=
  match fuel with
  | O => Undef NoFuel
  | S fuel =>
      if text_case (LA 1 (input l)) then
        if text_char (LA 1 (input l)) then mTEXT_loop fuel (CONSUME l)
        else Ok (true, recover (exConstruct l))
      else Ok (false, l)
  end.

Definition mTEXT (l : LEXER) : outcome LEXER :=
  '(ex, l) ← mTEXT_loop (S (length (nextChar (input l)))) l;
  Ok (if (ex : bool) then l else set_type TEXT l).

Definition mCREDENTIAL_HEADER (l : LEXER) : LEXER :=
  let l := MATCHS lit_5 l in if HASEXCEPTION l then l else set_type CREDENTIAL_HEADER l.
Definition mCREDENTIAL_END (l : LEXER) : LEXER :=
  let l := MATCHS lit_6 l in if HASEXCEPTION l then l else set_type CREDENTIAL_END l.
Definition mPUBLIC_KEY_HEADER (l : LEXER) : LEXER :=
  let l := MATCHS lit_7 l in if HASEXCEPTION l then l else set_type PUBLIC_KEY_HEADER l.
Definition mPUBLIC_KEY_END (l : LEXER) : LEXER :=
  let l := MATCHS lit_8 l in if HASEXCEPTION l then l else set_type PUBLIC_KEY_END l.
Definition mSIGNATURE_HEADER (l : LEXER) : LEXER :=
  let l := MATCHS lit_9 l in if HASEXCEPTION l then l else set_type SIGNATURE_HEADER l.
Definition mSIGNATURE_END (l : LEXER) : LEXER :=
  let l := MATCHS lit_10 l in if HASEXCEPTION l then l else set_type SIGNATURE_END l.
Definition mVALIDITY_HEADER (l : LEXER) : LEXER :=
  let l := MATCHS lit_11 l in if HASEXCEPTION l then l else set_type VALIDITY_HEADER l.
Definition mVALIDITY_END (l : LEXER) : LEXER :=
  let l := MATCHS lit_12 l in if HASEXCEPTION l then l else set_type VALIDITY_END l.
Definition mCERT_HEADER (l : LEXER) : LEXER :=
  let l := MATCHS lit_13 l in if HASEXCEPTION l then l else set_type CERT_HEADER l.
Definition mCERT_END (l : LEXER) : LEXER :=
  let l := MATCHS lit_14 l in if HASEXCEPTION l then l else set_type CERT_END l.
Definition mCHALLENGE_HEADER (l : LEXER) : LEXER :=
  let l := MATCHS lit_15 l in if HASEXCEPTION l then l else set_type CHALLENGE_HEADER l.
Definition mCHALLENGE_END (l : LEXER) : LEXER :=
  let l := MATCHS lit_16 l in if HASEXCEPTION l then l else set_type CHALLENGE_END l.
Definition mRESPONSE_HEADER (l : LEXER) : LEXER :=
  let l := MATCHS lit_17 l in if HASEXCEPTION l then l else set_type RESPONSE_HEADER l.
Definition mRESPONSE_END (l : LEXER) : LEXER :=
  let l := MATCHS lit_18 l in if HASEXCEPTION l then l else set_type RESPONSE_END l.
Definition mREQUEST_HEADER (l : LEXER) : LEXER :=
  let l := MATCHS lit_19 l in if HASEXCEPTION l then l else set_type REQUEST_HEADER l.
Definition mREQUEST_END (l : LEXER) : LEXER :=
  let l := MATCHS lit_20 l in if HASEXCEPTION l then l else set_type REQUEST_END l.
Definition mREPLY_HEADER (l : LEXER) : LEXER :=
  let l := MATCHS lit_21 l in if HASEXCEPTION l then l else set_type REPLY_HEADER l.
Definition mREPLY_END (l : LEXER) : LEXER :=
  let l := MATCHS lit_22 l in if HASEXCEPTION l then l else set_type REPLY_END l.
Definition mNOT_BEFORE (l : LEXER) : LEXER :=
  let l := MATCHS lit_23 l in if HASEXCEPTION l then l else set_type NOT_BEFORE l.
Definition mNOT_AFTER (l : LEXER) : LEXER :=
  let l := MATCHS lit_24 l in if HASEXCEPTION l then l else set_type NOT_AFTER l.

(** ** Choosing a rule *)

(** The switch of [mTokens]. *)
Definition mTokens_alt (alt4 : Z) (l : LEXER) : outcome LEXER :=
  match alt4 with
  | 1 => Ok (mT__39 l)
  | 2 => Ok (mT__40 l)
  | 3 => Ok (mT__41 l)
  | 4 => Ok (mT__42 l)
  | 5 => Ok (mT__43 l)
  | 6 => Ok (mT__44 l)
  | 7 => Ok (mT__45 l)
  | 8 => Ok (mT__46 l)
  | 9 => mWS l
  | 10 => mNUM l
  | 11 => mTEXT l
  | 12 => Ok (mCREDENTIAL_HEADER l)
  | 13 => Ok (mCREDENTIAL_END l)
  | 14 => Ok (mPUBLIC_KEY_HEADER l)
  | 15 => Ok (mPUBLIC_KEY_END l)
  | 16 => Ok (mSIGNATURE_HEADER l)
  | 17 => Ok (mSIGNATURE_END l)
  | 18 => Ok (mVALIDITY_HEADER l)
  | 19 => Ok (mVALIDITY_END l)
  | 20 => Ok (mCERT_HEADER l)
  | 21 => Ok (mCERT_END l)
  | 22 => Ok (mCHALLENGE_HEADER l)
  | 23 => Ok (mCHALLENGE_END l)
  | 24 => Ok (mRESPONSE_HEADER l)
  | 25 => Ok (mRESPONSE_END l)
  | 26 => Ok (mREQUEST_HEADER l)
  | 27 => Ok (mREQUEST_END l)
  | 28 => Ok (mREPLY_HEADER l)
  | 29 => Ok (mREPLY_END l)
  | 30 => Ok (mNOT_BEFORE l)
  | 31 => Ok (mNOT_AFTER l)
  | _ => Ok l
  end.

(** [mTokens] *)
Definition mTokens (l : LEXER) : outcome LEXER :=
  '(alt4, i) ← predict cdfa4 (S (S (length (nextChar (input l))))) (input l);
  let l := set_input i l in
  match alt4 with
  | None => Ok (exConstruct l)
  | Some alt4 => mTokens_alt alt4 l
  end.

(** ** Tokens *)

Record COMMON_TOKEN : Type := mkToken {
  tok_type : Z;
  tok_channel : Z;
  tok_text : str
}.
#[export] Instance COMMON_TOKEN_eq_dec : EqDecision COMMON_TOKEN.
Proof. solve_decision. Defined.

(** [emit]: the token from [tokenStartCharIndex] up to the character ahead. *)
Definition emit (start : str) (l : LEXER) : COMMON_TOKEN :=
  mkToken (type l) (channel l)
    (take (length start - length (nextChar (input l))) start).

(** [nextTokenStr]: [None] for the end of the stream. The loop skips what no rule
    matches; no rule of the grammar skips a token. *)
Fixpoint nextTokenStr (fuel : nat) (l : LEXER) : outcome (option COMMON_TOKEN * LEXER) :=
  match fuel with
  | O => Undef NoFuel
  | S fuel =>
      let l := set_channel TOKEN_DEFAULT_CHANNEL l in
      let tokenStartCharIndex := nextChar (input l) in
      if LA 1 (input l) =? -1 then Ok (None, l)
      else
        l ← mTokens (set_failed false (set_error false l));
        if error l then nextTokenStr fuel (recover (set_failed true l))
        else Ok (Some (emit tokenStartCharIndex l), l)
  end.

(** The stack of streams is empty, so that [nextToken] is [nextTokenStr]; the
    loop skips a character in each round but the last. *)
Definition nextToken (l : LEXER) : outcome (option COMMON_TOKEN * LEXER) :=
  nextTokenStr (S (length (nextChar (input l)))) l.

Definition RepositoryManagerLexerNew (input : INPUT_STREAM) : LEXER :=
  mkLexer input 0 0 false false.

(** [fillBuffer]: all the tokens, those of every channel. *)
Fixpoint fillBuffer (fuel : nat) (l : LEXER) : outcome (list COMMON_TOKEN) :=
  match fuel with
  | O => Undef NoFuel
  | S fuel =>
      '(tok, l) ← nextToken l;
      match tok with
      | None => Ok []
      | Some tok => toks ← fillBuffer fuel l; Ok (tok :: toks)
      end
  end.

(** The tokens of a text. *)
Definition tokenize (fuel : nat) (s : str) : outcome (list COMMON_TOKEN) :=
  fillBuffer fuel (RepositoryManagerLexerNew (StringStreamNew s)).
