(* ===== verification/LexerSpec.v ===== *)
(** The automaton of the lexer as a function of the text, and the rules as
    functions that split off a prefix: what [Lexer] computes, stated without the
    machinery of the run time. *)
From S2P Require Import Prelude CppString CyclicDFA InputStream LexerTables Lexer.

(** ** The automaton on a text *)

(** The next state for an element. *)
Definition step (s c : Z) : outcome (option Z) :=
  lo ← index (min cdfa4) s;
  hi ← index (max cdfa4) s;
  e ← index (eot cdfa4) s;
  let other := if 0 <=? e then Some e else None in
  if (lo <=? c) && (c <=? hi) then
    t ← index (transition cdfa4) s;
    t ← deref t;
    snext ← index t (c - lo);
    Ok (if snext <? 0 then other else Some snext)
  else Ok other.

(** The jump on [c] leads to [x]. *)
Definition step_is (s c x : Z) : bool :=
  match step s c with Ok (Some y) => y =? x | _ => false end.
Lemma step_is_spec s c x : step_is s c x = true → step s c = Ok (Some x).
Proof.
  unfold step_is. destruct (step s c) as [[y|]|?|?]; try done. by intros ->%Z.eqb_eq.
Qed.

Definition char_code (c : ascii) : Z := Z.of_nat (nat_of_ascii c).
Definition code (s : str) : Z := match s with [] => -1 | c :: _ => char_code c end.

(** The alternative the automaton answers from a state on a text. *)
Fixpoint run (fuel : nat) (s : Z) (text : str) : outcome (option Z) :=
  match fuel with
  | O => Undef NoFuel
  | S fuel =>
      acc ← index (accept cdfa4) s;
      if 1 <=? acc then Ok (Some acc)
      else
        o ← step s (code text);
        match o with
        | Some s' => run fuel s' (drop 1 text)
        | None => Ok None
        end
  end.

Lemma LA1_code i : LA 1 i = code (nextChar i).
Proof. unfold LA, code, char_code. by destruct (nextChar i). Qed.

Lemma dfa4_ok : dfa_ok cdfa4 = true.
Proof. vm_compute. reflexivity. Qed.

(** In these tables no state is special and no jump is taken at the end. *)
Lemma index_range {A} (l : list A) i x :
  index l i = Ok x → 0 ≤ i < Z.of_nat (length l).
Proof.
  unfold index. destruct (Z.ltb_spec i 0); [done|].
  destruct (l !! Z.to_nat i) eqn:E; [|done]. intros _. apply lookup_lt_Some in E. lia.
Qed.

Lemma dfa4_plain s acc :
  index (accept cdfa4) s = Ok acc →
  index (special cdfa4) s = Ok (-1) ∧ index (eof cdfa4) s = Ok (-1).
Proof.
  intros H%index_range.
  assert (bool_decide (index (special cdfa4) s = Ok (-1) ∧ index (eof cdfa4) s = Ok (-1)) = true)
    as Hb%bool_decide_eq_true; [|done].
  change (Z.of_nat (length (accept cdfa4))) with (Z.of_nat 121) in H.
  revert s H. apply (forall_range_spec
    (λ s, bool_decide (index (special cdfa4) s = Ok (-1) ∧ index (eof cdfa4) s = Ok (-1))) 121 0).
  vm_compute. reflexivity.
Qed.

(** The simulator answers what [run] does, and goes back to its mark. *)
Lemma predict_loop_run fuel m s i r :
  run fuel s (nextChar i) = Ok r →
  ∃ n, predict_loop cdfa4 fuel m s i = Ok (r, rewind8 (Nat.iter n consume8 i) m).
Proof.
  revert s i. induction fuel as [|fuel IH]; intros s i H; [done|].
  cbn [run] in H. cbn [predict_loop].
  destruct (index (accept cdfa4) s) as [acc|?|?] eqn:Ea; [|done..].
  destruct (dfa4_plain _ _ Ea) as [-> ->]. cbn [mbind outcome_bind Z.leb Z.compare] in *.
  destruct (1 <=? acc). { injection H as <-. by exists 0%nat. }
  change (LA1 i) with (LA 1 i). rewrite LA1_code. unfold step in H.
  destruct (index (min cdfa4) s) as [lo|?|?]; [|done..].
  destruct (index (max cdfa4) s) as [hi|?|?]; [|done..].
  destruct (index (eot cdfa4) s) as [e|?|?]; [|done..].
  cbn [mbind outcome_bind] in *. rewrite andb_false_r.
  assert (∀ x, run fuel x (drop 1 (nextChar i)) = Ok r → ∃ n,
    predict_loop cdfa4 fuel m x (consume i) = Ok (r, rewind8 (Nat.iter n consume8 i) m)) as Hx.
  { intros x Hr. change (consume i) with (consume8 i). rewrite <-nextChar_consume in Hr.
    destruct (IH x (consume8 i) Hr) as [n ->]. exists (S n). by rewrite Nat.iter_succ_r. }
  destruct (_ && _).
  - destruct (index (transition cdfa4) s) as [[t|]|?|?]; [|done..].
    cbn [deref mbind outcome_bind] in *.
    destruct (index t _) as [x|?|?]; [|done..]. cbn [mbind outcome_bind] in *.
    destruct (x <? 0); [|by apply Hx]. destruct (0 <=? e); [by apply Hx|].
    injection H as <-. by exists 0%nat.
  - destruct (0 <=? e); [by apply Hx|]. injection H as <-. by exists 0%nat.
Qed.

Lemma predict_run fuel i r :
  input_stream_ok i → run fuel 0 (nextChar i) = Ok r →
  ∃ i', predict cdfa4 fuel i = Ok (r, i') ∧ same_input i i'.
Proof.
  intros Hok Hr. unfold predict. change (mark i) with (mark8 i).
  pose proof (λ n, rewind_mark i n Hok) as Hw. change (mark i) with (mark8 i) in Hw.
  destruct (mark8 i) as [m i0] eqn:E.
  assert (nextChar i0 = nextChar i) as Hn by (by injection E as _ <-).
  rewrite <-Hn in Hr. destruct (predict_loop_run fuel m 0 i0 r Hr) as [n ->].
  eexists. split; [done|]. apply (Hw n).
Qed.

(** A longer run answers the same. *)
Lemma run_mono fuel fuel' s text r :
  run fuel s text = Ok r → (fuel ≤ fuel')%nat → run fuel' s text = Ok r.
Proof.
  revert fuel' s text. induction fuel as [|fuel IH]; intros fuel' s text H Hf; [done|].
  destruct fuel' as [|fuel']; [lia|]. cbn [run] in *.
  destruct (index (accept cdfa4) s) as [acc|?|?]; [|done..]. cbn [mbind outcome_bind] in *.
  destruct (1 <=? acc); [done|]. destruct (step s _) as [[x|]|?|?]; [|done..].
  cbn [mbind outcome_bind] in *. apply IH; [done|lia].
Qed.

(** ** Paths through the automaton *)

(** [answers s text r]: from state [s] on [text] the automaton answers [r] with
    the fuel the lexer gives it. *)
Definition answers (s : Z) (text : str) (r : option Z) : Prop :=
  run (S (S (length text))) s text = Ok r.

Lemma answers_step s c text s' r :
  step s (char_code c) = Ok (Some s') → index (accept cdfa4) s = Ok (-1) →
  answers s' text r → answers s (c :: text) r.
Proof.
  unfold answers. intros Hs Ha Hr. cbn [length]. cbn [run].
  rewrite Ha. cbn [mbind outcome_bind Z.leb Z.compare]. cbn [code]. rewrite Hs.
  cbn [mbind outcome_bind drop]. by rewrite drop_0.
Qed.

Lemma answers_accept s text a :
  index (accept cdfa4) s = Ok a → 1 ≤ a → answers s text (Some a).
Proof.
  unfold answers. intros Ha H. cbn [run]. rewrite Ha. cbn [mbind outcome_bind].
  by rewrite (proj2 (Z.leb_le _ _) H).
Qed.

(** From a state that leaves for an accepting one on what is ahead. *)
Lemma answers_leave s text s' a :
  step s (code text) = Ok (Some s') → index (accept cdfa4) s = Ok (-1) →
  index (accept cdfa4) s' = Ok a → 1 ≤ a → answers s text (Some a).
Proof.
  unfold answers. intros Hs Ha Hacc H. cbn [run].
  rewrite Ha. cbn [mbind outcome_bind Z.leb Z.compare]. rewrite Hs. cbn [mbind outcome_bind].
  destruct (length text) as [|k]; cbn [run]; rewrite Hacc; cbn [mbind outcome_bind];
    by rewrite (proj2 (Z.leb_le _ _) H).
Qed.

Definition textb (c : ascii) : bool := text_char (char_code c).
Definition digitb (c : ascii) : bool := num_char (char_code c).
(** What is ahead does not continue a word. *)
Definition ends_word (text : str) : bool := negb (text_char (code text)).

(** A path spells a keyword: each state moves on by its character and leaves for
    the text state 14 on anything else. *)
Fixpoint path_ok (p : list (Z * Z)) (final : Z) : bool :=
  match p with
  | [] => bool_decide (index (accept cdfa4) final = Ok (-1)) &&
          forall_range (λ c, negb (text_char c) || step_is final c 14) 257 (-1)
  | (s, e) :: p =>
      let next := match p with [] => final | (s', _) :: _ => s' end in
      bool_decide (index (accept cdfa4) s = Ok (-1)) && text_char e &&
      forall_range (λ c, step_is s c (if c =? e then next else 14)) 257 (-1)
      && path_ok p final
  end.

Lemma char_code_range c : 0 ≤ char_code c < 256.
Proof. unfold char_code. pose proof (nat_ascii_bounded c). lia. Qed.
Lemma code_range text : -1 ≤ code text < 256.
Proof. destruct text as [|c text]; cbn [code]; [lia|]. pose proof (char_code_range c). lia. Qed.

Lemma accept_14 : index (accept cdfa4) 14 = Ok 11.
Proof. reflexivity. Qed.

Lemma path_word p final w tail :
  path_ok p final = true → Forall (λ c, textb c = true) w →
  map char_code w ≠ map snd p → ends_word tail = true →
  answers (match p with [] => final | (s, _) :: _ => s end) (w ++ tail) (Some 11).
Proof.
  intros Hp Hw Hne Ht. revert w Hw Hne. induction p as [|[s e] p IH]; intros w Hw Hne;
    cbn [path_ok] in Hp; rewrite !andb_true_iff in Hp.
  - destruct Hp as [Ha%bool_decide_eq_true Hp]. destruct w as [|c w]; [done|].
    apply Forall_cons in Hw as [Hc _].
    pose proof (forall_range_spec _ _ _ Hp (char_code c)) as Hs.
    pose proof (char_code_range c). unfold textb in Hc. cbn beta in Hs.
    rewrite Hc in Hs. cbn [negb orb] in Hs.
    specialize (Hs ltac:(lia)). apply step_is_spec in Hs.
    apply (answers_leave _ _ 14 11); done.
  - destruct Hp as [[[Ha%bool_decide_eq_true He] Hr] Hp].
    pose proof (λ c H, step_is_spec _ _ _ (forall_range_spec _ _ _ Hr c H)) as Hs.
    cbn beta in Hs. destruct w as [|c w].
    + pose proof (code_range tail). specialize (Hs (code tail) ltac:(lia)).
      unfold ends_word in Ht. apply negb_true_iff in Ht.
      destruct (Z.eqb_spec (code tail) e) as [Heq|]; [rewrite Heq in Ht; congruence|].
      apply (answers_leave _ _ 14 11); done.
    + apply Forall_cons in Hw as [Hc Hw].
      pose proof (char_code_range c). specialize (Hs (char_code c) ltac:(lia)).
      destruct (Z.eqb_spec (char_code c) e) as [<-|Hce].
      * cbn [app]. eapply answers_step; [done|done|]. apply IH; [done|done|].
        intros Hm. apply Hne. cbn. by rewrite Hm.
      * apply (answers_leave _ _ 14 11); done.
Qed.

(** Numbers: digits stay in state 10. *)
Lemma digits_run w tail :
  Forall (λ c, textb c = true) w → ends_word tail = true →
  answers 10 (w ++ tail) (Some (if forallb digitb w then 10 else 11)).
Proof.
  intros Hw Ht.
  assert (∀ c, -1 ≤ c < 256 → step 10 c = Ok (Some (if num_char c then 10 else
    if text_char c then 14 else 11))) as Hs.
  { intros c Hc. apply step_is_spec. revert c Hc.
    apply (forall_range_spec (λ c, step_is 10 c
      (if num_char c then 10 else if text_char c then 14 else 11)) 257 (-1)).
    vm_compute. reflexivity. }
  induction w as [|c w IH]; cbn [forallb app].
  - specialize (Hs (code tail) (code_range tail)). unfold ends_word in Ht.
    apply negb_true_iff in Ht. rewrite Ht in Hs.
    destruct (num_char (code tail)) eqn:En.
    + unfold num_char in En. unfold text_char in Ht. rewrite !orb_false_iff in Ht.
      apply andb_true_iff in En as [E1%Z.leb_le E2%Z.leb_le]. destruct_and! Ht.
      rewrite andb_false_iff, Z.leb_gt, Z.leb_gt in *. lia.
    + by apply (answers_leave _ _ 11 10).
  - apply Forall_cons in Hw as [Hc Hw]. unfold digitb at 1. unfold textb in Hc.
    pose proof (char_code_range c). specialize (Hs (char_code c) ltac:(lia)).
    rewrite Hc in Hs. destruct (num_char (char_code c)); cbn [andb].
    + eapply answers_step; [done|done|]. by apply IH.
    + by apply (answers_leave _ _ 14 11).
Qed.

(** [walk s w]: the state after the characters of [w], when no state on the way
    accepts. *)
Fixpoint walk (s : Z) (w : str) : option Z :=
  if bool_decide (index (accept cdfa4) s = Ok (-1)) then
    match w with
    | [] => Some s
    | c :: w => match step s (char_code c) with Ok (Some s') => walk s' w | _ => None end
    end
  else None.

Lemma answers_walk s w s' tail r :
  walk s w = Some s' → answers s' tail r → answers s (w ++ tail) r.
Proof.
  revert s. induction w as [|c w IH]; intros s Hw Hr; cbn [walk] in Hw;
    (case_bool_decide as Ha; [|done]).
  - by injection Hw as ->.
  - destruct (step s (char_code c)) as [[x|]|?|?] eqn:Hs; [|done..].
    cbn [app]. eapply answers_step; [done|done|]. by apply IH.
Qed.

(** ** The words that are not keywords *)

Definition word (w : str) : Prop :=
  Forall (λ c, textb c = true) w ∧ forallb digitb w = false ∧
  hd_error w ≠ Some "-"%char ∧ hd_error w ≠ Some ":"%char ∧
  w ∉ [lit "datime"; lit "request"; lit "says"; lit "Not"].
#[export] Instance word_dec w : Decision (word w).
Proof. unfold word. apply _. Defined.

(** Where the automaton goes from its first state. *)
Definition first_state (c : Z) : Z :=
  if num_char c then 10
  else if c =? 100 then 6 else if c =? 114 then 7 else if c =? 115 then 8
  else if c =? 78 then 13 else 14.

Lemma step_0 c :
  textb c = true → c ≠ "-"%char → c ≠ ":"%char →
  step 0 (char_code c) = Ok (Some (first_state (char_code c))).
Proof.
  intros Ht H1 H2. apply step_is_spec. unfold textb in Ht.
  pose proof (forall_range_spec (λ c, negb (text_char c) || (c =? 45) || (c =? 58)
    || step_is 0 c (first_state c)) 256 0 ltac:(vm_compute; reflexivity) (char_code c)
    ltac:(pose proof (char_code_range c); lia)) as H.
  cbn beta in H. rewrite Ht in H. cbn [negb orb] in H.
  destruct (Z.eqb_spec (char_code c) 45) as [He|].
  { destruct H1. rewrite <-(ascii_nat_embedding c). unfold char_code in He.
    by replace (nat_of_ascii c) with 45%nat by lia. }
  destruct (Z.eqb_spec (char_code c) 58) as [He|]; [|done].
  destruct H2. rewrite <-(ascii_nat_embedding c). unfold char_code in He.
  by replace (nat_of_ascii c) with 58%nat by lia.
Qed.

Lemma char_code_inj : Inj (=) (=) char_code.
Proof.
  intros a b H. unfold char_code in H. apply Nat2Z.inj in H.
  by rewrite <-(ascii_nat_embedding a), H, ascii_nat_embedding.
Qed.

Lemma map_char_code_inj a b : map char_code a = map char_code b → a = b.
Proof. apply (list_fmap_eq_inj char_code), char_code_inj. Qed.

(** A word is a text for the automaton. *)
Lemma word_run w tail : word w → ends_word tail = true → answers 0 (w ++ tail) (Some 11).
Proof.
  intros (Hw & Hd & Hm & Hc & Hk) Ht. destruct w as [|c w]; [done|].
  apply Forall_cons in Hw as [Htc Hw].
  assert (∀ k, c :: w ≠ lit k → map char_code (c :: w) ≠ map char_code (lit k)) as Hinj.
  { intros k Hne H. by apply Hne, map_char_code_inj. }
  rewrite !not_elem_of_cons in Hk. destruct Hk as (H1 & H2 & H3 & H4 & _).
  apply Hinj in H1, H2, H3, H4. cbn [map] in H1, H2, H3, H4.
  cbn [app]. eapply answers_step; [apply step_0; [done|naive_solver..]|done|].
  unfold first_state. destruct (num_char (char_code c)) eqn:En.
  { replace (Some 11) with (Some (if forallb digitb w then 10 else 11)); [by apply digits_run|].
    cbn [forallb] in Hd. unfold digitb at 1 in Hd. rewrite En in Hd. cbn [andb] in Hd.
    by rewrite Hd. }
  destruct (Z.eqb_spec (char_code c) 100) as [He|_].
  { apply (path_word [(6, 97); (16, 116); (22, 105); (27, 109); (32, 101)] 38);
      [vm_compute; reflexivity|done| |done]. intros Hp. apply H1. rewrite He, Hp. reflexivity. }
  destruct (Z.eqb_spec (char_code c) 114) as [He|_].
  { apply (path_word [(7, 101); (17, 113); (23, 117); (28, 101); (33, 115); (39, 116)] 43);
      [vm_compute; reflexivity|done| |done]. intros Hp. apply H2. rewrite He, Hp. reflexivity. }
  destruct (Z.eqb_spec (char_code c) 115) as [He|_].
  { apply (path_word [(8, 97); (18, 121); (24, 115)] 29);
      [vm_compute; reflexivity|done| |done]. intros Hp. apply H3. rewrite He, Hp. reflexivity. }
  destruct (Z.eqb_spec (char_code c) 78) as [He|_].
  { apply (path_word [(13, 111); (20, 116)] 26);
      [vm_compute; reflexivity|done| |done]. intros Hp. apply H4. rewrite He, Hp. reflexivity. }
  by apply (answers_accept _ _ 11).
Qed.

(** A number is digits, at least one. *)
Definition number (w : str) : Prop := w ≠ [] ∧ Forall (λ c, digitb c = true) w.
#[export] Instance number_dec w : Decision (number w).
Proof. unfold number. apply _. Defined.

Lemma num_text c : num_char c = true → text_char c = true.
Proof.
  unfold num_char, text_char. rewrite andb_true_iff, Z.leb_le, Z.leb_le. intros [H1 H2].
  rewrite !orb_true_iff, !andb_true_iff, !Z.leb_le, !Z.eqb_eq. lia.
Qed.

Lemma digitb_text w : Forall (λ c, digitb c = true) w → Forall (λ c, textb c = true) w.
Proof. intros H. eapply Forall_impl; [done|]. intros c. apply num_text. Qed.

Lemma number_run w tail : number w → ends_word tail = true → answers 0 (w ++ tail) (Some 10).
Proof.
  intros [Hne Hw] Ht. destruct w as [|c w]; [done|].
  pose proof (digitb_text _ Hw) as Hx. apply Forall_cons in Hx as [Htc Htw].
  apply Forall_cons in Hw as [Hc Hw]. cbn [app].
  eapply answers_step; [apply step_0|done|].
  - done.
  - intros ->. by vm_compute in Hc.
  - intros ->. by vm_compute in Hc.
  - unfold first_state. unfold digitb in Hc. rewrite Hc.
    assert (forallb digitb w = true) as Hd.
    { apply forallb_forall. intros x Hx. rewrite Forall_forall in Hw.
      by apply Hw, list_elem_of_In. }
    pose proof (digits_run w tail Htw Ht) as H. by rewrite Hd in H.
Qed.

(** ** The keywords *)

(** Text, alternative and type of the tokens that are spelled one way. *)
Definition keywords : list (str * Z * Z) :=
  [(lit "(", 1, T__39); (lit ")", 2, T__40); (lit ",", 3, T__41); (lit ".", 4, T__42);
   (lit ":-", 5, T__43); (lit "datime", 6, T__44); (lit "request", 7, T__45);
   (lit "says", 8, T__46);
   (lit "-----BEGIN MPKI CREDENTIAL-----", 12, CREDENTIAL_HEADER);
   (lit "-----END MPKI CREDENTIAL-----", 13, CREDENTIAL_END);
   (lit "-----BEGIN PUBLIC KEY-----", 14, PUBLIC_KEY_HEADER);
   (lit "-----END PUBLIC KEY-----", 15, PUBLIC_KEY_END);
   (lit "-----BEGIN SIGNATURE-----", 16, SIGNATURE_HEADER);
   (lit "-----END SIGNATURE-----", 17, SIGNATURE_END);
   (lit "-----BEGIN VALIDITY-----", 18, VALIDITY_HEADER);
   (lit "-----END VALIDITY-----", 19, VALIDITY_END);
   (lit "-----BEGIN MPKI CERTIFICATE-----", 20, CERT_HEADER);
   (lit "-----END MPKI CERTIFICATE-----", 21, CERT_END);
   (lit "-----BEGIN MPKI CHALLENGE-----", 22, CHALLENGE_HEADER);
   (lit "-----END MPKI CHALLENGE-----", 23, CHALLENGE_END);
   (lit "-----BEGIN MPKI CHALLENGE RESPONSE-----", 24, RESPONSE_HEADER);
   (lit "-----END MPKI CHALLENGE RESPONSE-----", 25, RESPONSE_END);
   (lit "-----BEGIN REPOSITORY CLIENT REQUEST-----", 26, REQUEST_HEADER);
   (lit "-----END REPOSITORY CLIENT REQUEST-----", 27, REQUEST_END);
   (lit "-----BEGIN REPOSITORY SERVER REPLY-----", 28, REPLY_HEADER);
   (lit "-----END REPOSITORY SERVER REPLY-----", 29, REPLY_END);
   (lit "Not before:", 30, NOT_BEFORE); (lit "Not after:", 31, NOT_AFTER)].

(** A keyword that could go on as a word is left when no word goes on. *)
Definition leaves (final acc_state : Z) : bool :=
  forall_range (λ c, text_char c || step_is final c acc_state) 257 (-1).

Lemma leaves_answers final acc_state a w tail :
  walk 0 w = Some final → leaves final acc_state = true →
  index (accept cdfa4) acc_state = Ok a → 1 ≤ a → ends_word tail = true →
  answers 0 (w ++ tail) (Some a).
Proof.
  intros Hw Hl Ha H1 Ht. eapply answers_walk; [done|].
  pose proof (forall_range_spec _ _ _ Hl (code tail)
    ltac:(pose proof (code_range tail); lia)) as Hs.
  cbn beta in Hs. unfold ends_word in Ht. apply negb_true_iff in Ht. rewrite Ht in Hs.
  apply (answers_leave _ _ acc_state a); [by apply step_is_spec| |done|done].
  clear -Hw. revert Hw. generalize 0. induction w as [|c w IH]; intros s Hw; cbn [walk] in Hw;
    (case_bool_decide; [|done]); [by injection Hw as <-|].
  destruct (step s _) as [[x|]|?|?]; [|done..]. by apply (IH x).
Qed.

Lemma keyword_run :
  Forall (λ '(w, alt, _), ∀ tail, ends_word tail = true → answers 0 (w ++ tail) (Some alt))
    keywords.
Proof.
  repeat (apply Forall_cons; split; [intros tail Ht|]); [..|apply Forall_nil; done];
    try (vm_compute; reflexivity).
  - apply (leaves_answers 15 21); try done; vm_compute; reflexivity.
  - apply (leaves_answers 38 42); try done; vm_compute; reflexivity.
  - apply (leaves_answers 43 46); try done; vm_compute; reflexivity.
  - apply (leaves_answers 29 34); try done; vm_compute; reflexivity.
Qed.

(** ** The rules *)

(** The rule matched a prefix and left [tail]. *)
Definition matched (ty ch : Z) (tail : str) (l' : LEXER) : Prop :=
  nextChar (input l') = tail ∧ input_stream_ok (input l') ∧ error l' = false ∧
  type l' = ty ∧ channel l' = ch.

Definition ready (text : str) (l : LEXER) : Prop :=
  nextChar (input l) = text ∧ input_stream_ok (input l) ∧ error l = false.

Lemma input_ok_consume i : input_stream_ok i → input_stream_ok (consume8 i).
Proof. unfold input_stream_ok, consume8. by destruct (nextChar i). Qed.

Lemma ready_consume c text l b :
  ready (c :: text) l → ready text (set_failed b (CONSUME l)).
Proof.
  intros (Hn & Hok & He). split_and!; cbn; [|by apply input_ok_consume|done].
  by rewrite nextChar_consume, Hn.
Qed.

Lemma ready_LA c text l : ready (c :: text) l → LA 1 (input l) = char_code c.
Proof. intros (Hn & _). by rewrite LA1_code, Hn. Qed.

Lemma MATCHC_ready c text l :
  ready (c :: text) l →
  ready text (MATCHC (char_code c) l) ∧ channel (MATCHC (char_code c) l) = channel l.
Proof.
  intros H. unfold MATCHC. rewrite (ready_LA _ _ _ H), Z.eqb_refl.
  split; [by eapply ready_consume|done].
Qed.

Lemma MATCHS_ready w tail l :
  ready (w ++ tail) l →
  ready tail (MATCHS (map char_code w) l) ∧ channel (MATCHS (map char_code w) l) = channel l.
Proof.
  revert l. induction w as [|c w IH]; intros l H; [done|]. cbn [map MATCHS].
  cbn [app] in H. rewrite (ready_LA _ _ _ H), Z.eqb_refl. cbn [negb].
  destruct (IH _ (ready_consume _ _ _ false H)) as [H1 ->]. done.
Qed.

Lemma matched_rule ty l' ch tail :
  ready tail l' ∧ channel l' = ch →
  matched ty ch tail (if HASEXCEPTION l' then l' else set_type ty l').
Proof. intros [(H1 & H2 & H3) H4]. unfold HASEXCEPTION. by rewrite H3. Qed.

Lemma keyword_rule :
  Forall (λ '(w, alt, ty), ∀ tail l, ready (w ++ tail) l → ∃ l',
    mTokens_alt alt l = Ok l' ∧ matched ty (channel l) tail l') keywords.
Proof.
  repeat (apply Forall_cons; split; [intros tail l H|]); [..|apply Forall_nil; done];
    (eexists; split; [reflexivity|]); apply matched_rule;
    first [apply (MATCHC_ready _ _ _ H) | apply (MATCHS_ready _ _ _ H)].
Qed.

(** The two tests of [mTEXT] agree. *)
Lemma text_case_char c : text_case c = text_char c.
Proof.
  unfold text_case, text_char. apply eq_true_iff_eq.
  rewrite !orb_true_iff, bool_decide_eq_true, !andb_true_iff, !Z.leb_le, !Z.eqb_eq.
  rewrite !elem_of_cons, elem_of_nil. lia.
Qed.

(** The loops of the two open-ended rules. *)
Lemma mTEXT_loop_ready fuel w tail l :
  Forall (λ c, textb c = true) w → ends_word tail = true → ready (w ++ tail) l →
  (length w < fuel)%nat →
  ∃ l', mTEXT_loop fuel l = Ok (false, l') ∧ ready tail l' ∧ channel l' = channel l.
Proof.
  revert w l. induction fuel as [|fuel IH]; intros w l Hw Ht H Hf; [lia|]. cbn [mTEXT_loop].
  rewrite text_case_char. destruct w as [|c w].
  - pose proof H as (Hn & _). rewrite LA1_code, Hn. cbn [app].
    unfold ends_word in Ht. apply negb_true_iff in Ht. rewrite Ht. by exists l.
  - apply Forall_cons in Hw as [Hc Hw]. cbn [app] in H. rewrite (ready_LA _ _ _ H).
    unfold textb in Hc. rewrite Hc. cbn in Hf.
    apply (ready_consume _ _ _ (failed l)) in H.
    destruct (IH w (CONSUME l)) as (l' & -> & H' & Hch); [done|done| |lia|by exists l'].
    unfold ready in *. exact H.
Qed.

Lemma mNUM_loop_ready fuel w tail l :
  Forall (λ c, digitb c = true) w → num_char (code tail) = false → ready (w ++ tail) l →
  (length w < fuel)%nat →
  ∃ l', mNUM_loop fuel l = Ok (false, l') ∧ ready tail l' ∧ channel l' = channel l.
Proof.
  revert w l. induction fuel as [|fuel IH]; intros w l Hw Ht H Hf; [lia|]. cbn [mNUM_loop].
  destruct w as [|c w].
  - pose proof H as (Hn & _). rewrite LA1_code, Hn. cbn [app]. rewrite Ht. by exists l.
  - apply Forall_cons in Hw as [Hc Hw]. cbn [app] in H. rewrite (ready_LA _ _ _ H).
    unfold digitb in Hc. rewrite Hc. cbn in Hf.
    apply (ready_consume _ _ _ (failed l)) in H.
    destruct (IH w (CONSUME l)) as (l' & -> & H' & Hch); [done|done| |lia|by exists l'].
    unfold ready in *. exact H.
Qed.

Lemma mTEXT_ready w tail l :
  Forall (λ c, textb c = true) w → ends_word tail = true → ready (w ++ tail) l →
  ∃ l', mTEXT l = Ok l' ∧ matched TEXT (channel l) tail l'.
Proof.
  intros Hw Ht H. unfold mTEXT. pose proof H as (Hn & _).
  destruct (mTEXT_loop_ready (S (length (nextChar (input l)))) w tail l)
    as (l' & -> & (H1 & H2 & H3) & Hc); [done..|rewrite Hn, length_app; lia|].
  eexists. split; [reflexivity|]. done.
Qed.

Lemma ends_word_num tail : ends_word tail = true → num_char (code tail) = false.
Proof.
  unfold ends_word. intros H%negb_true_iff. destruct (num_char _) eqn:E; [|done].
  apply num_text in E. congruence.
Qed.

Lemma mNUM_ready w tail l :
  Forall (λ c, digitb c = true) w → num_char (code tail) = false → ready (w ++ tail) l →
  ∃ l', mNUM l = Ok l' ∧ matched NUM (channel l) tail l'.
Proof.
  intros Hw Ht H. unfold mNUM. pose proof H as (Hn & _).
  destruct (mNUM_loop_ready (S (length (nextChar (input l)))) w tail l)
    as (l' & -> & (H1 & H2 & H3) & Hc); [done..|rewrite Hn, length_app; lia|].
  eexists. split; [reflexivity|]. done.
Qed.

(** A new line that is not followed by white space. *)
Definition ws_code (c : Z) : bool := (c =? 32) || (c =? 9) || (c =? 10) || (c =? 13).

Lemma mWS_ready tail l :
  ws_code (code tail) = false → ready (nl :: tail) l →
  ∃ l', mWS l = Ok l' ∧ matched WS 99 tail l'.
Proof.
  intros Ht H. unfold mWS. pose proof H as (Hn & _). rewrite Hn. cbn [length].
  cbn [mWS_loop]. rewrite (ready_LA _ _ _ H). change (char_code nl) with 10.
  cbn [Z.eqb Pos.eqb orb].
  destruct (MATCHC_ready nl _ _ H) as [H1 Hc]. change (char_code nl) with 10 in *.
  pose proof H1 as (Hn1 & Hok & He). unfold HASEXCEPTION at 1. rewrite He.
  rewrite LA1_code, Hn1. unfold ws_code in Ht. rewrite !orb_false_iff in Ht.
  destruct Ht as [[[-> ->] ->] ->]. cbn [orb]. change (1 <=? 0 + 1) with true.
  cbn [mbind outcome_bind]. eexists. split; [reflexivity|]. done.
Qed.

(** ** Tokens *)

(** [lexes w ty ch tail]: in front of [tail], [w] is one token. *)
Definition lexes (w : str) (ty ch : Z) (tail : str) : Prop :=
  ∀ l, ready (w ++ tail) l → w ≠ [] → ∃ l',
    nextToken l = Ok (Some (mkToken ty ch w), l') ∧ ready tail l'.

Lemma lexes_rule w alt ty ch tail :
  answers 0 (w ++ tail) (Some alt) →
  (∀ l, ready (w ++ tail) l → channel l = 0 → ∃ l', mTokens_alt alt l = Ok l' ∧ matched ty ch tail l') →
  lexes w ty ch tail.
Proof.
  intros Ha Hm l (Hn & Hok & He) Hne. unfold nextToken. cbn [nextTokenStr].
  unfold set_channel at 1 2. cbn [input]. rewrite LA1_code, Hn.
  destruct w as [|c w]; [done|]. pose proof (char_code_range c).
  cbn [app code]. destruct (Z.eqb_spec (char_code c) (-1)); [lia|].
  unfold mTokens. cbn [input set_failed set_error set_channel].
  rewrite Hn. unfold answers in Ha.
  destruct (predict_run (S (S (length ((c :: w) ++ tail)))) (input l) (Some alt) Hok)
    as (i & Hp & Hs); [by rewrite Hn|].
  rewrite Hp. cbn [mbind outcome_bind].
  unfold same_input in Hs. destruct_and! Hs.
  match goal with |- context [mTokens_alt alt ?x] => destruct (Hm x) as (l' & -> & Hl') end.
  { split_and!; cbn; [etrans; [eassumption|exact Hn]|unfold input_stream_ok in *; lia|done]. }
  { done. }
  destruct Hl' as (Hl1 & Hl2 & Hl3 & Hl4 & Hl5). cbn [mbind outcome_bind]. rewrite Hl3.
  eexists. split; [|done]. unfold emit. rewrite Hl1, Hl4, Hl5. do 4 f_equal.
  change (c :: w ++ tail) with ((c :: w) ++ tail). rewrite length_app.
  replace (length (c :: w) + length tail - length tail)%nat with (length (c :: w)) by lia.
  by rewrite take_app_length.
Qed.

Lemma lexes_keyword w alt ty tail :
  (w, alt, ty) ∈ keywords → ends_word tail = true → lexes w ty 0 tail.
Proof.
  intros Hk Ht. pose proof keyword_run as H1. pose proof keyword_rule as H2.
  rewrite Forall_forall in H1, H2. specialize (H1 _ Hk). specialize (H2 _ Hk). cbn in *.
  apply (lexes_rule _ alt); [by apply H1|]. intros l Hl Hc.
  destruct (H2 tail l Hl) as (l' & ? & ?). rewrite Hc in *. by exists l'.
Qed.

Lemma lexes_word w tail : word w → ends_word tail = true → lexes w TEXT 0 tail.
Proof.
  intros Hw Ht. apply (lexes_rule _ 11); [by apply word_run|]. intros l Hl Hc.
  destruct Hw as (Hw & _). destruct (mTEXT_ready w tail l Hw Ht Hl) as (l' & ? & ?).
  rewrite Hc in *. by exists l'.
Qed.

Lemma lexes_number w tail : number w → ends_word tail = true → lexes w NUM 0 tail.
Proof.
  intros Hw Ht. apply (lexes_rule _ 10); [by apply number_run|]. intros l Hl Hc.
  destruct Hw as (_ & Hw).
  destruct (mNUM_ready w tail l Hw (ends_word_num _ Ht) Hl) as (l' & ? & ?).
  rewrite Hc in *. by exists l'.
Qed.

Lemma lexes_nl tail : ws_code (code tail) = false → lexes [nl] WS 99 tail.
Proof.
  intros Ht. apply (lexes_rule _ 9).
  - cbn [app]. eapply answers_step; [reflexivity|reflexivity|]. by apply (answers_accept _ _ 9).
  - intros l Hl _. by apply mWS_ready.
Qed.
