(* ===== verification/LexerProps.v ===== *)
(** What the lexer does on every input: it never fails, it divides the text into
    tokens, it reads back what is printed, and it can be stopped by a character
    outside its alphabet. *)
From S2P Require Import Prelude CppString CyclicDFA InputStream LexerTables Lexer.
From S2P Require Import LexerSpec.

(** ** Lemmas: progress of the rules *)

(** [l'] has read [w] of what [l] had ahead. *)
Definition reads (w : str) (l l' : LEXER) : Prop :=
  nextChar (input l) = w ++ nextChar (input l') ∧
  (input_stream_ok (input l) → input_stream_ok (input l')).

Lemma reads_refl l : reads [] l l.
Proof. done. Qed.
Lemma reads_trans w1 w2 l1 l2 l3 : reads w1 l1 l2 → reads w2 l2 l3 → reads (w1 ++ w2) l1 l3.
Proof. unfold reads. intros [-> H1] [-> H2]. rewrite app_assoc. auto. Qed.
Lemma reads_input w l l1 l' : input l1 = input l → reads w l1 l' → reads w l l'.
Proof. unfold reads. intros H. by rewrite H. Qed.

(** Consuming reads the character ahead, if any. *)
Lemma reads_consume l :
  ∃ w, reads w l (CONSUME l) ∧ (nextChar (input l) ≠ [] → w ≠ []).
Proof.
  unfold CONSUME. destruct (nextChar (input l)) as [|c rest] eqn:E.
  - exists []. split; [|done]. split; cbn; [|apply input_ok_consume].
    unfold consume8. by rewrite !E.
  - exists [c]. split; [|done]. split; cbn; [|apply input_ok_consume].
    by rewrite nextChar_consume, E.
Qed.

(** What a rule does: it succeeds, reads some text, and has read at least a
    character when it raises no exception. *)
Definition rule_ok (l l' : LEXER) : Prop :=
  ∃ w, reads w l l' ∧ (error l' = false → w ≠ []).

Lemma LA_nonempty c l : 0 ≤ c → LA 1 (input l) = c → nextChar (input l) ≠ [].
Proof. rewrite LA1_code. intros Hc H E. rewrite E in H. cbn in H. lia. Qed.

Lemma MATCHC_ok c l : 0 ≤ c → rule_ok l (MATCHC c l).
Proof.
  intros Hc. unfold MATCHC. destruct (Z.eqb_spec (LA 1 (input l)) c) as [He|].
  - destruct (reads_consume l) as (w & Hr & Hw). exists w. split; [done|]. intros _.
    apply Hw. by eapply LA_nonempty.
  - destruct (reads_consume (exConstruct l)) as (w & Hr & _). exists w. split; [|done].
    by eapply reads_input; [|exact Hr].
Qed.

Lemma MATCHS_reads s l :
  error l = false → ∃ w, reads w l (MATCHS s l) ∧
    (error (MATCHS s l) = false → length w = length s ∨ Exists (λ c, c < 0) s).
Proof.
  revert l. induction s as [|c s IH]; intros l Hl; [exists []; split; [done|by left]|].
  cbn [MATCHS]. destruct (Z.eqb_spec (LA 1 (input l)) c) as [He|]; cbn [negb].
  - destruct (IH (set_failed false (CONSUME l)) Hl) as (w & Hr & Hw).
    destruct (reads_consume l) as (v & Hv & _). exists (v ++ w). split.
    { eapply reads_trans; [exact Hv|]. by eapply reads_input; [|exact Hr]. }
    intros H. destruct (Z.ltb_spec c 0); [right; by left|].
    destruct (Hw H) as [Hlen|]; [left|right; by right].
    destruct (nextChar (input l)) as [|x rest] eqn:En.
    { rewrite LA1_code, En in He. cbn in He. lia. }
    destruct Hv as [Hv _]. rewrite En in Hv. cbn [input CONSUME set_input] in Hv.
    rewrite nextChar_consume, En in Hv. cbn [drop] in Hv. rewrite drop_0 in Hv.
    apply (f_equal length) in Hv. rewrite length_app in *. cbn [length] in *. lia.
  - destruct (reads_consume (set_failed true (exConstruct l))) as (w & Hr & _).
    exists w. split; [by eapply reads_input; [|exact Hr]|done].
Qed.

Lemma MATCHS_ok c s l :
  Forall (λ c, 0 ≤ c) (c :: s) → error l = false → rule_ok l (MATCHS (c :: s) l).
Proof.
  intros Hs Hl. destruct (MATCHS_reads (c :: s) l Hl) as (w & Hr & Hw).
  exists w. split; [done|]. intros He ->. destruct (Hw He) as [|Hx]; [done|].
  apply Exists_exists in Hx as (x & Hx & ?). rewrite Forall_forall in Hs.
  specialize (Hs x Hx). lia.
Qed.

Lemma rule_end l l' ty : rule_ok l l' → rule_ok l (if HASEXCEPTION l' then l' else set_type ty l').
Proof. intros (w & Hr & Hw). exists w. by destruct (HASEXCEPTION l'). Qed.

(** The loop of white space. *)
Lemma mWS_loop_ok fuel cnt l :
  (length (nextChar (input l)) < fuel)%nat → error l = false →
  ∃ ex l' w, mWS_loop fuel cnt l = Ok (ex, l') ∧ reads w l l' ∧
    (ex = true ↔ error l' = true) ∧ (ex = false → w ≠ [] ∨ 1 ≤ cnt).
Proof.
  revert cnt l. induction fuel as [|fuel IH]; intros cnt l Hf Hl; [lia|]. cbn [mWS_loop].
  assert (∀ c cnt, 0 ≤ c → LA 1 (input l) = c → ∃ ex l' w,
    (if HASEXCEPTION (MATCHC c l) then Ok (true, MATCHC c l)
     else mWS_loop fuel (cnt + 1) (MATCHC c l)) = Ok (ex, l') ∧ reads w l l' ∧
    (ex = true ↔ error l' = true) ∧ (ex = false → w ≠ [] ∨ 1 ≤ cnt)) as Hone.
  { intros c cnt0 Hc0 Hc. destruct (MATCHC_ok c l Hc0) as (w & Hr & Hw).
    unfold HASEXCEPTION. destruct (error (MATCHC c l)) eqn:E.
    { exists true, (MATCHC c l), w. by rewrite E. }
    specialize (Hw eq_refl). destruct (IH (cnt0 + 1) (MATCHC c l)) as (ex & l' & v & -> & Hv & Hex & _).
    { destruct Hr as [Hr _]. rewrite Hr, length_app in Hf. destruct w; [done|]. cbn [length] in Hf. lia. }
    { done. }
    exists ex, l', (w ++ v). split_and!; [done|by eapply reads_trans|done|].
    intros _. left. by destruct w. }
  destruct (_ || _ || _) eqn:E1.
  { apply (Hone (LA 1 (input l)) cnt); [|done].
    rewrite !orb_true_iff, !Z.eqb_eq in E1. lia. }
  destruct (Z.eqb_spec (LA 1 (input l)) 13) as [E2|].
  { destruct (MATCHC_ok 13 l) as (w & Hr & Hw); [lia|].
    destruct (HASEXCEPTION (MATCHC 13 l)) eqn:Ee; unfold HASEXCEPTION in Ee.
    { exists true, (MATCHC 13 l), w. by rewrite Ee. }
    specialize (Hw Ee). destruct (MATCHC_ok 12 (MATCHC 13 l)) as (v & Hv & _); [lia|].
    assert (reads (w ++ v) l (MATCHC 12 (MATCHC 13 l))) as Hwv by (by eapply reads_trans).
    unfold HASEXCEPTION. destruct (error (MATCHC 12 (MATCHC 13 l))) eqn:Ef.
    { exists true, (MATCHC 12 (MATCHC 13 l)), (w ++ v). by rewrite Ef. }
    destruct (IH (cnt + 1) (MATCHC 12 (MATCHC 13 l))) as (ex & l' & u & -> & Hu & Hex & _).
    { destruct Hwv as [Hwv _]. rewrite Hwv, !length_app in Hf. destruct w; [done|].
      cbn [length] in Hf. lia. }
    { done. }
    exists ex, l', ((w ++ v) ++ u). split_and!; [done|by eapply reads_trans|done|].
    intros _. left. by destruct w. }
  destruct (Z.leb_spec 1 cnt).
  - exists false, l, []. rewrite Hl. split_and!; [done..|by right].
  - exists true, (exConstruct l), []. done.
Qed.

Lemma mTEXT_loop_ok fuel l :
  (length (nextChar (input l)) < fuel)%nat → error l = false →
  ∃ l' w, mTEXT_loop fuel l = Ok (false, l') ∧ reads w l l' ∧ error l' = false ∧
    (text_char (LA 1 (input l)) = true → w ≠ []).
Proof.
  revert l. induction fuel as [|fuel IH]; intros l Hf Hl; [lia|]. cbn [mTEXT_loop].
  rewrite text_case_char. destruct (text_char (LA 1 (input l))) eqn:E; [|by exists l, []].
  destruct (reads_consume l) as (w & Hr & Hw).
  assert (w ≠ []) as Hne.
  { apply Hw. intros En. rewrite LA1_code, En in E. by vm_compute in E. }
  destruct (IH (CONSUME l)) as (l' & v & -> & Hv & He & _); [|done|].
  { destruct Hr as [Hr _]. rewrite Hr, length_app in Hf. destruct w; [done|]. cbn [length] in Hf. lia. }
  exists l', (w ++ v). split_and!; [done|by eapply reads_trans|done|]. by destruct w.
Qed.

Lemma mNUM_loop_ok fuel l :
  (length (nextChar (input l)) < fuel)%nat → error l = false →
  ∃ l' w, mNUM_loop fuel l = Ok (false, l') ∧ reads w l l' ∧ error l' = false ∧
    (num_char (LA 1 (input l)) = true → w ≠ []).
Proof.
  revert l. induction fuel as [|fuel IH]; intros l Hf Hl; [lia|]. cbn [mNUM_loop].
  destruct (num_char (LA 1 (input l))) eqn:E; [|by exists l, []].
  destruct (reads_consume l) as (w & Hr & Hw).
  assert (w ≠ []) as Hne.
  { apply Hw. intros En. rewrite LA1_code, En in E. by vm_compute in E. }
  destruct (IH (CONSUME l)) as (l' & v & -> & Hv & He & _); [|done|].
  { destruct Hr as [Hr _]. rewrite Hr, length_app in Hf. destruct w; [done|]. cbn [length] in Hf. lia. }
  exists l', (w ++ v). split_and!; [done|by eapply reads_trans|done|]. by destruct w.
Qed.

(** ** Lemmas: every rule, and the choice of one *)

(** A rule on input it was not chosen for may read nothing when it is NUM, or
    TEXT at a character that starts no word. *)
Lemma mTokens_alt_ok a l :
  1 ≤ a ≤ 31 → error l = false →
  ∃ l' w, mTokens_alt a l = Ok l' ∧ reads w l l' ∧
    (error l' = false → w ≠ [] ∨ (a = 10 ∧ num_char (LA 1 (input l)) = false) ∨
       (a = 11 ∧ text_char (LA 1 (input l)) = false)).
Proof.
  intros Ha Hl.
  assert (∀ l' ty, rule_ok l l' → ∃ l'' w,
    Ok (if HASEXCEPTION l' then l' else set_type ty l') = Ok l'' ∧ reads w l l'' ∧
    (error l'' = false → w ≠ [] ∨ (a = 10 ∧ num_char (LA 1 (input l)) = false) ∨
       (a = 11 ∧ text_char (LA 1 (input l)) = false))) as Hrule.
  { intros l' ty (w & Hr & Hw)%(rule_end _ _ ty). do 2 eexists. split; [reflexivity|].
    split; [exact Hr|]. intros He. left. by apply Hw. }
  destruct (decide (a = 9)) as [->|].
  { cbn [mTokens_alt]. unfold mWS.
    destruct (mWS_loop_ok (S (length (nextChar (input l)))) 0 l)
      as (ex & l' & w & -> & Hr & Hex & Hw); [lia|done|]. cbn [mbind outcome_bind].
    destruct ex; do 2 eexists; (split; [reflexivity|]); (split; [exact Hr|]).
    - intros He. rewrite (proj1 Hex eq_refl) in He. done.
    - intros _. left. destruct (Hw eq_refl); [done|lia]. }
  destruct (decide (a = 10)) as [->|].
  { cbn [mTokens_alt]. unfold mNUM.
    destruct (mNUM_loop_ok (S (length (nextChar (input l)))) l) as (l' & w & -> & Hr & He & Hw);
      [lia|done|]. cbn [mbind outcome_bind]. do 2 eexists. split; [reflexivity|].
    split; [exact Hr|]. intros _. destruct (num_char (LA 1 (input l))) eqn:E.
    - left. by apply Hw.
    - right. by left. }
  destruct (decide (a = 11)) as [->|].
  { cbn [mTokens_alt]. unfold mTEXT.
    destruct (mTEXT_loop_ok (S (length (nextChar (input l)))) l) as (l' & w & -> & Hr & He & Hw);
      [lia|done|]. cbn [mbind outcome_bind]. do 2 eexists. split; [reflexivity|].
    split; [exact Hr|]. intros _. destruct (text_char (LA 1 (input l))) eqn:E.
    - left. by apply Hw.
    - right. by right. }
  assert (∃ k, a = Z.of_nat k ∧ (1 ≤ k ≤ 31)%nat) as (k & -> & Hk).
  { exists (Z.to_nat a). lia. }
  do 32 (destruct k as [|k]; [first
    [ lia
    | apply Hrule; apply MATCHC_ok; lia
    | apply Hrule; apply MATCHS_ok; [repeat (apply Forall_cons; split; [lia|]); apply Forall_nil; done|done]
    ]|]). lia.
Qed.

(** A rule that raises no exception sets the type of its token. *)
Lemma mTokens_alt_type a l l' :
  1 ≤ a ≤ 31 → error l = false → mTokens_alt a l = Ok l' → error l' = false → 4 ≤ type l'.
Proof.
  intros Ha Hl.
  assert (∀ l0 ty, 4 ≤ ty → Ok (if HASEXCEPTION l0 then l0 else set_type ty l0) = Ok l' →
    error l' = false → 4 ≤ type l') as Hrule.
  { intros l0 ty Hty [= <-]. unfold HASEXCEPTION. destruct (error l0) eqn:E; [by rewrite E|done]. }
  destruct (decide (a = 9)) as [->|].
  { cbn [mTokens_alt]. unfold mWS.
    destruct (mWS_loop_ok (S (length (nextChar (input l)))) 0 l)
      as (ex & l0 & w & -> & _ & Hex & _); [lia|done|]. cbn [mbind outcome_bind].
    intros [= <-]. destruct ex; [by rewrite (proj1 Hex eq_refl)|done]. }
  destruct (decide (a = 10)) as [->|].
  { cbn [mTokens_alt]. unfold mNUM.
    destruct (mNUM_loop_ok (S (length (nextChar (input l)))) l) as (l0 & w & -> & _);
      [lia|done|]. by intros [= <-]. }
  destruct (decide (a = 11)) as [->|].
  { cbn [mTokens_alt]. unfold mTEXT.
    destruct (mTEXT_loop_ok (S (length (nextChar (input l)))) l) as (l0 & w & -> & _);
      [lia|done|]. by intros [= <-]. }
  assert (∃ k, a = Z.of_nat k ∧ (1 ≤ k ≤ 31)%nat) as (k & -> & Hk).
  { exists (Z.to_nat a). lia. }
  do 32 (destruct k as [|k]; [first [lia|apply Hrule; apply Z.leb_le; reflexivity]|]). lia.
Qed.

(** The characters that are white space, punctuation or start a word. *)
Definition known_char (c : Z) : bool :=
  text_char c || ws_code c || bool_decide (c ∈ [40; 41; 44; 46]).

(** At a character that starts no word the automaton answers at once, never
    with TEXT, and with NUM when the character is not in the alphabet. *)
Lemma no_word_run c rest :
  textb c = false →
  ∃ a, answers 0 (c :: rest) (Some a) ∧ a ≠ 11 ∧
       (known_char (char_code c) = false → a = 10).
Proof.
  intros Ht. unfold textb in Ht.
  pose proof (forall_range_spec (λ c, text_char c ||
    match step 0 c with
    | Ok (Some s) => match index (accept cdfa4) s with
                     | Ok a => (1 <=? a) && negb (a =? 11) && (known_char c || (a =? 10))
                     | _ => false end
    | _ => false end) 256 0 ltac:(vm_compute; reflexivity) (char_code c)
    ltac:(pose proof (char_code_range c); lia)) as H.
  cbn beta in H. rewrite Ht in H. cbn [orb] in H.
  destruct (step 0 (char_code c)) as [[s|]|?|?] eqn:Es; try done.
  destruct (index (accept cdfa4) s) as [a|?|?] eqn:Ea; try done.
  rewrite !andb_true_iff in H. destruct H as [[H1%Z.leb_le H2%negb_true_iff%Z.eqb_neq] H3].
  exists a. split_and!; [|done|].
  - by apply (answers_leave _ _ s a).
  - intros Hk. rewrite Hk in H3. cbn in H3. by apply Z.eqb_eq.
Qed.

(** Every state moves to a state on every character, and stops at the end. *)
Lemma run_tables :
  forall_range (λ s, accepting cdfa4 s ||
    bool_decide (index (accept cdfa4) s = Ok (-1)) &&
    forall_range (λ c, match step s c with
                       | Ok (Some x) => state_ok cdfa4 x && ((0 <=? c) || accepting cdfa4 x)
                       | Ok None => true
                       | _ => false
                       end) 257 (-1)) 121 0 = true.
Proof. vm_compute. reflexivity. Qed.

Definition accepts (s : Z) : Prop := ∃ a, index (accept cdfa4) s = Ok a ∧ 1 ≤ a.

Lemma accepting_accepts s : accepting cdfa4 s = true → accepts s.
Proof.
  unfold accepting, accepts. destruct (index _ s) as [a|?|?]; [|done..].
  intros H%Z.leb_le. by exists a.
Qed.

Lemma run_row s :
  state_ok cdfa4 s = true →
  accepts s ∨ (index (accept cdfa4) s = Ok (-1) ∧ ∀ c, -1 ≤ c < 256 →
    step s c = Ok None ∨
    ∃ x, step s c = Ok (Some x) ∧ state_ok cdfa4 x = true ∧ (c = -1 → accepts x)).
Proof.
  intros Hs. pose proof (state_ok_spec _ _ Hs) as Hrange.
  change (Z.of_nat (length (accept cdfa4))) with 121 in Hrange.
  pose proof (forall_range_spec _ _ _ run_tables s ltac:(lia)) as Ht. cbn beta in Ht.
  destruct (accepting cdfa4 s) eqn:Hacc; [left; by apply accepting_accepts|right].
  apply andb_true_iff in Ht as [Ha%bool_decide_eq_true Hc]. split; [done|]. intros c Hcr.
  pose proof (forall_range_spec _ _ _ Hc c ltac:(lia)) as Hx. cbn beta in Hx.
  destruct (step s c) as [[x|]|?|?]; [right|by left|done..]. exists x.
  apply andb_true_iff in Hx as [Hx Hx2]. split_and!; [done|done|]. intros ->.
  by apply accepting_accepts.
Qed.

Lemma run_total text : ∀ s, state_ok cdfa4 s = true → ∃ r, answers s text r.
Proof.
  induction text as [|c text IH]; intros s Hs;
    (destruct (run_row s Hs) as [(a & Ha & H1)|[Ha Hc]];
      [exists (Some a); by apply answers_accept|]).
  - destruct (Hc (-1)) as [Es|(x & Es & _ & (a & Hx & H1))]; [lia| |done|].
    + exists None. unfold answers. cbn [run length code]. rewrite Ha.
      cbn [mbind outcome_bind Z.leb Z.compare]. by rewrite Es.
    + exists (Some a). by apply (answers_leave s [] x a).
  - destruct (Hc (char_code c)) as [Es|(x & Es & Hx & _)].
    + pose proof (char_code_range c). lia.
    + exists None. unfold answers. cbn [run length code]. rewrite Ha.
      cbn [mbind outcome_bind Z.leb Z.compare]. by rewrite Es.
    + destruct (IH x Hx) as [r Hr]. exists r. by apply (answers_step _ _ _ x).
Qed.

(** Only the start and the two states of numbers lead to NUM. *)
Definition not_num (s : Z) : bool := negb (bool_decide (s ∈ [0; 10; 11])).

Lemma not_num_tables :
  forall_range (λ s, negb (not_num s) ||
    bool_decide (index (accept cdfa4) s ≠ Ok 10) &&
    forall_range (λ c, match step s c with Ok (Some x) => not_num x | _ => true end) 257 (-1))
    121 0 = true.
Proof. vm_compute. reflexivity. Qed.

Lemma run_not_num fuel : ∀ s text a,
  not_num s = true → run fuel s text = Ok (Some a) → a ≠ 10.
Proof.
  induction fuel as [|fuel IH]; intros s text a Hs Hr; [done|]. cbn [run] in Hr.
  destruct (index (accept cdfa4) s) as [acc|?|?] eqn:Ea; [|done..]. cbn [mbind outcome_bind] in Hr.
  pose proof (index_range _ _ _ Ea) as Hrange. change (Z.of_nat (length (accept cdfa4))) with 121 in Hrange.
  pose proof (forall_range_spec _ _ _ not_num_tables s ltac:(lia)) as Ht. cbn beta in Ht.
  rewrite Hs in Ht. apply andb_true_iff in Ht as [Hacc%bool_decide_eq_true Hc].
  destruct (1 <=? acc).
  - intros ->. injection Hr as ->. done.
  - pose proof (forall_range_spec _ _ _ Hc (code text) ltac:(pose proof (code_range text); lia)) as Hx.
    cbn beta in Hx. destruct (step s (code text)) as [[x|]|?|?]; [|done..].
    cbn [mbind outcome_bind] in Hr. by apply (IH x (drop 1 text)).
Qed.

(** NUM is chosen at a digit, or at a character outside the alphabet. *)
Lemma run_num fuel c rest :
  run fuel 0 (c :: rest) = Ok (Some 10) →
  num_char (char_code c) = true ∨ known_char (char_code c) = false.
Proof.
  destruct fuel as [|fuel]; [done|]. cbn [run]. change (index (accept cdfa4) 0) with (Ok (-1)).
  cbn [mbind outcome_bind Z.leb Z.compare code].
  pose proof (forall_range_spec (λ c, match step 0 c with Ok (Some x) => not_num x | _ => true end
    || num_char c || negb (known_char c)) 256 0 ltac:(vm_compute; reflexivity) (char_code c)
    ltac:(pose proof (char_code_range c); lia)) as H. cbn beta in H.
  destruct (num_char (char_code c)); [by left|]. destruct (known_char (char_code c)); [|by right].
  rewrite !orb_false_r in H. destruct (step 0 (char_code c)) as [[x|]|?|?]; [|done..].
  cbn [mbind outcome_bind]. intros Hr. by apply (run_not_num _ _ _ _ H) in Hr.
Qed.

Lemma accept_range a : a ∈ accept cdfa4 → 1 ≤ a → a ≤ 31.
Proof.
  intros H. assert (Forall (λ a, a ≤ 31) (accept cdfa4)) as Hf.
  { apply (bool_decide_unpack _). by vm_compute. }
  rewrite Forall_forall in Hf. by specialize (Hf a H).
Qed.

(** A character outside the alphabet is ahead. *)
Definition at_unknown (text : str) : Prop :=
  ∃ c rest, text = c :: rest ∧ known_char (char_code c) = false.

(** [mTokens] succeeds on every state, and raises an exception or reads a
    character or leaves an empty NUM at a character outside the alphabet. *)
Lemma mTokens_ok l :
  input_stream_ok (input l) → error l = false → nextChar (input l) ≠ [] →
  ∃ l' w, mTokens l = Ok l' ∧ reads w l l' ∧
    (error l' = false → 4 ≤ type l' ∧ (w ≠ [] ∨ at_unknown (nextChar (input l)))).
Proof.
  intros Hok Hl Hne. unfold mTokens.
  edestruct (predict_total (H:=input_stream_laws) cdfa4 dfa4_ok
    (S (S (length (nextChar (input l))))) (input l)) as (r & i & Hp & Hs & Hr);
    [exact Hok|cbn; lia|].
  cbn [same_place input_stream_laws] in Hs. destruct Hs as (Hd & Hn & _ & _ & _ & Hm & Hlen).
  rewrite Hp. cbn [mbind outcome_bind].
  assert (reads [] l (set_input i l)) as Hi.
  { split; cbn; [done|]. unfold input_stream_ok. intros. lia. }
  destruct r as [a|].
  2:{ exists (exConstruct (set_input i l)), []. done. }
  destruct Hr as [Ha H1]. pose proof (accept_range a Ha H1).
  destruct (mTokens_alt_ok a (set_input i l)) as (l' & w & Hl' & Hw & Hprog); [lia|done|].
  exists l', w. split_and!; [done|by apply (reads_trans [] _ _ _ _ Hi)|]. intros He.
  split; [by apply (mTokens_alt_type a (set_input i l)); auto|].
  destruct (nextChar (input l)) as [|c rest] eqn:En; [done|].
  destruct (run_total (c :: rest) 0 eq_refl) as [r Hrun].
  assert (r = Some a) as ->.
  { unfold answers in Hrun. rewrite <-En in Hrun.
    destruct (predict_run _ _ _ Hok Hrun) as (i' & Hp' & _). rewrite En in Hp'. congruence. }
  cbn [input set_input] in Hprog. rewrite LA1_code, Hn in Hprog. cbn [code] in Hprog.
  destruct (Hprog He) as [|[[-> Hnum]|[-> Hx]]]; [by left|right|exfalso].
  - exists c, rest. split; [done|].
    destruct (run_num _ _ _ Hrun) as [Hd'|]; [congruence|done].
  - destruct (no_word_run c rest Hx) as (b & Hb & Hne' & _).
    unfold answers in Hb, Hrun. congruence.
Qed.

Lemma nextTokenStr_ok fuel l :
  input_stream_ok (input l) → (length (nextChar (input l)) < fuel)%nat →
  ∃ tok l' skipped, nextTokenStr fuel l = Ok (tok, l') ∧ input_stream_ok (input l') ∧
    match tok with
    | None => nextChar (input l) = skipped ∧ nextChar (input l') = []
    | Some t => nextChar (input l) = skipped ++ tok_text t ++ nextChar (input l') ∧
                4 ≤ tok_type t ∧ (tok_text t ≠ [] ∨ at_unknown (nextChar (input l')))
    end.
Proof.
  revert l. induction fuel as [|fuel IH]; intros l Hok Hf; [lia|]. cbn [nextTokenStr].
  cbn [input set_channel]. destruct (Z.eqb_spec (LA 1 (input l)) (-1)) as [He|He].
  { exists None, (set_channel 0 l), (nextChar (input l)). split_and!; [done..|].
    rewrite LA1_code in He. cbn. destruct (nextChar (input l)) as [|c]; [done|].
    pose proof (char_code_range c). cbn in He. lia. }
  assert (nextChar (input l) ≠ []) as Hne.
  { intros E. rewrite LA1_code, E in He. done. }
  set (l0 := set_failed false (set_error false (set_channel TOKEN_DEFAULT_CHANNEL l))).
  destruct (mTokens_ok l0) as (l1 & w & Hm & [Hr Hrok] & Hprog); [done..|].
  rewrite Hm. cbn [mbind outcome_bind]. cbn [input l0 set_failed set_error set_channel] in Hr, Hrok, Hprog.
  destruct (error l1) eqn:Ee.
  - destruct (reads_consume (set_failed true l1)) as (v & [Hv Hvok] & Hvne).
    cbn [input set_failed] in *. fold (recover (set_failed true l1)) in Hv, Hvok.
    destruct (IH (recover (set_failed true l1))) as (tok & l' & sk & Hnt & Hok' & Ht).
    + by apply Hvok, Hrok.
    + rewrite Hr, Hv, !length_app in Hf.
      destruct w; cbn [length] in Hf; [|lia].
      destruct (nextChar (input l1)) eqn:En.
      { destruct Hne. rewrite Hr. done. }
      destruct v; [by destruct Hvne|]. cbn [length] in Hf. lia.
    + exists tok, l', (w ++ v ++ sk). split_and!; [done..|].
      destruct tok as [t|]; destruct Ht as [Ht1 Ht2]; (split; [|done]).
      * rewrite Hr, Hv, Ht1. by rewrite <-!app_assoc.
      * rewrite Hr, Hv, Ht1. done.
  - destruct (Hprog eq_refl) as [Hty Hw].
    exists (Some (emit (nextChar (input l)) l1)), l1, [].
    split; [done|]. split; [by apply Hrok|].
    unfold emit. cbn [tok_text tok_type app].
    assert (take (length (nextChar (input l)) - length (nextChar (input l1)))
      (nextChar (input l)) = w) as ->.
    { rewrite Hr at 1 2. rewrite length_app, Nat.add_sub. by rewrite take_app_length. }
    split_and!; [done|done|]. destruct w as [|x w]; [right|by left].
    rewrite Hr in Hw. by destruct Hw.
Qed.

Lemma nextToken_ok l :
  input_stream_ok (input l) →
  ∃ tok l' skipped, nextToken l = Ok (tok, l') ∧ input_stream_ok (input l') ∧
    match tok with
    | None => nextChar (input l) = skipped ∧ nextChar (input l') = []
    | Some t => nextChar (input l) = skipped ++ tok_text t ++ nextChar (input l') ∧
                4 ≤ tok_type t ∧ (tok_text t ≠ [] ∨ at_unknown (nextChar (input l')))
    end.
Proof. intros H. apply nextTokenStr_ok; [done|lia]. Qed.

(** ** Lemmas: the whole text *)

(** Every character is white space, punctuation or part of a word. *)
Definition alphabet (text : str) : Prop := Forall (λ c, known_char (char_code c) = true) text.
#[export] Instance alphabet_dec text : Decision (alphabet text).
Proof. unfold alphabet. apply _. Defined.

(** Each token has a character, so that the buffer is filled. *)
Lemma fillBuffer_ok fuel l :
  input_stream_ok (input l) → alphabet (nextChar (input l)) →
  (length (nextChar (input l)) < fuel)%nat →
  ∃ toks, fillBuffer fuel l = Ok toks ∧ (length toks ≤ length (nextChar (input l)))%nat ∧
    Forall (λ t, 4 ≤ tok_type t) toks.
Proof.
  revert l. induction fuel as [|fuel IH]; intros l Hok Hal Hf; [lia|]. cbn [fillBuffer].
  destruct (nextToken_ok l Hok) as (tok & l' & sk & -> & Hok' & Ht). cbn [mbind outcome_bind].
  destruct tok as [t|]; [|exists []; split_and!; [done|cbn; lia|done]].
  destruct Ht as (Hn & Hty & Hne). rewrite Hn, !length_app in Hf.
  unfold alphabet in Hal. rewrite Hn, !Forall_app in Hal. destruct Hal as (_ & _ & Hal).
  assert (tok_text t ≠ []) as Htxt.
  { destruct Hne as [|(c & rest & E & Hc)]; [done|]. rewrite E, Forall_cons in Hal. destruct Hal. congruence. }
  assert (0 < length (tok_text t))%nat by (destruct (tok_text t); [done|cbn; lia]).
  destruct (IH l' Hok' Hal) as (toks & -> & Hl & Htys); [lia|]. exists (t :: toks).
  rewrite Hn, !length_app. cbn [mbind outcome_bind length].
  split_and!; [done|lia|by constructor].
Qed.

(** ** Lemmas: printed tokens *)

(** A token of the language: a keyword, a word or a number, on the default
    channel. *)
Definition token_ok (t : COMMON_TOKEN) : Prop :=
  tok_channel t = 0 ∧
  (Exists (λ k, k.1.1 = tok_text t ∧ k.2 = tok_type t) keywords ∨
   (tok_type t = TEXT ∧ word (tok_text t)) ∨ (tok_type t = NUM ∧ number (tok_text t))).
#[export] Instance token_ok_dec t : Decision (token_ok t).
Proof. unfold token_ok. apply _. Defined.

Definition print (toks : list COMMON_TOKEN) : str :=
  concat (map (λ t, tok_text t ++ [nl]) toks).

Definition newline_token : COMMON_TOKEN := mkToken WS 99 [nl].
Definition interleave (toks : list COMMON_TOKEN) : list COMMON_TOKEN :=
  concat (map (λ t, [t; newline_token]) toks).

Lemma textb_not_ws c : textb c = true → ws_code (char_code c) = false.
Proof.
  intros H. pose proof (forall_range_spec (λ c, negb (text_char c) || negb (ws_code c)) 256 0
    ltac:(vm_compute; reflexivity) (char_code c)
    ltac:(pose proof (char_code_range c); lia)) as Hf.
  cbn beta in Hf. unfold textb in H. rewrite H in Hf. cbn in Hf. by apply negb_true_iff.
Qed.

(** A token has a first character, and it is not white space. *)
Lemma token_ok_first t :
  token_ok t → tok_text t ≠ [] ∧ ∀ rest, ws_code (code (tok_text t ++ rest)) = false.
Proof.
  intros (_ & [H|[(_ & H)|(_ & H)]]).
  - assert (Forall (λ k : str * Z * Z, k.1.1 ≠ [] ∧ ws_code (code k.1.1) = false) keywords) as Hk.
    { apply (bool_decide_unpack _). by vm_compute. }
    apply Exists_exists in H as (k & Hin & <- & _). rewrite Forall_forall in Hk.
    destruct (Hk k Hin) as [Hne Hws]. split; [done|]. intros rest.
    by destruct k.1.1.
  - destruct H as (Hw & Hd & _). destruct (tok_text t) as [|c w]; [done|]. split; [done|].
    intros rest. apply Forall_cons in Hw as [Hc _]. cbn. by apply textb_not_ws.
  - destruct H as [Hne Hw]. destruct (tok_text t) as [|c w]; [done|]. split; [done|].
    intros rest. apply Forall_cons in Hw as [Hc _]. cbn. apply textb_not_ws, num_text, Hc.
Qed.

Lemma token_ok_lexes t tail :
  token_ok t → ends_word tail = true →
  lexes (tok_text t) (tok_type t) (tok_channel t) tail.
Proof.
  intros (Hc & [H|[(-> & H)|(-> & H)]]) Ht; rewrite Hc.
  - apply Exists_exists in H as ([[w alt] ty] & Hin & Hw & Hty). cbn in Hw, Hty. subst.
    by eapply lexes_keyword.
  - by apply lexes_word.
  - by apply lexes_number.
Qed.

Lemma nextToken_eof l : ready [] l → ∃ l', nextToken l = Ok (None, l').
Proof.
  intros (Hn & _). unfold nextToken. rewrite Hn. cbn [length nextTokenStr input set_channel].
  rewrite LA1_code, Hn. by eexists.
Qed.

Lemma fillBuffer_print fuel toks l :
  Forall token_ok toks → (2 * length toks < fuel)%nat → ready (print toks) l →
  fillBuffer fuel l = Ok (interleave toks).
Proof.
  revert fuel l. induction toks as [|t toks IH]; intros fuel l Hok Hf Hl.
  - destruct fuel as [|fuel]; [lia|]. cbn [fillBuffer].
    destruct (nextToken_eof l Hl) as (l' & ->). done.
  - apply Forall_cons in Hok as [Ht Hok]. destruct (token_ok_first t Ht) as [Hne _].
    change (print (t :: toks)) with ((tok_text t ++ [nl]) ++ print toks) in Hl.
    rewrite <-app_assoc in Hl.
    assert (ws_code (code (print toks)) = false) as Hws.
    { destruct toks as [|t' toks]; [done|]. apply Forall_cons in Hok as [Ht' _].
      destruct (token_ok_first t' Ht') as [_ H].
      change (print (t' :: toks)) with ((tok_text t' ++ [nl]) ++ print toks).
      rewrite <-app_assoc. apply H. }
    cbn [length] in Hf. do 2 (destruct fuel as [|fuel]; [lia|]). cbn [fillBuffer].
    destruct (token_ok_lexes t ([nl] ++ print toks) Ht eq_refl l Hl Hne) as (l1 & -> & Hl1).
    cbn [mbind outcome_bind].
    destruct (lexes_nl (print toks) Hws l1 Hl1) as (l2 & -> & Hl2); [done|].
    cbn [mbind outcome_bind]. rewrite (IH fuel l2 Hok) by (done || lia).
    cbn [mbind outcome_bind]. by destruct t.
Qed.

Lemma ready_new s : ready s (RepositoryManagerLexerNew (StringStreamNew s)).
Proof. done. Qed.

Lemma interleave_channel toks :
  Forall token_ok toks → base.filter (λ t, tok_channel t = 0) (interleave toks) = toks.
Proof.
  induction toks as [|t toks IH]; [done|]. intros [[Hc _] Hok]%Forall_cons.
  unfold interleave. cbn [map concat app].
  rewrite filter_cons_True by done. rewrite filter_cons_False by done.
  f_equal. by apply IH.
Qed.

Lemma nextToken_unknown c rest l :
  known_char (char_code c) = false → ready (c :: rest) l →
  ∃ l', nextToken l = Ok (Some (mkToken NUM 0 []), l') ∧ ready (c :: rest) l'.
Proof.
  intros Hk (Hn & Hok & He).
  assert (textb c = false) as Ht.
  { unfold known_char in Hk. rewrite !orb_false_iff in Hk. by destruct Hk as [[? _] _]. }
  destruct (no_word_run c rest Ht) as (a & Ha & _ & H10). specialize (H10 Hk) as ->.
  unfold nextToken. cbn [nextTokenStr]. cbn [input set_channel]. rewrite LA1_code, Hn.
  pose proof (char_code_range c). cbn [code].
  destruct (Z.eqb_spec (char_code c) (-1)); [lia|].
  unfold mTokens. cbn [input set_failed set_error set_channel]. rewrite Hn.
  destruct (predict_run (S (S (length (c :: rest)))) (input l) (Some 10) Hok)
    as (i & -> & Hs); [by rewrite Hn|]. cbn [mbind outcome_bind mTokens_alt].
  unfold same_input in Hs. destruct Hs as (_ & Hs1 & _ & _ & _ & Hs2 & Hs3).
  assert (num_char (code (c :: rest)) = false) as Hnum.
  { cbn. destruct (num_char _) eqn:E; [|done]. apply num_text in E. unfold textb in Ht. congruence. }
  destruct (mNUM_ready [] (c :: rest) (set_input i (set_failed false (set_error false
    (set_channel TOKEN_DEFAULT_CHANNEL l))))) as (l' & -> & H1 & H2 & H3 & H4 & H5).
  { apply Forall_nil. done. }
  { done. }
  { split_and!; cbn; [etrans; [exact Hs1|exact Hn]|unfold input_stream_ok in *; lia|done]. }
  cbn [mbind outcome_bind]. rewrite H3. eexists. split; [|done]. unfold emit.
  rewrite H1, H4, H5, Nat.sub_diag. done.
Qed.

(** ** Properties *)

(** C12: the lexer divides any text. From every state of the character stream a
    call of [nextToken] returns, with no access outside a table, having skipped
    some text; it returns the end of the input only at the end, and otherwise
    a token of the grammar whose text is exactly what was read since the skipped
    text. The text is empty only in front of a character outside the alphabet. *)
Theorem nextToken_total l :
  input_stream_ok (input l) →
  ∃ tok l' skipped, nextToken l = Ok (tok, l') ∧ input_stream_ok (input l') ∧
    match tok with
    | None => nextChar (input l) = skipped ∧ nextChar (input l') = []
    | Some t => nextChar (input l) = skipped ++ tok_text t ++ nextChar (input l') ∧
                4 ≤ tok_type t ∧ (tok_text t ≠ [] ∨ at_unknown (nextChar (input l')))
    end.
Proof. apply nextToken_ok. Qed.

Lemma nextToken_total_witness :
  ∃ tok l' skipped,
    nextToken (RepositoryManagerLexerNew (StringStreamNew (lit "-----B says"))) = Ok (tok, l') ∧
    input_stream_ok (input l') ∧
    match tok with
    | None => lit "-----B says" = skipped ∧ nextChar (input l') = []
    | Some t => lit "-----B says" = skipped ++ tok_text t ++ nextChar (input l') ∧
                4 ≤ tok_type t ∧ (tok_text t ≠ [] ∨ at_unknown (nextChar (input l')))
    end.
Proof.
  apply (nextToken_total (RepositoryManagerLexerNew (StringStreamNew (lit "-----B says")))). done.
Defined.

(** C14: lexing inverts printing. Any sequence of keywords, words and numbers,
    each printed on a line of its own, is read back as exactly these tokens,
    with their types and texts, on the channel of the parser. *)
Theorem tokenize_print toks fuel :
  Forall token_ok toks → (2 * length toks < fuel)%nat →
  ∃ all, tokenize fuel (print toks) = Ok all ∧
         base.filter (λ t, tok_channel t = 0) all = toks.
Proof.
  intros Hok Hf. exists (interleave toks). split; [|by apply interleave_channel].
  unfold tokenize. by apply fillBuffer_print.
Qed.

Lemma tokenize_print_witness :
  ∃ all, tokenize 20 (lit "says
(
N0te9
,
datimes
)
2012
-----BEGIN PUBLIC KEY-----
") = Ok all ∧ base.filter (λ t, tok_channel t = 0) all =
    [mkToken T__46 0 (lit "says"); mkToken T__39 0 (lit "("); mkToken TEXT 0 (lit "N0te9");
     mkToken T__41 0 (lit ","); mkToken TEXT 0 (lit "datimes"); mkToken T__40 0 (lit ")");
     mkToken NUM 0 (lit "2012");
     mkToken PUBLIC_KEY_HEADER 0 (lit "-----BEGIN PUBLIC KEY-----")].
Proof.
  apply (tokenize_print
    [mkToken T__46 0 (lit "says"); mkToken T__39 0 (lit "("); mkToken TEXT 0 (lit "N0te9");
     mkToken T__41 0 (lit ","); mkToken TEXT 0 (lit "datimes"); mkToken T__40 0 (lit ")");
     mkToken NUM 0 (lit "2012");
     mkToken PUBLIC_KEY_HEADER 0 (lit "-----BEGIN PUBLIC KEY-----")]).
  - apply (bool_decide_unpack _). by vm_compute.
  - apply Nat.ltb_lt. reflexivity.
Defined.

(** One character outside the alphabet hangs the server. At such a character
    the lexer returns an empty NUM and stays where it is, so that filling the
    token buffer never ends, whatever the fuel. *)
Theorem fillBuffer_unknown c rest fuel :
  known_char (char_code c) = false →
  tokenize fuel (c :: rest) = Undef NoFuel.
Proof.
  intros Hk. unfold tokenize. pose proof (ready_new (c :: rest)) as Hl.
  revert Hl. generalize (RepositoryManagerLexerNew (StringStreamNew (c :: rest))).
  induction fuel as [|fuel IH]; intros l Hl; [done|]. cbn [fillBuffer].
  destruct (nextToken_unknown c rest l Hk Hl) as (l' & -> & Hl').
  cbn [mbind outcome_bind]. by rewrite (IH l' Hl').
Qed.

Lemma fillBuffer_unknown_witness :
  tokenize 100000 (lit "!") = Undef NoFuel.
Proof. apply fillBuffer_unknown. vm_compute. reflexivity. Defined.
