(* ===== verification/LexerTypes.v ===== *)
(** The types of tokens: whatever the text, the text and the channel of a token that
    the lexer emits are what its type says. *)
From S2P Require Import Prelude CppString CyclicDFA InputStream LexerTables Lexer.
From S2P Require Import LexerSpec LexerProps.

(** White space: a carriage return only in front of a form feed. *)
Fixpoint ws_text (w : str) : bool :=
  match w with
  | [] => true
  | c :: w =>
      if bool_decide (char_code c ∈ [32; 9; 10]) then ws_text w
      else match w with
           | d :: w => (char_code c =? 13) && (char_code d =? 12) && ws_text w
           | [] => false
           end
  end.

(** The tokens of the lexer, by their types. *)
Inductive token_typed : COMMON_TOKEN → Prop :=
| typed_keyword w alt ty : (w, alt, ty) ∈ keywords → token_typed (mkToken ty TOKEN_DEFAULT_CHANNEL w)
| typed_text w : w ≠ [] → Forall (λ c, textb c = true) w → token_typed (mkToken TEXT TOKEN_DEFAULT_CHANNEL w)
| typed_num w : Forall (λ c, digitb c = true) w → token_typed (mkToken NUM TOKEN_DEFAULT_CHANNEL w)
| typed_ws w : w ≠ [] → ws_text w = true → token_typed (mkToken WS 99 w).

(** ** What the rules read *)

(** [l'] is [l] after the text [w]; the channel is the same. *)
Definition read_exactly (w : str) (l l' : LEXER) : Prop :=
  nextChar (input l) = w ++ nextChar (input l') ∧ channel l' = channel l.

Lemma read_exactly_trans u v l1 l2 l3 :
  read_exactly u l1 l2 → read_exactly v l2 l3 → read_exactly (u ++ v) l1 l3.
Proof. unfold read_exactly. intros [-> ?] [-> ?]. rewrite app_assoc. split; congruence. Qed.

(** The character ahead, when it has the code of a character. *)
Lemma consume_exactly c l b :
  LA 1 (input l) = char_code c → read_exactly [c] l (set_failed b (CONSUME l)).
Proof.
  rewrite LA1_code. destruct (nextChar (input l)) as [|x rest] eqn:E; cbn [code]; intros H.
  - pose proof (char_code_range c). lia.
  - apply char_code_inj in H as ->. split; [|done]. cbn. by rewrite nextChar_consume, E.
Qed.
Lemma LA_char l : 0 ≤ LA 1 (input l) → ∃ c, LA 1 (input l) = char_code c.
Proof. rewrite LA1_code. destruct (nextChar (input l)) as [|c]; cbn [code]; [lia|]. by exists c. Qed.

Lemma MATCHC_exactly c l :
  error (MATCHC (char_code c) l) = false → read_exactly [c] l (MATCHC (char_code c) l).
Proof.
  unfold MATCHC. destruct (Z.eqb_spec (LA 1 (input l)) (char_code c)) as [E|]; [|done].
  intros _. by apply consume_exactly.
Qed.
Lemma MATCHS_exactly w l :
  error (MATCHS (map char_code w) l) = false → read_exactly w l (MATCHS (map char_code w) l).
Proof.
  revert l. induction w as [|c w IH]; intros l H; [done|]. cbn [map MATCHS] in *.
  destruct (Z.eqb_spec (LA 1 (input l)) (char_code c)) as [E|]; cbn [negb] in *; [|done].
  apply (read_exactly_trans [c] w l (set_failed false (CONSUME l))); [by apply consume_exactly|by apply IH].
Qed.

(** A rule for a keyword, when it raises no exception. *)
Definition rule_reads (w : str) (ty : Z) (l l' : LEXER) : Prop :=
  error l' = false → read_exactly w l l' ∧ type l' = ty.
Lemma rule_reads_end w ty l l0 :
  (error l0 = false → read_exactly w l l0) → rule_reads w ty l (if HASEXCEPTION l0 then l0 else set_type ty l0).
Proof.
  unfold rule_reads, HASEXCEPTION. destruct (error l0) eqn:E; [by rewrite E|]. intros H _. by split; [apply H|].
Qed.
Lemma keyword_reads :
  Forall (λ '(w, alt, ty), ∀ l, ∃ l', mTokens_alt alt l = Ok l' ∧ rule_reads w ty l l') keywords.
Proof.
  repeat (apply Forall_cons; split; [intros l|]); [..|apply Forall_nil; done];
    (eexists; split; [reflexivity|]); apply rule_reads_end;
    match goal with |- _ → read_exactly ?w _ _ =>
      first [exact (MATCHS_exactly w l) | exact (MATCHC_exactly (default " "%char (head w)) l)] end.
Qed.
Lemma keyword_alt a : 1 ≤ a ≤ 31 → a ≠ 9 → a ≠ 10 → a ≠ 11 → ∃ w ty, (w, a, ty) ∈ keywords.
Proof.
  intros Ha H9 H10 H11.
  pose proof (forall_range_spec (λ a, existsb (λ k, k.1.2 =? a) keywords || (a =? 9) || (a =? 10) || (a =? 11))
    31 1 eq_refl a ltac:(lia)) as H. cbn beta in H. rewrite !orb_true_iff, !Z.eqb_eq in H.
  destruct H as [[[H|]|]|]; [|done..].
  apply existsb_exists in H as ([[w b] ty] & Hin & Hb%Z.eqb_eq). cbn in Hb. subst b.
  exists w, ty. by apply list_elem_of_In.
Qed.

(** ** The open-ended rules *)

Lemma chars_loop_exactly (p : Z → bool) l :
  p (-1) = false → p (LA 1 (input l)) = true → ∃ c, p (char_code c) = true ∧ read_exactly [c] l (CONSUME l).
Proof.
  intros H0 H. destruct (LA_char l) as [c Ec].
  { rewrite LA1_code in *. destruct (nextChar (input l)) as [|x]; cbn [code] in *; [congruence|].
    pose proof (char_code_range x). lia. }
  exists c. split; [by rewrite <-Ec|]. apply (consume_exactly c l (failed l) Ec).
Qed.
Lemma mTEXT_loop_exactly fuel l l' :
  mTEXT_loop fuel l = Ok (false, l') → ∃ w, read_exactly w l l' ∧ Forall (λ c, textb c = true) w ∧
    (text_char (LA 1 (input l)) = true → w ≠ []).
Proof.
  revert l. induction fuel as [|fuel IH]; intros l; [done|]. cbn [mTEXT_loop].
  rewrite text_case_char. destruct (text_char (LA 1 (input l))) eqn:E.
  - destruct (chars_loop_exactly text_char l eq_refl E) as (c & Hc & Hr).
    intros (w & Hw & Hf & _)%IH. exists (c :: w).
    split_and!; [by apply (read_exactly_trans [c] w l (CONSUME l))|by constructor|done].
  - intros [= <-]. by exists [].
Qed.
Lemma mNUM_loop_exactly fuel l l' :
  mNUM_loop fuel l = Ok (false, l') → ∃ w, read_exactly w l l' ∧ Forall (λ c, digitb c = true) w.
Proof.
  revert l. induction fuel as [|fuel IH]; intros l; [done|]. cbn [mNUM_loop].
  destruct (num_char (LA 1 (input l))) eqn:E.
  - destruct (chars_loop_exactly num_char l eq_refl E) as (c & Hc & Hr).
    intros (w & Hw & Hf)%IH. exists (c :: w).
    split; [by apply (read_exactly_trans [c] w l (CONSUME l))|by constructor].
  - intros [= <-]. by exists [].
Qed.
Lemma ws_text_one c w : char_code c ∈ [32; 9; 10] → ws_text w = true → ws_text (c :: w) = true.
Proof. intros Hc Hw. cbn [ws_text]. by rewrite bool_decide_eq_true_2. Qed.
Lemma mWS_loop_exactly fuel cnt l l' :
  mWS_loop fuel cnt l = Ok (false, l') → ∃ w, read_exactly w l l' ∧ ws_text w = true ∧ (w ≠ [] ∨ 1 ≤ cnt).
Proof.
  revert cnt l. induction fuel as [|fuel IH]; intros cnt l; [done|]. cbn [mWS_loop].
  destruct (_ || _ || _) eqn:E.
  - destruct (LA_char l) as [c Ec]; [rewrite !orb_true_iff, !Z.eqb_eq in E; lia|]. rewrite Ec in E |- *.
    unfold HASEXCEPTION. destruct (error (MATCHC (char_code c) l)) eqn:Ee; [done|].
    intros (w & Hw & Hf & _)%IH. exists (c :: w).
    split_and!; [by apply (read_exactly_trans [c] w _ _ _ (MATCHC_exactly c l Ee))| |by left].
    apply ws_text_one; [|done]. rewrite !orb_true_iff, !Z.eqb_eq in E. set_solver.
  - destruct (Z.eqb_spec (LA 1 (input l)) 13) as [E13|].
    + change 13 with (char_code "013"). change 12 with (char_code "012"). unfold HASEXCEPTION.
      destruct (error (MATCHC (char_code "013") l)) eqn:E1; [done|].
      destruct (error (MATCHC (char_code "012") (MATCHC (char_code "013") l))) eqn:E2; [done|].
      intros (w & Hw & Hf & _)%IH. exists ("013"%char :: "012"%char :: w). split_and!; [|by cbn|by left].
      apply (read_exactly_trans ["013"%char] ("012"%char :: w) _ _ _ (MATCHC_exactly _ _ E1)).
      apply (read_exactly_trans ["012"%char] w _ _ _ (MATCHC_exactly _ _ E2) Hw).
    + destruct (Z.leb_spec 1 cnt); [|done]. intros [= <-]. exists []. split_and!; [done..|by right].
Qed.

(** ** Tokens *)

(** What a rule leaves behind, for the alternative [a]: the token read is typed. *)
Definition alt_typed (l l' : LEXER) : Prop :=
  ∃ w, nextChar (input l) = w ++ nextChar (input l') ∧ token_typed (mkToken (type l') (channel l') w).

Lemma mTokens_alt_typed a l l' :
  1 ≤ a ≤ 31 → error l = false → channel l = TOKEN_DEFAULT_CHANNEL →
  (a = 11 → text_char (LA 1 (input l)) = true) →
  mTokens_alt a l = Ok l' → error l' = false → alt_typed l l'.
Proof.
  intros Ha Hl Hch Htext Hr He.
  destruct (decide (a = 9)) as [->|H9].
  { cbn [mTokens_alt] in Hr. unfold mWS in Hr.
    destruct (mWS_loop_ok (S (length (nextChar (input l)))) 0 l) as (ex & l0 & w0 & E & _ & Hex & _);
      [lia|done|]. rewrite E in Hr. cbn [mbind outcome_bind] in Hr. injection Hr as <-.
    destruct ex; [by rewrite (proj1 Hex eq_refl) in He|].
    destruct (mWS_loop_exactly _ _ _ _ E) as (w & [Hw _] & Hws & [Hne|]); [|lia].
    exists w. split; [exact Hw|]. by apply typed_ws. }
  destruct (decide (a = 10)) as [->|H10].
  { cbn [mTokens_alt] in Hr. unfold mNUM in Hr.
    destruct (mNUM_loop_ok (S (length (nextChar (input l)))) l) as (l0 & w0 & E & _); [lia|done|].
    rewrite E in Hr. cbn [mbind outcome_bind] in Hr. injection Hr as <-.
    destruct (mNUM_loop_exactly _ _ _ E) as (w & [Hw Hc] & Hd). exists w. split; [exact Hw|].
    cbn. rewrite Hc, Hch. by apply typed_num. }
  destruct (decide (a = 11)) as [->|H11].
  { cbn [mTokens_alt] in Hr. unfold mTEXT in Hr.
    destruct (mTEXT_loop_ok (S (length (nextChar (input l)))) l) as (l0 & w0 & E & _); [lia|done|].
    rewrite E in Hr. cbn [mbind outcome_bind] in Hr. injection Hr as <-.
    destruct (mTEXT_loop_exactly _ _ _ E) as (w & [Hw Hc] & Hd & Hne). exists w. split; [exact Hw|].
    cbn. rewrite Hc, Hch. apply typed_text; [by apply Hne, Htext|done]. }
  destruct (keyword_alt a Ha H9 H10 H11) as (w & ty & Hin). pose proof keyword_reads as Hk.
  rewrite Forall_forall in Hk. destruct (Hk _ Hin l) as (l0 & E & Hrule).
  rewrite E in Hr. injection Hr as ->. destruct (Hrule He) as [[Hw Hc] Hty].
  exists w. split; [exact Hw|]. rewrite Hty, Hc, Hch. by eapply typed_keyword.
Qed.

(** The automaton chooses TEXT only in front of a character of a word. *)
Lemma predict_text l a i :
  input_stream_ok (input l) → nextChar (input l) ≠ [] →
  predict cdfa4 (S (S (length (nextChar (input l))))) (input l) = Ok (Some a, i) →
  1 ≤ a ≤ 31 ∧ same_input (input l) i ∧ (a = 11 → text_char (code (nextChar (input l))) = true).
Proof.
  intros Hok Hne Hp. destruct (nextChar (input l)) as [|c rest] eqn:En; [done|].
  destruct (run_total (c :: rest) 0 eq_refl) as [r Hrun]. unfold answers in Hrun.
  rewrite <-En in Hrun, Hp. destruct (predict_run _ _ _ Hok Hrun) as (i' & Hp' & Hs).
  rewrite Hp in Hp'. injection Hp' as <- <-. split; [|split; [done|]].
  - edestruct (predict_total (H:=input_stream_laws) cdfa4 dfa4_ok
      (S (S (length (nextChar (input l))))) (input l)) as (r & i2 & Hp2 & _ & Hr);
      [exact Hok|cbn; lia|]. rewrite Hp in Hp2. injection Hp2 as <- <-.
    destruct Hr as [Ha H1]. pose proof (accept_range a Ha H1). lia.
  - intros ->. cbn [code]. destruct (text_char (char_code c)) eqn:Et; [done|].
    destruct (no_word_run c rest Et) as (b & Hb & Hne' & _). unfold answers in Hb.
    rewrite En in Hrun. congruence.
Qed.
Lemma mTokens_typed l l' :
  input_stream_ok (input l) → error l = false → channel l = TOKEN_DEFAULT_CHANNEL →
  nextChar (input l) ≠ [] → mTokens l = Ok l' → error l' = false → alt_typed l l'.
Proof.
  intros Hok Hl Hch Hne Hm He. unfold mTokens in Hm.
  destruct (predict _ _ _) as [[[a|] i]|?|?] eqn:Hp; cbn [mbind outcome_bind] in Hm; [| |done..].
  2:{ by injection Hm as <-. }
  destruct (predict_text l a i Hok Hne Hp) as (Ha & (_ & Hn & _) & Ht).
  assert (alt_typed (set_input i l) l') as (w & Hw & Hty).
  { apply (mTokens_alt_typed a); [done|done|done| |done|done]. intros ->. cbn [input set_input].
    rewrite LA1_code, Hn. by apply Ht. }
  exists w. split; [|exact Hty]. by rewrite <-Hn.
Qed.

Lemma emit_text w l0 l1 :
  nextChar (input l0) = w ++ nextChar (input l1) →
  emit (nextChar (input l0)) l1 = mkToken (type l1) (channel l1) w.
Proof.
  intros H. unfold emit. f_equal. rewrite H, length_app, Nat.add_sub. by rewrite take_app_length.
Qed.
Lemma nextTokenStr_typed fuel l t l' :
  input_stream_ok (input l) → nextTokenStr fuel l = Ok (Some t, l') → token_typed t.
Proof.
  revert l. induction fuel as [|fuel IH]; intros l Hok H; [done|]. cbn [nextTokenStr] in H.
  cbn [input set_channel] in H. destruct (Z.eqb_spec (LA 1 (input l)) (-1)) as [He|He]; [done|].
  assert (nextChar (input l) ≠ []) as Hne by (intros E; rewrite LA1_code, E in He; done).
  set (l0 := set_failed false (set_error false (set_channel TOKEN_DEFAULT_CHANNEL l))) in *.
  destruct (mTokens_ok l0) as (l1 & w & Hm & [_ Hrok] & _); [done..|].
  rewrite Hm in H. cbn [mbind outcome_bind] in H. destruct (error l1) eqn:Ee.
  - apply IH in H; [done|]. destruct (reads_consume (set_failed true l1)) as (v & [_ Hv] & _).
    by apply Hv, Hrok.
  - injection H as <- _. destruct (mTokens_typed l0 l1) as (v & Hv & Hty); [done..|].
    change (input l) with (input l0). by rewrite (emit_text v).
Qed.

(** ** Properties *)

(** C13: the types of the tokens. From every state of the character stream [nextToken]
    returns, and a token it emits has a text of the language of its type, on the channel
    of that type: exactly its own text for a keyword or a punctuation mark, characters of
    words, at least one, for TEXT, digits for NUM, white space, at least one character, on
    the channel that the parser does not see for WS. *)
Theorem nextToken_typed l :
  input_stream_ok (input l) →
  ∃ tok l', nextToken l = Ok (tok, l') ∧ input_stream_ok (input l') ∧
    match tok with Some t => token_typed t | None => nextChar (input l') = [] end.
Proof.
  intros Hok. destruct (nextToken_ok l Hok) as (tok & l' & sk & E & Hok' & Ht).
  exists tok, l'. split_and!; [done..|]. destruct tok as [t|]; [|by destruct Ht].
  by apply (nextTokenStr_typed _ _ _ _ Hok E).
Qed.

(** So the tokens of a text in the alphabet are typed. *)
Lemma fillBuffer_typed fuel l toks :
  input_stream_ok (input l) → fillBuffer fuel l = Ok toks → Forall token_typed toks.
Proof.
  revert l toks. induction fuel as [|fuel IH]; intros l toks Hok H; [done|]. cbn [fillBuffer] in H.
  destruct (nextToken_ok l Hok) as (tok & l' & sk & E & Hok' & _). rewrite E in H.
  cbn [mbind outcome_bind] in H. destruct tok as [t|]; [|by injection H as <-].
  destruct (fillBuffer fuel l') as [ts|?|?] eqn:Ef; [|done..]. injection H as <-.
  constructor; [by apply (nextTokenStr_typed _ _ _ _ Hok E)|by apply (IH l')].
Qed.
Theorem tokenize_typed s :
  alphabet s → ∃ toks, tokenize (S (length s)) s = Ok toks ∧ Forall token_typed toks.
Proof.
  intros Hs. destruct (fillBuffer_ok (S (length s)) (RepositoryManagerLexerNew (StringStreamNew s)))
    as (toks & E & _); [done|done|cbn; lia|].
  exists toks. split; [done|]. exact (fillBuffer_typed _ _ _ (proj1 (proj2 (ready_new s))) E).
Qed.

Lemma nextToken_typed_witness :
  ∃ tok l', nextToken (RepositoryManagerLexerNew (StringStreamNew (lit "-----B says"))) = Ok (tok, l') ∧
    input_stream_ok (input l') ∧
    match tok with Some t => token_typed t | None => nextChar (input l') = [] end.
Proof. apply (nextToken_typed (RepositoryManagerLexerNew (StringStreamNew (lit "-----B says")))). done. Defined.
