(* ===== verification/TokenStream.v ===== *)
(** The buffered token stream of the parser:
    src/antlr/libantlr3c-3.4/src/antlr3tokenstream.c, after [fillBuffer]. *)
From S2P Require Import Prelude CppString CyclicDFA Lexer.

Definition EOF : Z := -1.

(** The tokens of every channel and the index of the token ahead. *)
Record TOKEN_STREAM : Type := mkTokenStream {
  tokens : list COMMON_TOKEN;
  p : nat
}.

(** The parser listens to the default channel. *)
Definition on_channel (t : COMMON_TOKEN) : bool := tok_channel t =? TOKEN_DEFAULT_CHANNEL.

(** [skipOffTokenChannels]: the index of the first token of the channel from
    [i] on. *)
Fixpoint off_channel_run (l : list COMMON_TOKEN) : nat :=
  match l with
  | [] => O
  | t :: l => if on_channel t then O else S (off_channel_run l)
  end.
Definition skipOffTokenChannels (toks : list COMMON_TOKEN) (i : nat) : nat :=
  (i + off_channel_run (drop i toks))%nat.

(** The end of [fillBuffer]: the first token of the channel is ahead. *)
Definition TokenStreamNew (toks : list COMMON_TOKEN) : TOKEN_STREAM :=
  mkTokenStream toks (skipOffTokenChannels toks 0).

Definition eofToken : COMMON_TOKEN := mkToken EOF TOKEN_DEFAULT_CHANNEL (lit "<EOF>").

(** The [k]th token ahead, from 1: [k - 1] times the next token of the channel. *)
Fixpoint lt_index (k : nat) (toks : list COMMON_TOKEN) (i : nat) : nat :=
  match k with
  | O => i
  | S k => lt_index k toks (skipOffTokenChannels toks (S i))
  end.

(** [tokLT] *)
Definition LT (k : nat) (ts : TOKEN_STREAM) : COMMON_TOKEN :=
  if (length (tokens ts) <=? p ts + k - 1)%nat then eofToken
  else default eofToken (tokens ts !! lt_index (k - 1) (tokens ts) (p ts)).

(** [LB] for the token before: none when every token before is off the channel. *)
Definition LB1 (ts : TOKEN_STREAM) : option COMMON_TOKEN :=
  last (base.filter (λ t, on_channel t = true) (take (p ts) (tokens ts))).

(** [_LA] *)
Definition tokLA (k : nat) (ts : TOKEN_STREAM) : Z := tok_type (LT k ts).

(** [consume] *)
Definition tok_consume (ts : TOKEN_STREAM) : TOKEN_STREAM :=
  if (p ts <? length (tokens ts))%nat
  then mkTokenStream (tokens ts) (skipOffTokenChannels (tokens ts) (S (p ts)))
  else ts.

(** [tindex], [mark] and [rewindStream] *)
Definition tindex (ts : TOKEN_STREAM) : Z := Z.of_nat (p ts).
Definition tok_mark (ts : TOKEN_STREAM) : Z * TOKEN_STREAM := (tindex ts, ts).
Definition seek (ts : TOKEN_STREAM) (index : Z) : TOKEN_STREAM :=
  mkTokenStream (tokens ts) (Z.to_nat index).

#[export] Instance token_stream_ops : IntStream TOKEN_STREAM := {|
  LA1 := tokLA 1;
  consume := tok_consume;
  mark := tok_mark;
  rewind := seek
|}.

(** ** The tokens ahead *)

Definition visible (l : list COMMON_TOKEN) : list COMMON_TOKEN :=
  base.filter (λ t, on_channel t = true) l.

(** The tokens of the channel that are still to be read. *)
Definition ahead (ts : TOKEN_STREAM) : list COMMON_TOKEN := visible (drop (p ts) (tokens ts)).

(** The index is at a token of the channel or past the end. *)
Definition at_token (ts : TOKEN_STREAM) : Prop :=
  ∀ t, tokens ts !! p ts = Some t → on_channel t = true.

Lemma visible_app l k : visible (l ++ k) = visible l ++ visible k.
Proof. apply filter_app. Qed.

Lemma drop_skip toks i : visible (drop (skipOffTokenChannels toks i) toks) = visible (drop i toks).
Proof.
  unfold skipOffTokenChannels. rewrite <-drop_drop. generalize (drop i toks). intros l.
  induction l as [|t l IH]; [done|]. cbn [off_channel_run].
  destruct (on_channel t) eqn:E; [done|]. cbn [drop]. rewrite IH.
  unfold visible. rewrite filter_cons_False; [done|]. by rewrite E.
Qed.

Lemma skip_at_token toks i : at_token (mkTokenStream toks (skipOffTokenChannels toks i)).
Proof.
  unfold at_token, skipOffTokenChannels. cbn. intros t. rewrite <-lookup_drop.
  generalize (drop i toks). intros l. induction l as [|u l IH]; [done|].
  cbn. destruct (on_channel u) eqn:E; [by intros [= <-]|exact IH].
Qed.

Lemma skip_le toks i : (i ≤ skipOffTokenChannels toks i)%nat.
Proof. unfold skipOffTokenChannels. lia. Qed.

Lemma ahead_new toks : ahead (TokenStreamNew toks) = visible toks.
Proof. unfold ahead, TokenStreamNew. cbn [p tokens]. by rewrite drop_skip. Qed.

Lemma ahead_cons ts :
  at_token ts → (p ts < length (tokens ts))%nat →
  ∃ t, tokens ts !! p ts = Some t ∧ ahead ts = t :: visible (drop (S (p ts)) (tokens ts)).
Proof.
  intros Ha Hl. destruct (lookup_lt_is_Some_2 _ _ Hl) as [t Ht]. exists t. split; [done|].
  unfold ahead. rewrite (drop_S _ t) by done. unfold visible.
  rewrite filter_cons_True; [done|]. by apply Ha.
Qed.

Lemma ahead_nil ts : at_token ts → ahead ts = [] ↔ (length (tokens ts) ≤ p ts)%nat.
Proof.
  intros Ha. split; intros H.
  - destruct (decide (p ts < length (tokens ts))%nat) as [Hl|]; [|lia].
    destruct (ahead_cons ts Ha Hl) as (t & _ & E). congruence.
  - unfold ahead. by rewrite drop_ge.
Qed.

Lemma ahead_consume ts : at_token ts → ahead (tok_consume ts) = tail (ahead ts).
Proof.
  intros Ha. unfold tok_consume. destruct (Nat.ltb_spec (p ts) (length (tokens ts))) as [Hl|Hl].
  - destruct (ahead_cons ts Ha Hl) as (t & _ & ->). unfold ahead. cbn [p tokens].
    by rewrite drop_skip.
  - by rewrite (proj2 (ahead_nil ts Ha) Hl).
Qed.

Lemma consume_at_token ts : at_token ts → at_token (tok_consume ts).
Proof. intros Ha. unfold tok_consume. destruct (_ <? _)%nat; [apply skip_at_token|done]. Qed.

Lemma consume_tokens ts : tokens (tok_consume ts) = tokens ts.
Proof. unfold tok_consume. by destruct (_ <? _)%nat. Qed.

Lemma LT_ahead1 ts : at_token ts → LT 1 ts = default eofToken (head (ahead ts)).
Proof.
  intros Ha. unfold LT. replace (p ts + 1 - 1)%nat with (p ts) by lia.
  destruct (Nat.leb_spec (length (tokens ts)) (p ts)) as [Hl|Hl].
  - by rewrite (proj2 (ahead_nil ts Ha) Hl).
  - destruct (ahead_cons ts Ha Hl) as (t & Ht & ->). cbn. by rewrite Ht.
Qed.

Lemma LT_ahead2 ts : at_token ts → LT 2 ts = default eofToken (head (tail (ahead ts))).
Proof.
  intros Ha. unfold LT. replace (p ts + 2 - 1)%nat with (S (p ts)) by lia.
  destruct (decide (p ts < length (tokens ts))%nat) as [Hl|Hl].
  - destruct (ahead_cons ts Ha Hl) as (t & Ht & ->). cbn [tail].
    destruct (Nat.leb_spec (length (tokens ts)) (S (p ts))) as [Hl2|Hl2].
    { by rewrite drop_ge. }
    change (2 - 1)%nat with 1%nat. cbn [lt_index]. rewrite <-drop_skip.
    pose proof (skip_at_token (tokens ts) (S (p ts))) as Hs.
    set (q := skipOffTokenChannels (tokens ts) (S (p ts))) in *.
    pose proof (ahead_nil _ Hs) as Hn. unfold ahead in Hn. cbn [p tokens] in Hn.
    destruct (decide (q < length (tokens ts))%nat) as [Hq|Hq].
    + destruct (ahead_cons _ Hs Hq) as (u & Hu & E). unfold ahead in E. cbn [p tokens] in *.
      by rewrite E, Hu.
    + by rewrite (proj2 Hn), lookup_ge_None_2 by lia.
  - rewrite (proj2 (ahead_nil ts Ha)) by lia.
    destruct (Nat.leb_spec (length (tokens ts)) (S (p ts))); [done|lia].
Qed.

(** Once a token has been read there is a token before; at the end there is one
    as soon as the stream has a token of the channel at all. *)
Lemma LB1_visible ts : visible (tokens ts) = visible (take (p ts) (tokens ts)) ++ ahead ts.
Proof. unfold ahead. by rewrite <-visible_app, take_drop. Qed.

Lemma LB1_end ts :
  ahead ts = [] → visible (tokens ts) ≠ [] → is_Some (LB1 ts).
Proof.
  intros Ha. rewrite LB1_visible, Ha, app_nil_r. unfold LB1. fold (visible (take (p ts) (tokens ts))).
  intros Hv. destruct (visible _) as [|t l] using rev_ind; [done|]. by rewrite last_snoc.
Qed.

(** The tokens left to read, also when the index is off the channel. *)
Definition tokens_left (ts : TOKEN_STREAM) : nat :=
  if (p ts <? length (tokens ts))%nat
  then S (length (visible (drop (S (p ts)) (tokens ts)))) else O.

Lemma tokens_left_ahead ts : at_token ts → tokens_left ts = length (ahead ts).
Proof.
  intros Ha. unfold tokens_left. destruct (Nat.ltb_spec (p ts) (length (tokens ts))) as [Hl|Hl].
  - by destruct (ahead_cons ts Ha Hl) as (t & _ & ->).
  - by rewrite (proj2 (ahead_nil ts Ha) Hl).
Qed.

Lemma tokens_left_consume ts : tokens_left (tok_consume ts) = pred (tokens_left ts).
Proof.
  unfold tok_consume. destruct (p ts <? length (tokens ts))%nat eqn:E.
  - rewrite tokens_left_ahead by apply skip_at_token. unfold ahead, tokens_left.
    rewrite E. cbn [p tokens pred]. by rewrite drop_skip.
  - unfold tokens_left. by rewrite E.
Qed.

#[export] Instance token_stream_laws : IntStreamLaws TOKEN_STREAM.
Proof.
  refine {| remaining := tokens_left; stream_ok _ := True; same_place ts ts' := ts = ts' |}.
  - done.
  - by intros s s' <-.
  - intros s. unfold tokens_left. destruct (Nat.ltb_spec (p s) (length (tokens s))); [done|].
    intros _. cbn. unfold tokLA, LT. destruct (Nat.leb_spec (length (tokens s)) (p s + 1 - 1)); [done|lia].
  - intros s. apply tokens_left_consume.
  - done.
  - intros s n _. cbn. unfold seek, tindex. rewrite Nat2Z.id.
    assert (tokens (Nat.iter n tok_consume s) = tokens s) as ->.
    { induction n as [|n IH]; [done|]. cbn. by rewrite consume_tokens. }
    by destruct s.
Defined.
