(* ===== verification/TokenStore.v ===== *)
(** Tokens in memory and the lexer that makes them: the tokens and their factory of
    src/antlr/libantlr3c-3.4/src/antlr3commontoken.c, and all of antlr3lexer.c, with its
    stack of input streams. [Lexer] has the part that the server's lexer uses, with
    tokens as values. *)
From S2P Require Import Prelude.
From S2P Require Import Vector.
From S2P Require Import RtString.
From S2P Require Import CharStreams.

(** ** Pointers

    An [ANTLR3_MARKER] is a number, or a pointer into the text of an input stream that
    was made one. The build does not define [ANTLR3_USE_64BIT], so that a marker has 32
    bits, of a pointer that has 64: [Ptr] says where a marker comes from, [value] below
    what it holds, and [pointer] what becomes of it when it is made a pointer again. *)
Inductive MARKER : Type :=
| Ptr (stream : nat) (offset : Z)
| Num (n : Z).
#[export] Instance MARKER_eq_dec : EqDecision MARKER.
Proof. solve_decision. Defined.
Definition plus (p : MARKER) (n : Z) : MARKER :=
  match p with Ptr i o => Ptr i (o + n) | Num m => Num (m + n) end.

(** A string is in the factory of an input stream. *)
Definition string_ptr : Type := nat * nat.
(** A token: in a pool of the factory, one of the two of the token source, or one that
    was allocated alone. *)
Inductive token_ptr : Type :=
| InPool (pool next : nat)
| EofToken
| SkipToken
| Alone (n : nat).
#[export] Instance token_ptr_eq_dec : EqDecision token_ptr.
Proof. solve_decision. Defined.

(** ** Tokens *)

(** [textState] and the union that it is the tag of. *)
Inductive TEXT : Type :=
| ANTLR3_TEXT_NONE
| ANTLR3_TEXT_CHARP (chars : list Z)
| ANTLR3_TEXT_STRING (text : string_ptr).

(** [api]: the functions of the token are set. *)
Record COMMON_TOKEN : Type := mkToken {
  type : Z;
  factoryMade : bool;
  strFactory : option nat;
  line : Z;
  lineStart : MARKER;
  charPosition : Z;
  channel : Z;
  input : option nat;
  index : Z;
  start : MARKER;
  stop : MARKER;
  tokText : TEXT;
  user : Z * Z * Z;
  custom : option nat;
  freeCustom : bool;
  api : bool
}.
(** What [calloc] gives. *)
Definition zeroed : COMMON_TOKEN :=
  mkToken 0 false None 0 (Num 0) 0 0 None 0 (Num 0) (Num 0) ANTLR3_TEXT_NONE (0, 0, 0) None false false.

Definition ANTLR3_TOKEN_INVALID : Z := 0.
Definition ANTLR3_TOKEN_EOF : Z := u32 (-1).
Definition ANTLR3_TOKEN_DEFAULT_CHANNEL : Z := 0.
Definition ANTLR3_FACTORY_POOL_SIZE : Z := 1024.

Definition setType x (t : COMMON_TOKEN) : COMMON_TOKEN :=
  mkToken x (factoryMade t) (strFactory t) (line t) (lineStart t) (charPosition t) (channel t) (input t)
    (index t) (start t) (stop t) (tokText t) (user t) (custom t) (freeCustom t) (api t).
Definition setLine x (t : COMMON_TOKEN) : COMMON_TOKEN :=
  mkToken (type t) (factoryMade t) (strFactory t) x (lineStart t) (charPosition t) (channel t) (input t)
    (index t) (start t) (stop t) (tokText t) (user t) (custom t) (freeCustom t) (api t).
Definition setCharPositionInLine x (t : COMMON_TOKEN) : COMMON_TOKEN :=
  mkToken (type t) (factoryMade t) (strFactory t) (line t) (lineStart t) x (channel t) (input t)
    (index t) (start t) (stop t) (tokText t) (user t) (custom t) (freeCustom t) (api t).
Definition setChannel x (t : COMMON_TOKEN) : COMMON_TOKEN :=
  mkToken (type t) (factoryMade t) (strFactory t) (line t) (lineStart t) (charPosition t) x (input t)
    (index t) (start t) (stop t) (tokText t) (user t) (custom t) (freeCustom t) (api t).
Definition setTokenIndex x (t : COMMON_TOKEN) : COMMON_TOKEN :=
  mkToken (type t) (factoryMade t) (strFactory t) (line t) (lineStart t) (charPosition t) (channel t) (input t)
    x (start t) (stop t) (tokText t) (user t) (custom t) (freeCustom t) (api t).
Definition setStartIndex x (t : COMMON_TOKEN) : COMMON_TOKEN :=
  mkToken (type t) (factoryMade t) (strFactory t) (line t) (lineStart t) (charPosition t) (channel t) (input t)
    (index t) x (stop t) (tokText t) (user t) (custom t) (freeCustom t) (api t).
Definition setStopIndex x (t : COMMON_TOKEN) : COMMON_TOKEN :=
  mkToken (type t) (factoryMade t) (strFactory t) (line t) (lineStart t) (charPosition t) (channel t) (input t)
    (index t) (start t) x (tokText t) (user t) (custom t) (freeCustom t) (api t).
Definition set_tokText x (t : COMMON_TOKEN) : COMMON_TOKEN :=
  mkToken (type t) (factoryMade t) (strFactory t) (line t) (lineStart t) (charPosition t) (channel t) (input t)
    (index t) (start t) (stop t) x (user t) (custom t) (freeCustom t) (api t).
Definition set_strFactory x (t : COMMON_TOKEN) : COMMON_TOKEN :=
  mkToken (type t) (factoryMade t) x (line t) (lineStart t) (charPosition t) (channel t) (input t)
    (index t) (start t) (stop t) (tokText t) (user t) (custom t) (freeCustom t) (api t).
Definition set_factoryMade x (t : COMMON_TOKEN) : COMMON_TOKEN :=
  mkToken (type t) x (strFactory t) (line t) (lineStart t) (charPosition t) (channel t) (input t)
    (index t) (start t) (stop t) (tokText t) (user t) (custom t) (freeCustom t) (api t).
Definition set_input x (t : COMMON_TOKEN) : COMMON_TOKEN :=
  mkToken (type t) (factoryMade t) (strFactory t) (line t) (lineStart t) (charPosition t) (channel t) x
    (index t) (start t) (stop t) (tokText t) (user t) (custom t) (freeCustom t) (api t).
Definition set_custom x b (t : COMMON_TOKEN) : COMMON_TOKEN :=
  mkToken (type t) (factoryMade t) (strFactory t) (line t) (lineStart t) (charPosition t) (channel t) (input t)
    (index t) (start t) (stop t) (tokText t) (user t) x b (api t).
(** [antlr3SetTokenAPI] *)
Definition SetTokenAPI (t : COMMON_TOKEN) : COMMON_TOKEN :=
  mkToken (type t) (factoryMade t) (strFactory t) (line t) (lineStart t) (charPosition t) (channel t) (input t)
    (index t) (start t) (stop t) (tokText t) (user t) (custom t) (freeCustom t) true.

(** [newToken], [antlr3CommonTokenNew] *)
Definition newToken : COMMON_TOKEN := set_factoryMade false (SetTokenAPI zeroed).
Definition CommonTokenNew (ttype : Z) : COMMON_TOKEN := setType ttype newToken.

(** ** The factory of tokens *)
Record TOKEN_FACTORY : Type := mkTokenFactory {
  pools : list (list COMMON_TOKEN);
  thisPool : Z;
  maxPool : Z;
  nextToken : Z;
  unTruc : COMMON_TOKEN;
  finput : option nat
}.
Definition set_unTruc x (f : TOKEN_FACTORY) : TOKEN_FACTORY :=
  mkTokenFactory (pools f) (thisPool f) (maxPool f) (nextToken f) x (finput f).

Definition empty_pool : list COMMON_TOKEN := replicate (Z.to_nat ANTLR3_FACTORY_POOL_SIZE) zeroed.

(** [newPool]: a pool that is there already, when the factory was reset, or one more. *)
Definition newPool (f : TOKEN_FACTORY) : outcome TOKEN_FACTORY :=
  this ← int_op (thisPool f + 1);
  if maxPool f <? this then
    if u32 ((this + 1) * 8) <? (this + 1) * 8 then Undef BadIndex
    else Ok (mkTokenFactory (pools f ++ [empty_pool])
               this this 0 (unTruc f) (finput f))
  else Ok (mkTokenFactory (pools f) this (maxPool f) 0 (unTruc f) (finput f)).

(** [setInputStream] of the factory; the strings of a stream are in the factory of the
    same number. *)
Definition factory_setInputStream (i : option nat) (f : TOKEN_FACTORY) : TOKEN_FACTORY :=
  mkTokenFactory (pools f) (thisPool f) (maxPool f) (nextToken f)
    (set_strFactory i (set_input i (unTruc f))) i.

(** [antlr3TokenFactoryNew] *)
Definition TokenFactoryNew (i : option nat) : outcome TOKEN_FACTORY :=
  f ← newPool (mkTokenFactory [] (-1) (-1) 0 zeroed None);
  Ok (factory_setInputStream i (set_unTruc (set_factoryMade true (SetTokenAPI (unTruc f))) f)).

Definition pool_token (f : TOKEN_FACTORY) (i j : nat) : outcome COMMON_TOKEN :=
  match pools f !! i ≫= lookup j with Some t => Ok t | None => Undef BadIndex end.
Definition write_pool (i j : nat) (t : COMMON_TOKEN) (f : TOKEN_FACTORY) : outcome TOKEN_FACTORY :=
  _ ← pool_token f i j;
  Ok (mkTokenFactory (alter (λ l, <[j := t]> l) i (pools f)) (thisPool f) (maxPool f) (nextToken f) (unTruc f) (finput f)).

(** [newPoolToken]: a token that was handed out before a reset is as it was left. *)
Definition newPoolToken (f : TOKEN_FACTORY) : outcome (nat * nat * TOKEN_FACTORY) :=
  f ← (if ANTLR3_FACTORY_POOL_SIZE <=? nextToken f then newPool f else Ok f);
  let i := Z.to_nat (thisPool f) in
  let j := Z.to_nat (nextToken f) in
  t ← pool_token f i j;
  let f := mkTokenFactory (pools f) (thisPool f) (maxPool f) (u32 (nextToken f + 1)) (unTruc f) (finput f) in
  if api t then Ok (i, j, f)
  else
    f ← write_pool i j (set_input (finput f) (set_strFactory (finput f) (set_factoryMade true (SetTokenAPI t)))) f;
    Ok (i, j, f).

(** [factoryReset] *)
Definition factoryReset (f : TOKEN_FACTORY) : outcome TOKEN_FACTORY :=
  newPool (mkTokenFactory (pools f) (-1) (maxPool f) (nextToken f) (unTruc f) (finput f)).

(** [factoryClose]: [customs] are the objects of the programmer that are allocated. The
    tokens of the pools up to the current one are looked at, and these pools are freed;
    what stays allocated is returned. *)
Fixpoint free_customs (l : list COMMON_TOKEN) (customs : gset nat) : outcome (gset nat) :=
  match l with
  | [] => Ok customs
  | t :: l =>
      match custom t with
      | Some c =>
          if freeCustom t then
            if decide (c ∈ customs) then free_customs l (customs ∖ {[c]}) else Undef UseAfterFree
          else free_customs l customs
      | None => free_customs l customs
      end
  end.
Definition tokens_in_use (f : TOKEN_FACTORY) : list COMMON_TOKEN :=
  mjoin (take (Z.to_nat (thisPool f)) (pools f))
  ++ take (Z.to_nat (nextToken f)) (default [] (pools f !! Z.to_nat (thisPool f))).
Definition factoryClose (f : TOKEN_FACTORY) (customs : gset nat) : outcome (gset nat * list (list COMMON_TOKEN)) :=
  customs ← free_customs (tokens_in_use f) customs;
  Ok (customs, drop (Z.to_nat (thisPool f + 1)) (pools f)).

(** ** Memory

    An input stream with the factory of its strings, which has no functions for
    UTF-32. *)
Record STREAM : Type := mkStream {
  chars : INPUT_STREAM;
  strings : option STRING_FACTORY
}.

(** The state that a lexer shares with its recognizer. *)
Record SHARED_STATE : Type := mkState {
  token : option token_ptr;
  st_type : Z;
  st_channel : Z;
  error : bool;
  failed : bool;
  errorCount : Z;
  backtracking : Z;
  tokenStartCharIndex : MARKER;
  tokenStartCharPositionInLine : Z;
  tokenStartLine : Z;
  st_text : option string_ptr;
  st_user : Z * Z * Z;
  st_custom : option nat;
  streams : option (STACK nat)
}.

(** The memory of a lexer: the input streams that are open, the tokens, and the lexer
    itself with its token source. *)
Record LEXER : Type := mkLexer {
  inputs : gmap nat STREAM;
  lexer_input : option nat;
  state : SHARED_STATE;
  tokFactory : option TOKEN_FACTORY;
  eofToken : COMMON_TOKEN;
  skipToken : COMMON_TOKEN;
  src_strFactory : option nat;
  alone : gmap nat COMMON_TOKEN
}.
Definition set_inputs x (m : LEXER) : LEXER :=
  mkLexer x (lexer_input m) (state m) (tokFactory m) (eofToken m) (skipToken m) (src_strFactory m) (alone m).
Definition set_lexer_input x (m : LEXER) : LEXER :=
  mkLexer (inputs m) x (state m) (tokFactory m) (eofToken m) (skipToken m) (src_strFactory m) (alone m).
Definition set_state x (m : LEXER) : LEXER :=
  mkLexer (inputs m) (lexer_input m) x (tokFactory m) (eofToken m) (skipToken m) (src_strFactory m) (alone m).
Definition set_tokFactory x (m : LEXER) : LEXER :=
  mkLexer (inputs m) (lexer_input m) (state m) x (eofToken m) (skipToken m) (src_strFactory m) (alone m).
Definition set_eofToken x (m : LEXER) : LEXER :=
  mkLexer (inputs m) (lexer_input m) (state m) (tokFactory m) x (skipToken m) (src_strFactory m) (alone m).
Definition set_skipToken x (m : LEXER) : LEXER :=
  mkLexer (inputs m) (lexer_input m) (state m) (tokFactory m) (eofToken m) x (src_strFactory m) (alone m).
Definition set_src_strFactory x (m : LEXER) : LEXER :=
  mkLexer (inputs m) (lexer_input m) (state m) (tokFactory m) (eofToken m) (skipToken m) x (alone m).
Definition set_alone x (m : LEXER) : LEXER :=
  mkLexer (inputs m) (lexer_input m) (state m) (tokFactory m) (eofToken m) (skipToken m) (src_strFactory m) x.

Definition set_token x (s : SHARED_STATE) : SHARED_STATE :=
  mkState x (st_type s) (st_channel s) (error s) (failed s) (errorCount s) (backtracking s)
    (tokenStartCharIndex s) (tokenStartCharPositionInLine s) (tokenStartLine s) (st_text s) (st_user s) (st_custom s) (streams s).
Definition set_type x (s : SHARED_STATE) : SHARED_STATE :=
  mkState (token s) x (st_channel s) (error s) (failed s) (errorCount s) (backtracking s)
    (tokenStartCharIndex s) (tokenStartCharPositionInLine s) (tokenStartLine s) (st_text s) (st_user s) (st_custom s) (streams s).
Definition set_flags e b (s : SHARED_STATE) : SHARED_STATE :=
  mkState (token s) (st_type s) (st_channel s) e b (errorCount s) (backtracking s)
    (tokenStartCharIndex s) (tokenStartCharPositionInLine s) (tokenStartLine s) (st_text s) (st_user s) (st_custom s) (streams s).
Definition set_errorCount x (s : SHARED_STATE) : SHARED_STATE :=
  mkState (token s) (st_type s) (st_channel s) (error s) (failed s) x (backtracking s)
    (tokenStartCharIndex s) (tokenStartCharPositionInLine s) (tokenStartLine s) (st_text s) (st_user s) (st_custom s) (streams s).
Definition set_tokenStart c p l (s : SHARED_STATE) : SHARED_STATE :=
  mkState (token s) (st_type s) (st_channel s) (error s) (failed s) (errorCount s) (backtracking s)
    c p l (st_text s) (st_user s) (st_custom s) (streams s).
Definition set_text x (s : SHARED_STATE) : SHARED_STATE :=
  mkState (token s) (st_type s) (st_channel s) (error s) (failed s) (errorCount s) (backtracking s)
    (tokenStartCharIndex s) (tokenStartCharPositionInLine s) (tokenStartLine s) x (st_user s) (st_custom s) (streams s).
Definition set_streams x (s : SHARED_STATE) : SHARED_STATE :=
  mkState (token s) (st_type s) (st_channel s) (error s) (failed s) (errorCount s) (backtracking s)
    (tokenStartCharIndex s) (tokenStartCharPositionInLine s) (tokenStartLine s) (st_text s) (st_user s) (st_custom s) x.
(** What [nextTokenStr] clears in front of a token. *)
Definition begin_token c p l (s : SHARED_STATE) : SHARED_STATE :=
  mkState (token s) (st_type s) ANTLR3_TOKEN_DEFAULT_CHANNEL (error s) (failed s) (errorCount s) (backtracking s)
    c p l None (0, 0, 0) None (streams s).

(** Accesses through pointers. *)
Definition load_input (i : option nat) (m : LEXER) : outcome (nat * STREAM) :=
  i ← deref i;
  match inputs m !! i with Some s => Ok (i, s) | None => Undef UseAfterFree end.
Definition store_input (i : nat) (s : STREAM) (m : LEXER) : LEXER := set_inputs (<[i := s]> (inputs m)) m.
Definition load_token (p : token_ptr) (m : LEXER) : outcome COMMON_TOKEN :=
  match p with
  | InPool i j => match tokFactory m with Some f => pool_token f i j | None => Undef UseAfterFree end
  | EofToken => Ok (eofToken m)
  | SkipToken => Ok (skipToken m)
  | Alone n => match alone m !! n with Some t => Ok t | None => Undef UseAfterFree end
  end.
Definition store_token (p : token_ptr) (t : COMMON_TOKEN) (m : LEXER) : outcome LEXER :=
  match p with
  | InPool i j =>
      match tokFactory m with
      | Some f => f ← write_pool i j t f; Ok (set_tokFactory (Some f) m)
      | None => Undef UseAfterFree
      end
  | EofToken => Ok (set_eofToken t m)
  | SkipToken => Ok (set_skipToken t m)
  | Alone n =>
      match alone m !! n with Some _ => Ok (set_alone (<[n := t]> (alone m)) m) | None => Undef UseAfterFree end
  end.
Definition change_token (g : COMMON_TOKEN → COMMON_TOKEN) (p : token_ptr) (m : LEXER) : outcome LEXER :=
  t ← load_token p m; store_token p (g t) m.

Section machine.
(** The byte order of the machine, and where the text of a stream is. *)
Context (machineBigEndian : bool) (address : nat → Z).
Definition value (p : MARKER) : Z := match p with Ptr i o => sint 32 (address i + o) | Num n => n end.

(** [(pANTLR3_UINT8) marker]: the low 32 bits of the pointer, with their sign. It is null,
    the pointer it was, when its address fits, or points to no text. *)
Definition pointer (p : MARKER) : outcome (option (nat * Z)) :=
  if value p =? 0 then Ok None
  else
    match p with
    | Ptr i o => if value p =? address i + o then Ok (Some (i, o)) else Undef BadIndex
    | Num _ => Undef BadIndex
    end.
(** The sum of a marker and an [int]. *)
Definition shift (p : MARKER) (n : Z) : outcome MARKER := _ ← int_op (value p + n); Ok (plus p n).

(** An operation on the strings of a stream. *)
Definition with_strings {A} (i : option nat) (g : STRING_FACTORY → outcome (A * STRING_FACTORY)) (m : LEXER)
    : outcome (A * LEXER) :=
  '(i, s) ← load_input i m;
  f ← deref (strings s);
  '(a, f) ← g f;
  Ok (a, store_input i (mkStream (chars s) (Some f)) m).
Definition new_string (i : option nat) (l : list Z) (m : LEXER) : outcome (string_ptr * LEXER) :=
  '(p, m) ← with_strings i (λ f, newStr f l) m;
  i ← deref i;
  Ok ((i, p), m).

(** [input->substr]: the functions of the stream and its strings, on the text that the
    pointers are in. *)
Definition substr (i : option nat) (a b : MARKER) (m : LEXER) : outcome (string_ptr * LEXER) :=
  '(n, s) ← load_input i m;
  len ← int_op (value b - value a);
  _ ← match seek_fn (chars s) with antlr38BitSeek => int_op (len + 1) | _ => Ok 0 end;
  here ← pointer a;
  '(p, m) ←
    match here with
    | Some (j, o) =>
        '(_, t) ← load_input (Some j) m;
        with_strings i (λ f,
          match seek_fn (chars s) with
          | antlr38BitSeek => antlr38BitSubstr f (chars t) o (o + len)
          | antlr3UTF16Seek => antlr3UTF16Substr machineBigEndian f (chars t) o (o + len)
          | antlr3UTF32Seek => antlr3UTF32Substr (Some f) (chars t) o (o + len)
          end) m
    | None =>
        with_strings i (λ f, newPtr f None
          (match seek_fn (chars s) with
           | antlr38BitSeek => u32 (len + 1)
           | antlr3UTF16Seek => u32 (u32 len / 2 + 1)
           | antlr3UTF32Seek => u32 (u32 len / 4 + 1)
           end)) m
    end;
  Ok ((n, p), m).

(** ** The text of a token *)

(** [getStartIndex] *)
Definition getStartIndex (t : COMMON_TOKEN) (m : LEXER) : outcome MARKER :=
  if value (start t) =? -1 then '(i, _) ← load_input (input t) m; Ok (Ptr i 0)
  else Ok (start t).

(** [getText]; a null pointer is no text. *)
Definition getText (p : token_ptr) (m : LEXER) : outcome (option string_ptr * LEXER) :=
  t ← load_token p m;
  match tokText t with
  | ANTLR3_TEXT_STRING x => Ok (Some x, m)
  | ANTLR3_TEXT_CHARP l =>
      match strFactory t with
      | Some _ =>
          '(x, m) ← new_string (strFactory t) l m;
          m ← change_token (set_tokText (ANTLR3_TEXT_STRING x)) p m;
          Ok (Some x, m)
      | None => Ok (None, m)
      end
  | ANTLR3_TEXT_NONE =>
      if type t =? ANTLR3_TOKEN_EOF then
        '(x, m) ← new_string (strFactory t) [60; 69; 79; 70; 62] m;
        m ← change_token (set_tokText (ANTLR3_TEXT_STRING x)) p m;
        Ok (Some x, m)
      else
        match input t with
        | Some _ => a ← getStartIndex t m; '(x, m) ← substr (input t) a (stop t) m; Ok (Some x, m)
        | None => Ok (None, m)
        end
  end.

(** [setText8], [setText] *)
Definition setText8 (text : option (list Z)) (p : token_ptr) (m : LEXER) : outcome LEXER :=
  match text with
  | None => Ok m
  | Some l =>
      t ← load_token p m;
      match tokText t with
      | ANTLR3_TEXT_STRING (i, x) =>
          '(_, m) ← with_strings (Some i) (λ f, s ← load f x; s ← set8 s l; Ok (tt, update f x s)) m;
          Ok m
      | _ => change_token (set_tokText (ANTLR3_TEXT_CHARP l)) p m
      end
  end.
Definition setText (text : string_ptr) (p : token_ptr) (m : LEXER) : outcome LEXER :=
  change_token (set_tokText (ANTLR3_TEXT_STRING text)) p m.

(** [toString]: a new string in the factory of the text. *)
Definition on_string (q : nat) (g : STRING → outcome STRING) (f : STRING_FACTORY) : outcome STRING_FACTORY :=
  s ← load f q; s ← g s; Ok (update f q s).
Definition codes_of (s : string) : list Z :=
  (λ c, Z.of_nat (nat_of_ascii c)) <$> String.list_ascii_of_string s.
Definition say (s : string) (q : nat) : STRING_FACTORY → outcome STRING_FACTORY :=
  on_string q (λ x, append8 x (codes_of s)).
Definition say_int (n : Z) (q : nat) : STRING_FACTORY → outcome STRING_FACTORY :=
  on_string q (λ x, addi x (sint 32 n)).
Definition describe (t : COMMON_TOKEN) (a : MARKER) (x : nat) (f : STRING_FACTORY) : outcome (nat * STRING_FACTORY) :=
  '(q, f) ← newRaw f;
  f ← say "[Index: " q f;
  f ← say_int (index t) q f;
  f ← say " (Start: " q f;
  f ← say_int (value a) q f;
  f ← say "-Stop: " q f;
  f ← say_int (value (stop t)) q f;
  f ← say ") ='" q f;
  f ← appendS f q x;
  f ← say "', type<" q f;
  f ← say_int (type t) q f;
  f ← say "> " q f;
  f ← (if ANTLR3_TOKEN_DEFAULT_CHANNEL <? channel t then
         f ← say "(channel = " q f;
         f ← say_int (channel t) q f;
         say ") " q f
       else Ok f);
  f ← say "Line: " q f;
  f ← say_int (line t) q f;
  f ← say " LinePos:" q f;
  f ← say_int (charPosition t) q f;
  f ← on_string q (λ s, addc s 93) f;
  Ok (q, f).
Definition toString (p : token_ptr) (m : LEXER) : outcome (option string_ptr * LEXER) :=
  '(x, m) ← getText p m;
  match x with
  | None => Ok (None, m)
  | Some (i, x) =>
      t ← load_token p m;
      a ← getStartIndex t m;
      '(q, m) ← with_strings (Some i) (describe t a x) m;
      Ok (Some (i, q), m)
  end.

(** ** The lexer *)

Definition on_state (g : SHARED_STATE → SHARED_STATE) (m : LEXER) : LEXER := set_state (g (state m)) m.
(** The stream that is read. *)
Definition current (m : LEXER) : outcome (nat * STREAM) := load_input (lexer_input m) m.
Definition peek (input : option nat) (m : LEXER) : outcome Z :=
  '(_, s) ← load_input input m; LA machineBigEndian (chars s) 1.
Definition LA1 (m : LEXER) : outcome Z := peek (lexer_input m) m.
Definition on_input (g : INPUT_STREAM → outcome INPUT_STREAM) (m : LEXER) : outcome LEXER :=
  '(i, s) ← current m;
  c ← g (chars s);
  Ok (store_input i (mkStream c (strings s)) m).
Definition consume (m : LEXER) : outcome LEXER := on_input (CharStreams.consume machineBigEndian) m.

(** [getLine], [getCharPositionInLine], [getCharIndex] *)
Definition getLine (m : LEXER) : outcome Z := '(_, s) ← current m; Ok (CharStreams.line (chars s)).
Definition getCharPositionInLine (m : LEXER) : outcome Z :=
  '(_, s) ← current m; Ok (CharStreams.charPositionInLine (chars s)).
Definition getCharIndex (m : LEXER) : outcome MARKER :=
  '(i, s) ← current m; Ok (Ptr i (nextChar (chars s))).

(** [antlr3LexerNew], on the state that it is given or that its recognizer makes. *)
Definition special (ttype : Z) : COMMON_TOKEN :=
  set_factoryMade true (setType ttype (SetTokenAPI zeroed)).
Definition LexerNew : LEXER :=
  mkLexer ∅ None (mkState None 0 0 false false 0 0 (Num 0) 0 0 None (0, 0, 0) None None) None
    (special ANTLR3_TOKEN_EOF) (special ANTLR3_TOKEN_INVALID) None ∅.

(** [setCharStream] *)
Definition setCharStream (input : option nat) (m : LEXER) : outcome LEXER :=
  let m := set_lexer_input input m in
  '(i, _) ← load_input input m;
  f ← match tokFactory m with
      | None => TokenFactoryNew input
      | Some f => Ok (factory_setInputStream input f)
      end;
  let m := set_tokFactory (Some f) m in
  let m :=
    match src_strFactory m with
    | None =>
        let m := set_src_strFactory (Some i) m in
        match strFactory (eofToken m) with
        | None => set_eofToken (set_strFactory (Some i) (eofToken m)) m
        | Some _ => m
        end
    | Some _ => m
    end in
  Ok (on_state (λ s, set_token None
        (set_text None (set_tokenStart (Num (-1)) (tokenStartCharPositionInLine s) (tokenStartLine s) s))) m).

(** [antlr3LexerNewStream], on streams that are open. *)
Definition LexerNewStream (opened : gmap nat STREAM) (input : nat) : outcome LEXER :=
  setCharStream (Some input) (set_inputs opened LexerNew).

(** [pushCharStream], [popCharStream] *)
Definition pushCharStream (input : option nat) (m : LEXER) : outcome LEXER :=
  let stack := match streams (state m) with None => StackNew 0 | Some s => s end in
  m ← on_input (λ c, Ok (mark c).2) m;
  '(_, stack) ← StackPush stack (lexer_input m) false;
  setCharStream input (on_state (set_streams (Some stack)) m).
Definition popCharStream (m : LEXER) : outcome LEXER :=
  match streams (state m) with
  | None => Ok m
  | Some stack =>
      if 0 <? StackSize stack then
        let input := top stack in
        '(_, _, stack) ← StackPop stack;
        m ← setCharStream input (on_state (set_streams (Some stack)) m);
        on_input (rewindLast machineBigEndian) m
      else Ok m
  end.

(** [emitNew], [emit] *)
Definition emitNew (p : option token_ptr) (m : LEXER) : LEXER := on_state (set_token p) m.
Definition emit (m : LEXER) : outcome (token_ptr * LEXER) :=
  f ← deref (tokFactory m);
  '(i, j, f) ← newPoolToken f;
  let m := set_tokFactory (Some f) m in
  let s := state m in
  '(_, c) ← current m;
  here ← getCharIndex m;
  last ← shift here (-1);
  m ← change_token (λ t,
        mkToken (st_type s) (factoryMade t) (strFactory t) (u32 (tokenStartLine s))
          (Ptr (default 0%nat (lexer_input m)) (currentLine (chars c))) (tokenStartCharPositionInLine s)
          (st_channel s) (input t) (index t) (tokenStartCharIndex s) last
          (match st_text s with Some x => ANTLR3_TEXT_STRING x | None => ANTLR3_TEXT_NONE end)
          (st_user s) (st_custom s) (freeCustom t) (api t)) (InPool i j) m;
  Ok (InPool i j, on_state (set_token (Some (InPool i j))) m).

(** [reset] *)
Definition reset (m : LEXER) : outcome LEXER :=
  let m := on_state (λ s, set_token None (set_text None (set_tokenStart (Num (-1)) (-1) (-1)
             (mkState (token s) ANTLR3_TOKEN_INVALID ANTLR3_TOKEN_DEFAULT_CHANNEL (error s) (failed s)
                (errorCount s) (backtracking s) (tokenStartCharIndex s) (tokenStartCharPositionInLine s)
                (tokenStartLine s) (st_text s) (st_user s) (st_custom s) (streams s))))) m in
  match tokFactory m with
  | None => Ok m
  | Some f => f ← factoryReset f; Ok (set_tokFactory (Some f) m)
  end.

(** [recover], and the failing of a match: an exception outside of backtracking. *)
Definition recover (m : LEXER) : outcome LEXER := consume m.
Definition exConstruct (m : LEXER) : LEXER := on_state (λ s, set_flags true (failed s) s) m.
Definition matched (m : LEXER) : outcome (bool * LEXER) :=
  m ← consume m; Ok (true, on_state (λ s, set_flags (error s) false s) m).
Definition mismatched (mark_failed : bool) (m : LEXER) : outcome (bool * LEXER) :=
  if 0 <? backtracking (state m) then Ok (false, on_state (λ s, set_flags (error s) true s) m)
  else
    let m := exConstruct m in
    let m := if mark_failed then on_state (λ s, set_flags (error s) true s) m else m in
    m ← recover m; Ok (false, m).
(** [matchc], [matchRange], [matchAny] *)
Definition matchc (c : Z) (m : LEXER) : outcome (bool * LEXER) :=
  x ← LA1 m; if x =? c then matched m else mismatched false m.
Definition matchRange (low high : Z) (m : LEXER) : outcome (bool * LEXER) :=
  x ← LA1 m; if (low <=? x) && (x <=? high) then matched m else mismatched false m.
Definition matchAny (m : LEXER) : outcome LEXER := consume m.
(** [matchs]; the array ends before its terminator. *)
Fixpoint matchs (string : list Z) (m : LEXER) : outcome (bool * LEXER) :=
  match string with
  | [] => Ok (true, m)
  | c :: string =>
      x ← LA1 m;
      if x =? c then '(_, m) ← matched m; matchs string m else mismatched true m
  end.

(** [getText] of the lexer: the text that an action has set, or what the rule has
    read. *)
Definition lexer_getText (m : LEXER) : outcome (string_ptr * LEXER) :=
  match st_text (state m) with
  | Some x => Ok (x, m)
  | None =>
      '(_, c) ← current m;
      here ← getCharIndex m;
      last ← shift here (- charByteSize (chars c));
      substr (lexer_input m) (tokenStartCharIndex (state m)) last m
  end.

(** [reportError], without its output *)
Definition reportError (m : LEXER) : LEXER :=
  on_state (λ s, set_errorCount (u32 (errorCount s + 1)) s) m.

(** [nextTokenStr], with the rules of a generated lexer. A round of the loop that emits
    no token has skipped one or recovered from an error. The stream is looked up in
    front of the loop, also when the rules switch to another one. *)
Section rules.
Context (mTokens : LEXER → outcome LEXER).

Definition start_token (input : option nat) (m : LEXER) : outcome LEXER :=
  '(i, c) ← load_input input m;
  Ok (on_state (begin_token (Ptr i (nextChar (chars c))) (CharStreams.charPositionInLine (chars c))
                  (sint 32 (CharStreams.line (chars c)))) m).
Fixpoint nextTokenStr_loop (fuel : nat) (input : option nat) (m : LEXER) : outcome (token_ptr * LEXER) :=
  match fuel with
  | O => Undef NoFuel
  | S fuel =>
      m ← start_token input m;
      x ← peek input m;
      if x =? CHARSTREAM_EOF then
        here ← getCharIndex m;
        ln ← getLine m;
        Ok (EofToken, set_eofToken (set_factoryMade true
                        (setLine ln (setStopIndex here (setStartIndex here (eofToken m))))) m)
      else
        m ← mTokens (on_state (λ s, set_token None (set_flags false false s)) m);
        if error (state m) then
          m ← recover (reportError (on_state (λ s, set_flags (error s) true s) m));
          nextTokenStr_loop fuel input m
        else
          match token (state m) with
          | None => emit m
          | Some SkipToken => nextTokenStr_loop fuel input m
          | Some p => Ok (p, m)
          end
  end.
Definition nextTokenStr (fuel : nat) (m : LEXER) : outcome (token_ptr * LEXER) :=
  nextTokenStr_loop fuel (lexer_input m) (on_state (λ s, set_token None (set_flags false false s)) m).

(** [nextToken]: at the end of a stream the one that was pushed before it goes on. *)
Fixpoint lexer_nextToken (fuel : nat) (m : LEXER) : outcome (token_ptr * LEXER) :=
  match fuel with
  | O => Undef NoFuel
  | S n =>
      '(p, m) ← nextTokenStr fuel m;
      t ← load_token p m;
      if type t =? ANTLR3_TOKEN_EOF then
        if (match streams (state m) with Some s => 0 <? StackSize s | None => false end)
        then m ← popCharStream m; lexer_nextToken n m
        else Ok (p, m)
      else Ok (p, m)
  end.
End rules.
End machine.

(** [freeLexer]: the factory of the tokens is closed; the streams are not. *)
Definition freeLexer (customs : gset nat) (m : LEXER) : outcome (gset nat * list (list COMMON_TOKEN)) :=
  _ ← match streams (state m) with Some s => StackFree s | None => Ok [] end;
  match tokFactory m with Some f => factoryClose f customs | None => Ok (customs, []) end.
