(* ===== verification/TokenRefine.v ===== *)
(** What the tokens in memory are: the factory hands out its tokens in order, and a token
    that the lexer has emitted keeps the type, the channel and the text that the model of
    tokens as values, [Lexer.emit], gives it, whenever it is read. *)
From stdpp Require Import relations.
From S2P Require Import Prelude.
From S2P Require Import CppString.
From S2P Require Import Vector.
From S2P Require Import RtString.
From S2P Require Import CharStreams.
From S2P Require Import InputRefine.
From S2P Require Import TokenStore.
From S2P Require StringUTF8.
From S2P Require Lexer.

(** ** The factory *)

(** All pools are full arrays, and the next token is in the current one or behind it. *)
Record pools_ok (f : TOKEN_FACTORY) : Prop := {
  po_count : Z.of_nat (length (pools f)) = maxPool f + 1;
  po_size : Forall (λ l, length l = 1024%nat) (pools f);
  po_this : 0 ≤ thisPool f ≤ maxPool f;
  po_next : 0 ≤ nextToken f ≤ 1024
}.
(** The tokens are numbered through all pools; what is not there yet is as [calloc]
    leaves it. *)
Definition number (i j : nat) : nat := i * 1024 + j.
Definition place_of (k : nat) : nat * nat := (k / 1024, k mod 1024)%nat.
Definition token_no (f : TOKEN_FACTORY) (k : nat) : COMMON_TOKEN :=
  default zeroed (pools f !! (place_of k).1 ≫= lookup (place_of k).2).
Definition position (f : TOKEN_FACTORY) : nat := number (Z.to_nat (thisPool f)) (Z.to_nat (nextToken f)).

Lemma place_number k : number (place_of k).1 (place_of k).2 = k.
Proof. unfold number, place_of. cbn [fst snd]. pose proof (Nat.div_mod_eq k 1024). lia. Qed.
Lemma number_place i j : (j < 1024)%nat → place_of (number i j) = (i, j).
Proof.
  intros Hj. unfold place_of, number. rewrite Nat.add_comm, Nat.div_add, Nat.Div0.mod_add by lia.
  by rewrite Nat.div_small, Nat.mod_small by done.
Qed.
Lemma pool_token_no f i j :
  (j < 1024)%nat → pools_ok f → (i < length (pools f))%nat → pool_token f i j = Ok (token_no f (number i j)).
Proof.
  intros Hj H Hi. unfold pool_token, token_no. rewrite number_place by done. cbn [fst snd].
  destruct (lookup_lt_is_Some_2 (pools f) i Hi) as [l Hl]. rewrite Hl. cbn.
  pose proof (Forall_lookup_1 _ _ _ _ (po_size _ H) Hl) as Hlen. cbn in Hlen.
  by destruct (lookup_lt_is_Some_2 l j) as [t ->]; [lia|].
Qed.
Lemma pool_token_inv f i j t : pools_ok f → pool_token f i j = Ok t → (j < 1024)%nat ∧ (i < length (pools f))%nat.
Proof.
  intros H. unfold pool_token. destruct (pools f !! i) as [l|] eqn:Hl; [|done]. cbn.
  destruct (l !! j) as [x|] eqn:Hx; [|done]. intros _.
  pose proof (Forall_lookup_1 _ _ _ _ (po_size _ H) Hl) as Hlen. cbn in Hlen.
  split; [apply lookup_lt_Some in Hx; lia|by eapply lookup_lt_Some].
Qed.
Lemma write_pool_ok f i j t :
  pools_ok f → (j < 1024)%nat → (i < length (pools f))%nat →
  ∃ f', write_pool i j t f = Ok f' ∧ pools_ok f' ∧ thisPool f' = thisPool f ∧ nextToken f' = nextToken f ∧
    finput f' = finput f ∧ length (pools f') = length (pools f) ∧
    ∀ k, token_no f' k = if decide (k = number i j) then t else token_no f k.
Proof.
  intros H Hj Hi. unfold write_pool. rewrite pool_token_no by done. cbn [mbind outcome_bind].
  eexists. split; [done|]. cbn. split_and!; try done.
  - split; cbn; try apply H; [by rewrite length_alter; apply H|].
    apply Forall_alter; [apply H|]. intros l Hl E. by rewrite length_insert.
  - by rewrite length_alter.
  - intros k. unfold token_no. cbn [pools]. pose proof (place_number k) as Hn.
    assert (Hj' : ((place_of k).2 < 1024)%nat) by by apply Nat.mod_upper_bound.
    destruct (place_of k) as [i' j']. cbn [fst snd] in *. subst k.
    destruct (decide (i' = i)) as [->|Hne].
    + rewrite list_lookup_alter_eq. destruct (lookup_lt_is_Some_2 (pools f) i Hi) as [l Hl]. rewrite Hl.
      cbn [fmap option_fmap option_map mbind option_bind].
      pose proof (Forall_lookup_1 _ _ _ _ (po_size _ H) Hl) as Hlen. cbn in Hlen.
      destruct (decide (number i j' = number i j)) as [E|E].
      * unfold number in E. assert (j' = j) as -> by lia. by rewrite list_lookup_insert_eq by lia.
      * by rewrite list_lookup_insert_ne by (by intros ->).
    + rewrite list_lookup_alter_ne by done. rewrite decide_False; [done|].
      intros E. apply Hne. unfold number in E. lia.
Qed.

(** A pool more, or the next one that is there. *)
Lemma newPool_inv f f' :
  newPool f = Ok f' → Z.of_nat (length (pools f)) = maxPool f + 1 →
  Forall (λ l, length l = 1024%nat) (pools f) → -1 ≤ thisPool f ≤ maxPool f →
  pools_ok f' ∧ thisPool f' = thisPool f + 1 ∧ nextToken f' = 0 ∧
    finput f' = finput f ∧ unTruc f' = unTruc f ∧ ∀ k, token_no f' k = token_no f k.
Proof.
  intros E Hc Hs Ht. unfold newPool, int_op in E. destruct (int_ok _); [|done]. cbn [mbind outcome_bind] in E.
  destruct (Z.ltb_spec (maxPool f) (thisPool f + 1)).
  - destruct (_ <? _); [done|]. injection E as <-. split_and!; try done.
    + split; cbn -[empty_pool]; [rewrite length_app; cbn -[empty_pool]; lia| |lia|lia].
      apply Forall_app. split; [done|]. by apply Forall_singleton.
    + intros k. unfold token_no. cbn [pools]. destruct (place_of k) as [i j] eqn:Ek. cbn [fst snd].
      destruct (decide (i < length (pools f))%nat); [by rewrite lookup_app_l|].
      rewrite (lookup_ge_None_2 (pools f)) by lia. rewrite lookup_app_r by lia. cbn -[empty_pool].
      destruct (i - length (pools f))%nat as [|d]; cbn -[empty_pool]; [|by destruct d].
      destruct (empty_pool !! j) as [t|] eqn:Et; [|done]. by apply lookup_replicate in Et as [-> _].
  - injection E as <-. cbn. split_and!; try done. split; cbn; try done; lia.
Qed.
Lemma token_newPool_ok f : -1 ≤ thisPool f → thisPool f + 1 < 2 ^ 28 → ∃ f', newPool f = Ok f'.
Proof.
  intros Ht Hb. unfold newPool. rewrite int_op_ok by (unfold INT_MIN, INT_MAX; lia). cbn [mbind outcome_bind].
  rewrite u32_small by lia. rewrite Z.ltb_irrefl. destruct (_ <? _); eauto.
Qed.

(** A token as the factory initialises it. *)
Definition fresh_token (i : option nat) (t : COMMON_TOKEN) : COMMON_TOKEN :=
  if api t then t else set_input i (set_strFactory i (set_factoryMade true (SetTokenAPI t))).

Lemma newPoolToken_inv f p f' :
  newPoolToken f = Ok (p, f') → pools_ok f →
  p = place_of (position f) ∧ pools_ok f' ∧ position f' = S (position f) ∧ finput f' = finput f ∧
    ∀ k, token_no f' k = if decide (k = position f) then fresh_token (finput f) (token_no f k) else token_no f k.
Proof.
  intros E H. pose proof (po_this _ H) as Hth. pose proof (po_next _ H) as Hnx. unfold newPoolToken in E.
  destruct (if ANTLR3_FACTORY_POOL_SIZE <=? nextToken f then newPool f else Ok f) as [f1| |] eqn:E1; [|done..].
  assert (A : pools_ok f1 ∧ position f1 = position f ∧ nextToken f1 < 1024 ∧ finput f1 = finput f ∧
    ∀ k, token_no f1 k = token_no f k).
  { unfold ANTLR3_FACTORY_POOL_SIZE in E1. destruct (Z.leb_spec 1024 (nextToken f)) as [Hn|Hn].
    - destruct (newPool_inv f f1 E1) as (H1 & Ht & Hnt & Hf & _ & Hk); [apply H|apply H|lia|].
      split_and!; try done; [|lia]. unfold position, number. rewrite Ht, Hnt. lia.
    - by injection E1 as <-. }
  destruct A as (H1 & <- & Hn1 & Hf1 & Hk1). cbn [mbind outcome_bind] in E.
  pose proof (po_this _ H1) as Hth1. pose proof (po_next _ H1) as Hnx1. pose proof (po_count _ H1) as Hct1.
  set (i := Z.to_nat (thisPool f1)) in *. set (j := Z.to_nat (nextToken f1)) in *.
  assert (Hj : (j < 1024)%nat) by lia. assert (Hi : (i < length (pools f1))%nat) by lia.
  rewrite pool_token_no in E by done. cbn [mbind outcome_bind] in E.
  change (number i j) with (position f1) in E. rewrite Hk1 in E.
  rewrite (u32_small (nextToken f1 + 1)) in E by lia.
  set (f2 := mkTokenFactory (pools f1) _ _ _ _ _) in E.
  assert (H2 : pools_ok f2) by (split; cbn; try apply H1; lia).
  assert (Hp2 : position f2 = S (position f1)) by (unfold position, number; cbn; lia).
  assert (Hpl : place_of (position f1) = (i, j)) by by apply number_place.
  unfold fresh_token. destruct (api (token_no f (position f1))) eqn:Ea.
  - injection E as <- <-. rewrite Hpl. split_and!; try done. intros k. rewrite <-Hk1. case_decide as Ek; [|done].
    subst k. rewrite Hk1, Ea. exact (Hk1 _).
  - destruct (write_pool_ok f2 i j (set_input (finput f2) (set_strFactory (finput f2)
      (set_factoryMade true (SetTokenAPI (token_no f (position f1))))))) as (f3 & E3 & H3 & T1 & T2 & T3 & _ & Hk3); [done..|].
    rewrite E3 in E. cbn [mbind outcome_bind] in E. injection E as <- <-. rewrite Hpl. split_and!; try done.
    + by rewrite <-Hp2; unfold position; rewrite T1, T2.
    + by rewrite T3.
    + intros k. rewrite Hk3. change (number i j) with (position f1). case_decide as Ek; [|by rewrite <-Hk1].
      subst k. rewrite Ea. cbn [finput f2]. by rewrite Hf1.
Qed.
Lemma newPoolToken_ok f :
  pools_ok f → thisPool f + 1 < 2 ^ 28 → ∃ p f', newPoolToken f = Ok (p, f').
Proof.
  intros H Hb. pose proof (po_this _ H) as Hth. pose proof (po_next _ H) as Hnx. unfold newPoolToken.
  assert (A : ∃ f1, (if ANTLR3_FACTORY_POOL_SIZE <=? nextToken f then newPool f else Ok f) = Ok f1 ∧ pools_ok f1 ∧
    nextToken f1 < 1024).
  { unfold ANTLR3_FACTORY_POOL_SIZE. destruct (Z.leb_spec 1024 (nextToken f)) as [Hn|Hn].
    - destruct (token_newPool_ok f) as (f1 & E1); [lia|done|]. exists f1. split; [done|].
      destruct (newPool_inv f f1 E1) as (H1 & Ht & Hnt & _); [apply H|apply H|lia|]. split; [done|lia].
    - by exists f. }
  destruct A as (f1 & -> & H1 & Hn1). cbn [mbind outcome_bind].
  pose proof (po_this _ H1). pose proof (po_next _ H1). pose proof (po_count _ H1).
  rewrite pool_token_no by (done || lia). cbn [mbind outcome_bind]. destruct (api _); [by eexists _, _|].
  set (f2 := mkTokenFactory (pools f1) _ _ _ _ _).
  destruct (write_pool_ok f2 (Z.to_nat (thisPool f1)) (Z.to_nat (nextToken f1)) (set_input (finput f2) (set_strFactory (finput f2)
    (set_factoryMade true (SetTokenAPI (token_no f1 (number (Z.to_nat (thisPool f1)) (Z.to_nat (nextToken f1)))))))))
    as (f3 & E3 & _).
  - split; cbn; try apply H1. rewrite u32_small; lia.
  - lia.
  - cbn. lia.
  - rewrite E3. by eexists _, _.
Qed.

(** Tokens that are asked for one after the other. *)
Fixpoint take_tokens (n : nat) (f : TOKEN_FACTORY) : outcome (list (nat * nat) * TOKEN_FACTORY) :=
  match n with
  | O => Ok ([], f)
  | S n => '(p, f) ← newPoolToken f; '(ps, f) ← take_tokens n f; Ok (p :: ps, f)
  end.

Lemma take_tokens_ok n f :
  pools_ok f → Z.of_nat (position f + n) + 1 < 2 ^ 28 →
  ∃ f', take_tokens n f = Ok (place_of <$> seq (position f) n, f') ∧ pools_ok f' ∧
    position f' = (position f + n)%nat ∧
    ∀ k, token_no f' k = if decide (position f ≤ k < position f + n)%nat then fresh_token (finput f) (token_no f k)
                         else token_no f k.
Proof.
  revert f. induction n as [|n IH]; intros f H Hb.
  { exists f. split_and!; [done|done|lia|]. intros k. by rewrite decide_False by lia. }
  assert (thisPool f ≤ Z.of_nat (position f)).
  { pose proof (po_this _ H). unfold position, number. lia. }
  destruct (newPoolToken_ok f H) as (p & f1 & E); [lia|]. cbn [take_tokens]. rewrite E. cbn [mbind outcome_bind].
  destruct (newPoolToken_inv _ _ _ E H) as (-> & H1 & Hp1 & Hf1 & Hk1).
  destruct (IH f1 H1) as (f' & E' & H' & Hp' & Hk'); [lia|]. rewrite E', Hp1. cbn [mbind outcome_bind].
  exists f'. split_and!; [done|done|lia|]. intros k. rewrite Hk', Hk1, Hp1, Hf1.
  repeat case_decide; try done; try lia.
Qed.

(** The factory of tokens hands them out in the order of its pools, each one once.
    After a reset, and for a new factory, the tokens that are asked for are those with
    the numbers 0, 1, 2, ..., in pools of 1024; each of them is initialised, for the
    stream that is current, unless it was handed out before the reset: then it is as it
    was left. No other token is touched. *)
Theorem factory_hands_out f n :
  pools_ok f → Z.of_nat n + 1 < 2 ^ 28 →
  ∃ f', (f ← factoryReset f; take_tokens n f) = Ok (place_of <$> seq 0 n, f') ∧ pools_ok f' ∧
    ∀ k, token_no f' k = if decide (k < n)%nat then fresh_token (finput f) (token_no f k) else token_no f k.
Proof.
  intros H Hn. pose proof (po_this _ H). unfold factoryReset. set (f0 := mkTokenFactory _ _ _ _ _ _).
  destruct (token_newPool_ok f0) as [f1 E1]; [done|done|]. rewrite E1. cbn [mbind outcome_bind].
  destruct (newPool_inv f0 f1 E1) as (H1 & Ht & Hnt & Hf & _ & Hk); [apply H|apply H|cbn; lia|].
  assert (Hp : position f1 = 0%nat) by (unfold position, number; by rewrite Ht, Hnt).
  destruct (take_tokens_ok n f1 H1) as (f' & E' & H' & _ & Hk'); [lia|]. rewrite Hp in *.
  exists f'. split_and!; [done|done|]. intros k. rewrite Hk', Hf, Hk. repeat case_decide; try done; lia.
Qed.
Lemma TokenFactoryNew_ok i :
  ∃ f, TokenFactoryNew i = Ok f ∧ pools_ok f ∧ position f = 0%nat ∧ finput f = i ∧ ∀ k, token_no f k = zeroed.
Proof.
  unfold TokenFactoryNew. set (f0 := mkTokenFactory _ _ _ _ _ _). destruct (token_newPool_ok f0) as [f1 E1]; [done|done|].
  rewrite E1. cbn [mbind outcome_bind]. destruct (newPool_inv f0 f1 E1) as (H1 & Ht & Hnt & _ & _ & Hk); [done|constructor|done|].
  eexists. split; [done|]. split_and!; [split; apply H1| |done|].
  - unfold position, number. cbn. by rewrite Ht, Hnt.
  - intros k. change (token_no f1 k = zeroed). rewrite (Hk k). done.
Qed.
Lemma factory_hands_out_witness :
  ∃ f f', TokenFactoryNew (Some 3%nat) = Ok f ∧
    (f ← factoryReset f; take_tokens 1030 f) = Ok (place_of <$> seq 0 1030, f') ∧
    token_no f' 1029 = fresh_token (Some 3%nat) zeroed ∧ place_of 1029 = (1%nat, 5%nat).
Proof.
  destruct (TokenFactoryNew_ok (Some 3%nat)) as (f & E & H & _ & Hi & Hk).
  destruct (factory_hands_out f 1030 H) as (f' & E' & _ & Hk'); [lia|]. exists f, f'.
  split_and!; [done|done| |done]. by rewrite Hk', decide_True, Hi, Hk by lia.
Defined.

(** ** The text of a token *)
Section lexer.
Context (big : bool) (address : nat → Z).

(** What a lexer and its clients do while the token [p] is in use: emit tokens, read
    texts and print tokens, [p] among them, move in the streams, change the state, switch
    to other streams, write to other tokens. *)
Inductive op (p : token_ptr) (m : LEXER) : LEXER → Prop :=
| op_emit q m' : emit address m = Ok (q, m') → op p m m'
| op_getText q x m' : getText big address q m = Ok (x, m') → op p m m'
| op_toString q x m' : toString big address q m = Ok (x, m') → op p m m'
| op_input g m' :
    (∀ c c', g c = Ok c' → data c' = data c ∧ seek_fn c' = seek_fn c) → on_input g m = Ok m' → op p m m'
| op_state g : op p m (on_state g m)
| op_stream i m' : setCharStream i m = Ok m' → op p m m'
| op_write q g m' : q ≠ p → change_token g q m = Ok m' → op p m m'.

(** The pool token number [k] is [t], was handed out, and its text is in the stream
    [i]. *)
Record kept (i : nat) (d : list Z) (k : nat) (t : COMMON_TOKEN) (m : LEXER) : Prop := {
  kp_factory : ∃ f, tokFactory m = Some f ∧ pools_ok f ∧ (k < position f)%nat ∧ token_no f k = t;
  kp_input : ∃ s, inputs m !! i = Some s ∧ data (chars s) = d ∧ seek_fn (chars s) = antlr38BitSeek
}.
Definition pool_ptr (k : nat) : token_ptr := InPool (place_of k).1 (place_of k).2.

Lemma pool_ptr_inj i j k : (j < 1024)%nat → InPool i j = pool_ptr k → number i j = k.
Proof. intros Hj [= -> ->]. apply place_number. Qed.
Lemma kept_load i d k t m : kept i d k t m → load_token (pool_ptr k) m = Ok t.
Proof.
  intros [(f & Hf & Hok & Hk & Ht) _]. unfold load_token, pool_ptr. rewrite Hf, pool_token_no; [by rewrite place_number, Ht|..].
  - by apply Nat.mod_upper_bound.
  - done.
  - pose proof (po_count _ Hok). pose proof (po_this _ Hok). pose proof (po_next _ Hok).
    pose proof (place_number k) as Hn. unfold position, number in *. lia.
Qed.

(** Streams may gain strings, and be read further. *)
Definition same_text (m m' : LEXER) : Prop :=
  ∀ i s, inputs m !! i = Some s → ∃ s', inputs m' !! i = Some s' ∧
    data (chars s') = data (chars s) ∧ seek_fn (chars s') = seek_fn (chars s).
Lemma kept_same_text i d k t m m' :
  kept i d k t m → tokFactory m' = tokFactory m → same_text m m' → kept i d k t m'.
Proof.
  intros [Hf (s & Hs & <- & Hk)] E H. split; [by rewrite E|].
  destruct (H i s Hs) as (s' & ? & ? & ?). exists s'. split_and!; [done|done|congruence].
Qed.
Lemma same_text_refl m m' : inputs m' = inputs m → same_text m m'.
Proof. intros E i s Hs. exists s. by rewrite E. Qed.
Lemma same_text_trans m1 m2 m3 : same_text m1 m2 → same_text m2 m3 → same_text m1 m3.
Proof.
  intros H1 H2 i s Hs. destruct (H1 i s Hs) as (s1 & E1 & D1 & K1). destruct (H2 i s1 E1) as (s2 & E2 & D2 & K2).
  exists s2. split_and!; [done|congruence|congruence].
Qed.
Lemma store_input_text i s s' m :
  inputs m !! i = Some s → data (chars s') = data (chars s) → seek_fn (chars s') = seek_fn (chars s) →
  same_text m (store_input i s' m).
Proof.
  intros Hs Hd Hk j x Hx. cbn. destruct (decide (j = i)) as [->|].
  - exists s'. rewrite lookup_insert_eq. split; [done|]. assert (x = s) as -> by congruence. done.
  - exists x. by rewrite lookup_insert_ne.
Qed.
Lemma load_input_Ok i m n s : load_input i m = Ok (n, s) → i = Some n ∧ inputs m !! n = Some s.
Proof. unfold load_input. destruct i as [i|]; [|done]. cbn. destruct (inputs m !! i) eqn:E; [|done]. by intros [= <- <-]. Qed.

(** The operations on strings leave the tokens and the texts alone. *)
Definition quiet_on_tokens (m m' : LEXER) : Prop := tokFactory m' = tokFactory m ∧ same_text m m'.
Lemma tokens_quiet_refl m : quiet_on_tokens m m.
Proof. split; [done|by apply same_text_refl]. Qed.
Lemma tokens_quiet_trans m1 m2 m3 : quiet_on_tokens m1 m2 → quiet_on_tokens m2 m3 → quiet_on_tokens m1 m3.
Proof. intros [E1 H1] [E2 H2]. split; [congruence|by eapply same_text_trans]. Qed.
Lemma with_strings_quiet {A} i (g : STRING_FACTORY → outcome (A * STRING_FACTORY)) m a m' :
  with_strings i g m = Ok (a, m') → quiet_on_tokens m m'.
Proof.
  unfold with_strings. destruct (load_input i m) as [[n s]| |] eqn:E; [|done..]. cbn.
  apply load_input_Ok in E as [_ Hs]. destruct (strings s) as [f|]; [|done]. cbn.
  destruct (g f) as [[b f']| |]; [|done..]. cbn. intros [= _ <-]. split; [done|]. by eapply store_input_text.
Qed.
Lemma new_string_quiet i l m x m' : new_string i l m = Ok (x, m') → quiet_on_tokens m m'.
Proof.
  unfold new_string. destruct (with_strings i _ m) as [[p m1]| |] eqn:E; [|done..]. cbn.
  destruct i as [i|]; [|done]. cbn. intros [= _ <-]. by eapply with_strings_quiet.
Qed.
Lemma substr_quiet i a b m x m' : substr big address i a b m = Ok (x, m') → quiet_on_tokens m m'.
Proof.
  unfold substr. destruct (load_input i m) as [[n s]| |]; [|done..]. cbn [mbind outcome_bind].
  destruct (int_op _) as [len| |]; [|done..]. cbn [mbind outcome_bind].
  match goal with |- ?o ≫= _ = _ → _ => destruct o; [|done..] end. cbn [mbind outcome_bind].
  destruct (pointer address a) as [[[j o]|]| |]; [| |done..]; cbn [mbind outcome_bind].
  - destruct (load_input (Some j) m) as [[? t]| |]; [|done..]. cbn [mbind outcome_bind].
    destruct (with_strings i _ m) as [[p m1]| |] eqn:E; [|done..]. cbn. intros [= _ <-]. by eapply with_strings_quiet.
  - destruct (with_strings i _ m) as [[p m1]| |] eqn:E; [|done..]. cbn.
    intros [= _ <-]. by eapply with_strings_quiet.
Qed.

(** Writing to another token. *)
Lemma change_other i d k t m q g m' :
  kept i d k t m → q ≠ pool_ptr k → change_token g q m = Ok m' → kept i d k t m'.
Proof.
  intros Hkp Hne E. unfold change_token in E. destruct (load_token q m) as [x| |] eqn:El; [|done..]. cbn in E.
  destruct Hkp as [(f & Hf & Hok & Hk & Ht) Hin]. destruct q as [i' j'| | |n]; cbn in E, El.
  - rewrite Hf in E, El. destruct (pool_token_inv _ _ _ _ Hok El) as [Hj Hi].
    destruct (write_pool_ok f i' j' (g x) Hok Hj Hi) as (f' & E' & Hok' & T1 & T2 & _ & _ & Hno). rewrite E' in E.
    cbn in E. injection E as <-. split; [|done]. exists f'. split_and!; [done|done| |].
    + unfold position in *. by rewrite T1, T2.
    + rewrite Hno, decide_False; [done|]. intros ->. apply Hne. unfold pool_ptr. by rewrite number_place.
  - injection E as <-. by split; [exists f|].
  - injection E as <-. by split; [exists f|].
  - rewrite El in E || (destruct (alone m !! n); [|done]). injection E as <-. by split; [exists f|].
Qed.

Lemma getText_kept i d k t m q x m' :
  kept i d k t m → tokText t = ANTLR3_TEXT_NONE → type t ≠ ANTLR3_TOKEN_EOF →
  getText big address q m = Ok (x, m') → kept i d k t m'.
Proof.
  intros Hkp Htx Hty E. unfold getText in E. destruct (load_token q m) as [y| |] eqn:El; [|done..].
  cbn [mbind outcome_bind] in E.
  assert (Hq : q = pool_ptr k → y = t).
  { intros ->. rewrite (kept_load _ _ _ _ _ Hkp) in El. congruence. }
  assert (Hw : ∀ m1 g, kept i d k t m1 → y ≠ t → change_token g q m1 = Ok m' → kept i d k t m').
  { intros m1 g H1 Hne. eapply change_other; [done|]. intros Eq. by apply Hne, Hq. }
  destruct (tokText y) as [|l|z] eqn:Ety.
  - destruct (Z.eqb_spec (type y) ANTLR3_TOKEN_EOF) as [He|He].
    + destruct (new_string _ _ m) as [[z m1]| |] eqn:En; [|done..]. cbn [mbind outcome_bind] in E.
      apply new_string_quiet in En as [En1 En2].
      destruct (change_token _ q m1) as [m2| |] eqn:Ec; [|done..]. injection E as <- ->.
      eapply Hw; [by eapply kept_same_text|by intros ->|done].
    + destruct (input y); [|by injection E as <- <-].
      destruct (getStartIndex _ y m); [|done..]. cbn [mbind outcome_bind] in E.
      destruct (substr _ _ _ _ _ m) as [[z m1]| |] eqn:Es; [|done..]. injection E as <- <-.
      apply substr_quiet in Es as [? ?]. by eapply kept_same_text.
  - destruct (strFactory y); [|by injection E as <- <-].
    destruct (new_string _ _ m) as [[z m1]| |] eqn:En; [|done..]. cbn [mbind outcome_bind] in E.
    apply new_string_quiet in En as [En1 En2].
    destruct (change_token _ q m1) as [m2| |] eqn:Ec; [|done..]. injection E as <- ->.
    eapply Hw; [by eapply kept_same_text|intros ->; congruence|done].
  - by injection E as <- <-.
Qed.
Lemma toString_kept i d k t m q x m' :
  kept i d k t m → tokText t = ANTLR3_TEXT_NONE → type t ≠ ANTLR3_TOKEN_EOF →
  toString big address q m = Ok (x, m') → kept i d k t m'.
Proof.
  intros Hkp Htx Hty E. unfold toString in E. destruct (getText big address q m) as [[z m1]| |] eqn:Eg; [|done..].
  cbn [mbind outcome_bind] in E. pose proof (getText_kept _ _ _ _ _ _ _ _ Hkp Htx Hty Eg) as H1.
  destruct z as [[j z]|]; [|by injection E as <- <-].
  destruct (load_token q m1); [|done..]. cbn [mbind outcome_bind] in E.
  destruct (getStartIndex _ _ m1); [|done..]. cbn [mbind outcome_bind] in E.
  destruct (with_strings _ _ m1) as [[n m2]| |] eqn:Ew; [|done..]. injection E as <- <-.
  apply with_strings_quiet in Ew as [? ?]. by eapply kept_same_text.
Qed.

(** [emit] takes the next token, which is not one that was handed out. *)
Lemma kept_store i d k t m f' :
  kept i d k t m → pools_ok f' → (k < position f')%nat → token_no f' k = t → kept i d k t (set_tokFactory (Some f') m).
Proof. intros [_ Hin] H Hk Ht. split; [by exists f'|exact Hin]. Qed.
Lemma emit_kept i d k t m q m' : kept i d k t m → emit address m = Ok (q, m') → kept i d k t m'.
Proof.
  intros Hkp E. pose proof Hkp as [(f & Hf & Hok & Hk & Ht) _]. unfold emit in E. rewrite Hf in E. cbn [deref mbind outcome_bind] in E.
  destruct (newPoolToken f) as [[p f']| |] eqn:En; [|done..]. destruct p as [i' j'].
  destruct (newPoolToken_inv _ _ _ En Hok) as (Hp & Hok' & Hpos & _ & Hno). cbn [mbind outcome_bind] in E.
  assert (H1 : kept i d k t (set_tokFactory (Some f') m)).
  { apply kept_store; [done..|lia|]. by rewrite Hno, decide_False by lia. }
  destruct (current _) as [[n c]| |]; [|done..]. cbn [mbind outcome_bind] in E.
  destruct (getCharIndex _) as [here| |]; [|done..]. cbn [mbind outcome_bind] in E.
  destruct (shift _ _ _) as [last| |]; [|done..]. cbn [mbind outcome_bind] in E.
  destruct (change_token _ (InPool i' j') _) as [m1| |] eqn:Ec; [|done..]. injection E as _ <-.
  eapply change_other in Ec; [|exact H1|].
  - eapply kept_same_text; [exact Ec|done|by apply same_text_refl].
  - intros [= -> ->]. assert (Hpk : place_of k = place_of (position f)) by by rewrite <-Hp.
    assert (k = position f); [|lia]. rewrite <-(place_number k), <-(place_number (position f)). by rewrite Hpk.
Qed.
Lemma setCharStream_kept i d k t m j m' : kept i d k t m → setCharStream j m = Ok m' → kept i d k t m'.
Proof.
  intros Hkp E. pose proof Hkp as [(f & Hf & Hok & Hk & Ht) _]. unfold setCharStream in E.
  destruct (load_input j _) as [[n s]| |]; [|done..]. cbn [mbind outcome_bind tokFactory set_lexer_input] in E.
  rewrite Hf in E. cbn [mbind outcome_bind] in E. injection E as <-.
  assert (H1 : kept i d k t (set_tokFactory (Some (factory_setInputStream j f)) m)).
  { apply kept_store; [done| |done|done]. split; apply Hok. }
  eapply kept_same_text; [exact H1|..]; destruct (src_strFactory _); try destruct (strFactory _); try done;
    by apply same_text_refl.
Qed.
Lemma op_kept i d k t m m' :
  kept i d k t m → tokText t = ANTLR3_TEXT_NONE → type t ≠ ANTLR3_TOKEN_EOF → op (pool_ptr k) m m' → kept i d k t m'.
Proof.
  intros Hkp Htx Hty [q m1 E|q x m1 E|q x m1 E|g m1 Hg E|g|j m1 E|q g m1 Hne E].
  - by eapply emit_kept.
  - by eapply getText_kept.
  - by eapply toString_kept.
  - unfold on_input, current in E. destruct (load_input _ m) as [[n s]| |] eqn:El; [|done..].
    apply load_input_Ok in El as [_ Hs]. cbn [mbind outcome_bind] in E.
    destruct (g (chars s)) as [c| |] eqn:Eg; [|done..]. cbn in E. injection E as <-.
    destruct (Hg _ _ Eg). eapply kept_same_text; [exact Hkp|done|]. by eapply store_input_text.
  - eapply kept_same_text; [exact Hkp|done|by apply same_text_refl].
  - by eapply setCharStream_kept.
  - by eapply change_other.
Qed.

(** *** Reading the text *)
Lemma newPtr_newStr f b l :
  read_chars b 0 (Z.of_nat (length l)) = Ok (Some <$> l) → Z.of_nat (length l) < 2 ^ 30 →
  newPtr f (Some b) (Z.of_nat (length l)) = newStr f l.
Proof.
  intros Hb Hl. unfold newStr, newPtr. rewrite strlen_small by done.
  by rewrite Hb, (StringUTF8.read_text (terminated l) l [Some 0]).
Qed.

(** The strings of a stream, of characters of one byte, have room for one more. *)
Definition roomy (i : nat) (m : LEXER) : Prop :=
  ∃ s f ps, inputs m !! i = Some s ∧ strings s = Some f ∧ factory_ok f ps ∧ Z.of_nat (length ps) < 2 ^ 30 ∧ RtString.api f = 1.
Definition string_at (x : string_ptr) (m : LEXER) : option STRING :=
  s ← inputs m !! x.1; f ← strings s; store f !! x.2.

(** The text of a stream is in the first 2 GB of the memory, so that a marker holds the
    address of each of its characters. *)
Definition low (i : nat) (d : list Z) : Prop := 0 < address i ∧ address i + Z.of_nat (length d) < 2 ^ 31.
Lemma value_low i d o : low i d → -1 ≤ o ≤ Z.of_nat (length d) → value address (Ptr i o) = address i + o.
Proof. intros [? ?] ?. cbn. apply sint_small; lia. Qed.

Lemma substr_ok i a w post m s pre :
  inputs m !! i = Some s → seek_fn (chars s) = antlr38BitSeek → roomy i m → data (chars s) = pre ++ w ++ post →
  low i (data (chars s)) → a = Z.of_nat (length pre) → Forall (char_ok 1) w → Z.of_nat (length w) + 1 < 2 ^ 30 →
  ∃ q m' x, substr big address (Some i) (Ptr i a) (Ptr i (a + Z.of_nat (length w) - 1)) m = Ok ((i, q), m') ∧
    string_at (i, q) m' = Some x ∧ text x w.
Proof.
  intros Hs Hk (s' & f & ps & Hs' & Hf & Hok & Hps & Ha) Hd Hlow -> Hw Hl. assert (s' = s) as -> by congruence.
  destruct (newStr_ok f ps w) as (p & f' & x & E & _ & _ & _ & Hst & Htx);
    [done|done|by left|by rewrite Ha|done|].
  unfold substr, with_strings, load_input. cbn [deref mbind outcome_bind]. rewrite Hs. cbn [mbind outcome_bind].
  assert (Hsz : Z.of_nat (length (data (chars s))) = Z.of_nat (length pre) + Z.of_nat (length w) + Z.of_nat (length post)).
  { rewrite Hd, !length_app. lia. }
  pose proof Hlow as [Hlow1 Hlow2].
  rewrite !(value_low i (data (chars s))) by (done || lia). rewrite int_op_ok by (unfold INT_MIN, INT_MAX; lia).
  cbn [mbind outcome_bind]. rewrite Hk, int_op_ok by (unfold INT_MIN, INT_MAX; lia). cbn [mbind outcome_bind].
  unfold pointer. rewrite (value_low i (data (chars s))) by (done || lia).
  destruct (Z.eqb_spec (address i + Z.of_nat (length pre)) 0); [lia|]. rewrite Z.eqb_refl.
  cbn [mbind outcome_bind deref]. rewrite Hs. cbn [mbind outcome_bind].
  rewrite Hf. cbn [deref mbind outcome_bind]. unfold antlr38BitSubstr.
  match goal with |- context [u32 ?e] => replace e with (Z.of_nat (length w)) by lia end.
  rewrite u32_small by lia. rewrite Hd, Nat2Z.id, drop_app_length.
  rewrite (newPtr_newStr f _ w); [|by apply (StringUTF8.read_text _ _ (Some <$> post)); rewrite fmap_app|lia].
  rewrite E. cbn [mbind outcome_bind]. eexists p, _, x. split; [done|]. split; [|by apply Htx; right].
  unfold string_at. cbn. rewrite lookup_insert_eq. cbn. by rewrite Hst, lookup_insert_eq.
Qed.

(** The lexer in memory is where the model of it is, which has just read a token that
    started in front of [start], and its factory is not being used again. *)
Record ready (i : nat) (start w : str) (l : Lexer.LEXER) (m : LEXER) : Prop := {
  rd_input : lexer_input m = Some i;
  rd_stream : ∃ s, inputs m !! i = Some s ∧ refines (Lexer.input l) (chars s) ∧ seek_fn (chars s) = antlr38BitSeek ∧
                low i (data (chars s));
  rd_factory : ∃ f, tokFactory m = Some f ∧ pools_ok f ∧ thisPool f + 1 < 2 ^ 28 ∧ finput f = Some i ∧
                 TokenStore.api (token_no f (position f)) = false;
  rd_type : st_type (state m) = Lexer.type l ∧ Lexer.type l ≠ ANTLR3_TOKEN_EOF;
  rd_channel : st_channel (state m) = Lexer.channel l;
  rd_text : st_text (state m) = None;
  rd_start : ∃ a, tokenStartCharIndex (state m) = Ptr i a ∧ points (InputStream.data (Lexer.input l)) start a;
  rd_word : start = w ++ InputStream.nextChar (Lexer.input l);
  rd_nul : nul ∉ w;
  rd_small : Z.of_nat (length w) + 1 < 2 ^ 30
}.

Lemma emit_ok i start w l m :
  ready i start w l m →
  ∃ d k t m1 pre post, emit address m = Ok (pool_ptr k, m1) ∧ kept i d k t m1 ∧
    type t = Lexer.type l ∧ channel t = Lexer.channel l ∧ tokText t = ANTLR3_TEXT_NONE ∧ input t = Some i ∧
    low i d ∧ d = pre ++ codes w ++ post ∧ TokenStore.start t = Ptr i (Z.of_nat (length pre)) ∧
    stop t = Ptr i (Z.of_nat (length pre) + Z.of_nat (length w) - 1).
Proof.
  intros [Hi (s & Hs & Href & Hk & Hlow) (f & Hf & Hok & Hb & Hfi & Hapi) [Hty Hne] Hch Htx (a & Ha & Hp) Hw _ _].
  destruct (newPoolToken_ok f Hok Hb) as (p & f1 & En). destruct (newPoolToken_inv _ _ _ En Hok) as (-> & Hok1 & Hp1 & _ & Hno).
  set (k := position f) in *. destruct (place_of k) as [pi pj] eqn:Epl.
  assert (Hpj : (pj < 1024)%nat) by (change pj with (pi, pj).2; rewrite <-Epl; by apply Nat.mod_upper_bound).
  assert (Hnum : number pi pj = k) by (pose proof (place_number k) as E; by rewrite Epl in E).
  assert (Hpi : (pi < length (pools f1))%nat).
  { pose proof (po_count _ Hok1). pose proof (po_this _ Hok1). pose proof (po_next _ Hok1).
    unfold position, number in *. lia. }
  unfold emit. rewrite Hf. cbn [deref mbind outcome_bind]. rewrite En. cbn [mbind outcome_bind].
  unfold getCharIndex, current, load_input. cbn [lexer_input inputs set_tokFactory]. rewrite Hi. cbn [deref mbind outcome_bind].
  rewrite Hs. cbn [mbind outcome_bind].
  destruct (rf_data _ _ Href) as [tail Hd]. destruct Hp as (pre & Hpre & Hpa).
  destruct (sp_next _ _ _ _ _ _ _ _ _ (rf_place _ _ Href)) as (pre' & Hpre' & Hn).
  assert (Hlen : length pre' = (length pre + length w)%nat).
  { pose proof (f_equal length Hpre) as L1. pose proof (f_equal length Hpre') as L2. rewrite L1 in L2.
    rewrite Hw, !length_app in L2. lia. }
  assert (Hsz : (length pre' ≤ length (data (chars s)))%nat).
  { rewrite Hd, Hpre'. unfold codes. rewrite !length_app, length_fmap, length_app. lia. }
  unfold shift. rewrite (value_low i (data (chars s))) by (done || lia).
  rewrite int_op_ok by (destruct Hlow; unfold INT_MIN, INT_MAX; lia).
  cbn [mbind outcome_bind]. unfold change_token. cbn [load_token tokFactory set_tokFactory].
  rewrite (pool_token_no f1 pi pj Hpj Hok1 Hpi), Hnum, Hno, decide_True by done. cbn [mbind outcome_bind].
  unfold fresh_token. rewrite Hapi, Hfi. cbn [store_token tokFactory set_tokFactory].
  match goal with |- context [write_pool pi pj ?t f1] => set (t1 := t) end.
  destruct (write_pool_ok f1 pi pj t1 Hok1 Hpj Hpi) as (f2 & -> & Hok2 & T1 & T2 & _ & _ & Hno2). cbn [mbind outcome_bind].
  exists (data (chars s)), k, t1. eexists _, (codes pre), (codes (InputStream.nextChar (Lexer.input l)) ++ tail).
  split; [unfold pool_ptr; by rewrite Epl|].
  split_and!.
  - split; [|by exists s]. exists f2. cbn. split_and!; [done|done| |].
    + unfold position in *. rewrite T1, T2. lia.
    + by rewrite Hno2, decide_True.
  - exact Hty.
  - exact Hch.
  - cbn. by rewrite Htx.
  - done.
  - done.
  - rewrite Hd, Hpre, Hw. unfold codes. by rewrite !fmap_app, <-!app_assoc.
  - cbn. rewrite Ha, Hpa. unfold codes. by rewrite length_fmap.
  - cbn. unfold codes. rewrite length_fmap. f_equal. lia.
Qed.

Lemma codes_ok w : nul ∉ w → Forall (char_ok 1) (codes w).
Proof.
  intros H. apply Forall_fmap, Forall_forall. intros c Hc. unfold char_ok. cbn.
  pose proof (nat_ascii_bounded c). assert (nat_of_ascii c ≠ 0%nat); [|lia].
  intros E. apply H. assert (c = nul) as <-; [|done]. rewrite <-(ascii_nat_embedding c). by rewrite E.
Qed.

(** *** Asking for tokens consists of these operations, when the rules of the lexer do *)
Definition keeps_text (s s' : INPUT_STREAM) : Prop := data s' = data s ∧ seek_fn s' = seek_fn s.
Lemma consume_keeps s s' : CharStreams.consume big s = Ok s' → keeps_text s s'.
Proof. by apply consume_place. Qed.
Lemma seek8_keeps s n s' : seek8 big s n = Ok s' → keeps_text s s'.
Proof.
  unfold seek8. destruct (_ <=? _); [by intros [= <-]|]. destruct (_ <? 0); [done|].
  generalize (Z.to_nat (sint 32 (n - nextChar s))). intros k. revert s.
  induction k as [|k IH]; intros s; cbn [consume_times]; [by intros [= <-]|].
  destruct (CharStreams.consume big s) as [s1| |] eqn:E; [|done..]. cbn [mbind outcome_bind]. intros H.
  destruct (IH _ H), (consume_keeps _ _ E). split; congruence.
Qed.
Lemma rewindLast_keeps s s' : rewindLast big s = Ok s' → keeps_text s s'.
Proof.
  unfold rewindLast, rewind. destruct (_ !! _) as [st|]; [|done]. cbn [deref mbind outcome_bind].
  destruct (seek8 _ _ _) as [s1| |] eqn:E; [|done..]. cbn. intros [= <-]. by apply seek8_keeps in E.
Qed.

Lemma on_input_op p g m m' :
  (∀ c c', g c = Ok c' → keeps_text c c') → on_input g m = Ok m' → rtc (op p) m m'.
Proof. intros Hg E. apply rtc_once. by eapply op_input. Qed.
Lemma consume_op p m m' : consume big m = Ok m' → rtc (op p) m m'.
Proof. apply on_input_op, consume_keeps. Qed.
Lemma on_state_op p g m : rtc (op p) m (on_state g m).
Proof. apply rtc_once, op_state. Qed.

(** [pushCharStream] and [popCharStream] *)
Lemma pushCharStream_ops p i m m' : pushCharStream i m = Ok m' → rtc (op p) m m'.
Proof.
  unfold pushCharStream. destruct (on_input _ m) as [m1| |] eqn:E1; [|done..]. cbn [mbind outcome_bind].
  destruct (StackPush _ _ _) as [[n st]| |]; [|done..]. cbn [mbind outcome_bind]. intros E.
  etrans; [by eapply on_input_op; [|exact E1]; intros c c' [= <-]|].
  etrans; [apply on_state_op|]. apply rtc_once. by eapply op_stream.
Qed.
Lemma popCharStream_ops p m m' : popCharStream big m = Ok m' → rtc (op p) m m'.
Proof.
  unfold popCharStream. destruct (streams (state m)) as [st|]; [|by intros [= <-]].
  destruct (_ <? _); [|by intros [= <-]]. destruct (StackPop st) as [[[? ?] st']| |]; [|done..]. cbn [mbind outcome_bind].
  destruct (setCharStream _ _) as [m1| |] eqn:E1; [|done..]. cbn [mbind outcome_bind]. intros E.
  etrans; [apply on_state_op|]. etrans; [apply rtc_once; by eapply op_stream|]. by eapply on_input_op; [apply rewindLast_keeps|].
Qed.

Section rules.
Context (mTokens : LEXER → outcome LEXER) (k : nat).
Context (rules_ops : ∀ m m', mTokens m = Ok m' → rtc (op (pool_ptr k)) m m').

Lemma nextTokenStr_ops fuel j m q m' :
  nextTokenStr_loop big address mTokens fuel j m = Ok (q, m') → rtc (op (pool_ptr k)) m m'.
Proof.
  revert m. induction fuel as [|fuel IH]; intros m; [done|]. cbn [nextTokenStr_loop]. unfold start_token.
  destruct (load_input j m) as [[i c]| |]; [|done..]. cbn [mbind outcome_bind].
  set (m1 := on_state _ m). intros E. etrans; [apply (on_state_op _ (begin_token (Ptr i (nextChar (chars c)))
    (CharStreams.charPositionInLine (chars c)) (sint 32 (CharStreams.line (chars c)))))|]. fold m1.
  destruct (peek big j m1) as [x| |]; [|done..]. cbn [mbind outcome_bind] in E. destruct (x =? CHARSTREAM_EOF).
  - destruct (getCharIndex m1) as [here| |]; [|done..]. cbn [mbind outcome_bind] in E.
    destruct (getLine m1) as [ln| |]; [|done..]. cbn [mbind outcome_bind] in E. injection E as <- <-.
    apply rtc_once. by eapply (op_write _ _ EofToken (λ t, set_factoryMade true (setLine ln (setStopIndex here (setStartIndex here t))))).
  - destruct (mTokens _) as [m2| |] eqn:E2; [|done..]. cbn [mbind outcome_bind] in E.
    etrans; [apply on_state_op|]. etrans; [by apply rules_ops|]. destruct (error (state m2)).
    + destruct (recover _ _) as [m3| |] eqn:E3; [|done..]. cbn [mbind outcome_bind] in E.
      etrans; [apply on_state_op|]. etrans; [apply on_state_op|]. etrans; [by apply consume_op|]. by apply IH.
    + destruct (token (state m2)) as [[| | |]|]; try (injection E as <- <-; done); [by apply IH|].
      apply rtc_once. by eapply op_emit.
Qed.
Lemma nextToken_ops fuel m q m' :
  lexer_nextToken big address mTokens fuel m = Ok (q, m') → rtc (op (pool_ptr k)) m m'.
Proof.
  revert m. induction fuel as [|n IH]; intros m; [done|]. cbn [lexer_nextToken].
  destruct (nextTokenStr _ _ _ _) as [[r m1]| |] eqn:E1; [|done..]. cbn [mbind outcome_bind].
  unfold nextTokenStr in E1. apply nextTokenStr_ops in E1.
  assert (H1 : rtc (op (pool_ptr k)) m m1) by (etrans; [apply on_state_op|exact E1]).
  destruct (load_token r m1) as [t| |]; [|done..]. cbn [mbind outcome_bind].
  destruct (type t =? ANTLR3_TOKEN_EOF); [|by intros [= <- <-]].
  destruct (match streams (state m1) with Some s => _ | None => _ end); [|by intros [= <- <-]].
  destruct (popCharStream big m1) as [m2| |] eqn:E2; [|done..]. cbn [mbind outcome_bind]. intros E.
  etrans; [exact H1|]. etrans; [by apply popCharStream_ops|]. by apply IH.
Qed.
End rules.

(** C20: tokens in memory are the tokens as values of the model of the lexer, for texts
    whose addresses fit into the markers of 32 bits of the build.  Let a lexer be
    [ready]: it is behind a word without NUL of a stream of bytes, which lies in the
    first 2 GB of the memory, the rule has set a type that is not the one of the end and
    no text of its own, and its factory has not been reset and has less than 2^28 pools.
    Then it emits a token, and from there on, whatever it and its clients do (emitting
    tokens, of which the factory makes new pools, reading and printing the texts of
    tokens, moving in the streams or switching to others, writing to other tokens), the
    token has the type and the channel that [Lexer.emit] gives it; and as long as the
    strings of the stream are in order and fewer than 2^30 ([roomy]), its text, read from
    the stream only when it is asked for, is the text that [Lexer.emit] gives it at once.
    (A token of a text at a higher address has no text: [Token_defects].) *)
Theorem emitted_token i start w l m :
  ready i start w l m →
  ∃ p m1, emit address m = Ok (p, m1) ∧ ∀ m2, rtc (op p) m1 m2 →
    ∃ t, load_token p m2 = Ok t ∧
      type t = Lexer.tok_type (Lexer.emit start l) ∧ channel t = Lexer.tok_channel (Lexer.emit start l) ∧
      (roomy i m2 → ∃ q m3 x, getText big address p m2 = Ok (Some (i, q), m3) ∧
         string_at (i, q) m3 = Some x ∧ text x (codes (Lexer.tok_text (Lexer.emit start l)))).
Proof.
  intros H. destruct (emit_ok i start w l m H) as (d & k & t & m1 & pre & post & E & Hk1 & Hty & Hch & Htx & Hin & Hlow & Hd & Hst & Hsp).
  destruct H as [_ _ _ [_ Hne] _ _ _ Hw Hnul Hsm].
  exists (pool_ptr k), m1. split; [done|]. intros m2 Hops.
  assert (Hk2 : kept i d k t m2).
  { clear E. induction Hops as [|m1 m' m2 Hop _ IH]; [done|]. apply IH. eapply op_kept; [done|done|congruence|done]. }
  exists t. split_and!; [by eapply kept_load|done|done|]. intros Hroom. unfold getText. rewrite (kept_load _ _ _ _ _ Hk2).
  cbn [mbind outcome_bind]. rewrite Htx. destruct (Z.eqb_spec (type t) ANTLR3_TOKEN_EOF); [congruence|]. rewrite Hin.
  unfold getStartIndex. rewrite Hst, (value_low i d) by (done || (rewrite Hd, length_app; lia)).
  destruct (Z.eqb_spec (address i + Z.of_nat (length pre)) (-1)); [destruct Hlow; lia|].
  cbn [mbind outcome_bind]. rewrite Hsp.
  destruct (kp_input _ _ _ _ _ Hk2) as (s & Hs & Hds & Hsk).
  destruct (substr_ok i (Z.of_nat (length pre)) (codes w) post m2 s pre) as (q & m3 & x & Es & Hx & Htxt);
    [done|done|done|by rewrite Hds|by rewrite Hds|done|by apply codes_ok|unfold codes; by rewrite length_fmap|].
  unfold codes in Es at 1. rewrite length_fmap in Es. rewrite Es. cbn [mbind outcome_bind]. exists q, m3, x.
  split_and!; [done|done|]. unfold Lexer.emit. cbn [Lexer.tok_text]. rewrite Hw, length_app, Nat.add_sub. by rewrite take_app_length.
Qed.
End lexer.

Lemma change_token_inputs g p m m' : change_token g p m = Ok m' → inputs m' = inputs m.
Proof.
  unfold change_token. destruct (load_token p m) as [t| |]; [|done..]. cbn [mbind outcome_bind].
  destruct p; cbn [store_token]; [|by intros [= <-]..|].
  - destruct (tokFactory m) as [f|]; [|done]. destruct (write_pool _ _ _ f); [|done..]. by intros [= <-].
  - destruct (alone m !! n); [|done]. by intros [= <-].
Qed.
Lemma emit_inputs address m p m' : emit address m = Ok (p, m') → inputs m' = inputs m.
Proof.
  unfold emit. destruct (tokFactory m) as [f|]; [|done]. cbn [deref mbind outcome_bind].
  destruct (newPoolToken f) as [[[i j] f']| |]; [|done..]. cbn [mbind outcome_bind].
  destruct (current _) as [[n c]| |]; [|done..]. cbn [mbind outcome_bind].
  destruct (getCharIndex _); [|done..]. cbn [mbind outcome_bind].
  destruct (shift _ _ _); [|done..]. cbn [mbind outcome_bind].
  destruct (change_token _ _ _) as [m1| |] eqn:E; [|done..]. intros [= _ <-]. by apply change_token_inputs in E.
Qed.

(** The lexer behind the first two characters of "ab c". *)
Definition sample_state : SHARED_STATE :=
  mkState None 33 0 false false 0 0 (Ptr 0 0) (-1) 1 None (0, 0, 0) None None.
Definition sample_lexer (b : INPUT_STREAM) (f : TOKEN_FACTORY) : LEXER :=
  mkLexer {[0%nat := mkStream b (Some (StringFactoryNew false))]} (Some 0%nat) sample_state (Some f)
    (special ANTLR3_TOKEN_EOF) (special ANTLR3_TOKEN_INVALID) (Some 0%nat) ∅.
Lemma emitted_token_witness :
  ∃ b f p m1 q m3 x, emit (λ _, 4096) (sample_lexer b f) = Ok (p, m1) ∧
    getText false (λ _, 4096) p m1 = Ok (Some (0%nat, q), m3) ∧
    string_at (0%nat, q) m3 = Some x ∧ text x (codes (lit "ab")).
Proof.
  destruct (new_refines false (lit "ab c") [0]) as (b0 & E0 & H0); [cbn; lia|].
  destruct (consume_times_refines false _ _ 2 H0) as (b & Eb & Hb).
  destruct (TokenFactoryNew_ok (Some 0%nat)) as (f & _ & Hok & Hp & Hfi & Hk).
  set (l := Lexer.mkLexer (Nat.iter 2 InputStream.consume8 (InputStream.StringStreamNew (lit "ab c"))) 33 0 false false).
  assert (Hseek : seek_fn b = antlr38BitSeek).
  { injection E0 as <-. vm_compute in Eb. by injection Eb as <-. }
  exists b, f. destruct (emitted_token false (λ _, 4096) 0 (lit "ab c") (lit "ab") l (sample_lexer b f))
    as (p & m1 & E & H).
  - split; cbn; try done.
    + exists (mkStream b (Some (StringFactoryNew false))). rewrite lookup_singleton_eq. split_and!; [done..|].
      injection E0 as <-. vm_compute in Eb. injection Eb as <-. by vm_compute.
    + exists f. split_and!; try done; [|by rewrite Hk].
      pose proof (po_this _ Hok). pose proof (po_next _ Hok). unfold position, number in Hp. lia.
    + exists 0. split; [done|]. by exists [].
    + apply (bool_decide_unpack _). by vm_compute.
  - destruct (H m1 (rtc_refl _ _)) as (t & _ & _ & _ & Ht). destruct Ht as (q & m3 & x & ? & ? & Hx).
    + exists (mkStream b (Some (StringFactoryNew false))), (StringFactoryNew false), [].
      rewrite (emit_inputs _ _ _ _ E). cbn. rewrite lookup_singleton_eq. split_and!; try done. apply StringFactoryNew_ok.
    + exists p, m1, q, m3, x. split_and!; [done..|]. exact Hx.
Defined.

(** Defects of the tokens and of the lexer: a token that is handed out again after a
    reset belongs to the stream it was made for, not to the current one, and reads from
    it also when it was closed; the token for the end keeps the strings of the first
    stream, also when that was closed; in a lexer without a stream it has none; the text
    of a rule on a stream of UTF-8 has a byte too many; when a rule switches to another
    stream and skips, the next token starts in the old stream and stops in the new one;
    a factory that is closed after a reset forgets the pools behind the current one; and
    the text of a token that starts behind the first 2 GB of the memory can not be
    read: the marker is a negative number, which is not the pointer. *)
Definition utf8_stream : INPUT_STREAM := antlr3UTF8SetupStream (antlr3GenericSetupStream [97; 98; 0] 2).
Definition two_streams : gmap nat STREAM :=
  <[0%nat := mkStream utf8_stream (Some (StringFactoryNew false))]>
    {[1%nat := mkStream utf8_stream (Some (StringFactoryNew false))]}.
Definition closed (i : nat) (m : LEXER) : LEXER := set_inputs (delete i (inputs m)) m.
Definition length_of (x : string_ptr) (m : LEXER) : option Z := RtString.len <$> string_at x m.
Definition include_rule (m : LEXER) : outcome LEXER :=
  if bool_decide (lexer_input m = Some 0%nat) then
    m ← consume false m; m ← pushCharStream (Some 1%nat) m; Ok (emitNew (Some SkipToken) m)
  else consume false m.
Theorem Token_defects :
  (m ← LexerNewStream two_streams 0; '(_, m) ← emit (λ _, 4096) m; m ← reset m; m ← setCharStream (Some 1%nat) m;
   '(p, m) ← emit (λ _, 4096) m; t ← load_token p m; Ok (lexer_input m, input t)) = Ok (Some 1%nat, Some 0%nat) ∧
  (m ← LexerNewStream two_streams 0; '(_, m) ← emit (λ _, 4096) m; m ← reset m; m ← setCharStream (Some 1%nat) (closed 0 m);
   '(p, m) ← emit (λ _, 4096) m; fst <$> getText false (λ _, 4096) p m) = Undef UseAfterFree ∧
  (m ← LexerNewStream two_streams 0; m ← setCharStream (Some 1%nat) (closed 0 m);
   fst <$> getText false (λ _, 4096) EofToken m) = Undef UseAfterFree ∧
  fst <$> getText false (λ _, 4096) EofToken LexerNew = Undef NullDeref ∧
  (m ← LexerNewStream two_streams 0; m ← start_token (Some 0%nat) m; m ← consume false m;
   '(x, m) ← lexer_getText false (λ _, 4096) m; Ok (length_of x m)) = Ok (Some 2) ∧
  (m ← LexerNewStream two_streams 0; '(p, m) ← lexer_nextToken false (λ _, 4096) include_rule 3 m;
   t ← load_token p m; Ok (TokenStore.start t, stop t)) = Ok (Ptr 0 1, Ptr 1 0) ∧
  (f ← TokenFactoryNew None; '(_, f) ← take_tokens 1025 f; f ← factoryReset f; '(_, l) ← factoryClose f ∅;
   Ok (length l)) = Ok 1%nat ∧
  (m ← LexerNewStream two_streams 0; m ← start_token (Some 0%nat) m; m ← consume false m;
   '(p, m) ← emit (λ _, 2 ^ 31) m; fst <$> getText false (λ _, 2 ^ 31) p m) = Undef BadIndex.
Proof. split_and!; by vm_compute. Qed.
