(* ===== verification/TokenBuffer.v ===== *)
(** The token stream as the run time keeps it: the buffer that is filled from a
    source of tokens, with its vector, its lists of discarded types and of
    channels, its index and its marks; and the ranges of tokens and of text that
    it hands out. src/antlr/libantlr3c-3.4/src/antlr3tokenstream.c. *)
From S2P Require Import Prelude.
From S2P Require Import CppString.
From S2P Require Import HashTable.
From S2P Require Import Vector.
From S2P Require Import Bitset.
From S2P Require Import CyclicDFA.
From S2P Require Import Lexer.
From S2P Require Import LexerProps.
From S2P Require Import TokenStream.

(** ** The stream *)

Definition ANTLR3_TOKEN_INVALID : Z := 0.
Definition ANTLR3_TOKEN_EOF : Z := u32 (-1).

(** A token of the buffer: what the source made, and the index it was given. *)
Record BUFFERED : Type := mkBuffered {
  token : COMMON_TOKEN;
  tokenIndex : Z
}.
#[export] Instance BUFFERED_eq_dec : EqDecision BUFFERED.
Proof. solve_decision. Defined.

(** [setChannel] *)
Definition setChannel (c : Z) (tok : COMMON_TOKEN) : COMMON_TOKEN :=
  mkToken (tok_type tok) c (tok_text tok).

(** What [LT] and [LB] point to: a token of the buffer, or the token for the end
    that the source owns, with the index it was given as its start and its
    stop. *)
Inductive TOKEN_PTR : Type :=
| InBuffer (t : BUFFERED)
| EofToken (at_index : Z).
#[export] Instance TOKEN_PTR_eq_dec : EqDecision TOKEN_PTR.
Proof. solve_decision. Defined.

Definition in_buffer (e : option BUFFERED) : option TOKEN_PTR := InBuffer <$> e.

(** A number or a null pointer in a slot of type [void *]. *)
Definition as_pointer (n : Z) : option Z := if n =? 0 then None else Some n.

Section buffer.
Context {S : Type} (nextToken : S → outcome (option COMMON_TOKEN * S)).

(** [source] is the state of the token source; it gives no token when it is at
    the end of its input. *)
Record COMMON_TOKEN_STREAM : Type := mkStream {
  source : S;
  tokens : VECTOR BUFFERED;
  channelOverrides : option (HASH_TABLE Z);
  discardSet : option (HASH_TABLE Z);
  discardOffChannel : bool;
  channel : Z;
  p : Z;
  cachedSize : Z;
  lastMarker : Z
}.

Definition set_source x (ts : COMMON_TOKEN_STREAM) : COMMON_TOKEN_STREAM :=
  mkStream x (tokens ts) (channelOverrides ts) (discardSet ts) (discardOffChannel ts)
    (channel ts) (p ts) (cachedSize ts) (lastMarker ts).
Definition set_tokens x (ts : COMMON_TOKEN_STREAM) : COMMON_TOKEN_STREAM :=
  mkStream (source ts) x (channelOverrides ts) (discardSet ts) (discardOffChannel ts)
    (channel ts) (p ts) (cachedSize ts) (lastMarker ts).
Definition set_channelOverrides x (ts : COMMON_TOKEN_STREAM) : COMMON_TOKEN_STREAM :=
  mkStream (source ts) (tokens ts) x (discardSet ts) (discardOffChannel ts)
    (channel ts) (p ts) (cachedSize ts) (lastMarker ts).
Definition set_discardSet x (ts : COMMON_TOKEN_STREAM) : COMMON_TOKEN_STREAM :=
  mkStream (source ts) (tokens ts) (channelOverrides ts) x (discardOffChannel ts)
    (channel ts) (p ts) (cachedSize ts) (lastMarker ts).
Definition set_discardOffChannel x (ts : COMMON_TOKEN_STREAM) : COMMON_TOKEN_STREAM :=
  mkStream (source ts) (tokens ts) (channelOverrides ts) (discardSet ts) x
    (channel ts) (p ts) (cachedSize ts) (lastMarker ts).
Definition set_p x (ts : COMMON_TOKEN_STREAM) : COMMON_TOKEN_STREAM :=
  mkStream (source ts) (tokens ts) (channelOverrides ts) (discardSet ts) (discardOffChannel ts)
    (channel ts) x (cachedSize ts) (lastMarker ts).
Definition set_cachedSize x (ts : COMMON_TOKEN_STREAM) : COMMON_TOKEN_STREAM :=
  mkStream (source ts) (tokens ts) (channelOverrides ts) (discardSet ts) (discardOffChannel ts)
    (channel ts) (p ts) x (lastMarker ts).
Definition set_lastMarker x (ts : COMMON_TOKEN_STREAM) : COMMON_TOKEN_STREAM :=
  mkStream (source ts) (tokens ts) (channelOverrides ts) (discardSet ts) (discardOffChannel ts)
    (channel ts) (p ts) (cachedSize ts) x.

(** [antlr3CommonTokenStreamSourceNew]; the interface of integers is cleared
    memory. *)
Definition CommonTokenStreamSourceNew (src : S) : COMMON_TOKEN_STREAM :=
  mkStream src (VectorNew 0) None None false TOKEN_DEFAULT_CHANNEL (-1) 0 0.

(** [reset]; the size that was cached stays. *)
Definition reset (ts : COMMON_TOKEN_STREAM) : outcome COMMON_TOKEN_STREAM :=
  '(_, v) ← VectorClear (tokens ts);
  Ok (mkStream (source ts) v None None false TOKEN_DEFAULT_CHANNEL (-1)
        (cachedSize ts) (lastMarker ts)).

(** *** What is kept of the tokens *)

(** [setTokenTypeChannel] *)
Definition setTokenTypeChannel (ts : COMMON_TOKEN_STREAM) (ttype chan : Z)
    : outcome COMMON_TOKEN_STREAM :=
  let overrides := default (ListNew 10) (channelOverrides ts) in
  '(_, overrides) ← ListPut overrides ttype (as_pointer (u32 (chan + 1))) false;
  Ok (set_channelOverrides (Some overrides) ts).

(** [discardTokenType]; the type is an [int] and the key an unsigned number of 32 bits. *)
Definition discardTokenType (ts : COMMON_TOKEN_STREAM) (ttype : Z)
    : outcome COMMON_TOKEN_STREAM :=
  let discards := default (ListNew 31) (discardSet ts) in
  '(_, discards) ← ListPut discards (u32 ttype) (as_pointer (u32 (ttype + 1))) false;
  Ok (set_discardSet (Some discards) ts).

(** *** Filling the buffer *)

(** [tokens->elements[i].element] *)
Definition element_at (ts : COMMON_TOKEN_STREAM) (i : Z) : outcome (option BUFFERED) :=
  if i <? 0 then Undef BadIndex
  else e ← read_slot (tokens ts) i; Ok (element e).

(** The test of [skipOffTokenChannels] on an entry. *)
Definition off_channel (ts : COMMON_TOKEN_STREAM) (i : Z) : outcome bool :=
  e ← element_at ts i;
  tok ← deref e;
  Ok (negb (tok_channel (token tok) =? channel ts)).

(** [skipOffTokenChannels], with as many rounds as there are entries from [i]
    on; and [skipOffTokenChannelsReverse], with those down from [x]. *)
Fixpoint skip_forward (n : nat) (ts : COMMON_TOKEN_STREAM) (i : Z) : outcome Z :=
  match n with
  | O => Ok i
  | Datatypes.S n =>
      off ← off_channel ts i;
      if off : bool then skip_forward n ts (i + 1) else Ok i
  end.
Definition skipOffTokenChannels (ts : COMMON_TOKEN_STREAM) (i : Z) : outcome Z :=
  skip_forward (Z.to_nat (sint 32 (cachedSize ts) - i)) ts i.
Fixpoint skip_backward (n : nat) (ts : COMMON_TOKEN_STREAM) (x : Z) : outcome Z :=
  match n with
  | O => Ok x
  | Datatypes.S n =>
      off ← off_channel ts x;
      if off : bool then skip_backward n ts (x - 1) else Ok x
  end.
Definition skipOffTokenChannelsReverse (ts : COMMON_TOKEN_STREAM) (x : Z) : outcome Z :=
  skip_backward (Z.to_nat (x + 1)) ts x.

(** The body of [fillBuffer] for a token: whether it is discarded, and the token
    with its channel. *)
Definition lookup_list (l : option (HASH_TABLE Z)) (key : Z) : outcome (option Z) :=
  match l with Some l => ListGet l key | None => Ok None end.
Definition keep_token (ts : COMMON_TOKEN_STREAM) (tok : COMMON_TOKEN)
    : outcome (option COMMON_TOKEN) :=
  discarded ← lookup_list (discardSet ts) (tok_type tok);
  if discarded is Some _ then Ok None
  else if discardOffChannel ts && negb (tok_channel tok =? channel ts) then Ok None
  else
    channelI ← lookup_list (channelOverrides ts) (u32 (tok_type tok + 1));
    Ok (Some (match channelI with
              | Some c => setChannel (u32 (u32 c - 1)) tok
              | None => tok
              end)).

(** The loop of [fillBuffer]. *)
Fixpoint fill_loop (fuel : nat) (index : Z) (ts : COMMON_TOKEN_STREAM)
    : outcome COMMON_TOKEN_STREAM :=
  match fuel with
  | O => Undef NoFuel
  | Datatypes.S fuel =>
      '(tok, src) ← nextToken (source ts);
      let ts := set_source src ts in
      match tok with
      | None => Ok ts
      | Some tok =>
          kept ← keep_token ts tok;
          match kept with
          | None => fill_loop fuel index ts
          | Some tok =>
              q ← int_op (p ts + 1);
              '(_, v) ← VectorAdd (tokens ts) (Some (mkBuffered tok index)) false;
              fill_loop fuel (u32 (index + 1)) (set_tokens v (set_p q ts))
          end
      end
  end.

(** [fillBuffer] *)
Definition fillBuffer (fuel : nat) (ts : COMMON_TOKEN_STREAM) : outcome COMMON_TOKEN_STREAM :=
  ts ← fill_loop fuel 0 ts;
  let ts := set_p 0 (set_cachedSize (count (tokens ts)) ts) in
  q ← skipOffTokenChannels ts (p ts);
  Ok (set_p q ts).

(** What most operations begin with. *)
Definition filled (fuel : nat) (ts : COMMON_TOKEN_STREAM) : outcome COMMON_TOKEN_STREAM :=
  if p ts =? -1 then fillBuffer fuel ts else Ok ts.

(** *** Looking ahead and back *)

(** The loops of [tokLT] and of [LB]. *)
Fixpoint lt_loop (n : nat) (ts : COMMON_TOKEN_STREAM) (i : Z) : outcome Z :=
  match n with
  | O => Ok i
  | Datatypes.S n => i ← skipOffTokenChannels ts (i + 1); lt_loop n ts i
  end.
Fixpoint lb_loop (n : nat) (ts : COMMON_TOKEN_STREAM) (i : Z) : outcome Z :=
  match n with
  | O => Ok i
  | Datatypes.S n => i ← skipOffTokenChannelsReverse ts (i - 1); lb_loop n ts i
  end.

(** [LB] *)
Definition LB (fuel : nat) (ts : COMMON_TOKEN_STREAM) (k : Z)
    : outcome (option TOKEN_PTR * COMMON_TOKEN_STREAM) :=
  ts ← filled fuel ts;
  if k =? 0 then Ok (None, ts)
  else
    d ← int_op (p ts - k);
    if d <? 0 then Ok (None, ts)
    else
      i ← lb_loop (Z.to_nat k) ts (p ts);
      if i <? 0 then Ok (None, ts)
      else e ← element_at ts i; Ok (in_buffer e, ts).

(** [tokLT] *)
Definition tokLT (fuel : nat) (ts : COMMON_TOKEN_STREAM) (k : Z)
    : outcome (option TOKEN_PTR * COMMON_TOKEN_STREAM) :=
  if k <? 0 then
    k ← int_op (- k);
    LB fuel ts k
  else
    ts ← filled fuel ts;
    e ← int_op (p ts + k);
    e ← int_op (e - 1);
    if sint 32 (cachedSize ts) <=? e then Ok (Some (EofToken (p ts)), ts)
    else
      i ← lt_loop (Z.to_nat (k - 1)) ts (p ts);
      if cachedSize ts <=? u32 i then Ok (Some (EofToken (p ts)), ts)
      else e ← element_at ts i; Ok (in_buffer e, ts).

(** [getType] *)
Definition getType (t : TOKEN_PTR) : Z :=
  match t with InBuffer t => tok_type (token t) | EofToken _ => ANTLR3_TOKEN_EOF end.

(** [_LA] *)
Definition _LA (fuel : nat) (ts : COMMON_TOKEN_STREAM) (i : Z)
    : outcome (Z * COMMON_TOKEN_STREAM) :=
  '(tok, ts) ← tokLT fuel ts i;
  Ok (match tok with Some t => getType t | None => ANTLR3_TOKEN_INVALID end, ts).

(** [get] *)
Definition get (ts : COMMON_TOKEN_STREAM) (i : Z) : outcome (option BUFFERED) :=
  VectorGet (tokens ts) i.

(** *** Consuming, marking and seeking *)

(** [consume] *)
Definition consume (ts : COMMON_TOKEN_STREAM) : outcome COMMON_TOKEN_STREAM :=
  if u32 (p ts) <? count (tokens ts) then
    q ← int_op (p ts + 1);
    q ← skipOffTokenChannels ts q;
    Ok (set_p q ts)
  else Ok ts.

(** [size] *)
Definition size (ts : COMMON_TOKEN_STREAM) : Z * COMMON_TOKEN_STREAM :=
  if 0 <? cachedSize ts then (cachedSize ts, ts)
  else let ts := set_cachedSize (count (tokens ts)) ts in (cachedSize ts, ts).

(** [tindex], [mark], [seek], [rewindStream] and [rewindLast] *)
Definition tindex (ts : COMMON_TOKEN_STREAM) : Z := p ts.
Definition mark (ts : COMMON_TOKEN_STREAM) : Z * COMMON_TOKEN_STREAM :=
  (tindex ts, set_lastMarker (tindex ts) ts).
Definition seek (ts : COMMON_TOKEN_STREAM) (index : Z) : COMMON_TOKEN_STREAM :=
  set_p (sint 32 (u32 index)) ts.
Definition rewindStream (ts : COMMON_TOKEN_STREAM) (marker : Z) : COMMON_TOKEN_STREAM :=
  seek ts (u32 marker).
Definition rewindLast (ts : COMMON_TOKEN_STREAM) : COMMON_TOKEN_STREAM :=
  rewindStream ts (lastMarker ts).

(** *** Text and ranges *)

(** [toStringSS]; the loop compares unsigned numbers, so that it never ends when
    [stop] is the greatest. [rounds] bounds it. *)
Fixpoint text_loop (rounds : nat) (ts : COMMON_TOKEN_STREAM) (i stop : Z) (string : str)
    : outcome str :=
  match rounds with
  | O => Undef NoFuel
  | Datatypes.S rounds =>
      if i <=? stop then
        tok ← get ts i;
        text_loop rounds ts (u32 (i + 1)) stop
          (match tok with Some t => string ++ tok_text (token t) | None => string end)
      else Ok string
  end.
Definition toStringSS (fuel rounds : nat) (ts : COMMON_TOKEN_STREAM) (start stop : Z)
    : outcome (str * COMMON_TOKEN_STREAM) :=
  ts ← filled fuel ts;
  let '(n, ts) := size ts in
  let stop := if n <=? stop then u32 (n - 1) else stop in
  string ← text_loop rounds ts start stop [];
  Ok (string, ts).

(** [toString] *)
Definition toString (fuel rounds : nat) (ts : COMMON_TOKEN_STREAM)
    : outcome (str * COMMON_TOKEN_STREAM) :=
  ts ← filled fuel ts;
  let '(n, ts) := size ts in
  toStringSS fuel rounds ts 0 n.

(** [toStringTT], for the indices of two tokens. *)
Definition toStringTT (fuel rounds : nat) (ts : COMMON_TOKEN_STREAM) (start stop : option BUFFERED)
    : outcome (option str * COMMON_TOKEN_STREAM) :=
  match start, stop with
  | Some start, Some stop =>
      '(string, ts) ← toStringSS fuel rounds ts (u32 (tokenIndex start)) (u32 (tokenIndex stop));
      Ok (Some string, ts)
  | _, _ => Ok (None, ts)
  end.

(** [getTokens] *)
Definition getTokens (fuel : nat) (ts : COMMON_TOKEN_STREAM)
    : outcome (VECTOR BUFFERED * COMMON_TOKEN_STREAM) :=
  ts ← filled fuel ts;
  Ok (tokens ts, ts).

(** The loop of [getTokensSet]. The set is asked for the truth of the comparison
    of the type with [ANTLR3_TRUE]. *)
Fixpoint range_loop (rounds : nat) (ts : COMMON_TOKEN_STREAM) (types : option BITSET)
    (i stop n : Z) (filteredList : HASH_TABLE BUFFERED) : outcome (HASH_TABLE BUFFERED) :=
  match rounds with
  | O => Undef NoFuel
  | Datatypes.S rounds =>
      if i <=? stop then
        tok ← get ts i;
        wanted ← (match types with
                  | None => Ok true
                  | Some types =>
                      t ← deref tok;
                      Ok (BitsetMember types (if tok_type (token t) =? 1 then 1 else 0))
                  end);
        if wanted : bool then
          '(_, filteredList) ← ListPut filteredList n tok false;
          range_loop rounds ts types (u32 (i + 1)) stop (u32 (n + 1)) filteredList
        else range_loop rounds ts types (u32 (i + 1)) stop n filteredList
      else Ok filteredList
  end.

(** [getTokensSet] *)
Definition getTokensSet (fuel rounds : nat) (ts : COMMON_TOKEN_STREAM) (start stop : Z)
    (types : option BITSET) : outcome (option (HASH_TABLE BUFFERED) * COMMON_TOKEN_STREAM) :=
  ts ← filled fuel ts;
  let '(n, ts) := size ts in
  let stop := if n <? stop then n else stop in
  if stop <? start then Ok (None, ts)
  else
    filteredList ← range_loop rounds ts types start stop 0 (ListNew n);
    Ok (if ListSize filteredList =? 0 then None else Some filteredList, ts).

(** [getTokenRange] *)
Definition getTokenRange (fuel rounds : nat) (ts : COMMON_TOKEN_STREAM) (start stop : Z)
    : outcome (option (HASH_TABLE BUFFERED) * COMMON_TOKEN_STREAM) :=
  getTokensSet fuel rounds ts start stop None.

(** [getTokensList]; the set is released after its use. *)
Definition getTokensList (fuel rounds : nat) (ts : COMMON_TOKEN_STREAM) (start stop : Z)
    (list : HASH_TABLE Z) : outcome (option (HASH_TABLE BUFFERED) * COMMON_TOKEN_STREAM) :=
  bitSet ← BitsetList rounds list;
  r ← getTokensSet fuel rounds ts start stop bitSet;
  _ ← deref bitSet;
  Ok r.

(** [getTokensType]; the arguments of [antlr3BitsetOf] end at -1. *)
Definition getTokensType (fuel rounds : nat) (ts : COMMON_TOKEN_STREAM) (start stop type : Z)
    : outcome (option (HASH_TABLE BUFFERED) * COMMON_TOKEN_STREAM) :=
  bitSet ← BitsetOf (if sint 32 type =? -1 then [] else [type]);
  getTokensSet fuel rounds ts start stop (Some bitSet).

(** *** With a debugger *)

(** What the debugger is told. *)
Inductive DEBUG_EVENT : Type :=
| ConsumeToken (t : option TOKEN_PTR)
| ConsumeHiddenToken (t : option BUFFERED)
| LookedAt (i : Z) (t : option TOKEN_PTR)
| Marked (m : Z)
| Rewound (m : Z)
| RewoundLast.

Record DEBUG_STREAM : Type := mkDebug {
  stream : COMMON_TOKEN_STREAM;
  initialStreamState : bool;
  debugger : list DEBUG_EVENT
}.
Definition tell (e : DEBUG_EVENT) (ds : DEBUG_STREAM) : DEBUG_STREAM :=
  mkDebug (stream ds) (initialStreamState ds) (debugger ds ++ [e]).
Definition set_stream (ts : COMMON_TOKEN_STREAM) (ds : DEBUG_STREAM) : DEBUG_STREAM :=
  mkDebug ts (initialStreamState ds) (debugger ds).

(** [antlr3CommonTokenDebugStreamSourceNew] *)
Definition CommonTokenDebugStreamSourceNew (src : S) : DEBUG_STREAM :=
  mkDebug (CommonTokenStreamSourceNew src) false [].

(** The loops that report hidden tokens: [n] of them from [i] on. *)
Fixpoint tell_hidden (n : nat) (i : Z) (ds : DEBUG_STREAM) : outcome DEBUG_STREAM :=
  match n with
  | O => Ok ds
  | Datatypes.S n =>
      t ← get (stream ds) (u32 i);
      tell_hidden n (i + 1) (tell (ConsumeHiddenToken t) ds)
  end.

(** [consumeInitialHiddenTokens], when the flag asks for it. *)
Definition consumeInitialHiddenTokens (ds : DEBUG_STREAM) : outcome DEBUG_STREAM :=
  ds ← tell_hidden (Z.to_nat (tindex (stream ds))) 0 ds;
  Ok (mkDebug (stream ds) false (debugger ds)).
Definition initially (ds : DEBUG_STREAM) : outcome DEBUG_STREAM :=
  if initialStreamState ds then consumeInitialHiddenTokens ds else Ok ds.

(** [dbgTokLT] *)
Definition dbgTokLT (fuel : nat) (ds : DEBUG_STREAM) (k : Z)
    : outcome (option TOKEN_PTR * DEBUG_STREAM) :=
  ds ← initially ds;
  '(t, ts) ← tokLT fuel (stream ds) k;
  Ok (t, set_stream ts ds).

(** [dbgConsume] *)
Definition dbgConsume (fuel : nat) (ds : DEBUG_STREAM) : outcome DEBUG_STREAM :=
  ds ← initially ds;
  let a := tindex (stream ds) in
  '(t, ds) ← dbgTokLT fuel ds 1;
  ts ← consume (stream ds);
  let b := tindex ts in
  let ds := tell (ConsumeToken t) (set_stream ts ds) in
  if a + 1 <? b then tell_hidden (Z.to_nat (b - (a + 1))) (a + 1) ds else Ok ds.

(** [dbgLA] *)
Definition dbgLA (fuel : nat) (ds : DEBUG_STREAM) (i : Z) : outcome (Z * DEBUG_STREAM) :=
  ds ← initially ds;
  '(t, ts) ← tokLT fuel (stream ds) i;
  let ds := tell (LookedAt i t) (set_stream ts ds) in
  '(t, ds) ← dbgTokLT fuel ds i;
  Ok (match t with Some t => getType t | None => ANTLR3_TOKEN_INVALID end, ds).

(** [dbgMark], [dbgRewindStream], [dbgRewindLast]; [dbgSeek] is [seek]. The
    rewinding of [dbgRewindLast] goes through [dbgRewindStream]. *)
Definition dbgMark (ds : DEBUG_STREAM) : Z * DEBUG_STREAM :=
  let '(m, ts) := mark (stream ds) in (m, tell (Marked m) (set_stream ts ds)).
Definition dbgRewindStream (ds : DEBUG_STREAM) (marker : Z) : DEBUG_STREAM :=
  let ds := tell (Rewound marker) ds in set_stream (seek (stream ds) (u32 marker)) ds.
Definition dbgRewindLast (ds : DEBUG_STREAM) : DEBUG_STREAM :=
  dbgRewindStream (tell RewoundLast ds) (lastMarker (stream ds)).
Definition dbgSeek (ds : DEBUG_STREAM) (index : Z) : DEBUG_STREAM :=
  set_stream (seek (stream ds) index) ds.
End buffer.
Arguments COMMON_TOKEN_STREAM : clear implicits.
Arguments DEBUG_STREAM : clear implicits.
