(* ===== verification/BufferRefine.v ===== *)
(** The buffer of tokens of [TokenBuffer] shows its reader the tokens of the
    channel, in order: the relation to the streams of [TokenStream], the requests
    of a reader, the ranges of tokens and text, and what goes wrong. *)
From S2P Require Import Prelude.
From S2P Require Import CppString.
From S2P Require Import HashTable.
From S2P Require Import Vector.
From S2P Require Import Bitset.
From S2P Require Import CyclicDFA.
From S2P Require Import InputStream.
From S2P Require Import Lexer.
From S2P Require Import LexerSpec.
From S2P Require Import LexerProps.
From S2P Require Import LexerTypes.
From S2P Require Import TokenStream.
From S2P Require Import TokenBuffer.

(** ** Sources of tokens *)

(** What a source owes to the buffer: at its end it stays at its end. *)
Class TokenSource (Src : Type) := {
  next : Src → outcome (option COMMON_TOKEN * Src);
  ended : Src → Prop;
  next_ended : ∀ s, ended s → ∃ s', next s = Ok (None, s') ∧ ended s'
}.

(** The tokens that a source gives up to its end. *)
Inductive yields `{TokenSource Src} : Src → list COMMON_TOKEN → Prop :=
| yields_end s s' : next s = Ok (None, s') → ended s' → yields s []
| yields_token s t s' l :
    next s = Ok (Some t, s') → 0 ≤ tok_type t < 2 ^ 31 → yields s' l → yields s (t :: l).

(** A list of tokens, and the lexer. *)
#[export] Instance list_source : TokenSource (list COMMON_TOKEN).
Proof.
  refine {| next l := Ok (head l, tail l); ended l := l = [] |}.
  intros s ->. by exists [].
Defined.
#[export] Instance lexer_source : TokenSource LEXER.
Proof.
  refine {| next := Lexer.nextToken; ended l := nextChar (input l) = [] |}.
  intros l Hl. unfold nextToken. rewrite Hl. cbn [length nextTokenStr input set_channel].
  rewrite LA1_code, Hl. by eexists.
Defined.

Lemma list_yields l : Forall (λ t, 0 ≤ tok_type t < 2 ^ 31) l → yields l l.
Proof.
  induction 1 as [|t l Ht _ IH]; [by apply (yields_end _ [])|]. by apply (yields_token _ t l).
Qed.

(** What the lexer gives is what [Lexer.fillBuffer] gathers. *)
Lemma lexer_yields fuel l toks :
  input_stream_ok (input l) → Lexer.fillBuffer fuel l = Ok toks →
  Forall (λ t, tok_type t < 2 ^ 31) toks → yields l toks.
Proof.
  revert l toks. induction fuel as [|fuel IH]; intros l toks Hok; [done|]. cbn [Lexer.fillBuffer].
  destruct (nextToken_ok l Hok) as (tok & l' & sk & E & Hok' & Ht). rewrite E.
  cbn [mbind outcome_bind]. destruct tok as [t|].
  - destruct (Lexer.fillBuffer fuel l') as [ts| |] eqn:Ef; cbn [mbind outcome_bind]; [|done..].
    intros [= <-] [Hty Htys]%Forall_cons. destruct Ht as (_ & Ht & _).
    apply (yields_token _ t l'); [done|lia|]. by apply IH.
  - intros [= <-] _. apply (yields_end _ l'); [done|apply Ht].
Qed.

(** ** What is kept of the tokens *)

Record policy : Type := mkPolicy {
  discards : gset Z;
  overrides : gmap Z Z;
  off : bool
}.
Definition no_policy : policy := mkPolicy ∅ ∅ false.

(** The channel of a type is looked up under the next type. *)
Definition kept_token (pol : policy) (t : COMMON_TOKEN) : option COMMON_TOKEN :=
  if decide (tok_type t ∈ discards pol) then None
  else if off pol && negb (on_channel t) then None
  else Some (match overrides pol !! (tok_type t + 1) with
             | Some c => setChannel c t
             | None => t
             end).
Definition kept (pol : policy) (raw : list COMMON_TOKEN) : list COMMON_TOKEN :=
  omap (kept_token pol) raw.

(** The requests that set it up; a channel that was set stays. *)
Inductive setting : Type :=
| SetTokenTypeChannel (ttype chan : Z)
| DiscardTokenType (ttype : Z)
| DiscardOffChannel (b : bool).
Definition setting_ok (q : setting) : Prop :=
  match q with
  | SetTokenTypeChannel ttype chan => 0 ≤ ttype < 2 ^ 32 ∧ 0 ≤ chan < 2 ^ 32 - 1
  | DiscardTokenType ttype => 0 ≤ ttype < 2 ^ 31
  | DiscardOffChannel _ => True
  end.
Definition decided (q : setting) (pol : policy) : policy :=
  match q with
  | SetTokenTypeChannel ttype chan =>
      mkPolicy (discards pol)
        (match overrides pol !! ttype with
         | Some _ => overrides pol
         | None => <[ttype := chan]> (overrides pol)
         end) (off pol)
  | DiscardTokenType ttype => mkPolicy ({[ttype]} ∪ discards pol) (overrides pol) (off pol)
  | DiscardOffChannel b => mkPolicy (discards pol) (overrides pol) b
  end.
Definition set_up {Src} (q : setting) (ts : COMMON_TOKEN_STREAM Src)
    : outcome (COMMON_TOKEN_STREAM Src) :=
  match q with
  | SetTokenTypeChannel ttype chan => setTokenTypeChannel ts ttype chan
  | DiscardTokenType ttype => discardTokenType ts ttype
  | DiscardOffChannel b => Ok (set_discardOffChannel b ts)
  end.
Fixpoint set_up_all {Src} (qs : list setting) (ts : COMMON_TOKEN_STREAM Src)
    : outcome (COMMON_TOKEN_STREAM Src) :=
  match qs with
  | [] => Ok ts
  | q :: qs => ts ← set_up q ts; set_up_all qs ts
  end.

(** A list of the stream stands for a function, absent where it is null. *)
Definition list_is (l : option (HASH_TABLE Z)) (f : Z → option Z) : Prop :=
  match l with
  | None => ∀ k, f k = None
  | Some l => ∃ m, int_table l m ∧ ∀ k, m !! k = (λ c, (Some c, false)) <$> f k
  end.
Definition discard_entry (pol : policy) (k : Z) : option Z :=
  if decide (k ∈ discards pol) then Some (k + 1) else None.
Definition override_entry (pol : policy) (k : Z) : option Z := Z.succ <$> overrides pol !! k.

Record follows {Src} (ts : COMMON_TOKEN_STREAM Src) (pol : policy) : Prop := {
  f_discards : list_is (discardSet ts) (discard_entry pol);
  f_overrides : list_is (channelOverrides ts) (override_entry pol);
  f_off : discardOffChannel ts = off pol;
  f_chan : channel ts = TOKEN_DEFAULT_CHANNEL;
  f_range : map_Forall (λ _ c, 0 ≤ c < 2 ^ 32 - 1) (overrides pol)
}.

Lemma int_get {V} (t : HASH_TABLE V) m k : int_table t m → ListGet t k = Ok (m !! k ≫= fst).
Proof.
  intros Hs. destruct (int_serve_all [Get k] t m Hs) as (t' & E & _). cbn in E.
  unfold ListGet. destruct (HashGetI t k) as [d| |]; cbn in E; by simplify_eq/=.
Qed.
Lemma lookup_list_ok l f k : list_is l f → lookup_list l k = Ok (f k).
Proof.
  destruct l as [l|]; cbn; [|by intros ->]. intros (m & Hm & Hf).
  rewrite (int_get l m k Hm), Hf. by destruct (f k).
Qed.

(** Putting an entry that is there already changes nothing. *)
Lemma list_put l f k c hint :
  list_is l f → 0 < hint → ∃ r l',
    ListPut (default (ListNew hint) l) k (Some c) false = Ok (r, l') ∧
    list_is (Some l') (λ j, match f j with Some d => Some d | None => if decide (j = k) then Some c else None end).
Proof.
  intros Hl Hh.
  assert (∃ m, int_table (default (ListNew hint) l) m ∧ ∀ j, m !! j = (λ c, (Some c, false)) <$> f j)
    as (m & Hm & Hf).
  { destruct l as [l|]; [done|]. exists ∅. split; [by apply stands_for_new|].
    intros j. by rewrite Hl, lookup_empty. }
  destruct (int_put _ m k (Some c) false Hm) as (l' & E & Ht). unfold ListPut. rewrite E.
  do 2 eexists. split; [done|]. eexists. split; [exact Ht|]. intros j.
  destruct (m !! k) eqn:Ek.
  - rewrite Hf. destruct (f j) eqn:Ej; [done|]. rewrite decide_False; [done|]. intros ->.
    by rewrite Hf, Ej in Ek.
  - destruct (decide (j = k)) as [->|Hj].
    + rewrite lookup_insert_eq. rewrite Hf in Ek. by destruct (f k).
    + rewrite lookup_insert_ne, Hf by done. by destruct (f j).
Qed.
Lemma list_is_ext l f g : (∀ k, f k = g k) → list_is l f → list_is l g.
Proof.
  intros Hfg. destruct l as [l|]; cbn.
  - intros (m & Hm & Hf). exists m. split; [done|]. intros k. by rewrite Hf, Hfg.
  - intros Hf k. by rewrite <-Hfg.
Qed.

(** The requests only touch what the policy is about. *)
Definition same_rest {Src} (ts ts' : COMMON_TOKEN_STREAM Src) : Prop :=
  source ts' = source ts ∧ tokens ts' = tokens ts ∧ p ts' = p ts ∧
  cachedSize ts' = cachedSize ts ∧ lastMarker ts' = lastMarker ts.

Lemma set_up_ok {Src} q (ts : COMMON_TOKEN_STREAM Src) pol :
  setting_ok q → follows ts pol → ∃ ts',
    set_up q ts = Ok ts' ∧ same_rest ts ts' ∧ follows ts' (decided q pol).
Proof.
  intros Hq [Hd Ho Hb Hc Hr]. destruct q as [ttype chan|ttype|b]; cbn [set_up decided setting_ok] in *.
  - unfold setTokenTypeChannel, as_pointer. rewrite u32_small by lia.
    destruct (Z.eqb_spec (chan + 1) 0); [lia|].
    destruct (list_put _ _ ttype (chan + 1) 10 Ho) as (r & l' & -> & Hl); [lia|].
    eexists. split; [done|]. split; [done|]. split; try done; cbn.
    + eapply (list_is_ext (Some l')); [|exact Hl]. intros k. unfold override_entry. cbn.
      destruct (overrides pol !! ttype) as [c|] eqn:Et.
      * destruct (overrides pol !! k) eqn:Ek; [done|]. rewrite decide_False; [done|]. congruence.
      * destruct (decide (k = ttype)) as [->|Hk].
        -- by rewrite Et, lookup_insert_eq.
        -- rewrite lookup_insert_ne by done. by destruct (overrides pol !! k).
    + destruct (overrides pol !! ttype) eqn:Et; [done|]. apply map_Forall_insert; [done|]. by split; [lia|].
  - unfold discardTokenType, as_pointer. rewrite !u32_small by lia.
    destruct (Z.eqb_spec (ttype + 1) 0); [lia|].
    destruct (list_put _ _ ttype (ttype + 1) 31 Hd) as (r & l' & -> & Hl); [lia|].
    eexists. split; [done|]. split; [done|]. split; try done; cbn.
    eapply (list_is_ext (Some l')); [|exact Hl]. intros k. unfold discard_entry. cbn.
    destruct (decide (k ∈ discards pol)), (decide (k = ttype)), (decide (k ∈ {[ttype]} ∪ discards pol)); set_solver.
  - eexists. split; [done|]. split; [done|]. by split.
Qed.

Lemma set_up_all_ok {Src} qs (ts : COMMON_TOKEN_STREAM Src) pol :
  Forall setting_ok qs → follows ts pol → ∃ ts',
    set_up_all qs ts = Ok ts' ∧ same_rest ts ts' ∧ follows ts' (foldl (flip decided) pol qs).
Proof.
  revert ts pol. induction qs as [|q qs IH]; intros ts pol Hq Hf; [by exists ts|].
  apply Forall_cons in Hq as [Hq Hqs]. cbn [set_up_all foldl flip].
  destruct (set_up_ok q ts pol Hq Hf) as (ts1 & -> & H1 & Hf1). cbn [mbind outcome_bind].
  destruct (IH ts1 _ Hqs Hf1) as (ts2 & E & H2 & Hf2). exists ts2. split; [done|]. split; [|done].
  unfold same_rest in *. intuition congruence.
Qed.

Lemma keep_token_ok {Src} (ts : COMMON_TOKEN_STREAM Src) pol t :
  follows ts pol → 0 ≤ tok_type t < 2 ^ 31 → keep_token ts t = Ok (kept_token pol t).
Proof.
  intros [Hd Ho Hb Hc Hr] Ht. unfold keep_token, kept_token.
  rewrite (lookup_list_ok _ _ _ Hd), (u32_small (tok_type t + 1)) by lia.
  rewrite (lookup_list_ok _ _ _ Ho). unfold discard_entry. cbn [mbind outcome_bind].
  destruct (decide (tok_type t ∈ discards pol)); [done|]. rewrite Hb, Hc. unfold on_channel.
  destruct (off pol && _); [done|]. unfold override_entry.
  destruct (overrides pol !! (tok_type t + 1)) as [c|] eqn:Ec; [|done]. cbn.
  apply (map_Forall_lookup_1 _ _ _ _ Hr) in Ec. cbn in Ec.
  rewrite (u32_small (Z.succ c)), u32_small by lia. do 3 f_equal. lia.
Qed.

(** ** The filled buffer *)

Definition slots (toks : list COMMON_TOKEN) : list (VECTOR_ELEMENT BUFFERED) :=
  imap (λ i t, mkElement (Some (mkBuffered t (Z.of_nat i))) false) toks.

Lemma length_slots toks : length (slots toks) = length toks.
Proof. apply length_imap. Qed.
Lemma slots_snoc toks t :
  slots (toks ++ [t])
  = slots toks ++ [mkElement (Some (mkBuffered t (Z.of_nat (length toks)))) false].
Proof. unfold slots. rewrite imap_app. cbn. by rewrite Nat.add_0_r. Qed.
Lemma lookup_slots toks i t :
  toks !! i = Some t → slots toks !! i = Some (mkElement (Some (mkBuffered t (Z.of_nat i))) false).
Proof. intros Hi. unfold slots. by rewrite list_lookup_imap, Hi. Qed.

(** What a reader sees through the pointer it is given. *)
Inductive SIGHT : Type :=
| Nothing
| TheEnd
| Seen (t : COMMON_TOKEN).
Definition shown (t : option TOKEN_PTR) : SIGHT :=
  match t with
  | None => Nothing
  | Some (EofToken _) => TheEnd
  | Some (InBuffer t) => Seen (token t)
  end.
Definition seen_or (none : SIGHT) (t : option COMMON_TOKEN) : SIGHT :=
  match t with Some t => Seen t | None => none end.
Definition type_of (x : SIGHT) : Z :=
  match x with
  | Nothing => ANTLR3_TOKEN_INVALID
  | TheEnd => ANTLR3_TOKEN_EOF
  | Seen t => tok_type t
  end.

Section stream.
Context `{TokenSource Src}.
Implicit Types ts : COMMON_TOKEN_STREAM Src.

(** The stream holds the tokens, and its index is the one of a
    [TokenStream.TOKEN_STREAM]. *)
Record buffer ts (s : TOKEN_STREAM) : Prop := {
  b_holds : holds (tokens ts) (slots (TokenStream.tokens s));
  b_cached : cachedSize ts = Z.of_nat (length (TokenStream.tokens s));
  b_chan : channel ts = TOKEN_DEFAULT_CHANNEL;
  b_p : p ts = Z.of_nat (TokenStream.p s);
  b_le : (TokenStream.p s ≤ length (TokenStream.tokens s))%nat;
  b_bound : Z.of_nat (length (TokenStream.tokens s)) < 2 ^ 30;
  b_at : at_token s;
  b_ended : ended (source ts);
  b_follows : ∃ pol, follows ts pol
}.

(** The tokens in memory, whatever the index is. *)
Record in_memory ts (toks : list COMMON_TOKEN) : Prop := {
  m_holds : holds (tokens ts) (slots toks);
  m_cached : cachedSize ts = Z.of_nat (length toks);
  m_chan : channel ts = TOKEN_DEFAULT_CHANNEL;
  m_bound : Z.of_nat (length toks) < 2 ^ 30
}.
Lemma buffer_memory ts s : buffer ts s → in_memory ts (TokenStream.tokens s).
Proof. by intros []. Qed.

Lemma element_at_ok ts toks i t :
  in_memory ts toks → toks !! i = Some t →
  element_at ts (Z.of_nat i) = Ok (Some (mkBuffered t (Z.of_nat i))).
Proof.
  intros Hm Hi. unfold element_at. destruct (Z.ltb_spec (Z.of_nat i) 0); [lia|].
  by rewrite (read_slot_ok _ _ _ _ (m_holds _ _ Hm) (lookup_slots _ _ _ Hi)).
Qed.
Lemma off_channel_ok ts toks i t :
  in_memory ts toks → toks !! i = Some t → off_channel ts (Z.of_nat i) = Ok (negb (on_channel t)).
Proof.
  intros Hm Hi. unfold off_channel. rewrite (element_at_ok _ _ _ _ Hm Hi). cbn.
  by rewrite (m_chan _ _ Hm).
Qed.

Lemma skip_ok ts toks i :
  in_memory ts toks →
  skipOffTokenChannels ts (Z.of_nat i) = Ok (Z.of_nat (TokenStream.skipOffTokenChannels toks i)).
Proof.
  intros Hm. unfold skipOffTokenChannels, TokenStream.skipOffTokenChannels.
  pose proof (m_bound _ _ Hm). rewrite (m_cached _ _ Hm), sint_small by lia.
  replace (Z.to_nat (Z.of_nat (length toks) - Z.of_nat i)) with (length (drop i toks))
    by (rewrite length_drop; lia).
  remember (drop i toks) as l eqn:El. revert i El. induction l as [|t l IH]; intros i El; cbn.
  - do 2 f_equal. lia.
  - assert (toks !! i = Some t) as Hi by (rewrite <-(Nat.add_0_r i), <-lookup_drop, <-El; done).
    rewrite (off_channel_ok _ _ _ _ Hm Hi). cbn. destruct (on_channel t); cbn; [do 2 f_equal; lia|].
    replace (Z.of_nat i + 1) with (Z.of_nat (S i)) by lia. rewrite (IH (S i)).
    + do 2 f_equal. lia.
    + rewrite (drop_S _ _ _ Hi) in El. congruence.
Qed.

(** *** Filling *)

Lemma fill_loop_ok raw : ∀ ts pol pre fuel index,
  yields (source ts) raw → follows ts pol → holds (tokens ts) (slots pre) →
  index = Z.of_nat (length pre) ∨ raw = [] → -1 ≤ p ts < 2 ^ 30 →
  Z.of_nat (length pre) + Z.of_nat (length raw) < 2 ^ 30 → (length raw < fuel)%nat →
  p ts + Z.of_nat (length raw) < 2 ^ 30 →
  ∃ src v q, fill_loop next fuel index ts = Ok (set_source src (set_tokens v (set_p q ts))) ∧
    ended src ∧ holds v (slots (pre ++ kept pol raw)).
Proof.
  induction raw as [|t raw IH]; intros ts pol pre fuel index Hy Hf Hh Hi Hp Hl Hfu Hpl;
    destruct fuel as [|fuel]; try (cbn in Hfu; lia); cbn [fill_loop].
  - inversion Hy as [? s' E He|]; subst. rewrite E. cbn. exists s', (tokens ts), (p ts).
    rewrite app_nil_r. split; [by destruct ts|done].
  - inversion Hy as [|? ? s' ? E Ht Hy']; subst. rewrite E. cbn [mbind outcome_bind].
    cbn [length] in *. rewrite (keep_token_ok _ pol) by (done || by destruct Hf).
    cbn [mbind outcome_bind kept omap list_omap]. destruct (kept_token pol t) as [k|] eqn:Ek.
    + destruct Hi as [->|]; [|done]. cbn [p set_source]. rewrite int_op_ok by (unfold INT_MIN, INT_MAX; lia).
      cbn [mbind outcome_bind]. cbn [tokens set_source].
      destruct (VectorAdd_ok (tokens ts) (slots pre) (Some (mkBuffered k (Z.of_nat (length pre)))) false)
        as (v & -> & Hv); [done|rewrite length_slots; lia|]. cbn [mbind outcome_bind].
      rewrite <-slots_snoc in Hv.
      destruct (IH (set_tokens v (set_p (p ts + 1) (set_source s' ts))) pol (pre ++ [k]) fuel
        (u32 (Z.of_nat (length pre) + 1))) as (src & v' & q & -> & He & Hv'); try done.
      * by destruct Hf.
      * left. rewrite length_app, u32_small by lia. cbn. lia.
      * cbn. lia.
      * rewrite length_app. cbn. lia.
      * lia.
      * cbn. lia.
      * exists src, v', q. split; [done|]. split; [done|]. unfold kept in Hv'. by rewrite <-app_assoc in Hv'.
    + destruct (IH (set_source s' ts) pol pre fuel index) as (src & v' & q & -> & He & Hv'); try done.
      * by destruct Hf.
      * by destruct Hi; [left|].
      * lia.
      * lia.
      * cbn. lia.
      * by exists src, v', q.
Qed.

Lemma skip_length toks i : (TokenStream.skipOffTokenChannels toks i ≤ Nat.max i (length toks))%nat.
Proof.
  unfold TokenStream.skipOffTokenChannels.
  assert (∀ l, off_channel_run l ≤ length l)%nat as Hl.
  { induction l as [|t l IHl]; [done|]. cbn. destruct (on_channel t); lia. }
  specialize (Hl (drop i toks)). rewrite length_drop in Hl. lia.
Qed.

(** A stream that was not read yet, or that is back before its start. *)
Record before (fuel : nat) ts (toks : list COMMON_TOKEN) : Prop := {
  o_p : p ts = -1;
  o_bound : Z.of_nat (length toks) < 2 ^ 30;
  o_state : ∃ pol raw pre,
    follows ts pol ∧ yields (source ts) raw ∧ holds (tokens ts) (slots pre) ∧
    (pre = [] ∨ raw = []) ∧ toks = pre ++ kept pol raw ∧
    Z.of_nat (length raw) < 2 ^ 30 ∧ (length raw < fuel)%nat
}.

Lemma filled_before fuel ts toks :
  before fuel ts toks →
  ∃ ts', filled next fuel ts = Ok ts' ∧ buffer ts' (TokenStreamNew toks) ∧
    lastMarker ts' = lastMarker ts.
Proof.
  intros [Hp Hb (pol & raw & pre & Hf & Hy & Hh & Hor & Ht & Hr & Hfu)].
  unfold filled. rewrite Hp. cbn [Z.eqb Pos.eqb]. unfold fillBuffer.
  destruct (fill_loop_ok raw ts pol pre fuel 0) as (src & v & q & -> & He & Hv); try done.
  - destruct Hor as [-> | ->]; [by left|by right].
  - rewrite Hp. lia.
  - destruct Hor as [-> | ->]; cbn in *; [lia|]. rewrite Ht, app_nil_r in Hb. lia.
  - rewrite Hp. lia.
  - rewrite <-Ht in Hv. cbn [mbind outcome_bind tokens set_source set_tokens].
    set (ts1 := set_p 0 _).
    assert (in_memory ts1 toks) as Hm.
    { split; cbn; [done| |by destruct Hf|done]. rewrite (h_count _ _ Hv). by rewrite length_slots. }
    change (p ts1) with (Z.of_nat 0). rewrite (skip_ok _ _ _ Hm). cbn [mbind outcome_bind].
    eexists. split; [reflexivity|]. split; [|done].
    split; try apply Hm; try done; cbn.
    + pose proof (skip_length toks 0) as Hs. cbn in Hs. lia.
    + apply (skip_at_token toks 0).
    + exists pol. by destruct Hf.
Qed.
Lemma filled_buffer fuel ts s : buffer ts s → filled next fuel ts = Ok ts.
Proof. intros Hb. unfold filled. rewrite (b_p _ _ Hb). destruct (Z.eqb_spec (Z.of_nat (TokenStream.p s)) (-1)); [lia|done]. Qed.

(** *** Reading *)

(** The tokens of the channel before the index. *)
Definition behind (s : TOKEN_STREAM) : list COMMON_TOKEN :=
  visible (take (TokenStream.p s) (TokenStream.tokens s)).

Lemma lt_loop_ok n ts toks i :
  in_memory ts toks → lt_loop n ts (Z.of_nat i) = Ok (Z.of_nat (lt_index n toks i)).
Proof.
  intros Hm. revert i. induction n as [|n IH]; intros i; [done|]. cbn [lt_loop lt_index].
  replace (Z.of_nat i + 1) with (Z.of_nat (S i)) by lia. by rewrite (skip_ok _ _ _ Hm), <-IH.
Qed.
Lemma lt_index_length n toks i : (lt_index n toks i ≤ Nat.max i (length toks) + n)%nat.
Proof.
  revert i. induction n as [|n IH]; intros i; cbn [lt_index]; [lia|].
  pose proof (skip_length toks (S i)). specialize (IH (TokenStream.skipOffTokenChannels toks (S i))). lia.
Qed.
Lemma ahead_length s : (length (ahead s) ≤ length (TokenStream.tokens s) - TokenStream.p s)%nat.
Proof.
  unfold ahead, visible. etransitivity; [apply length_filter|]. by rewrite length_drop.
Qed.

(** The [n]th token of the channel after the index. *)
Lemma lt_index_ok n toks i :
  at_token (mkTokenStream toks i) →
  at_token (mkTokenStream toks (lt_index n toks i)) ∧
  ahead (mkTokenStream toks (lt_index n toks i)) = drop n (ahead (mkTokenStream toks i)).
Proof.
  revert i. induction n as [|n IH]; intros i Ha; [done|]. cbn [lt_index].
  destruct (IH _ (skip_at_token toks (S i))) as [H1 H2]. split; [done|]. rewrite H2.
  unfold ahead at 1. cbn [TokenStream.p TokenStream.tokens]. rewrite drop_skip.
  destruct (decide (i < length toks)%nat) as [Hi|Hi].
  - by destruct (ahead_cons _ Ha Hi) as (t & _ & ->).
  - rewrite (proj2 (ahead_nil _ Ha)) by (cbn; lia). rewrite (drop_ge toks) by lia.
    change (visible []) with (@nil COMMON_TOKEN). by rewrite !drop_nil.
Qed.

Lemma tokLT_ahead fuel ts s k :
  buffer ts s → 0 < k < 2 ^ 30 → ∃ t,
    tokLT next fuel ts k = Ok (t, ts) ∧
    shown t = seen_or TheEnd (ahead s !! Z.to_nat (k - 1)).
Proof.
  intros Hb Hk. pose proof (buffer_memory _ _ Hb) as Hm. destruct s as [toks q].
  pose proof (b_le _ _ Hb) as Hq. pose proof (b_bound _ _ Hb) as Hn. cbn in Hq, Hn.
  pose proof (ahead_length (mkTokenStream toks q)) as Hl. cbn in Hl.
  unfold tokLT. destruct (Z.ltb_spec k 0); [lia|]. rewrite (filled_buffer fuel _ _ Hb).
  cbn [mbind outcome_bind]. rewrite (b_p _ _ Hb), (b_cached _ _ Hb). cbn [TokenStream.p TokenStream.tokens] in *.
  rewrite !int_op_ok by (unfold INT_MIN, INT_MAX; lia). cbn [mbind outcome_bind].
  rewrite int_op_ok by (unfold INT_MIN, INT_MAX; lia). cbn [mbind outcome_bind].
  rewrite sint_small by lia. destruct (Z.leb_spec (Z.of_nat (length toks)) (Z.of_nat q + k - 1)) as [Hge|Hlt].
  { eexists. split; [done|]. cbn. rewrite lookup_ge_None_2; [done|]. lia. }
  rewrite (lt_loop_ok _ _ toks) by done. cbn [mbind outcome_bind].
  destruct (lt_index_ok (Z.to_nat (k - 1)) toks q (b_at _ _ Hb)) as [Ha Hd].
  set (j := lt_index (Z.to_nat (k - 1)) toks q) in *.
  pose proof (lt_index_length (Z.to_nat (k - 1)) toks q) as Hj. fold j in Hj. rewrite u32_small by lia.
  pose proof (ahead_nil _ Ha) as Hnil. cbn [TokenStream.p TokenStream.tokens] in Hnil.
  rewrite <-(Nat.add_0_r (Z.to_nat (k - 1))), <-lookup_drop, <-Hd.
  destruct (Z.leb_spec (Z.of_nat (length toks)) (Z.of_nat j)) as [Hge|Hlt'].
  - eexists. split; [done|]. rewrite (proj2 Hnil) by lia. done.
  - destruct (ahead_cons _ Ha) as (t & Ht & ->); [cbn; lia|]. cbn in Ht.
    rewrite (element_at_ok _ _ _ _ Hm Ht). by eexists.
Qed.

(** The entries behind an index: the last one of the channel is at [back i - 1]. *)
Fixpoint back (toks : list COMMON_TOKEN) (i : nat) : nat :=
  match i with
  | O => O
  | S i' => match toks !! i' with
            | Some t => if on_channel t then i else back toks i'
            | None => back toks i'
            end
  end.
Lemma skip_reverse_ok ts toks i :
  in_memory ts toks → (i ≤ length toks)%nat →
  skipOffTokenChannelsReverse ts (Z.of_nat i - 1) = Ok (Z.of_nat (back toks i) - 1).
Proof.
  intros Hm. unfold skipOffTokenChannelsReverse.
  replace (Z.to_nat (Z.of_nat i - 1 + 1)) with i by lia.
  induction i as [|i IH]; intros Hi; [done|]. cbn [skip_backward back].
  replace (Z.of_nat (S i) - 1) with (Z.of_nat i) by lia.
  destruct (lookup_lt_is_Some_2 toks i) as [t Ht]; [lia|].
  rewrite (off_channel_ok _ _ _ _ Hm Ht), Ht. cbn [mbind outcome_bind].
  destruct (on_channel t); cbn; [do 2 f_equal; lia|]. apply IH. lia.
Qed.
Lemma back_visible toks i :
  (i ≤ length toks)%nat →
  match back toks i with
  | O => visible (take i toks) = []
  | S j => (j < i)%nat ∧ ∃ t, toks !! j = Some t ∧ visible (take i toks) = visible (take j toks) ++ [t]
  end.
Proof.
  induction i as [|i IH]; intros Hi; [done|]. cbn [back].
  destruct (lookup_lt_is_Some_2 toks i) as [t Ht]; [lia|]. rewrite Ht.
  rewrite (take_S_r _ _ t) by done. rewrite visible_app.
  destruct (on_channel t) eqn:Et.
  - split; [lia|]. exists t. split; [done|]. f_equal. unfold visible.
    by rewrite filter_cons_True.
  - assert (visible [t] = []) as ->.
    { unfold visible. rewrite filter_cons_False; [done|]. by rewrite Et. }
    rewrite app_nil_r. specialize (IH ltac:(lia)). destruct (back toks i) as [|j]; [done|].
    destruct IH as [Hj IH]. split; [lia|done].
Qed.

Lemma lb_loop_negative n ts i : i < 0 → lb_loop n ts i = Ok (i - Z.of_nat n).
Proof.
  revert i. induction n as [|n IH]; intros i Hi; cbn [lb_loop]; [do 2 f_equal; lia|].
  unfold skipOffTokenChannelsReverse. replace (Z.to_nat (i - 1 + 1)) with O by lia.
  cbn [skip_backward mbind outcome_bind]. rewrite IH by lia. f_equal. lia.
Qed.
Lemma lb_loop_ok n ts toks i :
  in_memory ts toks → (i ≤ length toks)%nat → ∃ j,
    lb_loop (S n) ts (Z.of_nat i) = Ok j ∧
    match reverse (visible (take i toks)) !! n with
    | Some t => 0 ≤ j ∧ toks !! Z.to_nat j = Some t
    | None => j < 0
    end.
Proof.
  intros Hm. revert i. induction n as [|n IH]; intros i Hi; cbn [lb_loop].
  all: rewrite (skip_reverse_ok _ _ _ Hm Hi); cbn [mbind outcome_bind].
  all: pose proof (back_visible toks i Hi) as Hb; destruct (back toks i) as [|j].
  - eexists. split; [done|]. rewrite Hb. cbn. lia.
  - destruct Hb as (Hj & t & Ht & ->). eexists. split; [done|]. rewrite reverse_snoc. cbn.
    replace (Z.to_nat (Z.of_nat (S j) - 1)) with j by lia. split; [lia|done].
  - eexists. split; [apply (lb_loop_negative (S n)); lia|]. rewrite Hb. cbn. lia.
  - destruct Hb as (Hj & t & Ht & ->). replace (Z.of_nat (S j) - 1) with (Z.of_nat j) by lia.
    destruct (IH j) as (r & E & Hr); [lia|]. exists r. split; [done|]. by rewrite reverse_snoc.
Qed.

Lemma tokLT_behind fuel ts s k :
  buffer ts s → 0 < k < 2 ^ 30 → ∃ t,
    tokLT next fuel ts (- k) = Ok (t, ts) ∧ shown t = seen_or Nothing (reverse (behind s) !! Z.to_nat (k - 1)).
Proof.
  intros Hb Hk. pose proof (buffer_memory _ _ Hb) as Hm. destruct s as [toks q].
  pose proof (b_le _ _ Hb) as Hq. pose proof (b_bound _ _ Hb) as Hn. cbn in Hq, Hn.
  unfold tokLT. destruct (Z.ltb_spec (- k) 0); [|lia]. rewrite int_op_ok by (unfold INT_MIN, INT_MAX; lia).
  cbn [mbind outcome_bind]. rewrite Z.opp_involutive. unfold LB. rewrite (filled_buffer fuel _ _ Hb).
  cbn [mbind outcome_bind]. destruct (Z.eqb_spec k 0); [lia|]. rewrite (b_p _ _ Hb). cbn [TokenStream.p].
  rewrite int_op_ok by (unfold INT_MIN, INT_MAX; lia). cbn [mbind outcome_bind].
  unfold behind. cbn [TokenStream.p TokenStream.tokens].
  assert (length (visible (take q toks)) ≤ q)%nat as Hv.
  { etransitivity; [apply length_filter|]. rewrite length_take. lia. }
  destruct (Z.ltb_spec (Z.of_nat q - k) 0) as [Hlt|Hge].
  { exists None. split; [done|]. rewrite lookup_ge_None_2; [done|]. rewrite length_reverse. lia. }
  destruct (lb_loop_ok (Z.to_nat (k - 1)) ts toks q Hm Hq) as (j & E & Hj).
  replace (S (Z.to_nat (k - 1))) with (Z.to_nat k) in E by lia. rewrite E. cbn [mbind outcome_bind].
  destruct (reverse _ !! _) as [t|].
  - destruct Hj as [Hj0 Hj]. destruct (Z.ltb_spec j 0); [lia|].
    rewrite <-(Z2Nat.id j), (element_at_ok _ _ _ _ Hm Hj) by done. by eexists.
  - destruct (Z.ltb_spec j 0); [|lia]. by exists None.
Qed.

(** A stream that was filled, wherever its index is. *)
Record loaded ts (toks : list COMMON_TOKEN) : Prop := {
  l_memory : in_memory ts toks;
  l_ended : ended (source ts);
  l_follows : ∃ pol, follows ts pol
}.
Definition place_at (toks : list COMMON_TOKEN) (q n : nat) : Prop :=
  (q ≤ length toks)%nat ∧ at_token (mkTokenStream toks q) ∧
  (n + length (ahead (mkTokenStream toks q)) = length (visible toks))%nat.
Lemma buffer_loaded ts toks q :
  buffer ts (mkTokenStream toks q) ↔
  loaded ts toks ∧ p ts = Z.of_nat q ∧ (q ≤ length toks)%nat ∧ at_token (mkTokenStream toks q).
Proof.
  split.
  - intros Hb. pose proof Hb as []. split_and!; [|done..]. by split; [apply (buffer_memory _ _ Hb)|..].
  - intros ([[] ? ?] & ? & ? & ?). by split.
Qed.
Lemma place_split toks q n :
  place_at toks q n →
  ahead (mkTokenStream toks q) = drop n (visible toks) ∧
  behind (mkTokenStream toks q) = take n (visible toks).
Proof.
  intros (_ & _ & Hn). pose proof (LB1_visible (mkTokenStream toks q)) as E. unfold behind.
  cbn [TokenStream.p TokenStream.tokens] in *. pose proof (f_equal length E) as El.
  rewrite length_app in El. rewrite E.
  assert (n = length (visible (take q toks))) as -> by lia.
  by rewrite drop_app_length, take_app_length.
Qed.
Lemma place_new toks : place_at toks (TokenStream.skipOffTokenChannels toks 0) 0.
Proof.
  pose proof (skip_length toks 0). split; [lia|]. split; [apply skip_at_token|].
  pose proof (ahead_new toks) as E. unfold TokenStreamNew in E. by rewrite E.
Qed.

(** Consuming moves on by one token of the channel. *)
Lemma consume_loaded ts toks q n :
  loaded ts toks → p ts = Z.of_nat q → place_at toks q n → ∃ q',
    consume ts = Ok (set_p (Z.of_nat q') ts) ∧
    place_at toks q' (Nat.min (S n) (length (visible toks))).
Proof.
  intros [Hm _ _] Hp (Hq & Hat & Hn). pose proof (m_bound _ _ Hm) as Hb.
  unfold consume. rewrite Hp, (h_count _ _ (m_holds _ _ Hm)), length_slots, u32_small by lia.
  destruct (Z.ltb_spec (Z.of_nat q) (Z.of_nat (length toks))) as [Hlt|Hge].
  - rewrite int_op_ok by (unfold INT_MIN, INT_MAX; lia). cbn [mbind outcome_bind].
    replace (Z.of_nat q + 1) with (Z.of_nat (S q)) by lia. rewrite (skip_ok _ _ _ Hm).
    eexists. split; [reflexivity|]. pose proof (skip_length toks (S q)). split; [lia|].
    split; [apply skip_at_token|].
    pose proof (ahead_consume _ Hat) as Hc. unfold tok_consume in Hc.
    cbn [TokenStream.p TokenStream.tokens] in Hc. destruct (Nat.ltb_spec q (length toks)) as [Hlt'|]; [|lia].
    rewrite Hc. destruct (ahead_cons _ Hat Hlt') as (t & _ & Et). rewrite Et in *. cbn [tail length] in *. lia.
  - exists q. split; [destruct ts; cbn in *; by subst|]. split; [done|]. split; [done|].
    rewrite (proj2 (ahead_nil _ Hat)) in * by (cbn; lia). cbn [length] in *. lia.
Qed.

(** *** The requests of a reader *)

Inductive request : Type :=
| Look (k : Z)
| LookType (k : Z)
| Consume
| Mark
| Rewind (i : nat)
| RewindLast.
Inductive reply : Type :=
| Token (x : SIGHT)
| Type_ (ty : Z)
| Done.

(** The reader keeps the markers that it was given. *)
Definition serve (fuel : nat) (q : request) (st : COMMON_TOKEN_STREAM Src * list Z)
    : outcome (reply * (COMMON_TOKEN_STREAM Src * list Z)) :=
  let '(ts, ms) := st in
  match q with
  | Look k => '(t, ts) ← tokLT next fuel ts k; Ok (Token (shown t), (ts, ms))
  | LookType k => '(ty, ts) ← _LA next fuel ts k; Ok (Type_ ty, (ts, ms))
  | Consume => ts ← consume ts; Ok (Done, (ts, ms))
  | Mark => let '(m, ts) := mark ts in Ok (Done, (ts, ms ++ [m]))
  | Rewind i => m ← Prelude.index ms (Z.of_nat i); Ok (Done, (rewindStream ts m, ms))
  | RewindLast => Ok (Done, (rewindLast ts, ms))
  end.
Fixpoint serve_all (fuel : nat) (qs : list request) (st : COMMON_TOKEN_STREAM Src * list Z)
    : outcome (list reply * (COMMON_TOKEN_STREAM Src * list Z)) :=
  match qs with
  | [] => Ok ([], st)
  | q :: qs =>
      '(r, st) ← serve fuel q st;
      '(rs, st) ← serve_all fuel qs st;
      Ok (r :: rs, st)
  end.
End stream.

(** The specification: a list of tokens, the number of those that were consumed,
    which is absent until the first look, and the places that were marked. *)
Record READER : Type := mkReader {
  place : option nat;
  marks : list (option nat)
}.
Definition view (v : list COMMON_TOKEN) (n : nat) (k : Z) : SIGHT :=
  if 0 <? k then seen_or TheEnd (drop n v !! Z.to_nat (k - 1))
  else seen_or Nothing (reverse (take n v) !! Z.to_nat (- k - 1)).
Definition answer (v : list COMMON_TOKEN) (q : request) (rd : READER) : option (reply * READER) :=
  let here := default 0%nat (place rd) in
  let look k r := if decide (0 < Z.abs k < 2 ^ 30)
                  then Some (r (view v here k), mkReader (Some here) (marks rd)) else None in
  match q with
  | Look k => look k Token
  | LookType k => look k (λ x, Type_ (type_of x))
  | Consume => Some (Done, mkReader ((λ n, Nat.min (S n) (length v)) <$> place rd) (marks rd))
  | Mark => Some (Done, mkReader (place rd) (marks rd ++ [place rd]))
  | Rewind i => (λ pl, (Done, mkReader pl (marks rd))) <$> marks rd !! i
  | RewindLast => (λ pl, (Done, mkReader pl (marks rd))) <$> last (marks rd)
  end.
Fixpoint answers (v : list COMMON_TOKEN) (qs : list request) (rd : READER)
    : option (list reply * READER) :=
  match qs with
  | [] => Some ([], rd)
  | q :: qs =>
      '(r, rd) ← answer v q rd;
      '(rs, rd) ← answers v qs rd;
      Some (r :: rs, rd)
  end.

Section simulation.
Context `{TokenSource Src}.
Implicit Types ts : COMMON_TOKEN_STREAM Src.

Definition mark_at (toks : list COMMON_TOKEN) (z : Z) (pl : option nat) : Prop :=
  match pl with
  | None => z = -1
  | Some n => ∃ q, z = Z.of_nat q ∧ place_at toks q n
  end.

Record reading (fuel : nat) (toks : list COMMON_TOKEN) (st : COMMON_TOKEN_STREAM Src * list Z)
    (rd : READER) : Prop := {
  r_place : mark_at toks (p st.1) (place rd);
  r_marks : Forall2 (mark_at toks) st.2 (marks rd);
  r_last : ∀ pl, last (marks rd) = Some pl → mark_at toks (lastMarker st.1) pl;
  r_state : loaded st.1 toks ∨ (before fuel st.1 toks ∧ Forall (λ pl, pl = None) (marks rd))
}.

Lemma tokLT_filled fuel ts ts' k :
  filled next fuel ts = Ok ts' → filled next fuel ts' = Ok ts' →
  tokLT next fuel ts k = tokLT next fuel ts' k.
Proof.
  intros E E'. unfold tokLT, LB. destruct (k <? 0).
  - destruct (int_op (- k)); [|done..]. cbn [mbind outcome_bind]. by rewrite E, E'.
  - by rewrite E, E'.
Qed.

(** Before the first look, the look fills the buffer. *)
Lemma reading_filled fuel toks ts ms rd :
  (0 < fuel)%nat → reading fuel toks (ts, ms) rd → ∃ ts' q,
    filled next fuel ts = Ok ts' ∧ buffer ts' (mkTokenStream toks q) ∧
    place_at toks q (default 0%nat (place rd)) ∧ lastMarker ts' = lastMarker ts.
Proof.
  intros Hfu [Hp _ _ Hs]. cbn [fst] in *. destruct (place rd) as [n|]; cbn [mark_at default] in *.
  - destruct Hp as (q & Hp & Hq). destruct Hs as [Hl|[Hb _]]; [|destruct Hb; lia].
    assert (buffer ts (mkTokenStream toks q)) as Hb.
    { apply buffer_loaded. destruct Hq as (? & ? & ?). done. }
    exists ts, q. split_and!; try done. by apply (filled_buffer _ _ _ Hb).
  - assert (before fuel ts toks) as Hb.
    { destruct Hs as [[Hm He [pol Hf]]|[Hb _]]; [|done]. split; [done|apply Hm|].
      destruct (next_ended _ He) as (s' & E & He'). exists pol, [], toks.
      split; [done|]. split; [by apply (yields_end _ s')|]. split; [apply Hm|].
      rewrite app_nil_r. split_and!; [by right|done|done|done]. }
    destruct (filled_before _ _ _ Hb) as (ts' & E & Hb' & El).
    exists ts', (TokenStream.skipOffTokenChannels toks 0). split_and!; [done|done|apply place_new|done].
Qed.

Lemma look_ok fuel toks ts ms rd k :
  (0 < fuel)%nat → reading fuel toks (ts, ms) rd → 0 < Z.abs k < 2 ^ 30 → ∃ t ts',
    tokLT next fuel ts k = Ok (t, ts') ∧
    shown t = view (visible toks) (default 0%nat (place rd)) k ∧
    reading fuel toks (ts', ms) (mkReader (Some (default 0%nat (place rd))) (marks rd)).
Proof.
  intros Hfu Hr Hk. destruct (reading_filled _ _ _ _ _ Hfu Hr) as (ts' & q & E & Hb & Hq & El).
  rewrite (tokLT_filled fuel ts ts') by (done || by apply (filled_buffer _ _ _ Hb)).
  destruct (place_split _ _ _ Hq) as [Ha Hbe].
  assert (reading fuel toks (ts', ms) (mkReader (Some (default 0%nat (place rd))) (marks rd))) as Hr'.
  { apply buffer_loaded in Hb as (Hl & Hp & _). destruct Hr. split; cbn in *.
    - by exists q.
    - done.
    - by rewrite El.
    - by left. }
  unfold view. destruct (Z.ltb_spec 0 k).
  - destruct (tokLT_ahead fuel ts' _ k Hb) as (t & -> & Ht); [lia|]. rewrite Ha in Ht. by exists t, ts'.
  - destruct (tokLT_behind fuel ts' _ (- k) Hb) as (t & Et & Ht); [lia|].
    rewrite Z.opp_involutive in Et. rewrite Et, Hbe in *. by exists t, ts'.
Qed.

(** Going back to a marker. *)
Lemma rewind_ok fuel toks ts ms rd z pl :
  reading fuel toks (ts, ms) rd → mark_at toks z pl → pl ∈ marks rd →
  reading fuel toks (rewindStream ts z, ms) (mkReader pl (marks rd)).
Proof.
  intros [Hp Hms Hla Hs] Hz Hpl. cbn [fst snd] in *.
  assert (Z.of_nat (length toks) < 2 ^ 30) as Hb.
  { destruct Hs as [[[] _ _]|[[] _]]; done. }
  assert (sint 32 (u32 (u32 z)) = z) as Ez.
  { destruct pl as [n|]; cbn in Hz; [|by subst].
    destruct Hz as (q & -> & Hq & _). rewrite (u32_small (Z.of_nat q)), u32_small, sint_small; lia. }
  split; cbn [fst snd place marks].
  - unfold rewindStream, seek. cbn [p set_p]. by rewrite Ez.
  - done.
  - done.
  - destruct Hs as [[Hm He [pol Hf]]|[Hbe Hn]].
    + left. split; [by destruct Hm|done|]. exists pol. by destruct Hf.
    + right. split; [|done]. assert (pl = None) as -> by (by eapply Forall_forall in Hn).
      cbn in Hz. subst z. unfold rewindStream, seek. rewrite Ez, <-(o_p _ _ _ Hbe). by destruct ts.
Qed.

Lemma request_ok fuel toks q st rd r rd' :
  (0 < fuel)%nat → reading fuel toks st rd → answer (visible toks) q rd = Some (r, rd') →
  ∃ st', serve fuel q st = Ok (r, st') ∧ reading fuel toks st' rd'.
Proof.
  intros Hfu Hr. destruct st as [ts ms]. destruct q as [k|k| | |i|]; cbn [answer serve].
  - case_decide as Hk; [|done]. intros [= <- <-].
    destruct (look_ok fuel toks ts ms rd k Hfu Hr Hk) as (t & ts' & -> & <- & Hr').
    cbn [mbind outcome_bind]. eauto.
  - case_decide as Hk; [|done]. intros [= <- <-].
    destruct (look_ok fuel toks ts ms rd k Hfu Hr Hk) as (t & ts' & E & <- & Hr').
    unfold _LA. rewrite E. cbn [mbind outcome_bind]. eexists. split; [|exact Hr'].
    destruct t as [[]|]; done.
  - intros [= <- <-]. destruct Hr as [Hp Hms Hla Hs]. cbn [fst snd] in *.
    destruct (place rd) as [n|] eqn:Epl; cbn [mark_at] in Hp.
    + destruct Hp as (q & Hp & Hq). destruct Hs as [Hl|[Hb _]]; [|destruct Hb; lia].
      destruct (consume_loaded _ _ _ _ Hl Hp Hq) as (q' & -> & Hq'). cbn [mbind outcome_bind].
      eexists. split; [done|]. split; cbn [fst snd place marks fmap option_fmap option_map]; try done.
      * by exists q'.
      * left. destruct Hl as [[] ? [pol []]]. split; [by split|done|]. by exists pol.
    + exists (ts, ms). split; [|split; cbn; try done].
      unfold consume. rewrite Hp. destruct (Z.ltb_spec (u32 (-1)) (Vector.count (tokens ts))) as [Hlt|]; [|done].
      change (u32 (-1)) with (2 ^ 32 - 1) in Hlt.
      assert (Vector.count (tokens ts) < 2 ^ 30); [|lia].
      destruct Hs as [[[Hh _ _ Hb] _ _]|[[_ Hb (pol & raw & pre & _ & _ & Hh & _ & -> & _)] _]].
      * by rewrite (h_count _ _ Hh), length_slots.
      * rewrite length_app in Hb. rewrite (h_count _ _ Hh), length_slots. lia.
  - intros [= <- <-]. cbn [mark]. eexists. split; [reflexivity|]. destruct Hr as [Hp Hms Hla Hs]. cbn [fst snd] in *.
    split; cbn [fst snd place marks].
    + done.
    + apply Forall2_app; [done|]. by constructor.
    + intros pl. rewrite last_snoc. by intros [= <-].
    + destruct Hs as [[[] ? [pol []]]|[[? ? (pol & raw & pre & [] & Hs)] Hn]].
      * left. split; [by split|done|]. by exists pol.
      * right. split; [split; [done|done|]|].
        -- exists pol, raw, pre. by split.
        -- apply Forall_app. split; [done|]. constructor; [|done].
           destruct (place rd) as [n|]; [|done]. cbn in Hp. destruct Hp as (? & ? & _). lia.
  - intros E. destruct (marks rd !! i) as [pl|] eqn:Ei; [|done]. injection E as <- <-.
    destruct (Forall2_lookup_r _ _ _ _ _ (r_marks _ _ _ _ Hr) Ei) as (z & Hz & Hzp). cbn [fst snd] in Hz.
    rewrite (index_lookup ms _ z) by (lia || by rewrite Nat2Z.id).
    cbn [mbind outcome_bind]. eexists. split; [done|].
    apply (rewind_ok _ _ _ _ rd); [done|done|]. by eapply list_elem_of_lookup_2.
  - intros E. destruct (last (marks rd)) as [pl|] eqn:Ei; [|done]. injection E as <- <-.
    eexists. split; [done|]. apply (rewind_ok _ _ _ _ rd); [done|by apply (r_last _ _ _ _ Hr)|].
    by apply last_Some_elem_of.
Qed.

Lemma requests_ok fuel toks qs : ∀ st rd rs rd',
  (0 < fuel)%nat → reading fuel toks st rd → answers (visible toks) qs rd = Some (rs, rd') →
  ∃ st', serve_all fuel qs st = Ok (rs, st') ∧ reading fuel toks st' rd'.
Proof.
  induction qs as [|q qs IH]; intros st rd rs rd' Hfu Hr; cbn [answers serve_all].
  - intros [= <- <-]. eauto.
  - destruct (answer (visible toks) q rd) as [[r rd1]|] eqn:E1; [|done]. cbn [mbind option_bind].
    destruct (answers (visible toks) qs rd1) as [[rs1 rd2]|] eqn:E2; [|done]. cbn [mbind option_bind].
    intros [= <- <-]. destruct (request_ok _ _ _ _ _ _ _ Hfu Hr E1) as (st1 & -> & Hr1).
    cbn [mbind outcome_bind]. destruct (IH _ _ _ _ Hfu Hr1 E2) as (st2 & -> & Hr2).
    cbn [mbind outcome_bind]. eauto.
Qed.

Lemma follows_new (src : Src) : follows (CommonTokenStreamSourceNew src) no_policy.
Proof. by split. Qed.

(** A new stream over a source, after it was set up. *)
Lemma before_new fuel src raw qs :
  yields src raw → Z.of_nat (length raw) < 2 ^ 30 → (length raw < fuel)%nat →
  Forall setting_ok qs → ∃ ts,
    set_up_all qs (CommonTokenStreamSourceNew src) = Ok ts ∧
    before fuel ts (kept (foldl (flip decided) no_policy qs) raw).
Proof.
  intros Hy Hb Hfu Hqs.
  destruct (set_up_all_ok qs _ _ Hqs (follows_new src)) as (ts & E & (Hs & Ht & Hp & _) & Hf).
  exists ts. split; [done|].
  assert (length (kept (foldl (flip decided) no_policy qs) raw) ≤ length raw)%nat as Hl.
  { unfold kept. clear. induction raw as [|t raw IH]; [done|]. cbn.
    destruct (kept_token _ t); cbn; lia. }
  split; [done|lia|]. exists (foldl (flip decided) no_policy qs), raw, []. rewrite Hs, Ht.
  split_and!; try done; [apply (VectorNew_holds 0); lia|by left].
Qed.

(** *** Text and ranges *)

Lemma get_ok ts toks i :
  in_memory ts toks →
  get ts (Z.of_nat i) = Ok ((λ t, mkBuffered t (Z.of_nat i)) <$> toks !! i).
Proof.
  intros Hm. unfold get, VectorGet. rewrite (h_count _ _ (m_holds _ _ Hm)), length_slots.
  destruct (Z.ltb_spec (Z.of_nat i) (Z.of_nat (length toks))).
  - destruct (lookup_lt_is_Some_2 toks i) as [t Ht]; [lia|].
    by rewrite (read_slot_ok _ _ _ _ (m_holds _ _ Hm) (lookup_slots _ _ _ Ht)), Ht.
  - by rewrite lookup_ge_None_2 by lia.
Qed.

Definition text_of (toks : list COMMON_TOKEN) : str := concat (tok_text <$> toks).
Definition slice {A} (start stop : nat) (l : list A) : list A := take (S stop - start) (drop start l).

Lemma text_loop_ok rounds ts toks start stop string :
  in_memory ts toks → (stop < length toks)%nat → (S stop - start < rounds)%nat →
  text_loop rounds ts (Z.of_nat start) (Z.of_nat stop) string
  = Ok (string ++ text_of (slice start stop toks)).
Proof.
  intros Hm Hs. pose proof (m_bound _ _ Hm).
  revert start string. induction rounds as [|rounds IH]; intros start string Hr; [lia|].
  cbn [text_loop]. unfold slice. destruct (Z.leb_spec (Z.of_nat start) (Z.of_nat stop)).
  - rewrite (get_ok _ _ _ Hm). destruct (lookup_lt_is_Some_2 toks start) as [t Ht]; [lia|].
    rewrite Ht. cbn [fmap option_fmap option_map mbind outcome_bind].
    rewrite u32_small by lia. replace (Z.of_nat start + 1) with (Z.of_nat (S start)) by lia.
    rewrite IH by lia. rewrite (drop_S _ _ _ Ht).
    replace (S stop - start)%nat with (S (S stop - S start)) by lia.
    unfold slice. cbn [take]. unfold text_of. cbn. by rewrite <-app_assoc.
  - replace (S stop - start)%nat with 0%nat by lia. unfold text_of. cbn. by rewrite app_nil_r.
Qed.

(** The list that a range is put in. *)
Definition list_holds (l : HASH_TABLE BUFFERED) (xs : list BUFFERED) : Prop :=
  ∃ m, int_table l m ∧ base.size m = length xs ∧
    ∀ k, m !! k = if decide (0 ≤ k) then (λ x, (Some x, false)) <$> xs !! Z.to_nat k else None.
Lemma list_holds_put l xs x :
  list_holds l xs → ∃ r l',
    ListPut l (Z.of_nat (length xs)) (Some x) false = Ok (r, l') ∧ list_holds l' (xs ++ [x]).
Proof.
  intros (m & Hm & Hn & Hk). destruct (int_put _ m (Z.of_nat (length xs)) (Some x) false Hm) as (l' & E & Ht).
  assert (m !! Z.of_nat (length xs) = None) as Hnone.
  { rewrite Hk, decide_True, Nat2Z.id, lookup_ge_None_2 by lia. done. }
  rewrite Hnone in *. unfold ListPut. rewrite E. do 2 eexists. split; [done|].
  eexists. split; [exact Ht|]. split; [rewrite map_size_insert_None by done; rewrite length_app; cbn; lia|].
  intros k. destruct (decide (k = Z.of_nat (length xs))) as [->|Hne].
  - by rewrite lookup_insert_eq, decide_True, Nat2Z.id, list_lookup_middle by lia.
  - rewrite lookup_insert_ne, Hk by done. case_decide; [|done]. f_equal.
    destruct (decide (Z.to_nat k < length xs)%nat); [by rewrite lookup_app_l|].
    rewrite !lookup_ge_None_2; [done|rewrite length_app; cbn; lia|lia].
Qed.
Lemma list_holds_get l xs i : list_holds l xs → ListGet l (Z.of_nat i) = Ok (xs !! i).
Proof.
  intros (m & Hm & _ & Hk). rewrite (int_get _ m _ Hm), Hk, decide_True, Nat2Z.id by lia.
  by destruct (xs !! i).
Qed.

Definition numbered (toks : list COMMON_TOKEN) : list BUFFERED :=
  imap (λ i t, mkBuffered t (Z.of_nat i)) toks.

Lemma range_loop_ok rounds ts toks start stop l xs :
  in_memory ts toks → (stop < length toks)%nat → (S stop - start < rounds)%nat →
  Z.of_nat (length xs) + Z.of_nat (S stop - start) < 2 ^ 32 → list_holds l xs →
  ∃ l', range_loop rounds ts None (Z.of_nat start) (Z.of_nat stop) (Z.of_nat (length xs)) l = Ok l' ∧
    list_holds l' (xs ++ slice start stop (numbered toks)).
Proof.
  intros Hm Hs. pose proof (m_bound _ _ Hm).
  revert start l xs. induction rounds as [|rounds IH]; intros start l xs Hr Hb Hl; [lia|].
  cbn [range_loop]. unfold slice. destruct (Z.leb_spec (Z.of_nat start) (Z.of_nat stop)).
  - rewrite (get_ok _ _ _ Hm). destruct (lookup_lt_is_Some_2 toks start) as [t Ht]; [lia|].
    rewrite Ht. cbn [fmap option_fmap option_map mbind outcome_bind].
    destruct (list_holds_put _ _ (mkBuffered t (Z.of_nat start)) Hl) as (r & l1 & -> & Hl1).
    cbn [mbind outcome_bind].
    rewrite (u32_small (Z.of_nat start + 1)), (u32_small (Z.of_nat (length xs) + 1)) by lia.
    replace (Z.of_nat start + 1) with (Z.of_nat (S start)) by lia.
    replace (Z.of_nat (length xs) + 1) with (Z.of_nat (length (xs ++ [mkBuffered t (Z.of_nat start)])))
      by (rewrite length_app; cbn; lia).
    destruct (IH (S start) l1 (xs ++ [mkBuffered t (Z.of_nat start)])) as (l' & E & Hl');
      [lia| |done|].
    { rewrite length_app. cbn [length]. lia. }
    exists l'. split; [done|]. rewrite (drop_S _ (mkBuffered t (Z.of_nat start)))
      by (unfold numbered; by rewrite list_lookup_imap, Ht).
    replace (S stop - start)%nat with (S (S stop - S start)) by lia.
    cbn [take]. unfold slice in Hl'. by rewrite <-app_assoc in Hl'.
  - replace (S stop - start)%nat with 0%nat by lia. rewrite app_nil_r. eauto.
Qed.
(** *** The debugger *)

Lemma tell_hidden_ok n (ds : DEBUG_STREAM Src) toks q :
  in_memory (stream ds) toks → (q + n ≤ length toks)%nat →
  tell_hidden n (Z.of_nat q) ds
  = Ok (mkDebug (stream ds) (initialStreamState ds)
          (debugger ds ++ ((λ t, ConsumeHiddenToken (Some t)) <$> take n (drop q (numbered toks))))).
Proof.
  intros Hm. pose proof (m_bound _ _ Hm). revert q ds Hm.
  induction n as [|n IH]; intros q ds Hm Hq; cbn [tell_hidden].
  - cbn. rewrite app_nil_r. by destruct ds.
  - rewrite u32_small, (get_ok _ _ _ Hm) by lia.
    destruct (lookup_lt_is_Some_2 toks q) as [t Ht]; [lia|]. rewrite Ht.
    cbn [fmap option_fmap option_map mbind outcome_bind].
    replace (Z.of_nat q + 1) with (Z.of_nat (S q)) by lia. rewrite IH by (done || lia).
    rewrite (drop_S (numbered toks) (mkBuffered t (Z.of_nat q)) q)
      by (unfold numbered; by rewrite list_lookup_imap, Ht).
    cbn [take]. unfold tell. cbn. by rewrite <-app_assoc.
Qed.

Lemma tokLT_here fuel ts toks q t :
  buffer ts (mkTokenStream toks q) → toks !! q = Some t →
  tokLT next fuel ts 1 = Ok (Some (InBuffer (mkBuffered t (Z.of_nat q))), ts).
Proof.
  intros Hb Ht. assert (q < length toks)%nat as Hlt by (by eapply lookup_lt_Some).
  apply buffer_loaded in Hb as Hl. destruct Hl as ([Hm _ _] & Hp & _). pose proof (m_bound _ _ Hm).
  unfold tokLT. cbn [Z.ltb Z.compare]. rewrite (filled_buffer fuel _ _ Hb). cbn [mbind outcome_bind].
  rewrite Hp, (m_cached _ _ Hm). rewrite int_op_ok by (unfold INT_MIN, INT_MAX; lia).
  cbn [mbind outcome_bind]. rewrite int_op_ok by (unfold INT_MIN, INT_MAX; lia).
  cbn [mbind outcome_bind]. rewrite sint_small by lia.
  destruct (Z.leb_spec (Z.of_nat (length toks)) (Z.of_nat q + 1 - 1)); [lia|].
  change (Z.to_nat (1 - 1)) with 0%nat. cbn [lt_loop mbind outcome_bind]. rewrite u32_small by lia.
  destruct (Z.leb_spec (Z.of_nat (length toks)) (Z.of_nat q)); [lia|].
  by rewrite (element_at_ok _ _ _ _ Hm Ht).
Qed.

(** Once the buffer is filled, consuming tells the debugger of the token that is
    consumed, then of those that are skipped. *)
Lemma dbgConsume_ok fuel (ds : DEBUG_STREAM Src) toks q n t :
  loaded (stream ds) toks → p (stream ds) = Z.of_nat q → place_at toks q n → toks !! q = Some t →
  initialStreamState ds = false → ∃ ds' q',
    dbgConsume next fuel ds = Ok ds' ∧ loaded (stream ds') toks ∧ p (stream ds') = Z.of_nat q' ∧
    place_at toks q' (Nat.min (S n) (length (visible toks))) ∧ initialStreamState ds' = false ∧
    (q < q')%nat ∧
    debugger ds' = debugger ds ++ ConsumeToken (Some (InBuffer (mkBuffered t (Z.of_nat q))))
      :: ((λ t, ConsumeHiddenToken (Some t)) <$> take (q' - S q) (drop (S q) (numbered toks))).
Proof.
  intros Hl Hp Hq Ht Hi. pose proof Hq as (Hle & Hat & Hn).
  assert (buffer (stream ds) (mkTokenStream toks q)) as Hb by (apply buffer_loaded; done).
  assert (q < length toks)%nat as Hlt by (by eapply lookup_lt_Some).
  pose proof (tokLT_here fuel _ _ _ _ Hb Ht) as Ex.
  destruct (consume_loaded _ _ _ _ Hl Hp Hq) as (q' & Ec & Hq').
  assert (q < q')%nat as Hlt'.
  { destruct (ahead_cons _ Hat Hlt) as (u & _ & Eu). destruct Hq' as (_ & _ & Hn').
    destruct (decide (q' ≤ q)%nat) as [Hge|]; [|lia]. exfalso.
    rewrite Eu in Hn. cbn [length] in Hn.
    assert (length (ahead (mkTokenStream toks q)) ≤ length (ahead (mkTokenStream toks q')))%nat as Hm.
    { unfold ahead. cbn [TokenStream.p TokenStream.tokens].
      rewrite <-(take_drop (q - q') (drop q' toks)), visible_app, drop_drop, length_app.
      replace (q' + (q - q'))%nat with q by lia. lia. }
    rewrite Eu in Hm. cbn [length] in Hm. lia. }
  unfold dbgConsume, dbgTokLT, initially. rewrite Hi. cbn [mbind outcome_bind]. rewrite Hi.
  cbn [mbind outcome_bind]. rewrite Ex.
  cbn [mbind outcome_bind]. cbn [stream set_stream]. rewrite Ec. cbn [mbind outcome_bind].
  unfold tindex. rewrite Hp. cbn [p set_p].
  assert (loaded (set_p (Z.of_nat q') (stream ds)) toks) as Hl'.
  { destruct Hl as [[] ? [pol []]]. split; [by split|done|by exists pol]. }
  replace (Z.of_nat q + 1) with (Z.of_nat (S q)) by lia.
  destruct (Z.ltb_spec (Z.of_nat (S q)) (Z.of_nat q')).
  - replace (Z.to_nat (Z.of_nat q' - Z.of_nat (S q))) with (q' - S q)%nat by lia.
    rewrite (tell_hidden_ok _ _ toks) by (apply Hl' || (destruct Hq'; lia)).
    do 2 eexists. split; [reflexivity|]. split_and!; try done. cbn. by rewrite <-app_assoc.
  - do 2 eexists. split; [reflexivity|]. split_and!; try done. cbn.
    by replace (q' - S q)%nat with 0%nat by lia.
Qed.
Lemma size_loaded ts toks : in_memory ts toks → size ts = (Z.of_nat (length toks), ts).
Proof.
  intros Hm. unfold size. rewrite (m_cached _ _ Hm), (h_count _ _ (m_holds _ _ Hm)), length_slots.
  destruct (Z.ltb_spec 0 (Z.of_nat (length toks))); [done|]. destruct ts. cbn.
  pose proof (m_cached _ _ Hm) as E. cbn in E. by rewrite <-E.
Qed.

Lemma slice_text_ok fuel rounds ts toks ts' q start stop :
  filled next fuel ts = Ok ts' → buffer ts' (mkTokenStream toks q) →
  (start ≤ length toks)%nat → (0 < length toks)%nat → Z.of_nat stop < 2 ^ 32 → (length toks < rounds)%nat →
  toStringSS next fuel rounds ts (Z.of_nat start) (Z.of_nat stop)
  = Ok (text_of (slice start (Nat.min stop (pred (length toks))) toks), ts').
Proof.
  intros E Hb Hs Hpos Hst Hr. pose proof (buffer_memory _ _ Hb) as Hm. cbn in Hm.
  pose proof (m_bound _ _ Hm). unfold toStringSS. rewrite E. cbn [mbind outcome_bind].
  rewrite (size_loaded _ _ Hm).
  assert ((if Z.of_nat (length toks) <=? Z.of_nat stop then u32 (Z.of_nat (length toks) - 1) else Z.of_nat stop)
    = Z.of_nat (Nat.min stop (pred (length toks)))) as ->.
  { destruct (Z.leb_spec (Z.of_nat (length toks)) (Z.of_nat stop)); [rewrite u32_small by lia|]; lia. }
  by rewrite (text_loop_ok _ _ toks) by (done || lia).
Qed.
End simulation.

(** ** The stream of the parser *)

Lemma LT_ahead s k :
  at_token s → (0 < k)%nat → LT k s = default eofToken (ahead s !! (k - 1)%nat).
Proof.
  destruct s as [toks q]. intros Ha Hk. unfold LT. cbn [TokenStream.p TokenStream.tokens].
  pose proof (ahead_length (mkTokenStream toks q)) as Hl. cbn [TokenStream.p TokenStream.tokens] in Hl.
  destruct (Nat.leb_spec (length toks) (q + k - 1)).
  { rewrite lookup_ge_None_2; [done|lia]. }
  destruct (lt_index_ok (k - 1) toks q Ha) as [Hj Hd].
  rewrite <-(Nat.add_0_r (k - 1)) at 2. rewrite <-lookup_drop, <-Hd. f_equal.
  destruct (decide (lt_index (k - 1) toks q < length toks)%nat) as [Hlt|Hge].
  - destruct (ahead_cons _ Hj Hlt) as (t & Ht & ->). done.
  - rewrite (proj2 (ahead_nil _ Hj)) by (cbn; lia). rewrite lookup_ge_None_2; [done|lia].
Qed.
Lemma consume_ahead s n : at_token s → ahead (Nat.iter n tok_consume s) = drop n (ahead s) ∧ at_token (Nat.iter n tok_consume s).
Proof.
  intros Ha. induction n as [|n [IH Hn]]; [done|].
  change (Nat.iter (S n) tok_consume s) with (tok_consume (Nat.iter n tok_consume s)).
  split; [|by apply consume_at_token]. rewrite ahead_consume, IH by done.
  rewrite <-(Nat.add_1_r n), <-drop_drop. by destruct (drop n (ahead s)).
Qed.

Lemma typed_range t : token_typed t → 0 ≤ tok_type t < 2 ^ 31.
Proof.
  intros [w alt ty Hk| | |]; cbn; try (unfold TEXT, NUM, WS; lia).
  assert (Forall (λ x : str * Z * Z, 0 ≤ x.2 < 2 ^ 31) keywords) as Hall.
  { apply (bool_decide_unpack _). vm_compute. reflexivity. }
  by apply (proj1 (Forall_forall _ _) Hall _ Hk).
Qed.
Lemma kept_all raw : kept no_policy raw = raw.
Proof.
  induction raw as [|t raw IH]; [done|]. unfold kept in *. cbn [omap list_omap].
  unfold kept_token at 1. cbn. by rewrite IH.
Qed.

(** ** Properties *)

(** C26: a parser that reads the buffer sees the tokens of its channel, one after
    the other. Whatever requests set the stream up before it is read, and whatever
    sequence of looks ahead and back, consuming, marks and rewinds follows, the
    replies of the stream over a source are those of a reader that has the list
    of the kept tokens on the channel and a number of consumed ones; before the
    first look nothing is consumed. Tokens off the channel are never seen, and a
    rewind to a mark, also one made before the buffer was filled, restores what
    is ahead.
    What is kept is what the code does with the requests ([kept], [decided]): a token is
    left out when its type is discarded, or when tokens off the channel are and its own
    channel, as the source gives it, is another one; of the others, a token of type [t]
    is put on the channel that was set first for the type [t + 1], if there is one.
    (The comment of [setTokenTypeChannel] says that the tokens of the type itself are put
    on the channel, and it says nothing of a second request for a type, which has no
    effect.) *)
Theorem reader_sees_channel `{TokenSource Src} (src : Src) raw fuel settings qs rs rd :
  yields src raw → Z.of_nat (length raw) < 2 ^ 30 → (length raw < fuel)%nat →
  Forall setting_ok settings →
  answers (visible (kept (foldl (flip decided) no_policy settings) raw)) qs (mkReader None [])
    = Some (rs, rd) →
  ∃ ts ts' ms, set_up_all settings (CommonTokenStreamSourceNew src) = Ok ts ∧
    serve_all fuel qs (ts, []) = Ok (rs, (ts', ms)).
Proof.
  intros Hy Hb Hfu Hqs Ha. destruct (before_new fuel src raw settings Hy Hb Hfu Hqs) as (ts & E & Hbe).
  assert (reading fuel (kept (foldl (flip decided) no_policy settings) raw) (ts, []) (mkReader None []))
    as Hr by (split; [apply Hbe|constructor|done|by right]).
  destruct (requests_ok fuel _ qs _ _ _ _ (Nat.lt_lt_0 _ _ Hfu) Hr Ha) as ([ts' ms] & E' & _).
  by exists ts, ts', ms.
Qed.

(** White space is off the channel, words of type 9 are discarded. *)
Definition sample_source : list COMMON_TOKEN :=
  [mkToken 38 99 (lit " "); mkToken 33 0 (lit "a"); mkToken 9 0 (lit "b");
   mkToken 38 99 (lit " "); mkToken 18 0 (lit "1")].

(** The channels that are set for the types 33 and 19 apply to the types 32 and 18, and
    the second request for the type 19 has no effect. *)
Definition routed_source : list COMMON_TOKEN := sample_source ++ [mkToken 19 0 (lit "c")].
Definition routing : list setting :=
  [DiscardTokenType 9; SetTokenTypeChannel 33 99; SetTokenTypeChannel 19 99; SetTokenTypeChannel 19 0].
Lemma reader_sees_channel_witness :
  ∃ ts ts' ms, set_up_all routing (CommonTokenStreamSourceNew routed_source) = Ok ts ∧
    serve_all 9 [Mark; Consume; Look 1; Consume; LookType 1; Look (-1); Consume; Look 1; Rewind 0; Look 2]
      (ts, [])
    = Ok ([Done; Done; Token (Seen (mkToken 33 0 (lit "a"))); Done; Type_ 19;
           Token (Seen (mkToken 33 0 (lit "a"))); Done; Token TheEnd; Done;
           Token (Seen (mkToken 19 0 (lit "c")))], (ts', ms)).
Proof.
  eapply (reader_sees_channel routed_source routed_source).
  - apply list_yields. repeat (constructor; [cbn; lia|]). constructor.
  - cbn. lia.
  - cbn. lia.
  - repeat (constructor; [cbn; lia|]). constructor.
  - vm_compute. reflexivity.
Defined.

(** C27: the lexer feeds the parser. For every text of the alphabet the tokens are
    those of [tokenize], and any requests to the buffer over the lexer get the
    replies of a reader of the list of tokens that the stream of the parser model
    has ahead; and that stream, after any number of tokens was consumed, shows
    at every distance the token of this list, or the end. *)
Theorem lexer_feeds_parser s :
  alphabet s → Z.of_nat (length s) < 2 ^ 30 →
  ∃ toks, tokenize (Datatypes.S (length s)) s = Ok toks ∧
    (∀ qs rs rd, answers (ahead (TokenStreamNew toks)) qs (mkReader None []) = Some (rs, rd) →
       ∃ ts ms, serve_all (2 + length s)
         qs (CommonTokenStreamSourceNew (RepositoryManagerLexerNew (StringStreamNew s)), [])
         = Ok (rs, (ts, ms))) ∧
    ∀ n k, (0 < k)%nat →
      LT k (Nat.iter n tok_consume (TokenStreamNew toks))
      = default eofToken (ahead (TokenStreamNew toks) !! (n + (k - 1))%nat).
Proof.
  intros Hs Hb. destruct (ready_new s) as (Hn & Hok & _).
  destruct (fillBuffer_ok (Datatypes.S (length s)) (RepositoryManagerLexerNew (StringStreamNew s)))
    as (toks & E & Hl & _); [done|done|cbn; lia|].
  pose proof (fillBuffer_typed _ _ _ Hok E) as Hty. rewrite Hn in Hl.
  exists toks. split; [done|]. split.
  - intros qs rs rd Ha.
    assert (yields (RepositoryManagerLexerNew (StringStreamNew s)) toks) as Hy.
    { apply (lexer_yields _ _ _ Hok E). apply (Forall_impl _ _ _ Hty). intros t Ht. by apply typed_range. }
    destruct (before_new (2 + length s) _ _ [] Hy) as (ts & [= <-] & Hbe); [lia|lia|done|].
    cbn [foldl] in Hbe. rewrite kept_all in Hbe. rewrite ahead_new in Ha.
    apply requests_ok with (fuel := (2 + length s)%nat) (st := (CommonTokenStreamSourceNew
      (RepositoryManagerLexerNew (StringStreamNew s)), [])) in Ha as ([ts' ms] & E' & _);
      [by exists ts', ms|lia|].
    split; [apply Hbe|constructor|done|by right].
  - intros n k Hk. destruct (consume_ahead (TokenStreamNew toks) n (skip_at_token toks 0)) as [Ha Hat].
    by rewrite LT_ahead, Ha, lookup_drop.
Qed.

Lemma lexer_feeds_parser_witness :
  ∃ toks, tokenize 8 (lit "BEGIN 1") = Ok toks ∧
    (∀ qs rs rd, answers (ahead (TokenStreamNew toks)) qs (mkReader None []) = Some (rs, rd) →
       ∃ ts ms, serve_all 9
         qs (CommonTokenStreamSourceNew (RepositoryManagerLexerNew (StringStreamNew (lit "BEGIN 1"))), [])
         = Ok (rs, (ts, ms))) ∧
    ∀ n k, (0 < k)%nat →
      LT k (Nat.iter n tok_consume (TokenStreamNew toks))
      = default eofToken (ahead (TokenStreamNew toks) !! (n + (k - 1))%nat).
Proof.
  apply (lexer_feeds_parser (lit "BEGIN 1")).
  - apply (bool_decide_unpack _). vm_compute. reflexivity.
  - cbn. lia.
Defined.

(** The ranges of the buffer. From a stream that was set up but not read
    yet, the text between two indices is the texts of the tokens of every channel
    from the first to the last, and the text of the whole stream is all of them;
    the list of a range that ends before the last index has exactly the tokens of
    the range, each under its place in the range and with its index. *)
Theorem ranges_of_buffer `{TokenSource Src} (src : Src) raw fuel rounds settings start stop :
  let toks := kept (foldl (flip decided) no_policy settings) raw in
  yields src raw → Z.of_nat (length raw) < 2 ^ 30 → (length raw < fuel)%nat →
  Forall setting_ok settings → (start ≤ stop < length toks)%nat → (length toks < rounds)%nat →
  ∃ ts ts1 l, set_up_all settings (CommonTokenStreamSourceNew src) = Ok ts ∧
    toStringSS next fuel rounds ts (Z.of_nat start) (Z.of_nat stop)
      = Ok (concat (tok_text <$> slice start stop toks), ts1) ∧
    toString next fuel rounds ts = Ok (concat (tok_text <$> toks), ts1) ∧
    getTokenRange next fuel rounds ts (Z.of_nat start) (Z.of_nat stop) = Ok (Some l, ts1) ∧
    ListSize l = Z.of_nat (stop + 1 - start) ∧
    ∀ i t, (start + i ≤ stop)%nat → toks !! (start + i)%nat = Some t →
      ListGet l (Z.of_nat i) = Ok (Some (mkBuffered t (Z.of_nat (start + i)))).
Proof.
  intros toks Hy Hb Hfu Hqs Hr Hro. destruct (before_new fuel src raw settings Hy Hb Hfu Hqs) as (ts & E & Hbe).
  fold toks in Hbe. destruct (filled_before _ _ _ Hbe) as (ts1 & Ef & Hb1 & _).
  pose proof (buffer_memory _ _ Hb1) as Hm. cbn in Hm. pose proof (m_bound _ _ Hm) as Hbo.
  pose proof (filled_buffer fuel _ _ Hb1) as Ef1.
  destruct (range_loop_ok rounds ts1 toks start stop (ListNew (Z.of_nat (length toks))) [])
    as (l & El & Hl); [done|lia|lia|cbn; lia| |].
  { exists ∅. split; [by apply stands_for_new; lia|]. split; [by rewrite map_size_empty|].
    intros k. rewrite lookup_empty. by case_decide. }
  assert (length (slice start stop (numbered toks)) = (stop + 1 - start)%nat) as Hlen.
  { unfold slice, numbered. rewrite length_take, length_drop, length_imap. lia. }
  assert (ListSize l = Z.of_nat (stop + 1 - start)) as Hsz.
  { destruct Hl as (m & Hm' & Hs & _). unfold ListSize, HashSize.
    rewrite (sf_count _ _ _ _ Hm'), Hs. cbn [app]. rewrite Hlen, u32_small; lia. }
  exists ts, ts1, l. split_and!; [done| | | |done|].
  - rewrite (slice_text_ok _ _ _ toks ts1 _ _ _ Ef Hb1) by lia.
    by replace (Nat.min stop (pred (length toks))) with stop by lia.
  - unfold toString. rewrite Ef. cbn [mbind outcome_bind]. rewrite (size_loaded _ _ Hm).
    change 0 with (Z.of_nat 0). rewrite (slice_text_ok _ _ _ toks ts1 _ _ _ Ef1 Hb1) by lia.
    unfold slice, text_of. rewrite drop_0, firstn_all2; [done|]. rewrite Nat.min_r; lia.
  - unfold getTokenRange, getTokensSet. rewrite Ef. cbn [mbind outcome_bind].
    rewrite (size_loaded _ _ Hm). destruct (Z.ltb_spec (Z.of_nat (length toks)) (Z.of_nat stop)); [lia|].
    destruct (Z.ltb_spec (Z.of_nat stop) (Z.of_nat start)); [lia|].
    change (Z.of_nat (length [])) with 0 in El.
    rewrite El. cbn [mbind outcome_bind]. destruct (Z.eqb_spec (ListSize l) 0); [lia|done].
  - intros i t Hi Ht. rewrite (list_holds_get _ _ _ Hl). cbn [app]. unfold slice, numbered.
    rewrite lookup_take_lt, lookup_drop, list_lookup_imap, Ht by lia. done.
Qed.

Lemma ranges_of_buffer_witness :
  ∃ ts ts1 l, set_up_all [DiscardTokenType 9] (CommonTokenStreamSourceNew sample_source) = Ok ts ∧
    toStringSS next 9 9 ts 1 3 = Ok (lit "a 1", ts1) ∧
    toString next 9 9 ts = Ok (lit " a 1", ts1) ∧
    getTokenRange next 9 9 ts 1 3 = Ok (Some l, ts1) ∧ ListSize l = 3 ∧
    ListGet l 2 = Ok (Some (mkBuffered (mkToken 18 0 (lit "1")) 3)).
Proof.
  destruct (ranges_of_buffer sample_source sample_source 9 9 [DiscardTokenType 9] 1 3)
    as (ts & ts1 & l & H1 & H2 & H3 & H4 & H5 & H6).
  - apply list_yields. repeat (constructor; [cbn; lia|]). constructor.
  - cbn. lia.
  - cbn. lia.
  - constructor; [cbn; lia|constructor].
  - vm_compute. lia.
  - vm_compute. lia.
  - exists ts, ts1, l. split_and!; [done|done|done|done|done|].
    apply (H6 2%nat); [lia|vm_compute; reflexivity].
Defined.

(** What goes wrong: a range that reaches the size ends with a null entry, or
    reads its type; a set is asked for the truth of a comparison; a list of types
    becomes a null set that is released; the text of a stream without tokens has
    no end, and its range divides by zero; the channel of a type is that of the
    one before it; and the debugger of a stream that was not filled hears of the
    first token twice, the second time as a hidden one. *)
Theorem Buffer_defects :
  (∀ `{TokenSource Src} (ts : COMMON_TOKEN_STREAM Src) fuel rounds start stop l,
     ¬ ∃ r, getTokensList next fuel rounds ts start stop l = Ok r) ∧
  (∀ `{TokenSource Src} (src : Src) fuel rounds, yields src [] → (0 < fuel)%nat →
     toString next fuel rounds (CommonTokenStreamSourceNew src) = Undef NoFuel ∧
     getTokenRange next fuel (S rounds) (CommonTokenStreamSourceNew src) 0 0 = Undef DivByZero) ∧
  fst <$> getTokensType next 9 9 (CommonTokenStreamSourceNew sample_source) 0 3 33 = Ok None ∧
  fst <$> getTokensType next 9 9 (CommonTokenStreamSourceNew sample_source) 0 5 33 = Undef NullDeref ∧
  (∃ l ts, getTokenRange next 9 9 (CommonTokenStreamSourceNew sample_source) 0 5 = Ok (Some l, ts) ∧
     ListSize l = 6 ∧ ListGet l 5 = Ok None) ∧
  kept (decided (SetTokenTypeChannel 33 99) no_policy) [mkToken 32 0 []; mkToken 33 0 []]
  = [mkToken 32 99 []; mkToken 33 0 []] ∧
  debugger <$> dbgConsume next 9 (CommonTokenDebugStreamSourceNew sample_source)
  = Ok [ConsumeToken (Some (InBuffer (mkBuffered (mkToken 33 0 (lit "a")) 1)));
        ConsumeHiddenToken (Some (mkBuffered (mkToken 38 99 (lit " ")) 0));
        ConsumeHiddenToken (Some (mkBuffered (mkToken 33 0 (lit "a")) 1))].
Proof.
  split_and!.
  - intros Src HS ts fuel rounds start stop l [r E]. unfold getTokensList, BitsetList in E.
    destruct (EnumNew l) as [en| |]; [|done..]. cbn [mbind outcome_bind] in E.
    destruct (enum_all rounds en) as [es| |]; [|done..]. cbn [mbind outcome_bind] in E.
    destruct (bitset_add_all _ _); [|done..]. cbn [mbind outcome_bind] in E.
    destruct (getTokensSet next fuel rounds ts start stop None); done.
  - intros Src HS src fuel rounds Hy Hfu.
    assert (∃ ts, filled next fuel (CommonTokenStreamSourceNew src) = Ok ts ∧
      buffer ts (TokenStreamNew [])) as (ts & E & Hb).
    { destruct (before_new fuel src [] [] Hy) as (ts & [= <-] & Hbe); [cbn; lia|cbn; lia|done|].
      destruct (filled_before _ _ _ Hbe) as (ts' & E & Hb & _). by exists ts'. }
    pose proof (filled_buffer fuel _ _ Hb) as E'. pose proof (buffer_memory _ _ Hb) as Hm. cbn in Hm.
    pose proof (size_loaded _ _ Hm) as Hsz. split.
    + unfold toString. rewrite E. cbn [mbind outcome_bind]. rewrite Hsz.
      unfold toStringSS. rewrite E'. cbn [mbind outcome_bind]. rewrite Hsz.
      change (if _ <=? _ then _ else _) with (2 ^ 32 - 1).
      assert (∀ i string, 0 ≤ i < 2 ^ 32 → text_loop rounds ts i (2 ^ 32 - 1) string = Undef NoFuel) as Hl.
      { clear -Hm. induction rounds as [|rounds IH]; intros i string Hi; [done|]. cbn [text_loop].
        destruct (Z.leb_spec i (2 ^ 32 - 1)); [|lia]. rewrite <-(Z2Nat.id i) at 1 by lia.
        rewrite (get_ok _ _ _ Hm), lookup_nil. cbn [fmap option_fmap option_map mbind outcome_bind].
        apply IH. unfold u32. apply Z.mod_pos_bound. lia. }
      rewrite Hl by lia. done.
    + unfold getTokenRange, getTokensSet. rewrite E. cbn [mbind outcome_bind]. rewrite Hsz.
      cbn [length Z.of_nat Z.ltb Z.compare range_loop Z.leb]. change 0 with (Z.of_nat 0).
      rewrite (get_ok _ _ _ Hm). done.
  - vm_compute. reflexivity.
  - vm_compute. reflexivity.
  - do 2 eexists. split; [vm_compute; reflexivity|]. split; vm_compute; reflexivity.
  - vm_compute. reflexivity.
  - vm_compute. reflexivity.
Qed.
