(* ===== verification/Tree.v ===== *)
(** Syntax trees and rewrite streams:
    src/antlr/libantlr3c-3.4/src/antlr3basetree.c, antlr3commontree.c,
    antlr3basetreeadaptor.c, antlr3commontreeadaptor.c and
    antlr3rewritestreams.c. *)
From S2P Require Import Prelude CppString Lexer.

(** A node holds its token, none for a nil node, and its children. The nodes
    that the adaptor reclaims are never read again, so that trees are values:
    [TreePrograms] shows it of the memory. *)
Inductive BASE_TREE : Type :=
| Tree (token : option COMMON_TOKEN) (children : list BASE_TREE).

Definition token (t : BASE_TREE) : option COMMON_TOKEN := let 'Tree tok _ := t in tok.
Definition children (t : BASE_TREE) : list BASE_TREE := let 'Tree _ cs := t in cs.

(** A null pointer to a node is [None]. *)
Definition pTREE : Type := option BASE_TREE.

Definition isNilNode (t : BASE_TREE) : bool :=
  match token t with None => true | Some _ => false end.

(** [create]: a node for a token; without one, a nil node. *)
Definition create (payload : option COMMON_TOKEN) : BASE_TREE := Tree payload [].
Definition nilNode : BASE_TREE := create None.

Definition createTypeText (tokenType : Z) (text : str) : BASE_TREE :=
  create (Some (mkToken tokenType 0 text)).

Definition ANTLR3_TOKEN_INVALID : Z := 0.
Definition errorNode : BASE_TREE := createTypeText ANTLR3_TOKEN_INVALID (lit "Tree Error Node").

(** [addChild]: the children of a nil node, or the node itself. *)
Definition addChild (t : BASE_TREE) (child : pTREE) : BASE_TREE :=
  match child with
  | None => t
  | Some child =>
      Tree (token t) (children t ++ if isNilNode child then children child else [child])
  end.

(** [becomeRoot] *)
Definition becomeRoot (newRoot oldRoot : pTREE) : outcome pTREE :=
  match newRoot, oldRoot with
  | None, _ => Ok oldRoot
  | _, None => Ok newRoot
  | Some new, Some old =>
      if isNilNode new then
        if (1 <? length (children new))%nat then Ok newRoot
        else new ← deref (head (children new)); Ok (Some (addChild new (Some old)))
      else Ok (Some (addChild new (Some old)))
  end.

(** [rulePostProcessing]: a nil node with one child is that child. *)
Definition rulePostProcessing (root : pTREE) : pTREE :=
  match root with
  | Some root =>
      if isNilNode root then
        match children root with
        | [] => None
        | [c] => Some c
        | _ => Some root
        end
      else Some root
  | None => None
  end.

(** [toString], the text of a node. *)
Definition tree_text (t : BASE_TREE) : str :=
  match token t with None => lit "nil" | Some tok => tok_text tok end.

(** [dupNode] copies the token and not the children. *)
Definition dupNode (t : BASE_TREE) : BASE_TREE := Tree (token t) [].

(** ** Rewrite streams of subtrees *)

Record REWRITE_STREAM : Type := mkStream {
  elements : list BASE_TREE;
  cursor : nat;
  dirty : bool
}.

Definition StreamNew : REWRITE_STREAM := mkStream [] 0 false.

(** [add], after creating the stream when there is none yet. *)
Definition add (stream : option REWRITE_STREAM) (el : pTREE) : option REWRITE_STREAM :=
  let st := default StreamNew stream in
  Some (match el with
        | None => st
        | Some el => mkStream (elements st ++ [el]) (cursor st) (dirty st)
        end).

Definition hasNext (st : REWRITE_STREAM) : bool := (cursor st <? length (elements st))%nat.
(** The test of the generated code, which allows for a missing stream. *)
Definition stream_hasNext (stream : option REWRITE_STREAM) : bool :=
  match stream with None => false | Some st => hasNext st end.

(** [_next] *)
Definition next_element (st : REWRITE_STREAM) : pTREE * REWRITE_STREAM :=
  let n := length (elements st) in
  if (n =? 0)%nat then (None, st)
  else if (n <=? cursor st)%nat then
    if (n =? 1)%nat then (head (elements st), st) else (None, st)
  else (elements st !! cursor st, mkStream (elements st) (S (cursor st)) (dirty st)).

(** [nextTree]; an element that was used before is copied. *)
Definition nextTree (st : REWRITE_STREAM) : pTREE * REWRITE_STREAM :=
  let n := length (elements st) in
  let '(el, st') := next_element st in
  if dirty st || ((n <=? cursor st)%nat && (n =? 1)%nat) then (dupNode <$> el, st')
  else (el, st').
Definition stream_nextTree (stream : option REWRITE_STREAM)
    : pTREE * option REWRITE_STREAM :=
  match stream with
  | None => (None, None)
  | Some st => let '(el, st) := nextTree st in (el, Some st)
  end.

Definition reset (st : REWRITE_STREAM) : REWRITE_STREAM := mkStream (elements st) 0 true.

(** [while (hasNext) addChild(root, nextTree)] *)
Fixpoint add_all (fuel : nat) (root : BASE_TREE) (stream : option REWRITE_STREAM)
    : outcome (BASE_TREE * option REWRITE_STREAM) :=
  match fuel with
  | O => Undef NoFuel
  | S fuel =>
      if stream_hasNext stream then
        let '(el, stream) := stream_nextTree stream in
        add_all fuel (addChild root el) stream
      else Ok (root, stream)
  end.

(** ** Lemmas *)

Fixpoint flat (ts : list BASE_TREE) : list BASE_TREE :=
  match ts with
  | [] => []
  | t :: ts => (if isNilNode t then children t else [t]) ++ flat ts
  end.

Lemma flat_app a b : flat (a ++ b) = flat a ++ flat b.
Proof. induction a as [|t a IH]; [done|]. cbn. by rewrite IH, app_assoc. Qed.

Lemma addChild_node tok cs c :
  addChild (Tree tok cs) (Some c) = Tree tok (cs ++ flat [c]).
Proof. unfold addChild. cbn. by rewrite app_nil_r. Qed.

Lemma add_all_rest fuel tok cs l k :
  (length k < fuel)%nat →
  add_all fuel (Tree tok cs) (Some (mkStream (l ++ k) (length l) false))
  = Ok (Tree tok (cs ++ flat k), Some (mkStream (l ++ k) (length (l ++ k)) false)).
Proof.
  revert fuel cs l. induction k as [|t k IH]; intros fuel cs l Hf;
    (destruct fuel as [|fuel]; [cbn in Hf; lia|]); cbn [add_all stream_hasNext].
  - unfold hasNext. cbn [cursor elements flat]. by rewrite !app_nil_r, Nat.ltb_irrefl.
  - unfold hasNext. cbn [cursor elements]. rewrite length_app. cbn [length].
    destruct (Nat.ltb_spec (length l) (length l + S (length k))); [|lia].
    cbn [stream_nextTree]. unfold nextTree, next_element. cbn [cursor elements dirty].
    rewrite length_app. cbn [length].
    destruct (Nat.eqb_spec (length l + S (length k)) 0); [lia|].
    destruct (Nat.leb_spec (length l + S (length k)) (length l)); [lia|].
    cbn [orb andb]. rewrite list_lookup_middle by done.
    rewrite addChild_node. change (t :: k) with ([t] ++ k). rewrite app_assoc.
    replace (S (length l)) with (length (l ++ [t])) by (rewrite length_app; cbn; lia).
    rewrite IH by (cbn in Hf; lia). rewrite flat_app, (app_assoc cs), !length_app. cbn [length].
    by replace (length l + 1 + length k)%nat with (length l + S (length k))%nat by lia.
Qed.

Lemma add_all_spec fuel tok cs k :
  (length k < fuel)%nat →
  add_all fuel (Tree tok cs) (Some (mkStream k 0 false))
  = Ok (Tree tok (cs ++ flat k), Some (mkStream k (length k) false)).
Proof. apply (add_all_rest fuel tok cs []). Qed.
