(* ===== verification/TreeStore.v ===== *)
(** Syntax trees in memory: the nodes and their factory of
    src/antlr/libantlr3c-3.4/src/antlr3basetree.c and antlr3commontree.c, and the
    adaptor of antlr3basetreeadaptor.c and antlr3commontreeadaptor.c that the parser
    builds them with. The trees of [Tree] are what they hold. *)
From S2P Require Import Prelude.
From S2P Require Import CppString.
From S2P Require Import Vector.
From S2P Require Import VectorFactory.
From S2P Require Import HashTable.
From S2P Require Import Lexer.
From S2P Require Tree.

Definition ANTLR3_FACTORY_POOL_SIZE : Z := 1024.

(** A pointer to a node: its pool and its place there. *)
Definition tptr : Type := nat * nat.

Record COMMON_TREE : Type := mkNode {
  startIndex : Z;
  stopIndex : Z;
  token : option COMMON_TOKEN;
  parent : option tptr;
  childIndex : Z;
  children : option ptr
}.
Definition set_token x (n : COMMON_TREE) : COMMON_TREE :=
  mkNode (startIndex n) (stopIndex n) x (parent n) (childIndex n) (children n).
Definition set_children x (n : COMMON_TREE) : COMMON_TREE :=
  mkNode (startIndex n) (stopIndex n) (token n) (parent n) (childIndex n) x.
Definition set_parent x (n : COMMON_TREE) : COMMON_TREE :=
  mkNode (startIndex n) (stopIndex n) (token n) x (childIndex n) (children n).
Definition set_childIndex x (n : COMMON_TREE) : COMMON_TREE :=
  mkNode (startIndex n) (stopIndex n) (token n) (parent n) x (children n).
Definition set_indexes a b (n : COMMON_TREE) : COMMON_TREE :=
  mkNode a b (token n) (parent n) (childIndex n) (children n).

(** [antlr3SetCTAPI]: a node as it is handed out first. *)
Definition SetCTAPI : COMMON_TREE := mkNode 0 0 None None (-1) None.

(** The pools hold nodes, and memory where none was written yet. *)
Record ARBORETUM : Type := mkArboretum {
  treePools : list (list (option COMMON_TREE));
  thisTreePool : Z;
  nextTree : Z;
  vFactory : VECTOR_FACTORY tptr;
  nilStack : STACK tptr
}.
Definition set_treePools x (m : ARBORETUM) : ARBORETUM :=
  mkArboretum x (thisTreePool m) (nextTree m) (vFactory m) (nilStack m).
Definition set_nextTree x (m : ARBORETUM) : ARBORETUM :=
  mkArboretum (treePools m) (thisTreePool m) x (vFactory m) (nilStack m).
Definition set_vFactory x (m : ARBORETUM) : ARBORETUM :=
  mkArboretum (treePools m) (thisTreePool m) (nextTree m) x (nilStack m).
Definition set_nilStack x (m : ARBORETUM) : ARBORETUM :=
  mkArboretum (treePools m) (thisTreePool m) (nextTree m) (vFactory m) x.

(** Reading and writing a node. *)
Definition node (m : ARBORETUM) (p : tptr) : outcome COMMON_TREE :=
  match treePools m !! p.1 ≫= lookup p.2 with Some o => init o | None => Undef BadIndex end.
Definition write_node (p : tptr) (n : COMMON_TREE) (m : ARBORETUM) : outcome ARBORETUM :=
  match treePools m !! p.1 ≫= lookup p.2 with
  | Some _ => Ok (set_treePools (alter (insert p.2 (Some n)) p.1 (treePools m)) m)
  | None => Undef BadIndex
  end.
Definition change (f : COMMON_TREE → COMMON_TREE) (p : tptr) (m : ARBORETUM) : outcome ARBORETUM :=
  n ← node m p;
  write_node p (f n) m.

(** ** The factory of nodes *)

(** [newPool] *)
Definition newTreePool (m : ARBORETUM) : outcome ARBORETUM :=
  thisPool ← int_op (thisTreePool m + 1);
  if u32 ((thisPool + 1) * 8) <? (thisPool + 1) * 8 then Undef BadIndex
  else Ok (mkArboretum (treePools m ++ [replicate (Z.to_nat ANTLR3_FACTORY_POOL_SIZE) None])
             thisPool 0 (vFactory m) (nilStack m)).

(** [antlr3ArboretumNew] *)
Definition ArboretumNew : outcome ARBORETUM :=
  f ← VectorFactoryNew;
  newTreePool (mkArboretum [] (-1) 0 f (StackNew 0)).

(** [newPoolTree]: a node that was given back, as it is, or the next of the pool. *)
Definition newPoolTree (m : ARBORETUM) : outcome (tptr * ARBORETUM) :=
  match StackPeek (nilStack m) with
  | Some p =>
      '(_, _, s) ← StackPop (nilStack m);
      Ok (p, set_nilStack s m)
  | None =>
      m ← (if ANTLR3_FACTORY_POOL_SIZE <=? nextTree m then newTreePool m else Ok m);
      let p := (Z.to_nat (thisTreePool m), Z.to_nat (nextTree m)) in
      m ← write_node p SetCTAPI (set_nextTree (u32 (nextTree m + 1)) m);
      Ok (p, m)
  end.
Definition newFromTree (tree : tptr) (m : ARBORETUM) : outcome (tptr * ARBORETUM) :=
  '(p, m) ← newPoolTree m;
  n ← node m tree;
  m ← change (set_token (token n)) p m;
  Ok (p, m).
Definition newFromToken (tok : option COMMON_TOKEN) (m : ARBORETUM) : outcome (tptr * ARBORETUM) :=
  '(p, m) ← newPoolTree m;
  m ← change (set_token tok) p m;
  Ok (p, m).

(** [factoryClose]: the vectors that were released with their elements' functions. *)
Definition factoryClose (m : ARBORETUM) : outcome (list (option tptr)) :=
  freed ← closeVectorFactory (vFactory m);
  _ ← StackFree (nilStack m);
  Ok freed.

(** ** Nodes *)

Definition createChildrenList (tree : tptr) (m : ARBORETUM) : outcome ARBORETUM :=
  '(v, f) ← newVector (vFactory m);
  change (set_children (Some v)) tree (set_vFactory f m).

Definition is_nil (n : COMMON_TREE) : bool := match token n with None => true | Some _ => false end.
Definition isNilNode (tree : tptr) (m : ARBORETUM) : outcome bool := is_nil <$> node m tree.
Definition getType (tree : tptr) (m : ARBORETUM) : outcome Z :=
  n ← node m tree;
  Ok (match token n with None => 0 | Some tok => tok_type tok end).
(** [toString], [getText] *)
Definition toString (tree : tptr) (m : ARBORETUM) : outcome str :=
  n ← node m tree;
  Ok (match token n with None => lit "nil" | Some tok => tok_text tok end).
Definition dupNode (tree : tptr) (m : ARBORETUM) : outcome (tptr * ARBORETUM) := newFromTree tree m.

(** [setParent] stores the parent of the new parent; [getParent] does not test for
    the end. *)
Definition setParent (tree : tptr) (newParent : option tptr) (m : ARBORETUM) : outcome ARBORETUM :=
  x ← match newParent with None => Ok None | Some q => n ← node m q; Ok (parent n) end;
  change (set_parent x) tree m.
Definition getParent (tree : tptr) (m : ARBORETUM) : outcome tptr :=
  n ← node m tree;
  deref (parent n).
Definition setChildIndex (tree : tptr) (i : Z) (m : ARBORETUM) : outcome ARBORETUM :=
  change (set_childIndex i) tree m.
Definition getChildIndex (tree : tptr) (m : ARBORETUM) : outcome Z := childIndex <$> node m tree.

(** [reuse]: no element of the vector has a function to free it. *)
Definition reuse (tree : tptr) (m : ARBORETUM) : outcome ARBORETUM :=
  n ← node m tree;
  m ← match children n with
      | None => Ok m
      | Some v =>
          w ← load (vFactory m) v;
          '(_, w) ← VectorClear w;
          Ok (set_vFactory (store (vFactory m) v w) m)
      end;
  '(_, s) ← StackPush (nilStack m) (Some tree) false;
  Ok (set_nilStack s m).

(** ** Trees *)

Definition getChild (tree : tptr) (i : Z) (m : ARBORETUM) : outcome (option tptr) :=
  n ← node m tree;
  match children n with
  | None => Ok None
  | Some v => w ← load (vFactory m) v; if VectorSize w <=? i then Ok None else VectorGet w i
  end.
Definition getChildCount (tree : tptr) (m : ARBORETUM) : outcome Z :=
  n ← node m tree;
  match children n with
  | None => Ok 0
  | Some v => w ← load (vFactory m) v; Ok (VectorSize w)
  end.
Fixpoint first_with_type (n : nat) (i : Z) (tree : tptr) (type : Z) (m : ARBORETUM)
    : outcome (option tptr) :=
  match n with
  | O => Ok None
  | S n =>
      t ← getChild tree i m;
      t ← deref t;
      ty ← getType t m;
      if ty =? type then Ok (Some t) else first_with_type n (i + 1) tree type m
  end.
Definition getFirstChildWithType (tree : tptr) (type : Z) (m : ARBORETUM) : outcome (option tptr) :=
  cs ← getChildCount tree m;
  first_with_type (Z.to_nat cs) 0 tree type m.

(** [freshenPACIndexes], [freshenPACIndexesAll] *)
Fixpoint freshen_loop (n : nat) (c : Z) (tree : tptr) (m : ARBORETUM) : outcome ARBORETUM :=
  match n with
  | O => Ok m
  | S n =>
      child ← getChild tree c m;
      child ← deref child;
      m ← setChildIndex child c m;
      m ← setParent child (Some tree) m;
      freshen_loop n (c + 1) tree m
  end.
Definition freshenPACIndexes (tree : tptr) (offset : Z) (m : ARBORETUM) : outcome ARBORETUM :=
  count ← getChildCount tree m;
  freshen_loop (Z.to_nat (count - offset)) offset tree m.
Definition freshenPACIndexesAll (tree : tptr) (m : ARBORETUM) : outcome ARBORETUM :=
  freshenPACIndexes tree 0 m.

(** Adding to, writing in and removing from the vector of the children. *)
Definition on_children {A} (tree : tptr) (f : VECTOR tptr → outcome (A * VECTOR tptr))
    (m : ARBORETUM) : outcome (A * ARBORETUM) :=
  n ← node m tree;
  v ← deref (children n);
  w ← load (vFactory m) v;
  '(a, w) ← f w;
  Ok (a, set_vFactory (store (vFactory m) v w) m).

(** The loop of [addChild] over the children of a nil node. *)
Fixpoint copy_children (n : nat) (i : Z) (tree : tptr) (from : ptr) (m : ARBORETUM)
    : outcome ARBORETUM :=
  match n with
  | O => Ok m
  | S n =>
      w ← load (vFactory m) from;
      entry ← VectorGet w i;
      m ← match entry with
          | None => Ok m
          | Some _ => '(_, m) ← on_children tree (λ w, VectorAdd w entry false) m; Ok m
          end;
      copy_children n (i + 1) tree from m
  end.
Definition addChild (tree : tptr) (child : option tptr) (m : ARBORETUM) : outcome ARBORETUM :=
  match child with
  | None => Ok m
  | Some child =>
      c ← node m child;
      if is_nil c then
        t ← node m tree;
        match children c with
        | None => Ok m
        | Some v =>
            if bool_decide (children t = Some v) then Ok m
            else
              match children t with
              | None =>
                  m ← change (set_children (Some v)) tree m;
                  m ← change (set_children None) child m;
                  freshenPACIndexesAll tree m
              | Some _ =>
                  w ← load (vFactory m) v;
                  copy_children (Z.to_nat (VectorSize w)) 0 tree v m
              end
        end
      else
        t ← node m tree;
        m ← match children t with None => createChildrenList tree m | Some _ => Ok m end;
        '(_, m) ← on_children tree (λ w, VectorAdd w (Some child) false) m;
        Ok m
  end.

(** [addChildren]: the elements of a list, whose keys start at 1. *)
Fixpoint add_kids (n : nat) (i : Z) (tree : tptr) (kids : HASH_TABLE tptr) (m : ARBORETUM)
    : outcome ARBORETUM :=
  match n with
  | O => Ok m
  | S n =>
      k ← ListGet kids (i + 1);
      m ← addChild tree k m;
      add_kids n (i + 1) tree kids m
  end.
Definition addChildren (tree : tptr) (kids : HASH_TABLE tptr) (m : ARBORETUM) : outcome ARBORETUM :=
  add_kids (Z.to_nat (ListSize kids)) 0 tree kids m.

Definition set_child (tree : tptr) (i : Z) (child : option tptr) (m : ARBORETUM) : outcome ARBORETUM :=
  '(_, m) ← on_children tree (λ w, '(_, _, w) ← VectorSet w i child false false; Ok (tt, w)) m;
  Ok m.
Definition setChild (tree : tptr) (i : Z) (child : option tptr) (m : ARBORETUM) : outcome ARBORETUM :=
  t ← node m tree;
  m ← match children t with None => createChildrenList tree m | Some _ => Ok m end;
  set_child tree i child m.
Definition deleteChild (tree : tptr) (i : Z) (m : ARBORETUM) : outcome (option tptr * ARBORETUM) :=
  t ← node m tree;
  match children t with
  | None => Ok (None, m)
  | Some _ => on_children tree (λ w, VectorRemove w i) m
  end.

(** The loop of the two functions that copy a tree, over the children of the tree. *)
Fixpoint dup_children (dup : tptr → ARBORETUM → outcome (tptr * ARBORETUM)) (n : nat) (i : Z)
    (tree newTree : tptr) (m : ARBORETUM) : outcome ARBORETUM :=
  match n with
  | O => Ok m
  | S n =>
      t ← getChild tree i m;
      m ← match t with
          | None => Ok m
          | Some t => '(newNode, m) ← dup t m; addChild newTree (Some newNode) m
          end;
      dup_children dup n (i + 1) tree newTree m
  end.
(** [dupTree]; [fuel] is the height of the tree. *)
Fixpoint dupTree (fuel : nat) (tree : tptr) (m : ARBORETUM) : outcome (tptr * ARBORETUM) :=
  match fuel with
  | O => Undef NoFuel
  | S fuel =>
      '(newTree, m) ← dupNode tree m;
      s ← getChildCount tree m;
      m ← dup_children (dupTree fuel) (Z.to_nat s) 0 tree newTree m;
      Ok (newTree, m)
  end.

(** [toStringTree]. Its string is what it appends to it, in order. *)
Fixpoint string_children (print : tptr → outcome str) (n : nat) (i : Z) (tree : tptr)
    (m : ARBORETUM) : outcome str :=
  match n with
  | O => Ok []
  | S n =>
      t ← getChild tree i m;
      t ← deref t;
      s ← print t;
      rest ← string_children print n (i + 1) tree m;
      Ok ((if 0 <? i then lit " " else []) ++ s ++ rest)
  end.
Fixpoint toStringTree (fuel : nat) (m : ARBORETUM) (tree : tptr) : outcome str :=
  match fuel with
  | O => Undef NoFuel
  | S fuel =>
      n ← getChildCount tree m;
      if n =? 0 then toString tree m
      else
        nil ← isNilNode tree m;
        text ← toString tree m;
        s ← string_children (toStringTree fuel m) (Z.to_nat n) 0 tree m;
        Ok ((if nil : bool then [] else lit "(" ++ text ++ lit " ") ++ s ++ (if nil then [] else lit ")"))
  end.

(** *** Replacing children *)

(** The new children: the vector of a nil node, or one made for a single node. *)
Definition new_children (from : ptr + VECTOR tptr) (m : ARBORETUM) : outcome (VECTOR tptr) :=
  match from with inl v => load (vFactory m) v | inr w => Ok w end.
(** The first loop: every place gets the first of them, since the second counter
    stays. *)
Fixpoint replace_same (n : nat) (i : Z) (tree : tptr) (from : ptr + VECTOR tptr) (m : ARBORETUM)
    : outcome ARBORETUM :=
  match n with
  | O => Ok m
  | S n =>
      w ← new_children from m;
      child ← VectorGet w 0;
      m ← set_child tree (u32 i) child m;
      child ← deref child;
      m ← setParent child (Some tree) m;
      m ← setChildIndex child i m;
      replace_same n (i + 1) tree from m
  end.
Fixpoint replace_first (n : nat) (start j : Z) (tree : tptr) (from : ptr + VECTOR tptr)
    (m : ARBORETUM) : outcome ARBORETUM :=
  match n with
  | O => Ok m
  | S n =>
      w ← new_children from m;
      child ← VectorGet w j;
      m ← set_child tree (u32 (start + j)) child m;
      replace_first n start (j + 1) tree from m
  end.
Fixpoint remove_at (n : nat) (i : Z) (tree : tptr) (m : ARBORETUM) : outcome ARBORETUM :=
  match n with
  | O => Ok m
  | S n => '(_, m) ← on_children tree (λ w, VectorRemove w i) m; remove_at n i tree m
  end.
Fixpoint add_last (n : nat) (j : Z) (tree : tptr) (from : ptr + VECTOR tptr) (m : ARBORETUM)
    : outcome ARBORETUM :=
  match n with
  | O => Ok m
  | S n =>
      w ← new_children from m;
      child ← VectorGet w j;
      '(_, m) ← on_children tree (λ w, VectorAdd w child false) m;
      add_last n (j + 1) tree from m
  end.
Definition replaceChildren (tree : tptr) (startChildIndex stopChildIndex : Z) (newTree : tptr)
    (m : ARBORETUM) : outcome ARBORETUM :=
  t ← node m tree;
  match children t with
  | None => Ok m
  | Some _ =>
      n ← node m newTree;
      from ← (if is_nil n then v ← deref (children n); Ok (inl v) : outcome (ptr + VECTOR tptr)
              else '(_, w) ← VectorAdd (V:=tptr) (VectorNew 1) (Some newTree) false; Ok (inr w)
              : outcome (ptr + VECTOR tptr));
      w ← new_children from m;
      let numNewChildren := VectorSize w in
      replacingHowMany ← int_op (stopChildIndex - startChildIndex + 1);
      delta ← int_op (replacingHowMany - numNewChildren);
      if delta =? 0 then
        replace_same (Z.to_nat replacingHowMany) startChildIndex tree from m
      else if 0 <? delta then
        m ← replace_first (Z.to_nat numNewChildren) startChildIndex 0 tree from m;
        m ← remove_at (Z.to_nat delta) (u32 (startChildIndex + numNewChildren)) tree m;
        freshenPACIndexes tree (u32 startChildIndex) m
      else
        m ← replace_first (Z.to_nat replacingHowMany) startChildIndex 0 tree from m;
        m ← add_last (Z.to_nat (- delta)) replacingHowMany tree from m;
        freshenPACIndexes tree (u32 startChildIndex) m
  end.

(** ** The adaptor *)

Definition create (payload : option COMMON_TOKEN) (m : ARBORETUM) : outcome (tptr * ARBORETUM) :=
  newFromToken payload m.
Definition nilNode (m : ARBORETUM) : outcome (tptr * ARBORETUM) := create None m.
(** [createTypeText], with [createToken]; [createTypeToken] and [createTypeTokenText],
    with [createTokenFromToken]. *)
Definition createTypeText (tokenType : Z) (text : str) (m : ARBORETUM) : outcome (tptr * ARBORETUM) :=
  create (Some (mkToken tokenType TOKEN_DEFAULT_CHANNEL text)) m.
Definition createTypeToken (tokenType : Z) (fromToken : COMMON_TOKEN) (m : ARBORETUM)
    : outcome (tptr * ARBORETUM) :=
  create (Some (mkToken tokenType (tok_channel fromToken) (tok_text fromToken))) m.
Definition createTypeTokenText (tokenType : Z) (fromToken : COMMON_TOKEN) (text : str) (m : ARBORETUM)
    : outcome (tptr * ARBORETUM) :=
  create (Some (mkToken tokenType (tok_channel fromToken) text)) m.
Definition errorNode (m : ARBORETUM) : outcome (tptr * ARBORETUM) :=
  createTypeText Tree.ANTLR3_TOKEN_INVALID (lit "Tree Error Node") m.

Definition adaptor_dupNode (treeNode : option tptr) (m : ARBORETUM)
    : outcome (option tptr * ARBORETUM) :=
  match treeNode with
  | None => Ok (None, m)
  | Some p => '(p, m) ← dupNode p m; Ok (Some p, m)
  end.
Definition adaptor_addChild (t child : option tptr) (m : ARBORETUM) : outcome ARBORETUM :=
  match t, child with
  | Some t, Some _ => addChild t child m
  | _, _ => Ok m
  end.
Definition addChildToken (t : option tptr) (child : option COMMON_TOKEN) (m : ARBORETUM)
    : outcome ARBORETUM :=
  match t, child with
  | Some _, Some _ => '(c, m) ← create child m; adaptor_addChild t (Some c) m
  | _, _ => Ok m
  end.

Definition becomeRoot (newRootTree oldRootTree : option tptr) (m : ARBORETUM)
    : outcome (option tptr * ARBORETUM) :=
  match newRootTree, oldRootTree with
  | None, _ => Ok (oldRootTree, m)
  | _, None => Ok (newRootTree, m)
  | Some newRoot, Some oldRoot =>
      nil ← isNilNode newRoot m;
      n ← getChildCount newRoot m;
      if nil && (1 <? n) then Ok (newRootTree, m)
      else
        '(newRoot, m) ←
          (if nil : bool then
             child ← getChild newRoot 0 m;
             m ← reuse newRoot m;
             child ← deref child;
             Ok (child, m)
           else Ok (newRoot, m));
        m ← addChild newRoot (Some oldRoot) m;
        nil ← isNilNode oldRoot m;
        m ← (if nil : bool then reuse oldRoot m else Ok m);
        Ok (Some newRoot, m)
  end.
Definition becomeRootToken (newRoot : option COMMON_TOKEN) (oldRoot : option tptr) (m : ARBORETUM)
    : outcome (option tptr * ARBORETUM) :=
  '(p, m) ← create newRoot m;
  becomeRoot (Some p) oldRoot m.

Definition rulePostProcessing (root : option tptr) (m : ARBORETUM)
    : outcome (option tptr * ARBORETUM) :=
  match root with
  | None => Ok (None, m)
  | Some saveRoot =>
      nil ← isNilNode saveRoot m;
      n ← getChildCount saveRoot m;
      if negb nil then Ok (root, m)
      else if n =? 0 then Ok (None, m)
      else if n =? 1 then
        child ← getChild saveRoot 0 m;
        child ← deref child;
        m ← setParent child None m;
        m ← setChildIndex child (-1) m;
        m ← reuse saveRoot m;
        Ok (Some child, m)
      else Ok (root, m)
  end.

(** [setTokenBoundaries], with the indexes of the two tokens. *)
Definition setTokenBoundaries (t : option tptr) (startToken stopToken : option Z) (m : ARBORETUM)
    : outcome ARBORETUM :=
  match t with
  | None => Ok m
  | Some p => change (set_indexes (default 0 startToken) (default 0 stopToken)) p m
  end.

(** [dupTreeTT], [dupTree] of the adaptor. *)
Fixpoint dupTreeTT (fuel : nat) (t : tptr) (parent : option tptr) (m : ARBORETUM)
    : outcome (tptr * ARBORETUM) :=
  match fuel with
  | O => Undef NoFuel
  | S fuel =>
      '(newTree, m) ← dupNode t m;
      i ← getChildIndex t m;
      m ← setChildIndex newTree i m;
      m ← setParent newTree parent m;
      n ← getChildCount t m;
      m ← dup_children (λ child m, dupTreeTT fuel child (Some t) m) (Z.to_nat n) 0 t newTree m;
      Ok (newTree, m)
  end.
Definition adaptor_dupTree (fuel : nat) (t : option tptr) (m : ARBORETUM)
    : outcome (option tptr * ARBORETUM) :=
  match t with
  | None => Ok (None, m)
  | Some t => '(p, m) ← dupTreeTT fuel t None m; Ok (Some p, m)
  end.
