(* ===== verification/TreeRefine.v ===== *)
(** The trees in memory of [TreeStore] implement the trees of [Tree], whatever nodes
    and vectors are given back and used again. *)
From S2P Require Import Prelude.
From S2P Require Import CppString.
From S2P Require Import Vector.
From S2P Require Import VectorFactory.
From S2P Require Import HashTable.
From S2P Require Import Lexer.
From S2P Require Import TreeStore.
From S2P Require Tree.

(** ** Trees with their places

    A tree as it lies in memory: for each node, where it is, its token, its vector and
    its children. *)
Inductive ATREE : Type :=
| ANode (p : tptr) (tok : option COMMON_TOKEN) (v : option ptr) (cs : list ATREE).

Lemma ATREE_nested_ind (P : ATREE → Prop) :
  (∀ p tok v cs, Forall P cs → P (ANode p tok v cs)) → ∀ a, P a.
Proof.
  intros H. fix IH 1. intros [p tok v cs]. apply H.
  induction cs as [|c cs IHcs]; constructor; [apply IH|apply IHcs].
Qed.

Definition root (a : ATREE) : tptr := let 'ANode p _ _ _ := a in p.
Definition atok (a : ATREE) : option COMMON_TOKEN := let 'ANode _ tok _ _ := a in tok.
Definition avec (a : ATREE) : option ptr := let 'ANode _ _ v _ := a in v.
Definition akids (a : ATREE) : list ATREE := let 'ANode _ _ _ cs := a in cs.
Fixpoint erase (a : ATREE) : Tree.BASE_TREE :=
  let 'ANode _ tok _ cs := a in Tree.Tree tok (map erase cs).
Fixpoint nodes (a : ATREE) : list tptr :=
  let 'ANode p _ _ cs := a in p :: concat (map nodes cs).
Fixpoint vecs (a : ATREE) : list ptr :=
  let 'ANode _ _ v cs := a in option_list v ++ concat (map vecs cs).
Definition nodes_of (l : list ATREE) : list tptr := concat (map nodes l).
Definition vecs_of (l : list ATREE) : list ptr := concat (map vecs l).

Definition entry (p : tptr) : VECTOR_ELEMENT tptr := mkElement (Some p) false.

(** What the structure of a tree depends on. *)
Definition core (m : ARBORETUM) (p : tptr) : option (option COMMON_TOKEN * option ptr) :=
  match node m p with Ok n => Some (token n, children n) | _ => None end.

(** A tree of memory; no child is a nil node. *)
Inductive stored (m : ARBORETUM) : ATREE → Prop :=
| stored_node p tok v cs :
    core m p = Some (tok, v) →
    match v with
    | None => cs = []
    | Some v => ∃ w, load (vFactory m) v = Ok w ∧ holds w (entry ∘ root <$> cs)
    end →
    Forall (λ c, is_Some (atok c)) cs → Forall (stored m) cs →
    stored m (ANode p tok v cs).

(** The pools of the factory, of which [n] nodes at most were handed out. *)
Definition handed_out (m : ARBORETUM) (p : tptr) : Prop :=
  (Z.of_nat p.1 < thisTreePool m ∧ Z.of_nat p.2 < 1024) ∨
  (Z.of_nat p.1 = thisTreePool m ∧ Z.of_nat p.2 < nextTree m).
Record pools_ok (n : Z) (m : ARBORETUM) : Prop := {
  po_pools : Z.of_nat (length (treePools m)) = thisTreePool m + 1;
  po_pool : ∀ i pool, treePools m !! i = Some pool → length pool = 1024%nat;
  po_next : 0 ≤ thisTreePool m ∧ 0 ≤ nextTree m ≤ 1024;
  po_live : ∀ p nd, node m p = Ok nd → handed_out m p;
  po_bound : 1024 * thisTreePool m + nextTree m ≤ n
}.

(** The trees [F] in use, the nodes [R] that were given back, with the vectors [lk]
    that neither has any more. *)
Definition blank (a : ATREE) : Prop := ∃ p v, a = ANode p None v [].
Record trees_ok (n : Z) (m : ARBORETUM) (F R : list ATREE) (lk : list ptr) : Prop := {
  tr_pools : pools_ok n m;
  tr_stack : stacked (nilStack m) (entry ∘ root <$> R);
  tr_blank : Forall blank R;
  tr_stored : Forall (stored m) (F ++ R);
  tr_nodup : NoDup (nodes_of (F ++ R));
  tr_vectors : ∃ fs, factory_ok n (vFactory m) (vecs_of (F ++ R) ++ lk) fs
}.

(** A node that somebody remembers: its token stays, and a nil node is no part of a
    tree any more. *)
Definition seen (m : ARBORETUM) (all : list ATREE) (p : tptr) (tok : option COMMON_TOKEN) : Prop :=
  (∃ v, core m p = Some (tok, v)) ∧ (tok = None → p ∉ nodes_of all).
Definition evolves (m : ARBORETUM) (all : list ATREE) (m' : ARBORETUM) (all' : list ATREE) : Prop :=
  ∀ p tok, seen m all p tok → seen m' all' p tok.
#[export] Instance evolves_refl m all : Reflexive (λ _ _ : unit, evolves m all m all).
Proof. by intros ? ? ?. Qed.
Lemma evolves_trans m1 a1 m2 a2 m3 a3 :
  evolves m1 a1 m2 a2 → evolves m2 a2 m3 a3 → evolves m1 a1 m3 a3.
Proof. intros H1 H2 p tok H. by apply H2, H1. Qed.

(** ** Lists of trees *)

Lemma nodes_of_app a b : nodes_of (a ++ b) = nodes_of a ++ nodes_of b.
Proof. unfold nodes_of. by rewrite map_app, concat_app. Qed.
Lemma vecs_of_app a b : vecs_of (a ++ b) = vecs_of a ++ vecs_of b.
Proof. unfold vecs_of. by rewrite map_app, concat_app. Qed.
Lemma nodes_of_cons a b : nodes_of (a :: b) = root a :: nodes_of (akids a) ++ nodes_of b.
Proof. by destruct a. Qed.
Lemma vecs_of_cons a b : vecs_of (a :: b) = option_list (avec a) ++ vecs_of (akids a) ++ vecs_of b.
Proof. destruct a. unfold vecs_of. cbn. by rewrite app_assoc. Qed.
Lemma nodes_of_perm a b : a ≡ₚ b → nodes_of a ≡ₚ nodes_of b.
Proof. intros H. unfold nodes_of. rewrite <-!flat_map_concat_map. by rewrite H. Qed.
Lemma vecs_of_perm a b : a ≡ₚ b → vecs_of a ≡ₚ vecs_of b.
Proof. intros H. unfold vecs_of. rewrite <-!flat_map_concat_map. by rewrite H. Qed.
Lemma erase_node a : erase a = Tree.Tree (atok a) (map erase (akids a)).
Proof. by destruct a. Qed.
Lemma root_in a l : a ∈ l → root a ∈ nodes_of l.
Proof.
  intros (l1 & l2 & ->)%list_elem_of_split. rewrite nodes_of_app, nodes_of_cons. set_solver.
Qed.
Lemma length_nodes_of l : (length l ≤ length (nodes_of l))%nat.
Proof.
  induction l as [|a l IH]; [done|]. rewrite nodes_of_cons. cbn. rewrite length_app. lia.
Qed.

(** ** Memory *)

Lemma write_place_ok m p o n :
  treePools m !! p.1 ≫= lookup p.2 = Some o →
  ∃ m', write_node p n m = Ok m' ∧ node m' p = Ok n ∧ (∀ q, q ≠ p → node m' q = node m q) ∧
    vFactory m' = vFactory m ∧ nilStack m' = nilStack m ∧
    ∀ k, pools_ok k m → handed_out m p → pools_ok k m'.
Proof.
  unfold write_node. intros E. rewrite E. eexists. split; [done|].
  destruct (treePools m !! p.1) as [pool|] eqn:Ep; cbn in E; [|done].
  assert (Hp : node (set_treePools (alter (insert p.2 (Some n)) p.1 (treePools m)) m) p = Ok n).
  { unfold node. cbn. rewrite list_lookup_alter_eq, Ep. cbn.
    by rewrite list_lookup_insert_eq by (eapply lookup_lt_Some, E). }
  assert (Hq : ∀ q, q ≠ p → node (set_treePools (alter (insert p.2 (Some n)) p.1 (treePools m)) m) q = node m q).
  { intros q Hne. unfold node. cbn. destruct (decide (p.1 = q.1)) as [E1|E1].
    - rewrite <-E1, list_lookup_alter_eq, Ep. cbn.
      rewrite list_lookup_insert_ne; [done|]. intros E2. apply Hne. destruct p, q; cbn in *; congruence.
    - by rewrite list_lookup_alter_ne. }
  split_and!; [done|done|done|done|]. intros k [H1 H2 H3 H4 H5] Hh. split; cbn; try done.
  - by rewrite length_alter.
  - intros i pl. rewrite list_lookup_alter. destruct (decide (p.1 = i)) as [<-|]; [|eauto].
    intros (pl' & Hpl & ->)%fmap_Some. rewrite length_insert. eauto.
  - intros q nq Hn. destruct (decide (q = p)) as [->|Hne]; [exact Hh|].
    rewrite Hq in Hn by done. by apply (H4 q nq).
Qed.

Lemma change_ok m p nd f :
  node m p = Ok nd →
  ∃ m', change f p m = Ok m' ∧ node m' p = Ok (f nd) ∧ (∀ q, q ≠ p → node m' q = node m q) ∧
    vFactory m' = vFactory m ∧ nilStack m' = nilStack m ∧ ∀ k, pools_ok k m → pools_ok k m'.
Proof.
  intros E. unfold change. rewrite E. cbn [mbind outcome_bind].
  assert (∃ o, treePools m !! p.1 ≫= lookup p.2 = Some o) as [o Eo].
  { unfold node in E. destruct (treePools m !! p.1 ≫= lookup p.2); [eauto|done]. }
  destruct (write_place_ok m p o (f nd) Eo) as (m' & E' & Hp & Hq & Hv & Hs & Hk).
  exists m'. split_and!; try done. intros k Hok. apply Hk; [done|]. by apply (po_live _ _ Hok p nd).
Qed.

Lemma core_node m p tok v : core m p = Some (tok, v) → ∃ n, node m p = Ok n ∧ token n = tok ∧ children n = v.
Proof. unfold core. destruct (node m p) as [n| |]; [|done..]. intros [= <- <-]. eauto. Qed.
Lemma node_core m m' p : node m' p = node m p → core m' p = core m p.
Proof. unfold core. by intros ->. Qed.

(** Changes of what is not structure. *)
Definition skeleton (m m' : ARBORETUM) : Prop :=
  (∀ p, core m' p = core m p) ∧ vFactory m' = vFactory m ∧ nilStack m' = nilStack m ∧
  ∀ k, pools_ok k m → pools_ok k m'.
Lemma skeleton_trans m1 m2 m3 : skeleton m1 m2 → skeleton m2 m3 → skeleton m1 m3.
Proof.
  intros (A1 & A2 & A3 & A4) (B1 & B2 & B3 & B4). split_and!; [|congruence|congruence|auto].
  intros p. by rewrite B1.
Qed.
Lemma change_skeleton m p nd f :
  node m p = Ok nd → (∀ n, token (f n) = token n ∧ children (f n) = children n) →
  ∃ m', change f p m = Ok m' ∧ skeleton m m'.
Proof.
  intros E Hf. destruct (change_ok m p nd f E) as (m' & E' & Hp & Hq & Hv & Hs & Hk).
  exists m'. split; [done|]. split_and!; [|done|done|done]. intros q.
  destruct (decide (q = p)) as [->|]; [|by apply node_core, Hq].
  unfold core. rewrite Hp, E. destruct (Hf nd) as [-> ->]. done.
Qed.

(** A tree stays where its nodes and its vectors stay. *)
Lemma stored_frame m m' a :
  stored m a → (∀ q, q ∈ nodes a → core m' q = core m q) →
  (∀ v, v ∈ vecs a → load (vFactory m') v = load (vFactory m) v) → stored m' a.
Proof.
  induction a as [p tok v cs IH] using ATREE_nested_ind. intros H Hn Hv.
  inversion H as [? ? ? ? Hc Hw Hnil Hs]; subst. constructor.
  - rewrite Hn; [done|]. cbn. left.
  - destruct v as [v|]; [|done]. rewrite Hv; [done|]. cbn. left.
  - done.
  - clear H Hc Hw Hnil. cbn in Hn, Hv.
    assert (Hn' : ∀ q, q ∈ concat (map nodes cs) → core m' q = core m q).
    { intros q Hq. apply Hn. by right. }
    assert (Hv' : ∀ w, w ∈ concat (map vecs cs) → load (vFactory m') w = load (vFactory m) w).
    { intros w Hw. apply Hv, elem_of_app. by right. }
    clear Hn Hv. induction cs as [|c cs IHcs]; [constructor|]. cbn in Hn', Hv'.
    apply Forall_cons in IH as [IHc IH], Hs as [Hc Hs]. constructor.
    + apply IHc; [done|..]; intros; [apply Hn'|apply Hv']; apply elem_of_app; by left.
    + apply IHcs; [done|done|..]; intros; [apply Hn'|apply Hv']; apply elem_of_app; by right.
Qed.
Lemma stored_all_frame m m' l :
  Forall (stored m) l → (∀ q, q ∈ nodes_of l → core m' q = core m q) →
  (∀ v, v ∈ vecs_of l → load (vFactory m') v = load (vFactory m) v) → Forall (stored m') l.
Proof.
  intros H Hn Hv. induction l as [|a l IH]; [constructor|]. apply Forall_cons in H as [Ha H].
  unfold nodes_of, vecs_of in *. cbn in *. constructor.
  - apply (stored_frame m); [done|..]; intros; [apply Hn|apply Hv]; apply elem_of_app; by left.
  - apply IH; [done|..]; intros; [apply Hn|apply Hv]; apply elem_of_app; by right.
Qed.

(** ** The invariant *)

Lemma submseteq_nodup {A} (k l : list A) : NoDup l → k ⊆+ l → NoDup k.
Proof.
  intros Hl (k' & E)%submseteq_Permutation. rewrite E in Hl. by apply NoDup_app in Hl as [].
Qed.

Lemma trees_perm n m F F' R lk : F ≡ₚ F' → trees_ok n m F R lk → trees_ok n m F' R lk.
Proof.
  intros HF [H1 H2 H3 H4 H5 [fs H6]]. split; try done.
  - by rewrite <-HF.
  - rewrite nodes_of_app, <-(nodes_of_perm _ _ HF), <-nodes_of_app. done.
  - exists fs. eapply factory_perm; [|exact H6].
    by rewrite !vecs_of_app, (vecs_of_perm _ _ HF).
Qed.
Lemma seen_perm m l l' p tok : l ≡ₚ l' → seen m l p tok → seen m l' p tok.
Proof. intros H [Hc Hn]. split; [done|]. intros ->. rewrite <-(nodes_of_perm _ _ H). auto. Qed.

(** Some of the trees become others, out of the same nodes; the rest is not touched. *)
Lemma trees_step n m A F R lk n' m' A' lk' :
  trees_ok n m (A ++ F) R lk →
  pools_ok n' m' → nilStack m' = nilStack m →
  Forall (stored m') A' → nodes_of A' ⊆+ nodes_of A →
  (∀ q, q ∈ nodes_of (F ++ R) → core m' q = core m q) →
  (∀ v, v ∈ vecs_of (F ++ R) → load (vFactory m') v = load (vFactory m) v) →
  (∃ fs, factory_ok n' (vFactory m') (vecs_of (A' ++ F ++ R) ++ lk') fs) →
  trees_ok n' m' (A' ++ F) R lk'.
Proof.
  intros [H1 H2 H3 H4 H5 _] Hp Hs HA Hsub Hq Hv Hfs. split; try done.
  - by rewrite Hs.
  - rewrite <-app_assoc. apply Forall_app. split; [done|].
    rewrite <-app_assoc in H4. apply Forall_app in H4 as [_ H4]. by apply (stored_all_frame m).
  - rewrite <-app_assoc, nodes_of_app in *.
    apply (submseteq_nodup _ _ H5). by apply submseteq_skips_r.
  - by rewrite <-app_assoc.
Qed.
Lemma evolves_step m A F m' A' :
  nodes_of A' ⊆+ nodes_of A →
  (∀ q tok v, core m q = Some (tok, v) → (tok = None → q ∉ nodes_of A) → ∃ v', core m' q = Some (tok, v')) →
  evolves m (A ++ F) m' (A' ++ F).
Proof.
  intros Hsub Hc p tok [[v Hp] Hn]. split.
  - apply (Hc p tok v Hp). intros E Hin. apply (Hn E). rewrite nodes_of_app. set_solver.
  - intros E Hin. apply (Hn E). rewrite nodes_of_app in *. apply elem_of_app in Hin as [Hin|Hin].
    + apply elem_of_app. left. by apply (elem_of_submseteq _ _ _ Hin).
    + apply elem_of_app. by right.
Qed.

Lemma trees_skeleton n m m' F R lk : skeleton m m' → trees_ok n m F R lk → trees_ok n m' F R lk.
Proof.
  intros (Hc & Hv & Hs & Hp) H. change F with ([] ++ F). eapply (trees_step n m []); try done.
  - apply Hp, H.
  - intros v _. by rewrite Hv.
  - rewrite Hv. apply (tr_vectors _ _ _ _ _ H).
Qed.
Lemma seen_skeleton m m' all : skeleton m m' → evolves m all m' all.
Proof. intros (Hc & _) p tok [[v Hp] Hn]. split; [|done]. exists v. by rewrite Hc. Qed.

(** A bound for the number of nodes. *)
Lemma live_count n m l :
  pools_ok n m → NoDup l → (∀ p, p ∈ l → ∃ c, core m p = Some c) → Z.of_nat (length l) ≤ n.
Proof.
  intros H Hd Hl. pose proof (po_next _ _ H) as Hn. pose proof (po_bound _ _ H) as Hb.
  assert (Hr : ∀ p, p ∈ l → handed_out m p).
  { intros p ([tok v] & Hc)%Hl. apply core_node in Hc as (nd & E & _). by apply (po_live _ _ H _ nd). }
  pose (f := λ p : tptr, 1024 * Z.of_nat p.1 + Z.of_nat p.2).
  assert (Hf : (length (f <$> l) ≤ Z.to_nat n)%nat); [|rewrite length_fmap in Hf; lia].
  apply nodup_bound.
  - apply NoDup_fmap_2_strong; [|done]. intros [i j] [i' j'] Hi Hj E. unfold f in E. cbn in E.
    apply Hr in Hi, Hj. unfold handed_out in Hi, Hj. cbn in *. f_equal; lia.
  - apply Forall_fmap, Forall_forall. intros [i j] Hi%Hr. unfold handed_out, f in *. cbn in *. lia.
Qed.
Lemma stored_core m a : stored m a → ∀ p, p ∈ nodes a → ∃ c, core m p = Some c.
Proof.
  induction a as [p tok v cs IH] using ATREE_nested_ind. intros H q Hq.
  inversion H as [? ? ? ? Hc _ _ Hs]; subst. cbn in Hq.
  apply elem_of_cons in Hq as [->|Hq]; [eauto|].
  clear H. induction cs as [|c cs IHcs]; cbn in Hq; [by apply not_elem_of_nil in Hq|].
  apply Forall_cons in IH as [IHc IH], Hs as [Hs1 Hs2]. apply elem_of_app in Hq as [Hq|Hq]; auto.
Qed.
Lemma stored_all_core m l p : Forall (stored m) l → p ∈ nodes_of l → ∃ c, core m p = Some c.
Proof.
  intros H Hp. induction l as [|a l IH]; [by apply not_elem_of_nil in Hp|].
  apply Forall_cons in H as [Ha H]. unfold nodes_of in Hp. cbn in Hp.
  apply elem_of_app in Hp as [Hp|Hp]; [by apply (stored_core m a)|auto].
Qed.
Lemma trees_count n m F R lk : trees_ok n m F R lk → Z.of_nat (length (nodes_of (F ++ R))) ≤ n.
Proof.
  intros H. apply (live_count n m); [apply H|apply H|].
  intros p. apply stored_all_core, H.
Qed.

(** ** New nodes *)

Lemma newTreePool_ok n F R lk m :
  trees_ok n m F R lk → nextTree m = 1024 → n < 2 ^ 31 →
  ∃ m', newTreePool m = Ok m' ∧ trees_ok n m' F R lk ∧ nextTree m' = 0 ∧ (∀ q, core m' q = core m q) ∧
    nilStack m' = nilStack m.
Proof.
  intros H Hnext Hn. pose proof (tr_pools _ _ _ _ _ H) as Hp.
  pose proof (po_pools _ _ Hp) as Hl. pose proof (po_next _ _ Hp) as Hnx.
  pose proof (po_bound _ _ Hp) as Hb. unfold newTreePool.
  rewrite int_op_ok by (unfold INT_MIN, INT_MAX; lia). cbn [mbind outcome_bind].
  rewrite u32_small by lia.
  destruct (Z.ltb_spec ((thisTreePool m + 1 + 1) * 8) ((thisTreePool m + 1 + 1) * 8)); [lia|].
  eexists. split; [done|].
  assert (Hnode : ∀ q, core (mkArboretum (treePools m ++ [replicate (Z.to_nat ANTLR3_FACTORY_POOL_SIZE) None])
    (thisTreePool m + 1) 0 (vFactory m) (nilStack m)) q = core m q).
  { intros [i j]. unfold core, node. cbn [treePools fst snd].
    destruct (decide (i < length (treePools m))%nat).
    - by rewrite lookup_app_l.
    - rewrite (lookup_ge_None_2 (treePools m)) by lia. cbn.
      destruct (decide (i = length (treePools m))) as [->|].
      + rewrite list_lookup_middle by done. cbn.
        destruct (replicate _ None !! j) as [o|] eqn:E; [|done].
        by apply lookup_replicate_1 in E as [-> _].
      + rewrite lookup_ge_None_2; [done|]. rewrite length_app. cbn. lia. }
  split_and!; [|done|exact Hnode|done]. change F with ([] ++ F). apply (trees_step n m [] F R lk); try done.
  - split; cbn; try lia.
    + rewrite length_app. cbn. lia.
    + intros i pool Hi. apply lookup_app_Some in Hi as [Hi|[_ Hi]].
      * by apply (po_pool _ _ Hp i).
      * apply list_lookup_singleton_Some in Hi as [_ <-]. done.
    + intros q nd Eq. unfold handed_out. cbn.
      pose proof (Hnode q) as Hq. unfold core in Hq at 1. rewrite Eq in Hq. symmetry in Hq.
      apply core_node in Hq as (nd' & En & _). apply (po_live _ _ Hp) in En. unfold handed_out in En. lia.
  - apply (tr_vectors _ _ _ _ _ H).
Qed.

Lemma pools_mono n n' m : pools_ok n m → n ≤ n' → pools_ok n' m.
Proof. intros [] H. split; try done. lia. Qed.
Lemma factory_mono {V} n n' (f : VECTOR_FACTORY V) us fs : factory_ok n f us fs → n ≤ n' → factory_ok n' f us fs.
Proof. intros [] H. split; try done. lia. Qed.
Lemma trees_mono n n' m F R lk : trees_ok n m F R lk → n ≤ n' → trees_ok n' m F R lk.
Proof.
  intros [H1 H2 H3 H4 H5 [fs H6]] Hn. split; try done.
  - by apply (pools_mono n).
  - exists fs. by apply (factory_mono n).
Qed.

(** The next node of the pool. *)
Lemma next_node_ok n m F lk :
  trees_ok n m F [] lk → nextTree m < 1024 → n + 1 < 2 ^ 31 →
  let p := (Z.to_nat (thisTreePool m), Z.to_nat (nextTree m)) in
  ∃ m', write_node p SetCTAPI (set_nextTree (u32 (nextTree m + 1)) m) = Ok m' ∧
    trees_ok (n + 1) m' (ANode p None None [] :: F) [] lk ∧
    evolves m (F ++ []) m' (ANode p None None [] :: F ++ []).
Proof.
  intros H Hlt Hn p. pose proof (tr_pools _ _ _ _ _ H) as Hp.
  pose proof (po_pools _ _ Hp) as Hl. pose proof (po_next _ _ Hp) as Hnx. pose proof (po_bound _ _ Hp) as Hb.
  rewrite u32_small by lia. set (m1 := set_nextTree (nextTree m + 1) m).
  assert (H1 : pools_ok (n + 1) m1).
  { destruct Hp as [? ? ? Hlive ?]. split; cbn; try done; try lia.
    intros q nd Hq. apply (Hlive q nd) in Hq. unfold handed_out in *. cbn. lia. }
  destruct (lookup_lt_is_Some_2 (treePools m) p.1) as [pool Epool]; [unfold p; cbn; lia|].
  destruct (lookup_lt_is_Some_2 pool p.2) as [o Eo].
  { rewrite (po_pool _ _ Hp _ _ Epool). unfold p. cbn. lia. }
  destruct (write_place_ok m1 p o SetCTAPI) as (m' & -> & Ep & Eq & Ev & Es & Hk).
  { change (treePools m1) with (treePools m). by rewrite Epool. }
  assert (Hfresh : core m p = None).
  { unfold core. destruct (node m p) as [nd| |] eqn:E; [|done..].
    apply (po_live _ _ Hp) in E. unfold handed_out, p in E. cbn in E. lia. }
  assert (Hne : ∀ q, (∃ c, core m q = Some c) → core m' q = core m q).
  { intros q [c Hc]. destruct (decide (q = p)) as [->|Hne]; [congruence|]. by apply node_core, Eq. }
  assert (Hin : ∀ q, q ∈ nodes_of (F ++ []) → ∃ c, core m q = Some c).
  { intros q. apply stored_all_core, H. }
  assert (Hpm : pools_ok (n + 1) m').
  { apply Hk; [done|]. right. unfold p. cbn. lia. }
  destruct H as [? Hs Hbl Hst Hd [fs Hfs]]. exists m'. split_and!; [done| |].
  - split; try done.
    + by rewrite Es.
    + apply Forall_cons. split.
      * constructor; [|done|done|done]. unfold core. by rewrite Ep.
      * apply (stored_all_frame m); [done| |].
        -- intros q Hq. apply Hne. by apply Hin.
        -- intros v _. by rewrite Ev.
    + rewrite <-app_comm_cons, nodes_of_cons. cbn. constructor; [|done]. intros Hp'.
      destruct (Hin p Hp') as [c Hc]. congruence.
    + exists fs. rewrite Ev. cbn. apply (factory_mono n); [done|lia].
  - intros q tok [[v Hc] Hq]. split; [exists v; by rewrite Hne by eauto|].
    intros ->. rewrite nodes_of_cons. cbn. apply not_elem_of_cons. split; [|by apply Hq].
    intros ->. congruence.
Qed.

Lemma newPoolTree_ok n m F R lk :
  trees_ok n m F R lk → n + 1 < 2 ^ 31 →
  ∃ p v m' R', newPoolTree m = Ok (p, m') ∧ trees_ok (n + 1) m' (ANode p None v [] :: F) R' lk ∧
    evolves m (F ++ R) m' (ANode p None v [] :: F ++ R').
Proof.
  intros H Hn. unfold newPoolTree, StackPeek. rewrite (st_top _ _ (tr_stack _ _ _ _ _ H)).
  destruct R as [|b R]; cbn.
  - assert (∃ m1, (if ANTLR3_FACTORY_POOL_SIZE <=? nextTree m then newTreePool m else Ok m) = Ok m1 ∧
      trees_ok n m1 F [] lk ∧ nextTree m1 < 1024 ∧ ∀ q, core m1 q = core m q) as (m1 & -> & H1 & Hlt & Hc).
    { pose proof (po_next _ _ (tr_pools _ _ _ _ _ H)) as Hnx. unfold ANTLR3_FACTORY_POOL_SIZE.
      destruct (Z.leb_spec 1024 (nextTree m)) as [Hle|Hle].
      - destruct (newTreePool_ok n F [] lk m) as (m1 & -> & H1 & Hz & Hc & _); [done|lia|lia|].
        exists m1. split_and!; [done|done|lia|done].
      - exists m. split_and!; [done|done|lia|done]. }
    cbn. destruct (next_node_ok n m1 F lk H1 Hlt Hn) as (m' & -> & H' & He). cbn.
    do 4 eexists. split_and!; [done|exact H'|]. intros q tok [[v Hq] Hnq]. apply He.
    split; [exists v; by rewrite Hc|done].
  - pose proof (tr_blank _ _ _ _ _ H) as Hb. apply Forall_cons in Hb as [(p & v & ->) Hb].
    destruct (StackPop_ok (nilStack m) (entry ∘ root <$> ANode p None v [] :: R)) as (s & -> & Hs); [apply H|].
    cbn. exists p, v. eexists. exists R. split; [done|]. apply (trees_mono n (n + 1)) in H; [|lia].
    assert (Hperm : F ++ ANode p None v [] :: R ≡ₚ (ANode p None v [] :: F) ++ R).
    { cbn. by rewrite Permutation_middle. }
    destruct H as [Hp _ _ Hst Hd [fs Hfs]]. split; [split|].
    + destruct Hp. split; done.
    + exact Hs.
    + done.
    + rewrite <-Hperm. by apply (stored_all_frame m).
    + by rewrite <-(nodes_of_perm _ _ Hperm).
    + exists fs. eapply factory_perm; [|exact Hfs]. by rewrite (vecs_of_perm _ _ Hperm).
    + intros q tok Hq. by apply (seen_perm _ _ _ _ _ Hperm).
Qed.

(** [create]: a node with the token and without children. *)
Lemma create_ok n m F R lk tok :
  trees_ok n m F R lk → n + 1 < 2 ^ 31 →
  ∃ p v m' R', create tok m = Ok (p, m') ∧ trees_ok (n + 1) m' (ANode p tok v [] :: F) R' lk ∧
    evolves m (F ++ R) m' (ANode p tok v [] :: F ++ R').
Proof.
  intros H Hn. destruct (newPoolTree_ok n m F R lk H Hn) as (p & v & m1 & R' & E & H1 & He).
  unfold create, newFromToken. rewrite E. cbn.
  pose proof (tr_stored _ _ _ _ _ H1) as Hst. apply Forall_cons in Hst as [Hst _].
  inversion Hst as [? ? ? ? Hc Hv _ _]; subst. pose proof Hc as (nd & En & Et & Ech)%core_node.
  destruct (change_ok m1 p nd (set_token tok) En) as (m' & -> & Ep & Eq & Ev & Es & Hk). cbn.
  assert (Hother : ∀ q, q ≠ p → core m' q = core m1 q) by (intros q Hq; by apply node_core, Eq).
  assert (Hp' : core m' p = Some (tok, v)) by (unfold core; rewrite Ep; cbn; by rewrite Ech).
  exists p, v, m', R'. split_and!; [done| |].
  - change (ANode p tok v [] :: F) with ([ANode p tok v []] ++ F).
    apply (trees_step (n + 1) m1 [ANode p None v []] F R' lk); try done.
    + apply Hk, H1.
    + apply Forall_singleton. constructor; [done|by rewrite Ev|done|done].
    + intros q Hq. apply Hother. intros ->. pose proof (tr_nodup _ _ _ _ _ H1) as Hd.
      rewrite <-app_comm_cons, nodes_of_cons in Hd. by apply NoDup_cons in Hd as [? _].
    + intros w _. by rewrite Ev.
    + rewrite Ev. exact (tr_vectors _ _ _ _ _ H1).
  - apply (evolves_trans _ _ _ _ _ _ He). apply (evolves_step m1 [ANode p None v []] _ m' [ANode p tok v []]); [done|].
    intros q t w Hq Hnil. destruct (decide (q = p)) as [->|Hne]; [|rewrite Hother by done; eauto].
    rewrite Hc in Hq. injection Hq as <- <-. exfalso. apply Hnil; [done|]. cbn. left.
Qed.

(** ** Nodes without a use *)

(** A nil node is taken apart; its children are trees. *)
Lemma trees_open n m p v cs F R lk :
  trees_ok n m (ANode p None v cs :: F) R lk →
  trees_ok n m (cs ++ F) R (option_list v ++ lk) ∧ p ∉ nodes_of (cs ++ F ++ R) ∧
  core m p = Some (None, v) ∧ evolves m (ANode p None v cs :: F ++ R) m (cs ++ F ++ R).
Proof.
  intros H. pose proof (tr_stored _ _ _ _ _ H) as Hst. apply Forall_cons in Hst as [Hst _].
  inversion Hst as [? ? ? ? Hc _ _ Hs]; subst. pose proof (tr_nodup _ _ _ _ _ H) as Hd.
  rewrite <-app_comm_cons, nodes_of_cons in Hd. cbn [root akids] in Hd. apply NoDup_cons in Hd as [Hd _].
  rewrite <-nodes_of_app in Hd.
  assert (Hsub : nodes_of cs ⊆+ nodes_of [ANode p None v cs]).
  { rewrite nodes_of_cons. cbn. rewrite app_nil_r. by apply submseteq_cons. }
  split_and!; [|done|done|by apply (evolves_step m [ANode p None v cs]); eauto].
  apply (trees_step n m [ANode p None v cs] F R lk); try done.
  - apply H.
  - destruct (tr_vectors _ _ _ _ _ H) as [fs Hfs]. exists fs. eapply factory_perm; [|exact Hfs].
    rewrite <-app_comm_cons, vecs_of_cons, !vecs_of_app. cbn [avec akids]. solve_Permutation.
Qed.

(** A tree that nobody points to any more. *)
Lemma trees_drop n m a F R lk :
  trees_ok n m (a :: F) R lk →
  trees_ok n m F R (vecs a ++ lk) ∧ evolves m (a :: F ++ R) m (F ++ R).
Proof.
  intros H. split.
  - change F with ([] ++ F). apply (trees_step n m [a] F R lk); try done.
    + apply H.
    + apply submseteq_nil_l.
    + destruct (tr_vectors _ _ _ _ _ H) as [fs Hfs]. exists fs. eapply factory_perm; [|exact Hfs].
      change (vecs_of ((a :: F) ++ R)) with (vecs a ++ vecs_of (F ++ R)). cbn [app]. solve_Permutation.
  - apply (evolves_step m [a] _ m []); [apply submseteq_nil_l|]. eauto.
Qed.

Lemma trees_count_R n m F R lk : trees_ok n m F R lk → Z.of_nat (length R) ≤ n.
Proof.
  intros H%trees_count. pose proof (length_nodes_of R). rewrite nodes_of_app, length_app in H. lia.
Qed.

(** [reuse]: a nil node that is in no tree, with the vector it has. *)
Lemma reuse_ok n m p v F R lk lk' :
  trees_ok n m F R lk → n < 2 ^ 31 → core m p = Some (None, v) → p ∉ nodes_of (F ++ R) →
  lk ≡ₚ option_list v ++ lk' →
  ∃ m', reuse p m = Ok m' ∧ trees_ok n m' F (ANode p None v [] :: R) lk' ∧
    ∀ q tok, q ≠ p → seen m (F ++ R) q tok → seen m' (F ++ ANode p None v [] :: R) q tok.
Proof.
  intros H Hn Hc Hp Hlk. pose proof Hc as (nd & En & Et & Ech)%core_node.
  unfold reuse. rewrite En. cbn [mbind outcome_bind]. rewrite Ech.
  destruct (tr_vectors _ _ _ _ _ H) as [fs Hfs].
  assert (∃ f, match v with
    | Some v => w ← load (vFactory m) v; '(_, w) ← VectorClear w; Ok (set_vFactory (store (vFactory m) v w) m)
    | None => Ok m end = Ok (set_vFactory f m) ∧
    factory_ok n f (vecs_of (F ++ R) ++ lk) fs ∧
    match v with Some v => ∃ w, load f v = Ok w ∧ holds w [] | None => True end ∧
    ∀ u, u ∉ option_list v → load f u = load (vFactory m) u) as (f & -> & Hf & Hload & Hother).
  { destruct v as [v|]; [|exists (vFactory m); by destruct m].
    assert (Hv : v ∈ vecs_of (F ++ R) ++ lk) by (rewrite Hlk; set_solver).
    destruct (fo_used _ _ _ _ Hfs v Hv) as (w & l & Ew & Hw). rewrite Ew. cbn [mbind outcome_bind].
    destruct (VectorClear_ok w l Hw) as (w' & -> & Hw'). cbn.
    exists (store (vFactory m) v w'). split_and!; [done|by apply (store_ok n _ _ _ _ _ [])| |].
    - exists w'. by rewrite (load_store _ _ _ w).
    - intros u Hu. apply load_store_ne. set_solver. }
  cbn [mbind outcome_bind].
  destruct (StackPush_ok (nilStack m) (entry ∘ root <$> R) (Some p) false) as (s & Es & Hs).
  { apply H. }
  { pose proof (trees_count_R _ _ _ _ _ H). rewrite length_fmap. lia. }
  cbn [nilStack set_vFactory]. rewrite Es. cbn [mbind outcome_bind].
  eexists. split; [done|]. set (m' := set_nilStack s (set_vFactory f m)).
  assert (Hcore : ∀ q, core m' q = core m q) by done.
  assert (Hperm : F ++ ANode p None v [] :: R ≡ₚ ANode p None v [] :: (F ++ R)) by (by rewrite Permutation_middle).
  assert (Hnd : NoDup (vecs_of (F ++ R) ++ lk)).
  { pose proof (fo_nodup _ _ _ _ Hf) as Hd. by apply NoDup_app in Hd as []. }
  destruct H as [Hpo _ Hb Hst Hd _]. split; [split|].
  - destruct Hpo. by split.
  - exact Hs.
  - constructor; [by exists p, v|done].
  - rewrite Hperm. constructor.
    + constructor; [done| |done|done]. destruct v as [v|]; done.
    + apply (stored_all_frame m); [done|done|]. intros u Hu. cbn. apply Hother.
      rewrite Hlk in Hnd. apply NoDup_app in Hnd as (_ & Hnd & _). intros Hu'. apply (Hnd u Hu). set_solver.
  - rewrite (nodes_of_perm _ _ Hperm), nodes_of_cons. cbn. by constructor.
  - exists fs. cbn. eapply factory_perm; [|exact Hf]. rewrite (vecs_of_perm _ _ Hperm), vecs_of_cons, Hlk. cbn.
    rewrite !(assoc_L app). f_equiv. apply Permutation_app_comm.
  - intros q tok Hne [[u Hq] Hnil]. split; [by exists u; rewrite Hcore|]. intros ->.
    rewrite (nodes_of_perm _ _ Hperm), nodes_of_cons. cbn. apply not_elem_of_cons. split; [done|by apply Hnil].
Qed.

(** ** Children *)

Lemma getChildCount_ok m a : stored m a → getChildCount (root a) m = Ok (Z.of_nat (length (akids a))).
Proof.
  intros H. destruct H as [p tok v cs Hc Hv _ _]. apply core_node in Hc as (nd & En & _ & Ec).
  unfold getChildCount. cbn [root akids]. rewrite En. cbn. rewrite Ec. destruct v as [v|]; [|by subst].
  destruct Hv as (w & Ew & Hw). rewrite Ew. cbn. unfold VectorSize.
  by rewrite (h_count _ _ Hw), length_fmap.
Qed.
Lemma getChild_ok m a i : stored m a → getChild (root a) (Z.of_nat i) m = Ok (root <$> akids a !! i).
Proof.
  intros H. destruct H as [p tok v cs Hc Hv _ _]. apply core_node in Hc as (nd & En & _ & Ec).
  unfold getChild. cbn [root akids]. rewrite En. cbn. rewrite Ec. destruct v as [v|]; [|by subst].
  destruct Hv as (w & Ew & Hw). rewrite Ew. cbn. unfold VectorSize.
  rewrite (h_count _ _ Hw), length_fmap. destruct (Z.leb_spec (Z.of_nat (length cs)) (Z.of_nat i)).
  - by rewrite lookup_ge_None_2 by lia.
  - rewrite (VectorGet_ok _ _ _ Hw), list_lookup_fmap. by destruct (cs !! i).
Qed.
Lemma isNilNode_ok m a : stored m a → isNilNode (root a) m = Ok (Tree.isNilNode (erase a)).
Proof.
  intros H. destruct H as [p tok v cs Hc _ _ _]. apply core_node in Hc as (nd & En & Et & _).
  unfold isNilNode, is_nil. cbn [root]. rewrite En. cbn. by rewrite Et.
Qed.

(** [freshenPACIndexes] changes parents and indexes only. *)
Lemma freshen_ok m a i :
  stored m a → (i ≤ length (akids a))%nat →
  ∃ m', freshenPACIndexes (root a) (Z.of_nat i) m = Ok m' ∧ skeleton m m'.
Proof.
  intros H Hi. unfold freshenPACIndexes. rewrite (getChildCount_ok m a H). cbn [mbind outcome_bind].
  assert (Hn : (Z.to_nat (Z.of_nat (length (akids a)) - Z.of_nat i) + i = length (akids a))%nat) by lia.
  revert Hn. generalize (Z.to_nat (Z.of_nat (length (akids a)) - Z.of_nat i)) as n. clear Hi.
  intros n. revert m i H. induction n as [|n IH]; intros m i H Hn; cbn [freshen_loop].
  { exists m. split; [done|]. by split_and!. }
  rewrite (getChild_ok m a i H). cbn [mbind outcome_bind].
  destruct (lookup_lt_is_Some_2 (akids a) i) as [c Ec]; [lia|]. rewrite Ec. cbn [fmap option_fmap option_map deref mbind outcome_bind].
  assert (Hc : stored m c).
  { destruct H as [? ? ? ? _ _ _ Hs]. rewrite Forall_lookup in Hs. by apply (Hs i). }
  assert (∃ nd, node m (root c) = Ok nd) as [nd En].
  { destruct Hc as [? ? ? ? Hc _ _ _]. apply core_node in Hc as (nd & ? & _). eauto. }
  destruct (change_skeleton m (root c) nd (set_childIndex (Z.of_nat i)) En) as (m1 & E1 & S1); [done|].
  unfold setChildIndex. rewrite E1. cbn [mbind outcome_bind].
  assert (Hlive : ∀ q, (∃ x, core m1 q = Some x) → ∃ nd, node m1 q = Ok nd).
  { intros q [[] (nd' & ? & _)%core_node]. eauto. }
  destruct (Hlive (root a)) as [na Ea].
  { destruct S1 as [-> _]. destruct H as [p tok v cs Hcr _ _ _]. eauto. }
  destruct (Hlive (root c)) as [nc Ecn].
  { destruct S1 as [-> _]. destruct Hc as [p tok v cs Hcr _ _ _]. eauto. }
  unfold setParent. rewrite Ea. cbn [mbind outcome_bind].
  destruct (change_skeleton m1 (root c) nc (set_parent (parent na)) Ecn) as (m2 & -> & S2); [done|].
  cbn [mbind outcome_bind]. pose proof (skeleton_trans _ _ _ S1 S2) as S12.
  replace (Z.of_nat i + 1) with (Z.of_nat (S i)) by lia.
  destruct (IH m2 (S i)) as (m3 & -> & S3).
  - destruct S12 as (A1 & A2 & _). apply (stored_frame m); [done|..]; intros; by rewrite ?A1, ?A2.
  - lia.
  - exists m3. split; [done|]. by apply (skeleton_trans _ m2).
Qed.

(** ** Adding a child *)

Lemma stored_inv m p tok v cs :
  stored m (ANode p tok v cs) →
  ∃ nd, node m p = Ok nd ∧ token nd = tok ∧ children nd = v ∧
    match v with None => cs = [] | Some v => ∃ w, load (vFactory m) v = Ok w ∧ holds w (entry ∘ root <$> cs) end ∧
    Forall (λ c, is_Some (atok c)) cs ∧ Forall (stored m) cs.
Proof.
  intros H. inversion H as [? ? ? ? Hc Hv Hn Hs]; subst. apply core_node in Hc as (nd & ? & ? & ?). eauto 10.
Qed.

(** A vector of a tree is no other tree's, and so are its nodes. *)
Lemma vector_apart n m p tok v cs F R lk u :
  trees_ok n m (ANode p tok (Some v) cs :: F) R lk → u ∈ vecs_of cs ++ vecs_of (F ++ R) ++ lk → u ≠ v.
Proof.
  intros H Hu. destruct (tr_vectors _ _ _ _ _ H) as [fs Hfs]. apply fo_nodup in Hfs.
  apply NoDup_app in Hfs as [Hd _]. rewrite <-app_comm_cons, vecs_of_cons in Hd. cbn in Hd.
  apply NoDup_cons in Hd as [Hd _]. rewrite <-app_assoc in Hd. intros ->. by apply Hd.
Qed.
Lemma node_apart n m p tok v cs F R lk q :
  trees_ok n m (ANode p tok v cs :: F) R lk → q ∈ nodes_of cs ++ nodes_of (F ++ R) → q ≠ p.
Proof.
  intros H Hq. pose proof (tr_nodup _ _ _ _ _ H) as Hd. rewrite <-app_comm_cons, nodes_of_cons in Hd.
  apply NoDup_cons in Hd as [Hd _]. intros ->. by apply Hd.
Qed.
Lemma kids_count n m a F R lk : trees_ok n m (a :: F) R lk → Z.of_nat (length (akids a)) < n.
Proof.
  intros H%trees_count. rewrite <-app_comm_cons, nodes_of_cons in H. cbn in H. rewrite length_app in H.
  pose proof (length_nodes_of (akids a)). lia.
Qed.

(** A vector for the children of a node that has none. *)
Lemma createChildrenList_ok n m p tok F R lk :
  trees_ok n m (ANode p tok None [] :: F) R lk → n < 2 ^ 31 →
  ∃ v m', createChildrenList p m = Ok m' ∧ trees_ok (n + 1) m' (ANode p tok (Some v) [] :: F) R lk ∧
    evolves m (ANode p tok None [] :: F ++ R) m' (ANode p tok (Some v) [] :: F ++ R).
Proof.
  intros H Hn. unfold createChildrenList. destruct (tr_vectors _ _ _ _ _ H) as [fs Hfs].
  destruct (newVector_ok n (vFactory m) _ fs Hfs Hn) as (v & f & fs' & E & Hv & Hf & w & Ew & Hw).
  rewrite E. cbn [mbind outcome_bind].
  pose proof (tr_stored _ _ _ _ _ H) as Hst. apply Forall_cons in Hst as [Hst _].
  apply stored_inv in Hst as (nd & En & Et & Ec & _).
  destruct (change_ok (set_vFactory f m) p nd (set_children (Some v)) En) as (m' & -> & Ep & Eq & Evf & Es & Hk).
  assert (Hcp : core m' p = Some (tok, Some v)) by (unfold core; rewrite Ep; cbn; by rewrite Et).
  assert (Hother : ∀ q, q ≠ p → core m' q = core m q) by (intros q Hq; by apply (node_core (set_vFactory f m)), Eq).
  assert (Hload : ∀ u, u ∈ vecs_of (F ++ R) → load (vFactory m') u = load (vFactory m) u).
  { intros u Hu. rewrite Evf. cbn.
    assert (Hin : u ∈ vecs_of ((ANode p tok None [] :: F) ++ R) ++ lk) by (cbn; set_solver).
    destruct (fo_used _ _ _ _ Hfs u Hin) as (wu & l & Ewu & _). rewrite Ewu.
    apply (newVector_frame (vFactory m) v f u wu E Ewu).
    intros ->. by apply Hv. }
  exists v, m'. split; [done|]. split.
  - change (ANode p tok (Some v) [] :: F) with ([ANode p tok (Some v) []] ++ F).
    apply (trees_step n m [ANode p tok None []] F R lk); try done.
    + apply Hk. destruct (pools_mono n (n + 1) m (tr_pools _ _ _ _ _ H)); [lia|]. by split.
    + apply Forall_singleton. constructor; [done| |done|done]. rewrite Evf. by exists w.
    + intros q Hq. apply Hother. apply (node_apart _ _ _ _ _ _ _ _ _ q H). set_solver.
    + exists fs'. rewrite Evf. cbn. exact Hf.
  - apply (evolves_step m [ANode p tok None []] _ m' [ANode p tok (Some v) []]); [done|].
    intros q t u Hq _. destruct (decide (q = p)) as [->|]; [|rewrite Hother by done; eauto].
    exists (Some v). rewrite Hcp. unfold core in Hq. rewrite En in Hq. congruence.
Qed.

(** Adding to the vector of a node. *)
Lemma on_children_add m p nd v w l q :
  node m p = Ok nd → children nd = Some v → load (vFactory m) v = Ok w → holds w l →
  Z.of_nat (length l) < 2 ^ 31 →
  ∃ k w', on_children p (λ w, VectorAdd w (Some q) false) m = Ok (k, set_vFactory (store (vFactory m) v w') m) ∧
    holds w' (l ++ [entry q]).
Proof.
  intros En Ec Ew Hw Hl. unfold on_children. rewrite En. cbn. rewrite Ec. cbn. rewrite Ew. cbn.
  destruct (VectorAdd_ok w l (Some q) false Hw Hl) as (w' & -> & Hw'). cbn. eauto.
Qed.
Lemma append_kids_ok n m p tok v ts c F R lk :
  trees_ok n m (ANode p tok (Some v) ts :: c :: F) R lk → n < 2 ^ 31 → is_Some (atok c) →
  ∃ k m', on_children p (λ w, VectorAdd w (Some (root c)) false) m = Ok (k, m') ∧
    trees_ok n m' (ANode p tok (Some v) (ts ++ [c]) :: F) R lk ∧ (∀ q, core m' q = core m q) ∧
    evolves m (ANode p tok (Some v) ts :: c :: F ++ R) m' (ANode p tok (Some v) (ts ++ [c]) :: F ++ R).
Proof.
  intros H Hn Hc. pose proof (tr_stored _ _ _ _ _ H) as Hst. apply Forall_cons in Hst as [Hst Hst'].
  apply Forall_cons in Hst' as [Hsc _]. apply stored_inv in Hst as (nd & En & Et & Ec & (w & Ew & Hw) & Hns & Hs).
  destruct (on_children_add m p nd v w _ (root c) En Ec Ew Hw) as (k & w' & -> & Hw').
  { pose proof (kids_count _ _ _ _ _ _ H). rewrite length_fmap. cbn in *. lia. }
  set (m' := set_vFactory (store (vFactory m) v w') m). exists k, m'. split; [done|].
  assert (Hcore : ∀ q, core m' q = core m q) by done.
  assert (Hload : ∀ u, u ∈ vecs_of ts ++ vecs_of ((c :: F) ++ R) → load (vFactory m') u = load (vFactory m) u).
  { intros u Hu. cbn. apply load_store_ne, not_eq_sym. apply (vector_apart _ _ _ _ _ _ _ _ _ u H). set_solver. }
  assert (Hnodes : nodes_of [ANode p tok (Some v) (ts ++ [c])] ⊆+ nodes_of [ANode p tok (Some v) ts; c]).
  { rewrite !nodes_of_cons. cbn [root akids]. rewrite nodes_of_app, !nodes_of_cons. cbn.
    rewrite !app_nil_r. done. }
  split_and!; [|done|].
  - change (ANode p tok (Some v) (ts ++ [c]) :: F) with ([ANode p tok (Some v) (ts ++ [c])] ++ F).
    apply (trees_step n m [ANode p tok (Some v) ts; c] F R lk); try done.
    + destruct (tr_pools _ _ _ _ _ H). by split.
    + apply Forall_singleton. constructor.
      * rewrite Hcore. unfold core. rewrite En. congruence.
      * exists w'. cbn. rewrite (load_store _ _ _ w) by done. split; [done|]. by rewrite fmap_app.
      * apply Forall_app. split; [done|by apply Forall_singleton].
      * apply Forall_app. split; [|apply Forall_singleton].
        -- apply (stored_all_frame m); [done|done|]. intros u Hu. apply Hload. set_solver.
        -- apply (stored_frame m); [done|done|]. intros u Hu. apply Hload.
           unfold vecs_of at 2. cbn. set_solver.
    + intros u Hu. apply Hload. unfold vecs_of at 2. cbn. fold (vecs_of (F ++ R)). set_solver.
    + destruct (tr_vectors _ _ _ _ _ H) as [fs Hfs]. exists fs.
      apply (store_ok _ _ _ _ v w' (entry ∘ root <$> ts ++ [c])).
      * eapply factory_perm; [|exact Hfs]. cbn [app]. rewrite !vecs_of_cons. cbn [avec akids].
        rewrite !vecs_of_app, !vecs_of_cons. cbn. solve_Permutation.
      * cbn [app]. rewrite vecs_of_cons. cbn. left.
      * by rewrite fmap_app.
  - apply (evolves_step m [ANode p tok (Some v) ts; c] _ m' [ANode p tok (Some v) (ts ++ [c])]); [done|].
    intros q t u Hq _. rewrite Hcore. eauto.
Qed.

(** The children of a nil node go to a node that has a vector: they are copied. *)
Lemma copy_children_ok k i p from m nd v w l wf qs :
  node m p = Ok nd → children nd = Some v → v ≠ from →
  load (vFactory m) v = Ok w → holds w l → load (vFactory m) from = Ok wf → holds wf (entry <$> qs) →
  (k + i = length qs)%nat → Z.of_nat (length l) + Z.of_nat k < 2 ^ 31 →
  ∃ f w', copy_children k (Z.of_nat i) p from m = Ok (set_vFactory f m) ∧
    load f v = Ok w' ∧ holds w' (l ++ (entry <$> drop i qs)) ∧
    (∀ u, u ≠ v → load f u = load (vFactory m) u) ∧
    ∀ n us fs, v ∈ us → factory_ok n (vFactory m) us fs → factory_ok n f us fs.
Proof.
  revert i m w l. induction k as [|k IH]; intros i m w l En Ec Hne Ew Hw Ef Hf Hk Hb; cbn [copy_children].
  { exists (vFactory m), w. split_and!; [by destruct m|done| |done|done].
    rewrite drop_ge by lia. cbn. by rewrite app_nil_r. }
  rewrite Ef. cbn [mbind outcome_bind]. rewrite (VectorGet_ok _ _ _ Hf), list_lookup_fmap.
  destruct (lookup_lt_is_Some_2 qs i) as [q Eq]; [lia|]. rewrite Eq.
  cbn [mbind outcome_bind option_bind fmap option_fmap option_map element entry].
  destruct (on_children_add m p nd v w l q En Ec Ew Hw) as (n0 & w1 & -> & Hw1); [lia|].
  cbn [mbind outcome_bind]. replace (Z.of_nat i + 1) with (Z.of_nat (S i)) by lia.
  destruct (IH (S i) (set_vFactory (store (vFactory m) v w1) m) w1 (l ++ [entry q]))
    as (f & w' & -> & Ew' & Hw' & Hother & Hok); try done.
  - cbn. by rewrite (load_store _ _ _ w).
  - cbn. by rewrite load_store_ne.
  - lia.
  - rewrite length_app. cbn. lia.
  - exists f, w'. split_and!; [done|done| | |].
    + rewrite (drop_S _ q) by done. cbn. by rewrite <-app_assoc in Hw'.
    + intros u Hu. rewrite Hother by done. cbn. by apply load_store_ne, not_eq_sym.
    + intros n us fs Hin Hfs. apply Hok; [done|]. by apply (store_ok _ _ _ _ _ _ (l ++ [entry q])).
Qed.

Lemma copy_ok n m p tok v ts q u cs F R lk :
  trees_ok n m (ANode p tok (Some v) ts :: ANode q None (Some u) cs :: F) R lk → n < 2 ^ 31 →
  ∃ m', copy_children (length cs) 0 p u m = Ok m' ∧
    trees_ok n m' (ANode p tok (Some v) (ts ++ cs) :: F) R (u :: lk) ∧ (∀ x, core m' x = core m x) ∧
    evolves m (ANode p tok (Some v) ts :: ANode q None (Some u) cs :: F ++ R)
      m' (ANode p tok (Some v) (ts ++ cs) :: F ++ R).
Proof.
  intros H Hn. pose proof (tr_stored _ _ _ _ _ H) as Hst. apply Forall_cons in Hst as [Hst Hst'].
  apply Forall_cons in Hst' as [Hsc _]. apply stored_inv in Hst as (nd & En & Et & Ec & (w & Ew & Hw) & Hns & Hs).
  apply stored_inv in Hsc as (nq & Enq & Etq & Ecq & (wq & Ewq & Hwq) & Hnq & Hsq).
  assert (Hapart : ∀ x, x ∈ vecs_of ts ++ u :: vecs_of cs ++ vecs_of (F ++ R) → x ≠ v).
  { intros x Hx. apply (vector_apart _ _ _ _ _ _ _ _ _ x H). rewrite <-app_comm_cons, vecs_of_cons. cbn. set_solver. }
  assert (Hcount : Z.of_nat (length ts) + Z.of_nat (length cs) < n).
  { pose proof (trees_count _ _ _ _ _ H) as Hc. rewrite <-!app_comm_cons, !nodes_of_cons in Hc.
    cbn in Hc. rewrite !length_app in Hc. cbn in Hc. rewrite !length_app in Hc.
    pose proof (length_nodes_of ts). pose proof (length_nodes_of cs). unfold nodes_of in *. lia. }
  change 0 with (Z.of_nat 0).
  destruct (copy_children_ok (length cs) 0 p u m nd v w (entry ∘ root <$> ts) wq (root <$> cs))
    as (f & w' & -> & Ew' & Hw' & Hother & Hok); try done.
  - apply not_eq_sym, Hapart. set_solver.
  - by rewrite <-list_fmap_compose.
  - rewrite length_fmap. lia.
  - rewrite length_fmap. lia.
  - rewrite drop_0, <-list_fmap_compose, <-fmap_app in Hw'.
    exists (set_vFactory f m). split; [done|].
    assert (Hcore : ∀ x, core (set_vFactory f m) x = core m x) by done.
    assert (Hnodes : nodes_of [ANode p tok (Some v) (ts ++ cs)]
      ⊆+ nodes_of [ANode p tok (Some v) ts; ANode q None (Some u) cs]).
    { rewrite !nodes_of_cons. cbn [root akids]. rewrite nodes_of_app. change (nodes_of []) with (@nil tptr).
      rewrite !app_nil_r. apply submseteq_skip, submseteq_app; [done|]. by apply submseteq_cons. }
    split_and!; [|done|].
    + change (ANode p tok (Some v) (ts ++ cs) :: F) with ([ANode p tok (Some v) (ts ++ cs)] ++ F).
      apply (trees_step n m [ANode p tok (Some v) ts; ANode q None (Some u) cs] F R lk); try done.
      * destruct (tr_pools _ _ _ _ _ H). by split.
      * apply Forall_singleton. constructor.
        -- rewrite Hcore. unfold core. rewrite En. congruence.
        -- by exists w'.
        -- by apply Forall_app.
        -- apply (stored_all_frame m); [by apply Forall_app|done|]. intros x Hx. apply Hother, Hapart.
           rewrite vecs_of_app in Hx. set_solver.
      * intros x Hx. apply Hother, Hapart. set_solver.
      * destruct (tr_vectors _ _ _ _ _ H) as [fs Hfs]. exists fs. apply Hok; [cbn; left|].
        eapply factory_perm; [|exact Hfs]. cbn [app]. rewrite !vecs_of_cons. cbn [avec akids option_list].
        rewrite !vecs_of_app. solve_Permutation.
    + apply (evolves_step m [ANode p tok (Some v) ts; ANode q None (Some u) cs] _ _ [ANode p tok (Some v) (ts ++ cs)]); [done|].
      intros x t y Hx _. rewrite Hcore. eauto.
Qed.

(** They go to a node that has none: the vector is handed over. *)
Lemma move_ok n m p tok q u cs F R lk :
  trees_ok n m (ANode p tok None [] :: ANode q None (Some u) cs :: F) R lk →
  ∃ m1 m2 m', change (set_children (Some u)) p m = Ok m1 ∧ change (set_children None) q m1 = Ok m2 ∧
    freshenPACIndexesAll p m2 = Ok m' ∧
    trees_ok n m' (ANode p tok (Some u) cs :: F) R lk ∧ core m' q = Some (None, None) ∧
    evolves m (ANode p tok None [] :: ANode q None (Some u) cs :: F ++ R) m' (ANode p tok (Some u) cs :: F ++ R).
Proof.
  intros H. pose proof (tr_stored _ _ _ _ _ H) as Hst. apply Forall_cons in Hst as [Hst Hst'].
  apply Forall_cons in Hst' as [Hsc _]. apply stored_inv in Hst as (nd & En & Et & Ec & _).
  apply stored_inv in Hsc as (nq & Enq & Etq & Ecq & (wq & Ewq & Hwq) & Hnq & Hsq).
  assert (Hpq : ∀ x, x ∈ q :: nodes_of cs ++ nodes_of (F ++ R) → x ≠ p).
  { intros x Hx. apply (node_apart _ _ _ _ _ _ _ _ _ x H). rewrite <-app_comm_cons, nodes_of_cons. cbn. set_solver. }
  assert (Hqo : ∀ x, x ∈ nodes_of cs ++ nodes_of (F ++ R) → x ≠ q).
  { intros x Hx. apply (trees_perm _ _ _ (ANode q None (Some u) cs :: ANode p tok None [] :: F)) in H;
      [|by rewrite Permutation_swap].
    apply (node_apart _ _ _ _ _ _ _ _ _ x H). rewrite <-app_comm_cons, nodes_of_cons. cbn. set_solver. }
  destruct (change_ok m p nd (set_children (Some u)) En) as (m1 & E1 & Ep1 & Eq1 & Ev1 & Es1 & Hk1).
  assert (Hqp : q ≠ p) by (apply Hpq; left).
  assert (Enq1 : node m1 q = Ok nq) by by rewrite Eq1.
  destruct (change_ok m1 q nq (set_children None) Enq1) as (m2 & E2 & Ep2 & Eq2 & Ev2 & Es2 & Hk2).
  assert (Hother : ∀ x, x ≠ p → x ≠ q → core m2 x = core m x).
  { intros x Hxp Hxq. apply node_core. by rewrite Eq2, Eq1. }
  assert (Hp2 : core m2 p = Some (tok, Some u)).
  { unfold core. rewrite Eq2, Ep1 by done. cbn. by rewrite Et. }
  assert (Hq2 : core m2 q = Some (None, None)) by (unfold core; rewrite Ep2; cbn; by rewrite Etq).
  assert (Hnodes : nodes_of [ANode p tok (Some u) cs] ⊆+ nodes_of [ANode p tok None []; ANode q None (Some u) cs]).
  { rewrite !nodes_of_cons. cbn. rewrite !app_nil_r. apply submseteq_skip. by apply submseteq_cons. }
  assert (H2 : trees_ok n m2 (ANode p tok (Some u) cs :: F) R lk).
  { change (ANode p tok (Some u) cs :: F) with ([ANode p tok (Some u) cs] ++ F).
    apply (trees_step n m [ANode p tok None []; ANode q None (Some u) cs] F R lk); try done.
    - apply Hk2, Hk1, H.
    - congruence.
    - apply Forall_singleton. constructor; [done| |done|].
      + exists wq. by rewrite Ev2, Ev1.
      + apply (stored_all_frame m); [done| |].
        * intros x Hx. apply Hother; [apply Hpq|apply Hqo]; set_solver.
        * intros x _. by rewrite Ev2, Ev1.
    - intros x Hx. apply Hother; [apply Hpq|apply Hqo]; set_solver.
    - intros x _. by rewrite Ev2, Ev1.
    - rewrite Ev2, Ev1. destruct (tr_vectors _ _ _ _ _ H) as [fs Hfs]. exists fs.
      eapply factory_perm; [|exact Hfs]. cbn [app]. rewrite !vecs_of_cons. cbn. solve_Permutation. }
  pose proof (tr_stored _ _ _ _ _ H2) as Hst2. apply Forall_cons in Hst2 as [Hst2 _].
  destruct (freshen_ok m2 _ 0 Hst2) as (m' & E' & Hsk); [lia|].
  exists m1, m2, m'. split_and!; [done|done|exact E'|by apply (trees_skeleton _ m2)| |].
  - by destruct Hsk as [-> _].
  - apply (evolves_trans _ _ m2 (ANode p tok (Some u) cs :: F ++ R)); [|by apply seen_skeleton].
    apply (evolves_step m [ANode p tok None []; ANode q None (Some u) cs] _ m2 [ANode p tok (Some u) cs]); [done|].
    intros x t y Hx Hnil. destruct (decide (x = p)) as [->|].
    { exists (Some u). unfold core in Hx. rewrite En in Hx. congruence. }
    destruct (decide (x = q)) as [->|]; [|rewrite Hother by done; eauto].
    exists None. rewrite Hq2. unfold core in Hx. rewrite Enq in Hx. congruence.
Qed.

Lemma erase_children t : Tree.children (erase t) = map erase (akids t).
Proof. by destruct t. Qed.
Lemma erase_token t : Tree.token (erase t) = atok t.
Proof. by destruct t. Qed.

(** [addChild]: the child is part of the tree afterwards; of a nil node its children
    are, and itself it is in no tree any more. *)
Lemma addChild_ok n m t c F R lk :
  trees_ok n m (t :: c :: F) R lk → n + 1 < 2 ^ 31 →
  ∃ m' t' lk', addChild (root t) (Some (root c)) m = Ok m' ∧ root t' = root t ∧
    erase t' = Tree.addChild (erase t) (Some (erase c)) ∧ trees_ok (n + 1) m' (t' :: F) R lk' ∧
    evolves m (t :: c :: F ++ R) m' (t' :: F ++ R) ∧ seen m' (t' :: F ++ R) (root c) (atok c) ∧
    (atok c = None → ∃ u lk'', core m' (root c) = Some (None, u) ∧ lk' ≡ₚ option_list u ++ lk'').
Proof.
  intros H Hn. destruct t as [p tok v ts], c as [q tc u cs]. cbn [root atok erase].
  pose proof (tr_stored _ _ _ _ _ H) as Hst. apply Forall_cons in Hst as [Hst Hst'].
  apply Forall_cons in Hst' as [Hsc _]. pose proof Hst as (nd & En & Et & Ec & Hv & _)%stored_inv.
  pose proof Hsc as (nq & Enq & Etq & Ecq & Hu & Hnq & _)%stored_inv.
  assert (Hq : ∀ t', root t' = p → nodes_of (akids t') ⊆+ nodes_of ts ++ nodes_of cs →
    q ∉ nodes_of (t' :: F ++ R)).
  { intros t' Hr Hs. pose proof (tr_nodup _ _ _ _ _ H) as Hd.
    rewrite <-!app_comm_cons, !nodes_of_cons in Hd. cbn [root akids] in Hd. rewrite nodes_of_cons, Hr.
    apply NoDup_cons in Hd as [Hd1 Hd]. apply NoDup_app in Hd as (_ & Hd2 & Hd3).
    apply NoDup_cons in Hd3 as [Hd3 _]. intros [->|Hin]%elem_of_cons; [set_solver|].
    apply elem_of_app in Hin as [Hin|Hin]; [|set_solver].
    apply (elem_of_submseteq _ _ _ Hin) in Hs. set_solver. }
  unfold addChild. rewrite Enq. cbn [mbind outcome_bind]. unfold is_nil. rewrite Etq.
  destruct tc as [tc|].
  - (* not a nil node *)
    rewrite En. cbn [mbind outcome_bind]. rewrite Ec.
    assert (∃ v' m1, match v with None => createChildrenList p m | Some _ => Ok m end = Ok m1 ∧
      trees_ok (n + 1) m1 (ANode p tok (Some v') ts :: ANode q (Some tc) u cs :: F) R lk ∧
      evolves m (ANode p tok v ts :: (ANode q (Some tc) u cs :: F) ++ R)
        m1 (ANode p tok (Some v') ts :: (ANode q (Some tc) u cs :: F) ++ R)) as (v' & m1 & -> & H1 & He1).
    { destruct v as [v|].
      - exists v, m. split_and!; [done|apply (trees_mono n); [done|lia]|by intros ? ?].
      - subst ts. apply createChildrenList_ok; [done|lia]. }
    cbn [mbind outcome_bind].
    destruct (append_kids_ok _ _ _ _ _ _ _ _ _ _ H1) as (k & m' & E & H' & Hc & He); [lia|by eexists|].
    cbn [root] in E. rewrite E. cbn [mbind outcome_bind].
    pose proof (evolves_trans _ _ _ _ _ _ He1 He) as He'.
    exists m', (ANode p tok (Some v') (ts ++ [ANode q (Some tc) u cs])), lk.
    split_and!; [done|done| |exact H'|exact He'| |done].
    + cbn. by rewrite map_app.
    + apply He'. split; [|done]. exists u. unfold core. by rewrite Enq, Etq, Ecq.
  - destruct u as [u|]; [destruct v as [v|]|].
    + (* its children are copied *)
      rewrite En. cbn [mbind outcome_bind]. rewrite Ecq, Ec. rewrite bool_decide_eq_false_2; last first.
      { intros [= ->]. apply (vector_apart _ _ _ _ _ _ _ _ _ u H); [|done].
        rewrite <-app_comm_cons, vecs_of_cons. cbn. set_solver. }
      destruct Hu as (w & Ew & Hw). rewrite Ew. cbn [mbind outcome_bind].
      unfold VectorSize. rewrite (h_count _ _ Hw), length_fmap, Nat2Z.id.
      destruct (copy_ok _ _ _ _ _ _ _ _ _ _ _ _ H) as (m' & -> & H' & Hc & He); [lia|].
      exists m', (ANode p tok (Some v) (ts ++ cs)), (u :: lk).
      split_and!; [done|done| |apply (trees_mono n); [exact H'|lia]|exact He| |].
      * cbn. by rewrite map_app.
      * split; [exists (Some u); rewrite Hc; unfold core; by rewrite Enq, Etq, Ecq|]. intros _. apply Hq; [done|].
        cbn [akids]. by rewrite nodes_of_app.
      * intros _. exists (Some u), lk. rewrite Hc. unfold core. by rewrite Enq, Etq, Ecq.
    + (* its vector is handed over *)
      rewrite En. cbn [mbind outcome_bind]. rewrite Ecq, Ec. rewrite bool_decide_eq_false_2 by done.
      subst ts. destruct (move_ok _ _ _ _ _ _ _ _ _ _ H) as (m1 & m2 & m' & -> & E2 & E3 & H' & Hc & He).
      cbn [mbind outcome_bind]. rewrite E2. cbn [mbind outcome_bind]. rewrite E3.
      exists m', (ANode p tok (Some u) cs), lk.
      split_and!; [done|done|done|apply (trees_mono n); [exact H'|lia]|exact He| |].
      * split; [by exists None|]. intros _. by apply Hq.
      * intros _. exists None, lk. done.
    + (* it has no children *)
      rewrite En. cbn [mbind outcome_bind]. rewrite Ecq. subst cs.
      apply (trees_perm _ _ _ (ANode q None None [] :: ANode p tok v ts :: F)) in H; [|by rewrite Permutation_swap].
      destruct (trees_drop _ _ _ _ _ _ H) as [H' He].
      exists m, (ANode p tok v ts), lk. split_and!; [done|done| |apply (trees_mono n); [exact H'|lia]| | |].
      * cbn. by rewrite app_nil_r.
      * intros x tx Hx. apply He. eapply seen_perm; [|exact Hx]. by rewrite Permutation_swap.
      * split; [exists None; unfold core; by rewrite Enq, Etq, Ecq|]. intros _. apply Hq; [done|]. by apply submseteq_inserts_r.
      * intros _. exists None, lk. unfold core. by rewrite Enq, Etq, Ecq.
Qed.

(** ** The adaptor *)

(** A nil node with one child gives the child. *)
Lemma nil_reuse_ok n m p v cs F R lk :
  trees_ok n m (ANode p None v cs :: F) R lk → n < 2 ^ 31 →
  ∃ m' R' lk', reuse p m = Ok m' ∧ trees_ok n m' (cs ++ F) R' lk' ∧
    evolves m (ANode p None v cs :: F ++ R) m' (cs ++ F ++ R').
Proof.
  intros H Hn. destruct (trees_open _ _ _ _ _ _ _ _ H) as (H1 & Hp & Hc & He).
  rewrite app_assoc in Hp. destruct (reuse_ok _ _ _ _ _ _ _ lk H1 Hn Hc Hp) as (m' & E & H' & Hs); [done|].
  do 3 eexists. split_and!; [done|exact H'|]. intros q tok Hq. rewrite app_assoc. apply Hs.
  - intros ->. destruct Hq as [[u Hq] Hnil]. rewrite Hc in Hq. injection Hq as <- <-.
    apply Hnil; [done|]. rewrite nodes_of_cons. cbn. left.
  - rewrite <-app_assoc. by apply He.
Qed.

Lemma stored_child m a i c : stored m a → akids a !! i = Some c → stored m c ∧ is_Some (atok c).
Proof.
  intros [? ? ? cs _ _ Hn Hs] Hc. cbn in Hc. rewrite Forall_lookup in Hn, Hs. split; [by apply (Hs i)|by apply (Hn i)].
Qed.
Lemma live_node m a : stored m a → ∃ nd, node m (root a) = Ok nd.
Proof. intros [p tok v cs Hc _ _ _]. apply core_node in Hc as (nd & ? & _). eauto. Qed.

(** [rulePostProcessing] *)
Lemma rulePostProcessing_ok n m a F R lk :
  trees_ok n m (a :: F) R lk → n < 2 ^ 31 →
  ∃ m' o R' lk', rulePostProcessing (Some (root a)) m = Ok (root <$> o, m') ∧
    erase <$> o = Tree.rulePostProcessing (Some (erase a)) ∧
    trees_ok n m' (option_list o ++ F) R' lk' ∧
    evolves m (a :: F ++ R) m' (option_list o ++ F ++ R').
Proof.
  intros H Hn. pose proof (tr_stored _ _ _ _ _ H) as Hst. apply Forall_cons in Hst as [Hst _].
  unfold rulePostProcessing. rewrite (isNilNode_ok _ _ Hst), (getChildCount_ok _ _ Hst).
  cbn [mbind outcome_bind]. destruct a as [p tok v cs]. cbn [akids root]. cbn [Tree.rulePostProcessing erase].
  destruct tok as [tok|]; cbn [Tree.isNilNode Tree.token negb].
  { exists m, (Some (ANode p (Some tok) v cs)), R, lk. split_and!; try done. by intros ?. }
  cbn [Tree.children]. destruct cs as [|c [|c' cs]]; cbn [length map Z.of_nat].
  - change (0 =? 0) with true. cbn. exists m, None, R. destruct (trees_drop _ _ _ _ _ _ H) as [H' He].
    eexists. split_and!; [done|done|exact H'|exact He].
  - change (Z.pos (Pos.of_succ_nat 0)) with 1. cbn [Z.eqb Pos.eqb].
    pose proof (getChild_ok _ _ 0 Hst) as E0. cbn in E0. change (Z.of_nat 0) with 0 in E0. rewrite E0. cbn [deref mbind outcome_bind].
    destruct (stored_child _ _ 0 c Hst eq_refl) as [Hsc _].
    destruct (live_node _ _ Hsc) as [nc Enc]. unfold setParent. cbn [mbind outcome_bind].
    destruct (change_skeleton m (root c) nc (set_parent None) Enc) as (m1 & -> & S1); [done|]. cbn [mbind outcome_bind].
    pose proof (trees_skeleton _ _ _ _ _ _ S1 H) as H1.
    pose proof (tr_stored _ _ _ _ _ H1) as Hst1. apply Forall_cons in Hst1 as [Hst1 _].
    destruct (stored_child _ _ 0 c Hst1 eq_refl) as [Hsc1 _]. destruct (live_node _ _ Hsc1) as [nc1 Enc1].
    destruct (change_skeleton m1 (root c) nc1 (set_childIndex (-1)) Enc1) as (m2 & E2 & S2); [done|].
    unfold setChildIndex. rewrite E2. cbn [mbind outcome_bind].
    pose proof (trees_skeleton _ _ _ _ _ _ S2 H1) as H2.
    destruct (nil_reuse_ok _ _ _ _ _ _ _ _ H2 Hn) as (m' & R' & lk' & -> & H' & He). cbn [mbind outcome_bind].
    exists m', (Some c), R', lk'. split_and!; [done|done|done|].
    apply (evolves_trans _ _ _ _ _ _ (seen_skeleton _ _ _ (skeleton_trans _ _ _ S1 S2)) He).
  - destruct (Z.eqb_spec (Z.of_nat (S (S (length cs)))) 0); [lia|].
    destruct (Z.eqb_spec (Z.of_nat (S (S (length cs)))) 1); [lia|].
    exists m, (Some (ANode p None v (c :: c' :: cs))), R, lk. split_and!; [done|done|done|].
    by intros ? ? ?.
Qed.

Lemma isNilNode_seen m all p tok :
  seen m all p tok → isNilNode p m = Ok (match tok with None => true | Some _ => false end).
Proof.
  intros [[v Hc] _]. apply core_node in Hc as (nd & En & Et & _).
  unfold isNilNode, is_nil. rewrite En. cbn. by rewrite Et.
Qed.

(** [becomeRoot], once the node that is to be the root is found: the old root goes
    below it, and is given back when it was a nil node. *)
Lemma below_root_ok n m a b F R lk :
  trees_ok n m (a :: b :: F) R lk → n + 1 < 2 ^ 31 →
  ∃ m1 m' a' R' lk', addChild (root a) (Some (root b)) m = Ok m1 ∧
    (nil ← isNilNode (root b) m1; m' ← (if nil : bool then reuse (root b) m1 else Ok m1); Ok (Some (root a), m'))
      = Ok (Some (root a'), m') ∧
    erase a' = Tree.addChild (erase a) (Some (erase b)) ∧ trees_ok (n + 1) m' (a' :: F) R' lk' ∧
    evolves m (a :: b :: F ++ R) m' (a' :: F ++ R') ∧
    (is_Some (atok b) → seen m' (a' :: F ++ R') (root b) (atok b)).
Proof.
  intros H Hn. pose proof (tr_stored _ _ _ _ _ H) as Hst. apply Forall_cons in Hst as [_ Hst].
  apply Forall_cons in Hst as [Hsb _].
  destruct (addChild_ok _ _ _ _ _ _ _ H Hn) as (m1 & a' & lk1 & E & Hr & Her & H1 & He & Hs & Hleft).
  exists m1. rewrite (isNilNode_seen _ _ _ _ Hs). cbn [mbind outcome_bind].
  destruct (atok b) as [tok|] eqn:Eb.
  { exists m1, a', R, lk1. split_and!; try done. by rewrite Hr. }
  destruct (Hleft eq_refl) as (u & lk2 & Hc & Hlk). destruct Hs as [_ Hnot].
  destruct (reuse_ok _ _ _ _ _ _ _ _ H1 Hn Hc (Hnot eq_refl) Hlk) as (m' & -> & H' & Hs').
  cbn [mbind outcome_bind]. exists m', a', (ANode (root b) None u [] :: R), lk2.
  split_and!; [done|by rewrite Hr|done|done| |by intros []].
  intros q tok Hq. apply Hs'; [|by apply He]. intros ->. destruct Hq as [[v Hq] Hnil].
  destruct b as [p ? w cs]. cbn in Eb. subst tok0. inversion Hsb as [? ? ? ? Hcb _ _ _]; subst.
  cbn [root] in Hq, Hnil. rewrite Hcb in Hq. injection Hq as <- <-. apply Hnil; [done|].
  rewrite !nodes_of_cons. cbn [root]. set_solver.
Qed.

Lemma becomeRoot_ok n m a b F R lk t :
  trees_ok n m (a :: b :: F) R lk → n + 1 < 2 ^ 31 →
  Tree.becomeRoot (Some (erase a)) (Some (erase b)) = Ok t →
  if Tree.isNilNode (erase a) && (1 <? length (Tree.children (erase a)))%nat
  then becomeRoot (Some (root a)) (Some (root b)) m = Ok (Some (root a), m) ∧ t = Some (erase a)
  else
    ∃ m' a' R' lk', becomeRoot (Some (root a)) (Some (root b)) m = Ok (Some (root a'), m') ∧
      t = Some (erase a') ∧ trees_ok (n + 1) m' (a' :: F) R' lk' ∧
      evolves m (a :: b :: F ++ R) m' (a' :: F ++ R') ∧
      (is_Some (atok b) → seen m' (a' :: F ++ R') (root b) (atok b)).
Proof.
  intros H Hn Ht. pose proof (tr_stored _ _ _ _ _ H) as Hst. apply Forall_cons in Hst as [Hst _].
  unfold becomeRoot. rewrite (isNilNode_ok _ _ Hst), (getChildCount_ok _ _ Hst). cbn [mbind outcome_bind].
  unfold Tree.becomeRoot in Ht. rewrite erase_children, length_map in *.
  replace (1 <? Z.of_nat (length (akids a))) with (1 <? length (akids a))%nat
    by (destruct (Nat.ltb_spec 1 (length (akids a))), (Z.ltb_spec 1 (Z.of_nat (length (akids a)))); lia || done).
  destruct (Tree.isNilNode (erase a)) eqn:En; cbn [andb].
  - destruct (1 <? length (akids a))%nat eqn:El; [by simplify_eq|].
    destruct a as [p tok v cs]. cbn [akids root erase Tree.children] in *.
    destruct tok as [tok|]; [done|]. destruct cs as [|c [|? ?]]; [done| |done]. cbn in Ht. simplify_eq.
    pose proof (getChild_ok _ _ 0 Hst) as E0. cbn in E0. change (Z.of_nat 0) with 0 in E0. rewrite E0.
    cbn [mbind outcome_bind].
    destruct (nil_reuse_ok _ _ _ _ _ _ _ _ H) as (m1 & R1 & lk1 & -> & H1 & He1); [lia|].
    cbn [mbind outcome_bind deref].
    destruct (below_root_ok _ _ _ _ _ _ _ H1 Hn) as (m2 & m' & a' & R' & lk' & -> & E & Her & H' & He & Hs).
    cbn [mbind outcome_bind]. exists m', a', R', lk'. split_and!; [exact E|by rewrite Her|done| |done].
    by apply (evolves_trans _ _ _ _ _ _ He1 He).
  - cbn [mbind outcome_bind]. simplify_eq.
    destruct (below_root_ok _ _ _ _ _ _ _ H Hn) as (m2 & m' & a' & R' & lk' & -> & E & Her & H' & He & Hs).
    cbn [mbind outcome_bind]. exists m', a', R', lk'. split_and!; [exact E|by rewrite Her|done|done|done].
Qed.

(** A nil node without children can not become the root of a tree: its first child is
    followed through a null pointer. *)
Lemma becomeRoot_empty n m a b F R lk :
  trees_ok n m (a :: F) R lk → n < 2 ^ 31 → erase a = Tree.nilNode →
  becomeRoot (Some (root a)) (Some b) m = Undef NullDeref.
Proof.
  intros H Hn Ha. pose proof (tr_stored _ _ _ _ _ H) as Hst. apply Forall_cons in Hst as [Hst _].
  unfold becomeRoot. rewrite (isNilNode_ok _ _ Hst), (getChildCount_ok _ _ Hst), Ha. cbn [mbind outcome_bind].
  destruct a as [p [tok|] v [|c cs]]; [done..| |done]. cbn [akids length root].
  pose proof (getChild_ok _ _ 0 Hst) as E0. cbn in E0. change (Z.of_nat 0) with 0 in E0. cbn. rewrite E0.
  cbn [mbind outcome_bind]. by destruct (nil_reuse_ok _ _ _ _ _ _ _ _ H Hn) as (m1 & R1 & lk1 & -> & _).
Qed.

Lemma ArboretumNew_ok : ∃ m, ArboretumNew = Ok m ∧ trees_ok 0 m [] [] [].
Proof.
  destruct (@VectorFactoryNew_ok tptr) as (f & Ef & Hf). unfold ArboretumNew. rewrite Ef. cbn [mbind outcome_bind].
  eexists. split; [reflexivity|]. split; cbn; try done.
  - split; cbn; try done.
    + intros i pool Hi. by apply list_lookup_singleton_Some in Hi as [_ <-].
    + intros [i j] nd. unfold node. cbn. destruct i as [|i]; [|done].
      cbn. destruct (replicate _ None !! j) as [o|] eqn:E; [|done]. by apply lookup_replicate_1 in E as [-> _].
  - by apply StackNew_stacked.
  - constructor.
  - by exists [].
Qed.
