(* ===== verification/TreePrograms.v ===== *)
(** Programs of calls of the tree adaptor, as the actions of the generated parser are:
    on the memory of [TreeStore] they build the trees that [Tree] says. *)
From S2P Require Import Prelude.
From S2P Require Import CppString.
From S2P Require Import Vector.
From S2P Require Import VectorFactory.
From S2P Require Import Lexer.
From S2P Require Import TreeStore.
From S2P Require Import TreeRefine.
From S2P Require Tree.

(** ** Programs

    A program has variables, numbered from 0, that hold pointers to nodes. Every call
    that returns a node makes a new variable. *)
Inductive action : Type :=
| Create (tok : option COMMON_TOKEN)
| AddChild (t child : nat)
| BecomeRoot (newRoot oldRoot : nat)
| RulePostProcessing (root : nat)
| DupNode (t : nat).

Definition var {A} (env : list A) (i : nat) : outcome A :=
  match env !! i with Some x => Ok x | None => Undef BadIndex end.

(** On memory. *)
Definition act (a : action) (s : ARBORETUM * list (option tptr))
    : outcome (ARBORETUM * list (option tptr)) :=
  let '(m, env) := s in
  match a with
  | Create tok => '(p, m) ← create tok m; Ok (m, env ++ [Some p])
  | AddChild i j =>
      t ← var env i;
      c ← var env j;
      m ← adaptor_addChild t c m;
      Ok (m, env)
  | BecomeRoot i j =>
      a ← var env i;
      b ← var env j;
      '(r, m) ← becomeRoot a b m;
      Ok (m, env ++ [r])
  | RulePostProcessing i =>
      a ← var env i;
      '(r, m) ← rulePostProcessing a m;
      Ok (m, env ++ [r])
  | DupNode i =>
      a ← var env i;
      '(r, m) ← adaptor_dupNode a m;
      Ok (m, env ++ [r])
  end.
Fixpoint act_all (l : list action) (s : ARBORETUM * list (option tptr))
    : outcome (ARBORETUM * list (option tptr)) :=
  match l with
  | [] => Ok s
  | a :: l => s ← act a s; act_all l s
  end.

(** What a variable stands for: a tree of its own, a node that went into another tree
    and of which the token is known, or nothing that may be used. *)
Inductive value : Type :=
| Own (t : Tree.pTREE)
| Seen (tok : option COMMON_TOKEN)
| Gone.

(** On trees. A tree that was put into another is its own no more; a nil node that was
    given back is gone. *)
Definition means (a : action) (env : list value) : option (list value) :=
  match a with
  | Create tok => Some (env ++ [Own (Some (Tree.create tok))])
  | AddChild i j =>
      if decide (i = j) then None
      else
        match env !! i, env !! j with
        | Some (Own (Some t)), Some (Own (Some c)) =>
            Some (<[i := Own (Some (Tree.addChild t (Some c)))]> (<[j := Seen (Tree.token c)]> env))
        | Some (Own _), Some (Own _) => Some env
        | _, _ => None
        end
  | BecomeRoot i j =>
      if decide (i = j) then None
      else
        match env !! i, env !! j with
        | Some (Own (Some a)), Some (Own (Some b)) =>
            match Tree.becomeRoot (Some a) (Some b) with
            | Ok t =>
                let env := <[i := Gone]> env in
                if Tree.isNilNode a && (1 <? length (Tree.children a))%nat then Some (env ++ [Own t])
                else
                  Some (<[j := if Tree.isNilNode b then Gone else Seen (Tree.token b)]> env ++ [Own t])
            | _ => None
            end
        | Some (Own None), Some (Own b) => Some (<[j := Gone]> env ++ [Own b])
        | Some (Own a), Some (Own None) => Some (<[i := Gone]> env ++ [Own a])
        | _, _ => None
        end
  | RulePostProcessing i =>
      match env !! i with
      | Some (Own t) => Some (<[i := Gone]> env ++ [Own (Tree.rulePostProcessing t)])
      | _ => None
      end
  | DupNode i =>
      match env !! i with
      | Some (Own t) => Some (env ++ [Own (Tree.dupNode <$> t)])
      | Some (Seen tok) => Some (env ++ [Own (Some (Tree.create tok))])
      | _ => None
      end
  end.
Fixpoint means_all (l : list action) (env : list value) : option (list value) :=
  match l with
  | [] => Some env
  | a :: l => env ← means a env; means_all l env
  end.

(** A tree of memory under a pointer. *)
Definition tree_at (m : ARBORETUM) (p : tptr) (t : Tree.BASE_TREE) (ns : list tptr) : Prop :=
  ∃ a, stored m a ∧ root a = p ∧ erase a = t ∧ nodes a = ns.
(** The variables hold what they stand for, in trees that share no node. *)
Definition holds_values (m : ARBORETUM) (ptrs : list (option tptr)) (env : list value) : Prop :=
  ∃ fp : list (list tptr),
    NoDup (mjoin fp) ∧ length fp = length env ∧ length ptrs = length env ∧
    ∀ i, match env !! i with
         | Some (Own (Some t)) => ∃ p ns, ptrs !! i = Some (Some p) ∧ fp !! i = Some ns ∧ tree_at m p t ns
         | Some (Own None) => ptrs !! i = Some None
         | Some (Seen tok) => ∃ p v, ptrs !! i = Some (Some p) ∧ core m p = Some (tok, v)
         | _ => True
         end.

(** *** An example: [a] and [b] in a list, the list in another one, [c] above them. *)
Definition sample_token (name : string) : option COMMON_TOKEN := Some (mkToken TEXT 0 (lit name)).
Definition sample_tree : Tree.BASE_TREE :=
  Tree.Tree (sample_token "c") [Tree.create (sample_token "a"); Tree.create (sample_token "b")].
Definition sample_program : list action :=
  [Create None; Create (sample_token "a"); AddChild 0 1; Create (sample_token "b"); AddChild 0 2;
   RulePostProcessing 0; Create None; AddChild 4 3; DupNode 3; Create (sample_token "c"); BecomeRoot 6 4;
   Create None; AddChild 8 7; RulePostProcessing 8].
Definition sample_values : list value :=
  [Gone; Seen (sample_token "a"); Seen (sample_token "b"); Seen None; Gone; Own (Some Tree.nilNode); Gone;
   Seen (sample_token "c"); Gone; Own (Some sample_tree)].

(** ** States *)
Record cell : Type := mkCell { c_ptr : option tptr; c_value : value; c_tree : option ATREE }.
Definition cell_ok (m : ARBORETUM) (all : list ATREE) (c : cell) : Prop :=
  match c_value c, c_tree c, c_ptr c with
  | Own (Some t), Some a, p => p = Some (root a) ∧ erase a = t
  | Own None, None, None => True
  | Seen tok, None, Some p => seen m all p tok
  | Gone, None, _ => True
  | _, _, _ => False
  end.
Abbreviation trees := (omap c_tree).
Record state_ok (n : Z) (m : ARBORETUM) (cells : list cell) (R : list ATREE) (lk : list ptr) : Prop := {
  s_trees : trees_ok n m (trees cells) R lk;
  s_cells : Forall (cell_ok m (trees cells ++ R)) cells
}.

Lemma cell_evolves m all m' all' c : evolves m all m' all' → cell_ok m all c → cell_ok m' all' c.
Proof.
  intros He. unfold cell_ok. destruct (c_value c) as [[t|]|tok|], (c_tree c), (c_ptr c); try done. apply He.
Qed.
Lemma cells_evolve m all m' all' cells :
  evolves m all m' all' → Forall (cell_ok m all) cells → Forall (cell_ok m' all') cells.
Proof. intros He H. apply (Forall_impl _ _ _ H). intros c. by apply cell_evolves. Qed.
Lemma evolves_perm m a a' m' b b' : a ≡ₚ a' → b ≡ₚ b' → evolves m a m' b → evolves m a' m' b'.
Proof. intros Ha Hb He p tok Hp. eapply seen_perm, He, seen_perm; [exact Hb|by symmetry|exact Hp]. Qed.

(** Taking a variable's tree out. *)
Lemma trees_insert (cells : list cell) i c c' :
  cells !! i = Some c →
  option_list (c_tree c') ++ trees cells ≡ₚ option_list (c_tree c) ++ trees (<[i := c']> cells).
Proof.
  intros (l1 & l2 & -> & _ & ->)%(insert_split _ _ _ c'). rewrite !omap_app. cbn.
  destruct (c_tree c), (c_tree c'); cbn; solve_Permutation.
Qed.
Lemma trees_snoc cells c : trees (cells ++ [c]) ≡ₚ option_list (c_tree c) ++ trees cells.
Proof. rewrite omap_app. cbn. destruct (c_tree c); cbn; solve_Permutation. Qed.
Lemma cell_value (cells : list cell) i x : (c_value <$> cells) !! i = Some x → ∃ c, cells !! i = Some c ∧ c_value c = x.
Proof. rewrite list_lookup_fmap. intros (c & ? & ->)%fmap_Some. eauto. Qed.
Lemma cell_var (cells : list cell) i c : cells !! i = Some c → var (c_ptr <$> cells) i = Ok (c_ptr c).
Proof. intros E. unfold var. by rewrite list_lookup_fmap, E. Qed.
Definition empty_cell : cell := mkCell None Gone None.
Definition rest (i j : nat) (cells : list cell) : list ATREE :=
  trees (<[i := empty_cell]> (<[j := empty_cell]> cells)).
Lemma trees_at cells i c c' :
  cells !! i = Some c → trees (<[i := c']> cells) ≡ₚ option_list (c_tree c') ++ trees (<[i := empty_cell]> cells).
Proof.
  intros Hi. assert (Hi' : <[i := empty_cell]> cells !! i = Some empty_cell).
  { apply list_lookup_insert_eq. by eapply lookup_lt_Some. }
  pose proof (trees_insert _ _ _ c' Hi') as H. rewrite list_insert_insert_eq in H. symmetry. exact H.
Qed.
Lemma trees_at_two cells i j ci cj ci' cj' :
  cells !! i = Some ci → cells !! j = Some cj → i ≠ j →
  trees (<[i := ci']> (<[j := cj']> cells)) ≡ₚ option_list (c_tree ci') ++ option_list (c_tree cj') ++ rest i j cells.
Proof.
  intros Hi Hj Hne. rewrite (trees_at _ _ ci) by (by rewrite list_lookup_insert_ne).
  f_equiv. rewrite list_insert_insert_ne by done.
  rewrite (trees_at _ _ cj) by (by rewrite list_lookup_insert_ne).
  unfold rest. by rewrite (list_insert_insert_ne _ j i) by done.
Qed.
Lemma trees_two cells i j ci cj :
  cells !! i = Some ci → cells !! j = Some cj → i ≠ j →
  trees cells ≡ₚ option_list (c_tree ci) ++ option_list (c_tree cj) ++ rest i j cells.
Proof.
  intros Hi Hj Hne. rewrite <-(trees_at_two cells i j ci cj ci cj) by done.
  by rewrite (list_insert_id cells j cj), list_insert_id.
Qed.

(** The cell of a variable with a tree of its own. *)
Lemma own_cell m all (cells : list cell) i t :
  Forall (cell_ok m all) cells → (c_value <$> cells) !! i = Some (Own t) →
  ∃ o, cells !! i = Some (mkCell (root <$> o) (Own t) o) ∧ t = erase <$> o.
Proof.
  intros H ([q x o] & Hi & Hx)%cell_value. cbn in Hx. subst x. rewrite Forall_lookup in H.
  specialize (H i _ Hi). unfold cell_ok in H. cbn in H. exists o.
  destruct t as [t|], o as [a|], q as [q|]; try done; try (by destruct H); destruct H as [[= ->] <-]; done.
Qed.

(** The next state: its trees, its cells, and one new cell. *)
Lemma state_next n m m' cells cells' R R' lk F o c :
  Forall (cell_ok m (trees cells ++ R)) cells →
  evolves m (trees cells ++ R) m' (option_list o ++ F ++ R') →
  trees cells' ≡ₚ F → trees_ok n m' (option_list o ++ F) R' lk →
  (Forall (cell_ok m' (option_list o ++ F ++ R')) cells → Forall (cell_ok m' (option_list o ++ F ++ R')) cells') →
  c_tree c = o → cell_ok m' (option_list o ++ F ++ R') c →
  state_ok n m' (cells' ++ [c]) R' lk.
Proof.
  intros Hc He HF Ht Hc' <- Hcell.
  assert (Hperm : trees (cells' ++ [c]) ≡ₚ option_list (c_tree c) ++ F) by (by rewrite trees_snoc, HF).
  assert (Hall : option_list (c_tree c) ++ F ++ R' ≡ₚ trees (cells' ++ [c]) ++ R') by (by rewrite Hperm, <-app_assoc).
  assert (Hid : evolves m' (option_list (c_tree c) ++ F ++ R') m' (trees (cells' ++ [c]) ++ R')).
  { intros p tok. by apply seen_perm. }
  split; [by eapply trees_perm; [symmetry; exact Hperm|]|].
  apply Forall_app. split.
  - apply (cells_evolve _ _ _ _ _ Hid), Hc'. by apply (cells_evolve _ _ _ _ _ He).
  - apply Forall_singleton. by apply (cell_evolves _ _ _ _ _ Hid).
Qed.

Lemma create_step n m cells R lk tok :
  state_ok n m cells R lk → n + 1 < 2 ^ 31 →
  ∃ m' cells' R' lk', act (Create tok) (m, c_ptr <$> cells) = Ok (m', c_ptr <$> cells') ∧
    c_value <$> cells' = (c_value <$> cells) ++ [Own (Some (Tree.create tok))] ∧
    state_ok (n + 1) m' cells' R' lk'.
Proof.
  intros [Ht Hc] Hn. destruct (create_ok _ _ _ _ _ tok Ht Hn) as (p & v & m' & R' & E & H' & He).
  cbn [act]. rewrite E. cbn [mbind outcome_bind].
  exists m', (cells ++ [mkCell (Some p) (Own (Some (Tree.create tok))) (Some (ANode p tok v []))]), R', lk.
  split_and!; [by rewrite fmap_app|by rewrite fmap_app|].
  by apply (state_next _ m _ cells _ R _ _ (trees cells) (Some (ANode p tok v []))).
Qed.
Lemma state_same n m m' cells cells' R R' lk F :
  Forall (cell_ok m (trees cells ++ R)) cells → evolves m (trees cells ++ R) m' (F ++ R') →
  trees cells' ≡ₚ F → trees_ok n m' F R' lk →
  (Forall (cell_ok m' (F ++ R')) cells → Forall (cell_ok m' (F ++ R')) cells') →
  state_ok n m' cells' R' lk.
Proof.
  intros Hc He HF Ht Hc'. split; [by eapply trees_perm; [symmetry; exact HF|]|].
  assert (Hid : evolves m' (F ++ R') m' (trees cells' ++ R')).
  { intros p tok. apply seen_perm. by rewrite HF. }
  apply (cells_evolve _ _ _ _ _ Hid), Hc'. by apply (cells_evolve _ _ _ _ _ He).
Qed.

Lemma addChild_step n m cells R lk i j env' :
  state_ok n m cells R lk → n + 1 < 2 ^ 31 → means (AddChild i j) (c_value <$> cells) = Some env' →
  ∃ m' cells' R' lk', act (AddChild i j) (m, c_ptr <$> cells) = Ok (m', c_ptr <$> cells') ∧
    c_value <$> cells' = env' ∧ state_ok (n + 1) m' cells' R' lk'.
Proof.
  intros [Ht Hc] Hn. cbn [means]. destruct (decide (i = j)) as [|Hij]; [done|].
  destruct ((c_value <$> cells) !! i) as [[t| |]|] eqn:Ei; [|done..].
  destruct (own_cell _ _ _ _ _ Hc Ei) as (oa & Hi & ->). destruct ((c_value <$> cells) !! j) as [[c| |]|] eqn:Ej.
  2-4: by destruct (erase <$> oa).
  destruct (own_cell _ _ _ _ _ Hc Ej) as (ob & Hj & ->). intros Hm.
  cbn [act]. rewrite (cell_var _ _ _ Hi), (cell_var _ _ _ Hj). cbn [mbind outcome_bind c_ptr].
  assert (Hnone : oa = None ∨ ob = None → adaptor_addChild (root <$> oa) (root <$> ob) m = Ok m ∧ env' = c_value <$> cells).
  { destruct oa, ob; intros [?|?]; cbn in *; simplify_eq; done. }
  destruct oa as [a|]; [destruct ob as [b|]|].
  2-3: destruct Hnone as [-> ->]; [tauto|]; exists m, cells, R, lk; split_and!; [done|done|];
    split; [by apply (trees_mono n); [|lia]|done].
  clear Hnone. cbn [fmap option_fmap option_map] in *. injection Hm as <-.
  pose proof (trees_two _ _ _ _ _ Hi Hj Hij) as HF. cbn in HF.
  apply (trees_perm _ _ _ _ _ _ HF) in Ht.
  destruct (addChild_ok _ _ _ _ _ _ _ Ht Hn) as (m' & a' & lk' & E & Hr & Her & H' & He & Hs & _).
  cbn [adaptor_addChild]. rewrite E. cbn [mbind outcome_bind].
  pose (ci' := mkCell (Some (root a)) (Own (Some (erase a'))) (Some a')).
  pose (cj' := mkCell (Some (root b)) (Seen (Tree.token (erase b))) None).
  exists m', (<[i := ci']> (<[j := cj']> cells)), R, lk'. split_and!.
  - do 2 f_equal. rewrite !list_fmap_insert. cbn. rewrite (list_insert_id _ j), (list_insert_id _ i); [done|..];
      by rewrite list_lookup_fmap, ?Hi, ?Hj.
  - rewrite !list_fmap_insert. cbn. by rewrite Her.
  - eapply (state_same _ m); [done| | |exact H'|].
    + eapply evolves_perm; [|reflexivity|exact He]. by rewrite HF.
    + by rewrite (trees_at_two _ _ _ _ _ _ _ Hi Hj Hij).
    + intros Hcells. apply Forall_insert; [apply Forall_insert; [done|]|].
      * cbn. by rewrite erase_token.
      * cbn. by rewrite Hr.
Qed.

Lemma post_step n m cells R lk i env' :
  state_ok n m cells R lk → n + 1 < 2 ^ 31 → means (RulePostProcessing i) (c_value <$> cells) = Some env' →
  ∃ m' cells' R' lk', act (RulePostProcessing i) (m, c_ptr <$> cells) = Ok (m', c_ptr <$> cells') ∧
    c_value <$> cells' = env' ∧ state_ok (n + 1) m' cells' R' lk'.
Proof.
  intros [Ht Hc] Hn. cbn [means]. destruct ((c_value <$> cells) !! i) as [[t| |]|] eqn:Ei; [|done..].
  destruct (own_cell _ _ _ _ _ Hc Ei) as (oa & Hi & ->). intros [= <-].
  cbn [act]. rewrite (cell_var _ _ _ Hi). cbn [mbind outcome_bind c_ptr].
  assert (HF : trees cells ≡ₚ option_list oa ++ trees (<[i := empty_cell]> cells)).
  { rewrite <-(list_insert_id cells i _ Hi) at 1. by rewrite (trees_at _ _ _ _ Hi). }
  assert (∃ m' o R' lk', rulePostProcessing (root <$> oa) m = Ok (root <$> o, m') ∧
    erase <$> o = Tree.rulePostProcessing (erase <$> oa) ∧
    trees_ok n m' (option_list o ++ trees (<[i := empty_cell]> cells)) R' lk' ∧
    evolves m (trees cells ++ R) m' (option_list o ++ trees (<[i := empty_cell]> cells) ++ R'))
    as (m' & o & R' & lk' & -> & Her & H' & He).
  { apply (trees_perm _ _ _ _ _ _ HF) in Ht. destruct oa as [a|].
    - destruct (rulePostProcessing_ok _ _ _ _ _ _ Ht) as (m' & o & R' & lk' & E & Her & H' & He); [lia|].
      exists m', o, R', lk'. split_and!; [done|done|done|]. eapply evolves_perm; [|reflexivity|exact He]. by rewrite HF.
    - exists m, None, R, lk. split_and!; [done|done|done|]. intros p tok. apply seen_perm. by rewrite HF. }
  cbn [mbind outcome_bind].
  pose (cell i' := mkCell (c_ptr i') Gone None).
  exists m', (<[i := mkCell (root <$> oa) Gone None]> cells ++ [mkCell (root <$> o) (Own (erase <$> o)) o]), R', lk'.
  split_and!.
  - rewrite fmap_app, list_fmap_insert. cbn. rewrite (list_insert_id _ i); [done|]. by rewrite list_lookup_fmap, Hi.
  - rewrite fmap_app, list_fmap_insert. cbn. by rewrite Her.
  - apply (state_next _ m _ cells _ R _ _ (trees (<[i := empty_cell]> cells)) o); try done.
    + by rewrite (trees_at _ _ _ _ Hi).
    + apply (trees_mono n); [done|lia].
    + intros Hcells. by apply Forall_insert.
    + by destruct o.
Qed.

(** [dupNode]: a node with the same token. *)
Lemma dupNode_ok n m F R lk p tok v :
  trees_ok n m F R lk → n + 1 < 2 ^ 31 → core m p = Some (tok, v) →
  seen m (F ++ R) p tok ∨ (∃ a, a ∈ F ∧ root a = p) →
  ∃ q w m' R', dupNode p m = Ok (q, m') ∧ trees_ok (n + 1) m' (ANode q tok w [] :: F) R' lk ∧
    evolves m (F ++ R) m' (ANode q tok w [] :: F ++ R').
Proof.
  intros H Hn Hc Hp.
  assert (Htok : ∀ a, stored m a → root a = p → atok a = tok).
  { intros [? t ? ?] Ha <-. inversion Ha; subst. cbn in *. congruence. }
  unfold dupNode, newFromTree. destruct (create_ok _ _ _ _ _ tok H Hn) as (q & w & m' & R' & E & H' & He).
  unfold create, newFromToken in E. destruct (newPoolTree_ok _ _ _ _ _ H Hn) as (q1 & w1 & m1 & R1 & E1 & H1 & He1).
  rewrite E1 in E |- *. cbn [mbind outcome_bind] in *.
  assert (∃ nd, node m1 p = Ok nd ∧ token nd = tok) as (nd & -> & Etok).
  { destruct Hp as [Hp|(a & Ha & Hr)].
    - apply He1 in Hp as [[u Hu] _]. apply core_node in Hu as (nd & ? & ? & _). eauto.
    - pose proof (tr_stored _ _ _ _ _ H) as Hst. rewrite Forall_forall in Hst.
      pose proof (tr_stored _ _ _ _ _ H1) as Hst1. rewrite Forall_forall in Hst1.
      assert (Ha0 : stored m a) by (apply Hst; set_solver). assert (Ha1 : stored m1 a) by (apply Hst1; set_solver).
      pose proof (Htok a Ha0 Hr) as Ht. destruct a as [? ? ? ?]. cbn in Ht, Hr. subst.
      inversion Ha1 as [? ? ? ? Hc1 _ _ _]; subst. apply core_node in Hc1 as (nd & ? & ? & _). eauto. }
  cbn [mbind outcome_bind]. rewrite Etok. eauto 10.
Qed.
Lemma dup_step n m cells R lk i env' :
  state_ok n m cells R lk → n + 1 < 2 ^ 31 → means (DupNode i) (c_value <$> cells) = Some env' →
  ∃ m' cells' R' lk', act (DupNode i) (m, c_ptr <$> cells) = Ok (m', c_ptr <$> cells') ∧
    c_value <$> cells' = env' ∧ state_ok (n + 1) m' cells' R' lk'.
Proof.
  intros [Ht Hc] Hn. cbn [means]. intros Hm.
  assert (Hnew : ∀ p tok v, cells !! i ≫= c_ptr = Some p → core m p = Some (tok, v) →
    seen m (trees cells ++ R) p tok ∨ (∃ a, a ∈ trees cells ∧ root a = p) →
    env' = (c_value <$> cells) ++ [Own (Some (Tree.create tok))] →
    ∃ m' cells' R' lk', act (DupNode i) (m, c_ptr <$> cells) = Ok (m', c_ptr <$> cells') ∧
      c_value <$> cells' = env' ∧ state_ok (n + 1) m' cells' R' lk').
  { intros p tok v Hi Hcore Hp ->. destruct (cells !! i) as [c|] eqn:Ei; [|done]. cbn in Hi.
    cbn [act]. rewrite (cell_var _ _ _ Ei), Hi. cbn [mbind outcome_bind adaptor_dupNode].
    destruct (dupNode_ok _ _ _ _ _ _ _ _ Ht Hn Hcore Hp) as (q & w & m' & R' & -> & H' & He). cbn [mbind outcome_bind].
    exists m', (cells ++ [mkCell (Some q) (Own (Some (Tree.create tok))) (Some (ANode q tok w []))]), R', lk.
    split_and!; [by rewrite fmap_app|by rewrite fmap_app|].
    by apply (state_next _ m _ cells _ R _ _ (trees cells) (Some (ANode q tok w []))). }
  destruct ((c_value <$> cells) !! i) as [[t|tok|]|] eqn:Ei; simplify_eq.
  - destruct (own_cell _ _ _ _ _ Hc Ei) as ([a|] & Hi & ->).
    + assert (Ha : a ∈ trees cells) by (apply list_elem_of_omap; exists (mkCell (Some (root a)) (Own (Some (erase a))) (Some a));
        split; [by eapply list_elem_of_lookup_2|done]).
      pose proof (tr_stored _ _ _ _ _ Ht) as Hst. apply Forall_app in Hst as [Hst _]. rewrite Forall_forall in Hst.
      specialize (Hst a Ha). destruct a as [p tok v cs]. inversion Hst as [? ? ? ? Hcore _ _ _]; subst.
      apply (Hnew p tok v); [by rewrite Hi|done|by right; eauto|done].
    + cbn [act]. rewrite (cell_var _ _ _ Hi). cbn.
      exists m, (cells ++ [mkCell None (Own None) None]), R, lk.
      split_and!; [by rewrite fmap_app|by rewrite fmap_app|].
      apply (state_next _ m _ cells _ R _ _ (trees cells) None); try done; [by intros ? ?|].
      apply (trees_mono n); [done|lia].
  - apply cell_value in Ei as ([p x o] & Hi & Hx). cbn in Hx. subst x.
    pose proof Hc as Hci. rewrite Forall_lookup in Hci. specialize (Hci i _ Hi). unfold cell_ok in Hci. cbn in Hci.
    destruct o; [done|]. destruct p as [p|]; [|done]. pose proof Hci as [[v Hcore] _].
    apply (Hnew p tok v); [by rewrite Hi|done|by left|done].
Qed.

(** A tree that goes from one variable to a new one. *)
Lemma transfer n m cells R lk i o :
  state_ok n m cells R lk → cells !! i = Some (mkCell (root <$> o) (Own (erase <$> o)) o) →
  ∃ cells', (c_ptr <$> cells) ++ [root <$> o] = c_ptr <$> cells' ∧
    c_value <$> cells' = <[i := Gone]> (c_value <$> cells) ++ [Own (erase <$> o)] ∧
    state_ok (n + 1) m cells' R lk.
Proof.
  intros [Ht Hc] Hi.
  assert (HF : trees cells ≡ₚ option_list o ++ trees (<[i := empty_cell]> cells)).
  { rewrite <-(list_insert_id cells i _ Hi) at 1. by rewrite (trees_at _ _ _ _ Hi). }
  exists (<[i := mkCell (root <$> o) Gone None]> cells ++ [mkCell (root <$> o) (Own (erase <$> o)) o]).
  split_and!.
  - rewrite fmap_app, list_fmap_insert. cbn. rewrite (list_insert_id _ i); [done|]. by rewrite list_lookup_fmap, Hi.
  - by rewrite fmap_app, list_fmap_insert.
  - apply (state_next _ m _ cells _ R _ _ (trees (<[i := empty_cell]> cells)) o); try done.
    + intros p tok. apply seen_perm. by rewrite HF, <-app_assoc.
    + by rewrite (trees_at _ _ _ _ Hi).
    + apply (trees_perm _ _ _ _ _ _ HF). apply (trees_mono n); [done|lia].
    + intros Hcells. by apply Forall_insert.
    + by destruct o.
Qed.

Lemma becomeRoot_step n m cells R lk i j env' :
  state_ok n m cells R lk → n + 1 < 2 ^ 31 → means (BecomeRoot i j) (c_value <$> cells) = Some env' →
  ∃ m' cells' R' lk', act (BecomeRoot i j) (m, c_ptr <$> cells) = Ok (m', c_ptr <$> cells') ∧
    c_value <$> cells' = env' ∧ state_ok (n + 1) m' cells' R' lk'.
Proof.
  intros Hs Hn. pose proof Hs as [Ht Hc]. cbn [means]. destruct (decide (i = j)) as [|Hij]; [done|].
  destruct ((c_value <$> cells) !! i) as [[t| |]|] eqn:Ei; [|done..].
  destruct (own_cell _ _ _ _ _ Hc Ei) as (oa & Hi & ->). destruct ((c_value <$> cells) !! j) as [[c| |]|] eqn:Ej.
  2-4: by destruct (erase <$> oa).
  destruct (own_cell _ _ _ _ _ Hc Ej) as (ob & Hj & ->). intros Hm.
  cbn [act]. rewrite (cell_var _ _ _ Hi), (cell_var _ _ _ Hj). cbn [mbind outcome_bind c_ptr].
  destruct oa as [a|]; [destruct ob as [b|]|]; cbn [fmap option_fmap option_map] in Hm |- *.
  - destruct (Tree.becomeRoot (Some (erase a)) (Some (erase b))) as [t| |] eqn:Et; [|done..].
    pose proof (trees_two _ _ _ _ _ Hi Hj Hij) as HF. cbn in HF.
    pose proof (trees_perm _ _ _ _ _ _ HF Ht) as Ht'.
    pose proof (becomeRoot_ok _ _ _ _ _ _ _ _ Ht' Hn Et) as Hb.
    destruct (Tree.isNilNode (erase a) && (1 <? length (Tree.children (erase a)))%nat).
    { destruct Hb as [-> ->]. injection Hm as <-. cbn [mbind outcome_bind].
      destruct (transfer _ _ _ _ _ _ _ Hs Hi) as (cells' & E & Ev & H').
      exists m, cells', R, lk. cbn in E. by rewrite E. }
    injection Hm as <-. destruct Hb as (m' & a' & R' & lk' & -> & -> & H' & He & Hseen). cbn [mbind outcome_bind].
    pose (cj' := mkCell (Some (root b)) (if Tree.isNilNode (erase b) then Gone else Seen (Tree.token (erase b))) None).
    pose (ci' := mkCell (Some (root a)) Gone None).
    exists m', (<[i := ci']> (<[j := cj']> cells) ++ [mkCell (Some (root a')) (Own (Some (erase a'))) (Some a')]), R', lk'.
    split_and!.
    + do 2 f_equal. rewrite fmap_app, !list_fmap_insert. cbn. rewrite (list_insert_id _ j), (list_insert_id _ i); [done|..];
        by rewrite list_lookup_fmap, ?Hi, ?Hj.
    + rewrite fmap_app, !list_fmap_insert. cbn. by rewrite list_insert_insert_ne by done.
    + apply (state_next _ m _ cells _ R _ _ (rest i j cells) (Some a')); try done.
      * eapply evolves_perm; [|reflexivity|exact He]. by rewrite HF.
      * by rewrite (trees_at_two _ _ _ _ _ _ _ Hi Hj Hij).
      * intros Hcells. apply Forall_insert; [apply Forall_insert; [done|]|done]. unfold cell_ok. cbn.
        unfold Tree.isNilNode. rewrite erase_token in *. destruct (atok b) as [tok|]; [|done]. apply Hseen. by eexists.
  - injection Hm as <-. destruct (transfer _ _ _ _ _ _ _ Hs Hi) as (cells' & E & Ev & H').
    exists m, cells', R, lk. cbn in E |- *. by rewrite E.
  - assert (env' = <[j := Gone]> (c_value <$> cells) ++ [Own (erase <$> ob)]) as -> by (by destruct ob; cbn in Hm; simplify_eq).
    destruct (transfer _ _ _ _ _ _ _ Hs Hj) as (cells' & E & Ev & H').
    exists m, cells', R, lk. cbn [becomeRoot mbind outcome_bind]. by rewrite E.
Qed.

Lemma act_ok n m cells R lk a env' :
  state_ok n m cells R lk → n + 1 < 2 ^ 31 → means a (c_value <$> cells) = Some env' →
  ∃ m' cells' R' lk', act a (m, c_ptr <$> cells) = Ok (m', c_ptr <$> cells') ∧
    c_value <$> cells' = env' ∧ state_ok (n + 1) m' cells' R' lk'.
Proof.
  destruct a as [tok|i j|i j|i|i]; intros Hs Hn Hm.
  - cbn in Hm. injection Hm as <-. by apply (create_step _ _ _ R lk).
  - by apply (addChild_step _ _ _ R lk).
  - by apply (becomeRoot_step _ _ _ R lk).
  - by apply (post_step _ _ _ R lk).
  - by apply (dup_step _ _ _ R lk).
Qed.
Lemma act_all_ok l n m cells R lk env' :
  state_ok n m cells R lk → n + Z.of_nat (length l) < 2 ^ 31 → means_all l (c_value <$> cells) = Some env' →
  ∃ m' cells' R' lk', act_all l (m, c_ptr <$> cells) = Ok (m', c_ptr <$> cells') ∧
    c_value <$> cells' = env' ∧ state_ok (n + Z.of_nat (length l)) m' cells' R' lk'.
Proof.
  revert n m cells R lk. induction l as [|a l IH]; intros n m cells R lk Hs Hn Hm.
  { injection Hm as <-. exists m, cells, R, lk. cbn. by rewrite Z.add_0_r. }
  cbn [means_all] in Hm. destruct (means a (c_value <$> cells)) as [env1|] eqn:Ea; [|done]. cbn in Hm, Hn.
  destruct (act_ok _ _ _ _ _ _ _ Hs ltac:(lia) Ea) as (m1 & cells1 & R1 & lk1 & E & Ev & H1).
  cbn [act_all]. rewrite E. cbn [mbind outcome_bind]. subst env1.
  destruct (IH _ _ _ _ _ H1 ltac:(lia) Hm) as (m' & cells' & R' & lk' & E' & Ev' & H').
  exists m', cells', R', lk'. split_and!; [done|done|].
  by replace (n + Z.of_nat (length (a :: l))) with (n + 1 + Z.of_nat (length l)) by (cbn; lia).
Qed.

(** What a state says of the variables. *)
Definition footprint (c : cell) : list tptr := match c_tree c with Some a => nodes a | None => [] end.
Lemma nodup_footprints cells : mjoin (footprint <$> cells) = nodes_of (trees cells).
Proof.
  induction cells as [|c cells IH]; [done|].
  change (mjoin (footprint <$> c :: cells)) with (footprint c ++ mjoin (footprint <$> cells)). rewrite IH.
  by destruct c as [? ? [a|]].
Qed.
Lemma state_holds n m cells R lk :
  state_ok n m cells R lk → holds_values m (c_ptr <$> cells) (c_value <$> cells).
Proof.
  intros [Ht Hc]. exists (footprint <$> cells).
  rewrite nodup_footprints, !length_fmap. split_and!; [|done|done|].
  { pose proof (tr_nodup _ _ _ _ _ Ht) as Hd. rewrite nodes_of_app in Hd. by apply NoDup_app in Hd as []. }
  intros i. destruct ((c_value <$> cells) !! i) as [x|] eqn:Ei; [|done].
  destruct x as [t|tok|]; [| |done].
  - destruct (own_cell _ _ _ _ _ Hc Ei) as (o & Hi & ->). rewrite !list_lookup_fmap, Hi. cbn.
    destruct o as [a|]; cbn; [|done]. exists (root a), (nodes a). split_and!; [done|done|].
    exists a. split_and!; [|done|done|done]. pose proof (tr_stored _ _ _ _ _ Ht) as Hst. rewrite Forall_forall in Hst.
    apply Hst, elem_of_app. left. apply list_elem_of_omap. eexists. split; [by eapply list_elem_of_lookup_2|done].
  - apply cell_value in Ei as ([p x o] & Hi & Hx). cbn in Hx. subst x. rewrite Forall_lookup in Hc.
    specialize (Hc i _ Hi). unfold cell_ok in Hc. cbn in Hc. destruct o; [done|]. destruct p as [p|]; [|done].
    destruct Hc as [[v Hv] _]. exists p, v. by rewrite list_lookup_fmap, Hi.
Qed.

Lemma empty_root_undefined n m cells R lk i j b :
  state_ok n m cells R lk → n < 2 ^ 31 → i ≠ j → (c_value <$> cells) !! i = Some (Own (Some Tree.nilNode)) →
  (c_value <$> cells) !! j = Some (Own (Some b)) → act (BecomeRoot i j) (m, c_ptr <$> cells) = Undef NullDeref.
Proof.
  intros [Ht Hc] Hn Hij Ei Ej.
  destruct (own_cell _ _ _ _ _ Hc Ei) as ([a|] & Hi & Ha); [|done].
  destruct (own_cell _ _ _ _ _ Hc Ej) as ([o|] & Hj & Ho); [|done].
  cbn [act]. rewrite (cell_var _ _ _ Hi), (cell_var _ _ _ Hj). cbn [mbind outcome_bind c_ptr fmap option_fmap option_map].
  pose proof (trees_perm _ _ _ _ _ _ (trees_two _ _ _ _ _ Hi Hj Hij) Ht) as Ht'. injection Ha as Ha.
  by rewrite (becomeRoot_empty _ _ _ (root o) _ _ _ Ht' Hn).
Qed.
Lemma act_all_snoc l a s : act_all (l ++ [a]) s = (s ← act_all l s; act a s).
Proof.
  revert s. induction l as [|x l IH]; intros s; cbn [act_all app mbind outcome_bind].
  - by destruct (act a s).
  - destruct (act x s); [|done..]. apply IH.
Qed.

(** C28: the trees that the adaptor builds in memory are the trees of the model. Take a
    program of calls of [create], [addChild], [becomeRoot], [rulePostProcessing] and
    [dupNode] that has a meaning ([means_all]): its variables are set before they are
    used, it puts no tree into itself, it uses no tree after it was put into another one
    or after it was given to [becomeRoot] as the new root or to [rulePostProcessing]
    (only [dupNode] may still copy a node that went into another tree), and it makes no
    nil node without children the root of a tree. Such a program runs to its end on a new
    factory, however nodes and vectors are handed over, given back and used again; its
    variables then hold the trees that the calls mean, without a node in common, and the
    nodes it remembers still have their tokens. And after any such program, making a nil
    node without children the root of another tree follows a null pointer. *)
Theorem programs_build l env m0 :
  means_all l [] = Some env → Z.of_nat (length l) < 2 ^ 31 → ArboretumNew = Ok m0 →
  (∃ m ptrs, act_all l (m0, []) = Ok (m, ptrs) ∧ holds_values m ptrs env) ∧
  ∀ i j b, i ≠ j → env !! i = Some (Own (Some Tree.nilNode)) → env !! j = Some (Own (Some b)) →
    act_all (l ++ [BecomeRoot i j]) (m0, []) = Undef NullDeref.
Proof.
  intros Hm Hl E0. destruct ArboretumNew_ok as (m1 & E1 & H1). assert (m1 = m0) as -> by congruence.
  destruct (act_all_ok l 0 m0 [] [] [] env) as (m & cells & R & lk & E & <- & Hs); [by split|lia|done|].
  split.
  - exists m, (c_ptr <$> cells). split; [done|]. by apply (state_holds _ _ _ _ _ Hs).
  - intros i j b Hij Hi Hj. rewrite act_all_snoc. cbn [fmap list_fmap] in E. rewrite E. cbn [mbind outcome_bind].
    by apply (empty_root_undefined _ _ _ _ _ _ _ b Hs).
Qed.

Lemma programs_build_witness :
  ∃ m0 m ptrs, ArboretumNew = Ok m0 ∧ means_all sample_program [] = Some sample_values ∧
    act_all sample_program (m0, []) = Ok (m, ptrs) ∧ holds_values m ptrs sample_values ∧
    act_all [Create None; Create (sample_token "a"); BecomeRoot 0 1] (m0, []) = Undef NullDeref.
Proof.
  destruct ArboretumNew_ok as (m0 & E0 & _).
  destruct (programs_build sample_program sample_values m0) as ((m & ptrs & E & H) & _); [reflexivity|done|exact E0|].
  destruct (programs_build [Create None; Create (sample_token "a")]
    [Own (Some Tree.nilNode); Own (Some (Tree.create (sample_token "a")))] m0) as (_ & Hu); [reflexivity|done|exact E0|].
  exists m0, m, ptrs. split_and!; [exact E0|reflexivity|exact E|exact H|].
  by apply (Hu 0%nat 1%nat (Tree.create (sample_token "a"))).
Defined.
