(* ===== verification/TreeCopy.v ===== *)
(** Reading, printing and copying the trees of [TreeStore]. *)
From S2P Require Import Prelude.
From S2P Require Import CppString.
From S2P Require Import Vector.
From S2P Require Import VectorFactory.
From S2P Require Import Lexer.
From S2P Require Import TreeStore.
From S2P Require Import TreeRefine.
From S2P Require Import TreePrograms.
From S2P Require Tree.

(** The text of a tree: a node without children is its text, another one is a list in
    parentheses, which a nil node has not. *)
Fixpoint print (t : Tree.BASE_TREE) : str :=
  match t with
  | Tree.Tree tok [] => Tree.tree_text (Tree.Tree tok [])
  | Tree.Tree None cs => join (lit " ") (map print cs)
  | Tree.Tree (Some tok) cs => lit "(" ++ tok_text tok ++ lit " " ++ join (lit " ") (map print cs) ++ lit ")"
  end.
Fixpoint height (t : Tree.BASE_TREE) : nat :=
  let 'Tree.Tree _ cs := t in S (list_max (map height cs)).
Fixpoint tree_size (t : Tree.BASE_TREE) : nat :=
  let 'Tree.Tree _ cs := t in S (list_sum (map tree_size cs)).

(** A node of the trees [l] with what is below it. *)
Inductive sub (l : list ATREE) : ATREE → Prop :=
| sub_here a : a ∈ l → sub l a
| sub_below a c : sub l a → c ∈ akids a → sub l c.

Lemma sub_mono l l' a : sub l a → (∀ x, x ∈ l → x ∈ l') → sub l' a.
Proof. induction 1; intros Hl; [apply sub_here; auto|eapply sub_below; eauto]. Qed.
Lemma stored_kids m a c : stored m a → c ∈ akids a → stored m c ∧ is_Some (atok c).
Proof. intros H (i & Hi)%list_elem_of_lookup. by apply (stored_child m a i). Qed.
Lemma sub_stored m l a : sub l a → Forall (stored m) l → stored m a.
Proof.
  induction 1 as [a Ha|a c Hs IH Hc]; intros Hl.
  - rewrite Forall_forall in Hl. auto.
  - by apply (stored_kids m a c); auto.
Qed.
Lemma sub_trees n m F R lk a : trees_ok n m F R lk → sub F a → stored m a.
Proof.
  intros H Ha. apply (sub_stored m F a Ha). pose proof (tr_stored _ _ _ _ _ H) as Hst.
  by apply Forall_app in Hst as [].
Qed.
Lemma kid_height c cs : c ∈ cs → (height (erase c) ≤ list_max (map height (map erase cs)))%nat.
Proof.
  intros Hc. pose proof (proj1 (list_max_le (map height (map erase cs)) _) (Nat.le_refl _)) as H.
  rewrite List.Forall_forall in H. apply H, in_map, in_map. by apply list_elem_of_In.
Qed.

(** ** Printing *)

Lemma toString_ok m a : stored m a → toString (root a) m = Ok (Tree.tree_text (Tree.dupNode (erase a))).
Proof.
  intros [p tok v cs Hc _ _ _]. apply core_node in Hc as (nd & En & Et & _).
  unfold toString. cbn [root]. rewrite En. cbn. by rewrite Et.
Qed.

Lemma string_children_ok prt n i m a :
  stored m a → (n + i = length (akids a))%nat →
  (∀ c, c ∈ akids a → prt (root c) = Ok (print (erase c))) →
  string_children prt n (Z.of_nat i) (root a) m
  = Ok ((if (0 <? Z.of_nat i) && (0 <? Z.of_nat n) then lit " " else []) ++
        join (lit " ") (map print (map erase (drop i (akids a))))).
Proof.
  intros H. revert i. induction n as [|n IH]; intros i Hn Hp; cbn [string_children].
  { rewrite drop_ge by lia. cbn. by rewrite andb_false_r. }
  rewrite (getChild_ok m a i H). destruct (lookup_lt_is_Some_2 (akids a) i) as [c Ec]; [lia|].
  rewrite Ec. cbn [mbind outcome_bind fmap option_fmap option_map deref].
  rewrite Hp by (by eapply list_elem_of_lookup_2). cbn [mbind outcome_bind].
  replace (Z.of_nat i + 1) with (Z.of_nat (S i)) by lia. rewrite IH by (done || lia). cbn [mbind outcome_bind].
  rewrite (drop_S _ c i) by done. do 2 f_equal.
  { destruct (0 <? Z.of_nat i); [|done]. by destruct (Z.ltb_spec 0 (Z.of_nat (S n))); [|lia]. }
  destruct (Z.ltb_spec 0 (Z.of_nat (S i))); [|lia]. cbn [andb map].
  destruct (Z.ltb_spec 0 (Z.of_nat n)).
  - destruct (drop (S i) (akids a)) as [|c' cs] eqn:Ed; [|done].
    assert (Hl : length (drop (S i) (akids a)) = 0%nat) by by rewrite Ed.
    rewrite length_drop in Hl. lia.
  - rewrite (drop_ge _ (S i)) by lia. cbn. by rewrite app_nil_r.
Qed.

Lemma toStringTree_ok fuel m a :
  stored m a → (height (erase a) ≤ fuel)%nat → toStringTree fuel m (root a) = Ok (print (erase a)).
Proof.
  revert a. induction fuel as [|fuel IH]; intros a H Hf; [destruct a; cbn in Hf; lia|].
  cbn [toStringTree]. rewrite (getChildCount_ok m a H). cbn [mbind outcome_bind].
  rewrite (toString_ok m a H), (isNilNode_ok m a H). destruct a as [p tok v cs] eqn:Ea. rewrite <-Ea in H.
  cbn [akids erase].
  destruct (Z.eqb_spec (Z.of_nat (length cs)) 0) as [E|E].
  { destruct cs; [|cbn in E; lia]. by destruct tok. }
  cbn [mbind outcome_bind]. change 0 with (Z.of_nat 0). rewrite <-Ea.
  rewrite string_children_ok; [|done|subst a; cbn; lia|].
  - cbn [mbind outcome_bind]. subst a. cbn [akids]. rewrite drop_0.
    change (0 <? Z.of_nat 0) with false. cbn [andb app].
    destruct cs as [|c cs]; [done|]. destruct tok as [tok|].
    + change (print _) with (lit "(" ++ tok_text tok ++ lit " " ++
        join (lit " ") (map print (map erase (c :: cs))) ++ lit ")"). cbn [Tree.isNilNode Tree.token].
      by rewrite <-!app_assoc.
    + change (print _) with (join (lit " ") (map print (map erase (c :: cs)))). cbn [Tree.isNilNode Tree.token].
      by rewrite app_nil_r.
  - intros c Hc. apply IH; [by apply (stored_kids m a c)|]. subst a. cbn in Hf, Hc.
    pose proof (kid_height c cs Hc). lia.
Qed.

(** ** Copying *)

Lemma dup_children_ok dup n m a F R lk k i x :
  (∀ c n m F R lk, c ∈ akids a → trees_ok n m F R lk → sub F a → n + 2 * Z.of_nat (tree_size (erase c)) < 2 ^ 31 →
     ∃ c' m' R' lk', dup (root c) m = Ok (root c', m') ∧ erase c' = erase c ∧
       trees_ok (n + 2 * Z.of_nat (tree_size (erase c)) - 1) m' (c' :: F) R' lk' ∧ evolves m (F ++ R) m' (c' :: F ++ R')) →
  trees_ok n m (x :: F) R lk → sub F a → (k + i = length (akids a))%nat →
  let cost := 2 * Z.of_nat (list_sum (map tree_size (map erase (drop i (akids a))))) in
  n + cost < 2 ^ 31 →
  ∃ x' m' R' lk', dup_children dup k (Z.of_nat i) (root a) (root x) m = Ok m' ∧ root x' = root x ∧
    erase x' = Tree.Tree (atok x) (map erase (akids x) ++ map erase (drop i (akids a))) ∧
    trees_ok (n + cost) m' (x' :: F) R' lk' ∧ evolves m (x :: F ++ R) m' (x' :: F ++ R').
Proof.
  intros Hdup. revert i n m R lk x. induction k as [|k IH]; intros i n m R lk x H Ha Hk cost Hn; cbn [dup_children].
  { subst cost. rewrite drop_ge in * by lia. exists x, m, R, lk. cbn in *. rewrite app_nil_r, !Z.add_0_r in *.
    split_and!; [done|done|by rewrite erase_node|done|by intros ? ?]. }
  assert (Hst : stored m a).
  { apply (sub_trees _ _ _ _ _ a H). apply (sub_mono F); [done|]. intros; by right. }
  rewrite (getChild_ok m a i Hst). destruct (lookup_lt_is_Some_2 (akids a) i) as [c Ec]; [lia|].
  rewrite Ec. cbn [mbind outcome_bind fmap option_fmap option_map].
  assert (Hc : c ∈ akids a) by by eapply list_elem_of_lookup_2.
  subst cost. rewrite (drop_S _ c i) in * by done. cbn [map list_sum foldr] in *.
  pose proof (Hdup c n m (x :: F) R lk Hc H) as Hd.
  destruct Hd as (c' & m1 & R1 & lk1 & E & Her & H1 & He1).
  { apply (sub_mono F); [done|]. intros; by right. }
  { unfold list_sum in Hn. cbn in Hn. lia. }
  rewrite E. cbn [mbind outcome_bind].
  apply (trees_perm _ _ _ (x :: c' :: F)) in H1; [|by rewrite Permutation_swap].
  destruct (addChild_ok _ _ _ _ _ _ _ H1) as (m2 & x1 & lk2 & E2 & Hr & Her2 & H2 & He2 & _).
  { unfold list_sum in Hn. cbn in Hn. lia. }
  rewrite E2. cbn [mbind outcome_bind]. replace (Z.of_nat i + 1) with (Z.of_nat (S i)) by lia.
  destruct (IH (S i) _ m2 R1 lk2 x1 H2 Ha) as (x' & m' & R' & lk' & E' & Hr' & Her' & H' & He').
  { lia. }
  { unfold list_sum in Hn |- *. cbn in Hn. lia. }
  rewrite <-Hr. exists x', m', R', lk'. split_and!; [done|done| | |].
  - assert (Hct : is_Some (atok c)) by by apply (stored_kids m a c).
    assert (Hax : atok x1 = atok x ∧ map erase (akids x1) = map erase (akids x) ++ [erase c]).
    { rewrite (erase_node x1) in Her2. unfold Tree.addChild in Her2.
      rewrite erase_token, erase_children, Her in Her2. unfold Tree.isNilNode in Her2. rewrite erase_token in Her2.
      destruct Hct as [tc Htc]. rewrite Htc in Her2. by injection Her2 as ? ?. }
    destruct Hax as [<- Hx]. rewrite Her', Hx, <-app_assoc. done.
  - eapply trees_mono; [exact H'|]. unfold list_sum. cbn. lia.
  - eapply evolves_trans; [|exact He']. eapply evolves_trans; [exact He1|].
    eapply evolves_perm; [|reflexivity|exact He2]. by rewrite Permutation_swap.
Qed.

Lemma tree_size_pos t : (0 < tree_size t)%nat.
Proof. destruct t. cbn. lia. Qed.
Lemma length_le_sum cs : (length cs ≤ list_sum (map tree_size (map erase cs)))%nat.
Proof.
  induction cs as [|c cs IH]; [done|]. pose proof (tree_size_pos (erase c)).
  change (list_sum (map tree_size (map erase (c :: cs))))
    with (tree_size (erase c) + list_sum (map tree_size (map erase cs)))%nat. cbn [length]. lia.
Qed.

(** A node for the copy, and its children. *)
Lemma copy_node dup n m a F R lk :
  trees_ok n m F R lk → sub F a → n + 2 * Z.of_nat (tree_size (erase a)) < 2 ^ 31 →
  (∀ c n m F R lk, c ∈ akids a → trees_ok n m F R lk → sub F a → n + 2 * Z.of_nat (tree_size (erase c)) < 2 ^ 31 →
     ∃ c' m' R' lk', dup (root c) m = Ok (root c', m') ∧ erase c' = erase c ∧
       trees_ok (n + 2 * Z.of_nat (tree_size (erase c)) - 1) m' (c' :: F) R' lk' ∧ evolves m (F ++ R) m' (c' :: F ++ R')) →
  ∃ q w m1 R1, dupNode (root a) m = Ok (q, m1) ∧ trees_ok (n + 1) m1 (ANode q (atok a) w [] :: F) R1 lk ∧
    (∀ m0, skeleton m1 m0 →
     ∃ a' m' R' lk',
       dup_children dup (length (akids a)) 0 (root a) q m0 = Ok m' ∧ root a' = q ∧ erase a' = erase a ∧
       trees_ok (n + 2 * Z.of_nat (tree_size (erase a)) - 1) m' (a' :: F) R' lk' ∧ evolves m (F ++ R) m' (a' :: F ++ R')).
Proof.
  intros H Ha Hn Hdup. pose proof (sub_trees _ _ _ _ _ _ H Ha) as Hst.
  assert (Hcore : core m (root a) = Some (atok a, avec a)) by by destruct Hst.
  assert (Hdn : ∃ q w m1 R1, dupNode (root a) m = Ok (q, m1) ∧ trees_ok (n + 1) m1 (ANode q (atok a) w [] :: F) R1 lk ∧
    evolves m (F ++ R) m1 (ANode q (atok a) w [] :: F ++ R1)).
  { pose proof (tree_size_pos (erase a)).
    unfold dupNode, newFromTree. destruct (create_ok _ _ _ _ _ (atok a) H) as (q & w & m1 & R1 & E & H1 & He); [lia|].
    unfold create, newFromToken in E. destruct (newPoolTree_ok _ _ _ _ _ H) as (q1 & w1 & m2 & R2 & E1 & H2 & He2); [lia|].
    rewrite E1 in E |- *. cbn [mbind outcome_bind] in *.
    assert (Hst2 : stored m2 a).
    { apply (sub_trees _ _ _ _ _ a H2). apply (sub_mono F); [done|]. intros; by right. }
    assert (Hc2 : core m2 (root a) = Some (atok a, avec a)) by by destruct Hst2.
    apply core_node in Hc2 as (nd & -> & Et & _). cbn [mbind outcome_bind]. rewrite Et. eauto 10. }
  destruct Hdn as (q & w & m1 & R1 & E & H1 & He). exists q, w, m1, R1. split_and!; [done|done|]. intros m0 Hsk.
  pose proof (trees_skeleton _ _ _ _ _ _ Hsk H1) as H0.
  assert (Hsize : tree_size (erase a) = S (list_sum (map tree_size (map erase (akids a))))) by by rewrite erase_node.
  pose proof (length_le_sum (akids a)) as Hlen.
  destruct (dup_children_ok dup (n + 1) m0 a F R1 lk (length (akids a)) 0 (ANode q (atok a) w []))
    as (a' & m' & R' & lk' & E' & Hr & Her & H' & He'); [done|done|done|lia|rewrite drop_0; lia|].
  exists a', m', R', lk'. split_and!; [done|done| | |].
  - rewrite Her, (erase_node a), drop_0. done.
  - eapply trees_mono; [exact H'|]. rewrite drop_0. lia.
  - eapply evolves_trans; [exact He|]. eapply evolves_trans; [by apply seen_skeleton|exact He'].
Qed.

Lemma dupTree_ok fuel n m a F R lk :
  trees_ok n m F R lk → sub F a → (height (erase a) ≤ fuel)%nat → n + 2 * Z.of_nat (tree_size (erase a)) < 2 ^ 31 →
  ∃ a' m' R' lk', dupTree fuel (root a) m = Ok (root a', m') ∧ erase a' = erase a ∧
    trees_ok (n + 2 * Z.of_nat (tree_size (erase a)) - 1) m' (a' :: F) R' lk' ∧ evolves m (F ++ R) m' (a' :: F ++ R').
Proof.
  revert n m a F R lk. induction fuel as [|fuel IH]; intros n m a F R lk H Ha Hf Hn.
  { rewrite erase_node in Hf. cbn in Hf. lia. }
  cbn [dupTree].
  destruct (copy_node (dupTree fuel) n m a F R lk H Ha Hn) as (q & w & m1 & R1 & -> & H1 & Hrest).
  { intros c n' m' F' R' lk' Hc H' Hs. apply (IH n' m' c F' R' lk'); [done|by apply (sub_below _ a)|]. rewrite erase_node in Hf. cbn in Hf.
    pose proof (kid_height c (akids a) Hc). lia. }
  cbn [mbind outcome_bind].
  assert (Hst1 : stored m1 a).
  { apply (sub_trees _ _ _ _ _ a H1). apply (sub_mono F); [done|]. intros; by right. }
  rewrite (getChildCount_ok m1 a Hst1). cbn [mbind outcome_bind]. rewrite Nat2Z.id.
  destruct (Hrest m1) as (a' & m' & R' & lk' & -> & Hr & Her & H' & He); [by split_and!|]. cbn [mbind outcome_bind].
  exists a', m', R', lk'. by rewrite Hr.
Qed.

Lemma dupTreeTT_ok fuel n m a F R lk par :
  trees_ok n m F R lk → sub F a → (height (erase a) ≤ fuel)%nat → n + 2 * Z.of_nat (tree_size (erase a)) < 2 ^ 31 →
  match par with None => True | Some q => ∃ b, sub F b ∧ root b = q end →
  ∃ a' m' R' lk', dupTreeTT fuel (root a) par m = Ok (root a', m') ∧ erase a' = erase a ∧
    trees_ok (n + 2 * Z.of_nat (tree_size (erase a)) - 1) m' (a' :: F) R' lk' ∧ evolves m (F ++ R) m' (a' :: F ++ R').
Proof.
  revert n m a F R lk par. induction fuel as [|fuel IH]; intros n m a F R lk par H Ha Hf Hn Hpar.
  { rewrite erase_node in Hf. cbn in Hf. lia. }
  cbn [dupTreeTT]. set (dup := λ child m, dupTreeTT fuel child (Some (root a)) m).
  destruct (copy_node dup n m a F R lk H Ha Hn) as (q & w & m1 & R1 & -> & H1 & Hrest).
  { intros c n' m' F' R' lk' Hc H' Hs. unfold dup.
    intros Hsz. apply (IH n' m' c F' R' lk' (Some (root a))); [done|by apply (sub_below _ a)| |done|eauto].
    rewrite erase_node in Hf. cbn in Hf. pose proof (kid_height c (akids a) Hc). lia. }
  cbn [mbind outcome_bind].
  assert (Hsub : ∀ x, sub F x → sub (ANode q (atok a) w [] :: F) x).
  { intros x Hx. apply (sub_mono F); [done|]. intros; by right. }
  assert (Hlive : ∀ m', skeleton m1 m' → ∀ x, sub (ANode q (atok a) w [] :: F) x → ∃ nd, node m' (root x) = Ok nd).
  { intros m' Hsk x Hx. apply (live_node m' x). apply (sub_trees _ _ _ _ _ _ (trees_skeleton _ _ _ _ _ _ Hsk H1) Hx). }
  assert (Hid : skeleton m1 m1) by by split_and!.
  assert (Hq : sub (ANode q (atok a) w [] :: F) (ANode q (atok a) w [])) by (apply sub_here; left).
  destruct (Hlive m1 Hid a (Hsub a Ha)) as [na Ena]. unfold getChildIndex. rewrite Ena. cbn [fmap outcome_fmap mbind outcome_bind].
  destruct (Hlive m1 Hid _ Hq) as [nq Enq]. cbn [root] in Enq.
  destruct (change_skeleton m1 q nq (set_childIndex (childIndex na)) Enq) as (m2 & E2 & S2); [done|].
  unfold setChildIndex. rewrite E2. cbn [mbind outcome_bind].
  destruct (Hlive m2 S2 _ Hq) as [nq2 Enq2]. cbn [root] in Enq2.
  assert (∃ x, match par with None => Ok None | Some q => n ← node m2 q; Ok (parent n) end = Ok x) as [x Ex].
  { destruct par as [r|]; [|eauto]. destruct Hpar as (b & Hb & <-).
    destruct (Hlive m2 S2 b (Hsub b Hb)) as [nb ->]. cbn. eauto. }
  unfold setParent. rewrite Ex. cbn [mbind outcome_bind].
  destruct (change_skeleton m2 q nq2 (set_parent x) Enq2) as (m3 & -> & S3); [done|]. cbn [mbind outcome_bind].
  pose proof (skeleton_trans _ _ _ S2 S3) as S.
  assert (Hst : stored m3 a) by (apply (sub_trees _ _ _ _ _ _ (trees_skeleton _ _ _ _ _ _ S H1)), Hsub, Ha).
  rewrite (getChildCount_ok m3 a Hst). cbn [mbind outcome_bind]. rewrite Nat2Z.id.
  destruct (Hrest m3 S) as (a' & m' & R' & lk' & -> & Hr & Her & H' & He). cbn [mbind outcome_bind].
  exists a', m', R', lk'. by rewrite Hr.
Qed.

(** A copy is a new variable. *)
Lemma copied_state n n' m cells R lk i a m' a' R' lk' t :
  state_ok n m cells R lk → cells !! i = Some (mkCell (Some (root a)) (Own (Some t)) (Some a)) →
  erase a' = t → trees_ok n' m' (a' :: trees cells) R' lk' → evolves m (trees cells ++ R) m' (a' :: trees cells ++ R') →
  holds_values m' ((c_ptr <$> cells) ++ [Some (root a')]) ((c_value <$> cells) ++ [Own (Some t)]).
Proof.
  intros [Ht Hc] Hi <- H' He.
  assert (Hs : state_ok n' m' (cells ++ [mkCell (Some (root a')) (Own (Some (erase a'))) (Some a')]) R' lk')
    by by apply (state_next _ m _ cells _ R _ _ (trees cells) (Some a')).
  apply state_holds in Hs. by rewrite !fmap_app in Hs.
Qed.

(** C29: copying a tree that a program has built: both [dupTree] of a node and the one
    of the adaptor return, on as much fuel as the tree is high, a tree with the same
    tokens and children, down to the leaves, which shares no node with any tree there
    was, and every variable still holds what it did; the text of the tree and of the
    copy is the one that its structure says. *)
Theorem dupTree_copy l env m0 m ptrs i t p fuel :
  means_all l [] = Some env → ArboretumNew = Ok m0 → act_all l (m0, []) = Ok (m, ptrs) →
  env !! i = Some (Own (Some t)) → ptrs !! i = Some (Some p) → (height t ≤ fuel)%nat →
  Z.of_nat (length l) + 2 * Z.of_nat (tree_size t) < 2 ^ 31 →
  toStringTree fuel m p = Ok (print t) ∧
  (∃ q m', dupTree fuel p m = Ok (q, m') ∧ toStringTree fuel m' q = Ok (print t) ∧
     holds_values m' (ptrs ++ [Some q]) (env ++ [Own (Some t)])) ∧
  ∃ q m', adaptor_dupTree fuel (Some p) m = Ok (Some q, m') ∧ toStringTree fuel m' q = Ok (print t) ∧
     holds_values m' (ptrs ++ [Some q]) (env ++ [Own (Some t)]).
Proof.
  intros Hm E0 E Hi Hp Hf Hn. destruct ArboretumNew_ok as (m1 & E1 & H1). assert (m1 = m0) as -> by congruence.
  destruct (act_all_ok l 0 m0 [] [] [] env) as (m2 & cells & R & lk & E2 & <- & Hs); [by split|lia|done|].
  cbn in E2. rewrite E in E2. injection E2 as <- ->.
  destruct (own_cell _ _ _ _ _ (s_cells _ _ _ _ _ Hs) Hi) as ([a|] & Hcell & Ht); [|done].
  cbn in Hcell, Ht. injection Ht as ->. rewrite list_lookup_fmap, Hcell in Hp. injection Hp as <-.
  assert (Ha : sub (trees cells) a).
  { apply sub_here, list_elem_of_omap. eexists. split; [by eapply list_elem_of_lookup_2|done]. }
  pose proof (s_trees _ _ _ _ _ Hs) as Htr. rewrite Z.add_0_l in Htr.
  assert (Htext : ∀ n m' a' R' lk', trees_ok n m' (a' :: trees cells) R' lk' → erase a' = erase a →
    toStringTree fuel m' (root a') = Ok (print (erase a))).
  { intros n m' a' R' lk' H' Her. rewrite <-Her. apply toStringTree_ok; [|by rewrite Her].
    apply (sub_trees _ _ _ _ _ _ H'). apply sub_here. left. }
  split_and!.
  - apply toStringTree_ok; [|done]. by apply (sub_trees _ _ _ _ _ _ Htr).
  - destruct (dupTree_ok fuel _ _ a _ _ _ Htr Ha Hf Hn) as (a' & m' & R' & lk' & Ed & Her & H' & He).
    exists (root a'), m'. split_and!; [done|by eapply Htext|]. by eapply copied_state.
  - destruct (dupTreeTT_ok fuel _ _ a _ _ _ None Htr Ha Hf Hn) as (a' & m' & R' & lk' & Ed & Her & H' & He); [done|].
    exists (root a'), m'. cbn [adaptor_dupTree]. rewrite Ed. split_and!; [done|by eapply Htext|]. by eapply copied_state.
Qed.

Lemma sample_runs :
  ∃ m0 m ptrs p, ArboretumNew = Ok m0 ∧ act_all sample_program (m0, []) = Ok (m, ptrs) ∧ ptrs !! 9%nat = Some (Some p).
Proof. do 4 eexists. split_and!; [vm_compute; reflexivity|vm_compute; reflexivity|reflexivity]. Qed.
(** The tree of [TreePrograms], as it lies in memory. *)
Lemma sample_stored : ∃ m0 m ptrs p q1 q2 v v1 v2,
  let a := ANode p (sample_token "c") v [ANode q1 (sample_token "a") v1 []; ANode q2 (sample_token "b") v2 []] in
  ArboretumNew = Ok m0 ∧ act_all sample_program (m0, []) = Ok (m, ptrs) ∧ ptrs !! 9%nat = Some (Some p) ∧
  stored m a ∧ NoDup (nodes a).
Proof.
  destruct ArboretumNew_ok as (m0 & E0 & H0).
  destruct (act_all_ok sample_program 0 m0 [] [] [] sample_values) as (m & cells & R & lk & E & Ev & Hs);
    [by split|done|reflexivity|].
  assert ((c_value <$> cells) !! 9%nat = Some (Own (Some sample_tree))) as Hi by by rewrite Ev.
  destruct (own_cell _ _ _ _ _ (s_cells _ _ _ _ _ Hs) Hi) as ([a|] & Hcell & Ht); [|done]. injection Ht as Ht.
  cbn in Hcell.
  assert (a ∈ trees cells) as Ha.
  { apply list_elem_of_omap. eexists. split; [by eapply list_elem_of_lookup_2|done]. }
  pose proof (s_trees _ _ _ _ _ Hs) as Htr.
  pose proof (sub_trees _ _ _ _ _ _ Htr (sub_here _ _ Ha)) as Hst.
  assert (NoDup (nodes a)) as Hd.
  { pose proof (tr_nodup _ _ _ _ _ Htr) as Hd. rewrite nodes_of_app in Hd. apply NoDup_app in Hd as [Hd _].
    apply list_elem_of_split in Ha as (l1 & l2 & El). rewrite El, nodes_of_app in Hd.
    apply NoDup_app in Hd as (_ & _ & Hd). unfold nodes_of in Hd. cbn in Hd. by apply NoDup_app in Hd as []. }
  destruct a as [p tok v [|[q1 t1 v1 [|? ?]] [|[q2 t2 v2 [|? ?]] [|? ?]]]]; try done.
  cbn in Ht. injection Ht as <- <- <-. exists m0, m, (c_ptr <$> cells), p, q1, q2, v, v1, v2.
  split_and!; [done|done|by rewrite list_lookup_fmap, Hcell|done|done].
Qed.

Lemma dupTree_copy_witness :
  ∃ m0 m ptrs p, act_all sample_program (m0, []) = Ok (m, ptrs) ∧ toStringTree 2 m p = Ok (lit "(c a b)") ∧
    ∃ q m', dupTree 2 p m = Ok (q, m') ∧ toStringTree 2 m' q = Ok (lit "(c a b)").
Proof.
  destruct sample_runs as (m0 & m & ptrs & p & E0 & E & Hp).
  destruct (dupTree_copy sample_program sample_values m0 m ptrs 9 sample_tree p 2)
    as (Ht & (q & m' & Ed & Ht' & _) & _); [reflexivity|exact E0|exact E|reflexivity|exact Hp|apply Nat.le_refl|reflexivity|].
  exists m0, m, ptrs, p. split_and!; [exact E|exact Ht|]. exists q, m'. split; [exact Ed|exact Ht'].
Defined.

(** ** Defects *)

(** A node [r] with the children [a] and [b], and a list of [x] and [y]. *)
Definition sample_children : outcome (tptr * tptr * ARBORETUM) :=
  m ← ArboretumNew;
  '(r, m) ← create (sample_token "r") m;
  '(a, m) ← create (sample_token "a") m; m ← addChild r (Some a) m;
  '(b, m) ← create (sample_token "b") m; m ← addChild r (Some b) m;
  '(new, m) ← nilNode m;
  '(x, m) ← create (sample_token "x") m; m ← addChild new (Some x) m;
  '(y, m) ← create (sample_token "y") m; m ← addChild new (Some y) m;
  Ok (r, new, m).
Definition replaced (start stop : Z) : outcome str :=
  '(r, new, m) ← sample_children;
  m ← replaceChildren r start stop new m;
  toStringTree 2 m r.

(** Replacing as many children as there are new ones puts the first of these in every
    place; when there are more new ones, the rest goes behind the last child and not to
    its place; a child does not know its parent, since [setParent] stores the parent's
    parent, and [getParent] does not test for that; and [addChild] leaves the index of
    the child as it was. *)
Theorem tree_defects :
  replaced 0 1 = Ok (lit "(r x x)") ∧ replaced 0 0 = Ok (lit "(r x b y)") ∧
  ('(r, _, m) ← sample_children;
   c ← getChild r 1 m;
   c ← deref c;
   i ← getChildIndex c m;
   m ← freshenPACIndexesAll r m;
   j ← getChildIndex c m;
   Ok (i, j, getParent c m)) = Ok (-1, 1, Undef NullDeref).
Proof. split_and!; vm_compute; reflexivity. Qed.
