(* ===== verification/NodeStream.v ===== *)
(** Streams of tree nodes: src/antlr/libantlr3c-3.4/src/antlr3commontreenodestream.c,
    over the trees in memory of [TreeStore]. A stream writes a tree down as the
    list of its nodes, with nodes that say where the children of a node begin
    and end; a tree parser reads that list. *)
From S2P Require Import Prelude.
From S2P Require Import CppString.
From S2P Require Import Vector.
From S2P Require Import TokenBuffer.
From S2P Require Lexer.
From S2P Require Import TreeStore.
From S2P Require RtString.

(** ** Nodes and streams *)

Definition ANTLR3_TOKEN_DOWN : Z := 2.
Definition ANTLR3_TOKEN_UP : Z := 3.
Definition DEFAULT_INITIAL_BUFFER_SIZE : Z := 100.
Definition INITIAL_CALL_STACK_SIZE : Z := 10.

(** A pointer to a node: a node of the tree, one of the four nodes inside the
    structure of the stream, or a node that was made for navigation, with its
    number among those. *)
Inductive NODE : Type :=
| InTree (t : tptr)
| DOWN | UP | EOF_NODE | INVALID_NODE
| Unique (n : nat) (ttype : Z).
#[export] Instance NODE_eq_dec : EqDecision NODE.
Proof. solve_decision. Defined.

(** [nodeStack] is a place in the memory of stacks, which a stream that rewrites
    shares with its origin; [uniques] counts the nodes that were made. *)
Record COMMON_TREE_NODE_STREAM : Type := mkStream {
  root : option tptr;
  nodes : VECTOR NODE;
  uniqueNavigationNodes : bool;
  uniques : nat;
  nodeStack : nat;
  p : Z;
  lastMarker : Z;
  isRewriter : bool
}.
Definition set_nodes x (s : COMMON_TREE_NODE_STREAM) : COMMON_TREE_NODE_STREAM :=
  mkStream (root s) x (uniqueNavigationNodes s) (uniques s) (nodeStack s) (p s) (lastMarker s) (isRewriter s).
Definition set_unique x (s : COMMON_TREE_NODE_STREAM) : COMMON_TREE_NODE_STREAM :=
  mkStream (root s) (nodes s) x (uniques s) (nodeStack s) (p s) (lastMarker s) (isRewriter s).
Definition set_uniques x (s : COMMON_TREE_NODE_STREAM) : COMMON_TREE_NODE_STREAM :=
  mkStream (root s) (nodes s) (uniqueNavigationNodes s) x (nodeStack s) (p s) (lastMarker s) (isRewriter s).
Definition set_nodeStack x (s : COMMON_TREE_NODE_STREAM) : COMMON_TREE_NODE_STREAM :=
  mkStream (root s) (nodes s) (uniqueNavigationNodes s) (uniques s) x (p s) (lastMarker s) (isRewriter s).
Definition set_p x (s : COMMON_TREE_NODE_STREAM) : COMMON_TREE_NODE_STREAM :=
  mkStream (root s) (nodes s) (uniqueNavigationNodes s) (uniques s) (nodeStack s) x (lastMarker s) (isRewriter s).
Definition set_lastMarker x (s : COMMON_TREE_NODE_STREAM) : COMMON_TREE_NODE_STREAM :=
  mkStream (root s) (nodes s) (uniqueNavigationNodes s) (uniques s) (nodeStack s) (p s) x (isRewriter s).

(** The stacks of the streams; a place is empty once its stack was freed. *)
Definition STACKS : Type := list (option (STACK Z)).
Definition the_stack (i : nat) (st : STACKS) : outcome (STACK Z) :=
  match st !! i with Some (Some s) => Ok s | Some None => Undef UseAfterFree | None => Undef BadIndex end.

(** [antlr3CommonTreeNodeStreamNew], [antlr3CommonTreeNodeStreamNewTree] *)
Definition CommonTreeNodeStreamNew (hint : Z) (st : STACKS) : COMMON_TREE_NODE_STREAM * STACKS :=
  let hint := if hint =? 0 then DEFAULT_INITIAL_BUFFER_SIZE else hint in
  (mkStream None (VectorNew hint) false 0 (length st) (-1) 0 false,
   st ++ [Some (StackNew INITIAL_CALL_STACK_SIZE)]).
Definition CommonTreeNodeStreamNewTree (tree : tptr) (hint : Z) (st : STACKS)
    : COMMON_TREE_NODE_STREAM * STACKS :=
  let '(s, st) := CommonTreeNodeStreamNew hint st in
  (mkStream (Some tree) (nodes s) (uniqueNavigationNodes s) (uniques s) (nodeStack s) (p s)
     (lastMarker s) (isRewriter s), st).
(** [antlr3CommonTreeNodeStreamNewStream] *)
Definition CommonTreeNodeStreamNewStream (inStream : COMMON_TREE_NODE_STREAM)
    : COMMON_TREE_NODE_STREAM :=
  mkStream (root inStream) (VectorNew DEFAULT_INITIAL_BUFFER_SIZE) false 0 (nodeStack inStream) (-1) 0 true.

Definition free_stack (i : nat) (st : STACKS) : outcome STACKS :=
  s ← the_stack i st;
  _ ← StackFree s;
  Ok (<[i := None]> st).
(** [antlr3CommonTreeNodeStreamFree]: the nodes that the vector releases, and the
    stacks. A stream that rewrites leaves the stack, and the tokens of its four
    nodes, to its origin. *)
Definition CommonTreeNodeStreamFree (s : COMMON_TREE_NODE_STREAM) (st : STACKS)
    : outcome (list (option NODE) * STACKS) :=
  st ← (if isRewriter s then Ok st else free_stack (nodeStack s) st);
  '(freed, _) ← VectorFree (nodes s);
  Ok (freed, st).

(** ** Filling the buffer *)

Definition newNavigationNode (ttype : Z) (s : COMMON_TREE_NODE_STREAM)
    : NODE * COMMON_TREE_NODE_STREAM :=
  (Unique (uniques s) ttype, set_uniques (S (uniques s)) s).
Definition newDownNode (s : COMMON_TREE_NODE_STREAM) : NODE * COMMON_TREE_NODE_STREAM :=
  newNavigationNode ANTLR3_TOKEN_DOWN s.
Definition newUpNode (s : COMMON_TREE_NODE_STREAM) : NODE * COMMON_TREE_NODE_STREAM :=
  newNavigationNode ANTLR3_TOKEN_UP s.
Definition hasUniqueNavigationNodes (s : COMMON_TREE_NODE_STREAM) : bool := uniqueNavigationNodes s.
Definition setUniqueNavigationNodes (b : bool) (s : COMMON_TREE_NODE_STREAM) : COMMON_TREE_NODE_STREAM :=
  set_unique b s.

Definition add_node (n : NODE) (s : COMMON_TREE_NODE_STREAM) : outcome COMMON_TREE_NODE_STREAM :=
  '(_, v) ← VectorAdd (nodes s) (Some n) false;
  Ok (set_nodes v s).
Definition addNavigationNode (ttype : Z) (s : COMMON_TREE_NODE_STREAM)
    : outcome COMMON_TREE_NODE_STREAM :=
  let '(n, s) :=
    if ttype =? ANTLR3_TOKEN_DOWN
    then if hasUniqueNavigationNodes s then newDownNode s else (DOWN, s)
    else if hasUniqueNavigationNodes s then newUpNode s else (UP, s) in
  add_node n s.

(** The loop of [fillBuffer] over the children. *)
Fixpoint fill_children (fill : tptr → COMMON_TREE_NODE_STREAM → outcome COMMON_TREE_NODE_STREAM)
    (n : nat) (c : Z) (t : tptr) (m : ARBORETUM) (s : COMMON_TREE_NODE_STREAM)
    : outcome COMMON_TREE_NODE_STREAM :=
  match n with
  | O => Ok s
  | S n =>
      child ← getChild t c m;
      child ← deref child;
      s ← fill child s;
      fill_children fill n (c + 1) t m s
  end.
(** [fuel] is the height of the tree. *)
Fixpoint fillBuffer (fuel : nat) (m : ARBORETUM) (t : tptr) (s : COMMON_TREE_NODE_STREAM)
    : outcome COMMON_TREE_NODE_STREAM :=
  match fuel with
  | O => Undef NoFuel
  | S fuel =>
      nilNode ← isNilNode t m;
      s ← (if nilNode : bool then Ok s else add_node (InTree t) s);
      nCount ← getChildCount t m;
      s ← (if negb nilNode && (0 <? nCount) then addNavigationNode ANTLR3_TOKEN_DOWN s else Ok s);
      s ← fill_children (fillBuffer fuel m) (Z.to_nat nCount) 0 t m s;
      if negb nilNode && (0 <? nCount) then addNavigationNode ANTLR3_TOKEN_UP s else Ok s
  end.
Definition fillBufferRoot (fuel : nat) (m : ARBORETUM) (s : COMMON_TREE_NODE_STREAM)
    : outcome COMMON_TREE_NODE_STREAM :=
  t ← deref (root s);
  s ← fillBuffer fuel m t s;
  Ok (set_p 0 s).

(** What most functions start with. *)
Definition filled (fuel : nat) (m : ARBORETUM) (s : COMMON_TREE_NODE_STREAM)
    : outcome COMMON_TREE_NODE_STREAM :=
  if p s =? -1 then fillBufferRoot fuel m s else Ok s.

(** ** Reading *)

Definition LB (k : Z) (s : COMMON_TREE_NODE_STREAM) : outcome (option NODE) :=
  if k =? 0 then Ok (Some INVALID_NODE)
  else
    i ← int_op (p s - k);
    if i <? 0 then Ok (Some INVALID_NODE) else VectorGet (nodes s) (u32 i).
Definition LT (fuel : nat) (m : ARBORETUM) (k : Z) (s : COMMON_TREE_NODE_STREAM)
    : outcome (option NODE * COMMON_TREE_NODE_STREAM) :=
  s ← filled fuel m s;
  if k <? 0 then
    k' ← int_op (- k);
    n ← LB k' s;
    Ok (n, s)
  else if k =? 0 then Ok (Some INVALID_NODE, s)
  else
    i ← int_op (p s + k);
    i ← int_op (i - 1);
    if sint 32 (count (nodes s)) <=? i then Ok (Some EOF_NODE, s)
    else n ← VectorGet (nodes s) (u32 i); Ok (n, s).

(** The types of nodes, [getType] of the tokens of the stream. *)
Definition node_type (m : ARBORETUM) (n : NODE) : outcome Z :=
  match n with
  | InTree t => getType t m
  | DOWN => Ok ANTLR3_TOKEN_DOWN
  | UP => Ok ANTLR3_TOKEN_UP
  | EOF_NODE => Ok ANTLR3_TOKEN_EOF
  | INVALID_NODE => Ok ANTLR3_TOKEN_INVALID
  | Unique _ ttype => Ok ttype
  end.
Definition getToken (t : tptr) (m : ARBORETUM) : outcome (option Lexer.COMMON_TOKEN) :=
  token <$> node m t.
(** The texts of nodes; the token of a node that was made for navigation knows no
    factory of strings. *)
Definition node_text (m : ARBORETUM) (n : NODE) : outcome (option str) :=
  match n with
  | InTree t => Some <$> TreeStore.toString t m
  | DOWN => Ok (Some (lit "DOWN"))
  | UP => Ok (Some (lit "UP"))
  | EOF_NODE => Ok (Some (lit "EOF"))
  | INVALID_NODE => Ok (Some (lit "INVALID"))
  | Unique _ _ => Ok None
  end.
Definition LA (fuel : nat) (m : ARBORETUM) (i : Z) (s : COMMON_TREE_NODE_STREAM)
    : outcome (Z * COMMON_TREE_NODE_STREAM) :=
  '(t, s) ← LT fuel m i s;
  match t with
  | None => Ok (ANTLR3_TOKEN_INVALID, s)
  | Some t => ty ← node_type m t; Ok (ty, s)
  end.
Definition consume (fuel : nat) (m : ARBORETUM) (s : COMMON_TREE_NODE_STREAM)
    : outcome COMMON_TREE_NODE_STREAM :=
  s ← filled fuel m s;
  i ← int_op (p s + 1);
  Ok (set_p i s).
Definition get (fuel : nat) (m : ARBORETUM) (k : Z) (s : COMMON_TREE_NODE_STREAM)
    : outcome (option NODE * COMMON_TREE_NODE_STREAM) :=
  s ← filled fuel m s;
  n ← VectorGet (nodes s) (u32 k);
  Ok (n, s).
Definition size (fuel : nat) (m : ARBORETUM) (s : COMMON_TREE_NODE_STREAM)
    : outcome (Z * COMMON_TREE_NODE_STREAM) :=
  s ← filled fuel m s;
  Ok (VectorSize (nodes s), s).

(** ** Marks *)

Definition tindex (s : COMMON_TREE_NODE_STREAM) : Z := p s.
Definition mark (fuel : nat) (m : ARBORETUM) (s : COMMON_TREE_NODE_STREAM)
    : outcome (Z * COMMON_TREE_NODE_STREAM) :=
  s ← filled fuel m s;
  let s := set_lastMarker (tindex s) s in
  Ok (lastMarker s, s).
Definition release (marker : Z) (s : COMMON_TREE_NODE_STREAM) : COMMON_TREE_NODE_STREAM := s.
(** The index is made unsigned and signed again. *)
Definition seek (i : Z) (s : COMMON_TREE_NODE_STREAM) : COMMON_TREE_NODE_STREAM :=
  set_p (sint 32 (u32 i)) s.
Definition rewindMark (marker : Z) (s : COMMON_TREE_NODE_STREAM) : COMMON_TREE_NODE_STREAM :=
  seek marker s.
Definition rewindLast (s : COMMON_TREE_NODE_STREAM) : COMMON_TREE_NODE_STREAM := seek (lastMarker s) s.

(** [push], [pop]: the stack holds the indexes as pointers. *)
Definition push (i : Z) (s : COMMON_TREE_NODE_STREAM) (st : STACKS)
    : outcome (COMMON_TREE_NODE_STREAM * STACKS) :=
  k ← the_stack (nodeStack s) st;
  '(_, k) ← StackPush k (as_pointer (u32 (p s))) false;
  Ok (seek i s, <[nodeStack s := Some k]> st).
Definition pop (s : COMMON_TREE_NODE_STREAM) (st : STACKS)
    : outcome (Z * COMMON_TREE_NODE_STREAM * STACKS) :=
  k ← the_stack (nodeStack s) st;
  '(_, top, k) ← StackPop k;
  let retVal := sint 32 (u32 (default 0 top)) in
  Ok (retVal, seek retVal s, <[nodeStack s := Some k]> st).

Definition reset (s : COMMON_TREE_NODE_STREAM) (st : STACKS)
    : outcome (COMMON_TREE_NODE_STREAM * STACKS) :=
  let s := if p s =? -1 then s else set_p 0 s in
  let s := set_lastMarker 0 s in
  if isRewriter s then Ok (s, st)
  else
    st ← free_stack (nodeStack s) st;
    Ok (set_nodeStack (length st) s, st ++ [Some (StackNew INITIAL_CALL_STACK_SIZE)]).

(** ** Text *)

(** [addi] *)
Definition digits (z : Z) : str := ascii_of_nat ∘ Z.to_nat <$> RtString.sprintf_d z.

(** The loop of [toStringWork] over the children. Its string is what it appends, in
    order. *)
Fixpoint work_children (work : tptr → outcome str) (n : nat) (c : Z) (t : tptr) (m : ARBORETUM)
    : outcome str :=
  match n with
  | O => Ok []
  | S n =>
      child ← getChild t c m;
      child ← deref child;
      s ← work child;
      rest ← work_children work n (c + 1) t m;
      Ok (s ++ rest)
  end.
Fixpoint toStringWork (fuel : nat) (m : ARBORETUM) (stop : option tptr) (t : tptr) : outcome str :=
  match fuel with
  | O => Undef NoFuel
  | S fuel =>
      nil ← isNilNode t m;
      text ← (if nil : bool then Ok [] else TreeStore.toString t m);
      if bool_decide (Some t = stop) then Ok text
      else
        n ← getChildCount t m;
        let inner := (0 <? n) && negb nil in
        s ← work_children (toStringWork fuel m stop) (Z.to_nat n) 0 t m;
        Ok (text ++ (if inner then lit " " ++ digits ANTLR3_TOKEN_DOWN else []) ++ s
              ++ (if inner then lit " " ++ digits ANTLR3_TOKEN_UP else []))
  end.
Definition toStringSS (fuel : nat) (m : ARBORETUM) (start : option tptr) (stop : option tptr)
    : outcome str :=
  t ← deref start;
  toStringWork fuel m stop t.
Definition toString (fuel : nat) (m : ARBORETUM) (s : COMMON_TREE_NODE_STREAM) : outcome str :=
  toStringSS fuel m (root s) None.

(** ** Rewriting *)

Definition replaceChildren (parent : option tptr) (startChildIndex stopChildIndex : Z) (t : tptr)
    (m : ARBORETUM) : outcome ARBORETUM :=
  match parent with
  | None => Ok m
  | Some q => TreeStore.replaceChildren q startChildIndex stopChildIndex t m
  end.
