(* ===== verification/NodeRefine.v ===== *)
(** The streams of [NodeStream] over a tree of memory: what their buffer holds, what
    its readers see, and that a reader can build the tree again. *)
From S2P Require Import Prelude.
From S2P Require Import CppString.
From S2P Require Import Vector.
From S2P Require Import VectorFactory.
From S2P Require Import Lexer.
From S2P Require Import TokenBuffer.
From S2P Require Import TreeStore.
From S2P Require Import TreeRefine.
From S2P Require Import TreePrograms.
From S2P Require Import TreeCopy.
From S2P Require Import NodeStream.
From S2P Require Tree.

(** ** A tree written down

    A node, the beginning of its children, and their end; a nil node leaves its
    children only. *)
Inductive STEP : Type :=
| Visit (q : tptr)
| Descend
| Ascend.
Fixpoint steps (a : ATREE) : list STEP :=
  let 'ANode q tok _ cs := a in
  let below := concat (map steps cs) in
  match tok with
  | None => below
  | Some _ => Visit q :: match cs with [] => [] | _ => Descend :: below ++ [Ascend] end
  end.
Definition steps_of (l : list ATREE) : list STEP := concat (map steps l).

(** The nodes of a buffer: when [u] says so every node for navigation is made, the first
    of them with number [n]. *)
Fixpoint label (u : bool) (n : nat) (T : list STEP) : list NODE :=
  match T with
  | [] => []
  | Visit q :: T => InTree q :: label u n T
  | Descend :: T => (if u then Unique n ANTLR3_TOKEN_DOWN else DOWN) :: label u (if u then S n else n) T
  | Ascend :: T => (if u then Unique n ANTLR3_TOKEN_UP else UP) :: label u (if u then S n else n) T
  end.
Definition visited (x : STEP) : option tptr := match x with Visit q => Some q | _ => None end.
(** How many nodes are made. *)
Definition made (u : bool) (T : list STEP) : nat :=
  if u then length (filter (λ x, visited x = None) T) else 0.

Lemma length_label u n T : length (label u n T) = length T.
Proof. revert n. induction T as [|[] T IH]; intros n; cbn; by rewrite ?IH. Qed.
Lemma made_cons u x T : made u (x :: T) = (made u [x] + made u T)%nat.
Proof. unfold made. destruct u; [|done]. change (x :: T) with ([x] ++ T). by rewrite filter_app, length_app. Qed.
Lemma made_app u T T' : made u (T ++ T') = (made u T + made u T')%nat.
Proof. unfold made. destruct u; [|done]. by rewrite filter_app, length_app. Qed.
Lemma label_cons u n x T : label u n (x :: T) = label u n [x] ++ label u (n + made u [x]) T.
Proof. destruct x, u; cbn; by rewrite ?Nat.add_0_r, ?Nat.add_1_r. Qed.
Lemma label_app u n T T' : label u n (T ++ T') = label u n T ++ label u (n + made u T) T'.
Proof.
  revert n. induction T as [|x T IH]; intros n.
  { replace (n + made u [])%nat with n; [done|]. unfold made. destruct u; cbn; lia. }
  rewrite <-app_comm_cons, label_cons, (label_cons u n x T), IH, (made_cons u x T), <-app_assoc, Nat.add_assoc. done.
Qed.

Definition slots (L : list NODE) : list (VECTOR_ELEMENT NODE) := (λ n, mkElement (Some n) false) <$> L.
Lemma length_node_slots L : length (slots L) = length L.
Proof. apply length_fmap. Qed.
Lemma node_slots_snoc L n : slots L ++ [mkElement (Some n) false] = slots (L ++ [n]).
Proof. unfold slots. by rewrite fmap_app. Qed.

Lemma steps_of_app l k : steps_of (l ++ k) = steps_of l ++ steps_of k.
Proof. unfold steps_of. by rewrite map_app, concat_app. Qed.
Lemma steps_of_cons a l : steps_of (a :: l) = steps a ++ steps_of l.
Proof. done. Qed.
Lemma steps_nil q v cs : steps (ANode q None v cs) = steps_of cs.
Proof. done. Qed.
Lemma steps_leaf q tok v : steps (ANode q (Some tok) v []) = [Visit q].
Proof. done. Qed.
Lemma steps_inner q tok v c cs :
  steps (ANode q (Some tok) v (c :: cs)) = Visit q :: Descend :: steps_of (c :: cs) ++ [Ascend].
Proof. done. Qed.

(** ** Filling *)

(** The buffer held [L] in [s] and holds what [T] is written as after it in [s'];
    nothing but the buffer and the number of the nodes that were made has changed. *)
Record grows (L : list NODE) (s s' : COMMON_TREE_NODE_STREAM) (T : list STEP) : Prop := {
  g_same : s' = set_nodes (nodes s') (set_uniques (uniques s + made (uniqueNavigationNodes s) T)%nat s);
  g_holds : holds (nodes s') (slots (L ++ label (uniqueNavigationNodes s) (uniques s) T))
}.

Lemma grows_refl L s : holds (nodes s) (slots L) → grows L s s [].
Proof.
  intros H. split; [|by rewrite app_nil_r]. unfold made. destruct s as [? ? [] ? ? ? ? ?]; cbn; by rewrite Nat.add_0_r.
Qed.
Lemma grows_trans L s1 s2 s3 T1 T2 :
  grows L s1 s2 T1 → grows (L ++ label (uniqueNavigationNodes s1) (uniques s1) T1) s2 s3 T2 →
  grows L s1 s3 (T1 ++ T2).
Proof.
  intros [E1 H1] [E2 H2].
  assert (uniqueNavigationNodes s2 = uniqueNavigationNodes s1) as Eu by by rewrite E1.
  assert (uniques s2 = (uniques s1 + made (uniqueNavigationNodes s1) T1)%nat) as En by by rewrite E1.
  rewrite Eu, En in *. split.
  - rewrite E2, E1, made_app, Nat.add_assoc. done.
  - by rewrite label_app, app_assoc.
Qed.
Lemma grows_length L s T :
  length (L ++ label (uniqueNavigationNodes s) (uniques s) T) = (length L + length T)%nat.
Proof. by rewrite length_app, length_label. Qed.

Lemma add_node_ok L s n :
  holds (nodes s) (slots L) → Z.of_nat (length L) < 2 ^ 31 →
  ∃ v, add_node n s = Ok (set_nodes v s) ∧ holds v (slots (L ++ [n])).
Proof.
  intros H Hl. unfold add_node.
  destruct (VectorAdd_ok (nodes s) (slots L) (Some n) false H) as (v & -> & Hv); [by rewrite length_node_slots|].
  rewrite node_slots_snoc in Hv. by exists v.
Qed.
Lemma add_tree_ok L s q :
  holds (nodes s) (slots L) → Z.of_nat (length L) < 2 ^ 31 →
  ∃ s', add_node (InTree q) s = Ok s' ∧ grows L s s' [Visit q].
Proof.
  intros H Hl. destruct (add_node_ok L s (InTree q) H Hl) as (v & -> & Hv). eexists. split; [done|].
  split; [|done]. destruct s as [? ? [] ? ? ? ? ?]; cbn; by rewrite Nat.add_0_r.
Qed.
Lemma addNavigationNode_ok L s down :
  holds (nodes s) (slots L) → Z.of_nat (length L) < 2 ^ 31 →
  ∃ s', addNavigationNode (if down : bool then ANTLR3_TOKEN_DOWN else ANTLR3_TOKEN_UP) s = Ok s' ∧
    grows L s s' [if down then Descend else Ascend].
Proof.
  intros H Hl. pose (x := if down then Descend else Ascend). pose (u := uniqueNavigationNodes s).
  pose (s1 := set_uniques (uniques s + made u [x])%nat s).
  assert (∃ n, label u (uniques s) [x] = [n] ∧
    addNavigationNode (if down then ANTLR3_TOKEN_DOWN else ANTLR3_TOKEN_UP) s = add_node n s1) as (n & En & E).
  { unfold x, u, s1. destruct s as [? ? [] ? ? ? ? ?], down; eexists; (split; [reflexivity|]);
      unfold addNavigationNode; cbn; by rewrite ?Nat.add_0_r, ?Nat.add_1_r. }
  destruct (add_node_ok L s1 n H Hl) as (v & Ev & Hv). exists (set_nodes v s1).
  split; [exact (eq_trans E Ev)|]. split; [done|]. fold u x. by rewrite En.
Qed.

(** How much a tree puts into the buffer. *)
Lemma steps_kid c cs : c ∈ cs → (length (steps c) ≤ length (steps_of cs))%nat.
Proof.
  intros (l1 & l2 & ->)%list_elem_of_split. rewrite steps_of_app, steps_of_cons, !length_app. lia.
Qed.

Lemma fill_children_ok fill m a n i L s :
  stored m a → (n + i = length (akids a))%nat → holds (nodes s) (slots L) →
  (∀ c L s, c ∈ akids a → holds (nodes s) (slots L) →
     Z.of_nat (length L) + Z.of_nat (length (steps c)) < 2 ^ 31 →
     ∃ s', fill (TreeRefine.root c) s = Ok s' ∧ grows L s s' (steps c)) →
  Z.of_nat (length L) + Z.of_nat (length (steps_of (drop i (akids a)))) < 2 ^ 31 →
  ∃ s', fill_children fill n (Z.of_nat i) (TreeRefine.root a) m s = Ok s' ∧
    grows L s s' (steps_of (drop i (akids a))).
Proof.
  intros Hst Hn Hh Hfill. revert i L s Hn Hh. induction n as [|n IH]; intros i L s Hn Hh Hb; cbn [fill_children].
  { exists s. rewrite drop_ge by lia. split; [done|]. by apply grows_refl. }
  rewrite (getChild_ok m a i Hst). destruct (lookup_lt_is_Some_2 (akids a) i) as [c Ec]; [lia|].
  rewrite (drop_S _ c i), steps_of_cons, length_app in Hb by done.
  rewrite Ec. cbn [mbind outcome_bind fmap option_fmap option_map deref].
  destruct (Hfill c L s) as (s1 & -> & G1); [by eapply list_elem_of_lookup_2|done|lia|].
  cbn [mbind outcome_bind]. replace (Z.of_nat i + 1) with (Z.of_nat (S i)) by lia.
  destruct (IH (S i) _ s1 ltac:(lia) (g_holds _ _ _ _ G1)) as (s2 & -> & G2); [rewrite grows_length; lia|].
  exists s2. split; [done|]. rewrite (drop_S _ c i), steps_of_cons by done. by eapply grows_trans.
Qed.

Lemma fill_tree_ok fuel m a L s :
  stored m a → (height (erase a) ≤ fuel)%nat → holds (nodes s) (slots L) →
  Z.of_nat (length L) + Z.of_nat (length (steps a)) < 2 ^ 31 →
  ∃ s', fillBuffer fuel m (TreeRefine.root a) s = Ok s' ∧ grows L s s' (steps a).
Proof.
  revert a L s. induction fuel as [|fuel IH]; intros a L s Hst Hf Hh Hb; [destruct a; cbn in Hf; lia|].
  cbn [fillBuffer]. rewrite (isNilNode_ok m a Hst), (getChildCount_ok m a Hst).
  assert (Hkids : ∀ L s, holds (nodes s) (slots L) → Z.of_nat (length L) + Z.of_nat (length (steps_of (akids a))) < 2 ^ 31 →
    ∃ s', fill_children (fillBuffer fuel m) (Z.to_nat (Z.of_nat (length (akids a)))) 0 (TreeRefine.root a) m s = Ok s' ∧
      grows L s s' (steps_of (akids a))).
  { intros L1 s1 H1 Hb1. apply (fill_children_ok (fillBuffer fuel m) m a _ 0 L1 s1); [done|lia|done| |done].
    intros c L2 s2 Hc H2 Hb2. apply IH; [by apply (stored_kids m a)| |done|done].
    destruct a as [q tok v cs]. cbn in Hf, Hc. pose proof (kid_height c cs Hc). lia. }
  destruct a as [q [tok|] v cs]; cbn [erase Tree.isNilNode Tree.token mbind outcome_bind akids TreeRefine.root] in *.
  2: { cbn [negb andb mbind outcome_bind]. destruct (Hkids L s Hh) as (s' & -> & G); [done|]. by exists s'. }
  assert (1 ≤ length (steps (ANode q (Some tok) v cs)))%nat by (cbn; lia).
  destruct (add_tree_ok L s q Hh) as (s1 & -> & G1); [lia|]. cbn [negb andb mbind outcome_bind].
  destruct cs as [|c cs]; [by exists s1|].
  rewrite steps_inner in *. cbn [length] in Hb. rewrite length_app in Hb. cbn [length] in Hb.
  destruct (Z.ltb_spec 0 (Z.of_nat (length (c :: cs)))); [|cbn [length] in *; lia].
  destruct (addNavigationNode_ok _ s1 true (g_holds _ _ _ _ G1)) as (s2 & E2 & G2); [rewrite grows_length; cbn [length]; lia|].
  cbv iota in E2. rewrite E2. cbn [mbind outcome_bind]. pose proof (grows_trans _ _ _ _ _ _ G1 G2) as G12.
  destruct (Hkids _ s2 (g_holds _ _ _ _ G12)) as (s3 & -> & G3); [rewrite grows_length; cbn [app length]; lia|].
  cbn [mbind outcome_bind]. pose proof (grows_trans _ _ _ _ _ _ G12 G3) as G13.
  destruct (addNavigationNode_ok _ s3 false (g_holds _ _ _ _ G13)) as (s4 & E4 & G4);
    [rewrite grows_length, length_app; cbn [app length]; lia|].
  cbv iota in E4. rewrite E4. exists s4. split; [done|]. by pose proof (grows_trans _ _ _ _ _ _ G13 G4).
Qed.

Lemma label_in u x n T :
  x ∈ label u n T →
  match x with
  | InTree q => q ∈ omap visited T
  | Unique i _ => u = true ∧ (n ≤ i)%nat
  | DOWN | UP => u = false
  | _ => False
  end.
Proof.
  revert n. induction T as [|y T IH]; intros n; [by intros ?%not_elem_of_nil|].
  destruct y, u; cbn; intros [->|Hx]%elem_of_cons; try done; try (by left); specialize (IH _ Hx);
    destruct x; try done; try (by right); destruct IH; split; done || lia.
Qed.
(** No node is twice in a buffer that makes its nodes for navigation. *)
Lemma label_nodup n T : NoDup (omap visited T) → NoDup (label true n T).
Proof.
  revert n. induction T as [|x T IH]; intros n Hd; [constructor|].
  destruct x; cbn in *; constructor; try (intros [_ Hx]%label_in; lia); auto; apply NoDup_cons in Hd as [Hd1 Hd2]; [|auto].
  by intros Hx%label_in.
Qed.
Lemma visits_nodes a : omap visited (steps a) `sublist_of` TreeRefine.nodes a.
Proof.
  induction a as [q tok v cs IH] using ATREE_nested_ind.
  assert (omap visited (steps_of cs) `sublist_of` nodes_of cs) as H.
  { clear -IH. induction cs as [|c cs IHcs]; [constructor|]. apply Forall_cons in IH as [Hc IH].
    rewrite steps_of_cons, omap_app. unfold nodes_of. cbn. apply sublist_app; [done|]. by apply IHcs. }
  destruct tok as [tok|].
  - destruct cs as [|c cs]; [by repeat constructor|]. rewrite steps_inner. cbn [omap list_omap].
    cbn [TreeRefine.nodes]. constructor. cbn [omap list_omap]. rewrite omap_app. cbn. by rewrite app_nil_r.
  - rewrite steps_nil. cbn [TreeRefine.nodes]. by constructor.
Qed.

(** ** The requests of a reader *)

Inductive request : Type :=
| Look (k : Z)
| LookType (k : Z)
| Consume
| Get (k : Z)
| Size
| Mark
| Rewind (i : nat)
| RewindLast
| Reset.
Inductive reply : Type :=
| Node (n : option NODE)
| Number (z : Z)
| Done.

(** A stream with the memory of stacks, and the markers that its reader was given. *)
Definition client : Type := COMMON_TREE_NODE_STREAM * STACKS * list Z.
Definition serve (fuel : nat) (m : ARBORETUM) (q : request) (c : client) : outcome (reply * client) :=
  let '(s, st, ms) := c in
  match q with
  | Look k => '(n, s) ← LT fuel m k s; Ok (Node n, (s, st, ms))
  | LookType k => '(ty, s) ← LA fuel m k s; Ok (Number ty, (s, st, ms))
  | Consume => s ← consume fuel m s; Ok (Done, (s, st, ms))
  | Get k => '(n, s) ← get fuel m k s; Ok (Node n, (s, st, ms))
  | Size => '(z, s) ← size fuel m s; Ok (Number z, (s, st, ms))
  | Mark => '(z, s) ← mark fuel m s; Ok (Done, (s, st, ms ++ [z]))
  | Rewind i => z ← Prelude.index ms (Z.of_nat i); Ok (Done, (rewindMark z s, st, ms))
  | RewindLast => Ok (Done, (rewindLast s, st, ms))
  | Reset => '(s, st) ← reset s st; Ok (Done, (s, st, ms))
  end.
Fixpoint serve_all (fuel : nat) (m : ARBORETUM) (qs : list request) (c : client)
    : outcome (list reply * client) :=
  match qs with
  | [] => Ok ([], c)
  | q :: qs =>
      '(r, c) ← serve fuel m q c;
      '(rs, c) ← serve_all fuel m qs c;
      Ok (r :: rs, c)
  end.

(** The specification: a list of nodes, the place in it, which is absent until the first
    request that reads, the places that were marked, and the last of them. *)
Record READER : Type := mkReader {
  here : option nat;
  marked : list nat;
  latest : option nat
}.
Definition view (L : list NODE) (n : nat) (k : Z) : option NODE :=
  if 0 <? k then Some (default EOF_NODE (L !! (n + Z.to_nat (k - 1))%nat))
  else if (k =? 0) || (Z.of_nat n + k <? 0) then Some INVALID_NODE
  else L !! Z.to_nat (Z.of_nat n + k).
Definition type_in (m : ARBORETUM) (n : option NODE) : Z :=
  match n ≫= λ n, match node_type m n with Ok ty => Some ty | _ => None end with
  | Some ty => ty
  | None => ANTLR3_TOKEN_INVALID
  end.
Definition near (k : Z) : Prop := Z.abs k < 2 ^ 30.
#[export] Instance near_dec k : Decision (near k).
Proof. unfold near. apply _. Defined.
Definition answer (m : ARBORETUM) (L : list NODE) (q : request) (rd : READER)
    : option (reply * READER) :=
  let n := default 0%nat (here rd) in
  let at_ n := mkReader (Some n) (marked rd) (latest rd) in
  match q with
  | Look k => if decide (near k) then Some (Node (view L n k), at_ n) else None
  | LookType k => if decide (near k) then Some (Number (type_in m (view L n k)), at_ n) else None
  | Consume => if decide (near (Z.of_nat n + 1)) then Some (Done, at_ (S n)) else None
  | Get k => if decide (near k) then Some (Node (if k <? 0 then None else L !! Z.to_nat k), at_ n) else None
  | Size => Some (Number (Z.of_nat (length L)), at_ n)
  | Mark => Some (Done, mkReader (Some n) (marked rd ++ [n]) (Some n))
  | Rewind i => i ← marked rd !! i; Some (Done, at_ i)
  | RewindLast => i ← latest rd; _ ← here rd; Some (Done, at_ i)
  | Reset => Some (Done, mkReader ((λ _, 0%nat) <$> here rd) (marked rd) (Some 0%nat))
  end.
Fixpoint answers (m : ARBORETUM) (L : list NODE) (qs : list request) (rd : READER)
    : option (list reply * READER) :=
  match qs with
  | [] => Some ([], rd)
  | q :: qs =>
      '(r, rd) ← answer m L q rd;
      '(rs, rd) ← answers m L qs rd;
      Some (r :: rs, rd)
  end.

(** A stream whose buffer is [L], at the place [n]. *)
Record standing (L : list NODE) (n : nat) (s : COMMON_TREE_NODE_STREAM) : Prop := {
  sd_holds : holds (nodes s) (slots L);
  sd_place : p s = Z.of_nat n
}.
Lemma standing_filled fuel m L n s : standing L n s → filled fuel m s = Ok s.
Proof. intros [_ E]. unfold filled. rewrite E. by destruct (Z.eqb_spec (Z.of_nat n) (-1)); [lia|]. Qed.
Lemma standing_move L n n' s : standing L n s → standing L n' (set_p (Z.of_nat n') s).
Proof. intros [H _]. by split. Qed.
Lemma get_slot L v i : holds v (slots L) → VectorGet v (Z.of_nat i) = Ok (L !! i).
Proof. intros H. rewrite (VectorGet_ok v _ i H). unfold slots. rewrite list_lookup_fmap. by destruct (L !! i). Qed.

Lemma LT_ok fuel m L n s k :
  standing L n s → Z.of_nat (length L) < 2 ^ 30 → near (Z.of_nat n) → near k →
  LT fuel m k s = Ok (view L n k, s).
Proof.
  intros Hs HL Hn Hk. unfold near in *. unfold LT. rewrite (standing_filled fuel m _ _ _ Hs). cbn [mbind outcome_bind].
  destruct Hs as [Hh Hp]. unfold view. destruct (Z.ltb_spec k 0) as [Hk0|Hk0].
  - destruct (Z.ltb_spec 0 k); [lia|]. destruct (Z.eqb_spec k 0); [lia|]. cbn [orb].
    rewrite int_op_ok by (unfold INT_MIN, INT_MAX; lia). cbn [mbind outcome_bind]. unfold LB.
    destruct (Z.eqb_spec (- k) 0); [lia|]. rewrite Hp, int_op_ok by (unfold INT_MIN, INT_MAX; lia).
    cbn [mbind outcome_bind]. replace (Z.of_nat n - - k) with (Z.of_nat n + k) by lia.
    destruct (Z.ltb_spec (Z.of_nat n + k) 0); [done|].
    rewrite u32_small, <-(Z2Nat.id (Z.of_nat n + k)), (get_slot _ _ _ Hh) by lia. by rewrite Nat2Z.id.
  - destruct (Z.eqb_spec k 0); [by destruct (Z.ltb_spec 0 k); [lia|]|]. destruct (Z.ltb_spec 0 k); [|lia].
    rewrite Hp, !int_op_ok by (unfold INT_MIN, INT_MAX; lia). cbn [mbind outcome_bind].
    rewrite int_op_ok by (unfold INT_MIN, INT_MAX; lia). cbn [mbind outcome_bind].
    rewrite (h_count _ _ Hh), length_node_slots, sint_small by lia.
    replace (Z.of_nat n + k - 1) with (Z.of_nat (n + Z.to_nat (k - 1))) by lia.
    destruct (Z.leb_spec (Z.of_nat (length L)) (Z.of_nat (n + Z.to_nat (k - 1)))).
    + by rewrite lookup_ge_None_2 by lia.
    + rewrite u32_small, (get_slot _ _ _ Hh) by lia. cbn [mbind outcome_bind].
      destruct (lookup_lt_is_Some_2 L (n + Z.to_nat (k - 1))) as [x Ex]; [lia|]. by rewrite Ex.
Qed.

Section reader.
Context (fuel : nat) (m : ARBORETUM) (a : ATREE) (u : bool).
Context (Hst : stored m a) (Hfuel : (height (erase a) ≤ fuel)%nat).
Context (Hsize : Z.of_nat (length (steps a)) < 2 ^ 30).
Let L : list NODE := label u 0 (steps a).

(** Before the first request that reads. *)
Record fresh_stream (s : COMMON_TREE_NODE_STREAM) : Prop := {
  f_root : root s = Some (TreeRefine.root a);
  f_place : p s = -1;
  f_holds : holds (nodes s) (slots []);
  f_uniques : uniques s = 0%nat;
  f_unique : uniqueNavigationNodes s = u
}.
Record reading (c : client) (rd : READER) : Prop := {
  r_place : match here rd with
            | None => fresh_stream c.1.1 ∧ marked rd = []
            | Some n => standing L n c.1.1 ∧ near (Z.of_nat n)
            end;
  r_marks : Forall2 (λ z n, z = Z.of_nat n ∧ near z) c.2 (marked rd);
  r_latest : ∀ n, latest rd = Some n → lastMarker c.1.1 = Z.of_nat n ∧ near (Z.of_nat n);
  r_stack : isRewriter c.1.1 = false → c.1.2 !! nodeStack c.1.1 = Some (Some (StackNew INITIAL_CALL_STACK_SIZE))
}.

Lemma length_L : Z.of_nat (length L) < 2 ^ 30.
Proof. unfold L. by rewrite length_label. Qed.
Lemma filled_fresh s :
  fresh_stream s → ∃ s', filled fuel m s = Ok s' ∧ standing L 0 s' ∧ lastMarker s' = lastMarker s ∧
    nodeStack s' = nodeStack s ∧ isRewriter s' = isRewriter s.
Proof.
  intros [Hr Hp Hh Hn Hu]. unfold filled, fillBufferRoot. rewrite Hp, Hr. cbn [Z.eqb Pos.eqb deref mbind outcome_bind].
  destruct (fill_tree_ok fuel m a [] s Hst Hfuel Hh) as (s' & -> & G); [cbn; lia|]. cbn [mbind outcome_bind].
  pose proof (g_holds _ _ _ _ G) as Hh'. rewrite Hn, Hu in Hh'. destruct G as [-> _].
  eexists. split; [done|]. by split_and!.
Qed.
Lemma node_reading_filled s st ms rd :
  reading (s, st, ms) rd → ∃ s', filled fuel m s = Ok s' ∧ filled fuel m s' = Ok s' ∧
    standing L (default 0%nat (here rd)) s' ∧ near (Z.of_nat (default 0%nat (here rd))) ∧
    reading (s', st, ms) (mkReader (Some (default 0%nat (here rd))) (marked rd) (latest rd)).
Proof.
  intros [Hp Hm Hl Hk]. cbn [fst snd] in *. destruct (here rd) as [n|]; cbn [default].
  - destruct Hp as [Hp Hn]. exists s. pose proof (standing_filled fuel m _ _ _ Hp). by split_and!.
  - destruct Hp as [Hf Hmk]. destruct (filled_fresh s Hf) as (s' & E & Hs & El & Ek & Er).
    exists s'. pose proof (standing_filled fuel m _ _ _ Hs).
    split_and!; [done|done|done|done|]. split; cbn; [done|done|by rewrite El|by rewrite Er, Ek].
Qed.
Lemma LT_filled s s' k : filled fuel m s = Ok s' → filled fuel m s' = Ok s' → LT fuel m k s = LT fuel m k s'.
Proof. intros E E'. unfold LT. by rewrite E, E'. Qed.
Lemma node_look_ok s st ms rd k :
  reading (s, st, ms) rd → near k → ∃ s',
    LT fuel m k s = Ok (view L (default 0%nat (here rd)) k, s') ∧
    reading (s', st, ms) (mkReader (Some (default 0%nat (here rd))) (marked rd) (latest rd)).
Proof.
  intros Hr Hk. destruct (node_reading_filled _ _ _ _ Hr) as (s' & E & E' & Hs & Hn & Hr'). exists s'.
  split; [|done]. rewrite (LT_filled s s') by done. by apply LT_ok; [|apply length_L|..].
Qed.

(** Going to a place. *)
Lemma seek_ok s n z : standing L n s → near z → 0 ≤ z → standing L (Z.to_nat z) (seek z s).
Proof.
  intros Hs Hz H0. unfold near in Hz. unfold seek. rewrite u32_small, sint_small by lia.
  rewrite <-(Z2Nat.id z) at 2 by done. by apply (standing_move _ n).
Qed.
Lemma reading_move s st ms rd i :
  reading (s, st, ms) rd → is_Some (here rd) → near (Z.of_nat i) →
  reading (seek (Z.of_nat i) s, st, ms) (mkReader (Some i) (marked rd) (latest rd)).
Proof.
  intros [Hp Hm Hl Hk] [n Hn] Hi. cbn [fst snd] in *. rewrite Hn in Hp. destruct Hp as [Hp _].
  split; cbn; [|done..]. split; [|done].
  pose proof (seek_ok s n (Z.of_nat i) Hp Hi ltac:(lia)) as H. by rewrite Nat2Z.id in H.
Qed.

Lemma node_types x : x ∈ L → ∃ ty, node_type m x = Ok ty.
Proof.
  intros Hx. destruct x; cbn; eauto.
  pose proof (label_in _ _ _ _ Hx) as Ht. cbn in Ht.
  pose proof (sublist_submseteq _ _ (visits_nodes a)) as Hsub. apply (elem_of_submseteq _ _ _ Ht) in Hsub.
  destruct (stored_core m a Hst t Hsub) as [[tok v] Hc]. apply core_node in Hc as (nd & En & _).
  unfold getType. rewrite En. cbn. eauto.
Qed.
Lemma view_type n k :
  match view L n k with None => Ok ANTLR3_TOKEN_INVALID | Some t => node_type m t end
  = Ok (type_in m (view L n k)).
Proof.
  assert (∀ o, (∀ x, o = Some x → ∃ ty, node_type m x = Ok ty) →
    match o with None => Ok ANTLR3_TOKEN_INVALID | Some t => node_type m t end = Ok (type_in m o)) as H.
  { intros [x|] Hx; [|done]. destruct (Hx x eq_refl) as [ty Ety]. unfold type_in. cbn. by rewrite Ety. }
  apply H. intros x Ex. unfold view in Ex. destruct (0 <? k).
  - injection Ex as <-. destruct (L !! (n + Z.to_nat (k - 1))%nat) as [y|] eqn:Ey; [|by eexists].
    apply node_types. by eapply list_elem_of_lookup_2.
  - destruct (_ || _); [injection Ex as <-; by eexists|]. apply node_types. by eapply list_elem_of_lookup_2.
Qed.

Lemma reset_ok s st ms rd :
  reading (s, st, ms) rd → ∃ s' st', reset s st = Ok (s', st') ∧
    reading (s', st', ms) (mkReader ((λ _, 0%nat) <$> here rd) (marked rd) (Some 0%nat)).
Proof.
  intros [Hp Hm Hl Hk]. cbn [fst snd] in *.
  pose (s1 := set_lastMarker 0 (if p s =? -1 then s else set_p 0 s)).
  assert (∀ j, match (λ _, 0%nat) <$> here rd with
               | None => fresh_stream (set_nodeStack j s1) ∧ marked rd = []
               | Some n => standing L n (set_nodeStack j s1) ∧ near (Z.of_nat n)
               end) as Hp'.
  { intros j. unfold s1. destruct (here rd) as [n|]; cbn.
    - destruct Hp as [[Hh Hp] _]. destruct (Z.eqb_spec (p s) (-1)); [lia|]. by split; [split|].
    - destruct Hp as [[Hr Hp Hh Hn Hu] Hmk]. rewrite Hp. by split; [split|]. }
  assert (isRewriter s1 = isRewriter s ∧ nodeStack s1 = nodeStack s) as [Er En].
  { unfold s1. by destruct (p s =? -1). }
  change (reset s st) with (if isRewriter s1 then Ok (s1, st) else st ← free_stack (nodeStack s1) st;
    Ok (set_nodeStack (length st) s1, st ++ [Some (StackNew INITIAL_CALL_STACK_SIZE)])).
  assert (lastMarker s1 = 0) as El0 by by unfold s1; destruct (p s =? -1).
  clearbody s1. rewrite Er, En. destruct (isRewriter s) eqn:Erw.
  - exists s1, st. split; [done|]. split; cbn; [|done| |by intros ?%(eq_trans (eq_sym Er))].
    + specialize (Hp' (nodeStack s1)). by destruct s1.
    + intros n [= <-]. by split.
  - unfold free_stack, the_stack. rewrite Hk by done. cbn [mbind outcome_bind].
    change (StackFree (StackNew INITIAL_CALL_STACK_SIZE)) with (Ok (A:=list (option Z)) []). cbn [mbind outcome_bind].
    do 2 eexists. split; [done|]. split; cbn; [apply Hp'|done| |].
    + intros n [= <-]. by split.
    + intros _. by apply list_lookup_middle.
Qed.

Lemma node_serve_ok c rd q r rd' :
  reading c rd → answer m L q rd = Some (r, rd') → ∃ c', serve fuel m q c = Ok (r, c') ∧ reading c' rd'.
Proof.
  destruct c as [[s st] ms]. intros Hr Ha.
  destruct (node_reading_filled _ _ _ _ Hr) as (s' & E & E' & Hs & Hn & Hr').
  destruct q as [k|k| |k| | |i| |]; cbn [answer serve] in Ha |- *.
  - destruct (decide (near k)) as [Hk|]; [|done]. injection Ha as <- <-.
    destruct (node_look_ok _ _ _ _ k Hr Hk) as (s1 & -> & Hr1). by eexists.
  - destruct (decide (near k)) as [Hk|]; [|done]. injection Ha as <- <-.
    destruct (node_look_ok _ _ _ _ k Hr Hk) as (s1 & E1 & Hr1). unfold LA. rewrite E1. cbn [mbind outcome_bind].
    pose proof (view_type (default 0%nat (here rd)) k) as Ht.
    destruct (view L (default 0%nat (here rd)) k) as [x|]; [rewrite Ht; cbn [mbind outcome_bind]|]; by eexists.
  - destruct (decide (near _)) as [Hk|]; [|done]. injection Ha as <- <-. unfold consume. rewrite E. cbn [mbind outcome_bind].
    rewrite (sd_place _ _ _ Hs). unfold near in Hk. rewrite int_op_ok by (unfold INT_MIN, INT_MAX; lia).
    cbn [mbind outcome_bind]. eexists. split; [reflexivity|].
    destruct Hr' as [Hp' Hm' Hl' Hk']. split; cbn in *; [|done..].
    replace (Z.of_nat (default 0%nat (here rd)) + 1) with (Z.of_nat (S (default 0%nat (here rd)))) in * by lia.
    split; [by apply (standing_move _ (default 0%nat (here rd)))|done].
  - destruct (decide (near k)) as [Hk|]; [|done]. injection Ha as <- <-. unfold get. rewrite E. cbn [mbind outcome_bind].
    unfold near in Hk. pose proof length_L as HL. destruct Hs as [Hh _]. destruct (Z.ltb_spec k 0).
    + assert (u32 k = k + 2 ^ 32) as ->.
      { unfold u32. rewrite <-(Z.mod_add k 1), Z.mul_1_l, Z.mod_small by lia. done. }
      unfold VectorGet. rewrite (h_count _ _ Hh), length_node_slots.
      destruct (Z.ltb_spec (k + 2 ^ 32) (Z.of_nat (length L))); [lia|]. cbn [mbind outcome_bind]. by eexists.
    + rewrite u32_small by lia. pose proof (get_slot _ _ (Z.to_nat k) Hh) as Eg.
      rewrite Z2Nat.id in Eg by done. rewrite Eg.
      cbn [mbind outcome_bind]. by eexists.
  - injection Ha as <- <-. unfold size. rewrite E. cbn [mbind outcome_bind]. unfold VectorSize.
    rewrite (h_count _ _ (sd_holds _ _ _ Hs)), length_node_slots. by eexists.
  - injection Ha as <- <-. unfold mark. rewrite E. cbn [mbind outcome_bind]. eexists. split; [reflexivity|].
    unfold tindex. rewrite (sd_place _ _ _ Hs). destruct Hr' as [Hp' Hm' Hl' Hk']. cbn in *.
    split; cbn; [split; [|done]; by destruct Hs|apply Forall2_app; [done|by repeat constructor]| |done].
    intros n [= <-]. by split.
  - destruct (marked rd !! i) as [n|] eqn:Ei; [|done]. injection Ha as <- <-.
    destruct (Forall2_lookup_r _ _ _ _ _ (r_marks _ _ Hr) Ei) as (z & Ez & -> & Hz). cbn in Ez.
    unfold Prelude.index. destruct (Z.ltb_spec (Z.of_nat i) 0); [lia|]. rewrite Nat2Z.id, Ez. cbn [mbind outcome_bind].
    eexists. split; [reflexivity|]. apply reading_move; [done| |done].
    destruct (here rd) eqn:Eh; [by eexists|]. pose proof (r_place _ _ Hr) as Hp. rewrite Eh in Hp.
    destruct Hp as [_ Hp]. by rewrite Hp in Ei.
  - destruct (latest rd) as [n|] eqn:El; [|done]. destruct (here rd) as [n'|] eqn:Eh; [|done]. injection Ha as <- <-.
    destruct (r_latest _ _ Hr n El) as [Hla Hz]. cbn in Hla. eexists. split; [reflexivity|].
    unfold rewindLast. rewrite Hla. pose proof (reading_move s st ms rd n Hr) as H. rewrite El in H.
    apply H; [by rewrite Eh|done].
  - injection Ha as <- <-. destruct (reset_ok _ _ _ _ Hr) as (s1 & st1 & -> & Hr1). by eexists.
Qed.
Lemma node_serve_all_ok qs c rd rs rd' :
  reading c rd → answers m L qs rd = Some (rs, rd') → ∃ c', serve_all fuel m qs c = Ok (rs, c') ∧ reading c' rd'.
Proof.
  revert c rd rs. induction qs as [|q qs IH]; intros c rd rs Hr Ha.
  { injection Ha as <- <-. by eexists. }
  cbn [answers serve_all] in *. destruct (answer m L q rd) as [[r rd1]|] eqn:Eq; [|done]. cbn in Ha.
  destruct (node_serve_ok c rd q r rd1 Hr Eq) as (c1 & -> & Hr1). cbn [mbind outcome_bind].
  destruct (answers m L qs rd1) as [[rs1 rd2]|] eqn:Eqs; [|done]. cbn in Ha. injection Ha as <- <-.
  destruct (IH c1 rd1 rs1 Hr1 Eqs) as (c' & -> & Hr'). by eexists.
Qed.
End reader.

(** ** A reader that builds the tree again

    It looks at the types of the nodes, as the rules of a tree parser do. *)
Fixpoint read_trees (n fuel : nat) (m : ARBORETUM) (s : COMMON_TREE_NODE_STREAM)
    : outcome (list Tree.BASE_TREE * COMMON_TREE_NODE_STREAM) :=
  match n with
  | O => Undef NoFuel
  | S n =>
      '(ty, s) ← LA fuel m 1 s;
      if (ty =? ANTLR3_TOKEN_UP) || (ty =? ANTLR3_TOKEN_EOF) then Ok ([], s)
      else
        '(x, s) ← LT fuel m 1 s;
        tok ← match x with Some (InTree t) => getToken t m | _ => Undef WrongMember end;
        s ← consume fuel m s;
        '(ty, s) ← LA fuel m 1 s;
        '(cs, s) ←
          (if ty =? ANTLR3_TOKEN_DOWN then
             s ← consume fuel m s;
             '(cs, s) ← read_trees n fuel m s;
             s ← consume fuel m s;
             Ok (cs, s)
           else Ok ([], s));
        '(rest, s) ← read_trees n fuel m s;
        Ok (Tree.Tree tok cs :: rest, s)
  end.

(** The tokens of a tree, and those that are not taken for navigation. *)
Fixpoint tokens_of (t : Tree.BASE_TREE) : list COMMON_TOKEN :=
  let 'Tree.Tree tok cs := t in option_list tok ++ concat (map tokens_of cs).
Definition plain (tok : COMMON_TOKEN) : Prop :=
  tok_type tok ≠ ANTLR3_TOKEN_DOWN ∧ tok_type tok ≠ ANTLR3_TOKEN_UP ∧ tok_type tok ≠ ANTLR3_TOKEN_EOF.

Lemma label_lookup u n T i :
  match T !! i with
  | Some (Visit q) => label u n T !! i = Some (InTree q)
  | Some Descend => ∃ x, label u n T !! i = Some x ∧ ∀ m, node_type m x = Ok ANTLR3_TOKEN_DOWN
  | Some Ascend => ∃ x, label u n T !! i = Some x ∧ ∀ m, node_type m x = Ok ANTLR3_TOKEN_UP
  | None => label u n T !! i = None
  end.
Proof.
  revert n i. induction T as [|x T IH]; intros n [|i]; [done..| |].
  - destruct x, u; cbn; eauto.
  - destruct x; cbn; apply IH.
Qed.

Lemma stored_node_inv m q tok v cs :
  stored m (ANode q tok v cs) → (∃ nd, node m q = Ok nd ∧ token nd = tok) ∧ Forall (stored m) cs ∧
    Forall (λ c, is_Some (atok c)) cs.
Proof. intros H. inversion H as [? ? ? ? Hc _ Hk Hs]; subst. apply core_node in Hc as (nd & ? & ? & _). eauto. Qed.

Section rebuild.
Context (fuel : nat) (m : ARBORETUM) (u : bool) (T : list STEP).
Context (Hsize : Z.of_nat (length T) < 2 ^ 30 - 2).
Let L : list NODE := label u 0 T.

Definition type_at (i : nat) (ty : Z) : Prop :=
  match T !! i with
  | Some (Visit q) => getType q m = Ok ty
  | Some Descend => ty = ANTLR3_TOKEN_DOWN
  | Some Ascend => ty = ANTLR3_TOKEN_UP
  | None => ty = ANTLR3_TOKEN_EOF
  end.
Lemma length_buffer : length L = length T.
Proof. apply length_label. Qed.
Lemma LT_at i s : standing L i s → (i ≤ length T)%nat → LT fuel m 1 s = Ok (Some (default EOF_NODE (L !! i)), s).
Proof.
  intros Hs Hi. rewrite (LT_ok fuel m L i s 1 Hs).
  - unfold view. by rewrite Nat.add_0_r.
  - rewrite length_buffer. lia.
  - unfold near. lia.
  - unfold near. lia.
Qed.
Lemma LA_at i ty s : standing L i s → (i ≤ length T)%nat → type_at i ty → LA fuel m 1 s = Ok (ty, s).
Proof.
  intros Hs Hi Ht. unfold LA. rewrite (LT_at i s Hs Hi). cbn [mbind outcome_bind].
  pose proof (label_lookup u 0 T i) as Hl. fold L in Hl. unfold type_at in Ht. destruct (T !! i) as [[q| |]|].
  - rewrite Hl. cbn. by rewrite Ht.
  - destruct Hl as (x & -> & Hx). cbn. by rewrite Hx, Ht.
  - destruct Hl as (x & -> & Hx). cbn. by rewrite Hx, Ht.
  - rewrite Hl. cbn. by rewrite Ht.
Qed.
Lemma consume_at i s : standing L i s → (i ≤ length T)%nat → ∃ s', consume fuel m s = Ok s' ∧ standing L (S i) s'.
Proof.
  intros Hs Hi. unfold consume. rewrite (standing_filled fuel m _ _ _ Hs). cbn [mbind outcome_bind].
  rewrite (sd_place _ _ _ Hs), int_op_ok by (unfold INT_MIN, INT_MAX; lia). cbn [mbind outcome_bind].
  eexists. split; [done|]. replace (Z.of_nat i + 1) with (Z.of_nat (S i)) by lia. by apply (standing_move _ i).
Qed.

(** The type that a reader sees before a list of trees. *)
Lemma forest_type T0 cs T1 :
  T = T0 ++ steps_of cs ++ T1 → (T1 = [] ∨ head T1 = Some Ascend) →
  Forall (stored m) cs → Forall (λ c, is_Some (atok c)) cs → Forall plain (concat (map tokens_of (map erase cs))) →
  ∃ ty, type_at (length T0) ty ∧ ty ≠ ANTLR3_TOKEN_DOWN ∧
    ((ty =? ANTLR3_TOKEN_UP) || (ty =? ANTLR3_TOKEN_EOF)) = bool_decide (cs = []).
Proof.
  intros ET HT1 Hst Htok Hpl. unfold type_at. rewrite ET, lookup_app_r, Nat.sub_diag by done. destruct cs as [|c cs].
  { destruct HT1 as [->|H1]; [by eexists|]. destruct T1 as [|x T1]; [done|]. injection H1 as ->. by eexists. }
  apply Forall_cons in Hst as [Hc _], Htok as [Hck _]. cbn [map concat] in Hpl. apply Forall_app in Hpl as [Hpl _].
  destruct c as [q [tok|] v kids]; [|by destruct Hck].
  assert (∃ T', steps_of (ANode q (Some tok) v kids :: cs) ++ T1 = Visit q :: T') as [T' ->].
  { rewrite steps_of_cons. destruct kids; eexists; [|rewrite steps_inner]; reflexivity. }
  apply stored_node_inv in Hc as [(nd & En & Et) _].
  cbn [erase tokens_of option_list app] in Hpl. apply Forall_cons in Hpl as [(Hp1 & Hp2 & Hp3) _].
  exists (tok_type tok). cbn. unfold getType. rewrite En. cbn. rewrite Et. split_and!; [done|done|].
  destruct (Z.eqb_spec (tok_type tok) ANTLR3_TOKEN_UP); [done|]. by destruct (Z.eqb_spec (tok_type tok) ANTLR3_TOKEN_EOF).
Qed.

Definition reads (n : nat) : Prop := ∀ T0 cs T1 s,
  T = T0 ++ steps_of cs ++ T1 → (T1 = [] ∨ head T1 = Some Ascend) →
  Forall (stored m) cs → Forall (λ c, is_Some (atok c)) cs →
  Forall plain (concat (map tokens_of (map erase cs))) →
  (length (steps_of cs) < n)%nat → standing L (length T0) s →
  ∃ s', read_trees n fuel m s = Ok (map erase cs, s') ∧ standing L (length T0 + length (steps_of cs)) s'.

(** The children of a node, before the trees [cs] that follow it. *)
Lemma read_kids_ok n T0 q tok v kids cs T1 s :
  reads n → T = T0 ++ (steps (ANode q (Some tok) v kids) ++ steps_of cs) ++ T1 → (T1 = [] ∨ head T1 = Some Ascend) →
  Forall (stored m) cs → Forall (λ c, is_Some (atok c)) cs → Forall plain (concat (map tokens_of (map erase cs))) →
  Forall (stored m) kids → Forall (λ c, is_Some (atok c)) kids →
  Forall plain (concat (map tokens_of (map erase kids))) →
  (length (steps_of kids) < n)%nat → standing L (S (length T0)) s →
  ∃ s', ('(ty, s) ← LA fuel m 1 s;
         if ty =? ANTLR3_TOKEN_DOWN then
           s ← consume fuel m s;
           '(cs, s) ← read_trees n fuel m s;
           s ← consume fuel m s;
           Ok (cs, s)
         else Ok ([], s)) = Ok (map erase kids, s') ∧
    standing L (length T0 + length (steps (ANode q (Some tok) v kids))) s'.
Proof.
  intros IH ET HT1 Hst Htok Hpl Hks Hkt Hplk Hn Hs. destruct kids as [|k kids].
  - rewrite steps_leaf in *. pose proof (f_equal length ET) as Hlen. rewrite !length_app in Hlen. cbn [length] in *.
    rewrite Nat.add_1_r. replace (S (length T0)) with (length (T0 ++ [Visit q])) in * by (rewrite length_app; cbn; lia).
    rewrite <-app_assoc, app_assoc in ET. destruct (forest_type _ cs T1 ET HT1 Hst Htok Hpl) as (ty & Hty & Hne & _).
    rewrite (LA_at _ ty s Hs) by (done || rewrite length_app; cbn; lia). cbn [mbind outcome_bind].
    destruct (Z.eqb_spec ty ANTLR3_TOKEN_DOWN); [done|]. by exists s.
  - rewrite steps_inner in *. pose proof (f_equal length ET) as Hlen. rewrite !length_app in Hlen.
    cbn [length] in Hlen |- *. rewrite length_app in Hlen |- *. cbn [length] in Hlen |- *.
    rewrite (LA_at _ ANTLR3_TOKEN_DOWN s Hs); [|lia|].
    2: { unfold type_at. rewrite ET, lookup_app_r by lia. by replace (S (length T0) - length T0)%nat with 1%nat by lia. }
    cbn [mbind outcome_bind]. rewrite Z.eqb_refl.
    destruct (consume_at _ s Hs ltac:(lia)) as (s1 & -> & Hs1). cbn [mbind outcome_bind].
    destruct (IH (T0 ++ [Visit q; Descend]) (k :: kids) (Ascend :: steps_of cs ++ T1) s1) as (s2 & -> & Hs2);
      [|by right|done|done|done|done|by rewrite length_app, Nat.add_comm|].
    { rewrite ET. rewrite <-!app_assoc. cbn [app]. rewrite <-!app_assoc. done. }
    cbn [mbind outcome_bind]. rewrite length_app in Hs2. cbn [length] in Hs2.
    destruct (consume_at _ s2 Hs2 ltac:(lia)) as (s3 & -> & Hs3). cbn [mbind outcome_bind].
    exists s3. split; [done|]. by replace (length T0 + S (S (length (steps_of (k :: kids)) + 1)))%nat
      with (S (length T0 + 2 + length (steps_of (k :: kids)))) by lia.
Qed.

Lemma read_trees_ok n : reads n.
Proof.
  induction n as [|n IH]; intros T0 cs T1 s ET HT1 Hst Htok Hpl Hn Hs; [lia|].
  pose proof (f_equal length ET) as Hlen. rewrite !length_app in Hlen. cbn [read_trees].
  destruct (forest_type T0 cs T1 ET HT1 Hst Htok Hpl) as (ty & Hty & _ & Hend).
  rewrite (LA_at _ ty s Hs ltac:(lia) Hty). cbn [mbind outcome_bind]. rewrite Hend. clear ty Hty Hend.
  destruct cs as [|c cs]; [exists s; by rewrite Nat.add_0_r|]. rewrite bool_decide_eq_false_2 by done.
  apply Forall_cons in Hst as [Hc Hst], Htok as [Hck Htok]. cbn [map concat] in Hpl. apply Forall_app in Hpl as [Hplc Hpl].
  destruct c as [q [tok|] v kids]; [|by destruct Hck]. clear Hck.
  apply stored_node_inv in Hc as [(nd & En & Et) [Hks Hkt]].
  cbn [erase tokens_of option_list app] in Hplc. apply Forall_cons in Hplc as [_ Hplk].
  rewrite steps_of_cons in *. rewrite length_app in Hlen, Hn.
  assert (∃ W, steps (ANode q (Some tok) v kids) = Visit q :: W ∧ (length (steps_of kids) ≤ length W)%nat) as (W & EW & HW).
  { destruct kids; [|rewrite steps_inner]; (eexists; split; [reflexivity|]); [done|]. cbn [length]. rewrite length_app. lia. }
  assert (L !! length T0 = Some (InTree q)) as Eq.
  { pose proof (label_lookup u 0 T (length T0)) as Hl. fold L in Hl.
    rewrite ET, lookup_app_r, Nat.sub_diag, EW in Hl by done. exact Hl. }
  rewrite (LT_at _ s Hs) by lia. rewrite Eq. change (default EOF_NODE (Some (InTree q))) with (InTree q).
  cbn [mbind outcome_bind]. unfold getToken. rewrite En. cbn [fmap outcome_fmap mbind outcome_bind].
  destruct (consume_at _ s Hs ltac:(lia)) as (s1 & -> & Hs1). cbn [mbind outcome_bind].
  destruct (read_kids_ok n T0 q tok v kids cs T1 s1) as (s2 & E2 & Hs2); [done..|rewrite EW in Hn; cbn [length] in Hn; lia|done|].
  destruct (LA fuel m 1 s1) as [[ty s1']| |]; [|done..]. cbn [mbind outcome_bind] in E2 |- *. rewrite E2. cbn [mbind outcome_bind].
  rewrite <-length_app in Hs2.
  destruct (IH (T0 ++ steps (ANode q (Some tok) v kids)) cs T1 s2) as (s3 & -> & Hs3); [|done..| |done|].
  - by rewrite ET, <-!app_assoc.
  - rewrite EW in Hn. cbn [length] in Hn. lia.
  - cbn [mbind outcome_bind]. exists s3. rewrite Et. split; [done|]. by rewrite !length_app, Nat.add_assoc in *.
Qed.
End rebuild.

(** ** Text *)

(** The texts of the nodes, with the numbers of the nodes for navigation. *)
Fixpoint written (t : Tree.BASE_TREE) : str :=
  let 'Tree.Tree tok cs := t in
  let below := concat (map written cs) in
  match tok with
  | None => below
  | Some tok =>
      tok_text tok ++
      match cs with
      | [] => []
      | _ => lit " " ++ digits ANTLR3_TOKEN_DOWN ++ below ++ lit " " ++ digits ANTLR3_TOKEN_UP
      end
  end.

Lemma work_children_ok work n i m a :
  stored m a → (n + i = length (akids a))%nat →
  (∀ c, c ∈ akids a → work (TreeRefine.root c) = Ok (written (erase c))) →
  work_children work n (Z.of_nat i) (TreeRefine.root a) m
  = Ok (concat (map written (map erase (drop i (akids a))))).
Proof.
  intros Hst. revert i. induction n as [|n IH]; intros i Hn Hw; cbn [work_children].
  { by rewrite drop_ge by lia. }
  rewrite (getChild_ok m a i Hst). destruct (lookup_lt_is_Some_2 (akids a) i) as [c Ec]; [lia|].
  rewrite Ec. cbn [mbind outcome_bind fmap option_fmap option_map deref].
  rewrite Hw by (by eapply list_elem_of_lookup_2). cbn [mbind outcome_bind].
  replace (Z.of_nat i + 1) with (Z.of_nat (S i)) by lia. rewrite IH by (done || lia).
  by rewrite (drop_S _ c i).
Qed.
Lemma toStringWork_ok fuel m a :
  stored m a → (height (erase a) ≤ fuel)%nat → toStringWork fuel m None (TreeRefine.root a) = Ok (written (erase a)).
Proof.
  revert a. induction fuel as [|fuel IH]; intros a Hst Hf; [destruct a; cbn in Hf; lia|].
  cbn [toStringWork]. rewrite (isNilNode_ok m a Hst), (toString_ok m a Hst), (getChildCount_ok m a Hst).
  cbn [mbind outcome_bind].
  assert (work_children (toStringWork fuel m None) (Z.to_nat (Z.of_nat (length (akids a)))) 0 (TreeRefine.root a) m
    = Ok (concat (map written (map erase (akids a))))) as Ew.
  { rewrite (work_children_ok _ _ 0 m a Hst); [done|lia|]. intros c Hc. apply IH; [by apply (stored_kids m a)|].
    destruct a as [q tok v cs]. cbn in Hf, Hc. pose proof (kid_height c cs Hc). lia. }
  destruct a as [q [tok|] v cs]; cbn [erase Tree.isNilNode Tree.token akids TreeRefine.root mbind outcome_bind] in *.
  all: rewrite bool_decide_eq_false_2 by done; rewrite Ew; cbn [mbind outcome_bind written negb].
  - destruct cs as [|c cs]; [cbn; by rewrite !app_nil_r|].
    destruct (Z.ltb_spec 0 (Z.of_nat (length (c :: cs)))); [|cbn [length] in *; lia]. cbn [andb map]. by rewrite <-!app_assoc.
  - by rewrite andb_false_r, app_nil_r.
Qed.

(** ** What the streams of a tree do *)

Lemma new_stream_fresh a hint u st s st' :
  0 ≤ hint < 2 ^ 32 → CommonTreeNodeStreamNewTree (TreeRefine.root a) hint st = (s, st') →
  fresh_stream a u (setUniqueNavigationNodes u s) ∧ isRewriter s = false ∧
  st' !! nodeStack s = Some (Some (StackNew INITIAL_CALL_STACK_SIZE)).
Proof.
  intros Hh [= <- <-]. split_and!; [|done|by apply list_lookup_middle]. split; try done. cbn.
  apply VectorNew_holds. unfold DEFAULT_INITIAL_BUFFER_SIZE. destruct (hint =? 0); lia.
Qed.

(** C30: a stream of tree nodes is the tree written down as a list. For a tree in memory
    that no child of is a nil node, and any requests, of those below, to a stream that was
    made for it, the stream gives the replies of a reader of the list in which each node
    comes before its children, the children between one node that leads down and one
    that leads up; with navigation nodes of their own, no node is twice in that list.
    The requests are those for nodes and types ahead and behind (less than 2^30 places
    away; [INVALID_NODE] at distance 0 and in front of the start, [EOF_NODE] ahead of the
    last node, where the comments of the code promise null), for nodes by their index,
    for the size (of the whole list from the first time on, where the comment says that
    it is what was seen so far), for consuming, marking, rewinding to a mark that was
    given, rewinding to the last mark or reset, when there was one and the stream was
    read or marked before (otherwise: [NodeStream_defects]), and starting again. No
    [EOF_NODE] is in the list, where the header says that the buffer has one. *)
Theorem stream_reads_tree m a fuel hint u st qs rs rd :
  let L := label u 0 (steps a) in let '(s, st) := CommonTreeNodeStreamNewTree (TreeRefine.root a) hint st in
  stored m a → NoDup (TreeRefine.nodes a) → (height (erase a) ≤ fuel)%nat →
  Z.of_nat (length (steps a)) < 2 ^ 30 → 0 ≤ hint < 2 ^ 32 →
  answers m L qs (mkReader None [] None) = Some (rs, rd) →
  (∃ c, serve_all fuel m qs (setUniqueNavigationNodes u s, st, []) = Ok (rs, c)) ∧ (u = true → NoDup L).
Proof.
  destruct (CommonTreeNodeStreamNewTree _ hint st) as [s st'] eqn:Es. intros L Hst Hd Hf Hl Hh Ha. split.
  - destruct (new_stream_fresh a hint u st s st' Hh Es) as (Hfr & _ & Hk).
    apply (node_serve_all_ok fuel m a u Hst Hf Hl qs (setUniqueNavigationNodes u s, st', []) _ rs rd) in Ha as (c & E & _);
      [by exists c|]. split; cbn; [done|constructor|done|done].
  - intros ->. apply label_nodup. by apply (sublist_NoDup _ _ Hd), visits_nodes.
Qed.

(** The list says all of the tree. A reader that only looks at the types and the tokens
    of the nodes of a stream, and consumes them, builds the tree again, or the children
    of a nil node, and is at the end of the stream then, provided that no token of the tree
    has a type for navigation; and the text of the stream is the texts of the nodes with
    the numbers of those types between them. *)
Theorem stream_rebuilds m a n fuel hint u st :
  let '(s, st) := CommonTreeNodeStreamNewTree (TreeRefine.root a) hint st in
  stored m a → (height (erase a) ≤ fuel)%nat → Z.of_nat (length (steps a)) < 2 ^ 30 - 2 → 0 ≤ hint < 2 ^ 32 →
  Forall plain (tokens_of (erase a)) → (length (steps a) < n)%nat →
  (∃ s', read_trees n fuel m (setUniqueNavigationNodes u s)
     = Ok (if Tree.isNilNode (erase a) then Tree.children (erase a) else [erase a], s') ∧
     LT fuel m 1 s' = Ok (Some EOF_NODE, s')) ∧
  toString fuel m s = Ok (written (erase a)).
Proof.
  destruct (CommonTreeNodeStreamNewTree _ hint st) as [s st'] eqn:Es. intros Hst Hf Hl Hh Hp Hn. split.
  2: { injection Es as <- _. apply (toStringWork_ok fuel m a Hst Hf). }
  destruct (new_stream_fresh a hint u st s st' Hh Es) as (Hfr & _ & _).
  destruct (filled_fresh fuel m a u Hst Hf ltac:(lia) _ Hfr) as (s1 & E1 & Hs1 & _).
  pose proof (standing_filled fuel m _ _ _ Hs1) as E2.
  assert (read_trees n fuel m (setUniqueNavigationNodes u s) = read_trees n fuel m s1) as ->.
  { destruct n; [done|]. cbn [read_trees]. unfold LA. by rewrite (LT_filled fuel m _ s1). }
  pose (cs := if Tree.isNilNode (erase a) then akids a else [a]).
  assert (steps a = steps_of cs ∧ Forall (stored m) cs ∧ Forall (λ c, is_Some (atok c)) cs ∧
    Forall plain (concat (map tokens_of (map erase cs))) ∧
    map erase cs = if Tree.isNilNode (erase a) then Tree.children (erase a) else [erase a]) as (Ec & Hc1 & Hc2 & Hc3 & <-).
  { unfold cs. destruct a as [q [tok|] v kids]; cbn [erase Tree.isNilNode Tree.token Tree.children akids] in *.
    - split_and!; [by rewrite steps_of_cons, app_nil_r|by apply Forall_singleton|by apply Forall_singleton| |done].
      cbn [map concat]. by rewrite app_nil_r.
    - apply stored_node_inv in Hst as (_ & ? & ?). by split_and!. }
  rewrite Ec in Hn. destruct (read_trees_ok fuel m u (steps a) Hl n [] cs [] s1) as (s' & E & Hs');
    [by rewrite app_nil_r|by left|done..|].
  exists s'. split; [done|]. rewrite <-Ec in Hs'. cbn [length Nat.add] in Hs'.
  rewrite (LT_at fuel m u (steps a) Hl _ s' Hs') by done.
  by rewrite lookup_ge_None_2 by (by rewrite length_label).
Qed.

(** ** Examples *)

(** The tree of [TreePrograms], and what is asked of a stream over it. *)
Definition on_sample {A} (f : ARBORETUM → COMMON_TREE_NODE_STREAM → STACKS → outcome A) : outcome A :=
  m ← ArboretumNew;
  '(m, env) ← act_all sample_program (m, []);
  t ← var env 9;
  t ← deref t;
  let '(s, st) := CommonTreeNodeStreamNewTree t 0 [] in
  f m s st.
Fixpoint consumes (n : nat) (fuel : nat) (m : ARBORETUM) (s : COMMON_TREE_NODE_STREAM)
    : outcome COMMON_TREE_NODE_STREAM :=
  match n with O => Ok s | S n => s ← consume fuel m s; consumes n fuel m s end.

Lemma stream_reads_tree_witness :
  ∃ m p q1 q2 s st c,
    serve_all 2 m [Look 1; Consume; LookType 1; Consume; Mark; Look 1; Look 2; Consume; Consume; LookType 1;
                   Consume; Look 1; Rewind 0; Look (-1); Size; Reset; Look 1]
      (setUniqueNavigationNodes true s, st, [])
    = Ok ([Node (Some (InTree p)); Done; Number 2; Done; Done; Node (Some (InTree q1)); Node (Some (InTree q2)); Done; Done;
           Number 3; Done; Node (Some EOF_NODE); Done; Node (Some (Unique 0 2)); Number 5; Done; Node (Some (InTree p))], c).
Proof.
  destruct sample_stored as (m0 & m & ptrs & p & q1 & q2 & v & v1 & v2 & _ & _ & _ & Hst & Hd).
  pose proof (stream_reads_tree m _ 2 0 true [] [Look 1; Consume; LookType 1; Consume; Mark; Look 1; Look 2; Consume;
    Consume; LookType 1; Consume; Look 1; Rewind 0; Look (-1); Size; Reset; Look 1]
    [Node (Some (InTree p)); Done; Number 2; Done; Done; Node (Some (InTree q1)); Node (Some (InTree q2)); Done; Done;
     Number 3; Done; Node (Some EOF_NODE); Done; Node (Some (Unique 0 2)); Number 5; Done; Node (Some (InTree p))]
    (mkReader (Some 0%nat) [2%nat] (Some 0%nat)) Hst Hd (Nat.le_refl _) eq_refl
    (conj (Z.le_refl _) eq_refl) eq_refl) as [[c E] _].
  exists m, p, q1, q2. do 2 eexists. exists c. exact E.
Defined.

Lemma stream_rebuilds_witness :
  ∃ m s s', read_trees 6 2 m (setUniqueNavigationNodes false s) = Ok ([sample_tree], s') ∧
    LT 2 m 1 s' = Ok (Some EOF_NODE, s') ∧ toString 2 m s = Ok (lit "c 2ab 3").
Proof.
  destruct sample_stored as (m0 & m & ptrs & p & q1 & q2 & v & v1 & v2 & _ & _ & _ & Hst & _).
  destruct (stream_rebuilds m _ 6 2 0 false [] Hst (Nat.le_refl _) eq_refl (conj (Z.le_refl _) eq_refl))
    as [(s' & E & E') Et].
  - repeat constructor; discriminate.
  - cbn. lia.
  - exists m. eexists. exists s'. split; [exact E|]. split; [exact E'|exact Et].
Defined.

(** Surprises. A reader that goes back to the index it asked for before it read fills the
    buffer twice, and one that rewinds before it reads has lost the tree. The previous node
    is a null pointer from the second place behind the end on. [pop] goes to the index that
    was pushed before the last one. The text from a node up to another goes on behind it.
    When a stream is reset, the one that rewrites its tree is left with a stack that was
    freed. *)
Lemma NodeStream_defects :
  on_sample (λ m s st, let i := tindex s in s ← consume 3 m s; fst <$> size 3 m (rewindMark i s)) = Ok 10 ∧
  on_sample (λ m s st, fst <$> LT 3 m 1 (rewindLast s)) = Ok (Some EOF_NODE) ∧
  on_sample (λ m s st, s ← consumes 5 3 m s; fst <$> LT 3 m (-1) s) = Ok (Some UP) ∧
  on_sample (λ m s st, s ← consumes 6 3 m s; fst <$> LT 3 m (-1) s) = Ok None ∧
  on_sample (λ m s st, s ← consumes 3 3 m s; '(s, st) ← push 1 s st; '(i, s, _) ← pop s st; Ok (i, tindex s))
    = Ok (0, 0) ∧
  on_sample (λ m s st, s ← consumes 3 3 m s; '(s, st) ← push 1 s st; '(s, st) ← push 2 s st;
                          '(i, s, _) ← pop s st; Ok (i, tindex s)) = Ok (3, 3) ∧
  on_sample (λ m s st, '(x, _) ← get 3 m 2 s;
                          toStringSS 3 m (root s) (match x with Some (InTree t) => Some t | _ => None end)) = Ok (lit "c 2ab 3") ∧
  on_sample (λ m s st, let r := CommonTreeNodeStreamNewStream s in '(_, st) ← reset s st; push 0 r st)
    = Undef UseAfterFree.
Proof. vm_compute. tauto. Qed.
