(* ===== verification/TreeDot.v ===== *)
(** Pictures of trees: makeDot of
    src/antlr/libantlr3c-3.4/src/antlr3basetreeadaptor.c writes a tree of [TreeStore] as a
    graph in the language of Graphviz, and a reader of it gets the tree back. *)
From S2P Require Import Prelude.
From S2P Require Import CppString.
From S2P Require Import Lines.
From S2P Require Import Vector.
From S2P Require Import VectorFactory.
From S2P Require Import Lexer.
From S2P Require Import TreeStore.
From S2P Require Import TreeRefine.
From S2P Require Import TreePrograms.
From S2P Require Import TreeCopy.
From S2P Require NodeStream.
From S2P Require Tree.

(** ** Writing *)

Definition quoted (s : string) : str := quote :: lit s ++ [quote].
(** The default look and feel. *)
Definition dot_header : list str :=
  [lit "digraph {"; []; tab ++ lit "ordering=out;"; tab ++ lit "ranksep=.4;";
   tab ++ lit "bgcolor=" ++ quoted "lightgrey" ++ lit ";  node [shape=box, fixedsize=false, fontsize=12, fontname=" ++
     quoted "Helvetica-bold" ++ lit ", fontcolor=" ++ quoted "blue";
   tab ++ lit "width=.25, height=.25, color=" ++ quoted "black" ++ lit ", fillcolor=" ++ quoted "white" ++ lit ", style=" ++
     quoted "filled, solid, bold" ++ lit "];"; [];
   tab ++ lit "edge [arrowsize=.5, color=" ++ quoted "black" ++ lit ", style=" ++ quoted "bold" ++ lit "]"; []].
Definition dot_char (c : ascii) : str :=
  if bool_decide (c = quote) then [backslash; quote]
  else if bool_decide (c = nl) then backslash :: lit "n"
  else if bool_decide (c = ascii_of_nat 13) then backslash :: lit "r"
  else [c].
Definition dot_text (s : str) : str := mjoin (dot_char <$> s).

Section dot.
(** What "%p" prints for a node. *)
Context (address : tptr → str).

(** A node with its text, as a statement. *)
Definition define_node (t : tptr) (m : ARBORETUM) : outcome str :=
  buff ← sprintf 64 (tab ++ lit "n" ++ address t ++ lit "[label=" ++ [quote]);
  text ← toString t m;
  Ok (buff ++ dot_text text ++ [quote] ++ lit "]" ++ [nl]).
Fixpoint each_child (f : tptr → outcome str) (n : nat) (i : Z) (t : tptr) (m : ARBORETUM) : outcome str :=
  match n with
  | O => Ok []
  | S n =>
      child ← getChild t i m;
      child ← deref child;
      s ← f child;
      rest ← each_child f n (i + 1) t m;
      Ok (s ++ rest)
  end.
Fixpoint defineDotNodes (fuel : nat) (m : ARBORETUM) (t : tptr) : outcome str :=
  match fuel with
  | O => Undef NoFuel
  | S fuel =>
      n ← getChildCount t m;
      let nCount := sint 32 n in
      if nCount =? 0 then Ok []
      else each_child (λ child,
        s ← define_node child m;
        below ← defineDotNodes fuel m child;
        Ok (s ++ below)) (Z.to_nat nCount) 0 t m
  end.
Definition define_edge (t child : tptr) (m : ARBORETUM) : outcome str :=
  buff ← sprintf 128 (tab ++ tab ++ lit "n" ++ address t ++ lit " -> n" ++ address child ++ tab ++ tab ++ lit "// ");
  text ← toString t m;
  text' ← toString child m;
  Ok (buff ++ dot_text text ++ lit " -> " ++ dot_text text' ++ [nl]).
Fixpoint defineDotEdges (fuel : nat) (m : ARBORETUM) (t : tptr) : outcome str :=
  match fuel with
  | O => Undef NoFuel
  | S fuel =>
      n ← getChildCount t m;
      let nCount := sint 32 n in
      if nCount =? 0 then Ok []
      else each_child (λ child,
        s ← define_edge t child m;
        below ← defineDotEdges fuel m child;
        Ok (s ++ below)) (Z.to_nat nCount) 0 t m
  end.
Definition makeDot (fuel : nat) (theTree : option tptr) (m : ARBORETUM) : outcome str :=
  let dotSpec := unlines dot_header in
  match theTree with
  | None => Ok (dotSpec ++ lit "n0[label=" ++ quoted "EMPTY TREE" ++ lit "]" ++ [nl])
  | Some t =>
      s ← define_node t m;
      nodes ← defineDotNodes fuel m t;
      edges ← defineDotEdges fuel m t;
      Ok (dotSpec ++ s ++ nodes ++ [nl] ++ edges ++ [nl] ++ lit "}")
  end.
End dot.

(** ** Reading *)

(** A label up to its closing quotation mark. *)
Fixpoint read_label (s : str) : option str :=
  match s with
  | [] => None
  | c :: s =>
      if bool_decide (c = quote) then Some []
      else if bool_decide (c = backslash) then
        match s with
        | d :: s =>
            let c := if bool_decide (d = quote) then quote
                     else if bool_decide (d = ascii_of_nat 110) then nl
                     else if bool_decide (d = ascii_of_nat 114) then ascii_of_nat 13 else d in
            cons c <$> read_label s
        | [] => None
        end
      else cons c <$> read_label s
  end.
Definition read_node (l : str) : option (str * str) :=
  s ← after (tab ++ lit "n") l;
  '(x, s) ← until (ascii_of_nat 91) s;
  s ← after (lit "label=" ++ [quote]) s;
  text ← read_label s;
  Some (x, text).
Definition read_edge (l : str) : option (str * str) :=
  s ← after (tab ++ tab ++ lit "n") l;
  '(x, s) ← until (ascii_of_nat 32) s;
  s ← after (lit "-> n") s;
  '(y, _) ← until tab_char s;
  Some (x, y).

(** What a picture shows: a tree of texts. *)
Inductive DRAWN : Type := Drawn (text : str) (below : list DRAWN).
Definition targets (x : str) (edges : list (str * str)) : list str := (filter (λ e, e.1 = x) edges).*2.
Fixpoint grow (n : nat) (names edges : list (str * str)) (x : str) : DRAWN :=
  match n with
  | O => Drawn [] []
  | S n => Drawn (default [] (head (targets x names))) (map (grow n names edges) (targets x edges))
  end.
(** The tree below the node that is named first, [n] levels of it. *)
Definition shown (n : nat) (s : str) : option DRAWN :=
  let names := omap read_node (split_at nl s) in
  let edges := omap read_edge (split_at nl s) in
  match names with
  | (x, _) :: _ => Some (grow n names edges x)
  | [] => None
  end.

Definition node_text (tok : option COMMON_TOKEN) : str :=
  match tok with None => lit "nil" | Some tok => tok_text tok end.
Fixpoint picture (t : Tree.BASE_TREE) : DRAWN :=
  let 'Tree.Tree tok cs := t in Drawn (node_text tok) (map picture cs).
Fixpoint texts (d : DRAWN) : list str := let 'Drawn s ds := d in s :: concat (map texts ds).

Lemma dot_text_cons c s : dot_text (c :: s) = dot_char c ++ dot_text s.
Proof. done. Qed.
Lemma dot_text_line s : nl ∉ dot_text s.
Proof.
  induction s as [|c s IH]; [apply not_elem_of_nil|]. rewrite dot_text_cons, not_elem_of_app. split; [|done].
  unfold dot_char. destruct (bool_decide_reflect (c = quote)); [concrete|].
  destruct (bool_decide_reflect (c = nl)); [concrete|]. destruct (bool_decide_reflect (c = ascii_of_nat 13)); [concrete|].
  rewrite list_elem_of_singleton. congruence.
Qed.
Lemma read_label_text s rest : backslash ∉ s → read_label (dot_text s ++ quote :: rest) = Some s.
Proof.
  induction s as [|c s IH]; [done|]. intros [Hc Hs]%not_elem_of_cons. rewrite dot_text_cons, <-app_assoc.
  unfold dot_char. destruct (bool_decide_reflect (c = quote)) as [->|Hq]; [cbn; by rewrite IH|].
  destruct (bool_decide_reflect (c = nl)) as [->|]; [cbn; by rewrite IH|].
  destruct (bool_decide_reflect (c = ascii_of_nat 13)) as [->|]; [cbn; by rewrite IH|].
  cbn [app read_label]. rewrite !bool_decide_eq_false_2 by congruence. by rewrite IH.
Qed.

(** ** Lines *)

Section lines.
Context (address : tptr → str).

Definition node_line (p : tptr) (s : str) : str :=
  tab ++ lit "n" ++ address p ++ lit "[label=" ++ [quote] ++ dot_text s ++ [quote] ++ lit "]".
Definition edge_line (p : tptr) (s : str) (q : tptr) (s' : str) : str :=
  tab ++ tab ++ lit "n" ++ address p ++ lit " -> n" ++ address q ++ tab ++ tab ++ lit "// " ++
  dot_text s ++ lit " -> " ++ dot_text s'.
Definition atext (a : ATREE) : str := node_text (atok a).
Fixpoint node_lines (a : ATREE) : list str :=
  let 'ANode p tok _ cs := a in node_line p (node_text tok) :: concat (map node_lines cs).
Fixpoint edge_lines (a : ATREE) : list str :=
  let 'ANode p tok _ cs := a in
  concat (map (λ c, edge_line p (node_text tok) (root c) (atext c) :: edge_lines c) cs).
(** The names that "%p" gives to nodes have no character that ends them. *)
Definition printable (s : str) : Prop :=
  nl ∉ s ∧ tab_char ∉ s ∧ ascii_of_nat 91 ∉ s ∧ ascii_of_nat 32 ∉ s ∧ len s ≤ 18.
#[local] Instance printable_dec s : Decision (printable s).
Proof. unfold printable. apply _. Defined.

Lemma read_node_line p s : printable (address p) → backslash ∉ s → read_node (node_line p s) = Some (address p, s).
Proof.
  intros (_ & _ & Hb & _) Hs. unfold read_node, node_line.
  change (tab ++ lit "n" ++ ?x) with ((tab ++ lit "n") ++ x). rewrite after_app. cbn [mbind option_bind].
  change (lit "[label=" ++ [quote] ++ dot_text s ++ [quote] ++ lit "]")
    with (ascii_of_nat 91 :: (lit "label=" ++ [quote]) ++ dot_text s ++ quote :: lit "]").
  rewrite until_word by done. cbn [mbind option_bind]. rewrite after_app. cbn [mbind option_bind].
  by rewrite read_label_text.
Qed.
Lemma read_edge_line p s q s' :
  printable (address p) → printable (address q) → read_edge (edge_line p s q s') = Some (address p, address q).
Proof.
  intros (_ & _ & _ & Hp & _) (_ & Hq & _). unfold read_edge, edge_line.
  set (rest := tab ++ lit "// " ++ dot_text s ++ lit " -> " ++ dot_text s').
  change (tab ++ tab ++ lit "n" ++ ?x) with ((tab ++ tab ++ lit "n") ++ x). rewrite after_app. cbn [mbind option_bind].
  change (lit " -> n" ++ address q ++ tab ++ rest) with (ascii_of_nat 32 :: lit "-> n" ++ address q ++ tab_char :: rest).
  rewrite until_word by done. cbn [mbind option_bind]. rewrite after_app. cbn [mbind option_bind].
  by rewrite until_word.
Qed.
Lemma read_node_edge p s q s' : read_node (edge_line p s q s') = None.
Proof. done. Qed.
Lemma read_edge_node p s : read_edge (node_line p s) = None.
Proof. done. Qed.

Lemma ATREE_lines_ind (P : ATREE → Prop) :
  (∀ p tok v cs, (∀ c, c ∈ cs → P c) → P (ANode p tok v cs)) → ∀ a, P a.
Proof. intros H. apply ATREE_nested_ind. intros p tok v cs Hcs. apply H. by apply Forall_forall. Qed.
Lemma elem_of_below {A B} (f : A → list B) l x : x ∈ concat (map f l) ↔ ∃ c, c ∈ l ∧ x ∈ f c.
Proof.
  rewrite list_elem_of_In, in_concat. split.
  - intros (k & (c & <- & Hc)%in_map_iff & Hx). exists c. by rewrite !list_elem_of_In.
  - intros (c & Hc & Hx). exists (f c). split; [apply in_map|]; by apply list_elem_of_In.
Qed.
Lemma Forall_below {A B} (P : B → Prop) (f : A → list B) l :
  Forall P (concat (map f l)) ↔ ∀ c, c ∈ l → Forall P (f c).
Proof.
  rewrite Forall_forall. setoid_rewrite elem_of_below. setoid_rewrite Forall_forall. naive_solver.
Qed.
Lemma NoDup_below {A B} (f : A → list B) l c : NoDup (concat (map f l)) → c ∈ l → NoDup (f c).
Proof.
  intros Hd (l1 & l2 & ->)%list_elem_of_split. rewrite map_app, concat_app in Hd. cbn in Hd.
  apply NoDup_app in Hd as (_ & _ & Hd). by apply NoDup_app in Hd as (? & _).
Qed.
Lemma node_lines_line a : Forall (λ p, printable (address p)) (nodes a) → Forall (λ l, nl ∉ l) (node_lines a).
Proof.
  induction a as [p tok v cs IH] using ATREE_lines_ind. cbn [nodes node_lines]. intros [Hp Hcs]%Forall_cons.
  rewrite Forall_below in Hcs. constructor; [|apply Forall_below; auto].
  unfold node_line. rewrite !not_elem_of_app. destruct Hp. by split_and!; [concrete..| |concrete|concrete|apply dot_text_line|concrete|concrete].
Qed.
Lemma edge_lines_line a : Forall (λ p, printable (address p)) (nodes a) → Forall (λ l, nl ∉ l) (edge_lines a).
Proof.
  induction a as [p tok v cs IH] using ATREE_lines_ind. cbn [nodes edge_lines]. intros [Hp Hcs]%Forall_cons.
  rewrite Forall_below in Hcs. apply Forall_below. intros c Hc. constructor; [|auto].
  assert (printable (address (root c))) as [Hq _].
  { specialize (Hcs c Hc). destruct c; cbn in Hcs. by apply Forall_cons in Hcs as []. }
  destruct Hp as [Hp _]. unfold edge_line. rewrite !not_elem_of_app. split_and!; done || apply dot_text_line || concrete.
Qed.

(** What the lines say. *)
Fixpoint named (a : ATREE) : list (str * str) :=
  let 'ANode p tok _ cs := a in (address p, node_text tok) :: concat (map named cs).
Fixpoint linked (a : ATREE) : list (str * str) :=
  let 'ANode p _ _ cs := a in concat (map (λ c, (address p, address (root c)) :: linked c) cs).
Lemma omap_below {A B C} (r : B → option C) (f : A → list B) (g : A → list C) l :
  (∀ c, c ∈ l → omap r (f c) = g c) → omap r (concat (map f l)) = concat (map g l).
Proof.
  induction l as [|c l IH]; [done|]. intros H. cbn [map concat]. rewrite omap_app, (H c) by left. f_equal. apply IH.
  intros c' Hc'. apply H. by right.
Qed.
Lemma read_node_lines a :
  Forall (λ p, printable (address p)) (nodes a) → Forall (λ s, backslash ∉ s) (texts (picture (erase a))) →
  omap read_node (node_lines a) = named a ∧ omap read_edge (node_lines a) = [].
Proof.
  induction a as [p tok v cs IH] using ATREE_lines_ind. cbn [nodes node_lines erase picture texts named].
  intros [Hp Hcs]%Forall_cons [Ht Hts]%Forall_cons. rewrite Forall_below in Hcs. rewrite !map_map, Forall_below in Hts.
  assert (∀ c, c ∈ cs → omap read_node (node_lines c) = named c ∧ omap read_edge (node_lines c) = []) as H by auto.
  split.
  - cbn [omap list_omap]. rewrite read_node_line by done. f_equal. apply omap_below. intros c Hc. by apply H.
  - cbn [omap list_omap]. rewrite read_edge_node. rewrite (omap_below _ _ (λ _, [])) by (intros c Hc; by apply H).
    clear. by induction cs.
Qed.
Lemma read_edge_lines a :
  Forall (λ p, printable (address p)) (nodes a) →
  omap read_edge (edge_lines a) = linked a ∧ omap read_node (edge_lines a) = [].
Proof.
  induction a as [p tok v cs IH] using ATREE_lines_ind. cbn [nodes edge_lines linked].
  intros [Hp Hcs]%Forall_cons. rewrite Forall_below in Hcs. split.
  - apply omap_below. intros c Hc. cbn [omap list_omap]. rewrite read_edge_line; [|done|].
    + f_equal. by apply IH; auto.
    + specialize (Hcs c Hc). destruct c; cbn in Hcs. by apply Forall_cons in Hcs as [].
  - rewrite (omap_below _ _ (λ _, [])); [clear; by induction cs|]. intros c Hc. cbn [omap list_omap].
    rewrite read_node_edge. by apply IH; auto.
Qed.

(** ** The graph is the tree *)

Fixpoint parts (a : ATREE) : list ATREE :=
  let 'ANode _ _ _ cs := a in a :: concat (map parts cs).
Lemma targets_app x a b : targets x (a ++ b) = targets x a ++ targets x b.
Proof. unfold targets. by rewrite filter_app, fmap_app. Qed.
Lemma targets_cons x e l : targets x (e :: l) = (if decide (e.1 = x) then [e.2] else []) ++ targets x l.
Proof. unfold targets. rewrite filter_cons. by case_decide. Qed.
Lemma targets_absent x l : x ∉ l.*1 → targets x l = [].
Proof.
  unfold targets. induction l as [|e l IH]; [done|]. intros [He Hl]%not_elem_of_cons.
  rewrite filter_cons, decide_False by congruence. by apply IH.
Qed.
Lemma targets_below {A} (f : A → list (str * str)) l x :
  targets x (concat (map f l)) = concat (map (λ c, targets x (f c)) l).
Proof. induction l as [|c l IH]; [done|]. cbn [map concat]. by rewrite targets_app, IH. Qed.
Notation names a := (address <$> nodes a).
Lemma names_node p tok v cs : names (ANode p tok v cs) = address p :: concat (map (λ c, names c) cs).
Proof.
  change (nodes (ANode p tok v cs)) with (p :: concat (map nodes cs)). rewrite fmap_cons. f_equal.
  induction cs as [|c cs IH]; [done|]. cbn [map concat]. by rewrite fmap_app, IH.
Qed.
Lemma named_names a : (named a).*1 = names a.
Proof.
  induction a as [p tok v cs IH] using ATREE_lines_ind. rewrite names_node. cbn [named fmap list_fmap fst]. f_equal.
  induction cs as [|c cs IHcs]; [done|]. cbn [map concat]. rewrite fmap_app, (IH c) by left. f_equal. apply IHcs.
  intros c' Hc'. apply IH. by right.
Qed.
Lemma linked_names a x : x ∈ (linked a).*1 → x ∈ names a.
Proof.
  induction a as [p tok v cs IH] using ATREE_lines_ind. rewrite names_node. cbn [linked].
  intros (e & -> & (c & Hc & He)%elem_of_below)%list_elem_of_fmap. apply elem_of_cons in He as [->|He]; [left|].
  right. apply elem_of_below. exists c. split; [done|]. apply IH; [done|]. by apply list_elem_of_fmap_2.
Qed.
Lemma names_parts a b : b ∈ parts a → address (root b) ∈ names a.
Proof.
  induction a as [p tok v cs IH] using ATREE_lines_ind. cbn [parts]. rewrite names_node.
  intros [->|(c & Hc & Hb)%elem_of_below]%elem_of_cons; [left|]. right. apply elem_of_below. eauto.
Qed.

(** Only one of some lists has a thing that they have at all. *)
Lemma only_one {A B C} (f : A → list B) (g : A → list C) l c x :
  NoDup (concat (map f l)) → c ∈ l → x ∈ f c → (∀ c', c' ∈ l → x ∉ f c' → g c' = []) → concat (map g l) = g c.
Proof.
  intros Hd Hc Hx Hg. apply list_elem_of_split in Hc as (l1 & l2 & ->).
  rewrite !map_app, !concat_app in *. cbn [map concat] in *. apply NoDup_app in Hd as (Hd1 & Hd2 & Hd3).
  apply NoDup_app in Hd3 as (_ & Hd4 & _).
  assert (∀ k, (∀ c', c' ∈ k → c' ∈ l1 ++ c :: l2 ∧ x ∉ f c') → concat (map g k) = []) as H.
  { intros k. induction k as [|c' k IH]; [done|]. intros Hk. cbn. rewrite Hg, IH; [done| |apply Hk; left..].
    intros c'' Hc''. apply Hk. by right. }
  rewrite (H l1), (H l2); [by rewrite app_nil_r|..]; intros c' Hc'; (split; [rewrite elem_of_app, elem_of_cons; auto|]); intros Hx'.
  - apply (Hd4 x Hx), elem_of_below. eauto.
  - apply (Hd2 x); [apply elem_of_below; eauto|]. apply elem_of_app. by left.
Qed.
Lemma named_target a b :
  NoDup (names a) → b ∈ parts a → targets (address (root b)) (named a) = [atext b].
Proof.
  induction a as [p tok v cs IH] using ATREE_lines_ind. rewrite names_node. cbn [parts named].
  intros [Hp Hd]%NoDup_cons [->|(c & Hc & Hb)%elem_of_below]%elem_of_cons.
  - cbn [root]. rewrite targets_cons, decide_True by done. rewrite (targets_absent _ (concat _)); [done|].
    intros (e & E & (c & Hc & He)%elem_of_below)%list_elem_of_fmap. apply Hp, elem_of_below. exists c. split; [done|].
    rewrite <-named_names, E. by apply list_elem_of_fmap_2.
  - pose proof (names_parts c b Hb) as Hn. rewrite targets_cons, decide_False.
    2: { cbn. intros E. apply Hp. rewrite E. apply elem_of_below. eauto. }
    rewrite app_nil_l, targets_below, (only_one (λ c, names c) _ _ c (address (root b))); [|done..|].
    + apply IH; [done|exact (NoDup_below _ cs c Hd Hc)|done].
    + intros c' Hc' Hx. apply targets_absent. by rewrite named_names.
Qed.
Lemma linked_target a b :
  NoDup (names a) → b ∈ parts a → targets (address (root b)) (linked a) = (λ c, address (root c)) <$> akids b.
Proof.
  induction a as [p tok v cs IH] using ATREE_lines_ind. rewrite names_node. cbn [parts linked].
  intros [Hp Hd]%NoDup_cons [->|(c & Hc & Hb)%elem_of_below]%elem_of_cons; rewrite targets_below.
  - cbn [root akids].
    assert (∀ c, c ∈ cs → targets (address p) ((address p, address (root c)) :: linked c) = [address (root c)]) as H.
    { intros c Hc. rewrite targets_cons, decide_True by done. rewrite targets_absent; [done|].
      intros Hx%linked_names. apply Hp, elem_of_below. eauto. }
    clear -H. induction cs as [|c cs IH]; [done|]. cbn [map concat fmap list_fmap]. rewrite H by left. cbn [app]. f_equal.
    apply IH. intros c' Hc'. apply H. by right.
  - pose proof (names_parts c b Hb) as Hn.
    assert (∀ c', targets (address (root b)) ((address p, address (root c')) :: linked c') = targets (address (root b)) (linked c')) as H.
    { intros c'. rewrite targets_cons, decide_False; [done|]. cbn. intros E. apply Hp. rewrite E. apply elem_of_below. eauto. }
    rewrite (only_one (λ c, names c) _ _ c (address (root b))); [|done..|].
    + rewrite H. apply IH; [done|exact (NoDup_below _ cs c Hd Hc)|done].
    + intros c' Hc' Hx. rewrite H. apply targets_absent. by intros ?%linked_names.
Qed.

Lemma parts_trans a b c : b ∈ parts a → c ∈ akids b → c ∈ parts a.
Proof.
  induction a as [p tok v cs IH] using ATREE_lines_ind. cbn [parts]. rewrite !elem_of_cons, !elem_of_below.
  intros [->|(d & Hd & Hb)] Hc; right; [|by eauto]. cbn in Hc. exists c. split; [done|]. destruct c. left.
Qed.
Lemma grow_ok a n b :
  NoDup (names a) → b ∈ parts a → (height (erase b) ≤ n)%nat →
  grow n (named a) (linked a) (address (root b)) = picture (erase b).
Proof.
  intros Hd. revert b. induction n as [|n IH]; intros b Hb Hn; [destruct b; cbn in Hn; lia|].
  cbn [grow]. rewrite named_target, linked_target by done. destruct b as [p tok v cs] eqn:Eb. cbn [erase picture head default akids].
  rewrite map_map. f_equal. change (map ?f (?g <$> cs)) with (map f (map g cs)). rewrite map_map.
  apply map_ext_in. intros c Hc%list_elem_of_In. apply IH.
  - apply (parts_trans a b); by subst b.
  - pose proof (kid_height c cs Hc). cbn in Hn. lia.
Qed.

(** ** What is written *)

Lemma atext_ok m a : stored m a → toString (root a) m = Ok (atext a).
Proof. intros H. rewrite (toString_ok m a H). by destruct a as [p [tok|] v cs]. Qed.
Lemma each_child_ok f g n i m a :
  stored m a → (n + i = length (akids a))%nat → (∀ c, c ∈ akids a → f (root c) = Ok (g c)) →
  each_child f n (Z.of_nat i) (root a) m = Ok (concat (map g (drop i (akids a)))).
Proof.
  intros H. revert i. induction n as [|n IH]; intros i Hn Hf; cbn [each_child].
  { by rewrite drop_ge by lia. }
  rewrite (getChild_ok m a i H). destruct (lookup_lt_is_Some_2 (akids a) i) as [c Ec]; [lia|].
  rewrite Ec. cbn [mbind outcome_bind fmap option_fmap option_map deref].
  rewrite Hf by (by eapply list_elem_of_lookup_2). cbn [mbind outcome_bind].
  replace (Z.of_nat i + 1) with (Z.of_nat (S i)) by lia. rewrite IH by (done || lia). cbn [mbind outcome_bind].
  by rewrite (drop_S _ c i) by done.
Qed.
Lemma children_ok f g m a :
  stored m a → Z.of_nat (tree_size (erase a)) < 2 ^ 31 → (∀ c, c ∈ akids a → f (root c) = Ok (g c)) →
  (n ← getChildCount (root a) m; let nCount := sint 32 n in
   if nCount =? 0 then Ok [] else each_child f (Z.to_nat nCount) 0 (root a) m) = Ok (concat (map g (akids a))).
Proof.
  intros H Hs Hf. rewrite (getChildCount_ok m a H). cbn [mbind outcome_bind].
  assert (Z.of_nat (length (akids a)) < 2 ^ 31) as Hl.
  { pose proof (length_le_sum (akids a)). destruct a as [p tok v cs]. cbn [akids] in *.
    change (tree_size (erase _)) with (S (list_sum (map tree_size (map erase cs)))) in Hs. lia. }
  rewrite sint_small by lia. destruct (Z.eqb_spec (Z.of_nat (length (akids a))) 0) as [E|E].
  { by destruct (akids a). }
  change 0 with (Z.of_nat 0). rewrite (each_child_ok f g); [done|done|lia|done].
Qed.
Lemma define_node_ok m a :
  stored m a → printable (address (root a)) →
  define_node address (root a) m = Ok (node_line (root a) (atext a) ++ [nl]).
Proof.
  intros H (_ & _ & _ & _ & Hl). unfold define_node. rewrite sprintf_ok.
  - cbn [mbind outcome_bind]. rewrite (atext_ok m a H). cbn [mbind outcome_bind]. unfold node_line. by rewrite <-!app_assoc.
  - unfold len in *. rewrite !length_app. cbn. lia.
Qed.
Lemma define_edge_ok m a c :
  stored m a → stored m c → printable (address (root a)) → printable (address (root c)) →
  define_edge address (root a) (root c) m = Ok (edge_line (root a) (atext a) (root c) (atext c) ++ [nl]).
Proof.
  intros H Hc (_ & _ & _ & _ & Hl) (_ & _ & _ & _ & Hl'). unfold define_edge. rewrite sprintf_ok.
  - cbn [mbind outcome_bind]. rewrite (atext_ok m a H), (atext_ok m c Hc). cbn [mbind outcome_bind].
    unfold edge_line. by rewrite <-!app_assoc.
  - unfold len in *. rewrite !length_app. cbn. lia.
Qed.
Lemma unlines_below {A} (f : A → list str) l : concat (map (λ c, unlines (f c)) l) = unlines (concat (map f l)).
Proof. induction l as [|c l IH]; [done|]. cbn [map concat]. by rewrite IH, unlines_app. Qed.
Lemma node_lines_eq a : node_lines a = node_line (root a) (atext a) :: concat (map node_lines (akids a)).
Proof. by destruct a. Qed.
Lemma edge_lines_eq a :
  edge_lines a = concat (map (λ c, edge_line (root a) (atext a) (root c) (atext c) :: edge_lines c) (akids a)).
Proof. by destruct a. Qed.
Lemma kid_size c cs : c ∈ cs → (tree_size (erase c) ≤ list_sum (map tree_size (map erase cs)))%nat.
Proof.
  intros (l1 & l2 & ->)%list_elem_of_split. rewrite !map_app, list_sum_app. cbn [map list_sum]. cbn. lia.
Qed.
(** What a kid has of its tree. *)
Lemma kid_ok m a c fuel :
  stored m a → (height (erase a) ≤ S fuel)%nat → Z.of_nat (tree_size (erase a)) < 2 ^ 31 →
  Forall (λ p, printable (address p)) (nodes a) → c ∈ akids a →
  stored m c ∧ (height (erase c) ≤ fuel)%nat ∧ Z.of_nat (tree_size (erase c)) < 2 ^ 31 ∧
  Forall (λ p, printable (address p)) (nodes c) ∧ printable (address (root a)) ∧ printable (address (root c)).
Proof.
  intros H Hf Hs Hp Hc. destruct (stored_kids m a c H Hc) as [Hst _]. destruct a as [p tok v cs].
  cbn [akids nodes root] in *. apply Forall_cons in Hp as [Hp Hps]. rewrite Forall_below in Hps.
  pose proof (kid_height c cs Hc). pose proof (kid_size c cs Hc).
  change (tree_size (erase (ANode p tok v cs))) with (S (list_sum (map tree_size (map erase cs)))) in Hs.
  change (height (erase (ANode p tok v cs))) with (S (list_max (map height (map erase cs)))) in Hf.
  specialize (Hps c Hc). split_and!; [done|lia|lia|done|done|]. destruct c. by apply Forall_cons in Hps as [].
Qed.
Lemma defineDotNodes_ok fuel m a :
  stored m a → (height (erase a) ≤ fuel)%nat → Z.of_nat (tree_size (erase a)) < 2 ^ 31 →
  Forall (λ p, printable (address p)) (nodes a) →
  defineDotNodes address fuel m (root a) = Ok (unlines (concat (map node_lines (akids a)))).
Proof.
  revert a. induction fuel as [|fuel IH]; intros a H Hf Hs Hp; [destruct a; cbn in Hf; lia|].
  cbn [defineDotNodes]. rewrite <-unlines_below. apply children_ok; [done..|]. intros c Hc.
  destruct (kid_ok m a c fuel H Hf Hs Hp Hc) as (Hst & Hf' & Hs' & Hp' & _ & Hpc).
  rewrite define_node_ok by done. cbn [mbind outcome_bind]. rewrite IH by done. cbn [mbind outcome_bind].
  by rewrite (node_lines_eq c).
Qed.
Lemma defineDotEdges_ok fuel m a :
  stored m a → (height (erase a) ≤ fuel)%nat → Z.of_nat (tree_size (erase a)) < 2 ^ 31 →
  Forall (λ p, printable (address p)) (nodes a) →
  defineDotEdges address fuel m (root a) = Ok (unlines (edge_lines a)).
Proof.
  revert a. induction fuel as [|fuel IH]; intros a H Hf Hs Hp; [destruct a; cbn in Hf; lia|].
  cbn [defineDotEdges]. rewrite edge_lines_eq, <-unlines_below. apply children_ok; [done..|]. intros c Hc.
  destruct (kid_ok m a c fuel H Hf Hs Hp Hc) as (Hst & Hf' & Hs' & Hp' & Hpa & Hpc).
  rewrite define_edge_ok by done. cbn [mbind outcome_bind]. by rewrite IH by done.
Qed.
Definition picture_lines (a : ATREE) : list str := dot_header ++ node_lines a ++ [[]] ++ edge_lines a ++ [[]].
Lemma makeDot_ok fuel m a :
  stored m a → (height (erase a) ≤ fuel)%nat → Z.of_nat (tree_size (erase a)) < 2 ^ 31 →
  Forall (λ p, printable (address p)) (nodes a) →
  makeDot address fuel (Some (root a)) m = Ok (unlines (picture_lines a) ++ lit "}").
Proof.
  intros H Hf Hs Hp. unfold makeDot. rewrite define_node_ok; [|done|by destruct a; apply Forall_cons in Hp as []].
  cbn [mbind outcome_bind]. rewrite defineDotNodes_ok, defineDotEdges_ok by done. cbn [mbind outcome_bind].
  unfold picture_lines. rewrite !unlines_app, node_lines_eq, <-!app_assoc. do 2 f_equal.
  change (unlines (?l :: ?ls)) with ((l ++ [nl]) ++ unlines ls). by rewrite <-!app_assoc.
Qed.
End lines.

(** C31: a picture shows the tree. For any tree in memory, makeDot returns on as much fuel as
    the tree is high, provided that "%p" prints different names for different nodes; and
    from the nodes and edges of the graph that it wrote a reader gets the tree back, with the
    text of each node and the children in their order, if no text has a backslash. *)
Theorem picture_shows_tree address m a fuel :
  stored m a → (height (erase a) ≤ fuel)%nat → Z.of_nat (tree_size (erase a)) < 2 ^ 31 →
  NoDup (address <$> nodes a) → Forall (λ p, printable (address p)) (nodes a) →
  Forall (λ s, backslash ∉ s) (texts (picture (erase a))) →
  ∃ s, makeDot address fuel (Some (root a)) m = Ok s ∧ shown fuel s = Some (picture (erase a)).
Proof.
  intros H Hf Hs Hd Hp Ht. eexists. split; [by apply makeDot_ok|]. unfold shown.
  assert (split_at nl (unlines (picture_lines address a) ++ lit "}") = picture_lines address a ++ [lit "}"]) as ->.
  { apply split_at_lines_last; [|concrete]. unfold picture_lines. rewrite !Forall_app. split_and!; [|by apply node_lines_line| |by apply edge_lines_line|].
    - concrete.
    - by repeat constructor; apply not_elem_of_nil.
    - by repeat constructor; apply not_elem_of_nil. }
  unfold picture_lines. rewrite !omap_app. destruct (read_node_lines address a Hp Ht) as [-> ->].
  destruct (read_edge_lines address a Hp) as [-> ->].
  change (omap read_node dot_header) with (@nil (str * str)). change (omap read_edge dot_header) with (@nil (str * str)).
  cbn [omap list_omap read_node read_edge app]. change (read_node []) with (@None (str * str)).
  change (read_edge []) with (@None (str * str)). change (read_node (lit "}")) with (@None (str * str)).
  change (read_edge (lit "}")) with (@None (str * str)). rewrite !app_nil_r.
  destruct (named address a) as [|[x s] l] eqn:E; [by destruct a|].
  assert (x = address (root a)) as -> by (destruct a; by injection E). rewrite <-E. f_equal. apply grow_ok; [done| |done].
  destruct a; left.
Qed.

(** ** An example and defects *)

Definition sample_address (p : tptr) : str := lit "0x" ++ NodeStream.digits (Z.of_nat (1024 * p.1 + p.2)).
Definition sample_places : outcome (tptr * option tptr * option tptr) :=
  m ← ArboretumNew;
  '(m, env) ← act_all sample_program (m, []);
  t ← var env 9;
  t ← deref t;
  c1 ← getChild t 0 m;
  c2 ← getChild t 1 m;
  Ok (t, c1, c2).
Lemma sample_places_at : ∃ m v v1 v2,
  stored m (ANode (0, 5) (sample_token "c") v [ANode (0, 1) (sample_token "a") v1 []; ANode (0, 2) (sample_token "b") v2 []])%nat.
Proof.
  destruct sample_stored as (m0 & m & ptrs & p & q1 & q2 & v & v1 & v2 & E0 & E & Hp & Hst & _).
  assert (sample_places = Ok (0, 5, Some (0, 1), Some (0, 2)))%nat as H by (vm_compute; reflexivity).
  unfold sample_places in H. rewrite E0 in H. cbn [mbind outcome_bind] in H. rewrite E in H. cbn [mbind outcome_bind] in H.
  unfold var in H. rewrite Hp in H. cbn [mbind outcome_bind deref] in H.
  rewrite (getChild_ok m _ 0 Hst : getChild p 0 m = _), (getChild_ok m _ 1 Hst : getChild p 1 m = _) in H.
  injection H as -> -> ->. by exists m, v, v1, v2.
Qed.
Lemma picture_shows_tree_witness :
  ∃ m s, makeDot sample_address 2 (Some (0, 5)%nat) m = Ok s ∧
    shown 2 s = Some (Drawn (lit "c") [Drawn (lit "a") []; Drawn (lit "b") []]).
Proof.
  destruct sample_places_at as (m & v & v1 & v2 & Hst).
  destruct (picture_shows_tree sample_address m _ 2 Hst) as (s & E & Es).
  - apply Nat.le_refl.
  - reflexivity.
  - apply (bool_decide_unpack _). vm_compute. exact I.
  - apply (bool_decide_unpack _). vm_compute. exact I.
  - apply (bool_decide_unpack _). vm_compute. exact I.
  - exists m, s. split; [exact E|exact Es].
Defined.

Definition picture_of_text (s : str) : outcome str :=
  m ← ArboretumNew;
  '(t, m) ← create (Some (mkToken TEXT 0 s)) m;
  makeDot sample_address 1 (Some t) m.
(** A backslash is written as it is: at the end of a text it takes the closing quotation mark
    away, and before one it ends the text. The picture of no tree is not closed. *)
Lemma makeDot_defects :
  (shown 1 <$> picture_of_text [backslash]) = Ok None ∧
  (shown 1 <$> picture_of_text (lit "a" ++ [backslash; quote] ++ lit "b")) = Ok (Some (Drawn (lit "a" ++ [backslash]) [])) ∧
  ∀ address fuel m s, makeDot address fuel None m = Ok s → ascii_of_nat 125 ∉ s.
Proof.
  split; [vm_compute; reflexivity|]. split; [vm_compute; reflexivity|]. intros address fuel m s [= <-]. concrete.
Qed.
