(* ===== verification/Debugger.v ===== *)
(** The listener that tells a debugger over a socket what a parser does:
    src/antlr/libantlr3c-3.4/src/antlr3debughandlers.c. Strings are their texts, of
    8 bits per character; a text that is given as a pointer to characters has no
    character 0. *)
From S2P Require Import Prelude.
From S2P Require Import CppString.
From S2P Require Import Lines.
From S2P Require Import NodeStream.

(** ** The listener *)

Definition DEFAULT_DEBUGGER_PORT : Z := 49100.

(** What the functions of a token return. *)
Record TOKEN : Type := mkToken {
  tokenIndex : Z;
  type : Z;
  channel : Z;
  line : Z;
  charPositionInLine : Z;
  text : option str
}.
(** An exception, as the handler reads it. *)
Record EXCEPTION : Type := mkException {
  e_name : str;
  e_index : Z;
  e_line : Z;
  e_charPositionInLine : Z
}.
(** The functions of an adaptor that the listener calls; [getToken] may not be
    installed. *)
Record ADAPTOR (N : Type) : Type := mkAdaptor {
  getUniqueID : N → Z;
  getType : N → Z;
  getText : N → option str;
  getToken : option (N → option TOKEN);
  getTokenStartIndex : N → Z
}.
Arguments mkAdaptor {N}.
Arguments getUniqueID {N}.
Arguments getType {N}.
Arguments getText {N}.
Arguments getToken {N}.
Arguments getTokenStartIndex {N}.

Section listener.
Context {N : Type}.

(** [wire] is what was written to the socket, [received] how much was read from it. *)
Record DEBUG_EVENT_LISTENER : Type := mkListener {
  port : Z;
  PROTOCOL_VERSION : Z;
  grammarFileName : option str;
  initialized : bool;
  tokenString : option str;
  adaptor : option (ADAPTOR N);
  wire : str;
  received : nat
}.
Definition set_initialized x (d : DEBUG_EVENT_LISTENER) : DEBUG_EVENT_LISTENER :=
  mkListener (port d) (PROTOCOL_VERSION d) (grammarFileName d) x (tokenString d) (adaptor d) (wire d) (received d).
Definition set_tokenString x (d : DEBUG_EVENT_LISTENER) : DEBUG_EVENT_LISTENER :=
  mkListener (port d) (PROTOCOL_VERSION d) (grammarFileName d) (initialized d) x (adaptor d) (wire d) (received d).
Definition set_wire x (d : DEBUG_EVENT_LISTENER) : DEBUG_EVENT_LISTENER :=
  mkListener (port d) (PROTOCOL_VERSION d) (grammarFileName d) (initialized d) (tokenString d) (adaptor d) x (received d).
Definition set_received x (d : DEBUG_EVENT_LISTENER) : DEBUG_EVENT_LISTENER :=
  mkListener (port d) (PROTOCOL_VERSION d) (grammarFileName d) (initialized d) (tokenString d) (adaptor d) (wire d) x.

(** [antlr3DebugListenerNew], [antlr3DebugListenerNewPort] *)
Definition DebugListenerNew : DEBUG_EVENT_LISTENER :=
  mkListener DEFAULT_DEBUGGER_PORT 2 None false None None [] 0.
Definition DebugListenerNewPort (prt : Z) : DEBUG_EVENT_LISTENER :=
  mkListener prt 2 None false None None [] 0.

(** ** The socket *)

(** What a read of one character gives. *)
Inductive RECV : Type :=
| Received (c : ascii)
| Closed
| Waiting.
(** A handler returns, or the process exits. *)
Inductive RUN : Type :=
| Running (d : DEBUG_EVENT_LISTENER)
| Exited (d : DEBUG_EVENT_LISTENER).

(** The operating system: how many of some bytes it takes, or -1, and the next character
    of the debugger, each after what was written and read so far. *)
Context (send : str → str → Z) (recv : str → nat → RECV).

Fixpoint sockSend (fuel : nat) (ptr : str) (d : DEBUG_EVENT_LISTENER)
    : outcome (bool * DEBUG_EVENT_LISTENER) :=
  match ptr with
  | [] => Ok (true, d)
  | _ =>
      match fuel with
      | O => Undef NoFuel
      | S fuel =>
          let thisSend := send (wire d) ptr in
          if thisSend =? -1 then Ok (false, d)
          else sockSend fuel (drop (Z.to_nat thisSend) ptr)
                 (set_wire (wire d ++ take (Z.to_nat thisSend) ptr) d)
      end
  end.
(** [ack]: up to the end of a line; when the socket is closed the process exits. *)
Fixpoint ack (fuel : nat) (d : DEBUG_EVENT_LISTENER) : outcome RUN :=
  match fuel with
  | O => Undef NoFuel
  | S fuel =>
      match recv (wire d) (received d) with
      | Waiting => ack fuel d
      | Closed => Ok (Exited d)
      | Received c =>
          let d := set_received (S (received d)) d in
          if bool_decide (c = nl) then Ok (Running d) else ack fuel d
      end
  end.
(** [transmit]: what is sent ends at the first character 0. *)
Definition transmit (fuel : nat) (ptr : str) (d : DEBUG_EVENT_LISTENER) : outcome RUN :=
  '(_, d) ← sockSend fuel (c_str ptr) d;
  ack fuel d.

(** An argument for "%d", of 32 bits. *)
Definition d_of (z : Z) : str := digits (sint 32 (u32 z)).

(** [handshake]; [connected] says whether the system accepted a connection. *)
Definition handshake (fuel : nat) (connected : bool) (d : DEBUG_EVENT_LISTENER)
    : outcome (bool * RUN) :=
  if negb (initialized d) && negb connected then Ok (false, Running d)
  else
    m ← sprintf 256 (lit "ANTLR " ++ d_of (PROTOCOL_VERSION d) ++ [nl]);
    '(_, d) ← sockSend fuel m d;
    g ← deref (grammarFileName d);
    m ← sprintf 256 (lit "grammar " ++ [ascii_of_nat 34] ++ c_str g ++ [nl]);
    '(_, d) ← sockSend fuel m d;
    r ← ack fuel d;
    match r with
    | Exited d => Ok (false, Exited d)
    | Running d => Ok (true, Running (set_initialized true d))
    end.

(** ** Serialization *)

Definition serialize_char (c : ascii) : str :=
  if bool_decide (c = nl) then lit "%0A"
  else if bool_decide (c = ascii_of_nat 13) then lit "%0D"
  else if bool_decide (c = ascii_of_nat 92) then lit "%25"
  else [c].
Definition serializeText (buffer : str) (txt : option str) : str :=
  buffer ++ tab ++ [ascii_of_nat 34] ++
  match txt with None => [] | Some s => mjoin (serialize_char <$> s) end.

(** The string of the listener, which is made with the factory of the grammar's name. *)
Definition own_string (d : DEBUG_EVENT_LISTENER) : outcome DEBUG_EVENT_LISTENER :=
  match tokenString d with
  | Some _ => Ok d
  | None => _ ← deref (grammarFileName d); Ok (set_tokenString (Some []) d)
  end.
(** [serializeToken] returns a copy of the string. *)
Definition serializeToken (t : TOKEN) (d : DEBUG_EVENT_LISTENER)
    : outcome (str * DEBUG_EVENT_LISTENER) :=
  d ← own_string d;
  let s := d_of (tokenIndex t) ++ tab ++ d_of (type t) ++ tab ++ d_of (channel t) ++ tab ++
           d_of (line t) ++ tab ++ d_of (charPositionInLine t) in
  let s := serializeText s (text t) in
  Ok (s, set_tokenString (Some s) d).
(** [serializeNode] returns its string itself for a null node, and else a copy. *)
Inductive BUFFER : Type :=
| TokenString
| Copy (s : str).
Definition serializeNode (node : option N) (d : DEBUG_EVENT_LISTENER)
    : outcome (BUFFER * DEBUG_EVENT_LISTENER) :=
  d ← own_string d;
  match node with
  | None => Ok (TokenString, set_tokenString (Some []) d)
  | Some node =>
      a ← deref (adaptor d);
      token_of ← init (getToken a);
      let s := tab ++ d_of (getUniqueID a node) ++ tab ++ d_of (getType a node) ++ tab ++
        match token_of node with
        | Some t => d_of (line t) ++ lit " " ++ d_of (charPositionInLine t)
        | None => d_of (-1) ++ tab ++ d_of (-1)
        end ++ tab ++ d_of (getTokenStartIndex a node) in
      let s := serializeText s (getText a node) in
      Ok (Copy s, set_tokenString (Some s) d)
  end.
(** A change to the string that [serializeNode] returned. *)
Definition edit (f : str → str) (b : BUFFER) (d : DEBUG_EVENT_LISTENER) : BUFFER * DEBUG_EVENT_LISTENER :=
  match b with
  | TokenString => (TokenString, set_tokenString (f <$> tokenString d) d)
  | Copy s => (Copy (f s), d)
  end.

(** ** The events *)

Definition enterRule (fuel : nat) (grammar ruleName : str) (d : DEBUG_EVENT_LISTENER) : outcome RUN :=
  s ← sprintf 512 (lit "enterRule" ++ tab ++ grammar ++ tab ++ ruleName ++ [nl]);
  transmit fuel s d.
Definition enterAlt (fuel : nat) (alt : Z) (d : DEBUG_EVENT_LISTENER) : outcome RUN :=
  s ← sprintf 512 (lit "enterAlt" ++ tab ++ d_of alt ++ [nl]);
  transmit fuel s d.
Definition exitRule (fuel : nat) (grammar ruleName : str) (d : DEBUG_EVENT_LISTENER) : outcome RUN :=
  s ← sprintf 512 (lit "exitRule" ++ tab ++ grammar ++ tab ++ ruleName ++ [nl]);
  transmit fuel s d.
Definition enterSubRule (fuel : nat) (decision : Z) (d : DEBUG_EVENT_LISTENER) : outcome RUN :=
  s ← sprintf 512 (lit "enterSubRule" ++ tab ++ d_of decision ++ [nl]);
  transmit fuel s d.
Definition exitSubRule (fuel : nat) (decision : Z) (d : DEBUG_EVENT_LISTENER) : outcome RUN :=
  s ← sprintf 512 (lit "exitSubRule" ++ tab ++ d_of decision ++ [nl]);
  transmit fuel s d.
Definition enterDecision (fuel : nat) (decision : Z) (d : DEBUG_EVENT_LISTENER) : outcome RUN :=
  s ← sprintf 512 (lit "enterDecision" ++ tab ++ d_of decision ++ [nl]);
  transmit fuel s d.
Definition exitDecision (fuel : nat) (decision : Z) (d : DEBUG_EVENT_LISTENER) : outcome RUN :=
  s ← sprintf 512 (lit "exitDecision" ++ tab ++ d_of decision ++ [nl]);
  transmit fuel s d.
Definition consumeToken (fuel : nat) (t : TOKEN) (d : DEBUG_EVENT_LISTENER) : outcome RUN :=
  '(msg, d) ← serializeToken t d;
  transmit fuel (lit "consumeToken" ++ tab ++ msg ++ [nl]) d.
Definition consumeHiddenToken (fuel : nat) (t : TOKEN) (d : DEBUG_EVENT_LISTENER) : outcome RUN :=
  '(msg, d) ← serializeToken t d;
  transmit fuel (lit "consumeHiddenToken" ++ tab ++ msg ++ [nl]) d.
Definition LT (fuel : nat) (i : Z) (t : option TOKEN) (d : DEBUG_EVENT_LISTENER) : outcome RUN :=
  match t with
  | None => Ok (Running d)
  | Some t =>
      '(msg, d) ← serializeToken t d;
      transmit fuel (lit "LT" ++ tab ++ d_of i ++ tab ++ msg ++ [nl]) d
  end.
Definition mark (fuel : nat) (marker : Z) (d : DEBUG_EVENT_LISTENER) : outcome RUN :=
  s ← sprintf 128 (lit "mark" ++ tab ++ d_of marker ++ [nl]);
  transmit fuel s d.
Definition rewindMark (fuel : nat) (marker : Z) (d : DEBUG_EVENT_LISTENER) : outcome RUN :=
  s ← sprintf 128 (lit "rewind" ++ tab ++ d_of marker ++ [nl]);
  transmit fuel s d.
Definition rewindLast (fuel : nat) (d : DEBUG_EVENT_LISTENER) : outcome RUN :=
  transmit fuel (lit "rewind" ++ [nl]) d.
Definition beginBacktrack (fuel : nat) (level : Z) (d : DEBUG_EVENT_LISTENER) : outcome RUN :=
  s ← sprintf 128 (lit "beginBacktrack" ++ tab ++ d_of level ++ [nl]);
  transmit fuel s d.
Definition endBacktrack (fuel : nat) (level : Z) (successful : bool) (d : DEBUG_EVENT_LISTENER)
    : outcome RUN :=
  s ← sprintf 128 (lit "endBacktrack" ++ tab ++ d_of level ++ tab ++ d_of (if successful then 1 else 0) ++ [nl]);
  transmit fuel s d.
Definition location (fuel : nat) (ln pos : Z) (d : DEBUG_EVENT_LISTENER) : outcome RUN :=
  s ← sprintf 128 (lit "location" ++ tab ++ d_of ln ++ tab ++ d_of pos ++ [nl]);
  transmit fuel s d.
Definition recognitionException (fuel : nat) (e : EXCEPTION) (d : DEBUG_EVENT_LISTENER) : outcome RUN :=
  s ← sprintf 256 (lit "exception" ++ tab ++ e_name e ++ tab ++ d_of (e_index e) ++ tab ++
                   d_of (e_line e) ++ tab ++ d_of (e_charPositionInLine e) ++ [nl]);
  transmit fuel s d.
Definition beginResync (fuel : nat) (d : DEBUG_EVENT_LISTENER) : outcome RUN :=
  transmit fuel (lit "beginResync" ++ [nl]) d.
Definition endResync (fuel : nat) (d : DEBUG_EVENT_LISTENER) : outcome RUN :=
  transmit fuel (lit "endResync" ++ [nl]) d.

(** [semanticPredicate]: the buffer has 64 characters and two for each of the
    predicate. *)
Definition predicate_char (c : ascii) : str :=
  if bool_decide (c = nl) then lit "%0A"
  else if bool_decide (c = ascii_of_nat 13) then lit "%0D"
  else if bool_decide (c = ascii_of_nat 37) then lit "%0D"
  else [c].
Definition semanticPredicate (fuel : nat) (result : bool) (predicate : option str) (d : DEBUG_EVENT_LISTENER)
    : outcome RUN :=
  match predicate with
  | None => Ok (Running d)
  | Some s =>
      buffer ← sprintf (64 + 2 * len s)
        (lit "semanticPredicate" ++ tab ++ lit (if result then "true" else "false") ++ tab ++
         mjoin (predicate_char <$> s) ++ [nl]);
      transmit fuel buffer d
  end.
Definition commence (d : DEBUG_EVENT_LISTENER) : outcome RUN := Ok (Running d).
Definition terminate (fuel : nat) (d : DEBUG_EVENT_LISTENER) : outcome RUN :=
  '(_, d) ← sockSend fuel (lit "terminate" ++ [nl]) d;
  Ok (Running d).

(** *** Trees *)

(** The end of [consumeNode] and [LTT]: what is sent is a copy of the listener's own
    string. *)
Definition transmit_own (fuel : nat) (d : DEBUG_EVENT_LISTENER) : outcome RUN :=
  s ← deref (tokenString d);
  transmit fuel s d.
Definition consumeNode (fuel : nat) (t : option N) (d : DEBUG_EVENT_LISTENER) : outcome RUN :=
  '(buffer, d) ← serializeNode t d;
  let '(_, d) := edit (λ s, lit "consumeNode" ++ tab ++ s ++ [nl]) buffer d in
  transmit_own fuel d.
Definition LTT (fuel : nat) (i : Z) (t : option N) (d : DEBUG_EVENT_LISTENER) : outcome RUN :=
  '(buffer, d) ← serializeNode t d;
  let '(_, d) := edit (λ s, lit "LN" ++ tab ++ d_of i ++ tab ++ s ++ [nl]) buffer d in
  transmit_own fuel d.
Definition nilNode (fuel : nat) (t : N) (d : DEBUG_EVENT_LISTENER) : outcome RUN :=
  a ← deref (adaptor d);
  s ← sprintf 128 (lit "nilNode" ++ tab ++ d_of (getUniqueID a t) ++ [nl]);
  transmit fuel s d.
Definition createNode (fuel : nat) (t : N) (d : DEBUG_EVENT_LISTENER) : outcome RUN :=
  d ← own_string d;
  a ← deref (adaptor d);
  let s := lit "createNodeFromTokenElements " ++ d_of (getUniqueID a t) ++ tab ++ d_of (getType a t) in
  let s := serializeText s (getText a t) ++ [nl] in
  transmit fuel s (set_tokenString (Some s) d).
Definition errorNode (fuel : nat) (t : N) (d : DEBUG_EVENT_LISTENER) : outcome RUN :=
  d ← own_string d;
  a ← deref (adaptor d);
  let s := lit "errorNode" ++ tab ++ d_of (getUniqueID a t) ++ tab ++ d_of 0 in
  let s := serializeText s (getText a t) ++ [nl] in
  transmit fuel s (set_tokenString (Some s) d).
Definition createNodeTok (fuel : nat) (node : N) (token : TOKEN) (d : DEBUG_EVENT_LISTENER) : outcome RUN :=
  a ← deref (adaptor d);
  s ← sprintf 128 (lit "createNode" ++ tab ++ d_of (getUniqueID a node) ++ tab ++ d_of (tokenIndex token) ++ [nl]);
  transmit fuel s d.
Definition becomeRoot (fuel : nat) (newRoot oldRoot : N) (d : DEBUG_EVENT_LISTENER) : outcome RUN :=
  a ← deref (adaptor d);
  s ← sprintf 128 (lit "becomeRoot" ++ tab ++ d_of (getUniqueID a newRoot) ++ tab ++
                   d_of (getUniqueID a oldRoot) ++ [nl]);
  transmit fuel s d.
Definition addChild (fuel : nat) (root child : N) (d : DEBUG_EVENT_LISTENER) : outcome RUN :=
  a ← deref (adaptor d);
  s ← sprintf 128 (lit "addChild" ++ tab ++ d_of (getUniqueID a root) ++ tab ++
                   d_of (getUniqueID a child) ++ [nl]);
  transmit fuel s d.
Definition setTokenBoundaries (fuel : nat) (t : N) (tokenStartIndex tokenStopIndex : Z)
    (d : DEBUG_EVENT_LISTENER) : outcome RUN :=
  a ← deref (adaptor d);
  s ← sprintf 128 (lit "becomeRoot" ++ tab ++ d_of (getUniqueID a t) ++ tab ++ d_of tokenStartIndex ++ tab ++
                   d_of tokenStopIndex ++ [nl]);
  transmit fuel s d.
End listener.
Arguments DEBUG_EVENT_LISTENER : clear implicits.
Arguments RUN : clear implicits.
