(* ===== verification/DebugProtocol.v ===== *)
(** The protocol between the listener of [Debugger] and a debugger: what the debugger
    reads, and that neither waits for the other for ever. *)
From S2P Require Import Prelude.
From S2P Require Import CppString.
From S2P Require Import Lines.
From S2P Require Import NodeStream.
From S2P Require Import Debugger.
From S2P Require RtString.

(** ** Reading lines *)

(** A field that starts with a quotation mark is a text, in which a percent sign comes
    before a number of two digits. *)
Fixpoint unescape (s : str) : str :=
  match s with
  | [] => []
  | c :: s =>
      match s with
      | a :: b :: s' =>
          if bool_decide ([c; a; b] = lit "%0A") then nl :: unescape s'
          else if bool_decide ([c; a; b] = lit "%0D") then ascii_of_nat 13 :: unescape s'
          else if bool_decide ([c; a; b] = lit "%25") then ascii_of_nat 37 :: unescape s'
          else c :: unescape s
      | _ => c :: unescape s
      end
  end.
Definition read_field (f : str) : str :=
  match f with
  | c :: s => if bool_decide (c = quote) then c :: unescape s else f
  | [] => []
  end.
(** The text of a predicate has no quotation mark. *)
Definition read_line (s : str) : list str :=
  match split_at tab_char s with
  | [c; r; p] =>
      if bool_decide (c = lit "semanticPredicate") then [c; r; unescape p] else read_field <$> [c; r; p]
  | fs => read_field <$> fs
  end.
(** What a debugger reads of some bytes: the fields of the lines that are complete. *)
Definition read_wire (s : str) : list (list str) := read_line <$> removelast (split_at nl s).

(** ** Texts *)

(** The characters that are not told apart in a text, those that end a field, and those that
    are sent as one byte where the debugger expects UTF-8. *)
Definition legible (s : str) : Prop :=
  ascii_of_nat 37 ∉ s ∧ ascii_of_nat 92 ∉ s ∧ tab_char ∉ s ∧ Forall (λ c, (nat_of_ascii c < 128)%nat) s.
Lemma unescape_char c s : c ≠ ascii_of_nat 37 → unescape (c :: s) = c :: unescape s.
Proof.
  intros Hc. destruct s as [|a [|b s]]; [done..|]. cbn [unescape].
  rewrite !bool_decide_eq_false_2; [done|..]; intros [= -> _ _]; by apply Hc.
Qed.
(** The two functions that write a text, [serialize_char] and [predicate_char], write line ends
    in the same way. *)
Lemma unescape_written (f : ascii → str) s :
  f nl = lit "%0A" → f (ascii_of_nat 13) = lit "%0D" →
  Forall (λ c, c ≠ ascii_of_nat 37 ∧ (c ≠ nl → c ≠ ascii_of_nat 13 → f c = [c])) s → unescape (mjoin (f <$> s)) = s.
Proof.
  intros Hn Hr. induction 1 as [|c s [Hc Hf] _ IH]; [done|]. change (mjoin (f <$> c :: s)) with (f c ++ mjoin (f <$> s)).
  destruct (decide (c = nl)) as [->|Hcn]; [|destruct (decide (c = ascii_of_nat 13)) as [->|Hcr]].
  - rewrite Hn. change (lit "%0A" ++ mjoin (f <$> s)) with (ascii_of_nat 37 :: ascii_of_nat 48 :: ascii_of_nat 65 :: mjoin (f <$> s)).
    cbn [unescape]. rewrite bool_decide_eq_true_2 by done. by rewrite IH.
  - rewrite Hr. change (lit "%0D" ++ mjoin (f <$> s)) with (ascii_of_nat 37 :: ascii_of_nat 48 :: ascii_of_nat 68 :: mjoin (f <$> s)).
    cbn [unescape]. rewrite bool_decide_eq_false_2, bool_decide_eq_true_2 by done. by rewrite IH.
  - rewrite (Hf Hcn Hcr). cbn [app]. rewrite unescape_char by done. by rewrite IH.
Qed.
Lemma unescape_text s : legible s → unescape (mjoin (serialize_char <$> s)) = s.
Proof.
  intros (Hp & Hb & _). apply unescape_written; [done..|]. apply Forall_forall. intros c Hc. split; [by intros ->|].
  intros H1 H2. unfold serialize_char. rewrite !bool_decide_eq_false_2; [done| |done|done]. by intros ->.
Qed.
Lemma unescape_predicate s : ascii_of_nat 37 ∉ s → unescape (mjoin (predicate_char <$> s)) = s.
Proof.
  intros Hp. apply unescape_written; [done..|]. apply Forall_forall. intros c Hc. split; [by intros ->|].
  intros H1 H2. unfold predicate_char. rewrite !bool_decide_eq_false_2; [done| |done|done]. by intros ->.
Qed.
Lemma not_in_written (f : ascii → str) x s : Forall (λ c, x ∉ f c) s → x ∉ mjoin (f <$> s).
Proof. induction 1 as [|c s H _ IH]; [apply not_elem_of_nil|]. cbn. by rewrite not_elem_of_app. Qed.
Lemma serialize_char_clean c : nl ∉ serialize_char c ∧ (tab_char ≠ c → tab_char ∉ serialize_char c).
Proof.
  unfold serialize_char. destruct (bool_decide_reflect (c = nl)) as [->|Hc]; [split; [|intros _]; concrete|].
  destruct (bool_decide_reflect (c = ascii_of_nat 13)) as [->|]; [split; [|intros _]; concrete|].
  destruct (bool_decide_reflect (c = ascii_of_nat 92)) as [->|]; [split; [|intros _]; concrete|].
  rewrite !list_elem_of_singleton. split; congruence.
Qed.
Lemma predicate_char_clean c : nl ∉ predicate_char c ∧ (tab_char ≠ c → tab_char ∉ predicate_char c).
Proof.
  unfold predicate_char. destruct (bool_decide_reflect (c = nl)) as [->|Hc]; [split; [|intros _]; concrete|].
  destruct (bool_decide_reflect (c = ascii_of_nat 13)) as [->|]; [split; [|intros _]; concrete|].
  destruct (bool_decide_reflect (c = ascii_of_nat 37)) as [->|]; [split; [|intros _]; concrete|].
  rewrite !list_elem_of_singleton. split; congruence.
Qed.
Lemma written_clean (f : ascii → str) s :
  (∀ c, nl ∉ f c ∧ (tab_char ≠ c → tab_char ∉ f c)) →
  nl ∉ mjoin (f <$> s) ∧ (tab_char ∉ s → tab_char ∉ mjoin (f <$> s)).
Proof.
  intros Hf. split; [|intros Ht]; apply not_in_written, Forall_forall; intros c Hc; [apply Hf|]. apply (proj2 (Hf c)). by intros <-.
Qed.
Lemma escaped_clean s : nl ∉ mjoin (serialize_char <$> s) ∧ (tab_char ∉ s → tab_char ∉ mjoin (serialize_char <$> s)).
Proof. apply written_clean, serialize_char_clean. Qed.

(** A field that is not a text. *)
Definition word (s : str) : Prop := nl ∉ s ∧ tab_char ∉ s ∧ head s ≠ Some quote.
#[export] Instance word_dec s : Decision (word s).
Proof. unfold word. apply _. Defined.

(** Numbers. *)
Lemma d_of_chars z : Forall (λ c, c ≠ nl ∧ c ≠ tab_char ∧ c ≠ quote ∧ c ≠ nul) (d_of z).
Proof.
  unfold d_of, digits. generalize (sint 32 (u32 z)) as i. intros i. apply Forall_fmap.
  pose (ok := λ c, ascii_of_nat (Z.to_nat c) ≠ nl ∧ ascii_of_nat (Z.to_nat c) ≠ tab_char ∧
    ascii_of_nat (Z.to_nat c) ≠ quote ∧ ascii_of_nat (Z.to_nat c) ≠ nul).
  assert (∀ c, c = 45 ∨ 48 ≤ c ≤ 57 → ok c) as Hd.
  { intros c Hc. assert (c = 45 ∨ c = 48 ∨ c = 49 ∨ c = 50 ∨ c = 51 ∨ c = 52 ∨ c = 53 ∨ c = 54 ∨ c = 55 ∨ c = 56 ∨ c = 57) as E by lia.
    repeat (destruct E as [->|E]; [done|]). by subst. }
  assert (∀ n, 0 ≤ n → Forall ok (RtString.decimal 10 n [])) as H.
  { intros n Hn. eapply Forall_impl; [by apply RtString.decimal_chars|]. intros c Hc. apply Hd. by right. }
  unfold RtString.sprintf_d. destruct (Z.ltb_spec i 0); [|by apply H].
  constructor; [apply Hd; by left|]. apply H. lia.
Qed.
Lemma d_of_length z : len (d_of z) ≤ 11.
Proof. unfold len, d_of, digits. rewrite length_fmap. pose proof (RtString.sprintf_d_length (sint 32 (u32 z))). lia. Qed.
Lemma word_d_of z : word (d_of z).
Proof.
  pose proof (d_of_chars z) as H. rewrite Forall_forall in H. split_and!.
  - by intros (? & ? & ? & ?)%H.
  - by intros (? & ? & ? & ?)%H.
  - intros Hh. assert (quote ∈ d_of z) as (? & ? & ? & ?)%H; [|done]. destruct (d_of z); [done|]. injection Hh as ->. left.
Qed.
Lemma nul_d_of z : nul ∉ d_of z.
Proof. pose proof (d_of_chars z) as H. rewrite Forall_forall in H. by intros (? & ? & ? & ?)%H. Qed.

(** A text, as it is written and as it is read. *)
Definition text_field (t : option str) : str := quote :: default [] t.
Definition sent_field (t : option str) : str :=
  quote :: match t with None => [] | Some s => mjoin (serialize_char <$> s) end.
Definition legible_text (t : option str) : Prop := match t with None => True | Some s => legible s end.
Lemma sent_text t : legible_text t → nl ∉ sent_field t ∧ tab_char ∉ sent_field t ∧ read_field (sent_field t) = text_field t.
Proof.
  intros H. unfold sent_field. rewrite !not_elem_of_cons. destruct t as [s|]; cbn.
  - destruct (escaped_clean s) as [H1 H2]. pose proof H as (_ & _ & Ht & _). split_and!; [done|done|done|by apply H2|].
    rewrite bool_decide_eq_true_2 by done. by rewrite unescape_text.
  - split_and!; done || apply not_elem_of_nil.
Qed.
Lemma sent_word s : word s → nl ∉ s ∧ tab_char ∉ s ∧ read_field s = s.
Proof.
  intros (H1 & H2 & H3). split_and!; [done|done|]. destruct s as [|c s]; [done|]. cbn.
  rewrite bool_decide_eq_false_2; [done|]. intros ->. by apply H3.
Qed.

(** ** The events *)

Inductive EVENT (N : Type) : Type :=
| EnterRule (g r : str)
| EnterAlt (alt : Z)
| ExitRule (g r : str)
| EnterSubRule (n : Z)
| ExitSubRule (n : Z)
| EnterDecision (n : Z)
| ExitDecision (n : Z)
| ConsumeToken (t : TOKEN)
| ConsumeHiddenToken (t : TOKEN)
| LookedAt (i : Z) (t : TOKEN)
| Mark (m : Z)
| Rewind (m : Z)
| RewindLast
| BeginBacktrack (level : Z)
| EndBacktrack (level : Z) (successful : bool)
| Location (ln pos : Z)
| Exception (e : EXCEPTION)
| BeginResync
| EndResync
| Predicate (result : bool) (p : str)
| NilNode (t : N)
| CreateNode (t : N)
| ErrorNode (t : N)
| CreateNodeTok (t : N) (tok : TOKEN)
| BecomeRoot (newRoot oldRoot : N)
| AddChild (root child : N).
Arguments EnterRule {N}. Arguments EnterAlt {N}. Arguments ExitRule {N}. Arguments EnterSubRule {N}.
Arguments ExitSubRule {N}. Arguments EnterDecision {N}. Arguments ExitDecision {N}. Arguments ConsumeToken {N}.
Arguments ConsumeHiddenToken {N}. Arguments LookedAt {N}. Arguments Mark {N}. Arguments Rewind {N}.
Arguments RewindLast {N}. Arguments BeginBacktrack {N}. Arguments EndBacktrack {N}. Arguments Location {N}.
Arguments Exception {N}. Arguments BeginResync {N}. Arguments EndResync {N}. Arguments Predicate {N}.
Arguments NilNode {N}. Arguments CreateNode {N}. Arguments ErrorNode {N}. Arguments CreateNodeTok {N}.
Arguments BecomeRoot {N}. Arguments AddChild {N}.

Section events.
Context {N : Type} (send : str → str → Z) (recv : str → nat → RECV).
Notation listener := (DEBUG_EVENT_LISTENER N).

Definition fire (fuel : nat) (e : EVENT N) (d : listener) : outcome (RUN N) :=
  match e with
  | EnterRule g r => enterRule send recv fuel g r d
  | EnterAlt n => enterAlt send recv fuel n d
  | ExitRule g r => exitRule send recv fuel g r d
  | EnterSubRule n => enterSubRule send recv fuel n d
  | ExitSubRule n => exitSubRule send recv fuel n d
  | EnterDecision n => enterDecision send recv fuel n d
  | ExitDecision n => exitDecision send recv fuel n d
  | ConsumeToken t => consumeToken send recv fuel t d
  | ConsumeHiddenToken t => consumeHiddenToken send recv fuel t d
  | LookedAt i t => LT send recv fuel i (Some t) d
  | Mark m => mark send recv fuel m d
  | Rewind m => rewindMark send recv fuel m d
  | RewindLast => rewindLast send recv fuel d
  | BeginBacktrack n => beginBacktrack send recv fuel n d
  | EndBacktrack n b => endBacktrack send recv fuel n b d
  | Location n k => location send recv fuel n k d
  | Exception e => recognitionException send recv fuel e d
  | BeginResync => beginResync send recv fuel d
  | EndResync => endResync send recv fuel d
  | Predicate b s => semanticPredicate send recv fuel b (Some s) d
  | NilNode x => nilNode send recv fuel x d
  | CreateNode x => createNode send recv fuel x d
  | ErrorNode x => errorNode send recv fuel x d
  | CreateNodeTok x t => createNodeTok send recv fuel x t d
  | BecomeRoot x y => becomeRoot send recv fuel x y d
  | AddChild x y => addChild send recv fuel x y d
  end.
(** A session: the greeting and some events; nothing runs after an exit. *)
Fixpoint fire_all (fuel : nat) (es : list (EVENT N)) (d : listener) : outcome (RUN N) :=
  match es with
  | [] => Ok (Running d)
  | e :: es =>
      r ← fire fuel e d;
      match r with Running d => fire_all fuel es d | Exited d => Ok (Exited d) end
  end.
Definition session (fuel : nat) (es : list (EVENT N)) (d : listener) : outcome (RUN N) :=
  '(_, r) ← handshake send recv fuel true d;
  match r with Running d => fire_all fuel es d | Exited d => Ok (Exited d) end.
End events.

(** What an event says: words, the text of a predicate, and texts of tokens and nodes. *)
Inductive FIELD : Type :=
| Word (s : str)
| PredicateText (s : str)
| Text (t : option str).
Definition token_fields (t : TOKEN) : list FIELD :=
  [Word (d_of (tokenIndex t)); Word (d_of (type t)); Word (d_of (channel t)); Word (d_of (line t));
   Word (d_of (charPositionInLine t)); Text (text t)].
Definition fields {N} (a : ADAPTOR N) (e : EVENT N) : list FIELD :=
  let W s := Word (lit s) in
  let D z := Word (d_of z) in
  match e with
  | EnterRule g r => [W "enterRule"; Word g; Word r]
  | EnterAlt n => [W "enterAlt"; D n]
  | ExitRule g r => [W "exitRule"; Word g; Word r]
  | EnterSubRule n => [W "enterSubRule"; D n]
  | ExitSubRule n => [W "exitSubRule"; D n]
  | EnterDecision n => [W "enterDecision"; D n]
  | ExitDecision n => [W "exitDecision"; D n]
  | ConsumeToken t => W "consumeToken" :: token_fields t
  | ConsumeHiddenToken t => W "consumeHiddenToken" :: token_fields t
  | LookedAt i t => W "LT" :: D i :: token_fields t
  | Mark m => [W "mark"; D m]
  | Rewind m => [W "rewind"; D m]
  | RewindLast => [W "rewind"]
  | BeginBacktrack n => [W "beginBacktrack"; D n]
  | EndBacktrack n b => [W "endBacktrack"; D n; D (if b then 1 else 0)]
  | Location n k => [W "location"; D n; D k]
  | Exception e => [W "exception"; Word (e_name e); D (e_index e); D (e_line e); D (e_charPositionInLine e)]
  | BeginResync => [W "beginResync"]
  | EndResync => [W "endResync"]
  | Predicate b s => [W "semanticPredicate"; W (if b then "true" else "false"); PredicateText s]
  | NilNode x => [W "nilNode"; D (getUniqueID a x)]
  | CreateNode x => [W "createNodeFromTokenElements"; D (getUniqueID a x); D (getType a x); Text (getText a x)]
  | ErrorNode x => [W "errorNode"; D (getUniqueID a x); D 0; Text (getText a x)]
  | CreateNodeTok x t => [W "createNode"; D (getUniqueID a x); D (tokenIndex t)]
  | BecomeRoot x y => [W "becomeRoot"; D (getUniqueID a x); D (getUniqueID a y)]
  | AddChild x y => [W "addChild"; D (getUniqueID a x); D (getUniqueID a y)]
  end.
Definition sent (f : FIELD) : str :=
  match f with Word s => s | PredicateText s => mjoin (predicate_char <$> s) | Text t => sent_field t end.
Definition said (f : FIELD) : str :=
  match f with Word s | PredicateText s => s | Text t => text_field t end.
(** The fields are separated by tabs, except that [createNode] writes a space behind the
    command. *)
Definition separator {N} (e : EVENT N) : str := match e with CreateNode _ => lit " " | _ => tab end.
Definition tabbed {N} (e : EVENT N) : Prop := match e with CreateNode _ => False | _ => True end.
#[export] Instance tabbed_dec {N} (e : EVENT N) : Decision (tabbed e).
Proof. destruct e; apply _. Defined.
Definition line_of {N} (a : ADAPTOR N) (e : EVENT N) : str :=
  match sent <$> fields a e with
  | c :: (_ :: _) as fs => c ++ separator e ++ join tab fs
  | fs => join tab fs
  end.
(** The size of the array that the message is written to. *)
Definition room {N} (e : EVENT N) : option Z :=
  match e with
  | EnterRule _ _ | EnterAlt _ | ExitRule _ _ | EnterSubRule _ | ExitSubRule _ | EnterDecision _ | ExitDecision _ =>
      Some 512
  | Exception _ => Some 256
  | Predicate _ s => Some (64 + 2 * len s)
  | ConsumeToken _ | ConsumeHiddenToken _ | LookedAt _ _ | RewindLast | BeginResync | EndResync
  | CreateNode _ | ErrorNode _ => None
  | _ => Some 128
  end.
Definition field_ok (f : FIELD) : Prop :=
  match f with
  | Word s => word s
  | PredicateText s => ascii_of_nat 37 ∉ s ∧ tab_char ∉ s
  | Text t => legible_text t
  end.
Definition fits {N} (a : ADAPTOR N) (e : EVENT N) : Prop :=
  Forall field_ok (fields a e) ∧ nul ∉ line_of a e ∧
  match room e with Some n => len (line_of a e) + 1 < n | None => True end.
#[export] Instance field_ok_dec f : Decision (field_ok f).
Proof. destruct f as [s|s|[s|]]; unfold field_ok, legible_text, legible; apply _. Defined.
#[export] Instance fits_dec {N} (a : ADAPTOR N) e : Decision (fits a e).
Proof. unfold fits. destruct (room e); apply _. Defined.

(** An event that says a word and two numbers. *)
Lemma fits_numbers {N} (a : ADAPTOR N) e s x y n :
  fields a e = [Word (lit s); Word (d_of x); Word (d_of y)] → room e = Some n → word (lit s) → nul ∉ lit s →
  len (lit s) + 25 < n → fits a e.
Proof.
  intros Ef Er Hs Hn Hl. pose proof (d_of_length x). pose proof (d_of_length y).
  assert (separator e = tab) as Et by by destruct e.
  unfold fits, line_of. rewrite Ef, Er, Et.
  cbn [fmap list_fmap sent join]. split_and!.
  - repeat apply Forall_cons_2; [done|apply word_d_of..|apply Forall_nil_2].
  - rewrite !not_elem_of_app. split_and!; [done|concrete|apply nul_d_of|concrete|apply nul_d_of].
  - unfold len in *. rewrite !length_app. cbn [length tab]. lia.
Qed.
Lemma fits_created {N} (a : ADAPTOR N) x : getText a x = None → fits a (CreateNode x).
Proof.
  intros E. unfold fits, line_of. cbn [fields room fmap list_fmap sent join separator]. rewrite E. split_and!; [|rewrite !not_elem_of_app|done].
  - repeat apply Forall_cons_2; [concrete|apply word_d_of..|done|apply Forall_nil_2].
  - split_and!; [concrete|concrete|apply nul_d_of|concrete|apply nul_d_of|concrete|concrete].
Qed.

Lemma sent_clean f : field_ok f → nl ∉ sent f ∧ tab_char ∉ sent f.
Proof.
  destruct f as [s|s|t]; cbn [field_ok sent].
  - by intros (? & ? & _)%sent_word.
  - intros [_ Ht]. destruct (written_clean predicate_char s predicate_char_clean). auto.
  - by intros (? & ? & _)%sent_text.
Qed.
Lemma line_tabbed {N} (a : ADAPTOR N) e : tabbed e → line_of a e = join tab (sent <$> fields a e).
Proof. by destruct e. Qed.
Lemma line_clean {N} (a : ADAPTOR N) e : Forall field_ok (fields a e) → nl ∉ line_of a e.
Proof.
  intros Hf. assert (Forall (λ s, nl ∉ s) (sent <$> fields a e)) as Hs.
  { apply Forall_fmap. by eapply Forall_impl; [exact Hf|]; intros f [? _]%sent_clean. }
  assert (nl ∉ separator e) by (destruct e; concrete). unfold line_of.
  destruct (sent <$> fields a e) as [|c [|c' fs]]; [apply not_in_join; [concrete|done]..|].
  apply Forall_cons in Hs as [Hc Hs]. rewrite !not_elem_of_app. split_and!; [done|done|]. apply not_in_join; [concrete|done].
Qed.
(** The reader finds the fields of an event that is written with tabs. *)
Lemma read_fields fs :
  match fs with Word c :: _ => c ≠ lit "semanticPredicate" | _ => False end →
  Forall (λ f, field_ok f ∧ match f with PredicateText _ => False | _ => True end) fs →
  read_line (join tab (sent <$> fs)) = said <$> fs.
Proof.
  intros Hw Hf. unfold read_line. change tab with [tab_char]. rewrite split_at_join.
  - assert (read_field <$> (sent <$> fs) = said <$> fs) as Er.
    { rewrite <-list_fmap_compose. apply list_fmap_ext. intros i f Hi. rewrite Forall_lookup in Hf.
      destruct (Hf i f Hi) as [Hok Hp]. destruct f as [s|s|t]; [by apply sent_word|done|by apply sent_text]. }
    destruct fs as [|[c| |] fs]; [done| |done..]. destruct fs as [|r [|p [|q fs]]]; try exact Er.
    cbn [fmap list_fmap sent] in *. rewrite bool_decide_eq_false_2 by done. exact Er.
  - by destruct fs.
  - apply Forall_fmap. by eapply Forall_impl; [exact Hf|]; intros f [[_ ?]%sent_clean _].
Qed.
Lemma read_event {N} (a : ADAPTOR N) e :
  tabbed e → Forall field_ok (fields a e) → read_line (line_of a e) = said <$> fields a e.
Proof.
  intros Ht Hf. rewrite line_tabbed by done.
  destruct e; try done; try (apply read_fields; [done|]; apply Forall_and; split; [done|]; by repeat constructor).
  apply Forall_cons in Hf as [_ Hf]. apply Forall_cons in Hf as [Hr Hf]. apply Forall_cons in Hf as [Hp _].
  assert (∀ c r f, tab_char ∉ c → tab_char ∉ r → tab_char ∉ f → split_at tab_char (join tab [c; r; f]) = [c; r; f]) as Es.
  { intros c r f Hc Hrt Hft. change tab with [tab_char]. by rewrite split_at_join by by repeat constructor. }
  unfold read_line. cbn [fields fmap list_fmap sent].
  rewrite Es by (concrete || by apply (sent_clean _ Hr) || by apply (sent_clean _ Hp)).
  rewrite bool_decide_eq_true_2 by done. destruct Hp as [Hp _]. by rewrite unescape_predicate.
Qed.

(** ** The socket *)

Section protocol.
Context {N : Type}.

(** Every [send] takes some of the bytes. What the debugger has written is a function of
    what it has received, and grows with it; it has answered every line
    with at least a line, except for the first one, which is the first half of the greeting. *)
Definition newlines (s : str) : nat := length (filter (.= nl) s).
Definition sends (send : str → str → Z) : Prop := ∀ w s, s ≠ [] → 0 < send w s ≤ len s.
Record answers_lines (replies : str → str) : Prop := {
  al_grows : ∀ w s, replies w `prefix_of` replies (w ++ s);
  al_lines : ∀ w, (newlines w - 1 ≤ newlines (replies w))%nat
}.
Definition recv_of (replies : str → str) (w : str) (n : nat) : RECV :=
  match replies w !! n with Some c => Received c | None => Waiting end.

Lemma newlines_app a b : newlines (a ++ b) = (newlines a + newlines b)%nat.
Proof. unfold newlines. by rewrite filter_app, length_app. Qed.
Lemma newlines_none s : nl ∉ s → newlines s = 0%nat.
Proof.
  intros H. unfold newlines. induction s as [|c s IH]; [done|]. apply not_elem_of_cons in H as [Hc H].
  rewrite filter_cons, decide_False by congruence. by apply IH.
Qed.

Context (send : str → str → Z) (replies : str → str).
Context (Hsend : sends send) (Hal : answers_lines replies).
Notation listener := (DEBUG_EVENT_LISTENER N).
Implicit Types d : listener.
Let recv : str → nat → RECV := recv_of replies.

Lemma sockSend_ok fuel s d :
  (length s ≤ fuel)%nat → sockSend send fuel s d = Ok (true, set_wire (wire d ++ s) d).
Proof.
  revert s d. induction fuel as [|fuel IH]; intros s d Hf; destruct s as [|c s]; try (cbn in Hf; lia).
  1, 2: cbn; rewrite app_nil_r; by destruct d.
  set (x := c :: s) in *. cbn [sockSend]. unfold x at 1. fold x. pose proof (Hsend (wire d) x ltac:(done)) as Hs.
  unfold len in Hs. destruct (Z.eqb_spec (send (wire d) x) (-1)); [lia|].
  rewrite IH by (rewrite length_drop; lia). cbn. by rewrite <-app_assoc, take_drop.
Qed.

(** The listener between two events: it has read a line of answers for every line that it has
    sent but the first, and has stopped at the end of the last of them. *)
Record resting d : Prop := {
  rs_received : (received d ≤ length (replies (wire d)))%nat;
  rs_answers : newlines (take (received d) (replies (wire d))) = (newlines (wire d) - 1)%nat
}.

Lemma ack_from fuel n d :
  let r := replies (wire d) in
  (length r < fuel + n)%nat → nl ∈ drop n r →
  ∃ k, ack recv fuel (set_received n d) = Ok (Running (set_received k d)) ∧ (k ≤ length r)%nat ∧
    newlines (take k r) = S (newlines (take n r)).
Proof.
  intros r. revert n. induction fuel as [|fuel IH]; intros n Hf Hn.
  { rewrite drop_ge in Hn by (cbn in Hf; lia). by apply not_elem_of_nil in Hn. }
  destruct (r !! n) as [c|] eqn:Ec.
  2: { apply lookup_ge_None in Ec. rewrite drop_ge in Hn by done. by apply not_elem_of_nil in Hn. }
  rewrite (drop_S _ _ _ Ec) in Hn. cbn [ack]. unfold recv, recv_of. cbn [wire set_received received]. fold r. rewrite Ec.
  pose proof (take_S_r _ _ _ Ec) as Et. destruct (bool_decide_reflect (c = nl)) as [->|Hc].
  - exists (S n). split_and!; [done|by apply lookup_lt_Some in Ec|]. rewrite Et, newlines_app.
    change (newlines [nl]) with 1%nat. lia.
  - apply elem_of_cons in Hn as [Hn|Hn]; [congruence|].
    destruct (IH (S n)) as (k & E & Hk & Hnl); [lia|done|]. exists k. split_and!; [done|done|].
    rewrite Hnl, Et, newlines_app, (newlines_none [c]) by (by intros ?%list_elem_of_singleton). lia.
Qed.

(** One line, with its answer. *)
Lemma newline_in s : newlines s ≠ 0%nat → nl ∈ s.
Proof. intros H. destruct (decide (nl ∈ s)); [done|]. by rewrite newlines_none in H. Qed.
Lemma replies_take w s n : (n ≤ length (replies w))%nat → take n (replies (w ++ s)) = take n (replies w).
Proof. intros Hn. destruct (al_grows _ Hal w s) as [k ->]. by rewrite take_app_le. Qed.

Lemma answered fuel s d :
  resting d → newlines (wire d ++ s) = S (S (newlines (wire d) - 1)) → (length (replies (wire d ++ s)) < fuel)%nat →
  ∃ n, ack recv fuel (set_wire (wire d ++ s) d) = Ok (Running (set_received n (set_wire (wire d ++ s) d))) ∧
    resting (set_received n (set_wire (wire d ++ s) d)).
Proof.
  intros [Hr Ha] Hs Hf. set (d1 := set_wire (wire d ++ s) d).
  assert (length (replies (wire d)) ≤ length (replies (wire d ++ s)))%nat as Hle.
  { destruct (al_grows _ Hal (wire d) s) as [k ->]. rewrite length_app. lia. }
  pose proof (al_lines _ Hal (wire d ++ s)) as Hl. rewrite Hs in Hl.
  destruct (ack_from fuel (received d) d1) as (k & E & Hk & Hnl); cbn [wire d1 set_wire] in *.
  - lia.
  - apply newline_in. pose proof (take_drop (received d) (replies (wire d ++ s))) as Etd.
    apply (f_equal newlines) in Etd. rewrite newlines_app, replies_take, Ha in Etd by done. lia.
  - exists k. split; [exact E|]. split; cbn [received wire set_received d1 set_wire]; [done|].
    rewrite Hnl, replies_take, Ha by done. rewrite Hs. lia.
Qed.
Lemma transmit_ok fuel s d :
  resting d → (0 < newlines (wire d))%nat → newlines s = 1%nat → nul ∉ s →
  (length s ≤ fuel)%nat → (length (replies (wire d ++ s)) < fuel)%nat →
  ∃ n, transmit send recv fuel s d = Ok (Running (set_received n (set_wire (wire d ++ s) d))) ∧
    resting (set_received n (set_wire (wire d ++ s) d)).
Proof.
  intros Hr Hw Hs Hn Hf Hf'. unfold transmit. rewrite c_str_id, sockSend_ok by done. cbn [mbind outcome_bind].
  apply answered; [done| |done]. rewrite newlines_app, Hs. lia.
Qed.

Lemma own_string_ok d : is_Some (grammarFileName d) → ∃ ts, own_string d = Ok (set_tokenString ts d).
Proof.
  intros [g Hg]. unfold own_string. destruct (tokenString d) as [s|] eqn:E.
  - exists (Some s). by destruct d; cbn in *; subst.
  - rewrite Hg. by eexists.
Qed.
Lemma fire_line fuel e d a :
  adaptor d = Some a → is_Some (grammarFileName d) → fits a e →
  ∃ ts, fire send recv fuel e d = transmit send recv fuel (line_of a e ++ [nl]) (set_tokenString ts d).
Proof.
  intros Ha Hg (_ & _ & Hr).
  assert (d = set_tokenString (tokenString d) d) as Ed by by destruct d.
  destruct (own_string_ok d Hg) as [ts Ets].
  assert (len (line_of a e ++ [nl]) = len (line_of a e) + 1) as El by (unfold len; rewrite length_app; cbn; lia).
  rewrite <-El in Hr. clear El.
  destruct e; unfold line_of in *; cbn [fields fire token_fields fmap list_fmap sent join room] in *; rewrite <-?app_assoc in *;
    unfold enterRule, enterAlt, exitRule, enterSubRule, exitSubRule, enterDecision, exitDecision, consumeToken,
      consumeHiddenToken, LT, mark, rewindMark, rewindLast, beginBacktrack, endBacktrack, location, recognitionException,
      beginResync, endResync, semanticPredicate, nilNode, createNode, errorNode, createNodeTok, becomeRoot, addChild,
      serializeToken, serializeText; rewrite ?Ha, ?Ets; cbn [mbind outcome_bind deref].
  all: try (rewrite sprintf_ok by exact Hr; cbn [mbind outcome_bind]; exists (tokenString d); rewrite <-Ed; reflexivity).
  all: try (exists (tokenString d); rewrite <-Ed; reflexivity).
  all: cbn [adaptor set_tokenString]; rewrite ?Ha; cbn [mbind outcome_bind deref]; eexists; rewrite <-?app_assoc; reflexivity.
Qed.

(** A listener that works for the adaptor [a]. *)
Record working (a : ADAPTOR N) d : Prop := {
  wk_adaptor : adaptor d = Some a;
  wk_grammar : is_Some (grammarFileName d);
  wk_resting : resting d;
  wk_greeted : (0 < newlines (wire d))%nat
}.
Definition lines_of (a : ADAPTOR N) (es : list (EVENT N)) : str := unlines ((λ e, line_of a e) <$> es).
Lemma lines_of_cons (a : ADAPTOR N) (e : EVENT N) es : lines_of a (e :: es) = (line_of a e ++ [nl]) ++ lines_of a es.
Proof. done. Qed.
Lemma line_newlines (a : ADAPTOR N) (e : EVENT N) : fits a e → newlines (line_of a e ++ [nl]) = 1%nat.
Proof.
  intros [Hf _]. rewrite newlines_app, newlines_none; [done|]. by apply line_clean.
Qed.
Lemma line_nul (a : ADAPTOR N) (e : EVENT N) : fits a e → nul ∉ line_of a e ++ [nl].
Proof. intros (_ & Hn & _). rewrite not_elem_of_app. split; [done|concrete]. Qed.
Lemma replies_length w s : (length (replies w) ≤ length (replies (w ++ s)))%nat.
Proof. destruct (al_grows _ Hal w s) as [k ->]. rewrite length_app. lia. Qed.

Lemma fire_ok fuel e d a :
  working a d → fits a e → (length (line_of a e ++ [nl]) ≤ fuel)%nat →
  (length (replies (wire d ++ line_of a e ++ [nl])) < fuel)%nat →
  ∃ d', fire send recv fuel e d = Ok (Running d') ∧ working a d' ∧ wire d' = wire d ++ line_of a e ++ [nl].
Proof.
  intros [Ha Hg Hr Hw] He Hf Hf'. destruct (fire_line fuel e d a Ha Hg He) as [ts ->].
  destruct (transmit_ok fuel (line_of a e ++ [nl]) (set_tokenString ts d)) as (n & -> & Hr'); [by destruct Hr|done|by apply line_newlines|by apply line_nul|done|done|].
  eexists. split; [done|]. split; [|done]. split; [done|done|done|]. change (0 < newlines (wire d ++ line_of a e ++ [nl]))%nat. rewrite newlines_app. lia.
Qed.
Lemma fire_all_ok fuel es d a :
  working a d → Forall (fits a) es → (length (lines_of a es) ≤ fuel)%nat →
  (length (replies (wire d ++ lines_of a es)) < fuel)%nat →
  ∃ d', fire_all send recv fuel es d = Ok (Running d') ∧ working a d' ∧ wire d' = wire d ++ lines_of a es.
Proof.
  revert d. induction es as [|e es IH]; intros d Hw He Hf Hf'.
  { exists d. split_and!; [done|done|]. unfold lines_of. cbn. by rewrite app_nil_r. }
  apply Forall_cons in He as [He Hes]. rewrite lines_of_cons in *. rewrite length_app in Hf. cbn [fire_all].
  pose proof (replies_length (wire d ++ line_of a e ++ [nl]) (lines_of a es)) as Hle. rewrite <-app_assoc in Hle.
  destruct (fire_ok fuel e d a Hw He) as (d1 & -> & Hw1 & E1); [lia|lia|]. cbn [mbind outcome_bind].
  destruct (IH d1 Hw1 Hes) as (d' & -> & Hw' & E'); [lia|by rewrite E1, <-app_assoc|].
  exists d'. split_and!; [done|done|]. by rewrite E', E1, <-app_assoc.
Qed.

Definition greeting (g : str) : str := (lit "ANTLR 2" ++ [nl]) ++ (lit "grammar " ++ [quote] ++ g ++ [nl]).
Lemma handshake_ok fuel d a g :
  adaptor d = Some a → grammarFileName d = Some g → PROTOCOL_VERSION d = 2 → wire d = [] → received d = 0%nat →
  word g → nul ∉ g → len g < 240 → (length (greeting g) ≤ fuel)%nat → (length (replies (greeting g)) < fuel)%nat →
  ∃ b d', handshake send recv fuel true d = Ok (b, Running d') ∧ working a d' ∧ wire d' = greeting g.
Proof.
  intros Ha Hg Hv Hw Hr (Hn & _) Hz Hl Hf Hf'. unfold handshake. rewrite andb_false_r, Hv.
  set (m1 := lit "ANTLR 2" ++ [nl]). set (m2 := lit "grammar " ++ [quote] ++ g ++ [nl]).
  assert (greeting g = m1 ++ m2) as Eg by done. rewrite Eg, length_app in Hf.
  change (lit "ANTLR " ++ d_of 2 ++ [nl]) with m1.
  rewrite sprintf_ok by done. cbn [mbind outcome_bind]. rewrite sockSend_ok by lia. cbn [mbind outcome_bind grammarFileName set_wire].
  rewrite Hg. cbn [deref mbind outcome_bind]. rewrite c_str_id by done.
  change (lit "grammar " ++ [ascii_of_nat 34] ++ g ++ [nl]) with m2.
  assert (len m2 = len g + 10) as Em2.
  { unfold m2, len. rewrite !length_app. change (length (lit "grammar ")) with 8%nat.
    change (length [quote]) with 1%nat. change (length [nl]) with 1%nat. lia. }
  rewrite sprintf_ok by lia. cbn [mbind outcome_bind].
  rewrite sockSend_ok by lia. cbn [mbind outcome_bind].
  assert (newlines (greeting g) = 2%nat) as En.
  { rewrite Eg. unfold m1, m2. rewrite !newlines_app, (newlines_none g) by done. done. }
  destruct (answered fuel (greeting g) d) as (n & E & Hrest).
  - split; [rewrite Hr; lia|]. rewrite Hr, Hw. done.
  - by rewrite Hw.
  - by rewrite Hw.
  - rewrite Hw in E, Hrest. cbn [app] in E, Hrest.
    assert (set_wire (wire (set_wire (wire d ++ m1) d) ++ m2) (set_wire (wire d ++ m1) d) = set_wire (greeting g) d) as ->
      by (cbn; by rewrite Hw).
    rewrite E. cbn [mbind outcome_bind]. do 2 eexists. split; [done|]. split; [|done].
    split; [done|cbn; by rewrite Hg| |change (0 < newlines (greeting g))%nat; lia].
    by destruct Hrest.
Qed.
End protocol.

(** What is read of a session. *)
Lemma read_session {N} (a : ADAPTOR N) g es :
  word g → Forall tabbed es → Forall (λ e, Forall field_ok (fields a e)) es →
  read_wire (greeting g ++ lines_of a es)
  = [[lit "ANTLR 2"]; [lit "grammar " ++ quote :: g]] ++ ((fmap said ∘ fields a) <$> es).
Proof.
  intros Hgw Ht He. pose (ls := [lit "ANTLR 2"; lit "grammar " ++ quote :: g] ++ ((λ e, line_of a e) <$> es)).
  assert (greeting g ++ lines_of a es = unlines ls) as ->.
  { unfold ls. rewrite unlines_app. f_equal. unfold greeting, unlines. cbn. by rewrite app_nil_r. }
  assert (word (lit "grammar " ++ quote :: g)) as Hg2.
  { destruct Hgw as (H1 & H2 & _). split_and!; [| |done]; rewrite not_elem_of_app, not_elem_of_cons; split_and!; done || concrete. }
  unfold read_wire. rewrite split_at_lines, removelast_last.
  - unfold ls. rewrite fmap_app. f_equal.
    + cbn [fmap list_fmap]. unfold read_line at 2.
      rewrite split_at_last by apply Hg2. done.
    + rewrite <-list_fmap_compose. apply list_fmap_ext. intros i e Hi. rewrite Forall_lookup in He, Ht.
      apply read_event; [exact (Ht i e Hi)|exact (He i e Hi)].
  - unfold ls. apply Forall_app. split; [constructor; [concrete|constructor; [apply Hg2|constructor]]|].
    apply Forall_fmap. eapply Forall_impl; [exact He|]. intros e Hf1. by apply line_clean.
Qed.

(** C35: the listener and a debugger keep in step. However the system divides what is sent, a
    session with a debugger that answers every line, or every line but the first one of the
    greeting, runs to its end: after the greeting each event is sent as one line, an answer is
    awaited and comes, and nothing else is on the wire. What the debugger reads of it, line by
    line and tab by tab, are the events in order, with their words, numbers, predicates and the
    texts of their tokens and nodes; for this the events [createNode] are left out, whose command
    is not followed by a tab. The events are those of [EVENT]: not [setTokenBoundaries],
    [consumeNode], [LTT] and [terminate]. Each must fit ([fits]): names have no tabs or line ends
    and do not begin with a quotation mark, messages fit into their arrays, predicates have no tabs or percent signs, texts are of
    ASCII characters without tabs, percent signs or backslashes, and nothing has a character 0. *)
Theorem session_in_step {N} send replies (a : ADAPTOR N) d g es fuel :
  let all := greeting g ++ lines_of a es in
  sends send → answers_lines replies →
  adaptor d = Some a → grammarFileName d = Some g → PROTOCOL_VERSION d = 2 → wire d = [] → received d = 0%nat →
  word g → nul ∉ g → len g < 240 → Forall (fits a) es → (length all ≤ fuel)%nat → (length (replies all) < fuel)%nat →
  ∃ d', session send (recv_of replies) fuel es d = Ok (Running d') ∧ wire d' = all ∧
    (Forall tabbed es →
     read_wire all = [[lit "ANTLR 2"]; [lit "grammar " ++ quote :: g]] ++ ((fmap said ∘ fields a) <$> es)).
Proof.
  intros all Hs Hal Ha Hg Hv Hw Hr Hgw Hgz Hgl He Hf Hf'. unfold all in *. rewrite length_app in Hf.
  pose proof (replies_length replies Hal (greeting g) (lines_of a es)).
  destruct (handshake_ok send replies Hs Hal fuel d a g Ha Hg Hv Hw Hr Hgw Hgz Hgl) as (b & d1 & E1 & Hw1 & Ew1); [lia|lia|].
  unfold session. rewrite E1. cbn [mbind outcome_bind].
  destruct (fire_all_ok send replies Hs Hal fuel es d1 a Hw1 He) as (d' & -> & _ & Ew); [lia|by rewrite Ew1|].
  exists d'. split_and!; [done|by rewrite Ew, Ew1|]. intros Ht. apply read_session; [done|done|].
  eapply Forall_impl; [exact He|]. by intros e [? _].
Qed.

(** *** An example: a system that takes five bytes at a time, and a debugger that answers
    each line with an empty one. *)
Definition five_bytes (w s : str) : Z := Z.min 5 (len s).
Definition empty_lines (w : str) : str := replicate (newlines w - 1) nl.
Lemma five_bytes_sends : sends five_bytes.
Proof. intros w s Hs. unfold five_bytes, len. destruct s; [done|]. cbn [length]. lia. Qed.
Lemma empty_lines_answers : answers_lines empty_lines.
Proof.
  assert (∀ n, newlines (replicate n nl) = n) as H.
  { induction n as [|n IH]; [done|]. change (replicate (S n) nl) with ([nl] ++ replicate n nl). rewrite newlines_app, IH. done. }
  split; unfold empty_lines; [|intros w; by rewrite H]. intros w s. rewrite newlines_app.
  replace (newlines w + newlines s - 1)%nat with ((newlines w - 1) + (newlines w + newlines s - 1 - (newlines w - 1)))%nat by lia.
  rewrite replicate_add. by eexists.
Qed.
Definition sample_adaptor : ADAPTOR nat :=
  mkAdaptor Z.of_nat (λ _, 33) (λ _, Some (lit "x")) (Some (λ n, if Nat.eqb n 0 then None else Some (mkToken 3 33 0 1 7 (Some (lit "x")))))
    (λ _, 3).
Definition sample_listener (a : ADAPTOR nat) : DEBUG_EVENT_LISTENER nat :=
  mkListener 49100 2 (Some (lit "T.g")) false None (Some a) [] 0.
Definition sample_name : TOKEN := mkToken 0 33 0 1 0 (Some (lit "ab" ++ [nl] ++ lit "c")).
Definition sample_events : list (EVENT nat) :=
  [EnterRule (lit "T.g") (lit "credential"); LookedAt 1 sample_name; ConsumeToken sample_name; CreateNodeTok 12%nat sample_name;
   Predicate true (lit "x > 1" ++ [nl]); ExitRule (lit "T.g") (lit "credential")].
Lemma session_in_step_witness :
  ∃ d', session five_bytes (recv_of empty_lines) 400 sample_events (sample_listener sample_adaptor) = Ok (Running d') ∧
    read_wire (wire d') =
    [[lit "ANTLR 2"]; [lit "grammar " ++ quote :: lit "T.g"]; [lit "enterRule"; lit "T.g"; lit "credential"];
     [lit "LT"; lit "1"; lit "0"; lit "33"; lit "0"; lit "1"; lit "0"; quote :: lit "ab" ++ [nl] ++ lit "c"];
     [lit "consumeToken"; lit "0"; lit "33"; lit "0"; lit "1"; lit "0"; quote :: lit "ab" ++ [nl] ++ lit "c"];
     [lit "createNode"; lit "12"; lit "0"]; [lit "semanticPredicate"; lit "true"; lit "x > 1" ++ [nl]];
     [lit "exitRule"; lit "T.g"; lit "credential"]].
Proof.
  destruct (session_in_step five_bytes empty_lines sample_adaptor (sample_listener sample_adaptor) (lit "T.g") sample_events 400
    five_bytes_sends empty_lines_answers eq_refl eq_refl eq_refl eq_refl eq_refl) as (d' & E & Ew & Er).
  - concrete.
  - concrete.
  - done.
  - apply (bool_decide_unpack _). vm_compute. exact I.
  - apply (bool_decide_unpack _). vm_compute. exact I.
  - apply (bool_decide_unpack _). vm_compute. exact I.
  - exists d'. split; [exact E|]. rewrite Ew. refine (Er _). concrete.
Defined.

(** ** Defects *)

Section hangs.
Context {N : Type} (send : str → str → Z) (replies : str → str).
Context (Hsend : sends send) (Hal : answers_lines replies).
(** The debugger does not answer before the line has ended. *)
Context (Hlate : ∀ w, newlines (replies w) = (newlines w - 1)%nat).
Implicit Types d : DEBUG_EVENT_LISTENER N.

Lemma ack_hangs fuel n d :
  nl ∉ drop n (replies (wire d)) → ack (recv_of replies) fuel (set_received n d) = Undef NoFuel.
Proof.
  revert n. induction fuel as [|fuel IH]; intros n Hn; [done|]. cbn [ack]. unfold recv_of at 1. cbn [wire received set_received].
  destruct (replies (wire d) !! n) as [c|] eqn:Ec; [|by apply IH].
  rewrite (drop_S _ _ _ Ec) in Hn. apply not_elem_of_cons in Hn as [Hc Hn]. rewrite bool_decide_eq_false_2 by congruence.
  change (set_received (S n) (set_received n d)) with (set_received (S n) d). by apply IH.
Qed.
Lemma no_more_answers d s :
  resting replies d → (0 < newlines (wire d))%nat → nl ∉ s → nl ∉ drop (received d) (replies (wire d ++ s)).
Proof.
  intros [Hr Ha] Hw Hs Hin. pose proof (Hlate (wire d ++ s)) as Hl.
  rewrite newlines_app, (newlines_none s), Nat.add_0_r in Hl by done.
  rewrite <-(take_drop (received d) (replies (wire d ++ s))), newlines_app, replies_take, Ha in Hl by done.
  assert (newlines (drop (received d) (replies (wire d ++ s))) ≠ 0%nat) as Hne; [|lia].
  apply list_elem_of_split in Hin as (l1 & l2 & ->). rewrite newlines_app.
  change (nl :: l2) with ([nl] ++ l2). rewrite newlines_app. change (newlines [nl]) with 1%nat. lia.
Qed.

Lemma sockSend_cases fuel s d :
  sockSend send fuel s d = Undef NoFuel ∨ sockSend send fuel s d = Ok (true, set_wire (wire d ++ s) d).
Proof.
  revert s d. induction fuel as [|fuel IH]; intros [|c s] d; [right|by left|right|].
  1, 2: cbn; rewrite app_nil_r; by destruct d.
  set (x := c :: s). cbn [sockSend]. unfold x at 1 3. fold x. pose proof (Hsend (wire d) x ltac:(done)) as Hs.
  destruct (Z.eqb_spec (send (wire d) x) (-1)); [lia|].
  destruct (IH (drop (Z.to_nat (send (wire d) x)) x) (set_wire (wire d ++ take (Z.to_nat (send (wire d) x)) x) d)) as [->| ->];
    [by left|right]. cbn. by rewrite <-app_assoc, take_drop.
Qed.
Lemma c_str_clean c s : c ∉ s → c ∉ c_str s.
Proof.
  induction s as [|x s IH]; [done|]. intros [Hc Hs]%not_elem_of_cons. cbn. case_bool_decide; [apply not_elem_of_nil|].
  rewrite not_elem_of_cons. auto.
Qed.
Lemma transmit_hangs fuel s d :
  resting replies d → (0 < newlines (wire d))%nat → nl ∉ c_str s →
  transmit send (recv_of replies) fuel s d = Undef NoFuel.
Proof.
  intros Hr Hw Hs. unfold transmit. destruct (sockSend_cases fuel (c_str s) d) as [->| ->]; [done|]. cbn [mbind outcome_bind].
  rewrite <-(ack_hangs fuel (received d) (set_wire (wire d ++ c_str s) d)); [by destruct d|]. by apply no_more_answers.
Qed.
Lemma sent_text_line txt : nl ∉ serializeText [] txt.
Proof.
  unfold serializeText. rewrite !not_elem_of_app. split_and!; [concrete|concrete|concrete|].
  destruct txt as [s|]; [apply escaped_clean|apply not_elem_of_nil].
Qed.

(** With an adaptor that has [getToken], the first node that is consumed stops the parser:
    the debugger is sent a line without its end, and the answer, which does not come before the
    end of the line, is awaited for ever. *)
Theorem consumeNode_hangs (a : ADAPTOR N) d x fuel f :
  working replies a d → getToken a = Some f → consumeNode send (recv_of replies) fuel (Some x) d = Undef NoFuel.
Proof.
  intros [Ha Hg Hr Hw] Hf. unfold consumeNode, serializeNode. destruct (own_string_ok d Hg) as [ts ->].
  cbn [mbind outcome_bind adaptor set_tokenString]. rewrite Ha. cbn [deref mbind outcome_bind]. rewrite Hf.
  cbn [init mbind outcome_bind edit]. unfold transmit_own. cbn [tokenString set_tokenString deref mbind outcome_bind].
  apply transmit_hangs; [by destruct Hr|done|]. apply c_str_clean. pose proof (sent_text_line (getText a x)) as Ht.
  unfold serializeText in *. rewrite !not_elem_of_app in *. destruct Ht as (_ & Ht).
  assert (∀ z, nl ∉ d_of z) as Hd by (intros z; apply word_d_of).
  destruct (f x) as [t|]; rewrite ?not_elem_of_app; split_and!; first [apply Hd|apply Ht|concrete].
Qed.
End hangs.

Definition after_greeting (f : nat → DEBUG_EVENT_LISTENER nat → outcome (RUN nat)) (a : ADAPTOR nat) : outcome str :=
  '(_, r) ← handshake five_bytes (recv_of empty_lines) 200 true (sample_listener a);
  match r with
  | Exited _ => Ok []
  | Running d =>
      r ← f 200%nat d;
      Ok match r with Running d' | Exited d' => drop (length (wire d)) (wire d') end
  end.
Definition bare_adaptor : ADAPTOR nat := mkAdaptor Z.of_nat (λ _, 33) (λ _, Some (lit "x")) None (λ _, 3).
(** With the adaptor for common trees, which has no [getToken], consuming a node calls through
    memory that was never set. The boundaries of a tree are sent as an event that a node became
    the root. The place of a token is two fields when there is no token and one when there is
    one. Different texts are sent as the same; so are different predicates. A character above 127 is one byte on the
    wire. The command of a node that is created is read as one field with the number of the
    node. The arrays for rules
    and predicates have fixed sizes that names and line ends run over. A token with a character 0 is sent without the end of its
    line, and the answer is awaited for ever. *)
Lemma Debugger_defects :
  after_greeting (λ n, consumeNode five_bytes (recv_of empty_lines) n (Some 1%nat)) bare_adaptor = Undef Uninit ∧
  after_greeting (λ n, setTokenBoundaries five_bytes (recv_of empty_lines) n 7%nat 1 2) sample_adaptor
    = Ok (lit "becomeRoot" ++ tab ++ lit "7" ++ tab ++ lit "1" ++ tab ++ lit "2" ++ [nl]) ∧
  (∀ d, adaptor d = Some sample_adaptor → tokenString d = Some [] →
     (fst <$> serializeNode (Some 0%nat) d) = Ok (Copy (join tab [[]; lit "0"; lit "33"; lit "-1"; lit "-1"; lit "3"; quote :: lit "x"])) ∧
     (fst <$> serializeNode (Some 5%nat) d) = Ok (Copy (join tab [[]; lit "5"; lit "33"; lit "1 7"; lit "3"; quote :: lit "x"]))) ∧
  serializeText [] (Some [nl]) = serializeText [] (Some (lit "%0A")) ∧
  unescape (mjoin (serialize_char <$> [ascii_of_nat 92])) = lit "%" ∧
  mjoin (predicate_char <$> lit "%") = mjoin (predicate_char <$> [ascii_of_nat 13]) ∧
  mjoin (serialize_char <$> [ascii_of_nat 233]) = [ascii_of_nat 233] ∧
  read_line (line_of sample_adaptor (CreateNode 12%nat)) = [lit "createNodeFromTokenElements 12"; lit "33"; quote :: lit "x"] ∧
  after_greeting (λ n, semanticPredicate five_bytes (recv_of empty_lines) n true (Some (replicate 40 nl))) sample_adaptor = Undef BadIndex ∧
  after_greeting (λ n, enterRule five_bytes (recv_of empty_lines) n (lit "T.g") (replicate 500 (ascii_of_nat 97))) sample_adaptor = Undef BadIndex ∧
  after_greeting (λ n, consumeToken five_bytes (recv_of empty_lines) n (mkToken 0 33 0 1 0 (Some [nul]))) sample_adaptor = Undef NoFuel.
Proof.
  split_and!; [vm_compute; reflexivity|vm_compute; reflexivity| |vm_compute; reflexivity..].
  intros d Ha Ht. unfold serializeNode, own_string. rewrite Ht. cbn [mbind outcome_bind]. rewrite Ha. split; vm_compute; reflexivity.
Qed.
