(* ===== verification/TreeDebug.v ===== *)
(** The debugging version of the tree adaptor, in
    src/antlr/libantlr3c-3.4/src/antlr3basetreeadaptor.c and antlr3commontreeadaptor.c: the
    operations of [TreeStore], which tell the listener of [Debugger] what they did. *)
From S2P Require Import Prelude.
From S2P Require Import CppString.
From S2P Require Import Lines.
From S2P Require Import Lexer.
From S2P Require Import TreeStore.
From S2P Require Import TreeRefine.
From S2P Require Import TreePrograms.
From S2P Require Import TreeCopy.
From S2P Require Tree.
From S2P Require Debugger.
From S2P Require Import DebugProtocol.

(** ** The adaptor *)

(** A pointer to a node may be null. *)
Notation LISTENER := (Debugger.DEBUG_EVENT_LISTENER (option tptr)).
(** [debugging] says which functions are installed; [debugger] is not set at first. *)
Record TREE_ADAPTOR : Type := mkTreeAdaptor {
  debugging : bool;
  debugger : option LISTENER
}.
Definition set_debugger x (ta : TREE_ADAPTOR) : TREE_ADAPTOR := mkTreeAdaptor (debugging ta) x.
Definition set_adaptor x (d : LISTENER) : LISTENER :=
  Debugger.mkListener (Debugger.port d) (Debugger.PROTOCOL_VERSION d) (Debugger.grammarFileName d)
    (Debugger.initialized d) (Debugger.tokenString d) x (Debugger.wire d) (Debugger.received d).

Section adaptor.
(** A pointer as a number, and the first token of a node. *)
Context (address : tptr → Z) (getTokenStartIndex : option tptr → Z).

Definition getUniqueID (p : option tptr) : Z :=
  match p with Some p => u32 (address p) | None => 0 end.
(** What [antlr3BaseTreeAdaptorInit] leaves of the functions that the listener calls: those for
    the type and the text do nothing. *)
Definition base_functions : Debugger.ADAPTOR (option tptr) :=
  Debugger.mkAdaptor getUniqueID (λ _, 0) (λ _, None) None getTokenStartIndex.
Definition BaseTreeAdaptorInit (d : option LISTENER) (ta : TREE_ADAPTOR) : option LISTENER * TREE_ADAPTOR :=
  match d with
  | None => (None, mkTreeAdaptor false (debugger ta))
  | Some d => (Some (set_adaptor (Some base_functions) d), mkTreeAdaptor true (debugger ta))
  end.
Definition TREE_ADAPTORNew : TREE_ADAPTOR := (BaseTreeAdaptorInit None (mkTreeAdaptor false None)).2.
Definition setDebugEventListener (d : LISTENER) (ta : TREE_ADAPTOR) : option LISTENER * TREE_ADAPTOR :=
  BaseTreeAdaptorInit (Some d) ta.
Definition TREE_ADAPTORDebugNew (d : LISTENER) : option LISTENER * TREE_ADAPTOR :=
  setDebugEventListener d TREE_ADAPTORNew.
End adaptor.

(** ** Operations *)

(** A computation over the nodes and the adaptor; the process may exit. *)
Definition DBG (A : Type) : Type :=
  ARBORETUM * TREE_ADAPTOR → outcome (option (A * (ARBORETUM * TREE_ADAPTOR))).
#[export] Instance DBG_ret : MRet DBG := λ A a w, Ok (Some (a, w)).
#[export] Instance DBG_bind : MBind DBG := λ A B f c w,
  r ← c w;
  match r with None => Ok None | Some (a, w) => f a w end.
Definition tree {A} (f : ARBORETUM → outcome (A * ARBORETUM)) : DBG A := λ '(m, ta),
  '(a, m) ← f m;
  Ok (Some (a, (m, ta))).
Definition tree_ (f : ARBORETUM → outcome ARBORETUM) : DBG unit := tree (λ m, m ← f m; Ok (tt, m)).
Definition report (f : LISTENER → outcome (Debugger.RUN (option tptr))) : DBG unit := λ '(m, ta),
  d ← init (debugger ta);
  r ← f d;
  match r with
  | Debugger.Running d => Ok (Some (tt, (m, set_debugger (Some d) ta)))
  | Debugger.Exited _ => Ok None
  end.

Section debugging.
Context (send : str → str → Z) (recv : str → nat → Debugger.RECV) (fuel : nat).

Definition dbgCreate (payload : option COMMON_TOKEN) : DBG tptr :=
  ct ← tree (create payload);
  _ ← report (Debugger.createNode send recv fuel (Some ct));
  mret ct.
(** [adaptor->create] is [dbgCreate] here. *)
Definition dbgNil : DBG tptr :=
  t ← dbgCreate None;
  _ ← report (Debugger.createNode send recv fuel (Some t));
  mret t.
Definition dbgAddChild (t child : option tptr) : DBG unit :=
  match t, child with
  | Some p, Some _ =>
      _ ← tree_ (addChild p child);
      report (Debugger.addChild send recv fuel t child)
  | _, _ => mret tt
  end.
Definition dbgAddChildToken (t : option tptr) (child : option COMMON_TOKEN) : DBG unit :=
  match t, child with
  | Some _, Some _ =>
      tc ← dbgCreate child;
      _ ← dbgAddChild t (Some tc);
      report (Debugger.addChild send recv fuel t (Some tc))
  | _, _ => mret tt
  end.
Definition dbgBecomeRoot (newRootTree oldRootTree : option tptr) : DBG (option tptr) :=
  t ← tree (becomeRoot newRootTree oldRootTree);
  _ ← report (Debugger.becomeRoot send recv fuel newRootTree oldRootTree);
  mret t.
Definition dbgBecomeRootToken (newRoot : option COMMON_TOKEN) (oldRoot : option tptr) : DBG (option tptr) :=
  p ← dbgCreate newRoot;
  t ← dbgBecomeRoot (Some p) oldRoot;
  _ ← report (Debugger.becomeRoot send recv fuel t oldRoot);
  mret t.
Definition dbgCreateTypeToken (tokenType : Z) (fromToken : COMMON_TOKEN) : DBG tptr :=
  t ← dbgCreate (Some (mkToken tokenType (tok_channel fromToken) (tok_text fromToken)));
  _ ← report (Debugger.createNode send recv fuel (Some t));
  mret t.
Definition dbgCreateTypeTokenText (tokenType : Z) (fromToken : COMMON_TOKEN) (text : str) : DBG tptr :=
  t ← dbgCreate (Some (mkToken tokenType (tok_channel fromToken) text));
  _ ← report (Debugger.createNode send recv fuel (Some t));
  mret t.
Definition dbgCreateTypeText (tokenType : Z) (text : str) : DBG tptr :=
  t ← dbgCreate (Some (mkToken tokenType TOKEN_DEFAULT_CHANNEL text));
  _ ← report (Debugger.createNode send recv fuel (Some t));
  mret t.
(** [dupTreeTT], with the number of children that the adaptor tells: none. *)
Definition dbg_dupTreeTT (t : tptr) (m : ARBORETUM) : outcome (tptr * ARBORETUM) :=
  '(newTree, m) ← dupNode t m;
  i ← getChildIndex t m;
  m ← setChildIndex newTree i m;
  m ← setParent newTree None m;
  Ok (newTree, m).
Definition dbgDupTree (t : option tptr) : DBG (option tptr) :=
  t ← match t with None => mret None | Some t => p ← tree (dbg_dupTreeTT t); mret (Some p) end;
  _ ← report (Debugger.createNode send recv fuel t);
  mret t.
Definition dbgSetTokenBoundaries (t : option tptr) (startToken stopToken : option Z) : DBG unit :=
  _ ← tree_ (setTokenBoundaries t startToken stopToken);
  match t, startToken, stopToken with
  | Some _, Some a, Some b => report (Debugger.setTokenBoundaries send recv fuel t a b)
  | _, _, _ => mret tt
  end.
End debugging.

(** ** Debugging changes nothing *)

(** Calls of the adaptor, with variables for the pointers that calls return. *)
Inductive call : Type :=
| NilNode
| Create (tok : option COMMON_TOKEN)
| AddChild (t child : nat)
| AddChildToken (t : nat) (tok : option COMMON_TOKEN)
| BecomeRoot (newRoot oldRoot : nat)
| BecomeRootToken (tok : option COMMON_TOKEN) (oldRoot : nat)
| CreateTypeToken (tokenType : Z) (tok : COMMON_TOKEN)
| CreateTypeTokenText (tokenType : Z) (tok : COMMON_TOKEN) (text : str)
| CreateTypeText (tokenType : Z) (text : str).

(** A call of the adaptor without a debugger, with the events that tell of it. *)
Definition told (t child : option tptr) : list (EVENT (option tptr)) :=
  match t, child with Some _, Some _ => [DebugProtocol.AddChild t child] | _, _ => [] end.
Definition twice {A} (x : A) : list A := [x; x].
Definition plain (c : call) (env : list (option tptr)) (m : ARBORETUM)
    : outcome (list (option tptr) * ARBORETUM * list (EVENT (option tptr))) :=
  match c with
  | NilNode => '(p, m) ← nilNode m; Ok (env ++ [Some p], m, twice (CreateNode (Some p)))
  | Create tok => '(p, m) ← create tok m; Ok (env ++ [Some p], m, [CreateNode (Some p)])
  | AddChild i j =>
      t ← var env i; c ← var env j;
      m ← adaptor_addChild t c m;
      Ok (env, m, told t c)
  | AddChildToken i tok =>
      t ← var env i;
      match t, tok with
      | Some _, Some _ =>
          '(c, m) ← create tok m;
          m ← adaptor_addChild t (Some c) m;
          Ok (env, m, CreateNode (Some c) :: twice (DebugProtocol.AddChild t (Some c)))
      | _, _ => Ok (env, m, [])
      end
  | BecomeRoot i j =>
      a ← var env i; b ← var env j;
      '(r, m) ← becomeRoot a b m;
      Ok (env ++ [r], m, [DebugProtocol.BecomeRoot a b])
  | BecomeRootToken tok j =>
      b ← var env j;
      '(a, m) ← create tok m;
      '(r, m) ← becomeRoot (Some a) b m;
      Ok (env ++ [r], m, [CreateNode (Some a); DebugProtocol.BecomeRoot (Some a) b; DebugProtocol.BecomeRoot r b])
  | CreateTypeToken ty tok =>
      '(p, m) ← createTypeToken ty tok m; Ok (env ++ [Some p], m, twice (CreateNode (Some p)))
  | CreateTypeTokenText ty tok s =>
      '(p, m) ← createTypeTokenText ty tok s m; Ok (env ++ [Some p], m, twice (CreateNode (Some p)))
  | CreateTypeText ty s =>
      '(p, m) ← createTypeText ty s m; Ok (env ++ [Some p], m, twice (CreateNode (Some p)))
  end.
Fixpoint plain_all (l : list call) (env : list (option tptr)) (m : ARBORETUM)
    : outcome (list (option tptr) * ARBORETUM * list (EVENT (option tptr))) :=
  match l with
  | [] => Ok (env, m, [])
  | c :: l =>
      '(env, m, es) ← plain c env m;
      '(env, m, es') ← plain_all l env m;
      Ok (env, m, es ++ es')
  end.

Section calls.
Context (send : str → str → Z) (recv : str → nat → Debugger.RECV) (fuel : nat).
Definition the_var (env : list (option tptr)) (i : nat) : DBG (option tptr) := λ w,
  t ← var env i;
  Ok (Some (t, w)).
Definition debug (c : call) (env : list (option tptr)) : DBG (list (option tptr)) :=
  match c with
  | NilNode => p ← dbgNil send recv fuel; mret (env ++ [Some p])
  | Create tok => p ← dbgCreate send recv fuel tok; mret (env ++ [Some p])
  | AddChild i j =>
      t ← the_var env i; c ← the_var env j;
      _ ← dbgAddChild send recv fuel t c;
      mret env
  | AddChildToken i tok => t ← the_var env i; _ ← dbgAddChildToken send recv fuel t tok; mret env
  | BecomeRoot i j =>
      a ← the_var env i; b ← the_var env j;
      r ← dbgBecomeRoot send recv fuel a b;
      mret (env ++ [r])
  | BecomeRootToken tok j => b ← the_var env j; r ← dbgBecomeRootToken send recv fuel tok b; mret (env ++ [r])
  | CreateTypeToken ty tok => p ← dbgCreateTypeToken send recv fuel ty tok; mret (env ++ [Some p])
  | CreateTypeTokenText ty tok s => p ← dbgCreateTypeTokenText send recv fuel ty tok s; mret (env ++ [Some p])
  | CreateTypeText ty s => p ← dbgCreateTypeText send recv fuel ty s; mret (env ++ [Some p])
  end.
Fixpoint debug_all (l : list call) (env : list (option tptr)) : DBG (list (option tptr)) :=
  match l with
  | [] => mret env
  | c :: l => env ← debug c env; debug_all l env
  end.
End calls.

Section transparent.
Context (send : str → str → Z) (replies : str → str) (fuel : nat).
Context (Hsend : sends send) (Hal : answers_lines replies).
Context (F : Debugger.ADAPTOR (option tptr)).
Context (HF : ∀ p, Debugger.getText F p = None).
Notation recv := (recv_of replies).

(** [c] does what a computation without a debugger does, and tells of it with [es]. *)
Definition tells {A} (c : DBG A) (m : ARBORETUM) (a : A) (m' : ARBORETUM) (es : list (EVENT (option tptr))) : Prop :=
  ∀ ta d, debugger ta = Some d → working replies F d → (length (lines_of F es) ≤ fuel)%nat →
    (length (replies (Debugger.wire d ++ lines_of F es)) < fuel)%nat →
    ∃ d', c (m, ta) = Ok (Some (a, (m', set_debugger (Some d') ta))) ∧ working replies F d' ∧
      Debugger.wire d' = Debugger.wire d ++ lines_of F es.
Lemma lines_of_app es es' : lines_of F (es ++ es') = lines_of F es ++ lines_of F es'.
Proof. unfold lines_of. by rewrite fmap_app, unlines_app. Qed.
Lemma tells_ret {A} (a : A) m : tells (mret a) m a m [].
Proof.
  intros ta d Hd Hw _ _. exists d. split_and!; [|done|by rewrite app_nil_r].
  unfold mret, DBG_ret. do 4 f_equal. destruct ta. cbn in *. by subst.
Qed.
Lemma tells_bind {A B} (c : DBG A) (f : A → DBG B) m a m1 es b m2 es' :
  tells c m a m1 es → tells (f a) m1 b m2 es' → tells (c ≫= f) m b m2 (es ++ es').
Proof.
  intros Hc Hf ta d Hd Hw Hl Hr. rewrite lines_of_app, length_app in Hl. rewrite lines_of_app, app_assoc in Hr.
  pose proof (replies_length replies Hal (Debugger.wire d ++ lines_of F es) (lines_of F es')).
  destruct (Hc ta d Hd Hw) as (d1 & E1 & Hw1 & Ew1); [lia|lia|].
  destruct (Hf (set_debugger (Some d1) ta) d1 eq_refl Hw1) as (d2 & E2 & Hw2 & Ew2); [lia|by rewrite Ew1|].
  exists d2. unfold mbind, DBG_bind. rewrite E1. cbn [mbind outcome_bind]. split_and!; [exact E2|done|].
  by rewrite Ew2, Ew1, lines_of_app, app_assoc.
Qed.
Lemma tells_tree {A} (f : ARBORETUM → outcome (A * ARBORETUM)) m a m' :
  f m = Ok (a, m') → tells (tree f) m a m' [].
Proof.
  intros E ta d Hd Hw _ _. exists d. cbn [tree]. rewrite E. cbn [mbind outcome_bind].
  split_and!; [|done|by rewrite app_nil_r]. do 4 f_equal. destruct ta. cbn in *. by subst.
Qed.
Lemma tells_report e m :
  DebugProtocol.fits F e → tells (report (DebugProtocol.fire send recv fuel e)) m tt m [e].
Proof.
  intros He ta d Hd Hw Hl Hr. cbn [report]. rewrite Hd. cbn [init mbind outcome_bind].
  assert (lines_of F [e] = line_of F e ++ [nl]) as El by (unfold lines_of; cbn; by rewrite app_nil_r). rewrite El in *.
  destruct (fire_ok send replies Hsend Hal fuel e d F Hw He Hl Hr) as (d' & E & Hw' & Ew).
  rewrite E. cbn [mbind outcome_bind]. by exists d'.
Qed.
Lemma tells_tree_ (f : ARBORETUM → outcome ARBORETUM) m m' : f m = Ok m' → tells (tree_ f) m tt m' [].
Proof. intros E. apply tells_tree. by rewrite E. Qed.
Lemma tells_var env i t m : var env i = Ok t → tells (the_var env i) m t m [].
Proof.
  intros E ta d Hd Hw _ _. exists d. unfold the_var. rewrite E. cbn [mbind outcome_bind].
  split_and!; [|done|by rewrite app_nil_r]. do 4 f_equal. destruct ta. cbn in *. by subst.
Qed.

Lemma tells_created p m : tells (report (Debugger.createNode send recv fuel p)) m tt m [CreateNode p].
Proof. apply (tells_report (CreateNode p)). apply fits_created, HF. Qed.
Lemma tells_added t c m : tells (report (Debugger.addChild send recv fuel t c)) m tt m [DebugProtocol.AddChild t c].
Proof. apply (tells_report (DebugProtocol.AddChild t c)). eapply fits_numbers; [done|done|concrete|concrete|done]. Qed.
Lemma tells_root a b m : tells (report (Debugger.becomeRoot send recv fuel a b)) m tt m [DebugProtocol.BecomeRoot a b].
Proof. apply (tells_report (DebugProtocol.BecomeRoot a b)). eapply fits_numbers; [done|done|concrete|concrete|done]. Qed.

Lemma dbgCreate_tells tok m p m' :
  create tok m = Ok (p, m') → tells (dbgCreate send recv fuel tok) m p m' [CreateNode (Some p)].
Proof.
  intros E. eapply (tells_bind _ _ _ _ _ [] _ _ [_]); [by apply tells_tree|].
  eapply (tells_bind _ _ _ _ _ [_] _ _ []); [apply tells_created|apply tells_ret].
Qed.
Lemma created_twice tok m p m' (f : DBG tptr) :
  create tok m = Ok (p, m') →
  f = (t ← dbgCreate send recv fuel tok; _ ← report (Debugger.createNode send recv fuel (Some t)); mret t) →
  tells f m p m' (twice (CreateNode (Some p))).
Proof.
  intros E ->. eapply (tells_bind _ _ _ _ _ [_] _ _ [_]); [by apply dbgCreate_tells|].
  eapply (tells_bind _ _ _ _ _ [_] _ _ []); [apply tells_created|apply tells_ret].
Qed.
Lemma dbgAddChild_tells t c m m' :
  adaptor_addChild t c m = Ok m' → tells (dbgAddChild send recv fuel t c) m tt m' (told t c).
Proof.
  destruct t as [p|], c as [q|]; cbn [adaptor_addChild dbgAddChild told]; intros E; [|by injection E as ->; apply tells_ret..].
  eapply (tells_bind _ _ _ _ _ [] _ _ [_]); [by apply tells_tree_|]. apply tells_added.
Qed.
Lemma dbgBecomeRoot_tells a b m r m' :
  becomeRoot a b m = Ok (r, m') → tells (dbgBecomeRoot send recv fuel a b) m r m' [DebugProtocol.BecomeRoot a b].
Proof.
  intros E. eapply (tells_bind _ _ _ _ _ [] _ _ [_]); [by apply tells_tree|].
  eapply (tells_bind _ _ _ _ _ [_] _ _ []); [apply tells_root|apply tells_ret].
Qed.

Lemma then_ret {A B} (c : DBG A) (g : A → B) m a m' es :
  tells c m a m' es → tells (x ← c; mret (g x)) m (g a) m' es.
Proof. intros H. rewrite <-(app_nil_r es). eapply tells_bind; [exact H|apply tells_ret]. Qed.
Lemma plain_bind {A B} (c : outcome A) (f : A → outcome B) b : (c ≫= f) = Ok b → ∃ a, c = Ok a ∧ f a = Ok b.
Proof. destruct c as [a| |]; [|done..]. intros E. by exists a. Qed.
Lemma dbgAddChildToken_tells t tok m c m1 m2 :
  create (Some tok) m = Ok (c, m1) → adaptor_addChild (Some t) (Some c) m1 = Ok m2 →
  tells (dbgAddChildToken send recv fuel (Some t) (Some tok)) m tt m2
    (CreateNode (Some c) :: twice (DebugProtocol.AddChild (Some t) (Some c))).
Proof.
  intros E1 E2. eapply (tells_bind _ _ _ _ _ [_]); [by apply dbgCreate_tells|].
  eapply (tells_bind _ _ _ _ _ [_] _ _ [_]); [by apply dbgAddChild_tells|]. apply tells_added.
Qed.
Lemma dbgBecomeRootToken_tells tok b m a m1 r m2 :
  create tok m = Ok (a, m1) → becomeRoot (Some a) b m1 = Ok (r, m2) →
  tells (dbgBecomeRootToken send recv fuel tok b) m r m2
    [CreateNode (Some a); DebugProtocol.BecomeRoot (Some a) b; DebugProtocol.BecomeRoot r b].
Proof.
  intros E1 E2. eapply (tells_bind _ _ _ _ _ [_]); [by apply dbgCreate_tells|].
  eapply (tells_bind _ _ _ _ _ [_] _ _ [_]); [by apply dbgBecomeRoot_tells|].
  eapply (tells_bind _ _ _ _ _ [_] _ _ []); [apply tells_root|apply tells_ret].
Qed.

(** Every call. *)
Lemma debug_tells c env m env' m' es :
  plain c env m = Ok (env', m', es) → tells (debug send recv fuel c env) m env' m' es.
Proof.
  destruct c; cbn [plain debug].
  1: intros ([p m1] & E & [= <- <- <-])%plain_bind; apply (then_ret _ (λ p, env ++ [Some p])); by eapply created_twice.
  1: intros ([p m1] & E & [= <- <- <-])%plain_bind; apply (then_ret _ (λ p, env ++ [Some p])); by apply dbgCreate_tells.
  5-7: intros ([p m1] & E & [= <- <- <-])%plain_bind; apply (then_ret _ (λ p, env ++ [Some p])); by eapply created_twice.
  - intros (x & Ex & (y & Ey & (m1 & E & [= <- <- <-])%plain_bind)%plain_bind)%plain_bind.
    eapply (tells_bind _ _ _ _ _ []); [by apply tells_var|]. eapply (tells_bind _ _ _ _ _ []); [by apply tells_var|].
    apply (then_ret _ (λ _, env) _ tt). by apply dbgAddChild_tells.
  - intros (x & Ex & E)%plain_bind. eapply (tells_bind _ _ _ _ _ []); [by apply tells_var|].
    destruct x as [x|], tok as [tok|]; [|injection E as <- <- <-; apply (then_ret _ (λ _, env) _ tt), tells_ret..].
    apply plain_bind in E as ([c m1] & E1 & (m2 & E2 & [= <- <- <-])%plain_bind).
    apply (then_ret _ (λ _, env) _ tt). by eapply dbgAddChildToken_tells.
  - intros (x & Ex & (y & Ey & ([r m1] & E & [= <- <- <-])%plain_bind)%plain_bind)%plain_bind.
    eapply (tells_bind _ _ _ _ _ []); [by apply tells_var|]. eapply (tells_bind _ _ _ _ _ []); [by apply tells_var|].
    apply (then_ret _ (λ r, env ++ [r])). by apply dbgBecomeRoot_tells.
  - intros (y & Ey & ([a m1] & E1 & ([r m2] & E2 & [= <- <- <-])%plain_bind)%plain_bind)%plain_bind.
    eapply (tells_bind _ _ _ _ _ []); [by apply tells_var|].
    apply (then_ret _ (λ r, env ++ [r])). by eapply dbgBecomeRootToken_tells.
Qed.
Lemma debug_all_tells l env m env' m' es :
  plain_all l env m = Ok (env', m', es) → tells (debug_all send recv fuel l env) m env' m' es.
Proof.
  revert env m es. induction l as [|c l IH]; intros env m es; cbn [plain_all debug_all].
  { intros [= <- <- <-]. apply tells_ret. }
  intros ([[env1 m1] es1] & E1 & ([[env2 m2] es2] & E2 & [= <- <- <-])%plain_bind)%plain_bind.
  eapply tells_bind; [by apply debug_tells|by apply IH].
Qed.
End transparent.

(** Debugging changes nothing but what is told. Calls of an adaptor whose debugger is set
    build the nodes, and return the pointers, that they do without one, whatever the listener
    is in the middle of; and what is sent are their events, each in a line of its own that
    was answered, so that the listener can go on. *)
Theorem debugging_transparent send replies fuel address start l env m env' m' es d :
  let F := base_functions address start in
  plain_all l env m = Ok (env', m', es) → sends send → answers_lines replies → working replies F d →
  (length (lines_of F es) ≤ fuel)%nat → (length (replies (Debugger.wire d ++ lines_of F es)) < fuel)%nat →
  ∃ d', debug_all send (recv_of replies) fuel l env (m, mkTreeAdaptor true (Some d))
      = Ok (Some (env', (m', mkTreeAdaptor true (Some d')))) ∧
    working replies F d' ∧ Debugger.wire d' = Debugger.wire d ++ lines_of F es.
Proof.
  intros F E Hs Hal Hw Hl Hr. by apply (debug_all_tells send replies fuel Hs Hal F (λ _, eq_refl) l env m env' m' es E (mkTreeAdaptor true (Some d)) d).
Qed.

(** ** An example and defects *)

Definition sample_number (p : tptr) : Z := Z.of_nat (1024 * p.1 + p.2).
Definition sample_functions : Debugger.ADAPTOR (option tptr) := base_functions sample_number (λ _, 0).
(** A listener after its greeting, and one that has an adaptor of its own by now. *)
Definition greeted : LISTENER :=
  Debugger.mkListener 49100 2 (Some (lit "T.g")) true None (Some sample_functions) (greeting (lit "T.g")) 1.
Lemma greeted_working : working empty_lines sample_functions greeted.
Proof.
  split; [done|by eexists| |apply (bool_decide_unpack _); vm_compute; exact I].
  split; [apply (bool_decide_unpack _); vm_compute; exact I|reflexivity].
Qed.
Definition sample_calls : list call :=
  [NilNode; AddChildToken 0 (sample_token "a"); Create (sample_token "b"); AddChild 0 1;
   BecomeRootToken (sample_token "c") 0].
Definition sample_told : list (EVENT (option tptr)) :=
  let p i := Some (0, i)%nat in
  [CreateNode (p 0); CreateNode (p 0); CreateNode (p 1); DebugProtocol.AddChild (p 0) (p 1);
   DebugProtocol.AddChild (p 0) (p 1); CreateNode (p 2); DebugProtocol.AddChild (p 0) (p 2); CreateNode (p 3);
   DebugProtocol.BecomeRoot (p 3) (p 0); DebugProtocol.BecomeRoot (p 3) (p 0)]%nat.
Lemma sample_plain : ∃ m0 env m,
  ArboretumNew = Ok m0 ∧ plain_all sample_calls [] m0 = Ok (env, m, sample_told) ∧
  (t ← var env 2; t ← deref t; toStringTree 3 m t) = Ok (lit "(c a b)").
Proof. do 3 eexists. split_and!; [vm_compute; reflexivity|vm_compute; reflexivity|vm_compute; reflexivity]. Qed.
Lemma debugging_transparent_witness :
  ∃ m0 env m d, ArboretumNew = Ok m0 ∧
    debug_all five_bytes (recv_of empty_lines) 500 sample_calls [] (m0, mkTreeAdaptor true (Some greeted))
      = Ok (Some (env, (m, mkTreeAdaptor true (Some d)))) ∧
    (t ← var env 2; t ← deref t; toStringTree 3 m t) = Ok (lit "(c a b)") ∧
    Debugger.wire d = Debugger.wire greeted ++ lines_of sample_functions sample_told.
Proof.
  destruct sample_plain as (m0 & env & m & E0 & E & Et).
  destruct (debugging_transparent five_bytes empty_lines 500 sample_number (λ _, 0) sample_calls [] m0 env m sample_told greeted
    E five_bytes_sends empty_lines_answers greeted_working) as (d & Ed & _ & Ew).
  - apply (bool_decide_unpack _). vm_compute. exact I.
  - apply (bool_decide_unpack _). vm_compute. exact I.
  - exists m0, env, m, d. split_and!; [exact E0|exact Ed|exact Et|exact Ew].
Defined.

(** Nothing sets the debugger of an adaptor: making it a debugging one leaves it as it was,
    and every operation then reads a member that was never set. *)
Lemma debugger_never_set address start d tok m send recv fuel :
  debugger (TREE_ADAPTORDebugNew address start d).2 = None ∧
  ∀ r ta, debugger ta = None → create tok m = Ok r → dbgCreate send recv fuel tok (m, ta) = Undef Uninit.
Proof.
  split; [done|]. intros [p m'] ta Hta E. unfold dbgCreate, mbind, DBG_bind. cbn [tree]. rewrite E. cbn [mbind outcome_bind report].
  by rewrite Hta.
Qed.
(** A tree is copied without its children, since the adaptor of the debugger counts none. *)
Lemma copy_loses_children :
  (m ← ArboretumNew;
   '(m, env) ← act_all sample_program (m, []);
   t ← var env 9;
   r ← dbgDupTree five_bytes (recv_of empty_lines) 500 t (m, mkTreeAdaptor true (Some greeted));
   match r with
   | Some (Some q, (m, _)) => t ← deref t; s ← toStringTree 2 m t; s' ← toStringTree 2 m q; Ok (s, s')
   | _ => Ok ([], [])
   end) = Ok (lit "(c a b)", lit "c").
Proof. vm_compute. reflexivity. Qed.
