(* ===== verification/RewriteStore.v ===== *)
(** Rewrite streams in memory: src/antlr/libantlr3c-3.4/src/antlr3rewritestreams.c, on
    the nodes of [TreeStore]. The streams of [Tree] are what they hold. *)
From S2P Require Import Prelude.
From S2P Require Import CppString.
From S2P Require Import Vector.
From S2P Require Import VectorFactory.
From S2P Require Import Lexer.
From S2P Require Import TreeStore.

(** The constructors install different functions: streams of tokens, of subtrees and of
    nodes. *)
Inductive STREAM_KIND : Type := TOKEN_STREAM | SUBTREE_STREAM | NODE_STREAM.
#[export] Instance STREAM_KIND_eq_dec : EqDecision STREAM_KIND.
Proof. solve_decision. Defined.

(** The elements are addresses, of tokens or of nodes. Their vector comes from the
    factory of the nodes, or it was supplied. *)
Inductive vref : Type :=
| FactoryVector (p : ptr)
| OtherVector (i : nat).

Record REWRITE_RULE_ELEMENT_STREAM : Type := mkRewrite {
  cursor : Z;
  singleElement : option tptr;
  elements : option vref;
  freeElements : bool;
  elementDescription : option str;
  dirty : bool;
  kind : STREAM_KIND
}.
Definition set_cursor x (s : REWRITE_RULE_ELEMENT_STREAM) : REWRITE_RULE_ELEMENT_STREAM :=
  mkRewrite x (singleElement s) (elements s) (freeElements s) (elementDescription s) (dirty s) (kind s).
Definition set_singleElement x (s : REWRITE_RULE_ELEMENT_STREAM) : REWRITE_RULE_ELEMENT_STREAM :=
  mkRewrite (cursor s) x (elements s) (freeElements s) (elementDescription s) (dirty s) (kind s).
Definition set_elements x (b : bool) (s : REWRITE_RULE_ELEMENT_STREAM) : REWRITE_RULE_ELEMENT_STREAM :=
  mkRewrite (cursor s) (singleElement s) x b (elementDescription s) (dirty s) (kind s).

(** The memory: the nodes with their factories, the tokens, the structures of the
    streams, vectors made elsewhere, and the streams that the recognizer keeps for
    later. A structure or a vector that was released is gone. *)
Record REWRITES : Type := mkRewrites {
  arboretum : ARBORETUM;
  tokenAt : tptr → option COMMON_TOKEN;
  structs : list (option REWRITE_RULE_ELEMENT_STREAM);
  vectors : list (option (VECTOR tptr));
  rStreams : VECTOR nat
}.
Definition set_arboretum x (m : REWRITES) : REWRITES :=
  mkRewrites x (tokenAt m) (structs m) (vectors m) (rStreams m).
Definition set_structs x (m : REWRITES) : REWRITES :=
  mkRewrites (arboretum m) (tokenAt m) x (vectors m) (rStreams m).
Definition set_vectors x (m : REWRITES) : REWRITES :=
  mkRewrites (arboretum m) (tokenAt m) (structs m) x (rStreams m).
Definition set_rStreams x (m : REWRITES) : REWRITES :=
  mkRewrites (arboretum m) (tokenAt m) (structs m) (vectors m) x.

Definition live {A} (o : option (option A)) : outcome A :=
  match o with
  | Some (Some a) => Ok a
  | Some None => Undef UseAfterFree
  | None => Undef BadIndex
  end.
Definition stream (m : REWRITES) (s : nat) : outcome REWRITE_RULE_ELEMENT_STREAM := live (structs m !! s).
Definition write_stream (s : nat) (x : REWRITE_RULE_ELEMENT_STREAM) (m : REWRITES) : REWRITES :=
  set_structs (<[s := Some x]> (structs m)) m.
Definition vector_at (m : REWRITES) (v : vref) : outcome (VECTOR tptr) :=
  match v with
  | FactoryVector p => load (vFactory (arboretum m)) p
  | OtherVector i => live (vectors m !! i)
  end.
Definition write_vector (v : vref) (w : VECTOR tptr) (m : REWRITES) : REWRITES :=
  match v with
  | FactoryVector p =>
      set_arboretum (set_vFactory (store (vFactory (arboretum m)) p w) (arboretum m)) m
  | OtherVector i => set_vectors (<[i := Some w]> (vectors m)) m
  end.

(** A function of the adaptor. *)
Definition on_arboretum {A} (f : ARBORETUM → outcome (A * ARBORETUM)) (m : REWRITES)
    : outcome (A * REWRITES) :=
  '(a, x) ← f (arboretum m);
  Ok (a, set_arboretum x m).

(** ** Creating a stream *)

(** [antlr3RewriteRuleElementStreamNewAE], with the functions of the kind: a structure
    that was given back, or a new one. *)
Definition StreamNewAE (k : STREAM_KIND) (description : option str) (m : REWRITES)
    : outcome (nat * REWRITES) :=
  '(s, old, m) ←
    (if 0 <? count (rStreams m) then
       '(x, w) ← VectorRemove (rStreams m) (u32 (count (rStreams m) - 1));
       s ← deref x;
       old ← stream m s;
       Ok (s, (elements old, freeElements old), set_rStreams w m)
     else
       Ok (length (structs m), (None, false),
           set_structs (structs m ++ [None]) m));
  Ok (s, write_stream s (mkRewrite 0 None old.1 old.2 description false k) m).

(** [add]; a second element makes a vector. *)
Definition add_to_vector (v : vref) (el : option tptr) (freePtr : bool) (m : REWRITES)
    : outcome REWRITES :=
  w ← vector_at m v;
  '(_, w) ← VectorAdd w el freePtr;
  Ok (write_vector v w m).
Definition add (s : nat) (el : option tptr) (freePtr : bool) (m : REWRITES) : outcome REWRITES :=
  match el with
  | None => Ok m
  | Some _ =>
      x ← stream m s;
      n ← match elements x with None => Ok 0 | Some v => w ← vector_at m v; Ok (count w) end;
      match elements x with
      | Some v => if 0 <? n then add_to_vector v el freePtr m else
          match singleElement x with
          | None => Ok (write_stream s (set_singleElement el x) m)
          | Some _ =>
              m ← add_to_vector v (singleElement x) freePtr m;
              m ← add_to_vector v el freePtr m;
              Ok (write_stream s (set_singleElement None x) m)
          end
      | None =>
          match singleElement x with
          | None => Ok (write_stream s (set_singleElement el x) m)
          | Some _ =>
              '(p, f) ← newVector (vFactory (arboretum m));
              let m := set_arboretum (set_vFactory f (arboretum m)) m in
              m ← add_to_vector (FactoryVector p) (singleElement x) freePtr m;
              m ← add_to_vector (FactoryVector p) el freePtr m;
              Ok (write_stream s (set_singleElement None (set_elements (Some (FactoryVector p)) true x)) m)
          end
      end
  end.

(** [antlr3RewriteRuleElementStreamNewAEE] *)
Definition StreamNewAEE (k : STREAM_KIND) (description : option str) (oneElement : option tptr)
    (m : REWRITES) : outcome (nat * REWRITES) :=
  '(s, m) ← StreamNewAE k description m;
  m ← match oneElement with None => Ok m | Some _ => add s oneElement false m end;
  Ok (s, m).

(** Releasing a vector; one of a factory stays. *)
Definition free_vector (v : vref) (m : REWRITES) : outcome (list (option tptr) * REWRITES) :=
  w ← vector_at m v;
  '(freed, w) ← VectorFree w;
  Ok (freed, match v with
             | FactoryVector _ => write_vector v w m
             | OtherVector i => set_vectors (<[i := None]> (vectors m)) m
             end).

(** [antlr3RewriteRuleElementStreamNewAEV] *)
Definition StreamNewAEV (k : STREAM_KIND) (description : option str) (v : option vref) (m : REWRITES)
    : outcome (nat * REWRITES) :=
  '(s, m) ← StreamNewAE k description m;
  x ← stream m s;
  m ← match elements x with
      | Some old =>
          w ← vector_at m old;
          if negb (factoryMade w) && freeElements x
          then '(_, m) ← free_vector old m; Ok m
          else Ok m
      | None => Ok m
      end;
  Ok (s, write_stream s (set_elements v false x) m).

(** ** Reading *)

(** [reset] *)
Definition reset (s : nat) (m : REWRITES) : outcome REWRITES :=
  x ← stream m s;
  Ok (write_stream s (mkRewrite 0 (singleElement x) (elements x) (freeElements x)
                        (elementDescription x) true (kind x)) m).

(** [size] *)
Definition size (s : nat) (m : REWRITES) : outcome Z :=
  x ← stream m s;
  match singleElement x, elements x with
  | Some _, _ => Ok 1
  | None, Some v => w ← vector_at m v; Ok (count w)
  | None, None => Ok 0
  end.

(** [hasNext] *)
Definition hasNext (s : nat) (m : REWRITES) : outcome bool :=
  x ← stream m s;
  if bool_decide (is_Some (singleElement x)) && (cursor x <? 1) then Ok true
  else
    match elements x with
    | None => Ok false
    | Some v => w ← vector_at m v; Ok (cursor x <? VectorSize w)
    end.

(** [toTree], [toTreeNode] *)
Definition toTree (k : STREAM_KIND) (element : option tptr) (m : REWRITES)
    : outcome (option tptr * REWRITES) :=
  match k with
  | NODE_STREAM => on_arboretum (adaptor_dupNode element) m
  | _ => Ok (element, m)
  end.

(** [dupTok], [dupTree], [dupTreeNode] *)
Definition dup (k : STREAM_KIND) (element : option tptr) (m : REWRITES)
    : outcome (option tptr * REWRITES) :=
  match k with
  | SUBTREE_STREAM => on_arboretum (adaptor_dupNode element) m
  | _ => Ok (None, m)
  end.

(** [_next] *)
Definition next_ (s : nat) (m : REWRITES) : outcome (option tptr * REWRITES) :=
  n ← size s m;
  x ← stream m s;
  if n =? 0 then Ok (None, m)
  else if n <=? cursor x then
    if n =? 1 then toTree (kind x) (singleElement x) m else Ok (None, m)
  else
    let m' := write_stream s (set_cursor (u32 (cursor x + 1)) x) m in
    match singleElement x with
    | Some _ => toTree (kind x) (singleElement x) m'
    | None =>
        v ← deref (elements x);
        w ← vector_at m v;
        el ← VectorGet w (cursor x);
        toTree (kind x) el m'
    end.

(** [nextTree] *)
Definition nextTree (s : nat) (m : REWRITES) : outcome (option tptr * REWRITES) :=
  n ← size s m;
  x ← stream m s;
  if dirty x || ((n <=? cursor x) && (n =? 1)) then
    '(el, m) ← next_ s m;
    dup (kind x) el m
  else next_ s m.

(** [nextToken] *)
Definition nextToken (s : nat) (m : REWRITES) : outcome (option tptr * REWRITES) := next_ s m.

(** [next] *)
Definition next (s : nat) (m : REWRITES) : outcome (option tptr * REWRITES) :=
  n ← size s m;
  x ← stream m s;
  if (n <=? cursor x) && (n =? 1) then
    '(el, m) ← next_ s m;
    dup (kind x) el m
  else next_ s m.

(** [nextNode], [nextNodeNode], [nextNodeToken]: a token gets a node of its own. *)
Definition nextNode (s : nat) (m : REWRITES) : outcome (option tptr * REWRITES) :=
  x ← stream m s;
  '(el, m) ← next_ s m;
  match kind x with
  | NODE_STREAM => Ok (el, m)
  | TOKEN_STREAM =>
      tok ← match el with None => Ok None | Some p => Some <$> deref (tokenAt m p) end;
      '(p, m) ← on_arboretum (create tok) m;
      Ok (Some p, m)
  | SUBTREE_STREAM =>
      n ← size s m;
      x ← stream m s;
      if dirty x || ((n <? cursor x) && (n =? 1)) then on_arboretum (adaptor_dupNode el) m
      else Ok (el, m)
  end.

(** [getDescription] *)
Definition getDescription (s : nat) (m : REWRITES) : outcome (str * REWRITES) :=
  x ← stream m s;
  let d := default (lit "<unknown source>") (elementDescription x) in
  Ok (d, write_stream s (mkRewrite (cursor x) (singleElement x) (elements x) (freeElements x) (Some d)
                           (dirty x) (kind x)) m).

(** ** Giving a stream back *)

(** The nodes of the stream are looked at, and nothing is done with them. *)
Fixpoint look_nodes (n : nat) (i : Z) (w : VECTOR tptr) (m : ARBORETUM) : outcome unit :=
  match n with
  | O => Ok tt
  | S n =>
      e ← read_slot w i;
      _ ← match element e with None => Ok false | Some p => isNilNode p m end;
      look_nodes n (i + 1) w m
  end.

(** [freeRS], and [freeNodeRS] for the kinds of nodes: what was released. *)
Definition free (s : nat) (m : REWRITES) : outcome (list (option tptr) * REWRITES) :=
  x ← stream m s;
  let of_nodes := negb (bool_decide (kind x = TOKEN_STREAM)) in
  '(freed, m) ←
    match elements x with
    | Some v =>
        w ← vector_at m v;
        _ ← (if of_nodes then look_nodes (Z.to_nat (count w)) 0 w (arboretum m) else Ok tt);
        if factoryMade w then
          p ← match v with FactoryVector p => Ok p | OtherVector _ => Undef BadIndex end;
          '(freed, f) ← returnVector (vFactory (arboretum m)) p;
          Ok (freed, write_stream s (set_elements None (freeElements x) x)
                       (set_arboretum (set_vFactory f (arboretum m)) m))
        else
          '(freed, w) ← VectorClear w;
          Ok (freed, write_stream s (set_elements (Some v) true x) (write_vector v w m))
    | None =>
        _ ← match singleElement x with
            | Some p => if of_nodes then isNilNode p (arboretum m) else Ok false
            | None => Ok false
            end;
        let x := if of_nodes then set_singleElement None x else x in
        Ok ([], write_stream s (set_elements None false x) m)
    end;
  '(_, w) ← VectorAdd (rStreams m) (Some s) true;
  Ok (freed, set_rStreams w m).

(** [expungeRS], which the recognizer calls on the streams it keeps when it goes. *)
Definition expungeRS (s : nat) (m : REWRITES) : outcome REWRITES :=
  x ← stream m s;
  m ← match elements x with
      | Some v => if freeElements x then '(_, m) ← free_vector v m; Ok m else Ok m
      | None => Ok m
      end;
  Ok (set_structs (<[s := None]> (structs m)) m).
Fixpoint expunge_all (ss : list (option nat)) (m : REWRITES) : outcome REWRITES :=
  match ss with
  | [] => Ok m
  | s :: ss => s ← deref s; m ← expungeRS s m; expunge_all ss m
  end.
Definition free_rStreams (m : REWRITES) : outcome REWRITES :=
  '(freed, w) ← VectorFree (rStreams m);
  expunge_all freed (set_rStreams w m).

(** A recognizer starts without streams. *)
Definition RewritesNew (m : ARBORETUM) (toks : tptr → option COMMON_TOKEN) : REWRITES :=
  mkRewrites m toks [] [] (VectorNew 0).
