(* ===== verification/RewriteRefine.v ===== *)
(** The rewrite streams of [RewriteStore], whatever structures and vectors are given
    back and used again, are lists with a cursor. *)
From S2P Require Import Prelude.
From S2P Require Import CppString.
From S2P Require Import Vector.
From S2P Require Import VectorFactory.
From S2P Require Import Lexer.
From S2P Require Import TreeStore.
From S2P Require Import TreeRefine.
From S2P Require Import RewriteStore.
From S2P Require Tree.

(** ** Streams as lists *)

Record LSTREAM : Type := mkL { els : list tptr; cur : nat; drt : bool }.

Definition l_toTree (k : STREAM_KIND) (el : option tptr) (m : ARBORETUM) : outcome (option tptr * ARBORETUM) :=
  match k with NODE_STREAM => adaptor_dupNode el m | _ => Ok (el, m) end.
Definition l_dup (k : STREAM_KIND) (el : option tptr) (m : ARBORETUM) : outcome (option tptr * ARBORETUM) :=
  match k with SUBTREE_STREAM => adaptor_dupNode el m | _ => Ok (None, m) end.

(** The element at the cursor; the only element again and again. *)
Definition l_next (k : STREAM_KIND) (a : LSTREAM) (m : ARBORETUM)
    : outcome (option tptr * LSTREAM * ARBORETUM) :=
  let n := length (els a) in
  if (cur a <? n)%nat then
    '(p, m) ← l_toTree k (els a !! cur a) m;
    Ok (p, mkL (els a) (S (cur a)) (drt a), m)
  else if (n =? 1)%nat then '(p, m) ← l_toTree k (head (els a)) m; Ok (p, a, m)
  else Ok (None, a, m).
Definition l_used (a : LSTREAM) : bool := (length (els a) =? 1)%nat && (1 <=? cur a)%nat.
Definition l_copy (again : bool) (k : STREAM_KIND) (a : LSTREAM) (m : ARBORETUM)
    : outcome (option tptr * LSTREAM * ARBORETUM) :=
  '(el, a, m) ← l_next k a m;
  if again then '(el, m) ← l_dup k el m; Ok (el, a, m) else Ok (el, a, m).
Definition l_nextNode (toks : tptr → option COMMON_TOKEN) (k : STREAM_KIND) (a : LSTREAM) (m : ARBORETUM)
    : outcome (option tptr * LSTREAM * ARBORETUM) :=
  '(el, a, m) ← l_next k a m;
  match k with
  | NODE_STREAM => Ok (el, a, m)
  | TOKEN_STREAM =>
      tok ← match el with None => Ok None | Some p => Some <$> deref (toks p) end;
      '(p, m) ← create tok m;
      Ok (Some p, a, m)
  | SUBTREE_STREAM =>
      if drt a then '(el, m) ← adaptor_dupNode el m; Ok (el, a, m) else Ok (el, a, m)
  end.

(** ** Requests on several streams, each with a name *)

Inductive request : Type :=
| New (x : nat) (k : STREAM_KIND) (oneElement : option tptr)
| Add (x : nat) (el : option tptr)
| HasNext (x : nat)
| Size (x : nat)
| Next (x : nat)
| NextTree (x : nat)
| NextNode (x : nat)
| NextToken (x : nat)
| Reset (x : nat)
| Free (x : nat).
Inductive reply : Type :=
| Done
| Flag (b : bool)
| Number (n : Z)
| Pointer (p : option tptr).

Definition l_state : Type := gmap nat (STREAM_KIND * LSTREAM) * ARBORETUM.
Definition l_on (x : nat) (st : l_state)
    (f : STREAM_KIND → LSTREAM → ARBORETUM → outcome (reply * LSTREAM * ARBORETUM)) : outcome (reply * l_state) :=
  '(k, a) ← deref (st.1 !! x);
  '(r, a, m) ← f k a st.2;
  Ok (r, (<[x := (k, a)]> st.1, m)).
Definition l_pointer (o : outcome (option tptr * LSTREAM * ARBORETUM)) : outcome (reply * LSTREAM * ARBORETUM) :=
  '(el, a, m) ← o; Ok (Pointer el, a, m).
(** A name is used for one stream at a time. *)
Definition l_serve (toks : tptr → option COMMON_TOKEN) (q : request) (st : l_state) : outcome (reply * l_state) :=
  match q with
  | New x k el =>
      match st.1 !! x with
      | Some _ => Undef BadIndex
      | None => Ok (Done, (<[x := (k, mkL (option_list el) 0 false)]> st.1, st.2))
      end
  | Add x el => l_on x st (λ k a m, Ok (Done, mkL (els a ++ option_list el) (cur a) (drt a), m))
  | HasNext x => l_on x st (λ k a m, Ok (Flag (cur a <? length (els a))%nat, a, m))
  | Size x => l_on x st (λ k a m, Ok (Number (Z.of_nat (length (els a))), a, m))
  | Next x => l_on x st (λ k a m, l_pointer (l_copy (l_used a) k a m))
  | NextTree x => l_on x st (λ k a m, l_pointer (l_copy (drt a || l_used a) k a m))
  | NextNode x => l_on x st (λ k a m, l_pointer (l_nextNode toks k a m))
  | NextToken x => l_on x st (λ k a m, l_pointer (l_next k a m))
  | Reset x => l_on x st (λ k a m, Ok (Done, mkL (els a) 0 true, m))
  | Free x =>
      '(k, a) ← deref (st.1 !! x);
      _ ← (if decide (k = TOKEN_STREAM) then Ok [] else oc_map (λ p, isNilNode p st.2) (els a));
      Ok (Done, (delete x st.1, st.2))
  end.
Fixpoint l_serve_all (toks : tptr → option COMMON_TOKEN) (qs : list request) (st : l_state)
    : outcome (list reply * l_state) :=
  match qs with
  | [] => Ok ([], st)
  | q :: qs => '(r, st) ← l_serve toks q st; '(rs, st) ← l_serve_all toks qs st; Ok (r :: rs, st)
  end.

(** The same requests in memory; the names stand for structures. *)
Definition m_state : Type := gmap nat nat * REWRITES.
Definition m_on {A} (x : nat) (st : m_state) (f : nat → REWRITES → outcome (A * REWRITES)) (g : A → reply)
    : outcome (reply * m_state) :=
  s ← deref (st.1 !! x);
  '(a, m) ← f s st.2;
  Ok (g a, (st.1, m)).
Definition m_serve (q : request) (st : m_state) : outcome (reply * m_state) :=
  match q with
  | New x k el => '(s, m) ← StreamNewAEE k None el st.2; Ok (Done, (<[x := s]> st.1, m))
  | Add x el => m_on x st (λ s m, m ← add s el false m; Ok (tt, m)) (λ _, Done)
  | HasNext x => m_on x st (λ s m, b ← hasNext s m; Ok (b, m)) Flag
  | Size x => m_on x st (λ s m, n ← size s m; Ok (n, m)) Number
  | Next x => m_on x st next Pointer
  | NextTree x => m_on x st nextTree Pointer
  | NextNode x => m_on x st nextNode Pointer
  | NextToken x => m_on x st nextToken Pointer
  | Reset x => m_on x st (λ s m, m ← reset s m; Ok (tt, m)) (λ _, Done)
  | Free x => '(r, st) ← m_on x st free (λ _, Done); Ok (r, (delete x st.1, st.2))
  end.
Fixpoint m_serve_all (qs : list request) (st : m_state) : outcome (list reply * m_state) :=
  match qs with
  | [] => Ok ([], st)
  | q :: qs => '(r, st) ← m_serve q st; '(rs, st) ← m_serve_all qs st; Ok (r :: rs, st)
  end.

(** ** The nodes do not depend on the vectors *)

Definition with_factory (f : VECTOR_FACTORY tptr) {A} (o : outcome (A * ARBORETUM)) : outcome (A * ARBORETUM) :=
  prod_map id (set_vFactory f) <$> o.
Lemma newPoolTree_factory f m : newPoolTree (set_vFactory f m) = with_factory f (newPoolTree m).
Proof.
  unfold newPoolTree, with_factory. destruct m as [tp th nt vf ns]. cbn.
  destruct (StackPeek ns) as [p|]; [by destruct (StackPop ns) as [[[? ?] ?]|?|?]|].
  destruct (ANTLR3_FACTORY_POOL_SIZE <=? nt); cbn.
  - unfold newTreePool. cbn. destruct (int_op (th + 1)) as [z|?|?]; cbn; [|done..].
    destruct (u32 ((z + 1) * 8) <? (z + 1) * 8); cbn; [done|].
    unfold write_node. cbn. by destruct (_ !! _ ≫= _).
  - unfold write_node. cbn. by destruct (_ !! _ ≫= _).
Qed.
Lemma change_factory f g p m :
  change g p (set_vFactory f m) = set_vFactory f <$> change g p m.
Proof.
  unfold change, node, write_node. cbn. destruct (treePools m !! p.1 ≫= lookup p.2) as [[n|]|]; cbn; done.
Qed.
Lemma dupNode_factory f el m : adaptor_dupNode el (set_vFactory f m) = with_factory f (adaptor_dupNode el m).
Proof.
  destruct el as [p|]; cbn; [|done]. unfold dupNode, newFromTree. rewrite newPoolTree_factory.
  destruct (newPoolTree m) as [[q m1]|?|?]; cbn; [|done..].
  change (node (set_vFactory f m1) p) with (node m1 p). destruct (node m1 p); cbn; [|done..].
  rewrite change_factory. by destruct (change _ q m1).
Qed.
Lemma create_factory f tok m : create tok (set_vFactory f m) = with_factory f (create tok m).
Proof.
  unfold create, newFromToken. rewrite newPoolTree_factory. destruct (newPoolTree m) as [[q m1]|?|?]; cbn; [|done..].
  rewrite change_factory. by destruct (change _ q m1).
Qed.
Lemma set_vFactory_twice f g m : set_vFactory f (set_vFactory g m) = set_vFactory f m.
Proof. by destruct m. Qed.

(** ** The vectors of the factory say so *)

Definition made (f : VECTOR_FACTORY tptr) : Prop :=
  ∀ p v, allocated f p → load f p = Ok v → factoryMade v = true.

Lemma write_slot_made (v w : VECTOR tptr) i e : write_slot v i e = Ok w → factoryMade w = factoryMade v.
Proof.
  unfold write_slot, Vector.set_elements. destruct (decide _); [|done]. intros [= <-]. by destruct (external v).
Qed.
Lemma VectorAdd_made (v w : VECTOR tptr) x b n : VectorAdd v x b = Ok (n, w) → factoryMade w = factoryMade v.
Proof.
  unfold VectorAdd.
  assert (∀ v1, (if count v =? elementsSize v then VectorResize v 0 else Ok v) = Ok v1 → factoryMade v1 = factoryMade v) as Hr.
  { intros v1. destruct (_ =? _); [|by intros [= <-]]. unfold VectorResize.
    destruct (if ANTLR3_VECTOR_INTERNAL_SIZE <? _ then _ else _); cbn; [|done..]. by intros [= <-]. }
  destruct (if count v =? _ then _ else _) as [v1|?|?]; cbn; [|done..]. specialize (Hr v1 eq_refl).
  destruct (write_slot v1 _ _) as [v2|?|?] eqn:E; cbn; [|done..]. apply write_slot_made in E.
  intros [= _ <-]. cbn. congruence.
Qed.
Lemma VectorClear_made (v w : VECTOR tptr) fr : VectorClear v = Ok (fr, w) → factoryMade w = factoryMade v.
Proof.
  unfold VectorClear. destruct (clear_slots _ _) as [[? s]|?|?]; cbn; [|done..]. intros [= _ <-].
  unfold Vector.set_elements. by destruct (external v).
Qed.

Lemma made_store f p v : made f → factoryMade v = true → made (store f p v).
Proof.
  intros H Hv q w Ha Hl. destruct (decide (p = q)) as [->|Hne].
  - assert (w = v) as ->; [|done]. apply load_lookup in Hl as (pool & Hp & Hq). cbn in Hp.
    rewrite list_lookup_alter_eq in Hp. apply fmap_Some in Hp as (pool0 & _ & ->).
    apply list_lookup_insert_Some in Hq as [(_ & -> & _)|[? _]]; done.
  - rewrite load_store_ne in Hl by done. by apply (H q w).
Qed.
Lemma made_returnVector f p fr f' : made f → returnVector f p = Ok (fr, f') → allocated f p → made f'.
Proof.
  intros H. unfold returnVector. destruct (load f p) as [v|?|?] eqn:E; cbn; [|done..].
  destruct (VectorClear v) as [[fr1 w]|?|?] eqn:Ec; cbn; [|done..].
  destruct (StackPush _ _ _) as [[? s]|?|?]; cbn; [|done..]. intros [= <- <-] Ha.
  assert (Hw : factoryMade w = true) by (rewrite (VectorClear_made _ _ _ Ec); by apply (H p)).
  exact (made_store f p w H Hw).
Qed.
Lemma made_newVector n f us fs p f' :
  factory_ok n f us fs → n < 2 ^ 31 → made f → newVector f = Ok (p, f') → made f'.
Proof.
  intros Hf Hn H. unfold newVector. destruct (StackPeek (freeStack f)).
  { destruct (StackPop _) as [[[? ?] s]|?|?]; cbn; [|done..]. by intros [= <- <-]. }
  assert (∀ f1, (if ANTLR3_FACTORY_VPOOL_SIZE <=? nextVector f then newPool f else Ok f) = Ok f1 →
    made f1 ∧ 0 ≤ nextVector f1 < 256) as Hp.
  { intros f1. pose proof (fo_next _ _ _ _ Hf) as Hnx. unfold ANTLR3_FACTORY_VPOOL_SIZE.
    destruct (Z.leb_spec 256 (nextVector f)); [|intros [= <-]; split; [done|lia]]. intros E.
    destruct (newPool_ok n f us fs Hf) as (f2 & E2 & _ & Hz & _); [lia|done|].
    assert (f2 = f1) as -> by congruence. split; [|lia]. unfold newPool in E.
    destruct (int_op _) as [z|?|?] eqn:Ei; cbn in E; [|done..].
    assert (z = thisPool f + 1) as -> by (unfold int_op in Ei; destruct (int_ok _); congruence).
    destruct (_ <? _); [done|]. injection E as <-. intros q v Ha Hl. apply (H q v).
    - unfold allocated in *. cbn in Ha. lia.
    - apply load_lookup in Hl as (pool & Hi & Hj). apply load_lookup. exists pool. split; [|done].
      cbn in Hi. apply lookup_app_Some in Hi as [Hi|[Hlen Hi]]; [done|].
      exfalso. apply list_lookup_singleton_Some in Hi as [Hi _]. unfold allocated in Ha. cbn in Ha.
      pose proof (fo_pools _ _ _ _ Hf). lia. }
  destruct (if ANTLR3_FACTORY_VPOOL_SIZE <=? _ then _ else _) as [f1|?|?]; cbn; [|done..].
  destruct (Hp f1 eq_refl) as [Hm Hlt]. destruct (load _ _) as [v|?|?] eqn:El; cbn; [|done..].
  intros [= <- <-]. intros q w Ha Hl.
  destruct (decide ((Z.to_nat (thisPool f1), Z.to_nat (nextVector f1)) = q)) as [<-|Hne].
  - rewrite (load_store _ _ _ _ El) in Hl. by injection Hl as <-.
  - rewrite load_store_ne in Hl by done. apply (Hm q w); [|done]. unfold allocated in *. cbn in Ha.
    rewrite u32_small in Ha by lia. destruct Ha as [|[H1 H2]]; [by left|]. right. split; [done|].
    assert (Z.of_nat q.2 ≠ nextVector f1); [|lia]. intros E. apply Hne. destruct q as [i j]. cbn in *.
    f_equal; lia.
Qed.

(** ** The streams in memory *)

(** The structure [c] holds the stream [a]: a single element is kept in the structure,
    more of them in the vector [v]. *)
Record rep (n : Z) (f : VECTOR_FACTORY tptr) (c : REWRITE_RULE_ELEMENT_STREAM) (k : STREAM_KIND)
    (a : LSTREAM) (v : option ptr) : Prop := {
  rp_kind : kind c = k;
  rp_dirty : dirty c = drt a;
  rp_cursor : cursor c = Z.of_nat (cur a);
  rp_cur : (cur a ≤ length (els a))%nat;
  rp_len : Z.of_nat (length (els a)) ≤ n;
  rp_body : match v with
            | None => elements c = None ∧ (length (els a) ≤ 1)%nat ∧ singleElement c = head (els a)
            | Some v => singleElement c = None ∧ elements c = Some (FactoryVector v) ∧
                (2 ≤ length (els a))%nat ∧
                ∃ w, load f v = Ok w ∧ holds w (entry <$> els a) ∧ factoryMade w = true
            end
}.

(** Each name has a structure and perhaps a vector. *)
Abbreviation ghost := (gmap nat (nat * option ptr)).
Definition ptrs (g : ghost) : list nat := (λ e, e.2.1) <$> map_to_list g.
Definition svecs (g : ghost) : list ptr := omap (λ e, e.2.2) (map_to_list g).
Definition pooled (j : nat) : VECTOR_ELEMENT nat := mkElement (Some j) true.

Record streams_ok (n : Z) (f0 : VECTOR_FACTORY tptr) (us : list ptr) (env : gmap nat nat) (st : l_state)
    (g : ghost) (M : REWRITES) : Prop := {
  so_live : ∀ x k a, st.1 !! x = Some (k, a) → ∃ j v c, g !! x = Some (j, v) ∧ env !! x = Some j ∧
    structs M !! j = Some (Some c) ∧ rep n (vFactory (arboretum M)) c k a v;
  so_names : ∀ x, is_Some (g !! x) → is_Some (st.1 !! x);
  so_nodes : arboretum M = set_vFactory (vFactory (arboretum M)) st.2;
  so_pool : ∃ pool, holds (rStreams M) (pooled <$> pool) ∧ NoDup (pool ++ ptrs g) ∧
    (∀ j, j ∈ pool → ∃ c, structs M !! j = Some (Some c) ∧ elements c = None) ∧
    Z.of_nat (length pool + base.size g) ≤ n;
  so_vectors : ∃ fs, factory_ok n (vFactory (arboretum M)) (us ++ svecs g) fs;
  so_made : made (vFactory (arboretum M));
  so_keep : ∀ q, q ∈ us → load (vFactory (arboretum M)) q = load f0 q
}.

Lemma ptrs_insert g x j v : g !! x = None → ptrs (<[x := (j, v)]> g) ≡ₚ j :: ptrs g.
Proof. intros H. unfold ptrs. by rewrite map_to_list_insert. Qed.
Lemma ptrs_delete g x j v : g !! x = Some (j, v) → ptrs g ≡ₚ j :: ptrs (delete x g).
Proof. intros H. unfold ptrs. by rewrite <-(map_to_list_delete g x (j, v) H). Qed.
Lemma svecs_insert g x j v : g !! x = None → svecs (<[x := (j, v)]> g) ≡ₚ option_list v ++ svecs g.
Proof. intros H. unfold svecs. rewrite map_to_list_insert by done. cbn. by destruct v. Qed.
Lemma svecs_delete g x j v : g !! x = Some (j, v) → svecs g ≡ₚ option_list v ++ svecs (delete x g).
Proof. intros H. unfold svecs. rewrite <-(map_to_list_delete g x (j, v) H). cbn. by destruct v. Qed.
Lemma insert_ghost g x j v v' : g !! x = Some (j, v) →
  ptrs (<[x := (j, v')]> g) ≡ₚ ptrs g ∧ svecs (<[x := (j, v')]> g) ≡ₚ option_list v' ++ svecs (delete x g) ∧
  base.size (<[x := (j, v')]> g) = base.size g.
Proof.
  intros H. rewrite (ptrs_delete g x j v H), <-insert_delete_eq.
  rewrite ptrs_insert, svecs_insert, map_size_insert_None by apply lookup_delete_eq.
  split_and!; [done|done|]. rewrite map_size_delete, H. cbn.
  assert (base.size g ≠ 0%nat); [|lia]. intros E%map_size_empty_iff. subst. by rewrite lookup_empty in H.
Qed.
Lemma svec_in g x j v : g !! x = Some (j, Some v) → v ∈ svecs g.
Proof. intros H. rewrite (svecs_delete g x j _ H). cbn. left. Qed.
Lemma ptrs_ne (pool : list nat) g x x' j v j' v' :
  NoDup (pool ++ ptrs g) → g !! x = Some (j, v) → g !! x' = Some (j', v') → x ≠ x' → j ≠ j'.
Proof.
  intros Hn Hx Hx' Hne ->. apply NoDup_app in Hn as (_ & _ & Hn).
  rewrite (ptrs_delete g x j' v Hx) in Hn. apply NoDup_cons in Hn as [Hn _]. apply Hn.
  rewrite (ptrs_delete (delete x g) x' j' v'); [left|]. by rewrite lookup_delete_ne.
Qed.
Lemma pool_ne (pool : list nat) g x j v i : NoDup (pool ++ ptrs g) → g !! x = Some (j, v) → i ∈ pool → i ≠ j.
Proof.
  intros Hn Hx Hi ->. apply NoDup_app in Hn as (_ & Hn & _). apply (Hn j Hi).
  rewrite (ptrs_delete g x j v Hx). left.
Qed.

Lemma rep_frame n n' f f' c k a v :
  rep n f c k a v → n ≤ n' → (∀ q, v = Some q → load f' q = load f q) → rep n' f' c k a v.
Proof.
  intros [] Hn Hl. split; try done; [lia|]. destruct v as [v|]; [|done]. by rewrite (Hl v).
Qed.

(** The stream [x] becomes another one, with perhaps another vector. *)
Lemma streams_update n n' f0 us env ss m g M x k a j v c' a' v' f' m' :
  streams_ok n f0 us env (ss, m) g M → n ≤ n' → ss !! x = Some (k, a) → g !! x = Some (j, v) →
  rep n' f' c' k a' v' → (∃ fs, factory_ok n' f' (us ++ option_list v' ++ svecs (delete x g)) fs) → made f' →
  (∀ q, q ∈ us ++ svecs (delete x g) → load f' q = load (vFactory (arboretum M)) q) →
  streams_ok n' f0 us env (<[x := (k, a')]> ss, m') (<[x := (j, v')]> g)
    (set_arboretum (set_vFactory f' m') (write_stream j c' M)).
Proof.
  intros H Hn Hx Hg Hr [fs Hf] Hm Hl. destruct (insert_ghost g x j v v' Hg) as (Hp & Hv & Hs).
  destruct (so_pool _ _ _ _ _ _ _ H) as (pool & Hpv & Hpn & Hpc & Hpl).
  split; cbn -[base.size].
  - intros y k1 a1. destruct (decide (x = y)) as [<-|Hne].
    + rewrite !lookup_insert_eq. intros [= <- <-].
      destruct (so_live _ _ _ _ _ _ _ H x k a Hx) as (j1 & v1 & c & Hg1 & He & Hc & _). cbn in *.
      simplify_eq. exists j, v', c'. split_and!; [done|done| |done].
      apply list_lookup_insert_eq. by eapply lookup_lt_Some.
    + rewrite !lookup_insert_ne by done. intros Hy.
      destruct (so_live _ _ _ _ _ _ _ H y k1 a1 Hy) as (j1 & v1 & c & Hg1 & He & Hc & Hr1).
      exists j1, v1, c. split_and!; [done|done| |].
      * rewrite list_lookup_insert_ne; [done|]. by apply (ptrs_ne pool g x y j v j1 v1).
      * apply (rep_frame n n' (vFactory (arboretum M))); [done|done|]. intros q ->. apply Hl, elem_of_app. right.
        apply (svec_in _ y j1). by rewrite lookup_delete_ne.
  - intros y. destruct (decide (x = y)) as [<-|Hne].
    + rewrite !lookup_insert_eq. eauto.
    + rewrite !lookup_insert_ne by done. apply (so_names _ _ _ _ _ _ _ H).
  - done.
  - exists pool. rewrite Hs, Hp. split_and!; [done|done| |lia]. intros i Hi.
    rewrite list_lookup_insert_ne; [by apply Hpc|]. by apply not_eq_sym, (pool_ne pool g x j v).
  - exists fs. eapply factory_perm; [|exact Hf]. by rewrite Hv.
  - done.
  - intros q Hq. rewrite Hl by (apply elem_of_app; by left). by apply (so_keep _ _ _ _ _ _ _ H).
Qed.

(** ** Reading a stream *)

(** A stream in memory, with the nodes [m]. *)
Definition at_stream (n : Z) (M : REWRITES) (j : nat) (c : REWRITE_RULE_ELEMENT_STREAM) (k : STREAM_KIND)
    (a : LSTREAM) (v : option ptr) (m : ARBORETUM) : Prop :=
  structs M !! j = Some (Some c) ∧ rep n (vFactory (arboretum M)) c k a v ∧
  arboretum M = set_vFactory (vFactory (arboretum M)) m ∧ n < 2 ^ 31.
Definition after (M : REWRITES) (j : nat) (c : REWRITE_RULE_ELEMENT_STREAM) (m : ARBORETUM) : REWRITES :=
  set_arboretum (set_vFactory (vFactory (arboretum M)) m) (write_stream j c M).

Lemma after_same n M j c k a v m : at_stream n M j c k a v m → after M j c m = M.
Proof.
  intros (Hc & _ & Ha & _). unfold after. destruct M as [x t ss vs rs]. cbn in *.
  unfold set_arboretum, write_stream, set_structs. cbn. rewrite <-Ha. by rewrite list_insert_id.
Qed.
Lemma at_after n M j c k a v m c' a' m' :
  at_stream n M j c k a v m → rep n (vFactory (arboretum M)) c' k a' v → at_stream n (after M j c' m') j c' k a' v m'.
Proof.
  intros (Hc & _ & Ha & Hn) Hr. split_and!; [|exact Hr|done|done].
  cbn. apply list_lookup_insert_eq. by eapply lookup_lt_Some.
Qed.
Lemma after_twice M j c c' m m' : after (after M j c m) j c' m' = after M j c' m'.
Proof.
  unfold after, write_stream, set_structs, set_arboretum. cbn. by rewrite list_insert_insert_eq.
Qed.
Lemma stream_ok n M j c k a v m : at_stream n M j c k a v m → stream M j = Ok c.
Proof. intros (Hc & _). unfold stream, live. by rewrite Hc. Qed.

Lemma size_ok n M j c k a v m : at_stream n M j c k a v m → size j M = Ok (Z.of_nat (length (els a))).
Proof.
  intros H. unfold size. rewrite (stream_ok _ _ _ _ _ _ _ _ H). destruct H as (_ & Hr & _). cbn.
  pose proof (rp_body _ _ _ _ _ _ Hr) as Hb. destruct v as [v|].
  - destruct Hb as (-> & -> & _ & w & Hl & Hw & _). cbn. rewrite Hl. cbn.
    by rewrite (h_count _ _ Hw), length_fmap.
  - destruct Hb as (-> & Hl & ->). destruct (els a) as [|p [|]]; cbn in *; done || lia.
Qed.
Lemma hasNext_ok n M j c k a v m :
  at_stream n M j c k a v m → hasNext j M = Ok (cur a <? length (els a))%nat.
Proof.
  intros H. unfold hasNext. rewrite (stream_ok _ _ _ _ _ _ _ _ H). destruct H as (_ & Hr & _). cbn -[Nat.ltb].
  pose proof (rp_body _ _ _ _ _ _ Hr) as Hb. rewrite (rp_cursor _ _ _ _ _ _ Hr). destruct v as [v|].
  - destruct Hb as (-> & -> & Hlen & w & Hl & Hw & _). cbn -[Nat.ltb]. rewrite Hl. cbn -[Nat.ltb]. unfold VectorSize.
    rewrite (h_count _ _ Hw), length_fmap. f_equal.
    destruct (Z.ltb_spec (Z.of_nat (cur a)) (Z.of_nat (length (els a)))), (Nat.ltb_spec (cur a) (length (els a))); done || lia.
  - destruct Hb as (-> & Hl & ->). destruct (els a) as [|p [|]]; cbn in *; [done| |lia].
    destruct (Z.ltb_spec (Z.of_nat (cur a)) 1), (Nat.leb_spec (cur a) 0); done || lia.
Qed.

Lemma arboretum_call {A} (g : ARBORETUM → outcome (A * ARBORETUM)) M f m x m' :
  (∀ f m, g (set_vFactory f m) = with_factory f (g m)) → arboretum M = set_vFactory f m →
  g m = Ok (x, m') → on_arboretum g M = Ok (x, set_arboretum (set_vFactory f m') M).
Proof. intros Hg Ha E. unfold on_arboretum. by rewrite Ha, Hg, E. Qed.
Lemma toTree_ok k el M f m el' m' :
  arboretum M = set_vFactory f m → l_toTree k el m = Ok (el', m') →
  toTree k el M = Ok (el', set_arboretum (set_vFactory f m') M).
Proof.
  intros Ha E. assert (M = set_arboretum (set_vFactory f m) M) as Hm by (rewrite <-Ha; by destruct M).
  destruct k; cbn in *; [injection E as <- <-; by rewrite <-Hm..|].
  apply (arboretum_call _ M f m); [intros; apply dupNode_factory|done|done].
Qed.
Lemma dup_ok k el M f m el' m' :
  arboretum M = set_vFactory f m → l_dup k el m = Ok (el', m') →
  dup k el M = Ok (el', set_arboretum (set_vFactory f m') M).
Proof.
  intros Ha E. assert (M = set_arboretum (set_vFactory f m) M) as Hm by (rewrite <-Ha; by destruct M).
  destruct k; cbn in *; [injection E as <- <-; by rewrite <-Hm| |injection E as <- <-; by rewrite <-Hm].
  apply (arboretum_call _ M f m); [intros; apply dupNode_factory|done|done].
Qed.

(** [_next] reads the list. *)
Lemma rep_advance n f c k a v : rep n f c k a v → n < 2 ^ 31 → (cur a < length (els a))%nat →
  rep n f (set_cursor (u32 (cursor c + 1)) c) k (mkL (els a) (S (cur a)) (drt a)) v.
Proof.
  intros [] Hn Hlt. split; cbn; try done. rewrite rp_cursor0, u32_small by lia. lia.
Qed.
Lemma next_ok n M j c k a v m el a' m' :
  at_stream n M j c k a v m → l_next k a m = Ok (el, a', m') →
  ∃ c', next_ j M = Ok (el, after M j c' m') ∧ rep n (vFactory (arboretum M)) c' k a' v.
Proof.
  intros H E. unfold next_. rewrite (size_ok _ _ _ _ _ _ _ _ H), (stream_ok _ _ _ _ _ _ _ _ H). cbn.
  pose proof H as (Hc & Hr & Ha & Hn). pose proof (rp_body _ _ _ _ _ _ Hr) as Hb.
  rewrite (rp_cursor _ _ _ _ _ _ Hr), (rp_kind _ _ _ _ _ _ Hr). unfold l_next in E.
  destruct (Nat.ltb_spec (cur a) (length (els a))) as [Hlt|Hge].
  - destruct (Z.eqb_spec (Z.of_nat (length (els a))) 0); [lia|].
    destruct (Z.leb_spec (Z.of_nat (length (els a))) (Z.of_nat (cur a))); [lia|].
    destruct (l_toTree k (els a !! cur a) m) as [[p m1]|?|?] eqn:Et; cbn in E; [|done..].
    injection E as <- <- <-. exists (set_cursor (u32 (cursor c + 1)) c). split; [|by apply rep_advance].
    assert (Hto : ∀ el, el = els a !! cur a → toTree k el (write_stream j (set_cursor (u32 (Z.of_nat (cur a) + 1)) c) M)
      = Ok (p, after M j (set_cursor (u32 (cursor c + 1)) c) m1)).
    { intros el ->. rewrite (rp_cursor _ _ _ _ _ _ Hr). by apply (toTree_ok _ _ _ (vFactory (arboretum M)) m). }
    destruct v as [v|].
    + destruct Hb as (-> & -> & _ & w & Hl & Hw & _). cbn. rewrite Hl. cbn.
      rewrite (VectorGet_ok _ _ _ Hw). cbn. apply Hto. rewrite list_lookup_fmap. by destruct (els a !! cur a).
    + destruct Hb as (-> & Hl & Hs). rewrite Hs. destruct (els a) as [|q [|]] eqn:Ea; cbn in *; [lia| |lia].
      apply Hto. by destruct (cur a); [|lia].
  - destruct (Z.leb_spec (Z.of_nat (length (els a))) (Z.of_nat (cur a))); [|lia].
    destruct (Nat.eqb_spec (length (els a)) 1) as [E1|E1].
    + rewrite E1. cbn. destruct (l_toTree k (head (els a)) m) as [[p m1]|?|?] eqn:Et; cbn in E; [|done..].
      injection E as <- <- <-. exists c. split; [|done].
      destruct v as [v|]; [destruct Hb as (_ & _ & ? & _); lia|]. destruct Hb as (_ & _ & ->).
      rewrite (toTree_ok _ _ _ _ _ _ _ Ha Et). unfold after.
      replace (write_stream j c M) with M; [done|]. destruct M. cbn in *. unfold write_stream, set_structs. cbn.
      by rewrite list_insert_id.
    + injection E as <- <- <-. exists c. split; [|done]. rewrite (after_same _ _ _ _ _ _ _ _ H).
      destruct (Z.eqb_spec (Z.of_nat (length (els a))) 0); [done|].
      destruct (Z.eqb_spec (Z.of_nat (length (els a))) 1); [lia|done].
Qed.

(** The operations that return an element. *)
Definition reads_as (n : Z) (M : REWRITES) (j : nat) (k : STREAM_KIND) (v : option ptr)
    (o : outcome (option tptr * REWRITES)) (el : option tptr) (a' : LSTREAM) (m' : ARBORETUM) : Prop :=
  ∃ c', o = Ok (el, after M j c' m') ∧ rep n (vFactory (arboretum M)) c' k a' v.

Lemma dup_after n M j c k a v m c1 a1 m1 el el' m' :
  at_stream n M j c k a v m → rep n (vFactory (arboretum M)) c1 k a1 v → l_dup k el m1 = Ok (el', m') →
  dup k el (after M j c1 m1) = Ok (el', after M j c1 m').
Proof.
  intros H Hr E. rewrite (dup_ok k el (after M j c1 m1) (vFactory (arboretum M)) m1 el' m'); done.
Qed.
Lemma copied_reads n M j c k a v m again el a' m' :
  at_stream n M j c k a v m → l_copy again k a m = Ok (el, a', m') →
  reads_as n M j k v (if again then '(el, M) ← next_ j M; dup k el M else next_ j M) el a' m'.
Proof.
  intros H E. unfold l_copy in E.
  destruct (l_next k a m) as [[[el1 a1] m1]|?|?] eqn:En; cbn in E; [|done..].
  destruct (next_ok n M j c k a v m el1 a1 m1 H En) as (c1 & Ec & Hr1). rewrite Ec. cbn.
  destruct again; [|injection E as <- <- <-; by exists c1].
  destruct (l_dup k el1 m1) as [[el2 m2]|?|?] eqn:Ed; cbn in E; [|done..]. injection E as <- <- <-.
  exists c1. split; [|done]. by rewrite (dup_after n M j c k a v m c1 a1 m1 el1 el2 m2).
Qed.
Lemma used_test n f c k a v :
  rep n f c k a v → (Z.of_nat (length (els a)) <=? cursor c) && (Z.of_nat (length (els a)) =? 1) = l_used a.
Proof.
  intros [_ _ -> Hc _ _]. unfold l_used. rewrite andb_comm.
  destruct (Nat.eqb_spec (length (els a)) 1) as [E|E];
    [|destruct (Z.eqb_spec (Z.of_nat (length (els a))) 1); [lia|done]].
  rewrite E in *. destruct (Z.leb_spec (Z.of_nat 1) (Z.of_nat (cur a))), (Nat.leb_spec 1 (cur a)); done || lia.
Qed.
Lemma next_reads n M j c k a v m el a' m' :
  at_stream n M j c k a v m → l_copy (l_used a) k a m = Ok (el, a', m') →
  reads_as n M j k v (next j M) el a' m'.
Proof.
  intros H E. unfold next. rewrite (size_ok _ _ _ _ _ _ _ _ H), (stream_ok _ _ _ _ _ _ _ _ H). cbn [mbind outcome_bind].
  destruct H as (Hc & Hr & Ha & Hn). rewrite (used_test _ _ _ _ _ _ Hr), (rp_kind _ _ _ _ _ _ Hr).
  by apply (copied_reads n M j c k a v m (l_used a) el a' m').
Qed.
Lemma nextTree_reads n M j c k a v m el a' m' :
  at_stream n M j c k a v m → l_copy (drt a || l_used a) k a m = Ok (el, a', m') →
  reads_as n M j k v (nextTree j M) el a' m'.
Proof.
  intros H E. unfold nextTree. rewrite (size_ok _ _ _ _ _ _ _ _ H), (stream_ok _ _ _ _ _ _ _ _ H). cbn [mbind outcome_bind].
  destruct H as (Hc & Hr & Ha & Hn).
  rewrite (used_test _ _ _ _ _ _ Hr), (rp_kind _ _ _ _ _ _ Hr), (rp_dirty _ _ _ _ _ _ Hr).
  by apply (copied_reads n M j c k a v m (drt a || l_used a) el a' m').
Qed.
Lemma nextToken_reads n M j c k a v m el a' m' :
  at_stream n M j c k a v m → l_next k a m = Ok (el, a', m') → reads_as n M j k v (nextToken j M) el a' m'.
Proof. apply next_ok. Qed.
Lemma nextNode_reads n M j c k a v m el a' m' :
  at_stream n M j c k a v m → l_nextNode (tokenAt M) k a m = Ok (el, a', m') →
  reads_as n M j k v (nextNode j M) el a' m'.
Proof.
  intros H E. unfold nextNode. rewrite (stream_ok _ _ _ _ _ _ _ _ H). cbn [mbind outcome_bind]. unfold l_nextNode in E.
  destruct (l_next k a m) as [[[el1 a1] m1]|?|?] eqn:En; cbn [mbind outcome_bind] in E; [|done..].
  destruct (next_ok n M j c k a v m el1 a1 m1 H En) as (c1 & Ec & Hr1). rewrite Ec. cbn [mbind outcome_bind].
  assert (Hk : kind c = k) by by destruct H as (_ & [] & _). rewrite Hk.
  pose proof (at_after n M j c k a v m c1 a1 m1 H Hr1) as H1.
  pose proof (λ c2 m2, after_twice M j c1 c2 m1 m2) as Htw.
  destruct k.
  - change (tokenAt (after M j c1 m1)) with (tokenAt M).
    destruct (match el1 with None => Ok None | Some p => Some <$> deref (tokenAt M p) end) as [tok|?|?];
      cbn [mbind outcome_bind] in *; [|done..].
    destruct (create tok m1) as [[p m2]|?|?] eqn:Ecr; cbn [mbind outcome_bind] in E; [|done..]. injection E as <- <- <-.
    rewrite (arboretum_call (create tok) (after M j c1 m1) (vFactory (arboretum M)) m1 p m2); [|intros; apply create_factory|done|done].
    cbn [mbind outcome_bind]. by exists c1.
  - rewrite (size_ok _ _ _ _ _ _ _ _ H1), (stream_ok _ _ _ _ _ _ _ _ H1). cbn [mbind outcome_bind].
    rewrite (rp_dirty _ _ _ _ _ _ Hr1), (rp_cursor _ _ _ _ _ _ Hr1).
    pose proof (rp_cur _ _ _ _ _ _ Hr1).
    destruct (Z.ltb_spec (Z.of_nat (length (els a1))) (Z.of_nat (cur a1))); [lia|]. rewrite orb_false_r.
    destruct (drt a1); [|injection E as <- <- <-; by exists c1].
    destruct (adaptor_dupNode el1 m1) as [[el2 m2]|?|?] eqn:Ed; cbn [mbind outcome_bind] in E; [|done..].
    injection E as <- <- <-.
    rewrite (arboretum_call (adaptor_dupNode el1) (after M j c1 m1) (vFactory (arboretum M)) m1 el2 m2);
      [by exists c1|intros; apply dupNode_factory|done|done].
  - injection E as <- <- <-. by exists c1.
Qed.

(** ** Adding an element *)

Definition with_vectors (f : VECTOR_FACTORY tptr) (M : REWRITES) : REWRITES :=
  set_arboretum (set_vFactory f (arboretum M)) M.
Lemma with_vectors_twice f g M : with_vectors f (with_vectors g M) = with_vectors f M.
Proof. unfold with_vectors, set_arboretum. cbn. by rewrite set_vFactory_twice. Qed.

Lemma add_to_vector_ok p w l el M :
  load (vFactory (arboretum M)) p = Ok w → holds w l → Z.of_nat (length l) < 2 ^ 31 →
  ∃ w', add_to_vector (FactoryVector p) el false M = Ok (with_vectors (store (vFactory (arboretum M)) p w') M) ∧
    holds w' (l ++ [mkElement el false]) ∧ factoryMade w' = factoryMade w.
Proof.
  intros Hl Hw Hn. destruct (VectorAdd_ok w l el false Hw Hn) as (w' & E & Hw').
  unfold add_to_vector. cbn [vector_at]. rewrite Hl. cbn. rewrite E. cbn.
  exists w'. split_and!; [done|done|]. by apply (VectorAdd_made _ _ _ _ _ E).
Qed.

Lemma ghost_factory n (f : VECTOR_FACTORY tptr) us (g : ghost) x j v fs :
  factory_ok n f (us ++ svecs g) fs → g !! x = Some (j, v) →
  factory_ok n f (option_list v ++ us ++ svecs (delete x g)) fs.
Proof.
  intros H Hg. eapply factory_perm; [|exact H]. rewrite (svecs_delete g x j v Hg). solve_Permutation.
Qed.
Lemma not_in_rest n (f : VECTOR_FACTORY tptr) p us fs q : factory_ok n f (p :: us) fs → q ∈ us → q ≠ p.
Proof.
  intros H Hq ->. pose proof (fo_nodup _ _ _ _ H) as Hn. cbn in Hn. apply NoDup_cons in Hn as [Hn _].
  apply Hn, elem_of_app. by left.
Qed.
Lemma made_in_use n f us fs p w : factory_ok n f us fs → made f → p ∈ us → load f p = Ok w → factoryMade w = true.
Proof.
  intros H Hm Hp Hl. apply (Hm p w); [|done]. apply (fo_alloc _ _ _ _ H), elem_of_app. by left.
Qed.

(** What adding an element makes of the structure, the vectors and the factory. *)
Lemma add_ok n M j c k a v m us fs p :
  at_stream n M j c k a v m → n + 1 < 2 ^ 31 → made (vFactory (arboretum M)) →
  factory_ok n (vFactory (arboretum M)) (option_list v ++ us) fs →
  ∃ c' v' f' fs', add j (Some p) false M = Ok (set_arboretum (set_vFactory f' m) (write_stream j c' M)) ∧
    rep (n + 1) f' c' k (mkL (els a ++ [p]) (cur a) (drt a)) v' ∧
    factory_ok (n + 1) f' (option_list v' ++ us) fs' ∧ made f' ∧
    ∀ q, q ∈ us → load f' q = load (vFactory (arboretum M)) q.
Proof.
  intros H Hn Hm Hf. unfold add. rewrite (stream_ok _ _ _ _ _ _ _ _ H). cbn [mbind outcome_bind].
  pose proof H as (Hc & Hr & Ha & _). pose proof (rp_len _ _ _ _ _ _ Hr) as Hlen.
  pose proof (rp_body _ _ _ _ _ _ Hr) as Hb. set (f := vFactory (arboretum M)) in *. destruct v as [v|].
  - destruct Hb as (Hsi & He & Hl2 & w & Hl & Hw & Hmw). rewrite He. cbn [vector_at]. fold f. rewrite Hl.
    cbn [mbind outcome_bind]. rewrite (h_count _ _ Hw), length_fmap.
    destruct (Z.ltb_spec 0 (Z.of_nat (length (els a)))); [|lia].
    destruct (add_to_vector_ok v w (entry <$> els a) (Some p) M Hl Hw) as (w' & E & Hw' & Hmw');
      [rewrite length_fmap; lia|]. rewrite E. fold f.
    exists c, (Some v), (store f v w'), fs. split_and!.
    + f_equal. unfold with_vectors. rewrite Ha, set_vFactory_twice. destruct M. unfold write_stream, set_structs. cbn in *.
      by rewrite list_insert_id.
    + destruct Hr. split; cbn; try done; [rewrite length_app; cbn; lia..|].
      split_and!; [done|done|rewrite length_app; cbn; lia|].
      exists w'. split_and!; [by apply (load_store _ _ _ w)| |congruence]. by rewrite fmap_app.
    + apply (factory_mono n); [|lia]. eapply store_ok; [done|cbn; left|done].
    + apply made_store; [done|congruence].
    + intros q Hq. apply load_store_ne. by apply not_eq_sym, (not_in_rest n f v us fs).
  - destruct Hb as (He & Hl1 & Hsi). rewrite He, Hsi. cbn [mbind outcome_bind].
    destruct (els a) as [|p0 [|]] eqn:Ea; cbn [head] in *; [| |cbn in Hl1; lia].
    + exists (set_singleElement (Some p) c), None, f, fs. split_and!; [|..|done|done].
      * f_equal. destruct M. unfold write_stream, set_structs, set_arboretum. cbn in *. by rewrite <-Ha.
      * destruct Hr. split; cbn; rewrite ?Ea in *; cbn in *; try done; lia.
      * apply (factory_mono n); [done|lia].
    + fold f. destruct (newVector_ok n f us fs Hf) as (v & f1 & fs1 & E1 & Hv & Hf1 & w0 & Hl0 & Hw0); [lia|].
      rewrite E1. cbn [mbind outcome_bind]. fold (with_vectors f1 M).
      pose proof (made_newVector n f us fs v f1 Hf ltac:(lia) Hm E1) as Hm1.
      destruct (add_to_vector_ok v w0 [] (Some p0) (with_vectors f1 M) Hl0 Hw0) as (w1 & E2 & Hw1 & Hmw1); [cbn; lia|].
      rewrite E2. cbn [mbind outcome_bind]. change (vFactory (arboretum (with_vectors f1 M))) with f1.
      rewrite with_vectors_twice.
      destruct (add_to_vector_ok v w1 _ (Some p) (with_vectors (store f1 v w1) M) (load_store _ _ _ _ Hl0) Hw1)
        as (w2 & E3 & Hw2 & Hmw2); [cbn; lia|]. rewrite E3. cbn [mbind outcome_bind].
      change (vFactory (arboretum (with_vectors (store f1 v w1) M))) with (store f1 v w1).
      rewrite with_vectors_twice.
      assert (Hmw0 : factoryMade w0 = true) by (eapply made_in_use; [done|done|left|done]).
      eexists _, (Some v), (store (store f1 v w1) v w2), fs1. split_and!.
      * unfold with_vectors. rewrite Ha, set_vFactory_twice. reflexivity.
      * destruct Hr. split; cbn; rewrite ?Ea in *; cbn in *; try done; try lia.
        split_and!; [done|done|lia|]. exists w2. split_and!; [|done|congruence].
        apply (load_store _ _ _ w1). by apply (load_store _ _ _ w0).
      * eapply store_ok; [eapply store_ok; [done|left|done]|left|done].
      * apply made_store; [apply made_store; [done|congruence]|congruence].
      * intros q Hq. rewrite !load_store_ne by (apply not_eq_sym; by apply (not_in_rest (n + 1) f1 v us fs1)).
        destruct (load f q) as [wq|?|?] eqn:Eq.
        -- apply (newVector_frame f v); [done|done|by apply (not_in_rest (n + 1) f1 v us fs1)].
        -- destruct (fo_used _ _ _ _ Hf q Hq) as (? & ? & ? & _). congruence.
        -- destruct (fo_used _ _ _ _ Hf q Hq) as (? & ? & ? & _). congruence.
Qed.

(** ** A new stream *)

Lemma StreamNewAE_ok n f0 us env ss m g M x k :
  streams_ok n f0 us env (ss, m) g M → ss !! x = None → n + 1 < 2 ^ 31 →
  ∃ j M', StreamNewAE k None M = Ok (j, M') ∧ tokenAt M' = tokenAt M ∧
    streams_ok (n + 1) f0 us (<[x := j]> env) (<[x := (k, mkL [] 0 false)]> ss, m) (<[x := (j, None)]> g) M'.
Proof.
  intros H Hx Hn. assert (Hg : g !! x = None).
  { apply eq_None_not_Some. intros Hg. apply (so_names _ _ _ _ _ _ _ H) in Hg. cbn in Hg. rewrite Hx in Hg. by destruct Hg. }
  destruct (so_pool _ _ _ _ _ _ _ H) as (pool & Hp & Hnd & Hpc & Hlen).
  assert (∃ j s w fr pool', StreamNewAE k None M = Ok (j, mkRewrites (arboretum M) (tokenAt M) s (vectors M) w) ∧
    s !! j = Some (Some (mkRewrite 0 None None fr None false k)) ∧ NoDup (j :: pool' ++ ptrs g) ∧
    (∀ i, i ≠ j → i ∈ pool' ++ ptrs g → s !! i = structs M !! i) ∧ holds w (pooled <$> pool') ∧
    (∀ i, i ∈ pool' → i ∈ pool) ∧ Z.of_nat (length pool' + base.size g) ≤ n)
    as (j & s & w & fr & pool' & E & Hj & Hnd' & Hs & Hw & Hsub & Hlen').
  { unfold StreamNewAE. rewrite (h_count _ _ Hp), length_fmap.
    destruct pool as [|j pool' _] using rev_ind.
    - cbn. exists (length (structs M)). do 4 eexists. split; [reflexivity|].
      assert (Hnew : ∀ i, i ∈ ptrs g → (i < length (structs M))%nat).
      { intros i ((y & j & v) & -> & Hy)%list_elem_of_fmap. apply elem_of_map_to_list in Hy.
        destruct (so_names _ _ _ _ _ _ _ H y) as [[k1 a1] Hk]; [by eexists|].
        destruct (so_live _ _ _ _ _ _ _ H y k1 a1 Hk) as (j1 & v1 & c1 & Hy1 & _ & Hc1 & _). cbn.
        assert (j1 = j) as -> by congruence. by eapply lookup_lt_Some. }
      split_and!; [|constructor; [|done]| |exact Hp| |done].
      + apply list_lookup_insert_eq. cbn [structs set_structs]. rewrite length_app. cbn. lia.
      + intros Hi%Hnew. lia.
      + intros i Hne Hi%Hnew. cbn [structs set_structs]. rewrite list_lookup_insert_ne by done. by rewrite lookup_app_l.
      + done.
    - rewrite length_app in *. cbn [length] in *. destruct (Z.ltb_spec 0 (Z.of_nat (length pool' + 1))); [|lia].
      rewrite u32_small by lia. replace (Z.of_nat (length pool' + 1) - 1) with (Z.of_nat (length pool')) by lia.
      rewrite fmap_app in Hp. cbn in Hp.
      destruct (VectorRemove_ok (rStreams M) _ (length pool') (pooled j) Hp) as (w & Ew & Hw).
      { rewrite lookup_app_r; rewrite length_fmap; [|done]. by rewrite Nat.sub_diag. }
      rewrite Ew. cbn. destruct (Hpc j) as (c & Hc & He); [set_solver|].
      unfold stream, live. rewrite Hc. cbn. rewrite He.
      exists j. do 3 eexists. exists pool'. split; [reflexivity|]. cbn.
      rewrite delete_take_drop, take_app_length', drop_ge, app_nil_r in Hw by (rewrite ?length_app, length_fmap; cbn; lia).
      split_and!.
      + apply list_lookup_insert_eq. by eapply lookup_lt_Some.
      + eapply (submseteq_nodup _ _ Hnd), Permutation_submseteq. solve_Permutation.
      + intros i Hne _. by rewrite list_lookup_insert_ne.
      + done.
      + set_solver.
      + lia. }
  exists j. eexists. split; [exact E|]. split; [done|]. split; cbn -[base.size].
  - intros y k1 a1. destruct (decide (x = y)) as [<-|Hne].
    + rewrite !lookup_insert_eq. intros [= <- <-]. exists j, None. eexists. split_and!; [done|done|exact Hj|].
      destruct (so_vectors _ _ _ _ _ _ _ H) as [fs Hf]. pose proof (fo_bound _ _ _ _ Hf).
      pose proof (fo_next _ _ _ _ Hf). split; cbn; [done..|lia|lia|]. split_and!; [done|lia|done].
    + rewrite !lookup_insert_ne by done. intros Hy.
      destruct (so_live _ _ _ _ _ _ _ H y k1 a1 Hy) as (j1 & v1 & c1 & Hg1 & He1 & Hc1 & Hr1).
      assert (j1 ∈ ptrs g) as Hj1 by (rewrite (ptrs_delete g y j1 v1 Hg1); left).
      exists j1, v1, c1. split_and!; [done|done| |apply (rep_frame n _ (vFactory (arboretum M))); [done|lia|done]].
      rewrite Hs; [done| |set_solver]. intros ->. apply NoDup_cons in Hnd' as [Hnd' _]. set_solver.
  - intros y. destruct (decide (x = y)) as [<-|Hne]; [rewrite !lookup_insert_eq; eauto|].
    rewrite !lookup_insert_ne by done. apply (so_names _ _ _ _ _ _ _ H).
  - apply (so_nodes _ _ _ _ _ _ _ H).
  - exists pool'. rewrite (ptrs_insert g x j None Hg), map_size_insert_None by done. split_and!; [done| | |lia].
    + eapply (submseteq_nodup _ _ Hnd'), Permutation_submseteq. solve_Permutation.
    + intros i Hi. destruct (Hpc i (Hsub i Hi)) as (c & Hc & He). exists c. split; [|done].
      rewrite Hs; [done| |set_solver]. intros ->. apply NoDup_cons in Hnd' as [Hnd' _]. set_solver.
  - destruct (so_vectors _ _ _ _ _ _ _ H) as [fs Hf]. exists fs. apply (factory_mono n); [|lia].
    by eapply factory_perm; [|exact Hf]; rewrite svecs_insert.
  - apply (so_made _ _ _ _ _ _ _ H).
  - apply (so_keep _ _ _ _ _ _ _ H).
Qed.

(** ** Giving a stream back *)

Lemma look_nodes_ok m f (w : VECTOR tptr) l bs r i :
  holds w (entry <$> r ++ l) → oc_map (λ p, isNilNode p m) l = Ok bs → i = Z.of_nat (length r) →
  look_nodes (length l) i w (set_vFactory f m) = Ok tt.
Proof.
  intros Hw. revert bs r i Hw. induction l as [|p l IH]; intros bs r i Hw E ->; [done|]. cbn in E |- *.
  destruct (isNilNode p m) as [b|?|?] eqn:Ep; cbn in E; [|done..].
  destruct (oc_map _ l) as [bs'|?|?] eqn:El; cbn in E; [|done..].
  rewrite (read_slot_ok w _ _ (entry p) Hw) by (rewrite fmap_app, lookup_app_r; rewrite length_fmap; [by rewrite Nat.sub_diag|done]).
  cbn. change (isNilNode p (set_vFactory f m)) with (isNilNode p m). rewrite Ep. cbn.
  apply (IH bs' (r ++ [p])); [by rewrite <-app_assoc|done|]. rewrite length_app. cbn. lia.
Qed.
Lemma returnVector_frame (f : VECTOR_FACTORY tptr) p fr f' q :
  returnVector f p = Ok (fr, f') → q ≠ p → load f' q = load f q.
Proof.
  unfold returnVector. destruct (load f p) as [v|?|?]; cbn; [|done..].
  destruct (VectorClear v) as [[? w]|?|?]; cbn; [|done..].
  destruct (StackPush _ _ _) as [[? s]|?|?]; cbn; [|done..]. intros [= _ <-] Hne.
  change (load (set_freeStack s (store f p w)) q) with (load (store f p w) q).
  by apply load_store_ne, not_eq_sym.
Qed.

(** The name goes, and the structure is kept for later. *)
Lemma streams_free n f0 us env ss m g M x k a j v c f' w fs :
  streams_ok n f0 us env (ss, m) g M → ss !! x = Some (k, a) → g !! x = Some (j, v) →
  elements c = None → n < 2 ^ 31 → factory_ok n f' (us ++ svecs (delete x g)) fs → made f' →
  (∀ q, q ∈ us ++ svecs (delete x g) → load f' q = load (vFactory (arboretum M)) q) →
  VectorAdd (rStreams M) (Some j) true = Ok w →
  streams_ok n f0 us (delete x env) (delete x ss, m) (delete x g)
    (set_rStreams w.2 (set_arboretum (set_vFactory f' m) (write_stream j c M))).
Proof.
  intros H Hx Hg Hc Hn Hf Hm Hl Ew.
  destruct (so_pool _ _ _ _ _ _ _ H) as (pool & Hp & Hnd & Hpc & Hlen).
  assert (Hsz : base.size g = S (base.size (delete x g))).
  { rewrite map_size_delete, Hg. cbn. assert (base.size g ≠ 0%nat); [|lia].
    intros E%map_size_empty_iff. subst. by rewrite lookup_empty in Hg. }
  destruct (so_live _ _ _ _ _ _ _ H x k a Hx) as (j0 & v0 & c0 & Hg0 & _ & Hc0 & _).
  assert (j0 = j ∧ v0 = v) as [-> ->] by (split; congruence).
  split; cbn -[base.size].
  - intros y k1 a1 Hy. apply lookup_delete_Some in Hy as [Hne Hy].
    destruct (so_live _ _ _ _ _ _ _ H y k1 a1 Hy) as (j1 & v1 & c1 & Hg1 & He1 & Hc1 & Hr1).
    exists j1, v1, c1. rewrite !lookup_delete_ne by done. split_and!; [done|done| |].
    + rewrite list_lookup_insert_ne; [done|]. by apply (ptrs_ne pool g x y j v j1 v1).
    + apply (rep_frame n n (vFactory (arboretum M))); [done|done|]. intros q ->. apply Hl, elem_of_app. right.
      apply (svec_in _ y j1). by rewrite lookup_delete_ne.
  - intros y [e He]. apply lookup_delete_Some in He as [Hne He]. rewrite lookup_delete_ne by done.
    apply (so_names _ _ _ _ _ _ _ H). eauto.
  - done.
  - destruct (VectorAdd_ok (rStreams M) _ (Some j) true Hp) as (w' & Ew' & Hw').
    { rewrite length_fmap. lia. }
    rewrite Ew in Ew'. injection Ew' as ->. cbn. exists (pool ++ [j]). split_and!.
    + by rewrite fmap_app.
    + rewrite (ptrs_delete g x j v Hg) in Hnd.
      eapply (submseteq_nodup _ _ Hnd), Permutation_submseteq. solve_Permutation.
    + intros i [Hi|Hi]%elem_of_app.
      * rewrite list_lookup_insert_ne; [by apply Hpc|]. by apply not_eq_sym, (pool_ne pool g x j v).
      * apply list_elem_of_singleton in Hi as ->. exists c. split; [|done].
        apply list_lookup_insert_eq. by eapply lookup_lt_Some.
    + rewrite length_app. cbn -[base.size]. lia.
  - by exists fs.
  - done.
  - intros q Hq. rewrite Hl by (apply elem_of_app; by left). by apply (so_keep _ _ _ _ _ _ _ H).
Qed.
Lemma free_ok n f0 us env ss m g M x k a j v bs :
  streams_ok n f0 us env (ss, m) g M → ss !! x = Some (k, a) → g !! x = Some (j, v) → n + 1 < 2 ^ 31 →
  (if decide (k = TOKEN_STREAM) then Ok [] else oc_map (λ p, isNilNode p m) (els a)) = Ok bs →
  ∃ fr M', free j M = Ok (fr, M') ∧ tokenAt M' = tokenAt M ∧
    streams_ok n f0 us (delete x env) (delete x ss, m) (delete x g) M'.
Proof.
  intros H Hx Hg Hn Hbs. destruct (so_live _ _ _ _ _ _ _ H x k a Hx) as (j0 & v0 & c & Hg0 & _ & Hc & Hr).
  assert (j0 = j ∧ v0 = v) as [-> ->] by (split; congruence).
  pose proof (so_nodes _ _ _ _ _ _ _ H) as Ha. cbn in Ha. set (f := vFactory (arboretum M)) in *.
  destruct (so_vectors _ _ _ _ _ _ _ H) as [fs Hf]. fold f in Hf.
  destruct (so_pool _ _ _ _ _ _ _ H) as (pool & Hp & _ & _ & Hlen).
  destruct (VectorAdd_ok (rStreams M) _ (Some j) true Hp) as (w' & Ew & _); [rewrite length_fmap; lia|].
  unfold free, stream, live. rewrite Hc. cbn [mbind outcome_bind].
  pose proof (rp_body _ _ _ _ _ _ Hr) as Hb. rewrite (rp_kind _ _ _ _ _ _ Hr). destruct v as [v|].
  - destruct Hb as (Hsi & He & Hl2 & w & Hl & Hw & Hmw). rewrite He. cbn [vector_at]. fold f. rewrite Hl.
    cbn [mbind outcome_bind]. rewrite (h_count _ _ Hw), length_fmap, Nat2Z.id.
    assert ((if negb (bool_decide (k = TOKEN_STREAM)) then look_nodes (length (els a)) 0 w (arboretum M) else Ok tt) = Ok tt) as ->.
    { case_bool_decide as Hk; [done|]. rewrite decide_False in Hbs by done. cbn. rewrite Ha. by apply (look_nodes_ok m f w (els a) bs []). }
    cbn [mbind outcome_bind]. rewrite Hmw. cbn [mbind outcome_bind].
    assert (Hf' : factory_ok n f (v :: us ++ svecs (delete x g)) fs) by exact (ghost_factory _ _ _ _ _ _ _ _ Hf Hg).
    destruct (returnVector_ok n f _ fs v Hf') as (fr & f' & E & Hok); [lia|]. rewrite E. cbn [mbind outcome_bind].
    cbn [rStreams set_arboretum set_structs write_stream]. rewrite Ew. cbn [mbind outcome_bind].
    do 2 eexists. split; [reflexivity|]. split; [done|].
    rewrite Ha, set_vFactory_twice.
    apply (streams_free n f0 us env ss m g M x k a j (Some v) (set_elements None (freeElements c) c) f' (Z.of_nat (length (pooled <$> pool)) + 1, w') (v :: fs));
      try done; [lia| |].
    + apply (made_returnVector f v fr f'); [apply (so_made _ _ _ _ _ _ _ H)|done|].
      apply (fo_alloc _ _ _ _ Hf'). left.
    + intros q Hq. apply (returnVector_frame f v fr f'); [done|]. by apply (not_in_rest n f v (us ++ svecs (delete x g)) fs).
  - destruct Hb as (He & Hl1 & Hsi). rewrite He.
    assert (∃ b, (match singleElement c with
                  | Some p => if negb (bool_decide (k = TOKEN_STREAM)) then isNilNode p (arboretum M) else Ok false
                  | None => Ok false end) = Ok b) as [b Eb].
    { rewrite Hsi. destruct (els a) as [|p [|]] eqn:Ea; cbn in *; [eauto| |lia].
      case_bool_decide as Hk; [eauto|]. rewrite decide_False in Hbs by done. cbn. rewrite Ha.
      change (isNilNode p (set_vFactory f m)) with (isNilNode p m).
      destruct (isNilNode p m); cbn in Hbs; [eauto|done..]. }
    rewrite Eb. cbn [mbind outcome_bind]. cbn [rStreams set_structs write_stream]. rewrite Ew. cbn [mbind outcome_bind].
    do 2 eexists. split; [reflexivity|]. split; [done|].
    set (c' := set_elements None false _). 
    assert (write_stream j c' M = set_arboretum (set_vFactory f m) (write_stream j c' M)) as ->.
    { destruct M. unfold write_stream, set_structs, set_arboretum. cbn in *. by rewrite <-Ha. }
    apply (streams_free n f0 us env ss m g M x k a j None c' f (Z.of_nat (length (pooled <$> pool)) + 1, w') fs);
      try done; [lia| |apply (so_made _ _ _ _ _ _ _ H)].
    exact (ghost_factory _ _ _ _ _ _ _ _ Hf Hg).
Qed.

(** ** Requests *)

Lemma streams_mono n n' f0 us env st g M : streams_ok n f0 us env st g M → n ≤ n' → streams_ok n' f0 us env st g M.
Proof.
  intros [H1 H2 H3 (pool & Hp & Hd & Hc & Hl) [fs H5] H6 H7] Hn. split; try done.
  - intros x k a Hx. destruct (H1 x k a Hx) as (j & v & c & Hg & He & Hj & Hr). exists j, v, c.
    split_and!; [done..|]. by apply (rep_frame n n' (vFactory (arboretum M))).
  - exists pool. split_and!; [done..|lia].
  - exists fs. by apply (factory_mono n).
Qed.

(** A stream that is read, and the state it is left in. *)
Lemma streams_named n f0 us env ss m g M x k a :
  streams_ok n f0 us env (ss, m) g M → ss !! x = Some (k, a) → n < 2 ^ 31 →
  ∃ j v c, env !! x = Some j ∧ g !! x = Some (j, v) ∧ at_stream n M j c k a v m.
Proof.
  intros H Hx Hn. destruct (so_live _ _ _ _ _ _ _ H x k a Hx) as (j & v & c & Hg & He & Hc & Hr).
  exists j, v, c. split_and!; [done|done|]. split_and!; [done|done| |done]. apply (so_nodes _ _ _ _ _ _ _ H).
Qed.
Lemma streams_keep n f0 us env ss m g M x k a j v c' a' m' :
  streams_ok n f0 us env (ss, m) g M → ss !! x = Some (k, a) → g !! x = Some (j, v) →
  rep n (vFactory (arboretum M)) c' k a' v →
  streams_ok n f0 us env (<[x := (k, a')]> ss, m') g (after M j c' m').
Proof.
  intros H Hx Hg Hr. rewrite <-(insert_id g x (j, v)) by done.
  destruct (so_vectors _ _ _ _ _ _ _ H) as [fs Hf].
  apply (streams_update n n f0 us env ss m g M x k a j v c' a' v (vFactory (arboretum M)) m'); try done.
  - exists fs. eapply factory_perm; [|exact (ghost_factory _ _ _ _ _ _ _ _ Hf Hg)]. solve_Permutation.
  - apply (so_made _ _ _ _ _ _ _ H).
Qed.

(** [served]: memory answers the same, and the invariant holds again. *)
Definition served n f0 us toks (o : outcome (reply * m_state)) (r : reply) (st' : l_state) : Prop :=
  ∃ env' M' g', o = Ok (r, (env', M')) ∧ tokenAt M' = toks ∧ streams_ok n f0 us env' st' g' M'.

Lemma pointer_served n f0 us env ss m g M x r st' F G :
  streams_ok n f0 us env (ss, m) g M → n < 2 ^ 31 →
  (∀ j c k a v el a' m', at_stream n M j c k a v m → F k a m = Ok (el, a', m') → reads_as n M j k v (G j M) el a' m') →
  l_on x (ss, m) (λ k a m, l_pointer (F k a m)) = Ok (r, st') →
  served n f0 us (tokenAt M) (m_on x (env, M) G Pointer) r st'.
Proof.
  intros H Hn HF E. unfold l_on in E. cbn in E. destruct (ss !! x) as [[k a]|] eqn:Hx; cbn in E; [|done].
  destruct (F k a m) as [[[el a'] m']|?|?] eqn:EF; cbn in E; [|done..]. injection E as <- <-.
  destruct (streams_named _ _ _ _ _ _ _ _ x k a H Hx Hn) as (j & v & c & He & Hg & Hat).
  destruct (HF j c k a v el a' m' Hat EF) as (c' & Ec & Hr).
  unfold m_on. cbn. rewrite He. cbn. rewrite Ec. cbn.
  exists env, (after M j c' m'), g. split_and!; [done|done|]. by apply (streams_keep n f0 us env ss m g M x k a j v).
Qed.
Lemma state_served n f0 us env ss m g M x k a j v c r :
  streams_ok n f0 us env (ss, m) g M → ss !! x = Some (k, a) → g !! x = Some (j, v) → at_stream n M j c k a v m →
  served n f0 us (tokenAt M) (Ok (r, (env, M))) r (<[x := (k, a)]> ss, m).
Proof.
  intros H Hx Hg Hat. exists env, M, g. rewrite insert_id by done. done.
Qed.
Lemma streams_serve n f0 us env ss m g M q r st' :
  streams_ok n f0 us env (ss, m) g M → n + 2 < 2 ^ 31 →
  l_serve (tokenAt M) q (ss, m) = Ok (r, st') →
  served (n + 2) f0 us (tokenAt M) (m_serve q (env, M)) r st'.
Proof.
  intros H Hn E.
  assert (Hup : ∀ o, served n f0 us (tokenAt M) o r st' → served (n + 2) f0 us (tokenAt M) o r st').
  { intros o (env' & M' & g' & Eo & Ht & H'). exists env', M', g'. split_and!; [done|done|]. apply (streams_mono n); [done|lia]. }
  destruct q as [x k el|x el|x|x|x|x|x|x|x|x]; cbn [l_serve m_serve] in *.
  - cbn in E. destruct (ss !! x) eqn:Hx; [done|]. injection E as <- <-.
    destruct (StreamNewAE_ok n f0 us env ss m g M x k H Hx) as (j & M1 & E1 & Ht1 & H1); [lia|].
    unfold StreamNewAEE. cbn [fst snd]. rewrite E1. cbn [mbind outcome_bind]. destruct el as [p|].
    + destruct (streams_named _ _ _ _ _ _ _ _ x k (mkL [] 0 false) H1) as (j1 & v & c & He & Hg & Hat);
        [apply lookup_insert_eq|lia|]. rewrite lookup_insert_eq in He. injection He as <-.
      rewrite lookup_insert_eq in Hg. injection Hg as <-.
      destruct (so_vectors _ _ _ _ _ _ _ H1) as [fs Hf].
      destruct (add_ok (n + 1) M1 j c k _ None m _ fs p Hat ltac:(lia) (so_made _ _ _ _ _ _ _ H1)
        (ghost_factory _ _ _ _ x j None _ Hf (lookup_insert_eq g x (j, None)))) as (c' & v' & f' & fs' & E2 & Hr2 & Hf2 & Hm2 & Hl2).
      rewrite E2. cbn. do 3 eexists. split; [done|]. split; [by rewrite <-Ht1|].
      eapply streams_mono; [|shelve]. rewrite <-(insert_insert_eq ss x _ (k, mkL [] 0 false)).
      eapply (streams_update (n + 1) (n + 1 + 1)); try done; [lia|apply lookup_insert_eq|apply lookup_insert_eq|].
      exists fs'. eapply factory_perm; [|exact Hf2]. solve_Permutation. Unshelve. lia.
    + do 3 eexists. split; [done|]. split; [done|]. apply (streams_mono (n + 1)); [exact H1|lia].
  - unfold l_on in E. cbn in E. destruct (ss !! x) as [[k a]|] eqn:Hx; cbn in E; [|done]. injection E as <- <-.
    destruct (streams_named _ _ _ _ _ _ _ _ x k a H Hx) as (j & v & c & He & Hg & Hat); [lia|].
    unfold m_on. cbn [fst snd]. rewrite He. cbn [mbind outcome_bind deref]. destruct el as [p|].
    + destruct (so_vectors _ _ _ _ _ _ _ H) as [fs Hf].
      destruct (add_ok n M j c k a v m _ fs p Hat ltac:(lia) (so_made _ _ _ _ _ _ _ H)
        (ghost_factory _ _ _ _ x j v _ Hf Hg)) as (c' & v' & f' & fs' & E2 & Hr2 & Hf2 & Hm2 & Hl2).
      rewrite E2. cbn. do 3 eexists. split; [done|]. split; [done|].
      eapply streams_mono; [|shelve]. eapply (streams_update n (n + 1)); try done; [lia|].
      exists fs'. eapply factory_perm; [|exact Hf2]. solve_Permutation. Unshelve. lia.
    + apply Hup. rewrite app_nil_r. destruct a as [l i b]. by eapply state_served.
  - unfold l_on in E. cbn in E. destruct (ss !! x) as [[k a]|] eqn:Hx; cbn in E; [|done]. injection E as <- <-.
    destruct (streams_named _ _ _ _ _ _ _ _ x k a H Hx) as (j & v & c & He & Hg & Hat); [lia|].
    unfold m_on. cbn. rewrite He. cbn. rewrite (hasNext_ok _ _ _ _ _ _ _ _ Hat). cbn. apply Hup. by eapply state_served.
  - unfold l_on in E. cbn in E. destruct (ss !! x) as [[k a]|] eqn:Hx; cbn in E; [|done]. injection E as <- <-.
    destruct (streams_named _ _ _ _ _ _ _ _ x k a H Hx) as (j & v & c & He & Hg & Hat); [lia|].
    unfold m_on. cbn. rewrite He. cbn. rewrite (size_ok _ _ _ _ _ _ _ _ Hat). cbn. apply Hup. by eapply state_served.
  - apply Hup. eapply (pointer_served n _ _ _ ss m g M x r st' (λ k a, l_copy (l_used a) k a) next); [done|lia| |done].
    intros. by eapply next_reads.
  - apply Hup. eapply (pointer_served n _ _ _ ss m g M x r st' (λ k a, l_copy (drt a || l_used a) k a) nextTree); [done|lia| |done].
    intros. by eapply nextTree_reads.
  - apply Hup. eapply (pointer_served n _ _ _ ss m g M x r st' (l_nextNode (tokenAt M)) nextNode); [done|lia| |done].
    intros. by eapply nextNode_reads.
  - apply Hup. eapply (pointer_served n _ _ _ ss m g M x r st' l_next nextToken); [done|lia| |done].
    intros. by eapply nextToken_reads.
  - unfold l_on in E. cbn in E. destruct (ss !! x) as [[k a]|] eqn:Hx; cbn in E; [|done]. injection E as <- <-.
    destruct (streams_named _ _ _ _ _ _ _ _ x k a H Hx) as (j & v & c & He & Hg & Hat); [lia|].
    unfold m_on. cbn. rewrite He. cbn. unfold reset. rewrite (stream_ok _ _ _ _ _ _ _ _ Hat). cbn.
    apply Hup. set (c' := mkRewrite _ _ _ _ _ _ _). exists env, (after M j c' m), g. split_and!; [|done|].
    + do 3 f_equal. destruct Hat as (_ & _ & Ha & _). unfold after. destruct M. unfold write_stream, set_structs, set_arboretum. cbn in *. by rewrite <-Ha.
    + apply (streams_keep n f0 us env ss m g M x k a j v); try done. destruct Hat as (_ & [] & _). split; cbn; try done. lia.
  - cbn in E. destruct (ss !! x) as [[k a]|] eqn:Hx; cbn in E; [|done].
    destruct (if decide (k = TOKEN_STREAM) then _ else _) as [bs|?|?] eqn:Eb; cbn in E; [|done..]. injection E as <- <-.
    destruct (streams_named _ _ _ _ _ _ _ _ x k a H Hx) as (j & v & c & He & Hg & Hat); [lia|].
    destruct (free_ok n f0 us env ss m g M x k a j v bs H Hx Hg ltac:(lia) Eb) as (fr & M' & Ef & Ht & H').
    unfold m_on. cbn. rewrite He. cbn. rewrite Ef. cbn. apply Hup. by exists (delete x env), M', (delete x g).
Qed.

Lemma streams_serve_all qs : ∀ n f0 us env st g M rs st',
  streams_ok n f0 us env st g M → n + 2 * Z.of_nat (length qs) < 2 ^ 31 →
  l_serve_all (tokenAt M) qs st = Ok (rs, st') →
  ∃ env' M' g', m_serve_all qs (env, M) = Ok (rs, (env', M')) ∧
    streams_ok (n + 2 * Z.of_nat (length qs)) f0 us env' st' g' M'.
Proof.
  induction qs as [|q qs IH]; intros n f0 us env [ss m] g M rs st' H Hn E.
  - injection E as <- <-. exists env, M, g. split; [done|]. by apply (streams_mono n); [|cbn; lia].
  - cbn [l_serve_all length] in *. destruct (l_serve _ q _) as [[r st1]|?|?] eqn:Eq; cbn [mbind outcome_bind] in E; [|done..].
    destruct (l_serve_all _ qs st1) as [[rs1 st2]|?|?] eqn:Es; cbn [mbind outcome_bind] in E; [|done..]. injection E as <- <-.
    destruct (streams_serve n f0 us env ss m g M q r st1 H ltac:(lia) Eq) as (env1 & M1 & g1 & E1 & Ht & H1).
    rewrite <-Ht in Es. destruct (IH (n + 2) f0 us env1 st1 g1 M1 rs1 st2 H1 ltac:(lia) Es) as (env2 & M2 & g2 & E2 & H2).
    exists env2, M2, g2. cbn [m_serve_all]. rewrite E1. cbn [mbind outcome_bind]. rewrite E2. split; [done|].
    by replace (n + 2 * Z.of_nat (S (length qs))) with (n + 2 + 2 * Z.of_nat (length qs)) by lia.
Qed.
Lemma streams_new n m us fs toks :
  factory_ok n (vFactory m) us fs → made (vFactory m) →
  streams_ok n (vFactory m) us ∅ (∅, m) ∅ (RewritesNew m toks).
Proof.
  intros H Hm. pose proof (fo_bound _ _ _ _ H). pose proof (fo_next _ _ _ _ H).
  split; cbn -[base.size]; try done.
  - intros x [e He]. by rewrite lookup_empty in He.
  - by destruct m.
  - exists []. unfold ptrs. rewrite map_to_list_empty, map_size_empty.
    split_and!; [by apply VectorNew_holds|constructor| |cbn; lia]. intros j Hj. by apply not_elem_of_nil in Hj.
  - exists fs. unfold svecs. rewrite map_to_list_empty. cbn. by rewrite app_nil_r.
Qed.

(** ** The streams of the parser model *)

(** The trees at the places that a stream holds. *)
Definition stream_value (value : tptr → Tree.BASE_TREE) (a : LSTREAM) : Tree.REWRITE_STREAM :=
  Tree.mkStream (map value (els a)) (cur a) (drt a).

Theorem stream_values value a m p :
  Tree.hasNext (stream_value value a) = (cur a <? length (els a))%nat ∧
  Tree.add (Some (stream_value value a)) (Some (value p))
    = Some (stream_value value (mkL (els a ++ [p]) (cur a) (drt a))) ∧
  Tree.reset (stream_value value a) = stream_value value (mkL (els a) 0 true) ∧
  ∃ el a', l_next SUBTREE_STREAM a m = Ok (el, a', m) ∧
    Tree.next_element (stream_value value a) = (value <$> el, stream_value value a') ∧
    Tree.nextTree (stream_value value a) =
      (if drt a || l_used a then Tree.dupNode <$> (value <$> el) else value <$> el, stream_value value a').
Proof.
  split; [unfold Tree.hasNext; cbn -[Nat.ltb]; by rewrite length_map|].
  split; [unfold stream_value; cbn; by rewrite map_app|]. split; [done|].
  assert (Hn : ∃ el a', l_next SUBTREE_STREAM a m = Ok (el, a', m) ∧
    Tree.next_element (stream_value value a) = (value <$> el, stream_value value a')).
  { unfold l_next, Tree.next_element, stream_value. cbn [Tree.elements Tree.cursor Tree.dirty]. rewrite length_map.
    destruct (Nat.ltb_spec (cur a) (length (els a))) as [Hlt|Hge]; cbn [l_toTree mbind outcome_bind].
    - do 2 eexists. split; [reflexivity|]. destruct (Nat.eqb_spec (length (els a)) 0); [lia|].
      destruct (Nat.leb_spec (length (els a)) (cur a)); [lia|]. cbn. by rewrite <-list_lookup_fmap.
    - destruct (Nat.leb_spec (length (els a)) (cur a)); [|lia].
      destruct (els a) as [|p0 [|p1 l]] eqn:Ea; cbn; do 2 eexists; (split; [reflexivity|]); cbn; by rewrite ?Ea. }
  destruct Hn as (el & a' & E & Hn). exists el, a'. split; [done|]. split; [done|].
  unfold Tree.nextTree. rewrite Hn. cbn [Tree.elements Tree.cursor Tree.dirty stream_value]. rewrite length_map.
  assert (((length (els a) <=? cur a)%nat && (length (els a) =? 1)%nat) = l_used a) as ->; [|by destruct (drt a || l_used a)].
  unfold l_used. rewrite andb_comm. destruct (Nat.eqb_spec (length (els a)) 1) as [->|]; done.
Qed.

(** ** Properties *)

(** C32: rewrite streams in memory are lists with a cursor. Requests to any number of
    streams of the three kinds, each under its name, on nodes whose vectors are in
    order: creating a stream, with an element or without, adding, asking whether there
    is more and for the number of elements, taking the next element in each of the four
    ways, going back to the start, giving the stream back. Whatever structures and
    vectors are given back and used again in between, and as long as the requests are
    answered by streams that are lists and know nothing of each other, memory gives the
    same answers; the nodes are the same, and the vectors of trees are not touched.
    The lists do what the code does, which is not all that the comments of the header
    say: [next] copies only when it is asked again for a single element, also after
    [reset], which makes [nextTree] and [nextNode] copy; a copy is one node without its
    children, and of a token or a node stream there is none; an empty stream, and one of
    several elements behind the last, give a null pointer; tokens are not made nodes
    except by [nextNode] (see [rewrite_defects]). *)
Theorem streams_lists qs m n us fs toks replies st' :
  factory_ok n (vFactory m) us fs → made (vFactory m) → n + 2 * Z.of_nat (length qs) < 2 ^ 31 →
  l_serve_all toks qs (∅, m) = Ok (replies, st') →
  ∃ env' M', m_serve_all qs (∅, RewritesNew m toks) = Ok (replies, (env', M')) ∧
    arboretum M' = set_vFactory (vFactory (arboretum M')) st'.2 ∧
    ∀ q, q ∈ us → load (vFactory (arboretum M')) q = load (vFactory m) q.
Proof.
  intros Hf Hm Hn E. pose proof (streams_new n m us fs toks Hf Hm) as H.
  destruct (streams_serve_all qs n (vFactory m) us ∅ (∅, m) ∅ (RewritesNew m toks) replies st' H Hn E)
    as (env' & M' & g' & E' & H').
  exists env', M'. split_and!; [done|apply (so_nodes _ _ _ _ _ _ _ H')|apply (so_keep _ _ _ _ _ _ _ H')].
Qed.

Definition sample_nodes : outcome ARBORETUM :=
  m ← ArboretumNew;
  '(_, m) ← create (Some (mkToken TEXT 0 (lit "a"))) m;
  '(_, m) ← create (Some (mkToken TEXT 0 (lit "b"))) m;
  Ok m.
(** The second stream gets the structure of the first. *)
Definition sample_requests : list request :=
  [New 1 SUBTREE_STREAM (Some (0, 0)%nat); Add 1 (Some (0, 1)%nat); NextTree 1; Free 1;
   New 2 SUBTREE_STREAM None; HasNext 2; Add 2 (Some (0, 1)%nat); NextTree 2; NextTree 2; HasNext 2].
Definition sample_replies : list reply :=
  [Done; Done; Pointer (Some (0, 0)%nat); Done; Done; Flag false; Done; Pointer (Some (0, 1)%nat);
   Pointer (Some (0, 2)%nat); Flag false].

Lemma made_new f : VectorFactoryNew = Ok f → made f.
Proof. intros [= <-] p v Ha. exfalso. unfold allocated in Ha. cbn in Ha. lia. Qed.
Lemma sample_runs_rewrites :
  ∃ m st', sample_nodes = Ok m ∧ VectorFactoryNew = Ok (vFactory m) ∧
    l_serve_all (λ _, None) sample_requests (∅, m) = Ok (sample_replies, st').
Proof.
  assert (H : (m ← sample_nodes; rs ← fst <$> l_serve_all (λ _, None) sample_requests (∅, m); Ok (vFactory m, rs))
    = (f ← VectorFactoryNew; Ok (f, sample_replies))) by (vm_compute; reflexivity).
  destruct (@VectorFactoryNew_ok tptr) as (f & Ef & _). rewrite Ef in *.
  destruct sample_nodes as [m|?|?]; cbn [mbind outcome_bind] in H; [|discriminate H..].
  destruct (l_serve_all _ _ _) as [[rs st']|?|?] eqn:E; cbn [fmap outcome_fmap mbind outcome_bind fst] in H; [|discriminate H..].
  exists m, st'. injection H as <- ->. split; [reflexivity|]. split; [reflexivity|exact E].
Qed.
Lemma streams_lists_witness :
  ∃ m env' M', sample_nodes = Ok m ∧
    m_serve_all sample_requests (∅, RewritesNew m (λ _, None)) = Ok (sample_replies, (env', M')).
Proof.
  destruct sample_runs_rewrites as (m & st' & Em & Ev & E).
  destruct (@VectorFactoryNew_ok tptr) as (f & Ef & Hf).
  assert (f = vFactory m) as -> by congruence.
  destruct (streams_lists sample_requests m 0 [] [] (λ _, None) sample_replies st' Hf (made_new _ Ev) ltac:(reflexivity) E)
    as (env' & M' & E' & _).
  exists m, env', M'. split; [exact Em|exact E'].
Defined.

(** Defects. A stream of one subtree gives the same node from [nextNode] for ever, where
    [nextTree] copies it: the cursor never goes past the only element, as the test for a
    copy assumes. After a reset [next] gives the element itself and not a copy of it, as
    the comment of the dirty bit says. A stream that is empty, or of two elements and at
    the end, gives a null pointer and no exception. The copy of a tree has none of its
    children. A vector that was supplied to a stream is released with the stream, though
    the stream does not own it. *)
Theorem rewrite_defects toks m p q m' :
  adaptor_dupNode (Some p) m = Ok (q, m') →
  fst <$> l_serve_all toks [New 0 SUBTREE_STREAM (Some p); NextNode 0; NextNode 0] (∅, m)
    = Ok [Done; Pointer (Some p); Pointer (Some p)] ∧
  fst <$> l_serve_all toks [New 0 SUBTREE_STREAM (Some p); NextTree 0; NextTree 0] (∅, m)
    = Ok [Done; Pointer (Some p); Pointer q] ∧
  fst <$> l_serve_all toks [New 0 SUBTREE_STREAM (Some p); Next 0; Reset 0; Next 0] (∅, m)
    = Ok [Done; Pointer (Some p); Done; Pointer (Some p)] ∧
  fst <$> l_serve_all toks [New 0 SUBTREE_STREAM None; Next 0; Add 0 (Some p); Add 0 (Some p); Next 0; Next 0; Next 0] (∅, m)
    = Ok [Done; Pointer None; Done; Done; Pointer (Some p); Pointer (Some p); Pointer None] ∧
  ('(s, M) ← StreamNewAEV TOKEN_STREAM None (Some (OtherVector 0))
               (mkRewrites m toks [] [Some (VectorNew 0)] (VectorNew 0));
   '(_, M) ← free s M;
   M ← free_rStreams M;
   vector_at M (OtherVector 0)) = Undef UseAfterFree ∧
  (m ← sample_nodes;
   m ← addChild (0, 0)%nat (Some (0, 1)%nat) m;
   '(rs, st) ← l_serve_all toks [New 0 SUBTREE_STREAM (Some (0, 0)%nat); NextTree 0; NextTree 0] (∅, m);
   n ← getChildCount (0, 0)%nat st.2;
   n' ← getChildCount (0, 2)%nat st.2;
   Ok (rs, n, n')) = Ok ([Done; Pointer (Some (0, 0)%nat); Pointer (Some (0, 2)%nat)], 1, 0).
Proof.
  intros E. split_and!.
  - reflexivity.
  - cbn [l_serve_all l_serve fst snd]. rewrite lookup_empty. cbn. unfold l_on. cbn [fst snd]. rewrite lookup_insert_eq. cbn.
    rewrite lookup_insert_eq. cbn -[adaptor_dupNode]. rewrite E. reflexivity.
  - reflexivity.
  - reflexivity.
  - vm_compute. reflexivity.
  - vm_compute. reflexivity.
Qed.
