(* ===== verification/Recognizer.v ===== *)
(** The recognizer of the parser, with its error recovery:
    src/antlr/libantlr3c-3.4/src/antlr3baserecognizer.c. *)
From S2P Require Import Prelude CppString CyclicDFA Lexer TokenStream Tree Bitset.

(** ** The state of the recognizer *)

Definition ANTLR3_EOR_TOKEN_TYPE : Z := 1.

(** The shared state, as far as a parser without backtracking reads it. The
    stack of follow sets has its top first. *)
Record PARSER : Type := mkParser {
  tstream : TOKEN_STREAM;
  tokenNames : list str;
  errorRecovery : bool;
  lastErrorIndex : Z;
  error : bool;
  errorCount : Z;
  following : list (list Z)
}.

Definition set_tstream (x : TOKEN_STREAM) (s : PARSER) : PARSER :=
  mkParser x (tokenNames s) (errorRecovery s) (lastErrorIndex s) (error s) (errorCount s)
    (following s).
Definition set_errorRecovery (b : bool) (s : PARSER) : PARSER :=
  mkParser (tstream s) (tokenNames s) b (lastErrorIndex s) (error s) (errorCount s)
    (following s).
Definition set_lastErrorIndex (z : Z) (s : PARSER) : PARSER :=
  mkParser (tstream s) (tokenNames s) (errorRecovery s) z (error s) (errorCount s)
    (following s).
Definition set_error (b : bool) (s : PARSER) : PARSER :=
  mkParser (tstream s) (tokenNames s) (errorRecovery s) (lastErrorIndex s) b (errorCount s)
    (following s).
Definition set_errorCount (z : Z) (s : PARSER) : PARSER :=
  mkParser (tstream s) (tokenNames s) (errorRecovery s) (lastErrorIndex s) (error s) z
    (following s).
Definition set_following (f : list (list Z)) (s : PARSER) : PARSER :=
  mkParser (tstream s) (tokenNames s) (errorRecovery s) (lastErrorIndex s) (error s)
    (errorCount s) f.

(** [antlr3BaseRecognizerNew] *)
Definition ParserNewStream (names : list str) (instream : TOKEN_STREAM) : PARSER :=
  mkParser instream names false (-1) false 0 [].

Definition M (A : Type) : Type := PARSER → outcome (A * PARSER).

(** The macros of the generated code. *)
Definition LA (n : nat) (s : PARSER) : Z := tokLA n (tstream s).
Definition HASEXCEPTION (s : PARSER) : bool := error s.
Definition CONSTRUCTEX (s : PARSER) : PARSER := set_error true s.
Definition CONSUME (s : PARSER) : PARSER := set_tstream (tok_consume (tstream s)) s.
Definition FOLLOWPUSH (x : list Z) (s : PARSER) : PARSER := set_following (x :: following s) s.
Definition FOLLOWPOP (s : PARSER) : PARSER := set_following (tail (following s)) s.

(** ** Error recovery *)

(** [combineFollows], from the top of the stack down. *)
Fixpoint combine_follows (exact : bool) (stack : list (list Z)) (followSet : BITSET) : BITSET :=
  match stack with
  | [] => followSet
  | f :: stack =>
      let localFollowSet := BitsetLoad f in
      let followSet := BitsetORInPlace followSet localFollowSet in
      if exact then
        if BitsetMember localFollowSet ANTLR3_EOR_TOKEN_TYPE then followSet
        else combine_follows exact stack
               (match stack with
                | [] => followSet
                | _ => BitsetRemove followSet ANTLR3_EOR_TOKEN_TYPE
                end)
      else combine_follows exact stack followSet
  end.
Definition combineFollows (exact : bool) (s : PARSER) : BITSET :=
  combine_follows exact (following s) BitsetNew.
Definition computeErrorRecoverySet : PARSER → BITSET := combineFollows false.
Definition computeCSRuleFollow : PARSER → BITSET := combineFollows false.

(** [mismatchIsUnwantedToken] *)
Definition mismatchIsUnwantedToken (ttype : Z) (s : PARSER) : bool := LA 2 s =? ttype.

(** [mismatchIsMissingToken] *)
Definition mismatchIsMissingToken (follow : list Z) (s : PARSER) : bool :=
  let followClone := BitsetLoad follow in
  let followClone :=
    if BitsetMember followClone ANTLR3_EOR_TOKEN_TYPE then
      BitsetORInPlace (BitsetRemove followClone ANTLR3_EOR_TOKEN_TYPE) (computeCSRuleFollow s)
    else followClone in
  BitsetMember followClone (LA 1 s) || BitsetMember followClone ANTLR3_EOR_TOKEN_TYPE.

(** [reportError]; the message goes to the standard error stream. *)
Definition reportError (s : PARSER) : PARSER :=
  if errorRecovery s then s else set_errorCount (errorCount s + 1) (set_errorRecovery true s).

(** [getMissingSymbol]: its line is that of the token ahead, or of the one
    before the end. *)
Definition getMissingSymbol (expectedTokenType : Z) (s : PARSER) : outcome COMMON_TOKEN :=
  _ ← (if LA 1 s =? EOF then deref (LB1 (tstream s)) else Ok (LT 1 (tstream s)));
  name ← index (tokenNames s) expectedTokenType;
  Ok (mkToken expectedTokenType TOKEN_DEFAULT_CHANNEL
        (lit "<missing " ++ name ++ lit ">")).

(** [recoverFromMismatchedToken]: delete the token ahead, insert the one that is
    missing, or raise the exception. *)
Definition recoverFromMismatchedToken (ttype : Z) (follow : list Z)
    : M (option COMMON_TOKEN) := λ s,
  if mismatchIsUnwantedToken ttype s then
    let s := reportError (CONSUME s) in
    let matchedSymbol := LT 1 (tstream s) in
    Ok (Some matchedSymbol, set_error false (CONSUME s))
  else if mismatchIsMissingToken follow s then
    matchedSymbol ← getMissingSymbol ttype s;
    Ok (Some matchedSymbol, set_error false (reportError s))
  else Ok (None, set_error true s).

(** [match] *)
Definition MATCHT (ttype : Z) (follow : list Z) : M (option COMMON_TOKEN) := λ s,
  let matchedSymbol := LT 1 (tstream s) in
  if LA 1 s =? ttype then Ok (Some matchedSymbol, set_errorRecovery false (CONSUME s))
  else recoverFromMismatchedToken ttype follow s.

(** [consumeUntilSet] *)
Fixpoint consumeUntilSet (fuel : nat) (set : BITSET) (s : PARSER) : outcome PARSER :=
  match fuel with
  | O => Undef NoFuel
  | S fuel =>
      if negb (LA 1 s =? EOF) && negb (BitsetMember set (LA 1 s))
      then consumeUntilSet fuel set (CONSUME s)
      else Ok s
  end.

(** [recover] *)
Definition recover (s : PARSER) : outcome PARSER :=
  let s := if lastErrorIndex s =? tindex (tstream s) then CONSUME s else s in
  let s := set_lastErrorIndex (tindex (tstream s)) s in
  s ← consumeUntilSet (S (tokens_left (tstream s))) (computeErrorRecoverySet s) s;
  Ok (set_error false s).

(** ** The frame of a rule *)

(** A step, and a jump to the exit of the rule when it raised an exception. *)
Definition try_bind {A B} (m : M A) (k : A → M (option B)) : M (option B) := λ s,
  '(a, s) ← m s;
  if HASEXCEPTION s then Ok (None, s) else k a s.
Definition return_ {B} (b : B) : M (option B) := λ s, Ok (Some b, s).
(** [CONSTRUCTEX] and the jump. *)
Definition raise {B} : M (option B) := λ s, Ok (None, CONSTRUCTEX s).

(** A rule called with its follow set on the stack. *)
Definition invoke {A} (follow : list Z) (rule : M A) : M A := λ s,
  '(a, s) ← rule (FOLLOWPUSH follow s);
  Ok (a, FOLLOWPOP s).

(** The exit of a rule: the tree, or the error node after the recovery. *)
Definition rule_exit (body : M (option pTREE)) : M pTREE := λ s,
  '(root_0, s) ← body s;
  if HASEXCEPTION s then
    s ← recover (reportError s);
    Ok (Some errorNode, s)
  else Ok (rulePostProcessing (default None root_0), s).

Declare Scope rule_scope.
Delimit Scope rule_scope with rule.
Notation "'try' x := m ; k" := (try_bind m (λ x, k%rule))
  (at level 200, x name, m at level 100, k at level 200, right associativity,
   format "'try'  x  :=  m ;  '//' k") : rule_scope.
