(* ===== verification/Backtrack.v ===== *)
(** The rest of the recognizer: the chain of exceptions, matching and recovery as
    they treat it, backtracking with syntactic predicates, and the memory of the
    rules that were already parsed.
    src/antlr/libantlr3c-3.4/src/antlr3baserecognizer.c. *)
From S2P Require Import Prelude.
From S2P Require Import CppString.
From S2P Require Import IntTrie.
From S2P Require Import CyclicDFA.
From S2P Require Import Lexer.
From S2P Require Import TokenStream.
From S2P Require Import Tree.
From S2P Require Import Bitset.
From S2P Require Import Recognizer.

(** ** The state *)

Definition ANTLR3_RECOGNITION_EXCEPTION : Z := 1.
Definition ANTLR3_MISMATCHED_TOKEN_EXCEPTION : Z := 2.
Definition ANTLR3_UNWANTED_TOKEN_EXCEPTION : Z := 9.
Definition ANTLR3_MISSING_TOKEN_EXCEPTION : Z := 10.
Definition MEMO_RULE_FAILED : Z := 0xFFFFFFFE.
Definition MEMO_RULE_UNKNOWN : Z := 0xFFFFFFFF.

(** An exception: its type, the token and the index where it was made, and the
    type that was expected. The chain has the last one first. *)
Record EXCEPTION : Type := mkException {
  ex_type : Z;
  ex_message : str;
  ex_token : option COMMON_TOKEN;
  ex_index : Z;
  ex_expecting : Z
}.

(** The state beside that of [PARSER], and the last marker of its stream, which
    [TOKEN_STREAM] does not have. The memory of the rules is a trie of pointers to
    tries, which are in [tries] until they are released. *)
Record RECOGNIZER : Type := mkRecognizer {
  parser : PARSER;
  failed : bool;
  backtracking : Z;
  exception : list EXCEPTION;
  ruleMemo : option (INT_TRIE nat);
  tries : list (option (INT_TRIE unit));
  lastMarker : Z
}.
Definition set_parser x (r : RECOGNIZER) : RECOGNIZER :=
  mkRecognizer x (failed r) (backtracking r) (exception r) (ruleMemo r) (tries r) (lastMarker r).
Definition set_failed x (r : RECOGNIZER) : RECOGNIZER :=
  mkRecognizer (parser r) x (backtracking r) (exception r) (ruleMemo r) (tries r) (lastMarker r).
Definition set_backtracking x (r : RECOGNIZER) : RECOGNIZER :=
  mkRecognizer (parser r) (failed r) x (exception r) (ruleMemo r) (tries r) (lastMarker r).
Definition set_exception x (r : RECOGNIZER) : RECOGNIZER :=
  mkRecognizer (parser r) (failed r) (backtracking r) x (ruleMemo r) (tries r) (lastMarker r).
Definition set_memo x y (r : RECOGNIZER) : RECOGNIZER :=
  mkRecognizer (parser r) (failed r) (backtracking r) (exception r) x y (lastMarker r).
Definition set_lastMarker x (r : RECOGNIZER) : RECOGNIZER :=
  mkRecognizer (parser r) (failed r) (backtracking r) (exception r) (ruleMemo r) (tries r) x.
Definition on_parser (f : PARSER → PARSER) (r : RECOGNIZER) : RECOGNIZER :=
  set_parser (f (parser r)) r.

(** [antlr3BaseRecognizerNew] for a parser; the memory is made by parsers with
    memoization. *)
Definition BaseRecognizerNew (names : list str) (instream : TOKEN_STREAM) : RECOGNIZER :=
  mkRecognizer (ParserNewStream names instream) false 0 [] None [] 0.

(** ** Exceptions *)

(** A write to a member of [state->exception]. *)
Definition update_exception (f : EXCEPTION → EXCEPTION) (r : RECOGNIZER) : outcome RECOGNIZER :=
  match exception r with
  | [] => Undef NullDeref
  | e :: es => Ok (set_exception (f e :: es) r)
  end.

(** [antlr3ExceptionNew], [antlr3RecognitionExceptionNew] and
    [antlr3MTExceptionNew], in front of a stream of tokens. *)
Definition RecognitionExceptionNew (r : RECOGNIZER) : RECOGNIZER :=
  let ts := tstream (parser r) in
  let ex := mkException ANTLR3_RECOGNITION_EXCEPTION (lit "Unexpected token")
              (Some (LT 1 ts)) (tindex ts) 0 in
  on_parser (set_error true) (set_exception (ex :: exception r) r).
Definition set_ex_type (ty : Z) (e : EXCEPTION) : EXCEPTION :=
  mkException ty (ex_message e) (ex_token e) (ex_index e) (ex_expecting e).
Definition set_ex_message (m : str) (e : EXCEPTION) : EXCEPTION :=
  mkException (ex_type e) m (ex_token e) (ex_index e) (ex_expecting e).
Definition set_ex_token (t : COMMON_TOKEN) (e : EXCEPTION) : EXCEPTION :=
  mkException (ex_type e) (ex_message e) (Some t) (ex_index e) (ex_expecting e).
Definition set_ex_expecting (ty : Z) (e : EXCEPTION) : EXCEPTION :=
  mkException (ex_type e) (ex_message e) (ex_token e) (ex_index e) ty.
Definition MTExceptionNew (r : RECOGNIZER) : outcome RECOGNIZER :=
  update_exception (set_ex_type ANTLR3_MISMATCHED_TOKEN_EXCEPTION) (RecognitionExceptionNew r).

(** ** Matching and recovery *)

(** [mismatchIsUnwantedToken], which notes what was expected. *)
Definition unwanted (ttype : Z) (r : RECOGNIZER) : bool * RECOGNIZER :=
  if mismatchIsUnwantedToken ttype (parser r) then
    (true, set_exception (match exception r with
                          | [] => []
                          | e :: es => set_ex_expecting ttype e :: es
                          end) r)
  else (false, r).

(** [mismatch] *)
Definition mismatch (ttype : Z) (follow : list Z) (r : RECOGNIZER) : outcome RECOGNIZER :=
  r ← MTExceptionNew r;
  r ← update_exception (set_ex_expecting ttype) r;
  let '(b, r) := unwanted ttype r in
  if b : bool then
    update_exception (set_ex_type ANTLR3_UNWANTED_TOKEN_EXCEPTION) (RecognitionExceptionNew r)
  else if mismatchIsMissingToken follow (parser r) then
    update_exception (set_ex_type ANTLR3_MISSING_TOKEN_EXCEPTION) (RecognitionExceptionNew r)
  else MTExceptionNew r.

(** [recoverFromMismatchedToken]; an exception that is there is used again. *)
Definition recoverFromMismatchedToken (ttype : Z) (follow : list Z) (r : RECOGNIZER)
    : outcome (option COMMON_TOKEN * RECOGNIZER) :=
  let r := match exception r with [] => RecognitionExceptionNew r | _ => r end in
  let '(b, r) := unwanted ttype r in
  if b : bool then
    r ← update_exception (λ e, set_ex_message (lit "org.antlr.runtime.UnwantedTokenException")
           (set_ex_type ANTLR3_UNWANTED_TOKEN_EXCEPTION e)) r;
    let r := on_parser reportError (on_parser CONSUME r) in
    let matchedSymbol := LT 1 (tstream (parser r)) in
    Ok (Some matchedSymbol, on_parser (set_error false) (on_parser CONSUME r))
  else if mismatchIsMissingToken follow (parser r) then
    matchedSymbol ← getMissingSymbol ttype (parser r);
    r ← update_exception (λ e, set_ex_expecting ttype (set_ex_token matchedSymbol
           (set_ex_message (lit "org.antlr.runtime.MissingTokenException")
              (set_ex_type ANTLR3_MISSING_TOKEN_EXCEPTION e)))) r;
    Ok (Some matchedSymbol, on_parser (set_error false) (on_parser reportError r))
  else Ok (None, on_parser (set_error true) r).

(** [match] *)
Definition match_ (ttype : Z) (follow : list Z) (r : RECOGNIZER)
    : outcome (option COMMON_TOKEN * RECOGNIZER) :=
  let matchedSymbol := LT 1 (tstream (parser r)) in
  if LA 1 (parser r) =? ttype then
    Ok (Some matchedSymbol,
        set_failed false (on_parser (set_errorRecovery false) (on_parser CONSUME r)))
  else if 0 <? backtracking r then Ok (Some matchedSymbol, set_failed true r)
  else recoverFromMismatchedToken ttype follow r.

(** [matchAny] *)
Definition matchAny (r : RECOGNIZER) : RECOGNIZER :=
  on_parser CONSUME (set_failed false (on_parser (set_errorRecovery false) r)).

(** [recover], which also clears the flag of failure. *)
Definition recover_ (r : RECOGNIZER) : outcome RECOGNIZER :=
  p ← recover (parser r);
  Ok (set_failed false (set_parser p r)).

(** [recoverFromMismatchedSet] *)
Definition recoverFromMismatchedSet (follow : list Z) (r : RECOGNIZER)
    : outcome (option COMMON_TOKEN * RECOGNIZER) :=
  if mismatchIsMissingToken follow (parser r) then
    matchedSymbol ← getMissingSymbol 0 (parser r);
    r ← update_exception (λ e, set_ex_token matchedSymbol
           (set_ex_type ANTLR3_MISSING_TOKEN_EXCEPTION e)) r;
    Ok (Some matchedSymbol, on_parser (set_error false) (on_parser reportError r))
  else Ok (None, set_failed true (on_parser (set_error true) r)).

(** [recoverFromMismatchedElement]; what may follow the rule is computed and
    released. *)
Definition recoverFromMismatchedElement (followBits : list Z) (r : RECOGNIZER)
    : bool * RECOGNIZER :=
  let follow := BitsetLoad followBits in
  let follow := if BitsetMember follow ANTLR3_EOR_TOKEN_TYPE
                then BitsetRemove follow ANTLR3_EOR_TOKEN_TYPE else follow in
  if BitsetMember follow (LA 1 (parser r)) then
    (true, set_failed false (on_parser (set_error false) (on_parser reportError r)))
  else (false, r).

(** [consumeUntil] *)
Fixpoint consumeUntil (fuel : nat) (tokenType : Z) (r : RECOGNIZER) : outcome RECOGNIZER :=
  match fuel with
  | O => Undef NoFuel
  | S fuel =>
      let ttype := LA 1 (parser r) in
      if negb (ttype =? EOF) && negb (ttype =? tokenType)
      then consumeUntil fuel tokenType (on_parser CONSUME r)
      else Ok r
  end.

(** [getNumberOfSyntaxErrors] *)
Definition getNumberOfSyntaxErrors (r : RECOGNIZER) : Z := errorCount (parser r).

(** ** Memory of rules *)

(** Where the tries are. A pointer goes into the memory of the rules through
    [ANTLR3_FUNC_PTR], which keeps 32 bits of it, since the build does not define
    [ANTLR3_USE_64BIT]: from a higher address it does not come back. *)
Section memory.
Context (address : nat → Z).

Definition trie_at (p : option nat) (r : RECOGNIZER) : outcome (nat * INT_TRIE unit) :=
  p ← deref p;
  if u32 (address p) =? address p then
    match tries r !! p with
    | Some (Some t) => Ok (p, t)
    | Some None => Undef UseAfterFree
    | None => Undef BadIndex
    end
  else Undef BadIndex.
(** Reading [data.ptr] and [data.intVal] of an entry. *)
Definition entry_ptr (e : TRIE_ENTRY nat) : outcome (option nat) :=
  match e with PtrEntry p _ => Ok p | IntEntry _ _ => Undef WrongMember end.
Definition entry_int (e : TRIE_ENTRY unit) : outcome Z :=
  match e with IntEntry z _ => Ok z | PtrEntry _ _ => Undef WrongMember end.

(** [getRuleMemoization]; a marker is a signed number of 32 bits, the keys and the
    numbers of a trie are unsigned. *)
Definition getRuleMemoization (ruleIndex ruleParseStart : Z) (r : RECOGNIZER)
    : outcome (Z * RECOGNIZER) :=
  memo ← deref (ruleMemo r);
  es ← intTrieGet memo ruleIndex;
  match es with
  | [] =>
      let p := length (tries r) in
      '(_, memo) ← intTrieAdd memo ruleIndex (PtrEntry (Some p) true);
      Ok (sint 32 MEMO_RULE_UNKNOWN, set_memo (Some memo) (tries r ++ [Some (IntTrieNew 63)]) r)
  | e :: _ =>
      p ← entry_ptr e;
      '(_, ruleList) ← trie_at p r;
      es ← intTrieGet ruleList (u32 ruleParseStart);
      stopIndex ← (match es with [] => Ok 0 | e :: _ => z ← entry_int e; Ok (sint 32 z) end);
      Ok (if stopIndex =? 0 then sint 32 MEMO_RULE_UNKNOWN else stopIndex, r)
  end.

(** [alreadyParsedRule]; the comparisons are unsigned. *)
Definition alreadyParsedRule (ruleIndex : Z) (r : RECOGNIZER) : outcome (bool * RECOGNIZER) :=
  '(stopIndex, r) ← getRuleMemoization ruleIndex (tindex (tstream (parser r))) r;
  if u32 stopIndex =? MEMO_RULE_UNKNOWN then Ok (false, r)
  else if u32 stopIndex =? MEMO_RULE_FAILED then Ok (true, set_failed true r)
  else
    next ← int_op (stopIndex + 1);
    Ok (true, on_parser (λ p, set_tstream (seek (tstream p) next) p) r).

(** [memoize] *)
Definition memoize (ruleIndex ruleParseStart : Z) (r : RECOGNIZER) : outcome RECOGNIZER :=
  let stopIndex := if failed r then sint 32 MEMO_RULE_FAILED else tindex (tstream (parser r)) - 1 in
  memo ← deref (ruleMemo r);
  es ← intTrieGet memo ruleIndex;
  match es with
  | [] => Ok r
  | e :: _ =>
      p ← entry_ptr e;
      '(p, ruleList) ← trie_at p r;
      '(_, ruleList) ← intTrieAdd ruleList (u32 ruleParseStart) (IntEntry (u32 stopIndex) false);
      Ok (set_memo (ruleMemo r) (<[p := Some ruleList]> (tries r)) r)
  end.

(** ** Predicates *)

(** [synpred], for a predicate of the generated code; [mark] of the stream notes the
    place in the last marker. *)
Definition synpred (predicate : RECOGNIZER → outcome RECOGNIZER) (r : RECOGNIZER)
    : outcome (bool * RECOGNIZER) :=
  let '(start, ts) := tok_mark (tstream (parser r)) in
  n ← int_op (backtracking r + 1);
  r ← predicate (set_backtracking n (set_lastMarker start (on_parser (set_tstream ts) r)));
  let r := on_parser (λ p, set_tstream (seek (tstream p) start) p) r in
  n ← int_op (backtracking r - 1);
  let r := set_backtracking n r in
  if failed r then Ok (false, set_failed false r) else Ok (true, set_failed false r).

(** [reset]; releasing the memory calls the free function on its tries. *)
Fixpoint free_tries (ps : list (option nat)) (l : list (option (INT_TRIE unit)))
    : outcome (list (option (INT_TRIE unit))) :=
  match ps with
  | [] => Ok l
  | p :: ps =>
      p ← deref p;
      if u32 (address p) =? address p then
        match l !! p with
        | Some (Some t) => _ ← intTrieFree t; free_tries ps (<[p := None]> l)
        | Some None => Undef UseAfterFree
        | None => Undef BadIndex
        end
      else Undef BadIndex
  end.
Definition reset (r : RECOGNIZER) : outcome RECOGNIZER :=
  let p := parser r in
  let p := mkParser (tstream p) (tokenNames p) false (-1) (error p) 0 [] in
  match ruleMemo r with
  | None => Ok (mkRecognizer p false 0 (exception r) None (tries r) (lastMarker r))
  | Some memo =>
      '(_, freed) ← intTrieFree memo;
      l ← free_tries freed (tries r);
      Ok (mkRecognizer p false 0 (exception r) (Some (IntTrieNew 15)) l (lastMarker r))
  end.
End memory.
