(* ===== verification/BacktrackProps.v ===== *)
(** Properties of backtracking: matching is that of the parser model, predicates
    leave no trace, and the memory of rules is a map whose use changes no result. *)
From S2P Require Import Prelude.
From S2P Require Import CppString.
From S2P Require Import IntTrie.
From S2P Require Import CyclicDFA.
From S2P Require Import Lexer.
From S2P Require Import TokenStream.
From S2P Require Import Tree.
From S2P Require Import Bitset.
From S2P Require Import Recognizer.
From S2P Require Import Backtrack.

(** ** The memory of the rules is a map *)

(** The tries are in the first 4 GB of the memory, so that the pointers to them come back
    as they were; the other case is in [recognizer_defects]. *)
Section memory.
Context (address : nat → Z).
Definition low_tries : Prop := ∀ p, 0 < address p < 2 ^ 32.
Context (tries_low : low_tries).
Lemma trie_low p : (u32 (address p) =? address p) = true.
Proof. pose proof (tries_low p). rewrite u32_small by lia. apply Z.eqb_refl. Qed.

(** For each rule that was asked for, the stops by the starts. *)
Abbreviation MEMO := (gmap Z (gmap Z Z)).

(** The entry of a rule is a pointer to a trie of its own. *)
Definition knows (n : Z) (ts : list (option (INT_TRIE unit))) (es : option (list (TRIE_ENTRY nat)))
    (l : option (gmap Z Z)) : Prop :=
  match es, l with
  | None, None => True
  | Some es, Some l => ∃ p tr t m,
      es = [PtrEntry (Some p) true] ∧ ts !! p = Some (Some tr) ∧ allowDups tr = false ∧
      represents 63 n tr t m ∧ ∀ start, m !! start = (λ z, [IntEntry z false]) <$> l !! start
  | _, _ => False
  end.
Record remembers (n : Z) (r : RECOGNIZER) (M : MEMO) : Prop := {
  rm_memo : ∃ memo t m, ruleMemo r = Some memo ∧ allowDups memo = false ∧ represents 15 n memo t m ∧
    (∀ rule, knows n (tries r) (m !! rule) (M !! rule)) ∧
    (∀ rule rule' es, m !! rule = Some es → m !! rule' = Some es → rule = rule')
}.

Lemma knows_le n n' ts es l : knows n ts es l → n ≤ n' → knows n' ts es l.
Proof.
  unfold knows. destruct es as [es|], l as [l|]; try done.
  intros (p & tr & t & m & ? & ? & ? & ? & ?) Hn. exists p, tr, t, m. split_and!; try done.
  by apply (represents_le _ n).
Qed.
Lemma knows_app n ts ts' es l : knows n ts es l → knows n (ts ++ ts') es l.
Proof.
  unfold knows. destruct es as [es|], l as [l|]; try done.
  intros (p & tr & t & m & ? & ? & ? & ? & ?). exists p, tr, t, m. split_and!; try done.
  by apply lookup_app_l_Some.
Qed.

(** Adding under the key zero is refused whatever the trie holds. *)
Lemma intTrieAdd_at_zero {V} depth n (trie : INT_TRIE V) t m e :
  represents depth n trie t m → allowDups trie = false → intTrieAdd trie 0 e = Ok (false, trie).
Proof.
  intros H Hd. destruct (search_ok depth n trie t m 0 H) as (this & x & E & Hx & _).
  destruct (r_root _ _ _ _ _ H) as (rn & Hr & _ & Hk & _).
  assert (reach (bitof (nodes trie)) (keyof (nodes trie) root) t = root) as Hre.
  { apply reach_key; [apply (r_sep _ _ _ _ _ H)|]. apply (leaf_node_exists _ _ _ _ _ _ H). by exists rn. }
  assert (keyof (nodes trie) root = 0) as Hz by (unfold keyof; rewrite Hr; done).
  rewrite Hz in Hre. rewrite Hre in E, Hx. rewrite Hr in Hx. injection Hx as <-.
  unfold intTrieAdd. rewrite E. cbn [mbind outcome_bind]. unfold node. rewrite Hr. cbn [mbind outcome_bind].
  by rewrite Hk, Hd.
Qed.

Definition memo_value (o : option Z) : Z :=
  let z := default 0 (sint 32 <$> o) in if z =? 0 then sint 32 MEMO_RULE_UNKNOWN else z.
Definition asked (rule : Z) (M : MEMO) : MEMO :=
  if decide (rule = 0) then M
  else match M !! rule with Some _ => M | None => <[rule := ∅]> M end.
Definition noted (rule start z : Z) (M : MEMO) : MEMO :=
  match M !! rule with
  | None => M
  | Some l => if decide (start = 0) then M
              else match l !! start with Some _ => M | None => <[rule := <[start := z]> l]> M end
  end.

(** Only the memory differs. *)
Definition same_but_memo (r r' : RECOGNIZER) : Prop :=
  parser r' = parser r ∧ failed r' = failed r ∧ backtracking r' = backtracking r ∧
  exception r' = exception r.

Lemma getRuleMemoization_ok n r M rule start :
  remembers n r M → n + 1 < 2 ^ 32 → 0 ≤ rule < 2 ^ 15 → 0 ≤ start < 2 ^ 32 → ∃ r',
    getRuleMemoization address rule start r = Ok (memo_value (M !! rule ≫= (.!! start)), r') ∧
    remembers (n + 1) r' (asked rule M) ∧ same_but_memo r r'.
Proof.
  intros [(memo & t & m & Hr & Hd & Hm & HM & Hinj)] Hn Hrule Hstart.
  unfold getRuleMemoization, asked. rewrite Hr. cbn [deref mbind outcome_bind].
  rewrite (intTrieGet_ok _ _ _ _ _ rule Hm). pose proof (HM rule) as Hru. unfold knows in Hru.
  destruct (m !! rule) as [es|] eqn:Em, (M !! rule) as [l|] eqn:EM; try done;
    cbn [default from_option id mbind outcome_bind option_bind].
  - destruct Hru as (p & tr & t' & m' & -> & Htr & Hdt & Hrep & Hl).
    cbn [entry_ptr mbind outcome_bind]. unfold trie_at. cbn [deref mbind outcome_bind].
    rewrite trie_low, Htr.
    cbn [mbind outcome_bind]. rewrite u32_small by lia.
    rewrite (intTrieGet_ok _ _ _ _ _ start Hrep), Hl. cbn [mbind option_bind outcome_bind].
    exists r. split; [by destruct (l !! start)|]. split; [|done].
    assert ((if decide (rule = 0) then M else M) = M) as -> by (by destruct (decide _)).
    split. exists memo, t, m. split_and!; try done; [by apply (represents_le _ n); [done|lia]|].
    intros rule'. by apply (knows_le n); [|lia].
  - destruct (decide (rule = 0)) as [->|Hne].
    + rewrite (intTrieAdd_at_zero _ _ _ _ _ _ Hm Hd). cbn [mbind outcome_bind].
      eexists. split; [done|]. split; [|done]. split. exists memo, t, m.
      split_and!; try done; [by apply (represents_le _ n); [done|lia]|].
      intros rule'. cbn. apply knows_app. by apply (knows_le n); [|lia].
    + destruct (intTrieAdd_ok _ _ _ _ _ rule (PtrEntry (Some (length (tries r))) true) Hm)
        as (memo' & t' & E & Hd' & Hm'); [lia|lia|lia|]. rewrite E, Em in *. cbn [mbind outcome_bind].
      eexists. split; [done|]. split; [|done]. split. exists memo', t', (<[rule := [PtrEntry (Some (length (tries r))) true]]> m).
      split_and!; [done|congruence|done| |].
      * intros rule'. cbn [tries set_memo]. destruct (decide (rule' = rule)) as [->|Hr'].
        -- rewrite !lookup_insert_eq. exists (length (tries r)), (IntTrieNew 63), (Back root), ∅.
           split_and!; try done.
           { by rewrite list_lookup_middle. }
           apply (represents_le _ 0); [apply represents_new; lia|]. destruct (r_count _ _ _ _ _ Hm). lia.
        -- rewrite !lookup_insert_ne by done. apply knows_app. by apply (knows_le n); [|lia].
      * assert (∀ rule', m !! rule' ≠ Some [PtrEntry (Some (length (tries r))) true]) as Hfresh.
        { intros rule' E'. specialize (HM rule'). rewrite E' in HM. unfold knows in HM.
          destruct (M !! rule'); [|done]. destruct HM as (p & tr & ? & ? & [= <-] & Hp & _).
          apply lookup_lt_Some in Hp. lia. }
        intros r1 r2 es. rewrite !lookup_insert. repeat case_decide; try congruence.
        apply Hinj.
Qed.

Definition with_stop (start z : Z) (l : gmap Z Z) : gmap Z Z :=
  if decide (start = 0) then l else match l !! start with Some _ => l | None => <[start := z]> l end.
Lemma add_stop n (tr : INT_TRIE unit) t m l start z :
  represents 63 n tr t m → allowDups tr = false → n + 1 < 2 ^ 32 → 0 ≤ start < 2 ^ 32 →
  (∀ s, m !! s = (λ z, [IntEntry z false]) <$> l !! s) → ∃ b tr' t' m',
    intTrieAdd tr start (IntEntry z false) = Ok (b, tr') ∧ allowDups tr' = false ∧
    represents 63 (n + 1) tr' t' m' ∧ ∀ s, m' !! s = (λ z, [IntEntry z false]) <$> with_stop start z l !! s.
Proof.
  intros Hrep Hd Hn Hs Hl. unfold with_stop. destruct (decide (start = 0)) as [->|Hne].
  - rewrite (intTrieAdd_at_zero _ _ _ _ _ _ Hrep Hd). exists false, tr, t, m. split_and!; try done.
    by apply (represents_le _ n); [done|lia].
  - destruct (intTrieAdd_ok _ _ _ _ _ start (IntEntry z false) Hrep) as (tr' & t' & -> & Hd' & Hr'); [lia..|].
    rewrite Hl, Hd in Hr'. rewrite Hl. destruct (l !! start) as [z'|] eqn:El; cbn in *.
    + do 4 eexists. split; [done|]. split; [congruence|]. by split.
    + do 4 eexists. split; [done|]. split; [congruence|]. split; [exact Hr'|].
      intros s. destruct (decide (s = start)) as [->|Hs'].
      * by rewrite !lookup_insert_eq.
      * by rewrite !lookup_insert_ne.
Qed.

Lemma memoize_ok n r M rule start :
  remembers n r M → n + 1 < 2 ^ 32 → 0 ≤ start < 2 ^ 32 →
  let z := u32 (if failed r then sint 32 MEMO_RULE_FAILED else tindex (tstream (parser r)) - 1) in
  ∃ r', memoize address rule start r = Ok r' ∧ remembers (n + 1) r' (noted rule start z M) ∧ same_but_memo r r'.
Proof.
  intros [(memo & t & m & Hr & Hd & Hm & HM & Hinj)] Hn Hstart z.
  unfold memoize, noted. rewrite Hr. cbn [deref mbind outcome_bind].
  rewrite (intTrieGet_ok _ _ _ _ _ rule Hm). pose proof (HM rule) as Hru. unfold knows in Hru.
  assert (remembers (n + 1) r M) as Hsame.
  { split. exists memo, t, m. split_and!; try done; [by apply (represents_le _ n); [done|lia]|].
    intros rule'. by apply (knows_le n); [|lia]. }
  destruct (m !! rule) as [es|] eqn:Em, (M !! rule) as [l|] eqn:EM; try done;
    cbn [default from_option id mbind outcome_bind option_bind]; [|by exists r].
  destruct Hru as (p & tr & t' & m' & -> & Htr & Hdt & Hrep & Hl).
  cbn [entry_ptr mbind outcome_bind]. unfold trie_at. cbn [deref mbind outcome_bind]. rewrite trie_low, Htr.
  cbn [mbind outcome_bind]. rewrite (u32_small start) by lia. fold z.
  destruct (add_stop n tr t' m' l start z Hrep Hdt Hn Hstart Hl) as (b & tr' & t1 & m1 & E & Hdt' & Hrep' & Hl').
  rewrite E. cbn [mbind outcome_bind]. eexists. split; [done|]. split; [|done].
  split. exists memo, t, m. cbn [ruleMemo set_memo tries].
  split_and!; try done; [by apply (represents_le _ n); [done|lia]|].
  assert (p < length (tries r))%nat as Hp by (by eapply lookup_lt_Some).
  intros rule'. destruct (decide (rule' = rule)) as [->|Hne].
  - rewrite Em. assert ((if decide (start = 0) then M else match l !! start with
      Some _ => M | None => <[rule:=<[start:=z]> l]> M end) !! rule = Some (with_stop start z l)) as ->.
    { unfold with_stop. repeat case_match; try done. by rewrite lookup_insert_eq. }
    exists p, tr', t1, m1. split_and!; try done. by rewrite list_lookup_insert_eq.
  - assert ((if decide (start = 0) then M else match l !! start with
      Some _ => M | None => <[rule:=<[start:=z]> l]> M end) !! rule' = M !! rule') as ->.
    { repeat case_match; try done. by rewrite lookup_insert_ne. }
    specialize (HM rule'). unfold knows in HM |- *. destruct (m !! rule') as [es|] eqn:Em', (M !! rule'); try done.
    destruct HM as (p1 & tr1 & t2 & m2 & -> & ? & ? & ? & ?). exists p1, tr1, t2, m2.
    split_and!; try done; [|by apply (represents_le _ n); [done|lia]].
    rewrite list_lookup_insert_ne; [done|]. intros <-. apply Hne. by apply (Hinj _ _ _ Em' Em).
Qed.

(** ** Rules that use the memory

    What a rule does from a start is given: where it stops, or that it fails. A
    rule first looks into the memory; when it is not there, its body moves about
    and calls other rules, and in the end the rule is noted. *)
Section rules.
Context (parse : Z → nat → option nat).

Inductive call : Type := Call (rule : Z) (steps : list (nat * call)).
Definition rule_of (c : call) : Z := match c with Call rule _ => rule end.

Definition go_to (i : nat) (r : RECOGNIZER) : RECOGNIZER :=
  on_parser (λ p, set_tstream (seek (tstream p) (Z.of_nat i)) p) (set_failed false r).
Definition here (r : RECOGNIZER) : nat := TokenStream.p (tstream (parser r)).
Definition outcome_of (rule : Z) (start : nat) (r : RECOGNIZER) : RECOGNIZER :=
  match parse rule start with
  | Some stop => go_to stop r
  | None => set_failed true r
  end.

Fixpoint run (c : call) (r : RECOGNIZER) : outcome RECOGNIZER :=
  match c with
  | Call rule steps =>
      '(parsed, r) ← alreadyParsedRule address rule r;
      if parsed : bool then Ok r
      else
        let start := here r in
        r ← (fix go (steps : list (nat * call)) (r : RECOGNIZER) : outcome RECOGNIZER :=
               match steps with
               | [] => Ok r
               | (i, c) :: steps => r ← run c (go_to i r); go steps r
               end) steps r;
        memoize address rule (Z.of_nat start) (outcome_of rule start r)
  end.
Fixpoint run_steps (steps : list (nat * call)) (r : RECOGNIZER) : outcome RECOGNIZER :=
  match steps with
  | [] => Ok r
  | (i, c) :: steps => r ← run c (go_to i r); run_steps steps r
  end.

Fixpoint calls (c : call) : Z :=
  match c with
  | Call _ steps =>
      1 + (fix go (steps : list (nat * call)) : Z :=
             match steps with [] => 0 | (_, c) :: steps => calls c + go steps end) steps
  end.
Fixpoint calls_all (steps : list (nat * call)) : Z :=
  match steps with [] => 0 | (_, c) :: steps => calls c + calls_all steps end.

(** Rules and places are in range. *)
Definition place_ok (i : nat) : Prop := Z.of_nat i < 2 ^ 31.
Fixpoint call_ok (c : call) : Prop :=
  match c with
  | Call rule steps =>
      0 ≤ rule < 2 ^ 15 ∧
      (fix go (steps : list (nat * call)) : Prop :=
         match steps with [] => True | (i, c) :: steps => place_ok i ∧ call_ok c ∧ go steps end) steps
  end.
Fixpoint steps_ok (steps : list (nat * call)) : Prop :=
  match steps with [] => True | (i, c) :: steps => place_ok i ∧ call_ok c ∧ steps_ok steps end.

Context (parse_ok : ∀ rule start stop, parse rule start = Some stop → place_ok stop).

Definition stop_code (o : option nat) : Z :=
  u32 (match o with Some stop => Z.of_nat stop - 1 | None => sint 32 MEMO_RULE_FAILED end).
Definition sound (M : MEMO) : Prop :=
  ∀ rule l start z, M !! rule = Some l → l !! Z.of_nat start = Some z → z = stop_code (parse rule start).
(** What a call leaves behind. *)
Definition result (rule : Z) (start : nat) (r : RECOGNIZER) : Prop :=
  match parse rule start with
  | Some stop => failed r = false ∧ here r = stop
  | None => failed r = true
  end.
Definition knows_more (M M' : MEMO) : Prop := ∀ rule, is_Some (M !! rule) → is_Some (M' !! rule).

Lemma remembers_ext n r r' M :
  remembers n r M → ruleMemo r' = ruleMemo r → tries r' = tries r → remembers n r' M.
Proof. intros [H] E1 E2. split. by rewrite E1, E2. Qed.

Lemma remembers_go_to n i r M : remembers n r M → remembers n (go_to i r) M.
Proof. intros H. by apply (remembers_ext _ r). Qed.

Lemma sound_asked rule M : sound M → sound (asked rule M).
Proof.
  intros Hs rule' l start z. unfold asked. case_decide; [apply Hs|].
  destruct (M !! rule) as [l'|] eqn:E; [apply Hs|]. rewrite lookup_insert. case_decide; [|apply Hs].
  intros [= <-]. by rewrite lookup_empty.
Qed.
Lemma sound_noted rule start M :
  sound M → sound (noted rule (Z.of_nat start) (stop_code (parse rule start)) M).
Proof.
  intros Hs rule' l start' z. unfold noted. destruct (M !! rule) as [l0|] eqn:E; [|apply Hs].
  case_decide; [apply Hs|]. destruct (l0 !! Z.of_nat start) eqn:El; [apply Hs|].
  rewrite lookup_insert. case_decide as Hr; [|apply Hs]. subst rule'. intros [= <-].
  rewrite lookup_insert. case_decide as Hst; [|by apply Hs].
  intros [= <-]. by apply Nat2Z.inj in Hst as ->.
Qed.
Lemma knows_asked rule M : knows_more M (asked rule M).
Proof.
  intros rule' [l Hl]. unfold asked. case_decide; [by exists l|].
  destruct (M !! rule) eqn:E; [by exists l|]. rewrite lookup_insert_ne by congruence. by exists l.
Qed.
Lemma knows_noted rule start z M : knows_more M (noted rule start z M).
Proof.
  intros rule' [l Hl]. unfold noted. destruct (M !! rule); [|by exists l]. case_decide; [by exists l|].
  case_match; [by exists l|]. rewrite lookup_insert. case_decide; by eexists.
Qed.

(** A hit in the memory is the result of the rule. *)
Lemma alreadyParsedRule_ok n r M rule :
  remembers n r M → sound M → n + 1 < 2 ^ 32 → 0 ≤ rule < 2 ^ 15 → place_ok (here r) → failed r = false →
  ∃ b r', alreadyParsedRule address rule r = Ok (b, r') ∧ remembers (n + 1) r' (asked rule M) ∧
    (if b : bool then result rule (here r) r' else same_but_memo r r') ∧
    (if b then M !! rule ≫= (.!! Z.of_nat (here r)) ≠ None ∧ (∀ stop, parse rule (here r) = Some stop → (1 < stop)%nat)
     else M !! rule ≫= (.!! Z.of_nat (here r)) ≠ None →
       ∃ stop, parse rule (here r) = Some stop ∧ (stop ≤ 1)%nat).
Proof.
  intros Hr Hs Hn Hru Hp Hf. unfold alreadyParsedRule, tindex. fold (here r).
  destruct (getRuleMemoization_ok n r M rule (Z.of_nat (here r)) Hr Hn Hru) as (r1 & -> & Hr1 & Hsame).
  { unfold place_ok in Hp. lia. }
  cbn [mbind outcome_bind]. destruct Hsame as (Hpa & Hfa & Hba & Hex).
  assert (∀ z, M !! rule ≫= (.!! Z.of_nat (here r)) = Some z → z = stop_code (parse rule (here r))) as Hz.
  { intros z. destruct (M !! rule) as [l|] eqn:El; [|done]. by apply Hs. }
  destruct (M !! rule ≫= (.!! Z.of_nat (here r))) as [z|].
  - rewrite (Hz z eq_refl). unfold memo_value, result, stop_code. cbn [fmap option_fmap option_map default from_option id].
    destruct (parse rule (here r)) as [stop|] eqn:Ep.
    + pose proof (parse_ok _ _ _ Ep) as Hst. unfold place_ok in Hst.
      assert (sint 32 (u32 (Z.of_nat stop - 1)) = Z.of_nat stop - 1) as ->.
      { destruct (decide (stop = 0%nat)) as [->|]; [done|]. rewrite u32_small by lia. apply sint_small; lia. }
      destruct (decide (stop ≤ 1)%nat) as [Hsmall|Hbig].
      * exists false, r1. split_and!; try done; [|by exists stop]. by destruct stop as [|[|]]; [..|lia].
      * destruct (Z.eqb_spec (Z.of_nat stop - 1) 0) as [Hz0|_]; [lia|]. rewrite u32_small by lia.
        destruct (Z.eqb_spec (Z.of_nat stop - 1) MEMO_RULE_UNKNOWN) as [Hu|_]; [unfold MEMO_RULE_UNKNOWN in Hu; lia|].
        destruct (Z.eqb_spec (Z.of_nat stop - 1) MEMO_RULE_FAILED) as [Hu|_]; [unfold MEMO_RULE_FAILED in Hu; lia|].
        rewrite int_op_ok by (unfold INT_MIN, INT_MAX; lia).
        exists true, (go_to stop r1). split_and!; [|by apply (remembers_ext _ r1)|done| |done|intros ? [= <-]; lia].
        -- unfold go_to. cbn [mbind outcome_bind]. do 2 f_equal. replace (Z.of_nat stop - 1 + 1) with (Z.of_nat stop) by lia.
           rewrite Hf in Hfa. by destruct r1; cbn in *; subst.
        -- unfold here, go_to. cbn. by rewrite Nat2Z.id.
    + exists true, (set_failed true r1). split_and!; [done|by apply (remembers_ext _ r1)|done..].
  - unfold memo_value. cbn. exists false, r1. split_and!; done.
Qed.

Lemma run_call rule steps r :
  run (Call rule steps) r
  = ('(parsed, r) ← alreadyParsedRule address rule r;
     if parsed : bool then Ok r
     else r1 ← run_steps steps r;
          memoize address rule (Z.of_nat (here r)) (outcome_of rule (here r) r1)).
Proof. reflexivity. Qed.
Lemma calls_call rule steps : calls (Call rule steps) = 1 + calls_all steps.
Proof. reflexivity. Qed.
Lemma call_ok_call rule steps : call_ok (Call rule steps) ↔ 0 ≤ rule < 2 ^ 15 ∧ steps_ok steps.
Proof. reflexivity. Qed.
Lemma call_induction (P : call → Prop) :
  (∀ rule steps, Forall (λ s, P s.2) steps → P (Call rule steps)) → ∀ c, P c.
Proof.
  intros H. fix IH 1. intros [rule steps]. apply H.
  induction steps as [|[i c] steps IHs]; constructor; [apply IH|apply IHs].
Defined.
Lemma calls_positive c : 0 < calls c.
Proof.
  induction c as [rule steps IH] using call_induction. rewrite calls_call.
  assert (0 ≤ calls_all steps); [|lia].
  induction IH as [|[i c] steps Hc _ IHs]; cbn in *; lia.
Qed.

(** A run from a state where nothing has failed. *)
Definition run_spec (c : call) : Prop := ∀ n r M,
  remembers n r M → sound M → n + 2 * calls c < 2 ^ 32 → call_ok c → place_ok (here r) → failed r = false →
  ∃ r' M', run c r = Ok r' ∧ remembers (n + 2 * calls c) r' M' ∧ sound M' ∧ knows_more M M' ∧
    result (rule_of c) (here r) r' ∧
    (rule_of c ≠ 0 → here r ≠ 0%nat → M' !! rule_of c ≫= (.!! Z.of_nat (here r)) ≠ None).

Lemma remembers_le n n' r M : remembers n r M → n ≤ n' → remembers n' r M.
Proof.
  intros [(memo & t & m & ? & ? & ? & Hk & ?)] Hn. split. exists memo, t, m.
  split_and!; try done; [by apply (represents_le _ n)|]. intros rule. by apply (knows_le n).
Qed.
Lemma here_go_to i r : here (go_to i r) = i.
Proof. unfold here, go_to. cbn. apply Nat2Z.id. Qed.

Lemma run_steps_ok steps : Forall (λ s, run_spec s.2) steps → ∀ n r M,
  remembers n r M → sound M → n + 2 * calls_all steps < 2 ^ 32 → steps_ok steps →
  ∃ r' M', run_steps steps r = Ok r' ∧ remembers (n + 2 * calls_all steps) r' M' ∧ sound M' ∧ knows_more M M'.
Proof.
  induction 1 as [|[i c] steps Hc _ IH]; intros n r M Hr Hs Hn Hok; cbn [run_steps calls_all] in *.
  - exists r, M. replace (n + 2 * 0) with n by lia. split_and!; try done. by intros rule.
  - destruct Hok as (Hi & Hco & Hok). cbn [snd] in Hc.
    assert (0 ≤ calls_all steps) as Hpos.
    { clear. induction steps as [|[i c] steps IH]; cbn; [done|]. pose proof (calls_positive c). lia. }
    destruct (Hc n (go_to i r) M) as (r1 & M1 & -> & Hr1 & Hs1 & Hm1 & _);
      [by apply (remembers_ext _ r)|done|lia|done|by rewrite here_go_to|done|].
    cbn [mbind outcome_bind].
    destruct (IH _ _ _ Hr1 Hs1) as (r2 & M2 & E & Hr2 & Hs2 & Hm2); [lia|done|].
    exists r2, M2. split; [done|]. split; [by replace (n + 2 * (calls c + calls_all steps))
      with (n + 2 * calls c + 2 * calls_all steps) by lia|]. split; [done|].
    intros rule Hrule. by apply Hm2, Hm1.
Qed.

Lemma noted_known rule start z M :
  is_Some (M !! rule) → start ≠ 0 → noted rule start z M !! rule ≫= (.!! start) ≠ None.
Proof.
  intros [l Hl] Hne. unfold noted. rewrite Hl, decide_False by done.
  destruct (l !! start) eqn:E; [by rewrite Hl; cbn; rewrite E|].
  rewrite lookup_insert_eq. cbn. by rewrite lookup_insert_eq.
Qed.

Lemma run_ok c : run_spec c.
Proof.
  induction c as [rule steps IH] using call_induction. intros n r M Hr Hs Hn Hok Hp Hf.
  rewrite run_call. rewrite calls_call in *. apply call_ok_call in Hok as [Hru Hok]. cbn [rule_of].
  assert (0 ≤ calls_all steps) as Hpos.
  { clear. induction steps as [|[i c] steps IH]; cbn; [done|]. pose proof (calls_positive c). lia. }
  destruct (alreadyParsedRule_ok n r M rule Hr Hs) as (b & r1 & -> & Hr1 & Hb & Hmiss); [lia|done|done|done|].
  cbn [mbind outcome_bind]. destruct b.
  - exists r1, (asked rule M). split; [done|]. split; [by apply (remembers_le (n + 1)); [|lia]|].
    split; [by apply sound_asked|]. split; [apply knows_asked|]. split; [done|].
    intros Hne _. unfold asked. rewrite decide_False by done.
    destruct Hmiss as [Hmiss _]. by destruct (M !! rule) eqn:E; [rewrite E|].
  - destruct Hb as (Hpa & Hfa & _).
    destruct (run_steps_ok steps IH _ _ _ Hr1 (sound_asked rule M Hs)) as (r2 & M2 & -> & Hr2 & Hs2 & Hm2); [lia|done|].
    cbn [mbind outcome_bind]. assert (here r1 = here r) as Eh by (unfold here; by rewrite Hpa).
    rewrite Eh. set (r3 := outcome_of rule (here r) r2).
    assert (remembers (n + 1 + 2 * calls_all steps) r3 M2) as Hr3.
    { apply (remembers_ext _ r2); [done|..]; unfold r3, outcome_of; by destruct (parse rule (here r)). }
    assert (result rule (here r) r3) as Hres.
    { unfold result, r3, outcome_of. destruct (parse rule (here r)); [|done]. by rewrite here_go_to. }
    destruct (memoize_ok _ _ _ rule (Z.of_nat (here r)) Hr3) as (r4 & -> & Hr4 & Hpa4 & Hfa4 & _);
      [lia|unfold place_ok in Hp; lia|].
    assert (u32 (if failed r3 then sint 32 MEMO_RULE_FAILED else tindex (tstream (parser r3)) - 1)
      = stop_code (parse rule (here r))) as Ez.
    { unfold result in Hres. unfold stop_code. destruct (parse rule (here r)) as [stop|]; [|by rewrite Hres].
      destruct Hres as [-> Hst]. unfold tindex. unfold here in Hst. by rewrite Hst. }
    rewrite Ez in Hr4. eexists r4, _. split; [done|].
    split; [by apply (remembers_le _ _ _ _ Hr4); lia|]. split; [by apply sound_noted|].
    split; [intros rule' Hrule'; by apply knows_noted, Hm2, knows_asked|]. split.
    + unfold result, here in *. by rewrite Hpa4, Hfa4.
    + intros Hne Hst. apply noted_known; [|lia]. apply Hm2. unfold asked. rewrite decide_False by done.
      destruct (M !! rule) eqn:E; [by rewrite E|]. rewrite lookup_insert_eq. by eexists.
Qed.
End rules.
End memory.

(** ** Predicates

    What the generated code does in a syntactic predicate: it matches tokens one
    after the other and tries other predicates. *)
Inductive pred : Type :=
| Match (ttype : Z) (follow : list Z)
| MatchAny
| Both (a b : pred)
| Choose (guard a b : pred).

Fixpoint eval (p : pred) (r : RECOGNIZER) : outcome RECOGNIZER :=
  match p with
  | Match ttype follow => snd <$> match_ ttype follow r
  | MatchAny => Ok (matchAny r)
  | Both a b => r ← eval a r; if failed r then Ok r else eval b r
  | Choose guard a b => '(yes, r) ← synpred (eval guard) r; if yes : bool then eval a r else eval b r
  end.

(** The same as a parsing expression over the tokens that are ahead: what is left
    of them, unless it fails. *)
Fixpoint peg (p : pred) (l : list COMMON_TOKEN) : option (list COMMON_TOKEN) :=
  match p with
  | Match ttype _ =>
      match l with
      | [] => if ttype =? EOF then Some [] else None
      | t :: l => if tok_type t =? ttype then Some l else None
      end
  | MatchAny => Some (tail l)
  | Both a b => l ← peg a l; peg b l
  | Choose guard a b => match peg guard l with Some _ => peg a l | None => peg b l end
  end.
Fixpoint depth (p : pred) : Z :=
  match p with
  | Match _ _ | MatchAny => 0
  | Both a b => Z.max (depth a) (depth b)
  | Choose guard a b => Z.max (1 + depth guard) (Z.max (depth a) (depth b))
  end.

(** Whether something was matched on the way, also in front of a failure and in the
    predicates that were tried. *)
Fixpoint matches (p : pred) (l : list COMMON_TOKEN) : bool :=
  match p with
  | Match _ _ => bool_decide (is_Some (peg p l))
  | MatchAny => true
  | Both a b => matches a l || match peg a l with Some l' => matches b l' | None => false end
  | Choose guard a b => matches guard l || match peg guard l with Some _ => matches a l | None => matches b l end
  end.
(** The tokens that were ahead when the last of the predicates in it was tried. *)
Fixpoint last_tried (p : pred) (l : list COMMON_TOKEN) : option (list COMMON_TOKEN) :=
  match p with
  | Match _ _ | MatchAny => None
  | Both a b =>
      match peg a l ≫= last_tried b with Some m => Some m | None => last_tried a l end
  | Choose guard a b =>
      match (match peg guard l with Some _ => last_tried a l | None => last_tried b l end) with
      | Some m => Some m
      | None => Some (default l (last_tried guard l))
      end
  end.

(** Only the place in the stream and its last marker, the mode of recovery and the flag
    of failure may differ. *)
Record quiet (r r' : RECOGNIZER) : Prop := {
  q_tokens : tokens (tstream (parser r')) = tokens (tstream (parser r));
  q_names : tokenNames (parser r') = tokenNames (parser r);
  q_last : lastErrorIndex (parser r') = lastErrorIndex (parser r);
  q_error : error (parser r') = error (parser r);
  q_count : errorCount (parser r') = errorCount (parser r);
  q_following : following (parser r') = following (parser r);
  q_backtracking : backtracking r' = backtracking r;
  q_exception : exception r' = exception r;
  q_memo : ruleMemo r' = ruleMemo r;
  q_tries : tries r' = tries r
}.
Lemma quiet_refl r : quiet r r.
Proof. by split. Qed.
Lemma quiet_trans r1 r2 r3 : quiet r1 r2 → quiet r2 r3 → quiet r1 r3.
Proof. intros [] []. split; congruence. Qed.

Definition at_place (r : RECOGNIZER) : Prop := at_token (tstream (parser r)).
Definition left (r : RECOGNIZER) : list COMMON_TOKEN := ahead (tstream (parser r)).

Lemma LA_left r : at_place r → LA 1 (parser r) = match left r with t :: _ => tok_type t | [] => EOF end.
Proof.
  intros Ha. unfold LA, tokLA, left. rewrite (LT_ahead1 _ Ha). by destruct (ahead _).
Qed.
Lemma consume_left r : at_place r → at_place (on_parser CONSUME r) ∧ left (on_parser CONSUME r) = tail (left r).
Proof. intros Ha. split; [by apply consume_at_token|]. by apply ahead_consume. Qed.

(** The tokens ahead of the last marker. *)
Definition marked (r : RECOGNIZER) : list COMMON_TOKEN :=
  visible (drop (Z.to_nat (lastMarker r)) (tokens (tstream (parser r)))).
(** What is left of the mode of recovery, and the last marker. *)
Definition traces (p : pred) (l : list COMMON_TOKEN) (r r' : RECOGNIZER) : Prop :=
  errorRecovery (parser r') = errorRecovery (parser r) && negb (matches p l) ∧
  match last_tried p l with Some m => marked r' = m | None => lastMarker r' = lastMarker r end.
Lemma marked_same r r' : quiet r r' → lastMarker r' = lastMarker r → marked r' = marked r.
Proof. intros [] E. unfold marked. by rewrite E, q_tokens0. Qed.

Definition predicted (p : pred) (r r' : RECOGNIZER) : Prop :=
  quiet r r' ∧ traces p (left r) r r' ∧ failed r' = negb (bool_decide (is_Some (peg p (left r)))) ∧
  ∀ l, peg p (left r) = Some l → at_place r' ∧ left r' = l.

(** The state in which [synpred] tries its predicate. *)
Definition trying (r : RECOGNIZER) : RECOGNIZER :=
  set_backtracking (backtracking r + 1) (set_lastMarker (tindex (tstream (parser r))) r).
Lemma synpred_ok (f : RECOGNIZER → outcome RECOGNIZER) r r1 :
  backtracking r < INT_MAX → INT_MIN < backtracking r →
  f (trying r) = Ok r1 → quiet (trying r) r1 →
  ∃ r2, synpred f r = Ok (negb (failed r1), r2) ∧ quiet r r2 ∧ failed r2 = false ∧
    tstream (parser r2) = tstream (parser r) ∧ lastMarker r2 = lastMarker r1 ∧
    errorRecovery (parser r2) = errorRecovery (parser r1).
Proof.
  intros Hb1 Hb0 E []. unfold synpred. cbn [tok_mark]. rewrite int_op_ok by (unfold INT_MIN, INT_MAX in *; lia).
  cbn [mbind outcome_bind].
  replace (on_parser (set_tstream (tstream (parser r))) r) with r by (by destruct r as [[]]).
  change (f _) with (f (trying r)). rewrite E. cbn [mbind outcome_bind]. cbn in q_backtracking0.
  change (backtracking (on_parser _ r1)) with (backtracking r1).
  rewrite q_backtracking0, int_op_ok by (unfold INT_MIN, INT_MAX in *; lia). cbn [mbind outcome_bind].
  set (r2 := set_failed false _).
  assert (tstream (parser r2) = tstream (parser r)) as Ets.
  { unfold r2, seek, tindex. cbn. rewrite Nat2Z.id, q_tokens0. cbn. by destruct (tstream (parser r)). }
  exists r2. split; [by destruct (failed r1) eqn:Ef; unfold r2; cbn; rewrite Ef|].
  split; [|done]. split; try done. cbn. lia.
Qed.
Lemma synpred_pred p r r1 :
  backtracking r < INT_MAX → INT_MIN < backtracking r → failed r1 = negb (bool_decide (is_Some (peg p (left r)))) →
  eval p (trying r) = Ok r1 → quiet (trying r) r1 → traces p (left r) (trying r) r1 →
  ∃ r2, synpred (eval p) r = Ok (bool_decide (is_Some (peg p (left r))), r2) ∧ quiet r r2 ∧ failed r2 = false ∧
    tstream (parser r2) = tstream (parser r) ∧
    errorRecovery (parser r2) = errorRecovery (parser r) && negb (matches p (left r)) ∧
    marked r2 = default (left r) (last_tried p (left r)).
Proof.
  intros Hb1 Hb0 Hf E Hq [Hrec Hlast].
  destruct (synpred_ok (eval p) r r1 Hb1 Hb0 E Hq) as (r2 & -> & Hq2 & Hf2 & Ets & Hm & Hr).
  exists r2. rewrite Hf, negb_involutive, Hr. split_and!; try done.
  assert (Hmk : marked r2 = marked r1).
  { unfold marked. rewrite Hm, Ets. f_equal. f_equal. by destruct Hq. }
  rewrite Hmk. destruct (last_tried p (left r)); [done|]. rewrite (marked_same _ _ Hq Hlast).
  unfold marked, trying, tindex. cbn. by rewrite Nat2Z.id.
Qed.

Lemma depth_nonneg p : 0 ≤ depth p.
Proof. induction p; cbn; lia. Qed.

Lemma traces_both a b l l' r r1 r2 :
  peg a l = Some l' → quiet r1 r2 → traces a l r r1 → traces b l' r1 r2 → traces (Both a b) l r r2.
Proof.
  intros Hp Hq [Hr1 Hm1] [Hr2 Hm2]. unfold traces. cbn [matches last_tried]. rewrite Hp. cbn [mbind option_bind].
  split; [by rewrite Hr2, Hr1, negb_orb, andb_assoc|].
  destruct (last_tried b l'); [done|]. destruct (last_tried a l); [|congruence].
  by rewrite (marked_same _ _ Hq Hm2).
Qed.
Lemma traces_choose g a b l r r2 r3 :
  let c := match peg g l with Some _ => a | None => b end in
  quiet r2 r3 → errorRecovery (parser r2) = errorRecovery (parser r) && negb (matches g l) →
  marked r2 = default l (last_tried g l) → traces c l r2 r3 → traces (Choose g a b) l r r3.
Proof.
  intros c Hq Hr Hm [Hr3 Hm3]. unfold traces. cbn [matches last_tried].
  replace (match peg g l with Some _ => matches a l | None => matches b l end) with (matches c l)
    by (unfold c; by destruct (peg g l)).
  replace (match peg g l with Some _ => last_tried a l | None => last_tried b l end) with (last_tried c l)
    by (unfold c; by destruct (peg g l)).
  split; [by rewrite Hr3, Hr, negb_orb, andb_assoc|].
  destruct (last_tried c l); [done|]. by rewrite (marked_same _ _ Hq Hm3).
Qed.

Lemma eval_ok p : ∀ r,
  0 < backtracking r → backtracking r + depth p ≤ INT_MAX → at_place r → failed r = false →
  ∃ r', eval p r = Ok r' ∧ predicted p r r'.
Proof.
  induction p as [ttype follow| |a IHa b IHb|g IHg a IHa b IHb]; intros r Hb Hd Ha Hf; cbn [eval depth] in *.
  - unfold match_. rewrite (LA_left r Ha). unfold predicted, traces. cbn [peg matches last_tried].
    destruct (consume_left r Ha) as [Hc1 Hc2].
    assert (quiet r (set_failed true r)) as Hq1 by (by split).
    assert (quiet r (set_failed false (on_parser (set_errorRecovery false) (on_parser CONSUME r)))) as Hq2.
    { split; try done. cbn. apply consume_tokens. }
    destruct (left r) as [|t l] eqn:El.
    + rewrite (Z.eqb_sym EOF). destruct (Z.eqb_spec ttype EOF) as [->|Hne].
      * eexists. split; [done|]. split; [done|]. split; [by split; [by rewrite andb_false_r|]|].
        split; [done|]. by intros l [= <-].
      * destruct (Z.ltb_spec 0 (backtracking r)); [|lia]. eexists. split; [done|].
        split; [done|]. by split; [by split; [by rewrite andb_true_r|]|].
    + destruct (Z.eqb_spec (tok_type t) ttype).
      * eexists. split; [done|]. split; [done|]. split; [by split; [by rewrite andb_false_r|]|].
        split; [done|]. by intros l' [= <-].
      * destruct (Z.ltb_spec 0 (backtracking r)); [|lia]. eexists. split; [done|].
        split; [done|]. by split; [by split; [by rewrite andb_true_r|]|].
  - destruct (consume_left r Ha) as [Hc1 Hc2]. eexists. split; [done|]. split.
    + split; try done. cbn. apply consume_tokens.
    + split; [by split; [cbn; by rewrite andb_false_r|]|]. split; [done|]. intros l [= <-]. done.
  - destruct (IHa r) as (r1 & -> & Hq1 & Ht1 & Hf1 & Hl1); [done|lia|done|done|]. cbn [mbind outcome_bind].
    unfold predicted. cbn [peg]. rewrite Hf1.
    destruct (peg a (left r)) as [l|] eqn:Ep; cbn [mbind option_bind].
    + rewrite bool_decide_true by by eexists. cbn [negb]. destruct (Hl1 l eq_refl) as [Ha1 El1].
      assert (backtracking r1 = backtracking r) as Eb by apply Hq1.
      destruct (IHb r1) as (r2 & -> & Hq2 & Ht2 & Hf2 & Hl2); [lia|lia|done|done|].
      exists r2. split; [done|]. rewrite El1 in *. split; [by apply (quiet_trans _ r1)|].
      split; [by apply (traces_both _ _ _ _ _ r1 _ Ep)|done].
    + rewrite bool_decide_false by by intros []. cbn [negb]. exists r1. split; [done|].
      split; [done|]. split; [|by split]. destruct Ht1 as [Hr1 Hm1]. unfold traces. cbn [matches last_tried].
      rewrite Ep. cbn [mbind option_bind]. by rewrite orb_false_r.
  - pose proof (depth_nonneg g).
    destruct (IHg (trying r)) as (r1 & E1 & Hq1 & Ht1 & Hf1 & _); [cbn; lia|cbn; lia|done|done|].
    destruct (synpred_pred g r r1) as (r2 & -> & Hq2 & Hf2 & Ets & Hrec & Hmk);
      [unfold INT_MAX in *; lia|unfold INT_MIN; lia|done..|].
    cbn [mbind outcome_bind].
    assert (at_place r2) as Ha2 by (unfold at_place; by rewrite Ets).
    assert (left r2 = left r) as El2 by (unfold left; by rewrite Ets).
    assert (backtracking r2 = backtracking r) as Eb by apply Hq2.
    pose proof (traces_choose g a b (left r) r r2) as Htc.
    unfold predicted. cbn [peg]. destruct (peg g (left r)).
    + rewrite bool_decide_true by by eexists.
      destruct (IHa r2) as (r3 & -> & Hq3 & Ht3 & Hf3 & Hl3); [lia|lia|done|done|].
      rewrite El2 in *. exists r3. split; [done|]. split; [by apply (quiet_trans _ r2)|]. split; [by apply Htc|done].
    + rewrite bool_decide_false by by intros [].
      destruct (IHb r2) as (r3 & -> & Hq3 & Ht3 & Hf3 & Hl3); [lia|lia|done|done|].
      rewrite El2 in *. exists r3. split; [done|]. split; [by apply (quiet_trans _ r2)|]. split; [by apply Htc|done].
Qed.

(** ** Matching is that of the parser model *)

Lemma set_error_twice b b' p : Recognizer.set_error b (Recognizer.set_error b' p) = Recognizer.set_error b p.
Proof. done. Qed.
Lemma reportError_error b p :
  reportError (Recognizer.set_error b p) = Recognizer.set_error b (reportError p).
Proof. unfold reportError. by destruct (errorRecovery p) eqn:E; cbn; rewrite E. Qed.

Lemma recover_parser ttype follow r :
  (λ x, (x.1, parser x.2)) <$> recoverFromMismatchedToken ttype follow r
  = Recognizer.recoverFromMismatchedToken ttype follow (parser r).
Proof.
  unfold recoverFromMismatchedToken, Recognizer.recoverFromMismatchedToken.
  set (r1 := match exception r with [] => RecognitionExceptionNew r | _ => r end).
  assert (∃ e es b, exception r1 = e :: es ∧ parser r1 = Recognizer.set_error b (parser r))
    as (e & es & b & Ee & Ep).
  { unfold r1. destruct (exception r) as [|e es] eqn:Ee.
    - by do 3 eexists.
    - exists e, es, (error (parser r)). split; [done|]. by destruct (parser r). }
  clearbody r1. unfold unwanted. rewrite Ep.
  change (mismatchIsUnwantedToken ttype (Recognizer.set_error b (parser r)))
    with (mismatchIsUnwantedToken ttype (parser r)).
  destruct (mismatchIsUnwantedToken ttype (parser r)).
  - rewrite Ee. cbn [mbind outcome_bind update_exception exception set_exception fmap outcome_fmap fst snd].
    cbn [parser on_parser set_parser set_exception]. rewrite Ep.
    change (CONSUME (Recognizer.set_error b (parser r))) with (Recognizer.set_error b (CONSUME (parser r))).
    by rewrite reportError_error.
  - rewrite Ep. change (mismatchIsMissingToken follow (Recognizer.set_error b (parser r)))
      with (mismatchIsMissingToken follow (parser r)).
    destruct (mismatchIsMissingToken follow (parser r)).
    + change (getMissingSymbol ttype (Recognizer.set_error b (parser r))) with (getMissingSymbol ttype (parser r)).
      destruct (getMissingSymbol ttype (parser r)) as [t|?|?]; [|done..].
      cbn [mbind outcome_bind]. unfold update_exception. rewrite Ee.
      cbn [mbind outcome_bind fmap outcome_fmap fst snd parser on_parser set_parser set_exception].
      by rewrite Ep, reportError_error.
    + cbn [fmap outcome_fmap fst snd parser on_parser set_parser]. by rewrite Ep.
Qed.

(** ** Properties *)

(** Outside predicates [match] does to the state of the parser what [MATCHT] of the
    parser model does, whatever exceptions there are. *)
Theorem match_parser ttype follow r :
  backtracking r ≤ 0 →
  (λ x, (x.1, parser x.2)) <$> match_ ttype follow r = MATCHT ttype follow (parser r).
Proof.
  intros Hb. unfold match_, MATCHT. destruct (LA 1 (parser r) =? ttype); [done|].
  destruct (Z.ltb_spec 0 (backtracking r)); [lia|]. apply recover_parser.
Qed.
Lemma match_parser_witness :
  (λ x, (x.1, parser x.2)) <$> match_ 5 [0] (BaseRecognizerNew [] (TokenStreamNew [mkToken 5 0 (lit "x")]))
  = MATCHT 5 [0] (ParserNewStream [] (TokenStreamNew [mkToken 5 0 (lit "x")])).
Proof. apply (match_parser 5 [0] (BaseRecognizerNew [] (TokenStreamNew [mkToken 5 0 (lit "x")]))). done. Defined.

(** C33: a syntactic predicate says whether the tokens ahead match. For predicates of
    any depth, in front of a token of the channel or at the end, [synpred] returns; its
    result is that of the parsing expression on the list of the tokens ahead; and
    afterwards the stream is where it was, nothing has failed, and the count of errors
    and the place of the last one, exceptions, follow sets, memory and the level of
    backtracking are as before.
    Two things are not as before, and the theorem says what they are. The mode of
    recovery ends when the predicate matched any token, also when it failed later,
    although no token was consumed. And the last marker of the stream is where the last
    predicate began that was tried within this one, or, without such a one, this one. *)
Theorem synpred_peg p r :
  0 ≤ backtracking r → backtracking r + 1 + depth p ≤ INT_MAX → at_place r → failed r = false →
  ∃ r', synpred (eval p) r = Ok (bool_decide (is_Some (peg p (left r))), r') ∧
    tstream (parser r') = tstream (parser r) ∧ failed r' = false ∧ quiet r r' ∧
    errorRecovery (parser r') = errorRecovery (parser r) && negb (matches p (left r)) ∧
    marked r' = default (left r) (last_tried p (left r)).
Proof.
  intros Hb Hd Ha Hf. pose proof (depth_nonneg p).
  destruct (eval_ok p (trying r)) as (r1 & E1 & Hq & Ht & Hf1 & _); [cbn; lia|cbn; lia|done|done|].
  destruct (synpred_pred p r r1) as (r2 & E & Hq2 & Hf2 & Ets & Hrec & Hm);
    [unfold INT_MAX in *; lia|unfold INT_MIN; lia|done..|].
  by exists r2.
Qed.

Definition sample_parser : RECOGNIZER :=
  BaseRecognizerNew [] (TokenStreamNew [mkToken 5 0 (lit "x"); mkToken 38 99 (lit " "); mkToken 6 0 (lit "y")]).
(** A parser that recovers from an error: the predicate fails and ends the recovery. *)
Definition sample_recovering : RECOGNIZER := on_parser (set_errorRecovery true) sample_parser.
Lemma synpred_peg_witness :
  (∃ r', synpred (eval (Choose (Both (Match 5 []) (Match 5 [])) MatchAny (Both MatchAny (Match 6 [])))) sample_parser
      = Ok (true, r') ∧
    tstream (parser r') = tstream (parser sample_parser) ∧ failed r' = false ∧ quiet sample_parser r') ∧
  ∃ r', synpred (eval (Both (Match 5 []) (Match 5 []))) sample_recovering = Ok (false, r') ∧
    errorRecovery (parser sample_recovering) = true ∧ errorRecovery (parser r') = false.
Proof.
  split.
  - destruct (synpred_peg (Choose (Both (Match 5 []) (Match 5 [])) MatchAny (Both MatchAny (Match 6 []))) sample_parser)
      as (r' & E & Ets & Hf & Hq & _); [cbn; lia|cbn; unfold INT_MAX; lia|by intros t [= <-]|done|].
    exists r'. split_and!; [exact E|exact Ets|exact Hf|exact Hq].
  - destruct (synpred_peg (Both (Match 5 []) (Match 5 [])) sample_recovering)
      as (r' & E & _ & _ & _ & Hr & _); [cbn; lia|cbn; unfold INT_MAX; lia|by intros t [= <-]|done|].
    exists r'. split_and!; [exact E|done|exact Hr].
Defined.

(** C34: the memory of rules changes no result. When each rule has one result at each
    start, and the tries of the memory are in the first 4 GB (a pointer goes into the
    memory through 32 bits), then after any calls of rules from any places, each of which
    calls other rules in turn, looking for a rule in the memory or else parsing and noting
    it, a further call returns, and fails or stops where the rule does; once it was called
    at a start other than zero, the next call at the start is answered from the memory
    when the rule is not number zero and fails or stops behind the second token; and when
    it stops before the second token, it is not: the number that is noted for it is 0, or
    -1, and both mean that nothing is known. *)
Theorem memo_transparent address parse names ts steps c i :
  low_tries address → (∀ rule start stop, parse rule start = Some stop → place_ok stop) →
  steps_ok steps → call_ok c → place_ok i → 2 * (calls_all steps + calls c) + 1 < 2 ^ 32 →
  ∃ r1 r2, run_steps address parse steps (set_memo (Some (IntTrieNew 15)) [] (BaseRecognizerNew names ts)) = Ok r1 ∧
    run address parse c (go_to i r1) = Ok r2 ∧ result parse (rule_of c) i r2 ∧
    (rule_of c ≠ 0 → i ≠ 0%nat → (∀ stop, parse (rule_of c) i = Some stop → (1 < stop)%nat) → ∃ r3,
       alreadyParsedRule address (rule_of c) (go_to i r2) = Ok (true, r3) ∧ result parse (rule_of c) i r3) ∧
    (∀ stop, parse (rule_of c) i = Some stop → (stop ≤ 1)%nat → ∃ r3,
       alreadyParsedRule address (rule_of c) (go_to i r2) = Ok (false, r3)).
Proof.
  intros Hlow Hp Hs Hc Hi Hn. set (r0 := set_memo _ _ _).
  assert (remembers 0 r0 ∅) as H0.
  { split. exists (IntTrieNew 15), (Back root), ∅. split_and!; try done. by apply represents_new. }
  assert (0 ≤ calls_all steps) as Hpos.
  { clear. induction steps as [|[j c] steps IH]; cbn; [done|]. pose proof (calls_positive c). lia. }
  pose proof (calls_positive c) as Hcp.
  destruct (run_steps_ok address parse steps ltac:(apply Forall_true; intros; by apply run_ok) 0 r0 ∅ H0)
    as (r1 & M1 & E1 & H1 & Hs1 & _); [by intros rule l|lia|done|].
  destruct (run_ok address Hlow parse Hp c _ (go_to i r1) M1 (remembers_go_to _ _ _ _ H1) Hs1)
    as (r2 & M2 & E2 & H2 & Hs2 & _ & Hr2 & Hk); [lia|done|by rewrite here_go_to|done|].
  rewrite here_go_to in *. exists r1, r2. split_and!; try done.
  all: assert (0 ≤ rule_of c < 2 ^ 15) as Hru by (destruct c; apply Hc).
  all: destruct (alreadyParsedRule_ok address Hlow parse Hp _ (go_to i r2) M2 (rule_of c)
    (remembers_go_to _ _ _ _ H2) Hs2) as (b & r3 & E3 & _ & Hb & Hm);
    [lia|done|by rewrite here_go_to|done|].
  all: rewrite here_go_to in *.
  - intros Hne Hi0 Hst. destruct b; [by exists r3|]. exfalso.
    destruct (Hm (Hk Hne Hi0)) as (stop & Ep & Hle). specialize (Hst _ Ep). lia.
  - intros stop Ep Hle. destruct b; [|by exists r3]. destruct Hm as [_ Hm]. specialize (Hm _ Ep). lia.
Qed.

(** Rule 3 parses two tokens, calling rule 4, which fails; rule 5 goes back to the start
    of the stream. *)
Definition sample_parse (rule : Z) (start : nat) : option nat :=
  if (rule =? 3) && (start <? 9)%nat then Some (start + 2)%nat else if rule =? 5 then Some 0%nat else None.
Lemma memo_transparent_witness :
  (∃ r1 r2, run_steps (λ _, 4096) sample_parse [(2%nat, Call 4 [])]
      (set_memo (Some (IntTrieNew 15)) [] sample_parser) = Ok r1 ∧
    run (λ _, 4096) sample_parse (Call 3 [(1%nat, Call 4 [])]) (go_to 1 r1) = Ok r2 ∧ result sample_parse 3 1 r2 ∧
    ∃ r3, alreadyParsedRule (λ _, 4096) 3 (go_to 1 r2) = Ok (true, r3) ∧ result sample_parse 3 1 r3) ∧
  ∃ r2 r3, run (λ _, 4096) sample_parse (Call 5 []) (go_to 1 (set_memo (Some (IntTrieNew 15)) [] sample_parser)) = Ok r2 ∧
    alreadyParsedRule (λ _, 4096) 5 (go_to 1 r2) = Ok (false, r3).
Proof.
  assert (Hp : ∀ rule start stop, sample_parse rule start = Some stop → place_ok stop).
  { unfold sample_parse, place_ok. intros rule start stop. destruct (rule =? 3); cbn [andb].
    - destruct (Nat.ltb_spec start 9); [intros [= <-]; lia|]. destruct (rule =? 5); [|done]. by intros [= <-].
    - destruct (rule =? 5); [|done]. by intros [= <-]. }
  split.
  - destruct (memo_transparent (λ _, 4096) sample_parse [] (tstream (parser sample_parser)) [(2%nat, Call 4 [])]
      (Call 3 [(1%nat, Call 4 [])]) 1) as (r1 & r2 & E1 & E2 & Hr & Hh & _); [done|exact Hp|by (repeat split)..|done|done|].
    exists r1, r2. split_and!; [exact E1|exact E2|exact Hr|]. apply Hh; [done|done|]. intros stop [= <-]. lia.
  - destruct (memo_transparent (λ _, 4096) sample_parse [] (tstream (parser sample_parser)) [] (Call 5 []) 1)
      as (r1 & r2 & E1 & E2 & _ & _ & Hm); [done|exact Hp|by (repeat split)..|done|done|].
    injection E1 as <-. destruct (Hm 0%nat) as (r3 & E3); [done|lia|]. exists r2, r3. split; [exact E2|exact E3].
Defined.

(** What goes wrong: an exception that is there is used for the next error too, so
    that its token and its index are those of the first; [mismatch] reports an
    exception without the type it expected; the recovery of an element never
    looks at what follows the rule; a reset leaves the exception and its flag; and when
    the trie of a rule is behind the first 4 GB of the memory, the pointer to it that is
    remembered leads to no trie: the rule can be asked for once. *)
Theorem recognizer_defects :
  (∀ ttype follow r t r' e es, exception r = e :: es →
     recoverFromMismatchedToken ttype follow r = Ok (t, r') →
     ∃ e', exception r' = e' :: es ∧ ex_index e' = ex_index e) ∧
  (∀ ttype follow r r', mismatch ttype follow r = Ok r' →
     ∃ e es, exception r' = e :: es ∧ ex_expecting e = 0) ∧
  (∀ f r, recoverFromMismatchedElement [2] (on_parser (set_following f) r) = (false, on_parser (set_following f) r)) ∧
  (∀ address r r', reset address r = Ok r' → exception r' = exception r ∧ error (parser r') = error (parser r)) ∧
  ('(_, r) ← alreadyParsedRule (λ _, 2 ^ 32 + 4096) 3 (set_memo (Some (IntTrieNew 15)) [] sample_parser);
   fst <$> alreadyParsedRule (λ _, 2 ^ 32 + 4096) 3 r) = Undef BadIndex.
Proof.
  split_and!.
  - intros ttype follow r t r' e es Ee E. unfold recoverFromMismatchedToken, unwanted in E. rewrite Ee in E.
    destruct (mismatchIsUnwantedToken ttype (parser r)).
    + rewrite Ee in E. injection E as _ <-. by eexists.
    + destruct (mismatchIsMissingToken follow (parser r)).
      * destruct (getMissingSymbol ttype (parser r)); [|done..]. cbn [mbind outcome_bind] in E.
        unfold update_exception in E. rewrite Ee in E. injection E as _ <-. by eexists.
      * injection E as _ <-. by exists e.
  - intros ttype follow r r' E. unfold mismatch in E. cbn [mbind outcome_bind MTExceptionNew update_exception
      RecognitionExceptionNew exception set_exception on_parser set_parser] in E.
    destruct (unwanted _ _) as [b r1]. destruct b.
    + injection E as <-. by do 2 eexists.
    + destruct (mismatchIsMissingToken _ _); injection E as <-; by do 2 eexists.
  - intros f r. unfold recoverFromMismatchedElement.
    set (set2 := if BitsetMember (BitsetLoad [2]) ANTLR3_EOR_TOKEN_TYPE then _ else _).
    assert (set2 = replicate 8 0) as -> by (vm_compute; reflexivity).
    assert (∀ z, BitsetMember (replicate 8 0) z = false) as ->; [|done].
    intros z. unfold BitsetMember. destruct (replicate 8 0 !! _) as [w|] eqn:E; [|done].
    by apply lookup_replicate_1 in E as [-> _].
  - intros address r r' E. unfold reset in E. destruct (ruleMemo r) as [memo|]; [|by injection E as <-].
    destruct (intTrieFree memo) as [[gone freed]| |]; [|done..]. cbn [mbind outcome_bind] in E.
    destruct (free_tries address freed (tries r)); [|done..]. by injection E as <-.
  - vm_compute. reflexivity.
Qed.
