(* ===== verification/ParserTables.v ===== *)
(** The tables of src/parser/RepositoryManagerParser.c: the names of the tokens,
    the follow sets of the grammar, and the automaton that chooses between the
    two forms of a clause, transcribed entry by entry. *)
From S2P Require Import Prelude CppString CyclicDFA.

(** ** Token names *)

Definition RepositoryManagerParserTokenNames : list str :=
  map lit ["<invalid>"; "<EOR>"; "<DOWN>"; "<UP>"; "CERT"; "CERT_END"; "CERT_HEADER";
    "CHALLENGE_END"; "CHALLENGE_HEADER"; "CLAUSE"; "CREDENTIAL"; "CREDENTIAL_END";
    "CREDENTIAL_HEADER"; "END"; "END_CERT"; "END_SIG"; "NOT_AFTER"; "NOT_BEFORE"; "NUM";
    "PK"; "PUBLIC_KEY_END"; "PUBLIC_KEY_HEADER"; "REPLY_END"; "REPLY_HEADER";
    "REQUEST_END"; "REQUEST_HEADER"; "RESPONSE_END"; "RESPONSE_HEADER"; "SIG";
    "SIGNATURE_END"; "SIGNATURE_HEADER"; "START_TIME"; "STOP_TIME"; "TEXT"; "VALIDITY";
    "VALIDITY_END"; "VALIDITY_HEADER"; "VALUE"; "WS"; "'('"; "')'"; "','"; "'.'";
    "':-'"; "'datime'"; "'request'"; "'says'"].

(** ** Follow sets: one word each, a bit per token type *)

Definition FOLLOW_CREDENTIAL_HEADER_in_credential121 : list Z := [0x200000].
Definition FOLLOW_public_key_in_credential123 : list Z := [0x840].
Definition FOLLOW_certificate_in_credential125 : list Z := [0x840].
Definition FOLLOW_CREDENTIAL_END_in_credential128 : list Z := [0x2].
Definition FOLLOW_PUBLIC_KEY_HEADER_in_public_key155 : list Z := [0x200000000].
Definition FOLLOW_base64_in_public_key157 : list Z := [0x100000].
Definition FOLLOW_PUBLIC_KEY_END_in_public_key159 : list Z := [0x2].
Definition FOLLOW_SIGNATURE_HEADER_in_signature175 : list Z := [0x200000000].
Definition FOLLOW_base64_in_signature177 : list Z := [0x20000000].
Definition FOLLOW_SIGNATURE_END_in_signature179 : list Z := [0x2].
Definition FOLLOW_VALIDITY_HEADER_in_validity194 : list Z := [0x20000].
Definition FOLLOW_NOT_BEFORE_in_validity196 : list Z := [0x100000000000].
Definition FOLLOW_time_tuple_in_validity198 : list Z := [0x10000].
Definition FOLLOW_NOT_AFTER_in_validity200 : list Z := [0x100000000000].
Definition FOLLOW_time_tuple_in_validity202 : list Z := [0x800000000].
Definition FOLLOW_VALIDITY_END_in_validity204 : list Z := [0x2].
Definition FOLLOW_44_in_time_tuple232 : list Z := [0x8000000000].
Definition FOLLOW_39_in_time_tuple234 : list Z := [0x40000].
Definition FOLLOW_num_in_time_tuple236 : list Z := [0x20000000000].
Definition FOLLOW_41_in_time_tuple238 : list Z := [0x40000].
Definition FOLLOW_num_in_time_tuple240 : list Z := [0x20000000000].
Definition FOLLOW_41_in_time_tuple242 : list Z := [0x40000].
Definition FOLLOW_num_in_time_tuple244 : list Z := [0x20000000000].
Definition FOLLOW_41_in_time_tuple246 : list Z := [0x40000].
Definition FOLLOW_num_in_time_tuple248 : list Z := [0x20000000000].
Definition FOLLOW_41_in_time_tuple250 : list Z := [0x40000].
Definition FOLLOW_num_in_time_tuple252 : list Z := [0x20000000000].
Definition FOLLOW_41_in_time_tuple254 : list Z := [0x40000].
Definition FOLLOW_num_in_time_tuple256 : list Z := [0x10000000000].
Definition FOLLOW_40_in_time_tuple258 : list Z := [0x40000000000].
Definition FOLLOW_42_in_time_tuple261 : list Z := [0x2].
Definition FOLLOW_CERT_HEADER_in_certificate276 : list Z := [0x400200000000].
Definition FOLLOW_clause_in_certificate278 : list Z := [0x401200000000].
Definition FOLLOW_validity_in_certificate281 : list Z := [0x200000].
Definition FOLLOW_public_key_in_certificate283 : list Z := [0x40000000].
Definition FOLLOW_signature_in_certificate285 : list Z := [0x20].
Definition FOLLOW_CERT_END_in_certificate287 : list Z := [0x2].
Definition FOLLOW_literal_in_clause322 : list Z := [0x40000000000].
Definition FOLLOW_42_in_clause324 : list Z := [0x2].
Definition FOLLOW_literal_in_clause331 : list Z := [0x80000000000].
Definition FOLLOW_43_in_clause333 : list Z := [0x400200000000].
Definition FOLLOW_literal_in_clause335 : list Z := [0x60000000000].
Definition FOLLOW_41_in_clause341 : list Z := [0x400200000000].
Definition FOLLOW_literal_in_clause343 : list Z := [0x60000000000].
Definition FOLLOW_42_in_clause347 : list Z := [0x2].
Definition FOLLOW_predicate_in_literal362 : list Z := [0x2].
Definition FOLLOW_46_in_literal369 : list Z := [0x8000000000].
Definition FOLLOW_39_in_literal371 : list Z := [0x200000000].
Definition FOLLOW_text_in_literal373 : list Z := [0x20000000000].
Definition FOLLOW_41_in_literal375 : list Z := [0x200000000].
Definition FOLLOW_predicate_in_literal377 : list Z := [0x10000000000].
Definition FOLLOW_40_in_literal379 : list Z := [0x2].
Definition FOLLOW_text_in_predicate394 : list Z := [0x8000000000].
Definition FOLLOW_39_in_predicate397 : list Z := [0x200000000].
Definition FOLLOW_text_in_predicate399 : list Z := [0x30000000000].
Definition FOLLOW_41_in_predicate405 : list Z := [0x200000000].
Definition FOLLOW_text_in_predicate406 : list Z := [0x30000000000].
Definition FOLLOW_40_in_predicate410 : list Z := [0x2].
Definition FOLLOW_CHALLENGE_HEADER_in_challenge425 : list Z := [0x200000000].
Definition FOLLOW_text_in_challenge427 : list Z := [0x80].
Definition FOLLOW_CHALLENGE_END_in_challenge429 : list Z := [0x2].
Definition FOLLOW_RESPONSE_HEADER_in_response444 : list Z := [0x200000000].
Definition FOLLOW_base64_in_response446 : list Z := [0x4000000].
Definition FOLLOW_RESPONSE_END_in_response448 : list Z := [0x2].
Definition FOLLOW_REQUEST_HEADER_in_request463 : list Z := [0x200000000000].
Definition FOLLOW_45_in_request465 : list Z := [0x8000000000].
Definition FOLLOW_39_in_request467 : list Z := [0x200000000].
Definition FOLLOW_op_in_request469 : list Z := [0x20000000000].
Definition FOLLOW_41_in_request471 : list Z := [0x200000000].
Definition FOLLOW_text_in_request473 : list Z := [0x10000000000].
Definition FOLLOW_40_in_request475 : list Z := [0x1000000].
Definition FOLLOW_REQUEST_END_in_request477 : list Z := [0x2].
Definition FOLLOW_text_in_op492 : list Z := [0x2].
Definition FOLLOW_REPLY_HEADER_in_reply507 : list Z := [0x200000000].
Definition FOLLOW_result_in_reply509 : list Z := [0x400000].
Definition FOLLOW_REPLY_END_in_reply511 : list Z := [0x2].
Definition FOLLOW_text_in_result526 : list Z := [0x2].
Definition FOLLOW_TEXT_in_text541 : list Z := [0x2].
Definition FOLLOW_text_in_base64556 : list Z := [0x200000002].
Definition FOLLOW_NUM_in_num572 : list Z := [0x2].

(** ** The automaton *)

Definition dfa4_eot : list Z :=
  [(-1); (-1); (-1); (-1); (-1); (-1); (-1); (-1); (-1); (-1); (-1); (-1); (-1); (-1);
    (-1); (-1); (-1); (-1); (-1); (-1)].
Definition dfa4_eof : list Z :=
  [(-1); (-1); (-1); (-1); (-1); (-1); (-1); (-1); (-1); (-1); (-1); (-1); (-1); (-1);
    (-1); (-1); (-1); (-1); (-1); (-1)].
Definition dfa4_min : list Z :=
  [33; 39; 39; 33; 33; 40; 41; 33; 42; 33; 40; (-1); (-1); 39; 33; 40; 33; 40; 40; 42].
Definition dfa4_max : list Z :=
  [46; 39; 39; 33; 33; 41; 41; 33; 43; 33; 41; (-1); (-1); 39; 33; 41; 33; 40; 41; 43].
Definition dfa4_accept : list Z :=
  [(-1); (-1); (-1); (-1); (-1); (-1); (-1); (-1); (-1); (-1); (-1); 1; 2; (-1); (-1);
    (-1); (-1); (-1); (-1); (-1)].
Definition dfa4_special : list Z :=
  [(-1); (-1); (-1); (-1); (-1); (-1); (-1); (-1); (-1); (-1); (-1); (-1); (-1); (-1);
    (-1); (-1); (-1); (-1); (-1); (-1)].
Definition dfa4_T0 : list Z :=
  [17; 16].
Definition dfa4_T1 : list Z :=
  [8; 7].
Definition dfa4_T2 : list Z :=
  [13].
Definition dfa4_T3 : list Z :=
  [9].
Definition dfa4_T4 : list Z :=
  [1; (-1); (-1); (-1); (-1); (-1); (-1); (-1); (-1); (-1); (-1); (-1); (-1); 2].
Definition dfa4_T5 : list Z :=
  [11; 12].
Definition dfa4_T6 : list Z :=
  [14].
Definition dfa4_T7 : list Z :=
  [3].
Definition dfa4_T8 : list Z :=
  [15].
Definition dfa4_T9 : list Z :=
  [5].
Definition dfa4_T10 : list Z :=
  [4].
Definition dfa4_T11 : list Z :=
  [19].
Definition dfa4_T12 : list Z :=
  [6].
Definition dfa4_T13 : list Z :=
  [18].
Definition dfa4_T14 : list Z :=
  [10].
Definition dfa4_transitions : list (option (list Z)) :=
  [Some dfa4_T4; Some dfa4_T7; Some dfa4_T10; Some dfa4_T9; Some dfa4_T12;
    Some dfa4_T1; Some dfa4_T3; Some dfa4_T14; Some dfa4_T5; Some dfa4_T2; Some dfa4_T1;
    None; None; Some dfa4_T6; Some dfa4_T8; Some dfa4_T0; Some dfa4_T13; Some dfa4_T11;
    Some dfa4_T0; Some dfa4_T5].

Definition cdfa4 : CYCLIC_DFA :=
  mkCyclicDFA 4 dfa4_eot dfa4_eof dfa4_min dfa4_max dfa4_accept dfa4_special
    dfa4_transitions.
