(* ===== verification/Parser.v ===== *)
(** The rules of src/parser/RepositoryManagerParser.c. *)
From S2P Require Import Prelude CppString CyclicDFA InputStream Lexer TokenStream Tree.
From S2P Require Import Recognizer ParserTables.
#[local] Open Scope rule_scope.

(** ** Rules without a loop *)

Definition text : M pTREE := rule_exit (
  let root_0 := nilNode in
  try TEXT78 := MATCHT TEXT FOLLOW_TEXT_in_text541;
  let root_0 := addChild root_0 (Some (create TEXT78)) in
  return_ (Some root_0)).

Definition num : M pTREE := rule_exit (
  let root_0 := nilNode in
  try NUM80 := MATCHT NUM FOLLOW_NUM_in_num572;
  let root_0 := addChild root_0 (Some (create NUM80)) in
  return_ (Some root_0)).

Definition op : M pTREE := rule_exit (
  let root_0 := nilNode in
  try text73 := invoke FOLLOW_text_in_op492 text;
  let root_0 := addChild root_0 text73 in
  return_ (Some root_0)).

Definition result : M pTREE := rule_exit (
  let root_0 := nilNode in
  try text77 := invoke FOLLOW_text_in_result526 text;
  let root_0 := addChild root_0 text77 in
  return_ (Some root_0)).

Definition challenge : M pTREE := rule_exit (
  let root_0 := nilNode in
  try CHALLENGE_HEADER59 := MATCHT CHALLENGE_HEADER FOLLOW_CHALLENGE_HEADER_in_challenge425;
  let root_0 := addChild root_0 (Some (create CHALLENGE_HEADER59)) in
  try text60 := invoke FOLLOW_text_in_challenge427 text;
  let root_0 := addChild root_0 text60 in
  try CHALLENGE_END61 := MATCHT CHALLENGE_END FOLLOW_CHALLENGE_END_in_challenge429;
  let root_0 := addChild root_0 (Some (create CHALLENGE_END61)) in
  return_ (Some root_0)).

Definition reply : M pTREE := rule_exit (
  let root_0 := nilNode in
  try REPLY_HEADER74 := MATCHT REPLY_HEADER FOLLOW_REPLY_HEADER_in_reply507;
  let root_0 := addChild root_0 (Some (create REPLY_HEADER74)) in
  try result75 := invoke FOLLOW_result_in_reply509 result;
  let root_0 := addChild root_0 result75 in
  try REPLY_END76 := MATCHT REPLY_END FOLLOW_REPLY_END_in_reply511;
  let root_0 := addChild root_0 (Some (create REPLY_END76)) in
  return_ (Some root_0)).

Definition request : M pTREE := rule_exit (
  let root_0 := nilNode in
  try REQUEST_HEADER65 := MATCHT REQUEST_HEADER FOLLOW_REQUEST_HEADER_in_request463;
  let root_0 := addChild root_0 (Some (create REQUEST_HEADER65)) in
  try string_literal66 := MATCHT 45 FOLLOW_45_in_request465;
  let root_0 := addChild root_0 (Some (create string_literal66)) in
  try char_literal67 := MATCHT 39 FOLLOW_39_in_request467;
  let root_0 := addChild root_0 (Some (create char_literal67)) in
  try op68 := invoke FOLLOW_op_in_request469 op;
  let root_0 := addChild root_0 op68 in
  try char_literal69 := MATCHT 41 FOLLOW_41_in_request471;
  let root_0 := addChild root_0 (Some (create char_literal69)) in
  try text70 := invoke FOLLOW_text_in_request473 text;
  let root_0 := addChild root_0 text70 in
  try char_literal71 := MATCHT 40 FOLLOW_40_in_request475;
  let root_0 := addChild root_0 (Some (create char_literal71)) in
  try REQUEST_END72 := MATCHT REQUEST_END FOLLOW_REQUEST_END_in_request477;
  let root_0 := addChild root_0 (Some (create REQUEST_END72)) in
  return_ (Some root_0)).

Definition time_tuple : M pTREE := rule_exit (
  let root_0 := nilNode in
  try string_literal17 := MATCHT 44 FOLLOW_44_in_time_tuple232;
  let root_0 := addChild root_0 (Some (create string_literal17)) in
  try char_literal18 := MATCHT 39 FOLLOW_39_in_time_tuple234;
  let root_0 := addChild root_0 (Some (create char_literal18)) in
  try num19 := invoke FOLLOW_num_in_time_tuple236 num;
  let root_0 := addChild root_0 num19 in
  try char_literal20 := MATCHT 41 FOLLOW_41_in_time_tuple238;
  let root_0 := addChild root_0 (Some (create char_literal20)) in
  try num21 := invoke FOLLOW_num_in_time_tuple240 num;
  let root_0 := addChild root_0 num21 in
  try char_literal22 := MATCHT 41 FOLLOW_41_in_time_tuple242;
  let root_0 := addChild root_0 (Some (create char_literal22)) in
  try num23 := invoke FOLLOW_num_in_time_tuple244 num;
  let root_0 := addChild root_0 num23 in
  try char_literal24 := MATCHT 41 FOLLOW_41_in_time_tuple246;
  let root_0 := addChild root_0 (Some (create char_literal24)) in
  try num25 := invoke FOLLOW_num_in_time_tuple248 num;
  let root_0 := addChild root_0 num25 in
  try char_literal26 := MATCHT 41 FOLLOW_41_in_time_tuple250;
  let root_0 := addChild root_0 (Some (create char_literal26)) in
  try num27 := invoke FOLLOW_num_in_time_tuple252 num;
  let root_0 := addChild root_0 num27 in
  try char_literal28 := MATCHT 41 FOLLOW_41_in_time_tuple254;
  let root_0 := addChild root_0 (Some (create char_literal28)) in
  try num29 := invoke FOLLOW_num_in_time_tuple256 num;
  let root_0 := addChild root_0 num29 in
  try char_literal30 := MATCHT 40 FOLLOW_40_in_time_tuple258;
  let root_0 := addChild root_0 (Some (create char_literal30)) in
  try char_literal31 := MATCHT 42 FOLLOW_42_in_time_tuple261;
  let root_0 := addChild root_0 (Some (create char_literal31)) in
  return_ (Some root_0)).

(** The rewriting of [validity]: the two times of the stream under their labels,
    as long as there are any. *)
Fixpoint validity_rewrite (fuel : nat) (root_0 : BASE_TREE)
    (stream_time_tuple : option REWRITE_STREAM) : outcome BASE_TREE :=
  match fuel with
  | O => Undef NoFuel
  | S fuel =>
      if stream_hasNext stream_time_tuple then
        let root_0 := addChild root_0 (Some (createTypeText START_TIME (lit "START_TIME"))) in
        let '(el, stream_time_tuple) := stream_nextTree stream_time_tuple in
        let root_0 := addChild root_0 el in
        let root_0 := addChild root_0 (Some (createTypeText STOP_TIME (lit "STOP_TIME"))) in
        let '(el, stream_time_tuple) := stream_nextTree stream_time_tuple in
        let root_0 := addChild root_0 el in
        validity_rewrite fuel root_0 stream_time_tuple
      else Ok root_0
  end.

Definition validity : M pTREE := rule_exit (
  try VALIDITY_HEADER11 := MATCHT VALIDITY_HEADER FOLLOW_VALIDITY_HEADER_in_validity194;
  try NOT_BEFORE12 := MATCHT NOT_BEFORE FOLLOW_NOT_BEFORE_in_validity196;
  try time_tuple13 := invoke FOLLOW_time_tuple_in_validity198 time_tuple;
  let stream_time_tuple := add None time_tuple13 in
  try NOT_AFTER14 := MATCHT NOT_AFTER FOLLOW_NOT_AFTER_in_validity200;
  try time_tuple15 := invoke FOLLOW_time_tuple_in_validity202 time_tuple;
  let stream_time_tuple := add stream_time_tuple time_tuple15 in
  try VALIDITY_END16 := MATCHT VALIDITY_END FOLLOW_VALIDITY_END_in_validity204;
  λ s,
    let root_0 := nilNode in
    if negb (stream_hasNext stream_time_tuple) then Ok (Some (Some root_0), CONSTRUCTEX s)
    else
      root_0 ← validity_rewrite 2 root_0 stream_time_tuple;
      Ok (Some (Some root_0), s)).

(** ** Rules with a loop

    [fuel] bounds the rounds of each loop. *)
Section loops.
Variable fuel : nat.

Fixpoint base64_loop (n : nat) (cnt7 : nat) (root_0 : BASE_TREE) : M (option BASE_TREE) :=
  match n with
  | O => λ s, Undef NoFuel
  | S n => λ s,
      if LA 1 s =? TEXT then
        (try text79 := invoke FOLLOW_text_in_base64556 text;
         base64_loop n (S cnt7) (addChild root_0 text79)) s
      else if (1 <=? cnt7)%nat then return_ root_0 s
      else raise s
  end.

Definition base64 : M pTREE := rule_exit (
  let root_0 := nilNode in
  try root_0 := base64_loop fuel 0 root_0;
  return_ root_0).

Definition public_key : M pTREE := rule_exit (
  let root_0 := nilNode in
  try PUBLIC_KEY_HEADER5 := MATCHT PUBLIC_KEY_HEADER FOLLOW_PUBLIC_KEY_HEADER_in_public_key155;
  let root_0 := addChild root_0 (Some (create PUBLIC_KEY_HEADER5)) in
  try base646 := invoke FOLLOW_base64_in_public_key157 base64;
  let root_0 := addChild root_0 base646 in
  try PUBLIC_KEY_END7 := MATCHT PUBLIC_KEY_END FOLLOW_PUBLIC_KEY_END_in_public_key159;
  let root_0 := addChild root_0 (Some (create PUBLIC_KEY_END7)) in
  return_ (Some root_0)).

Definition signature : M pTREE := rule_exit (
  let root_0 := nilNode in
  try SIGNATURE_HEADER8 := MATCHT SIGNATURE_HEADER FOLLOW_SIGNATURE_HEADER_in_signature175;
  let root_0 := addChild root_0 (Some (create SIGNATURE_HEADER8)) in
  try base649 := invoke FOLLOW_base64_in_signature177 base64;
  let root_0 := addChild root_0 base649 in
  try SIGNATURE_END10 := MATCHT SIGNATURE_END FOLLOW_SIGNATURE_END_in_signature179;
  let root_0 := addChild root_0 (Some (create SIGNATURE_END10)) in
  return_ (Some root_0)).

Definition response : M pTREE := rule_exit (
  let root_0 := nilNode in
  try RESPONSE_HEADER62 := MATCHT RESPONSE_HEADER FOLLOW_RESPONSE_HEADER_in_response444;
  let root_0 := addChild root_0 (Some (create RESPONSE_HEADER62)) in
  try base6463 := invoke FOLLOW_base64_in_response446 base64;
  let root_0 := addChild root_0 base6463 in
  try RESPONSE_END64 := MATCHT RESPONSE_END FOLLOW_RESPONSE_END_in_response448;
  let root_0 := addChild root_0 (Some (create RESPONSE_END64)) in
  return_ (Some root_0)).

Fixpoint predicate_loop (n : nat) (root_0 : BASE_TREE) : M (option BASE_TREE) :=
  match n with
  | O => λ s, Undef NoFuel
  | S n => λ s,
      if LA 1 s =? 41 then
        (try char_literal56 := MATCHT 41 FOLLOW_41_in_predicate405;
         let root_0 := addChild root_0 (Some (create char_literal56)) in
         try text57 := invoke FOLLOW_text_in_predicate406 text;
         predicate_loop n (addChild root_0 text57)) s
      else return_ root_0 s
  end.

Definition predicate : M pTREE := rule_exit (
  let root_0 := nilNode in
  try text53 := invoke FOLLOW_text_in_predicate394 text;
  let root_0 := addChild root_0 text53 in
  try char_literal54 := MATCHT 39 FOLLOW_39_in_predicate397;
  let root_0 := addChild root_0 (Some (create char_literal54)) in
  try text55 := invoke FOLLOW_text_in_predicate399 text;
  let root_0 := addChild root_0 text55 in
  try root_1 := predicate_loop fuel root_0;
  let root_0 := default root_0 root_1 in
  try char_literal58 := MATCHT 40 FOLLOW_40_in_predicate410;
  let root_0 := addChild root_0 (Some (create char_literal58)) in
  return_ (Some root_0)).

Definition literal : M pTREE := rule_exit (λ s,
  if LA 1 s =? TEXT then
    (let root_0 := nilNode in
     try predicate46 := invoke FOLLOW_predicate_in_literal362 predicate;
     let root_0 := addChild root_0 predicate46 in
     return_ (Some root_0)) s
  else if LA 1 s =? 46 then
    (let root_0 := nilNode in
     try string_literal47 := MATCHT 46 FOLLOW_46_in_literal369;
     let root_0 := addChild root_0 (Some (create string_literal47)) in
     try char_literal48 := MATCHT 39 FOLLOW_39_in_literal371;
     let root_0 := addChild root_0 (Some (create char_literal48)) in
     try text49 := invoke FOLLOW_text_in_literal373 text;
     let root_0 := addChild root_0 text49 in
     try char_literal50 := MATCHT 41 FOLLOW_41_in_literal375;
     let root_0 := addChild root_0 (Some (create char_literal50)) in
     try predicate51 := invoke FOLLOW_predicate_in_literal377 predicate;
     let root_0 := addChild root_0 predicate51 in
     try char_literal52 := MATCHT 40 FOLLOW_40_in_literal379;
     let root_0 := addChild root_0 (Some (create char_literal52)) in
     return_ (Some root_0)) s
  else raise s).

Fixpoint clause_loop (n : nat) (root_0 : BASE_TREE) : M (option BASE_TREE) :=
  match n with
  | O => λ s, Undef NoFuel
  | S n => λ s,
      if LA 1 s =? 41 then
        (try char_literal43 := MATCHT 41 FOLLOW_41_in_clause341;
         let root_0 := addChild root_0 (Some (create char_literal43)) in
         try literal44 := invoke FOLLOW_literal_in_clause343 literal;
         clause_loop n (addChild root_0 literal44)) s
      else return_ root_0 s
  end.

(** [cdfa4.predict]; without an alternative it raises an exception. *)
Definition predict_clause : M (option Z) := λ s,
  '(alt4, ts) ← predict cdfa4 (S (S (tokens_left (tstream s)))) (tstream s);
  let s := set_tstream ts s in
  Ok (alt4, match alt4 with None => CONSTRUCTEX s | Some _ => s end).

Definition clause : M pTREE := rule_exit (
  try alt4 := predict_clause;
  match default 0 alt4 with
  | 1 =>
      let root_0 := nilNode in
      try literal38 := invoke FOLLOW_literal_in_clause322 literal;
      let root_0 := addChild root_0 literal38 in
      try char_literal39 := MATCHT 42 FOLLOW_42_in_clause324;
      let root_0 := addChild root_0 (Some (create char_literal39)) in
      return_ (Some root_0)
  | 2 =>
      let root_0 := nilNode in
      try literal40 := invoke FOLLOW_literal_in_clause331 literal;
      let root_0 := addChild root_0 literal40 in
      try string_literal41 := MATCHT 43 FOLLOW_43_in_clause333;
      let root_0 := addChild root_0 (Some (create string_literal41)) in
      try literal42 := invoke FOLLOW_literal_in_clause335 literal;
      let root_0 := addChild root_0 literal42 in
      try root_1 := clause_loop fuel root_0;
      let root_0 := default root_0 root_1 in
      try char_literal45 := MATCHT 42 FOLLOW_42_in_clause347;
      let root_0 := addChild root_0 (Some (create char_literal45)) in
      return_ (Some root_0)
  | _ => return_ None
  end).

Fixpoint certificate_loop (n : nat) (cnt2 : nat) (stream_clause : option REWRITE_STREAM)
    : M (option (option REWRITE_STREAM)) :=
  match n with
  | O => λ s, Undef NoFuel
  | S n => λ s,
      if (LA 1 s =? TEXT) || (LA 1 s =? 46) then
        (try clause33 := invoke FOLLOW_clause_in_certificate278 clause;
         certificate_loop n (S cnt2) (add stream_clause clause33)) s
      else if (1 <=? cnt2)%nat then return_ stream_clause s
      else raise s
  end.

(** The rewriting of [certificate]; the flag tells that a stream of clauses was
    empty, which raises an exception. *)
Fixpoint certificate_rewrite (n : nat) (root_0 : BASE_TREE) (early : bool)
    (stream_clause stream_validity stream_public_key stream_signature : option REWRITE_STREAM)
    : outcome (BASE_TREE * bool) :=
  match n with
  | O => Undef NoFuel
  | S n =>
      if stream_hasNext stream_validity || stream_hasNext stream_public_key ||
         stream_hasNext stream_signature then
        let root_0 := addChild root_0 (Some (createTypeText CERT (lit "CERT"))) in
        let root_0 := addChild root_0 (Some (createTypeText CLAUSE (lit "CLAUSE"))) in
        '(root_0, early, stream_clause) ←
          (if negb (stream_hasNext stream_clause) then Ok (root_0, true, stream_clause)
           else
             '(root_0, st) ← add_all (S (length (elements (default StreamNew stream_clause))))
                               root_0 stream_clause;
             Ok (root_0, early, option_map reset st));
        let '(el, stream_validity) := stream_nextTree stream_validity in
        let root_0 := addChild root_0 el in
        let '(el, stream_public_key) := stream_nextTree stream_public_key in
        let root_0 := addChild root_0 el in
        let '(el, stream_signature) := stream_nextTree stream_signature in
        let root_0 := addChild root_0 el in
        let root_0 := addChild root_0 (Some (createTypeText END_CERT (lit "END_CERT"))) in
        certificate_rewrite n root_0 early stream_clause stream_validity stream_public_key
          stream_signature
      else Ok (root_0, early)
  end.

Definition certificate : M pTREE := rule_exit (
  try CERT_HEADER32 := MATCHT CERT_HEADER FOLLOW_CERT_HEADER_in_certificate276;
  try stream_clause := certificate_loop fuel 0 None;
  let stream_clause := default None stream_clause in
  try validity34 := invoke FOLLOW_validity_in_certificate281 validity;
  let stream_validity := add None validity34 in
  try public_key35 := invoke FOLLOW_public_key_in_certificate283 public_key;
  let stream_public_key := add None public_key35 in
  try signature36 := invoke FOLLOW_signature_in_certificate285 signature;
  let stream_signature := add None signature36 in
  try CERT_END37 := MATCHT CERT_END FOLLOW_CERT_END_in_certificate287;
  λ s,
    let root_0 := nilNode in
    if negb (stream_hasNext stream_validity) || negb (stream_hasNext stream_public_key) ||
       negb (stream_hasNext stream_signature) then
      Ok (Some (Some root_0), CONSTRUCTEX s)
    else
      '(root_0, early) ← certificate_rewrite 2 root_0 false stream_clause stream_validity
                           stream_public_key stream_signature;
      Ok (Some (Some root_0), if (early : bool) then CONSTRUCTEX s else s)).

Fixpoint credential_loop (n : nat) (stream_certificate : option REWRITE_STREAM)
    : M (option (option REWRITE_STREAM)) :=
  match n with
  | O => λ s, Undef NoFuel
  | S n => λ s,
      if LA 1 s =? CERT_HEADER then
        (try certificate3 := invoke FOLLOW_certificate_in_credential125 certificate;
         credential_loop n (add stream_certificate certificate3)) s
      else return_ stream_certificate s
  end.

Definition credential : M pTREE := rule_exit (
  try CREDENTIAL_HEADER1 := MATCHT CREDENTIAL_HEADER FOLLOW_CREDENTIAL_HEADER_in_credential121;
  try public_key2 := invoke FOLLOW_public_key_in_credential123 public_key;
  let stream_public_key := add None public_key2 in
  try stream_certificate := credential_loop fuel None;
  let stream_certificate := default None stream_certificate in
  try CREDENTIAL_END4 := MATCHT CREDENTIAL_END FOLLOW_CREDENTIAL_END_in_credential128;
  λ s,
    let root_0 := nilNode in
    root_1 ← becomeRoot (Some (createTypeText CREDENTIAL (lit "CREDENTIAL"))) (Some nilNode);
    root_1 ← deref root_1;
    let '(el, _) := stream_nextTree stream_public_key in
    let root_1 := addChild root_1 el in
    '(root_1, _) ← add_all (S (length (elements (default StreamNew stream_certificate))))
                     root_1 stream_certificate;
    let root_1 := addChild root_1 (Some (createTypeText END (lit "END"))) in
    Ok (Some (Some (addChild root_0 (Some root_1))), s)).

End loops.

(** [RepositoryManagerParserNew] *)
Definition RepositoryManagerParserNew (instream : TOKEN_STREAM) : PARSER :=
  ParserNewStream RepositoryManagerParserTokenNames instream.
