(* ===== verification/Grammar.v ===== *)
(** The grammar of credentials, src/parser/RepositoryManager.g, as relations
    between the tokens a rule reads and the tokens of the flat tree it builds. *)
From S2P Require Import Prelude CppString Lexer TokenStream Tree.

Definition of_type (ty : Z) (t : COMMON_TOKEN) : Prop := tok_type t = ty.

(** An imaginary token. *)
Definition label (ty : Z) (text : str) : COMMON_TOKEN := mkToken ty 0 text.

Definition text_g (w : list COMMON_TOKEN) : Prop := ∃ t, w = [t] ∧ of_type TEXT t.
Definition num_g (w : list COMMON_TOKEN) : Prop := ∃ t, w = [t] ∧ of_type NUM t.
Definition base64_g (w : list COMMON_TOKEN) : Prop := w ≠ [] ∧ Forall (of_type TEXT) w.

(** A header, lines and a footer: public keys and signatures. *)
Definition framed_g (header footer : Z) (w : list COMMON_TOKEN) : Prop :=
  ∃ h b f, w = h :: b ++ [f] ∧ of_type header h ∧ base64_g b ∧ of_type footer f.
Definition public_key_g : list COMMON_TOKEN → Prop := framed_g PUBLIC_KEY_HEADER PUBLIC_KEY_END.
Definition signature_g : list COMMON_TOKEN → Prop := framed_g SIGNATURE_HEADER SIGNATURE_END.

(** [datime ( num , num , num , num , num , num ) .] *)
Inductive types_g : list Z → list COMMON_TOKEN → Prop :=
| types_nil : types_g [] []
| types_cons ty tys t w : of_type ty t → types_g tys w → types_g (ty :: tys) (t :: w).
Definition time_tuple_g : list COMMON_TOKEN → Prop :=
  types_g [44; 39; NUM; 41; NUM; 41; NUM; 41; NUM; 41; NUM; 41; NUM; 40; 42].

(** Repetitions of a part after a comma. *)
Inductive list_g (part : list COMMON_TOKEN → Prop) : list COMMON_TOKEN → Prop :=
| list_nil : list_g part []
| list_cons c x w : of_type 41 c → part x → list_g part w → list_g part (c :: x ++ w).

Definition predicate_g (w : list COMMON_TOKEN) : Prop :=
  ∃ f lp a args rp, w = f :: lp :: a :: args ++ [rp] ∧ of_type TEXT f ∧ of_type 39 lp ∧ of_type TEXT a ∧
    list_g text_g args ∧ of_type 40 rp.

Inductive literal_g : list COMMON_TOKEN → Prop :=
| literal_predicate w : predicate_g w → literal_g w
| literal_says s lp k c w rp :
    of_type 46 s → of_type 39 lp → of_type TEXT k → of_type 41 c → predicate_g w → of_type 40 rp →
    literal_g (s :: lp :: k :: c :: w ++ [rp]).

Inductive clause_g : list COMMON_TOKEN → Prop :=
| clause_fact w stop : literal_g w → of_type 42 stop → clause_g (w ++ [stop])
| clause_rule h arrow b l stop :
    literal_g h → of_type 43 arrow → literal_g b → list_g literal_g l → of_type 42 stop →
    clause_g (h ++ arrow :: b ++ l ++ [stop]).

Inductive clauses_g : list COMMON_TOKEN → Prop :=
| clauses_one w : clause_g w → clauses_g w
| clauses_more w ws : clause_g w → clauses_g ws → clauses_g (w ++ ws).

(** The rules that rewrite: [validity_g w o] reads [w] and builds [o]. *)
Inductive validity_g : list COMMON_TOKEN → list COMMON_TOKEN → Prop :=
| validity_intro h nb t1 na t2 f :
    of_type VALIDITY_HEADER h → of_type NOT_BEFORE nb → time_tuple_g t1 → of_type NOT_AFTER na →
    time_tuple_g t2 → of_type VALIDITY_END f →
    validity_g (h :: nb :: t1 ++ na :: t2 ++ [f])
      (label START_TIME (lit "START_TIME") :: t1 ++ label STOP_TIME (lit "STOP_TIME") :: t2).

Inductive certificate_g : list COMMON_TOKEN → list COMMON_TOKEN → Prop :=
| certificate_intro h cls v vo pk sg f :
    of_type CERT_HEADER h → clauses_g cls → validity_g v vo → public_key_g pk → signature_g sg →
    of_type CERT_END f →
    certificate_g (h :: cls ++ v ++ pk ++ sg ++ [f])
      (label CERT (lit "CERT") :: label CLAUSE (lit "CLAUSE") ::
       cls ++ vo ++ pk ++ sg ++ [label END_CERT (lit "END_CERT")]).

Inductive certificates_g : list COMMON_TOKEN → list COMMON_TOKEN → Prop :=
| certificates_nil : certificates_g [] []
| certificates_cons w o ws os :
    certificate_g w o → certificates_g ws os → certificates_g (w ++ ws) (o ++ os).

Inductive credential_g : list COMMON_TOKEN → list COMMON_TOKEN → Prop :=
| credential_intro h pk ws os f :
    of_type CREDENTIAL_HEADER h → public_key_g pk → certificates_g ws os → of_type CREDENTIAL_END f →
    credential_g (h :: pk ++ ws ++ [f]) (pk ++ os ++ [label END (lit "END")]).

(** ** Flat trees *)

Definition leaf (t : COMMON_TOKEN) : BASE_TREE := Tree (Some t) [].
(** What the exit of a rule makes of a nil node with these tokens. *)
Definition row (w : list COMMON_TOKEN) : BASE_TREE := Tree None (map leaf w).
Definition group (w : list COMMON_TOKEN) : pTREE := rulePostProcessing (Some (row w)).

Lemma addChild_leaf w t : addChild (row w) (Some (create (Some t))) = row (w ++ [t]).
Proof. unfold addChild, row. cbn. by rewrite map_app. Qed.

Lemma addChild_group w u : addChild (row w) (group u) = row (w ++ u).
Proof.
  unfold row, group. rewrite map_app. destruct u as [|a [|b u]]; cbn; [by rewrite app_nil_r|done..].
Qed.

Lemma group_Some w : w ≠ [] → ∃ t, group w = Some t ∧ flat [t] = map leaf w.
Proof. destruct w as [|a [|b w]]; cbn; intros; try done; eexists; (split; [done|]); by rewrite ?app_nil_r. Qed.

Lemma validity_g_ne w o : validity_g w o → o ≠ [].
Proof. by destruct 1. Qed.
Lemma certificate_g_ne w o : certificate_g w o → o ≠ [].
Proof. by destruct 1. Qed.
Lemma framed_g_ne h f w : framed_g h f w → w ≠ [].
Proof. by intros (? & ? & ? & -> & ?). Qed.
Lemma literal_g_ne w : literal_g w → w ≠ [].
Proof. destruct 1 as [w (?&?&?&?&?&->&_)|]; done. Qed.
Lemma clause_g_ne w : clause_g w → w ≠ [].
Proof. destruct 1; intros E%(f_equal length); rewrite ?length_app in E; cbn in E; lia. Qed.
