(* ===== verification/ParserSpec.v ===== *)
(** What the rules of the parser read when nothing is wrong: every phrase of the
    grammar is read, and its flat tree built, without a report of an error. *)
From S2P Require Import Prelude CppString CyclicDFA Lexer TokenStream Tree Recognizer.
From S2P Require Import ParserTables Parser Grammar.

(** ** Steps that succeed *)

(** A state of the parser between two steps. *)
Definition good (s : PARSER) : Prop := at_token (tstream s) ∧ error s = false.
Definition rest (s : PARSER) : list COMMON_TOKEN := ahead (tstream s).

(** The step [m] reads [w] from every state and returns [a], provided that what
    follows satisfies [next]; no error is reported. *)
Definition parses {A} (m : M A) (w : list COMMON_TOKEN) (a : A)
    (next : list COMMON_TOKEN → Prop) : Prop :=
  ∀ s k, good s → rest s = w ++ k → next k →
    ∃ s', m s = Ok (a, s') ∧ good s' ∧ rest s' = k ∧ errorCount s' = errorCount s.

Definition anything (k : list COMMON_TOKEN) : Prop := True.

Lemma parses_match ty follow t : of_type ty t → parses (MATCHT ty follow) [t] (Some t) anything.
Proof.
  intros Ht s k [Ha He] Hr _. unfold MATCHT, LA, tokLA, rest in *.
  rewrite LT_ahead1, Hr by done. cbn [head app from_option id]. rewrite (proj2 (Z.eqb_eq _ _) Ht).
  eexists. split; [done|]. unfold good, CONSUME. cbn.
  rewrite ahead_consume, Hr by done. split_and!; try done. by apply consume_at_token.
Qed.

Lemma parses_try {A B} (m : M A) (f : A → M (option B)) w1 a n1 w2 b n2 :
  parses m w1 a n1 → parses (f a) w2 (Some b) n2 → (∀ k, n2 k → n1 (w2 ++ k)) →
  parses (try_bind m f) (w1 ++ w2) (Some b) n2.
Proof.
  intros H1 H2 Hn s k Hg Hr Hk. rewrite <-app_assoc in Hr.
  destruct (H1 s (w2 ++ k) Hg Hr (Hn k Hk)) as (s1 & E1 & Hg1 & Hr1 & Hc1).
  destruct (H2 s1 k Hg1 Hr1 Hk) as (s2 & E2 & Hg2 & Hr2 & Hc2).
  exists s2. unfold try_bind. rewrite E1. cbn [mbind outcome_bind].
  unfold HASEXCEPTION. rewrite (proj2 Hg1). split_and!; try done. congruence.
Qed.

Lemma parses_return {B} (b : B) n : parses (return_ b) [] (Some b) n.
Proof. intros s k Hg Hr _. by exists s. Qed.

Lemma parses_invoke {A} (m : M A) follow w a n : parses m w a n → parses (invoke follow m) w a n.
Proof.
  intros H s k [Ha He] Hr Hk. destruct (H (FOLLOWPUSH follow s) k) as (s' & E & [Ha' He'] & Hr' & Hc').
  { done. } { done. } { done. }
  exists (FOLLOWPOP s'). unfold invoke. rewrite E. done.
Qed.

Lemma parses_exit body w root n :
  parses body w (Some root) n → parses (rule_exit body) w (rulePostProcessing root) n.
Proof.
  intros H s k Hg Hr Hk. destruct (H s k Hg Hr Hk) as (s' & E & Hg' & Hr' & Hc').
  exists s'. unfold rule_exit. rewrite E. cbn [mbind outcome_bind].
  unfold HASEXCEPTION. rewrite (proj2 Hg'). done.
Qed.

Lemma parses_app {A} (m : M A) w w' a n : parses m w' a n → w = w' → parses m w a n.
Proof. by intros ? ->. Qed.

Lemma parses_eq {A} (m : M A) w w' a n : parses m w' a n → w = w' → parses m w a n.
Proof. by intros ? ->. Qed.

(** Read a token, read a part: the row of the tree grows by what was read. *)
Ltac read_token :=
  eapply (parses_try _ _ [_]);
  [by apply parses_match|cbv beta zeta; rewrite ?addChild_leaf; cbn [app]|done].
Ltac read_part lem :=
  eapply parses_try;
  [apply parses_invoke, lem; try done|cbv beta zeta; rewrite ?addChild_group|try done].
Ltac start_row := change nilNode with (row []); cbv beta zeta.

(** ** Words and numbers *)

Lemma text_parses t : of_type TEXT t → parses text [t] (group [t]) anything.
Proof.
  intros Ht. unfold text. apply (parses_exit _ _ (Some (row [t]))). start_row.
  read_token. apply parses_return.
Qed.

Lemma num_parses t : of_type NUM t → parses num [t] (group [t]) anything.
Proof.
  intros Ht. unfold num. apply (parses_exit _ _ (Some (row [t]))). start_row.
  read_token. apply parses_return.
Qed.

Lemma time_tuple_parses w : time_tuple_g w → parses time_tuple w (group w) anything.
Proof.
  unfold time_tuple_g. intros H. repeat match goal with
  | H : types_g _ _ |- _ => inversion H; clear H; subst
  end.
  unfold time_tuple. apply (parses_exit _ _ (Some (row _))). start_row.
  read_token. read_token.
  do 5 (eapply (parses_try _ _ [_]);
    [by apply parses_invoke, num_parses|cbv beta zeta; rewrite addChild_group|done]; read_token).
  eapply (parses_try _ _ [_]);
    [by apply parses_invoke, num_parses|cbv beta zeta; rewrite addChild_group|done].
  do 2 read_token. apply parses_return.
Qed.

(** ** Loops *)

Section loops.
Variable fuel : nat.

(** The next token has none of these types. *)
Definition next_not (tys : list Z) (k : list COMMON_TOKEN) : Prop :=
  match k with t :: _ => tok_type t ∉ tys | [] => EOF ∉ tys end.

Lemma LA_rest s : good s → LA 1 s = match rest s with t :: _ => tok_type t | [] => EOF end.
Proof.
  intros [Ha _]. unfold LA, tokLA. rewrite LT_ahead1 by done. unfold rest. by destruct (ahead _).
Qed.

Lemma base64_loop_parses n cnt w0 w :
  Forall (of_type TEXT) w → (w ≠ [] ∨ (1 ≤ cnt)%nat) → (length w < n)%nat →
  parses (base64_loop n cnt (row w0)) w (Some (row (w0 ++ w))) (next_not [TEXT]).
Proof.
  revert cnt w0 w. induction n as [|n IH]; intros cnt w0 w Hw Hc Hn; [lia|].
  intros s k Hg Hr Hk. cbn [base64_loop]. rewrite LA_rest, Hr by done.
  destruct Hw as [|t w Ht Hw].
  - assert ((match [] ++ k with t :: _ => tok_type t | [] => EOF end) =? TEXT = false) as ->.
    { apply Z.eqb_neq. cbn [app]. destruct k; set_solver. }
    rewrite app_nil_r. destruct Hc as [Hc|Hc]; [done|].
    destruct (Nat.leb_spec 1 cnt); [|lia].
    exact (parses_return (row w0) (next_not [TEXT]) s k Hg Hr Hk).
  - cbn [app]. rewrite (proj2 (Z.eqb_eq _ _) Ht). revert s k Hg Hr Hk.
    eapply (parses_try _ _ [_]); [by apply parses_invoke, text_parses|cbv beta|done].
    rewrite addChild_group. change (t :: w) with ([t] ++ w). rewrite app_assoc.
    apply IH; [done|right; lia|cbn in Hn; lia].
Qed.

Lemma base64_parses w :
  base64_g w → (length w < fuel)%nat → parses (base64 fuel) w (group w) (next_not [TEXT]).
Proof.
  intros [Hne Hw] Hf. unfold base64. apply (parses_exit _ _ (Some (row w))). start_row.
  rewrite <-(app_nil_r w) at 1.
  eapply parses_try; [apply (base64_loop_parses fuel 0 [] w); auto|apply parses_return|].
  done.
Qed.

Ltac read_base64 :=
  eapply parses_try;
  [apply parses_invoke, base64_parses; [done|]|cbv beta zeta; rewrite addChild_group|].

Lemma framed_short h f w : framed_g h f w → (length w < fuel)%nat →
  ∃ t b u, w = t :: b ++ [u] ∧ of_type h t ∧ base64_g b ∧ of_type f u ∧ (length b < fuel)%nat.
Proof.
  intros (t & b & u & -> & Ht & Hb & Hu). cbn. rewrite length_app. cbn. intros Hf.
  exists t, b, u. split_and!; try done. lia.
Qed.

Lemma next_not_type ty t k tys : of_type ty t → (ty ∉ tys) → next_not tys ([t] ++ k).
Proof. by intros <-. Qed.

Lemma public_key_parses w :
  public_key_g w → (length w < fuel)%nat → parses (public_key fuel) w (group w) anything.
Proof.
  intros H Hf. destruct (framed_short _ _ _ H Hf) as (t & b & u & -> & Ht & Hb & Hu & Hl).
  unfold public_key. apply (parses_exit _ _ (Some (row _))). start_row. read_token.
  read_base64; [done|read_token; apply parses_return|].
  intros k _. by eapply next_not_type; [done|set_solver].
Qed.

Lemma signature_parses w :
  signature_g w → (length w < fuel)%nat → parses (signature fuel) w (group w) anything.
Proof.
  intros H Hf. destruct (framed_short _ _ _ H Hf) as (t & b & u & -> & Ht & Hb & Hu & Hl).
  unfold signature. apply (parses_exit _ _ (Some (row _))). start_row. read_token.
  read_base64; [done|read_token; apply parses_return|].
  intros k _. by eapply next_not_type; [done|set_solver].
Qed.

(** A loop over parts after commas. *)
Lemma comma_loop_parses (part : list COMMON_TOKEN → Prop) (r : M pTREE) (f1 f2 : list Z)
    (loop : nat → BASE_TREE → M (option BASE_TREE)) (bound : nat) :
  (∀ n root s, loop (S n) root s =
    if LA 1 s =? 41 then
      (try_bind (MATCHT 41 f1) (λ c, try_bind (invoke f2 r) (λ x,
         loop n (addChild (addChild root (Some (create c))) x)))) s
    else return_ root s) →
  (∀ u, part u → (length u < bound)%nat → parses r u (group u) anything) →
  ∀ w n w0, list_g part w → (length w < n)%nat → (length w < bound)%nat →
  parses (loop n (row w0)) w (Some (row (w0 ++ w))) (next_not [41]).
Proof.
  intros Hloop Hr w n w0 Hw. revert n w0.
  induction Hw as [|c x w Hc Hx Hw IH]; intros n w0 Hn Hb s k Hg Hs Hk;
    (destruct n as [|n]; [cbn in Hn; lia|]); rewrite Hloop, LA_rest, Hs by done.
  - assert ((match [] ++ k with t :: _ => tok_type t | [] => EOF end) =? 41 = false) as ->.
    { apply Z.eqb_neq. cbn [app]. destruct k; set_solver. }
    rewrite app_nil_r. exact (parses_return (row w0) (next_not [41]) s k Hg Hs Hk).
  - cbn [app]. rewrite (proj2 (Z.eqb_eq _ _) Hc).
    cbn [length] in Hn, Hb. rewrite length_app in Hn, Hb. revert s k Hg Hs Hk.
    eapply (parses_try _ _ [_]); [by apply parses_match|cbv beta|done].
    rewrite addChild_leaf. eapply parses_try; [apply parses_invoke, Hr; [done|lia]| |done].
    cbv beta. rewrite addChild_group.
    replace (w0 ++ c :: x ++ w) with (((w0 ++ [c]) ++ x) ++ w) by (by rewrite <-!app_assoc).
    apply IH; lia.
Qed.

Lemma predicate_parses w :
  predicate_g w → (length w < fuel)%nat → parses (predicate fuel) w (group w) anything.
Proof.
  intros (f & lp & a & args & rp & -> & Hf & Hlp & Ha & Hargs & Hrp) Hl.
  cbn in Hl. rewrite length_app in Hl. cbn in Hl.
  unfold predicate. apply (parses_exit _ _ (Some (row _))). start_row.
  eapply (parses_try _ _ [_]); [by apply parses_invoke, text_parses|cbv beta zeta; rewrite addChild_group|done].
  read_token.
  eapply (parses_try _ _ [_]); [by apply parses_invoke, text_parses|cbv beta zeta; rewrite addChild_group|done].
  eapply parses_try.
  - apply (comma_loop_parses text_g text FOLLOW_41_in_predicate405 FOLLOW_text_in_predicate406
             predicate_loop fuel); [done| |done|lia|lia].
    intros u (t & -> & Ht) _. by apply text_parses.
  - cbv beta zeta. cbn [default from_option id]. read_token. apply parses_return.
  - intros k _. by eapply next_not_type; [done|set_solver].
Qed.

Lemma predicate_head w k :
  predicate_g w → match w ++ k with t :: _ => tok_type t | [] => EOF end = TEXT.
Proof. by intros (f & lp & a & args & rp & -> & Hf & _). Qed.

Lemma literal_parses w :
  literal_g w → (length w < fuel)%nat → parses (literal fuel) w (group w) anything.
Proof.
  intros H Hl. unfold literal. apply (parses_exit _ _ (Some (row w))). start_row.
  intros s k Hg Hs Hk. rewrite !LA_rest, Hs by done.
  destruct H as [w Hp|s0 lp t c w rp H0 Hlp Ht Hc Hp Hrp].
  - rewrite (predicate_head _ k Hp). cbn [Z.eqb TEXT Pos.eqb]. revert s k Hg Hs Hk.
    refine (parses_eq _ w (w ++ []) _ _ _ (eq_sym (app_nil_r w))).
    eapply parses_try; [|cbv beta; rewrite addChild_group; apply parses_return|done].
    by apply parses_invoke, predicate_parses.
  - cbn [app]. unfold of_type in H0. rewrite H0. cbn [Z.eqb TEXT]. revert s k Hg Hs Hk.
    cbn in Hl. rewrite length_app in Hl. cbn in Hl.
    read_token. read_token.
    eapply (parses_try _ _ [_]); [by apply parses_invoke, text_parses|cbv beta zeta; rewrite addChild_group|done].
    read_token.
    eapply parses_try; [apply parses_invoke, predicate_parses; [done|lia]|cbv beta zeta; rewrite addChild_group|done].
    read_token. rewrite <-?app_assoc. cbn [app]. apply parses_return.
Qed.
End loops.

(** ** The automaton of clauses *)

(** A transition on a token, and a walk over the types of tokens. *)
Definition clause_step (s c : Z) : option Z :=
  match index (special cdfa4) s, index (accept cdfa4) s, index (min cdfa4) s,
        index (max cdfa4) s, index (eot cdfa4) s, index (transition cdfa4) s with
  | Ok sp, Ok acc, Ok lo, Ok hi, Ok e, Ok (Some t) =>
      if (sp <? 0) && (acc <? 1) && (lo <=? c) && (c <=? hi) then
        match index t (c - lo) with
        | Ok n => if n <? 0 then None else Some n
        | _ => None
        end
      else None
  | _, _, _, _, _, _ => None
  end.
Fixpoint clause_walk (s : Z) (w : list COMMON_TOKEN) : option Z :=
  match w with
  | [] => Some s
  | t :: w => match clause_step s (tok_type t) with Some s => clause_walk s w | None => None end
  end.

Lemma clause_walk_app s w u :
  clause_walk s (w ++ u)
  = match clause_walk s w with Some s => clause_walk s u | None => None end.
Proof.
  revert s. induction w as [|t w IH]; intros s; [done|]. cbn [app clause_walk].
  by destruct (clause_step s (tok_type t)).
Qed.

Lemma predict_loop_step fuel m s c s' ts :
  clause_step s c = Some s' → tokLA 1 ts = c →
  predict_loop cdfa4 (S fuel) m s ts = predict_loop cdfa4 fuel m s' (tok_consume ts).
Proof.
  unfold clause_step. intros H Hc. cbn [predict_loop].
  destruct (index (special cdfa4) s) as [sp|?|?]; [|done..].
  destruct (index (accept cdfa4) s) as [acc|?|?]; [|done..].
  destruct (index (min cdfa4) s) as [lo|?|?]; [|done..].
  destruct (index (max cdfa4) s) as [hi|?|?]; [|done..].
  destruct (index (eot cdfa4) s) as [e|?|?]; [|done..].
  destruct (index (transition cdfa4) s) as [[t|]|?|?]; [|done..].
  destruct (Z.ltb_spec sp 0); [|done]. destruct (Z.ltb_spec acc 1); [|done].
  cbn [andb] in H. cbn [mbind outcome_bind deref].
  destruct (Z.leb_spec 0 sp); [lia|]. destruct (Z.leb_spec 1 acc); [lia|].
  change (LA1 ts) with (tokLA 1 ts). rewrite Hc.
  destruct ((lo <=? c) && (c <=? hi)); [|done]. cbn [mbind outcome_bind].
  destruct (index t (c - lo)) as [n|?|?]; [|done..]. cbn [mbind outcome_bind].
  destruct (n <? 0); [done|]. by simplify_eq.
Qed.

Lemma predict_loop_walk w : ∀ fuel m s s' ts k,
  at_token ts → ahead ts = w ++ k → clause_walk s w = Some s' →
  predict_loop cdfa4 (length w + fuel) m s ts
  = predict_loop cdfa4 fuel m s' (Nat.iter (length w) tok_consume ts).
Proof.
  induction w as [|t w IH]; intros fuel m s s' ts k Ha Hr Hw; cbn [clause_walk] in Hw.
  { by simplify_eq. }
  destruct (clause_step s (tok_type t)) as [s1|] eqn:E; [|done].
  cbn [length plus]. rewrite (predict_loop_step _ _ _ _ s1 _ E).
  - rewrite (IH fuel m s1 s' _ k); [|by apply consume_at_token| |done].
    + by rewrite Nat.iter_succ_r.
    + by rewrite ahead_consume, Hr.
  - unfold tokLA. by rewrite LT_ahead1, Hr.
Qed.

(** A walk from the start to an accepting state predicts its alternative. *)
Lemma predict_walk ts w k f alt :
  at_token ts → ahead ts = w ++ k → clause_walk 0 w = Some f →
  index (special cdfa4) f = Ok (-1) → index (accept cdfa4) f = Ok alt → 1 ≤ alt →
  predict cdfa4 (S (S (tokens_left ts))) ts = Ok (Some alt, ts).
Proof.
  intros Ha Hr Hw Hsp Hacc Halt. rewrite tokens_left_ahead, Hr, length_app by done.
  unfold predict. cbn [mark token_stream_ops tok_mark].
  replace (S (S (length w + length k))) with (length w + S (S (length k)))%nat by lia.
  rewrite (predict_loop_walk w _ _ _ f ts k) by done.
  cbn [predict_loop]. rewrite Hsp. cbn [mbind outcome_bind Z.leb Z.compare]. rewrite Hacc.
  cbn [mbind outcome_bind]. destruct (Z.leb_spec 1 alt); [|lia].
  change rewind with seek. unfold seek, tindex. rewrite Nat2Z.id.
  assert (tokens (Nat.iter (length w) tok_consume ts) = tokens ts) as ->.
  { generalize (length w). intros n. induction n as [|n IH]; [done|]. cbn. by rewrite consume_tokens. }
  by destruct ts.
Qed.

(** The walk over a list of arguments, and over a literal. *)
Lemma arguments_walk args rp (s close : Z) :
  list_g text_g args → of_type 40 rp →
  (s = 5 ∧ close = 8) ∨ (s = 10 ∧ close = 8) ∨ (s = 15 ∧ close = 17) ∨ (s = 18 ∧ close = 17) →
  clause_walk s (args ++ [rp]) = Some close.
Proof.
  intros Hl Hrp. revert s. induction Hl as [|c x w Hc (t & -> & Ht) Hl IH]; intros s Hs.
  - cbn [app clause_walk]. rewrite Hrp.
    by destruct Hs as [[-> ->]|[[-> ->]|[[-> ->]|[-> ->]]]].
  - cbn [app clause_walk]. rewrite Hc, Ht.
    destruct Hs as [[-> ->]|[[-> ->]|[[-> ->]|[-> ->]]]];
      first [transitivity (clause_walk 10 (w ++ [rp])); [reflexivity|apply IH; tauto]
            |transitivity (clause_walk 18 (w ++ [rp])); [reflexivity|apply IH; tauto]].
Qed.

Lemma predicate_walk w : predicate_g w → clause_walk 0 w = Some 8 ∧ clause_walk 9 w = Some 17.
Proof.
  intros (f & lp & a & args & rp & -> & Hf & Hlp & Ha & Hargs & Hrp).
  cbn [app clause_walk]. rewrite Hf, Hlp, Ha. split.
  - transitivity (clause_walk 5 (args ++ [rp])); [reflexivity|]. by apply arguments_walk; auto.
  - transitivity (clause_walk 15 (args ++ [rp])); [reflexivity|]. by apply arguments_walk; auto 6.
Qed.

(** After a literal, state 8 or 19, a full stop leads to the first alternative
    and an arrow to the second. *)
Lemma literal_walk w :
  literal_g w → clause_walk 0 w = Some 8 ∨ clause_walk 0 w = Some 19.
Proof.
  destruct 1 as [w Hp|s0 lp t c w rp H0 Hlp Ht Hc Hp Hrp].
  - left. by apply predicate_walk.
  - right. cbn [app clause_walk]. rewrite H0, Hlp, Ht, Hc.
    transitivity (clause_walk 9 (w ++ [rp])); [reflexivity|].
    rewrite clause_walk_app, (proj2 (predicate_walk w Hp)). cbn [clause_walk]. by rewrite Hrp.
Qed.

Lemma predict_clause_parses w t k s (ty alt : Z) :
  literal_g w → of_type ty t → (ty = 42 ∧ alt = 1) ∨ (ty = 43 ∧ alt = 2) →
  good s → rest s = w ++ t :: k → predict_clause s = Ok (Some alt, s).
Proof.
  intros Hw Ht Hty [Ha _] Hr. unfold predict_clause.
  assert (∃ f, clause_walk 0 (w ++ [t]) = Some f ∧ index (special cdfa4) f = Ok (-1) ∧
    index (accept cdfa4) f = Ok alt) as (f & Hf & Hsp & Hacc).
  { rewrite clause_walk_app. destruct (literal_walk w Hw) as [-> | ->]; cbn [clause_walk]; rewrite Ht;
      destruct Hty as [[-> ->]|[-> ->]]; eexists; (split; [reflexivity|]); by vm_compute. }
  rewrite (predict_walk _ (w ++ [t]) k f alt); [|done| |done..|].
  - cbn [mbind outcome_bind]. by destruct s.
  - unfold rest in Hr. by rewrite Hr, <-app_assoc.
  - destruct Hty as [[_ ->]|[_ ->]]; lia.
Qed.

(** ** Clauses *)

Lemma parses_predict {B} w t k0 ty alt (f : option Z → M (option B)) b n :
  literal_g w → of_type ty t → (ty = 42 ∧ alt = 1) ∨ (ty = 43 ∧ alt = 2) →
  parses (f (Some alt)) (w ++ t :: k0) (Some b) n →
  parses (try_bind predict_clause f) (w ++ t :: k0) (Some b) n.
Proof.
  intros Hw Ht Hty H s k Hg Hr Hk. unfold try_bind.
  rewrite (predict_clause_parses w t (k0 ++ k) s ty alt Hw Ht Hty Hg);
    [|by rewrite Hr, <-app_assoc].
  cbn [mbind outcome_bind]. unfold HASEXCEPTION. rewrite (proj2 Hg). by apply H.
Qed.

Section clauses.
Variable fuel : nat.

Lemma clause_parses w :
  clause_g w → (length w < fuel)%nat → parses (clause fuel) w (group w) anything.
Proof.
  destruct 1 as [w stop Hw Hs|h arrow b l stop Hh Har Hb Hl Hs]; intros Hf;
    rewrite ?length_app in Hf; cbn [length] in Hf; rewrite ?length_app in Hf; cbn [length] in Hf;
    unfold clause; apply (parses_exit _ _ (Some (row _))).
  - apply (parses_predict w stop [] 42 1); auto. cbn [default from_option id].
    start_row. read_part (literal_parses fuel w); [lia|]. read_token. apply parses_return.
  - apply (parses_predict h arrow (b ++ l ++ [stop]) 43 2); auto. cbn [default from_option id].
    start_row. read_part (literal_parses fuel h); [lia|]. read_token.
    read_part (literal_parses fuel b); [lia|].
    eapply parses_try.
    + apply (comma_loop_parses literal_g (literal fuel) FOLLOW_41_in_clause341
               FOLLOW_literal_in_clause343 (clause_loop fuel) fuel); [done| |done|lia|lia].
      intros u. apply literal_parses.
    + cbv beta zeta. cbn [default from_option id]. read_token.
      rewrite <-!app_assoc. apply parses_return.
    + intros k _. by eapply next_not_type; [done|set_solver].
Qed.

(** A stream that has only been added to. *)
Definition streamed (l : list BASE_TREE) : option REWRITE_STREAM :=
  match l with [] => None | _ => Some (mkStream l 0 false) end.

Lemma add_streamed l t : add (streamed l) (Some t) = streamed (l ++ [t]).
Proof. by destruct l. Qed.

Lemma clause_head w k : clause_g w →
  (match w ++ k with t :: _ => tok_type t | [] => EOF end = TEXT) ∨
  (match w ++ k with t :: _ => tok_type t | [] => EOF end = 46).
Proof.
  assert (∀ w k, literal_g w → (match w ++ k with t :: _ => tok_type t | [] => EOF end = TEXT) ∨
    (match w ++ k with t :: _ => tok_type t | [] => EOF end = 46)) as H.
  { intros u j [v Hp|]; [left; by apply predicate_head|by right]. }
  destruct 1; rewrite <-app_assoc; by apply H.
Qed.

(** The clauses of a certificate: what the stream gains flattens to what was
    read. *)
Lemma certificate_loop_parses n : ∀ cnt l0 w,
  (w = [] ∧ (1 ≤ cnt)%nat ∨ clauses_g w) → (length w < n)%nat → (length w < fuel)%nat →
  ∃ l, flat l = map leaf w ∧ (w ≠ [] → l ≠ []) ∧
  parses (certificate_loop fuel n cnt (streamed l0)) w (Some (streamed (l0 ++ l)))
    (next_not [TEXT; 46]).
Proof.
  induction n as [|n IH]; intros cnt l0 w Hw Hn Hf; [lia|].
  destruct Hw as [[-> Hc]|Hw].
  - exists []. rewrite app_nil_r. split_and!; try done. intros s k Hg Hr Hk.
    cbn [certificate_loop]. rewrite !LA_rest, Hr by done. cbn [app].
    assert (∀ ty, ty ∈ [TEXT; 46] →
      (match k with t :: _ => tok_type t | [] => EOF end) =? ty = false) as Hty.
    { intros ty Hty. apply Z.eqb_neq. destruct k; set_solver. }
    rewrite !Hty by set_solver. cbn [orb]. destruct (Nat.leb_spec 1 cnt); [|lia].
    exact (parses_return (streamed l0) (next_not [TEXT; 46]) s k Hg Hr Hk).
  - assert (∃ u ws, w = u ++ ws ∧ clause_g u ∧ (ws = [] ∨ clauses_g ws)) as (u & ws & -> & Hu & Hws).
    { destruct Hw as [w Hw|w ws Hw Hws]; [exists w, []|exists w, ws]; rewrite ?app_nil_r; auto. }
    rewrite length_app in Hn, Hf. pose proof (clause_g_ne _ Hu) as Hne.
    assert (0 < length u)%nat by (by destruct u; [|cbn; lia]).
    destruct (group_Some u Hne) as (t & Ht & Hfl).
    destruct (IH (S cnt) (l0 ++ [t]) ws) as (l & Hl & _ & Hp);
      [destruct Hws; [left; split; [done|lia]|by right]|lia|lia|].
    exists (t :: l). split_and!; [|done|].
    { change (t :: l) with ([t] ++ l). by rewrite flat_app, Hfl, Hl, map_app. }
    intros s k Hg Hr Hk. cbn [certificate_loop]. rewrite !LA_rest, Hr, <-app_assoc by done.
    assert (((match u ++ ws ++ k with t :: _ => tok_type t | [] => EOF end) =? TEXT)
      || ((match u ++ ws ++ k with t :: _ => tok_type t | [] => EOF end) =? 46) = true) as ->.
    { by destruct (clause_head u (ws ++ k) Hu) as [-> | ->]. }
    revert s k Hg Hr Hk.
    eapply parses_try; [apply parses_invoke, clause_parses; [done|lia]| |done].
    rewrite Ht, add_streamed. replace (l0 ++ t :: l) with ((l0 ++ [t]) ++ l); [done|].
    by rewrite <-app_assoc.
Qed.
End clauses.

(** ** Rules that rewrite *)

Lemma parses_pure {B} (m : M (option B)) b n :
  (∀ s, m s = Ok (Some b, s)) → parses m [] (Some b) n.
Proof. intros H s k Hg Hr _. rewrite H. by exists s. Qed.

Lemma addChild_flat w t u : flat [t] = map leaf u → addChild (row w) (Some t) = row (w ++ u).
Proof. intros H. unfold row. by rewrite addChild_node, H, map_app. Qed.

Lemma addChild_label w ty txt : addChild (row w) (Some (createTypeText ty txt)) = row (w ++ [label ty txt]).
Proof. by apply addChild_flat. Qed.

Lemma time_tuple_g_ne w : time_tuple_g w → w ≠ [].
Proof. by inversion 1. Qed.

Lemma validity_rewrite_row t1 w1 t2 w2 :
  flat [t1] = map leaf w1 → flat [t2] = map leaf w2 →
  validity_rewrite 2 (row []) (streamed [t1; t2])
  = Ok (row (label START_TIME (lit "START_TIME") :: w1 ++ label STOP_TIME (lit "STOP_TIME") :: w2)).
Proof.
  intros H1 H2. cbn [validity_rewrite streamed stream_hasNext hasNext cursor elements length Nat.ltb
    Nat.leb stream_nextTree nextTree next_element Nat.eqb dirty orb andb lookup list_lookup].
  rewrite addChild_label, (addChild_flat _ t1 w1), addChild_label, (addChild_flat _ t2 w2) by done.
  cbn [app]. by rewrite <-app_assoc.
Qed.

Lemma validity_parses w o : validity_g w o → parses validity w (group o) anything.
Proof.
  destruct 1 as [h nb w1 na w2 f Hh Hnb H1 Hna H2 Hf].
  destruct (group_Some w1) as (t1 & E1 & F1); [by apply time_tuple_g_ne|].
  destruct (group_Some w2) as (t2 & E2 & F2); [by apply time_tuple_g_ne|].
  unfold validity. apply (parses_exit _ _ (Some (row _))). cbv beta zeta.
  read_token. read_token.
  eapply parses_try; [by apply parses_invoke, time_tuple_parses|cbv beta|done]. rewrite E1.
  change (add None (Some t1)) with (streamed [t1]). read_token.
  eapply parses_try; [by apply parses_invoke, time_tuple_parses|cbv beta|done]. rewrite E2.
  rewrite add_streamed. read_token. apply parses_pure. intros s.
  change nilNode with (row []). by rewrite (validity_rewrite_row t1 w1 t2 w2).
Qed.

Section credentials.
Variable fuel : nat.

Lemma certificate_rewrite_row cls w1 v wv pk wpk sg wsg :
  cls ≠ [] → flat cls = map leaf w1 → flat [v] = map leaf wv → flat [pk] = map leaf wpk →
  flat [sg] = map leaf wsg →
  certificate_rewrite 2 (row []) false (streamed cls) (streamed [v]) (streamed [pk]) (streamed [sg])
  = Ok (row (label CERT (lit "CERT") :: label CLAUSE (lit "CLAUSE") ::
             w1 ++ wv ++ wpk ++ wsg ++ [label END_CERT (lit "END_CERT")]), false).
Proof.
  intros Hne H1 Hv Hpk Hsg. cbn [certificate_rewrite].
  change (stream_hasNext (streamed [v])) with true. cbn [orb]. rewrite !addChild_label.
  replace (streamed cls) with (Some (mkStream cls 0 false)) by (by destruct cls).
  assert (stream_hasNext (Some (mkStream cls 0 false)) = true) as ->.
  { destruct cls; [done|]. reflexivity. }
  cbn [negb default from_option id elements]. unfold row at 1.
  rewrite add_all_spec by lia. cbn [mbind outcome_bind option_map].
  rewrite H1, <-map_app. change (Tree None (map leaf ?x)) with (row x).
  cbn [streamed stream_nextTree nextTree next_element length elements cursor dirty Nat.eqb Nat.leb orb andb
    lookup list_lookup].
  rewrite (addChild_flat _ v wv), (addChild_flat _ pk wpk), (addChild_flat _ sg wsg), addChild_label by done.
  cbn [stream_hasNext hasNext cursor elements length Nat.ltb Nat.leb orb].
  cbn [app]. by rewrite <-!app_assoc.
Qed.

Lemma certificate_parses w o :
  certificate_g w o → (length w < fuel)%nat → parses (certificate fuel) w (group o) anything.
Proof.
  destruct 1 as [h cls v vo pk sg f Hh Hcls Hv Hpk Hsg Hf]. intros Hl.
  cbn [length] in Hl. rewrite !length_app in Hl. cbn [length] in Hl.
  destruct (group_Some vo) as (tv & Ev & Fv); [by eapply validity_g_ne|].
  destruct (group_Some pk) as (tp & Ep & Fp); [by eapply framed_g_ne|].
  destruct (group_Some sg) as (tg & Eg & Fg); [by eapply framed_g_ne|].
  destruct (certificate_loop_parses fuel fuel 0 [] cls) as (l & Fl & Hne & Hp); [by right|lia|lia|].
  assert (cls ≠ []) as Hcne.
  { destruct Hcls as [c Hc|c cs Hc _]; intros E; [|apply app_eq_nil in E as [E _]];
      by apply (clause_g_ne c Hc). }
  unfold certificate. apply (parses_exit _ _ (Some (row _))). cbv beta zeta. read_token.
  eapply parses_try; [exact Hp|cbv beta; cbn [default from_option id]|].
  2: { intros k _. destruct Hv. by eapply next_not_type; [done|set_solver]. }
  eapply parses_try; [apply parses_invoke; by eapply validity_parses|cbv beta|done]. rewrite Ev.
  eapply parses_try; [apply parses_invoke, public_key_parses; [done|lia]|cbv beta|done]. rewrite Ep.
  eapply parses_try; [apply parses_invoke, signature_parses; [done|lia]|cbv beta|done]. rewrite Eg.
  read_token. apply parses_pure. intros s.
  change nilNode with (row []). change (add None (Some ?t)) with (streamed [t]).
  cbn [app]. rewrite (certificate_rewrite_row l cls tv vo tp pk tg sg); auto.
Qed.
(** The certificates of a credential. *)
Lemma credential_loop_parses w o : certificates_g w o → ∀ n l0,
  (length w < n)%nat → (length w < fuel)%nat →
  ∃ l, flat l = map leaf o ∧
  parses (credential_loop fuel n (streamed l0)) w (Some (streamed (l0 ++ l)))
    (next_not [CERT_HEADER]).
Proof.
  induction 1 as [|w o ws os Hw Hws IH]; intros n l0 Hn Hf; (destruct n as [|n]; [lia|]).
  - exists []. rewrite app_nil_r. split; [done|]. intros s k Hg Hr Hk.
    cbn [credential_loop]. rewrite LA_rest, Hr by done. cbn [app].
    rewrite (proj2 (Z.eqb_neq _ CERT_HEADER)) by (destruct k; set_solver).
    exact (parses_return (streamed l0) (next_not [CERT_HEADER]) s k Hg Hr Hk).
  - rewrite length_app in Hn, Hf. assert (∃ h u, w = h :: u ∧ of_type CERT_HEADER h) as (h & u & E & Hh).
    { destruct Hw as [h cls v vo pk sg f Hh]. by eexists _, _. }
    assert (0 < length w)%nat by (rewrite E; cbn; lia).
    destruct (group_Some o) as (t & Ht & Hfl); [by eapply certificate_g_ne|].
    destruct (IH n (l0 ++ [t])) as (l & Hl & Hp); [lia|lia|].
    exists (t :: l). split.
    { change (t :: l) with ([t] ++ l). by rewrite flat_app, Hfl, Hl, map_app. }
    intros s k Hg Hr Hk. cbn [credential_loop]. rewrite LA_rest, Hr by done.
    rewrite (proj2 (Z.eqb_eq _ CERT_HEADER)) by (rewrite E; exact Hh). revert s k Hg Hr Hk.
    eapply parses_try; [apply parses_invoke; eapply certificate_parses; [done|lia]| |done].
    rewrite Ht, add_streamed. replace (l0 ++ t :: l) with ((l0 ++ [t]) ++ l); [done|].
    by rewrite <-app_assoc.
Qed.

Definition credential_tree (o : list COMMON_TOKEN) : BASE_TREE :=
  Tree (Some (label CREDENTIAL (lit "CREDENTIAL"))) (map leaf o).

Lemma add_all_streamed tok o0 l o :
  flat l = map leaf o →
  ∃ st, add_all (S (length (elements (default StreamNew (streamed l))))) (Tree tok (map leaf o0))
          (streamed l) = Ok (Tree tok (map leaf (o0 ++ o)), st).
Proof.
  intros H. destruct l as [|t l].
  - exists None. destruct o; [|done]. by rewrite app_nil_r.
  - eexists. cbn [streamed default from_option id elements]. rewrite add_all_spec by lia.
    by rewrite H, map_app.
Qed.

Lemma credential_parses w o :
  credential_g w o → (length w < fuel)%nat →
  parses (credential fuel) w (Some (credential_tree o)) anything.
Proof.
  destruct 1 as [h pk ws os f Hh Hpk Hws Hf]. intros Hl.
  cbn [length] in Hl. rewrite !length_app in Hl. cbn [length] in Hl.
  destruct (group_Some pk) as (tp & Ep & Fp); [by eapply framed_g_ne|].
  destruct (credential_loop_parses ws os Hws fuel []) as (l & Fl & Hp); [lia|lia|].
  unfold credential. apply (parses_exit _ _ (Some (Tree None [credential_tree _]))).
  cbv beta zeta. read_token.
  eapply parses_try; [apply parses_invoke, public_key_parses; [done|lia]|cbv beta|done]. rewrite Ep.
  eapply parses_try; [exact Hp|cbv beta; cbn [default from_option id]|].
  2: { intros k _. by eapply next_not_type; [done|set_solver]. }
  read_token. apply parses_pure. intros s. cbn [becomeRoot createTypeText create isNilNode token].
  cbn [mbind outcome_bind deref app].
  change (addChild (createTypeText CREDENTIAL (lit "CREDENTIAL")) (Some nilNode))
    with (Tree (Some (label CREDENTIAL (lit "CREDENTIAL"))) []).
  cbn [add default from_option id StreamNew elements cursor dirty app stream_nextTree nextTree next_element
    length Nat.eqb Nat.leb orb andb lookup list_lookup].
  rewrite addChild_node, Fp. cbn [app].
  destruct (add_all_streamed (Some (label CREDENTIAL (lit "CREDENTIAL"))) pk l os Fl) as [st ->].
  cbn [mbind outcome_bind]. rewrite addChild_node.
  change (flat [createTypeText END (lit "END")]) with (map leaf [label END (lit "END")]).
  rewrite <-map_app, <-app_assoc. done.
Qed.
End credentials.
