(* ===== verification/ParserTotal.v ===== *)
(** Every rule of the parser returns on every input, recovers from errors within
    the input, and reports no error only when it has read a phrase of the
    grammar. *)
From S2P Require Import Prelude CppString CyclicDFA Lexer TokenStream Tree Recognizer.
From S2P Require Import ParserTables Parser Grammar ParserSpec.

(** ** States *)

(** The work that is left: two units for a token ahead, and one when an error at
    this token would be the first. *)
Definition mu (s : PARSER) : nat :=
  (2 * length (rest s) + if (lastErrorIndex s =? tindex (tstream s))%Z then 0 else 1)%nat.

Section total.
Variable fuel : nat.

(** The state before a step: the stream has a token of the channel, none that
    marks its end, and the fuel is enough for it. *)
Definition pre (s : PARSER) : Prop :=
  good s ∧ length (tokenNames s) = 47%nat ∧ visible (tokens (tstream s)) ≠ [] ∧
  Forall (λ t, tok_type t ≠ EOF) (visible (tokens (tstream s))) ∧
  (2 * length (visible (tokens (tstream s))) + 2 ≤ fuel)%nat.

(** What every step keeps, also when it raises an exception. *)
Definition keeps (s s' : PARSER) : Prop :=
  tokens (tstream s') = tokens (tstream s) ∧ tokenNames s' = tokenNames s ∧
  following s' = following s ∧ at_token (tstream s') ∧ (mu s' ≤ mu s)%nat ∧
  errorCount s ≤ errorCount s' ∧
  (errorRecovery s = false → errorCount s' = errorCount s → errorRecovery s' = false).

(** No error was reported between two states. *)
Definition quiet (s s' : PARSER) : Prop := errorRecovery s = false ∧ errorCount s' = errorCount s.

(** The step [m] from [s] returns. Without an exception its value satisfies [U],
    and if no error was reported, it has read some [w] with [P]. When the token
    ahead has a type of [F], some work was done. *)
Definition runs {A} (s : PARSER) (m : M A) (F : list Z) (U : A → Prop)
    (P : A → list COMMON_TOKEN → Prop) : Prop :=
  ∃ a s', m s = Ok (a, s') ∧ keeps s s' ∧
    (error s' = false → U a) ∧
    (error s' = false → quiet s s' → ∃ w, rest s = w ++ rest s' ∧ P a w) ∧
    (LA 1 s ∈ F → error s' = true ∨ (mu s' < mu s)%nat).
Definition does {A} (m : M A) (F : list Z) (U : A → Prop)
    (P : A → list COMMON_TOKEN → Prop) : Prop :=
  ∀ s, pre s → runs s m F U P.

Definition any {A} (a : A) : Prop := True.

Lemma pre_keeps s s' : pre s → keeps s s' → error s' = false → pre s'.
Proof.
  intros ((Ha & He) & Hn & Hv & Hty & Hf) (Ht & Hn' & _ & Ha' & _) He'.
  unfold pre. rewrite Ht, Hn'. by split_and?.
Qed.

Lemma keeps_refl s : at_token (tstream s) → keeps s s.
Proof. intros. unfold keeps. split_and?; done || lia. Qed.

Lemma keeps_trans s1 s2 s3 : keeps s1 s2 → keeps s2 s3 → keeps s1 s3.
Proof.
  intros (T1 & N1 & F1 & A1 & M1 & C1 & R1) (T2 & N2 & F2 & A2 & M2 & C2 & R2).
  unfold keeps. split_and?; try done; try congruence; try lia.
  intros Hr Hc. apply R2; [|lia]. apply R1; [done|lia].
Qed.

Lemma quiet_split s1 s2 s3 :
  keeps s1 s2 → keeps s2 s3 → quiet s1 s3 → quiet s1 s2 ∧ quiet s2 s3.
Proof.
  intros (_ & _ & _ & _ & _ & C1 & R1) (_ & _ & _ & _ & _ & C2 & R2) [Hr Hc].
  unfold quiet. assert (errorCount s2 = errorCount s1) as E by lia.
  split_and?; [done|done|by apply R1|lia].
Qed.

(** ** Work *)

Lemma rest_consume s : at_token (tstream s) → rest (CONSUME s) = tail (rest s).
Proof. intros Ha. unfold rest, CONSUME. cbn. by apply ahead_consume. Qed.

Lemma consume_end s : at_token (tstream s) → rest s = [] → CONSUME s = s.
Proof.
  intros Ha Hr. unfold rest in Hr. apply ahead_nil in Hr; [|done].
  unfold CONSUME, tok_consume. destruct (Nat.ltb_spec (p (tstream s)) (length (tokens (tstream s)))); [lia|].
  by destruct s.
Qed.

Lemma mu_consume s : at_token (tstream s) → (mu (CONSUME s) ≤ mu s)%nat.
Proof.
  intros Ha. destruct (rest s) as [|t l] eqn:E; [by rewrite consume_end|].
  unfold mu. rewrite rest_consume, E by done. cbn [tail length]. case_tests; lia.
Qed.

Lemma mu_consume_lt s : at_token (tstream s) → rest s ≠ [] → (mu (CONSUME s) < mu s)%nat.
Proof.
  intros Ha Hr. destruct (rest s) as [|t l] eqn:E; [done|].
  unfold mu. rewrite rest_consume, E by done. cbn [tail length]. case_tests; lia.
Qed.

Lemma mu_bound s : pre s → (mu s < fuel)%nat.
Proof.
  intros (_ & _ & _ & _ & Hf). unfold mu, rest. rewrite (LB1_visible (tstream s)), length_app in Hf.
  case_tests; lia.
Qed.

Lemma mu_rest s s' : (mu s ≤ mu s')%nat → (mu s' ≤ mu s)%nat → rest s ≠ [] → rest s' ≠ [].
Proof.
  unfold mu. intros H1 H2 Hr Hr'. destruct (rest s); [done|]. rewrite Hr' in *.
  cbn [length] in *. revert H1 H2. case_tests; lia.
Qed.

Lemma LA_EOF s : good s → LA 1 s ≠ EOF → rest s ≠ [].
Proof. intros Hg H E. apply H. rewrite LA_rest, E; done. Qed.

(** ** Composition *)

Lemma runs_weaken {A} s (m : M A) F F' U U' P P' :
  runs s m F U P → F' ⊆ F → (∀ a, U a → U' a) → (∀ a w, U a → P a w → P' a w) →
  runs s m F' U' P'.
Proof.
  intros (a & s' & E & Hk & HU & HP & HF) HF' HU' HP'. exists a, s'. split_and?; auto.
  intros He Hq. destruct (HP He Hq) as (w & ? & ?). eauto.
Qed.

Lemma runs_head {A} s (m : M A) F F' U P :
  runs s m F U P → (LA 1 s ∈ F' → LA 1 s ∈ F) → runs s m F' U P.
Proof. intros (a & s' & E & Hk & HU & HP & HF) H. exists a, s'. split_and?; auto. Qed.

Lemma runs_try {A B} s (m : M A) (k : A → M (option B)) F F' U1 P1 U P :
  pre s → runs s m F U1 P1 → F' ⊆ F →
  (∀ a s1, pre s1 → U1 a → (mu s1 ≤ mu s)%nat → (LA 1 s ∈ F → (mu s1 < mu s)%nat) →
    runs s1 (k a) [] U (λ r w2, ∀ w1, P1 a w1 → P r (w1 ++ w2))) →
  runs s (try_bind m k) F' U P.
Proof.
  intros Hpre Hm HF' Hc. apply (runs_weaken s _ F F' U U P P); [|done..]. revert Hm Hc.
  clear HF' F'. intros (a & s1 & E & Hk & HU & HP & HF) Hc. unfold runs, try_bind.
  rewrite E. cbn [mbind outcome_bind]. unfold HASEXCEPTION.
  destruct (error s1) eqn:He.
  { exists None, s1. split_and?; try done; intros; [congruence..|auto]. }
  destruct (Hc a s1) as (r & s2 & E2 & Hk2 & HU2 & HP2 & _).
  { by eapply pre_keeps. } { auto. } { by destruct Hk as (_ & _ & _ & _ & ? & _). }
  { intros H. by destruct (HF H). }
  exists r, s2. split_and?; [done|by eapply keeps_trans|done| |].
  - intros He2 Hq. destruct (quiet_split _ _ _ Hk Hk2 Hq) as [Hq1 Hq2].
    destruct (HP eq_refl Hq1) as (w1 & R1 & H1). destruct (HP2 He2 Hq2) as (w2 & R2 & H2).
    exists (w1 ++ w2). split; [by rewrite R1, R2, app_assoc|auto].
  - intros H. right. destruct (HF H) as [|Hlt]; [done|].
    destruct Hk2 as (_ & _ & _ & _ & Hm & _). lia.
Qed.

Lemma runs_return {B} s (b : B) (U : option B → Prop) (P : option B → list COMMON_TOKEN → Prop) :
  pre s → U (Some b) → P (Some b) [] → runs s (return_ b) [] U P.
Proof.
  intros ((Ha & He) & _) HU HP. exists (Some b), s. split_and?; try done.
  - intros _ _. by exists [].
  - by intros ?%elem_of_nil.
Qed.

Lemma keeps_error s b : at_token (tstream s) → keeps s (set_error b s).
Proof. intros. unfold keeps. split_and?; try done; reflexivity. Qed.

Lemma runs_raise {B} s F (U : option B → Prop) P : pre s → runs s raise F U P.
Proof.
  intros ((Ha & He) & _). exists None, (CONSTRUCTEX s).
  split_and?; try done. by left.
Qed.

Lemma does_invoke {A} (m : M A) follow F U P : does m F U P → does (invoke follow m) F U P.
Proof.
  intros H s Hpre. destruct (H (FOLLOWPUSH follow s)) as (a & s' & E & Hk & HU & HP & HF); [done|].
  exists a, (FOLLOWPOP s'). unfold invoke. rewrite E. split_and?; try done.
  destruct Hk as (T & N & Fo & A1 & M1 & C & R). unfold keeps, FOLLOWPOP. cbn.
  rewrite Fo. split_and?; done.
Qed.

(** ** Matching a token *)

Lemma mu_eq s s' :
  tstream s' = tstream s → lastErrorIndex s' = lastErrorIndex s → mu s' = mu s.
Proof. intros H1 H2. unfold mu, rest. by rewrite H1, H2. Qed.

(** Consuming, possibly reporting an error. *)
Lemma keeps_consume s : at_token (tstream s) → keeps s (CONSUME s).
Proof.
  intros Ha. unfold keeps, CONSUME. cbn. rewrite consume_tokens.
  split_and?; try done; first [by apply consume_at_token|by apply mu_consume].
Qed.

Lemma keeps_report s : at_token (tstream s) → keeps s (reportError s).
Proof.
  intros Ha. unfold keeps, reportError. destruct (errorRecovery s) eqn:E; [by split_and?|].
  cbn. split_and?; try done; lia.
Qed.

Lemma report_not_quiet s0 s : keeps s0 s → ¬ quiet s0 (reportError s).
Proof.
  intros (_ & _ & _ & _ & _ & C & R) [Hr Hc]. unfold reportError in Hc.
  destruct (errorRecovery s) eqn:E.
  - specialize (R Hr Hc). congruence.
  - cbn in Hc. lia.
Qed.

Lemma keeps_set_recovery s : at_token (tstream s) → keeps s (set_errorRecovery false s).
Proof. intros. by unfold keeps. Qed.

Lemma getMissingSymbol_ok ty s :
  pre s → 0 ≤ ty < 47 → ∃ t, getMissingSymbol ty s = Ok t.
Proof.
  intros ((Ha & He) & Hn & Hv & Hne & _) Hty. unfold getMissingSymbol.
  destruct (index_ok (tokenNames s) ty) as (name & Hname & _); [lia|].
  destruct (Z.eqb_spec (LA 1 s) EOF) as [HE|HE].
  - destruct (LB1 (tstream s)) as [t|] eqn:El; cbn; [rewrite Hname; by eexists|].
    destruct (decide (ahead (tstream s) = [])) as [Hr|Hr].
    + by destruct (LB1_end _ Hr Hv) as [t Ht]; rewrite El in Ht.
    + rewrite (LA_rest s) in HE by done. unfold rest in HE.
      rewrite LB1_visible, Forall_app in Hne. destruct Hne as [_ Hne].
      destruct (ahead (tstream s)); [done|]. by inversion Hne.
  - cbn. rewrite Hname. by eexists.
Qed.

Lemma LA_rest_EOF s : pre s → rest s ≠ [] → LA 1 s ≠ EOF.
Proof.
  intros (Hg & _ & _ & Hne & _) Hr. rewrite LA_rest by done.
  rewrite LB1_visible, Forall_app in Hne. destruct Hne as [_ Hne]. unfold rest in *.
  destruct (ahead (tstream s)); [done|]. by inversion Hne.
Qed.

Definition read_token_g (ty : Z) (a : option COMMON_TOKEN) (w : list COMMON_TOKEN) : Prop :=
  ∃ t, a = Some t ∧ w = [t] ∧ of_type ty t.

Lemma does_match ty follow :
  0 ≤ ty < 47 → does (MATCHT ty follow) [ty] any (read_token_g ty).
Proof.
  intros Hty s Hpre. pose proof Hpre as ((Ha & He) & _). unfold runs, MATCHT.
  destruct (Z.eqb_spec (LA 1 s) ty) as [Hla|Hla].
  - assert (∃ t l, rest s = t :: l ∧ of_type ty t) as (t & l & Hr & Ht).
    { rewrite LA_rest in Hla by done. destruct (rest s) as [|t l]; [unfold EOF in Hla; lia|by eexists _, _]. }
    eexists _, _. split; [reflexivity|]. split; [|split; [done|split]].
    + eapply keeps_trans; [by apply keeps_consume|]. apply keeps_set_recovery.
      by apply consume_at_token.
    + intros _ _. exists [t]. split.
      * change (rest (set_errorRecovery false (CONSUME s))) with (rest (CONSUME s)).
        by rewrite rest_consume, Hr.
      * exists t. rewrite LT_ahead1 by done. unfold rest in Hr. by rewrite Hr.
    + intros _. right. rewrite (mu_eq (CONSUME s) (set_errorRecovery false _)) by done.
      apply mu_consume_lt; [done|]. by rewrite Hr.
  - assert (LA 1 s ∉ [ty]) as HF by (by rewrite list_elem_of_singleton). unfold recoverFromMismatchedToken.
    destruct (mismatchIsUnwantedToken ty s).
    { assert (keeps s (CONSUME s)) as K1 by by apply keeps_consume.
      assert (at_token (tstream (CONSUME s))) as A1 by by apply consume_at_token.
      assert (keeps s (reportError (CONSUME s))) as K2 by (eapply keeps_trans; [done|by apply keeps_report]).
      assert (at_token (tstream (reportError (CONSUME s)))) as A2 by apply K2.
      assert (keeps (reportError (CONSUME s)) (CONSUME (reportError (CONSUME s)))) as K3
        by by apply keeps_consume.
      eexists _, _. split; [reflexivity|]. split; [|split; [done|split; [|done]]].
      - eapply keeps_trans; [exact K2|]. eapply keeps_trans; [exact K3|].
        apply keeps_error, K3.
      - intros _ Hq. exfalso. apply (report_not_quiet _ _ K1).
        apply (quiet_split s (reportError (CONSUME s)) (set_error false (CONSUME (reportError (CONSUME s)))));
          [done| |exact Hq]. eapply keeps_trans; [exact K3|]. apply keeps_error, K3. }
    destruct (mismatchIsMissingToken follow s).
    + destruct (getMissingSymbol_ok ty s Hpre Hty) as [t ->]. cbn [mbind outcome_bind].
      assert (keeps s (reportError s)) as K1 by by apply keeps_report.
      assert (keeps (reportError s) (set_error false (reportError s))) as K2 by apply keeps_error, K1.
      eexists _, _. split; [reflexivity|]. split; [|split; [done|split; [|done]]].
      * by eapply keeps_trans.
      * intros _ Hq. exfalso. apply (report_not_quiet s s (keeps_refl s Ha)).
        by apply (quiet_split s (reportError s) (set_error false (reportError s))).
    + eexists _, _. split; [reflexivity|]. split; [by apply keeps_error|]. by split_and?.
Qed.

(** ** Recovery and the exit of a rule *)

Lemma consumeUntilSet_ok set n : ∀ s, at_token (tstream s) → (length (rest s) < n)%nat →
  ∃ s', consumeUntilSet n set s = Ok s' ∧ keeps s s' ∧ error s' = error s ∧
        errorCount s' = errorCount s ∧ errorRecovery s' = errorRecovery s ∧
        (s' = s ∨ (mu s' < mu s)%nat).
Proof.
  induction n as [|n IH]; intros s Ha Hn; [lia|]. cbn [consumeUntilSet].
  assert (keeps s s) as Hk by by apply keeps_refl.
  destruct (negb (LA 1 s =? EOF) && _) eqn:E; [|exists s; split_and?; auto].
  apply andb_true_iff in E as [E%negb_true_iff%Z.eqb_neq _].
  assert (rest s ≠ []) as Hr.
  { intros Hr. apply E. unfold LA, tokLA. rewrite LT_ahead1 by done. unfold rest in Hr. by rewrite Hr. }
  destruct (IH (CONSUME s)) as (s' & -> & Hk' & ? & ? & ? & Hm).
  { by apply consume_at_token. }
  { rewrite rest_consume by done. destruct (rest s); [done|]. cbn in *. lia. }
  exists s'. split_and?; try done.
  - eapply keeps_trans; [by apply keeps_consume|done].
  - right. pose proof (mu_consume_lt s Ha Hr). destruct Hm as [-> | ?]; lia.
Qed.

Lemma recover_ok s :
  at_token (tstream s) →
  ∃ s', recover s = Ok s' ∧ keeps s s' ∧ error s' = false ∧ errorCount s' = errorCount s ∧
        (rest s ≠ [] → (mu s' < mu s)%nat).
Proof.
  intros Ha. unfold recover.
  set (s1 := if lastErrorIndex s =? tindex (tstream s) then CONSUME s else s).
  set (s2 := set_lastErrorIndex (tindex (tstream s1)) s1).
  assert (keeps s s1) as K1 by (unfold s1; case_match; [by apply keeps_consume|by apply keeps_refl]).
  assert (at_token (tstream s1)) as A1 by apply K1.
  assert (mu s2 ≤ mu s1)%nat as M2.
  { unfold mu, s2, rest. cbn. rewrite Z.eqb_refl. lia. }
  assert (keeps s1 s2) as K2 by (unfold keeps; by split_and?).
  assert (rest s ≠ [] → (mu s2 < mu s)%nat) as M12.
  { intros Hr. unfold s1 in *. destruct (Z.eqb_spec (lastErrorIndex s) (tindex (tstream s))) as [E|E].
    - pose proof (mu_consume_lt s Ha Hr). lia.
    - unfold mu at 2, s2. unfold mu, rest. cbn. rewrite Z.eqb_refl, (proj2 (Z.eqb_neq _ _) E). lia. }
  destruct (consumeUntilSet_ok (computeErrorRecoverySet s2) (S (tokens_left (tstream s2))) s2)
    as (s3 & -> & K3 & _ & C3 & _ & M3); [exact A1| |].
  { rewrite tokens_left_ahead by exact A1. unfold rest. lia. }
  cbn [mbind outcome_bind]. exists (set_error false s3).
  assert (keeps s s3) as K by (eapply keeps_trans; [exact K1|by eapply keeps_trans]).
  assert (errorCount s1 = errorCount s) as C1 by (unfold s1; by case_match).
  split_and?; [done| |done| |].
  - eapply keeps_trans; [exact K|]. apply keeps_error, K3.
  - cbn. rewrite C3. exact C1.
  - intros Hr. specialize (M12 Hr). rewrite (mu_eq s3 (set_error false s3)) by done.
    destruct M3 as [-> | ?]; lia.
Qed.

(** No rule leaves with an exception. *)
Lemma rule_exit_error body s t s' : rule_exit body s = Ok (t, s') → error s' = false.
Proof.
  unfold rule_exit. destruct (body s) as [[r s1]|?|?]; [|done..]. cbn [mbind outcome_bind].
  unfold HASEXCEPTION. destruct (error s1) eqn:He; [|by intros [= _ <-]].
  unfold recover. destruct (consumeUntilSet _ _ _) as [s2|?|?]; [|done..].
  cbn [mbind outcome_bind]. by intros [= _ <-].
Qed.

Lemma runs_exit body s F U P (U' : pTREE → Prop) :
  pre s → runs s body F U (λ r w, P (rulePostProcessing (default None r)) w) →
  EOF ∉ F → (∀ r, U r → U' (rulePostProcessing (default None r))) → U' (Some errorNode) →
  runs s (rule_exit body) F U' P.
Proof.
  intros Hpre (r & s1 & E & K1 & HU & HP & HF) HE HU1 HU2. unfold runs, rule_exit.
  rewrite E. cbn [mbind outcome_bind]. unfold HASEXCEPTION. destruct (error s1) eqn:He.
  - assert (at_token (tstream s1)) as A1 by apply K1.
    assert (keeps s1 (reportError s1)) as K2 by by apply keeps_report.
    destruct (recover_ok (reportError s1)) as (s2 & -> & K3 & He2 & C3 & M3); [apply K2|].
    cbn [mbind outcome_bind]. eexists _, _. split; [reflexivity|].
    split; [eapply keeps_trans; [exact K1|by eapply keeps_trans]|].
    split; [done|]. split.
    + intros _ [Hr Hc]. exfalso. apply (report_not_quiet s s1 K1). split; [done|].
      by rewrite <-C3.
    + intros Hf. right. assert (mu s2 ≤ mu s1)%nat as M2.
      { destruct (keeps_trans _ _ _ K2 K3) as (_ & _ & _ & _ & ? & _). done. }
      assert (mu s1 ≤ mu s)%nat as M1 by apply K1.
      destruct (decide (mu s1 < mu s)%nat) as [|Hm]; [lia|].
      assert (rest s1 ≠ []) as Hr.
      { apply (mu_rest s s1); [lia|lia|]. apply LA_EOF; [apply Hpre|]. by intros Heq; rewrite Heq in Hf. }
      assert (mu (reportError s1) = mu s1) as Em by (apply mu_eq; unfold reportError; by case_match).
      assert (rest (reportError s1) ≠ []) as Hr'.
      { unfold reportError. by case_match. }
      specialize (M3 Hr'). lia.
  - eexists _, _. split; [reflexivity|]. split_and?; auto.
    intros Hf. destruct (HF Hf); [congruence|auto].
Qed.

(** ** Rules without a loop *)

(** The rule [g] of the grammar was read and its tokens are the tree. *)
Definition tree_g (g : list COMMON_TOKEN → Prop) (t : pTREE) (w : list COMMON_TOKEN) : Prop :=
  g w ∧ t = group w.
(** The same of the root of an unfinished rule. *)
Definition root_g (g : list COMMON_TOKEN → Prop) (r : option pTREE) (w : list COMMON_TOKEN) : Prop :=
  g w ∧ r = Some (Some (row w)).

Lemma runs_rule body s F g :
  pre s → runs s body F any (root_g g) → EOF ∉ F → runs s (rule_exit body) F any (tree_g g).
Proof.
  intros Hpre H HE. eapply runs_exit; try done.
  eapply runs_weaken; [exact H|done..|]. by intros r w _ [Hg ->].
Qed.

Ltac rule_start := intros s Hs; apply runs_rule; [exact Hs| |apply (bool_decide_unpack _); by vm_compute].
Ltac runs_step lem :=
  eapply runs_try;
  [eassumption|apply lem; first [eassumption|split; [discriminate|reflexivity]|lia|idtac]|try apply list_subseteq_nil; try done
  |intros ? ? ? ? ? _; cbv beta zeta].
Ltac runs_token := runs_step does_match.
Ltac runs_part lem :=
  eapply runs_try;
  [eassumption|eapply does_invoke; [apply lem; try lia|eassumption]|try apply list_subseteq_nil; try done
  |intros ? ? ? ? ? _; cbv beta zeta].
(** At the end, the phrases that the steps read make up the row of the root. *)
Ltac open_reads :=
  intros; unfold read_token_g, tree_g in *;
  repeat match goal with
  | H : ∃ _, _ |- _ => destruct H
  | H : _ ∧ _ |- _ => destruct H
  end; subst;
  try change nilNode with (row []); rewrite ?app_nil_r;
  repeat first [rewrite addChild_leaf|rewrite addChild_group]; cbn [app].
Ltac runs_end := apply runs_return; [eassumption|done|open_reads].

Lemma text_ok : does text [TEXT] any (tree_g text_g).
Proof.
  rule_start. runs_token. runs_end. split; [by eexists|done].
Qed.

Lemma num_ok : does num [NUM] any (tree_g num_g).
Proof.
  rule_start. runs_token. runs_end. split; [by eexists|done].
Qed.

Lemma types_g_app tys1 tys2 w1 w2 :
  types_g tys1 w1 → types_g tys2 w2 → types_g (tys1 ++ tys2) (w1 ++ w2).
Proof. induction 1; intros; [done|]. by constructor; auto. Qed.

Lemma time_tuple_ok : does time_tuple [44] any (tree_g time_tuple_g).
Proof.
  rule_start. do 2 runs_token.
  do 5 (runs_part num_ok; runs_token).
  runs_part num_ok. do 2 runs_token. runs_end.
  unfold num_g in *. open_reads. split; [|done].
  repeat (constructor; [done|]). constructor.
Qed.

(** ** Loops *)

(** The root of a loop grows by a phrase of [g]. *)
Definition grows (g : list COMMON_TOKEN → Prop) (root : BASE_TREE) (r : option BASE_TREE)
    (w : list COMMON_TOKEN) : Prop :=
  g w ∧ ∀ w0, root = row w0 → r = Some (row (w0 ++ w)).

Lemma base64_loop_ok n : ∀ cnt root s, pre s → (mu s < n)%nat →
  runs s (base64_loop n cnt root) (match cnt with O => [TEXT] | _ => [] end) any
    (grows (λ w, Forall (of_type TEXT) w ∧ (w ≠ [] ∨ (1 ≤ cnt)%nat)) root).
Proof.
  induction n as [|n IH]; intros cnt root s Hs Hn; [lia|]. unfold runs. cbn [base64_loop].
  destruct (Z.eqb_spec (LA 1 s) TEXT) as [E|E].
  - assert (runs s (try_bind (invoke FOLLOW_text_in_base64556 text)
        (λ t, base64_loop n (S cnt) (addChild root t))) [TEXT] any
      (grows (λ w, Forall (of_type TEXT) w ∧ (w ≠ [] ∨ (1 ≤ cnt)%nat)) root)) as H.
    { eapply runs_try; [done|eapply does_invoke; [apply text_ok|done]|done|].
      intros t s1 Hs1 _ _ Hm. eapply runs_weaken; [apply IH; [done|]|done..|].
      - specialize (Hm ltac:(rewrite E; apply list_elem_of_here)). lia.
      - intros r w _ [[Hw _] Hr] w1 [(u & -> & Hu) ->]. split; [split; [by constructor|by left]|].
        intros w0 ->. rewrite (Hr (w0 ++ [u]) (addChild_group _ _)), <-app_assoc. done. }
    apply (runs_weaken _ _ _ (match cnt with O => [TEXT] | _ => [] end) _ any _ _ H);
      [destruct cnt; [done|apply list_subseteq_nil]|done..].
  - destruct (Nat.leb_spec 1 cnt) as [Hc|Hc].
    + assert (cnt ≠ 0)%nat by lia. destruct cnt; [done|]. apply runs_return; [done..|].
      split; [by auto|]. intros w0 ->. by rewrite app_nil_r.
    + apply runs_raise, Hs.
Qed.

Lemma base64_ok : does (base64 fuel) [TEXT] any (tree_g base64_g).
Proof.
  rule_start. eapply runs_try; [done|apply (base64_loop_ok fuel 0); [done|by apply mu_bound]|done|].
  intros r s1 Hs1 _ _ _. apply runs_return; [done..|].
  intros w [[Hw Hne] Hr]. rewrite app_nil_r, (Hr [] eq_refl). split; [split; [|done]|done].
  destruct Hne; [done|lia].
Qed.

Lemma public_key_ok : does (public_key fuel) [PUBLIC_KEY_HEADER] any (tree_g public_key_g).
Proof.
  rule_start. runs_token. runs_part base64_ok. runs_token. runs_end.
  split; [|done]. eexists _, _, _. by split_and?.
Qed.

Lemma signature_ok : does (signature fuel) [SIGNATURE_HEADER] any (tree_g signature_g).
Proof.
  rule_start. runs_token. runs_part base64_ok. runs_token. runs_end.
  split; [|done]. eexists _, _, _. by split_and?.
Qed.

(** A loop over parts after commas. *)
Lemma comma_loop_ok (part : list COMMON_TOKEN → Prop) (r : M pTREE) (F f1 f2 : list Z)
    (loop : nat → BASE_TREE → M (option BASE_TREE)) :
  (∀ n root s, loop (S n) root s =
    if LA 1 s =? 41 then
      (try_bind (MATCHT 41 f1) (λ c, try_bind (invoke f2 r) (λ x,
         loop n (addChild (addChild root (Some (create c))) x)))) s
    else return_ root s) →
  does r F any (tree_g part) →
  ∀ n root s, pre s → (mu s < n)%nat → runs s (loop n root) [] any (grows (list_g part) root).
Proof.
  intros Hloop Hr n. induction n as [|n IH]; intros root s Hs Hn; [lia|].
  unfold runs. rewrite Hloop. destruct (Z.eqb_spec (LA 1 s) 41) as [E|E].
  - eapply (runs_try s); [done|apply does_match; [lia|done]|apply list_subseteq_nil|].
    intros c s1 Hs1 _ _ Hm. specialize (Hm ltac:(rewrite E; apply list_elem_of_here)).
    eapply runs_try; [done|by eapply does_invoke|apply list_subseteq_nil|].
    intros x s2 Hs2 _ Hm2 _. eapply runs_weaken; [apply IH; [done|lia]|done..|].
    intros a w _ [Hw Ha] w1 [Hx ->] w2 (t & -> & -> & Ht).
    split; [exact (list_cons part t w1 w Ht Hx Hw)|]. intros w0 ->. rewrite (Ha ((w0 ++ [t]) ++ w1)).
    + by rewrite <-!app_assoc.
    + by rewrite addChild_leaf, addChild_group.
  - apply runs_return; [done..|]. split; [constructor|]. intros w0 ->. by rewrite app_nil_r.
Qed.

Lemma predicate_ok : does (predicate fuel) [TEXT] any (tree_g predicate_g).
Proof.
  rule_start. runs_part text_ok. runs_token. runs_part text_ok.
  eapply runs_try; [done|apply (comma_loop_ok text_g text [TEXT] FOLLOW_41_in_predicate405
    FOLLOW_text_in_predicate406 predicate_loop)|done|].
  { done. } { apply text_ok. } { done. } { by apply mu_bound. }
  intros root1 s4 Hs4 _ _ _. cbv beta zeta. runs_token. apply runs_return; [done..|].
  intros w5 (rp & -> & -> & Hrp) w4 [Hargs Hr].
  open_reads. unfold text_g in *. open_reads. rewrite (Hr [_; _; _]) by done.
  cbn [default from_option id]. rewrite addChild_leaf. split; [|done].
  eexists _, _, _, _, _. by split_and?.
Qed.

Lemma literal_ok : does (literal fuel) [TEXT; 46] any (tree_g literal_g).
Proof.
  rule_start. unfold runs. destruct (Z.eqb_spec (LA 1 s) TEXT) as [E|E].
  { eapply (runs_head s _ [TEXT]); [|intros _; rewrite E; apply list_elem_of_here].
    runs_part predicate_ok. runs_end. split; [by constructor|done]. }
  destruct (Z.eqb_spec (LA 1 s) 46) as [E2|E2]; [|by apply runs_raise].
  eapply (runs_head s _ [46]); [|intros _; rewrite E2; apply list_elem_of_here].
  do 2 runs_token. runs_part text_ok. runs_token. runs_part predicate_ok. runs_token. runs_end.
  unfold text_g in *. open_reads. split; [|done]. by constructor.
Qed.

(** ** Clauses *)

Lemma cdfa4_ok : dfa_ok cdfa4 = true.
Proof. by vm_compute. Qed.

(** The prediction of a clause chooses one of the two alternatives and reads
    nothing, or raises an exception. *)
Lemma predict_clause_ok s :
  pre s →
  predict_clause s = Ok (None, CONSTRUCTEX s) ∨
  ∃ alt, (alt = 1 ∨ alt = 2) ∧ predict_clause s = Ok (Some alt, s).
Proof.
  intros ((Ha & He) & _). unfold predict_clause.
  destruct (predict_total cdfa4 cdfa4_ok (S (S (tokens_left (tstream s)))) (tstream s))
    as (alt & ts & -> & Ets & Hr); [done|cbn; lia|].
  assert (ts = tstream s) as -> by done. cbn [mbind outcome_bind].
  replace (set_tstream (tstream s) s) with s by (by destruct s).
  destruct alt as [alt|]; [right; exists alt; split; [|done]|by left]. destruct Hr as [Hin Hle].
  assert (forallb (λ a, (a <? 1) || (a =? 1) || (a =? 2)) (accept cdfa4) = true) as Hall by by vm_compute.
  rewrite forallb_forall in Hall. apply list_elem_of_In, Hall in Hin.
  destruct (Z.ltb_spec alt 1); [lia|]. destruct (Z.eqb_spec alt 1) as [->|]; [by left|].
  destruct (Z.eqb_spec alt 2) as [->|]; [by right|done].
Qed.

Lemma runs_predict {B} s (k : option Z → M (option B)) F U P :
  pre s → runs s (k (Some 1)) F U P → runs s (k (Some 2)) F U P →
  runs s (try_bind predict_clause k) F U P.
Proof.
  intros Hs H1 H2. pose proof Hs as ((Ha & He) & _). unfold runs, try_bind.
  destruct (predict_clause_ok s Hs) as [-> | (alt & Halt & ->)]; cbn [mbind outcome_bind].
  - by apply (runs_raise (B := B)).
  - unfold HASEXCEPTION. rewrite He. destruct Halt as [-> | ->]; [exact H1|exact H2].
Qed.

Lemma clause_ok : does (clause fuel) [TEXT; 46] any (tree_g clause_g).
Proof.
  rule_start. apply runs_predict; [done|..]; cbn [default from_option id].
  - runs_part literal_ok. runs_token. runs_end. split; [|done]. by constructor.
  - runs_part literal_ok. runs_token. runs_part literal_ok.
    eapply runs_try; [done|apply (comma_loop_ok literal_g (literal fuel) [TEXT; 46] FOLLOW_41_in_clause341
      FOLLOW_literal_in_clause343 (clause_loop fuel))|done|].
    { done. } { apply literal_ok. } { done. } { by apply mu_bound. }
    intros root1 s4 Hs4 _ _ _. cbv beta zeta. runs_token. apply runs_return; [done..|].
    intros w5 (stop & -> & -> & Hstop) w4 [Hl Hr] w3 [Hw3 ->] w2 (t & -> & -> & Ht) w1 [Hw1 ->].
    rewrite (Hr (w1 ++ [t] ++ w3)).
    + cbn [default from_option id]. rewrite addChild_leaf. split; [by constructor|].
      by rewrite <-!app_assoc.
    + change nilNode with (row []). by rewrite addChild_group, addChild_leaf, addChild_group, <-app_assoc.
Qed.

(** ** Rules that rewrite *)

(** A rule that builds the tokens [o] from the phrase [w] that it reads. *)
Definition tree_o (g : list COMMON_TOKEN → list COMMON_TOKEN → Prop) (t : pTREE)
    (w : list COMMON_TOKEN) : Prop := ∃ o, g w o ∧ t = group o.
Definition root_o (g : list COMMON_TOKEN → list COMMON_TOKEN → Prop) (r : option pTREE)
    (w : list COMMON_TOKEN) : Prop := ∃ o, g w o ∧ r = Some (Some (row o)).

Lemma runs_rule_o body s F g :
  pre s → runs s body F any (root_o g) → EOF ∉ F → runs s (rule_exit body) F any (tree_o g).
Proof.
  intros Hpre H HE. eapply runs_exit; try done.
  eapply runs_weaken; [exact H|done..|]. intros r w _ (o & Hg & ->). by exists o.
Qed.

(** The last step of a rule that rewrites. *)
Lemma runs_const {B} s (m : M (option B)) b (U : option B → Prop)
    (P : option B → list COMMON_TOKEN → Prop) :
  m s = Ok (Some b, s) → pre s → U (Some b) → P (Some b) [] → runs s m [] U P.
Proof. intros E Hs HU HP. unfold runs. rewrite E. by apply runs_return. Qed.
Lemma runs_const_raise {B} s (m : M (option B)) b U P :
  m s = Ok (b, CONSTRUCTEX s) → pre s → runs s m [] U P.
Proof.
  intros E ((Ha & He) & _). exists b, (CONSTRUCTEX s). split; [done|].
  split; [by apply keeps_error|]. split; [done|]. split; [done|]. by intros ?%elem_of_nil.
Qed.

(** A stream that holds [l] and was not read yet. *)
Definition added (l : list BASE_TREE) (st : option REWRITE_STREAM) : Prop :=
  (st = None ∧ l = []) ∨ st = Some (mkStream l 0 false).

Lemma added_add l st t : added l st → ∃ l', added l' (add st t).
Proof.
  intros [[-> ->] | ->]; (destruct t as [t|]; eexists; right; reflexivity).
Qed.

Lemma add_all_total l st tok cs :
  added l st → ∃ cs' st', add_all (S (length (elements (default StreamNew st)))) (Tree tok cs) st
    = Ok (Tree tok cs', st').
Proof.
  intros [[-> ->] | ->]; [by exists cs, None|].
  eexists _, _. apply add_all_spec. cbn. lia.
Qed.

Lemma validity_rewrite_total t1 t2 :
  stream_hasNext (add (add None t1) t2) = true →
  ∃ root, validity_rewrite 2 nilNode (add (add None t1) t2) = Ok root.
Proof. destruct t1, t2; intros H; first [discriminate H|eexists; reflexivity]. Qed.

Lemma validity_ok : does validity [VALIDITY_HEADER] any (tree_o validity_g).
Proof.
  intros s Hs. apply runs_rule_o; [exact Hs| |apply (bool_decide_unpack _); by vm_compute].
  do 2 runs_token. runs_part time_tuple_ok. runs_token. runs_part time_tuple_ok. runs_token.
  destruct (stream_hasNext (add (add None a1) a3)) eqn:E.
  - destruct (validity_rewrite_total a1 a3 E) as [root Er].
    apply (runs_const _ _ (Some root)); [cbv beta zeta; cbn [negb]; by rewrite Er|done|done|].
    intros w6 (f & -> & -> & Hf) w5 [Hw5 ->] w4 (na & -> & -> & Hna) w3 [Hw3 ->] w2 (nb & -> & -> & Hnb)
      w1 (h & -> & -> & Hh).
    destruct (group_Some w3) as (t1 & E1 & F1); [by apply time_tuple_g_ne|].
    destruct (group_Some w5) as (t2 & E2 & F2); [by apply time_tuple_g_ne|].
    rewrite E1, E2 in Er. change (add (add None (Some t1)) (Some t2)) with (streamed [t1; t2]) in Er.
    change nilNode with (row []) in Er. rewrite (validity_rewrite_row t1 w3 t2 w5 F1 F2) in Er.
    injection Er as <-. eexists. split; [by constructor|done].
  - by eapply runs_const_raise.
Qed.

(** ** Certificates *)

Definition added_r (r : option (option REWRITE_STREAM)) : Prop :=
  ∃ l st, r = Some st ∧ added l st.
(** In a loop a stream grows by the trees of what was read. *)
Definition streams (g : list COMMON_TOKEN → list COMMON_TOKEN → Prop) (st : option REWRITE_STREAM)
    (r : option (option REWRITE_STREAM)) (w : list COMMON_TOKEN) : Prop :=
  ∃ o, g w o ∧ ∀ l0, st = streamed l0 → ∃ l, flat l = map leaf o ∧ (o ≠ [] → l ≠ []) ∧
    r = Some (streamed (l0 ++ l)).

Lemma streams_nil g st : g [] [] → streams g st (Some st) [].
Proof.
  intros Hg. exists []. split; [done|]. intros l0 ->. exists []. by rewrite app_nil_r.
Qed.

Lemma streams_cons (g h : list COMMON_TOKEN → list COMMON_TOKEN → Prop) st r w ws o :
  o ≠ [] → streams g (add st (group o)) r ws → (∀ os, g ws os → h (w ++ ws) (o ++ os)) →
  streams h st r (w ++ ws).
Proof.
  intros Ho (os & Hg & Hr) Hh. destruct (group_Some o Ho) as (t & Et & Ft).
  exists (o ++ os). split; [by apply Hh|]. intros l0 ->. rewrite Et, add_streamed in Hr.
  destruct (Hr (l0 ++ [t]) eq_refl) as (l & Fl & _ & ->). exists (t :: l). split_and?.
  - change (t :: l) with ([t] ++ l). by rewrite flat_app, Ft, Fl, map_app.
  - done.
  - by rewrite <-app_assoc.
Qed.

Definition clauses_o (cnt : nat) (w o : list COMMON_TOKEN) : Prop :=
  o = w ∧ (clauses_g w ∨ w = [] ∧ (1 ≤ cnt)%nat).

Lemma certificate_loop_ok n : ∀ cnt l st s, pre s → (mu s < n)%nat → added l st →
  runs s (certificate_loop fuel n cnt st) [] added_r (streams (clauses_o cnt) st).
Proof.
  induction n as [|n IH]; intros cnt l st s Hs Hn Hst; [lia|]. unfold runs. cbn [certificate_loop].
  destruct ((LA 1 s =? TEXT) || (LA 1 s =? 46)) eqn:E.
  - assert (LA 1 s ∈ [TEXT; 46]) as Hin.
    { apply orb_true_iff in E as [E%Z.eqb_eq|E%Z.eqb_eq]; rewrite E;
        apply (bool_decide_unpack _); by vm_compute. }
    eapply (runs_try s); [done|eapply does_invoke; [apply clause_ok|done]|apply list_subseteq_nil|].
    intros t s1 Hs1 _ _ Hm. specialize (Hm Hin). destruct (added_add l st t Hst) as [l' Hst'].
    eapply runs_weaken; [eapply (IH (S cnt)); [done|lia|done]|done..|].
    intros r ws _ Hr w [Hw ->]. eapply streams_cons; [by apply clause_g_ne|exact Hr|].
    intros os [-> Hws]. split; [done|left]. destruct Hws as [Hws|[-> _]].
    + by apply clauses_more.
    + rewrite app_nil_r. by apply clauses_one.
  - destruct (Nat.leb_spec 1 cnt).
    + apply runs_return; [done|by exists l, st|]. apply streams_nil. split; auto.
    + apply runs_raise, Hs.
Qed.

Lemma certificate_rewrite_total l st v p g :
  added l st → ∃ root e,
  certificate_rewrite 2 nilNode false st (streamed [v]) (streamed [p]) (streamed [g]) = Ok (root, e).
Proof.
  intros Hst. cbn [certificate_rewrite].
  change (stream_hasNext (streamed [v])) with true. cbn [orb].
  destruct (stream_hasNext st) eqn:E.
  - cbn [negb]. change nilNode with (row []). rewrite !addChild_label.
    destruct (add_all_total l st None (map leaf (([] ++ [label CERT (lit "CERT")]) ++ [label CLAUSE (lit "CLAUSE")])) Hst)
      as (cs & st' & Ea). unfold row at 1. rewrite Ea. eexists _, _. reflexivity.
  - eexists _, _. reflexivity.
Qed.

Lemma certificate_ok : does (certificate fuel) [CERT_HEADER] any (tree_o certificate_g).
Proof.
  intros s Hs. apply runs_rule_o; [exact Hs| |apply (bool_decide_unpack _); by vm_compute].
  runs_token. eapply runs_try; [done|apply (certificate_loop_ok fuel 0 [] None);
    [done|by apply mu_bound|by left]|apply list_subseteq_nil|].
  intros r s2 Hs2 (lc & st & -> & Hst) _ _. cbn [default from_option id].
  runs_part validity_ok. runs_part public_key_ok. runs_part signature_ok. runs_token.
  destruct a0 as [v|]; [|by eapply runs_const_raise].
  destruct a1 as [p|]; [|by eapply runs_const_raise].
  destruct a2 as [g|]; [|by eapply runs_const_raise].
  destruct (certificate_rewrite_total lc st v p g Hst) as (root & e & E).
  destruct e.
  { eapply runs_const_raise; [|done]. cbv beta zeta.
    change (add None (Some ?t)) with (streamed [t]). rewrite E. reflexivity. }
  apply (runs_const _ _ (Some root)); [|done|done|].
  { cbv beta zeta. change (add None (Some ?t)) with (streamed [t]). rewrite E. reflexivity. }
  intros w6 (f & -> & -> & Hf) w5 [Hsg Eg] w4 [Hpk Ep] w3 (vo & Hv & Ev) w2 (o & [-> Hcl] & Hr)
    w1 (h & -> & -> & Hh).
  destruct Hcl as [Hcl|[_ ?]]; [|lia].
  destruct (Hr [] eq_refl) as (l & Fl & Hne & [= ->]).
  destruct (group_Some vo) as (tv & Ev' & Fv); [by eapply validity_g_ne|].
  destruct (group_Some w4) as (tp & Ep' & Fp); [by eapply framed_g_ne|].
  destruct (group_Some w5) as (tg & Eg' & Fg); [by eapply framed_g_ne|].
  assert (v = tv) as -> by congruence. assert (p = tp) as -> by congruence.
  assert (g = tg) as -> by congruence. change nilNode with (row []) in E. cbn [app] in E.
  assert (w2 ≠ []) as Hw2.
  { destruct Hcl as [c Hc|c cs Hc _]; intros Ec; [|apply app_eq_nil in Ec as [Ec _]];
      by apply (clause_g_ne c Hc). }
  rewrite (certificate_rewrite_row l w2 tv vo tp w4 tg w5) in E by auto.
  injection E as <-. eexists. split; [|done]. by constructor.
Qed.

Lemma credential_loop_ok n : ∀ l st s, pre s → (mu s < n)%nat → added l st →
  runs s (credential_loop fuel n st) [] added_r (streams certificates_g st).
Proof.
  induction n as [|n IH]; intros l st s Hs Hn Hst; [lia|]. unfold runs. cbn [credential_loop].
  destruct (Z.eqb_spec (LA 1 s) CERT_HEADER) as [E|E].
  - eapply (runs_try s); [done|eapply does_invoke; [apply certificate_ok|done]|apply list_subseteq_nil|].
    intros t s1 Hs1 _ _ Hm. specialize (Hm ltac:(rewrite E; apply list_elem_of_here)).
    destruct (added_add l st t Hst) as [l' Hst'].
    eapply runs_weaken; [eapply IH; [done|lia|done]|done..|].
    intros r ws _ Hr w (o & Hw & ->). eapply streams_cons; [by eapply certificate_g_ne|exact Hr|].
    intros os Hos. by constructor.
  - apply runs_return; [done|by exists l, st|]. apply streams_nil. constructor.
Qed.

(** The last step of a credential. *)
Definition credential_root (pk : pTREE) (st : option REWRITE_STREAM) : outcome BASE_TREE :=
  '(root_1, _) ← add_all (S (length (elements (default StreamNew st))))
     (addChild (Tree (Some (label CREDENTIAL (lit "CREDENTIAL"))) []) pk) st;
  Ok (addChild root_1 (Some (createTypeText END (lit "END")))).

Lemma credential_root_total l st pk : added l st → ∃ cs,
  credential_root pk st = Ok (Tree (Some (label CREDENTIAL (lit "CREDENTIAL"))) cs).
Proof.
  intros Hst. unfold credential_root.
  assert (∃ cs, addChild (Tree (Some (label CREDENTIAL (lit "CREDENTIAL"))) []) pk
    = Tree (Some (label CREDENTIAL (lit "CREDENTIAL"))) cs) as [cs ->].
  { destruct pk as [pk|]; [rewrite addChild_node|]; by eexists. }
  destruct (add_all_total l st (Some (label CREDENTIAL (lit "CREDENTIAL"))) cs Hst) as (cs' & st' & ->).
  by eexists.
Qed.

Lemma credential_root_row pk st w l o :
  flat [pk] = map leaf w → flat l = map leaf o → st = streamed l →
  credential_root (Some pk) st = Ok (credential_tree (w ++ o ++ [label END (lit "END")])).
Proof.
  intros Hp Hl ->. unfold credential_root. rewrite addChild_node, Hp. cbn [app].
  destruct (add_all_streamed (Some (label CREDENTIAL (lit "CREDENTIAL"))) w l o Hl) as [st' ->].
  cbn [mbind outcome_bind]. rewrite addChild_node.
  change (flat [createTypeText END (lit "END")]) with (map leaf [label END (lit "END")]).
  by rewrite <-map_app, <-app_assoc.
Qed.

(** A credential: always a tree, and without an error that of the grammar. *)
Definition credential_tree_g (t : pTREE) (w : list COMMON_TOKEN) : Prop :=
  ∃ o, credential_g w o ∧ t = Some (credential_tree o).

Lemma credential_ok : does (credential fuel) [] (λ t, t ≠ None) credential_tree_g.
Proof.
  intros s Hs.
  apply (runs_exit _ _ _ (λ r, ∃ c, r = Some (Some (Tree None [c])))); try done; cycle 1.
  { apply not_elem_of_nil. } { by intros r [c ->]. }
  runs_token. runs_part public_key_ok.
  eapply runs_try; [done|apply (credential_loop_ok fuel [] None);
    [done|by apply mu_bound|by left]|apply list_subseteq_nil|].
  intros r s2 Hs2 (lc & st & -> & Hst) _ _. cbn [default from_option id]. runs_token.
  destruct (credential_root_total lc st a0 Hst) as [cs E].
  apply (runs_const _ _ (Some (Tree None [Tree (Some (label CREDENTIAL (lit "CREDENTIAL"))) cs])));
    [|done|by eexists|].
  { revert E. unfold credential_root. cbn [becomeRoot createTypeText create isNilNode token].
    cbn [mbind outcome_bind deref].
    change (addChild _ (Some nilNode)) with (Tree (Some (label CREDENTIAL (lit "CREDENTIAL"))) []).
    replace (stream_nextTree (add None a0)) with (a0, snd (stream_nextTree (add None a0)))
      by (by destruct a0).
    destruct (add_all _ _ st) as [[root st']|?|?]; cbn [mbind outcome_bind]; [|done..].
    intros Hroot.
    assert (∀ x y : BASE_TREE, Ok x = Ok y → x = y) as Hinj by congruence.
    apply Hinj in Hroot. rewrite Hroot. reflexivity. }
  intros w4 (f & -> & -> & Hf) w3 (o & Ho & Hr) w2 [Hpk Ep] w1 (h & -> & -> & Hh).
  destruct (Hr [] eq_refl) as (l & Fl & _ & [= ->]).
  destruct (group_Some w2) as (tp & Ep' & Fp); [by eapply framed_g_ne|].
  rewrite Ep, Ep', (credential_root_row tp _ w2 l o Fp Fl eq_refl) in E. injection E as <-.
  eexists. split; [by constructor|done].
Qed.
End total.
