(* ===== verification/ParserProps.v ===== *)
(** The properties of the parser as a whole. *)
From S2P Require Import Prelude CppString CyclicDFA Lexer TokenStream Tree Bitset Recognizer.
From S2P Require Import ParserTables Parser Grammar ParserSpec ParserTotal.

(** ** Lemmas: the first state *)

Definition start (toks : list COMMON_TOKEN) : PARSER :=
  RepositoryManagerParserNew (TokenStreamNew toks).

Lemma good_start toks : good (start toks).
Proof. split; [apply skip_at_token|done]. Qed.

Lemma rest_start toks : rest (start toks) = visible toks.
Proof. apply ahead_new. Qed.

Lemma pre_start toks fuel :
  visible toks ≠ [] → Forall (λ t, tok_type t ≠ EOF) (visible toks) →
  (2 * length (visible toks) + 2 ≤ fuel)%nat → pre fuel (start toks).
Proof.
  intros Hv Hne Hf. unfold pre. split; [apply good_start|]. split; [reflexivity|]. by split_and?.
Qed.

(** Without a token of the channel the header of a credential is missing: an
    error and the error node. *)
Lemma credential_empty toks fuel :
  visible toks = [] → ∃ s', credential fuel (start toks) = Ok (Some errorNode, s') ∧
    errorCount s' = 1.
Proof.
  intros Hv. pose proof (good_start toks) as [Ha He].
  pose proof (rest_start toks) as Hr. rewrite Hv in Hr.
  assert (LA 1 (start toks) = EOF) as H1.
  { unfold LA, tokLA. rewrite LT_ahead1 by done. unfold rest in Hr. by rewrite Hr. }
  assert (LA 2 (start toks) = EOF) as H2.
  { unfold LA, tokLA. rewrite LT_ahead2 by done. unfold rest in Hr. by rewrite Hr. }
  unfold credential, rule_exit, try_bind at 1, MATCHT. rewrite H1.
  change (EOF =? CREDENTIAL_HEADER) with false. cbv iota.
  unfold recoverFromMismatchedToken, mismatchIsUnwantedToken, mismatchIsMissingToken.
  rewrite H1, H2. change (EOF =? CREDENTIAL_HEADER) with false. cbv iota.
  change (BitsetMember (BitsetLoad FOLLOW_CREDENTIAL_HEADER_in_credential121) ANTLR3_EOR_TOKEN_TYPE)
    with false. cbv iota.
  change (BitsetMember (BitsetLoad FOLLOW_CREDENTIAL_HEADER_in_credential121) EOF) with false.
  change (BitsetMember (BitsetLoad FOLLOW_CREDENTIAL_HEADER_in_credential121) ANTLR3_EOR_TOKEN_TYPE)
    with false. cbn [orb mbind outcome_bind HASEXCEPTION set_error error].
  destruct (recover_ok (reportError (set_error true (start toks)))) as (s' & -> & _ & _ & Hc & _); [done|].
  cbn [mbind outcome_bind]. by exists s'.
Qed.

(** A run without an error that reads everything shows that the tokens of the
    channel are a phrase of the grammar. *)
Lemma parsed_phrase toks fuel t s' :
  visible toks ≠ [] → Forall (λ t, tok_type t ≠ EOF) (visible toks) →
  (2 * length (visible toks) + 2 ≤ fuel)%nat →
  credential fuel (start toks) = Ok (Some t, s') → errorCount s' = 0 → rest s' = [] →
  ∃ o, credential_g (visible toks) o ∧ t = credential_tree o.
Proof.
  intros Hv Hne Hf E Hc Hr. pose proof (pre_start toks fuel Hv Hne Hf) as Hpre.
  destruct (credential_ok fuel (start toks) Hpre) as (t' & s2 & E' & _ & _ & HP & _).
  rewrite E in E'. injection E' as <- <-.
  destruct HP as (w & Hw & o & Ho & [= ->]); [by apply (rule_exit_error _ _ _ _ E)|done|].
  rewrite rest_start, Hr, app_nil_r in Hw. subst w. by exists o.
Qed.

(** The parser returns a tree on every list of tokens. *)
Lemma credential_returns toks fuel :
  Forall (λ t, tok_type t ≠ EOF) (visible toks) → (2 * length (visible toks) + 2 ≤ fuel)%nat →
  ∃ t s', credential fuel (start toks) = Ok (Some t, s').
Proof.
  intros Hne Hf. destruct (decide (visible toks = [])) as [Hv|Hv].
  { destruct (credential_empty toks fuel Hv) as (s' & E & _). by exists errorNode, s'. }
  destruct (credential_ok fuel (start toks) (pre_start toks fuel Hv Hne Hf)) as (t & s' & E & _ & HU & _).
  destruct t as [t|]; [by exists t, s'|]. by destruct (HU (rule_exit_error _ _ _ _ E)).
Qed.

(** ** Properties *)

(** C2: the parser is total, sound and complete. On the tokens of any message,
    none of which on the channel of the parser is typed as the end of the
    input, [credential] returns with a tree when the fuel is above twice their
    number: no error recovery loops, reads outside a table or dereferences a
    null pointer. It reports no error exactly when the tokens of the channel
    start with a phrase of the grammar, and then its tree is the flat tree of
    that phrase and the tokens after it are left. *)
Theorem credential_exact toks fuel :
  Forall (λ t, tok_type t ≠ EOF) (visible toks) → (2 * length (visible toks) + 2 ≤ fuel)%nat →
  ∃ t s', credential fuel (start toks) = Ok (Some t, s') ∧ 0 ≤ errorCount s' ∧
    (errorCount s' = 0 ↔ ∃ w o k, visible toks = w ++ k ∧ credential_g w o) ∧
    (errorCount s' = 0 → ∃ w o, visible toks = w ++ rest s' ∧ credential_g w o ∧ t = credential_tree o).
Proof.
  intros Hne Hf. destruct (decide (visible toks = [])) as [Hv|Hv].
  { destruct (credential_empty toks fuel Hv) as (s' & E & Hc). exists errorNode, s'.
    rewrite Hc, Hv. split_and?; [done|done| |done]. split; [done|].
    intros (w & o & k & Ewk & Hw). symmetry in Ewk. apply app_eq_nil in Ewk as [-> _]. inversion Hw. }
  pose proof (pre_start toks fuel Hv Hne Hf) as Hpre.
  destruct (credential_ok fuel (start toks) Hpre) as (t & s' & E & Hk & HU & HP & _).
  assert (error s' = false) as He by apply (rule_exit_error _ _ _ _ E).
  destruct t as [t|]; [|by destruct (HU He)]. exists t, s'.
  assert (errorCount s' = 0 → ∃ w o, visible toks = w ++ rest s' ∧ credential_g w o ∧ t = credential_tree o) as Hs.
  { intros Hc. destruct (HP He) as (w & Hr & o & Ho & [= ->]); [done|].
    rewrite rest_start in Hr. by exists w, o. }
  split_and?; [done|apply Hk| |done]. split.
  - intros Hc. destruct (Hs Hc) as (w & o & Hw & Ho & _). by exists w, o, (rest s').
  - intros (w & o & k & Hwk & Ho).
    destruct (credential_parses fuel w o Ho) with (s := start toks) (k := k) as (s2 & E2 & _ & _ & Hc2).
    { rewrite Hwk, length_app in Hf. lia. } { apply good_start. } { by rewrite rest_start. } { done. }
    rewrite E in E2. injection E2 as _ <-. exact Hc2.
Qed.

(** The tokens of a credential without certificates, with white space between
    them, and what its tree is made of. *)
Definition sample_tokens : list COMMON_TOKEN :=
  [mkToken CREDENTIAL_HEADER 0 (lit "-----BEGIN CREDENTIAL-----"); mkToken WS 99 [nl];
   mkToken PUBLIC_KEY_HEADER 0 (lit "-----BEGIN PUBLIC KEY-----"); mkToken WS 99 [nl];
   mkToken TEXT 0 (lit "MIGfMA0G"); mkToken PUBLIC_KEY_END 0 (lit "-----END PUBLIC KEY-----");
   mkToken CREDENTIAL_END 0 (lit "-----END CREDENTIAL-----"); mkToken WS 99 [nl]].

Lemma credential_exact_witness :
  ∃ t s', credential 12 (start sample_tokens) = Ok (Some t, s') ∧ errorCount s' = 0 ∧
    tree_text t = lit "CREDENTIAL" ∧
    map tree_text (children t)
    = [lit "-----BEGIN PUBLIC KEY-----"; lit "MIGfMA0G"; lit "-----END PUBLIC KEY-----"; lit "END"].
Proof.
  destruct (credential_exact sample_tokens 12) as (t & s' & E & _ & [_ Hc] & Ht).
  { apply (bool_decide_unpack _). by vm_compute. }
  { apply Nat.leb_le. by vm_compute. }
  assert (errorCount s' = 0) as H0.
  { apply Hc. eexists (visible sample_tokens), _, []. split; [by rewrite app_nil_r|].
    apply (credential_intro _ [mkToken PUBLIC_KEY_HEADER 0 (lit "-----BEGIN PUBLIC KEY-----");
      mkToken TEXT 0 (lit "MIGfMA0G"); mkToken PUBLIC_KEY_END 0 (lit "-----END PUBLIC KEY-----")] [] []);
      [reflexivity| |constructor|reflexivity].
    eexists _, [_], _. split; [reflexivity|]. split; [reflexivity|]. split; [|reflexivity].
    split; [discriminate|]. by constructor. }
  exists t, s'. split; [exact E|]. split; [exact H0|].
  vm_compute in E. injection E as <- _. split; reflexivity.
Defined.
