(* ===== verification/Message.v ===== *)
(** The message of a credential from its text to the credential: the lexer, the
    parser and the walk over the tree together, as [processMsg] of
    src/manager/TransportService.h runs them. *)
From S2P Require Import Prelude CppString Utils Certificate Credential AstWalker.
From S2P Require Import CyclicDFA LexerTables InputStream Lexer LexerSpec LexerProps.
From S2P Require Import TokenStream Tree Recognizer ParserTables Parser Grammar.
From S2P Require Import ParserSpec ParserProps.

(** The tree of a message, as the walker sees it; [fuel] bounds the tokens and
    the rounds of each loop. *)
Definition parse (fuel : nat) (msg : str) : outcome ast :=
  toks ← tokenize fuel msg;
  '(tree, _) ← credential fuel (RepositoryManagerParserNew (TokenStreamNew toks));
  tt ← deref tree;
  Ok (mkAst (tree_text tt) (map tree_text (Tree.children tt))).

(** ** Printed messages *)

Lemma visible_interleave toks : Forall token_ok toks → visible (interleave toks) = toks.
Proof.
  intros H. rewrite <-(interleave_channel toks H) at 2. unfold visible.
  apply list_filter_iff. intros t. unfold on_channel, TOKEN_DEFAULT_CHANNEL. apply Z.eqb_eq.
Qed.

Lemma parse_printed fuel w o :
  credential_g w o → Forall token_ok w → (2 * length w < fuel)%nat →
  parse fuel (print w) = Ok (mkAst CREDENTIAL_S (map tok_text o)).
Proof.
  intros Hw Hok Hf. unfold parse, tokenize.
  rewrite (fillBuffer_print fuel w) by (done || apply ready_new). cbn [mbind outcome_bind].
  destruct (credential_parses fuel w o Hw ltac:(lia)
    (RepositoryManagerParserNew (TokenStreamNew (interleave w))) []) as (s' & -> & _).
  - split; [apply skip_at_token|done].
  - unfold rest. cbn [tstream RepositoryManagerParserNew ParserNewStream].
    by rewrite ahead_new, visible_interleave, app_nil_r.
  - done.
  - cbn. by rewrite map_map.
Qed.

(** ** The texts of the phrases *)

(** A keyword has one text. *)
Definition spells (ty : Z) (txt : str) : bool :=
  forallb (λ k : str * Z * Z, negb (k.2 =? ty) || bool_decide (k.1.1 = txt)) keywords
  && negb (ty =? TEXT) && negb (ty =? NUM).

Lemma keyword_text ty txt t :
  spells ty txt = true → token_ok t → of_type ty t → tok_text t = txt.
Proof.
  unfold spells, of_type. rewrite !andb_true_iff, forallb_forall.
  intros [[Hk H1%negb_true_iff%Z.eqb_neq] H2%negb_true_iff%Z.eqb_neq] [_ H] <-.
  destruct H as [H|[[? _]|[? _]]]; [|done..].
  apply Exists_exists in H as (k & Hin & <- & Hty).
  specialize (Hk k (proj1 (list_elem_of_In _ _) Hin)).
  rewrite Hty, Z.eqb_refl in Hk. cbn [negb orb] in Hk. by apply bool_decide_eq_true in Hk.
Qed.

(** Only the full stop has the text of one, and no word is a keyword in dashes. *)
Lemma dot_type t : token_ok t → tok_text t = lit "." → tok_type t = 42.
Proof.
  intros [_ H] Ht. destruct H as [H|[[_ (H & _)]|[_ [_ H]]]]; rewrite ?Ht in H.
  - assert (Forall (λ k : str * Z * Z, k.1.1 = lit "." → k.2 = 42) keywords) as Hk.
    { apply (bool_decide_unpack _). by vm_compute. }
    apply Exists_exists in H as (k & Hin & Hk1 & <-). rewrite Forall_forall in Hk.
    apply (Hk k Hin). congruence.
  - apply Forall_cons in H as [H _]. by vm_compute in H.
  - apply Forall_cons in H as [H _]. by vm_compute in H.
Qed.

Lemma text_word t : token_ok t → of_type TEXT t → word (tok_text t).
Proof.
  unfold of_type. intros [_ [H|[[_ H]|[? _]]]] Ht; [|done|by rewrite Ht in *].
  exfalso. assert (Forall (λ k : str * Z * Z, k.2 ≠ TEXT) keywords) as Hk.
  { apply (bool_decide_unpack _). by vm_compute. }
  apply Exists_exists in H as (k & Hin & _ & Hty). rewrite Forall_forall in Hk.
  apply (Hk k Hin). congruence.
Qed.

Lemma base64_words w x :
  base64_g w → Forall token_ok w → head x = Some "-"%char → x ∉ map tok_text w.
Proof.
  intros [_ Hb] Hok Hx (t & -> & Ht)%list_elem_of_fmap. rewrite Forall_forall in Hb, Hok.
  destruct (text_word t) as (_ & _ & Hd & _); auto.
Qed.

(** The tokens before a full stop hold none. *)
Lemma no_dot w : Forall token_ok w → Forall (λ t, tok_type t ≠ 42) w → lit "." ∉ map tok_text w.
Proof.
  intros Hok Hw (t & Ht & Hin)%list_elem_of_fmap. rewrite Forall_forall in Hok, Hw.
  apply (Hw t Hin), dot_type; auto.
Qed.

Definition not_dot (w : list COMMON_TOKEN) : Prop := Forall (λ t, tok_type t ≠ 42) w.

Lemma not_dot_type ty t : of_type ty t → ty ≠ 42 → tok_type t ≠ 42.
Proof. by intros ->. Qed.

Lemma list_not_dot (part : list COMMON_TOKEN → Prop) w :
  (∀ u, part u → not_dot u) → list_g part w → not_dot w.
Proof.
  intros Hp. induction 1 as [|c x w Hc Hx Hw IH]; [constructor|].
  constructor; [by eapply not_dot_type|]. apply Forall_app. split; [by apply Hp|done].
Qed.

Lemma text_not_dot w : text_g w → not_dot w.
Proof. intros (t & -> & Ht). apply Forall_singleton. by eapply not_dot_type. Qed.

Lemma predicate_not_dot w : predicate_g w → not_dot w.
Proof.
  intros (f & lp & a & args & rp & -> & Hf & Hlp & Ha & Hargs & Hrp).
  do 3 (constructor; [by eapply not_dot_type|]). apply Forall_app. split.
  - by apply (list_not_dot text_g), Hargs; apply text_not_dot.
  - apply Forall_singleton. by eapply not_dot_type.
Qed.

Lemma literal_not_dot w : literal_g w → not_dot w.
Proof.
  destruct 1 as [w Hp|s0 lp t c w rp H0 Hlp Ht Hc Hp Hrp]; [by apply predicate_not_dot|].
  do 4 (constructor; [by eapply not_dot_type|]). apply Forall_app.
  split; [by apply predicate_not_dot|]. apply Forall_singleton. by eapply not_dot_type.
Qed.

(** A clause is a list of texts and a full stop. *)
Lemma clause_texts w :
  clause_g w → Forall token_ok w → Forall (λ t, tok_text t ≠ START_TIME_S) w →
  ∃ cl, map tok_text w = stopped cl ∧ (lit "." ∉ cl) ∧ hd_error cl ≠ Some START_TIME_S.
Proof.
  intros Hw Hok Hr. assert (∃ u stop, w = u ++ [stop] ∧ not_dot u ∧ of_type 42 stop) as (u & stop & -> & Hu & Hs).
  { destruct Hw as [w stop Hw Hs|h arrow b l stop Hh Har Hb Hl Hs].
    - exists w, stop. split_and?; [done|by apply literal_not_dot|done].
    - exists (h ++ arrow :: b ++ l), stop. split_and?; [by rewrite <-app_assoc; cbn [app]; rewrite <-app_assoc| |done].
      apply Forall_app. split; [by apply literal_not_dot|].
      constructor; [by eapply not_dot_type|]. apply Forall_app.
      split; [by apply literal_not_dot|]. apply (list_not_dot literal_g); [apply literal_not_dot|done]. }
  apply Forall_app in Hok as [Hoku Hoks]. apply Forall_app in Hr as [Hru _].
  exists (map tok_text u). split_and?.
  - rewrite map_app. unfold stopped. cbn [map].
    by rewrite (keyword_text 42 (lit ".") stop) by (done || by apply Forall_singleton).
  - by apply no_dot.
  - destruct Hru as [|t u Ht _]; [done|].
    change (Some (tok_text t) ≠ Some START_TIME_S). congruence.
Qed.

Lemma clauses_texts w :
  clauses_g w → Forall token_ok w → Forall (λ t, tok_text t ≠ START_TIME_S) w →
  ∃ cls, map tok_text w = concat (map stopped cls) ∧
    Forall (λ cl, (lit "." ∉ cl) ∧ hd_error cl ≠ Some START_TIME_S) cls.
Proof.
  induction 1 as [w Hw|w ws Hw Hws IH]; intros Hok Hr.
  - destruct (clause_texts w Hw Hok Hr) as (cl & -> & Hcl). exists [cl]. cbn.
    rewrite app_nil_r. split; [done|]. by apply Forall_singleton.
  - apply Forall_app in Hok as [Hok1 Hok2]. apply Forall_app in Hr as [Hr1 Hr2].
    destruct (clause_texts w Hw Hok1 Hr1) as (cl & E & Hcl).
    destruct (IH Hok2 Hr2) as (cls & E2 & Hcls). exists (cl :: cls).
    rewrite map_app, E, E2. split; [done|]. by constructor.
Qed.

Lemma time_texts w :
  time_tuple_g w → Forall token_ok w → ∃ l, map tok_text w = stopped l ∧ lit "." ∉ l.
Proof.
  intros Hw Hok. assert (∃ u stop, w = u ++ [stop] ∧ not_dot u ∧ of_type 42 stop) as (u & stop & -> & Hu & Hs).
  { assert (∀ tys w, Forall (λ ty, ty ≠ 42) tys → types_g (tys ++ [42]) w →
      ∃ u stop, w = u ++ [stop] ∧ not_dot u ∧ of_type 42 stop) as H.
    { induction tys as [|ty tys IH]; intros v Hty Hv; inversion Hv as [|? ? t v' Ht Hv']; subst.
      - inversion Hv'; subst. exists [], t. split_and?; [done|constructor|done].
      - apply Forall_cons in Hty as [Hty Htys].
        destruct (IH v' Htys Hv') as (u & stop & -> & Hu & Hs). exists (t :: u), stop.
        split_and?; [done| |done]. constructor; [by eapply not_dot_type|done]. }
    apply (H [44; 39; NUM; 41; NUM; 41; NUM; 41; NUM; 41; NUM; 41; NUM; 40]); [|done].
    apply (bool_decide_unpack _). by vm_compute. }
  apply Forall_app in Hok as [Hoku Hoks]. exists (map tok_text u). split.
  - rewrite map_app. unfold stopped. cbn [map].
    by rewrite (keyword_text 42 (lit ".") stop) by (done || by apply Forall_singleton).
  - by apply no_dot.
Qed.

Lemma framed_texts h f th tf w :
  framed_g h f w → spells h th = true → spells f tf = true → Forall token_ok w →
  ∃ b, map tok_text w = th :: map tok_text b ++ [tf] ∧ base64_g b ∧ Forall token_ok b ∧ b ⊆ w.
Proof.
  intros (t & b & u & -> & Ht & Hb & Hu) Hh Hf [Hokt [Hokb [Hoku _]%Forall_cons]%Forall_app]%Forall_cons.
  exists b. split_and?; [|done|done|].
  - cbn [map]. rewrite map_app. cbn [map].
    by rewrite (keyword_text h th t), (keyword_text f tf u) by done.
  - intros x Hx. rewrite elem_of_cons, elem_of_app. auto.
Qed.

Lemma certificate_texts w o :
  certificate_g w o → Forall token_ok w → Forall (λ t, tok_text t ≠ START_TIME_S) w →
  ∃ c, map tok_text o = cert_children c ∧ cert_src_ok c.
Proof.
  destruct 1 as [h cls v vo pk sg f Hh Hcls Hv Hpk Hsg Hf]. intros Hok Hr.
  apply Forall_cons in Hok as [_ Hok]. rewrite !Forall_app in Hok.
  destruct Hok as (Hok1 & Hok2 & Hok3 & Hok4 & _).
  apply Forall_cons in Hr as [_ Hr]. rewrite !Forall_app in Hr. destruct Hr as (Hr1 & _).
  destruct (clauses_texts cls Hcls Hok1 Hr1) as (cl & Ecl & Hcl).
  destruct (framed_texts _ _ PK_HEADER_S PK_END_S pk Hpk eq_refl eq_refl Hok3)
    as (pkb & Epk & Hpkb & Hokp & _).
  destruct (framed_texts _ _ SIG_S END_SIG_S sg Hsg eq_refl eq_refl Hok4)
    as (sgb & Esg & Hsgb & Hoks & _).
  destruct Hv as [h' nb t1 na t2 f' _ _ H1 _ H2 _].
  apply Forall_cons in Hok2 as [_ [_ Hok2]%Forall_cons].
  apply Forall_app in Hok2 as [Ho1 [_ [Ho2 _]%Forall_app]%Forall_cons].
  destruct (time_texts t1 H1 Ho1) as (l1 & E1 & Hd1).
  destruct (time_texts t2 H2 Ho2) as (l2 & E2 & Hd2).
  exists (mkCertSrc cl l1 l2 (map tok_text pkb) (map tok_text sgb)). split.
  - repeat (cbn [map app]; rewrite ?map_app). cbn [map].
    rewrite Ecl, Epk, Esg, E1, E2.
    unfold cert_children. cbn [s_clauses s_start s_stop s_pk s_sig app].
    repeat (cbn [app]; rewrite <-?app_assoc). done.
  - unfold cert_src_ok. cbn [s_clauses s_start s_stop s_pk s_sig]. split_and?; try done;
      by apply base64_words.
Qed.

Lemma certificates_texts ws os :
  certificates_g ws os → Forall token_ok ws → Forall (λ t, tok_text t ≠ START_TIME_S) ws →
  ∃ cs, map tok_text os = concat (map cert_children cs) ∧ Forall cert_src_ok cs ∧
    (ws ≠ [] → cs ≠ []).
Proof.
  induction 1 as [|w o ws os Hw Hws IH]; intros Hok Hr; [by exists []|].
  apply Forall_app in Hok as [Hok1 Hok2]. apply Forall_app in Hr as [Hr1 Hr2].
  destruct (certificate_texts w o Hw Hok1 Hr1) as (c & E & Hc).
  destruct (IH Hok2 Hr2) as (cs & E2 & Hcs & _). exists (c :: cs).
  rewrite map_app, E, E2. split_and?; [done|by constructor|done].
Qed.

(** The texts of the tree are those of a public key and certificates. *)
Lemma credential_texts w o :
  credential_g w o → Forall token_ok w →
  Forall (λ t, tok_text t ≠ CERT_S ∧ tok_text t ≠ START_TIME_S) w →
  ∃ pk certs, map tok_text o = cred_children pk certs ∧ (CERT_S ∉ pk) ∧
    Forall cert_src_ok certs ∧
    ((∃ t, t ∈ w ∧ of_type CERT_HEADER t) → certs ≠ []).
Proof.
  destruct 1 as [h pk ws os f Hh Hpk Hws Hf]. intros Hok Hr.
  apply Forall_cons in Hok as [Hokh Hok]. rewrite !Forall_app in Hok. destruct Hok as (Hok1 & Hok2 & _).
  apply Forall_cons in Hr as [_ Hr]. rewrite !Forall_app in Hr. destruct Hr as (Hr1 & Hr2 & _).
  destruct (framed_texts _ _ PK_HEADER_S PK_END_S pk Hpk eq_refl eq_refl Hok1)
    as (b & Eb & Hb & Hokb & Hsub).
  destruct (certificates_texts ws os Hws Hok2) as (cs & Ecs & Hcs & Hne).
  { eapply Forall_impl; [exact Hr2|]. by intros t []. }
  exists (map tok_text b), cs. split_and?.
  - cbn [map]. rewrite !map_app, Eb, Ecs. cbn [map].
    unfold cred_children. cbn [app]. by rewrite <-!app_assoc.
  - intros (t & Ht & Hin)%list_elem_of_fmap. rewrite Forall_forall in Hr1.
    destruct (Hr1 t (Hsub t Hin)) as [H _]. by apply H.
  - done.
  - intros (t & Hin & Ht). apply Hne. intros ->. unfold of_type in *.
    apply elem_of_cons in Hin as [-> | Hin]; [by rewrite Ht in Hh|].
    apply elem_of_app in Hin as [Hin|Hin].
    + destruct Hpk as (p1 & b' & p2 & -> & Hp1 & [_ Hb'] & Hp2). unfold of_type in *.
      rewrite Forall_forall in Hb'.
      apply elem_of_cons in Hin as [-> | [Hin|Hin%list_elem_of_singleton]%elem_of_app].
      * by rewrite Ht in Hp1.
      * specialize (Hb' t Hin). by rewrite Ht in Hb'.
      * subst. by rewrite Ht in Hp2.
    + cbn in Hin. apply list_elem_of_singleton in Hin as ->. by rewrite Ht in Hf.
Qed.

(** The tree has fewer tokens than the text. *)
Lemma certificate_length w o : certificate_g w o → (length o < length w)%nat.
Proof.
  destruct 1 as [h cls v vo pk sg f _ _ [h' nb t1 na t2 f' _ _ _ _ _ _] _ _ _].
  repeat (cbn [length app]; rewrite ?length_app). lia.
Qed.
Lemma certificates_length ws os : certificates_g ws os → (length os ≤ length ws)%nat.
Proof.
  induction 1 as [|w o ws os Hw%certificate_length Hws IH]; [done|]. rewrite !length_app. lia.
Qed.
Lemma credential_length w o : credential_g w o → (length o < length w)%nat.
Proof.
  destruct 1 as [h pk ws os f _ _ Hws%certificates_length _].
  repeat (cbn [length app]; rewrite ?length_app). lia.
Qed.

(** ** Properties *)

(** C3: a credential that is printed is read. The tokens of any phrase of the
    grammar, if the text of each is a keyword, a word or a number as its type says,
    and each is printed on a line of its own, are divided by the lexer and
    parsed into the flat tree of the phrase, for every fuel above twice their
    number. If moreover none of the texts is the label of a certificate or of its
    start time, the phrase has a certificate, and its length fits an int, then the
    walk turns that tree into the credential that has the public key, the clauses,
    the times and the signatures of the text. *)
Theorem credential_message w o fuel gmtoff cur :
  credential_g w o → Forall token_ok w → (2 * length w < fuel)%nat →
  parse fuel (print w) = Ok (mkAst CREDENTIAL_S (map tok_text o)) ∧
  (Forall (λ t, tok_text t ≠ CERT_S ∧ tok_text t ≠ START_TIME_S) w →
   (∃ t, t ∈ w ∧ of_type CERT_HEADER t) → Z.of_nat (length w) < INT_MAX →
   ∃ pk certs, map tok_text o = cred_children pk certs ∧ certs ≠ [] ∧
    (tt ← parse fuel (print w); getCredential tt fuel gmtoff cur)
    = (c ← finalize gmtoff cur
             (mkCredential (block PK_HEADER_S pk PK_END_S) [] (map cert_of certs));
       Ok (Some c))).
Proof.
  intros Hw Hok Hf. split; [by apply parse_printed|]. intros Hr Hc Hsize. pose proof (credential_length w o Hw).
  destruct (credential_texts w o Hw Hok Hr) as (pk & certs & E & Hpk & Hcs & Hne).
  exists pk, certs. rewrite (parse_printed fuel w o Hw Hok Hf).
  split_and?; [done|by apply Hne|]. cbn [mbind outcome_bind]. rewrite E.
  apply (f_equal length) in E as El. rewrite length_map in El.
  apply getCredential_walk; auto; cbn [children]; lia.
Qed.

(** A credential with one certificate of a fact and a rule. *)
Definition sample_text : str := lit "-----BEGIN MPKI CREDENTIAL-----
-----BEGIN PUBLIC KEY-----
bobkey
-----END PUBLIC KEY-----
-----BEGIN MPKI CERTIFICATE-----
employee(bob).
allow(bob,read) :- employee(bob), says(cakey,employee(bob)).
-----BEGIN VALIDITY-----
Not before: datime(2011,1,2,3,4,5).
Not after: datime(2012,1,2,3,4,5).
-----END VALIDITY-----
-----BEGIN PUBLIC KEY-----
cakey
-----END PUBLIC KEY-----
-----BEGIN SIGNATURE-----
c2ln
-----END SIGNATURE-----
-----END MPKI CERTIFICATE-----
-----END MPKI CREDENTIAL-----
".
Definition sample_tokens : list COMMON_TOKEN :=
  match tokenize 200 sample_text with Ok l => visible l | _ => [] end.

Lemma credential_message_witness :
  ∃ pk certs, certs ≠ [] ∧
    (tt ← parse 200 (print sample_tokens); getCredential tt 200 0 (λ _, 0))
    = (c ← finalize 0 (λ _, 0)
             (mkCredential (block PK_HEADER_S pk PK_END_S) [] (map cert_of certs));
       Ok (Some c)).
Proof.
  assert (visible sample_tokens = sample_tokens) as Ev by (vm_compute; reflexivity).
  destruct (credential 200 (ParserProps.start sample_tokens)) as [[[t|] s']|?|?] eqn:E;
    [|vm_compute in E; discriminate E..].
  destruct (parsed_phrase sample_tokens 200 t s') as (o & Ho & _).
  { rewrite Ev. vm_compute. discriminate. }
  { apply (bool_decide_unpack _). by vm_compute. }
  { apply Nat.leb_le. by vm_compute. }
  { exact E. }
  { vm_compute in E. injection E as _ <-. reflexivity. }
  { vm_compute in E. injection E as _ <-. reflexivity. }
  rewrite Ev in Ho.
  destruct (credential_message sample_tokens o 200 0 (λ _, 0)) as [_ H].
  { exact Ho. }
  { apply (bool_decide_unpack _). by vm_compute. }
  { apply Nat.ltb_lt. by vm_compute. }
  destruct H as (pk & certs & _ & Hne & H).
  { apply (bool_decide_unpack _). by vm_compute. }
  { exists (mkToken CERT_HEADER 0 (lit "-----BEGIN MPKI CERTIFICATE-----")). split; [|reflexivity].
    apply (bool_decide_unpack _). by vm_compute. }
  { apply Z.ltb_lt. by vm_compute. }
  exists pk, certs. split; [exact Hne|exact H].
Defined.

(** C4: no message over the alphabet of the language stops the server before the
    walk. Whatever the text, if all its characters are white space, punctuation
    or characters of words, the lexer fills the buffer and the parser returns a
    tree, for every fuel above twice the length of the text: no loop of either
    goes on for ever, no table is read outside its bounds and no null pointer is
    dereferenced. *)
Theorem parse_total msg fuel :
  alphabet msg → (2 * length msg + 2 ≤ fuel)%nat → ∃ tree, parse fuel msg = Ok tree.
Proof.
  intros Hal Hf. unfold parse, tokenize.
  destruct (fillBuffer_ok fuel (RepositoryManagerLexerNew (StringStreamNew msg)))
    as (toks & -> & Hl & Hty); [done|done|cbn; lia|]. cbn [mbind outcome_bind]. cbn in Hl.
  assert (length (visible toks) ≤ length toks)%nat by apply length_filter.
  destruct (credential_returns toks fuel) as (t & s' & E); [|lia|].
  - unfold visible. rewrite Forall_forall in *. intros t [_ Ht]%list_elem_of_filter.
    specialize (Hty t Ht). unfold EOF. lia.
  - unfold start in E. rewrite E. by eexists.
Qed.

Lemma parse_total_witness :
  ∃ tree, parse 200 (lit "-----BEGIN employee(bob :- ,, -----END MPKI") = Ok tree.
Proof.
  apply (parse_total (lit "-----BEGIN employee(bob :- ,, -----END MPKI") 200).
  - apply (bool_decide_unpack _). vm_compute. exact I.
  - apply Nat.leb_le. vm_compute. reflexivity.
Defined.
