(* ===== verification/TransportService.v ===== *)
(** The server: connections, authentication, requests. [class
    TransportService] of src/manager/TransportService.h and the entry point
    src/manager/RepositoryManager.cpp. *)
From S2P Require Import Prelude CppString Utils Policy Certificate Credential.
From S2P Require Import OpenSSL SecurityService Query AstWalker Message.

(** ** Buffers *)

(** Bytes stored in a buffer from an offset on; there is nothing outside it. *)
Definition write_at (buf : str) (off : Z) (data : str) : outcome str :=
  if (off <? 0) || (len buf <? off + len data) then Undef BadIndex
  else Ok (take (Z.to_nat off) buf ++ data ++ drop (Z.to_nat (off + len data)) buf).

(** [memset(buf, 0, n)] on a new buffer of [n] bytes. *)
Definition zeros (n : Z) : str := replicate (Z.to_nat n) nul.

(** What a connection delivers: the results of the successive calls of [read],
    [None] for -1; after the last one the peer has closed it. *)
Definition input : Type := list (option str).

Definition read (inp : input) : option str * input :=
  match inp with
  | [] => (Some [], [])
  | r :: inp => (r, inp)
  end.

(** The loop that [authenticateClient] and [processRequest] share: read into the
    buffer until it holds [marker], the peer stops sending or there is no
    room for another read. *)
Fixpoint read_loop (fuel : nat) (marker : str) (inp : input) (msgBuff : str)
    (bytesRead : Z) : outcome (str * input) :=
  match fuel with
  | O => Undef NoFuel
  | S fuel =>
      let '(r, inp) := read inp in
      let data := default [] r in
      let numRead := match r with Some d => len d | None => -1 end in
      msgBuff ← write_at msgBuff bytesRead data;
      let bytesRead := bytesRead + numRead in
      let numRead := if bool_decide (find (c_str msgBuff) marker ≠ npos) then 0 else numRead in
      if (bytesRead + MAX_READ <? MAX_BUFF) && (0 <? numRead)
      then read_loop fuel marker inp msgBuff bytesRead
      else Ok (msgBuff, inp)
  end.

(** Every round but the last one stores a byte. *)
Definition read_message (marker : str) (inp : input) : outcome (str * input) :=
  '(msgBuff, inp) ← read_loop (Z.to_nat (MAX_BUFF + 1)) marker inp (zeros (MAX_BUFF + 1)) 0;
  Ok (c_str msgBuff, inp).

(** ** State *)

(** The members of the class that are read again, with the static security
    service, the number of values taken from [rand], and, for the connection of
    the process, what is still to be read, what was written, and whether it
    was closed. [socketInit] has no value until [listen] has been called. *)
Record state : Type := mkState {
  policy : str;
  clientAuthenticated : bool;
  processingRequests : bool;
  socketInit : option bool;
  socketListening : bool;
  socketMsg : str;
  children : Z;
  ss : SecurityService;
  rand_pos : nat;
  conn_in : input;
  conn_out : list str;
  conn_closed : bool;
  binder_file : option str
}.

(** The updates of the members. *)
Definition set_auth (b : bool) (s : state) : state :=
  mkState (policy s) b (processingRequests s) (socketInit s) (socketListening s)
    (socketMsg s) (children s) (ss s) (rand_pos s) (conn_in s) (conn_out s)
    (conn_closed s) (binder_file s).
Definition set_processing (b : bool) (s : state) : state :=
  mkState (policy s) (clientAuthenticated s) b (socketInit s) (socketListening s)
    (socketMsg s) (children s) (ss s) (rand_pos s) (conn_in s) (conn_out s)
    (conn_closed s) (binder_file s).
Definition set_listening (b : bool) (s : state) : state :=
  mkState (policy s) (clientAuthenticated s) (processingRequests s) (socketInit s) b
    (socketMsg s) (children s) (ss s) (rand_pos s) (conn_in s) (conn_out s)
    (conn_closed s) (binder_file s).
Definition set_msg (m : str) (s : state) : state :=
  mkState (policy s) (clientAuthenticated s) (processingRequests s) (socketInit s)
    (socketListening s) m (children s) (ss s) (rand_pos s) (conn_in s) (conn_out s)
    (conn_closed s) (binder_file s).
Definition set_children (n : Z) (s : state) : state :=
  mkState (policy s) (clientAuthenticated s) (processingRequests s) (socketInit s)
    (socketListening s) (socketMsg s) n (ss s) (rand_pos s) (conn_in s) (conn_out s)
    (conn_closed s) (binder_file s).
Definition set_ss (x : SecurityService) (s : state) : state :=
  mkState (policy s) (clientAuthenticated s) (processingRequests s) (socketInit s)
    (socketListening s) (socketMsg s) (children s) x (rand_pos s) (conn_in s) (conn_out s)
    (conn_closed s) (binder_file s).
Definition set_conn (inp : input) (out : list str) (s : state) : state :=
  mkState (policy s) (clientAuthenticated s) (processingRequests s) (socketInit s)
    (socketListening s) (socketMsg s) (children s) (ss s) (rand_pos s) inp out
    (conn_closed s) (binder_file s).
Definition add_rand (n : nat) (s : state) : state :=
  mkState (policy s) (clientAuthenticated s) (processingRequests s) (socketInit s)
    (socketListening s) (socketMsg s) (children s) (ss s) (rand_pos s + n) (conn_in s)
    (conn_out s) (conn_closed s) (binder_file s).
Definition close_conn (s : state) : state :=
  mkState (policy s) (clientAuthenticated s) (processingRequests s) (socketInit s)
    (socketListening s) (socketMsg s) (children s) (ss s) (rand_pos s) (conn_in s) (conn_out s)
    true (binder_file s).
Definition set_file (f : option str) (s : state) : state :=
  mkState (policy s) (clientAuthenticated s) (processingRequests s) (socketInit s)
    (socketListening s) (socketMsg s) (children s) (ss s) (rand_pos s) (conn_in s) (conn_out s)
    (conn_closed s) f.

(** [readPolicy]: the result and the policy text; [file] is the contents of the
    file when it can be opened. *)
Definition readPolicy (policyFileName : str) (file : option str) : bool * str :=
  if bool_decide (policyFileName ≠ []) then
    match file with
    | Some f => if 0 <? len f then (true, c_str f) else (false, [])
    | None => (false, [])
    end
  else (false, []).

(** The constructor, with the results of [socket], [bind] and [listen]. *)
Definition TransportService_new (file : option str) (pPolicy : str)
    (socketId bind_ret listen_ret : Z) : state :=
  mkState (readPolicy pPolicy file).2 false false
    (if 0 <? socketId then
       if bind_ret =? 0 then Some (listen_ret =? 0) else None
     else None)
    false [] 0 SecurityService_new 0 [] [] false None.

(** The destructor removes the binder file. *)
Definition destroy (s : state) : state := set_file None s.

(** ** One connection *)

Section connection.
Context {lib : OpenSSL}.
(** The command line switch, the zone, the values of [time] while a credential
    is finalised and verified, the values of [rand], the bound on the
    tokens of a message and on the rounds of its loops, the success of opening
    the binder file, and the value of [executeQuery], [None] when the process is
    killed. *)
Variables (VALIDATE_CERT_TIME : bool) (gmtoff : Z) (clock1 clock2 : nat → Z).
Variable rand : nat → Z.
Variable walk_fuel : nat.
Variable opened : bool.
Variable exec : str → option bool.

(** The message that carries a challenge. *)
Definition challenge_msg (challenge : str) : str :=
  BEGIN_CHALLENGE_S ++ [nl] ++ challenge ++ [nl] ++ END_CHALLENGE_S ++ [nl].

Definition authenticateClient (pCred : Credential) (s : state) : outcome (bool * state) :=
  let challenge := generateChallenge (λ i, rand (rand_pos s + i)%nat) in
  let s := add_rand (Z.to_nat MAX_CHALLENGE_BUF) s in
  let out := conn_out s ++ [challenge_msg challenge] in
  msgDigest ← getMsgDigest challenge;
  '(response, inp) ← read_message END_RESPONSE_S (conn_in s);
  b ← verifySig (Credential.pubKey pCred) response challenge;
  Ok (b, set_conn inp out s).

(** The message that carries a reply. *)
Definition reply_msg (granted : bool) : str :=
  BEGIN_SERVER_RESPONSE_S ++ [nl] ++ (if granted then GRANT_S else DENY_S) ++ [nl]
  ++ END_SERVER_RESPONSE_S ++ [nl].

Definition processRequest (s : state) : outcome (bool * state) :=
  '(request, inp) ← read_message END_CLIENT_REQUEST_S (conn_in s);
  let s := set_conn inp (conn_out s) s in
  let s :=
    if bool_decide (find request FIN_S ≠ npos) then set_processing false s
    else if bool_decide (request = []) then set_processing false s else s in
  if processingRequests s then
    '(query, _) ← generateQuery request (ss s);
    granted ←
      (if bool_decide (query ≠ []) then
         match exec query with Some b => Ok b | None => Undef Killed end
       else Ok false);
    Ok (true, set_conn inp (conn_out s ++ [reply_msg granted]) s)
  else Ok (false, close_conn (set_listening false s)).

Definition processMsg (s : state) : outcome (bool * state) :=
  if bool_decide (socketMsg s = []) then Ok (false, s)
  else
    tt ← parse walk_fuel (socketMsg s);
    c ← getCredential tt walk_fuel gmtoff clock1;
    match c with
    | Some c =>
        sec ← setPolicy (policy s) (ss s);
        '(verified, sec) ← verifyCredential VALIDATE_CERT_TIME gmtoff clock2 (Some c) sec;
        let s := set_ss sec s in
        if (verified : bool) then
          c ← deref (credPtr sec);
          '(b, s) ← authenticateClient c s;
          let s := set_auth b s in
          if (b : bool) then
            '(written, file) ← writeBinderFile opened (ss s);
            let s := set_file file s in
            Ok (true, if (written : bool) then set_processing true s else s)
          else Ok (true, close_conn s)
        else Ok (true, close_conn s)
    | None => Ok (true, close_conn s)
    end.

(** [while(processRequest()){;}] *)
Fixpoint request_loop (fuel : nat) (s : state) : outcome state :=
  match fuel with
  | O => Undef NoFuel
  | S fuel =>
      '(more, s) ← processRequest s;
      if (more : bool) then request_loop fuel s else Ok s
  end.

(** The process of a connection. *)
Definition child_main (fuel : nat) (s : state) : outcome state :=
  '(_, s) ← processMsg s;
  s ← request_loop fuel s;
  Ok (set_children (children s - 1) s).

End connection.

(** ** The listener *)

Definition TIME_OUT : Z := 10.

(** One round of the loop of [startListening]: what [accept] and [read] return,
    whether the two [fork]s succeed, and the seconds the timer shows. *)
Record event : Type := mkEvent {
  ev_fd : Z;
  ev_data : option str;
  ev_rest : input;
  ev_fork1 : bool;
  ev_fork2 : bool;
  ev_elapsed : Z
}.

(** The processes a round starts: for a request of a known client, and for a
    new connection. *)
Inductive job := RequestJob (s : state) | ConnectionJob (s : state).

Definition listen_round (e : event) (s : state) : list job * state :=
  let jobs1 :=
    if processingRequests s && ev_fork1 e
    then [RequestJob (set_children (children s + 1) s)] else [] in
  let '(jobs2, s) :=
    if bool_decide (ev_fd e ≠ 0) then
      let s1 := set_msg (socketMsg s ++ c_str (default [] (ev_data e))) s in
      let child := set_children (children s1 + 1) (set_conn (ev_rest e) [] s1) in
      (if ev_fork2 e then [ConnectionJob child] else [], set_msg [] s1)
    else ([], s) in
  let s := if (children s =? 0) && (TIME_OUT <? ev_elapsed e)
           then set_listening false s else s in
  (jobs1 ++ jobs2, s).

(** [startListening], over the rounds that happen; it ends early when the
    server stops listening. *)
Fixpoint listen_loop (es : list event) (s : state) : list job * state :=
  match es with
  | [] => ([], s)
  | e :: es =>
      if socketListening s then
        let '(jobs, s) := listen_round e s in
        let '(rest, s) := listen_loop es s in
        (jobs ++ rest, s)
      else ([], s)
  end.

Definition startListening (es : list event) (s : state) : outcome (list job * state) :=
  b ← init (socketInit s);
  Ok (if (b : bool) then listen_loop es (set_listening true s) else ([], s)).

(** [main]: the exit status, the switch that turns the validation of times on,
    and the processes that were started. *)
Definition main (argv : list str) (file : option str) (socketId bind_ret listen_ret : Z)
    (es : list event) : outcome (Z * bool * list job) :=
  match argv with
  | _ :: _ :: pPolicy :: rest =>
      let VALIDATE_CERT_TIME := bool_decide (length argv = 4%nat) in
      '(jobs, _) ← startListening es
                    (TransportService_new file pPolicy socketId bind_ret listen_ret);
      Ok (0, VALIDATE_CERT_TIME, jobs)
  | _ => Ok (1, false, [])
  end.

(** ** Lemmas: reading a message *)

(** The bytes of a list of results of [read]. *)
Definition bytes (l : input) : str := concat (map (default []) l).

Definition input_ok (inp : input) : Prop :=
  Forall (λ r, len (default [] r) ≤ MAX_READ) inp.

Lemma length_zeros n : 0 ≤ n → len (zeros n) = n.
Proof. intros H. unfold zeros, len. rewrite length_replicate. lia. Qed.

Lemma zeros_drop n k : 0 ≤ k ≤ n → drop (Z.to_nat k) (zeros n) = zeros (n - k).
Proof. intros H. unfold zeros. rewrite drop_replicate. f_equal. lia. Qed.

Lemma write_at_end d data n :
  len data ≤ n →
  write_at (d ++ zeros n) (len d) data = Ok ((d ++ data) ++ zeros (n - len data)).
Proof.
  intros Hn. pose proof (len_nonneg data). pose proof (len_nonneg d). unfold write_at.
  rewrite len_app, length_zeros by lia.
  destruct (Z.ltb_spec (len d) 0), (Z.ltb_spec (len d + n) (len d + len data)); try lia.
  cbn [orb]. rewrite take_length_app by (unfold len; lia).
  rewrite <-app_assoc. do 3 f_equal.
  replace (Z.to_nat (len d + len data)) with (length d + Z.to_nat (len data))%nat
    by (unfold len; lia).
  rewrite drop_app_add. apply zeros_drop. lia.
Qed.

Lemma c_str_zeros d n : 0 < n → c_str (d ++ zeros n) = c_str d.
Proof.
  intros Hn. induction d as [|c d IH]; cbn.
  - unfold zeros. destruct (Z.to_nat n) eqn:E; [lia|]. cbn. by rewrite bool_decide_eq_true_2.
  - by rewrite IH.
Qed.

Lemma bytes_app l k : bytes (l ++ k) = bytes l ++ bytes k.
Proof. unfold bytes. by rewrite map_app, concat_app. Qed.

(** When the loop stops: the message is complete, the peer has stopped, or the
    buffer has no room for another read. *)
Definition message_end (marker : str) (got : input) (inp' : input) : Prop :=
  find (c_str (bytes got)) marker ≠ npos ∨
  (∃ r, last got = Some r ∧ default [] r = []) ∨ inp' = [] ∨
  MAX_BUFF ≤ len (bytes got) + MAX_READ.

Lemma read_loop_spec fuel marker inp got :
  input_ok inp → len (bytes got) + MAX_READ ≤ MAX_BUFF →
  MAX_BUFF + 1 - len (bytes got) ≤ Z.of_nat fuel →
  ∃ more inp', inp = more ++ inp' ∧
    let d := bytes (got ++ more) in
    len d ≤ MAX_BUFF ∧
    read_loop fuel marker inp (bytes got ++ zeros (MAX_BUFF + 1 - len (bytes got)))
      (len (bytes got)) = Ok (d ++ zeros (MAX_BUFF + 1 - len d), inp') ∧
    message_end marker (got ++ more) inp'.
Proof.
  revert inp got. induction fuel as [|fuel IH]; intros inp got Hok Hroom Hf.
  { unfold MAX_BUFF, MAX_READ in *. lia. }
  cbn [read_loop]. destruct inp as [|r inp]; cbn [read].
  - exists [], []. rewrite app_nil_r. cbn [default from_option id].
    rewrite write_at_end by (unfold MAX_BUFF, MAX_READ in *; len_lia).
    cbn [mbind outcome_bind]. rewrite !len_nil, Z.add_0_r, Z.sub_0_r, app_nil_r.
    assert (∀ (b : bool), (0 <? (if b then 0 else 0)) = false) as -> by by intros [].
    rewrite andb_false_r, app_nil_r. split_and!; [done| |done|].
    + unfold MAX_BUFF, MAX_READ in *. lia.
    + right. right. by left.
  - apply Forall_cons in Hok as [Hr Hok].
    rewrite write_at_end by (unfold MAX_BUFF, MAX_READ in *; len_lia).
    cbn [mbind outcome_bind].
    assert (bytes (got ++ [r]) = bytes got ++ default [] r) as Hb.
    { rewrite bytes_app. unfold bytes at 2. cbn. by rewrite app_nil_r. }
    rewrite <-Hb.
    replace (MAX_BUFF + 1 - len (bytes got) - len (default [] r))
      with (MAX_BUFF + 1 - len (bytes (got ++ [r]))) by (rewrite Hb; len_lia).
    rewrite c_str_zeros by (rewrite Hb; unfold MAX_BUFF, MAX_READ in *; len_lia).
    destruct (_ && _) eqn:E.
    + apply andb_true_iff in E as [E1%Z.ltb_lt E2%Z.ltb_lt].
      assert (r ≠ None) as Hr'. { intros ->. by case_bool_decide. }
      destruct r as [d|]; [|done]. cbn [default from_option id] in *.
      case_bool_decide; [lia|].
      assert (len (bytes got) + len d = len (bytes (got ++ [Some d]))) as Hl
        by (rewrite Hb; len_lia).
      rewrite Hl. destruct (IH inp (got ++ [Some d])) as (more & inp' & -> & H1 & H2 & H3);
        [done|lia|lia|].
      exists (Some d :: more), inp'. rewrite <-app_assoc in *. done.
    + exists [r], inp. split_and!; [done| |done|].
      * rewrite Hb. unfold MAX_BUFF, MAX_READ in *. len_lia.
      * unfold message_end. case_bool_decide as Hm; [by left|].
        right. apply andb_false_iff in E as [E%Z.ltb_ge|E%Z.ltb_ge].
        -- destruct r as [d|]; [right; right; rewrite Hb; cbn [default from_option id] in *; len_lia|].
           left. exists None. by rewrite last_snoc.
        -- left. exists r. rewrite last_snoc. split; [done|].
           destruct r as [d|]; [|done]. cbn. destruct d; [done|]. len_lia.
Qed.

Lemma read_message_spec marker inp :
  input_ok inp →
  ∃ got inp', inp = got ++ inp' ∧ len (bytes got) ≤ MAX_BUFF ∧
    read_message marker inp = Ok (c_str (bytes got), inp') ∧ message_end marker got inp'.
Proof.
  intros Hok. unfold read_message.
  destruct (read_loop_spec (Z.to_nat (MAX_BUFF + 1)) marker inp []) as (got & inp' & -> & Hl & Hr & He);
    [done|done|done|].
  cbn [app] in *. change (bytes [] ++ zeros (MAX_BUFF + 1 - len (bytes [])))
    with (zeros (MAX_BUFF + 1)) in Hr. change (len (bytes [])) with 0 in Hr. rewrite Hr.
  exists got, inp'. cbn [mbind outcome_bind].
  rewrite c_str_zeros by lia. done.
Qed.

(** ** Lemmas: what a request does *)

Section requests.
Context {lib : OpenSSL}.
Variables (V : bool) (gmtoff : Z) (clock1 clock2 rand : nat → Z).
Variable walk_fuel : nat.
Variable opened : bool.
Variable exec : str → option bool.

(** The reply [granted] answers a query that a request of the client gave under
    the credential of [sec], and XSB said yes to the query when it is granted. *)
Definition justified (sec : SecurityService) (granted : bool) : Prop :=
  granted = true → ∃ request query request',
    generateQuery request sec = Ok (query, request') ∧ exec query = Some true.

Lemma processRequest_step s more s' :
  processRequest exec s = Ok (more, s') →
  ss s' = ss s ∧ more = processingRequests s' ∧
  (processingRequests s' = true → processingRequests s = true) ∧
  binder_file s' = binder_file s ∧
  ((more = false ∧ conn_out s' = conn_out s) ∨
   (more = true ∧ ∃ g, conn_out s' = conn_out s ++ [reply_msg g] ∧ justified (ss s) g)).
Proof.
  unfold processRequest. intros H.
  destruct (read_message _ _) as [[request inp]|?|?]; [|done..].
  cbn [mbind outcome_bind] in H.
  set (s1 := if bool_decide (find request FIN_S ≠ npos) then _ else _) in H.
  assert (ss s1 = ss s ∧ conn_out s1 = conn_out s ∧ binder_file s1 = binder_file s ∧
    (processingRequests s1 = true → processingRequests s = true)) as (Hs & Ho & Hf & Hp).
  { unfold s1. case_tests; done. }
  destruct (processingRequests s1) eqn:E.
  - destruct (generateQuery _ _) as [[query msg']|?|?] eqn:Eq; [|done..].
    cbn [mbind outcome_bind] in H. rewrite Hs in Eq.
    case_bool_decide.
    + destruct (exec query) as [b|] eqn:Ex; [|done]. cbn [mbind outcome_bind] in H.
      injection H as <- <-. cbn. rewrite Hs, Ho, Hf, E. split_and!; try done.
      right. split; [done|]. exists b. split; [done|]. intros ->. by do 3 eexists.
    + cbn [mbind outcome_bind] in H. injection H as <- <-. cbn. rewrite Hs, Ho, Hf, E.
      split_and!; try done. right. split; [done|]. by exists false.
  - injection H as <- <-. cbn. rewrite Hs, Ho, Hf, E. split_and!; try done. by left.
Qed.

Lemma request_loop_step fuel s s' :
  request_loop exec fuel s = Ok s' →
  ss s' = ss s ∧ binder_file s' = binder_file s ∧
  ∃ gs, conn_out s' = conn_out s ++ map reply_msg gs ∧ Forall (justified (ss s)) gs ∧
    (processingRequests s = false → gs = []).
Proof.
  revert s. induction fuel as [|fuel IH]; intros s H; [done|]. cbn [request_loop] in H.
  destruct (processRequest exec s) as [[more s1]|?|?] eqn:E; [|done..].
  cbn [mbind outcome_bind] in H.
  apply processRequest_step in E as (Hs & Hm & Hp & Hf & [[-> Ho]|[-> (g & Ho & Hg)]]).
  - injection H as ->. split_and!; [done..|]. exists []. rewrite app_nil_r. done.
  - apply IH in H as (Hs' & Hf' & gs & Ho' & Hgs & _). rewrite Hs', Hf'.
    split_and!; [done..|]. exists (g :: gs). rewrite Ho', Ho, <-app_assoc.
    rewrite Hs in Hgs. split_and!; [done|by constructor|].
    rewrite <-Hm in Hp. intros Hp'. rewrite Hp in Hp' by done. done.
Qed.

(** What has to hold before requests are processed: the client sent a
    credential, every certificate of it was accepted, the client answered the
    challenge, with a signature under the public key of the credential if that can be
    read, and the policy and its statements were written. *)
Definition authenticated (s0 : state) (sec : SecurityService) (file : option str) : Prop :=
  ∃ tt c sec0 response inp,
    socketMsg s0 ≠ [] ∧ parse walk_fuel (socketMsg s0) = Ok tt ∧
    getCredential tt walk_fuel gmtoff clock1 = Ok (Some c) ∧
    setPolicy (policy s0) (ss s0) = Ok sec0 ∧
    verifyCredential V gmtoff clock2 (Some c) sec0 = Ok (true, sec) ∧
    read_message END_RESPONSE_S (conn_in s0) = Ok (response, inp) ∧
    accepted_sig (Credential.pubKey c) response
      (generateChallenge (λ i, rand (rand_pos s0 + i)%nat)) ∧
    writeBinderFile opened sec = Ok (true, file).

Lemma verifyCredential_credPtr cur c s b s' :
  verifyCredential V gmtoff cur (Some c) s = Ok (b, s') →
  ∃ c', credPtr s' = Some c' ∧ Credential.pubKey c' = Credential.pubKey c.
Proof.
  unfold verifyCredential. intros H. destruct (getKeyDigest _) as [kd|?|?]; [|done..].
  cbn [mbind outcome_bind] in H.
  destruct (verify_certs _ _ _ _ _ _) as [[[b1 l1] p1]|?|?]; [|done..].
  cbn [mbind outcome_bind] in H. injection H as <- <-. by eexists.
Qed.

Lemma processMsg_step s r s' :
  processMsg V gmtoff clock1 clock2 rand walk_fuel opened s = Ok (r, s') →
  processingRequests s = false →
  (processingRequests s' = true → authenticated s (ss s') (binder_file s')) ∧
  ∃ cs, conn_out s' = conn_out s ++ map challenge_msg cs.
Proof.
  unfold processMsg. intros H Hp. case_bool_decide as Hm.
  { injection H as <- <-. split; [by rewrite Hp|]. exists []. by rewrite app_nil_r. }
  destruct (parse _ _) as [tt|?|?] eqn:Et; [|done..]. cbn [mbind outcome_bind] in H.
  destruct (getCredential _ _ _ _) as [[c|]|?|?] eqn:Ec; [| |done..];
    cbn [mbind outcome_bind] in H.
  2:{ injection H as <- <-. split; [cbn; by rewrite Hp|]. exists []. cbn. by rewrite app_nil_r. }
  destruct (setPolicy _ _) as [sec0|?|?] eqn:Es; [|done..]. cbn [mbind outcome_bind] in H.
  destruct (verifyCredential _ _ _ _ _) as [[v sec]|?|?] eqn:Ev; [|done..].
  cbn [mbind outcome_bind] in H. destruct v.
  2:{ injection H as <- <-. split; [cbn; by rewrite Hp|]. exists []. cbn. by rewrite app_nil_r. }
  destruct (verifyCredential_credPtr _ _ _ _ _ Ev) as (c' & Hc' & Hk).
  rewrite Hc' in H. cbn [deref mbind outcome_bind] in H. unfold authenticateClient in H.
  destruct (getMsgDigest _) as [d|?|?]; [|done..]. cbn [mbind outcome_bind] in H.
  cbn [conn_in set_ss add_rand rand_pos] in H.
  destruct (read_message _ _) as [[response inp]|?|?] eqn:Er; [|done..].
  cbn [mbind outcome_bind] in H. rewrite Hk in H.
  destruct (verifySig _ _ _) as [[]|?|?] eqn:Eg; [| |done..]; cbn [mbind outcome_bind] in H.
  2:{ injection H as <- <-. split; [cbn; by rewrite Hp|].
      exists [generateChallenge (λ i, rand (rand_pos s + i)%nat)]. done. }
  cbn [ss set_auth set_conn add_rand set_ss] in H.
  destruct (writeBinderFile _ _) as [[[] file]|?|?] eqn:Ew; [| |done..];
    cbn [mbind outcome_bind] in H; injection H as <- <-;
    (split; [|exists [generateChallenge (λ i, rand (rand_pos s + i)%nat)]; done]).
  - intros _. cbn. exists tt, c, sec0, response, inp. apply verifySig_accepted in Eg. done.
  - cbn. by rewrite Hp.
Qed.

End requests.

(** A request is answered, and then some input has been read, or it closes the
    connection. *)
Lemma processRequest_total exec s :
  input_ok (conn_in s) → (∀ q, is_Some (exec q)) →
  (processingRequests s = true → is_Some (credPtr (ss s))) →
  (∃ s', processRequest exec s = Ok (false, s') ∧ conn_closed s' = true ∧ conn_out s' = conn_out s) ∨
  (∃ s' b, processRequest exec s = Ok (true, s') ∧ conn_out s' = conn_out s ++ [reply_msg b] ∧
     input_ok (conn_in s') ∧ (length (conn_in s') < length (conn_in s))%nat ∧
     (processingRequests s' = true → is_Some (credPtr (ss s')))).
Proof.
  intros Hin Hex Hcred. destruct (read_message_spec END_CLIENT_REQUEST_S (conn_in s) Hin)
    as (got & inp & Hgot & Hl & Hr & _).
  unfold processRequest. rewrite Hr. cbn [mbind outcome_bind]. case_bool_decide; [by left; eexists|].
  case_bool_decide as Hne; [by left; eexists|].
  cbn [processingRequests set_conn]. destruct (processingRequests s) eqn:Hp; [|by left; eexists].
  right. destruct (generateQuery_ok (c_str (bytes got)) (ss s)) as (q & msg & Hq & _);
    [|by apply Hcred|].
  { pose proof (len_c_str (bytes got)). unfold str_ok, MAX_BUFF in *. lia. }
  cbn [ss set_conn]. rewrite Hq. cbn [mbind outcome_bind].
  assert (∃ b, (if bool_decide (q ≠ []) then match exec q with Some b => Ok b | None => Undef Killed end
    else Ok false) = Ok b) as [b ->].
  { case_bool_decide; [|by eexists]. destruct (Hex q) as [b ->]. by eexists. }
  cbn [mbind outcome_bind]. eexists _, b. split; [reflexivity|]. cbn [conn_out conn_in set_conn].
  rewrite Hgot in *. unfold input_ok in *. apply Forall_app in Hin as [_ Hin].
  split_and!; [done|done| |intros _; by apply Hcred]. destruct got; [by destruct Hne|]. cbn. rewrite length_app. lia.
Qed.

(** ** Properties *)

(** C10: the read loop is safe against any client. As long as each [read] stores at
    most the 128 bytes it was given room for, the loop ends, no byte is stored
    outside the buffer of 51201 bytes, and the message is the text of the bytes
    received so far, up to their first NUL; the loop stops only because the
    marker has arrived, because the peer stopped or failed, or because the
    buffer is full. *)
Theorem read_message_safe marker inp :
  input_ok inp →
  ∃ got inp', inp = got ++ inp' ∧ len (bytes got) ≤ MAX_BUFF ∧
    read_message marker inp = Ok (c_str (bytes got), inp') ∧ message_end marker got inp'.
Proof. apply read_message_spec. Qed.

Lemma read_message_safe_witness :
  ∃ got inp', [Some (lit "request(read,"); Some (lit "f).END"); Some (lit "more")] = got ++ inp' ∧
    read_message (lit "END") [Some (lit "request(read,"); Some (lit "f).END"); Some (lit "more")]
    = Ok (c_str (bytes got), inp').
Proof.
  destruct (read_message_safe (lit "END")
    [Some (lit "request(read,"); Some (lit "f).END"); Some (lit "more")])
    as (got & inp' & H1 & _ & H2 & _);
    [apply (bool_decide_unpack _); by vm_compute|].
  exists got, inp'. split; [exact H1|exact H2].
Defined.

(** C1: access control. In the process of a connection that starts without a
    processed message, every message sent to the client is a challenge or a
    reply; if any reply is sent, the client was authenticated: its credential
    was verified, it answered the challenge, and if the public key of that credential
    can be read, its answer was a signature of the challenge under that key (with a key
    that cannot be read any answer will do), and the policy with the statements of the
    certificates was written; and each reply that grants answers a query that
    was generated for that credential and that XSB answered with yes. *)
Theorem child_main_safe {lib : OpenSSL} V gmtoff clock1 clock2 rand walk_fuel
    opened exec fuel s s' :
  child_main V gmtoff clock1 clock2 rand walk_fuel opened exec fuel s = Ok s' →
  processingRequests s = false → conn_out s = [] →
  ∃ cs gs, conn_out s' = map challenge_msg cs ++ map reply_msg gs ∧
    Forall (justified exec (ss s')) gs ∧
    (gs ≠ [] → authenticated V gmtoff clock1 clock2 rand walk_fuel opened s
                 (ss s') (binder_file s')).
Proof.
  unfold child_main. intros H Hp Ho.
  destruct (processMsg _ _ _ _ _ _ _ _) as [[r s1]|?|?] eqn:Em; [|done..].
  cbn [mbind outcome_bind] in H.
  destruct (request_loop _ _ _) as [s2|?|?] eqn:El; [|done..].
  cbn [mbind outcome_bind] in H. injection H as <-. cbn.
  apply processMsg_step in Em as (Ha & cs & Hcs); [|done].
  apply request_loop_step in El as (Hs & Hf & gs & Hgs & Hj & Hg).
  exists cs, gs. rewrite Hgs, Hcs, Ho, Hs, Hf. split_and!; [done..|].
  intros Hne. destruct (processingRequests s1); [by apply Ha|]. by destruct Hne, Hg.
Qed.

(** A connection that sends a credential, a response and a request. *)
Definition sample_state : state :=
  mkState (lit "/* policy */ allow(bob,read).") false false (Some true) true
    sample_text 1 SecurityService_new 0
    [Some (lit "-sig " ++ END_RESPONSE_S); Some (lit "request(read,f)." ++ END_CLIENT_REQUEST_S);
     Some (lit "exit")] [] false None.

Lemma child_main_safe_witness :
  ∃ s', child_main false 0 (λ _, 0) (λ _, 0) (λ _, 0) 200 true
          (λ _, Some true) 10 sample_state = Ok s' ∧
    authenticated false 0 (λ _, 0) (λ _, 0) (λ _, 0) 200 true
      sample_state (ss s') (binder_file s').
Proof.
  eexists. split; [vm_compute; reflexivity|].
  edestruct (child_main_safe false 0 (λ _, 0) (λ _, 0) (λ _, 0) 200 true
    (λ _, Some true) 10 sample_state) as (cs & gs & Ho & _ & Ha);
    [vm_compute; reflexivity|reflexivity|reflexivity|].
  apply Ha. intros ->. vm_compute in Ho.
  destruct cs as [|c1 [|c2 cs]]; vm_compute in Ho; discriminate Ho.
Defined.

(** The branches of a request. A request that contains "exit" anywhere, or is
    empty, or comes before a credential was accepted, closes the connection
    and is not answered; any other request is answered by exactly one reply,
    denied when no query can be made of it and otherwise as XSB answers. *)
Theorem processRequest_branches exec s request inp :
  read_message END_CLIENT_REQUEST_S (conn_in s) = Ok (request, inp) →
  processRequest exec s =
    if decide (processingRequests s = true ∧ request ≠ [] ∧ find request FIN_S = npos) then
      '(query, _) ← generateQuery request (ss s);
      match (if decide (query = []) then Some false else exec query) with
      | Some b => Ok (true, set_conn inp (conn_out s ++ [reply_msg b]) s)
      | None => Undef Killed
      end
    else Ok (false, close_conn (set_listening false (set_conn inp (conn_out s)
      (if decide (request = [] ∨ find request FIN_S ≠ npos) then set_processing false s else s)))).
Proof.
  intros Hr. unfold processRequest. rewrite Hr. cbn [mbind outcome_bind].
  destruct (decide (request = [])) as [->|Hne].
  { change (find [] FIN_S) with npos. rewrite bool_decide_eq_false_2 by auto.
    rewrite bool_decide_eq_true_2 by done. cbn [processingRequests set_processing].
    rewrite decide_False by naive_solver. by rewrite decide_True by auto. }
  destruct (decide (find request FIN_S = npos)) as [Hf|Hf].
  2:{ rewrite bool_decide_eq_true_2 by done. cbn [processingRequests set_processing].
      rewrite decide_False by naive_solver. by rewrite decide_True by auto. }
  rewrite bool_decide_eq_false_2 by auto. rewrite bool_decide_eq_false_2 by done.
  cbn [processingRequests set_conn]. destruct (processingRequests s) eqn:E.
  - rewrite decide_True by done. cbn [ss set_conn].
    destruct (generateQuery request (ss s)) as [[query msg]|?|?]; [|done..].
    cbn [mbind outcome_bind]. destruct (decide (query = [])) as [->|Hq].
    + by rewrite bool_decide_eq_false_2 by auto.
    + rewrite bool_decide_eq_true_2 by done. by destruct (exec query).
  - rewrite decide_False by naive_solver. by rewrite decide_False by naive_solver.
Qed.

Lemma processRequest_branches_witness :
  let s := set_processing true (set_conn [Some (lit "request(read,exit_plan).")] [] sample_state) in
  ∃ s', processRequest (λ _, Some true) s = Ok (false, s') ∧ conn_closed s' = true ∧
    conn_out s' = [].
Proof.
  eexists. split.
  - rewrite (processRequest_branches _ _ (lit "request(read,exit_plan).") []) by (vm_compute; reflexivity).
    rewrite decide_False by (intros (_ & _ & H); vm_compute in H; discriminate H). reflexivity.
  - split; reflexivity.
Defined.

(** C11: a connection is served to its end. Once XSB answers every query, the loop
    over the requests of a client returns for every fuel above the number of
    pieces in which the input arrives, whatever they hold; it leaves the
    connection closed, and it has answered at most one request for each piece. *)
Theorem request_loop_total exec s fuel :
  input_ok (conn_in s) → (∀ q, is_Some (exec q)) →
  (processingRequests s = true → is_Some (credPtr (ss s))) →
  (length (conn_in s) < fuel)%nat →
  ∃ s' gs, request_loop exec fuel s = Ok s' ∧ conn_closed s' = true ∧
    conn_out s' = conn_out s ++ map reply_msg gs ∧ (length gs ≤ length (conn_in s))%nat.
Proof.
  intros Hin Hex. revert s Hin. induction fuel as [|fuel IH]; intros s Hin Hcred Hf; [lia|].
  cbn [request_loop]. destruct (processRequest_total exec s Hin Hex Hcred)
    as [(s' & -> & Hcl & Ho)|(s' & b & -> & Ho & Hin' & Hl & Hcred')]; cbn [mbind outcome_bind].
  - exists s', []. rewrite app_nil_r. split_and!; [done..|cbn; lia].
  - destruct (IH s' Hin' Hcred') as (s2 & gs & -> & Hcl & Ho2 & Hgs); [lia|].
    exists s2, (b :: gs). rewrite Ho2, Ho, <-app_assoc. split_and!; [done..|cbn; lia].
Qed.

Lemma request_loop_total_witness :
  ∃ s' gs, request_loop (λ _, Some true) 4
      (set_ss sample_verified (set_processing true (set_conn
        [Some (lit "request(read,f)." ++ END_CLIENT_REQUEST_S); None; Some (lit "exit")] []
        sample_state))) = Ok s' ∧ conn_closed s' = true ∧
    conn_out s' = map reply_msg gs ∧ (length gs ≤ 3)%nat.
Proof.
  destruct (request_loop_total (λ _, Some true)
    (set_ss sample_verified (set_processing true (set_conn
      [Some (lit "request(read,f)." ++ END_CLIENT_REQUEST_S); None; Some (lit "exit")] []
      sample_state))) 4) as (s' & gs & H1 & H2 & H3 & H4);
    [apply (bool_decide_unpack _); by vm_compute|by eexists|by eexists|apply Nat.ltb_lt; reflexivity|].
  exists s', gs. split; [exact H1|]. split; [exact H2|]. split; [exact H3|exact H4].
Defined.

(** ** The listener *)

(** The members a listening server never changes. *)
Definition listening_clean (s : state) : Prop :=
  processingRequests s = false ∧ clientAuthenticated s = false ∧ children s = 0 ∧
  socketMsg s = [].

Definition event_conn (e : event) (s : state) : state :=
  set_children 1 (set_conn (ev_rest e) [] (set_msg (c_str (default [] (ev_data e))) s)).

Definition same_server (s s' : state) : Prop :=
  policy s' = policy s ∧ ss s' = ss s ∧ rand_pos s' = rand_pos s.

Lemma listen_round_clean e s jobs s' :
  listening_clean s → listen_round e s = (jobs, s') →
  listening_clean s' ∧ same_server s s' ∧
  jobs = (if bool_decide (ev_fd e ≠ 0 ∧ ev_fork2 e = true)
          then [ConnectionJob (event_conn e s)] else []) ∧
  (socketListening s' = socketListening s && negb (TIME_OUT <? ev_elapsed e)).
Proof.
  intros (Hp & Ha & Hc & Hm). unfold listen_round. rewrite Hp. cbn [andb].
  unfold event_conn, listening_clean, same_server.
  destruct (bool_decide (ev_fd e ≠ 0)) eqn:Efd; intros H.
  - apply bool_decide_eq_true in Efd. cbn [children set_msg] in H. rewrite Hc, Hm in H.
    cbn [Z.eqb andb app] in H. destruct (ev_fork2 e) eqn:Ef, (TIME_OUT <? ev_elapsed e);
      injection H as <- <-; cbn; rewrite ?andb_true_r, ?andb_false_r, ?Hc;
      (rewrite bool_decide_eq_true_2 by done) || (rewrite bool_decide_eq_false_2 by naive_solver);
      rewrite ?Ha, ?Hp; done.
  - apply bool_decide_eq_false in Efd. rewrite Hc in H.
    cbn [Z.eqb andb app] in H. rewrite bool_decide_eq_false_2 by tauto.
    destruct (TIME_OUT <? ev_elapsed e); injection H as <- <-; cbn;
      rewrite ?andb_true_r, ?andb_false_r; done.
Qed.

Lemma listen_loop_jobs_spec es s jobs s' :
  listening_clean s → listen_loop es s = (jobs, s') →
  listening_clean s' ∧ same_server s s' ∧
  Forall (λ j, ∃ e st, e ∈ es ∧ j = ConnectionJob st ∧ processingRequests st = false ∧
      clientAuthenticated st = false ∧ conn_out st = [] ∧ conn_in st = ev_rest e ∧
      socketMsg st = c_str (default [] (ev_data e)) ∧ same_server s st) jobs.
Proof.
  revert s jobs s'. induction es as [|e es IH]; intros s jobs s' Hs H; cbn in H.
  { injection H as <- <-. done. }
  destruct (socketListening s); [|injection H as <- <-; done].
  destruct (listen_round e s) as [j1 s1] eqn:E1.
  destruct (listen_loop es s1) as [j2 s2] eqn:E2. injection H as <- <-.
  pose proof Hs as (Hp & Ha & _).
  apply listen_round_clean in E1 as (Hs1 & Hsame & -> & _); [|done].
  apply IH in E2 as (Hs2 & Hsame2 & Hj); [|done]. unfold same_server in *.
  destruct Hsame as (? & ? & ?), Hsame2 as (? & ? & ?).
  split; [done|]. split; [split_and!; congruence|].
  apply Forall_app. split.
  - case_bool_decide; [|done]. apply Forall_singleton. exists e. eexists.
    split_and!; [by left|done..].
  - eapply Forall_impl; [done|]. intros j (e' & st & ? & -> & Hst). exists e', st.
    destruct_and! Hst. split_and!; [by right|done..| | |]; congruence.
Qed.

(** C8: processes are isolated. From its initial state the listener never takes
    on the state of a client: every process it starts is one for a new
    connection, with no credential, no authentication and no accepted message,
    whose message is the text received on that connection alone, and with the
    same policy, security service and position in the sequence of [rand]. *)
Theorem listen_loop_jobs es s jobs s' :
  listening_clean s → listen_loop es s = (jobs, s') →
  listening_clean s' ∧ same_server s s' ∧
  Forall (λ j, ∃ e st, e ∈ es ∧ j = ConnectionJob st ∧ processingRequests st = false ∧
      clientAuthenticated st = false ∧ conn_out st = [] ∧ conn_in st = ev_rest e ∧
      socketMsg st = c_str (default [] (ev_data e)) ∧ same_server s st) jobs.
Proof. apply listen_loop_jobs_spec. Qed.

Lemma listen_loop_jobs_witness :
  ∃ jobs s', listen_loop [mkEvent 5 (Some (lit "a credential")) [] true true 3]
    (set_msg [] (set_children 0 sample_state)) = (jobs, s') ∧ length jobs = 1%nat ∧
    listening_clean s'.
Proof.
  do 2 eexists. split; [vm_compute; reflexivity|]. split; [reflexivity|].
  eapply (listen_loop_jobs [mkEvent 5 (Some (lit "a credential")) [] true true 3]
    (set_msg [] (set_children 0 sample_state))); [done|vm_compute; reflexivity].
Defined.

(** The server counts no clients. Since the count is only changed in the
    processes of the clients, the listener stops at the first round at
    which the timer shows more than [TIME_OUT] seconds, however many connections
    are being served. *)
Theorem listen_round_timeout e s jobs s' :
  listening_clean s → socketListening s = true → listen_round e s = (jobs, s') →
  socketListening s' = negb (TIME_OUT <? ev_elapsed e).
Proof.
  intros Hs Hl H. apply listen_round_clean in H as (_ & _ & _ & ->); [|done].
  by rewrite Hl.
Qed.

Lemma listen_round_timeout_witness :
  ∃ s', listen_round (mkEvent 5 (Some (lit "a credential")) [] true true 11)
      (set_msg [] (set_children 0 sample_state))
    = ([ConnectionJob (event_conn (mkEvent 5 (Some (lit "a credential")) [] true true 11)
         (set_msg [] (set_children 0 sample_state)))], s') ∧ socketListening s' = false.
Proof.
  eexists. split; [reflexivity|].
  eapply (listen_round_timeout (mkEvent 5 (Some (lit "a credential")) [] true true 11)
    (set_msg [] (set_children 0 sample_state))); [done|done|reflexivity].
Defined.

(** C40: challenges repeat. Every connection of a server is sent the same
    challenge, so that a response recorded on one connection authenticates its
    sender on another: for two connections that present the same public key,
    the same input gives the same answer of [authenticateClient]. *)
Theorem authenticateClient_replay {lib : OpenSSL} es s jobs s' rand st1 st2 c inp :
  listening_clean s → listen_loop es s = (jobs, s') →
  ConnectionJob st1 ∈ jobs → ConnectionJob st2 ∈ jobs →
  (r1 ← authenticateClient rand c (set_conn inp [] st1); Ok (r1.1, conn_out r1.2))
  = (r2 ← authenticateClient rand c (set_conn inp [] st2); Ok (r2.1, conn_out r2.2)).
Proof.
  intros Hs H H1 H2. apply listen_loop_jobs_spec in H as (_ & _ & H); [|done].
  rewrite Forall_forall in H.
  destruct (H _ H1) as (e1 & x1 & _ & [= <-] & _ & _ & _ & _ & _ & Hr1).
  destruct (H _ H2) as (e2 & x2 & _ & [= <-] & _ & _ & _ & _ & _ & Hr2).
  unfold same_server in *. destruct_and! Hr1. destruct_and! Hr2.
  unfold authenticateClient. cbn [rand_pos set_conn conn_in conn_out].
  assert (rand_pos st1 = rand_pos st2) as -> by congruence.
  destruct (getMsgDigest _) as [d|?|?]; [|done..]. cbn [mbind outcome_bind conn_in add_rand].
  destruct (read_message _ _) as [[response rest]|?|?]; [|done..]. cbn [mbind outcome_bind].
  by destruct (verifySig _ _ _) as [b|?|?].
Qed.

Lemma authenticateClient_replay_witness :
  ∃ jobs s' st1 st2,
    listen_loop [mkEvent 5 (Some (lit "one")) [] true true 3; mkEvent 6 (Some (lit "two")) [] true true 4]
      (set_msg [] (set_children 0 sample_state)) = (jobs, s') ∧
    jobs = [ConnectionJob st1; ConnectionJob st2] ∧
    (r1 ← authenticateClient (λ i, Z.of_nat i) (mkCredential (lit "key") [] [])
            (set_conn [Some (lit "-sig" ++ END_RESPONSE_S)] [] st1); Ok (r1.1, conn_out r1.2))
    = (r2 ← authenticateClient (λ i, Z.of_nat i) (mkCredential (lit "key") [] [])
            (set_conn [Some (lit "-sig" ++ END_RESPONSE_S)] [] st2); Ok (r2.1, conn_out r2.2)).
Proof.
  do 4 eexists. split; [vm_compute; reflexivity|]. split; [reflexivity|].
  eapply (authenticateClient_replay
    [mkEvent 5 (Some (lit "one")) [] true true 3; mkEvent 6 (Some (lit "two")) [] true true 4]
    (set_msg [] (set_children 0 sample_state)));
    [done|vm_compute; reflexivity|left; reflexivity|right; left; reflexivity].
Defined.
